(* ===== verification/_CoqProject ===== *)
-Q . S2P
Prelude.v
VersionDag.v
Fingerprint.v
VersionStore.v
Blobs.v
MemVersionStore.v
Prune.v
DocumentStore.v
Versioned.v
VersionedProps.v
VersionedWrites.v
SqliteVersionStore.v
SqliteRefinement.v
SqliteProps.v
Backends.v
StoreExamples.v
Migration.v
Topics.v
Bus.v
StreamLog.v
StreamWire.v
StreamHandshake.v
StreamCursor.v
NetworkFrame.v
StreamLink.v
StreamDelivery.v
StreamProgress.v
StreamAck.v
AckLink.v
AckDelivery.v
Domain.v
HLC.v
Merge.v
Replicator.v
Delivery.v
Convergence.v
VersionedRepo.v
Breaker.v
KvStore.v
KvMemory.v
KvSqlite.v
Digests.v
GoStrings.v
WebhookVerify.v
Webhook.v
WebhookExamples.v
Jobs.v
JobProps.v
Poller.v
JobExamples.v
Capacity.v
Invocation.v
IdemStore.v
Idempotency.v
IdempotencyExamples.v
Usage.v
UsageExamples.v
Reflect.v
Bridge.v
BridgeExamples.v
NetIP.v
RateLimit.v
Admission.v
AdmissionExamples.v
Regexp.v
Prefilter.v
PrefilterScan.v
Redact.v
RedactLaws.v
RedactPolicy.v
RedactSpec.v
RedactExamples.v
NetPolicy.v
RunCache.v
Consent.v
Grants.v
GrantsProps.v
AuditRelay.v
Upgrade.v
DocMigrate.v
