(* ===== verification/Prelude.v ===== *)
(** * kit: a verification library for the engine core of hop-top/poly-kit

    ** The program

    poly-kit is a toolkit of Go packages.  The subsystems that carry most of its
    own logic are modelled here.

    - The versioned document store (engine/store).  A [DocumentStore] keeps JSON
      documents in a table; a [VersionStore] keeps, per document, a history of
      versions with a parent DAG, content-addressed reference-counted snapshots
      and a live flag per head; [VersionedDocumentStore] combines the two and
      offers create, update, conditional update, delete, revert, fork, merge,
      abandon and prune.  There are two version backends, in memory and on
      SQLite; on SQLite a document write and its version commit in one
      transaction.  Boot-time migrations bring old databases up to date.
    - Entities, events and replication (go/runtime).  A domain [Service] writes
      entities through a repository behind veto-able events; events travel over
      a bus with wildcard topics; a [Replicator] turns them into diffs stamped by
      a hybrid logical clock and exchanges them with remotes through transports.
      A [VersionedRepository] records a version DAG for a repository.
    - Network links (go/runtime/bus).  An adapter keeps a log of the events it
      forwards under dense offsets.  A dialer connects to an acceptor with a
      handshake that negotiates capabilities and resumes a stream at the last
      offset it saw; the acceptor's writer sends what the link's subscription
      lets through, with resets for what it can no longer send and positions
      as heartbeats.  In the other direction a dialer may ask for
      acknowledgements: the acceptor answers every frame in order, remembers
      what it answered to recognise frames sent again, and the dialer's tracker
      turns the answers into the outcome of a publish.
    - Jobs (go/runtime/job).  A service queues jobs and leases each to one worker
      at a time; failed attempts come back after a delay, expired leases are
      released, and every change of status goes through the state machine of the
      domain package.  A poller claims jobs and reports what their handlers did.
    - Key-value stores (go/storage/kv) with expiring entries and
      insert-if-absent, in memory under a byte budget and on SQLite, and the
      webhook receiver (go/transport/webhook) that checks signatures and replay
      windows, claims each delivery in such a store and publishes it.
    - The circuit breaker (go/core/breaker): a circuit that opens after
      consecutive failures and probes its way back, budgets of calls and bytes,
      and the wrappers that put calls behind it.
    - The command bridge (go/transport/cmdsurface, go/ai/cmdreflect).  The tree
      of a tool's commands is reflected with the risk each one declares; the
      bridge offers its leaves on surfaces such as REST and MCP.  A call passes
      gates in a fixed order: exposure, invocability, authentication, the ceiling
      on destruction, scopes, permission, rate limit, idempotency, result cache,
      quota; a call that runs then takes a slot of the capacity gate.  The
      idempotency ledger replays what a key already ran, the usage ledger counts
      calls over fixed windows, and the result cache answers a fresh result or
      lets identical calls wait for the one that runs.
    - Redaction (go/core/redact).  A redactor holds rules, each a regular
      expression with keywords, an entropy floor and allowlists; it screens a
      text for the literals its rules require before it runs them, merges what
      they hit and replaces it.  Detection reports more leniently than
      redaction replaces.
    - Network policies (go/core/netpolicy): which destinations a context may
      reach, enforced on requests, redirects and dials.
    - Consent (go/core/consent): grants of capabilities to subjects, decided by
      prompts, files and the environment, with every use audited; the audit log
      is delivered onto the bus by a relay.
    - Upgrades (go/core/upgrade): versioned migrations of schemas with backup,
      verification and rollback, and of JSON documents.

    ** Files

    - Prelude: Go results and methods as state passing ([st]), string order,
      shared list lemmas, iteration orders of Go maps.
    - VersionDag: go/runtime/domain/version/dag.go.
    - Fingerprint: go/core/util/fingerprint.go, with SHA-256 written out.
    - VersionStore: the interface of engine/store/versionstore.go as a class of
      operations, its normative comments as a class of laws.
    - Blobs: the reference-counting argument both backends share.
    - MemVersionStore: engine/store/versionstore_inmemory.go, and the laws.
    - Prune: policyExceeds and computePrunable of engine/store/versioned.go.
    - DocumentStore: engine/store/document.go, with SQLite's LIKE.
    - Versioned: the operations of engine/store/versioned.go on both paths.
      VersionedProps and VersionedWrites hold their theorems, proved against the
      interface.
    - SqliteVersionStore: tables, statements and methods of
      engine/store/versionstore_sqlite.go; SqliteRefinement: the laws;
      SqliteProps: reachable stores, the DAG cache under concurrency.
    - Backends: two lawful backends answer alike.
    - StoreExamples: concrete runs, and interleavings of read-then-write
      operations.  Migration: the boot-time migrations.
    - Topics: go/runtime/bus event.go, topics.go, validate.go, network_filter.go.
      Bus: the in-memory bus of bus.go.
    - StreamLog: stream_log.go, the log interface as a class and the ring that
      implements it.  StreamWire, StreamHandshake, StreamCursor, NetworkFrame:
      the files of those names, over JSON values.  StreamLink: both ends of a
      stream link (network_link.go, network_session.go).  StreamDelivery and
      StreamProgress: the two ends with a connection between them.
    - StreamAck: stream_ack.go and the tickets of ack.go.  AckLink: the
      acknowledged links of network_ack.go.  AckDelivery: what an
      acknowledgement means, and runs.
    - Domain: go/runtime/domain (service, topics, state machine, context).
    - HLC: go/runtime/sync/clock.go.  Merge: diff.go and merge.go.
      Replicator: remote.go, transport_memory.go, status.go and replicator.go.
      Delivery: the replicator's goroutines.  Convergence: service, bus,
      replicator, transport and follower wired together.
    - VersionedRepo: go/runtime/domain/version/repository.go.
    - Breaker: circuit.go, breaker.go, options.go, wrap.go and the threshold
      policy of go/core/breaker.
    - KvStore: the interfaces of go/storage/kv/kv.go as a class, their comments
      as laws, and what a lawful driver answers after any history.  KvMemory and
      KvSqlite: the drivers memory/memory.go and sqlite/sqlite.go with the laws.
    - Digests: SHA-1, SHA-512, HMAC and base64 of the standard library.
      WebhookVerify: go/transport/webhook/verify.go.  Webhook: receiver.go and
      handshake.go, proved against the key-value interface.  WebhookExamples:
      runs on both drivers.
    - Jobs: go/runtime/job status.go, job.go, service.go, event.go and the
      in-memory engine mock/engine.go.  JobProps: its theorems.  Poller:
      poller.go and opportunistic.go.  JobExamples: runs.
    - GoStrings, NetIP: what the code uses of strconv, strings, net and net/url.
    - Reflect: go/ai/cmdreflect and the annotations of go/console/cli/cmdmeta.
      Bridge: bridge.go, safety.go, scope.go and withhold.go of
      go/transport/cmdsurface up to the permission gate.  Invocation:
      invocation.go, admitted, idempotency_scope.go and the argv of runner.go.
      RateLimit: ratelimit.go and the keys of quota.go.  Admission: Admit whole,
      with the quota gate and the lookup of cache.go.
    - Idempotency: idempotency.go over the stores of go/console/cli/idemstore
      (IdemStore: the interface as a class with laws, the memory and SQLite
      stores).  Usage: ledger.go over the key-value interface.  Capacity:
      capacity.go.  BridgeExamples, AdmissionExamples, IdempotencyExamples,
      UsageExamples: runs.  RunCache: the runs of cache.go and the bounds of
      deadline.go.
    - Regexp: UTF-8, the syntax trees of regexp/syntax and what they match.
      Prefilter: prefilter.go and distinctive.go, what a tree requires of a text;
      PrefilterScan: the index of literals and the one-pass scanner.  Redact:
      rule.go, redact.go, replacement.go and spans.go over an engine for regular
      expressions, which is a class; RedactLaws: its laws, merging, that screening
      is sound, and what is counted and reported; RedactPolicy: policy.go and loader.go with the slices patches are
      written through; RedactSpec: the properties; RedactExamples: an engine for
      literals, and runs.
    - NetPolicy: the files of go/core/netpolicy and their properties.
    - Consent: grant.go, consent.go, resolve.go and donottrack.go.  Grants:
      grants.go and grant_store.go over stores and auditors, which are classes
      with laws; GrantsProps: the properties and runs.
      AuditRelay: audit_file.go and relay.go.
    - Upgrade: migration.go, migrate.go and the versions of check.go.
      DocMigrate: document.go.

    ** How the code is modelled

    A Go method is a function from the receiver's state to a result and the
    state it leaves, with the mutations made before an early return kept.
    Structs are records, maps are [gmap]s, tables are maps or lists in rowid
    order with the constraints of the schema.  Readings of the clock, UUIDs and
    the order in which Go ranges over a map are arguments.  Libraries are
    parameters with their documented behaviour as named hypotheses: the hash
    ([Hasher]), the text form of times ([GoTime]), JSON ([JSON], [EntityJSON],
    [JSONRoundTrip], [RunCodecLaws]), the engine for regular expressions and the
    case mapping of Unicode ([Engine], [EngineLaws]), floating-point entropy,
    international domain names, and what net/http copies to a redirect.  Reference counts keep the bound of [int64], timestamps the
    32 bits of their counter, subscription ids and stream offsets their 64.
    Goroutines that talk over a connection are steps on a common state with the
    frames in flight as lists, and any interleaving of them is a run.  A panic is an error
    value.  Methods that hold a mutex throughout are atomic steps; where the code
    releases a lock half-way, the halves are separate definitions and their
    interleavings are schedules (SqliteProps, StoreExamples, Delivery).

    ** What the theorems show

    - The DAG: append refuses exactly what it should and keeps the graph
      acyclic; ancestors, common ancestors and heads are what the graph says.
    - The backends: reference counts are exact and every recorded payload reads
      back in every reachable store; both satisfy the contract, and so answer
      every call sequence alike.
    - The versioned store: what each operation does on every branch, errors
      included, on the plain and the transactional path; every document keeps a
      live head; pruning removes exactly the versions all of whose descendants
      exceed the policy, never a live head or a needed parent, independently of
      map order.
    - Search, fingerprints, migrations: matched text, widths and prefixes,
      payloads preserved.
    - Events: topic matching, the order and the veto of a service call, of a
      publish and of a transition.
    - Replication: causes carry earlier timestamps than effects; last-write-wins
      converges; remotes receive each diff once and in order; a follower shows
      past states of the primary and catches up.
    - Streams: the ring is the window on its history; what is accepted on the
      wire is well formed and reads back as it was sent; every offset a dialer
      passes was delivered once and in order, excused by a filter, or announced
      as a gap; a connected dialer catches up, conforming peers never see a
      protocol error, and the writer's loop ends.
    - Acknowledgements: a confirmed publish was accepted by the peer and no event
      is published twice; a ticket is done exactly when every answer is in; the
      acceptor's memory stays within its bounds.
    - Jobs: statuses follow the documented arrows, a lease is exclusive until it
      expires, a claim hands out the most urgent due job, and a job whose handler
      keeps failing ends after its allowed attempts.
    - Key-value stores and webhooks: drivers never answer with a stale value and
      agree with a plain map while everything fits; the memory driver keeps its
      budget and evicts by recency; a signature is accepted exactly when it is
      right; a delivery is published at most once per time to live, over any
      lawful store, and can be retried when its publish failed in time.
    - The breaker: it opens exactly on a run of consecutive failures, admits
      nothing during the cooldown, bounds its probes, and its budgets bound the
      calls made and bytes moved.
    - The command bridge: every command is described once under its path; a call
      that passes the gates runs only a command whose annotations, the policy,
      the rules and the caller's standing allow it; a refusal is audited once and
      reserves and counts nothing; callers never share buckets, quotas or
      idempotency records; a key runs once per time to live and replays what it
      ran; the usage ledger is an exact table of counts; the capacity gate keeps
      its limits, serves its queue in order and starves nobody.  Cached runs:
      one call runs per key, what the cache answers is an earlier success under
      the same key, within its time to live where it is looked up; no waiter is
      forgotten, and a stored result spares further runs.
    - Redaction: the literal screens never change a result; exactly the hits are
      replaced; what detection finds, redaction replaces; every decision is
      counted and reported; a policy read from a redactor builds it again.
    - Network policies: a client sends only what its policy permits and crosses
      an origin only without unsafe headers; the allowlist means what it says;
      dials are guarded.
    - Consent: a use goes ahead only under an allow that counts, with no deny
      beside it, and is audited; a refusal stands; a grant for one use is used
      once; the audit log reaches the bus in order and at least once.
    - Upgrades: migrations are applied whole and in order or undone; a chain of
      document migrations ends at the latest version or says why not.
    - Behaviours the comments exclude or the callers must avoid, each by a run:
      a stale DAG cached, a document without a live head, a slice out of bounds,
      a diff that is never sent or pulled, a vetoed event confirmed after an
      eviction, an event lost in a full queue, a job that crashes its workers for
      ever, a breaker wedged by a panicking probe, a command run twice after a
      disconnect, a day's count deleted by an hour's, a first migration left
      half applied, an unaudited grant in force, an audit log that cannot be read
      again, and others.

    ** Bounds and fuel

    The two breadth-first loops run on one more step than there are edges, and
    the prune loop on one pass more than there are candidates; both are proved to
    be enough, so the functions are total.  The clock theorems assume fewer than
    2^32 events; the replication theorems a queue below its cap of 10,000; the
    stream theorems offsets below 2^64 - 1.  The writer's loop runs on as many
    turns as the log has entries, which is proved to be enough.  The job theorems
    assume fewer than 2^63 operations, the memory driver a budget below 2^62
    bytes; its eviction loop runs on as many turns as there are entries.  The
    usage theorem takes windows of whole seconds and times between 1970 and 2262,
    and a write that starts before its window ends and finishes within the next;
    the loops over strings run on their length, an IPv6 address on its eight
    fields.  The fold orbit of a rune is walked for eight turns, twice the
    longest there is; a client's redirects for one turn more than it allows; the
    migration of a document for the distance to the latest version, which is
    proved to be enough.  The relay theorem assumes fewer than 2^64 steps.

    ** Not modelled

    Failures of the database driver (a failing COMMIT, a locked file), the order
    SQL leaves open among equal sort keys, and SQLite's limit on bound variables;
    the HTTP transport; sockets, timers, redialing and the correlation of
    requests on network links, the CloudEvents coding of frames (a parameter);
    sinks; the semaphore of the bus; logging.  Of the breaker
    the YAML configuration, the registry and the library's rate limiter,
    bulkhead and timeout, whose answers are arguments; of the webhook receiver
    the verifiers and keys that read JSON, the presets and the published payload;
    of jobs the external engines and the floating-point backoff, whose delays are
    arguments; of the bridge the runners, streams, the sinks and the surfaces,
    and the token bucket of the rate limiter (a parameter); of reflection the
    flags, examples and next steps; of redaction the embedded corpora, reading
    rule files and the matcher itself; of network policies the sockets and the
    configuration; of consent the YAML form of the grants, the legacy telemetry
    records and the JSON form of audit records; of upgrades the release check,
    the replacement of binaries, the pruning of backups and the drivers.  The
    rest of the repository (command line, console, AI clients, other key-value
    and blob adapters, SDKs in other languages) is outside this library: it is
    mostly input and output around small decisions, or calls to services. *)

From Stdlib Require Export ZArith Lia.
From stdpp Require Export base option gmap strings sorting sets tactics list.
Export list.

(** ** Results of fallible Go code

    A Go function returning [(T, error)] is a [res T] over the error type of
    its component; a method that also mutates its receiver returns the new
    receiver next to the result, because Go keeps the mutations made before
    an early [return err]. *)

Inductive res (E A : Type) : Type :=
| Ok (a : A)
| Err (e : E).
Arguments Ok {_ _} _.
Arguments Err {_ _} _.

Definition is_ok {E A} (r : res E A) : bool :=
  match r with Ok _ => true | Err _ => false end.

Definition res_map_err {E F A} (f : E → F) (r : res E A) : res F A :=
  match r with Ok a => Ok a | Err e => Err (f e) end.

(** ** Go methods as state passing with errors

    [st S E A] is a method on a receiver of type [S]: it returns its result
    next to the receiver as it stands when the method returns.  [throw] is an
    early [return err]; the mutations made before it stay. *)

Definition st (S E A : Type) : Type := S → res E A * S.

#[export] Instance st_ret {S E} : MRet (st S E) := λ A a s, (Ok a, s).
#[export] Instance st_bind {S E} : MBind (st S E) := λ A B k m s,
  match m s with
  | (Ok a, s') => k a s'
  | (Err e, s') => (Err e, s')
  end.

Definition throw {S E A} (e : E) : st S E A := λ s, (Err e, s).
Definition get {S E} : st S E S := λ s, (Ok s, s).
Definition gets {S E A} (f : S → A) : st S E A := λ s, (Ok (f s), s).
Definition modify {S E} (f : S → S) : st S E unit := λ s, (Ok tt, f s).
Definition lift_res {S E A} (r : res E A) : st S E A := λ s, (r, s).

(** [if err := m; err != nil { return fmt.Errorf("...: %w", err) }] *)
Definition wrap_err {S E A} (f : E → E) (m : st S E A) : st S E A := λ s,
  let '(r, s') := m s in (res_map_err f r, s').

(** A [for _, x := range l] loop whose body may return early. *)
Fixpoint for_each {S E A} (l : list A) (body : A → st S E unit) : st S E unit :=
  match l with
  | [] => mret tt
  | x :: l' => body x ≫= λ _, for_each l' body
  end.

Lemma st_bind_ok {S E A B} (m : st S E A) (k : A → st S E B) s b s' :
  mbind k m s = (Ok b, s') ↔ ∃ a s1, m s = (Ok a, s1) ∧ k a s1 = (Ok b, s').
Proof. unfold mbind, st_bind. destruct (m s) as [[a|e] s1]; naive_solver. Qed.

Lemma st_bind_err {S E A B} (m : st S E A) (k : A → st S E B) s e s' :
  mbind k m s = (Err e, s') ↔
  m s = (Err e, s') ∨ ∃ a s1, m s = (Ok a, s1) ∧ k a s1 = (Err e, s').
Proof. unfold mbind, st_bind. destruct (m s) as [[a|e'] s1]; naive_solver. Qed.

(** Running a successful first call. *)
Lemma st_run {S E A B} (m : st S E A) (k : A → st S E B) s a s' :
  m s = (Ok a, s') → mbind k m s = k a s'.
Proof. intros H. unfold mbind, st_bind. by rewrite H. Qed.

Lemma st_stop {S E A B} (m : st S E A) (k : A → st S E B) s e s' :
  m s = (Err e, s') → mbind k m s = (Err e, s').
Proof. intros H. unfold mbind, st_bind. by rewrite H. Qed.

(** [run H] takes the first call of a sequence through the successful run [H]
    of it; [stop H] ends the sequence at its failing run. *)
Ltac run H := rewrite (st_run _ _ _ _ _ H).
Ltac stop H := rewrite (st_stop _ _ _ _ _ H).

(** Membership, prefixes and the like, as the components' proofs need them. *)
Create HintDb kit.
#[export] Hint Resolve prefix_app prefix_app_r list_elem_of_fmap_2 list_elem_of_lookup_2 : kit.

(** ** 64-bit arithmetic *)

Definition uint64 (x : Z) : Z := x mod 2 ^ 64.

Lemma uint64_small x : (0 ≤ x < 2 ^ 64)%Z → uint64 x = x.
Proof. apply Z.mod_small. Qed.

Lemma uint64_range x : (0 ≤ uint64 x < 2 ^ 64)%Z.
Proof. apply Z.mod_pos_bound. lia. Qed.

Definition int64 (x : Z) : Z := (x + 2 ^ 63) mod 2 ^ 64 - 2 ^ 63.

Lemma int64_small x : (- 2 ^ 63 ≤ x < 2 ^ 63)%Z → int64 x = x.
Proof. intros H. unfold int64. rewrite Z.mod_small; lia. Qed.

(** [time.Time.Sub]: the difference, saturated at the bounds of a [Duration]. *)
Definition time_sub (t u : Z) : Z := Z.max (- 2 ^ 63) (Z.min (2 ^ 63 - 1) (t - u)).

(** ** Byte-wise string order

    Go compares strings byte by byte, which is [String.compare]. *)

Definition str_le (a b : string) : Prop := String.leb a b = true.
Definition str_lt (a b : string) : Prop := String.ltb a b = true.

#[export] Instance str_le_dec : RelDecision str_le.
Proof. intros a b. unfold str_le. apply _. Defined.
#[export] Instance str_lt_dec : RelDecision str_lt.
Proof. intros a b. unfold str_lt. apply _. Defined.

Lemma ascii_compare_trans_lt a b c :
  Ascii.compare a b = Lt → Ascii.compare b c = Lt → Ascii.compare a c = Lt.
Proof. unfold Ascii.compare. rewrite !N.compare_lt_iff. lia. Qed.

Lemma ascii_compare_refl a : Ascii.compare a a = Eq.
Proof. unfold Ascii.compare. apply N.compare_refl. Qed.

Lemma str_compare_refl a : String.compare a a = Eq.
Proof. induction a as [|x a IH]; simpl; [done|]. by rewrite ascii_compare_refl. Qed.

Lemma str_compare_trans_lt a b c :
  String.compare a b = Lt → String.compare b c = Lt → String.compare a c = Lt.
Proof.
  revert b c; induction a as [|x a IH]; intros [|y b] [|z c]; simpl; try done.
  destruct (Ascii.compare x y) eqn:E1, (Ascii.compare y z) eqn:E2; try done; intros H1 H2.
  - apply Ascii.compare_eq_iff in E1 as ->. rewrite E2. by eapply IH.
  - apply Ascii.compare_eq_iff in E1 as ->. by rewrite E2.
  - apply Ascii.compare_eq_iff in E2 as ->. by rewrite E1.
  - by rewrite (ascii_compare_trans_lt _ _ _ E1 E2).
Qed.

Lemma str_lt_compare a b : str_lt a b ↔ String.compare a b = Lt.
Proof. unfold str_lt, String.ltb. destruct (String.compare a b); naive_solver. Qed.

Lemma str_le_compare a b : str_le a b ↔ String.compare a b ≠ Gt.
Proof. unfold str_le, String.leb. destruct (String.compare a b); naive_solver. Qed.

Lemma str_le_lt a b : str_le a b ↔ a = b ∨ str_lt a b.
Proof.
  rewrite str_le_compare, str_lt_compare. split.
  - destruct (String.compare a b) eqn:E; try naive_solver.
    apply String.compare_eq_iff in E. auto.
  - intros [-> | ->]; [by rewrite str_compare_refl|done].
Qed.

#[export] Instance str_lt_strict : StrictOrder str_lt.
Proof.
  split.
  - intros a. unfold complement. by rewrite str_lt_compare, str_compare_refl.
  - intros a b c. rewrite !str_lt_compare. apply str_compare_trans_lt.
Qed.

Lemma str_lt_total a b : str_lt a b ∨ a = b ∨ str_lt b a.
Proof.
  rewrite !str_lt_compare. pose proof (String.compare_antisym a b) as H.
  destruct (String.compare a b) eqn:E, (String.compare b a); simpl in H; auto; try done.
  all: apply String.compare_eq_iff in E; auto.
Qed.

#[export] Instance str_le_total : Total str_le.
Proof. intros a b. rewrite !str_le_lt. destruct (str_lt_total a b); naive_solver. Qed.

#[export] Instance str_le_trans : Transitive str_le.
Proof.
  intros a b c. rewrite !str_le_lt. intros [-> | H1] [-> | H2]; auto.
  right. by transitivity b.
Qed.

#[export] Instance str_le_antisymm : AntiSymm eq str_le.
Proof.
  intros a b. rewrite !str_le_lt. intros [?|H1] [?|H2]; auto.
  exfalso. eapply (irreflexivity str_lt a). by transitivity b.
Qed.

(** [sort.Strings]. *)
Definition sort_strings (l : list string) : list string := merge_sort str_le l.

Lemma elem_of_sort_strings l x : x ∈ sort_strings l ↔ x ∈ l.
Proof. apply elem_of_Permutation_proper, merge_sort_Permutation. Qed.

Lemma sort_strings_sorted l : Sorted str_le (sort_strings l).
Proof. apply Sorted_merge_sort, _. Qed.

(** ** Lists *)

Lemma filter_fmap {A B} (f : A → B) (P : B → Prop) `{∀ x, Decision (P x)} (l : list A) :
  filter P (f <$> l) = f <$> filter (λ x, P (f x)) l.
Proof.
  induction l as [|x l IH]; [done|]. rewrite fmap_cons, !filter_cons.
  case_decide; by rewrite ?fmap_cons, IH.
Qed.

Lemma lookup_snoc_cases {A} (l : list A) x i y :
  (l ++ [x]) !! i = Some y → l !! i = Some y ∨ i = length l ∧ y = x.
Proof. intros [[_ ?]|[-> ->]]%lookup_snoc_Some; auto. Qed.

Lemma NoDup_fmap_filter {A B} (f : A → B) (P : A → Prop) `{∀ x, Decision (P x)} (l : list A) :
  NoDup (f <$> l) → NoDup (f <$> filter P l).
Proof.
  induction l as [|x l IH]; [done|]. rewrite fmap_cons, NoDup_cons, filter_cons. intros [Hx Hl].
  case_decide; [|auto]. rewrite fmap_cons, NoDup_cons. split; [|auto].
  intros (y&Hy&[_ Hin]%list_elem_of_filter)%list_elem_of_fmap. apply Hx. rewrite Hy. by apply list_elem_of_fmap_2.
Qed.

Lemma list_fmap_ext_in {A B} (f g : A → B) (l : list A) :
  (∀ x, x ∈ l → f x = g x) → f <$> l = g <$> l.
Proof. intros Hfg. apply list_fmap_ext. intros i x Hx. by apply Hfg, list_elem_of_lookup_2 with i. Qed.

Lemma list_omap_ext_in {A B} (f g : A → option B) (l : list A) :
  (∀ x, x ∈ l → f x = g x) → omap f l = omap g l.
Proof.
  induction l as [|x l IH]; intros Hfg; [done|]. csimpl. rewrite Hfg by set_solver.
  rewrite IH by (intros; apply Hfg; set_solver). done.
Qed.

Lemma list_filter_iff' {A} (P Q : A → Prop) `{∀ x, Decision (P x)} `{∀ x, Decision (Q x)} (l : list A) :
  (∀ x, x ∈ l → P x ↔ Q x) → filter P l = filter Q l.
Proof.
  induction l as [|x l IH]; intros HPQ; [done|]. rewrite !filter_cons.
  rewrite (IH ltac:(intros; apply HPQ; set_solver)).
  pose proof (HPQ x ltac:(set_solver)). repeat case_decide; tauto || done.
Qed.

Lemma list_filter_all {A} (P : A → Prop) `{∀ x, Decision (P x)} (l : list A) :
  (∀ x, x ∈ l → P x) → filter P l = l.
Proof.
  induction l as [|x l IH]; intros HP; [done|]. rewrite filter_cons.
  rewrite decide_True by (apply HP; set_solver). f_equal. apply IH. set_solver.
Qed.

Lemma list_filter_none {A} (P : A → Prop) `{∀ x, Decision (P x)} (l : list A) :
  (∀ x, x ∈ l → ¬ P x) → filter P l = [].
Proof.
  induction l as [|x l IH]; intros HP; [done|]. rewrite filter_cons.
  rewrite decide_False by (apply HP; set_solver). apply IH. set_solver.
Qed.

(** ** Strings *)

Lemma str_app_assoc (a b c : string) : (a +:+ b) +:+ c = a +:+ b +:+ c.
Proof. induction a as [|x a IH]; [done|]. apply (f_equal (String x) IH). Qed.

Lemma str_app_nil_r (a : string) : a +:+ "" = a.
Proof. induction a as [|x a IH]; [done|]. apply (f_equal (String x) IH). Qed.

(** ** Ranging over a map *)

(** The order in which Go ranges over a map on its [n]-th pass. *)
Class MapOrder := {
  range_order : nat → gset string → list string;
  range_perm n X : range_order n X ≡ₚ elements X;
}.

Definition elements_order : MapOrder :=
  {| range_order := λ _ X, elements X; range_perm := λ _ _, reflexivity _ |}.

Section MapOrder.
Context `{MO : MapOrder}.

Lemma range_order_elem n X v : v ∈ range_order n X ↔ v ∈ X.
Proof. rewrite range_perm. apply elem_of_elements. Qed.

Lemma range_order_NoDup n X : NoDup (range_order n X).
Proof. rewrite range_perm. apply NoDup_elements. Qed.

End MapOrder.
