(* ===== verification/VersionDag.v ===== *)
(** * The version DAG (go/runtime/domain/version/dag.go)

    [Module version] is the Go package: the [Version] node, the [DAG] with its
    two maps, and every method.  The breadth-first loops of [Ancestors] and
    [CommonAncestor] run on fuel; [bfs_fuel] is proved to be enough, so the
    methods are total.  [dag_wf] is the invariant [Append] keeps. *)

From S2P Require Import Prelude.

Module version.

(** ** Data *)

Record Version := mkVersion {
  ID : string;
  ParentIDs : list string;
  Timestamp : Z;
  Hash : string;
}.

Record DAG := mkDAG {
  versions : gmap string Version;
  children : gmap string (list string);
}.

Inductive error :=
| already_exists (id : string)
| unknown_parent (id : string).

#[export] Instance Version_eq_dec : EqDecision Version.
Proof. solve_decision. Defined.

(** ** Operations *)

Definition NewDAG : DAG := mkDAG ∅ ∅.

(** The first parent that the DAG does not hold. *)
Fixpoint first_unknown (vs : gmap string Version) (pids : list string) : option string :=
  match pids with
  | [] => None
  | pid :: pids => if decide (is_Some (vs !! pid)) then first_unknown vs pids else Some pid
  end.

Definition add_child (vid : string) (ch : gmap string (list string)) (pid : string)
  : gmap string (list string) :=
  <[pid := default [] (ch !! pid) ++ [vid]]> ch.

Definition Append (v : Version) : st DAG error unit := λ d,
  match versions d !! ID v with
  | Some _ => (Err (already_exists (ID v)), d)
  | None =>
      match first_unknown (versions d) (ParentIDs v) with
      | Some pid => (Err (unknown_parent pid), d)
      | None =>
          (Ok tt, mkDAG (<[ID v := v]> (versions d))
                        (foldl (add_child (ID v)) (children d) (ParentIDs v)))
      end
  end.

Definition Get (d : DAG) (id : string) : option Version := versions d !! id.

(** The parents the queue loops push for [cur]; none for an unknown id. *)
Definition parents_of (d : DAG) (id : string) : list string :=
  default [] (ParentIDs <$> versions d !! id).

Fixpoint bfs (fuel : nat) (d : DAG) (queue : list string) (visited : gset string)
  : option (gset string) :=
  match queue with
  | [] => Some visited
  | cur :: queue =>
      match fuel with
      | O => None
      | S fuel =>
          if decide (cur ∈ visited) then bfs fuel d queue visited
          else bfs fuel d (queue ++ parents_of d cur) ({[cur]} ∪ visited)
      end
  end.

(** The second loop of [CommonAncestor]: stop at the first hit in [targets]. *)
Fixpoint bfs_find (fuel : nat) (d : DAG) (targets : gset string)
    (queue : list string) (visited : gset string) : option (option string) :=
  match queue with
  | [] => Some None
  | cur :: queue =>
      match fuel with
      | O => None
      | S fuel =>
          if decide (cur ∈ visited) then bfs_find fuel d targets queue visited
          else if decide (cur ∈ targets) then Some (Some cur)
          else bfs_find fuel d targets (queue ++ parents_of d cur) ({[cur]} ∪ visited)
      end
  end.

(** Number of parent edges of a set of nodes; one more is enough fuel. *)
Definition edges (vs : gmap string Version) : nat :=
  map_fold (λ _ v n, length (ParentIDs v) + n) 0 vs.

Definition bfs_fuel (d : DAG) : nat := S (edges (versions d)).

Definition reach_set (d : DAG) (id : string) : gset string :=
  default ∅ (bfs (bfs_fuel d) d [id] ∅).

(** Go ranges over the [visited] map, so the order of the result is
    unspecified: the model returns the set, [elements] of it is one order. *)
Definition Ancestors (d : DAG) (id : string) : gset string :=
  reach_set d id ∖ {[id]}.

Definition CommonAncestor (d : DAG) (a b : string) : option string :=
  mjoin (bfs_find (bfs_fuel d) d (reach_set d a) [b] ∅).

Definition Children (d : DAG) (id : string) : list string :=
  default [] (children d !! id).

Definition Heads (d : DAG) : list string :=
  sort_strings (filter (λ id, Children d id = []) (map_to_list (versions d)).*1).

Definition IsBranched (d : DAG) : bool := bool_decide (1 < length (Heads d)).

(** ** Ancestry and the invariant *)

(** [parent d x y]: version [x] lists [y] among its parents. *)
Definition parent (d : DAG) : relation string := λ x y, y ∈ parents_of d x.

Record dag_wf (d : DAG) : Prop := {
  wf_id id v : versions d !! id = Some v → ID v = id;
  wf_known x y : parent d x y → is_Some (versions d !! y);
  wf_children x y : x ∈ Children d y ↔ parent d x y;
  wf_rank : ∃ rank : string → nat, ∀ x y, parent d x y → rank y < rank x;
}.

(** ** Append *)

Lemma first_unknown_None vs pids :
  first_unknown vs pids = None ↔ ∀ p, p ∈ pids → is_Some (vs !! p).
Proof.
  induction pids as [|q pids IH]; simpl; [set_solver|].
  case_decide as Hq; [rewrite IH; set_solver|].
  split; [done|]. intros H. destruct Hq. apply H. set_solver.
Qed.

Lemma first_unknown_Some vs pids p :
  first_unknown vs pids = Some p → p ∈ pids ∧ vs !! p = None.
Proof.
  induction pids as [|q pids IH]; simpl; [done|].
  case_decide as Hq; [set_solver|]. intros [= ->].
  split; [set_solver|]. by apply eq_None_not_Some.
Qed.

Lemma add_child_lookup vid ch pids y x :
  x ∈ default [] (foldl (add_child vid) ch pids !! y) ↔
  x ∈ default [] (ch !! y) ∨ (x = vid ∧ y ∈ pids).
Proof.
  revert ch; induction pids as [|p pids IH]; intros ch; simpl; [set_solver|].
  rewrite IH. unfold add_child. rewrite lookup_insert. case_decide; subst; simpl; set_solver.
Qed.

(** The state after a successful [Append]. *)
Definition appended (v : Version) (d : DAG) : DAG :=
  mkDAG (<[ID v := v]> (versions d)) (foldl (add_child (ID v)) (children d) (ParentIDs v)).

Lemma Append_inv v d r d' :
  Append v d = (r, d') →
  (r = Err (already_exists (ID v)) ∧ is_Some (versions d !! ID v) ∧ d' = d) ∨
  (∃ p, r = Err (unknown_parent p) ∧ versions d !! ID v = None ∧ p ∈ ParentIDs v ∧
        versions d !! p = None ∧ d' = d) ∨
  (r = Ok tt ∧ versions d !! ID v = None ∧
   (∀ p, p ∈ ParentIDs v → is_Some (versions d !! p)) ∧ d' = appended v d).
Proof.
  unfold Append. destruct (versions d !! ID v) eqn:E.
  { intros [= <- <-]. left. eauto. }
  destruct (first_unknown _ _) as [p|] eqn:F; intros [= <- <-].
  - right; left. apply first_unknown_Some in F as [? ?]. eauto 10.
  - right; right. by rewrite first_unknown_None in F.
Qed.

Lemma Append_ok v d :
  versions d !! ID v = None → (∀ p, p ∈ ParentIDs v → is_Some (versions d !! p)) →
  Append v d = (Ok tt, appended v d).
Proof.
  intros H1 H2. unfold Append. rewrite H1.
  by rewrite (proj2 (first_unknown_None _ _) H2).
Qed.

Lemma parents_of_appended v d x :
  parents_of (appended v d) x = if decide (ID v = x) then ParentIDs v else parents_of d x.
Proof. unfold parents_of, appended; simpl. rewrite lookup_insert. by case_decide. Qed.

Lemma parents_of_unknown d x : versions d !! x = None → parents_of d x = [].
Proof. unfold parents_of. by intros ->. Qed.

Lemma Children_appended v d x y :
  x ∈ Children (appended v d) y ↔ x ∈ Children d y ∨ (x = ID v ∧ y ∈ ParentIDs v).
Proof. apply add_child_lookup. Qed.

Lemma NewDAG_wf : dag_wf NewDAG.
Proof.
  split; unfold parent, parents_of, Children; simpl.
  - set_solver.
  - intros x y. rewrite lookup_empty. set_solver.
  - intros x y. rewrite !lookup_empty. simpl. set_solver.
  - exists (λ _, 0). intros x y. rewrite lookup_empty. set_solver.
Qed.

Lemma appended_wf v d :
  dag_wf d → versions d !! ID v = None →
  (∀ p, p ∈ ParentIDs v → is_Some (versions d !! p)) → dag_wf (appended v d).
Proof.
  intros [Hid Hknown Hch [rank Hrank]] Hnew Hpar.
  assert (ID v ∉ ParentIDs v) as Hself.
  { intros Hin. destruct (Hpar _ Hin). congruence. }
  split; unfold parent in *; simpl.
  - intros id w. rewrite lookup_insert_Some. naive_solver.
  - intros x y. rewrite parents_of_appended, lookup_insert_is_Some'.
    case_decide; [naive_solver|]. intros ?%Hknown; auto.
  - intros x y. rewrite Children_appended, Hch, parents_of_appended.
    case_decide as E; [subst x|naive_solver].
    rewrite (parents_of_unknown d (ID v)) by done. set_solver.
  - exists (λ x, if decide (ID v = x) then S (max_list (rank <$> ParentIDs v)) else rank x).
    intros x y. rewrite parents_of_appended. intros Hxy.
    destruct (decide (ID v = x)) as [E1|E1], (decide (ID v = y)) as [E2|E2]; subst.
    + done.
    + apply Nat.lt_succ_r, max_list_elem_of_le. set_solver.
    + destruct (Hknown _ _ Hxy). congruence.
    + auto.
Qed.

(** The DAG's state is one [Append] can produce: well-formed whatever
    [Append] answers. *)
Lemma Append_wf v d : dag_wf d → dag_wf (Append v d).2.
Proof.
  intros Hwf. destruct (Append v d) as [r d'] eqn:E.
  apply Append_inv in E as [(_&_&->)|[(p&_&_&_&_&->)|(_&?&?&->)]]; simpl; auto.
  by apply appended_wf.
Qed.

(** ** The queue loops terminate *)

Definition pending (d : DAG) (visited : gset string) : nat :=
  edges (filter (λ kv, kv.1 ∉ visited) (versions d)).

Lemma edges_delete vs x v :
  vs !! x = Some v → edges vs = length (ParentIDs v) + edges (delete x vs).
Proof.
  intros Hx. unfold edges. rewrite (map_fold_delete_L _ _ x v vs); [done| |done].
  intros. lia.
Qed.

Lemma filter_visit (vs : gmap string Version) (x : string) (visited : gset string) :
  filter (λ kv, kv.1 ∉ {[x]} ∪ visited) vs = delete x (filter (λ kv, kv.1 ∉ visited) vs).
Proof.
  apply map_eq. intros i. apply option_eq. intros v.
  rewrite lookup_delete_Some, !map_lookup_filter_Some. simpl. set_solver.
Qed.

Lemma pending_visit d x visited :
  x ∉ visited → pending d visited = length (parents_of d x) + pending d ({[x]} ∪ visited).
Proof.
  intros Hx. unfold pending. rewrite filter_visit. unfold parents_of.
  destruct (versions d !! x) as [v|] eqn:E; simpl.
  - apply edges_delete. by apply map_lookup_filter_Some.
  - rewrite delete_id; [done|]. apply map_lookup_filter_None. auto.
Qed.

Lemma pending_empty d : pending d ∅ = edges (versions d).
Proof. unfold pending. rewrite map_filter_id; [done|]. set_solver. Qed.

Lemma bfs_total fuel d queue visited :
  length queue + pending d visited ≤ fuel → is_Some (bfs fuel d queue visited).
Proof.
  revert queue visited; induction fuel as [|fuel IH]; intros [|cur queue] visited; simpl;
    eauto; try lia.
  intros Hf. case_decide as Hc; apply IH; [lia|].
  rewrite length_app. rewrite (pending_visit d cur visited) in Hf by done. lia.
Qed.

Lemma bfs_find_total fuel d targets queue visited :
  length queue + pending d visited ≤ fuel →
  is_Some (bfs_find fuel d targets queue visited).
Proof.
  revert queue visited; induction fuel as [|fuel IH]; intros [|cur queue] visited; simpl;
    eauto; try lia.
  intros Hf. case_decide as Hc; [apply IH; lia|]. case_decide; [eauto|]. apply IH.
  rewrite length_app. rewrite (pending_visit d cur visited) in Hf by done. lia.
Qed.

Lemma bfs_fuel_enough d (x : string) : length [x] + pending d ∅ ≤ bfs_fuel d.
Proof. by rewrite pending_empty. Qed.

(** ** What the loops compute *)

Lemma bfs_sound fuel d queue visited R :
  bfs fuel d queue visited = Some R →
  ∀ x, x ∈ R → x ∈ visited ∨ ∃ q, q ∈ queue ∧ rtc (parent d) q x.
Proof.
  revert queue visited; induction fuel as [|fuel IH]; intros [|cur queue] visited; simpl;
    try (intros [= <-]; auto; fail); try done.
  case_decide as Hc; intros HR x Hx; destruct (IH _ _ HR x Hx) as [Hv|(q&Hq&Hqx)].
  - auto.
  - right. exists q. set_solver.
  - apply elem_of_union in Hv as [->%elem_of_singleton|?]; [|auto].
    right. exists cur. split; [set_solver|reflexivity].
  - right. apply elem_of_app in Hq as [?|Hp]; [exists q; set_solver|].
    exists cur. split; [set_solver|]. by eapply rtc_l.
Qed.

Lemma bfs_closed fuel d queue visited R :
  bfs fuel d queue visited = Some R →
  (∀ x y, x ∈ visited → parent d x y → y ∈ visited ∨ y ∈ queue) →
  visited ⊆ R ∧ (∀ q, q ∈ queue → q ∈ R) ∧ (∀ x y, x ∈ R → parent d x y → y ∈ R).
Proof.
  revert queue visited; induction fuel as [|fuel IH]; intros [|cur queue] visited; simpl;
    try (intros [= <-]; set_solver); try done.
  case_decide as Hc; intros HR Hcl.
  - destruct (IH _ _ HR) as (H1&H2&H3); [set_solver|]. set_solver.
  - destruct (IH _ _ HR) as (H1&H2&H3); [|set_solver].
    intros x y Hx Hp. apply elem_of_union in Hx as [->%elem_of_singleton|Hx].
    + right. apply elem_of_app. by right.
    + destruct (Hcl x y Hx Hp); set_solver.
Qed.

(** The visited set at the end of the loop is the ancestry, inclusive. *)
Lemma elem_of_reach_set d id x : x ∈ reach_set d id ↔ rtc (parent d) id x.
Proof.
  unfold reach_set. destruct (bfs_total (bfs_fuel d) d [id] ∅ (bfs_fuel_enough d id)) as [R HR].
  rewrite HR; simpl. split.
  - intros Hx. destruct (bfs_sound _ _ _ _ _ HR x Hx); set_solver.
  - destruct (bfs_closed _ _ _ _ _ HR) as (_&H2&H3); [set_solver|].
    assert (id ∈ R) as Hid by (apply H2; set_solver).
    intros Hr. revert Hid. clear H2 HR. induction Hr as [a|a b c Hab _ IH]; [done|].
    intros Ha. apply IH. by eapply H3.
Qed.

Lemma bfs_find_sound fuel d T queue visited c :
  bfs_find fuel d T queue visited = Some (Some c) →
  c ∈ T ∧ ∃ q, q ∈ queue ∧ rtc (parent d) q c.
Proof.
  revert queue visited; induction fuel as [|fuel IH]; intros [|cur queue] visited; simpl; try done.
  case_decide as Hc; [intros (?&q&?&?)%IH; split; [done|]; exists q; set_solver|].
  case_decide as Ht; [intros [= <-]; split; [done|]; exists cur; split; [set_solver|reflexivity]|].
  intros (?&q&Hq&Hr)%IH. split; [done|].
  apply elem_of_app in Hq as [?|Hp]; [exists q; set_solver|].
  exists cur. split; [set_solver|]. by eapply rtc_l.
Qed.

Lemma bfs_find_none fuel d T queue visited :
  bfs_find fuel d T queue visited = Some None →
  (∀ x, x ∈ visited → x ∉ T) →
  (∀ x y, x ∈ visited → parent d x y → y ∈ visited ∨ y ∈ queue) →
  ∀ q x, q ∈ queue ∨ q ∈ visited → rtc (parent d) q x → x ∉ T.
Proof.
  revert queue visited; induction fuel as [|fuel IH]; intros [|cur queue] visited; simpl;
    try done.
  - intros _ HT Hcl q x Hq Hr. apply HT.
    assert (q ∈ visited) as Hv by set_solver. clear Hq.
    induction Hr as [|a b c Hab _ IH']; [done|]. apply IH'. destruct (Hcl a b Hv Hab); set_solver.
  - intros _ HT Hcl q x Hq Hr. apply HT.
    assert (q ∈ visited) as Hv by set_solver. clear Hq.
    induction Hr as [|a b c Hab _ IH']; [done|]. apply IH'. destruct (Hcl a b Hv Hab); set_solver.
  - case_decide as Hc.
    { intros HR HT Hcl q x Hq. eapply IH; [done|set_solver..]. }
    case_decide as Ht; [done|]. intros HR HT Hcl q x Hq.
    eapply IH; [done|set_solver| |set_solver].
    intros a b Ha Hp. apply elem_of_union in Ha as [->%elem_of_singleton|Ha].
    + right. apply elem_of_app. by right.
    + destruct (Hcl a b Ha Hp); set_solver.
Qed.

(** ** Consequences of the invariant *)

Lemma parent_acyclic d x : dag_wf d → ¬ tc (parent d) x x.
Proof.
  intros [_ _ _ [rank Hr]] Htc.
  assert (∀ a b, tc (parent d) a b → rank b < rank a) as Hlt.
  { induction 1 as [a b H|a b c H _ IH]; [auto|]. specialize (Hr _ _ H). lia. }
  specialize (Hlt _ _ Htc). lia.
Qed.

Lemma parent_known_l d x y : parent d x y → is_Some (versions d !! x).
Proof.
  unfold parent, parents_of. destruct (versions d !! x); simpl; [eauto|set_solver].
Qed.

Lemma Children_nil d y : dag_wf d → Children d y = [] ↔ ∀ x, ¬ parent d x y.
Proof.
  intros Hwf. split.
  - intros H x Hp. apply (wf_children d Hwf) in Hp. rewrite H in Hp. set_solver.
  - intros H. destruct (Children d y) as [|c l] eqn:E; [done|].
    destruct (H c). apply (wf_children d Hwf). rewrite E. set_solver.
Qed.

Lemma elem_of_Heads d h :
  h ∈ Heads d ↔ is_Some (versions d !! h) ∧ Children d h = [].
Proof.
  unfold Heads. rewrite elem_of_sort_strings, list_elem_of_filter, list_elem_of_fmap.
  split.
  - intros (Hc&[k v]&->&Hkv). apply elem_of_map_to_list in Hkv. eauto.
  - intros ([v Hv]&Hc). split; [done|]. exists (h, v). by rewrite elem_of_map_to_list.
Qed.

Lemma NoDup_Heads d : NoDup (Heads d).
Proof.
  unfold Heads, sort_strings. rewrite merge_sort_Permutation.
  apply NoDup_filter, NoDup_fst_map_to_list.
Qed.

Lemma rank_bounded d (rank : string → nat) :
  ∃ B, ∀ x, is_Some (versions d !! x) → rank x ≤ B.
Proof.
  exists (max_list (rank <$> (map_to_list (versions d)).*1)). intros x [v Hv].
  apply max_list_elem_of_le, list_elem_of_fmap. exists x. split; [done|].
  apply list_elem_of_fmap. exists (x, v). by rewrite elem_of_map_to_list.
Qed.

Lemma below_some_head d x :
  dag_wf d → is_Some (versions d !! x) →
  ∃ h, h ∈ Heads d ∧ rtc (parent d) h x.
Proof.
  intros Hwf. destruct (wf_rank d Hwf) as [rank Hrank].
  destruct (rank_bounded d rank) as [B HB].
  remember (B - rank x) as n eqn:En. revert x En.
  induction n as [n IH] using lt_wf_ind; intros x -> Hx.
  destruct (Children d x) as [|c l] eqn:E.
  - exists x. split; [by apply elem_of_Heads|reflexivity].
  - assert (parent d c x) as Hp by (apply (wf_children d Hwf); rewrite E; set_solver).
    assert (is_Some (versions d !! c)) as Hcs by by eapply parent_known_l.
    pose proof (Hrank _ _ Hp). pose proof (HB _ Hcs).
    destruct (IH (B - rank c) ltac:(lia) c eq_refl Hcs) as (h&?&?).
    exists h. split; [done|]. by eapply rtc_r.
Qed.

Lemma head_unique_below d x : dag_wf d → x ∈ Heads d → ∀ y, rtc (parent d) y x → y = x.
Proof.
  intros Hwf [_ Hc]%elem_of_Heads y Hr. rewrite Children_nil in Hc by done.
  apply rtc_inv_r in Hr as [->|(z&_&Hz)]; [done|]. by destruct (Hc z).
Qed.

End version.

(** ** Properties *)

Import version.

(** [DAG.Append] either accepts the version, when its id is new and every
    parent is known, and then the DAG holds exactly the old versions plus the
    new one, or reports a duplicate id or an unknown parent and leaves the DAG
    untouched; in every case the well-formedness invariant (ids match their
    keys, parents are known, the children index mirrors the parent lists, the
    graph is acyclic) is kept. *)
Theorem append_spec (v : version.Version) (d : DAG) (Hwf : dag_wf d) :
  let '(r, d') := Append v d in
  dag_wf d' ∧
  match r with
  | Ok _ => versions d !! version.ID v = None ∧
            (∀ p, p ∈ ParentIDs v → is_Some (versions d !! p)) ∧
            versions d' = <[version.ID v := v]> (versions d) ∧
            (∀ x y, parent d' x y ↔ parent d x y ∨ (x = version.ID v ∧ y ∈ ParentIDs v))
  | Err (already_exists i) => i = version.ID v ∧ is_Some (versions d !! i) ∧ d' = d
  | Err (unknown_parent p) => p ∈ ParentIDs v ∧ versions d !! p = None ∧ d' = d
  end.
Proof.
  pose proof (Append_wf v d Hwf) as Hwf'.
  destruct (Append v d) as [r d'] eqn:E; simpl in *.
  apply Append_inv in E as [(->&?&->)|[(p&->&?&?&?&->)|(->&Hn&Hp&->)]]; split; auto.
  repeat split; auto; unfold parent in *; rewrite parents_of_appended;
    case_decide; subst; naive_solver (rewrite parents_of_unknown in *; set_solver).
Qed.

(** [DAG.Ancestors id] terminates and returns exactly the strict ancestors of
    [id]: the versions reachable from it through one or more parent edges. *)
Theorem ancestors_spec (d : DAG) (Hwf : dag_wf d) (id x : string) :
  is_Some (bfs (bfs_fuel d) d [id] ∅) ∧
  (x ∈ Ancestors d id ↔ tc (parent d) id x).
Proof.
  split; [apply bfs_total, bfs_fuel_enough|].
  unfold Ancestors. rewrite elem_of_difference, elem_of_reach_set, elem_of_singleton.
  rewrite rtc_tc. split; [naive_solver|].
  intros Htc. split; [auto|]. intros ->. by eapply parent_acyclic.
Qed.

(** [DAG.CommonAncestor a b] terminates; the version it returns is an ancestor
    (inclusive) of both [a] and [b], and it reports none only when there is
    none. *)
Theorem common_ancestor_spec (d : DAG) (a b : string) :
  is_Some (bfs_find (bfs_fuel d) d (reach_set d a) [b] ∅) ∧
  match CommonAncestor d a b with
  | Some c => rtc (parent d) a c ∧ rtc (parent d) b c
  | None => ∀ c, ¬ (rtc (parent d) a c ∧ rtc (parent d) b c)
  end.
Proof.
  destruct (bfs_find_total (bfs_fuel d) d (reach_set d a) [b] ∅ (bfs_fuel_enough d b)) as [o Ho].
  split; [eauto|]. unfold CommonAncestor. rewrite Ho. simpl. destruct o as [c|].
  - apply bfs_find_sound in Ho as (Hc&q&Hq&Hr). apply elem_of_reach_set in Hc. set_solver.
  - intros c [Ha Hb]. refine (bfs_find_none _ _ _ _ _ Ho _ _ b c _ Hb _); [set_solver..|].
    by apply elem_of_reach_set.
Qed.

(** [DAG.Heads] returns, in ascending order, exactly the known versions no
    version names as a parent; every version of the DAG is an ancestor
    (inclusive) of one of them, so a non-empty DAG has a head. *)
Theorem heads_spec (d : DAG) (Hwf : dag_wf d) :
  Sorted str_le (Heads d) ∧ NoDup (Heads d) ∧
  (∀ h, h ∈ Heads d ↔ is_Some (versions d !! h) ∧ ∀ x, ¬ parent d x h) ∧
  (∀ x, is_Some (versions d !! x) → ∃ h, h ∈ Heads d ∧ rtc (parent d) h x).
Proof.
  split_and!.
  - apply sort_strings_sorted.
  - apply NoDup_Heads.
  - intros h. rewrite elem_of_Heads, Children_nil by done. done.
  - intros x. by apply below_some_head.
Qed.

(** ** Witnesses *)

Module dag_examples.

(** Append a list of (id, parents) to the empty DAG. *)
Definition build (l : list (string * list string)) : DAG :=
  foldl (λ d p, (Append (version.mkVersion p.1 p.2 0%Z "") d).2) NewDAG l.

Lemma build_wf l : dag_wf (build l).
Proof.
  unfold build. assert (dag_wf NewDAG) as H by apply NewDAG_wf. revert H.
  generalize NewDAG as d. induction l as [|p l IH]; intros d Hd; simpl; [done|].
  by apply IH, Append_wf.
Qed.

(** v1 <- v2 <- v3 and v2 <- v4 *)
Definition fork4 : DAG := build [("v1", []); ("v2", ["v1"]); ("v3", ["v2"]); ("v4", ["v2"])].

End dag_examples.
Import dag_examples.

Lemma append_spec_witness :
  dag_wf fork4 ∧ (Append (version.mkVersion "v5" ["v3"; "v4"] 1%Z "h") fork4).1 = Ok tt ∧
  dag_wf (Append (version.mkVersion "v5" ["v3"; "v4"] 1%Z "h") fork4).2.
Proof.
  pose proof (append_spec (version.mkVersion "v5" ["v3"; "v4"] 1%Z "h") fork4
                (build_wf _)) as H.
  split; [apply build_wf|]. split; [vm_compute; reflexivity|].
  destruct (Append _ fork4) as [r d']. apply H.
Defined.

Lemma ancestors_spec_witness :
  dag_wf fork4 ∧ elements (Ancestors fork4 "v3") ≡ₚ ["v1"; "v2"] ∧
  tc (parent fork4) "v3" "v1".
Proof.
  split; [apply build_wf|]. split; [vm_compute; repeat constructor|].
  apply (ancestors_spec fork4 (build_wf _) "v3" "v1"). vm_compute. reflexivity.
Defined.

Lemma heads_spec_witness : dag_wf fork4 ∧ Heads fork4 = ["v3"; "v4"] ∧ NoDup (Heads fork4).
Proof.
  split; [apply build_wf|]. split; [vm_compute; reflexivity|].
  apply (heads_spec fork4 (build_wf _)).
Defined.

(** The version [CommonAncestor] returns need not be the most recent common
    ancestor its comment promises: with [m] a child of [r], [a] a child of [m]
    and [b] a merge of [r] and [m], it answers [r] although [m], a descendant of
    [r], is also an ancestor of both; and swapping the arguments changes the
    answer. *)
Theorem common_ancestor_not_most_recent :
  let d := build [("r", []); ("m", ["r"]); ("a", ["m"]); ("b", ["r"; "m"])] in
  CommonAncestor d "a" "b" = Some "r" ∧
  parent d "m" "r" ∧ rtc (parent d) "a" "m" ∧ rtc (parent d) "b" "m" ∧
  CommonAncestor d "b" "a" = Some "m".
Proof.
  cbv zeta. split; [vm_compute; reflexivity|].
  assert (∀ d x y, bool_decide (y ∈ parents_of d x) = true → parent d x y) as Hp.
  { intros d x y H. by apply bool_decide_eq_true in H. }
  split; [apply Hp; vm_compute; reflexivity|].
  split; [apply rtc_once, Hp; vm_compute; reflexivity|].
  split; [apply rtc_once, Hp; vm_compute; reflexivity|].
  vm_compute; reflexivity.
Qed.
