(* ===== verification/Fingerprint.v ===== *)
(** * Content fingerprints (go/core/util/fingerprint.go)

    [Short] is the first [n] hex digits of SHA-256; the digest itself
    ([crypto/sha256] of the Go standard library, FIPS 180-4) is written out on
    32-bit words with their wrap-around so that [Short] computes.  [Hasher] is
    the interface the version stores hash through: their theorems hold for any
    hash function, [util_Short] is the one the code wires in. *)

From Stdlib Require Import Ascii.
From S2P Require Import Prelude.

Local Open Scope Z_scope.

(** ** SHA-256 on 32-bit words *)

Module sha256.

Definition w32 (x : Z) : Z := Z.land x 0xFFFFFFFF.
Definition rotr (x n : Z) : Z := Z.lor (Z.shiftr x n) (w32 (Z.shiftl x (32 - n))).

Definition Ch (x y z : Z) : Z := Z.lxor (Z.land x y) (Z.land (Z.lxor x 0xFFFFFFFF) z).
Definition Maj (x y z : Z) : Z := Z.lxor (Z.lxor (Z.land x y) (Z.land x z)) (Z.land y z).
Definition Sigma0 (x : Z) : Z := Z.lxor (Z.lxor (rotr x 2) (rotr x 13)) (rotr x 22).
Definition Sigma1 (x : Z) : Z := Z.lxor (Z.lxor (rotr x 6) (rotr x 11)) (rotr x 25).
Definition sigma0 (x : Z) : Z := Z.lxor (Z.lxor (rotr x 7) (rotr x 18)) (Z.shiftr x 3).
Definition sigma1 (x : Z) : Z := Z.lxor (Z.lxor (rotr x 17) (rotr x 19)) (Z.shiftr x 10).

(** The constants are the fractional parts, to 32 bits, of the cube roots of
    the first 64 primes ([K]) and of the square roots of the first 8 ([H0]). *)
Definition is_prime (n : nat) : bool :=
  forallb (λ d, negb (Nat.eqb (Nat.modulo n d) 0)) (seq 2 (n - 2)).

Definition primes : list Z := Z.of_nat <$> List.filter is_prime (seq 2 310).

(** The integer cube root, bit by bit from bit [k - 1] down. *)
Fixpoint cbrt_from (k : nat) (acc x : Z) : Z :=
  match k with
  | O => acc
  | S k =>
      let r := acc + 2 ^ Z.of_nat k in
      cbrt_from k (if r * r * r <=? x then r else acc) x
  end.

Definition K : list Z :=
  Eval vm_compute in (λ p, w32 (cbrt_from 36 0 (p * 2 ^ 96))) <$> primes.

Record hstate := mkH { ha : Z; hb : Z; hc : Z; hd : Z; he : Z; hf : Z; hg : Z; hh : Z }.

Definition H0 : hstate :=
  Eval vm_compute in
  let r i := w32 (Z.sqrt (nth i primes 0 * 2 ^ 64)) in
  mkH (r 0%nat) (r 1%nat) (r 2%nat) (r 3%nat) (r 4%nat) (r 5%nat) (r 6%nat) (r 7%nat).

(** The message schedule, newest word first. *)
Fixpoint schedule (n : nat) (r : list Z) : list Z :=
  match n with
  | O => r
  | S n =>
      schedule n (w32 (sigma1 (nth 1 r 0) + nth 6 r 0 + sigma0 (nth 14 r 0) + nth 15 r 0) :: r)
  end.

Definition round (s : hstate) (kw : Z * Z) : hstate :=
  let T1 := w32 (hh s + Sigma1 (he s) + Ch (he s) (hf s) (hg s) + kw.1 + kw.2) in
  let T2 := w32 (Sigma0 (ha s) + Maj (ha s) (hb s) (hc s)) in
  mkH (w32 (T1 + T2)) (ha s) (hb s) (hc s) (w32 (hd s + T1)) (he s) (hf s) (hg s).

Definition block (s : hstate) (words : list Z) : hstate :=
  let w := rev (schedule 48 (rev words)) in
  let t := foldl round s (combine K w) in
  mkH (w32 (ha s + ha t)) (w32 (hb s + hb t)) (w32 (hc s + hc t)) (w32 (hd s + hd t))
      (w32 (he s + he t)) (w32 (hf s + hf t)) (w32 (hg s + hg t)) (w32 (hh s + hh t)).

(** Big-endian bytes of a value, [n] of them. *)
Fixpoint be_bytes (n : nat) (x : Z) : list Z :=
  match n with
  | O => []
  | S n => be_bytes n (Z.shiftr x 8) ++ [Z.land x 0xFF]
  end.

Definition pad (msg : list Z) : list Z :=
  let len := Z.of_nat (length msg) in
  let zeros := Z.to_nat ((55 - len) mod 64) in
  msg ++ [0x80] ++ replicate zeros 0 ++ be_bytes 8 (8 * len).

Fixpoint words (bs : list Z) : list Z :=
  match bs with
  | b0 :: b1 :: b2 :: b3 :: bs =>
      (Z.shiftl b0 24 + Z.shiftl b1 16 + Z.shiftl b2 8 + b3) :: words bs
  | _ => []
  end.

Fixpoint blocks (n : nat) (ws : list Z) (s : hstate) : hstate :=
  match n with
  | O => s
  | S n => blocks n (drop 16 ws) (block s (take 16 ws))
  end.

Definition Sum256 (msg : list Z) : list Z :=
  let ws := words (pad msg) in
  let s := blocks (length ws / 16) ws H0 in
  concat (be_bytes 4 <$> [ha s; hb s; hc s; hd s; he s; hf s; hg s; hh s]).

End sha256.

(** ** encoding/hex *)

Definition hex_digit (n : Z) : ascii :=
  ascii_of_nat (Z.to_nat (if n <? 10 then 48 + n else 87 + n)).

Fixpoint EncodeToString (bs : list Z) : string :=
  match bs with
  | [] => EmptyString
  | b :: bs =>
      String (hex_digit (Z.shiftr b 4)) (String (hex_digit (Z.land b 15)) (EncodeToString bs))
  end.

Fixpoint string_bytes (s : string) : list Z :=
  match s with
  | EmptyString => []
  | String c s => Z.of_N (N_of_ascii c) :: string_bytes s
  end.

(** ** util.Short *)

Fixpoint str_take (n : nat) (s : string) : string :=
  match n, s with
  | S n, String c s => String c (str_take n s)
  | _, _ => EmptyString
  end.

Definition Short (data : string) (n : Z) : string :=
  let n := if n <=? 0 then 8 else n in
  let s := EncodeToString (sha256.Sum256 (string_bytes data)) in
  let n := if Z.of_nat (String.length s) <? n then Z.of_nat (String.length s) else n in
  str_take (Z.to_nat n) s.

Definition ShortString (s : string) (n : Z) : string := Short s n.

(** The hashing interface of the version stores. *)
Class Hasher := hash_short : string → Z → string.
Definition util_Short : Hasher := Short.

Example Short_empty : Short "" 16 = "e3b0c44298fc1c14".
Proof. vm_compute. reflexivity. Qed.
Example Short_abc : Short "abc" 100 =
  "ba7816bf8f01cfea414140de5dae2223b00361a396177a9cb410ff61f20015ad".
Proof. vm_compute. reflexivity. Qed.
Example Short_default : ShortString "abc" 0 = "ba7816bf".
Proof. vm_compute. reflexivity. Qed.

(** ** Lemmas *)

Lemma length_be_bytes n x : length (sha256.be_bytes n x) = n.
Proof.
  revert x; induction n as [|n IH]; intros x; simpl; [done|].
  rewrite length_app, IH. simpl. lia.
Qed.

Lemma length_Sum256 msg : length (sha256.Sum256 msg) = 32%nat.
Proof.
  unfold sha256.Sum256. cbv zeta. generalize (sha256.blocks (length (sha256.words (sha256.pad msg)) / 16)
    (sha256.words (sha256.pad msg)) sha256.H0) as s.
  intros s. cbn [fmap list_fmap concat]. rewrite !length_app, !length_be_bytes. done.
Qed.

Lemma length_EncodeToString bs : String.length (EncodeToString bs) = (2 * length bs)%nat.
Proof. induction bs as [|b bs IH]; simpl; [done|]. rewrite IH. lia. Qed.

Lemma length_str_take n s : String.length (str_take n s) = (n `min` String.length s)%nat.
Proof. revert s; induction n as [|n IH]; intros [|c s]; simpl; auto. Qed.

Lemma str_take_take n m s : (n ≤ m)%nat → str_take n (str_take m s) = str_take n s.
Proof.
  revert m s; induction n as [|n IH]; intros [|m] [|c s] H; simpl; auto; try lia.
  f_equal. apply IH. lia.
Qed.

(** The width [Short] really returns: [8] for a non-positive request, at most
    the 64 digits of the digest. *)
Definition short_width (n : Z) : Z := Z.min 64 (if n <=? 0 then 8 else n).

Lemma Short_take data n :
  Short data n =
  str_take (Z.to_nat (short_width n)) (EncodeToString (sha256.Sum256 (string_bytes data))).
Proof.
  unfold Short, short_width. cbv zeta.
  rewrite length_EncodeToString, length_Sum256. change (Z.of_nat (2 * 32)) with 64.
  f_equal. destruct (n <=? 0); [done|]. destruct (Z.ltb_spec 64 n); f_equal; lia.
Qed.

(** [util.Short] returns exactly [n] hex digits, eight when [n] is not
    positive and never more than the 64 of the digest, and a shorter
    fingerprint of the same data is a prefix of a longer one. *)
Theorem short_spec (data : string) (n m : Z) :
  String.length (Short data n) = Z.to_nat (short_width n) ∧
  (short_width n ≤ short_width m →
   Short data n = str_take (Z.to_nat (short_width n)) (Short data m)).
Proof.
  rewrite !Short_take. split.
  - rewrite length_str_take, length_EncodeToString, length_Sum256.
    unfold short_width. destruct (n <=? 0); lia.
  - intros H. rewrite str_take_take; [done|]. lia.
Qed.

Lemma short_spec_witness :
  short_width 8 ≤ short_width 16 ∧ Short "abc" 8 = str_take 8 (Short "abc" 16).
Proof.
  split; [vm_compute; discriminate|].
  apply (proj2 (short_spec "abc" 8 16)). vm_compute; discriminate.
Defined.
