(* ===== verification/VersionStore.v ===== *)
(** * The version-store contract (engine/store/versionstore.go, versioned.go)

    The data both backends share ([Version], its wire shape, the sentinel
    errors, [FreedBlob], [docKey]), the [VersionStore] interface as a class of
    operations, and the contract the Go comments call normative as a second
    class, [VersionStoreLaws]: an abstraction of the store's state to one
    history per document, an invariant, and what each operation does to them.
    Clients are proved against [VersionStoreLaws]; each backend discharges it. *)

From stdpp Require Import pretty.
From S2P Require Import Prelude Fingerprint VersionDag.

Local Open Scope Z_scope.

(** ** Errors *)

Inductive error :=
| ErrHashCollision
| ErrRefcountOverflow
| ErrRefcountUnderflow
| ErrNotAHead
| ErrCannotAbandonLastLiveHead
| ErrPreconditionFailed
| DagError (e : version.error)
| Errorf (msg : string)              (* fmt.Errorf without %w *)
| Wrapf (msg : string) (e : error).  (* fmt.Errorf("msg: %w", e) *)

#[export] Instance version_error_eq_dec : EqDecision version.error.
Proof. solve_decision. Defined.
#[export] Instance error_eq_dec : EqDecision error.
Proof. solve_decision. Defined.

(** [errors.Is]: compare along the chain of wrapped errors. *)
Fixpoint errors_Is (e target : error) : bool :=
  bool_decide (e = target) || match e with Wrapf _ e' => errors_Is e' target | _ => false end.

(** ** Versions *)

Record Version := mkVersion {
  Type_ : string;
  DocID : string;
  VersionID : string;
  Seq : Z;
  Data : string;
  CreatedAt : string;
  Live : bool;
}.

#[export] Instance Version_eq_dec : EqDecision Version.
Proof. solve_decision. Defined.

(** The wire shape: [live] is a pointer so that [true] is left out. *)
Record versionWire := mkVersionWire {
  wType : string;
  wID : string;
  wVersionID : string;
  wSeq : Z;
  wData : string;
  wCreatedAt : string;
  wLive : option bool;
}.

Definition MarshalJSON (v : Version) : versionWire :=
  mkVersionWire (Type_ v) (DocID v) (VersionID v) (Seq v) (Data v) (CreatedAt v)
    (if negb (Live v) then Some false else None).

Definition UnmarshalJSON (w : versionWire) : Version :=
  mkVersion (wType w) (wID w) (wVersionID w) (wSeq w) (wData w) (wCreatedAt w)
    (match wLive w with None => true | Some b => b end).

Record FreedBlob := mkFreedBlob { fbHash : string; fbBytes : Z }.

Definition docKey (docType id : string) : string := docType +:+ ":" +:+ id.

(** The input of [util.Short] that names a version:
    [fmt.Sprintf("%s-%d-%s", key, seq, data)]. *)
Definition versionIDInput (key : string) (seq : Z) (data : string) : string :=
  key +:+ "-" +:+ pretty seq +:+ "-" +:+ data.

Definition MaxInt64 : Z := 9223372036854775807.

(** Go's [time]: an instant is its UnixNano value; the RFC3339Nano text and its
    parser come from the standard library. *)
Class GoTime := {
  FormatNano : Z → string;
  ParseNano : string → option Z;
}.

(** Formatting an instant and parsing the text gives the instant back (years
    0 to 9999, the range RFC 3339 covers). *)
Class GoTimeLaws `{GoTime} :=
  parse_format : ∀ t, -62167219200000000000 ≤ t < 253402300800000000000 →
    ParseNano (FormatNano t) = Some t.

(** ** The interface *)

Class VersionStore (S : Type) := {
  AppendVersion : Z → string → string → string → list string → st S error Version;
  ListVersions : string → string → st S error (list Version);
  GetSnapshot : string → st S error string;
  DeleteHistory : string → string → st S error unit;
  LoadDAG : string → string → st S error version.DAG;
  DeleteVersions : string → string → list string → st S error (list FreedBlob);
  SetLive : string → string → string → bool → st S error unit;
}.

(** ** Abstract histories *)

(** One version with its parent edges, as every backend records it. *)
Record Row := mkRow { rv : Version; rparents : list string }.

Definition rvid (r : Row) : string := VersionID (rv r).

(** The history of a document: its versions in order of appending and the
    high-water sequence number. *)
Record Hist := mkHist { rows : list Row; hwm : Z }.

Definition no_hist : Hist := mkHist [] 0.
Definition vids (l : list Row) : list string := rvid <$> l.

(** Somebody in [l] lists [x] as a parent. *)
Definition has_child (l : list Row) (x : string) : Prop := ∃ r, r ∈ l ∧ x ∈ rparents r.

(** Newest last: sequence numbers increase strictly and never exceed the
    high-water mark, ids are distinct, parents come earlier. *)
Inductive rows_wf : list Row → Z → Prop :=
| rows_wf_nil hw : 0 ≤ hw → rows_wf [] hw
| rows_wf_snoc l r hw hw' :
    rows_wf l hw → hw < Seq (rv r) ≤ hw' → rvid r ∉ vids l →
    (∀ p, p ∈ rparents r → p ∈ vids l) →
    rows_wf (l ++ [r]) hw'.

Definition hist_wf (h : Hist) : Prop := rows_wf (rows h) (hwm h).

(** The row [SetLive] leaves behind. *)
Definition with_live (b : bool) (v : Version) : Version :=
  mkVersion (Type_ v) (DocID v) (VersionID v) (Seq v) (Data v) (CreatedAt v) b.

Definition set_live_row (x : string) (b : bool) (r : Row) : Row :=
  if decide (rvid r = x) then mkRow (with_live b (rv r)) (rparents r) else r.

(** A DAG records a list of rows. *)
Record dag_repr (d : version.DAG) (l : list Row) : Prop := {
  repr_wf : version.dag_wf d;
  repr_dom x : is_Some (version.versions d !! x) ↔ x ∈ vids l;
  repr_parents r : r ∈ l → version.parents_of d (rvid r) = rparents r;
}.

(** ** Facts about histories *)

Lemma vids_app l k : vids (l ++ k) = vids l ++ vids k.
Proof. apply fmap_app. Qed.

Lemma elem_of_vids l x : x ∈ vids l ↔ ∃ r, r ∈ l ∧ rvid r = x.
Proof. unfold vids. rewrite list_elem_of_fmap. naive_solver. Qed.

Lemma rvid_in_vids l r : r ∈ l → rvid r ∈ vids l.
Proof. rewrite elem_of_vids. eauto. Qed.

Lemma rows_wf_weaken l hw hw' : rows_wf l hw → hw ≤ hw' → rows_wf l hw'.
Proof.
  destruct 1 as [|l r hw hw1]; intros; [constructor; lia|].
  econstructor; eauto. lia.
Qed.

Lemma rows_wf_hw l hw : rows_wf l hw → 0 ≤ hw.
Proof. induction 1; lia. Qed.

Lemma rows_wf_bound l hw r : rows_wf l hw → r ∈ l → 0 < Seq (rv r) ≤ hw.
Proof.
  intros Hl. induction Hl as [|l r0 hw hw' Hl IH Hs Hn Hp]; [set_solver|].
  rewrite elem_of_app, list_elem_of_singleton. pose proof (rows_wf_hw _ _ Hl).
  intros [Hr | ->]; [specialize (IH Hr)|]; lia.
Qed.

Lemma rows_wf_NoDup l hw : rows_wf l hw → NoDup (vids l).
Proof.
  induction 1 as [|l r hw hw' Hl IH Hs Hn Hp]; [constructor|].
  rewrite vids_app. apply NoDup_app. split_and!; [done| |apply NoDup_singleton].
  simpl. set_solver.
Qed.

Lemma rows_wf_vid_inj l hw r1 r2 :
  rows_wf l hw → r1 ∈ l → r2 ∈ l → rvid r1 = rvid r2 → r1 = r2.
Proof.
  intros Hl%rows_wf_NoDup [i Hi]%list_elem_of_lookup [j Hj]%list_elem_of_lookup E.
  assert (i = j) as ->; [|congruence].
  apply (NoDup_lookup (vids l) i j (rvid r1)); [done|..]; unfold vids;
    rewrite list_lookup_fmap, ?Hi, ?Hj; simpl; congruence.
Qed.

Lemma rows_wf_seq_inj l hw r1 r2 :
  rows_wf l hw → r1 ∈ l → r2 ∈ l → Seq (rv r1) = Seq (rv r2) → r1 = r2.
Proof.
  intros Hl. induction Hl as [|l r0 hw hw' Hl IH Hs Hn Hp]; [set_solver|].
  rewrite !elem_of_app, !list_elem_of_singleton. pose proof (rows_wf_bound l hw).
  intros [H1 | ->] [H2 | ->] E; auto; exfalso.
  - pose proof (rows_wf_bound _ _ _ Hl H1). lia.
  - pose proof (rows_wf_bound _ _ _ Hl H2). lia.
Qed.

Lemma rows_wf_parent_known l hw r p :
  rows_wf l hw → r ∈ l → p ∈ rparents r → p ∈ vids l.
Proof.
  intros Hl. induction Hl as [|l r0 hw hw' Hl IH Hs Hn Hp]; [set_solver|].
  rewrite elem_of_app, list_elem_of_singleton, vids_app, elem_of_app.
  intros [Hr | ->]; auto.
Qed.

(** A parent has a smaller sequence number than its child. *)
Lemma rows_wf_parent_seq l hw r q :
  rows_wf l hw → r ∈ l → q ∈ l → rvid q ∈ rparents r → Seq (rv q) < Seq (rv r).
Proof.
  intros Hl. induction Hl as [|l r0 hw hw' Hl IH Hs Hn Hp]; [set_solver|].
  rewrite !elem_of_app, !list_elem_of_singleton. intros [Hr | ->] [Hq | ->] Hin; auto.
  - exfalso. apply Hn. by eapply rows_wf_parent_known.
  - pose proof (rows_wf_bound _ _ _ Hl Hq). lia.
  - exfalso. auto.
Qed.

(** The most recent version is always a head. *)
Lemma last_is_head l r hw : rows_wf (l ++ [r]) hw → ¬ has_child (l ++ [r]) (rvid r).
Proof.
  intros Hl (q&Hq&Hin).
  assert (r ∈ l ++ [r]) as Hr by set_solver.
  pose proof (rows_wf_parent_seq _ _ _ _ Hl Hq Hr Hin).
  apply elem_of_app in Hq as [Hq|Hq%list_elem_of_singleton]; [|subst; lia].
  inversion Hl as [|l' r' hw1 ? Hl' Hs Hn Hp E]; [destruct l; done|].
  apply app_inj_tail in E as [-> ->].
  pose proof (rows_wf_bound _ _ _ Hl' Hq). lia.
Qed.

Lemma rows_wf_prefix l k hw : rows_wf (l ++ k) hw → rows_wf l hw.
Proof.
  revert hw; induction k as [|r k IH] using rev_ind; intros hw; [by rewrite app_nil_r|].
  rewrite app_assoc. intros Hl.
  inversion Hl as [? ? E|l' r' hw1 ? Hl' Hs Hn Hp E]; [by destruct (l ++ k)|].
  apply app_inj_tail in E as [-> ->]. eapply rows_wf_weaken; [by apply IH|lia].
Qed.

Lemma rows_wf_snoc_inv l r hw :
  rows_wf (l ++ [r]) hw → (rvid r ∉ vids l) ∧ (∀ p, p ∈ rparents r → p ∈ vids l).
Proof.
  intros Hl. inversion Hl as [? ? E|l' r' hw1 ? Hl' Hs Hn Hp E]; [by destruct l|].
  by apply app_inj_tail in E as [-> ->].
Qed.

Lemma rows_wf_filter l hw (ids : list string) :
  rows_wf l hw →
  (∀ r p, r ∈ l → p ∈ rparents r → p ∈ ids → rvid r ∈ ids) →
  rows_wf (filter (λ r, rvid r ∉ ids) l) hw.
Proof.
  induction 1 as [|l r hw hw' Hl IH Hs Hn Hp]; intros Hcl; [by constructor|].
  assert (rows_wf (filter (λ r, rvid r ∉ ids) l) hw) as IH'.
  { apply IH. intros q p ?. apply Hcl. set_solver. }
  rewrite filter_app, filter_cons, filter_nil. case_decide as Hr.
  - econstructor; [exact IH'|done| |].
    + intros (q&Hq&E)%elem_of_vids. apply Hn, elem_of_vids. exists q.
      apply list_elem_of_filter in Hq. naive_solver.
    + intros p Hin. pose proof (Hp p Hin) as (q&Hq&E)%elem_of_vids.
      apply elem_of_vids. exists q. split; [|done]. apply list_elem_of_filter. split; [|done].
      rewrite E. intros Hids. apply Hr, (Hcl r p); set_solver.
  - rewrite app_nil_r. eapply rows_wf_weaken; [exact IH'|lia].
Qed.

Lemma rvid_set_live x b r : rvid (set_live_row x b r) = rvid r.
Proof. unfold set_live_row. by case_decide. Qed.
Lemma rparents_set_live x b r : rparents (set_live_row x b r) = rparents r.
Proof. unfold set_live_row. by case_decide. Qed.
Lemma Seq_set_live x b r : Seq (rv (set_live_row x b r)) = Seq (rv r).
Proof. unfold set_live_row. by case_decide. Qed.
Lemma vids_set_live x b l : vids (set_live_row x b <$> l) = vids l.
Proof. unfold vids. rewrite <-list_fmap_compose. apply list_fmap_ext. intros. apply rvid_set_live. Qed.

Lemma has_child_set_live x b l y : has_child (set_live_row x b <$> l) y ↔ has_child l y.
Proof.
  unfold has_child. setoid_rewrite list_elem_of_fmap. split.
  - intros (r&(q&->&Hq)&Hy). rewrite rparents_set_live in Hy. eauto.
  - intros (r&Hr&Hy). exists (set_live_row x b r). rewrite rparents_set_live. eauto.
Qed.

Lemma rows_wf_set_live x b l hw : rows_wf l hw → rows_wf (set_live_row x b <$> l) hw.
Proof.
  induction 1 as [|l r hw hw' Hl IH Hs Hn Hp]; [by constructor|].
  rewrite fmap_app. simpl. econstructor; [exact IH|by rewrite Seq_set_live| |].
  - by rewrite vids_set_live, rvid_set_live.
  - rewrite vids_set_live, rparents_set_live. done.
Qed.

(** ** Facts about DAGs that record a history *)

Lemma repr_parent d l x y :
  dag_repr d l → version.parent d x y ↔ ∃ r, r ∈ l ∧ rvid r = x ∧ y ∈ rparents r.
Proof.
  intros [Hwf Hdom Hpar]. unfold version.parent. split.
  - intros Hy. destruct (version.parent_known_l _ _ _ Hy) as [v Hv].
    assert (x ∈ vids l) as (r&Hr&<-)%elem_of_vids by (apply Hdom; eauto).
    exists r. rewrite <-Hpar by done. auto.
  - intros (r&Hr&<-&Hy). by rewrite Hpar.
Qed.

Lemma repr_child d l y : dag_repr d l → (∃ x, version.parent d x y) ↔ has_child l y.
Proof.
  intros Hd. unfold has_child. split.
  - intros [x (r&?&_&?)%(repr_parent d l)]; eauto.
  - intros (r&?&?). exists (rvid r). apply (repr_parent d l); eauto.
Qed.

Lemma repr_Children d l y : dag_repr d l → version.Children d y = [] ↔ ¬ has_child l y.
Proof.
  intros Hd. rewrite version.Children_nil by apply Hd. rewrite <-(repr_child d l) by done.
  naive_solver.
Qed.

Lemma repr_Heads d l h : dag_repr d l → h ∈ version.Heads d ↔ h ∈ vids l ∧ ¬ has_child l h.
Proof.
  intros Hd. rewrite version.elem_of_Heads, (repr_Children d l), (repr_dom d l) by done. done.
Qed.

(** Appending a version with known parents to a recorded history. *)
Lemma dag_repr_append d l v r :
  dag_repr d l → version.versions d !! version.ID v = None →
  (∀ p, p ∈ version.ParentIDs v → is_Some (version.versions d !! p)) →
  rvid r = version.ID v → rparents r = version.ParentIDs v →
  dag_repr (version.appended v d) (l ++ [r]).
Proof.
  intros [Hwf Hdom Hpar] Hn Hp E1 E2. split.
  - by apply version.appended_wf.
  - intros x. simpl. rewrite lookup_insert_is_Some', Hdom, vids_app. simpl. set_solver.
  - intros q. rewrite elem_of_app, list_elem_of_singleton, version.parents_of_appended.
    intros [Hq | ->].
    + case_decide as E; [|by apply Hpar]. exfalso. apply rvid_in_vids, Hdom in Hq as [w Hw]. congruence.
    + rewrite decide_True by done. done.
Qed.

(** A DAG grown by appending the versions of a well-formed history records it. *)
Lemma dag_repr_new : dag_repr version.NewDAG [].
Proof.
  split; [apply version.NewDAG_wf| |set_solver].
  intros x. simpl. rewrite lookup_empty. split; [intros [? [=]]|set_solver].
Qed.

Lemma dag_repr_snoc d l r hw ts h :
  dag_repr d l → rows_wf (l ++ [r]) hw →
  ∃ d', version.Append (version.mkVersion (rvid r) (rparents r) ts h) d = (Ok tt, d') ∧
        dag_repr d' (l ++ [r]).
Proof.
  intros Hd Hl%rows_wf_snoc_inv. destruct Hl as [Hn Hp].
  assert (version.versions d !! rvid r = None) as Hnew.
  { apply eq_None_not_Some. by rewrite (repr_dom d l Hd). }
  assert (∀ p, p ∈ rparents r → is_Some (version.versions d !! p)) as Hpar.
  { intros p Hin. apply (repr_dom d l Hd). auto. }
  eexists. split; [by apply version.Append_ok|]. by apply dag_repr_append.
Qed.

(** ** The contract *)

Class VersionStoreLaws (S : Type) `{HS : Hasher} `{GT : GoTime} `{VS : VersionStore S} := {
  vs_inv : S → Prop;
  vs_hist : S → string → string → Hist;
  (* the id the next append would issue is not in use anywhere in the store *)
  vs_fresh : S → string → string → string → Prop;

  vs_hist_wf s t i : vs_inv s → hist_wf (vs_hist s t i);

  vs_append s now t i data parents r s' :
    vs_inv s → vs_fresh s t i data → AppendVersion now t i data parents s = (r, s') →
    vs_inv s' ∧
    (∀ t' i', docKey t' i' ≠ docKey t i → vs_hist s' t' i' = vs_hist s t' i') ∧
    match r with
    | Ok v =>
        (∀ p, p ∈ parents → p ∈ vids (rows (vs_hist s t i))) ∧
        (VersionID v ∉ vids (rows (vs_hist s t i))) ∧
        v = mkVersion t i
              (hash_short (versionIDInput (docKey t i) (hwm (vs_hist s t i) + 1) data) 16)
              (hwm (vs_hist s t i) + 1) data (FormatNano now) true ∧
        vs_hist s' t i = mkHist (rows (vs_hist s t i) ++ [mkRow v parents]) (Seq v)
    | Err e => vs_hist s' t i = vs_hist s t i
    end;

  vs_list s t i : vs_inv s → ListVersions t i s = (Ok (rv <$> rows (vs_hist s t i)), s);

  vs_snapshot s t i r :
    vs_inv s → r ∈ rows (vs_hist s t i) → GetSnapshot (rvid r) s = (Ok (Data (rv r)), s);

  vs_delete_history s t i :
    vs_inv s → ∃ s', DeleteHistory t i s = (Ok tt, s') ∧ vs_inv s' ∧
      vs_hist s' t i = no_hist ∧
      (∀ t' i', docKey t' i' ≠ docKey t i → vs_hist s' t' i' = vs_hist s t' i');

  (* every caller loads the DAG of a document it has just listed *)
  vs_load_dag s t i :
    vs_inv s → rows (vs_hist s t i) ≠ [] →
    ∃ d s', LoadDAG t i s = (Ok d, s') ∧ dag_repr d (rows (vs_hist s t i)) ∧
      vs_inv s' ∧ ∀ t' i', vs_hist s' t' i' = vs_hist s t' i';

  (* removing a set of versions that is closed under children and spares one *)
  vs_delete_versions s t i ids :
    vs_inv s → ids ≠ [] →
    (∀ x, x ∈ ids → x ∈ vids (rows (vs_hist s t i))) →
    (∀ r p, r ∈ rows (vs_hist s t i) → p ∈ rparents r → p ∈ ids → rvid r ∈ ids) →
    (∃ r, r ∈ rows (vs_hist s t i) ∧ rvid r ∉ ids) →
    ∃ freed s', DeleteVersions t i ids s = (Ok freed, s') ∧ vs_inv s' ∧
      vs_hist s' t i =
        mkHist (filter (λ r, rvid r ∉ ids) (rows (vs_hist s t i))) (hwm (vs_hist s t i)) ∧
      (∀ t' i', docKey t' i' ≠ docKey t i → vs_hist s' t' i' = vs_hist s t' i');

  vs_set_live s t i x b r s' :
    vs_inv s → SetLive t i x b s = (r, s') →
    vs_inv s' ∧ (∀ t' i' d, vs_fresh s t' i' d → vs_fresh s' t' i' d) ∧
    (∀ t' i', docKey t' i' ≠ docKey t i → vs_hist s' t' i' = vs_hist s t' i') ∧
    match r with
    | Ok _ =>
        x ∈ vids (rows (vs_hist s t i)) ∧ ¬ has_child (rows (vs_hist s t i)) x ∧
        vs_hist s' t i =
          mkHist (set_live_row x b <$> rows (vs_hist s t i)) (hwm (vs_hist s t i))
    | Err e =>
        vs_hist s' t i = vs_hist s t i ∧
        (errors_Is e ErrNotAHead = true →
         x ∈ vids (rows (vs_hist s t i)) ∧ has_child (rows (vs_hist s t i)) x) ∧
        (x ∈ vids (rows (vs_hist s t i)) → errors_Is e ErrNotAHead = true)
    end;
}.
