(* ===== verification/Blobs.v ===== *)
(** * Reference-counted snapshot blobs

    Both version backends store payloads content-addressed, with a count per
    blob.  Here are the blob entry they share, the counting of references, the
    invariant [blob_inv] that ties the counts to the version-to-hash
    indirection, and how it moves when references are taken and released. *)

From S2P Require Import Prelude VersionStore.

Local Open Scope Z_scope.

Record blobEntry := mkBlob { bdata : string; refcount : Z }.

(** How many versions point at hash [h]. *)
Definition refs (m : gmap string string) (h : string) : nat :=
  size (filter (λ kv, kv.2 = h) m).

(** How often [h] occurs in a list of references still to be released. *)
Definition occ (h : string) (l : list string) : nat := length (filter (h =.) l).

Definition rc (bl : gmap string blobEntry) (h : string) : Z :=
  match bl !! h with Some b => refcount b | None => 0 end.

(** A blob's count is the number of versions that point at it plus the
    references about to be released; a blob is stored while it is counted. *)
Definition blob_inv (bl : gmap string blobEntry) (m : gmap string string) (pend : list string) : Prop :=
  (∀ h, rc bl h = Z.of_nat (refs m h + occ h pend)) ∧
  (∀ h b, bl !! h = Some b → 1 ≤ refcount b ≤ MaxInt64).

(** No payload changes between two blob tables. *)
Definition data_sub (bl' bl : gmap string blobEntry) : Prop :=
  ∀ h b', bl' !! h = Some b' → ∃ b, bl !! h = Some b ∧ bdata b = bdata b'.

Lemma refs_insert m vid h h' :
  m !! vid = None →
  refs (<[vid := h]> m) h' = ((if decide (h = h') then 1 else 0) + refs m h')%nat.
Proof.
  intros Hn. unfold refs. case_decide as E.
  - rewrite map_filter_insert_True by done.
    rewrite map_size_insert_None; [done|]. apply map_lookup_filter_None. auto.
  - rewrite map_filter_insert_False by done. by rewrite delete_id.
Qed.

Lemma refs_delete m vid h h' :
  m !! vid = Some h →
  refs m h' = ((if decide (h = h') then 1 else 0) + refs (delete vid m) h')%nat.
Proof.
  intros Hs. rewrite <-(insert_delete_id m vid h) at 1 by done.
  apply refs_insert, lookup_delete_eq.
Qed.

Lemma occ_cons h h' l : occ h' (h :: l) = ((if decide (h = h') then 1 else 0) + occ h' l)%nat.
Proof. unfold occ. rewrite filter_cons. repeat case_decide; subst; done. Qed.

Lemma rc_insert bl h b h' :
  rc (<[h := b]> bl) h' = if decide (h = h') then refcount b else rc bl h'.
Proof. unfold rc. rewrite lookup_insert. by case_decide. Qed.

Lemma rc_delete bl h h' : rc (delete h bl) h' = if decide (h = h') then 0 else rc bl h'.
Proof. unfold rc. rewrite lookup_delete. by case_decide. Qed.

Lemma blob_inv_move bl m vid h pend :
  m !! vid = Some h → blob_inv bl m pend → blob_inv bl (delete vid m) (h :: pend).
Proof.
  intros Hs [H1 H2]. split; [|done]. intros h'.
  rewrite H1, (refs_delete m vid h h' Hs), occ_cons. lia.
Qed.

Lemma blob_inv_take bl m vid h pend :
  m !! vid = None → blob_inv bl m (h :: pend) → blob_inv bl (<[vid := h]> m) pend.
Proof.
  intros Hs [H1 H2]. split; [|done]. intros h'.
  rewrite H1, (refs_insert m vid h h' Hs), occ_cons. lia.
Qed.

Lemma refs_pos m vid h : m !! vid = Some h → (0 < refs m h)%nat.
Proof. intros E. rewrite (refs_delete m vid h h E), decide_True by done. lia. Qed.

(** ** Removing a set of versions *)

Definition without (ids : list string) (m : gmap string string) : gmap string string :=
  filter (λ kv, kv.1 ∉ ids) m.

Lemma without_nil m : without [] m = m.
Proof. apply map_filter_id. intros; simpl. set_solver. Qed.

Lemma without_cons x ids m : without (x :: ids) m = without ids (delete x m).
Proof.
  apply map_eq. intros k. apply option_eq. intros v. unfold without.
  rewrite !map_lookup_filter_Some, lookup_delete_Some. simpl. set_solver.
Qed.

Lemma lookup_without ids m x h : without ids m !! x = Some h ↔ m !! x = Some h ∧ x ∉ ids.
Proof. unfold without. by rewrite map_lookup_filter_Some. Qed.

(** [bl'] lost only blobs nothing in [m] counts any more. *)
Definition keeps (bl bl' : gmap string blobEntry) (m : gmap string string) : Prop :=
  data_sub bl' bl ∧ ∀ h, (0 < refs m h)%nat → is_Some (bl !! h) → is_Some (bl' !! h).

Lemma keeps_refl bl m : keeps bl bl m.
Proof. split; [|done]. intros h b Hb. eauto. Qed.

Lemma data_sub_trans a b c : data_sub a b → data_sub b c → data_sub a c.
Proof.
  intros H1 H2 h x Hx. destruct (H1 _ _ Hx) as (y&Hy&E1).
  destruct (H2 _ _ Hy) as (z&Hz&E2). exists z. split; congruence.
Qed.

Lemma refs_without_le ids m h : (refs (without ids m) h ≤ refs m h)%nat.
Proof.
  unfold refs. apply map_subseteq_size, map_filter_subseteq_mono, map_filter_subseteq.
Qed.

(** ** Taking and releasing references *)

(** The table after one more reference to [data] under [h]. *)
Definition add_ref (bl : gmap string blobEntry) (h data : string) : gmap string blobEntry :=
  <[h := match bl !! h with
         | Some b => mkBlob (bdata b) (refcount b + 1)
         | None => mkBlob data 1
         end]> bl.

(** The table after [n] references to [h] are gone. *)
Definition drop_refs (bl : gmap string blobEntry) (h : string) (n : Z) : gmap string blobEntry :=
  match bl !! h with
  | None => bl
  | Some b => if refcount b =? n then delete h bl else <[h := mkBlob (bdata b) (refcount b - n)]> bl
  end.

Lemma add_ref_inv bl m h data pend :
  blob_inv bl m pend →
  (∀ b, bl !! h = Some b → bdata b = data ∧ refcount b ≠ MaxInt64) →
  blob_inv (add_ref bl h data) m (h :: pend) ∧
  (∃ b, add_ref bl h data !! h = Some b ∧ bdata b = data) ∧
  (∀ h' b, bl !! h' = Some b → ∃ b', add_ref bl h data !! h' = Some b' ∧ bdata b' = bdata b).
Proof.
  intros [H1 H2] Hb. unfold add_ref. pose proof (H1 h) as Hh. unfold rc in Hh. split_and!.
  - split.
    + intros h'. rewrite rc_insert, occ_cons. specialize (H1 h').
      destruct (bl !! h); repeat case_decide; subst; simpl; lia.
    + intros h' b' [[<- <-]|[_ ?]]%lookup_insert_Some; [|eauto].
      destruct (bl !! h) as [b|] eqn:E; simpl; [|unfold MaxInt64; lia].
      destruct (Hb b eq_refl). pose proof (H2 _ _ E). lia.
  - rewrite lookup_insert_eq. eexists. split; [done|].
    destruct (bl !! h) as [b|]; [by apply (Hb b)|done].
  - intros h' b' Hb'. rewrite lookup_insert. case_decide as E; [|eauto]. subst. rewrite Hb'. eauto.
Qed.

Lemma drop_refs_inv bl m h n pend pend' :
  blob_inv bl m pend → 0 < n →
  (∀ h', Z.of_nat (occ h' pend) = (if decide (h = h') then n else 0) + Z.of_nat (occ h' pend')) →
  (∃ b, bl !! h = Some b ∧ n ≤ refcount b) ∧ blob_inv (drop_refs bl h n) m pend' ∧
  data_sub (drop_refs bl h n) bl ∧
  (∀ h', (0 < refs m h' + occ h' pend')%nat → is_Some (bl !! h') → is_Some (drop_refs bl h n !! h')).
Proof.
  intros [H1 H2] Hn Hocc. pose proof (H1 h) as Hh. pose proof (Hocc h) as Hoh.
  rewrite decide_True in Hoh by done. unfold rc in Hh. unfold drop_refs.
  destruct (bl !! h) as [b|] eqn:E; [|lia]. split; [exists b; split; [done|lia]|].
  assert (∀ h', h ≠ h' → rc bl h' = Z.of_nat (refs m h' + occ h' pend')) as Hother.
  { intros h' Hne. rewrite H1. specialize (Hocc h'). rewrite decide_False in Hocc by done. lia. }
  pose proof (H2 _ _ E) as Hb. destruct (Z.eqb_spec (refcount b) n) as [En|En]; split_and!.
  - split.
    + intros h'. rewrite rc_delete. case_decide; subst; [lia|]. auto.
    + intros h' b' [_ ?]%lookup_delete_Some. eauto.
  - intros h' b' [_ ?]%lookup_delete_Some. eauto.
  - intros h' Hp Hs. rewrite lookup_delete_ne; [done|]. intros ->. lia.
  - split.
    + intros h'. rewrite rc_insert. case_decide; subst; simpl; [lia|]. auto.
    + intros h' b' [[<- <-]|[_ ?]]%lookup_insert_Some; [simpl; lia|eauto].
  - intros h' b' [[<- <-]|[_ ?]]%lookup_insert_Some; eauto.
  - intros h' Hp Hs. rewrite lookup_insert_is_Some'. auto.
Qed.
