(* ===== verification/MemVersionStore.v ===== *)
(** * The in-memory version store (engine/store/versionstore_inmemory.go)

    [MemStore] is [inMemoryVersionStore] field by field; each method is the
    whole Go method with its early returns, the shared [*version.DAG] updated
    in place in [dags].  [mem_inv] ties the five maps together (reference
    counts, indirections, DAGs) and [mem_laws] discharges [VersionStoreLaws]. *)

From stdpp Require Import pretty.
From S2P Require Import Prelude Fingerprint VersionDag VersionStore Blobs.

Local Open Scope Z_scope.

(** ** State *)

Record MemStore := mkMem {
  dags : gmap string version.DAG;
  versions : gmap string (list Version);
  blobs : gmap string blobEntry;
  versionToHash : gmap string string;
  nextSeq : gmap string Z;
  dead : gset string;
}.

Definition NewInMemoryVersionStore : MemStore := mkMem ∅ ∅ ∅ ∅ ∅ ∅.

(** Assignments to one field of the receiver. *)
Definition upd_dags f s := mkMem (f (dags s)) (versions s) (blobs s) (versionToHash s) (nextSeq s) (dead s).
Definition upd_versions f s := mkMem (dags s) (f (versions s)) (blobs s) (versionToHash s) (nextSeq s) (dead s).
Definition upd_blobs f s := mkMem (dags s) (versions s) (f (blobs s)) (versionToHash s) (nextSeq s) (dead s).
Definition upd_v2h f s := mkMem (dags s) (versions s) (blobs s) (f (versionToHash s)) (nextSeq s) (dead s).
Definition upd_seq f s := mkMem (dags s) (versions s) (blobs s) (versionToHash s) (f (nextSeq s)) (dead s).
Definition upd_dead f s := mkMem (dags s) (versions s) (blobs s) (versionToHash s) (nextSeq s) (f (dead s)).

(** Map reads with Go's zero value. *)
Definition dagAt (s : MemStore) (key : string) : version.DAG :=
  default version.NewDAG (dags s !! key).
Definition versionsAt (s : MemStore) (key : string) : list Version := default [] (versions s !! key).
Definition seqAt (s : MemStore) (key : string) : Z := default 0 (nextSeq s !! key).

Section MemVersionStore.
Context `{HS : Hasher} `{GT : GoTime}.

(** ** Operations *)

Definition unrefBlob (hash : string) : st MemStore error unit :=
  s ← get;
  match blobs s !! hash with
  | None => throw (Wrapf "entry missing" ErrRefcountUnderflow)
  | Some entry =>
      if refcount entry <=? 0 then throw (Wrapf "current" ErrRefcountUnderflow)
      else if refcount entry =? 1 then modify (upd_blobs (delete hash))
      else modify (upd_blobs <[hash := mkBlob (bdata entry) (refcount entry - 1)]>)
  end.

(** The dedup-aware blob upsert of [AppendVersion]. *)
Definition upsertBlob (hash data : string) : st MemStore error unit :=
  s ← get;
  match blobs s !! hash with
  | Some entry =>
      if negb (bool_decide (bdata entry = data)) then throw ErrHashCollision
      else if refcount entry =? MaxInt64 then throw ErrRefcountOverflow
      else modify (upd_blobs <[hash := mkBlob (bdata entry) (refcount entry + 1)]>)
  | None => modify (upd_blobs <[hash := mkBlob data 1]>)
  end.

(** [dag.Append] through the pointer held in [s.dags[key]]. *)
Definition dagAppend (key : string) (v : version.Version) : st MemStore error unit := λ s,
  let '(r, d) := version.Append v (dagAt s key) in
  (res_map_err DagError r, upd_dags <[key := d]> s).

(** The second half of [AppendVersion]: extend the DAG and commit the row, or
    roll the blob upsert back. *)
Definition appendRow (now : Z) (docType id data : string) (parents : list string)
    (seq : Z) (vid hash : string) : st MemStore error Version := λ s,
  let key := docKey docType id in
  match dagAppend key (version.mkVersion vid parents now hash) s with
  | (Ok _, s) =>
      let v := mkVersion docType id vid seq data (FormatNano now) true in
      (Ok v,
       upd_seq <[key := seq]>
         (upd_v2h <[vid := hash]>
            (upd_versions <[key := versionsAt s key ++ [v]]> s)))
  | (Err err, s) =>
      match unrefBlob hash s with
      | (Err _, s) => (Err (Wrapf "store: append version (rollback also failed)" err), s)
      | (Ok _, s) => (Err (Wrapf "store: append version" err), s)
      end
  end.

Definition ensureDAG (key : string) (s : MemStore) : MemStore :=
  match dags s !! key with
  | Some _ => s
  | None => upd_dags <[key := version.NewDAG]> s
  end.

Definition mem_AppendVersion (now : Z) (docType id data : string) (parents : list string)
  : st MemStore error Version :=
  let key := docKey docType id in
  modify (ensureDAG key);;
  seq ← gets (λ s, seqAt s key + 1);
  let vid := hash_short (versionIDInput key seq data) 16 in
  let hash := hash_short data 16 in
  upsertBlob hash data;;
  appendRow now docType id data parents seq vid hash.

Definition liveIn (s : MemStore) (v : Version) : Version :=
  with_live (negb (bool_decide (VersionID v ∈ dead s))) v.

Definition mem_ListVersions (docType id : string) : st MemStore error (list Version) :=
  gets (λ s, liveIn s <$> versionsAt s (docKey docType id)).

Definition mem_GetSnapshot (versionID : string) : st MemStore error string :=
  s ← get;
  match versionToHash s !! versionID with
  | None => throw (Errorf "store: snapshot not found")
  | Some hash =>
      match blobs s !! hash with
      | None => throw (Errorf "store: snapshot: blob missing for hash")
      | Some entry => mret (bdata entry)
      end
  end.

(** One iteration of the [DeleteHistory] loop. *)
Definition dropVersion (v : Version) : st MemStore error unit :=
  s ← get;
  match versionToHash s !! VersionID v with
  | None => throw (Wrapf "hash mapping missing" ErrRefcountUnderflow)
  | Some hash =>
      modify (upd_v2h (delete (VersionID v)));;
      modify (upd_dead (.∖ {[VersionID v]}));;
      unrefBlob hash
  end.

Definition mem_DeleteHistory (docType id : string) : st MemStore error unit :=
  let key := docKey docType id in
  vs ← gets (λ s, versionsAt s key);
  for_each vs dropVersion;;
  modify (upd_dags (delete key));;
  modify (upd_versions (delete key));;
  modify (upd_seq (delete key)).

Definition parentsOf (s : MemStore) (key vid : string) : list string :=
  match dags s !! key with
  | None => []
  | Some dag =>
      match version.Get dag vid with
      | None => []
      | Some v => version.ParentIDs v
      end
  end.

Definition hashOfRetained (s : MemStore) (vid : string) : string :=
  default "" (versionToHash s !! vid).

Definition parseTimestamp (s : string) : Z := default 0 (ParseNano s).

(** Step 1 of [DeleteVersions]: split the slice, drop the indirections and the
    dead bits of the doomed versions, collect their hashes. *)
Fixpoint splitDoomed (existing : list Version) (doomed : gset string)
  : st MemStore error (list Version * list string) :=
  match existing with
  | [] => mret ([], [])
  | v :: existing =>
      if decide (VersionID v ∈ doomed) then
        s ← get;
        match versionToHash s !! VersionID v with
        | None => throw (Wrapf "hash mapping missing" ErrRefcountUnderflow)
        | Some h =>
            modify (upd_v2h (delete (VersionID v)));;
            modify (upd_dead (.∖ {[VersionID v]}));;
            kh ← splitDoomed existing doomed;
            mret (kh.1, h :: kh.2)
        end
      else
        kh ← splitDoomed existing doomed;
        mret (v :: kh.1, kh.2)
  end.

(** Step 2: a fresh DAG from the surviving versions. *)
Fixpoint rebuildDAG (s : MemStore) (key : string) (kept : list Version) (d : version.DAG)
  : res error version.DAG :=
  match kept with
  | [] => Ok d
  | v :: kept =>
      match version.Append
              (version.mkVersion (VersionID v) (parentsOf s key (VersionID v))
                 (parseTimestamp (CreatedAt v)) (hashOfRetained s (VersionID v))) d with
      | (Ok _, d) => rebuildDAG s key kept d
      | (Err e, _) => Err (Wrapf "store: prune: rebuild dag" (DagError e))
      end
  end.

(** Step 3: decrement the reference counts, report the blobs that are gone. *)
Fixpoint releaseHashes (hashes : list string) : st MemStore error (list FreedBlob) :=
  match hashes with
  | [] => mret []
  | h :: hashes =>
      s ← get;
      match blobs s !! h with
      | None => throw (Wrapf "entry missing" ErrRefcountUnderflow)
      | Some entry =>
          let size := Z.of_nat (String.length (bdata entry)) in
          unrefBlob h;;
          s' ← get;
          freed ← releaseHashes hashes;
          mret (match blobs s' !! h with
                | None => mkFreedBlob h size :: freed
                | Some _ => freed
                end)
      end
  end.

Definition mem_DeleteVersions (docType id : string) (versionIDs : list string)
  : st MemStore error (list FreedBlob) :=
  match versionIDs with
  | [] => mret []
  | _ =>
      let key := docKey docType id in
      existing ← gets (λ s, versionsAt s key);
      match existing with
      | [] => mret []
      | _ =>
          kh ← splitDoomed existing (list_to_set versionIDs);
          match kh.1 with
          | [] => throw (Errorf "store: prune: refusing to remove all versions")
          | _ =>
              modify (upd_versions <[key := kh.1]>);;
              s ← get;
              d ← lift_res (rebuildDAG s key kh.1 version.NewDAG);
              modify (upd_dags <[key := d]>);;
              releaseHashes kh.2
          end
      end
  end.

Definition mem_SetLive (docType id versionID : string) (live : bool) : st MemStore error unit :=
  let key := docKey docType id in
  s ← get;
  match dags s !! key with
  | None => throw (Errorf "store: set live: not found")
  | Some dag =>
      match version.Get dag versionID with
      | None => throw (Errorf "store: set live: not found")
      | Some _ =>
          match version.Children dag versionID with
          | _ :: _ => throw (Wrapf "has children" ErrNotAHead)
          | [] =>
              if live then modify (upd_dead (.∖ {[versionID]}))
              else modify (upd_dead (.∪ {[versionID]}))
          end
      end
  end.

Definition mem_LoadDAG (docType id : string) : st MemStore error version.DAG :=
  gets (λ s, match dags s !! docKey docType id with
             | Some dag => dag
             | None => version.NewDAG
             end).

#[export] Instance mem_version_store : VersionStore MemStore := {
  AppendVersion := mem_AppendVersion;
  ListVersions := mem_ListVersions;
  GetSnapshot := mem_GetSnapshot;
  DeleteHistory := mem_DeleteHistory;
  LoadDAG := mem_LoadDAG;
  DeleteVersions := mem_DeleteVersions;
  SetLive := mem_SetLive;
}.

(** ** Reference counting *)

Lemma upd_blobs_id s : upd_blobs id s = s.
Proof. by destruct s. Qed.

Lemma unrefBlob_ok s m h pend :
  blob_inv (blobs s) m (h :: pend) →
  ∃ bl', unrefBlob h s = (Ok tt, upd_blobs (λ _, bl') s) ∧ blob_inv bl' m pend ∧
         data_sub bl' (blobs s) ∧
         (∀ h', (0 < refs m h' + occ h' pend)%nat → is_Some (blobs s !! h') → is_Some (bl' !! h')).
Proof.
  intros Hinv. destruct (drop_refs_inv (blobs s) m h 1 (h :: pend) pend) as ((b&Eb&Hb)&Hr); [done|done| |].
  { intros h'. rewrite occ_cons. case_decide; lia. }
  exists (drop_refs (blobs s) h 1). split; [|done]. unfold drop_refs.
  unfold unrefBlob, get, mbind, st_bind, throw, modify. rewrite Eb.
  destruct (Z.leb_spec (refcount b) 0); [lia|]. by destruct (Z.eqb_spec (refcount b) 1).
Qed.

Lemma upsertBlob_inv s m h data pend r s' :
  blob_inv (blobs s) m pend → upsertBlob h data s = (r, s') →
  match r with
  | Err e => s' = s
  | Ok _ => ∃ bl', s' = upd_blobs (λ _, bl') s ∧ blob_inv bl' m (h :: pend) ∧
                   (∃ b, bl' !! h = Some b ∧ bdata b = data) ∧
                   (∀ h' b, blobs s !! h' = Some b → ∃ b', bl' !! h' = Some b' ∧ bdata b' = bdata b)
  end.
Proof.
  intros Hinv. unfold upsertBlob, get, mbind, st_bind, throw, modify.
  assert ((∀ b, blobs s !! h = Some b → bdata b = data ∧ refcount b ≠ MaxInt64) →
    ∃ bl', upd_blobs (λ _, add_ref (blobs s) h data) s = upd_blobs (λ _, bl') s ∧ blob_inv bl' m (h :: pend) ∧
                   (∃ b, bl' !! h = Some b ∧ bdata b = data) ∧
                   (∀ h' b, blobs s !! h' = Some b → ∃ b', bl' !! h' = Some b' ∧ bdata b' = bdata b)) as Hok.
  { intros Hb. exists (add_ref (blobs s) h data). split; [done|]. by apply add_ref_inv. }
  unfold add_ref in Hok at 1. destruct (blobs s !! h) as [b|] eqn:E.
  - case_bool_decide as Hd; simpl; [|by intros [= <- <-]].
    destruct (Z.eqb_spec (refcount b) MaxInt64); [by intros [= <- <-]|]. intros [= <- <-].
    apply Hok. naive_solver.
  - intros [= <- <-]. by apply Hok.
Qed.

(** ** The invariant *)

Definition mem_row (s : MemStore) (key : string) (v : Version) : Row :=
  mkRow (liveIn s v) (version.parents_of (dagAt s key) (VersionID v)).

Definition mem_rows (s : MemStore) (key : string) : list Row :=
  mem_row s key <$> versionsAt s key.

Definition mem_hist (s : MemStore) (t i : string) : Hist :=
  mkHist (mem_rows s (docKey t i)) (seqAt s (docKey t i)).

Record mem_inv (s : MemStore) : Prop := {
  inv_blobs : blob_inv (blobs s) (versionToHash s) [];
  inv_snap key v : v ∈ versionsAt s key →
    versionToHash s !! VersionID v = Some (hash_short (Data v) 16) ∧
    ∃ b, blobs s !! hash_short (Data v) 16 = Some b ∧ bdata b = Data v;
  inv_owner k1 k2 v1 v2 : v1 ∈ versionsAt s k1 → v2 ∈ versionsAt s k2 →
    VersionID v1 = VersionID v2 → k1 = k2;
  inv_v2h vid : is_Some (versionToHash s !! vid) → ∃ key v, v ∈ versionsAt s key ∧ VersionID v = vid;
  inv_dag key : dag_repr (dagAt s key) (mem_rows s key);
  inv_hist key : rows_wf (mem_rows s key) (seqAt s key);
  inv_dead : dead s ⊆ dom (versionToHash s);
}.

Definition mem_fresh (s : MemStore) (t i data : string) : Prop :=
  versionToHash s !! hash_short (versionIDInput (docKey t i) (seqAt s (docKey t i) + 1) data) 16 = None.

Lemma mem_vids s key : vids (mem_rows s key) = VersionID <$> versionsAt s key.
Proof. unfold vids, mem_rows. rewrite <-list_fmap_compose. done. Qed.

Lemma elem_of_mem_vids s key x :
  x ∈ vids (mem_rows s key) ↔ ∃ v, v ∈ versionsAt s key ∧ VersionID v = x.
Proof. rewrite mem_vids, list_elem_of_fmap. naive_solver. Qed.

Lemma mem_rows_ext s s' key :
  versionsAt s' key = versionsAt s key → dagAt s' key = dagAt s key →
  (∀ v, v ∈ versionsAt s key → VersionID v ∈ dead s' ↔ VersionID v ∈ dead s) →
  mem_rows s' key = mem_rows s key.
Proof.
  intros E1 E2 E3. unfold mem_rows. rewrite E1. apply list_fmap_ext. intros n v Hv.
  unfold mem_row, liveIn. rewrite E2. do 3 f_equal.
  apply bool_decide_ext, E3. by eapply list_elem_of_lookup_2.
Qed.

Lemma versionsAt_insert (m : gmap string (list Version)) key l k :
  default [] (<[key := l]> m !! k) = if decide (key = k) then l else default [] (m !! k).
Proof. rewrite lookup_insert. by case_decide. Qed.

Lemma mem_inv_empty : mem_inv NewInMemoryVersionStore.
Proof.
  assert (∀ key, versionsAt NewInMemoryVersionStore key = []) as Hv by done.
  split; unfold mem_rows; try setoid_rewrite Hv; simpl.
  - split; [|intros ?? ?; rewrite lookup_empty in *; done].
    intros h. unfold refs. by rewrite map_filter_empty.
  - set_solver.
  - set_solver.
  - intros vid [? [=]].
  - intros key. split; simpl; [apply version.NewDAG_wf| |set_solver].
    intros x. split; [intros [? [=]]|set_solver].
  - intros key. by constructor.
  - set_solver.
Qed.

(** ** AppendVersion *)

Lemma mem_inv_ext s s' :
  blobs s' = blobs s → versionToHash s' = versionToHash s → dead s' = dead s →
  (∀ k, dagAt s' k = dagAt s k) → (∀ k, versionsAt s' k = versionsAt s k) →
  (∀ k, seqAt s' k = seqAt s k) →
  mem_inv s → mem_inv s' ∧ ∀ k, mem_rows s' k = mem_rows s k.
Proof.
  intros E1 E2 E3 E4 E5 E6 [H1 H2 H3 H4 H5 H6 H7].
  assert (∀ k, mem_rows s' k = mem_rows s k) as ER.
  { intros k. apply mem_rows_ext; auto. intros. by rewrite E3. }
  split; [|done]. split; try setoid_rewrite ER; try setoid_rewrite E4; try setoid_rewrite E5;
    try setoid_rewrite E6; rewrite ?E1, ?E2, ?E3; auto.
Qed.

Lemma dagAt_upd_dags (s : MemStore) key d k :
  dagAt (upd_dags <[key := d]> s) k = if decide (key = k) then d else dagAt s k.
Proof. unfold dagAt, upd_dags; simpl. rewrite lookup_insert. by case_decide. Qed.

Lemma dagAt_ensure s key k : dagAt (ensureDAG key s) k = dagAt s k.
Proof.
  unfold ensureDAG. destruct (dags s !! key) eqn:E; [done|]. rewrite dagAt_upd_dags.
  case_decide; [|done]. subst. unfold dagAt. by rewrite E.
Qed.

Lemma mem_inv_ensure s key :
  mem_inv s → mem_inv (ensureDAG key s) ∧ ∀ k, mem_rows (ensureDAG key s) k = mem_rows s k.
Proof.
  assert (blobs (ensureDAG key s) = blobs s ∧ versionToHash (ensureDAG key s) = versionToHash s ∧
          dead (ensureDAG key s) = dead s ∧ versions (ensureDAG key s) = versions s ∧
          nextSeq (ensureDAG key s) = nextSeq s) as (E1&E2&E3&E4&E5).
  { unfold ensureDAG. by destruct (dags s !! key). }
  apply mem_inv_ext; try done; [apply dagAt_ensure|..];
    intros k; unfold versionsAt, seqAt; by rewrite ?E4, ?E5.
Qed.

(** Every stored payload is still there when only uncounted blobs go. *)
Definition snap_ok (s : MemStore) (bl : gmap string blobEntry) : Prop :=
  ∀ key v, v ∈ versionsAt s key →
    ∃ b, bl !! hash_short (Data v) 16 = Some b ∧ bdata b = Data v.

Lemma mem_inv_set_blobs s bl :
  mem_inv s → blob_inv bl (versionToHash s) [] → snap_ok s bl →
  mem_inv (upd_blobs (λ _, bl) s).
Proof.
  intros [H1 H2 H3 H4 H5 H6 H7] Hb Hs. split; try done.
  intros key v Hv. split; [by apply (H2 key)|]. by apply (Hs key).
Qed.

Section commit.
Context (s : MemStore) (now : Z) (t i data : string) (parents : list string)
        (bl : gmap string blobEntry).
Let key := docKey t i.
Let seq := seqAt s key + 1.
Let vid := hash_short (versionIDInput key seq data) 16.
Let hash := hash_short data 16.
Let v := mkVersion t i vid seq data (FormatNano now) true.
Let d := version.appended (version.mkVersion vid parents now hash) (dagAt s key).
Let s' := mkMem (<[key := d]> (dags s)) (<[key := versionsAt s key ++ [v]]> (versions s)) bl
            (<[vid := hash]> (versionToHash s)) (<[key := seq]> (nextSeq s)) (dead s).
Hypothesis Hinv : mem_inv s.
Hypothesis Hfresh : versionToHash s !! vid = None.
Hypothesis Hbl : blob_inv bl (versionToHash s) [hash].
Hypothesis Hnew : ∃ b, bl !! hash = Some b ∧ bdata b = data.
Hypothesis Hold : ∀ h b, blobs s !! h = Some b → ∃ b', bl !! h = Some b' ∧ bdata b' = bdata b.
Hypothesis Hdag : version.versions (dagAt s key) !! vid = None.
Hypothesis Hpar : ∀ p, p ∈ parents → is_Some (version.versions (dagAt s key) !! p).

Lemma commit_versionsAt k :
  versionsAt s' k = if decide (key = k) then versionsAt s key ++ [v] else versionsAt s k.
Proof. apply versionsAt_insert. Qed.

Lemma commit_dagAt k : dagAt s' k = if decide (key = k) then d else dagAt s k.
Proof. unfold dagAt, s'; simpl. rewrite lookup_insert. by case_decide. Qed.

Lemma commit_seqAt k : seqAt s' k = if decide (key = k) then seq else seqAt s k.
Proof. unfold seqAt, s'; simpl. rewrite lookup_insert. by case_decide. Qed.

Lemma commit_vid_new k w : w ∈ versionsAt s k → VersionID w ≠ vid.
Proof. intros Hw E. destruct (inv_snap s Hinv k w Hw) as [Hv _]. congruence. Qed.

Lemma commit_rows_other k : key ≠ k → mem_rows s' k = mem_rows s k.
Proof.
  intros Hk. apply mem_rows_ext; [by rewrite commit_versionsAt, decide_False..| |done].
  by rewrite commit_dagAt, decide_False.
Qed.

Lemma commit_rows : mem_rows s' key = mem_rows s key ++ [mkRow v parents].
Proof.
  unfold mem_rows. rewrite commit_versionsAt, decide_True, fmap_app by done. f_equal.
  - apply list_fmap_ext. intros n w Hw%list_elem_of_lookup_2. unfold mem_row. f_equal.
    rewrite commit_dagAt, decide_True by done. unfold d.
    rewrite version.parents_of_appended, decide_False; [done|]. simpl. apply not_eq_sym.
    by eapply commit_vid_new.
  - simpl. unfold mem_row. f_equal. f_equal.
    + unfold liveIn, with_live. simpl. rewrite bool_decide_false; [done|].
      intros Hd. apply (inv_dead s Hinv), elem_of_dom in Hd as [? ?]. congruence.
    + rewrite commit_dagAt, decide_True by done. unfold d.
      by rewrite version.parents_of_appended, decide_True.
Qed.

Lemma commit_snap k w : w ∈ versionsAt s' k →
  <[vid := hash]> (versionToHash s) !! VersionID w = Some (hash_short (Data w) 16) ∧
  ∃ b, bl !! hash_short (Data w) 16 = Some b ∧ bdata b = Data w.
Proof.
  assert (∀ k, w ∈ versionsAt s k → <[vid := hash]> (versionToHash s) !! VersionID w = Some (hash_short (Data w) 16) ∧
    ∃ b, bl !! hash_short (Data w) 16 = Some b ∧ bdata b = Data w) as Hw.
  { intros k' Hw. pose proof (commit_vid_new k' w Hw).
    destruct (inv_snap s Hinv k' w Hw) as [Hvh (b&Hb&Hd)]. rewrite lookup_insert_ne by done.
    split; [done|]. destruct (Hold _ _ Hb) as (b'&?&?). exists b'. split; congruence. }
  rewrite commit_versionsAt. case_decide as E; [|apply Hw].
  rewrite elem_of_app, list_elem_of_singleton. intros [? | ->]; [by eapply Hw|].
  simpl. by rewrite lookup_insert_eq.
Qed.

Lemma mem_commit_inv : mem_inv s'.
Proof.
  assert (Hin : ∀ k w, w ∈ versionsAt s' k →
            w ∈ versionsAt s k ∨ (k = key ∧ VersionID w = vid)).
  { intros k w. rewrite commit_versionsAt. case_decide; subst; [|auto].
    rewrite elem_of_app, list_elem_of_singleton. intros [?|Hw]; [auto|]. subst. auto. }
  split.
  - by apply blob_inv_take.
  - apply commit_snap.
  - intros k1 k2 v1 v2 Hi1 Hi2 E. apply Hin in Hi1, Hi2.
    destruct Hi1 as [Hi1|[E1 ?]], Hi2 as [Hi2|[E2 ?]].
    + by eapply (inv_owner s Hinv).
    + apply commit_vid_new in Hi1. congruence.
    + apply commit_vid_new in Hi2. congruence.
    + congruence.
  - intros x [h Hx]. simpl in Hx. apply lookup_insert_Some in Hx as [[<- _]|[_ Hx]].
    + exists key, v. rewrite commit_versionsAt, decide_True by done. set_solver.
    + destruct (inv_v2h s Hinv x) as (k&w&Hw&<-); [eauto|]. exists k, w. split; [|done].
      rewrite commit_versionsAt. case_decide; subst; set_solver.
  - intros k. destruct (decide (key = k)) as [<-|Hk].
    + rewrite commit_rows, commit_dagAt, decide_True by done.
      by apply dag_repr_append; [apply (inv_dag s Hinv)|..].
    + rewrite commit_rows_other, commit_dagAt, decide_False by done. apply (inv_dag s Hinv).
  - intros k. destruct (decide (key = k)) as [<-|Hk].
    + rewrite commit_rows, commit_seqAt, decide_True by done.
      econstructor; [apply (inv_hist s Hinv)|simpl; unfold seq; lia| |].
      * intros (w&Hw&E)%elem_of_mem_vids. by eapply commit_vid_new.
      * intros p Hp. apply (repr_dom _ _ (inv_dag s Hinv key)). by apply Hpar.
    + rewrite commit_rows_other, commit_seqAt, decide_False by done. apply (inv_hist s Hinv).
  - simpl. rewrite dom_insert_L. pose proof (inv_dead s Hinv). set_solver.
Qed.
End commit.

Lemma seqAt_ensure s key k : seqAt (ensureDAG key s) k = seqAt s k.
Proof. unfold ensureDAG, seqAt. by destruct (dags s !! key). Qed.

Lemma v2h_ensure s key : versionToHash (ensureDAG key s) = versionToHash s.
Proof. unfold ensureDAG. by destruct (dags s !! key). Qed.

(** The rollback path: the DAG refused the version, the blob upsert is undone. *)
Lemma rollback_ok s bl hash key :
  mem_inv s → blob_inv bl (versionToHash s) [hash] →
  (∀ h b, blobs s !! h = Some b → ∃ b', bl !! h = Some b' ∧ bdata b' = bdata b) →
  let s1 := upd_dags <[key := dagAt s key]> (upd_blobs (λ _, bl) s) in
  ∃ s2, unrefBlob hash s1 = (Ok tt, s2) ∧ mem_inv s2 ∧
        (∀ k, mem_rows s2 k = mem_rows s k) ∧ (∀ k, seqAt s2 k = seqAt s k).
Proof.
  intros Hinv Hbl Hold s1.
  destruct (unrefBlob_ok s1 (versionToHash s) hash []) as (bl'&E&Hbl'&Hsub&Hkeep); [done|].
  exists (upd_blobs (λ _, bl') s1). split; [done|].
  assert (mem_inv (upd_blobs (λ _, bl') s)) as Hinv2.
  { apply mem_inv_set_blobs; [done..|]. intros k v Hv.
    destruct (inv_snap s Hinv k v Hv) as [Hvh (b&Hb&Hd)].
    destruct (Hold _ _ Hb) as (b1&Hb1&Hd1).
    destruct (Hkeep (hash_short (Data v) 16)) as [b2 Hb2].
    { pose proof (refs_pos _ _ _ Hvh). lia. }
    { simpl. eauto. }
    exists b2. split; [done|]. destruct (Hsub _ _ Hb2) as (b3&Hb3&Hd3).
    simpl in Hb3. congruence. }
  destruct (mem_inv_ext (upd_blobs (λ _, bl') s) (upd_blobs (λ _, bl') s1)) as [Hi Hr]; try done.
  { intros k. unfold dagAt at 1. simpl. rewrite lookup_insert. case_decide; [subst|]; done. }
Qed.

Lemma mem_append_law s now t i data parents r s' :
  mem_inv s → mem_fresh s t i data → mem_AppendVersion now t i data parents s = (r, s') →
  mem_inv s' ∧
  (∀ t' i', docKey t' i' ≠ docKey t i → mem_hist s' t' i' = mem_hist s t' i') ∧
  match r with
  | Ok v =>
      (∀ p, p ∈ parents → p ∈ vids (rows (mem_hist s t i))) ∧
      (VersionID v ∉ vids (rows (mem_hist s t i))) ∧
      v = mkVersion t i
            (hash_short (versionIDInput (docKey t i) (hwm (mem_hist s t i) + 1) data) 16)
            (hwm (mem_hist s t i) + 1) data (FormatNano now) true ∧
      mem_hist s' t i = mkHist (rows (mem_hist s t i) ++ [mkRow v parents]) (Seq v)
  | Err e => mem_hist s' t i = mem_hist s t i
  end.
Proof.
  intros Hinv0 Hfresh0. set (key := docKey t i).
  destruct (mem_inv_ensure s key Hinv0) as [Hinv Hrows].
  unfold mem_fresh in Hfresh0. fold key in Hfresh0.
  rewrite <-(v2h_ensure s key), <-(seqAt_ensure s key key) in Hfresh0.
  assert (∀ k, seqAt (ensureDAG key s) k = seqAt s k) as Hseq by apply seqAt_ensure.
  unfold mem_AppendVersion, mem_hist. fold key. unfold modify, gets, mbind at 1, st_bind at 1.
  revert Hinv Hrows Hfresh0 Hseq. generalize (ensureDAG key s) as s1. intros s1 Hinv Hrows Hfresh Hseq.
  unfold mbind at 1, st_bind at 1. unfold mbind, st_bind.
  destruct (upsertBlob _ _ s1) as [[[]|e] s2] eqn:Eu; apply (upsertBlob_inv _ (versionToHash s1) _ _ []) in Eu;
    try apply (inv_blobs _ Hinv).
  2:{ intros [= <- <-]. subst s2. setoid_rewrite Hrows. by setoid_rewrite Hseq. }
  destruct Eu as (bl&->&Hbl&Hnew&Hold).
  unfold appendRow, dagAppend. fold key.
  change (dagAt (upd_blobs (λ _, bl) s1) key) with (dagAt s1 key).
  destruct (version.Append _ (dagAt s1 key)) as [rd d'] eqn:Ea.
  pose proof Ea as Ea'. apply version.Append_inv in Ea as [Ha|[Ha|Ha]].
  - destruct Ha as (->&_&->). simpl.
    destruct (rollback_ok s1 bl (hash_short data 16) key) as (s2&->&Hi&Hr&Hq); [done..|].
    intros [= <- <-]. setoid_rewrite Hr. setoid_rewrite Hq. setoid_rewrite Hrows. by setoid_rewrite Hseq.
  - destruct Ha as (p&->&_&_&_&->). simpl.
    destruct (rollback_ok s1 bl (hash_short data 16) key) as (s2&->&Hi&Hr&Hq); [done..|].
    intros [= <- <-]. setoid_rewrite Hr. setoid_rewrite Hq. setoid_rewrite Hrows. by setoid_rewrite Hseq.
  - destruct Ha as (->&Hn&Hp&->). simpl. intros [= <- <-].
    pose proof (mem_commit_inv s1 now t i data parents bl Hinv Hfresh Hbl Hnew Hold Hn Hp) as Hinv'.
    pose proof (commit_rows s1 now t i data parents bl Hinv Hfresh) as Hr.
    pose proof (commit_rows_other s1 now t i data parents bl) as Hro.
    pose proof (commit_seqAt s1 now t i data parents bl) as Hs.
    split; [exact Hinv'|]. fold key in Hr, Hro, Hs, Hinv'. split.
    + intros t' i' Hk. unfold upd_seq, upd_v2h, upd_versions, upd_dags, upd_blobs in *; simpl in *.
      f_equal; [rewrite <-Hrows; apply Hro; done|].
      rewrite <-Hseq. etransitivity; [apply Hs|]. by rewrite decide_False.
    + simpl. split_and!; try done.
      * intros p Hin. rewrite <-Hrows. apply (repr_dom _ _ (inv_dag s1 Hinv key)). by apply Hp.
      * rewrite <-Hrows. intros (w&Hw&E)%elem_of_mem_vids.
        eapply (commit_vid_new s1 t i data Hinv Hfresh); [exact Hw|exact E].
      * simpl. by rewrite Hseq.
      * f_equal; [rewrite <-Hrows; exact Hr|]. etransitivity; [apply Hs|]. by rewrite decide_True.
Qed.

(** ** Removing versions *)

Lemma drop_loop l s :
  NoDup (VersionID <$> l) → blob_inv (blobs s) (versionToHash s) [] →
  (∀ v, v ∈ l → is_Some (versionToHash s !! VersionID v)) →
  let m := without (VersionID <$> l) (versionToHash s) in
  ∃ bl', for_each l dropVersion s =
    (Ok tt, mkMem (dags s) (versions s) bl' m (nextSeq s) (dead s ∖ list_to_set (VersionID <$> l))) ∧
    blob_inv bl' m [] ∧ keeps (blobs s) bl' m.
Proof.
  revert s; induction l as [|v l IH]; intros s Hnd Hb Hv m; subst m; simpl in *.
  - exists (blobs s). rewrite without_nil. split_and!; [|done|apply keeps_refl].
    unfold mret, st_ret. destruct s; simpl. do 2 f_equal. set_solver.
  - apply NoDup_cons in Hnd as [Hn Hnd].
    destruct (Hv v) as [h Hh]; [set_solver|]. rewrite without_cons.
    set (s1 := upd_dead (.∖ {[VersionID v]}) (upd_v2h (delete (VersionID v)) s)).
    destruct (unrefBlob_ok s1 (versionToHash s1) h []) as (bl&Eu&Hbl&Hsub&Hk).
    { by apply blob_inv_move. }
    destruct (IH (upd_blobs (λ _, bl) s1)) as (bl'&Ef&Hbl'&Hsub'&Hk'); [done|done| |].
    { intros w Hw. simpl. rewrite lookup_delete_ne; [apply Hv; set_solver|].
      intros E. apply Hn. rewrite E. apply list_elem_of_fmap. eauto. }
    exists bl'. split_and!; [|done|].
    + unfold mbind at 1, st_bind at 1. unfold dropVersion at 1, get, modify, mbind, st_bind.
      rewrite Hh. fold s1. rewrite Eu, Ef. simpl. do 2 f_equal. set_solver.
    + split; [by eapply data_sub_trans|]. intros h' Hp Hs. apply Hk'; [done|]. simpl.
      apply Hk; [|done]. eapply Nat.lt_le_trans; [exact Hp|].
      etransitivity; [apply refs_without_le|]. unfold s1. simpl. lia.
Qed.

Lemma split_loop l s (D : gset string) pend :
  NoDup (VersionID <$> l) → blob_inv (blobs s) (versionToHash s) pend →
  (∀ v, v ∈ l → is_Some (versionToHash s !! VersionID v)) →
  let gone := VersionID <$> filter (λ v, VersionID v ∈ D) l in
  let m := without gone (versionToHash s) in
  ∃ hs, splitDoomed l D s =
    (Ok (filter (λ v, VersionID v ∉ D) l, hs),
     mkMem (dags s) (versions s) (blobs s) m (nextSeq s) (dead s ∖ list_to_set gone)) ∧
    blob_inv (blobs s) m (hs ++ pend).
Proof.
  revert s pend; induction l as [|v l IH]; intros s pend Hnd Hb Hv gone m; subst gone m; simpl in *.
  - exists []. rewrite without_nil. split; [|done].
    unfold mret, st_ret. destruct s; simpl. do 2 f_equal. set_solver.
  - apply NoDup_cons in Hnd as [Hn Hnd]. rewrite !filter_cons.
    destruct (decide (VersionID v ∈ D)) as [Hd|Hd].
    + destruct (Hv v) as [h Hh]; [set_solver|]. rewrite (decide_False (P := ¬ _)) by tauto.
      rewrite fmap_cons, without_cons.
      set (s1 := upd_dead (.∖ {[VersionID v]}) (upd_v2h (delete (VersionID v)) s)).
      destruct (IH s1 (h :: pend)) as (hs&E&Hb'); [done|by apply blob_inv_move| |].
      { intros w Hw. simpl. rewrite lookup_delete_ne; [apply Hv; set_solver|].
        intros E. apply Hn. rewrite E. apply list_elem_of_fmap. eauto. }
      exists (h :: hs). split.
      * unfold get, modify, mbind, st_bind. rewrite Hh. fold s1. rewrite E. simpl.
        unfold mret, st_ret. do 2 f_equal. set_solver.
      * destruct Hb' as [H1' H2']. split; [|done]. intros h'. rewrite H1'.
        unfold occ. rewrite <-app_comm_cons, !filter_app, !filter_cons, filter_app.
        case_decide; rewrite !length_app; simpl; rewrite ?length_app; lia.
    + rewrite (decide_True (P := ¬ _)) by done.
      destruct (IH s pend) as (hs&E&Hb'); [done|done|intros; apply Hv; set_solver|].
      exists hs. split; [|done]. unfold mbind, st_bind. rewrite E. done.
Qed.

Lemma release_loop hs s m :
  blob_inv (blobs s) m hs →
  ∃ freed bl', releaseHashes hs s = (Ok freed, upd_blobs (λ _, bl') s) ∧
    blob_inv bl' m [] ∧ keeps (blobs s) bl' m.
Proof.
  revert s; induction hs as [|h hs IH]; intros s Hb; simpl.
  - exists [], (blobs s). split_and!; [|done|apply keeps_refl].
    unfold mret, st_ret. by destruct s.
  - destruct (unrefBlob_ok s m h hs Hb) as (bl&Eu&Hbl&Hsub&Hk).
    destruct (IH (upd_blobs (λ _, bl) s) Hbl) as (freed&bl'&Er&Hbl'&Hsub'&Hk').
    destruct Hb as [H1' H2']. pose proof (H1' h) as Hh. rewrite occ_cons, decide_True in Hh by done.
    unfold rc in Hh. unfold get, mbind, st_bind.
    destruct (blobs s !! h) as [b|] eqn:Eb; [|lia].
    rewrite Eu. simpl. rewrite Er. simpl. eexists _, bl'. split; [reflexivity|].
    split_and!; [done|]. split; [by eapply data_sub_trans|]. intros h' Hp Hs.
    apply Hk'; [done|]. apply Hk; [lia|done].
Qed.

(** The state after the versions [gone] of document [key] were removed. *)
Section remove.
Context (s s' : MemStore) (key : string) (gone : list string).
Hypothesis Hinv : mem_inv s.
Hypothesis Hgone : ∀ x, x ∈ gone → ∃ v, v ∈ versionsAt s key ∧ VersionID v = x.
Hypothesis Hkey : ∀ v, v ∈ versionsAt s' key ↔ v ∈ versionsAt s key ∧ VersionID v ∉ gone.
Hypothesis Hother : ∀ k, k ≠ key →
  versionsAt s' k = versionsAt s k ∧ dagAt s' k = dagAt s k ∧ seqAt s' k = seqAt s k.
Hypothesis Hv2h : versionToHash s' = without gone (versionToHash s).
Hypothesis Hdead : dead s' = dead s ∖ list_to_set gone.
Hypothesis Hblobs : blob_inv (blobs s') (versionToHash s') [].
Hypothesis Hkeeps : keeps (blobs s) (blobs s') (versionToHash s').
Hypothesis Hdag : dag_repr (dagAt s' key) (mem_rows s' key).
Hypothesis Hwf : rows_wf (mem_rows s' key) (seqAt s' key).

Lemma mem_remove_old k v : v ∈ versionsAt s' k → v ∈ versionsAt s k ∧ VersionID v ∉ gone.
Proof.
  destruct (decide (k = key)) as [->|Hk]; [apply Hkey|].
  destruct (Hother k Hk) as (->&_&_). intros Hv. split; [done|].
  intros (w&Hw&E)%Hgone. apply Hk. by eapply (inv_owner s Hinv).
Qed.

Lemma remove_rows_other k : k ≠ key → mem_rows s' k = mem_rows s k.
Proof.
  intros Hk. destruct (Hother k Hk) as (E1&E2&_). apply mem_rows_ext; [done..|].
  intros v Hv. rewrite Hdead, elem_of_difference, elem_of_list_to_set.
  split; [tauto|]. intros ?. split; [done|]. rewrite <-E1 in Hv.
  by apply (mem_remove_old k).
Qed.

Lemma mem_remove_snap k v : v ∈ versionsAt s' k →
  versionToHash s' !! VersionID v = Some (hash_short (Data v) 16) ∧
  ∃ b, blobs s' !! hash_short (Data v) 16 = Some b ∧ bdata b = Data v.
Proof.
  intros [Hv Hg]%mem_remove_old. destruct (inv_snap s Hinv k v Hv) as [Hvh (b&Hb&Hd)].
  assert (versionToHash s' !! VersionID v = Some (hash_short (Data v) 16)) as Hvh'.
  { rewrite Hv2h. by apply lookup_without. }
  split; [done|]. destruct Hkeeps as [Hsub Hk].
  destruct (Hk (hash_short (Data v) 16)) as [b' Hb']; [by eapply refs_pos|eauto|].
  exists b'. split; [done|]. destruct (Hsub _ _ Hb') as (b1&?&?). congruence.
Qed.

Lemma remove_inv : mem_inv s'.
Proof.
  split.
  - done.
  - apply mem_remove_snap.
  - intros k1 k2 v1 v2 [? _]%mem_remove_old [? _]%mem_remove_old. by apply (inv_owner s Hinv).
  - intros x [h Hx]. rewrite Hv2h in Hx. apply lookup_without in Hx as [Hx Hg].
    destruct (inv_v2h s Hinv x) as (k&v&Hv&<-); [eauto|]. exists k, v. split; [|done].
    destruct (decide (k = key)) as [->|Hk]; [by apply Hkey|]. by rewrite (proj1 (Hother k Hk)).
  - intros k. destruct (decide (k = key)) as [->|Hk]; [done|].
    rewrite remove_rows_other, (proj1 (proj2 (Hother k Hk))) by done. apply (inv_dag s Hinv).
  - intros k. destruct (decide (k = key)) as [->|Hk]; [done|].
    rewrite remove_rows_other, (proj2 (proj2 (Hother k Hk))) by done. apply (inv_hist s Hinv).
  - rewrite Hdead, Hv2h. intros x. rewrite elem_of_difference, elem_of_list_to_set.
    intros [Hx Hg]. apply (inv_dead s Hinv), elem_of_dom in Hx as [h Hx].
    apply elem_of_dom. exists h. by apply lookup_without.
Qed.

Lemma remove_hist t' i' : docKey t' i' ≠ key → mem_hist s' t' i' = mem_hist s t' i'.
Proof.
  intros Hk. unfold mem_hist. rewrite remove_rows_other by done.
  by rewrite (proj2 (proj2 (Hother _ Hk))).
Qed.
End remove.

Lemma mem_vids_NoDup s key : mem_inv s → NoDup (VersionID <$> versionsAt s key).
Proof. intros Hinv. rewrite <-mem_vids. eapply rows_wf_NoDup, (inv_hist s Hinv). Qed.

Lemma mem_v2h_some s key v :
  mem_inv s → v ∈ versionsAt s key → is_Some (versionToHash s !! VersionID v).
Proof. intros Hinv Hv. destruct (inv_snap s Hinv key v Hv) as [-> _]. eauto. Qed.

Lemma mem_delete_history_law s t i :
  mem_inv s → ∃ s', mem_DeleteHistory t i s = (Ok tt, s') ∧ mem_inv s' ∧
    mem_hist s' t i = no_hist ∧
    (∀ t' i', docKey t' i' ≠ docKey t i → mem_hist s' t' i' = mem_hist s t' i').
Proof.
  intros Hinv. set (key := docKey t i).
  destruct (drop_loop (versionsAt s key) s) as (bl&E&Hb&Hk).
  { by apply mem_vids_NoDup. } { apply (inv_blobs s Hinv). }
  { intros v. by apply mem_v2h_some. }
  unfold mem_DeleteHistory, gets, modify, mbind, st_bind. fold key. rewrite E. simpl.
  set (s' := upd_seq _ _).
  assert (versionsAt s' key = []) as Hv.
  { unfold versionsAt, s'; simpl. by rewrite lookup_delete_eq. }
  assert (dagAt s' key = version.NewDAG) as Hd.
  { unfold dagAt, s'; simpl. by rewrite lookup_delete_eq. }
  assert (seqAt s' key = 0) as Hs.
  { unfold seqAt, s'; simpl. by rewrite lookup_delete_eq. }
  assert (mem_rows s' key = []) as Hr by (unfold mem_rows; by rewrite Hv).
  exists s'. split; [done|].
  assert (∀ k, k ≠ key → versionsAt s' k = versionsAt s k ∧ dagAt s' k = dagAt s k ∧
                          seqAt s' k = seqAt s k) as Ho.
  { intros k Hne. unfold versionsAt, dagAt, seqAt, s'; simpl. by rewrite !lookup_delete_ne. }
  assert (∀ x, x ∈ VersionID <$> versionsAt s key → ∃ v, v ∈ versionsAt s key ∧ VersionID v = x) as Hg.
  { intros x (v&->&?)%list_elem_of_fmap. eauto. }
  assert (∀ v, v ∈ versionsAt s' key ↔
          v ∈ versionsAt s key ∧ VersionID v ∉ VersionID <$> versionsAt s key) as Hkey.
  { intros v. rewrite Hv. split; [set_solver|]. intros [? []]. apply list_elem_of_fmap. eauto. }
  split; [|split].
  - apply (remove_inv s s' key (VersionID <$> versionsAt s key)); try done.
    + rewrite Hr, Hd. apply (inv_dag _ mem_inv_empty key).
    + rewrite Hr, Hs. by constructor.
  - unfold mem_hist. fold key. by rewrite Hr, Hs.
  - intros t' i' Hne. by eapply (remove_hist s s' key (VersionID <$> versionsAt s key)).
Qed.

Lemma parentsOf_dagAt s key x : parentsOf s key x = version.parents_of (dagAt s key) x.
Proof.
  unfold parentsOf, version.parents_of, version.Get, dagAt.
  destruct (dags s !! key) as [d|]; simpl; [by destruct (version.versions d !! x)|].
  by rewrite lookup_empty.
Qed.

Lemma rebuild_ok s key (f : Version → Row) l0 l d hw :
  (∀ v, rvid (f v) = VersionID v) → (∀ v, rparents (f v) = parentsOf s key (VersionID v)) →
  dag_repr d (f <$> l0) → rows_wf (f <$> l0 ++ l) hw →
  ∃ d', rebuildDAG s key l d = Ok d' ∧ dag_repr d' (f <$> l0 ++ l).
Proof.
  intros Hid Hpar. revert l0 d; induction l as [|v l IH]; intros l0 d Hd Hwf; simpl.
  - exists d. by rewrite app_nil_r.
  - rewrite cons_middle, app_assoc in Hwf |- *.
    pose proof Hwf as Hwf0. rewrite fmap_app in Hwf0. apply rows_wf_prefix in Hwf0.
    rewrite fmap_app in Hwf0.
    destruct (dag_repr_snoc d (f <$> l0) (f v) hw (parseTimestamp (CreatedAt v))
                (hashOfRetained s (VersionID v)) Hd Hwf0) as (d'&E&Hd').
    rewrite Hid, Hpar in E. rewrite E. apply IH; [|done]. by rewrite fmap_app.
Qed.

(** The successful run of [DeleteVersions], step by step. *)
Lemma mem_DeleteVersions_run s t i ids kept hs s0 d freed s' :
  let key := docKey t i in
  ids ≠ [] → versionsAt s key ≠ [] → kept ≠ [] →
  splitDoomed (versionsAt s key) (list_to_set ids) s = (Ok (kept, hs), s0) →
  rebuildDAG (upd_versions <[key := kept]> s0) key kept version.NewDAG = Ok d →
  releaseHashes hs (upd_dags <[key := d]> (upd_versions <[key := kept]> s0)) = (Ok freed, s') →
  mem_DeleteVersions t i ids s = (Ok freed, s').
Proof.
  intros key Hids Hvs Hkept E1 E2 E3. unfold mem_DeleteVersions. fold key.
  destruct ids as [|x ids]; [done|]. unfold gets, mbind, st_bind.
  destruct (versionsAt s key) as [|w ws]; [done|]. rewrite E1. simpl.
  destruct kept as [|k ks]; [done|]. unfold modify, get, lift_res. rewrite E2. exact E3.
Qed.

Section prune.
Context (s : MemStore) (t i : string) (ids : list string).
Let key := docKey t i.
Let D : gset string := list_to_set ids.
Let kept := filter (λ v, VersionID v ∉ D) (versionsAt s key).
Let gone := VersionID <$> filter (λ v, VersionID v ∈ D) (versionsAt s key).
Hypothesis Hinv : mem_inv s.
Hypothesis Hcl : ∀ r p, r ∈ mem_rows s key → p ∈ rparents r → p ∈ ids → rvid r ∈ ids.

Lemma prune_filter :
  filter (λ r, rvid r ∉ ids) (mem_rows s key) = mem_row s key <$> kept.
Proof.
  unfold mem_rows. rewrite filter_fmap. f_equal. apply list_filter_iff. intros v.
  unfold D. by rewrite elem_of_list_to_set.
Qed.

Lemma prune_wf : rows_wf (mem_row s key <$> kept) (seqAt s key).
Proof. rewrite <-prune_filter. apply rows_wf_filter; [apply (inv_hist s Hinv)|done]. Qed.

Lemma prune_gone v : v ∈ versionsAt s key → VersionID v ∈ gone ↔ VersionID v ∈ D.
Proof.
  intros Hv. unfold gone. rewrite list_elem_of_fmap. split.
  - intros (w&->&[? _]%list_elem_of_filter). done.
  - intros ?. exists v. by rewrite list_elem_of_filter.
Qed.

Section final.
Context (d : version.DAG) (bl : gmap string blobEntry).
Let s1 := upd_versions <[key := kept]>
  (mkMem (dags s) (versions s) (blobs s) (without gone (versionToHash s)) (nextSeq s)
     (dead s ∖ list_to_set gone)).
Let s' := upd_blobs (λ _, bl) (upd_dags <[key := d]> s1).
Hypothesis Hd : dag_repr d (mem_row s key <$> kept).
Hypothesis Hbl : blob_inv bl (without gone (versionToHash s)) [].
Hypothesis Hkeeps : keeps (blobs s) bl (without gone (versionToHash s)).

Lemma prune_versionsAt k : versionsAt s' k = if decide (key = k) then kept else versionsAt s k.
Proof. apply versionsAt_insert. Qed.

Lemma prune_dagAt k : dagAt s' k = if decide (key = k) then d else dagAt s k.
Proof. unfold dagAt, s'; simpl. rewrite lookup_insert. by case_decide. Qed.

Lemma prune_rows : mem_rows s' key = mem_row s key <$> kept.
Proof.
  unfold mem_rows. rewrite prune_versionsAt, decide_True by done.
  apply list_fmap_ext_in. intros v Hv.
  pose proof Hv as [HvD Hvs]%list_elem_of_filter. unfold mem_row. f_equal.
  - unfold liveIn. do 2 f_equal. apply bool_decide_ext. simpl.
    rewrite elem_of_difference, elem_of_list_to_set, prune_gone by done. tauto.
  - rewrite prune_dagAt, decide_True by done.
    apply (repr_parents _ _ Hd (mem_row s key v)), list_elem_of_fmap. eauto.
Qed.

Lemma prune_final :
  mem_inv s' ∧ mem_hist s' t i = mkHist (mem_row s key <$> kept) (seqAt s key) ∧
  (∀ t' i', docKey t' i' ≠ key → mem_hist s' t' i' = mem_hist s t' i').
Proof.
  assert (∀ x, x ∈ gone → ∃ v, v ∈ versionsAt s key ∧ VersionID v = x) as Hg.
  { intros x (v&->&[_ ?]%list_elem_of_filter)%list_elem_of_fmap. eauto. }
  assert (∀ v, v ∈ versionsAt s' key ↔ v ∈ versionsAt s key ∧ VersionID v ∉ gone) as Hkey.
  { intros v. rewrite prune_versionsAt, decide_True by done. unfold kept.
    rewrite list_elem_of_filter. split; intros [? ?]; split; try done; by rewrite ?prune_gone in *. }
  assert (∀ k, k ≠ key → versionsAt s' k = versionsAt s k ∧ dagAt s' k = dagAt s k ∧
                          seqAt s' k = seqAt s k) as Ho.
  { intros k Hne. by rewrite prune_versionsAt, prune_dagAt, !decide_False. }
  split; [|split].
  - apply (remove_inv s s' key gone); try done; rewrite prune_rows; [|apply prune_wf].
    by rewrite prune_dagAt, decide_True.
  - unfold mem_hist. fold key. by rewrite prune_rows.
  - intros t' i' Hne. by eapply (remove_hist s s' key gone).
Qed.
End final.
End prune.

Lemma mem_delete_versions_law s t i ids :
  mem_inv s → ids ≠ [] →
  (∀ r p, r ∈ rows (mem_hist s t i) → p ∈ rparents r → p ∈ ids → rvid r ∈ ids) →
  (∃ r, r ∈ rows (mem_hist s t i) ∧ rvid r ∉ ids) →
  ∃ freed s', mem_DeleteVersions t i ids s = (Ok freed, s') ∧ mem_inv s' ∧
    mem_hist s' t i =
      mkHist (filter (λ r, rvid r ∉ ids) (rows (mem_hist s t i))) (hwm (mem_hist s t i)) ∧
    (∀ t' i', docKey t' i' ≠ docKey t i → mem_hist s' t' i' = mem_hist s t' i').
Proof.
  intros Hinv Hids Hcl (r&Hr&Hrk). simpl in *.
  apply list_elem_of_fmap in Hr as (v0&->&Hv0).
  destruct (split_loop (versionsAt s (docKey t i)) s (list_to_set ids) []) as (hs&Esplit&Hb).
  { by apply mem_vids_NoDup. } { apply (inv_blobs s Hinv). } { intros v. by apply mem_v2h_some. }
  rewrite app_nil_r in Hb. set (kept := filter _ _) in Esplit.
  match type of Esplit with _ = (_, ?x) => set (s1 := upd_versions <[docKey t i := kept]> x) end.
  destruct (rebuild_ok s1 (docKey t i) (mem_row s (docKey t i)) [] kept version.NewDAG
              (seqAt s (docKey t i))) as (d&Ed&Hd);
    [done|intros v; by rewrite parentsOf_dagAt|apply dag_repr_new|by apply prune_wf|].
  destruct (release_loop hs (upd_dags <[docKey t i := d]> s1) (versionToHash s1) Hb)
    as (freed&bl&Er&Hbl&Hkeeps).
  exists freed. eexists. split; [|rewrite prune_filter by done; by apply prune_final].
  eapply mem_DeleteVersions_run; [done| | |exact Esplit|exact Ed|exact Er].
  - intros E. rewrite E in Hv0. set_solver.
  - intros E. assert (v0 ∈ kept) as Hk; [|rewrite E in Hk; set_solver].
    apply list_elem_of_filter. by rewrite elem_of_list_to_set.
Qed.

(** ** SetLive *)

Lemma mem_set_live_rows s key x (b : bool) :
  let s' := upd_dead (if b then (.∖ {[x]}) else (.∪ {[x]})) s in
  mem_rows s' key = set_live_row x b <$> mem_rows s key.
Proof.
  intros s'. unfold mem_rows. change (versionsAt s' key) with (versionsAt s key).
  rewrite <-list_fmap_compose. apply list_fmap_ext_in. intros v _. simpl.
  unfold mem_row, set_live_row, liveIn, rvid, with_live. simpl.
  change (dagAt s' key) with (dagAt s key). case_decide as E; simpl.
  - do 2 f_equal. subst x. destruct b; simpl; [rewrite bool_decide_false by set_solver|
      rewrite bool_decide_true by set_solver]; done.
  - do 3 f_equal. apply bool_decide_ext. destruct b; set_solver.
Qed.

Lemma set_live_row_id x b r : rvid r ≠ x → set_live_row x b r = r.
Proof. intros. unfold set_live_row. by rewrite decide_False. Qed.

Lemma mem_set_live_inv s key x (b : bool) :
  mem_inv s → x ∈ vids (mem_rows s key) →
  let s' := upd_dead (if b then (.∖ {[x]}) else (.∪ {[x]})) s in
  mem_inv s' ∧ ∀ k, k ≠ key → mem_rows s' k = mem_rows s k.
Proof.
  intros Hinv (v&Hv&<-)%elem_of_mem_vids s'.
  assert (∀ k, mem_rows s' k = set_live_row (VersionID v) b <$> mem_rows s k) as Hr.
  { intros k. apply mem_set_live_rows. }
  pose proof Hinv as [H1 H2 H3 H4 H5 H6 H7]. split.
  - split; try done; try setoid_rewrite Hr.
    + intros k. destruct (H5 k) as [Hw Hdom Hp]. split; [done| |].
      * intros y. by rewrite vids_set_live.
      * intros r (q&->&Hq)%list_elem_of_fmap. rewrite rvid_set_live, rparents_set_live. auto.
    + intros k. by apply rows_wf_set_live.
    + simpl. destruct (H2 key v Hv) as [Hvh _]. assert (VersionID v ∈ dom (versionToHash s)).
      { apply elem_of_dom. eauto. }
      destruct b; set_solver.
  - intros k Hk. rewrite Hr. rewrite <-(list_fmap_id (mem_rows s k)) at 2.
    apply list_fmap_ext_in. intros r (w&->&Hw)%list_elem_of_fmap. apply set_live_row_id.
    unfold rvid; simpl. intros E. apply Hk. by eapply H3.
Qed.

Lemma mem_set_live_law s t i x b r s' :
  mem_inv s → mem_SetLive t i x b s = (r, s') →
  mem_inv s' ∧ (∀ t' i' d, mem_fresh s t' i' d → mem_fresh s' t' i' d) ∧
  (∀ t' i', docKey t' i' ≠ docKey t i → mem_hist s' t' i' = mem_hist s t' i') ∧
  match r with
  | Ok _ =>
      x ∈ vids (rows (mem_hist s t i)) ∧ ¬ has_child (rows (mem_hist s t i)) x ∧
      mem_hist s' t i = mkHist (set_live_row x b <$> rows (mem_hist s t i)) (hwm (mem_hist s t i))
  | Err e =>
      mem_hist s' t i = mem_hist s t i ∧
      (errors_Is e ErrNotAHead = true →
       x ∈ vids (rows (mem_hist s t i)) ∧ has_child (rows (mem_hist s t i)) x) ∧
      (x ∈ vids (rows (mem_hist s t i)) → errors_Is e ErrNotAHead = true)
  end.
Proof.
  intros Hinv. set (key := docKey t i). pose proof (inv_dag s Hinv key) as Hd.
  unfold mem_SetLive, get, throw, modify, mbind, st_bind, version.Get. fold key.
  assert (∀ y, is_Some (version.versions (dagAt s key) !! y) ↔ y ∈ vids (mem_rows s key)) as Hdom
    by apply Hd.
  pose proof (repr_Children _ _ x Hd) as Hch. unfold dagAt in Hdom, Hch.
  destruct (dags s !! key) as [d|] eqn:Ed; simpl in Hdom, Hch.
  2:{ intros [= <- <-]. split_and!; try done. intros Hx. by apply Hdom in Hx as [? [=]]. }
  specialize (Hdom x). destruct (version.versions d !! x) as [v|] eqn:Ex.
  2:{ intros [= <- <-]. split_and!; try done. intros Hx. by apply Hdom in Hx as [? [=]]. }
  assert (x ∈ vids (mem_rows s key)) as Hx by (apply Hdom; eauto).
  destruct (version.Children d x) as [|c cs] eqn:Ec.
  - intros E. assert (r = Ok tt ∧ s' = upd_dead (if b then (.∖ {[x]}) else (.∪ {[x]})) s) as [-> ->]
      by (destruct b; simplify_eq; done).
    destruct (mem_set_live_inv s key x b Hinv Hx) as [Hi Ho]. split; [done|]. split; [done|]. split.
    + intros t' i' Hk. unfold mem_hist. by rewrite Ho.
    + split_and!; [done|by apply Hch|]. unfold mem_hist. fold key. by rewrite mem_set_live_rows.
  - intros [= <- <-]. split_and!; try done. intros _. split; [done|].
    destruct (repr_child _ _ x Hd) as [Hc _]. apply Hc. exists c.
    apply (version.wf_children _ (repr_wf _ _ Hd)). unfold dagAt. rewrite Ed. simpl. rewrite Ec. set_solver.
Qed.

(** ** The contract holds *)

Lemma mem_list_law s t i :
  mem_inv s → mem_ListVersions t i s = (Ok (rv <$> rows (mem_hist s t i)), s).
Proof.
  intros _. unfold mem_ListVersions, gets. do 2 f_equal. simpl. unfold mem_rows.
  rewrite <-list_fmap_compose. done.
Qed.

Lemma mem_snapshot_law s t i r :
  mem_inv s → r ∈ rows (mem_hist s t i) → mem_GetSnapshot (rvid r) s = (Ok (Data (rv r)), s).
Proof.
  intros Hinv (v&->&Hv)%list_elem_of_fmap.
  destruct (inv_snap s Hinv _ v Hv) as [Hvh (b&Hb&Hd)].
  unfold mem_GetSnapshot, get, mbind, st_bind, rvid. simpl. rewrite Hvh, Hb.
  unfold mret, st_ret. by rewrite Hd.
Qed.

#[export] Program Instance mem_laws : VersionStoreLaws MemStore := {
  vs_inv := mem_inv;
  vs_hist := mem_hist;
  vs_fresh := mem_fresh;
  vs_append := mem_append_law;
  vs_list := mem_list_law;
  vs_snapshot := mem_snapshot_law;
  vs_delete_history := mem_delete_history_law;
  vs_delete_versions := λ s t i ids Hi Hne _, mem_delete_versions_law s t i ids Hi Hne;
  vs_set_live := mem_set_live_law;
}.
Next Obligation. intros s t i Hinv. apply (inv_hist s Hinv). Qed.
Next Obligation.
  intros s t i Hinv _. exists (dagAt s (docKey t i)), s. split_and!; try done.
  apply (inv_dag s Hinv).
Qed.

End MemVersionStore.

(** ** Reachable stores *)

Section Reachable.
Context `{HS : Hasher} `{GT : GoTime}.

(** The calls [VersionedDocumentStore] makes: any append whose version id is not
    in use, any liveness flip, any history deletion, and the removals [Prune]
    asks for. *)
Inductive mem_step : MemStore → MemStore → Prop :=
| step_append s now t i data parents r s' :
    mem_fresh s t i data → mem_AppendVersion now t i data parents s = (r, s') → mem_step s s'
| step_set_live s t i x b r s' :
    mem_SetLive t i x b s = (r, s') → mem_step s s'
| step_delete_history s t i r s' :
    mem_DeleteHistory t i s = (r, s') → mem_step s s'
| step_delete_versions s t i ids r s' :
    ids ≠ [] →
    (∀ r p, r ∈ rows (mem_hist s t i) → p ∈ rparents r → p ∈ ids → rvid r ∈ ids) →
    (∃ r, r ∈ rows (mem_hist s t i) ∧ rvid r ∉ ids) →
    mem_DeleteVersions t i ids s = (r, s') → mem_step s s'.

Definition mem_reachable : MemStore → Prop := rtc mem_step NewInMemoryVersionStore.

Lemma mem_step_inv s s' : mem_inv s → mem_step s s' → mem_inv s'.
Proof.
  intros Hinv Hs. destruct Hs as [s now t i data parents r s' Hf E|s t i x b r s' E
    |s t i r s' E|s t i ids r s' H1 H2 H3 E].
  - by apply (mem_append_law s now t i data parents r s').
  - by apply (mem_set_live_law s t i x b r s').
  - destruct (mem_delete_history_law s t i Hinv) as (s1&E1&?&_). congruence.
  - destruct (mem_delete_versions_law s t i ids Hinv H1 H2 H3) as (fr&s1&E1&?&_). congruence.
Qed.

Lemma mem_reachable_inv s : mem_reachable s → mem_inv s.
Proof.
  intros Hr. unfold mem_reachable in Hr. remember NewInMemoryVersionStore as s0 eqn:E0.
  assert (mem_inv s0) as H0 by (subst; apply mem_inv_empty). clear E0. revert H0.
  induction Hr as [|a b c Hab _ IH]; intros Ha; [done|]. apply IH. by eapply mem_step_inv.
Qed.

(** In every reachable in-memory store a blob's reference count is exactly the
    number of recorded versions whose snapshot it is, it lies between 1 and the
    int64 maximum, and every recorded version's payload is readable and byte
    for byte the one stored with it. *)
Theorem mem_refcounts_exact (s : MemStore) (Hreach : mem_reachable s) :
  (∀ h b, blobs s !! h = Some b →
     refcount b = Z.of_nat (refs (versionToHash s) h) ∧ 1 ≤ refcount b ≤ MaxInt64) ∧
  (∀ t i v, v ∈ versionsAt s (docKey t i) →
     mem_GetSnapshot (VersionID v) s = (Ok (Data v), s)).
Proof.
  apply mem_reachable_inv in Hreach as Hinv. destruct (inv_blobs s Hinv) as [H1 H2]. split.
  - intros h b Hb. specialize (H1 h). unfold rc in H1. rewrite Hb in H1.
    unfold occ in H1. simpl in H1. split; [lia|by eapply H2].
  - intros t i v Hv. apply (mem_snapshot_law s t i (mem_row s (docKey t i) v) Hinv).
    apply list_elem_of_fmap. eauto.
Qed.

(** Nothing stands in the way of the append. *)
Lemma mem_append_accepts s now t i data parents :
  mem_inv s → mem_fresh s t i data →
  (∀ p, p ∈ parents → p ∈ vids (rows (mem_hist s t i))) →
  (∀ b, blobs s !! hash_short data 16 = Some b → bdata b = data ∧ refcount b < MaxInt64) →
  ∃ v s', mem_AppendVersion now t i data parents s = (Ok v, s') ∧ CreatedAt v = FormatNano now.
Proof.
  intros Hinv Hfresh Hpar Hblob. unfold mem_fresh in Hfresh.
  unfold mem_AppendVersion, modify, gets, mbind, st_bind.
  destruct (mem_inv_ensure s (docKey t i) Hinv) as [Hi1 Hr1].
  assert (blobs (ensureDAG (docKey t i) s) = blobs s) as Hb1.
  { unfold ensureDAG. by destruct (dags s !! docKey t i). }
  rewrite <-(v2h_ensure s (docKey t i)), <-(seqAt_ensure s (docKey t i) (docKey t i)) in Hfresh.
  unfold upsertBlob, get, throw, modify, mbind, st_bind. rewrite Hb1.
  set (s1 := ensureDAG (docKey t i) s) in *.
  assert (∀ bl, ∃ d, version.Append (version.mkVersion
    (hash_short (versionIDInput (docKey t i) (seqAt s1 (docKey t i) + 1) data) 16) parents now
    (hash_short data 16)) (dagAt (upd_blobs bl s1) (docKey t i)) = (Ok tt, d)) as Ha.
  { intros bl. pose proof (inv_dag s1 Hi1 (docKey t i)) as Hd.
    change (dagAt (upd_blobs bl s1) (docKey t i)) with (dagAt s1 (docKey t i)).
    eexists. apply version.Append_ok; simpl.
    - apply eq_None_not_Some. rewrite (repr_dom _ _ Hd). intros (w&Hw&Ew)%elem_of_mem_vids.
      eapply (commit_vid_new s1 t i data Hi1 Hfresh); [exact Hw|exact Ew].
    - intros p Hp. apply (repr_dom _ _ Hd). rewrite Hr1. by apply Hpar. }
  unfold appendRow, dagAppend. destruct (blobs s !! hash_short data 16) as [b|] eqn:Eb.
  - destruct (Hblob b eq_refl) as [Hd Hlt]. rewrite bool_decide_true by done. simpl.
    destruct (Z.eqb_spec (refcount b) MaxInt64); [lia|].
    destruct (Ha <[hash_short data 16 := mkBlob (bdata b) (refcount b + 1)]>) as [d ->]. simpl. eauto.
  - destruct (Ha <[hash_short data 16 := mkBlob data 1]>) as [d ->]. simpl. eauto.
Qed.

(** An in-memory append of a payload that neither collides with a stored blob
    nor saturates its count, whose version id is new and whose parents are all
    known, succeeds: the version carries the next sequence number, is born live,
    is the last of the listed history, reads back byte for byte, and no other
    document's history changes. *)
Theorem mem_append_total (s : MemStore) (now : Z) (t i data : string) (parents : list string)
    (Hinv : mem_inv s) (Hfresh : mem_fresh s t i data)
    (Hpar : ∀ p, p ∈ parents → p ∈ vids (rows (mem_hist s t i)))
    (Hblob : ∀ b, blobs s !! hash_short data 16 = Some b → bdata b = data ∧ refcount b < MaxInt64) :
  ∃ v s', mem_AppendVersion now t i data parents s = (Ok v, s') ∧ mem_inv s' ∧
    Seq v = seqAt s (docKey t i) + 1 ∧ Live v = true ∧ CreatedAt v = FormatNano now ∧
    (mem_ListVersions t i s').1 = Ok ((rv <$> rows (mem_hist s t i)) ++ [v]) ∧
    (mem_GetSnapshot (VersionID v) s').1 = Ok data ∧
    ∀ t' i', docKey t' i' ≠ docKey t i → mem_hist s' t' i' = mem_hist s t' i'.
Proof.
  destruct (mem_AppendVersion now t i data parents s) as [r s'] eqn:E.
  pose proof (mem_append_law s now t i data parents r s' Hinv Hfresh E) as (Hinv'&Ho&Hr).
  assert (∃ v, r = Ok v ∧ CreatedAt v = FormatNano now) as (v&->&Hc).
  { destruct (mem_append_accepts s now t i data parents Hinv Hfresh Hpar Hblob) as (v&s2&E2&?).
    exists v. split; congruence. }
  destruct Hr as (_&Hn&Hv&Hh). assert (Data v = data) as Hdata by by rewrite Hv.
  exists v, s'. split_and!; try done; try by rewrite Hv.
  - rewrite (mem_list_law s' t i Hinv'), Hh. simpl. by rewrite fmap_app.
  - replace data with (Data (rv (mkRow v parents))) by done.
    change (VersionID v) with (rvid (mkRow v parents)).
    rewrite (mem_snapshot_law s' t i (mkRow v parents) Hinv'); [done|]. rewrite Hh. set_solver.
Qed.

(** Sequence numbers are never issued twice while a document lives: an append
    that follows a removal of versions gets a number larger than every number
    issued before, the removed ones included. *)
Theorem mem_seq_not_reissued (s s1 s2 s3 : MemStore) (now now' : Z) (t i data data' : string)
    (parents parents' : list string) (v v' : Version) (ids : list string) (freed : list FreedBlob)
    (Hinv : mem_inv s) (Hf1 : mem_fresh s t i data)
    (E1 : mem_AppendVersion now t i data parents s = (Ok v, s1))
    (Hids : ids ≠ [])
    (Hcl : ∀ r p, r ∈ rows (mem_hist s1 t i) → p ∈ rparents r → p ∈ ids → rvid r ∈ ids)
    (Hsp : ∃ r, r ∈ rows (mem_hist s1 t i) ∧ rvid r ∉ ids)
    (E2 : mem_DeleteVersions t i ids s1 = (Ok freed, s2))
    (Hf2 : mem_fresh s2 t i data')
    (E3 : mem_AppendVersion now' t i data' parents' s2 = (Ok v', s3)) :
  Seq v' = Seq v + 1 ∧ ∀ w, w ∈ versionsAt s1 (docKey t i) → Seq w < Seq v'.
Proof.
  destruct (mem_append_law _ _ _ _ _ _ _ _ Hinv Hf1 E1) as (Hinv1&_&_&_&_&Hh1).
  destruct (mem_delete_versions_law s1 t i ids Hinv1 Hids Hcl Hsp) as (fr&s2'&E2'&Hinv2&Hh2&_).
  assert (s2' = s2) as -> by congruence.
  destruct (mem_append_law _ _ _ _ _ _ _ _ Hinv2 Hf2 E3) as (Hinv3&_&_&_&Hv3&_).
  assert (Seq v' = hwm (mem_hist s2 t i) + 1) as Hs3 by (by rewrite Hv3).
  rewrite Hh2, Hh1 in Hs3. simpl in Hs3. split; [done|]. intros w Hw.
  assert (Seq w ≤ seqAt s1 (docKey t i)) as Hle.
  { apply (rows_wf_bound _ _ (mem_row s1 (docKey t i) w) (inv_hist s1 Hinv1 (docKey t i))).
    apply list_elem_of_fmap. eauto. }
  assert (seqAt s1 (docKey t i) = Seq v) as E by (injection Hh1; auto). lia.
Qed.

End Reachable.

(** ** Witnesses *)

Module mem_examples.

(** A transparent hash and clock text, so that runs compute. *)
#[export] Instance plain_hasher : Hasher := λ s _, s.
#[export] Instance plain_time : GoTime := {| FormatNano := λ t, pretty t; ParseNano := λ _, None |}.

Definition app (now : Z) (data : string) (parents : list string) (s : MemStore) : MemStore :=
  (mem_AppendVersion now "doc" "a" data parents s).2.

Definition v1 : string := "doc:a-1-x".
Definition v2 : string := "doc:a-2-y".
Definition s1 : MemStore := app 10 "x" [] NewInMemoryVersionStore.
Definition s2 : MemStore := app 20 "y" [v1] s1.
Definition s3 : MemStore := (mem_DeleteVersions "doc" "a" [v2] s2).2.

Lemma app_step now data parents s :
  mem_fresh s "doc" "a" data → mem_step s (app now data parents s).
Proof.
  intros Hf. unfold app. destruct (mem_AppendVersion _ _ _ _ _ s) as [r s'] eqn:E.
  by eapply step_append.
Qed.

Lemma s1_reachable : mem_reachable s1.
Proof. apply rtc_once, app_step. vm_compute. reflexivity. Qed.
Lemma s2_reachable : mem_reachable s2.
Proof. eapply rtc_r; [apply s1_reachable|]. apply app_step. vm_compute. reflexivity. Qed.

Lemma closed_by_compute (l : list Row) (ids : list string) :
  bool_decide (Forall (λ r, Forall (λ p, p ∈ ids → rvid r ∈ ids) (rparents r)) l) = true →
  ∀ r p, r ∈ l → p ∈ rparents r → p ∈ ids → rvid r ∈ ids.
Proof.
  rewrite bool_decide_eq_true, Forall_forall. setoid_rewrite Forall_forall. eauto.
Qed.

Lemma spares_by_compute (l : list Row) (ids : list string) :
  bool_decide (Exists (λ r, rvid r ∉ ids) l) = true → ∃ r, r ∈ l ∧ rvid r ∉ ids.
Proof. by rewrite bool_decide_eq_true, Exists_exists. Qed.

End mem_examples.
Import mem_examples.

Lemma mem_refcounts_exact_witness :
  mem_reachable s2 ∧ mem_GetSnapshot v2 s2 = (Ok "y", s2).
Proof.
  split; [apply s2_reachable|].
  apply (proj2 (mem_refcounts_exact s2 s2_reachable) "doc" "a"
           (mkVersion "doc" "a" v2 2 "y" "20" true)).
  refine (bool_decide_eq_true_1 _ _). vm_compute. reflexivity.
Defined.

Lemma mem_append_total_witness :
  mem_inv s1 ∧ ∃ v s', mem_AppendVersion 20 "doc" "a" "y" [v1] s1 = (Ok v, s') ∧ Seq v = 2.
Proof.
  split; [apply mem_reachable_inv, s1_reachable|].
  destruct (mem_append_total s1 20 "doc" "a" "y" [v1]) as (v&s'&E&_&Hs&_).
  - apply mem_reachable_inv, s1_reachable.
  - vm_compute. reflexivity.
  - intros p ->%list_elem_of_singleton. refine (bool_decide_eq_true_1 _ _). vm_compute. reflexivity.
  - intros b Hb. vm_compute in Hb. discriminate.
  - exists v, s'. split; [exact E|]. rewrite Hs. vm_compute. reflexivity.
Defined.

Lemma mem_seq_not_reissued_witness :
  ∃ v' s', mem_AppendVersion 30 "doc" "a" "z" [v1] s3 = (Ok v', s') ∧ Seq v' = 3.
Proof.
  exists (mkVersion "doc" "a" "doc:a-3-z" 3 "z" "30" true), (app 30 "z" [v1] s3).
  split; [vm_compute; reflexivity|].
  apply (mem_seq_not_reissued s1 s2 s3 (app 30 "z" [v1] s3) 20 30 "doc" "a" "y" "z" [v1] [v1]
           (mkVersion "doc" "a" v2 2 "y" "20" true)
           (mkVersion "doc" "a" "doc:a-3-z" 3 "z" "30" true) [v2] [mkFreedBlob "y" 1]).
  - apply mem_reachable_inv, s1_reachable.
  - vm_compute. reflexivity.
  - vm_compute. reflexivity.
  - discriminate.
  - apply closed_by_compute. vm_compute. reflexivity.
  - apply spares_by_compute. vm_compute. reflexivity.
  - vm_compute. reflexivity.
  - vm_compute. reflexivity.
  - vm_compute. reflexivity.
Defined.

(** The refusal to remove every version does not leave the store as it was,
    as the comment on that branch says it does: the indirections are dropped
    before the check, so after the error the version is still listed but its
    snapshot can no longer be read, and its blob is never released. *)
Theorem mem_delete_all_refusal_corrupts :
  let '(r, s') := mem_DeleteVersions "doc" "a" [v1] s1 in
  r = Err (Errorf "store: prune: refusing to remove all versions") ∧
  (mem_ListVersions "doc" "a" s').1 = (mem_ListVersions "doc" "a" s1).1 ∧
  (mem_GetSnapshot v1 s1).1 = Ok "x" ∧ is_ok (mem_GetSnapshot v1 s').1 = false ∧
  is_Some (blobs s' !! "x") ∧ is_ok (mem_DeleteHistory "doc" "a" s').1 = false.
Proof. vm_compute. repeat split; eauto. Qed.

(** The in-memory backend keys its maps by [type ++ ":" ++ id], which does not
    separate documents: the versions recorded for type [a], id [b:c] are listed
    as the history of type [a:b], id [c]. *)
Theorem mem_docKey_conflates :
  docKey "a" "b:c" = docKey "a:b" "c" ∧
  let s := (mem_AppendVersion 10 "a" "b:c" "x" [] NewInMemoryVersionStore).2 in
  (mem_ListVersions "a:b" "c" s).1 = (mem_ListVersions "a" "b:c" s).1 ∧
  (mem_ListVersions "a:b" "c" s).1 ≠ Ok [].
Proof. vm_compute. repeat split; try done. Qed.
