(* ===== verification/Prune.v ===== *)
(** * Retention policies and the prune algorithm (engine/store/versioned.go)

    [policyExceeds] and [computePrunable] as the code runs them: the bottom-up
    fixed point ranges over a Go map, so every pass takes its order from
    [MapOrder], and the loop runs on fuel that is proved to be enough.  The
    result does not depend on the order: it is the set of candidates all of
    whose descendants are candidates. *)

From S2P Require Import Prelude VersionDag VersionStore.

Local Open Scope Z_scope.

Record RetentionPolicy := mkPolicy {
  MaxVersions : Z;
  MaxAge : Z;   (* time.Duration, nanoseconds *)
}.

Record PruneResult := mkPruneResult {
  VersionsRemoved : list string;
  BlobsFreed : Z;
  BytesFreed : Z;
}.

(** [time.Time.Sub] saturates at the bounds of int64. *)
Definition MinInt64 : Z := -9223372036854775808.
Definition dur_sub (now t : Z) : Z := Z.max MinInt64 (Z.min MaxInt64 (now - t)).

Section Prune.
Context `{GT : GoTime} `{MO : MapOrder}.

Definition policyExceeds (v : Version) (policy : RetentionPolicy) (now : Z)
    (index totalVersions : Z) : bool :=
  let hasCount := 0 <? MaxVersions policy in
  let hasAge := 0 <? MaxAge policy in
  if negb hasCount && negb hasAge then false
  else
    let exceedsCount := if hasCount then MaxVersions policy <? totalVersions - index else false in
    let exceedsAge :=
      if hasAge then
        match ParseNano (CreatedAt v) with
        | Some t => MaxAge policy <? dur_sub now t
        | None => false
        end
      else false in
    if hasCount && hasAge then exceedsCount && exceedsAge
    else if hasCount then exceedsCount
    else exceedsAge.

(** [byID]: later entries of the slice win. *)
Definition index_by_id (versions : list Version) : gmap string Version :=
  foldl (λ m v, <[VersionID v := v]> m) ∅ versions.

Definition live_heads (versions : list Version) (dag : version.DAG) : list string :=
  filter (λ h, Live <$> index_by_id versions !! h = Some true) (version.Heads dag).

Definition retain_floor (dag : version.DAG) (heads : list string) : gset string :=
  foldl (λ fl h, fl ∪ {[h]} ∪ version.Ancestors dag h) ∅ heads.

Definition initial_candidates (versions : list Version) (floor : gset string)
    (policy : RetentionPolicy) (now : Z) : gset string :=
  list_to_set (VersionID ∘ snd <$>
    filter (λ iv : nat * Version, (VersionID iv.2 ∉ floor) ∧
              policyExceeds iv.2 policy now (Z.of_nat iv.1) (Z.of_nat (length versions)) = true)
      (imap (λ i v, (i, v)) versions)).

Definition retainedDescendant (dag : version.DAG) (cands : gset string) (vid : string) : bool :=
  existsb (λ c, bool_decide (c ∉ cands)) (version.Children dag vid).

(** One [for vid := range candidates] pass; the flag is [changed]. *)
Fixpoint prune_pass (dag : version.DAG) (order : list string) (cands : gset string) (changed : bool)
  : gset string * bool :=
  match order with
  | [] => (cands, changed)
  | vid :: order =>
      if retainedDescendant dag cands vid
      then prune_pass dag order (cands ∖ {[vid]}) true
      else prune_pass dag order cands changed
  end.

Fixpoint prune_loop (fuel n : nat) (dag : version.DAG) (cands : gset string) : option (gset string) :=
  match fuel with
  | O => None
  | S fuel =>
      let '(cands', changed) := prune_pass dag (range_order n cands) cands false in
      if changed then prune_loop fuel (S n) dag cands' else Some cands'
  end.

Definition computePrunable (versions : list Version) (dag : version.DAG)
    (policy : RetentionPolicy) (now : Z) : gset string :=
  match versions with
  | [] => ∅
  | _ =>
      match live_heads versions dag with
      | [] => ∅
      | heads =>
          let cands := initial_candidates versions (retain_floor dag heads) policy now in
          default ∅ (prune_loop (S (size cands)) 0 dag cands)
      end
  end.

(** ** The fixed point *)

Lemma retainedDescendant_true dag cands vid :
  retainedDescendant dag cands vid = true ↔ ∃ c, c ∈ version.Children dag vid ∧ c ∉ cands.
Proof.
  unfold retainedDescendant. rewrite existsb_exists. setoid_rewrite bool_decide_eq_true.
  setoid_rewrite list_elem_of_In. done.
Qed.

Lemma prune_pass_inv dag order cands ch cands' ch' :
  prune_pass dag order cands ch = (cands', ch') →
  cands' ⊆ cands ∧
  (ch' = false → ch = false ∧ cands' = cands ∧
     ∀ vid, vid ∈ order → retainedDescendant dag cands vid = false).
Proof.
  revert cands ch; induction order as [|vid order IH]; intros cands ch; simpl.
  { intros [= <- <-]. split; [done|]. intros ->. set_solver. }
  destruct (retainedDescendant dag cands vid) eqn:E; intros H; apply IH in H as [H1 H2].
  - split; [set_solver|]. intros ->. destruct H2 as [? _]; done.
  - split; [done|]. intros Hf. destruct (H2 Hf) as (?&?&?). set_solver.
Qed.

(** A changed pass removes at least one candidate. *)
Lemma prune_pass_shrinks dag order cands ch cands' ch' :
  prune_pass dag order cands ch = (cands', ch') → (∀ v, v ∈ order → v ∈ cands) → NoDup order →
  ch' = true → ch = true ∨ (size cands' < size cands)%nat.
Proof.
  revert cands ch; induction order as [|vid order IH]; intros cands ch; simpl.
  { intros [= <- <-]. auto. }
  intros H Hin Hnd%NoDup_cons Ht. destruct Hnd as [Hn Hnd].
  destruct (retainedDescendant dag cands vid) eqn:E.
  - right. apply prune_pass_inv in H as [Hs _]. apply subseteq_size in Hs.
    assert (vid ∈ cands) as Hv by (apply Hin; set_solver).
    rewrite size_difference in Hs by set_solver. rewrite size_singleton in Hs.
    assert (0 < size cands)%nat; [|lia].
    assert ({[vid]} ⊆ cands) as Hs1 by set_solver. apply subseteq_size in Hs1.
    rewrite size_singleton in Hs1. lia.
  - eapply IH; eauto. set_solver.
Qed.

(** Nothing whose descendants are all candidates is ever removed. *)
Lemma prune_pass_keeps dag order cands ch cands' ch' (X : gset string) :
  prune_pass dag order cands ch = (cands', ch') → X ⊆ cands →
  (∀ v c, v ∈ X → c ∈ version.Children dag v → c ∈ X) → X ⊆ cands'.
Proof.
  intros H HX Hcl. revert cands ch H HX; induction order as [|vid order IH]; intros cands ch; simpl.
  { intros [= <- <-]. done. }
  destruct (retainedDescendant dag cands vid) eqn:E; intros H HX; eapply IH in H; eauto.
  apply retainedDescendant_true in E as (c&Hc&Hn). set_solver.
Qed.

Lemma prune_loop_total fuel n dag cands :
  (size cands < fuel)%nat → is_Some (prune_loop fuel n dag cands).
Proof.
  revert n cands; induction fuel as [|fuel IH]; intros n cands Hf; [lia|]. simpl.
  destruct (prune_pass _ _ _ _) as [cands' [|]] eqn:E; [|eauto].
  apply prune_pass_shrinks in E as [?|?]; [done| |intros v; by rewrite range_order_elem|
    apply range_order_NoDup|done].
  apply IH. lia.
Qed.

Lemma prune_loop_spec fuel n dag cands R :
  prune_loop fuel n dag cands = Some R →
  R ⊆ cands ∧ (∀ v c, v ∈ R → c ∈ version.Children dag v → c ∈ R) ∧
  (∀ X : gset string, X ⊆ cands → (∀ v c, v ∈ X → c ∈ version.Children dag v → c ∈ X) → X ⊆ R).
Proof.
  revert n cands; induction fuel as [|fuel IH]; intros n cands; simpl; [done|].
  destruct (prune_pass _ _ _ _) as [cands' [|]] eqn:E.
  - intros (H1&H2&H3)%IH. pose proof (prune_pass_inv _ _ _ _ _ _ E) as [Hs _].
    split_and!; [set_solver|done|]. intros X HX Hcl. apply H3; [|done].
    by eapply prune_pass_keeps.
  - intros [= <-]. pose proof (prune_pass_inv _ _ _ _ _ _ E) as [_ H].
    destruct (H eq_refl) as (_&->&Hall). split_and!; [done| |done].
    intros v c Hv Hc. destruct (decide (c ∈ cands)) as [|Hn]; [done|].
    assert (retainedDescendant dag cands v = true); [apply retainedDescendant_true; eauto|].
    rewrite Hall in *; [done|]. by apply range_order_elem.
Qed.

(** ** What is prunable *)

Lemma elem_of_Ancestors_incl dag h x :
  x = h ∨ x ∈ version.Ancestors dag h ↔ rtc (version.parent dag) h x.
Proof.
  unfold version.Ancestors.
  rewrite elem_of_difference, elem_of_singleton, version.elem_of_reach_set.
  split; [intros [-> | [? _]]; [reflexivity|done]|].
  destruct (decide (x = h)); auto.
Qed.

Lemma elem_of_retain_floor dag heads x :
  x ∈ retain_floor dag heads ↔ ∃ h, h ∈ heads ∧ rtc (version.parent dag) h x.
Proof.
  unfold retain_floor.
  assert (∀ fl : gset string, x ∈ foldl (λ fl h, fl ∪ {[h]} ∪ version.Ancestors dag h) fl heads ↔
    x ∈ fl ∨ ∃ h, h ∈ heads ∧ rtc (version.parent dag) h x) as Hgen; [|rewrite Hgen; set_solver].
  induction heads as [|h heads IH]; intros fl; simpl; [set_solver|].
  rewrite IH. pose proof (elem_of_Ancestors_incl dag h x). set_solver.
Qed.

Lemma elem_of_initial_candidates versions floor policy now x :
  x ∈ initial_candidates versions floor policy now ↔
  ∃ (i : nat) v, versions !! i = Some v ∧ VersionID v = x ∧ (x ∉ floor) ∧
    policyExceeds v policy now (Z.of_nat i) (Z.of_nat (length versions)) = true.
Proof.
  unfold initial_candidates. rewrite elem_of_list_to_set, list_elem_of_fmap. split.
  - intros ([i v]&->&([Hf Hp]&Hi)%list_elem_of_filter).
    apply list_elem_of_lookup in Hi as [j Hj]. rewrite list_lookup_imap in Hj.
    apply fmap_Some in Hj as (w&Hw&[= -> ->]). exists j, w. done.
  - intros (i&v&Hi&<-&Hf&Hp). exists (i, v). split; [done|]. apply list_elem_of_filter. split; [done|].
    apply list_elem_of_lookup. exists i. by rewrite list_lookup_imap, Hi.
Qed.

Lemma index_by_id_lookup versions x v :
  NoDup (VersionID <$> versions) →
  index_by_id versions !! x = Some v ↔ v ∈ versions ∧ VersionID v = x.
Proof.
  unfold index_by_id. induction versions as [|w versions IH] using rev_ind; simpl.
  { intros _. rewrite lookup_empty. set_solver. }
  rewrite fmap_app, NoDup_app. intros (Hnd&Hn&_). rewrite foldl_app. simpl.
  rewrite lookup_insert_Some, IH by done. rewrite elem_of_app, list_elem_of_singleton. split.
  - naive_solver.
  - intros [[Hv | ->] <-]; [|auto]. right. split; [|done]. intros E. apply (Hn (VersionID v)).
    + apply list_elem_of_fmap. eauto.
    + simpl. set_solver.
Qed.

Lemma elem_of_live_heads versions dag h :
  NoDup (VersionID <$> versions) →
  h ∈ live_heads versions dag ↔
  h ∈ version.Heads dag ∧ ∃ v, v ∈ versions ∧ VersionID v = h ∧ Live v = true.
Proof.
  intros Hnd. unfold live_heads. rewrite list_elem_of_filter, fmap_Some.
  pose proof (λ v, index_by_id_lookup versions h v Hnd) as Hix. setoid_rewrite Hix. naive_solver.
Qed.

Lemma elem_of_computePrunable versions dag policy now x :
  version.dag_wf dag →
  x ∈ computePrunable versions dag policy now ↔
  live_heads versions dag ≠ [] ∧
  ∀ y, rtc (version.parent dag) y x →
    y ∈ initial_candidates versions (retain_floor dag (live_heads versions dag)) policy now.
Proof.
  intros Hwf. unfold computePrunable. destruct versions as [|v0 vs].
  { split; [set_solver|]. intros [_ Hall].
    specialize (Hall x (rtc_refl _ _)). apply elem_of_initial_candidates in Hall as (i&v&Hi&_). done. }
  destruct (live_heads (v0 :: vs) dag) as [|h hs] eqn:Eh; [set_solver|].
  set (cands := initial_candidates _ _ _ _).
  destruct (prune_loop_total (S (size cands)) 0 dag cands) as [R HR]; [lia|].
  rewrite HR. simpl. apply prune_loop_spec in HR as (Hsub&Hcl&Hgr). split.
  - intros Hx. split; [done|]. intros y Hyx. apply Hsub.
    induction Hyx as [|a b c Hab _ IH]; [done|].
    eapply Hcl; [by apply IH|]. by apply (version.wf_children dag Hwf).
  - intros [_ Hall].
    apply (Hgr (filter (λ y, x ∈ version.reach_set dag y) cands)).
    + set_solver.
    + intros v c [Hv _]%elem_of_filter Hc%(version.wf_children dag Hwf).
      apply version.elem_of_reach_set in Hv.
      assert (rtc (version.parent dag) c x) as Hcx by by eapply rtc_l.
      apply elem_of_filter. split; [by apply version.elem_of_reach_set|]. by apply Hall.
    + apply elem_of_filter. split; [by apply version.elem_of_reach_set|]. by apply Hall.
Qed.

(** Removing the prunable set is safe: it is closed under children and spares
    every ancestor of a live head. *)
Lemma computePrunable_closed versions dag policy now x c :
  version.dag_wf dag → x ∈ computePrunable versions dag policy now →
  version.parent dag c x → c ∈ computePrunable versions dag policy now.
Proof.
  intros Hwf. rewrite !elem_of_computePrunable by done. intros [Hh Hall] Hp.
  split; [done|]. intros y Hy. apply Hall. by eapply rtc_r.
Qed.

Lemma computePrunable_spares versions dag policy now h x :
  version.dag_wf dag → h ∈ live_heads versions dag → rtc (version.parent dag) h x →
  x ∉ computePrunable versions dag policy now.
Proof.
  intros Hwf Hh Hr Hx. apply elem_of_computePrunable in Hx as [_ Hall]; [|done].
  specialize (Hall x (rtc_refl _ _)). apply elem_of_initial_candidates in Hall as (_&_&_&_&Hf&_).
  apply Hf, elem_of_retain_floor. eauto.
Qed.

Lemma computePrunable_known versions dag policy now x :
  version.dag_wf dag → x ∈ computePrunable versions dag policy now →
  x ∈ VersionID <$> versions.
Proof.
  intros Hwf [_ Hall]%elem_of_computePrunable; [|done].
  specialize (Hall x (rtc_refl _ _)). apply elem_of_initial_candidates in Hall as (i&v&Hi&<-&_).
  apply list_elem_of_fmap. exists v. split; [done|]. by eapply list_elem_of_lookup_2.
Qed.

(** C25. The prune algorithm terminates and selects exactly the versions all of
    whose descendants, themselves included, exceed the retention policy and lie
    outside the retain floor, provided a live head exists; with no live head it
    selects nothing. *)
Theorem compute_prunable_spec (versions : list Version) (dag : version.DAG)
    (policy : RetentionPolicy) (now : Z) (x : string) (Hwf : version.dag_wf dag)
    (Hnd : NoDup (VersionID <$> versions)) :
  x ∈ computePrunable versions dag policy now ↔
  (∃ h v, h ∈ version.Heads dag ∧ v ∈ versions ∧ VersionID v = h ∧ Live v = true) ∧
  ∀ y, rtc (version.parent dag) y x →
    (∃ (i : nat) w, versions !! i = Some w ∧ VersionID w = y ∧
       policyExceeds w policy now (Z.of_nat i) (Z.of_nat (length versions)) = true) ∧
    (∀ h v, h ∈ version.Heads dag → v ∈ versions → VersionID v = h → Live v = true →
       ¬ rtc (version.parent dag) h y).
Proof.
  rewrite elem_of_computePrunable by done.
  assert (live_heads versions dag ≠ [] ↔ ∃ h, h ∈ live_heads versions dag) as ->.
  { destruct (live_heads versions dag) as [|h l]; [set_solver|]. split; [|done].
    intros _. exists h. set_solver. }
  setoid_rewrite elem_of_initial_candidates. setoid_rewrite elem_of_retain_floor.
  pose proof (λ h, elem_of_live_heads versions dag h Hnd) as Hlh. setoid_rewrite Hlh.
  split; (intros [Hh Hall]; split; [naive_solver|]); intros y Hy; specialize (Hall y Hy).
  - destruct Hall as (i&w&Hi&Hw&Hf&Hp). split; [by exists i, w|].
    intros h v Hh' Hv E Hl Hr. apply Hf. exists h. split; [|done]. split; [done|]. by exists v.
  - destruct Hall as ((i&w&Hi&Hw&Hp)&Hf). exists i, w. split_and!; try done.
    intros (h&(Hh'&v&?&?&?)&Hr). by eapply Hf.
Qed.

End Prune.

(** The result does not depend on the order in which Go happens to range
    over the candidate map, on any pass. *)
Theorem compute_prunable_order_independent `{GT : GoTime} (o1 o2 : MapOrder)
    (versions : list Version) (dag : version.DAG) (policy : RetentionPolicy) (now : Z)
    (Hwf : version.dag_wf dag) :
  computePrunable (MO := o1) versions dag policy now =
  computePrunable (MO := o2) versions dag policy now.
Proof. apply set_eq. intros x. by rewrite !elem_of_computePrunable. Qed.

(** [policyExceeds] composes the two bounds conservatively: a version exceeds
    the policy only if it exceeds every bound that is set, and no version
    exceeds a policy without bounds. *)
Theorem policy_exceeds_and_rule `{GT : GoTime} (v : Version) (p : RetentionPolicy)
    (now index total : Z) :
  policyExceeds v p now index total = true ↔
  (0 < MaxVersions p ∨ 0 < MaxAge p) ∧
  (0 < MaxVersions p → MaxVersions p < total - index) ∧
  (0 < MaxAge p → ∃ t, ParseNano (CreatedAt v) = Some t ∧ MaxAge p < dur_sub now t).
Proof.
  unfold policyExceeds. destruct (Z.ltb_spec 0 (MaxVersions p)), (Z.ltb_spec 0 (MaxAge p));
    simpl; destruct (ParseNano (CreatedAt v)) as [t|]; rewrite ?andb_true_iff, ?Z.ltb_lt;
    (split; [intros; destruct_and?; split_and!; intros; try lia; try done; eauto|]);
    intros (?&Hc&Ha); try specialize (Hc ltac:(lia)); try specialize (Ha ltac:(lia));
    try lia; destruct Ha as (?&?&?); simplify_eq; auto.
Qed.
