(* ===== verification/DocumentStore.v ===== *)
(** * The document store (engine/store/document.go)

    The [documents] table is a map from its primary key [(type, id)] to rows;
    each method runs its SQL statement on it.  [like] is SQLite's LIKE with
    [ESCAPE '\'] (ASCII case-insensitive), so that the search clause [List]
    builds can be related to what the caller asked for.  [encoding/json] is a
    parameter: [JSON] decodes an object into its raw members and a raw value
    into a string. *)

From Stdlib Require Import Ascii.
From stdpp Require Import pretty.
From S2P Require Import Prelude Fingerprint VersionStore.

Local Open Scope Z_scope.

(** ** Data *)

Record Document := mkDoc {
  dType : string;
  dID : string;
  dData : string;
  dCreatedAt : string;
  dUpdatedAt : string;
}.

#[export] Instance Document_eq_dec : EqDecision Document.
Proof. solve_decision. Defined.

Definition GetID (d : Document) : string := dID d.

Record Query := mkQuery { qLimit : Z; qOffset : Z; qSort : string; qSearch : string }.

Abbreviation documents := (gmap (string * string) Document).

(** [json.Unmarshal] into [map[string]json.RawMessage] and into [string]. *)
Class JSON := {
  json_object : string → option (gmap string string);
  json_string : string → option string;
}.

Section DocumentStore.
Context `{HS : Hasher} `{GT : GoTime} `{JS : JSON}.

(** ** Operations *)

Definition extractID (data : string) : string :=
  match json_object data with
  | None => ""
  | Some m =>
      match m !! "id" with
      | None => ""
      | Some raw => default "" (json_string raw)
      end
  end.

(** [INSERT INTO documents]: the primary key must be free.  [now k] is what the
    [k]-th call of [time.Now] in the program text returns. *)
Definition createExec (now : nat → Z) (docType data : string) : st documents error Document := λ db,
  let id := extractID data in
  let id := if decide (id = "") then hash_short (docType +:+ "-" +:+ pretty (now 0%nat)) 12 else id in
  let ts := FormatNano (now 1%nat) in
  let doc := mkDoc docType id data ts ts in
  match db !! (docType, id) with
  | Some _ => (Err (Errorf "store: create: constraint failed"), db)
  | None => (Ok doc, <[(docType, id) := doc]> db)
  end.

Definition doc_Create := createExec.
Definition createConn := createExec.

Definition scanDocument (row : option Document) : res error Document :=
  match row with
  | Some d => Ok d
  | None => Err (Errorf "store: not found")
  end.

Definition doc_Get (docType id : string) : st documents error Document := λ db,
  (scanDocument (db !! (docType, id)), db).

(** [UPDATE documents SET data, updated_at WHERE type, id]. *)
Definition updateExec (now : Z) (docType id data : string) : st documents error unit := λ db,
  match db !! (docType, id) with
  | None => (Err (Errorf "store: update: not found"), db)
  | Some d =>
      (Ok tt, <[(docType, id) := mkDoc (dType d) (dID d) data (dCreatedAt d) (FormatNano now)]> db)
  end.

Definition doc_Update (now : Z) (docType id data : string) : st documents error Document :=
  updateExec now docType id data;; doc_Get docType id.
Definition updateConn := doc_Update.

Definition deleteExec (docType id : string) : st documents error unit := λ db,
  match db !! (docType, id) with
  | None => (Err (Errorf "store: delete: not found"), db)
  | Some _ => (Ok tt, delete (docType, id) db)
  end.

Definition doc_Delete := deleteExec.
Definition deleteConn := deleteExec.

(** ** The search clause *)

(** [strings.ReplaceAll(s, c, r)] for a one-byte [c]. *)
Fixpoint replace_char (c : ascii) (r s : string) : string :=
  match s with
  | EmptyString => EmptyString
  | String x s => if Ascii.eqb x c then r +:+ replace_char c r s else String x (replace_char c r s)
  end.

Definition backslash : ascii := "092"%char.
Definition percent : ascii := "037"%char.
Definition underscore : ascii := "095"%char.

Definition escapeLIKE (s : string) : string :=
  let s := replace_char backslash (String backslash (String backslash "")) s in
  let s := replace_char percent (String backslash (String percent "")) s in
  replace_char underscore (String backslash (String underscore "")) s.

(** ASCII lower case, the folding LIKE applies. *)
Definition lower (c : ascii) : ascii :=
  let n := nat_of_ascii c in
  if (65 <=? n)%nat && (n <=? 90)%nat then ascii_of_nat (n + 32) else c.

Definition same_ci (a b : ascii) : bool := Ascii.eqb (lower a) (lower b).

(** [s LIKE p ESCAPE '\']. *)
Fixpoint like (p s : string) : bool :=
  match p with
  | EmptyString => match s with EmptyString => true | _ => false end
  | String c p' =>
      if Ascii.eqb c backslash then
        match p', s with
        | String e p'', String x s' => same_ci e x && like p'' s'
        | _, _ => false
        end
      else if Ascii.eqb c percent then
        (fix any (s : string) : bool :=
           like p' s || match s with EmptyString => false | String _ s' => any s' end) s
      else if Ascii.eqb c underscore then
        match s with EmptyString => false | String _ s' => like p' s' end
      else
        match s with EmptyString => false | String x s' => same_ci c x && like p' s' end
  end.

Definition likePattern (search : string) : string :=
  String percent (escapeLIKE search +:+ String percent "").

Definition matches (docType : string) (q : Query) (d : Document) : bool :=
  bool_decide (dType d = docType) &&
  (bool_decide (qSearch q = "") || like (likePattern (qSearch q)) (dData d)).

(** The [ORDER BY] column. *)
Definition sortKey (q : Query) (d : Document) : string :=
  if decide (qSort q = "created_at") then dCreatedAt d
  else if decide (qSort q = "updated_at") then dUpdatedAt d
  else if decide (qSort q = "id") then dID d
  else dCreatedAt d.

Definition key_le (q : Query) (a b : Document) : Prop := str_le (sortKey q a) (sortKey q b).
#[export] Instance key_le_dec q : RelDecision (key_le q).
Proof. intros a b. unfold key_le. apply _. Defined.

(** SQLite's [LIMIT]: a negative bound is no bound. *)
Definition sql_limit (n : Z) (l : list Document) : list Document :=
  if n <? 0 then l else take (Z.to_nat n) l.

Definition doc_List (docType : string) (q : Query) : st documents error (list Document) :=
  gets (λ db,
    let limit := if qLimit q =? 0 then 100 else qLimit q in
    let found := filter (λ d, matches docType q d = true) (map_to_list db).*2 in
    let sorted := merge_sort (key_le q) found in
    sql_limit limit (drop (Z.to_nat (if 0 <? qOffset q then qOffset q else 0)) sorted)).

End DocumentStore.

(** ** LIKE finds what was searched for *)

(** What one character of the search text becomes. *)
Definition esc1 (c : ascii) : string :=
  if Ascii.eqb c backslash || Ascii.eqb c percent || Ascii.eqb c underscore
  then String backslash (String c "") else String c "".

Fixpoint esc (s : string) : string :=
  match s with
  | EmptyString => EmptyString
  | String c s => esc1 c +:+ esc s
  end.

Lemma replace_char_app c r a b :
  replace_char c r (a +:+ b) = replace_char c r a +:+ replace_char c r b.
Proof.
  induction a as [|x a IH]; simpl; [done|]. destruct (Ascii.eqb x c); rewrite IH; [|done].
  by rewrite str_app_assoc.
Qed.

Lemma escapeLIKE_esc s : escapeLIKE s = esc s.
Proof.
  unfold escapeLIKE. induction s as [|c s IH]; [done|].
  change (String c s) with (String c "" +:+ s). rewrite !replace_char_app, IH.
  change (esc (String c "" +:+ s)) with (esc1 c +:+ esc s). f_equal.
  unfold esc1. simpl. destruct (Ascii.eqb_spec c backslash) as [->|Hb]; [done|]. simpl.
  destruct (Ascii.eqb_spec c percent) as [->|Hp]; [done|]. simpl.
  destruct (Ascii.eqb_spec c underscore) as [->|Hu]; done.
Qed.

(** Equal up to ASCII case, byte by byte. *)
Fixpoint ci_equal (a b : string) : bool :=
  match a, b with
  | EmptyString, EmptyString => true
  | String x a, String y b => same_ci x y && ci_equal a b
  | _, _ => false
  end.

Lemma like_percent_end s : like (String percent "") s = true.
Proof. induction s as [|c s IH]; [done|]. simpl in *. exact IH. Qed.

Lemma like_esc1 c p s :
  like (esc1 c +:+ p) s =
  match s with EmptyString => false | String x s' => same_ci c x && like p s' end.
Proof.
  unfold esc1. destruct (Ascii.eqb_spec c backslash) as [->|Hb]; [by destruct s|].
  destruct (Ascii.eqb_spec c percent) as [->|Hp]; [by destruct s|].
  destruct (Ascii.eqb_spec c underscore) as [->|Hu]; [by destruct s|]. simpl.
  apply Ascii.eqb_neq in Hb, Hp, Hu. by rewrite Hb, Hp, Hu.
Qed.

Lemma like_esc_prefix q s :
  like (esc q +:+ String percent "") s = true ↔
  ∃ m b, s = m +:+ b ∧ ci_equal q m = true.
Proof.
  revert s; induction q as [|c q IH]; intros s.
  - simpl esc. change ("" +:+ String percent "") with (String percent "").
    rewrite like_percent_end. split; [|done]. intros _. by exists "", s.
  - simpl esc. rewrite str_app_assoc, like_esc1. destruct s as [|x s].
    + split; [done|]. intros ([|y m]&b&?&?); done.
    + rewrite andb_true_iff, IH. split.
      * intros (Hx&m&b&->&Hm). exists (String x m), b. simpl. by rewrite Hx, Hm.
      * intros ([|y m]&b&E&Hm); [done|]. simpl in *. injection E as -> ->.
        apply andb_true_iff in Hm as [? ?]. eauto 10.
Qed.

Lemma like_percent p s :
  like (String percent p) s = true ↔ ∃ a b, s = a +:+ b ∧ like p b = true.
Proof.
  induction s as [|c s IH].
  - simpl. rewrite orb_false_r. split.
    + intros. exists "", "". done.
    + intros ([|]&[|]&?&?); done.
  - change (like (String percent p) (String c s))
      with (like p (String c s) || like (String percent p) s).
    rewrite orb_true_iff, IH. split.
    + intros [H|(a&b&->&H)]; [exists "", (String c s)|exists (String c a), b]; split; (done || exact H).
    + intros ([|x a]&b&E&H); [left; change (String c s = b) in E; by rewrite E|].
      change (String c s = String x (a +:+ b)) in E. injection E as -> ->. right. by exists a, b.
Qed.

(** The LIKE clause [DocumentStore.List] builds finds exactly the documents
    whose data contains the search text literally, up to ASCII case: the
    escaping makes the wildcards [%] and [_] and the escape character itself
    ordinary characters. *)
Theorem search_clause_spec (search data : string) :
  like (likePattern search) data = true ↔
  ∃ a m b, data = a +:+ m +:+ b ∧ ci_equal search m = true.
Proof.
  unfold likePattern. rewrite like_percent. setoid_rewrite escapeLIKE_esc.
  setoid_rewrite like_esc_prefix. split.
  - intros (a&?&->&m&b&->&H). eauto.
  - intros (a&m&b&->&H). eauto 10.
Qed.
