(* ===== verification/Versioned.v ===== *)
(** * The versioned document store (engine/store/versioned.go)

    [VDS] pairs the [documents] table with a version backend reached through
    the [VersionStore] interface; [tx] is the optional [txCapable] side of the
    backend, through which document and version rows commit in one
    transaction.  All theorems are proved against [VersionStoreLaws] (and
    [TxLaws] of VersionedWrites.v on the transactional path), hence for either
    backend. *)

From S2P Require Import Prelude Fingerprint VersionDag VersionStore Prune DocumentStore.

Local Open Scope Z_scope.

Record VDS (S : Type) := mkVDS { docs : documents; vstore : S }.
Arguments mkVDS {_} _ _.
Arguments docs {_} _.
Arguments vstore {_} _.

(** The methods a backend offers to run inside the caller's transaction, the
    parent lookup on that transaction, and what ROLLBACK restores. *)
Class TxCapable (S : Type) := {
  appendVersionTx : Z → string → string → string → list string → st S error Version;
  deleteHistoryTx : string → string → st S error unit;
  parentsForTx : string → string → st S error (list string);
  tx_rollback : S → S → S;
}.

Section Versioned.
Context `{HS : Hasher} `{GT : GoTime} `{JS : JSON} `{MO : MapOrder}.
Context {S : Type} `{VS : VersionStore S} (tx : option (TxCapable S)).

Definition on_docs {A} (m : st documents error A) : st (VDS S) error A := λ s,
  let '(r, d) := m (docs s) in (r, mkVDS d (vstore s)).
Definition on_vs {A} (m : st S error A) : st (VDS S) error A := λ s,
  let '(r, v) := m (vstore s) in (r, mkVDS (docs s) v).

(** [beginImmediate ... commit(err)]: a failed body is rolled back. *)
Definition in_tx {A} (T : TxCapable S) (m : st (VDS S) error A) : st (VDS S) error A := λ s,
  match m s with
  | (Ok a, s') => (Ok a, s')
  | (Err e, s') => (Err e, mkVDS (docs s) (tx_rollback (vstore s) (vstore s')))
  end.

(** ** Create, update, delete

    [now k] is what the [k]-th call of [time.Now] on the way returns. *)

Definition createTx (T : TxCapable S) (now : nat → Z) (docType data : string)
  : st (VDS S) error (Document * Version) :=
  in_tx T (doc ← on_docs (createConn now docType data);
           v ← wrap_err (Wrapf "store: record initial version")
                 (on_vs (appendVersionTx (now 2%nat) (dType doc) (dID doc) data []));
           mret (doc, v)).

Definition CreateAndVersion (now : nat → Z) (docType data : string) : st (VDS S) error (Document * Version) :=
  match tx with
  | Some T => createTx T now docType data
  | None =>
      doc ← on_docs (doc_Create now docType data);
      v ← wrap_err (Wrapf "store: record initial version")
            (on_vs (AppendVersion (now 2%nat) (dType doc) (dID doc) data []));
      mret (doc, v)
  end.

Definition Create (now : nat → Z) (docType data : string) : st (VDS S) error Document :=
  dv ← CreateAndVersion now docType data; mret dv.1.

Definition parentsFor (docType id : string) : st S error (list string) :=
  existing ← ListVersions docType id;
  mret (match last existing with
        | None => []
        | Some v => [VersionID v]
        end).

Definition updateTx (T : TxCapable S) (now : nat → Z) (docType id data : string)
  : st (VDS S) error (Document * Version) :=
  in_tx T (doc ← on_docs (updateConn (now 0%nat) docType id data);
           parents ← on_vs (parentsForTx docType id);
           v ← wrap_err (Wrapf "store: record version")
                 (on_vs (appendVersionTx (now 1%nat) docType id data parents));
           mret (doc, v)).

Definition UpdateAndVersion (now : nat → Z) (docType id data : string) : st (VDS S) error (Document * Version) :=
  match tx with
  | Some T => updateTx T now docType id data
  | None =>
      doc ← on_docs (doc_Update (now 0%nat) docType id data);
      parents ← on_vs (parentsFor docType id);
      v ← wrap_err (Wrapf "store: record version")
            (on_vs (AppendVersion (now 1%nat) docType id data parents));
      mret (doc, v)
  end.

Definition Update (now : nat → Z) (docType id data : string) : st (VDS S) error Document :=
  dv ← UpdateAndVersion now docType id data; mret dv.1.

Definition CurrentVersionID (docType id : string) : st S error string :=
  parents ← parentsFor docType id;
  mret (match parents with [] => "" | p :: _ => p end).

Definition updateTxIfMatch (T : TxCapable S) (now : nat → Z) (docType id data expected : string)
  : st (VDS S) error (Document * Version) :=
  in_tx T (parents ← on_vs (parentsForTx docType id);
           let current := match parents with [] => "" | p :: _ => p end in
           if negb (bool_decide (current = expected)) then throw ErrPreconditionFailed
           else
             doc ← on_docs (updateConn (now 0%nat) docType id data);
             v ← wrap_err (Wrapf "store: record version")
                   (on_vs (appendVersionTx (now 1%nat) docType id data parents));
             mret (doc, v)).

Definition UpdateAndVersionIfMatch (now : nat → Z) (docType id data expected : string)
  : st (VDS S) error (Document * Version) :=
  if decide (expected = "") then UpdateAndVersion now docType id data
  else
    match tx with
    | Some T => updateTxIfMatch T now docType id data expected
    | None =>
        current ← on_vs (CurrentVersionID docType id);
        if negb (bool_decide (current = expected)) then throw ErrPreconditionFailed
        else UpdateAndVersion now docType id data
    end.

Definition Get (docType id : string) : st (VDS S) error Document := on_docs (doc_Get docType id).
Definition List (docType : string) (q : Query) : st (VDS S) error (list Document) :=
  on_docs (doc_List docType q).

Definition deleteTx (T : TxCapable S) (docType id : string) : st (VDS S) error unit :=
  in_tx T (on_docs (deleteConn docType id);; on_vs (deleteHistoryTx docType id)).

Definition Delete (docType id : string) : st (VDS S) error unit :=
  match tx with
  | Some T => deleteTx T docType id
  | None => on_docs (doc_Delete docType id);; on_vs (DeleteHistory docType id)
  end.

(** ** History and branches *)

Definition History (docType id : string) : st S error (list Version) :=
  versions ← ListVersions docType id;
  match versions with
  | [] => throw (Errorf "store: no history")
  | _ => mret versions
  end.

(** The [for i := range versions] lookup by sequence number. *)
Definition find_seq (seq : Z) (versions : list Version) : option Version :=
  list_find (λ v, Seq v = seq) versions ≫= λ iv, Some iv.2.

Definition Fork (now : Z) (docType id : string) (fromSeq : Z) : st S error Version :=
  versions ← ListVersions docType id;
  match versions with
  | [] => throw (Errorf "store: no history")
  | _ =>
      match find_seq fromSeq versions with
      | None => throw (Errorf "store: version not found")
      | Some source =>
          data ← wrap_err (Wrapf "store: fork: snapshot") (GetSnapshot (VersionID source));
          wrap_err (Wrapf "store: fork") (AppendVersion now docType id data [VersionID source])
      end
  end.

(** The [switch versions[i].Seq] of [Merge]: the [sourceSeq] case comes first,
    so with equal arguments the [targetSeq] case is never taken. *)
Definition merge_lookup (sourceSeq targetSeq : Z) (versions : list Version)
  : option Version * option Version :=
  foldl (λ st v, if Seq v =? sourceSeq then (Some v, st.2)
                 else if Seq v =? targetSeq then (st.1, Some v)
                 else st) (None, None) versions.

(** [SetLive(..., false)] with [ErrNotAHead] swallowed. *)
Definition markDead (msg docType id vid : string) : st S error unit := λ s,
  match SetLive docType id vid false s with
  | (Ok _, s) => (Ok tt, s)
  | (Err e, s) => if errors_Is e ErrNotAHead then (Ok tt, s) else (Err (Wrapf msg e), s)
  end.

Definition Merge (now : Z) (docType id : string) (sourceSeq targetSeq : Z) (data : string)
  : st S error Version :=
  versions ← ListVersions docType id;
  match versions with
  | [] => throw (Errorf "store: no history")
  | _ =>
      match merge_lookup sourceSeq targetSeq versions with
      | (None, _) => throw (Errorf "store: version not found")
      | (Some _, None) => throw (Errorf "store: version not found")
      | (Some source, Some target) =>
          markDead "store: merge: mark source dead" docType id (VersionID source);;
          (if bool_decide (VersionID target = VersionID source) then mret tt
           else markDead "store: merge: mark target dead" docType id (VersionID target));;
          wrap_err (Wrapf "store: merge")
            (AppendVersion now docType id data [VersionID source; VersionID target])
      end
  end.

Definition Branches (docType id : string) (liveOnly : bool) : st S error (list Version) :=
  versions ← ListVersions docType id;
  match versions with
  | [] => throw (Errorf "store: no history")
  | _ =>
      dag ← wrap_err (Wrapf "store: branches: load dag") (LoadDAG docType id);
      mret (filter (λ v, VersionID v ∈ version.Heads dag ∧ (liveOnly = true → Live v = true)) versions)
  end.

(** Live heads, counted the way [Abandon] does: per head, is there a live row? *)
Definition count_live_heads (versions : list Version) (headIDs : list string) : nat :=
  length (filter (λ h, Exists (λ v, VersionID v = h ∧ Live v = true) versions) headIDs).

Definition Abandon (docType id : string) (seq : Z) : st S error unit :=
  versions ← ListVersions docType id;
  match versions with
  | [] => throw (Errorf "store: no history")
  | _ =>
      match find_seq seq versions with
      | None => throw (Errorf "store: version not found")
      | Some target =>
          if negb (Live target) then mret tt
          else
            dag ← wrap_err (Wrapf "store: abandon: load dag") (LoadDAG docType id);
            match version.Children dag (VersionID target) with
            | _ :: _ => throw (Wrapf "has children" ErrNotAHead)
            | [] =>
                if (count_live_heads versions (version.Heads dag) <=? 1)%nat
                then throw ErrCannotAbandonLastLiveHead
                else wrap_err (Wrapf "store: abandon") (SetLive docType id (VersionID target) false)
            end
      end
  end.

Definition Revert (now : nat → Z) (docType id : string) (seq : Z) : st (VDS S) error Document :=
  versions ← on_vs (ListVersions docType id);
  match find_seq seq versions with
  | None => throw (Errorf "store: version not found")
  | Some target =>
      preHead ← on_vs (parentsFor docType id);
      (match preHead with
       | [h] => on_vs (markDead "store: revert: mark pre-revert head dead" docType id h)
       | _ => mret tt
       end);;
      Update now docType id (Data target)
  end.

Definition Prune (now : Z) (docType id : string) (policy : RetentionPolicy) : st S error PruneResult :=
  versions ← ListVersions docType id;
  match versions with
  | [] => throw (Errorf "store: no history")
  | _ =>
      dag ← wrap_err (Wrapf "store: prune: load dag") (LoadDAG docType id);
      let prunable := computePrunable versions dag policy now in
      if decide (prunable = ∅) then mret (mkPruneResult [] 0 0)
      else
        let ids := filter (.∈ prunable) (VersionID <$> versions) in
        freed ← DeleteVersions docType id ids;
        mret (mkPruneResult ids (Z.of_nat (length freed)) (foldl (λ n fb, n + fbBytes fb) 0 freed))
  end.

End Versioned.
