(* ===== verification/VersionedProps.v ===== *)
(** * Theorems about the versioned document store

    Everything here is proved against [VersionStoreLaws], the contract of
    versionstore.go, so it holds for the in-memory and the SQLite backend. *)

From S2P Require Import Prelude Fingerprint VersionDag VersionStore Prune DocumentStore Versioned.

Local Open Scope Z_scope.

(** ** Heads of a history *)

#[export] Instance has_child_dec l x : Decision (has_child l x).
Proof.
  refine (cast_if (decide (Exists (λ r, x ∈ rparents r) l))); unfold has_child;
    by rewrite <-Exists_exists.
Defined.

Definition is_live_head (l : list Row) (r : Row) : Prop :=
  r ∈ l ∧ ¬ has_child l (rvid r) ∧ Live (rv r) = true.

Definition has_live_head (l : list Row) : Prop := ∃ r, is_live_head l r.

(** What the dead mark of [Merge] and [Revert] does to a history. *)
Definition dead_if_head (x : string) (l : list Row) : list Row :=
  if decide (has_child l x) then l else set_live_row x false <$> l.

Lemma vids_dead_if_head x l : vids (dead_if_head x l) = vids l.
Proof. unfold dead_if_head. case_decide; [done|]. apply vids_set_live. Qed.

Lemma rows_wf_dead_if_head x l hw : rows_wf l hw → rows_wf (dead_if_head x l) hw.
Proof. intros Hl. unfold dead_if_head. case_decide; [done|]. by apply rows_wf_set_live. Qed.

(** The newest row of a well-formed history is a head; when it is live the
    history has a live head. *)
Lemma snoc_live_head l v ps hw :
  rows_wf (l ++ [mkRow v ps]) hw → Live v = true → has_live_head (l ++ [mkRow v ps]).
Proof.
  intros Hwf Hl. exists (mkRow v ps). split_and!; [set_solver|by eapply last_is_head|done].
Qed.

(** Heads other than the new row's parents stay heads. *)
Lemma snoc_keeps_head l r x :
  ¬ has_child l x → x ∉ rparents r → ¬ has_child (l ++ [r]) x.
Proof. intros H1 H2 (q&Hq&Hx). apply elem_of_app in Hq as [Hq|Hq]; [apply H1; by exists q|set_solver]. Qed.

Lemma list_find_seq l hw seq r :
  rows_wf l hw → find_seq seq (rv <$> l) = Some r ↔ ∃ q, q ∈ l ∧ rv q = r ∧ Seq (rv q) = seq.
Proof.
  intros Hwf. unfold find_seq. split.
  - intros (iv&Hf&[= <-])%bind_Some. destruct iv as [n v].
    apply list_find_Some in Hf as (Hn&Hs&_). rewrite list_lookup_fmap in Hn.
    apply fmap_Some in Hn as (q&Hq&->). exists q. split; [by eapply list_elem_of_lookup_2|done].
  - intros (q&Hq&<-&Hs).
    destruct (list_find (λ v, Seq v = seq) (rv <$> l)) as [[n v]|] eqn:E; simpl.
    + apply list_find_Some in E as (Hn&Hs'&_). rewrite list_lookup_fmap in Hn.
      apply fmap_Some in Hn as (q'&Hq'&->). do 2 f_equal. f_equal.
      eapply rows_wf_seq_inj; [exact Hwf|by eapply list_elem_of_lookup_2|done|congruence].
    + apply list_find_None in E. rewrite Forall_forall in E. exfalso.
      apply (E (rv q)); [|done]. apply list_elem_of_fmap. eauto.
Qed.

Lemma find_seq_None l seq : find_seq seq (rv <$> l) = None → ∀ q, q ∈ l → Seq (rv q) ≠ seq.
Proof.
  unfold find_seq. destruct (list_find _ _) eqn:E; [done|]. intros _ q Hq.
  apply list_find_None in E. rewrite Forall_forall in E. apply E, list_elem_of_fmap. eauto.
Qed.

(** With distinct arguments the switch of [Merge] finds both versions. *)
Lemma merge_lookup_app a b l v :
  merge_lookup a b (l ++ [v]) =
  (if Seq v =? a then (Some v, (merge_lookup a b l).2)
   else if Seq v =? b then ((merge_lookup a b l).1, Some v) else merge_lookup a b l).
Proof. unfold merge_lookup. by rewrite foldl_app. Qed.

Lemma merge_lookup_sound a b l :
  (∀ v, (merge_lookup a b l).1 = Some v → v ∈ l ∧ Seq v = a) ∧
  (∀ v, (merge_lookup a b l).2 = Some v → v ∈ l ∧ Seq v = b ∧ a ≠ b).
Proof.
  induction l as [|w l [IH1 IH2]] using rev_ind; [done|].
  rewrite merge_lookup_app. destruct (Z.eqb_spec (Seq w) a), (Z.eqb_spec (Seq w) b);
    simpl; split; intros v; try (intros [= <-]); set_solver.
Qed.

Lemma merge_lookup_self a l : (merge_lookup a a l).2 = None.
Proof.
  destruct (merge_lookup a a l).2 as [v|] eqn:E; [|done].
  apply (proj2 (merge_lookup_sound a a l)) in E. naive_solver.
Qed.

Lemma merge_lookup_complete a b l :
  a ≠ b → (∃ v, v ∈ l ∧ Seq v = a) → (∃ v, v ∈ l ∧ Seq v = b) →
  is_Some (merge_lookup a b l).1 ∧ is_Some (merge_lookup a b l).2.
Proof.
  intros Hab Ha Hb.
  assert (((∃ v, v ∈ l ∧ Seq v = a) → is_Some (merge_lookup a b l).1) ∧
          ((∃ v, v ∈ l ∧ Seq v = b) → is_Some (merge_lookup a b l).2)) as [H1 H2]; [|auto].
  clear Ha Hb. induction l as [|w l [IH1 IH2]] using rev_ind; [set_solver|].
  rewrite merge_lookup_app. destruct (Z.eqb_spec (Seq w) a), (Z.eqb_spec (Seq w) b); simpl;
    split; intros (v&Hv&Hs); eauto; try lia;
    apply elem_of_app in Hv as [Hv|Hv%list_elem_of_singleton]; eauto; subst; lia.
Qed.

Section Props.
Context `{HS : Hasher} `{GT : GoTime} `{JS : JSON} `{MO : MapOrder}.
Context {S : Type} `{VS : VersionStore S} `{L : !VersionStoreLaws S}.

#[local] Abbreviation hist s t i := (vs_hist s t i).
#[local] Abbreviation hrows s t i := (rows (vs_hist s t i)).

(** Two states agree on every document whose key differs. *)
Definition same_elsewhere (s s' : S) (t i : string) : Prop :=
  ∀ t' i', docKey t' i' ≠ docKey t i → vs_hist s' t' i' = vs_hist s t' i'.

Lemma same_elsewhere_trans s1 s2 s3 t i :
  same_elsewhere s1 s2 t i → same_elsewhere s2 s3 t i → same_elsewhere s1 s3 t i.
Proof. intros H1 H2 t' i' Hk. by rewrite (H2 t' i' Hk), (H1 t' i' Hk). Qed.

Lemma bind_list {B} s t i (k : list Version → st S error B) :
  vs_inv s → (ListVersions t i ≫= k) s = k (rv <$> hrows s t i) s.
Proof. intros Hi. unfold mbind, st_bind. by rewrite vs_list. Qed.

(** [k] with the no-history guard every caller starts with. *)
Lemma no_history_case {B} (l : list Row) (e : st S error B) (k : st S error B) :
  match rv <$> l with [] => e | _ => k end = match l with [] => e | _ => k end.
Proof. by destruct l. Qed.

Lemma markDead_spec msg s t i x :
  vs_inv s → x ∈ vids (hrows s t i) →
  ∃ s', markDead msg t i x s = (Ok tt, s') ∧ vs_inv s' ∧ same_elsewhere s s' t i ∧
        (∀ d, vs_fresh s t i d → vs_fresh s' t i d) ∧
        hist s' t i = mkHist (dead_if_head x (hrows s t i)) (hwm (hist s t i)).
Proof.
  intros Hi Hx. unfold markDead. destruct (SetLive t i x false s) as [r s'] eqn:E.
  pose proof (vs_set_live s t i x false r s' Hi E) as (Hi'&Hf&Ho&Hr).
  exists s'. destruct r as [[]|e].
  - destruct Hr as (_&Hn&Hh). split_and!; auto. unfold dead_if_head. by rewrite decide_False.
  - destruct Hr as (Hh&H1&H2). rewrite H2 by done. split_and!; auto.
    destruct (H1 (H2 Hx)) as [_ Hc]. unfold dead_if_head. rewrite decide_True by done.
    rewrite Hh. by destruct (hist s t i).
Qed.

Lemma parentsFor_spec s t i :
  vs_inv s →
  parentsFor t i s = (Ok (match last (hrows s t i) with None => [] | Some r => [rvid r] end), s).
Proof.
  intros Hi. unfold parentsFor. rewrite bind_list by done. unfold mret, st_ret. do 2 f_equal.
  rewrite fmap_last. by destruct (last (hrows s t i)).
Qed.

Definition has_history (s : S) (t i : string) : Prop := hrows s t i ≠ [].

(** ** Fork *)

(** Appending to the history of [(t, i)]: the outcome in one statement. *)
Lemma append_cases s now t i data parents r s' :
  vs_inv s → vs_fresh s t i data → AppendVersion now t i data parents s = (r, s') →
  vs_inv s' ∧ same_elsewhere s s' t i ∧
  match r with
  | Ok v => Data v = data ∧ Live v = true ∧ Seq v = hwm (hist s t i) + 1 ∧
            hrows s' t i = hrows s t i ++ [mkRow v parents] ∧ has_live_head (hrows s' t i)
  | Err e => hist s' t i = hist s t i
  end.
Proof.
  intros Hi Hf E. pose proof (vs_append s now t i data parents r s' Hi Hf E) as (Hi'&Ho&Hr).
  split_and!; [done|done|]. destruct r as [v|e]; [|done].
  destruct Hr as (_&_&Hv&Hh). rewrite Hh. split_and!; try by rewrite Hv. simpl.
  pose proof (vs_hist_wf s' t i Hi') as Hwf. rewrite Hh in Hwf. eapply snoc_live_head; [exact Hwf|by rewrite Hv].
Qed.

Definition fork_outcome (s s' : S) (t i : string) (fromSeq : Z) (r : res error Version) : Prop :=
  vs_inv s' ∧ same_elsewhere s s' t i ∧
  match r with
  | Err _ => hist s' t i = hist s t i
  | Ok v =>
      ∃ src, src ∈ hrows s t i ∧ Seq (rv src) = fromSeq ∧
        Data v = Data (rv src) ∧ Live v = true ∧
        hrows s' t i = hrows s t i ++ [mkRow v [rvid src]] ∧
        has_live_head (hrows s' t i) ∧
        ∀ h, ¬ has_child (hrows s t i) h → h ≠ rvid src → ¬ has_child (hrows s' t i) h
  end.

Lemma fork_cases s now t i fromSeq :
  vs_inv s → (∀ r, r ∈ hrows s t i → vs_fresh s t i (Data (rv r))) →
  let '(r, s') := Fork now t i fromSeq s in fork_outcome s s' t i fromSeq r.
Proof.
  intros Hinv Hfresh.
  unfold Fork. rewrite bind_list, no_history_case by done.
  destruct (hrows s t i) as [|r0 l0] eqn:El; [done|]. rewrite <-El in *. clear r0 l0 El.
  destruct (find_seq fromSeq _) as [source|] eqn:Ef; [|done].
  apply (list_find_seq _ _ _ _ (vs_hist_wf s t i Hinv)) in Ef as (src&Hsrc&<-&Hseq).
  unfold mbind, st_bind, wrap_err at 1. change (VersionID (rv src)) with (rvid src).
  rewrite (vs_snapshot s t i src Hinv Hsrc). simpl. unfold wrap_err.
  destruct (AppendVersion now t i (Data (rv src)) [rvid src] s) as [r s'] eqn:E.
  pose proof (append_cases _ _ _ _ _ _ _ _ Hinv (Hfresh _ Hsrc) E) as (Hi&Ho&Hr).
  destruct r as [v|e]; simpl; split_and!; try done.
  destruct Hr as (Hd&Hl&_&Hh&Hlh). exists src. split_and!; try done.
  intros h Hh1 Hh2. rewrite Hh. apply snoc_keeps_head; [done|]. simpl. set_solver.
Qed.

(** [Fork] either fails and changes no history, or appends one live version
    whose only parent is the version with sequence number [fromSeq] and whose
    data is that version's, byte for byte; every other head stays a head with
    its liveness, and the result has a live head. *)
Theorem fork_spec (s : S) (now : Z) (t i : string) (fromSeq : Z) (Hinv : vs_inv s)
    (Hfresh : ∀ r, r ∈ hrows s t i → vs_fresh s t i (Data (rv r))) :
  let '(r, s') := Fork now t i fromSeq s in fork_outcome s s' t i fromSeq r.
Proof. by apply fork_cases. Qed.

(** ** Merge *)

Definition merge_outcome (s s' : S) (t i : string) (src tgt : Row) (data : string)
    (r : res error Version) : Prop :=
  let marked := dead_if_head (rvid tgt) (dead_if_head (rvid src) (hrows s t i)) in
  vs_inv s' ∧ same_elsewhere s s' t i ∧
  match r with
  | Ok v => Data v = data ∧ Live v = true ∧ Seq v = hwm (hist s t i) + 1 ∧
            hrows s' t i = marked ++ [mkRow v [rvid src; rvid tgt]] ∧
            has_live_head (hrows s' t i)
  | Err _ => hrows s' t i = marked
  end.

Lemma merge_cases s now t i a b data src tgt :
  vs_inv s → a ≠ b → src ∈ hrows s t i → Seq (rv src) = a → tgt ∈ hrows s t i →
  Seq (rv tgt) = b → vs_fresh s t i data →
  let '(r, s') := Merge now t i a b data s in merge_outcome s s' t i src tgt data r.
Proof.
  intros Hinv Hab Hsrc Ha Htgt Hb Hfresh. unfold merge_outcome. cbv zeta. unfold Merge. rewrite bind_list, no_history_case by done.
  pose proof (vs_hist_wf s t i Hinv) as Hwf.
  assert (merge_lookup a b (rv <$> hrows s t i) = (Some (rv src), Some (rv tgt))) as Hml.
  { destruct (merge_lookup_complete a b (rv <$> hrows s t i)) as [[v Hv] [w Hw]]; [done|..].
    { exists (rv src). split; [apply list_elem_of_fmap; eauto|done]. }
    { exists (rv tgt). split; [apply list_elem_of_fmap; eauto|done]. }
    destruct (merge_lookup_sound a b (rv <$> hrows s t i)) as [H1 H2].
    pose proof (H1 _ Hv) as ((q&->&Hq)%list_elem_of_fmap&Hsq).
    pose proof (H2 _ Hw) as ((p&->&Hp)%list_elem_of_fmap&Hsp&_).
    destruct (merge_lookup _ _ _); simpl in *. rewrite Hv, Hw. do 2 f_equal; f_equal;
      (eapply rows_wf_seq_inj; [exact Hwf|done|done|congruence]). }
  destruct (hrows s t i) as [|r0 l0] eqn:El; [set_solver|]. rewrite <-El in *. clear r0 l0 El.
  rewrite Hml. change (VersionID (rv src)) with (rvid src). change (VersionID (rv tgt)) with (rvid tgt).
  assert (rvid tgt ≠ rvid src) as Hne.
  { intros E. apply Hab. rewrite <-Ha, <-Hb. do 2 f_equal. by eapply rows_wf_vid_inj. }
  unfold mbind, st_bind.
  destruct (markDead_spec "store: merge: mark source dead" s t i (rvid src) Hinv) as (s1&->&Hi1&Ho1&Hf1&Hh1).
  { by apply rvid_in_vids. }
  rewrite bool_decide_false by done.
  destruct (markDead_spec "store: merge: mark target dead" s1 t i (rvid tgt) Hi1) as (s2&->&Hi2&Ho2&Hf2&Hh2).
  { rewrite Hh1. simpl. rewrite vids_dead_if_head. by apply rvid_in_vids. }
  rewrite Hh1 in Hh2. simpl in Hh2. unfold wrap_err.
  destruct (AppendVersion now t i data [rvid src; rvid tgt] s2) as [r s'] eqn:E.
  pose proof (append_cases _ _ _ _ _ _ _ _ Hi2 (Hf2 _ (Hf1 _ Hfresh)) E) as (Hi&Ho&Hr).
  rewrite Hh2 in Hr. simpl in Hr.
  assert (same_elsewhere s s' t i) by (do 2 (eapply same_elsewhere_trans; eauto)).
  destruct r as [v|e]; simpl; (split; [done|]); (split; [done|]); [done|]. by rewrite Hr.
Qed.

(** [Merge] of two different versions of the document, when the backend
    accepts the merged payload, appends one live version with parents
    [[source, target]] in that order and the caller's data, marks the source and
    the target dead exactly if they were heads, and leaves everything else of
    the history unchanged. *)
Theorem merge_spec (s : S) (now : Z) (t i : string) (a b : Z) (data : string)
    (src tgt : Row) (Hinv : vs_inv s) (Hab : a ≠ b)
    (Hsrc : src ∈ hrows s t i) (Ha : Seq (rv src) = a)
    (Htgt : tgt ∈ hrows s t i) (Hb : Seq (rv tgt) = b)
    (Hfresh : vs_fresh s t i data) :
  let '(r, s') := Merge now t i a b data s in merge_outcome s s' t i src tgt data r.
Proof. by eapply merge_cases. Qed.

(** Merging a version with itself is always refused with "version not found"
    and changes nothing, although the code has a branch for it and its comment
    calls it a degenerate self-merge: the [sourceSeq] case of the lookup switch
    shadows the [targetSeq] case. *)
Theorem merge_self_refused (s : S) (now : Z) (t i : string) (a : Z) (data : string)
    (Hinv : vs_inv s) (Hne : has_history s t i) :
  Merge now t i a a data s = (Err (Errorf "store: version not found"), s).
Proof.
  unfold has_history in Hne. unfold Merge. rewrite bind_list, no_history_case by done.
  destruct (hrows s t i) as [|r0 l0] eqn:El; [done|]. rewrite <-El.
  pose proof (merge_lookup_self a (rv <$> hrows s t i)) as Hs.
  destruct (merge_lookup a a _) as [[v|] o]; simpl in Hs; subst; done.
Qed.

(** ** Abandon *)

Lemma bind_load_dag {B} f s t i (k : version.DAG → st S error B) :
  vs_inv s → hrows s t i ≠ [] → ∃ d s1, (wrap_err f (LoadDAG t i) ≫= k) s = k d s1 ∧
    dag_repr d (hrows s t i) ∧ vs_inv s1 ∧ ∀ t' i', hist s1 t' i' = hist s t' i'.
Proof.
  intros Hi Hne. destruct (vs_load_dag s t i Hi Hne) as (d&s1&E&Hd&Hi1&Hh).
  exists d, s1. split_and!; try done. unfold mbind, st_bind, wrap_err. by rewrite E.
Qed.

(** Every listed head is live or dead as its row says. *)
Lemma count_live_heads_other l d x :
  dag_repr d l → (1 < count_live_heads (rv <$> l) (version.Heads d))%nat →
  ∃ r, is_live_head l r ∧ rvid r ≠ x.
Proof.
  intros Hd Hc. unfold count_live_heads in Hc.
  set (F := filter _ (version.Heads d)) in Hc.
  assert (∀ h, h ∈ F → ∃ r, is_live_head l r ∧ rvid r = h) as HF.
  { intros h (He&Hh)%list_elem_of_filter. apply Exists_exists in He as (v&Hv&<-&Hl).
    apply list_elem_of_fmap in Hv as (r&->&Hr). exists r. split; [|done].
    split_and!; try done. by apply (repr_Heads d l) in Hh as [_ ?]. }
  assert (NoDup F) as Hnd by apply NoDup_filter, version.NoDup_Heads.
  destruct F as [|h1 [|h2 F']]; simpl in Hc; try lia.
  apply NoDup_cons in Hnd as [Hn _].
  destruct (HF h1 ltac:(set_solver)) as (r1&?&E1), (HF h2 ltac:(set_solver)) as (r2&?&E2).
  destruct (decide (rvid r1 = x)) as [E|]; [|eauto]. exists r2. split; [done|].
  rewrite E2. intros ->. apply Hn. rewrite <-E1, E. set_solver.
Qed.

Lemma is_live_head_set_dead l r x :
  is_live_head l r → rvid r ≠ x → is_live_head (set_live_row x false <$> l) r.
Proof.
  intros (Hr&Hn&Hl) Hx. split_and!; [|by rewrite has_child_set_live|done].
  apply list_elem_of_fmap. exists r. split; [|done]. unfold set_live_row. by rewrite decide_False.
Qed.

Definition abandon_outcome (s s' : S) (t i : string) (seq : Z) (r : res error unit) : Prop :=
  vs_inv s' ∧ same_elsewhere s s' t i ∧ has_live_head (hrows s' t i) ∧
  match r with
  | Err _ => hist s' t i = hist s t i
  | Ok _ =>
      ∃ q, q ∈ hrows s t i ∧ Seq (rv q) = seq ∧
        ((Live (rv q) = false ∧ hist s' t i = hist s t i) ∨
         (is_live_head (hrows s t i) q ∧
          hrows s' t i = set_live_row (rvid q) false <$> hrows s t i))
  end.

Lemma abandon_cases s t i seq :
  vs_inv s → has_live_head (hrows s t i) →
  let '(r, s') := Abandon t i seq s in abandon_outcome s s' t i seq r.
Proof.
  intros Hinv Hlive. unfold abandon_outcome.
  unfold Abandon. rewrite bind_list, no_history_case by done.
  destruct (hrows s t i) as [|r0 l0] eqn:El; [split_and!; try done; by rewrite El|].
  rewrite <-El in *. clear r0 l0 El.
  destruct (find_seq seq _) as [target|] eqn:Ef; [|done].
  apply (list_find_seq _ _ _ _ (vs_hist_wf s t i Hinv)) in Ef as (q&Hq&<-&Hseq).
  destruct (Live (rv q)) eqn:Elv; simpl; [|split_and!; try done; exists q; auto].
  match goal with |- context [(wrap_err ?f (LoadDAG t i) ≫= ?k) s] =>
    destruct (bind_load_dag f s t i k Hinv) as (d&s1&->&Hd&Hi1&Hh1); [by intros E; rewrite E in Hq; set_solver|] end.
  assert (same_elsewhere s s1 t i) as Ho1 by (intros t' i' _; apply Hh1).
  change (VersionID (rv q)) with (rvid q).
  destruct (version.Children d (rvid q)) as [|c cs] eqn:Ec; [|unfold throw; by rewrite Hh1].
  destruct (Nat.leb_spec (count_live_heads (rv <$> hrows s t i) (version.Heads d)) 1) as [|Hc];
    [unfold throw; by rewrite Hh1|].
  apply (repr_Children d (hrows s t i)) in Ec; [|done].
  destruct (count_live_heads_other _ _ (rvid q) Hd Hc) as (r1&Hr1&Hne).
  unfold wrap_err. destruct (SetLive t i (rvid q) false s1) as [r s'] eqn:E.
  pose proof (vs_set_live s1 t i (rvid q) false r s' Hi1 E) as (Hi'&_&Ho&Hr). rewrite !Hh1 in Hr.
  assert (same_elsewhere s s' t i) as Hos by (eapply same_elsewhere_trans; eauto).
  destruct r as [[]|e]; simpl.
  - destruct Hr as (_&_&Hh). rewrite Hh. simpl. split_and!; try done.
    + exists r1. by apply is_live_head_set_dead.
    + exists q. split_and!; try done. right. done.
  - destruct Hr as (Hh&_). by rewrite Hh.
Qed.

(** [Abandon] never leaves a document that has a live head without one.  It
    succeeds either on a version that is already dead, changing nothing, or by
    marking dead one live head of several; every failure leaves the history as
    it was. *)
Theorem abandon_spec (s : S) (t i : string) (seq : Z) (Hinv : vs_inv s)
    (Hlive : has_live_head (hrows s t i)) :
  let '(r, s') := Abandon t i seq s in abandon_outcome s s' t i seq r.
Proof. by apply abandon_cases. Qed.

(** ** Branches and Prune *)

(** The tips [Branches] reports for a history. *)
Definition branch_tips (l : list Row) (liveOnly : bool) : list Version :=
  rv <$> filter (λ r, ¬ has_child l (rvid r) ∧ (liveOnly = true → Live (rv r) = true)) l.

(** [Branches] lists exactly the heads of the history in sequence order, only
    the live ones on request, and leaves every history as it was. *)
Theorem branches_spec (s : S) (t i : string) (liveOnly : bool) (Hinv : vs_inv s)
    (Hne : has_history s t i) :
  ∃ s', Branches t i liveOnly s = (Ok (branch_tips (hrows s t i) liveOnly), s') ∧
    vs_inv s' ∧ ∀ t' i', hist s' t' i' = hist s t' i'.
Proof.
  unfold has_history in Hne. unfold Branches, branch_tips. rewrite bind_list, no_history_case by done.
  destruct (hrows s t i) as [|r0 l0] eqn:El; [done|]. rewrite <-El in *. clear r0 l0 El.
  match goal with |- context [(wrap_err ?f (LoadDAG t i) ≫= ?k) s] =>
    destruct (bind_load_dag f s t i k Hinv Hne) as (d&s1&->&Hd&Hi1&Hh1) end.
  exists s1. split_and!; try done. unfold mret, st_ret. do 2 f_equal. rewrite filter_fmap.
  f_equal. apply list_filter_iff'. intros r Hr.
  change (VersionID (rv r)) with (rvid r). rewrite (repr_Heads d (hrows s t i)) by done.
  pose proof (rvid_in_vids _ _ Hr). naive_solver.
Qed.

(** What the prune rule removes from a history, and what it must not. *)
Definition prune_safe (l : list Row) (R : list string) : Prop :=
  (∀ r, is_live_head l r → rvid r ∉ R) ∧
  (∀ r p, r ∈ l → p ∈ rparents r → p ∈ R → rvid r ∈ R).

Lemma has_live_head_filter l R :
  has_live_head l → prune_safe l R → has_live_head (filter (λ r, rvid r ∉ R) l).
Proof.
  intros (r&Hr&Hn&Hl) [Hs _]. exists r. assert (rvid r ∉ R) by by apply Hs.
  split_and!; [by apply list_elem_of_filter| |done].
  intros (q&Hq&Hin). apply Hn. exists q. apply list_elem_of_filter in Hq as [_ ?]. done.
Qed.

(** Anything a retained row descends from is retained. *)
Lemma prune_safe_parents l R r p :
  prune_safe l R → r ∈ filter (λ r, rvid r ∉ R) l → p ∈ rparents r → p ∉ R.
Proof. intros [_ Hc] [Hn Hr]%list_elem_of_filter Hp HR. by apply Hn, (Hc r p). Qed.

Lemma live_heads_repr l d hw r :
  rows_wf l hw → dag_repr d l → is_live_head l r → rvid r ∈ live_heads (rv <$> l) d.
Proof.
  intros Hwf Hd (Hr&Hn&Hl). apply elem_of_live_heads.
  { rewrite <-list_fmap_compose. by eapply (rows_wf_NoDup l). }
  split; [apply (repr_Heads d l); [done|]; split; [by apply rvid_in_vids|done]|].
  exists (rv r). split_and!; try done. apply list_elem_of_fmap. eauto.
Qed.

Lemma computePrunable_safe l d hw policy now :
  rows_wf l hw → dag_repr d l →
  let R := filter (.∈ computePrunable (rv <$> l) d policy now) (VersionID <$> (rv <$> l)) in
  prune_safe l R ∧ ∀ x, x ∈ R ↔ x ∈ computePrunable (rv <$> l) d policy now.
Proof.
  intros Hwf Hd R.
  assert (∀ x, x ∈ R ↔ x ∈ computePrunable (rv <$> l) d policy now) as HR.
  { intros x. unfold R. rewrite list_elem_of_filter. split; [tauto|]. intros Hx. split; [done|].
    eapply computePrunable_known; [apply Hd|exact Hx]. }
  split; [|done]. split.
  - intros r Hr. rewrite HR. eapply computePrunable_spares; [apply Hd| |reflexivity].
    by eapply live_heads_repr.
  - intros r p Hr Hp. rewrite !HR. intros Hx. eapply computePrunable_closed; [apply Hd|exact Hx|].
    apply (repr_parent d l); eauto.
Qed.

Definition prune_outcome (s s' : S) (t i : string) (R : list string) : Prop :=
  vs_inv s' ∧ same_elsewhere s s' t i ∧
  R = filter (.∈ R) (vids (hrows s t i)) ∧ prune_safe (hrows s t i) R ∧
  hist s' t i = mkHist (filter (λ r, rvid r ∉ R) (hrows s t i)) (hwm (hist s t i)) ∧
  has_live_head (hrows s' t i) ∧
  (∀ r p, r ∈ hrows s' t i → p ∈ rparents r → p ∈ vids (hrows s' t i)).

Lemma prune_cases s now t i policy :
  vs_inv s → has_live_head (hrows s t i) →
  ∃ out s', Prune now t i policy s = (Ok out, s') ∧ prune_outcome s s' t i (VersionsRemoved out).
Proof.
  intros Hinv Hlive. unfold prune_outcome.
  pose proof (vs_hist_wf s t i Hinv) as Hwf. unfold hist_wf in Hwf.
  assert (hrows s t i ≠ []) as Hne by (intros E; rewrite E in Hlive; destruct Hlive as (?&?&_); set_solver).
  unfold Prune. rewrite bind_list, no_history_case by done.
  destruct (hrows s t i) as [|r0 l0] eqn:El; [done|]. rewrite <-El in *. clear r0 l0 El.
  match goal with |- context [(wrap_err ?f (LoadDAG t i) ≫= ?k) s] =>
    destruct (bind_load_dag f s t i k Hinv Hne) as (d&s1&->&Hd&Hi1&Hh1) end.
  assert (same_elsewhere s s1 t i) as Ho1 by (intros t' i' _; apply Hh1).
  destruct (computePrunable_safe _ _ _ policy now Hwf Hd) as [Hsafe HR].
  set (P := computePrunable _ _ _ _) in *. case_decide as HP.
  - exists (mkPruneResult [] 0 0), s1. cbn [VersionsRemoved]. rewrite Hh1.
    assert (filter (λ r, rvid r ∉ []) (hrows s t i) = hrows s t i) as ->.
    { apply list_filter_all. intros r _. set_solver. }
    split_and!; try done.
    + by rewrite list_filter_none by set_solver.
    + split; set_solver.
    + by destruct (hist s t i).
    + intros r p. by eapply rows_wf_parent_known.
  - set (R := filter _ _) in *.
    destruct (vs_delete_versions s1 t i R Hi1) as (freed&s2&E&Hi2&Hh2&Ho2); rewrite ?Hh1.
    { intros ER. apply HP. apply set_eq. intros x. rewrite <-HR, ER. set_solver. }
    { intros x [_ Hx]%list_elem_of_filter. by rewrite <-list_fmap_compose in Hx. }
    { apply Hsafe. }
    { destruct Hlive as (r&Hr). exists r. split; [apply Hr|]. by apply Hsafe. }
    unfold mbind, st_bind. rewrite E. eexists _, s2. split; [reflexivity|]. simpl.
    rewrite Hh2, Hh1. simpl. split_and!; try done.
    + by eapply same_elsewhere_trans.
    + unfold R at 1. rewrite <-list_fmap_compose. apply list_filter_iff'. intros x _. by rewrite HR.
    + by apply has_live_head_filter.
    + intros r p Hr Hp. pose proof (prune_safe_parents _ _ _ _ Hsafe Hr Hp) as Hn.
      apply list_elem_of_filter in Hr as [_ Hr].
      pose proof (rows_wf_parent_known _ _ _ _ Hwf Hr Hp) as (q&Hq&<-)%elem_of_vids.
      apply rvid_in_vids, list_elem_of_filter. done.
Qed.

(** C1. [Prune] on a document with a live head always succeeds.  It reports the
    removed versions oldest first, removes exactly those rows and nothing else,
    never touches a live head, never removes the parent of a version it keeps
    (so no parent edge is left dangling), and a live head remains. *)
Theorem prune_spec (s : S) (now : Z) (t i : string) (policy : RetentionPolicy)
    (Hinv : vs_inv s) (Hlive : has_live_head (hrows s t i)) :
  ∃ out s', Prune now t i policy s = (Ok out, s') ∧ prune_outcome s s' t i (VersionsRemoved out).
Proof. by apply prune_cases. Qed.

End Props.
