(* ===== verification/VersionedWrites.v ===== *)
(** * Theorems about the writes of the versioned document store

    [CreateAndVersion], [UpdateAndVersion], [UpdateAndVersionIfMatch],
    [Delete] and [Revert] touch the documents table and the version store
    together.  Each theorem covers both code paths: the plain one ([tx = None])
    and the one that runs inside a transaction, for any backend whose
    transactional methods satisfy [TxLaws]. *)

From stdpp Require Import pretty.
From S2P Require Import Prelude Fingerprint VersionDag VersionStore Prune DocumentStore Versioned VersionedProps.

Local Open Scope Z_scope.

(** ** What the documents table does *)

Section Docs.
Context `{HS : Hasher} `{GT : GoTime} `{JS : JSON}.

(** The row [updateExec] writes. *)
Definition updated_doc (now : Z) (data : string) (d : Document) : Document :=
  mkDoc (dType d) (dID d) data (dCreatedAt d) (FormatNano now).

Lemma doc_Update_run now t i data db :
  doc_Update now t i data db =
  match db !! (t, i) with
  | None => (Err (Errorf "store: update: not found"), db)
  | Some d => (Ok (updated_doc now data d), <[(t, i) := updated_doc now data d]> db)
  end.
Proof.
  unfold doc_Update, updateExec, doc_Get, mbind, st_bind.
  destruct (db !! (t, i)) as [d|]; [|done]. by rewrite lookup_insert_eq.
Qed.

End Docs.

(** ** The contract of the transactional methods *)

Class TxLaws {S : Type} `{VL : VersionStoreLaws S} (T : TxCapable S) := {
  (* nothing done yet: rolling back restores the store *)
  tx_rollback_self s : vs_inv s → tx_rollback s s = s;

  tx_parents s t i :
    vs_inv s →
    parentsForTx t i s =
      (Ok (match last (rows (vs_hist s t i)) with None => [] | Some r => [rvid r] end), s);

  tx_append s now t i data parents r s' :
    vs_inv s → vs_fresh s t i data → appendVersionTx now t i data parents s = (r, s') →
    match r with
    | Ok v =>
        vs_inv s' ∧ same_elsewhere s s' t i ∧
        Data v = data ∧ Live v = true ∧ Seq v = hwm (vs_hist s t i) + 1 ∧
        vs_hist s' t i = mkHist (rows (vs_hist s t i) ++ [mkRow v parents]) (Seq v)
    | Err _ =>
        vs_inv (tx_rollback s s') ∧
        ∀ t' i', vs_hist (tx_rollback s s') t' i' = vs_hist s t' i'
    end;

  tx_delete s t i :
    vs_inv s → ∃ s', deleteHistoryTx t i s = (Ok tt, s') ∧ vs_inv s' ∧
      vs_hist s' t i = no_hist ∧ same_elsewhere s s' t i;
}.

Section Writes.
Context `{HS : Hasher} `{GT : GoTime} `{JS : JSON} `{MO : MapOrder}.
Context {S : Type} `{VS : VersionStore S} `{L : !VersionStoreLaws S}.

#[local] Abbreviation hist s t i := (vs_hist (vstore s) t i).
#[local] Abbreviation hrows s t i := (rows (vs_hist (vstore s) t i)).

Definition tx_ok (tx : option (TxCapable S)) : Prop := ∀ T, tx = Some T → TxLaws T.

Definition newest (l : list Row) : list string :=
  match last l with None => [] | Some r => [rvid r] end.

(** The history gained one live version with the given data and parents. *)
Definition appended_version (s s' : VDS S) (t i data : string) (parents : list string) (v : Version) : Prop :=
  Data v = data ∧ Live v = true ∧ Seq v = hwm (hist s t i) + 1 ∧
  hist s' t i = mkHist (hrows s t i ++ [mkRow v parents]) (Seq v).

Lemma appended_live_head s s' t i data parents v :
  vs_inv (vstore s') → appended_version s s' t i data parents v → has_live_head (hrows s' t i).
Proof.
  intros Hi (_&Hl&_&Hh). pose proof (vs_hist_wf (vstore s') t i Hi) as Hwf. rewrite Hh in *.
  by eapply snoc_live_head.
Qed.

(** Recording a version on either path: the plain append, or the append inside
    the transaction that began in [s0]. *)
Lemma append_plain d s now t i data parents msg :
  vs_inv s → vs_fresh s t i data →
  let '(r, s') := wrap_err (Wrapf msg) (on_vs (AppendVersion now t i data parents)) (mkVDS d s) in
  docs s' = d ∧ vs_inv (vstore s') ∧ same_elsewhere s (vstore s') t i ∧
  match r with
  | Ok v => appended_version (mkVDS d s) s' t i data parents v
  | Err _ => vs_hist (vstore s') t i = vs_hist s t i
  end.
Proof.
  intros Hi Hf. unfold wrap_err, on_vs. cbn [vstore docs].
  destruct (AppendVersion now t i data parents s) as [r s'] eqn:E. simpl.
  pose proof (vs_append s now t i data parents r s' Hi Hf E) as (Hi'&Ho&Hr).
  destruct r as [v|e]; simpl; split_and!; try done.
  destruct Hr as (_&_&Hv&Hh). by split_and!; try by rewrite Hv.
Qed.

Lemma append_tx (T : TxCapable S) `{!TxLaws T} d s now t i data parents msg :
  vs_inv s → vs_fresh s t i data →
  let '(r, s') := wrap_err (Wrapf msg) (on_vs (appendVersionTx now t i data parents)) (mkVDS d s) in
  docs s' = d ∧
  match r with
  | Ok v => vs_inv (vstore s') ∧ same_elsewhere s (vstore s') t i ∧
            appended_version (mkVDS d s) s' t i data parents v
  | Err _ => vs_inv (tx_rollback s (vstore s')) ∧
             ∀ t' i', vs_hist (tx_rollback s (vstore s')) t' i' = vs_hist s t' i'
  end.
Proof.
  intros Hi Hf. unfold wrap_err, on_vs. cbn [vstore docs].
  destruct (appendVersionTx now t i data parents s) as [r s'] eqn:E. simpl.
  pose proof (tx_append s now t i data parents r s' Hi Hf E) as Hr.
  destruct r as [v|e]; simpl; split_and!; try done; naive_solver.
Qed.

(** ** Update *)

(** What the write of [data] to document [(t, i)] may do: replace the document
    and append a version on top of the newest one, or fail. *)
Definition write_outcome (tx : option (TxCapable S)) (s s' : VDS S) (now : nat → Z) (t i data : string)
    (r : res error (Document * Version)) : Prop :=
  vs_inv (vstore s') ∧ same_elsewhere (vstore s) (vstore s') t i ∧
  match r with
  | Ok (doc, v) =>
      ∃ old, docs s !! (t, i) = Some old ∧ doc = updated_doc (now 0%nat) data old ∧
        docs s' = <[(t, i) := doc]> (docs s) ∧
        appended_version s s' t i data (newest (hrows s t i)) v
  | Err _ => hist s' t i = hist s t i ∧ (is_Some tx → docs s' = docs s)
  end.

Lemma same_elsewhere_refl (s : S) t i : same_elsewhere s s t i.
Proof. intros t' i' _. done. Qed.

(** The body [updateTx] and [updateTxIfMatch] share once the parents are read. *)
Lemma tx_write (T : TxCapable S) `{!TxLaws T} s now t i data e msg :
  vs_inv (vstore s) → vs_fresh (vstore s) t i data →
  let m := doc ← on_docs (updateConn (now 0%nat) t i data);
           v ← wrap_err (Wrapf msg)
                 (on_vs (appendVersionTx (now 1%nat) t i data (newest (hrows s t i))));
           mret (doc, v) in
  let '(r, s') := in_tx T (if e : bool then throw ErrPreconditionFailed else m) s in
  write_outcome (Some T) s s' now t i data r.
Proof.
  intros Hi Hf. cbv zeta. unfold in_tx. destruct e.
  { unfold throw, write_outcome. cbn [vstore docs]. rewrite tx_rollback_self by done. done. }
  unfold mbind, st_bind, on_docs at 1, updateConn. rewrite doc_Update_run.
  destruct (docs s !! (t, i)) as [old|] eqn:Ed.
  2:{ unfold write_outcome. cbn [vstore docs]. rewrite tx_rollback_self by done. done. }
  pose proof (append_tx T (<[(t, i) := updated_doc (now 0%nat) data old]> (docs s)) (vstore s) (now 1%nat) t i data
                (newest (hrows s t i)) msg Hi Hf) as Ha.
  destruct (wrap_err _ _ _) as [[v|err] s1]; destruct Ha as [Hd Hr]; unfold write_outcome, mret, st_ret.
  - destruct Hr as (Hi1&Ho&Hv). split_and!; try done. exists old. by split_and!.
  - destruct Hr as (Hi1&Hh). cbn [vstore docs]. split_and!; try done. intros t' i' _. apply Hh.
Qed.

(** [updateTx] is the shared body: reading the parents after the document write
    gives what reading them before would. *)
Lemma updateTx_run (T : TxCapable S) `{!TxLaws T} s now t i data :
  vs_inv (vstore s) →
  updateTx T now t i data s =
  in_tx T (doc ← on_docs (updateConn (now 0%nat) t i data);
           v ← wrap_err (Wrapf "store: record version")
                 (on_vs (appendVersionTx (now 1%nat) t i data (newest (hrows s t i))));
           mret (doc, v)) s.
Proof.
  intros Hi. unfold updateTx, in_tx, mbind, st_bind, on_docs, updateConn. rewrite doc_Update_run.
  destruct (docs s !! (t, i)) as [old|]; [|done].
  unfold on_vs at 1. cbn [vstore docs]. by rewrite tx_parents.
Qed.

Lemma update_cases tx s now t i data :
  tx_ok tx → vs_inv (vstore s) → vs_fresh (vstore s) t i data →
  let '(r, s') := UpdateAndVersion tx now t i data s in write_outcome tx s s' now t i data r.
Proof.
  intros Htx Hi Hf. unfold UpdateAndVersion. destruct tx as [T|].
  - pose proof (Htx T eq_refl) as HT. rewrite updateTx_run by done.
    apply (tx_write T s now t i data false "store: record version" Hi Hf).
  - unfold mbind, st_bind, on_docs at 1. rewrite doc_Update_run.
    destruct (docs s !! (t, i)) as [old|] eqn:Ed; [|done].
    unfold on_vs at 1. cbn [vstore docs]. rewrite parentsFor_spec by done.
    pose proof (append_plain (<[(t, i) := updated_doc (now 0%nat) data old]> (docs s)) (vstore s) (now 1%nat) t i data
                  (newest (hrows s t i)) "store: record version" Hi Hf) as Ha.
    fold (newest (hrows s t i)).
    destruct (wrap_err _ _ _) as [[v|err] s1]; destruct Ha as (Hd&Hi1&Ho&Hr);
      unfold write_outcome, mret, st_ret; split_and!; try done.
    exists old. by split_and!.
Qed.

(** [UpdateAndVersion] on either path: success replaces the document's data
    (type, id and creation time kept) and appends one live version with that
    data whose only parent is the newest version, so the document has a live
    head; failure leaves the history untouched, and on the transactional path
    the documents table as well. *)
Theorem update_spec (tx : option (TxCapable S)) (s : VDS S) (now : nat → Z) (t i data : string)
    (Htx : tx_ok tx) (Hinv : vs_inv (vstore s)) (Hfresh : vs_fresh (vstore s) t i data) :
  let '(r, s') := UpdateAndVersion tx now t i data s in
  write_outcome tx s s' now t i data r ∧ (is_ok r = true → has_live_head (hrows s' t i)).
Proof.
  pose proof (update_cases tx s now t i data Htx Hinv Hfresh) as H.
  destruct (UpdateAndVersion _ _ _ _ _ _) as [[[doc v]|e] s']; (split; [done|]); [intros _|done].
  destruct H as (Hi&_&old&_&_&_&Hv). by eapply appended_live_head.
Qed.

(** The version id a caller sees as current. *)
Definition current_id (l : list Row) : string :=
  match newest l with [] => "" | p :: _ => p end.

(** Both ways of testing the precondition, and the write they guard. *)
Lemma update_if_match_run tx s now t i data expected :
  tx_ok tx → vs_inv (vstore s) →
  UpdateAndVersionIfMatch tx now t i data expected s =
  if decide (expected = "" ∨ current_id (hrows s t i) = expected)
  then UpdateAndVersion tx now t i data s else (Err ErrPreconditionFailed, s).
Proof.
  intros Htx Hi. unfold UpdateAndVersionIfMatch.
  destruct (decide (expected = "")) as [E|E]; [rewrite decide_True by auto; done|].
  assert (∀ b, bool_decide (current_id (hrows s t i) = expected) = b →
    (if decide (expected = "" ∨ current_id (hrows s t i) = expected)
     then UpdateAndVersion tx now t i data s else (Err ErrPreconditionFailed, s)) =
    if b then UpdateAndVersion tx now t i data s else (Err ErrPreconditionFailed, s)) as Hb.
  { intros [|] Hb; [apply bool_decide_eq_true in Hb; rewrite decide_True by auto; done|].
    apply bool_decide_eq_false in Hb. rewrite decide_False by naive_solver. done. }
  rewrite (Hb _ eq_refl). clear Hb. destruct tx as [T|].
  - pose proof (Htx T eq_refl) as HT. simpl. rewrite updateTx_run by done.
    unfold updateTxIfMatch, in_tx, mbind at 1, st_bind at 1, on_vs at 1. rewrite tx_parents by done.
    fold (newest (hrows s t i)). fold (current_id (hrows s t i)).
    destruct (bool_decide _); simpl; [by destruct s|].
    rewrite tx_rollback_self by done. by destruct s.
  - unfold mbind at 1, st_bind at 1, on_vs at 1, CurrentVersionID, mbind, st_bind.
    rewrite parentsFor_spec by done. unfold mret, st_ret.
    fold (newest (hrows s t i)). fold (current_id (hrows s t i)).
    destruct (bool_decide _); simpl; by destruct s.
Qed.

(** The conditional update is optimistic concurrency control: with a
    non-empty expectation that is not the newest version's id it fails with
    [ErrPreconditionFailed] and changes neither a document nor a version; in
    every other case it is the unconditional update, although the transactional
    path reads the head before the document write and the plain update after. *)
Theorem update_if_match_spec (tx : option (TxCapable S)) (s : VDS S) (now : nat → Z)
    (t i data expected : string) (Htx : tx_ok tx) (Hinv : vs_inv (vstore s)) :
  UpdateAndVersionIfMatch tx now t i data expected s =
  if decide (expected = "" ∨ current_id (hrows s t i) = expected)
  then UpdateAndVersion tx now t i data s else (Err ErrPreconditionFailed, s).
Proof. by apply update_if_match_run. Qed.

(** ** Create and Delete *)

(** The id a new document gets. *)
Definition issued_id (now : nat → Z) (t data : string) : string :=
  if decide (extractID data = "") then hash_short (t +:+ "-" +:+ pretty (now 0%nat)) 12 else extractID data.

Definition new_doc (now : nat → Z) (t data : string) : Document :=
  mkDoc t (issued_id now t data) data (FormatNano (now 1%nat)) (FormatNano (now 1%nat)).

Lemma createExec_run now t data db :
  createExec now t data db =
  match db !! (t, issued_id now t data) with
  | Some _ => (Err (Errorf "store: create: constraint failed"), db)
  | None => (Ok (new_doc now t data), <[(t, issued_id now t data) := new_doc now t data]> db)
  end.
Proof. done. Qed.

Definition create_outcome (tx : option (TxCapable S)) (s s' : VDS S) (now : nat → Z) (t data : string)
    (r : res error (Document * Version)) : Prop :=
  let id := issued_id now t data in
  vs_inv (vstore s') ∧ same_elsewhere (vstore s) (vstore s') t id ∧
  match r with
  | Ok (doc, v) =>
      docs s !! (t, id) = None ∧ doc = new_doc now t data ∧
      docs s' = <[(t, id) := doc]> (docs s) ∧
      appended_version s s' t id data [] v ∧ has_live_head (hrows s' t id)
  | Err _ => hist s' t id = hist s t id ∧ (is_Some tx → docs s' = docs s)
  end.

Lemma create_cases tx s now t data :
  tx_ok tx → vs_inv (vstore s) → vs_fresh (vstore s) t (issued_id now t data) data →
  let '(r, s') := CreateAndVersion tx now t data s in create_outcome tx s s' now t data r.
Proof.
  intros Htx Hinv Hfresh. unfold create_outcome. cbv zeta. unfold CreateAndVersion. destruct tx as [T|].
  - pose proof (Htx T eq_refl) as HT. unfold createTx, in_tx, mbind, st_bind, on_docs, createConn.
    rewrite createExec_run. destruct (docs s !! _) as [old|] eqn:Ed.
    { cbn [vstore docs]. rewrite tx_rollback_self by done. done. }
    pose proof (append_tx T (<[(t, issued_id now t data) := new_doc now t data]> (docs s)) (vstore s)
                  (now 2%nat) t _ data [] "store: record initial version" Hinv Hfresh) as Ha.
    cbn [dType dID new_doc]. destruct (wrap_err _ _ _) as [[v|err] s1]; destruct Ha as [Hd Hr];
      unfold mret, st_ret.
    + destruct Hr as (Hi1&Ho&Hv). split_and!; try done. by eapply appended_live_head.
    + destruct Hr as (Hi1&Hh). cbn [vstore docs]. split_and!; try done. intros t' i' _. apply Hh.
  - unfold mbind, st_bind, on_docs, doc_Create. rewrite createExec_run.
    destruct (docs s !! _) as [old|] eqn:Ed; [done|].
    pose proof (append_plain (<[(t, issued_id now t data) := new_doc now t data]> (docs s)) (vstore s)
                  (now 2%nat) t _ data [] "store: record initial version" Hinv Hfresh) as Ha.
    cbn [dType dID new_doc]. destruct (wrap_err _ _ _) as [[v|err] s1];
      destruct Ha as (Hd&Hi1&Ho&Hr); unfold mret, st_ret; split_and!; try done.
    by eapply appended_live_head.
Qed.

(** [CreateAndVersion] on either path: it succeeds only for a new key, with
    the id taken from the payload or generated, stores the document and starts
    its history with a live version without parents; failure leaves histories
    as they were, and on the transactional path the documents table too. *)
Theorem create_spec (tx : option (TxCapable S)) (s : VDS S) (now : nat → Z) (t data : string)
    (Htx : tx_ok tx) (Hinv : vs_inv (vstore s))
    (Hfresh : vs_fresh (vstore s) t (issued_id now t data) data) :
  let '(r, s') := CreateAndVersion tx now t data s in create_outcome tx s s' now t data r.
Proof. by apply create_cases. Qed.

Lemma delete_cases tx s t i :
  tx_ok tx → vs_inv (vstore s) →
  match docs s !! (t, i) with
  | None => Delete tx t i s = (Err (Errorf "store: delete: not found"), s)
  | Some _ =>
      ∃ s', Delete tx t i s = (Ok tt, s') ∧ docs s' = delete (t, i) (docs s) ∧
        vs_inv (vstore s') ∧ hist s' t i = no_hist ∧ same_elsewhere (vstore s) (vstore s') t i
  end.
Proof.
  intros Htx Hinv.
  destruct (docs s !! (t, i)) as [d|] eqn:Ed; unfold Delete; destruct tx as [T|];
    try pose proof (Htx T eq_refl) as HT;
    unfold deleteTx, in_tx, mbind, st_bind, on_docs, doc_Delete, deleteConn, deleteExec; rewrite Ed.
  - destruct (tx_delete (vstore s) t i Hinv) as (s'&E&Hi&Hh&Ho). unfold on_vs. cbn [vstore docs].
    rewrite E. exists (mkVDS (delete (t, i) (docs s)) s'). by split_and!.
  - destruct (vs_delete_history (vstore s) t i Hinv) as (s'&E&Hi&Hh&Ho). unfold on_vs. cbn [vstore docs].
    rewrite E. exists (mkVDS (delete (t, i) (docs s)) s'). by split_and!.
  - cbn [vstore docs]. rewrite tx_rollback_self by done. by destruct s.
  - by destruct s.
Qed.

(** [Delete] on either path refuses a document that does not exist, changing
    nothing; otherwise it succeeds, removes exactly that document and empties
    its history, so that its sequence numbers start over. *)
Theorem delete_spec (tx : option (TxCapable S)) (s : VDS S) (t i : string)
    (Htx : tx_ok tx) (Hinv : vs_inv (vstore s)) :
  match docs s !! (t, i) with
  | None => Delete tx t i s = (Err (Errorf "store: delete: not found"), s)
  | Some _ =>
      ∃ s', Delete tx t i s = (Ok tt, s') ∧ docs s' = delete (t, i) (docs s) ∧
        vs_inv (vstore s') ∧ hist s' t i = no_hist ∧ same_elsewhere (vstore s) (vstore s') t i
  end.
Proof. by apply delete_cases. Qed.

(** ** Revert *)

Lemma bind_on_vs {A B} (m : st S error A) (k : A → st (VDS S) error B) s a v :
  m (vstore s) = (Ok a, v) → (on_vs m ≫= k) s = k a (mkVDS (docs s) v).
Proof. intros E. unfold mbind, st_bind, on_vs. by rewrite E. Qed.

Definition kill (r : Row) : Row := mkRow (with_live false (rv r)) (rparents r).

Lemma dead_if_head_last l pre hw :
  rows_wf (l ++ [pre]) hw → dead_if_head (rvid pre) (l ++ [pre]) = l ++ [kill pre].
Proof.
  intros Hwf. unfold dead_if_head. rewrite decide_False by by eapply last_is_head.
  rewrite fmap_app. simpl. unfold set_live_row at 2. rewrite decide_True by done. f_equal.
  rewrite <-(list_fmap_id l) at 2. apply list_fmap_ext_in. intros r Hr. unfold set_live_row.
  rewrite decide_False; [done|]. apply rows_wf_snoc_inv in Hwf as [Hn _]. intros E. apply Hn.
  rewrite <-E. by apply rvid_in_vids.
Qed.

Definition revert_outcome (s s' : VDS S) (t i : string) (target : Version) (r : res error Document) : Prop :=
  ∃ l pre, hrows s t i = l ++ [pre] ∧
  vs_inv (vstore s') ∧ same_elsewhere (vstore s) (vstore s') t i ∧
  match r with
  | Ok doc =>
      dData doc = Data target ∧ docs s' = <[(t, i) := doc]> (docs s) ∧
      has_live_head (hrows s' t i) ∧
      ∃ v, Data v = Data target ∧ Live v = true ∧ Seq v = hwm (hist s t i) + 1 ∧
        hrows s' t i = l ++ [kill pre; mkRow v [rvid pre]]
  | Err _ => hrows s' t i = l ++ [kill pre]
  end.

Lemma revert_cases tx s now t i seq :
  tx_ok tx → vs_inv (vstore s) →
  (∀ r, r ∈ hrows s t i → vs_fresh (vstore s) t i (Data (rv r))) →
  match find_seq seq (rv <$> hrows s t i) with
  | None => Revert tx now t i seq s = (Err (Errorf "store: version not found"), s)
  | Some target =>
      let '(r, s') := Revert tx now t i seq s in revert_outcome s s' t i target r
  end.
Proof.
  intros Htx Hinv Hfresh.
  unfold Revert. rewrite (bind_on_vs _ _ _ _ _ (vs_list _ t i Hinv)).
  pose proof (vs_hist_wf (vstore s) t i Hinv) as Hwf. unfold hist_wf in Hwf.
  destruct (find_seq seq _) as [target|] eqn:Ef; [|by destruct s].
  apply (list_find_seq _ _ _ _ Hwf) in Ef as (q&Hq&<-&Hseq).
  destruct (exists_last (l := hrows s t i)) as (l&pre&El).
  { intros E. rewrite E in Hq. set_solver. }
  rewrite (bind_on_vs _ _ (mkVDS _ _) _ _ (parentsFor_spec _ t i Hinv)), El, last_snoc.
  destruct (markDead_spec "store: revert: mark pre-revert head dead" (vstore s) t i (rvid pre) Hinv)
    as (s1&E1&Hi1&Ho1&Hf1&Hh1).
  { rewrite El. apply rvid_in_vids. set_solver. }
  rewrite (bind_on_vs _ _ (mkVDS _ _) _ _ E1).
  rewrite El in Hh1. rewrite (dead_if_head_last l pre (hwm (hist s t i))) in Hh1 by by rewrite <-El.
  pose proof (update_cases tx (mkVDS (docs s) s1) now t i (Data (rv q)) Htx Hi1 (Hf1 _ (Hfresh q Hq))) as Hu.
  unfold Update, mbind, st_bind. destruct (UpdateAndVersion _ _ _ _ _ _) as [r s'].
  destruct Hu as (Hi'&Ho'&Hr). cbn [vstore docs] in *. rewrite Hh1 in Hr.
  assert (same_elsewhere (vstore s) (vstore s') t i) as Hos by by eapply same_elsewhere_trans.
  destruct r as [[doc v]|e]; exists l, pre; split_and!; try done.
  - destruct Hr as (old&_&->&_&_). done.
  - by destruct Hr as (old&_&_&?&_).
  - destruct Hr as (old&_&_&_&Hv). by eapply appended_live_head.
  - destruct Hr as (old&_&_&_&Hd&Hl&Hs&Hh). exists v. cbn [vstore] in Hs, Hh. rewrite Hh1 in Hs, Hh. simpl in *.
    split_and!; try done. rewrite Hh. simpl. rewrite <-app_assoc. simpl. unfold newest.
    rewrite last_snoc. done.
  - destruct Hr as [Hh _]. by rewrite Hh.
Qed.

(** [Revert] to an existing version never stumbles over its own head check.
    Success sets the document to that version's data, marks the newest version
    dead and appends a live version with the data on top of it, so a live head
    exists; failure after the dead mark leaves exactly that mark behind, and a
    sequence number that is not in the history changes nothing. *)
Theorem revert_spec (tx : option (TxCapable S)) (s : VDS S) (now : nat → Z) (t i : string) (seq : Z)
    (Htx : tx_ok tx) (Hinv : vs_inv (vstore s))
    (Hfresh : ∀ r, r ∈ hrows s t i → vs_fresh (vstore s) t i (Data (rv r))) :
  match find_seq seq (rv <$> hrows s t i) with
  | None => Revert tx now t i seq s = (Err (Errorf "store: version not found"), s)
  | Some target =>
      let '(r, s') := Revert tx now t i seq s in revert_outcome s s' t i target r
  end.
Proof. by apply revert_cases. Qed.

(** ** Every document keeps a live head *)

(** A merge that succeeds found two different versions. *)
Lemma merge_ok_args s now t i a b data v s' :
  vs_inv s → Merge now t i a b data s = (Ok v, s') →
  a ≠ b ∧ ∃ src tgt, src ∈ rows (vs_hist s t i) ∧ Seq (rv src) = a ∧
                     tgt ∈ rows (vs_hist s t i) ∧ Seq (rv tgt) = b.
Proof.
  intros Hi. unfold Merge. rewrite bind_list, no_history_case by done.
  destruct (rows (vs_hist s t i)) as [|r0 l0] eqn:El; [done|]. rewrite <-El.
  destruct (merge_lookup_sound a b (rv <$> rows (vs_hist s t i))) as [H1 H2].
  destruct (merge_lookup a b _) as [[vs|] [vt|]]; simpl in *; try done. intros _.
  destruct (H1 _ eq_refl) as [(src&->&?)%list_elem_of_fmap ?].
  destruct (H2 _ eq_refl) as ((tgt&->&?)%list_elem_of_fmap&?&?). split; [done|]. by exists src, tgt.
Qed.

(** Without a history [Abandon] and [Prune] change nothing. *)
Lemma abandon_no_history s t i seq :
  vs_inv s → rows (vs_hist s t i) = [] → (Abandon t i seq s).2 = s.
Proof. intros Hi E. unfold Abandon. by rewrite bind_list, E. Qed.

Lemma prune_no_history s now t i policy :
  vs_inv s → rows (vs_hist s t i) = [] → (Prune now t i policy s).2 = s.
Proof. intros Hi E. unfold Prune. by rewrite bind_list, E. Qed.

Section LiveHeads.
Context (tx : option (TxCapable S)) (Htx : tx_ok tx).
(** The documents in use; their store keys are pairwise different. *)
Context (D : string → string → Prop).
Hypothesis HD : ∀ t i t' i', D t i → D t' i' → docKey t i = docKey t' i' → t = t' ∧ i = i'.

(** One call on a document in use: any write whose version id is new, successful
    or not, except that a [Merge] or [Revert] must have succeeded. *)
Inductive vds_step : VDS S → VDS S → Prop :=
| step_create s now t data r s' :
    D t (issued_id now t data) → vs_fresh (vstore s) t (issued_id now t data) data →
    CreateAndVersion tx now t data s = (r, s') → vds_step s s'
| step_update s now t i data expected r s' :
    D t i → vs_fresh (vstore s) t i data →
    UpdateAndVersionIfMatch tx now t i data expected s = (r, s') → vds_step s s'
| step_delete s t i r s' : D t i → Delete tx t i s = (r, s') → vds_step s s'
| step_fork s now t i fromSeq r v' :
    D t i → (∀ q, q ∈ hrows s t i → vs_fresh (vstore s) t i (Data (rv q))) →
    Fork now t i fromSeq (vstore s) = (r, v') → vds_step s (mkVDS (docs s) v')
| step_merge s now t i a b data v v' :
    D t i → vs_fresh (vstore s) t i data →
    Merge now t i a b data (vstore s) = (Ok v, v') → vds_step s (mkVDS (docs s) v')
| step_abandon s t i seq r v' :
    D t i → Abandon t i seq (vstore s) = (r, v') → vds_step s (mkVDS (docs s) v')
| step_revert s now t i seq doc s' :
    D t i → (∀ q, q ∈ hrows s t i → vs_fresh (vstore s) t i (Data (rv q))) →
    Revert tx now t i seq s = (Ok doc, s') → vds_step s s'
| step_prune s now t i policy r v' :
    D t i → Prune now t i policy (vstore s) = (r, v') → vds_step s (mkVDS (docs s) v').

Definition live_ok (s : VDS S) : Prop :=
  vs_inv (vstore s) ∧ ∀ t i, D t i → hrows s t i = [] ∨ has_live_head (hrows s t i).

(** It is enough to look at the document a step works on. *)
Lemma live_ok_step s s' t i :
  live_ok s → D t i → vs_inv (vstore s') → same_elsewhere (vstore s) (vstore s') t i →
  (hrows s t i = [] ∨ has_live_head (hrows s t i) → hrows s' t i = [] ∨ has_live_head (hrows s' t i)) →
  live_ok s'.
Proof.
  intros [_ Hl] HDt Hi Ho Hd. split; [done|]. intros t' i' HD'.
  destruct (decide (docKey t' i' = docKey t i)) as [E|E].
  - destruct (HD _ _ _ _ HD' HDt E) as [-> ->]. auto.
  - rewrite (Ho t' i' E). auto.
Qed.

Lemma vds_step_live s s' : live_ok s → vds_step s s' → live_ok s'.
Proof.
  intros Hs Hst. pose proof Hs as [Hi Hl].
  destruct Hst as [s now t data r s' HDt Hf E|s now t i data expected r s' HDt Hf E|s t i r s' HDt E
    |s now t i fromSeq r v' HDt Hf E|s now t i a b data v v' HDt Hf E|s t i seq r v' HDt E
    |s now t i seq doc s' HDt Hf E|s now t i policy r v' HDt E].
  - pose proof (create_cases tx s now t data Htx Hi Hf) as Hc. rewrite E in Hc.
    destruct Hc as (Hi'&Ho&Hr). apply (live_ok_step s s' _ _ Hs HDt Hi' Ho).
    destruct r as [[doc v]|e]; [right; apply Hr|by destruct Hr as [-> _]].
  - rewrite update_if_match_run in E by done. case_decide; [|by simplify_eq].
    pose proof (update_cases tx s now t i data Htx Hi Hf) as Hc. rewrite E in Hc.
    destruct Hc as (Hi'&Ho&Hr). apply (live_ok_step s s' _ _ Hs HDt Hi' Ho).
    destruct r as [[doc v]|e]; [right|by destruct Hr as [-> _]].
    destruct Hr as (old&_&_&_&Hv). by eapply appended_live_head.
  - pose proof (delete_cases tx s t i Htx Hi) as Hc. destruct (docs s !! (t, i)).
    + destruct Hc as (s1&E1&_&Hi'&Hh&Ho). rewrite E in E1. injection E1 as -> ->.
      apply (live_ok_step s s1 _ _ Hs HDt Hi' Ho). intros _. left. by rewrite Hh.
    + rewrite E in Hc. by injection Hc as -> ->.
  - pose proof (fork_cases (vstore s) now t i fromSeq Hi Hf) as Hc. rewrite E in Hc.
    destruct Hc as (Hi'&Ho&Hr). apply (live_ok_step s (mkVDS (docs s) v') _ _ Hs HDt Hi' Ho).
    cbn [vstore]. destruct r as [v|e]; [right; by destruct Hr as (?&_&_&_&_&_&?&_)|by rewrite Hr].
  - destruct (merge_ok_args _ _ _ _ _ _ _ _ _ Hi E) as (Hab&src&tgt&Hs1&Ha&Ht1&Hb).
    pose proof (merge_cases _ now t i a b data src tgt Hi Hab Hs1 Ha Ht1 Hb Hf) as Hc. rewrite E in Hc.
    destruct Hc as (Hi'&Ho&Hr). apply (live_ok_step s (mkVDS (docs s) v') _ _ Hs HDt Hi' Ho).
    right. apply Hr.
  - destruct (Hl t i HDt) as [En|Hlv].
    + pose proof (abandon_no_history _ t i seq Hi En) as E2. rewrite E in E2. simpl in E2. subst v'.
      by destruct s.
    + pose proof (abandon_cases _ t i seq Hi Hlv) as Hc. rewrite E in Hc.
      destruct Hc as (Hi'&Ho&Hh&_). apply (live_ok_step s (mkVDS (docs s) v') _ _ Hs HDt Hi' Ho). auto.
  - pose proof (revert_cases tx s now t i seq Htx Hi Hf) as Hc. rewrite E in Hc.
    destruct (find_seq _ _) as [target|]; [|done].
    destruct Hc as (l&pre&_&Hi'&Ho&_&_&Hh&_). apply (live_ok_step s s' _ _ Hs HDt Hi' Ho). auto.
  - destruct (Hl t i HDt) as [En|Hlv].
    + pose proof (prune_no_history _ now t i policy Hi En) as E2. rewrite E in E2. simpl in E2. subst v'.
      by destruct s.
    + destruct (prune_cases _ now t i policy Hi Hlv) as (out&s1&E1&Hi'&Ho&_&_&_&Hh&_).
      rewrite E in E1. injection E1 as -> ->.
      apply (live_ok_step s (mkVDS (docs s) s1) _ _ Hs HDt Hi' Ho). auto.
Qed.

End LiveHeads.

(** C2. The at-least-one-live-head invariant, over any sequence of calls on a set
    of documents with distinct store keys, starting from empty histories: each
    document has no history at all or a live head, provided no [Merge] and no
    [Revert] failed on the way. *)
Theorem live_head_invariant (tx : option (TxCapable S)) (D : string → string → Prop)
    (s0 s : VDS S) (Htx : tx_ok tx)
    (HD : ∀ t i t' i', D t i → D t' i' → docKey t i = docKey t' i' → t = t' ∧ i = i')
    (Hinv : vs_inv (vstore s0)) (Hempty : ∀ t i, D t i → hrows s0 t i = [])
    (Hsteps : rtc (vds_step tx D) s0 s) :
  ∀ t i, D t i → hrows s t i = [] ∨ has_live_head (hrows s t i).
Proof.
  assert (live_ok D s0) as H0 by (split; auto).
  enough (live_ok D s) as [_ Hl] by done.
  clear Hinv Hempty. induction Hsteps as [|a b c Hab _ IH]; [done|].
  apply IH. by eapply vds_step_live.
Qed.

End Writes.
