(* ===== verification/SqliteVersionStore.v ===== *)
(** * The SQLite version store (engine/store/versionstore_sqlite.go)

    [DB] holds the five version tables of document.go's [versionTablesSQL] with
    the constraints the schema declares; each SQL statement of the code is one
    definition on [DB].  [SqliteStore] adds the process-local DAG cache and its
    generation counters.  Tables whose rowid order the code relies on are
    lists in insertion order.  [sql_inv] is the invariant of the tables and the
    cache; that it makes the store a [VersionStore] is in SqliteRefinement. *)

From stdpp Require Import pretty.
From S2P Require Import Prelude Fingerprint VersionDag VersionStore Blobs Versioned.

Local Open Scope Z_scope.

(** ** Tables *)

(** A row of [versions]. *)
Record vrow := mkVrow {
  c_type : string; c_id : string; c_vid : string; c_seq : Z; c_hash : string;
  c_timestamp : Z; c_created_at : string; c_live : Z;
}.

Record DB := mkDB {
  t_versions : list vrow;                       (* PRIMARY KEY (type, id, seq), UNIQUE (version_id) *)
  t_parents : list (string * string);           (* version_parents, in rowid order *)
  t_blobs : gmap string blobEntry;              (* snapshot_blobs, by hash *)
  t_snapshots : gmap string string;             (* version_snapshots: version_id to hash *)
  t_high_water : gmap (string * string) Z;      (* version_seq_high_water *)
}.

Record SqliteStore := mkSqlite {
  db : DB;
  dagCache : gmap string version.DAG;
  dagGen : gmap string Z;                       (* uint64 *)
}.

Definition emptyDB : DB := mkDB [] [] ∅ ∅ ∅.
Definition NewSQLiteVersionStore (d : DB) : SqliteStore := mkSqlite d ∅ ∅.

Definition set_versions v d := mkDB v (t_parents d) (t_blobs d) (t_snapshots d) (t_high_water d).
Definition set_parents p d := mkDB (t_versions d) p (t_blobs d) (t_snapshots d) (t_high_water d).
Definition set_blobs b d := mkDB (t_versions d) (t_parents d) b (t_snapshots d) (t_high_water d).
Definition set_snapshots m d := mkDB (t_versions d) (t_parents d) (t_blobs d) m (t_high_water d).
Definition set_high_water m d := mkDB (t_versions d) (t_parents d) (t_blobs d) (t_snapshots d) m.

(** [WHERE type = ? AND id = ?]. *)
Definition of_doc (t i : string) (r : vrow) : Prop := c_type r = t ∧ c_id r = i.
#[export] Instance of_doc_dec t i r : Decision (of_doc t i r).
Proof. unfold of_doc. apply _. Defined.

Definition doc_rows (d : DB) (t i : string) : list vrow := filter (of_doc t i) (t_versions d).

(** [ORDER BY seq]. *)
Definition seq_le (a b : vrow) : Prop := c_seq a ≤ c_seq b.
#[export] Instance seq_le_dec : RelDecision seq_le.
Proof. intros a b. unfold seq_le. apply _. Defined.

Definition order_by_seq (l : list vrow) : list vrow := merge_sort seq_le l.

Definition known_version (d : DB) (x : string) : Prop := x ∈ c_vid <$> t_versions d.

#[export] Instance known_version_dec d x : Decision (known_version d x).
Proof. unfold known_version. apply _. Defined.

(** ** SQL statements *)

(** [MAX(seq)] over a document's rows. *)
Definition max_seq (l : list vrow) : option Z :=
  match l with
  | [] => None
  | r :: l => Some (foldl (λ m r, Z.max m (c_seq r)) (c_seq r) l)
  end.

(** [COALESCE(high-water, MAX(seq), 0)]. *)
Definition high_water (d : DB) (t i : string) : Z :=
  match t_high_water d !! (t, i) with
  | Some n => n
  | None => default 0 (max_seq (doc_rows d t i))
  end.

(** [INSERT INTO versions]; [live] takes its default. *)
Definition insertVersion (r : vrow) : st DB error unit := λ d,
  if decide (c_vid r ∈ c_vid <$> t_versions d ∨
             c_seq r ∈ c_seq <$> doc_rows d (c_type r) (c_id r))
  then (Err (Errorf "UNIQUE constraint failed: versions"), d)
  else (Ok tt, set_versions (t_versions d ++ [r]) d).

(** [INSERT INTO version_parents]: primary key and both foreign keys. *)
Definition insertParent (vid pid : string) : st DB error unit := λ d,
  if decide ((vid, pid) ∈ t_parents d) then (Err (Errorf "UNIQUE constraint failed: version_parents"), d)
  else if decide (known_version d vid ∧ known_version d pid)
  then (Ok tt, set_parents (t_parents d ++ [(vid, pid)]) d)
  else (Err (Errorf "FOREIGN KEY constraint failed"), d).

(** [INSERT INTO version_snapshots]. *)
Definition insertSnapshot (vid hash : string) : st DB error unit := λ d,
  match t_snapshots d !! vid with
  | Some _ => (Err (Errorf "UNIQUE constraint failed: version_snapshots"), d)
  | None =>
      if decide (known_version d vid ∧ is_Some (t_blobs d !! hash))
      then (Ok tt, set_snapshots (<[vid := hash]> (t_snapshots d)) d)
      else (Err (Errorf "FOREIGN KEY constraint failed"), d)
  end.

(** [DELETE FROM versions WHERE P]: the child side of version_parents and the
    version_snapshots rows cascade; a remaining edge to a deleted parent aborts
    the statement. *)
Definition deleteVersionRows (P : vrow → Prop) `{∀ r, Decision (P r)} : st DB error unit := λ d,
  let gone := c_vid <$> filter P (t_versions d) in
  let edges := filter (λ e, e.1 ∉ gone) (t_parents d) in
  if decide (Exists (λ e, e.2 ∈ gone) edges) then (Err (Errorf "FOREIGN KEY constraint failed"), d)
  else (Ok tt, mkDB (filter (λ r, ¬ P r) (t_versions d)) edges (t_blobs d)
                 (without gone (t_snapshots d)) (t_high_water d)).

(** ** Operations on the tables *)

Section Sqlite.
Context `{HS : Hasher} `{GT : GoTime} `{MO : MapOrder}.

Definition upsertSnapshotBlob (hash data : string) : st DB error unit := λ d,
  match t_blobs d !! hash with
  | None => (Ok tt, set_blobs (<[hash := mkBlob data 1]> (t_blobs d)) d)
  | Some b =>
      if negb (bool_decide (bdata b = data)) then (Err ErrHashCollision, d)
      else if refcount b <? MaxInt64
      then (Ok tt, set_blobs (<[hash := mkBlob (bdata b) (refcount b + 1)]> (t_blobs d)) d)
      else (Err ErrRefcountOverflow, d)
  end.

(** [SELECT COUNT( * ) FROM versions WHERE version_id = ? AND type = ? AND id = ?]. *)
Definition seen (d : DB) (t i x : string) : bool :=
  bool_decide (x ∈ c_vid <$> doc_rows d t i).

Definition checkParent (docType id pid : string) : st DB error unit := λ d,
  if seen d docType id pid then (Ok tt, d)
  else (Err (Errorf "store: append version: unknown parent"), d).

(** Steps 1 to 5 of [appendVersionTx], the statements on the tables. *)
Definition appendVersionRows (now : Z) (docType id data : string) (parents : list string)
  : st DB error Version :=
  nextSeq ← gets (λ d, high_water d docType id + 1);
  for_each parents (checkParent docType id);;
  let key := docKey docType id in
  let vid := hash_short (versionIDInput key nextSeq data) 16 in
  let hash := hash_short data 16 in
  let createdAt := FormatNano now in
  wrap_err (Wrapf "store: append version: insert version")
    (insertVersion (mkVrow docType id vid nextSeq hash now createdAt 1));;
  for_each parents (λ pid, wrap_err (Wrapf "store: append version: insert parent") (insertParent vid pid));;
  upsertSnapshotBlob hash data;;
  wrap_err (Wrapf "store: append version: insert version_snapshot") (insertSnapshot vid hash);;
  modify (λ d, set_high_water (<[(docType, id) := nextSeq]> (t_high_water d)) d);;
  mret (mkVersion docType id vid nextSeq data createdAt true).

Definition getSnapshotRow (versionID : string) : st DB error string := λ d,
  match t_snapshots d !! versionID ≫= λ h, t_blobs d !! h with
  | None => (Err (Errorf "store: snapshot not found"), d)
  | Some b => (Ok (bdata b), d)
  end.

(** The row loop of [ListVersions], with the snapshot of each version. *)
Fixpoint hydrate (docType id : string) (l : list vrow) : st DB error (list Version) :=
  match l with
  | [] => mret []
  | r :: l =>
      data ← getSnapshotRow (c_vid r);
      out ← hydrate docType id l;
      mret (mkVersion docType id (c_vid r) (c_seq r) data (c_created_at r) (negb (c_live r =? 0)) :: out)
  end.

Definition listVersionRows (docType id : string) : st DB error (list Version) :=
  l ← gets (λ d, order_by_seq (doc_rows d docType id));
  hydrate docType id l.

(** A Go map counting occurrences. *)
Definition count_hashes (l : list string) : gmap string Z :=
  foldl (λ m h, <[h := default 0 (m !! h) + 1]> m) ∅ l.

Definition snapshotHashesForDoc (d : DB) (docType id : string) : gmap string Z :=
  count_hashes (omap (λ r, t_snapshots d !! c_vid r) (doc_rows d docType id)).

Definition decrementSnapshotBlob (hash : string) (delta : Z) : st DB error unit := λ d,
  match t_blobs d !! hash with
  | None => (Err (Wrapf "blob row missing" ErrRefcountUnderflow), d)
  | Some b =>
      if refcount b <? delta then (Err (Wrapf "current < delta" ErrRefcountUnderflow), d)
      else if refcount b =? delta then (Ok tt, set_blobs (delete hash (t_blobs d)) d)
      else (Ok tt, set_blobs (<[hash := mkBlob (bdata b) (refcount b - delta)]> (t_blobs d)) d)
  end.

Definition deleteHistoryRows (docType id : string) : st DB error unit :=
  hashCounts ← gets (λ d, snapshotHashesForDoc d docType id);
  wrap_err (Wrapf "store: delete history") (deleteVersionRows (of_doc docType id));;
  modify (λ d, set_high_water (delete (docType, id) (t_high_water d)) d);;
  for_each (range_order 0 (dom hashCounts))
    (λ hash, decrementSnapshotBlob hash (default 0 (hashCounts !! hash))).

(** The rows the join of step 1 of [deleteVersionsTx] returns: hash and length. *)
Definition doomed_rows (d : DB) (docType id : string) (versionIDs : list string) : list (string * Z) :=
  omap (λ r, h ← t_snapshots d !! c_vid r; b ← t_blobs d !! h;
             Some (h, Z.of_nat (String.length (bdata b))))
    (filter (λ r, c_vid r ∈ versionIDs) (doc_rows d docType id)).

(** Step 4: release the counts, report the blobs that are gone. *)
Fixpoint releaseBlobs (counts bytes : gmap string Z) (order : list string) : st DB error (list FreedBlob) :=
  match order with
  | [] => mret []
  | hash :: order =>
      decrementSnapshotBlob hash (default 0 (counts !! hash));;
      stillThere ← gets (λ d, t_blobs d !! hash);
      freed ← releaseBlobs counts bytes order;
      mret (match stillThere with
            | None => mkFreedBlob hash (default 0 (bytes !! hash)) :: freed
            | Some _ => freed
            end)
  end.

Definition deleteVersionsRows (docType id : string) (versionIDs : list string)
  : st DB error (list FreedBlob) :=
  doomed ← gets (λ d, doomed_rows d docType id versionIDs);
  let hashCounts := count_hashes doomed.*1 in
  let hashBytes := foldl (λ m hb, <[hb.1 := hb.2]> m) ∅ doomed in
  modify (λ d, set_parents (filter (λ e, e.1 ∉ versionIDs) (t_parents d)) d);;
  modify (λ d, set_parents (filter (λ e, e.2 ∉ versionIDs) (t_parents d)) d);;
  wrap_err (Wrapf "store: prune: delete versions")
    (deleteVersionRows (λ r, of_doc docType id r ∧ c_vid r ∈ versionIDs));;
  releaseBlobs hashCounts hashBytes (range_order 0 (dom hashCounts)).

Definition set_live_rows (x : string) (b : bool) (l : list vrow) : list vrow :=
  (λ r, if decide (c_vid r = x)
        then mkVrow (c_type r) (c_id r) (c_vid r) (c_seq r) (c_hash r) (c_timestamp r)
               (c_created_at r) (if b then 1 else 0)
        else r) <$> l.

Definition setLiveRows (docType id versionID : string) (live : bool) : st DB error unit := λ d,
  if negb (seen d docType id versionID) then (Err (Errorf "store: set live: not found"), d)
  else if decide (Exists (λ e, e.2 = versionID) (t_parents d))
  then (Err (Wrapf "has children" ErrNotAHead), d)
  else (Ok tt, set_versions (set_live_rows versionID live (t_versions d)) d).

(** ** The DAG of a document, rebuilt from the rows *)

Definition parents_in (d : DB) (ids : list string) (x : string) : list string :=
  (filter (λ e, e.1 = x) (filter (λ e, e.1 ∈ ids) (t_parents d))).*2.

Fixpoint appendAll (par : string → list string) (l : list vrow) (dag : version.DAG)
  : res error version.DAG :=
  match l with
  | [] => Ok dag
  | r :: l =>
      match version.Append (version.mkVersion (c_vid r) (par (c_vid r)) (c_timestamp r) (c_hash r)) dag with
      | (Ok _, dag) => appendAll par l dag
      | (Err e, _) => Err (Wrapf "store: load dag: append" (DagError e))
      end
  end.

Definition buildDAG (d : DB) (docType id : string) : res error version.DAG :=
  let ordered := order_by_seq (doc_rows d docType id) in
  appendAll (parents_in d (c_vid <$> ordered)) ordered version.NewDAG.

(** ** The store *)

Definition exec {A} (m : st DB error A) : st SqliteStore error A := λ s,
  let '(r, d) := m (db s) in (r, mkSqlite d (dagCache s) (dagGen s)).

(** [uint64] counters wrap. *)
Definition genAt (s : SqliteStore) (key : string) : Z := default 0 (dagGen s !! key).
Definition invalidate (key : string) (s : SqliteStore) : SqliteStore :=
  mkSqlite (db s) (delete key (dagCache s)) (<[key := (genAt s key + 1) mod 2 ^ 64]> (dagGen s)).

(** [ROLLBACK] restores the tables; the cache is process memory. *)
Definition rollback (s s' : SqliteStore) : SqliteStore := mkSqlite (db s) (dagCache s') (dagGen s').

(** [beginImmediate ... commit(err)] around a body. *)
Definition immediate {A} (m : st SqliteStore error A) : st SqliteStore error A := λ s,
  match m s with
  | (Ok a, s') => (Ok a, s')
  | (Err e, s') => (Err e, rollback s s')
  end.

Definition sql_appendVersionTx (now : Z) (docType id data : string) (parents : list string)
  : st SqliteStore error Version :=
  v ← exec (appendVersionRows now docType id data parents);
  modify (invalidate (docKey docType id));;
  mret v.

Definition sql_AppendVersion now docType id data parents : st SqliteStore error Version :=
  immediate (sql_appendVersionTx now docType id data parents).

Definition sql_ListVersions (docType id : string) : st SqliteStore error (list Version) :=
  exec (listVersionRows docType id).

Definition sql_GetSnapshot (versionID : string) : st SqliteStore error string :=
  exec (getSnapshotRow versionID).

Definition sql_deleteHistoryTx (docType id : string) : st SqliteStore error unit :=
  exec (deleteHistoryRows docType id);;
  modify (invalidate (docKey docType id)).

Definition sql_DeleteHistory (docType id : string) : st SqliteStore error unit :=
  immediate (sql_deleteHistoryTx docType id).

Definition sql_deleteVersionsTx (docType id : string) (versionIDs : list string)
  : st SqliteStore error (list FreedBlob) :=
  freed ← exec (deleteVersionsRows docType id versionIDs);
  modify (invalidate (docKey docType id));;
  mret freed.

Definition sql_DeleteVersions (docType id : string) (versionIDs : list string)
  : st SqliteStore error (list FreedBlob) :=
  match versionIDs with
  | [] => mret []
  | _ => immediate (sql_deleteVersionsTx docType id versionIDs)
  end.

Definition sql_setLiveTx (docType id versionID : string) (live : bool) : st SqliteStore error unit :=
  exec (setLiveRows docType id versionID live);;
  modify (invalidate (docKey docType id)).

Definition sql_SetLive (docType id versionID : string) (live : bool) : st SqliteStore error unit :=
  immediate (sql_setLiveTx docType id versionID live).

(** The three steps of [LoadDAG]: the read under RLock, the build without a
    lock, the store under Lock. *)
Inductive load_start := Hit (dag : version.DAG) | Miss (gen : Z).

Definition loadStart (key : string) (s : SqliteStore) : load_start :=
  match dagCache s !! key with
  | Some dag => Hit dag
  | None => Miss (genAt s key)
  end.

Definition loadFinish (key : string) (gen : Z) (dag : version.DAG) (s : SqliteStore)
  : version.DAG * SqliteStore :=
  match dagCache s !! key with
  | Some cached => (cached, s)
  | None =>
      if negb (genAt s key =? gen) then (dag, s)
      else (dag, mkSqlite (db s) (<[key := dag]> (dagCache s)) (dagGen s))
  end.

Definition sql_LoadDAG (docType id : string) : st SqliteStore error version.DAG := λ s,
  let key := docKey docType id in
  match loadStart key s with
  | Hit dag => (Ok dag, s)
  | Miss gen =>
      match buildDAG (db s) docType id with
      | Err e => (Err e, s)
      | Ok dag => let '(dag, s) := loadFinish key gen dag s in (Ok dag, s)
      end
  end.

#[export] Instance sql_version_store : VersionStore SqliteStore := {
  AppendVersion := sql_AppendVersion;
  ListVersions := sql_ListVersions;
  GetSnapshot := sql_GetSnapshot;
  DeleteHistory := sql_DeleteHistory;
  LoadDAG := sql_LoadDAG;
  DeleteVersions := sql_DeleteVersions;
  SetLive := sql_SetLive;
}.

(** [ORDER BY seq DESC LIMIT 1]. *)
Definition sql_parentsForTx (docType id : string) : st SqliteStore error (list string) := λ s,
  (Ok (match last (order_by_seq (doc_rows (db s) docType id)) with
       | None => []
       | Some r => [c_vid r]
       end), s).

Definition sql_tx : TxCapable SqliteStore := {|
  appendVersionTx := sql_appendVersionTx;
  deleteHistoryTx := sql_deleteHistoryTx;
  parentsForTx := sql_parentsForTx;
  tx_rollback := rollback;
|}.

End Sqlite.

(** [buildPlaceholders]: the text of an [IN] list. *)
Fixpoint buildPlaceholders (n : nat) : string :=
  match n with
  | O => ""
  | 1%nat => "?"
  | S n => buildPlaceholders n +:+ ",?"
  end.
