(* ===== verification/SqliteRefinement.v ===== *)
(** * The SQLite store implements the version-store contract

    [sql_inv] relates the tables and the DAG cache; every operation keeps it and
    does to the abstract histories what [VersionStoreLaws] and [TxLaws] say, so
    the theorems about the versioned store hold for this backend and its
    transactions. *)

From stdpp Require Import pretty.
From S2P Require Import Prelude Fingerprint VersionDag VersionStore Blobs DocumentStore Versioned VersionedProps VersionedWrites SqliteVersionStore.

Local Open Scope Z_scope.

(** ** Reading the tables as histories *)

Definition sql_data (d : DB) (x : string) : string :=
  match t_snapshots d !! x ≫= λ h, t_blobs d !! h with Some b => bdata b | None => "" end.

Definition edges_of (d : DB) (x : string) : list string :=
  (filter (λ e, e.1 = x) (t_parents d)).*2.

Definition sql_row (d : DB) (r : vrow) : Row :=
  mkRow (mkVersion (c_type r) (c_id r) (c_vid r) (c_seq r) (sql_data d (c_vid r)) (c_created_at r)
           (negb (c_live r =? 0))) (edges_of d (c_vid r)).

Definition sql_rows (d : DB) (t i : string) : list Row := sql_row d <$> doc_rows d t i.
Definition sql_hist (s : SqliteStore) (t i : string) : Hist :=
  mkHist (sql_rows (db s) t i) (high_water (db s) t i).

(** The foreign keys and unique constraints, the counts, well-formed histories
    with a recorded high-water mark, and distinct cache keys. *)
Record db_inv (d : DB) : Prop := {
  di_blobs : blob_inv (t_blobs d) (t_snapshots d) [];
  di_snap r : r ∈ t_versions d →
    ∃ h b, t_snapshots d !! c_vid r = Some h ∧ t_blobs d !! h = Some b;
  di_snap_dom x : is_Some (t_snapshots d !! x) → known_version d x;
  di_vid : NoDup (c_vid <$> t_versions d);
  di_edges e : e ∈ t_parents d → known_version d e.1;
  di_rows t i : rows_wf (sql_rows d t i) (high_water d t i);
  di_high t i : doc_rows d t i ≠ [] → is_Some (t_high_water d !! (t, i));
  di_keys t i t' i' : docKey t i = docKey t' i' → doc_rows d t i ≠ [] → doc_rows d t' i' ≠ [] →
    t = t' ∧ i = i';
}.

Definition cache_ok (s : SqliteStore) : Prop :=
  ∀ t i dag, dagCache s !! docKey t i = Some dag → doc_rows (db s) t i ≠ [] →
    dag_repr dag (sql_rows (db s) t i).

Definition sql_inv (s : SqliteStore) : Prop := db_inv (db s) ∧ cache_ok s.

(** No other document with a history shares the cache key. *)
Definition sql_fresh (s : SqliteStore) (t i data : string) : Prop :=
  ∀ t' i', docKey t' i' = docKey t i → doc_rows (db s) t' i' ≠ [] → t' = t ∧ i' = i.

(** ** Facts about the tables *)

Lemma elem_of_doc_rows d t i r : r ∈ doc_rows d t i ↔ r ∈ t_versions d ∧ c_type r = t ∧ c_id r = i.
Proof. unfold doc_rows, of_doc. rewrite list_elem_of_filter. tauto. Qed.

Lemma vid_inj d r1 r2 :
  NoDup (c_vid <$> t_versions d) → r1 ∈ t_versions d → r2 ∈ t_versions d → c_vid r1 = c_vid r2 → r1 = r2.
Proof.
  intros Hnd [n Hn]%list_elem_of_lookup [m Hm]%list_elem_of_lookup E.
  assert (n = m) as ->; [|congruence].
  apply (NoDup_lookup _ _ _ (c_vid r1) Hnd); rewrite list_lookup_fmap, ?Hn, ?Hm; simpl; congruence.
Qed.

Lemma sql_vids d t i : vids (sql_rows d t i) = c_vid <$> doc_rows d t i.
Proof. unfold vids, sql_rows. by rewrite <-list_fmap_compose. Qed.

Lemma sql_rows_nil d t i : sql_rows d t i = [] ↔ doc_rows d t i = [].
Proof. unfold sql_rows. by destruct (doc_rows d t i). Qed.

Lemma rows_wf_sorted l hw : rows_wf l hw → StronglySorted (λ a b, Seq (rv a) ≤ Seq (rv b)) l.
Proof.
  induction 1 as [|l r hw hw' Hl IH Hs Hn Hp]; [constructor|].
  apply StronglySorted_app_2; [|done|repeat constructor].
  intros a b Ha ->%list_elem_of_singleton. pose proof (rows_wf_bound _ _ _ Hl Ha). lia.
Qed.

Lemma StronglySorted_fmap_inv {A B} (f : A → B) (R : relation B) (l : list A) :
  StronglySorted R (f <$> l) → StronglySorted (λ a b, R (f a) (f b)) l.
Proof.
  induction l as [|x l IH]; simpl; intros H; [constructor|].
  apply StronglySorted_inv in H as [H1 H2]. constructor; [auto|]. by rewrite Forall_fmap in H2.
Qed.

#[export] Instance seq_le_total : Total seq_le.
Proof. intros a b. unfold seq_le. lia. Qed.
#[export] Instance seq_le_trans : Transitive seq_le.
Proof. intros a b c. unfold seq_le. lia. Qed.

(** The rows of a document are stored in sequence order, so sorting them is the
    identity. *)
Lemma order_by_seq_id d t i : db_inv d → order_by_seq (doc_rows d t i) = doc_rows d t i.
Proof.
  intros Hd. unfold order_by_seq.
  apply (StronglySorted_unique_strong seq_le); [|apply (StronglySorted_merge_sort _)| |apply merge_sort_Permutation].
  - intros a b Ha Hb H1 H2. rewrite merge_sort_Permutation in Ha.
    assert (sql_row d a = sql_row d b) as E.
    { eapply (rows_wf_seq_inj _ _ _ _ (di_rows d Hd t i)); [by apply list_elem_of_fmap_2..|].
      simpl. unfold seq_le in *. lia. }
    apply elem_of_doc_rows in Ha as [Ha _], Hb as [Hb _].
    apply (vid_inj d); [apply Hd|done..|]. injection E. auto.
  - eapply StronglySorted_fmap_inv with (f := sql_row d) (R := λ a b, Seq (rv a) ≤ Seq (rv b)).
    eapply rows_wf_sorted, (di_rows d Hd t i).
Qed.

Lemma edges_of_known d x p : db_inv d → p ∈ edges_of d x → known_version d x.
Proof.
  intros Hd ([a b]&->&[E He]%list_elem_of_filter)%list_elem_of_fmap. simpl in E. subst.
  by apply (di_edges d Hd) in He.
Qed.

(** A stored edge stays inside one document. *)
Lemma edge_same_doc d e :
  db_inv d → e ∈ t_parents d →
  ∃ r, r ∈ t_versions d ∧ c_vid r = e.1 ∧
       e.2 ∈ rparents (sql_row d r) ∧ e.2 ∈ vids (sql_rows d (c_type r) (c_id r)).
Proof.
  intros Hd He. pose proof (di_edges d Hd e He) as (r&E&Hr)%list_elem_of_fmap.
  assert (e.2 ∈ rparents (sql_row d r)) as Hp.
  { simpl. unfold edges_of. apply list_elem_of_fmap. exists e. split; [done|].
    apply list_elem_of_filter. auto. }
  exists r. split_and!; try done. eapply rows_wf_parent_known; [apply (di_rows d Hd)| |exact Hp].
  apply list_elem_of_fmap_2, elem_of_doc_rows. auto.
Qed.

Lemma emptyDB_inv : db_inv emptyDB.
Proof.
  split.
  - split; [|intros ?? ?; simpl in *; rewrite lookup_empty in *; done].
    intros h. unfold refs. simpl. by rewrite map_filter_empty.
  - intros r. simpl. set_solver.
  - intros x. simpl. rewrite lookup_empty. by intros [? [=]].
  - constructor.
  - intros e. simpl. set_solver.
  - intros t i. by constructor.
  - done.
  - done.
Qed.

Section Refinement.
Context `{HS : Hasher} `{GT : GoTime} `{MO : MapOrder}.

(** ** Append *)

Lemma checkParents_run t i ps d r d' :
  for_each ps (checkParent t i) d = (r, d') →
  d' = d ∧ (r = Ok tt → ∀ p, p ∈ ps → p ∈ c_vid <$> doc_rows d t i).
Proof.
  revert r d'. induction ps as [|p ps IH]; intros r d'; simpl.
  { intros [= <- <-]. set_solver. }
  unfold mbind, st_bind, checkParent at 1, seen. case_bool_decide as Hp.
  - intros [-> H]%IH. split; [done|]. intros Hr q [->|Hq]%elem_of_cons; auto.
  - intros [= <- <-]. done.
Qed.

Lemma insertParents_run f vid ps d d' :
  for_each ps (λ pid, wrap_err f (insertParent vid pid)) d = (Ok tt, d') →
  d' = set_parents (t_parents d ++ (pair vid <$> ps)) d.
Proof.
  revert d. induction ps as [|p ps IH]; intros d; simpl.
  { intros [= <-]. rewrite app_nil_r. by destruct d. }
  unfold mbind, st_bind, wrap_err at 1, insertParent at 1.
  case_decide; [done|]. case_decide; [|done]. simpl. intros ->%IH. simpl.
  by rewrite <-app_assoc.
Qed.

Lemma upsertSnapshotBlob_run h data d d' :
  upsertSnapshotBlob h data d = (Ok tt, d') →
  (∀ b, t_blobs d !! h = Some b → bdata b = data ∧ refcount b ≠ MaxInt64) ∧
  d' = set_blobs (add_ref (t_blobs d) h data) d.
Proof.
  unfold upsertSnapshotBlob, add_ref. destruct (t_blobs d !! h) as [b|].
  - case_bool_decide; simpl; [|done]. destruct (Z.ltb_spec (refcount b) MaxInt64); [|done].
    intros [= <-]. split; [|done]. intros b' [= <-]. split; [done|lia].
  - by intros [= <-].
Qed.

(** What a successful append did to the tables. *)
Definition appended_db (d : DB) (now : Z) (t i data : string) (ps : list string) : DB :=
  let seq := high_water d t i + 1 in
  let vid := hash_short (versionIDInput (docKey t i) seq data) 16 in
  let hash := hash_short data 16 in
  mkDB (t_versions d ++ [mkVrow t i vid seq hash now (FormatNano now) 1])
       (t_parents d ++ (pair vid <$> ps))
       (add_ref (t_blobs d) hash data) (<[vid := hash]> (t_snapshots d))
       (<[(t, i) := seq]> (t_high_water d)).

Lemma appendVersionRows_run now t i data ps d v d' :
  appendVersionRows now t i data ps d = (Ok v, d') →
  let seq := high_water d t i + 1 in
  let vid := hash_short (versionIDInput (docKey t i) seq data) 16 in
  (∀ p, p ∈ ps → p ∈ c_vid <$> doc_rows d t i) ∧
  (vid ∉ c_vid <$> t_versions d) ∧ t_snapshots d !! vid = None ∧
  (∀ b, t_blobs d !! hash_short data 16 = Some b → bdata b = data ∧ refcount b ≠ MaxInt64) ∧
  v = mkVersion t i vid seq data (FormatNano now) true ∧ d' = appended_db d now t i data ps.
Proof.
  unfold appendVersionRows. intros (sq&d0&[= <- <-]&E)%st_bind_ok.
  apply st_bind_ok in E as ([]&d1&E1&E). apply checkParents_run in E1 as [-> Hp].
  apply st_bind_ok in E as ([]&d1&E1&E). unfold wrap_err, insertVersion in E1.
  case_decide as Hu; [done|]. injection E1 as <-. simpl in Hu.
  apply st_bind_ok in E as ([]&d1&E1&E). apply insertParents_run in E1 as ->.
  apply st_bind_ok in E as ([]&d1&E1&E). apply upsertSnapshotBlob_run in E1 as [Hb ->].
  apply st_bind_ok in E as ([]&d1&E1&E). unfold wrap_err, insertSnapshot in E1. simpl in E1.
  destruct (t_snapshots d !! _) eqn:Es; [done|]. case_decide; [|done]. injection E1 as <-.
  apply st_bind_ok in E as ([]&d1&[= <-]&[= <- <-]). simpl in Hb. split_and!; auto.
Qed.

Section commit.
Context (d : DB) (now : Z) (t i data : string) (ps : list string).
Let seq := high_water d t i + 1.
Let vid := hash_short (versionIDInput (docKey t i) seq data) 16.
Let hash := hash_short data 16.
Let d' := appended_db d now t i data ps.
Hypothesis Hd : db_inv d.
Hypothesis Hpar : ∀ p, p ∈ ps → p ∈ c_vid <$> doc_rows d t i.
Hypothesis Hvid : vid ∉ c_vid <$> t_versions d.
Hypothesis Hblob : ∀ b, t_blobs d !! hash = Some b → bdata b = data ∧ refcount b ≠ MaxInt64.
Hypothesis Hkey : ∀ t' i', docKey t' i' = docKey t i → doc_rows d t' i' ≠ [] → t' = t ∧ i' = i.

Let new := mkVrow t i vid seq hash now (FormatNano now) 1.

Lemma commit_doc_rows t' i' :
  doc_rows d' t' i' = if decide (t = t' ∧ i = i') then doc_rows d t i ++ [new] else doc_rows d t' i'.
Proof.
  unfold doc_rows. simpl. rewrite filter_app, filter_cons, filter_nil. fold seq vid hash.
  unfold of_doc at 2. simpl. repeat case_decide; try tauto; [|by rewrite app_nil_r].
  by destruct_and!; subst.
Qed.

Lemma commit_blobs :
  blob_inv (t_blobs d') (t_snapshots d) [hash] ∧
  (∃ b, t_blobs d' !! hash = Some b ∧ bdata b = data) ∧
  (∀ h b, t_blobs d !! h = Some b → ∃ b', t_blobs d' !! h = Some b' ∧ bdata b' = bdata b).
Proof. apply add_ref_inv; [apply Hd|done]. Qed.

Lemma commit_snap_none : t_snapshots d !! vid = None.
Proof. apply eq_None_not_Some. intros H%(di_snap_dom d Hd). by apply Hvid. Qed.

Lemma commit_data r : r ∈ t_versions d → sql_data d' (c_vid r) = sql_data d (c_vid r).
Proof.
  intros Hr. destruct (di_snap d Hd r Hr) as (h&b&Hs&Hb).
  destruct commit_blobs as (_&_&Hold). destruct (Hold _ _ Hb) as (b'&Hb'&E).
  unfold sql_data. simpl. fold seq vid hash. rewrite lookup_insert_ne.
  - rewrite Hs. simpl. rewrite Hb. simpl in Hb'. fold hash in Hb'. by rewrite Hb'.
  - intros Ev. apply Hvid. rewrite Ev. by apply list_elem_of_fmap_2.
Qed.

Lemma commit_data_new : sql_data d' vid = data.
Proof.
  destruct commit_blobs as (_&(b&Hb&E)&_). unfold sql_data. simpl. fold seq vid hash.
  rewrite lookup_insert_eq. simpl. simpl in Hb. fold hash in Hb. by rewrite Hb.
Qed.

Lemma commit_edges x : edges_of d' x = edges_of d x ++ (if decide (vid = x) then ps else []).
Proof.
  unfold edges_of. simpl. fold seq vid hash. rewrite filter_app, fmap_app. f_equal.
  rewrite filter_fmap, <-list_fmap_compose. case_decide.
  - rewrite list_filter_all by done. exact (list_fmap_id ps).
  - by rewrite list_filter_none.
Qed.

Lemma commit_edges_new : edges_of d' vid = ps.
Proof.
  rewrite commit_edges, decide_True by done. destruct (edges_of d vid) as [|p l] eqn:E; [done|].
  exfalso. apply Hvid. apply (edges_of_known d vid p Hd). rewrite E. set_solver.
Qed.

Lemma commit_row r : r ∈ t_versions d → sql_row d' r = sql_row d r.
Proof.
  intros Hr. unfold sql_row. rewrite commit_data by done. rewrite commit_edges, decide_False, app_nil_r; [done|].
  intros E. apply Hvid. rewrite E. by apply list_elem_of_fmap_2.
Qed.

Lemma commit_doc_row t' i' : sql_row d' <$> doc_rows d t' i' = sql_rows d t' i'.
Proof. apply list_fmap_ext_in. intros r [Hr _]%elem_of_doc_rows. by apply commit_row. Qed.

Lemma commit_sql_rows :
  sql_rows d' t i = sql_rows d t i ++ [mkRow (mkVersion t i vid seq data (FormatNano now) true) ps].
Proof.
  unfold sql_rows at 1. rewrite commit_doc_rows, decide_True, fmap_app, commit_doc_row by done.
  f_equal. simpl. unfold sql_row, new. simpl. by rewrite commit_data_new, commit_edges_new.
Qed.

Lemma commit_sql_rows_other t' i' : ¬ (t = t' ∧ i = i') → sql_rows d' t' i' = sql_rows d t' i'.
Proof.
  intros Hne. unfold sql_rows at 1. by rewrite commit_doc_rows, decide_False, commit_doc_row.
Qed.

Lemma commit_high t' i' :
  high_water d' t' i' = if decide (t = t' ∧ i = i') then seq else high_water d t' i'.
Proof.
  unfold high_water at 1. simpl. fold seq. destruct (decide (t = t' ∧ i = i')) as [[<- <-]|Hne].
  - by rewrite lookup_insert_eq.
  - rewrite lookup_insert_ne by naive_solver. by rewrite commit_doc_rows, decide_False.
Qed.

Lemma commit_known x : known_version d' x ↔ known_version d x ∨ x = vid.
Proof.
  unfold known_version. simpl. fold seq vid. rewrite fmap_app, elem_of_app. simpl.
  by rewrite list_elem_of_singleton.
Qed.

Lemma commit_inv : db_inv d'.
Proof.
  split.
  - simpl. fold seq vid hash. apply blob_inv_take; [apply commit_snap_none|apply commit_blobs].
  - intros r. simpl. fold seq vid hash. rewrite elem_of_app, list_elem_of_singleton.
    destruct commit_blobs as (_&(bn&Hbn&_)&Hold). simpl in Hbn, Hold. fold hash in Hbn, Hold.
    intros [Hr| ->]; simpl.
    + destruct (di_snap d Hd r Hr) as (h&b&Hs&Hb). destruct (Hold _ _ Hb) as (b'&Hb'&_).
      exists h, b'. rewrite lookup_insert_ne; [done|]. intros E. apply Hvid. rewrite E.
      by apply list_elem_of_fmap_2.
    + exists hash, bn. by rewrite lookup_insert_eq.
  - intros x. simpl. fold seq vid hash. rewrite lookup_insert_is_Some', commit_known.
    intros [->|Hx%(di_snap_dom d Hd)]; auto.
  - simpl. fold seq vid. rewrite fmap_app. apply NoDup_app. split_and!; [apply Hd| |apply NoDup_singleton].
    simpl. set_solver.
  - intros e. rewrite commit_known. simpl. fold seq vid. rewrite elem_of_app, list_elem_of_fmap.
    intros [He%(di_edges d Hd)|(p&->&_)]; auto.
  - intros t' i'. rewrite commit_high. case_decide as E.
    + destruct E as [<- <-]. rewrite commit_sql_rows.
      econstructor; [apply (di_rows d Hd)|simpl; unfold seq; lia| |].
      * rewrite sql_vids. intros (r&E&[Hr _]%elem_of_doc_rows)%list_elem_of_fmap. apply Hvid.
        change vid with (rvid (mkRow (mkVersion t i vid seq data (FormatNano now) true) ps)).
        rewrite E. by apply list_elem_of_fmap_2.
      * intros p Hp. rewrite sql_vids. by apply Hpar.
    + rewrite commit_sql_rows_other by done. apply Hd.
  - intros t' i'. rewrite commit_doc_rows. simpl. fold seq. rewrite lookup_insert_is_Some'.
    case_decide as E; [left; naive_solver|]. intros Hr. right. by apply (di_high d Hd).
  - intros t1 i1 t2 i2 Ek. rewrite !commit_doc_rows. repeat case_decide; destruct_and?; subst; intros H1 H2.
    + done.
    + destruct (Hkey t2 i2); auto.
    + destruct (Hkey t1 i1); auto.
    + by apply (di_keys d Hd).
Qed.
End commit.

(** The cache of a document other than the one just invalidated still records
    its unchanged rows. *)
Lemma cache_ok_invalidate s d t i :
  cache_ok s →
  (∀ t' i', docKey t' i' ≠ docKey t i → sql_rows d t' i' = sql_rows (db s) t' i') →
  cache_ok (invalidate (docKey t i) (mkSqlite d (dagCache s) (dagGen s))).
Proof.
  intros Hc Ho t' i' dag. simpl. intros [Hk Hl]%lookup_delete_Some. rewrite <-sql_rows_nil, Ho by done.
  rewrite sql_rows_nil. by apply Hc.
Qed.

Lemma key_other t i t' i' : docKey t' i' ≠ docKey t i → ¬ (t = t' ∧ i = i').
Proof. by intros H [-> ->]. Qed.

Lemma sql_appendTx_law s now t i data ps r s' :
  sql_inv s → sql_fresh s t i data → sql_appendVersionTx now t i data ps s = (r, s') →
  match r with
  | Ok v =>
      sql_inv s' ∧
      (∀ t' i', docKey t' i' ≠ docKey t i → sql_hist s' t' i' = sql_hist s t' i') ∧
      (∀ p, p ∈ ps → p ∈ vids (sql_rows (db s) t i)) ∧
      (VersionID v ∉ vids (sql_rows (db s) t i)) ∧
      v = mkVersion t i
            (hash_short (versionIDInput (docKey t i) (hwm (sql_hist s t i) + 1) data) 16)
            (hwm (sql_hist s t i) + 1) data (FormatNano now) true ∧
      sql_hist s' t i = mkHist (rows (sql_hist s t i) ++ [mkRow v ps]) (Seq v)
  | Err _ => rollback s s' = s
  end.
Proof.
  intros [Hd Hc] Hf. unfold sql_appendVersionTx, exec, mbind, st_bind.
  destruct (appendVersionRows now t i data ps (db s)) as [[v|e] d'] eqn:E.
  2:{ intros [= <- <-]. unfold rollback. by destruct s. }
  intros [= <- <-].
  apply appendVersionRows_run in E as (Hp&Hv&_&Hb&->&->).
  pose proof (commit_inv (db s) now t i data ps Hd Hp Hv Hb Hf) as Hd'.
  pose proof (commit_sql_rows (db s) now t i data ps Hd Hp Hv Hb Hf) as Hr.
  pose proof (commit_sql_rows_other (db s) now t i data ps Hd Hp Hv Hb Hf) as Hro.
  pose proof (commit_high (db s) now t i data ps Hp Hv Hb Hf) as Hh.
  split; [split; [done|]|].
  { apply cache_ok_invalidate; [done|]. intros t' i' Hk. by apply Hro, key_other. }
  split.
  { intros t' i' Hk%key_other. unfold sql_hist. simpl. rewrite Hro, Hh, decide_False by done. done. }
  unfold sql_hist. simpl. rewrite sql_vids, Hr, Hh, decide_True by done. split_and!; try done.
  intros (w&Ew&[Hw _]%elem_of_doc_rows)%list_elem_of_fmap. apply Hv. rewrite Ew.
  by apply list_elem_of_fmap_2.
Qed.

Lemma sql_append_law s now t i data ps r s' :
  sql_inv s → sql_fresh s t i data → sql_AppendVersion now t i data ps s = (r, s') →
  sql_inv s' ∧
  (∀ t' i', docKey t' i' ≠ docKey t i → sql_hist s' t' i' = sql_hist s t' i') ∧
  match r with
  | Ok v =>
      (∀ p, p ∈ ps → p ∈ vids (rows (sql_hist s t i))) ∧
      (VersionID v ∉ vids (rows (sql_hist s t i))) ∧
      v = mkVersion t i
            (hash_short (versionIDInput (docKey t i) (hwm (sql_hist s t i) + 1) data) 16)
            (hwm (sql_hist s t i) + 1) data (FormatNano now) true ∧
      sql_hist s' t i = mkHist (rows (sql_hist s t i) ++ [mkRow v ps]) (Seq v)
  | Err e => sql_hist s' t i = sql_hist s t i
  end.
Proof.
  intros Hi Hf. unfold sql_AppendVersion, immediate.
  destruct (sql_appendVersionTx now t i data ps s) as [r1 s1] eqn:E.
  pose proof (sql_appendTx_law s now t i data ps r1 s1 Hi Hf E) as Hr.
  destruct r1 as [v|e]; intros [= <- <-].
  - destruct Hr as (H1&H2&H3). exact (conj H1 (conj H2 H3)).
  - by rewrite Hr.
Qed.

(** ** Reads *)

Lemma getSnapshotRow_ok d r :
  db_inv d → r ∈ t_versions d → getSnapshotRow (c_vid r) d = (Ok (sql_data d (c_vid r)), d).
Proof.
  intros Hd Hr. destruct (di_snap d Hd r Hr) as (h&b&Hs&Hb).
  unfold getSnapshotRow, sql_data. rewrite Hs. simpl. by rewrite Hb.
Qed.

Lemma hydrate_ok d t i l :
  db_inv d → (∀ r, r ∈ l → r ∈ doc_rows d t i) →
  hydrate t i l d = (Ok (rv <$> (sql_row d <$> l)), d).
Proof.
  intros Hd. induction l as [|r l IH]; intros Hl; simpl; [done|].
  pose proof (Hl r ltac:(set_solver)) as (Hr&<-&<-)%elem_of_doc_rows.
  unfold mbind, st_bind. rewrite getSnapshotRow_ok, IH by (done || set_solver). done.
Qed.

Lemma sql_list_law s t i :
  sql_inv s → sql_ListVersions t i s = (Ok (rv <$> rows (sql_hist s t i)), s).
Proof.
  intros [Hd _]. unfold sql_ListVersions, exec, listVersionRows, gets, mbind, st_bind.
  rewrite order_by_seq_id, hydrate_ok by done. by destruct s.
Qed.

Lemma sql_snapshot_law s t i r :
  sql_inv s → r ∈ rows (sql_hist s t i) → sql_GetSnapshot (rvid r) s = (Ok (Data (rv r)), s).
Proof.
  intros [Hd _] (q&->&[Hq _]%elem_of_doc_rows)%list_elem_of_fmap.
  unfold sql_GetSnapshot, exec, rvid. simpl. rewrite getSnapshotRow_ok by done. by destruct s.
Qed.

Lemma sql_parents_law s t i :
  sql_inv s →
  sql_parentsForTx t i s =
    (Ok (match last (rows (sql_hist s t i)) with None => [] | Some r => [rvid r] end), s).
Proof.
  intros [Hd _]. unfold sql_parentsForTx. rewrite order_by_seq_id by done. do 2 f_equal.
  simpl. unfold sql_rows. rewrite fmap_last. by destruct (last (doc_rows (db s) t i)).
Qed.

(** ** The DAG *)

Lemma parents_in_edges d ids x : x ∈ ids → parents_in d ids x = edges_of d x.
Proof.
  intros Hx. unfold parents_in, edges_of. f_equal. rewrite list_filter_filter.
  apply list_filter_iff'. intros e _. split; [tauto|]. intros ->. auto.
Qed.

Lemma appendAll_ok d par l0 l dag hw :
  dag_repr dag (sql_row d <$> l0) → rows_wf (sql_row d <$> (l0 ++ l)) hw →
  (∀ r, r ∈ l → par (c_vid r) = edges_of d (c_vid r)) →
  ∃ dag', appendAll par l dag = Ok dag' ∧ dag_repr dag' (sql_row d <$> (l0 ++ l)).
Proof.
  revert l0 dag. induction l as [|r l IH]; intros l0 dag Hd Hwf Hp; simpl.
  { exists dag. by rewrite app_nil_r. }
  rewrite (cons_middle r l0 l) in *. rewrite app_assoc in *.
  destruct (dag_repr_snoc dag (sql_row d <$> l0) (sql_row d r) hw (c_timestamp r) (c_hash r)) as (d1&E&H1).
  { done. } { rewrite fmap_app in Hwf. apply rows_wf_prefix in Hwf. by rewrite fmap_app in Hwf. }
  rewrite Hp by set_solver. unfold rvid in E. simpl in E. rewrite E. apply IH; [|done|].
  - by rewrite fmap_app.
  - intros q Hq. apply Hp. set_solver.
Qed.

Lemma buildDAG_ok d t i :
  db_inv d → ∃ dag, buildDAG d t i = Ok dag ∧ dag_repr dag (sql_rows d t i).
Proof.
  intros Hd. unfold buildDAG. rewrite order_by_seq_id by done.
  apply (appendAll_ok d _ [] (doc_rows d t i) version.NewDAG (high_water d t i)).
  - apply dag_repr_new.
  - apply (di_rows d Hd).
  - intros r Hr. by apply parents_in_edges, list_elem_of_fmap_2.
Qed.

Lemma sql_load_dag_law s t i :
  sql_inv s → rows (sql_hist s t i) ≠ [] →
  ∃ dag s', sql_LoadDAG t i s = (Ok dag, s') ∧ dag_repr dag (rows (sql_hist s t i)) ∧
    sql_inv s' ∧ ∀ t' i', sql_hist s' t' i' = sql_hist s t' i'.
Proof.
  intros [Hd Hc] Hne. simpl in *. rewrite sql_rows_nil in Hne.
  unfold sql_LoadDAG, loadStart, loadFinish. destruct (dagCache s !! docKey t i) as [dag|] eqn:Ec.
  { exists dag, s. split_and!; try done. by apply Hc. }
  destruct (buildDAG_ok (db s) t i Hd) as (dag&->&Hr). rewrite Z.eqb_refl. simpl.
  exists dag. eexists. split; [reflexivity|]. split; [done|]. split; [|done]. split; [done|].
  intros t' i' dag'. simpl. intros [[Ek <-]|[_ Hl]]%lookup_insert_Some Hne'.
  - destruct (di_keys _ Hd t' i' t i) as [-> ->]; done.
  - by apply Hc.
Qed.

(** ** SetLive *)

Lemma set_live_doc_rows d t i x b :
  doc_rows (set_versions (set_live_rows x b (t_versions d)) d) t i = set_live_rows x b (doc_rows d t i).
Proof.
  unfold doc_rows, set_live_rows. simpl. rewrite filter_fmap. f_equal.
  apply list_filter_iff'. intros r _. unfold of_doc. by case_decide.
Qed.

Lemma set_live_vids x b l : c_vid <$> set_live_rows x b l = c_vid <$> l.
Proof. unfold set_live_rows. rewrite <-list_fmap_compose. apply list_fmap_ext_in. intros r _. simpl. by case_decide. Qed.

Lemma set_live_sql_rows d t i x b :
  sql_rows (set_versions (set_live_rows x b (t_versions d)) d) t i =
  set_live_row x b <$> sql_rows d t i.
Proof.
  unfold sql_rows. rewrite set_live_doc_rows. unfold set_live_rows. rewrite <-!list_fmap_compose.
  apply list_fmap_ext_in. intros r _. simpl. unfold set_live_row, rvid, sql_row. simpl.
  case_decide; [|done]. by destruct b.
Qed.

Lemma set_live_rows_id x b (l : list Row) : (∀ r, r ∈ l → rvid r ≠ x) → set_live_row x b <$> l = l.
Proof.
  intros Hl. rewrite <-(list_fmap_id l) at 2. apply list_fmap_ext_in. intros r Hr.
  unfold set_live_row. by rewrite decide_False by auto.
Qed.

(** Version ids belong to one document. *)
Lemma sql_vid_owner d t i t' i' x :
  db_inv d → x ∈ c_vid <$> doc_rows d t i → x ∈ c_vid <$> doc_rows d t' i' → t = t' ∧ i = i'.
Proof.
  intros Hd (r&->&(Hr&<-&<-)%elem_of_doc_rows)%list_elem_of_fmap
    (r'&E&(Hr'&<-&<-)%elem_of_doc_rows)%list_elem_of_fmap.
  by rewrite (vid_inj d r r' (di_vid d Hd) Hr Hr' E).
Qed.

Lemma set_live_db_inv d x b :
  db_inv d → db_inv (set_versions (set_live_rows x b (t_versions d)) d).
Proof.
  intros Hd. set (d' := set_versions _ d).
  assert (∀ y, known_version d' y ↔ known_version d y) as Hk.
  { intros y. unfold known_version, d'. simpl. by rewrite set_live_vids. }
  assert (∀ t i, doc_rows d' t i = [] ↔ doc_rows d t i = []) as Hn.
  { intros t i. unfold d'. rewrite set_live_doc_rows. unfold set_live_rows. by destruct (doc_rows d t i). }
  assert (∀ t i, high_water d' t i = high_water d t i) as Hh.
  { intros t i. unfold high_water. change (t_high_water d') with (t_high_water d).
    destruct (t_high_water d !! (t, i)) eqn:E; [done|].
    destruct (decide (doc_rows d t i = [])) as [E0|E0]; [|by destruct (di_high d Hd t i E0); congruence].
    rewrite E0. apply Hn in E0. by rewrite E0. }
  split; try apply Hd.
  - intros r Hr. apply (list_elem_of_fmap_2 c_vid) in Hr. unfold d' in Hr. simpl in Hr.
    rewrite set_live_vids in Hr. apply list_elem_of_fmap in Hr as (q&->&Hq). by apply (di_snap d Hd).
  - intros y. rewrite Hk. apply (di_snap_dom d Hd).
  - unfold d'. simpl. rewrite set_live_vids. apply Hd.
  - intros e. rewrite Hk. apply (di_edges d Hd).
  - intros t i. rewrite Hh. unfold d'. rewrite set_live_sql_rows. by apply rows_wf_set_live, Hd.
  - intros t i. rewrite Hn. apply (di_high d Hd).
  - intros t i t' i'. rewrite !Hn. apply (di_keys d Hd).
Qed.

Lemma has_child_edges d t i x :
  db_inv d → x ∈ vids (sql_rows d t i) →
  has_child (sql_rows d t i) x ↔ Exists (λ e, e.2 = x) (t_parents d).
Proof.
  intros Hd Hx. rewrite Exists_exists. split.
  - intros (r&(q&->&_)%list_elem_of_fmap&Hp). simpl in Hp.
    apply list_elem_of_fmap in Hp as (e&->&[_ He]%list_elem_of_filter). eauto.
  - intros (e&He&<-). destruct (edge_same_doc d e Hd He) as (r&Hr&Ev&Hp&Hv).
    rewrite sql_vids in Hx, Hv. destruct (sql_vid_owner d _ _ _ _ _ Hd Hx Hv) as [-> ->].
    exists (sql_row d r). split; [|done]. by apply list_elem_of_fmap_2, elem_of_doc_rows.
Qed.

Lemma sql_set_live_law s t i x b r s' :
  sql_inv s → sql_SetLive t i x b s = (r, s') →
  sql_inv s' ∧ (∀ t' i' d, sql_fresh s t' i' d → sql_fresh s' t' i' d) ∧
  (∀ t' i', docKey t' i' ≠ docKey t i → sql_hist s' t' i' = sql_hist s t' i') ∧
  match r with
  | Ok _ =>
      x ∈ vids (rows (sql_hist s t i)) ∧ ¬ has_child (rows (sql_hist s t i)) x ∧
      sql_hist s' t i = mkHist (set_live_row x b <$> rows (sql_hist s t i)) (hwm (sql_hist s t i))
  | Err e =>
      sql_hist s' t i = sql_hist s t i ∧
      (errors_Is e ErrNotAHead = true →
       x ∈ vids (rows (sql_hist s t i)) ∧ has_child (rows (sql_hist s t i)) x) ∧
      (x ∈ vids (rows (sql_hist s t i)) → errors_Is e ErrNotAHead = true)
  end.
Proof.
  intros [Hd Hc]. unfold sql_SetLive, immediate, sql_setLiveTx, exec, setLiveRows, seen, modify, mbind, st_bind.
  assert (rollback s (mkSqlite (db s) (dagCache s) (dagGen s)) = s) as Hb by by destruct s.
  simpl. rewrite sql_vids. case_bool_decide as Hx; simpl.
  2:{ intros [= <- <-]. rewrite Hb. split_and!; done. }
  assert (x ∈ vids (sql_rows (db s) t i)) as Hx' by by rewrite sql_vids.
  pose proof (has_child_edges (db s) t i x Hd Hx') as Hch. case_decide as He.
  { intros [= <- <-]. rewrite Hb. split_and!; try done. intros _. split; [done|]. by apply Hch. }
  intros [= <- <-]. set (d' := set_versions _ _).
  pose proof (set_live_db_inv (db s) x b Hd) as Hd'. fold d' in Hd'.
  assert (∀ t' i', sql_rows d' t' i' = set_live_row x b <$> sql_rows (db s) t' i') as Hr.
  { intros. apply set_live_sql_rows. }
  assert (∀ t' i', doc_rows d' t' i' = [] ↔ doc_rows (db s) t' i' = []) as Hn.
  { intros. rewrite <-!sql_rows_nil, Hr. by destruct (sql_rows (db s) t' i'). }
  assert (∀ t' i', high_water d' t' i' = high_water (db s) t' i') as Hh.
  { intros t' i'. unfold high_water. change (t_high_water d') with (t_high_water (db s)).
    destruct (t_high_water (db s) !! (t', i')) eqn:E; [done|].
    destruct (decide (doc_rows (db s) t' i' = [])) as [E0|E0];
      [|by destruct (di_high _ Hd t' i' E0); congruence].
    rewrite E0. apply Hn in E0. by rewrite E0. }
  assert (∀ t' i', docKey t' i' ≠ docKey t i → sql_rows d' t' i' = sql_rows (db s) t' i') as Ho.
  { intros t' i' Hk%key_other. rewrite Hr. apply set_live_rows_id.
    intros q Hq <-. apply Hk. eapply (sql_vid_owner (db s)); [done|exact Hx|].
    rewrite <-sql_vids. by apply rvid_in_vids. }
  split; [split; [done|by apply cache_ok_invalidate]|]. split; [|split].
  - intros t' i' dat Hf t1 i1 Hk. simpl. rewrite Hn. by apply Hf.
  - intros t' i' Hk. unfold sql_hist. simpl. by rewrite Ho, Hh.
  - split_and!; [done|by rewrite Hch|]. unfold sql_hist. simpl. by rewrite Hr, Hh.
Qed.

(** ** Counting and releasing references *)

Lemma occ_perm h l k : l ≡ₚ k → occ h l = occ h k.
Proof. intros E. unfold occ. by rewrite E. Qed.

Lemma blob_inv_perm bl m l k : l ≡ₚ k → blob_inv bl m l → blob_inv bl m k.
Proof. intros E [H1 H2]. split; [|done]. intros h. by rewrite H1, (occ_perm h l k E). Qed.

Lemma blob_inv_move_list bl m G pend :
  NoDup G → blob_inv bl m pend → blob_inv bl (without G m) (omap (m !!.) G ++ pend).
Proof.
  revert m pend. induction G as [|x G IH]; intros m pend Hnd Hb; csimpl; [by rewrite without_nil|].
  apply NoDup_cons in Hnd as [Hn Hnd]. rewrite without_cons.
  assert (∀ y, y ∈ G → delete x m !! y = m !! y) as Hdel.
  { intros y Hy. rewrite lookup_delete_ne; [done|]. by intros ->. }
  assert (omap (delete x m !!.) G = omap (m !!.) G) as Hom.
  { by apply list_omap_ext_in. }
  destruct (m !! x) as [h|] eqn:E.
  - apply (blob_inv_perm bl _ (omap (delete x m !!.) G ++ h :: pend)).
    + rewrite Hom. simpl. by rewrite Permutation_middle.
    + apply IH; [done|]. by apply (blob_inv_move bl m x h).
  - rewrite <-Hom. apply IH; [done|]. by rewrite delete_id.
Qed.

Lemma count_hashes_lookup l h :
  count_hashes l !! h = if decide (occ h l = 0%nat) then None else Some (Z.of_nat (occ h l)).
Proof.
  unfold count_hashes. induction l as [|x l IH] using rev_ind; [done|].
  rewrite foldl_app. simpl. rewrite lookup_insert.
  assert (occ h (l ++ [x]) = (occ h l + if decide (x = h) then 1 else 0)%nat) as Ho.
  { rewrite (occ_perm h (l ++ [x]) (x :: l)) by by rewrite Permutation_app_comm.
    rewrite occ_cons. lia. }
  rewrite Ho. destruct (decide (x = h)) as [->|Hne].
  - rewrite IH. rewrite (decide_False (P := (occ h l + 1)%nat = 0%nat)) by lia.
    case_decide as E; simpl; f_equal; lia.
  - rewrite IH. repeat case_decide; (done || lia || (f_equal; lia)).
Qed.

Lemma occ_pos h l : occ h l ≠ 0%nat ↔ h ∈ l.
Proof.
  unfold occ. rewrite length_zero_iff_nil. split.
  - intros Hne. destruct (filter (h =.) l) as [|y k] eqn:E; [done|].
    assert (y ∈ filter (h =.) l) as [-> ?]%list_elem_of_filter by (rewrite E; set_solver). done.
  - intros Hh E. assert (h ∈ filter (h =.) l) as H by by apply list_elem_of_filter.
    rewrite E in H. set_solver.
Qed.

Lemma elem_of_dom_count l h : h ∈ dom (count_hashes l) ↔ h ∈ l.
Proof.
  rewrite elem_of_dom, count_hashes_lookup, <-occ_pos. case_decide as E.
  - split; [by intros [? [=]]|done].
  - split; eauto.
Qed.

Lemma occ_filter_ne h h' l :
  occ h' (filter (h ≠.) l) = if decide (h = h') then 0%nat else occ h' l.
Proof.
  unfold occ. rewrite list_filter_filter. case_decide as E.
  - subst. rewrite list_filter_none; [done|]. naive_solver.
  - f_equal. apply list_filter_iff'. naive_solver.
Qed.

Lemma decrement_ok d m h n pend pend' :
  blob_inv (t_blobs d) m pend → 0 < n →
  (∀ h', Z.of_nat (occ h' pend) = (if decide (h = h') then n else 0) + Z.of_nat (occ h' pend')) →
  decrementSnapshotBlob h n d = (Ok tt, set_blobs (drop_refs (t_blobs d) h n) d).
Proof.
  intros Hb Hn Ho. destruct (drop_refs_inv (t_blobs d) m h n pend pend' Hb Hn Ho) as ((b&E&Hle)&_).
  unfold decrementSnapshotBlob, drop_refs. rewrite E.
  destruct (Z.ltb_spec (refcount b) n); [lia|]. by destruct (Z.eqb_spec (refcount b) n).
Qed.

(** Releasing every counted hash, in whatever order the map yields them. *)
Lemma releaseBlobs_ok counts bytes ks pend d m :
  NoDup ks → (∀ h, h ∈ pend → h ∈ ks) →
  (∀ h, h ∈ ks → counts !! h = Some (Z.of_nat (occ h pend)) ∧ h ∈ pend) →
  blob_inv (t_blobs d) m pend →
  ∃ freed bl', releaseBlobs counts bytes ks d = (Ok freed, set_blobs bl' d) ∧
    for_each ks (λ h, decrementSnapshotBlob h (default 0 (counts !! h))) d = (Ok tt, set_blobs bl' d) ∧
    blob_inv bl' m [] ∧ keeps (t_blobs d) bl' m.
Proof.
  revert pend d. induction ks as [|h ks IH]; intros pend d Hnd Hsub Hc Hb; simpl.
  - exists [], (t_blobs d). assert (pend = []) as ->.
    { destruct pend as [|h pend]; [done|]. exfalso. specialize (Hsub h). set_solver. }
    assert (set_blobs (t_blobs d) d = d) as -> by by destruct d.
    split_and!; [done..|apply keeps_refl].
  - apply NoDup_cons in Hnd as [Hn Hnd].
    destruct (Hc h ltac:(set_solver)) as [Ec Hin]. apply occ_pos in Hin as Hpos.
    set (pend' := filter (h ≠.) pend).
    assert (∀ h', Z.of_nat (occ h' pend) =
      (if decide (h = h') then Z.of_nat (occ h pend) else 0) + Z.of_nat (occ h' pend')) as Ho.
    { intros h'. unfold pend'. rewrite occ_filter_ne. case_decide; subst; lia. }
    assert (0 < Z.of_nat (occ h pend)) as H0 by lia.
    rewrite Ec. simpl. unfold mbind, st_bind, gets.
    rewrite (decrement_ok d m h _ pend pend' Hb H0 Ho).
    destruct (drop_refs_inv (t_blobs d) m h _ pend pend' Hb H0 Ho) as (_&Hb'&Hs&Hk).
    destruct (IH pend' (set_blobs (drop_refs (t_blobs d) h (Z.of_nat (occ h pend))) d))
      as (freed&bl'&E1&E2&Hbl&Hs'&Hk'); [done|..].
    + intros h' [Hne Hp]%list_elem_of_filter. specialize (Hsub h' Hp). set_solver.
    + intros h' Hh'. destruct (Hc h' ltac:(set_solver)) as [Ec' Hin'].
      assert (h ≠ h') by (by intros ->). split; [|by apply list_elem_of_filter].
      unfold pend'. by rewrite occ_filter_ne, decide_False.
    + done.
    + rewrite E1, E2. eexists _, bl'. split_and!; [reflexivity|done|done|].
      split; [by eapply data_sub_trans|]. intros h' Hp Hsm. apply Hk'; [done|]. apply Hk; [lia|done].
Qed.

(** ** Removing versions *)

Section remove.
Context (d d' : DB) (t i : string) (G : list string).
Hypothesis Hd : db_inv d.
Hypothesis HG : ∀ x, x ∈ G → x ∈ c_vid <$> doc_rows d t i.
Hypothesis Hv : t_versions d' = filter (λ r, c_vid r ∉ G) (t_versions d).
Hypothesis Hp : t_parents d' = filter (λ e, e.1 ∉ G) (t_parents d).
Hypothesis Hs : t_snapshots d' = without G (t_snapshots d).
Hypothesis Hb : blob_inv (t_blobs d') (t_snapshots d') [].
Hypothesis Hk : keeps (t_blobs d) (t_blobs d') (t_snapshots d').
Hypothesis Hhw : ∀ t' i', ¬ (t = t' ∧ i = i') → t_high_water d' !! (t', i') = t_high_water d !! (t', i').
Hypothesis Hhw_doc : doc_rows d' t i ≠ [] → t_high_water d' !! (t, i) = t_high_water d !! (t, i).
Hypothesis Hwf : rows_wf (filter (λ r, rvid r ∉ G) (sql_rows d t i)) (high_water d' t i).

Lemma remove_doc_rows t' i' : doc_rows d' t' i' = filter (λ r, c_vid r ∉ G) (doc_rows d t' i').
Proof using Hv.
  unfold doc_rows. rewrite Hv, !list_filter_filter. apply list_filter_iff'. tauto.
Qed.

Lemma remove_old r : r ∈ t_versions d' ↔ r ∈ t_versions d ∧ c_vid r ∉ G.
Proof using Hv. rewrite Hv, list_elem_of_filter. tauto. Qed.

Lemma remove_snap r : r ∈ t_versions d' →
  ∃ h b b', t_snapshots d !! c_vid r = Some h ∧ t_snapshots d' !! c_vid r = Some h ∧
            t_blobs d !! h = Some b ∧ t_blobs d' !! h = Some b' ∧ bdata b' = bdata b.
Proof using Hd Hk Hs Hv.
  intros [Hr Hn]%remove_old. destruct (di_snap d Hd r Hr) as (h&b&Esn&Eb).
  assert (t_snapshots d' !! c_vid r = Some h) as Esn' by (rewrite Hs; by apply lookup_without).
  destruct Hk as [Hsub Hkeep]. destruct (Hkeep h) as [b' Eb']; [by eapply refs_pos|eauto|].
  destruct (Hsub _ _ Eb') as (b1&Eb1&E). exists h, b, b'. split_and!; try done. congruence.
Qed.

Lemma remove_row r : r ∈ t_versions d' → sql_row d' r = sql_row d r.
Proof using Hd Hk Hp Hs Hv.
  intros Hr. destruct (remove_snap r Hr) as (h&b&b'&E1&E2&E3&E4&E5).
  apply remove_old in Hr as [_ Hn]. unfold sql_row. f_equal.
  - f_equal. unfold sql_data. rewrite E1, E2. simpl. by rewrite E3, E4.
  - unfold edges_of. f_equal. rewrite Hp, list_filter_filter. apply list_filter_iff'.
    intros e _. split; [tauto|]. intros ->. done.
Qed.

Lemma remove_sql_rows t' i' : sql_rows d' t' i' = filter (λ r, rvid r ∉ G) (sql_rows d t' i').
Proof using Hd Hk Hp Hs Hv.
  unfold sql_rows. rewrite filter_fmap, remove_doc_rows. apply list_fmap_ext_in.
  intros r [Hn [Hr _]%elem_of_doc_rows]%list_elem_of_filter. apply remove_row, remove_old. done.
Qed.

Lemma remove_other t' i' r : ¬ (t = t' ∧ i = i') → r ∈ doc_rows d t' i' → c_vid r ∉ G.
Proof using Hd HG.
  intros Hne Hr Hin. apply Hne, (sql_vid_owner d t i t' i' (c_vid r) Hd); [auto|].
  by apply list_elem_of_fmap_2.
Qed.

Lemma remove_doc_rows_other t' i' : ¬ (t = t' ∧ i = i') → doc_rows d' t' i' = doc_rows d t' i'.
Proof using Hd HG Hv.
  intros Hne. rewrite remove_doc_rows. apply list_filter_all. intros r. by apply remove_other.
Qed.

Lemma remove_sql_rows_other t' i' : ¬ (t = t' ∧ i = i') → sql_rows d' t' i' = sql_rows d t' i'.
Proof using Hd HG Hk Hp Hs Hv.
  intros Hne. rewrite remove_sql_rows. apply list_filter_all.
  intros r (q&->&Hq)%list_elem_of_fmap. by eapply remove_other.
Qed.

Lemma remove_high_other t' i' : ¬ (t = t' ∧ i = i') → high_water d' t' i' = high_water d t' i'.
Proof using Hd HG Hhw Hv.
  intros Hne. unfold high_water. by rewrite Hhw, remove_doc_rows_other.
Qed.

Lemma remove_nonempty t' i' : doc_rows d' t' i' ≠ [] → doc_rows d t' i' ≠ [].
Proof using Hv. rewrite remove_doc_rows. intros H E. apply H. by rewrite E. Qed.

Lemma remove_db_inv : db_inv d'.
Proof using All.
  split.
  - done.
  - intros r (h&b&b'&_&E&_&E'&_)%remove_snap. eauto.
  - intros x [h Hx]. rewrite Hs in Hx. apply lookup_without in Hx as [Hx Hn].
    pose proof (di_snap_dom d Hd x ltac:(eauto)) as (r&->&Hr)%list_elem_of_fmap.
    apply list_elem_of_fmap_2, remove_old. done.
  - rewrite Hv. pose proof (NoDup_filter (λ x, x ∉ G) _ (di_vid d Hd)) as H. by rewrite filter_fmap in H.
  - intros e. rewrite Hp, list_elem_of_filter. intros [Hn He].
    pose proof (di_edges d Hd e He) as (r&E&Hr)%list_elem_of_fmap. rewrite E in *.
    apply list_elem_of_fmap_2, remove_old. done.
  - intros t' i'. destruct (decide (t = t' ∧ i = i')) as [[<- <-]|Hne].
    + by rewrite remove_sql_rows.
    + rewrite remove_sql_rows_other, remove_high_other by done. apply Hd.
  - intros t' i' Hne'. apply remove_nonempty in Hne' as Hne0.
    destruct (decide (t = t' ∧ i = i')) as [[<- <-]|Hne].
    + rewrite Hhw_doc by done. by apply (di_high d Hd).
    + rewrite Hhw by done. by apply (di_high d Hd).
  - intros t1 i1 t2 i2 E H1%remove_nonempty H2%remove_nonempty. by apply (di_keys d Hd).
Qed.
End remove.

(** Deleting rows closed under children passes the foreign-key check. *)
Lemma fk_ok d t i (G : list string) :
  db_inv d → (∀ x, x ∈ G → x ∈ c_vid <$> doc_rows d t i) →
  (∀ r p, r ∈ sql_rows d t i → p ∈ rparents r → p ∈ G → rvid r ∈ G) →
  ∀ e, e ∈ t_parents d → e.2 ∈ G → e.1 ∈ G.
Proof.
  intros Hd HG Hcl e He H2. destruct (edge_same_doc d e Hd He) as (r&Hr&Ev&Hp&Hv).
  rewrite sql_vids in Hv. destruct (sql_vid_owner d _ _ _ _ _ Hd (HG _ H2) Hv) as [-> ->].
  rewrite <-Ev. apply (Hcl (sql_row d r) e.2); try done.
  by apply list_elem_of_fmap_2, elem_of_doc_rows.
Qed.

Lemma deleteVersionRows_ok (P : vrow → Prop) `{∀ r, Decision (P r)} (d : DB) (G : list string) :
  (∀ r, r ∈ t_versions d → P r ↔ c_vid r ∈ G) →
  (∀ x, x ∈ G → known_version d x) →
  (∀ e, e ∈ t_parents d → e.2 ∈ G → e.1 ∈ G) →
  deleteVersionRows P d =
    (Ok tt, mkDB (filter (λ r, c_vid r ∉ G) (t_versions d)) (filter (λ e, e.1 ∉ G) (t_parents d))
              (t_blobs d) (without G (t_snapshots d)) (t_high_water d)).
Proof.
  intros HP HG Hfk. unfold deleteVersionRows. set (gone := c_vid <$> _).
  assert (∀ x, x ∈ gone ↔ x ∈ G) as Hg.
  { intros x. unfold gone. rewrite list_elem_of_fmap. setoid_rewrite list_elem_of_filter. split.
    - intros (r&->&Hr&Hin). by apply HP.
    - intros Hx. pose proof (HG x Hx) as (r&->&Hr)%list_elem_of_fmap. exists r. by rewrite HP. }
  rewrite decide_False.
  - do 2 f_equal.
    + apply list_filter_iff'. intros r Hr. by rewrite HP.
    + apply list_filter_iff'. intros e _. by rewrite Hg.
    + unfold without. apply map_filter_ext. intros x h _. simpl. by rewrite Hg.
  - rewrite Exists_exists. intros (e&[H1 He]%list_elem_of_filter&H2).
    rewrite Hg in H1, H2. by apply H1, Hfk.
Qed.

(** ** DeleteHistory *)

Lemma omap_fmap {A B C} (f : B → option C) (g : A → B) (l : list A) :
  omap f (g <$> l) = omap (λ x, f (g x)) l.
Proof. induction l as [|x l IH]; [done|]. csimpl. by rewrite IH. Qed.

Lemma doc_vids_NoDup d t i : db_inv d → NoDup (c_vid <$> doc_rows d t i).
Proof. intros Hd. rewrite <-sql_vids. eapply rows_wf_NoDup, (di_rows d Hd). Qed.

(** The references of a list of versions leave the indirection and are pending. *)
Lemma pending d (G : list string) :
  db_inv d → NoDup G →
  blob_inv (t_blobs d) (without G (t_snapshots d)) (omap (t_snapshots d !!.) G).
Proof.
  intros Hd HG. rewrite <-(app_nil_r (omap _ G)). apply blob_inv_move_list; [done|apply Hd].
Qed.

(** Ranging over the count map of [hs] meets every pending hash once. *)
Lemma release_counts bytes hs d m :
  blob_inv (t_blobs d) m hs →
  ∃ freed bl', releaseBlobs (count_hashes hs) bytes (range_order 0 (dom (count_hashes hs))) d =
                 (Ok freed, set_blobs bl' d) ∧
    for_each (range_order 0 (dom (count_hashes hs)))
      (λ h, decrementSnapshotBlob h (default 0 (count_hashes hs !! h))) d = (Ok tt, set_blobs bl' d) ∧
    blob_inv bl' m [] ∧ keeps (t_blobs d) bl' m.
Proof.
  intros Hb. apply (releaseBlobs_ok _ _ _ hs); [apply range_order_NoDup|..|done].
  - intros h. by rewrite range_order_elem, elem_of_dom_count.
  - intros h. rewrite range_order_elem, elem_of_dom_count. intros Hh. split; [|done].
    rewrite count_hashes_lookup, decide_False; [done|]. by apply occ_pos.
Qed.

Lemma deleteHistoryRows_ok d t i :
  db_inv d → ∃ d', deleteHistoryRows t i d = (Ok tt, d') ∧ db_inv d' ∧
    doc_rows d' t i = [] ∧ high_water d' t i = 0 ∧
    ∀ t' i', ¬ (t = t' ∧ i = i') →
      sql_rows d' t' i' = sql_rows d t' i' ∧ high_water d' t' i' = high_water d t' i'.
Proof.
  intros Hd. set (G := c_vid <$> doc_rows d t i).
  assert (∀ r, r ∈ t_versions d → of_doc t i r ↔ c_vid r ∈ G) as HP.
  { intros r Hr. unfold G. rewrite list_elem_of_fmap. split.
    - intros H. exists r. split; [done|]. by apply elem_of_doc_rows.
    - intros (q&E&(Hq&<-&<-)%elem_of_doc_rows). by rewrite (vid_inj d r q (di_vid d Hd) Hr Hq E). }
  assert (deleteVersionRows (of_doc t i) d = (Ok tt, mkDB (filter (λ r, c_vid r ∉ G) (t_versions d))
    (filter (λ e, e.1 ∉ G) (t_parents d)) (t_blobs d) (without G (t_snapshots d)) (t_high_water d))) as Erun.
  { apply deleteVersionRows_ok; [done|..].
    - intros x (r&->&[Hr _]%elem_of_doc_rows)%list_elem_of_fmap. by apply list_elem_of_fmap_2.
    - apply (fk_ok d t i); [done..|]. intros r p Hr _ _. unfold G. rewrite <-sql_vids. by apply rvid_in_vids. }
  set (d1 := set_high_water (delete (t, i) (t_high_water d)) (mkDB (filter (λ r, c_vid r ∉ G) (t_versions d))
    (filter (λ e, e.1 ∉ G) (t_parents d)) (t_blobs d) (without G (t_snapshots d)) (t_high_water d))).
  destruct (release_counts ∅ (omap (t_snapshots d !!.) G) d1 (t_snapshots d1)) as (fr&bl'&_&E2&Hb&Hk).
  { exact (pending d G Hd (doc_vids_NoDup d t i Hd)). }
  exists (set_blobs bl' d1). unfold deleteHistoryRows, gets, modify, wrap_err, mbind, st_bind.
  replace (snapshotHashesForDoc d t i) with (count_hashes (omap (t_snapshots d !!.) G))
    by (unfold snapshotHashesForDoc; f_equal; apply (omap_fmap (t_snapshots d !!.) c_vid)).
  rewrite Erun. split; [exact E2|].
  assert (doc_rows (set_blobs bl' d1) t i = []) as Hnil.
  { rewrite (remove_doc_rows d (set_blobs bl' d1) G) by done. apply list_filter_none.
    intros r Hr. unfold G. intros Hn. by apply Hn, list_elem_of_fmap_2. }
  assert (t_high_water d1 !! (t, i) = None) as Hh by apply lookup_delete_eq.
  assert (∀ t' i', ¬ (t = t' ∧ i = i') → t_high_water d1 !! (t', i') = t_high_water d !! (t', i')) as Hho.
  { intros t' i' Hne. simpl. rewrite lookup_delete_ne; [done|]. naive_solver. }
  assert (high_water (set_blobs bl' d1) t i = 0) as H0.
  { unfold high_water. change (t_high_water (set_blobs bl' d1)) with (t_high_water d1).
    by rewrite Hh, Hnil. }
  split; [|split_and!; try done].
  - apply (remove_db_inv d (set_blobs bl' d1) t i G); try done.
    rewrite H0, list_filter_none; [by constructor|].
    intros r Hr Hn. apply Hn. unfold G. rewrite <-sql_vids. by apply rvid_in_vids.
  - intros t' i' Hne. split.
    + by apply (remove_sql_rows_other d (set_blobs bl' d1) t i G).
    + by apply (remove_high_other d (set_blobs bl' d1) t i G).
Qed.

Lemma sql_deleteHistoryTx_law s t i :
  sql_inv s → ∃ s', sql_deleteHistoryTx t i s = (Ok tt, s') ∧ sql_inv s' ∧
    sql_hist s' t i = no_hist ∧
    (∀ t' i', docKey t' i' ≠ docKey t i → sql_hist s' t' i' = sql_hist s t' i').
Proof.
  intros [Hd Hc]. destruct (deleteHistoryRows_ok (db s) t i Hd) as (d'&E&Hd'&Hn&Hh&Ho).
  unfold sql_deleteHistoryTx, exec, modify, mbind, st_bind. rewrite E.
  eexists. split; [reflexivity|]. split; [split; [done|]|].
  { apply cache_ok_invalidate; [done|]. intros t' i' Hk. by apply Ho, key_other. }
  split.
  - unfold sql_hist. simpl. unfold sql_rows. by rewrite Hn, Hh.
  - intros t' i' Hk%key_other. unfold sql_hist. simpl. by destruct (Ho t' i' Hk) as [-> ->].
Qed.

Lemma sql_delete_history_law s t i :
  sql_inv s → ∃ s', sql_DeleteHistory t i s = (Ok tt, s') ∧ sql_inv s' ∧
    sql_hist s' t i = no_hist ∧
    (∀ t' i', docKey t' i' ≠ docKey t i → sql_hist s' t' i' = sql_hist s t' i').
Proof.
  intros Hi. destruct (sql_deleteHistoryTx_law s t i Hi) as (s'&E&H). exists s'. split; [|done].
  unfold sql_DeleteHistory, immediate. by rewrite E.
Qed.

(** ** DeleteVersions *)

Lemma doomed_hashes d t i ids :
  db_inv d →
  (doomed_rows d t i ids).*1 =
  omap (t_snapshots d !!.) (c_vid <$> filter (λ r, c_vid r ∈ ids) (doc_rows d t i)).
Proof.
  intros Hd. rewrite omap_fmap. unfold doomed_rows.
  assert (∀ r, r ∈ filter (λ r, c_vid r ∈ ids) (doc_rows d t i) → r ∈ t_versions d) as Hl.
  { intros r [_ [Hr _]%elem_of_doc_rows]%list_elem_of_filter. done. }
  induction (filter _ _) as [|r l IH]; [done|]. csimpl.
  destruct (di_snap d Hd r) as (h&b&Es&Eb); [apply Hl; set_solver|].
  rewrite Es. simpl. rewrite Eb. csimpl. rewrite IH; [done|]. intros q Hq. apply Hl. set_solver.
Qed.

(** The ids of the rows a prune removes. *)
Definition doomed_vids (d : DB) (t i : string) (ids : list string) : list string :=
  c_vid <$> filter (λ r, c_vid r ∈ ids) (doc_rows d t i).

Lemma elem_of_doomed_vids d t i ids x :
  (∀ x, x ∈ ids → x ∈ vids (sql_rows d t i)) → x ∈ doomed_vids d t i ids ↔ x ∈ ids.
Proof.
  intros Hids. unfold doomed_vids. rewrite list_elem_of_fmap. setoid_rewrite list_elem_of_filter. split; [naive_solver|].
  intros Hx. pose proof (Hids x Hx) as Hv. rewrite sql_vids in Hv.
  apply list_elem_of_fmap in Hv as (r&->&Hr). eauto.
Qed.

Lemma doomed_vids_NoDup d t i ids : db_inv d → NoDup (doomed_vids d t i ids).
Proof. intros Hd. apply NoDup_fmap_filter, doc_vids_NoDup, Hd. Qed.

(** The three DELETE statements of a prune leave the tables without the rows. *)
Lemma delete_doomed d t i ids :
  db_inv d → (∀ x, x ∈ ids → x ∈ vids (sql_rows d t i)) →
  (∀ r p, r ∈ sql_rows d t i → p ∈ rparents r → p ∈ ids → rvid r ∈ ids) →
  let G := doomed_vids d t i ids in
  deleteVersionRows (λ r, of_doc t i r ∧ c_vid r ∈ ids)
    (set_parents (filter (λ e, e.2 ∉ ids) (filter (λ e, e.1 ∉ ids) (t_parents d))) d) =
  (Ok tt, mkDB (filter (λ r, c_vid r ∉ G) (t_versions d)) (filter (λ e, e.1 ∉ G) (t_parents d))
     (t_blobs d) (without G (t_snapshots d)) (t_high_water d)).
Proof.
  intros Hd Hids Hcl G. assert (∀ x, x ∈ G ↔ x ∈ ids) as HG by (intros x; by apply elem_of_doomed_vids).
  assert (∀ x, x ∈ G → x ∈ c_vid <$> doc_rows d t i) as HGd.
  { intros x Hx%HG. rewrite <-sql_vids. auto. }
  assert (∀ e, e ∈ t_parents d → e.2 ∈ G → e.1 ∈ G) as Hfk.
  { apply (fk_ok d t i); [done..|]. intros r p. rewrite !HG. apply Hcl. }
  set (d1 := set_parents (filter (λ e, e.1 ∉ G) (t_parents d)) d).
  replace (set_parents _ d) with d1.
  2:{ unfold d1. f_equal. rewrite list_filter_filter. apply list_filter_iff'. intros e He.
      specialize (Hfk e He). rewrite <-!HG. naive_solver. }
  rewrite (deleteVersionRows_ok _ d1 G).
  - unfold d1. simpl. rewrite (list_filter_all _ (filter _ (t_parents d))); [done|].
    by intros e [? _]%list_elem_of_filter.
  - intros r Hr. rewrite HG. split; [tauto|]. intros Hx. split; [|done].
    pose proof (Hids _ Hx) as Hv. rewrite sql_vids in Hv.
    apply list_elem_of_fmap in Hv as (q&E&(Hq&<-&<-)%elem_of_doc_rows).
    by rewrite (vid_inj d r q (di_vid d Hd) Hr Hq E).
  - intros x (r&->&[Hr _]%elem_of_doc_rows)%HGd%list_elem_of_fmap. by apply list_elem_of_fmap_2.
  - intros e [_ He]%list_elem_of_filter. by apply Hfk.
Qed.

Lemma deleteVersionsRows_ok d t i ids :
  db_inv d →
  (∀ x, x ∈ ids → x ∈ vids (sql_rows d t i)) →
  (∀ r p, r ∈ sql_rows d t i → p ∈ rparents r → p ∈ ids → rvid r ∈ ids) →
  ∃ freed d', deleteVersionsRows t i ids d = (Ok freed, d') ∧ db_inv d' ∧
    sql_rows d' t i = filter (λ r, rvid r ∉ ids) (sql_rows d t i) ∧
    high_water d' t i = high_water d t i ∧
    ∀ t' i', ¬ (t = t' ∧ i = i') →
      sql_rows d' t' i' = sql_rows d t' i' ∧ high_water d' t' i' = high_water d t' i'.
Proof.
  intros Hd Hids Hcl. pose proof (delete_doomed d t i ids Hd Hids Hcl) as Erun. cbv zeta in Erun.
  set (G := doomed_vids d t i ids) in *.
  assert (∀ x, x ∈ G ↔ x ∈ ids) as HG by (intros x; by apply elem_of_doomed_vids).
  assert (∀ x, x ∈ G → x ∈ c_vid <$> doc_rows d t i) as HGd.
  { intros x Hx%HG. rewrite <-sql_vids. auto. }
  assert (∀ e, e ∈ t_parents d → e.2 ∈ G → e.1 ∈ G) as Hfk.
  { apply (fk_ok d t i); [done..|]. intros r p. rewrite !HG. apply Hcl. }
  set (d2 := mkDB _ _ _ _ _) in Erun.
  destruct (release_counts (foldl (λ m hb, <[hb.1 := hb.2]> m) ∅ (doomed_rows d t i ids))
              (omap (t_snapshots d !!.) G) d2 (t_snapshots d2)) as (freed&bl'&E2&_&Hb&Hk).
  { exact (pending d G Hd (doomed_vids_NoDup d t i ids Hd)). }
  exists freed, (set_blobs bl' d2). split.
  { unfold deleteVersionsRows, gets, modify, wrap_err, mbind, st_bind. rewrite doomed_hashes by done.
    fold (doomed_vids d t i ids). fold G.
    change (set_parents _ (set_parents _ d)) with
      (set_parents (filter (λ e, e.2 ∉ ids) (filter (λ e, e.1 ∉ ids) (t_parents d))) d).
    rewrite Erun. exact E2. }
  assert (high_water (set_blobs bl' d2) t i = high_water d t i) as Hh.
  { unfold high_water. change (t_high_water (set_blobs bl' d2)) with (t_high_water d).
    destruct (t_high_water d !! (t, i)) eqn:E; [done|].
    destruct (decide (doc_rows d t i = [])) as [E0|E0]; [|by destruct (di_high d Hd t i E0); congruence].
    by rewrite (remove_doc_rows d (set_blobs bl' d2) G), E0. }
  split; [|split_and!; try done].
  - apply (remove_db_inv d (set_blobs bl' d2) t i G); try done. rewrite Hh.
    apply rows_wf_filter; [apply Hd|]. intros r p. rewrite !HG. apply Hcl.
  - rewrite (remove_sql_rows d (set_blobs bl' d2) G) by done. apply list_filter_iff'.
    intros r _. by rewrite HG.
  - intros t' i' Hne. split.
    + by apply (remove_sql_rows_other d (set_blobs bl' d2) t i G).
    + by apply (remove_high_other d (set_blobs bl' d2) t i G).
Qed.

Lemma sql_delete_versions_law s t i ids :
  sql_inv s → ids ≠ [] →
  (∀ x, x ∈ ids → x ∈ vids (rows (sql_hist s t i))) →
  (∀ r p, r ∈ rows (sql_hist s t i) → p ∈ rparents r → p ∈ ids → rvid r ∈ ids) →
  (∃ r, r ∈ rows (sql_hist s t i) ∧ rvid r ∉ ids) →
  ∃ freed s', sql_DeleteVersions t i ids s = (Ok freed, s') ∧ sql_inv s' ∧
    sql_hist s' t i =
      mkHist (filter (λ r, rvid r ∉ ids) (rows (sql_hist s t i))) (hwm (sql_hist s t i)) ∧
    (∀ t' i', docKey t' i' ≠ docKey t i → sql_hist s' t' i' = sql_hist s t' i').
Proof.
  intros [Hd Hc] Hne Hids Hcl _. destruct ids as [|x ids]; [done|].
  destruct (deleteVersionsRows_ok (db s) t i (x :: ids) Hd Hids Hcl) as (freed&d'&E&Hd'&Hr&Hh&Ho).
  exists freed. eexists. split.
  { unfold sql_DeleteVersions, immediate, sql_deleteVersionsTx, exec, modify, mbind, st_bind.
    rewrite E. reflexivity. }
  split; [split; [done|]|].
  { apply cache_ok_invalidate; [done|]. intros t' i' Hk. by apply Ho, key_other. }
  unfold sql_hist. simpl. rewrite Hr, Hh. split; [done|].
  intros t' i' Hk%key_other. by destruct (Ho t' i' Hk) as [-> ->].
Qed.

(** ** The contract holds *)

#[export] Program Instance sql_laws : VersionStoreLaws SqliteStore := {
  vs_inv := sql_inv;
  vs_hist := sql_hist;
  vs_fresh := sql_fresh;
  vs_append := sql_append_law;
  vs_list := sql_list_law;
  vs_snapshot := sql_snapshot_law;
  vs_delete_history := sql_delete_history_law;
  vs_load_dag := sql_load_dag_law;
  vs_delete_versions := sql_delete_versions_law;
  vs_set_live := sql_set_live_law;
}.
Next Obligation. intros s t i [Hd _]. apply (di_rows _ Hd). Qed.

Lemma sql_tx_laws : TxLaws sql_tx.
Proof.
  split; simpl.
  - intros s _. by destruct s.
  - apply sql_parents_law.
  - intros s now t i data ps r s' Hi Hf E.
    pose proof (sql_appendTx_law s now t i data ps r s' Hi Hf E) as Hr. destruct r as [v|e].
    + destruct Hr as (H1&H2&_&_&Hv&Hh). split_and!; try done; by rewrite Hv.
    + by rewrite Hr.
  - apply sql_deleteHistoryTx_law.
Qed.

End Refinement.
