(* ===== verification/SqliteProps.v ===== *)
(** * Properties of the SQLite store and its DAG cache

    Reachable stores keep exact reference counts; then the concurrent protocol
    of [LoadDAG] against an open write transaction as a step relation, and
    behaviours of the store outside the contract its callers respect. *)

From stdpp Require Import pretty.
From S2P Require Import Prelude Fingerprint VersionDag VersionStore Blobs MemVersionStore DocumentStore Versioned VersionedProps VersionedWrites SqliteVersionStore SqliteRefinement.

Local Open Scope Z_scope.

Section Reachable.
Context `{HS : Hasher} `{GT : GoTime} `{MO : MapOrder}.

(** The calls the versioned store makes, DAG loads included. *)
Inductive sql_step : SqliteStore → SqliteStore → Prop :=
| sql_step_append s now t i data parents r s' :
    sql_fresh s t i data → sql_AppendVersion now t i data parents s = (r, s') → sql_step s s'
| sql_step_set_live s t i x b r s' : sql_SetLive t i x b s = (r, s') → sql_step s s'
| sql_step_delete_history s t i r s' : sql_DeleteHistory t i s = (r, s') → sql_step s s'
| sql_step_delete_versions s t i ids r s' :
    ids ≠ [] → (∀ x, x ∈ ids → x ∈ vids (rows (sql_hist s t i))) →
    (∀ r p, r ∈ rows (sql_hist s t i) → p ∈ rparents r → p ∈ ids → rvid r ∈ ids) →
    (∃ r, r ∈ rows (sql_hist s t i) ∧ rvid r ∉ ids) →
    sql_DeleteVersions t i ids s = (r, s') → sql_step s s'
| sql_step_load s t i r s' :
    rows (sql_hist s t i) ≠ [] → sql_LoadDAG t i s = (r, s') → sql_step s s'.

Definition sql_reachable : SqliteStore → Prop := rtc sql_step (NewSQLiteVersionStore emptyDB).

Lemma sql_step_inv s s' : sql_inv s → sql_step s s' → sql_inv s'.
Proof.
  intros Hi Hs. destruct Hs as [s now t i data ps r s' Hf E|s t i x b r s' E|s t i r s' E
    |s t i ids r s' H1 H2 H3 H4 E|s t i r s' Hne E].
  - by apply (sql_append_law s now t i data ps r s').
  - by apply (sql_set_live_law s t i x b r s').
  - destruct (sql_delete_history_law s t i Hi) as (s1&E1&?&_). congruence.
  - destruct (sql_delete_versions_law s t i ids Hi H1 H2 H3 H4) as (f&s1&E1&?&_). congruence.
  - destruct (sql_load_dag_law s t i Hi Hne) as (d&s1&E1&_&?&_). congruence.
Qed.

Lemma sql_new_inv : sql_inv (NewSQLiteVersionStore emptyDB).
Proof. split; [apply emptyDB_inv|]. intros t i dag. simpl. by rewrite lookup_empty. Qed.

Lemma sql_reachable_inv s : sql_reachable s → sql_inv s.
Proof.
  unfold sql_reachable. intros Hr. pose proof sql_new_inv as H0. revert H0.
  generalize (NewSQLiteVersionStore emptyDB) as s0, Hr. clear. intros s0 Hr.
  induction Hr as [|a b c Hab _ IH]; [done|]. intros Ha. apply IH. by eapply sql_step_inv.
Qed.


(** ** LoadDAG against an open write transaction *)

(** What other connections see, the transaction in progress, and one [LoadDAG]. *)
Inductive reader := Idle | Started (gen : Z) | Built (gen : Z) (dag : version.DAG).

Record System := mkSystem {
  committed : DB;
  cache : gmap string version.DAG;
  gens : gmap string Z;
  writer : option DB;
  load : reader;
}.

Definition at_rest (y : System) : Prop := writer y = None ∧ load y = Idle.
Definition store_of (y : System) (d : DB) : SqliteStore := mkSqlite d (cache y) (gens y).

(** The transaction works on its own copy of the tables; the cache and the
    generations are shared, so [appendVersionTx] invalidates before COMMIT.
    [LoadDAG] of document [(t, i)] takes its three steps separately and reads
    the committed tables. *)
Inductive conc_step (t i : string) : System → System → Prop :=
| conc_begin c ca g l :
    conc_step t i (mkSystem c ca g None l) (mkSystem c ca g (Some c) l)
| conc_append c ca g d l now data ps v s' :
    sql_appendVersionTx now t i data ps (mkSqlite d ca g) = (Ok v, s') →
    conc_step t i (mkSystem c ca g (Some d) l)
                  (mkSystem c (dagCache s') (dagGen s') (Some (db s')) l)
| conc_commit c ca g d l :
    conc_step t i (mkSystem c ca g (Some d) l) (mkSystem d ca g None l)
| conc_rollback c ca g d l :
    conc_step t i (mkSystem c ca g (Some d) l) (mkSystem c ca g None l)
| conc_load_start c ca g w gen :
    loadStart (docKey t i) (mkSqlite c ca g) = Miss gen →
    conc_step t i (mkSystem c ca g w Idle) (mkSystem c ca g w (Started gen))
| conc_load_build c ca g w gen dag :
    buildDAG c t i = Ok dag →
    conc_step t i (mkSystem c ca g w (Started gen)) (mkSystem c ca g w (Built gen dag))
| conc_load_finish c ca g w gen dag dag' s' :
    loadFinish (docKey t i) gen dag (mkSqlite c ca g) = (dag', s') →
    conc_step t i (mkSystem c ca g w (Built gen dag)) (mkSystem c (dagCache s') (dagGen s') w Idle).

End Reachable.

Module sqlite_examples.
Import mem_examples.
#[export] Instance plain_order : MapOrder := elements_order.

Definition sapp (now : Z) (t i data : string) (parents : list string) (s : SqliteStore) : SqliteStore :=
  (sql_AppendVersion now t i data parents s).2.

Definition q0 : SqliteStore := NewSQLiteVersionStore emptyDB.
Definition q1 : SqliteStore := sapp 10 "doc" "a" "x" [] q0.
Definition q2 : SqliteStore := sapp 20 "doc" "a" "y" [v1] q1.

Definition y0 : System := mkSystem (db q1) ∅ (dagGen q1) None Idle.
(** the writer has appended and invalidated, but not committed *)
Definition q_mid : SqliteStore := (sql_appendVersionTx 20 "doc" "a" "y" [v1] (mkSqlite (db q1) ∅ (dagGen q1))).2.
Definition stale : version.DAG :=
  match buildDAG (db q1) "doc" "a" with Ok dag => dag | Err _ => version.NewDAG end.
Definition y1 : System :=
  mkSystem (db q_mid) (<[docKey "doc" "a" := stale]> (dagCache q_mid)) (dagGen q_mid) None Idle.
End sqlite_examples.
Import mem_examples sqlite_examples.

(** The generation counters do not protect the cache against a transaction
    that has invalidated but not committed: a [LoadDAG] that runs between the two
    builds from the old rows, finds the generation unchanged and caches the stale
    DAG.  After the commit, with nothing in progress, the new version is listed
    but the DAG every later [LoadDAG] returns does not contain it. *)
Theorem dag_cache_race :
  rtc (conc_step "doc" "a") y0 y1 ∧ at_rest y0 ∧ at_rest y1 ∧
  let s := store_of y1 (committed y1) in
  (VersionID <$> match (sql_ListVersions "doc" "a" s).1 with Ok l => l | Err _ => [] end) = [v1; v2] ∧
  match (sql_LoadDAG "doc" "a" s).1 with
  | Ok dag => version.Get dag v2 = None ∧ version.Heads dag = [v1]
  | Err _ => False
  end.
Proof.
  split; [|by vm_compute].
  eapply rtc_l; [apply conc_begin|].
  eapply rtc_l; [eapply (conc_append "doc" "a" _ _ _ _ _ 20 "y" [v1]); vm_compute; reflexivity|].
  eapply rtc_l; [eapply conc_load_start; vm_compute; reflexivity|].
  eapply rtc_l; [eapply conc_load_build; vm_compute; reflexivity|].
  eapply rtc_l; [eapply conc_load_finish; vm_compute; reflexivity|].
  eapply rtc_l; [eapply conc_commit|]. vm_compute. reflexivity.
Qed.

(** ** Outside the contract *)

(** A database written before the high-water table existed. *)
Definition legacy (s : SqliteStore) : SqliteStore := NewSQLiteVersionStore (set_high_water ∅ (db s)).

(** After an upgrade from a database without high-water rows, pruning before
    the first append reissues a sequence number: the counter is seeded from
    MAX(seq) of the surviving rows, so the next version takes the number, and
    with equal data even the version id, of the one just removed. *)
Theorem sqlite_legacy_seq_reissued :
  let s := legacy q2 in
  let '(r1, s1) := sql_DeleteVersions "doc" "a" [v2] s in
  let '(r2, s2) := sql_AppendVersion 30 "doc" "a" "y" [v1] s1 in
  is_ok r1 = true ∧
  (VersionID <$> match (sql_ListVersions "doc" "a" s).1 with Ok l => l | Err _ => [] end) = [v1; v2] ∧
  match r2 with Ok v => Seq v = 2 ∧ VersionID v = v2 | Err _ => False end.
Proof. by vm_compute. Qed.

(** The DAG cache is keyed by [type ++ ":" ++ id], although the tables are
    not: after the DAG of type [a], id [b:c] was loaded, [LoadDAG] of type [a:b],
    id [c] returns it, so the heads of one document are those of another. *)
Theorem sqlite_cache_key_conflates :
  let s0 := sapp 20 "a:b" "c" "y" [] (sapp 10 "a" "b:c" "x" [] q0) in
  let s := (sql_LoadDAG "a" "b:c" s0).2 in
  match (sql_LoadDAG "a:b" "c" s0).1, (sql_LoadDAG "a:b" "c" s).1 with
  | Ok d0, Ok d => version.Heads d0 = ["a:b:c-1-y"] ∧ version.Heads d = ["a:b:c-1-x"]
  | _, _ => False
  end.
Proof. by vm_compute. Qed.

(** [DeleteVersions] removes parent edges by version id alone: given ids of
    another document it deletes none of that document's versions but all of
    their parent edges, and the history comes apart into separate roots. *)
Theorem sqlite_delete_versions_strips_foreign_edges :
  let '(r, s) := sql_DeleteVersions "doc" "other" [v2] q2 in
  r = Ok [] ∧
  (sql_ListVersions "doc" "a" s).1 = (sql_ListVersions "doc" "a" q2).1 ∧
  match (sql_LoadDAG "doc" "a" q2).1, (sql_LoadDAG "doc" "a" s).1 with
  | Ok d, Ok d' => version.parents_of d v2 = [v1] ∧ version.parents_of d' v2 = []
  | _, _ => False
  end.
Proof. vm_compute. repeat split. Qed.
