(* ===== verification/Backends.v ===== *)
(** * The two backends are interchangeable

    Any two stores that satisfy [VersionStoreLaws] and start from equal
    histories answer a sequence of calls alike, down to the version ids and
    timestamps, as long as they accept the same appends.  This is what the
    conformance comments of versionstore.go promise of the in-memory and the
    SQLite backend. *)

From S2P Require Import Prelude Fingerprint VersionDag VersionStore.

Local Open Scope Z_scope.

(** ** Calls and what they return *)

Inductive call :=
| CAppend (now : Z) (t i data : string) (parents : list string)
| CList (t i : string)
| CSetLive (t i x : string) (live : bool)
| CDeleteHistory (t i : string)
| CDeleteVersions (t i : string) (ids : list string).

Inductive answer :=
| AVersion (v : Version)
| AVersions (l : list Version)
| ADone.

Definition call_doc (c : call) : string * string :=
  match c with
  | CAppend _ t i _ _ | CList t i | CSetLive t i _ _ | CDeleteHistory t i | CDeleteVersions t i _ => (t, i)
  end.

Definition perform {S} `{VersionStore S} (c : call) : st S error answer :=
  match c with
  | CAppend now t i data parents => v ← AppendVersion now t i data parents; mret (AVersion v)
  | CList t i => l ← ListVersions t i; mret (AVersions l)
  | CSetLive t i x live => SetLive t i x live;; mret ADone
  | CDeleteHistory t i => DeleteHistory t i;; mret ADone
  | CDeleteVersions t i ids => DeleteVersions t i ids;; mret ADone
  end.

(** Equal answers, or two errors of the same kind. *)
Definition alike (r1 r2 : res error answer) : Prop :=
  match r1, r2 with
  | Ok a1, Ok a2 => a1 = a2
  | Err _, Err _ => True
  | _, _ => False
  end.

(** What the contract asks of a caller. *)
Definition admissible {S} `{VersionStoreLaws S} (c : call) (s : S) : Prop :=
  match c with
  | CAppend _ t i data _ => vs_fresh s t i data
  | CDeleteVersions t i ids =>
      ids ≠ [] ∧ (∀ x, x ∈ ids → x ∈ vids (rows (vs_hist s t i))) ∧
      (∀ r p, r ∈ rows (vs_hist s t i) → p ∈ rparents r → p ∈ ids → rvid r ∈ ids) ∧
      (∃ r, r ∈ rows (vs_hist s t i) ∧ rvid r ∉ ids)
  | _ => True
  end.

Section Agree.
Context `{HS : Hasher} `{GT : GoTime}.
Context {S1 S2 : Type} `{VS1 : VersionStore S1} `{VS2 : VersionStore S2}.
Context `{L1 : !VersionStoreLaws S1} `{L2 : !VersionStoreLaws S2}.
Context (D : string → string → Prop).

Definition same_histories (s1 : S1) (s2 : S2) : Prop :=
  ∀ t i, D t i → vs_hist s1 t i = vs_hist s2 t i.

(** A call on document [(t, i)] that changed only that history, the same way on
    both sides. *)
Lemma same_histories_step (s1 s1' : S1) (s2 s2' : S2) t i :
  (∀ t i t' i', D t i → D t' i' → docKey t i = docKey t' i' → t = t' ∧ i = i') → D t i →
  same_histories s1 s2 →
  (∀ t' i', docKey t' i' ≠ docKey t i → vs_hist s1' t' i' = vs_hist s1 t' i') →
  (∀ t' i', docKey t' i' ≠ docKey t i → vs_hist s2' t' i' = vs_hist s2 t' i') →
  vs_hist s1' t i = vs_hist s2' t i → same_histories s1' s2'.
Proof.
  intros HD HDt Hs H1 H2 E t' i' HD'. destruct (decide (docKey t' i' = docKey t i)) as [Ek|Ek].
  - by destruct (HD _ _ _ _ HD' HDt Ek) as [-> ->].
  - rewrite H1, H2 by done. by apply Hs.
Qed.

Lemma perform_agrees c s1 s2 :
  (∀ t i t' i', D t i → D t' i' → docKey t i = docKey t' i' → t = t' ∧ i = i') →
  D (call_doc c).1 (call_doc c).2 → vs_inv s1 → vs_inv s2 → same_histories s1 s2 →
  admissible c s1 → admissible c s2 →
  let '(r1, s1') := perform c s1 in
  let '(r2, s2') := perform c s2 in
  (is_ok r1 = is_ok r2 ∨ ∀ now t i data ps, c ≠ CAppend now t i data ps) →
  alike r1 r2 ∧ vs_inv s1' ∧ vs_inv s2' ∧ same_histories s1' s2'.
Proof.
  intros HD HDt Hi1 Hi2 Hs Ha1 Ha2.
  destruct c as [now t i data ps|t i|t i x b|t i|t i ids]; simpl in *; unfold mbind, st_bind, mret, st_ret.
  - destruct (AppendVersion now t i data ps s1) as [r1 s1'] eqn:E1.
    destruct (AppendVersion now t i data ps s2) as [r2 s2'] eqn:E2.
    pose proof (vs_append _ _ _ _ _ _ _ _ Hi1 Ha1 E1) as (Hi1'&Ho1&H1).
    pose proof (vs_append _ _ _ _ _ _ _ _ Hi2 Ha2 E2) as (Hi2'&Ho2&H2).
    rewrite <-(Hs t i HDt) in H2.
    destruct r1 as [v1|e1], r2 as [v2|e2]; simpl; (intros [Hok|Hok]; [done || idtac|by destruct (Hok now t i data ps)]).
    + destruct H1 as (_&_&Hv1&Hh1), H2 as (_&_&Hv2&Hh2). split_and!; try done; [congruence|].
      eapply same_histories_step; eauto. congruence.
    + split_and!; try done. eapply same_histories_step; eauto. congruence.
  - rewrite !vs_list by done. simpl. by rewrite (Hs t i HDt).
  - destruct (SetLive t i x b s1) as [r1 s1'] eqn:E1, (SetLive t i x b s2) as [r2 s2'] eqn:E2.
    pose proof (vs_set_live _ _ _ _ _ _ _ Hi1 E1) as (Hi1'&_&Ho1&H1).
    pose proof (vs_set_live _ _ _ _ _ _ _ Hi2 E2) as (Hi2'&_&Ho2&H2).
    rewrite <-(Hs t i HDt) in H2. destruct r1 as [[]|e1], r2 as [[]|e2]; simpl; intros _.
    + destruct H1 as (_&_&Hh1), H2 as (_&_&Hh2). split_and!; try done.
      eapply same_histories_step; eauto. congruence.
    + destruct H1 as (Hx&Hn&_), H2 as (_&H2&H3). naive_solver.
    + destruct H2 as (Hx&Hn&_), H1 as (_&H1&H3). naive_solver.
    + destruct H1 as [Hh1 _], H2 as [Hh2 _]. split_and!; try done.
      eapply same_histories_step; eauto. congruence.
  - destruct (vs_delete_history s1 t i Hi1) as (s1'&->&?&Hh1&?).
    destruct (vs_delete_history s2 t i Hi2) as (s2'&->&?&Hh2&?). intros _.
    split_and!; try done. eapply same_histories_step; eauto. congruence.
  - destruct Ha1 as (A1&A2&A3&A4), Ha2 as (B1&B2&B3&B4).
    destruct (vs_delete_versions s1 t i ids Hi1 A1 A2 A3 A4) as (f1&s1'&->&?&Hh1&?).
    destruct (vs_delete_versions s2 t i ids Hi2 B1 B2 B3 B4) as (f2&s2'&->&?&Hh2&?). intros _.
    split_and!; try done. eapply same_histories_step; eauto. rewrite Hh1, Hh2. by rewrite (Hs t i HDt).
Qed.

(** ** Sequences of calls *)

Fixpoint perform_all {S} `{VersionStore S} (cs : list call) (s : S) : list (res error answer) * S :=
  match cs with
  | [] => ([], s)
  | c :: cs => let '(r, s) := perform c s in
               let '(rs, s) := perform_all cs s in (r :: rs, s)
  end.

(** Every call is on a document in use, respects the contract on both sides, and
    an append is accepted by both or by neither. *)
Fixpoint compatible (cs : list call) (s1 : S1) (s2 : S2) : Prop :=
  match cs with
  | [] => True
  | c :: cs =>
      D (call_doc c).1 (call_doc c).2 ∧ admissible c s1 ∧ admissible c s2 ∧
      is_ok (perform c s1).1 = is_ok (perform c s2).1 ∧
      compatible cs (perform c s1).2 (perform c s2).2
  end.


End Agree.
