(* ===== verification/StoreExamples.v ===== *)
(** * Concrete runs of the stores

    Every theorem about the store with a hypothesis is applied here to a
    concrete store on which its hypotheses are checked by evaluation, with a
    transparent hash, clock and JSON reader. *)

From stdpp Require Import pretty.
From S2P Require Import Prelude Fingerprint VersionDag VersionStore Blobs MemVersionStore Prune DocumentStore Versioned VersionedProps VersionedWrites SqliteVersionStore SqliteRefinement SqliteProps Backends.
Import mem_examples sqlite_examples.

Local Open Scope Z_scope.

(** ** Instances and states *)

(** A payload is the bare text of its id. *)
#[export] Instance plain_json : JSON :=
  {| json_object := λ s, Some {[ "id" := s ]}; json_string := λ s, Some s |}.

(** A clock that advances by one at every reading. *)
Definition tick (t0 : Z) (k : nat) : Z := t0 + Z.of_nat k.

Definition doc0 : Document := mkDoc "doc" "a" "y" "10" "20".
Definition docs0 : documents := {[ ("doc", "a") := doc0 ]}.
Definition m2 : VDS MemStore := mkVDS docs0 s2.
Definition x2 : VDS SqliteStore := mkVDS docs0 q2.
(** two live heads: [v2] and a fork of [v1] *)
Definition s_forked : MemStore := (Fork 30 "doc" "a" 1 s2).2.
Definition v3 : string := "doc:a-3-x".
(** the fork abandoned *)
Definition s_abandoned : MemStore := (Abandon "doc" "a" 3 s_forked).2.

Lemma forall_by_compute {A} (P : A → Prop) `{∀ x, Decision (P x)} (l : list A) :
  bool_decide (Forall P l) = true → ∀ x, x ∈ l → P x.
Proof. by rewrite bool_decide_eq_true, Forall_forall. Qed.

Lemma exists_by_compute {A} (P : A → Prop) `{∀ x, Decision (P x)} (l : list A) :
  bool_decide (Exists P l) = true → ∃ x, x ∈ l ∧ P x.
Proof. by rewrite bool_decide_eq_true, Exists_exists. Qed.

Lemma decided (P : Prop) `{Decision P} : bool_decide P = true → P.
Proof. apply bool_decide_eq_true_1. Qed.

Lemma live_by_compute (l : list Row) :
  bool_decide (Exists (λ r, ¬ has_child l (rvid r) ∧ Live (rv r) = true) l) = true → has_live_head l.
Proof. intros (r&?&?&?)%exists_by_compute. by exists r. Qed.

#[export] Instance mem_fresh_dec s t i d : Decision (mem_fresh s t i d).
Proof. unfold mem_fresh. apply _. Defined.

Lemma s2_inv : mem_inv s2.
Proof. apply mem_reachable_inv, s2_reachable. Qed.

Lemma s2_fresh : ∀ r, r ∈ rows (mem_hist s2 "doc" "a") → mem_fresh s2 "doc" "a" (Data (rv r)).
Proof.
  refine (forall_by_compute (λ r, mem_fresh s2 "doc" "a" (Data (rv r))) _ _). vm_compute. reflexivity.
Qed.

Lemma s_forked_inv : mem_inv s_forked.
Proof.
  pose proof (fork_cases s2 30 "doc" "a" 1 s2_inv s2_fresh) as H. unfold s_forked.
  destruct (Fork 30 "doc" "a" 1 s2) as [r s']. apply H.
Qed.

Lemma s_forked_live : has_live_head (rows (mem_hist s_forked "doc" "a")).
Proof. apply live_by_compute. vm_compute. reflexivity. Qed.

Lemma s_abandoned_inv : mem_inv s_abandoned.
Proof.
  pose proof (abandon_cases s_forked "doc" "a" 3 s_forked_inv s_forked_live) as H. unfold s_abandoned.
  destruct (Abandon "doc" "a" 3 s_forked) as [r s']. apply H.
Qed.

Lemma s_abandoned_live : has_live_head (rows (mem_hist s_abandoned "doc" "a")).
Proof. apply live_by_compute. vm_compute. reflexivity. Qed.

(** ** Version branches *)

Lemma fork_spec_witness :
  fork_outcome s2 s_forked "doc" "a" 1 (Ok (mkVersion "doc" "a" v3 3 "x" "30" true)).
Proof.
  pose proof (fork_spec s2 30 "doc" "a" 1 s2_inv s2_fresh) as H.
  assert (Fork 30 "doc" "a" 1 s2 = (Ok (mkVersion "doc" "a" v3 3 "x" "30" true), s_forked)) as E
    by (vm_compute; reflexivity).
  rewrite E in H. exact H.
Defined.

Lemma merge_spec_witness :
  ∃ v s', Merge 40 "doc" "a" 2 3 "z" s_forked = (Ok v, s') ∧
    rows (mem_hist s' "doc" "a") =
      dead_if_head v3 (dead_if_head v2 (rows (mem_hist s_forked "doc" "a"))) ++ [mkRow v [v2; v3]].
Proof.
  pose proof (merge_spec s_forked 40 "doc" "a" 2 3 "z"
    (mkRow (mkVersion "doc" "a" v2 2 "y" "20" true) [v1])
    (mkRow (mkVersion "doc" "a" v3 3 "x" "30" true) [v1]) s_forked_inv ltac:(lia)) as H.
  destruct (Merge 40 "doc" "a" 2 3 "z" s_forked) as [[v|e] s'] eqn:E; [|vm_compute in E; discriminate].
  exists v, s'. split; [done|].
  destruct H as (_&_&_&_&_&Hr&_); try reflexivity.
  - vm_compute. repeat constructor.
  - vm_compute. repeat constructor.
  - exact Hr.
Defined.

Lemma merge_self_refused_witness :
  Merge 40 "doc" "a" 2 2 "z" s_forked = (Err (Errorf "store: version not found"), s_forked).
Proof.
  apply (merge_self_refused s_forked 40 "doc" "a" 2 "z"); [apply s_forked_inv|].
  vm_compute. discriminate.
Defined.

Lemma abandon_spec_witness : abandon_outcome s_forked s_abandoned "doc" "a" 3 (Ok tt).
Proof.
  pose proof (abandon_spec s_forked "doc" "a" 3 s_forked_inv s_forked_live) as H.
  assert (Abandon "doc" "a" 3 s_forked = (Ok tt, s_abandoned)) as E by (vm_compute; reflexivity).
  rewrite E in H. exact H.
Defined.

Lemma branches_spec_witness :
  ∃ s', Branches "doc" "a" true s_abandoned = (Ok [mkVersion "doc" "a" v2 2 "y" "20" true], s').
Proof.
  destruct (branches_spec (L := mem_laws) s_abandoned "doc" "a" true s_abandoned_inv) as (s'&E&_).
  - vm_compute. discriminate.
  - exists s'. etransitivity; [exact E|]. vm_compute. reflexivity.
Defined.

Lemma prune_spec_witness :
  ∃ out s', Prune 90 "doc" "a" (mkPolicy 0 5) s_abandoned = (Ok out, s') ∧
    prune_outcome s_abandoned s' "doc" "a" (VersionsRemoved out).
Proof.
  exact (prune_spec s_abandoned 90 "doc" "a" (mkPolicy 0 5) s_abandoned_inv s_abandoned_live).
Defined.

(** ** Document writes *)

Lemma tx_none_ok : tx_ok (S := MemStore) None.
Proof. intros T [=]. Qed.

Lemma tx_sqlite_ok : tx_ok (Some sql_tx).
Proof. intros T [= <-]. apply sql_tx_laws. Qed.

(** With a single document in the tables every append is fresh. *)
Lemma fresh_single s t i d :
  bool_decide (Forall (of_doc t i) (t_versions (db s))) = true → sql_fresh s t i d.
Proof.
  rewrite bool_decide_eq_true, Forall_forall. intros H t' i' _ Hne.
  destruct (doc_rows (db s) t' i') as [|r l] eqn:E; [done|].
  assert (r ∈ doc_rows (db s) t' i') as (Hr&<-&<-)%elem_of_doc_rows by (rewrite E; set_solver).
  by destruct (H r Hr).
Qed.

Lemma q0_step now data ps s :
  bool_decide (Forall (of_doc "doc" "a") (t_versions (db s))) = true →
  sql_step s (sapp now "doc" "a" data ps s).
Proof.
  intros Hf. unfold sapp. destruct (sql_AppendVersion _ _ _ _ _ s) as [r s'] eqn:E.
  eapply sql_step_append; [by apply fresh_single|exact E].
Qed.

Lemma q2_reachable : sql_reachable q2.
Proof.
  eapply rtc_l; [apply (q0_step 10 "x" []); vm_compute; reflexivity|].
  apply rtc_once. apply (q0_step 20 "y" [v1]). vm_compute. reflexivity.
Qed.


Lemma update_spec_witness :
  let '(r, s') := UpdateAndVersion (Some sql_tx) (tick 30) "doc" "a" "z" x2 in
  is_ok r = true ∧ write_outcome (Some sql_tx) x2 s' (tick 30) "doc" "a" "z" r.
Proof.
  pose proof (update_spec (Some sql_tx) x2 (tick 30) "doc" "a" "z" tx_sqlite_ok
                (sql_reachable_inv q2 q2_reachable)) as H.
  destruct (UpdateAndVersion (Some sql_tx) (tick 30) "doc" "a" "z" x2) as [r s'] eqn:E. split.
  - transitivity (is_ok (UpdateAndVersion (Some sql_tx) (tick 30) "doc" "a" "z" x2).1); [by rewrite E|].
    vm_compute. reflexivity.
  - apply H. apply fresh_single. vm_compute. reflexivity.
Defined.

Lemma update_if_match_spec_witness :
  UpdateAndVersionIfMatch (Some sql_tx) (tick 30) "doc" "a" "z" v1 x2 = (Err ErrPreconditionFailed, x2) ∧
  is_ok (UpdateAndVersionIfMatch (Some sql_tx) (tick 30) "doc" "a" "z" v2 x2).1 = true.
Proof.
  pose proof (sql_reachable_inv q2 q2_reachable) as Hi. split.
  - rewrite (update_if_match_spec (Some sql_tx) x2 (tick 30) "doc" "a" "z" v1 tx_sqlite_ok Hi).
    rewrite decide_False; [reflexivity|]. refine (decided _ _). vm_compute. reflexivity.
  - rewrite (update_if_match_spec (Some sql_tx) x2 (tick 30) "doc" "a" "z" v2 tx_sqlite_ok Hi).
    rewrite decide_True; [vm_compute; reflexivity|]. refine (decided _ _). vm_compute. reflexivity.
Defined.

Lemma create_spec_witness :
  let '(r, s') := CreateAndVersion None (tick 30) "doc" "b" m2 in create_outcome None m2 s' (tick 30) "doc" "b" r.
Proof.
  apply (create_spec None m2 (tick 30) "doc" "b" tx_none_ok s2_inv). vm_compute. reflexivity.
Defined.

Lemma delete_spec_witness :
  ∃ s', Delete (Some sql_tx) "doc" "a" x2 = (Ok tt, s') ∧ sql_hist (vstore s') "doc" "a" = no_hist.
Proof.
  pose proof (delete_spec (Some sql_tx) x2 "doc" "a" tx_sqlite_ok (sql_reachable_inv q2 q2_reachable)) as H.
  assert (docs x2 !! ("doc", "a") = Some doc0) as E by (vm_compute; reflexivity). rewrite E in H.
  destruct H as (s'&E1&_&_&Hh&_). exists s'. split; [exact E1|exact Hh].
Defined.

Lemma revert_spec_witness :
  let '(r, s') := Revert None (tick 30) "doc" "a" 1 m2 in
  is_ok r = true ∧ revert_outcome m2 s' "doc" "a" (mkVersion "doc" "a" v1 1 "x" "10" true) r.
Proof.
  pose proof (revert_spec None m2 (tick 30) "doc" "a" 1 tx_none_ok s2_inv s2_fresh) as H.
  assert (find_seq 1 (rv <$> rows (vs_hist (vstore m2) "doc" "a")) =
          Some (mkVersion "doc" "a" v1 1 "x" "10" true)) as Ef by (vm_compute; reflexivity).
  rewrite Ef in H.
  destruct (Revert None (tick 30) "doc" "a" 1 m2) as [r s'] eqn:E. split; [|exact H].
  transitivity (is_ok (Revert None (tick 30) "doc" "a" 1 m2).1); [by rewrite E|]. vm_compute. reflexivity.
Defined.

(** ** Sequences *)

Definition only_doc_a (t i : string) : Prop := t = "doc" ∧ i = "a".
Definition w0 : VDS MemStore := mkVDS ∅ NewInMemoryVersionStore.
Definition w1 : VDS MemStore := (CreateAndVersion None (tick 10) "doc" "a" w0).2.
Definition w2 : VDS MemStore := (UpdateAndVersionIfMatch None (tick 20) "doc" "a" "y" "" w1).2.

Lemma live_head_invariant_witness :
  rtc (vds_step None only_doc_a) w0 w2 ∧
  (rows (mem_hist (vstore w2) "doc" "a") = [] ∨ has_live_head (rows (mem_hist (vstore w2) "doc" "a"))).
Proof.
  assert (rtc (vds_step None only_doc_a) w0 w2) as Hs.
  { eapply rtc_l; [|apply rtc_once].
    - eapply (step_create None only_doc_a w0 (tick 10) "doc" "a" (CreateAndVersion None (tick 10) "doc" "a" w0).1 w1).
      + vm_compute. done.
      + vm_compute. reflexivity.
      + vm_compute. reflexivity.
    - eapply (step_update None only_doc_a w1 (tick 20) "doc" "a" "y" ""
                (UpdateAndVersionIfMatch None (tick 20) "doc" "a" "y" "" w1).1 w2).
      + done.
      + vm_compute. reflexivity.
      + vm_compute. reflexivity. }
  split; [exact Hs|].
  apply (live_head_invariant None only_doc_a w0 w2 tx_none_ok).
  - intros t i t' i' [-> ->] [-> ->] _. done.
  - apply mem_inv_empty.
  - intros t i _. reflexivity.
  - exact Hs.
  - done.
Defined.

Definition script : list call :=
  [CAppend 10 "doc" "a" "x" []; CAppend 20 "doc" "a" "y" [v1]; CSetLive "doc" "a" v2 false;
   CSetLive "doc" "a" v1 false; CList "doc" "a"; CDeleteVersions "doc" "a" [v2]; CList "doc" "a"].


(** ** The prune rule *)

(** The DAG and the versions of the store with a dead head in sequence 2. *)
Definition s_dead2 : MemStore := (Abandon "doc" "a" 2 s_forked).2.
Definition dag_dead2 : version.DAG := dagAt s_dead2 (docKey "doc" "a").
Definition list_dead2 : list Version := rv <$> rows (mem_hist s_dead2 "doc" "a").

Lemma s_dead2_inv : mem_inv s_dead2.
Proof.
  pose proof (abandon_cases s_forked "doc" "a" 2 s_forked_inv s_forked_live) as H. unfold s_dead2.
  destruct (Abandon "doc" "a" 2 s_forked) as [r s']. apply H.
Qed.

Lemma dag_dead2_wf : version.dag_wf dag_dead2.
Proof. apply (inv_dag s_dead2 s_dead2_inv). Qed.

Lemma compute_prunable_spec_witness :
  v2 ∈ computePrunable list_dead2 dag_dead2 (mkPolicy 1 0) 90 ∧
  ∃ h v, h ∈ version.Heads dag_dead2 ∧ v ∈ list_dead2 ∧ VersionID v = h ∧ Live v = true.
Proof.
  assert (v2 ∈ computePrunable list_dead2 dag_dead2 (mkPolicy 1 0) 90) as Hx.
  { refine (decided _ _). vm_compute. reflexivity. }
  split; [exact Hx|].
  apply (compute_prunable_spec list_dead2 dag_dead2 (mkPolicy 1 0) 90 v2 dag_dead2_wf) in Hx as [H _];
    [exact H|]. refine (decided _ _). vm_compute. reflexivity.
Defined.

(** Another order: the reverse one. *)
Definition reverse_order : MapOrder :=
  {| range_order := λ _ X, reverse (elements X);
     range_perm := λ _ X, reverse_Permutation (elements X) |}.

Lemma compute_prunable_order_independent_witness :
  computePrunable (MO := plain_order) list_dead2 dag_dead2 (mkPolicy 1 0) 90 =
  computePrunable (MO := reverse_order) list_dead2 dag_dead2 (mkPolicy 1 0) 90.
Proof. exact (compute_prunable_order_independent _ _ _ _ _ _ dag_dead2_wf). Defined.

(** ** Interleavings of the versioned store's read-then-write operations

    [Abandon] and [Prune] read the history, decide, and then write in a separate
    call of the version store.  Here each is split at that point, the split is
    shown to be the whole operation, and interleavings of the halves show what
    the code's comments exclude: a document without a live head, and a prune
    that removes the parent of a version appended meanwhile. *)

Section Split.
Context `{HS : Hasher} `{GT : GoTime} `{MO : MapOrder}.
Context {S : Type} `{VS : VersionStore S}.

(** [Abandon] up to its call of [SetLive]: the version to mark dead, if any. *)
Definition abandon_check (docType id : string) (seq : Z) : st S error (option string) :=
  versions ← ListVersions docType id;
  match versions with
  | [] => throw (Errorf "store: no history")
  | _ =>
      match find_seq seq versions with
      | None => throw (Errorf "store: version not found")
      | Some target =>
          if negb (Live target) then mret None
          else
            dag ← wrap_err (Wrapf "store: abandon: load dag") (LoadDAG docType id);
            match version.Children dag (VersionID target) with
            | _ :: _ => throw (Wrapf "has children" ErrNotAHead)
            | [] =>
                if (count_live_heads versions (version.Heads dag) <=? 1)%nat
                then throw ErrCannotAbandonLastLiveHead
                else mret (Some (VersionID target))
            end
      end
  end.

Definition abandon_commit (docType id : string) (x : option string) : st S error unit :=
  match x with
  | None => mret tt
  | Some vid => wrap_err (Wrapf "store: abandon") (SetLive docType id vid false)
  end.

Lemma abandon_split t i seq s :
  Abandon t i seq s = (x ← abandon_check t i seq; abandon_commit t i x) s.
Proof.
  unfold Abandon, abandon_check, mbind, st_bind.
  destruct (ListVersions t i s) as [[[|v l]|e] s1]; try done.
  destruct (find_seq seq (v :: l)) as [target|]; [|done].
  destruct (Live target); [|done]. simpl.
  destruct (wrap_err _ _ s1) as [[dag|e] s2]; [|done].
  destruct (version.Children dag (VersionID target)); [|done]. by destruct (_ <=? 1)%nat.
Qed.

(** [Prune] up to its call of [DeleteVersions]: the ids to remove. *)
Definition prune_plan (now : Z) (docType id : string) (policy : RetentionPolicy) : st S error (list string) :=
  versions ← ListVersions docType id;
  match versions with
  | [] => throw (Errorf "store: no history")
  | _ =>
      dag ← wrap_err (Wrapf "store: prune: load dag") (LoadDAG docType id);
      mret (filter (.∈ computePrunable versions dag policy now) (VersionID <$> versions))
  end.

Definition prune_commit (docType id : string) (ids : list string) : st S error PruneResult :=
  match ids with
  | [] => mret (mkPruneResult [] 0 0)
  | _ => freed ← DeleteVersions docType id ids;
         mret (mkPruneResult ids (Z.of_nat (length freed)) (foldl (λ n fb, n + fbBytes fb) 0 freed))
  end.

End Split.

(** Two concurrent [Abandon]s can leave a document without a live head: each
    checks that another live head remains before either marks its own dead.
    [Abandon] is the check followed by the mark; run one after the other the
    second call is refused, but with both checks first both succeed. *)
Theorem abandon_race :
  (∀ seq, Abandon "doc" "a" seq s_forked =
          (x ← abandon_check "doc" "a" seq; abandon_commit "doc" "a" x) s_forked) ∧
  (abandon_check "doc" "a" 2 s_forked).1 = Ok (Some v2) ∧
  (abandon_check "doc" "a" 3 s_forked).1 = Ok (Some v3) ∧
  let '(r2, s') := abandon_commit "doc" "a" (Some v2) s_forked in
  let '(r3, s'') := abandon_commit "doc" "a" (Some v3) s' in
  r2 = Ok tt ∧ r3 = Ok tt ∧
  (Branches "doc" "a" true s'').1 = Ok [] ∧
  (Abandon "doc" "a" 3 s').1 = Err ErrCannotAbandonLastLiveHead.
Proof. split; [intros seq; apply abandon_split|]. vm_compute. repeat split. Qed.

(** Version 2 is a dead head, version 3 the live one. *)
Definition q_dead : SqliteStore :=
  (sql_SetLive "doc" "a" v2 false (sapp 30 "doc" "a" "x" [v1] q2)).2.
Definition v4 : string := "doc:a-4-y".

(** [Prune] does not see one point in time: between its reading and its
    [DeleteVersions] a [Fork] of a version it is about to remove succeeds, and
    the removal then deletes the forked version's parent and, in SQLite, its
    parent edge, leaving a second root. *)
Theorem prune_race :
  (prune_plan 90 "doc" "a" (mkPolicy 1 0) q_dead).1 = Ok [v2] ∧
  (Prune 90 "doc" "a" (mkPolicy 1 0) q_dead).1 = (prune_commit "doc" "a" [v2] q_dead).1 ∧
  let '(rf, s) := Fork 80 "doc" "a" 2 q_dead in
  let '(rp, s') := prune_commit "doc" "a" [v2] s in
  is_ok rp = true ∧
  match rf, (sql_LoadDAG "doc" "a" s).1, (sql_LoadDAG "doc" "a" s').1 with
  | Ok v, Ok d, Ok d' =>
      VersionID v = v4 ∧ version.parents_of d v4 = [v2] ∧
      version.parents_of d' v4 = [] ∧ version.Get d' v2 = None
  | _, _, _ => False
  end ∧
  (prune_plan 90 "doc" "a" (mkPolicy 1 0) s).1 = Ok [].
Proof. vm_compute. repeat split. Qed.

(** ** A failing merge *)

(** A hash in which one payload clashes with a stored one. *)
Definition clash_hasher : Hasher := λ s _, if decide (s = "clash") then "x" else s.

(** [Merge] marks its parents dead in steps of their own, before the append:
    when the append is refused, here for a hash collision, the dead marks stay,
    the document has no live head left, [Prune] does nothing from then on. *)
Theorem merge_failure_strands_heads :
  let M := mem_version_store (HS := clash_hasher) (GT := plain_time) in
  let '(r, s') := Merge (VS := M) 40 "doc" "a" 2 3 "clash" s_forked in
  r = Err (Wrapf "store: merge" ErrHashCollision) ∧
  (Branches (VS := M) "doc" "a" true s_forked).1 =
    Ok [mkVersion "doc" "a" v2 2 "y" "20" true; mkVersion "doc" "a" v3 3 "x" "30" true] ∧
  (Branches (VS := M) "doc" "a" true s').1 = Ok [] ∧
  (prune_plan (VS := M) 90 "doc" "a" (mkPolicy 1 0) s').1 = Ok [].
Proof. vm_compute. repeat split. Qed.
