(* ===== verification/Migration.v ===== *)
(** * Boot-time migrations (engine/store/document.go)

    [migrateToDedup] folds the legacy [snapshots] table into the
    content-addressed tables inside one transaction; [migrateAddLiveColumn]
    adds the [live] column with its default; [newDocumentStore] runs both on
    every boot. *)

From S2P Require Import Prelude Fingerprint VersionStore Blobs MemVersionStore SqliteVersionStore SqliteRefinement SqliteProps.

Local Open Scope Z_scope.

(** A database file: the tables, the legacy [snapshots(version_id, data)] table
    if it still exists, and whether [versions] already has a [live] column
    ([c_live] has no meaning while it does not). *)
Record DBFile := mkFile {
  f_db : DB;
  f_snapshots : option (list (string * string));
  f_has_live : bool;
}.

Section Migration.
Context `{HS : Hasher}.

(** [INSERT ... ON CONFLICT(hash) DO UPDATE SET refcount = refcount + 1]. *)
Definition upsertLegacyBlob (hash data : string) : st DB error unit :=
  modify (λ d, set_blobs (add_ref (t_blobs d) hash data) d).

Definition migrateRow (r : string * string) : st DB error unit :=
  let h := hash_short r.2 16 in
  wrap_err (Wrapf "upsert snapshot_blobs") (upsertLegacyBlob h r.2);;
  wrap_err (Wrapf "insert version_snapshots") (insertSnapshot r.1 h).

Definition migrateToDedup : st DBFile error unit := λ f,
  match f_snapshots f with
  | None => (Ok tt, f)
  | Some legacy =>
      match for_each legacy migrateRow (f_db f) with
      | (Ok _, d) => (Ok tt, mkFile d None (f_has_live f))
      | (Err e, _) => (Err e, f)
      end
  end.

Definition migrateAddLiveColumn : st DBFile error unit := λ f,
  if f_has_live f then (Ok tt, f)
  else (Ok tt, mkFile (set_versions
         ((λ r, mkVrow (c_type r) (c_id r) (c_vid r) (c_seq r) (c_hash r) (c_timestamp r)
                  (c_created_at r) 1) <$> t_versions (f_db f)) (f_db f)) (f_snapshots f) true).

(** The tables themselves are created if absent, which changes no existing one. *)
Definition newDocumentStore : st DBFile error unit :=
  wrap_err (Wrapf "store: dedup migration") migrateToDedup;;
  wrap_err (Wrapf "store: live-column migration") migrateAddLiveColumn.

(** ** The dedup migration loses nothing *)

(** Every blob holds the payload of a migrated row, under that payload's hash. *)
Definition from_rows (done : list (string * string)) (d : DB) : Prop :=
  ∀ h b, t_blobs d !! h = Some b → ∃ x, (x, bdata b) ∈ done ∧ h = hash_short (bdata b) 16.

Definition migrated (done : list (string * string)) (d : DB) : Prop :=
  blob_inv (t_blobs d) (t_snapshots d) [] ∧ from_rows done d ∧
  (size (t_snapshots d) = length done) ∧
  (∀ x, is_Some (t_snapshots d !! x) → x ∈ done.*1) ∧
  (∀ x data, (x, data) ∈ done → getSnapshotRow x d = (Ok data, d)).

Lemma refs_le_size m h : (refs m h ≤ size m)%nat.
Proof. unfold refs. apply map_subseteq_size, map_filter_subseteq. Qed.

Definition injective_on (l : list (string * string)) : Prop :=
  ∀ x y, x ∈ l.*2 → y ∈ l.*2 → hash_short x 16 = hash_short y 16 → x = y.

Lemma migrateRow_ok done x data d :
  migrated done d → x ∉ done.*1 → known_version d x →
  injective_on (done ++ [(x, data)]) → Z.of_nat (length done) < MaxInt64 →
  ∃ d', migrateRow (x, data) d = (Ok tt, d') ∧ migrated (done ++ [(x, data)]) d' ∧
        t_versions d' = t_versions d.
Proof.
  intros (Hb&Hf&Hsz&Hdom&Hget) Hx Hk Hinj Hlen. set (h := hash_short data 16).
  assert (t_snapshots d !! x = None) as Hnone.
  { apply eq_None_not_Some. intros H. by apply Hx, Hdom. }
  assert (∀ b, t_blobs d !! h = Some b → bdata b = data ∧ refcount b ≠ MaxInt64) as Hadd.
  { intros b Eb. destruct (Hf h b Eb) as (y&Hy&Eh). split.
    - apply Hinj; [..|by rewrite <-Eh]; rewrite fmap_app; apply elem_of_app; [left|right; set_solver].
      apply list_elem_of_fmap. by exists (y, bdata b).
    - destruct Hb as [H1 _]. specialize (H1 h). unfold rc, occ in H1. rewrite Eb in H1. simpl in H1.
      pose proof (refs_le_size (t_snapshots d) h). lia. }
  destruct (add_ref_inv _ _ h data [] Hb Hadd) as (Hb'&(bn&Ebn&Edn)&Hold).
  set (d' := mkDB (t_versions d) (t_parents d) (add_ref (t_blobs d) h data)
                  (<[x := h]> (t_snapshots d)) (t_high_water d)).
  exists d'. split; [|split; [|done]].
  { unfold migrateRow, upsertLegacyBlob, insertSnapshot, modify, wrap_err, mbind, st_bind. simpl.
    rewrite Hnone. fold h. rewrite decide_True; [done|]. split; [done|]. rewrite Ebn. eauto. }
  split_and!.
  - by apply blob_inv_take.
  - intros h' b. simpl. unfold add_ref. intros [[<- <-]|[_ Eb]]%lookup_insert_Some.
    + assert (bdata match t_blobs d !! h with Some b => mkBlob (bdata b) (refcount b + 1) | None => mkBlob data 1 end = data) as ->.
      { destruct (t_blobs d !! h) as [b|] eqn:E; [by apply (Hadd b)|done]. }
      exists x. split; [set_solver|done].
    + destruct (Hf h' b Eb) as (y&Hy&E). exists y. split; [set_solver|done].
  - simpl. rewrite map_size_insert_None, Hsz, length_app by done. simpl. lia.
  - intros y. simpl. rewrite lookup_insert_is_Some', fmap_app. simpl. intros [->|Hy%Hdom]; set_solver.
  - intros y e. rewrite elem_of_app, list_elem_of_singleton. intros [Hy|[= -> ->]];
      unfold getSnapshotRow; simpl.
    + rewrite lookup_insert_ne by (intros ->; apply Hx, list_elem_of_fmap; by exists (y, e)).
      pose proof (Hget y e Hy) as Hg. unfold getSnapshotRow in Hg.
      destruct (t_snapshots d !! y) as [h0|]; simpl in *; [|done].
      destruct (t_blobs d !! h0) as [b0|] eqn:Eb0; [|done]. injection Hg as <-.
      destruct (Hold _ _ Eb0) as (b1&Eb1&E1). fold h. by rewrite Eb1, E1.
    + rewrite lookup_insert_eq. simpl. fold h. by rewrite Ebn, Edn.
Qed.

Lemma migrate_loop todo done d :
  migrated done d → NoDup (done ++ todo).*1 → (∀ x, x ∈ todo.*1 → known_version d x) →
  injective_on (done ++ todo) → Z.of_nat (length (done ++ todo)) ≤ MaxInt64 →
  ∃ d', for_each todo migrateRow d = (Ok tt, d') ∧ migrated (done ++ todo) d' ∧
        t_versions d' = t_versions d.
Proof.
  revert done d. induction todo as [|[x data] todo IH]; intros done d Hm Hnd Hk Hinj Hlen; simpl.
  { exists d. by rewrite app_nil_r. }
  rewrite (cons_middle (x, data) done todo), app_assoc in *.
  destruct (migrateRow_ok done x data d Hm) as (d1&E1&Hm1&Hv1).
  - rewrite !fmap_app in Hnd. apply NoDup_app in Hnd as (Hnd&_&_).
    apply NoDup_app in Hnd as (_&Hn&_). intros H. apply (Hn x H). simpl. set_solver.
  - apply Hk. simpl. set_solver.
  - intros a b Ha Hb. apply Hinj; rewrite fmap_app; set_solver.
  - rewrite !length_app in Hlen. simpl in Hlen. lia.
  - destruct (IH (done ++ [(x, data)]) d1 Hm1 Hnd) as (d'&E&Hm'&Hv'); [|done|done|].
    + intros y Hy. unfold known_version. rewrite Hv1. apply Hk. simpl. set_solver.
    + exists d'. unfold mbind, st_bind. rewrite E1, E, Hv', Hv1. done.
Qed.

(** The dedup migration of a database whose content-addressed tables are
    still empty succeeds, if payloads do not collide: the legacy table is gone,
    reference counts are exact, every legacy snapshot reads back byte for byte,
    no version row changes, and a second boot does nothing. *)
Theorem migrate_to_dedup_spec (d : DB) (legacy : list (string * string)) (hasLive : bool)
    (Hempty : t_blobs d = ∅ ∧ t_snapshots d = ∅) (Hnd : NoDup legacy.*1)
    (Hknown : ∀ x, x ∈ legacy.*1 → known_version d x) (Hinj : injective_on legacy)
    (Hlen : Z.of_nat (length legacy) ≤ MaxInt64) :
  ∃ d', migrateToDedup (mkFile d (Some legacy) hasLive) = (Ok tt, mkFile d' None hasLive) ∧
    blob_inv (t_blobs d') (t_snapshots d') [] ∧ t_versions d' = t_versions d ∧
    (∀ x data, (x, data) ∈ legacy → getSnapshotRow x d' = (Ok data, d')) ∧
    migrateToDedup (mkFile d' None hasLive) = (Ok tt, mkFile d' None hasLive).
Proof.
  destruct Hempty as [Eb Es].
  destruct (migrate_loop legacy [] d) as (d'&E&(Hb&_&_&_&Hget)&Hv); try done.
  { unfold migrated, from_rows. rewrite Eb, Es. split_and!; try done.
    - intros x [? H]. by rewrite lookup_empty in H.
    - set_solver. }
  exists d'. unfold migrateToDedup at 1. simpl. rewrite E. by split_and!.
Qed.

End Migration.

(** ** Witness and limits *)

Import mem_examples sqlite_examples.

(** the version rows of [q2] with their payloads still in the legacy table *)
Definition legacy_db : DB := mkDB (t_versions (db q2)) (t_parents (db q2)) ∅ ∅ ∅.
Definition legacy_rows : list (string * string) := [(v1, "x"); (v2, "y")].

Lemma migrate_to_dedup_spec_witness :
  ∃ d', migrateToDedup (mkFile legacy_db (Some legacy_rows) false) = (Ok tt, mkFile d' None false) ∧
        getSnapshotRow v2 d' = (Ok "y", d').
Proof.
  destruct (migrate_to_dedup_spec legacy_db legacy_rows false) as (d'&E&_&_&H&_).
  - split; reflexivity.
  - refine (bool_decide_eq_true_1 _ _). vm_compute. reflexivity.
  - intros x Hx. simpl in Hx. unfold known_version.
    repeat (apply elem_of_cons in Hx as [->|Hx]; [refine (bool_decide_eq_true_1 _ _); vm_compute; reflexivity|]).
    set_solver.
  - intros x y _ _ E. exact E.
  - vm_compute. discriminate.
  - exists d'. split; [exact E|]. apply H. repeat constructor.
Defined.

(** The migration does not compare payloads when a hash is already present,
    as the append path does: a legacy row whose payload collides with another's
    is folded into the other's blob and reads back the wrong payload. *)
Theorem migration_collision_silent :
  let clash : Hasher := λ s _, "h" in
  let '(r, f) := migrateToDedup (HS := clash) (mkFile legacy_db (Some legacy_rows) false) in
  r = Ok tt ∧ (getSnapshotRow v2 (f_db f)).1 = Ok "x".
Proof. vm_compute. done. Qed.
