(* ===== verification/Topics.v ===== *)
(** * Topics (go/runtime/bus/event.go, topics.go, validate.go, network_filter.go)

    Dot-separated topics, wildcard patterns, and the two validators: the strict
    convention checked when topics are configured ([ValidateTopic],
    [PrefixTopics]) and the naming contract checked when an event is published
    ([Validate], [checkTopic]).  Segments are compared byte by byte; a byte of a
    multi-byte rune is outside every allowed class, as the rune is. *)

From Stdlib Require Import Ascii.
From S2P Require Import Prelude.

Local Open Scope Z_scope.

Definition dot : ascii := "."%char.

(** [strings.Split(s, ".")]. *)
Fixpoint Split (s : string) : list string :=
  match s with
  | EmptyString => [EmptyString]
  | String c s =>
      if Ascii.eqb c dot then EmptyString :: Split s
      else match Split s with
           | p :: ps => String c p :: ps
           | [] => [String c EmptyString]
           end
  end.

(** [strings.HasSuffix]. *)
Fixpoint HasSuffix (s suffix : string) : bool :=
  String.eqb s suffix || match s with EmptyString => false | String _ s => HasSuffix s suffix end.

(** [strings.LastIndex(s, ".")], [None] for a negative result. *)
Fixpoint LastIndexDot (s : string) : option nat :=
  match s with
  | EmptyString => None
  | String c s =>
      match LastIndexDot s with
      | Some i => Some (S i)
      | None => if Ascii.eqb c dot then Some O else None
      end
  end.

(** [s[i:]]. *)
Fixpoint str_drop (i : nat) (s : string) : string :=
  match i, s with
  | S i, String _ s => str_drop i s
  | _, _ => s
  end.

(** ** Matching *)

Fixpoint matchParts (topic pattern : list string) {struct pattern} : bool :=
  match pattern with
  | [] => match topic with [] => true | _ => false end
  | p :: ps =>
      if String.eqb p "#" then match ps with [] => true | _ => false end
      else match topic with
           | [] => false
           | t :: ts => if negb (String.eqb p "*") && negb (String.eqb p t) then false
                        else matchParts ts ps
           end
  end.

Definition Match (t pattern : string) : bool := matchParts (Split t) (Split pattern).

Record TopicFilter := mkFilter { Allow : option (list string); Deny : list string }.

Definition filter_Match (f : TopicFilter) (topic : string) : bool :=
  if existsb (Match topic) (Deny f) then false
  else match Allow f with
       | None => true
       | Some allow => existsb (Match topic) allow
       end.

(** ** The configuration-time convention *)

Inductive topic_error :=
| EmptyTopic
| TooLong (n : Z)
| SegmentCount (n : nat)
| EmptySegment (i : nat)
| BadSegment (seg : string)
| NotPastTense (action : string)
| EmptyPrefix
| TrailingDot
| PrefixError (e : topic_error).

Definition is_lower (c : ascii) : bool := (97 <=? N_of_ascii c)%N && (N_of_ascii c <=? 122)%N.
Definition is_digit (c : ascii) : bool := (48 <=? N_of_ascii c)%N && (N_of_ascii c <=? 57)%N.

Fixpoint all_chars (P : ascii → bool) (s : string) : bool :=
  match s with EmptyString => true | String c s => P c && all_chars P s end.

Definition validSegment (seg : string) : bool :=
  all_chars (λ c, is_lower c || is_digit c || Ascii.eqb c "_") seg && negb (String.eqb seg "").

Definition pastTenseWhitelist : list string :=
  ["started"; "ended"; "succeeded"; "failed"; "canceled"; "snoozed"; "received"; "sent";
   "applied"; "selected"; "evaluated"; "installed"; "downloaded"; "released"; "tripped"; "opened";
   "closed"; "half_opened"; "paid"; "made"; "built"; "read"; "set"; "put"; "hit"; "lost"; "found"; "won"].

Definition isPastTense (action : string) : bool :=
  HasSuffix action "ed" || existsb (String.eqb action) pastTenseWhitelist.

(** The loop over the segments, from position [i]. *)
Fixpoint checkSegments (i : nat) (parts : list string) : option topic_error :=
  match parts with
  | [] => None
  | seg :: parts =>
      if String.eqb seg "" then Some (EmptySegment i)
      else if negb (validSegment seg) then Some (BadSegment seg)
      else checkSegments (S i) parts
  end.

Definition ValidateTopic (t : string) : option topic_error :=
  if String.eqb t "" then Some EmptyTopic
  else
    let parts := Split t in
    if negb (Nat.eqb (length parts) 4) then Some (SegmentCount (length parts))
    else match checkSegments 0 parts with
         | Some e => Some e
         | None =>
             let action := nth 3 parts "" in
             if negb (isPastTense action) then Some (NotPastTense action) else None
         end.

(** The loop that composes and validates one topic per action; the map built so
    far is returned with the first error. *)
Fixpoint composeTopics (prefix : string) (actions : list string) (out : gmap string string)
  : gmap string string * option topic_error :=
  match actions with
  | [] => (out, None)
  | a :: actions =>
      let topic := (prefix ++ "." ++ a)%string in
      match ValidateTopic topic with
      | Some e => (out, Some (PrefixError e))
      | None => composeTopics prefix actions (<[a := topic]> out)
      end
  end.

Definition PrefixTopics (prefix : string) (actions : list string)
  : gmap string string * option topic_error :=
  if String.eqb prefix "" then (∅, Some EmptyPrefix)
  else if HasSuffix prefix "." then (∅, Some TrailingDot)
  else
    let parts := Split prefix in
    if negb (Nat.eqb (length parts) 3) then (∅, Some (SegmentCount (length parts)))
    else match checkSegments 0 parts with
         | Some e => (∅, Some e)
         | None => composeTopics prefix actions ∅
         end.

(** ** The publish-time contract *)

Inductive Mode := ModeOff | ModeWarn | ModeStrict.

Definition maxTopicLen : Z := 128.

(** [first] is [i == 0] of the range loop. *)
Fixpoint segment_chars (first : bool) (seg : string) : bool :=
  match seg with
  | EmptyString => true
  | String c seg =>
      (if is_lower c then true
       else if is_digit c || Ascii.eqb c "_" then negb first
       else false) && segment_chars false seg
  end.

Definition validateSegment (seg : string) : bool :=
  negb (String.eqb seg "") && negb (String.eqb seg "*" || String.eqb seg "#") && segment_chars true seg.

Fixpoint validateSegments (parts : list string) : option topic_error :=
  match parts with
  | [] => None
  | p :: parts => if validateSegment p then validateSegments parts else Some (BadSegment p)
  end.

Definition Validate (t : string) : option topic_error :=
  if String.eqb t "" then Some EmptyTopic
  else if maxTopicLen <? Z.of_nat (String.length t) then Some (TooLong (Z.of_nat (String.length t)))
  else
    let parts := Split t in
    if negb (Nat.eqb (length parts) 4) then Some (SegmentCount (length parts))
    else validateSegments parts.

(** The error [Publish] returns, next to what the reporter is called with. *)
Definition checkTopic (mode : Mode) (t : string) : option topic_error * list topic_error :=
  match mode with
  | ModeOff => (None, [])
  | _ =>
      match Validate t with
      | None => (None, [])
      | Some err => (match mode with ModeStrict => Some err | _ => None end, [err])
      end
  end.

(** ** Splitting *)

Lemma Split_not_nil s : Split s ≠ [].
Proof. destruct s as [|c s]; simpl; [done|]. destruct (Ascii.eqb c dot); [done|]. by destruct (Split s). Qed.

Lemma Split_join a b : Split (a ++ String dot b) = (Split a ++ Split b)%list.
Proof.
  induction a as [|c a IH]; [done|].
  change (String c a ++ String dot b)%string with (String c (a ++ String dot b)). cbn [Split].
  destruct (Ascii.eqb c dot); rewrite IH; [done|].
  destruct (Split a) eqn:E; [by apply Split_not_nil in E|done].
Qed.

Definition no_dot (s : string) : bool := all_chars (λ c, negb (Ascii.eqb c dot)) s.

Lemma Split_no_dot s : no_dot s = true → Split s = [s].
Proof.
  induction s as [|c s IH]; [done|]. unfold no_dot; simpl. intros [Hc Hs]%andb_true_iff.
  apply negb_true_iff in Hc. rewrite Hc. by rewrite (IH Hs).
Qed.

Lemma LastIndexDot_no_dot s : no_dot s = true → LastIndexDot s = None.
Proof.
  induction s as [|c s IH]; [done|]. unfold no_dot; simpl. intros [Hc Hs]%andb_true_iff.
  apply negb_true_iff in Hc. by rewrite (IH Hs), Hc.
Qed.

(** The action segment, as [topic[idx+1:]] finds it. *)
Lemma LastIndexDot_action p a :
  no_dot a = true → LastIndexDot (p ++ String dot a) = Some (String.length p).
Proof.
  intros Ha. induction p as [|c p IH]; simpl; [by rewrite LastIndexDot_no_dot|by rewrite IH].
Qed.

Lemma str_drop_app p a : str_drop (String.length p) (p ++ a) = a.
Proof. induction p as [|c p IH]; [by destruct a|done]. Qed.

Lemma str_drop_action p c a : str_drop (S (String.length p)) (p ++ String c a) = a.
Proof. induction p as [|d p IH]; [by destruct a|done]. Qed.

Lemma Split_single s : length (Split s) = 1%nat → no_dot s = true.
Proof.
  induction s as [|c s IH]; [done|]. unfold no_dot; simpl.
  destruct (Ascii.eqb c dot); simpl; [by destruct (Split s) eqn:E; [apply Split_not_nil in E|]|].
  intros H. apply IH. destruct (Split s) eqn:E; [by apply Split_not_nil in E|done].
Qed.

(** ** What a pattern matches *)

Definition seg_match (p t : string) : Prop := p = "*" ∨ p = t.

Definition parts_match (ts ps : list string) : Prop :=
  (("#" ∉ ps) ∧ Forall2 seg_match ps ts) ∨
  ∃ q t1 t2, ps = q ++ ["#"] ∧ ("#" ∉ q) ∧ ts = t1 ++ t2 ∧ Forall2 seg_match q t1.

Lemma seg_match_bool p t :
  negb (String.eqb p "*") && negb (String.eqb p t) = false ↔ seg_match p t.
Proof. unfold seg_match. destruct (String.eqb_spec p "*"), (String.eqb_spec p t); naive_solver. Qed.

Lemma parts_match_nil_r ts : parts_match ts [] ↔ ts = [].
Proof.
  split; [|intros ->; left; split; [set_solver|constructor]].
  intros [[_ H]|(q&?&?&H&_)]; [by inversion H|]. by destruct q.
Qed.

Lemma parts_match_hash ts ps : parts_match ts ("#" :: ps) ↔ ps = [].
Proof.
  split; [|intros ->; right; exists [], [], ts; repeat split; [set_solver|constructor]].
  intros [[H _]|(q&?&?&H&Hq&_)]; [set_solver|]. destruct q; [by simplify_eq/=|set_solver].
Qed.

Lemma parts_match_cons ts p ps :
  p ≠ "#" → parts_match ts (p :: ps) ↔ ∃ t ts', ts = t :: ts' ∧ seg_match p t ∧ parts_match ts' ps.
Proof.
  intros Hp. split.
  - intros [[Hn (t&ts'&?&?&->)%Forall2_cons_inv_l]|(q&t1&t2&H&Hq&->&Hf)].
    + exists t, ts'. repeat split; [done|]. left. split; [set_solver|done].
    + destruct q as [|p' q]; simplify_eq/=. apply Forall2_cons_inv_l in Hf as (t&t1'&?&?&->).
      exists t, (t1' ++ t2). repeat split; [done|]. right. exists q, t1', t2.
      repeat split; [set_solver|done].
  - intros (t&ts'&->&Hs&[[Hn Hf]|(q&t1&t2&->&Hq&->&Hf)]).
    + left. split; [set_solver|by constructor].
    + right. exists (p :: q), (t :: t1), t2. repeat split; [set_solver|by constructor].
Qed.

Lemma matchParts_spec ts ps : matchParts ts ps = true ↔ parts_match ts ps.
Proof.
  revert ts; induction ps as [|p ps IH]; intros ts; cbn [matchParts].
  { rewrite parts_match_nil_r. by destruct ts. }
  destruct (String.eqb_spec p "#") as [->|Hp].
  { rewrite parts_match_hash. by destruct ps. }
  rewrite parts_match_cons by done. destruct ts as [|t ts]; [naive_solver|].
  destruct (negb (String.eqb p "*") && negb (String.eqb p t)) eqn:E.
  - split; [done|]. intros (?&?&[= <- <-]&Hs&_). apply seg_match_bool in Hs. congruence.
  - apply seg_match_bool in E. rewrite IH. naive_solver.
Qed.

(** A topic matches a pattern exactly when they agree segment by segment,
    [*] standing for any one segment and a final [#] for any remaining ones; a
    pattern with [#] elsewhere matches nothing. *)
Theorem topic_match_spec t pattern :
  Match t pattern = true ↔
  (("#" ∉ Split pattern) ∧ Forall2 seg_match (Split pattern) (Split t)) ∨
  ∃ q t1 t2, Split pattern = q ++ ["#"] ∧ ("#" ∉ q) ∧ Split t = t1 ++ t2 ∧ Forall2 seg_match q t1.
Proof. apply matchParts_spec. Qed.

(** ** Configured topics *)

Lemma checkSegments_None i parts :
  checkSegments i parts = None ↔ Forall (λ p, validSegment p = true) parts.
Proof.
  revert i; induction parts as [|p parts IH]; intros i; simpl; [by split; constructor|].
  rewrite Forall_cons. destruct (String.eqb_spec p "") as [->|Hp]; [split; [done|by intros [? _]]|].
  destruct (validSegment p); simpl; [rewrite IH; tauto|]. split; [done|by intros [? _]].
Qed.

Lemma validSegment_no_wild p : validSegment p = true → p ≠ "*" ∧ p ≠ "#".
Proof. intros H. split; intros ->; vm_compute in H; done. Qed.

Lemma ValidateTopic_None t :
  ValidateTopic t = None →
  length (Split t) = 4%nat ∧ Forall (λ p, validSegment p = true) (Split t) ∧
  isPastTense (nth 3 (Split t) "") = true.
Proof.
  unfold ValidateTopic. destruct (String.eqb t ""); [done|].
  destruct (Nat.eqb_spec (length (Split t)) 4) as [Hl|]; simpl; [|done].
  destruct (checkSegments 0 (Split t)) eqn:E; [done|]. apply checkSegments_None in E.
  destruct (isPastTense _); done.
Qed.

Lemma composeTopics_spec prefix actions out m :
  composeTopics prefix actions out = (m, None) →
  (∀ a, a ∈ actions → m !! a = Some (prefix ++ "." ++ a)%string ∧
                      ValidateTopic (prefix ++ "." ++ a) = None) ∧
  (∀ a, a ∉ actions → m !! a = out !! a).
Proof.
  revert out; induction actions as [|a actions IH]; intros out; cbn [composeTopics].
  { intros [= <-]. split; [set_solver|done]. }
  destruct (ValidateTopic (prefix ++ "." ++ a)) eqn:Ev; [done|]. intros [H1 H2]%IH. split.
  - intros b [->|Hb]%elem_of_cons; [|by apply H1]. split; [|done].
    destruct (decide (a ∈ actions)) as [Ha|Ha]; [by apply H1|]. rewrite H2 by done. apply lookup_insert_eq.
  - intros b Hb. rewrite H2 by set_solver. apply lookup_insert_ne. set_solver.
Qed.

(** The action [handlers] dispatch on: what follows the last dot. *)
Definition action_of (topic : string) : option string :=
  idx ← LastIndexDot topic; Some (str_drop (S idx) topic).

(** A validated topic below a three-segment prefix. *)
Lemma topic_under_prefix prefix a :
  length (Split prefix) = 3%nat → Forall (λ p, validSegment p = true) (Split prefix) →
  ValidateTopic (prefix ++ "." ++ a) = None →
  Match (prefix ++ "." ++ a) (prefix ++ ".*") = true ∧ action_of (prefix ++ "." ++ a) = Some a.
Proof.
  intros Hl Es Hv. apply ValidateTopic_None in Hv as (H4&_&_). revert H4.
  change (prefix ++ "." ++ a)%string with (prefix ++ String dot a)%string.
  change (prefix ++ ".*")%string with (prefix ++ String dot "*")%string.
  rewrite Split_join, length_app, Hl. intros H4.
  assert (no_dot a = true) as Ha by (apply Split_single; lia). split.
  - apply matchParts_spec. left. rewrite !Split_join, (Split_no_dot a) by done. split.
    + rewrite elem_of_app. intros [Hx|Hx%list_elem_of_singleton]; [|done].
      rewrite Forall_forall in Es. by apply Es, validSegment_no_wild in Hx as [_ ?].
    + apply Forall2_app; [|by repeat constructor].
      clear. induction (Split prefix); constructor; [by right|done].
  - unfold action_of. rewrite LastIndexDot_action by done. cbn [mbind option_bind]. by rewrite str_drop_action.
Qed.

Lemma prefix_topics_ok prefix actions m :
  PrefixTopics prefix actions = (m, None) →
  (∀ a, a ∉ actions → m !! a = None) ∧
  ∀ a, a ∈ actions → m !! a = Some (prefix ++ "." ++ a)%string ∧ ValidateTopic (prefix ++ "." ++ a) = None ∧
    Match (prefix ++ "." ++ a) (prefix ++ ".*") = true ∧ action_of (prefix ++ "." ++ a) = Some a.
Proof.
  unfold PrefixTopics. destruct (String.eqb prefix ""); [done|]. destruct (HasSuffix prefix "."); [done|].
  destruct (Nat.eqb_spec (length (Split prefix)) 3) as [Hl|]; simpl; [|done].
  destruct (checkSegments 0 (Split prefix)) eqn:Es; [done|]. apply checkSegments_None in Es.
  intros [H1 H2]%composeTopics_spec. split; [done|]. intros a Ha. destruct (H1 a Ha) as [Hm Hv].
  destruct (topic_under_prefix prefix a Hl Es Hv). auto.
Qed.

(** Topics composed from a prefix: one per requested action, each passes
    [ValidateTopic], is matched by the subscription pattern [<prefix>.*], and
    its part after the last dot is the action. *)
Theorem prefix_topics_spec prefix actions m :
  PrefixTopics prefix actions = (m, None) →
  dom m = list_to_set actions ∧
  ∀ a, a ∈ actions → ∃ t, m !! a = Some t ∧ t = (prefix ++ "." ++ a)%string ∧
    ValidateTopic t = None ∧ Match t (prefix ++ ".*") = true ∧ action_of t = Some a.
Proof.
  intros [H2 H1]%prefix_topics_ok. split; [|intros a Ha; destruct (H1 a Ha) as (?&?&?&?); eauto 10].
  apply set_eq. intros a. rewrite elem_of_dom, elem_of_list_to_set.
  destruct (decide (a ∈ actions)) as [Ha|Ha].
  - destruct (H1 a Ha) as [-> _]. by split.
  - rewrite H2 by done. split; [by intros [??]|done].
Qed.

Lemma prefix_topics_spec_witness :
  action_of "wsm.runtime.workspace.created" = Some "created".
Proof.
  destruct (prefix_topics_spec "wsm.runtime.workspace" ["created"] {["created" := "wsm.runtime.workspace.created"]})
    as [_ H]; [vm_compute; reflexivity|].
  destruct (H "created") as (t&Ht&_&_&_&Ha); [left|]. vm_compute in Ht. injection Ht as <-. exact Ha.
Defined.

(** The two validators differ: a configured prefix can pass the strict check
    at construction and have every topic rejected by a strict bus. *)
Example prefix_accepted_topic_rejected :
  (PrefixTopics "1wsm.runtime.workspace" ["created"]).2 = None ∧
  (checkTopic ModeStrict "1wsm.runtime.workspace.created").1 ≠ None.
Proof. by vm_compute. Qed.
