(* ===== verification/Bus.v ===== *)
(** * The in-memory bus (go/runtime/bus/bus.go)

    [memBus] with its subscriptions, observers and enforcement mode.  Handlers
    act on a world [W]; a synchronous handler may refuse, an asynchronous one is
    returned by [Publish] for its goroutine to run.  The read lock is held while
    handlers run, so they do not change the bus.  The semaphore bounds how many
    goroutines run at once and has no effect on what is delivered. *)

From S2P Require Import Prelude Topics.

Local Open Scope Z_scope.

Section Bus.
Context {W P E : Type}.

(** The parts of the envelope the bus and its handlers read. *)
Record Event := mkEvent { EvTopic : string; EvSource : string; EvPayload : P }.

Inductive bus_error :=
| ErrInvalidTopic (e : topic_error)
| ErrBusClosed
| HandlerError (e : E).

Definition Handler : Type := Event → st W E unit.
Definition AsyncHandler : Type := Event → W → W.

Record subscription := mkSub {
  sub_id : Z;
  sub_pattern : string;
  sub_sync : option Handler;
  sub_async : option AsyncHandler;
}.

Record memBus := mkBus {
  subs : list subscription;
  nextID : Z;
  closed : bool;
  enforce : Mode;
  onInvalid : topic_error → W → W;
  observers : list (Z * AsyncHandler);
}.

(** [New] without an adapter. *)
Definition New (mode : Mode) (reporter : topic_error → W → W) : memBus := mkBus [] 0 false mode reporter [].

Definition add_sub (pattern : string) (h : option Handler) (a : option AsyncHandler) (b : memBus) : Z * memBus :=
  (nextID b, mkBus (subs b ++ [mkSub (nextID b) pattern h a]) (uint64 (nextID b + 1)) (closed b) (enforce b) (onInvalid b) (observers b)).

(** [Subscribe] and [SubscribeAsync] return the id their [Unsubscribe] closes over. *)
Definition Subscribe (pattern : string) (h : Handler) : memBus → Z * memBus := add_sub pattern (Some h) None.
Definition SubscribeAsync (pattern : string) (h : AsyncHandler) : memBus → Z * memBus := add_sub pattern None (Some h).

(** The loop that removes the first entry with the id. *)
Fixpoint remove_first {A} (hit : A → bool) (l : list A) : list A :=
  match l with
  | [] => []
  | x :: l => if hit x then l else x :: remove_first hit l
  end.

Definition unsub (id : Z) (b : memBus) : memBus :=
  mkBus (remove_first (λ s, sub_id s =? id) (subs b)) (nextID b) (closed b) (enforce b) (onInvalid b) (observers b).

Definition ObservePublished (o : AsyncHandler) (b : memBus) : Z * memBus :=
  (nextID b, mkBus (subs b) (uint64 (nextID b + 1)) (closed b) (enforce b) (onInvalid b) (observers b ++ [(nextID b, o)])).

Definition unobserve (id : Z) (b : memBus) : memBus :=
  mkBus (subs b) (nextID b) (closed b) (enforce b) (onInvalid b) (remove_first (λ o, o.1 =? id) (observers b)).

(** The synchronous handlers in order, up to the first error. *)
Fixpoint run_sync (hs : list Handler) (e : Event) : st W E unit :=
  match hs with
  | [] => mret tt
  | h :: hs => h e;; run_sync hs e
  end.

Definition matching (b : memBus) (e : Event) : list subscription :=
  List.filter (λ s, Match (EvTopic e) (sub_pattern s)) (subs b).

Definition Publish (b : memBus) (e : Event) : st W bus_error (list AsyncHandler) := λ w,
  let '(err, reports) := checkTopic (enforce b) (EvTopic e) in
  let w := foldl (λ w r, onInvalid b r w) w reports in
  match err with
  | Some te => (Err (ErrInvalidTopic te), w)
  | None =>
      if closed b then (Err ErrBusClosed, w)
      else
        let ms := matching b e in
        match run_sync (omap sub_sync ms) e w with
        | (Err er, w) => (Err (HandlerError er), w)
        | (Ok _, w) => (Ok (omap sub_async ms), foldl (λ w o, o.2 e w) w (observers b))
        end
  end.

Definition Close (b : memBus) : memBus :=
  mkBus [] (nextID b) true (enforce b) (onInvalid b) (observers b).

(** ** Publishing *)

(** Handlers that all accept, from [w] to [w']. *)
Fixpoint accepted (hs : list Handler) (e : Event) (w w' : W) : Prop :=
  match hs with
  | [] => w' = w
  | h :: hs => ∃ w1, h e w = (Ok tt, w1) ∧ accepted hs e w1 w'
  end.

Lemma run_sync_cases hs e w :
  (∃ w', run_sync hs e w = (Ok tt, w') ∧ accepted hs e w w') ∨
  (∃ pre h post w1 er w', hs = pre ++ h :: post ∧ accepted pre e w w1 ∧ h e w1 = (Err er, w') ∧
     run_sync hs e w = (Err er, w')).
Proof.
  revert w; induction hs as [|h hs IH]; intros w; cbn [run_sync]; [left; by exists w|].
  destruct (h e w) as [[[]|er] w1] eqn:Eh.
  - run Eh. destruct (IH w1) as [(w'&->&Ha)|(pre&h'&post&w2&er&w'&->&Ha&Hh&->)].
    + left. exists w'. split; [done|]. by exists w1.
    + right. exists (h :: pre), h', post, w2, er, w'. split_and!; try done. by exists w1.
  - stop Eh. right. by exists [], h, hs, w, er, w1.
Qed.

(** The topic as the mode sees it. *)
Definition refused (b : memBus) (t : string) : option topic_error :=
  match enforce b with ModeStrict => Validate t | _ => None end.

Definition reported (b : memBus) (t : string) (w : W) : W :=
  match enforce b, Validate t with
  | ModeOff, _ | _, None => w
  | _, Some err => onInvalid b err w
  end.

(** Publishing: a badly named topic is reported unless checking is off and
    refused in strict mode only; a closed bus refuses; otherwise the synchronous
    handlers of the matching subscriptions run in subscription order until one
    refuses, in which case nothing after it runs, no observer and no
    asynchronous handler included, and its error is the result; if all accept,
    every observer sees the event once and exactly the matching asynchronous
    handlers are started. *)
Theorem bus_publish_spec b e w :
  let w0 := reported b (EvTopic e) w in
  let hs := omap sub_sync (matching b e) in
  let '(r, w') := Publish b e w in
  (∃ te, refused b (EvTopic e) = Some te ∧ r = Err (ErrInvalidTopic te) ∧ w' = w0) ∨
  (refused b (EvTopic e) = None ∧ closed b = true ∧ r = Err ErrBusClosed ∧ w' = w0) ∨
  (refused b (EvTopic e) = None ∧ closed b = false ∧
     ((∃ pre h post w1 er, hs = pre ++ h :: post ∧ accepted pre e w0 w1 ∧ h e w1 = (Err er, w') ∧
         r = Err (HandlerError er)) ∨
      (∃ w1, accepted hs e w0 w1 ∧ w' = foldl (λ w o, o.2 e w) w1 (observers b) ∧
         r = Ok (omap sub_async (matching b e))))).
Proof.
  intros w0 hs. unfold Publish.
  assert (checkTopic (enforce b) (EvTopic e) =
            (refused b (EvTopic e), match enforce b, Validate (EvTopic e) with ModeOff, _ | _, None => [] | _, Some err => [err] end)) as ->.
  { unfold checkTopic, refused. destruct (enforce b); by destruct (Validate (EvTopic e)). }
  replace (foldl _ w _) with w0.
  2:{ unfold w0, reported. destruct (enforce b); by destruct (Validate (EvTopic e)). }
  destruct (refused b (EvTopic e)) as [te|]; [left; eauto|].
  destruct (closed b); [by right; left|]. cbv zeta. fold hs.
  destruct (run_sync_cases hs e w0) as [(w1&->&Ha)|(pre&h&post&w1&er&w'&Hh&Ha&He&->)];
    right; right; split_and!; try done.
  - right. eauto.
  - left. by exists pre, h, post, w1, er.
Qed.

(** ** Subscriptions *)

(** Ids are unique and below the counter. *)
Record bus_wf (b : memBus) : Prop := {
  wf_nodup : NoDup (sub_id <$> subs b);
  wf_below s : s ∈ subs b → 0 ≤ sub_id s < nextID b;
  wf_next : 0 ≤ nextID b;
}.

Lemma remove_first_filter {A} (f : A → Z) (id : Z) (l : list A) :
  NoDup (f <$> l) → remove_first (λ x, f x =? id) l = filter (λ x, f x ≠ id) l.
Proof.
  induction l as [|x l IH]; simpl; [done|]. intros [Hx Hl]%NoDup_cons. rewrite filter_cons.
  destruct (Z.eqb_spec (f x) id) as [<-|Hne].
  - rewrite decide_False by naive_solver. symmetry. apply list_filter_all.
    intros y Hy Heq. apply Hx. rewrite <- Heq. auto with kit.
  - rewrite decide_True by done. by rewrite IH.
Qed.

Lemma unsub_filter b id : bus_wf b → subs (unsub id b) = filter (λ s, sub_id s ≠ id) (subs b).
Proof. intros [Hnd _ _]. by apply remove_first_filter. Qed.

Lemma unsub_wf b id : bus_wf b → bus_wf (unsub id b).
Proof.
  intros Hwf. pose proof (unsub_filter b id Hwf) as Hs. destruct Hwf as [Hnd Hb Hn]. split; [|intros s|done]; rewrite Hs.
  - by apply NoDup_fmap_filter.
  - intros [_ Hin]%list_elem_of_filter. by apply Hb.
Qed.

Lemma add_sub_wf b pattern h a :
  bus_wf b → nextID b + 1 < 2 ^ 64 →
  bus_wf (add_sub pattern h a b).2 ∧ (nextID b ∉ sub_id <$> subs b).
Proof.
  intros [Hnd Hb Hn] Hmax.
  assert (nextID b ∉ sub_id <$> subs b) as Hnew.
  { intros (s&Heq&Hs)%list_elem_of_fmap. apply Hb in Hs. lia. }
  split; [|done]. split; simpl; unfold uint64; rewrite ?Z.mod_small by lia; [| |lia].
  - rewrite fmap_app. apply NoDup_app. split_and!; [done| |apply NoDup_singleton].
    intros x Hx. simpl. rewrite list_elem_of_singleton. intros ->. done.
  - intros s [Hs|Hs%list_elem_of_singleton]%elem_of_app; [apply Hb in Hs|subst s; simpl]; lia.
Qed.

(** A subscription gets an id no other has, and calling its unsubscribe
    function removes exactly it: the subscriptions that were there stay, in
    their order, and unsubscribing another one does not touch it (as long as
    fewer than 2^64 ids were handed out). *)
Theorem subscribe_unsubscribe b pattern h a :
  bus_wf b → nextID b + 1 < 2 ^ 64 →
  let '(id, b') := add_sub pattern h a b in
  bus_wf b' ∧ (id ∉ sub_id <$> subs b) ∧ subs b' = subs b ++ [mkSub id pattern h a] ∧
  subs (unsub id b') = subs b ∧
  ∀ id', id' ≠ id → subs (unsub id' b') = subs (unsub id' b) ++ [mkSub id pattern h a] ∧ bus_wf (unsub id' b').
Proof.
  intros Hwf Hmax. destruct (add_sub_wf b pattern h a Hwf Hmax) as [Hwf' Hnew].
  unfold add_sub in *. cbv zeta. simpl snd in Hwf'. split_and!; [done..| |].
  - rewrite unsub_filter by done. simpl. rewrite filter_app, (list_filter_none _ [_]), app_nil_r.
    + apply list_filter_all. intros s Hs Heq. apply Hnew. rewrite <- Heq. auto with kit.
    + intros s ->%list_elem_of_singleton. simpl. naive_solver.
  - intros id' Hne. split; [|by apply unsub_wf]. rewrite !unsub_filter by done. simpl.
    rewrite filter_app, (list_filter_all _ [_]); [done|]. intros s ->%list_elem_of_singleton. simpl. congruence.
Qed.

End Bus.

Lemma subscribe_unsubscribe_witness :
  let b : memBus (W:=unit) (P:=unit) (E:=unit) := (Subscribe "a.*" (λ _, mret tt) (New ModeWarn (λ _ w, w))).2 in
  subs (unsub 1 (SubscribeAsync "b.#" (λ _ w, w) b).2) = subs b.
Proof.
  intros b. apply (subscribe_unsubscribe b "b.#" None (Some (λ _ w, w))).
  - split; [apply NoDup_singleton| |vm_compute; discriminate].
    intros s ->%list_elem_of_singleton. vm_compute. split; [discriminate|reflexivity].
  - reflexivity.
Defined.
