(* ===== verification/StreamLog.v ===== *)
(** * The stream log and its readers (go/runtime/bus/stream_log.go)

    [ringLog] with its offsets at their 64 bits, the [StreamLog] interface as
    a class whose laws are the ones its comments state, the ring as an
    instance of it, and [sendCursor], a reader of any such log.  Mutexes are
    left out: every method holds the log's for its whole body. *)

From S2P Require Import Prelude.

Local Open Scope Z_scope.

Section StreamLog.
(** [Ev] is [bus.Event]; its inhabitant stands for the zero value. *)
Context {Ev : Type} `{!Inhabited Ev}.

(** [via] is a link id and [ticket] names the ticket of an acknowledged
    publish, if any. *)
Record LogEntry := mkEntry {
  Offset : Z;
  le_Event : Ev;
  Origin : string;
  Marker : bool;
  via : Z;
  ticket : option nat;
}.

Definition zero_entry : LogEntry := mkEntry 0 inhabitant "" false 0 None.

Definition with_offset (off : Z) (e : LogEntry) : LogEntry :=
  mkEntry off (le_Event e) (Origin e) (Marker e) (via e) (ticket e).

(** ** The interface *)

Class StreamLogOps (L : Type) := {
  ID : L → string;
  Append : LogEntry → L → Z * L;
  ReadAfter : Z → Z → L → list LogEntry;
  Oldest : L → Z;
  Head : L → Z;
}.

(** What a log promises its readers.  [retained] is what it still holds;
    offsets are dense and a log stays usable up to the last offset below
    2^64 - 1. *)
Class StreamLog (L : Type) `{StreamLogOps L} := {
  log_ok : L → Prop;
  retained : L → list LogEntry;
  log_bounds l : log_ok l → 1 ≤ Oldest l ≤ Head l + 1 ∧ Head l < 2 ^ 64 - 1;
  log_dense l : log_ok l → Offset <$> retained l = seqZ (Oldest l) (Head l - Oldest l + 1);
  log_read l after max : log_ok l → 0 ≤ after < 2 ^ 64 - 1 → max < 2 ^ 63 →
    ReadAfter after max l = take (Z.to_nat max) (filter (λ e, after < Offset e) (retained l));
  log_append l e : log_ok l → Head l < 2 ^ 64 - 2 →
    let '(off, l') := Append e l in
    log_ok l' ∧ off = Head l + 1 ∧ Head l' = Head l + 1 ∧ ID l' = ID l ∧ Oldest l ≤ Oldest l' ∧
    retained l' = drop (Z.to_nat (Oldest l' - Oldest l)) (retained l ++ [with_offset off e]);
}.

(** ** The ring *)

Record ringLog := mkRing { ring_id : string; buf : list LogEntry; head : Z }.

Definition DefaultStreamLogSize : Z := 1024.

(** [minted] is the identifier [id.New] mints for an empty [streamID]. *)
Definition NewRingLog (minted streamID : string) (size : Z) : ringLog :=
  let streamID := if String.eqb streamID "" then minted else streamID in
  let size := if size <? 1 then DefaultStreamLogSize else size in
  mkRing streamID (replicate (Z.to_nat size) zero_entry) 0.

Definition ring_len (r : ringLog) : Z := Z.of_nat (length (buf r)).

(** [r.buf[(off-1)%uint64(len(r.buf))]] *)
Definition slot_index (r : ringLog) (off : Z) : nat := Z.to_nat (uint64 (off - 1) mod ring_len r).
Definition slot (r : ringLog) (off : Z) : LogEntry := default zero_entry (buf r !! slot_index r off).

Definition ring_Append (e : LogEntry) (r : ringLog) : Z * ringLog :=
  let h := uint64 (head r + 1) in
  (h, mkRing (ring_id r) (<[slot_index r h := with_offset h e]> (buf r)) h).

Definition oldestLocked (r : ringLog) : Z :=
  let n := ring_len r in
  if head r <=? n then 1 else uint64 (uint64 (head r - n) + 1).

(** [for off := start; off < start+n; off++] *)
Fixpoint read_loop (fuel : nat) (r : ringLog) (off stop : Z) : list LogEntry :=
  match fuel with
  | O => []
  | S fuel' => if off <? stop then slot r off :: read_loop fuel' r (uint64 (off + 1)) stop else []
  end.

Definition ring_ReadAfter (after max : Z) (r : ringLog) : list LogEntry :=
  let start := uint64 (after + 1) in
  let o := oldestLocked r in
  let start := if start <? o then o else start in
  if (head r <? start) || (max <=? 0) then []
  else
    let n := uint64 (uint64 (head r - start) + 1) in
    let n := if uint64 max <? n then uint64 max else n in
    read_loop (Z.to_nat n) r start (uint64 (start + n)).

#[export] Instance ring_ops : StreamLogOps ringLog := {
  ID := ring_id;
  Append := ring_Append;
  ReadAfter := ring_ReadAfter;
  Oldest := oldestLocked;
  Head := head;
}.

(** ** The reader's cursor *)

Record sendCursor := mkCursor { at_ : Z; outbox : bool }.

Section Cursor.
Context {L : Type} `{StreamLogOps L}.

Definition newSendCursor (l : L) (outbox : bool) : sendCursor := mkCursor (Head l) outbox.

Definition cursor_linkUp (l : L) (c : sendCursor) : sendCursor :=
  if outbox c then c else mkCursor (Head l) (outbox c).

(** The entries, the number of evicted ones before them, and the cursor. *)
Definition next (l : L) (max : Z) (c : sendCursor) : list LogEntry * Z * sendCursor :=
  let entries := ReadAfter (at_ c) max l in
  match entries, last entries with
  | e :: _, Some z =>
      let first := Offset e in
      let gap := if uint64 (at_ c + 1) <? first then uint64 (uint64 (first - at_ c) - 1) else 0 in
      (entries, gap, mkCursor (Offset z) (outbox c))
  | _, _ => ([], 0, c)
  end.

End Cursor.

(** ** Dense lists of entries *)

Definition dense (a : Z) (es : list LogEntry) : Prop := Offset <$> es = seqZ a (Z.of_nat (length es)).

Lemma dense_cons a e es : dense a (e :: es) ↔ Offset e = a ∧ dense (a + 1) es.
Proof.
  unfold dense. rewrite fmap_cons, seqZ_cons by (simpl; lia).
  replace (Z.pred _) with (Z.of_nat (length es)) by (simpl; lia).
  unfold Z.succ. split; [by intros [= -> ->]|by intros [-> ->]].
Qed.

Lemma dense_app a es es' : dense a (es ++ es') ↔ dense a es ∧ dense (a + Z.of_nat (length es)) es'.
Proof.
  revert a. induction es as [|e es IH]; intros a.
  - assert (dense a []) by (unfold dense; by rewrite seqZ_nil by (simpl; lia)).
    change ([] ++ es') with es'. replace (a + Z.of_nat (length (@nil LogEntry))) with a by (simpl; lia). tauto.
  - change ((e :: es) ++ es') with (e :: (es ++ es')). rewrite !dense_cons, IH.
    replace (a + 1 + Z.of_nat (length es)) with (a + Z.of_nat (length (e :: es))) by (simpl; lia). tauto.
Qed.

Lemma dense_take_drop a es n : dense a es → dense a (take n es) ∧ dense (a + Z.of_nat (n `min` length es)) (drop n es).
Proof. intros Hd. rewrite <-(take_drop n es), dense_app, length_take in Hd. done. Qed.

Lemma dense_lookup a es i e : dense a es → es !! i = Some e → Offset e = a + Z.of_nat i.
Proof.
  intros Hd He. assert (Ho : (Offset <$> es) !! i = Some (Offset e)) by by rewrite list_lookup_fmap, He.
  rewrite Hd in Ho. by apply lookup_seqZ in Ho as [-> _].
Qed.

Lemma dense_filter a es after :
  dense a es → filter (λ e, after < Offset e) es = drop (Z.to_nat (after + 1 - a)) es.
Proof.
  revert a. induction es as [|e es IH]; intros a Hd; [by rewrite drop_nil|].
  apply dense_cons in Hd as [He Hd]. rewrite filter_cons. case_decide as Hlt.
  - replace (Z.to_nat _) with O by lia. simpl. f_equal. rewrite (IH _ Hd).
    by replace (Z.to_nat _) with O by lia.
  - rewrite (IH _ Hd). replace (Z.to_nat (after + 1 - a)) with (S (Z.to_nat (after + 1 - (a + 1)))) by lia. done.
Qed.

Lemma dense_last a es e : dense a es → last es = Some e → Offset e = a + Z.of_nat (length es) - 1.
Proof.
  intros Hd Hl. rewrite last_lookup in Hl. rewrite (dense_lookup _ _ _ _ Hd Hl).
  destruct es; [done|]. simpl in *. lia.
Qed.

(** ** The ring keeps the laws *)

Definition ring_ok (r : ringLog) : Prop :=
  0 < ring_len r < 2 ^ 63 ∧ 0 ≤ head r < 2 ^ 64 - 1 ∧
  ∀ off, oldestLocked r ≤ off ≤ head r → Offset (slot r off) = off.

Definition ring_retained (r : ringLog) : list LogEntry :=
  slot r <$> seqZ (oldestLocked r) (head r - oldestLocked r + 1).

Lemma oldestLocked_eq r : ring_ok r → oldestLocked r = Z.max 1 (head r - ring_len r + 1).
Proof.
  intros (Hn & Hh & _). unfold oldestLocked. destruct (Z.leb_spec (head r) (ring_len r)); [lia|].
  rewrite !uint64_small; [lia|lia|]. rewrite uint64_small; lia.
Qed.

Lemma slot_index_lt r off : 0 < ring_len r → (slot_index r off < length (buf r))%nat.
Proof.
  intros Hn. unfold slot_index. pose proof (Z.mod_pos_bound (uint64 (off - 1)) (ring_len r) Hn).
  unfold ring_len in *. lia.
Qed.

(** Two offsets less than a ring apart have different slots. *)
Lemma slot_index_ne r a b :
  0 < ring_len r → 1 ≤ a < b → b - a < ring_len r → b < 2 ^ 64 → slot_index r a ≠ slot_index r b.
Proof.
  intros Hn Hab Hd Hb Heq. unfold slot_index in Heq. rewrite !uint64_small in Heq by lia.
  pose proof (Z.mod_pos_bound (a - 1) (ring_len r) Hn). pose proof (Z.mod_pos_bound (b - 1) (ring_len r) Hn).
  apply Z2Nat.inj in Heq; [|lia|lia].
  pose proof (Z.div_mod (a - 1) (ring_len r) ltac:(lia)). pose proof (Z.div_mod (b - 1) (ring_len r) ltac:(lia)).
  assert ((b - 1) / ring_len r = (a - 1) / ring_len r); nia.
Qed.

Lemma ring_Append_slot r e off :
  ring_ok r → head r < 2 ^ 64 - 2 → 1 ≤ off → head r + 1 - ring_len r < off ≤ head r + 1 →
  slot (ring_Append e r).2 off = if decide (off = head r + 1) then with_offset (head r + 1) e else slot r off.
Proof.
  intros (Hn & Hh & _) Hb H1 Hoff. unfold ring_Append. rewrite uint64_small by lia. cbn.
  unfold slot, slot_index at 1, ring_len at 1. cbn. rewrite length_insert. fold (ring_len r).
  change (Z.to_nat (uint64 (off - 1) mod ring_len r)) with (slot_index r off).
  case_decide as Heq; [subst; rewrite list_lookup_insert_eq; [done|apply slot_index_lt; lia]|].
  rewrite list_lookup_insert_ne; [done|]. apply not_eq_sym, slot_index_ne; lia.
Qed.

Lemma ring_Append_head r e : 0 ≤ head r < 2 ^ 64 - 1 → head (ring_Append e r).2 = head r + 1.
Proof. intros Hh. cbn. rewrite uint64_small; lia. Qed.

Lemma ring_Append_len r e : ring_len (ring_Append e r).2 = ring_len r.
Proof. unfold ring_len. cbn. by rewrite length_insert. Qed.

Lemma ring_Append_ok r e : ring_ok r → head r < 2 ^ 64 - 2 → ring_ok (ring_Append e r).2.
Proof.
  intros Hr Hb. pose proof Hr as (Hn & Hh & Ho).
  pose proof (ring_Append_len r e) as Hlen. pose proof (ring_Append_head r e Hh) as Hhd.
  split; [lia|]. split; [lia|]. intros off Hoff.
  assert (Hold : Z.max 1 (head r + 1 - ring_len r + 1) ≤ off).
  { revert Hoff. unfold oldestLocked. rewrite Hlen, Hhd.
    destruct (Z.leb_spec (head r + 1) (ring_len r)); [lia|]. rewrite !uint64_small; try lia. rewrite uint64_small; lia. }
  rewrite ring_Append_slot by (done || lia). case_decide; [by subst|].
  apply Ho. rewrite (oldestLocked_eq r Hr). lia.
Qed.

Lemma read_loop_eq fuel r off :
  0 ≤ off → off + Z.of_nat fuel < 2 ^ 64 →
  read_loop fuel r off (off + Z.of_nat fuel) = slot r <$> seqZ off (Z.of_nat fuel).
Proof.
  revert off. induction fuel as [|fuel IH]; intros off H0 Hb; [by rewrite seqZ_nil by lia|].
  cbn [read_loop]. rewrite (proj2 (Z.ltb_lt _ _)) by lia. rewrite seqZ_cons, fmap_cons by lia. f_equal.
  rewrite uint64_small by lia. replace (off + Z.of_nat (S fuel)) with (off + 1 + Z.of_nat fuel) by lia.
  rewrite IH by lia. by replace (Z.pred _) with (Z.of_nat fuel) by lia.
Qed.

Lemma take_seqZ a n k : 0 ≤ k → take (Z.to_nat k) (seqZ a n) = seqZ a (Z.min k (Z.max 0 n)).
Proof.
  intros Hk. apply list_eq. intros i. apply option_eq. intros x.
  rewrite lookup_take_Some, !lookup_seqZ. lia.
Qed.

Lemma drop_seqZ a n k : 0 ≤ k → drop (Z.to_nat k) (seqZ a n) = seqZ (a + k) (n - k).
Proof.
  intros Hk. apply list_eq. intros i. apply option_eq. intros x.
  rewrite lookup_drop, !lookup_seqZ. lia.
Qed.

Lemma ring_retained_dense r : ring_ok r → dense (oldestLocked r) (ring_retained r).
Proof.
  intros Hr. pose proof Hr as (Hn & Hh & Ho). unfold dense, ring_retained. rewrite length_fmap, length_seqZ.
  pose proof (oldestLocked_eq r Hr). rewrite <-list_fmap_compose, Z2Nat.id by lia.
  rewrite <-(list_fmap_id (seqZ _ _)) at 2. apply list_fmap_ext_in.
  intros x Hx%elem_of_seqZ. apply Ho. unfold id. lia.
Qed.

Lemma ring_ReadAfter_eq r after max :
  ring_ok r → 0 ≤ after < 2 ^ 64 - 1 → max < 2 ^ 63 →
  ring_ReadAfter after max r = take (Z.to_nat max) (filter (λ e, after < Offset e) (ring_retained r)).
Proof.
  intros Hr Ha Hm. rewrite (dense_filter _ _ _ (ring_retained_dense r Hr)).
  unfold ring_ReadAfter. rewrite (uint64_small (after + 1)) by lia.
  pose proof (oldestLocked_eq r Hr) as Ho. destruct Hr as (Hn & Hh & _).
  set (start := if after + 1 <? oldestLocked r then oldestLocked r else after + 1).
  assert (Hs : start = Z.max (after + 1) (oldestLocked r)) by (unfold start; destruct (Z.ltb_spec (after + 1) (oldestLocked r)); lia).
  unfold ring_retained. rewrite <-fmap_drop, <-fmap_take.
  replace (Z.to_nat (after + 1 - oldestLocked r)) with (Z.to_nat (start - oldestLocked r)) by lia.
  rewrite drop_seqZ by lia.
  destruct (Z.ltb_spec (head r) start); cbn [orb]; [by rewrite seqZ_nil, take_nil by lia|].
  destruct (Z.leb_spec max 0); [by replace (Z.to_nat max) with O by lia|].
  rewrite take_seqZ by lia. rewrite (uint64_small max), (uint64_small (head r - start)), (uint64_small (_ + 1)) by lia.
  set (n := if max <? head r - start + 1 then max else head r - start + 1).
  assert (Hn' : n = Z.min max (head r - start + 1)) by (unfold n; destruct (Z.ltb_spec max (head r - start + 1)); lia).
  rewrite (uint64_small (start + n)) by lia.
  rewrite <-(Z2Nat.id n) at 2 by lia. rewrite read_loop_eq by lia. f_equal. f_equal; lia.
Qed.

Lemma ring_Append_oldest r e :
  ring_ok r → head r < 2 ^ 64 - 2 →
  oldestLocked r ≤ oldestLocked (ring_Append e r).2 ∧
  oldestLocked (ring_Append e r).2 = Z.max 1 (head r + 1 - ring_len r + 1).
Proof.
  intros Hr Hb. rewrite (oldestLocked_eq r Hr), (oldestLocked_eq _ (ring_Append_ok r e Hr Hb)).
  destruct Hr as (_ & Hh & _). rewrite ring_Append_len, ring_Append_head by lia. lia.
Qed.

Lemma ring_Append_retained r e :
  ring_ok r → head r < 2 ^ 64 - 2 →
  ring_retained (ring_Append e r).2 =
  drop (Z.to_nat (oldestLocked (ring_Append e r).2 - oldestLocked r)) (ring_retained r ++ [with_offset (head r + 1) e]).
Proof.
  intros Hr Hb. destruct (ring_Append_oldest r e Hr Hb) as [Hle Ho'].
  pose proof (oldestLocked_eq r Hr) as Ho. pose proof Hr as (Hn & Hh & _).
  unfold ring_retained. rewrite ring_Append_head by lia. set (o' := oldestLocked (ring_Append e r).2) in *.
  rewrite drop_app_le by (rewrite length_fmap, length_seqZ; lia). rewrite <-fmap_drop, drop_seqZ by lia.
  replace (oldestLocked r + (o' - oldestLocked r)) with o' by lia.
  replace (head r + 1 - o' + 1) with (head r - o' + 1 + 1) by lia.
  rewrite seqZ_app, fmap_app by lia. f_equal.
  - replace (head r - oldestLocked r + 1 - (o' - oldestLocked r)) with (head r - o' + 1) by lia.
    apply list_fmap_ext_in. intros x Hx%elem_of_seqZ.
    rewrite ring_Append_slot by (done || lia). by rewrite decide_False by lia.
  - replace (o' + (head r - o' + 1)) with (head r + 1) by lia.
    rewrite seqZ_cons, seqZ_nil, list_fmap_singleton by lia.
    rewrite ring_Append_slot by (done || lia). by rewrite decide_True.
Qed.

#[export] Program Instance ring_StreamLog : StreamLog ringLog := {
  log_ok := ring_ok;
  retained := ring_retained;
}.
Next Obligation. intros r Hr. pose proof (oldestLocked_eq r Hr) as Ho. destruct Hr as (Hn & Hh & _). cbn in *. lia. Qed.
Next Obligation.
  intros r Hr. pose proof (ring_retained_dense r Hr) as Hd. unfold dense in Hd. rewrite Hd. cbn. f_equal.
  unfold ring_retained. rewrite length_fmap, length_seqZ. pose proof (oldestLocked_eq r Hr). destruct Hr as (? & ? & _). lia.
Qed.
Next Obligation. exact ring_ReadAfter_eq. Qed.
Next Obligation.
  intros r e Hr Hb. change (Append e r) with (ring_Append e r). cbn [Head Oldest ID ring_ops] in *.
  pose proof Hr as (_ & Hh & _). pose proof (ring_Append_head r e ltac:(lia)) as Hhd.
  pose proof (ring_Append_ok r e Hr Hb). pose proof (ring_Append_oldest r e Hr Hb) as [Hle _].
  pose proof (ring_Append_retained r e Hr Hb) as Hret. change (head (ring_Append e r).2) with (ring_Append e r).1 in Hhd.
  assert (Hid : ring_id (ring_Append e r).2 = ring_id r) by done.
  pose proof (ring_Append_head r e ltac:(lia)). rewrite <-Hhd in Hret |- *.
  destruct (ring_Append e r) as [off r']. cbn in *. split_and!; congruence || done.
Qed.

(** ** A log and the history of its appends *)

Section Holds.
Context {L : Type} `{StreamLog L}.

(** [l] is a log whose appends were [h], of which it retains a suffix. *)
Definition holds (l : L) (h : list LogEntry) : Prop :=
  log_ok l ∧ Head l = Z.of_nat (length h) ∧ dense 1 h ∧
  retained l = drop (Z.to_nat (Oldest l - 1)) h.

Lemma holds_append l h e :
  holds l h → Head l < 2 ^ 64 - 2 →
  (Append e l).1 = Head l + 1 ∧ holds (Append e l).2 (h ++ [with_offset (Head l + 1) e]) ∧
  ID (Append e l).2 = ID l ∧ Oldest l ≤ Oldest (Append e l).2.
Proof.
  intros (Hok & Hh & Hd & Hr) Hb. pose proof (log_append l e Hok Hb) as Ha. pose proof (log_bounds l Hok) as Ho.
  destruct (Append e l) as [off l']. destruct Ha as (Hok' & -> & Hh' & Hid & Hle & Hr').
  pose proof (log_bounds l' Hok') as Ho'. cbn [fst snd]. unfold holds. split_and!; try done.
  - rewrite Hh', Hh, length_app. simpl. lia.
  - apply dense_app. split; [done|]. apply dense_cons. split; [simpl; lia|]. unfold dense. by rewrite seqZ_nil by (simpl; lia).
  - rewrite Hr', Hr, <-(drop_app_le h) by lia. rewrite drop_drop. f_equal. lia.
Qed.

Lemma holds_read l h after max :
  holds l h → 0 ≤ after < 2 ^ 64 - 1 → max < 2 ^ 63 →
  ReadAfter after max l = take (Z.to_nat max) (drop (Z.to_nat (Z.max after (Oldest l - 1))) h).
Proof.
  intros (Hok & Hh & Hd & Hr) Ha Hm. rewrite (log_read l after max Hok Ha Hm), Hr.
  pose proof (log_bounds l Hok). destruct (dense_take_drop _ _ (Z.to_nat (Oldest l - 1)) Hd) as [_ Hd'].
  rewrite (dense_filter _ _ _ Hd'), drop_drop. f_equal. f_equal. lia.
Qed.

Lemma take_drop_dense h a n : dense 1 h → dense (Z.of_nat a + 1) (take n (drop a h)).
Proof.
  intros Hd. destruct (decide (a ≤ length h)%nat) as [Ha|Ha].
  - apply dense_take_drop. destruct (dense_take_drop _ _ a Hd) as [_ Hd'].
    by replace (Z.of_nat a + 1) with (1 + Z.of_nat (a `min` length h)) by lia.
  - rewrite drop_ge, take_nil by lia. unfold dense. by rewrite seqZ_nil by (simpl; lia).
Qed.

(** [next] hands out the entries after the cursor that are still there, in
    order, counts exactly the evicted ones before them, and stops behind the
    last one handed out. *)
Lemma next_accounts l h max c es gap c' :
  holds l h → 0 ≤ at_ c ≤ Head l → 0 < max < 2 ^ 63 → next l max c = (es, gap, c') →
  match es with
  | [] => gap = 0 ∧ c' = c ∧ (at_ c = Head l ∨ Head l < Oldest l)
  | _ => gap = Z.max 0 (Oldest l - 1 - at_ c) ∧ at_ c' = at_ c + gap + Z.of_nat (length es) ∧
         es = take (Z.to_nat max) (drop (Z.to_nat (at_ c + gap)) h) ∧
         dense (at_ c + gap + 1) es ∧ at_ c' ≤ Head l ∧ outbox c' = outbox c
  end.
Proof.
  intros Hl Hc Hm. pose proof Hl as (Hok & Hh & Hd & Hr). pose proof (log_bounds l Hok) as Ho.
  unfold next. rewrite (holds_read l h) by (done || lia).
  set (a := Z.to_nat (Z.max (at_ c) (Oldest l - 1))).
  pose proof (take_drop_dense h a (Z.to_nat max) Hd) as Hden.
  assert (Hlen : (length (take (Z.to_nat max) (drop a h)) ≤ length h - a)%nat) by (rewrite length_take, length_drop; lia).
  destruct (take (Z.to_nat max) (drop a h)) as [|e es'] eqn:E.
  { intros [= <- <- <-]. split_and!; [done..|]. apply (f_equal length) in E.
    rewrite length_take, length_drop in E. simpl in E. lia. }
  destruct (last (e :: es')) as [z|] eqn:Ez; [|by apply last_None in Ez].
  pose proof (dense_last _ _ _ Hden Ez) as Hz. pose proof Hden as [He _]%dense_cons.
  rewrite He. intros [= <- <- <-]. simpl in Hlen.
  rewrite !uint64_small by (rewrite ?uint64_small; lia).
  assert (Hgap : (if at_ c + 1 <? Z.of_nat a + 1 then Z.of_nat a + 1 - at_ c - 1 else 0) = Z.max 0 (Oldest l - 1 - at_ c)).
  { destruct (Z.ltb_spec (at_ c + 1) (Z.of_nat a + 1)); lia. }
  rewrite Hgap. cbn [at_ outbox]. rewrite Hz. split_and!; [done|lia| | |simpl; lia|done].
  - rewrite <-E. do 2 f_equal. lia.
  - by replace (at_ c + _ + 1) with (Z.of_nat a + 1) by lia.
Qed.

End Holds.

Lemma NewRingLog_ok minted sid size : size < 2 ^ 63 → holds (NewRingLog minted sid size) [].
Proof.
  intros Hs. unfold NewRingLog, holds. set (n := if size <? 1 then _ else _).
  assert (0 < n < 2 ^ 63) by (unfold n, DefaultStreamLogSize; destruct (Z.ltb_spec size 1); lia).
  set (r := mkRing _ _ _). assert (Hn : ring_len r = n) by (unfold ring_len; cbn; rewrite length_replicate; lia).
  assert (Ho : oldestLocked r = 1).
  { unfold oldestLocked. rewrite Hn. change (head r) with 0. destruct (Z.leb_spec 0 n); [done|lia]. }
  split; [|split; [done|split; [by unfold dense; rewrite seqZ_nil by (simpl; lia)|]]].
  - split; [lia|]. split; [cbn; lia|]. rewrite Ho. cbn. lia.
  - cbn [retained ring_StreamLog Oldest ring_ops]. unfold ring_retained. by rewrite Ho.
Qed.

Lemma ring_oldest_head r : ring_ok r → 0 < head r → oldestLocked r ≤ head r.
Proof. intros Hr Hh. rewrite (oldestLocked_eq r Hr). destruct Hr as (? & ? & _). lia. Qed.

(** ** A sequence of appends *)

Definition appends {L} `{StreamLogOps L} (es : list LogEntry) (l : L) : L := foldl (λ l e, (Append e l).2) l es.

(** The entries as they are numbered after [n] earlier ones. *)
Definition stamped (n : nat) (es : list LogEntry) : list LogEntry :=
  imap (λ i e, with_offset (Z.of_nat (n + i) + 1) e) es.

Lemma holds_appends {L} `{StreamLog L} es : ∀ (l : L) h,
  holds l h → Head l + Z.of_nat (length es) < 2 ^ 64 - 1 →
  holds (appends es l) (h ++ stamped (length h) es).
Proof.
  induction es as [|e es IH]; intros l h Hl Hb; [by rewrite app_nil_r|]. simpl in Hb.
  destruct (holds_append l h e Hl ltac:(lia)) as (_ & Hl' & _ & _).
  pose proof Hl as (_ & Hh & _). pose proof Hl' as (_ & Hh' & _).
  rewrite length_app in Hh'. simpl in Hh'. change (appends (e :: es) l) with (appends es (Append e l).2).
  specialize (IH _ _ Hl' ltac:(lia)). rewrite <-app_assoc in IH.
  unfold stamped at 1. rewrite imap_cons. cbn [app] in IH. rewrite Nat.add_0_r, <-Hh.
  replace (imap _ es) with (stamped (length (h ++ [with_offset (Head l + 1) e])) es); [done|].
  unfold stamped. rewrite length_app. apply imap_ext. intros i x _. cbn. f_equal. lia.
Qed.

Lemma appends_ring_len es r : ring_len (appends es r) = ring_len r.
Proof.
  revert r. induction es as [|e es IH]; intros r; [done|].
  change (appends (e :: es) r) with (appends es (ring_Append e r).2). rewrite IH. apply ring_Append_len.
Qed.

(** The ring is the window on its history: after any sequence of appends
    to a new log of [size] entries, the offsets are 1, 2, 3, ..., the log holds
    the last [size] of them, and [ReadAfter] returns the first [max] of those
    above [after], in order, however often the buffer has wrapped. *)
Theorem ring_log_window minted sid size es after max :
  1 ≤ size < 2 ^ 63 → Z.of_nat (length es) < 2 ^ 64 - 1 → 0 ≤ after < 2 ^ 64 - 1 → max < 2 ^ 63 →
  let r := appends es (NewRingLog minted sid size) in
  Head r = Z.of_nat (length es) ∧ Oldest r = Z.max 1 (Z.of_nat (length es) - size + 1) ∧
  ReadAfter after max r =
  take (Z.to_nat max) (filter (λ e, after < Offset e) (drop (length es - Z.to_nat size) (stamped 0 es))).
Proof.
  intros Hs Hes Ha Hm r. pose proof (NewRingLog_ok minted sid size ltac:(lia)) as H0.
  pose proof (holds_appends es _ _ H0 Hes) as Hr. fold r in Hr. cbn [app length] in Hr.
  pose proof Hr as (Hok & Hh & Hd & Hret). unfold stamped in Hh. rewrite length_imap in Hh.
  assert (Hlen : ring_len r = size).
  { unfold r. rewrite appends_ring_len. unfold NewRingLog, ring_len. cbn.
    rewrite length_replicate. destruct (Z.ltb_spec size 1); lia. }
  assert (Ho : Oldest r = Z.max 1 (Z.of_nat (length es) - size + 1)).
  { cbn in Hh |- *. rewrite (oldestLocked_eq r Hok), Hlen, Hh. lia. }
  split; [done|]. split; [done|]. rewrite (log_read r after max Hok Ha Hm), Hret, Ho.
  do 3 f_equal. lia.
Qed.

End StreamLog.

Arguments LogEntry : clear implicits.
Arguments ringLog : clear implicits.

(** Five entries through a ring of three: the first two are gone. *)
Definition sample_entries : list (LogEntry string) :=
  (λ n, mkEntry 0 n "o" false 0 None) <$> ["a"; "b"; "c"; "d"; "e"].

Definition sample_ring : ringLog string := appends sample_entries (NewRingLog "m" "s" 3 : ringLog string).

Lemma ring_log_window_witness :
  le_Event <$> ReadAfter 0 10 sample_ring = ["c"; "d"; "e"] ∧ Oldest sample_ring = 3.
Proof.
  destruct (ring_log_window "m" "s" 3 sample_entries 0 10 ltac:(lia) ltac:(simpl; lia) ltac:(lia) ltac:(lia))
    as (_ & Ho & Hr).
  unfold sample_ring. rewrite Hr, Ho. split; reflexivity.
Defined.
