(* ===== verification/StreamWire.v ===== *)
(** * The stream wire protocol (go/runtime/bus/stream_wire.go)

    Offset tokens, subscribe patterns, scopes, control frames as the acceptor
    and the dialer read them, and a link's subscription state.  A frame is the
    JSON value its text decodes to: [encoding/json] keeps the last of two
    members with one name, leaves the destination alone on null, and keeps a
    number's text.  Error codes and protocol-error kinds are modelled; message
    texts are not part of the protocol and are left out. *)

From Stdlib Require Import Ascii.
From S2P Require Import Prelude Topics.

Local Open Scope Z_scope.

(** ** JSON values *)

#[warnings="-register-all"]
Inductive json :=
| JNull
| JBool (b : bool)
| JNum (text : string)
| JStr (s : string)
| JArr (vs : list json)
| JObj (ms : list (string * json)).

(** [m[key]] of a [map[string]json.RawMessage] read from an object: the last
    member of that name. *)
Fixpoint member (m : list (string * json)) (key : string) : option json :=
  match m with
  | [] => None
  | (k, v) :: m' =>
      match member m' key with
      | Some w => Some w
      | None => if String.eqb k key then Some v else None
      end
  end.

(** [json.Unmarshal] of a member into a [map[string]json.RawMessage], which is
    nil after a null; [None] is an error (an absent member is one too). *)
Definition as_object (raw : option json) : option (option (list (string * json))) :=
  match raw with
  | Some (JObj ms) => Some (Some ms)
  | Some JNull => Some None
  | _ => None
  end.

(** The map after [_ = json.Unmarshal(raw, &m)], reading a nil map as empty. *)
Definition object_or_nil (raw : option json) : list (string * json) :=
  default [] (default None (as_object raw)).

(** [json.Unmarshal] into a [string] variable holding "". *)
Definition as_string (v : json) : option string :=
  match v with JStr s => Some s | JNull => Some "" | _ => None end.

(** [json.Unmarshal] into a [[]string]; the inner [None] is the nil slice. *)
Definition as_strings (raw : option json) : option (option (list string)) :=
  match raw with
  | Some (JArr vs) => Some <$> mapM as_string vs
  | Some JNull => Some None
  | _ => None
  end.

(** ** Errors *)

Definition CodeBadRequest := "bad_request".
Definition CodeInvalidPattern := "invalid_pattern".
Definition CodeInvalidScope := "invalid_scope".
Definition CodeLimit := "limit".
Definition CodeForbidden := "forbidden".
Definition CodeUnknownType := "unknown_type".
Definition codeInvalidAuth := "invalid_auth".

(** [*StreamError] is its code; a protocol error is its kind. *)
Inductive protocol_kind :=
| pkOffset | pkStreamInfo | pkOldest | pkHeartbeat | pkResume | pkUnrequested | pkReplayAfter
| pkResetHead | pkResetAfter | pkResetMalformed | pkPosMalformed | pkForeignStream.

#[export] Instance protocol_kind_eq_dec : EqDecision protocol_kind.
Proof. solve_decision. Defined.

(** ** Offset tokens *)

(** [strconv.FormatUint(v, 10)] *)
Definition digit (d : Z) : ascii := ascii_of_N (Z.to_N (48 + d)).

Fixpoint format_digits (fuel : nat) (v : Z) (acc : string) : string :=
  match fuel with
  | O => acc
  | S fuel' =>
      if v <? 10 then String (digit v) acc
      else format_digits fuel' (v / 10) (String (digit (v mod 10)) acc)
  end.

(** 20 digits are enough below 2^64. *)
Definition formatOffset (v : Z) : string := format_digits 20 v "".

Definition is_zero_char (c : ascii) : bool := Ascii.eqb c "0"%char.

(** The value of a digit string, most significant digit first. *)
Fixpoint digits_value (s : string) (acc : Z) : Z :=
  match s with
  | EmptyString => acc
  | String c s' => digits_value s' (10 * acc + (Z.of_N (N_of_ascii c) - 48))
  end.

(** The guards, then [strconv.ParseUint(s, 10, 64)] on decimal digits. *)
Definition parseOffset (s : string) : option Z :=
  match s with
  | EmptyString => None
  | String c s' =>
      if (20 <? Z.of_nat (String.length s)) || (negb (String.eqb s' "") && is_zero_char c) then None
      else if negb (all_chars is_digit s) then None
      else let v := digits_value s 0 in if v <? 2 ^ 64 then Some v else None
  end.

Definition parseOffsetToken (raw : option json) : option Z :=
  match raw with
  | Some (JStr s) => parseOffset s
  | _ => None
  end.

(** ** Patterns, stream ids and scopes *)

Definition maxPatternBytes : Z := 256.
Definition maxRequestID : Z := 64.
Definition maxStreamIDBytes : Z := 128.

Definition str_len (s : string) : Z := Z.of_nat (String.length s).

(** [strings.ContainsAny(s, "*#")] *)
Definition has_wildcard (s : string) : bool :=
  negb (all_chars (λ c, negb (Ascii.eqb c "*"%char || Ascii.eqb c "#"%char)) s).

Fixpoint validate_segs (segs : list string) : option string :=
  match segs with
  | [] => None
  | s :: segs' =>
      if String.eqb s "" then Some CodeInvalidPattern
      else if String.eqb s "#" && negb (bool_decide (segs' = [])) then Some CodeInvalidPattern
      else if negb (String.eqb s "*") && negb (String.eqb s "#") && has_wildcard s then Some CodeInvalidPattern
      else validate_segs segs'
  end.

Definition validatePattern (p : string) : option string :=
  if String.eqb p "" || (maxPatternBytes <? str_len p) then Some CodeInvalidPattern
  else validate_segs (Split p).

Definition is_printable (c : ascii) : bool := (32 <=? N_of_ascii c)%N && (N_of_ascii c <=? 126)%N.

Definition validStreamID (s : string) : bool :=
  negb (String.eqb s "" || (maxStreamIDBytes <? str_len s)) && all_chars is_printable s.

(** [Workspaces], where [None] is the nil slice; a [*Scope] is an option of it. *)
Definition Scope : Type := option (list string).

Definition scope_allows (s : option Scope) (workspace : string) : bool :=
  match s with
  | None => true
  | Some ws => String.eqb workspace "" || existsb (String.eqb workspace) (default [] ws)
  end.

Record Subscription := mkSubscription { sub_Patterns : list string; sub_Scope : option Scope }.

Definition isNull (raw : option json) : bool :=
  match raw with None | Some JNull => true | _ => false end.

Definition parseScope (raw : option json) : res string Scope :=
  match as_object raw with
  | Some (Some m) =>
      if isNull (member m "workspaces") then Err CodeInvalidScope
      else match as_strings (member m "workspaces") with
           | None => Err CodeInvalidScope
           | Some ws => Ok (Some (default [] ws))
           end
  | _ => Err CodeInvalidScope
  end.

Fixpoint first_invalid (ps : list string) : option string :=
  match ps with
  | [] => None
  | p :: ps' => match validatePattern p with Some e => Some e | None => first_invalid ps' end
  end.

Definition parsePatterns (raw : option json) (allowEmpty : bool) : res string (list string) :=
  match as_strings raw with
  | Some (Some ps) =>
      if bool_decide (ps = []) && negb allowEmpty then Err CodeBadRequest
      else match first_invalid ps with Some e => Err e | None => Ok ps end
  | _ => Err CodeBadRequest
  end.

(** ** Frame classification *)

Inductive frame_class := FrameDrop | FrameControl | FrameCloudEvent | FrameKitEvent.

(** [frameKind] (network_frame.go) and the control rule over it; the members
    come with every class but the first. *)
Definition classifyFrame (data : json) (streamLink : bool) : frame_class * list (string * json) :=
  match data with
  | JObj ms =>
      match member ms "specversion" with
      | Some _ => (FrameCloudEvent, ms)
      | None =>
          match member ms "type" with
          | Some (JStr _) => if streamLink then (FrameControl, ms) else (FrameKitEvent, ms)
          | _ => (FrameKitEvent, ms)
          end
      end
  | _ => (FrameDrop, [])
  end.

Definition memberString (m : list (string * json)) (key : string) : option string :=
  match member m key with
  | Some (JStr s) => Some s
  | _ => None
  end.

(** ** Control frames *)

(** [ctl_Patterns] and [ctl_Scope] are [None] when absent. *)
Record ctlRequest := mkCtl {
  ctl_Type : string;
  ctl_ID : string;
  ctl_Patterns : option (list string);
  ctl_Scope : option Scope;
}.

Record ctlError := mkCtlError { ce_ID : string; ce_Code : string }.

Inductive acceptor_action :=
| ActApply (r : ctlRequest)
| ActReply (e : ctlError)
| ActIgnore.

Definition acceptorControl (m : list (string * json)) : acceptor_action :=
  let typ := default "" (memberString m "type") in
  let idm := memberString m "id" in
  let idOK := match idm with Some i => negb (String.eqb i "" || (maxRequestID <? str_len i)) | None => false end in
  let id := if idOK then default "" idm else "" in
  if bool_decide (typ ∈ ["ack"; "error"; "puback"]) then ActIgnore
  else if bool_decide (typ ∈ ["reset"; "position"]) then ActReply (mkCtlError id CodeBadRequest)
  else if negb (bool_decide (typ ∈ ["subscribe"; "unsubscribe"])) then ActReply (mkCtlError id CodeUnknownType)
  else if negb idOK then ActReply (mkCtlError "" CodeBadRequest)
  else
    match (if isNull (member m "patterns") then Ok None else
             match parsePatterns (member m "patterns") false with Ok ps => Ok (Some ps) | Err e => Err e end) with
    | Err e => ActReply (mkCtlError id e)
    | Ok patterns =>
        match (if String.eqb typ "subscribe" && negb (isNull (member m "scope")) then
                 match parseScope (member m "scope") with Ok s => Ok (Some s) | Err e => Err e end
               else Ok None) with
        | Err e => ActReply (mkCtlError id e)
        | Ok scope =>
            if bool_decide (patterns = None) && (String.eqb typ "unsubscribe" || bool_decide (scope = None))
            then ActReply (mkCtlError id CodeBadRequest)
            else ActApply (mkCtl typ id patterns scope)
        end
    end.

Record resetInfo := mkReset { rs_Stream : string; rs_Reason : string; rs_After : Z; rs_Head : Z }.
Record positionInfo := mkPosition { po_Stream : string; po_Offset : Z }.

(** [dialerCtl], one constructor per [Kind]. *)
Inductive dialerCtl :=
| DAck (id : string) (at_ : Z)
| DError (id code message : string)
| DReset (r : resetInfo)
| DPosition (p : positionInfo)
| DIgnore.

Definition dialerControl (m : list (string * json)) : res protocol_kind dialerCtl :=
  let typ := default "" (memberString m "type") in
  if String.eqb typ "ack" then
    match memberString m "id", parseOffsetToken (member m "at") with
    | Some id, Some at_ => Ok (DAck id at_)
    | _, _ => Ok DIgnore
    end
  else if String.eqb typ "error" then
    match memberString m "code" with
    | Some code =>
        if String.eqb code "" then Ok DIgnore
        else Ok (DError (default "" (memberString m "id")) code (default "" (memberString m "message")))
    | None => Ok DIgnore
    end
  else if String.eqb typ "reset" then
    match memberString m "stream", memberString m "reason",
          parseOffsetToken (member m "after"), parseOffsetToken (member m "head") with
    | Some stream, Some reason, Some after, Some head =>
        if negb (validStreamID stream) || String.eqb reason "" then Err pkResetMalformed
        else Ok (DReset (mkReset stream reason after head))
    | _, _, _, _ => Err pkResetMalformed
    end
  else if String.eqb typ "position" then
    match memberString m "stream", parseOffsetToken (member m "offset") with
    | Some stream, Some off =>
        if negb (validStreamID stream) then Err pkPosMalformed else Ok (DPosition (mkPosition stream off))
    | _, _ => Err pkPosMalformed
    end
  else Ok DIgnore.

(** ** Subscriptions *)

Record subState := mkSubState { Implicit_ : bool; Patterns : gset string; sScope : option Scope }.

Definition newSubState : subState := mkSubState true ∅ None.

Definition withPatterns (ps : list string) (s : subState) : subState :=
  mkSubState false (list_to_set ps) (sScope s).

Definition sortedPatterns (s : subState) : list string := sort_strings (elements (Patterns s)).

Definition effective (s : subState) : Subscription :=
  if Implicit_ s then mkSubscription ["#"] (sScope s) else mkSubscription (sortedPatterns s) (sScope s).

Definition subs_apply (r : ctlRequest) (max : Z) (s : subState) : res string subState :=
  if String.eqb (ctl_Type r) "subscribe" then
    let scope := match ctl_Scope r with Some sc => Some sc | None => sScope s end in
    match ctl_Patterns r with
    | None => Ok (mkSubState (Implicit_ s) (Patterns s) scope)
    | Some ps =>
        let base := if Implicit_ s then ∅ else Patterns s in
        let pats := list_to_set ps ∪ base in
        if max <? Z.of_nat (size pats) then Err CodeLimit else Ok (mkSubState false pats scope)
    end
  else if String.eqb (ctl_Type r) "unsubscribe" then
    let base := if Implicit_ s then {[ "#" ]} else Patterns s in
    Ok (mkSubState false (base ∖ list_to_set (default [] (ctl_Patterns r))) (sScope s))
  else Ok s.

Definition subs_matches (s : subState) (t : string) : bool :=
  Implicit_ s || existsb (Match t) (elements (Patterns s)).

(** ** Offset tokens are canonical *)

Lemma digit_code d : 0 ≤ d < 10 → Z.of_N (N_of_ascii (digit d)) = 48 + d.
Proof. intros Hd. unfold digit. rewrite N_ascii_embedding; lia. Qed.

Lemma is_digit_code c : is_digit c = true ↔ 48 ≤ Z.of_N (N_of_ascii c) < 58.
Proof. unfold is_digit. rewrite andb_true_iff, !N.leb_le. lia. Qed.

Lemma digit_of_code c : is_digit c = true → digit (Z.of_N (N_of_ascii c) - 48) = c.
Proof.
  intros Hc%is_digit_code. unfold digit. rewrite Z.add_sub_assoc, Z.add_simpl_l, N2Z.id. apply ascii_N_embedding.
Qed.

Lemma is_zero_char_code c : is_zero_char c = true ↔ Z.of_N (N_of_ascii c) = 48.
Proof.
  unfold is_zero_char. rewrite Ascii.eqb_eq. split; [by intros ->|]. intros Hc.
  rewrite <-(ascii_N_embedding c). by replace (N_of_ascii c) with 48%N by lia.
Qed.

Lemma format_digits_value fuel v acc :
  0 ≤ v < 10 ^ Z.of_nat fuel → (0 < fuel)%nat →
  digits_value (format_digits fuel v acc) 0 = digits_value acc v.
Proof.
  revert v acc. induction fuel as [|fuel IH]; intros v acc Hv Hf; [lia|]. cbn [format_digits].
  destruct (Z.ltb_spec v 10).
  - cbn [digits_value]. f_equal. rewrite digit_code; lia.
  - rewrite Nat2Z.inj_succ, Z.pow_succ_r in Hv by lia. pose proof (Z.div_mod v 10 ltac:(lia)).
    pose proof (Z.mod_pos_bound v 10 ltac:(lia)).
    destruct fuel as [|fuel]; [simpl in Hv; lia|].
    rewrite IH; [|split; [apply Z.div_pos; lia|apply Z.div_lt_upper_bound; lia]|lia].
    cbn [digits_value]. f_equal. rewrite digit_code; lia.
Qed.

Lemma format_digits_digits fuel v acc :
  0 ≤ v → all_chars is_digit (format_digits fuel v acc) = all_chars is_digit acc.
Proof.
  assert (Hd : ∀ d, 0 ≤ d < 10 → is_digit (digit d) = true) by (intros; apply is_digit_code; rewrite digit_code; lia).
  revert v acc. induction fuel as [|fuel IH]; intros v acc Hv; [done|]. cbn [format_digits].
  destruct (Z.ltb_spec v 10); cbn [all_chars].
  - by rewrite Hd by lia.
  - rewrite IH by (apply Z.div_pos; lia). cbn [all_chars]. by rewrite Hd by (apply Z.mod_pos_bound; lia).
Qed.

Lemma format_digits_length fuel v acc :
  (String.length (format_digits fuel v acc) ≤ fuel + String.length acc)%nat.
Proof.
  revert v acc. induction fuel as [|fuel IH]; intros v acc; [done|]. cbn [format_digits].
  destruct (v <? 10); [simpl; lia|]. etransitivity; [apply IH|]. simpl. lia.
Qed.

(** The first digit is zero only for the number zero. *)
Lemma format_digits_head fuel v acc :
  0 ≤ v < 10 ^ Z.of_nat fuel → (0 < fuel)%nat →
  ∃ c s, format_digits fuel v acc = String c s ∧ (is_zero_char c = true → v = 0 ∧ s = acc).
Proof.
  revert v acc. induction fuel as [|fuel IH]; intros v acc Hv Hf; [lia|]. cbn [format_digits].
  destruct (Z.ltb_spec v 10).
  - eexists _, _. split; [done|]. rewrite is_zero_char_code, digit_code by lia. intros. split; [lia|done].
  - rewrite Nat2Z.inj_succ, Z.pow_succ_r in Hv by lia. destruct fuel as [|fuel]; [simpl in Hv; lia|].
    assert (1 ≤ v / 10) by (apply Z.div_le_lower_bound; lia).
    destruct (IH (v / 10) (String (digit (v mod 10)) acc)) as (c & s & -> & Hz);
      [split; [lia|apply Z.div_lt_upper_bound; lia]|lia|].
    eexists _, _. split; [done|]. intros [? ?]%Hz. lia.
Qed.

Lemma digits_value_pos s a : all_chars is_digit s = true → 0 < a → 0 < digits_value s a.
Proof.
  revert a. induction s as [|c s IH]; intros a; cbn [all_chars digits_value]; [done|].
  intros [Hc%is_digit_code Hs]%andb_true_iff Ha. apply IH; [done|lia].
Qed.

Lemma format_digits_inverse s a fuel acc :
  all_chars is_digit s = true → 0 < a →
  format_digits (String.length s + fuel) (digits_value s a) acc = format_digits fuel a (s +:+ acc).
Proof.
  revert a fuel. induction s as [|c s IH]; intros a fuel; cbn [all_chars]; [done|].
  intros [Hc Hs]%andb_true_iff Ha. pose proof (proj1 (is_digit_code c) Hc) as Hr.
  cbn [digits_value String.length]. replace (S (String.length s) + fuel)%nat with (String.length s + S fuel)%nat by lia.
  rewrite IH by (done || lia). cbn [format_digits].
  set (d := Z.of_N (N_of_ascii c) - 48) in *. destruct (Z.ltb_spec (10 * a + d) 10); [lia|].
  replace ((10 * a + d) / 10) with a by (apply Z.div_unique with d; lia).
  replace ((10 * a + d) mod 10) with d by (apply Z.mod_unique with a; lia).
  unfold d. rewrite digit_of_code by done. done.
Qed.

Lemma parse_format v : 0 ≤ v < 2 ^ 64 → parseOffset (formatOffset v) = Some v.
Proof.
  intros Hv. assert (Hb : 0 ≤ v < 10 ^ Z.of_nat 20) by (simpl; lia).
  unfold formatOffset. pose proof (format_digits_length 20 v "") as Hl.
  pose proof (format_digits_digits 20 v "" ltac:(lia)) as Hd.
  pose proof (format_digits_value 20 v "" Hb ltac:(lia)) as Hval.
  destruct (format_digits_head 20 v "" Hb ltac:(lia)) as (c & s & E & Hz). rewrite E in *.
  unfold parseOffset. rewrite (proj2 (Z.ltb_ge _ _)) by (simpl in Hl |- *; lia).
  assert (Hlead : negb (String.eqb s "") && is_zero_char c = false).
  { destruct (is_zero_char c); [|by rewrite andb_false_r]. destruct Hz as [_ ->]; done. }
  rewrite Hlead, Hd, Hval. cbn. by rewrite (proj2 (Z.ltb_lt _ _)) by lia.
Qed.

Lemma format_parse s v : parseOffset s = Some v → 0 ≤ v < 2 ^ 64 ∧ s = formatOffset v.
Proof.
  destruct s as [|c s]; [done|]. unfold parseOffset.
  destruct (Z.ltb_spec 20 (Z.of_nat (String.length (String c s)))) as [|Hl]; [done|].
  destruct (negb (String.eqb s "") && is_zero_char c) eqn:Hz; [done|]. cbn [orb].
  destruct (all_chars is_digit (String c s)) eqn:Hd; [|done]. cbn [negb].
  destruct (Z.ltb_spec (digits_value (String c s) 0) (2 ^ 64)) as [Hv|]; [|done]. intros [= <-].
  cbn [all_chars] in Hd. apply andb_true_iff in Hd as [Hc Hs]. pose proof (proj1 (is_digit_code c) Hc) as Hr.
  cbn [digits_value] in *. rewrite Z.mul_0_r, Z.add_0_l in *.
  destruct (decide (Z.of_N (N_of_ascii c) = 48)) as [H0|H0].
  - apply is_zero_char_code in H0 as Hzc. rewrite Hzc, andb_true_r in Hz.
    apply negb_false_iff, String.eqb_eq in Hz as ->. cbn. rewrite H0. split; [lia|].
    apply is_zero_char_code in H0. unfold is_zero_char in H0. apply Ascii.eqb_eq in H0 as ->. done.
  - split; [pose proof (digits_value_pos s (Z.of_N (N_of_ascii c) - 48) Hs); lia|].
    unfold formatOffset. simpl in Hl. replace 20%nat with (String.length s + S (19 - String.length s))%nat by lia.
    rewrite format_digits_inverse by (done || lia). cbn [format_digits].
    rewrite (proj2 (Z.ltb_lt _ _)) by lia. rewrite digit_of_code by done. by rewrite str_app_nil_r.
Qed.

(** Offset tokens are a bijection between the 64-bit offsets and the
    strings accepted on the wire: [parseOffset] accepts exactly the output of
    [formatOffset] and gives the number back, so signs, leading zeros, other
    characters and numbers of 2^64 and above are all refused. *)
Theorem offset_token_bijection s v :
  parseOffset s = Some v ↔ 0 ≤ v < 2 ^ 64 ∧ s = formatOffset v.
Proof. split; [apply format_parse|]. intros [Hv ->]. by apply parse_format. Qed.

Arguments formatOffset _ : simpl never.
Arguments parseOffset _ : simpl never.

(** ** What a subscription delivers *)

Lemma Match_hash t : Match t "#" = true.
Proof. unfold Match. cbn. by destruct (Split t). Qed.

Lemma subs_matches_spec s t :
  subs_matches s t = true ↔ ∃ p, p ∈ sub_Patterns (effective s) ∧ Match t p = true.
Proof.
  unfold subs_matches, effective, sortedPatterns. destruct (Implicit_ s); cbn.
  - split; [|done]. intros _. exists "#". split; [set_solver|apply Match_hash].
  - rewrite existsb_exists. split; intros (p & Hp & Hm); exists p; (split; [|done]).
    + by rewrite elem_of_sort_strings, list_elem_of_In.
    + by rewrite elem_of_sort_strings, list_elem_of_In in Hp.
Qed.

Lemma effective_patterns s p :
  p ∈ sub_Patterns (effective s) ↔ if Implicit_ s then p = "#" else p ∈ Patterns s.
Proof.
  unfold effective, sortedPatterns. destruct (Implicit_ s); cbn; [set_solver|].
  by rewrite elem_of_sort_strings, elem_of_elements.
Qed.

(** The patterns of a request under which a topic is still, or newly, wanted. *)
Definition wanted_after (r : ctlRequest) (s : subState) (p : string) : Prop :=
  let ps := default [] (ctl_Patterns r) in
  if String.eqb (ctl_Type r) "subscribe" then
    p ∈ ps ∨ (p ∈ sub_Patterns (effective s) ∧ (Implicit_ s = true → ctl_Patterns r = None))
  else if String.eqb (ctl_Type r) "unsubscribe" then p ∈ sub_Patterns (effective s) ∧ p ∉ ps
  else p ∈ sub_Patterns (effective s).

Lemma subs_apply_patterns r max s s' p :
  subs_apply r max s = Ok s' → p ∈ sub_Patterns (effective s') ↔ wanted_after r s p.
Proof.
  unfold subs_apply, wanted_after.
  destruct (String.eqb (ctl_Type r) "subscribe"); [|destruct (String.eqb (ctl_Type r) "unsubscribe"); [|by intros [= <-]]].
  - destruct (ctl_Patterns r) as [ps|]; [destruct (max <? _); [done|]|]; intros [= <-]; rewrite !effective_patterns; cbn.
    + rewrite elem_of_union, elem_of_list_to_set. destruct (Implicit_ s); rewrite ?elem_of_empty.
      * split; [by intros [?|[]]; left|]. intros [?|[_ Hn]]; [by left|]. by specialize (Hn eq_refl).
      * split; [intros [?|?]; [by left|right; by split]|]. intros [?|[? _]]; auto.
    + split; [intros Hp; right; by destruct (Implicit_ s)|]. intros [Hn|[? _]]; [by apply elem_of_nil in Hn|done].
  - intros [= <-]. rewrite !effective_patterns. cbn. rewrite elem_of_difference, elem_of_list_to_set.
    by destruct (Implicit_ s); rewrite ?elem_of_singleton.
Qed.

(** A link's pattern set is within the limit, or still the implicit one. *)
Definition subs_ok (max : Z) (s : subState) : Prop := Z.of_nat (size (Patterns s)) ≤ max.

Lemma subs_apply_ok r max s s' : 1 ≤ max → subs_ok max s → subs_apply r max s = Ok s' → subs_ok max s'.
Proof.
  unfold subs_apply, subs_ok. intros Hm Hs. destruct (String.eqb (ctl_Type r) "subscribe").
  - destruct (ctl_Patterns r) as [ps|]; [|by intros [= <-]].
    destruct (Z.ltb_spec max (Z.of_nat (size (list_to_set ps ∪ (if Implicit_ s then ∅ else Patterns s) : gset string)))); [done|].
    intros [= <-]. cbn. lia.
  - destruct (String.eqb (ctl_Type r) "unsubscribe"); [|by intros [= <-]]. intros [= <-]. cbn.
    set (ps := list_to_set (default [] (ctl_Patterns r)) : gset string).
    assert (Hle : (size ((if Implicit_ s then {["#"]} else Patterns s) ∖ ps) ≤
                   size (if Implicit_ s then {["#"]} else Patterns s))%nat) by (apply subseteq_size; set_solver).
    destruct (Implicit_ s); rewrite ?size_singleton in Hle; lia.
Qed.

(** A subscribe or unsubscribe request changes what a link delivers
    exactly as it says, all or nothing: after an accepted request a topic
    matches when one of the patterns then in effect matches it (the first
    explicit subscription replaces the implicit "#", unsubscribing starts from
    it), what an authorizer is shown is that same set, the set stays within the
    limit, and the only refusal is a subscribe that would exceed it. *)
Theorem subscription_request r max s :
  1 ≤ max → subs_ok max s →
  match subs_apply r max s with
  | Ok s' => subs_ok max s' ∧ (∀ p, p ∈ sub_Patterns (effective s') ↔ wanted_after r s p) ∧
             (∀ t, subs_matches s' t = true ↔ ∃ p, wanted_after r s p ∧ Match t p = true)
  | Err e => e = CodeLimit ∧ ctl_Type r = "subscribe" ∧
             ∃ ps, ctl_Patterns r = Some ps ∧
                   max < Z.of_nat (size (list_to_set ps ∪ (if Implicit_ s then ∅ else Patterns s) : gset string))
  end.
Proof.
  intros Hm Hs. destruct (subs_apply r max s) as [s'|e] eqn:E.
  - pose proof (λ p, subs_apply_patterns r max s s' p E) as Hp. split; [by eapply subs_apply_ok|]. split; [done|].
    intros t. rewrite subs_matches_spec. by setoid_rewrite Hp.
  - unfold subs_apply in E. destruct (String.eqb_spec (ctl_Type r) "subscribe") as [->|].
    + destruct (ctl_Patterns r) as [ps|]; [|done]. destruct (Z.ltb_spec max (Z.of_nat (size (list_to_set ps ∪ (if Implicit_ s then ∅ else Patterns s) : gset string)))); [|done].
      injection E as <-. eauto.
    + by destruct (String.eqb _ _).
Qed.

Definition sample_request : ctlRequest := mkCtl "subscribe" "1" (Some ["x.#"]) None.

Lemma subscription_request_witness :
  match subs_apply sample_request 1 newSubState with
  | Ok s' => subs_ok 1 s' ∧ subs_matches s' "a.b" = false ∧ subs_matches s' "x.y" = true
  | Err _ => False
  end.
Proof.
  pose proof (subscription_request sample_request 1 newSubState ltac:(lia) ltac:(vm_compute; discriminate)) as Hs.
  destruct (subs_apply sample_request 1 newSubState) as [s'|e] eqn:E; [|vm_compute in E; discriminate].
  split; [exact (proj1 Hs)|]. vm_compute in E. injection E as <-. split; reflexivity.
Defined.

(** ** Control frames between an acceptor and a dialer *)

(** The acceptor's control frames (network_link.go): [map[string]string]
    literals in [drain], [send], [heartbeatTick], [handleCtl] and
    [errorFrame]. *)
Definition reset_frame (r : resetInfo) : list (string * json) :=
  [("type", JStr "reset"); ("stream", JStr (rs_Stream r)); ("reason", JStr (rs_Reason r));
   ("after", JStr (formatOffset (rs_After r))); ("head", JStr (formatOffset (rs_Head r)))].

Definition position_frame (p : positionInfo) : list (string * json) :=
  [("type", JStr "position"); ("stream", JStr (po_Stream p)); ("offset", JStr (formatOffset (po_Offset p)))].

Definition ack_reply (id : string) (at_ : Z) : list (string * json) :=
  [("type", JStr "ack"); ("id", JStr id); ("at", JStr (formatOffset at_))].

Definition errorFrame (e : ctlError) (message : string) : list (string * json) :=
  [("type", JStr "error"); ("code", JStr (ce_Code e)); ("message", JStr message)] ++
  (if String.eqb (ce_ID e) "" then [] else [("id", JStr (ce_ID e))]).

Lemma dialer_reads_reset r :
  validStreamID (rs_Stream r) = true → rs_Reason r ≠ "" → 0 ≤ rs_After r < 2 ^ 64 → 0 ≤ rs_Head r < 2 ^ 64 →
  dialerControl (reset_frame r) = Ok (DReset r).
Proof.
  intros Hs Hr Ha Hh. unfold dialerControl, reset_frame, memberString. cbn.
  rewrite !parse_format, Hs by done. rewrite (proj2 (String.eqb_neq _ _)) by done. by destruct r.
Qed.

Lemma dialer_reads_position p :
  validStreamID (po_Stream p) = true → 0 ≤ po_Offset p < 2 ^ 64 →
  dialerControl (position_frame p) = Ok (DPosition p).
Proof.
  intros Hs Ho. unfold dialerControl, position_frame, memberString. cbn.
  rewrite parse_format, Hs by done. by destruct p.
Qed.

Lemma dialer_reads_ack id at_ : 0 ≤ at_ < 2 ^ 64 → dialerControl (ack_reply id at_) = Ok (DAck id at_).
Proof. intros Ha. unfold dialerControl, ack_reply, memberString. cbn. by rewrite parse_format. Qed.

Lemma dialer_reads_error e message :
  ce_Code e ≠ "" → dialerControl (errorFrame e message) = Ok (DError (ce_ID e) (ce_Code e) message).
Proof.
  intros Hc. unfold dialerControl, errorFrame, memberString.
  destruct (String.eqb_spec (ce_ID e) "") as [Hi|]; cbn; rewrite (proj2 (String.eqb_neq _ _)) by done; by rewrite ?Hi.
Qed.
