(* ===== verification/StreamHandshake.v ===== *)
(** * The stream handshake (go/runtime/bus/stream_handshake.go)

    Capabilities, the dialer's auth frame with its session request, the
    acceptor's ack with the stream info and the resume outcome, and the
    negotiation of the stream version and the frame format.  Frames are JSON
    values as in [StreamWire]. *)

From Stdlib Require Import Ascii.
From S2P Require Import Prelude Topics StreamWire.

Local Open Scope Z_scope.

Definition StreamsVersion : Z := 1.

Inductive FrameFormat := FrameKit | FrameCloudEvents.

#[export] Instance FrameFormat_eq_dec : EqDecision FrameFormat.
Proof. solve_decision. Defined.

Definition format_String (f : FrameFormat) : string :=
  match f with FrameKit => "kit" | FrameCloudEvents => "cloudevents" end.

Definition knownFrames : list string := ["kit"; "cloudevents"].

(** ** Capabilities *)

Record streamCaps := mkCaps { Streams : Z; Frames : list string; Acks : Z }.

(** [strconv.Itoa] and [strconv.ParseInt(s, 10, 64)] (which [Atoi] is on a
    64-bit machine). *)
Definition format_int (v : Z) : string :=
  if v <? 0 then String "-"%char (formatOffset (- v)) else formatOffset v.

Definition parse_nat (s : string) : option Z :=
  if String.eqb s "" || negb (all_chars is_digit s) then None else Some (digits_value s 0).

Definition parse_int (s : string) : option Z :=
  let v := match s with
           | String c s' =>
               if Ascii.eqb c "-"%char then Z.opp <$> parse_nat s'
               else if Ascii.eqb c "+"%char then parse_nat s' else parse_nat s
           | EmptyString => None
           end in
  match v with
  | Some v => if (- 2 ^ 63 <=? v) && (v <? 2 ^ 63) then Some v else None
  | None => None
  end.

(** The text of a member that [Atoi] or [ParseInt] can read: a number's.  A
    string's text starts with a quote; null, true and the brackets are not
    numbers. *)
Definition number_text (raw : option json) : string :=
  match raw with Some (JNum t) => t | _ => "" end.

Definition caps_MarshalJSON (c : streamCaps) : json :=
  JObj ([("streams", JNum (format_int (Streams c))); ("frames", JArr (JStr <$> Frames c))] ++
        (if Acks c =? 0 then [] else [("acks", JNum (format_int (Acks c)))])).

Definition decodes (c : streamCaps) (f : FrameFormat) : bool := existsb (λ name, String.eqb name (format_String f)) (Frames c).

Definition has_float_char (s : string) : bool :=
  negb (all_chars (λ c, negb (Ascii.eqb c "."%char || Ascii.eqb c "e"%char || Ascii.eqb c "E"%char)) s).

Definition capsVersion (raw : option json) : Z :=
  let s := number_text raw in
  if negb (String.eqb s "") && negb (has_float_char s) then
    match parse_int s with
    | Some v => if 0 <=? v then v else 0
    | None => 0
    end
  else 0.

(** [json.Unmarshal] into a [[]json.RawMessage]. *)
Definition as_array (raw : option json) : list json :=
  match raw with Some (JArr vs) => vs | _ => [] end.

Definition parseCaps (raw : option json) : option streamCaps :=
  match raw with
  | Some (JObj m) =>
      Some (mkCaps (capsVersion (member m "streams"))
                   (filter (λ n, n ∈ knownFrames) (omap as_string (as_array (member m "frames"))))
                   (capsVersion (member m "acks")))
  | _ => None
  end.

(** ** The auth frame *)

Record resumeReq := mkResumeReq { rq_Stream : string; rq_After : Z }.

Record sessionReq := mkSession {
  se_Subscribe : option (list string);
  se_Scope : option Scope;
  se_Resume : option resumeReq;
}.

Record authFrame := mkAuth {
  au_Token : string;
  au_Caps : option streamCaps;
  au_Origin : string;
  au_Session : option sessionReq;
  au_Stream : string;
}.

Definition zero_auth : authFrame := mkAuth "" None "" None "".

Definition set_stream (id : string) (a : authFrame) : authFrame :=
  mkAuth (au_Token a) (au_Caps a) (au_Origin a) (au_Session a) id.
Definition set_session (s : sessionReq) (a : authFrame) : authFrame :=
  mkAuth (au_Token a) (au_Caps a) (au_Origin a) (Some s) (au_Stream a).

(** An optional member: absent or null is [None], a bad one is an error. *)
Definition optional {A} (raw : option json) (parse : option json → res string A) : res string (option A) :=
  if isNull raw then Ok None else match parse raw with Ok a => Ok (Some a) | Err e => Err e end.

Definition parse_resume (raw : option json) : res string resumeReq :=
  let r := object_or_nil raw in
  match memberString r "stream", parseOffsetToken (member r "after") with
  | Some stream, Some after => if validStreamID stream then Ok (mkResumeReq stream after) else Err CodeBadRequest
  | _, _ => Err CodeBadRequest
  end.

Definition parse_session (s : list (string * json)) : res string sessionReq :=
  match optional (member s "subscribe") (λ raw, parsePatterns raw true) with
  | Err e => Err e
  | Ok subscribe =>
      match optional (member s "scope") parseScope with
      | Err e => Err e
      | Ok scope =>
          match optional (member s "resume") parse_resume with
          | Err e => Err e
          | Ok resume => Ok (mkSession subscribe scope resume)
          end
      end
  end.

(** The frame, filled as far as the parse went, and the error code if any. *)
Definition parseAuthFrame (data : json) : authFrame * option string :=
  match as_object (Some data) with
  | Some (Some m) =>
      match memberString m "auth" with
      | Some tok =>
          if String.eqb tok "" then (zero_auth, Some codeInvalidAuth)
          else
            let a := mkAuth tok (parseCaps (member m "caps")) (default "" (memberString m "origin")) None "" in
            let acks := match au_Caps a with Some c => 1 <=? Acks c | None => false end in
            let id := memberString (object_or_nil (member m "stream")) "id" in
            if acks && negb (match id with Some i => validStreamID i | None => false end)
            then (a, Some CodeBadRequest)
            else
              let a := if acks then set_stream (default "" id) a else a in
              if isNull (member m "session") then (a, None)
              else
                match as_object (member m "session") with
                | Some (Some s) =>
                    match parse_session s with
                    | Ok sess => (set_session sess a, None)
                    | Err e => (a, Some e)
                    end
                | _ => (a, Some CodeBadRequest)
                end
      | None => (zero_auth, Some codeInvalidAuth)
      end
  | _ => (zero_auth, Some codeInvalidAuth)
  end.

(** A nil slice marshals as null. *)
Definition scope_json (s : Scope) : json :=
  JObj [("workspaces", match s with Some ws => JArr (JStr <$> ws) | None => JNull end)].

Definition session_members (s : sessionReq) : list (string * json) :=
  (match se_Subscribe s with Some ps => [("subscribe", JArr (JStr <$> ps))] | None => [] end) ++
  (match se_Scope s with Some sc => [("scope", scope_json sc)] | None => [] end) ++
  (match se_Resume s with
   | Some r => [("resume", JObj [("stream", JStr (rq_Stream r)); ("after", JStr (formatOffset (rq_After r)))])]
   | None => []
   end).

Definition encodeAuthFrame (token : string) (caps : option streamCaps) (origin stream : string)
    (s : option sessionReq) : json :=
  match caps with
  | None => JObj [("auth", JStr token)]
  | Some caps =>
      JObj ([("auth", JStr token); ("caps", caps_MarshalJSON caps); ("origin", JStr origin)] ++
            (if 0 <? Acks caps then [("stream", JObj [("id", JStr stream)])] else []) ++
            (match s with Some s => [("session", JObj (session_members s))] | None => [] end))
  end.

(** ** The ack *)

Definition minHeartbeatMs : Z := 1000.
Definition maxHeartbeatMs : Z := 86400000.

Record streamInfo := mkInfo { si_ID : string; si_Oldest : Z; si_Head : Z; si_HeartbeatMs : Z }.

Record resumeOutcome := mkOutcome { ro_Status : string; ro_Reason : string; ro_After : Z; ro_Head : Z }.

Record ackFrame := mkAck {
  ak_Kind : string;
  ak_Caps : option streamCaps;
  ak_Origin : string;
  ak_Stream : option streamInfo;
  ak_Resume : option resumeOutcome;
  ak_Err : option string;
}.

Definition ack_streams (a : ackFrame) : Z := match ak_Caps a with Some c => Streams c | None => 0 end.

Inductive ack_error := AckRejected | AckProtocol (k : protocol_kind).

Definition parse_info (st : list (string * json)) : res ack_error streamInfo :=
  match memberString st "id", parseOffsetToken (member st "oldest"), parseOffsetToken (member st "head") with
  | Some id, Some oldest, Some head =>
      if negb (validStreamID id) then Err (AckProtocol pkStreamInfo)
      else if (head <? oldest) && (1 <? oldest - head) then Err (AckProtocol pkOldest)
      else match parse_int (number_text (member st "heartbeat_ms")) with
           | Some hb =>
               if (hb <? minHeartbeatMs) || (maxHeartbeatMs <? hb) then Err (AckProtocol pkHeartbeat)
               else Ok (mkInfo id oldest head hb)
           | None => Err (AckProtocol pkHeartbeat)
           end
  | _, _, _ => Err (AckProtocol pkStreamInfo)
  end.

Definition parse_outcome (r : list (string * json)) : res ack_error resumeOutcome :=
  match memberString r "status", parseOffsetToken (member r "after"), parseOffsetToken (member r "head") with
  | Some status, Some after, Some head =>
      let reason := default "" (memberString r "reason") in
      if String.eqb status "reset" && String.eqb reason "" then Err (AckProtocol pkResume)
      else if negb (String.eqb status "reset") && negb (String.eqb status "replaying") then Err (AckProtocol pkResume)
      else Ok (mkOutcome status reason after head)
  | _, _, _ => Err (AckProtocol pkResume)
  end.

Definition parseAck (data : json) (mine : Z) : res ack_error ackFrame :=
  match as_object (Some data) with
  | Some (Some m) =>
      let typ := default "" (memberString m "type") in
      if String.eqb typ "session_error" then
        Ok (mkAck typ None "" None None (Some (default "" (memberString m "code"))))
      else if negb (String.eqb typ "auth_ok") then Err AckRejected
      else
        let a := mkAck typ (parseCaps (member m "caps")) (default "" (memberString m "origin")) None None None in
        if Z.min mine (ack_streams a) <? 1 then Ok a
        else
          match parse_info (object_or_nil (member m "stream")) with
          | Err e => Err e
          | Ok si =>
              let r := member (object_or_nil (member m "session")) "resume" in
              if isNull r then Ok (mkAck typ (ak_Caps a) (ak_Origin a) (Some si) None None)
              else match parse_outcome (object_or_nil r) with
                   | Err e => Err e
                   | Ok ro => Ok (mkAck typ (ak_Caps a) (ak_Origin a) (Some si) (Some ro) None)
                   end
          end
  | _ => Err AckRejected
  end.

Definition encodeAck (dialerCaps : bool) (caps : streamCaps) (origin : string)
    (si : option streamInfo) (ro : option resumeOutcome) : json :=
  if negb dialerCaps then JObj [("type", JStr "auth_ok")]
  else
    JObj ([("type", JStr "auth_ok"); ("caps", caps_MarshalJSON caps); ("origin", JStr origin)] ++
          (match si with
           | Some si => [("stream", JObj [("id", JStr (si_ID si)); ("oldest", JStr (formatOffset (si_Oldest si)));
                                          ("head", JStr (formatOffset (si_Head si)));
                                          ("heartbeat_ms", JNum (format_int (si_HeartbeatMs si)))])]
           | None => []
           end) ++
          (match ro with
           | Some ro => [("session", JObj [("resume", JObj ([("status", JStr (ro_Status ro));
                            ("after", JStr (formatOffset (ro_After ro))); ("head", JStr (formatOffset (ro_Head ro)))] ++
                            (if String.eqb (ro_Reason ro) "" then [] else [("reason", JStr (ro_Reason ro))])))])]
           | None => []
           end)).

Definition encodeSessionError (code message : string) : json :=
  JObj [("type", JStr "session_error"); ("code", JStr code); ("message", JStr message)].

(** The stream version and the format to send in. *)
Definition negotiate (mine : streamCaps) (peer : option streamCaps) (handshake : bool) (configured : FrameFormat)
    : Z * FrameFormat :=
  let v := match peer with Some p => Z.min (Streams mine) (Streams p) | None => 0 end in
  if negb handshake || (match peer with Some p => decodes p configured | None => false end)
  then (v, configured) else (v, FrameKit).

(** ** Encoding and decoding *)

Lemma all_chars_impl (P Q : ascii → bool) s :
  (∀ c, P c = true → Q c = true) → all_chars P s = true → all_chars Q s = true.
Proof.
  intros HPQ. induction s as [|c s IH]; cbn; [done|]. intros [Hc Hs]%andb_true_iff. by rewrite HPQ, IH.
Qed.

Lemma formatOffset_digits v : 0 ≤ v < 2 ^ 64 →
  ∃ c s, formatOffset v = String c s ∧ is_digit c = true ∧
         all_chars is_digit (formatOffset v) = true ∧ digits_value (formatOffset v) 0 = v.
Proof.
  intros Hv. assert (Hb : 0 ≤ v < 10 ^ Z.of_nat 20) by (simpl; lia).
  pose proof (format_digits_digits 20 v "" ltac:(lia)) as Hd. pose proof (format_digits_value 20 v "" Hb ltac:(lia)) as Hval.
  destruct (format_digits_head 20 v "" Hb ltac:(lia)) as (c & s & E & _). exists c, s. unfold formatOffset.
  split; [done|]. rewrite Hd, Hval. split_and!; [|done..]. rewrite E in Hd. cbn in Hd. by apply andb_true_iff in Hd as [? _].
Qed.

Lemma parse_format_int v : 0 ≤ v < 2 ^ 63 → parse_int (format_int v) = Some v.
Proof.
  intros Hv. unfold format_int. rewrite (proj2 (Z.ltb_ge _ _)) by lia.
  destruct (formatOffset_digits v ltac:(lia)) as (c & s & E & Hc & Hd & Hval).
  unfold parse_int. rewrite E in *. destruct (Ascii.eqb_spec c "-"%char) as [->|]; [done|].
  destruct (Ascii.eqb_spec c "+"%char) as [->|]; [done|].
  unfold parse_nat. rewrite Hd, Hval. cbn [String.eqb orb negb].
  by rewrite (proj2 (Z.leb_le _ _)), (proj2 (Z.ltb_lt _ _)) by lia.
Qed.

Lemma capsVersion_format v : 0 ≤ v < 2 ^ 63 → capsVersion (Some (JNum (format_int v))) = v.
Proof.
  intros Hv. unfold capsVersion. cbn [number_text]. rewrite parse_format_int by done.
  unfold format_int. rewrite (proj2 (Z.ltb_ge _ _)) by lia.
  destruct (formatOffset_digits v ltac:(lia)) as (c & s & E & Hc & Hd & Hval).
  assert (Hf : has_float_char (formatOffset v) = false).
  { unfold has_float_char. apply negb_false_iff. eapply all_chars_impl; [|exact Hd].
    intros x Hx. apply negb_true_iff. destruct (Ascii.eqb_spec x "."%char) as [->|]; [done|].
    destruct (Ascii.eqb_spec x "e"%char) as [->|]; [done|]. by destruct (Ascii.eqb_spec x "E"%char) as [->|]. }
  rewrite Hf, E. cbn. by rewrite (proj2 (Z.leb_le _ _)) by lia.
Qed.

Lemma mapM_as_string (l : list string) : mapM as_string (JStr <$> l) = Some l.
Proof. induction l as [|x l IH]; [done|]. rewrite fmap_cons. cbn. unfold mbind in *. cbn. by rewrite IH. Qed.

Lemma omap_as_string (l : list string) : omap as_string (JStr <$> l) = l.
Proof. induction l as [|x l IH]; [done|]. rewrite fmap_cons. cbn. by rewrite IH. Qed.

(** What an adapter advertises. *)
Definition caps_ok (c : streamCaps) : Prop :=
  0 ≤ Streams c < 2 ^ 63 ∧ 0 ≤ Acks c < 2 ^ 63 ∧ ∀ n, n ∈ Frames c → n ∈ knownFrames.

Lemma parseCaps_marshal c : caps_ok c → parseCaps (Some (caps_MarshalJSON c)) = Some c.
Proof.
  intros (Hs & Ha & Hf). unfold caps_MarshalJSON, parseCaps. f_equal. destruct c as [s f a]. cbn [Streams Acks Frames] in *.
  f_equal.
  - transitivity (capsVersion (Some (JNum (format_int s)))); [|by apply capsVersion_format].
    by destruct (a =? 0).
  - transitivity (filter (λ n, n ∈ knownFrames) (omap as_string (JStr <$> f))); [by destruct (a =? 0)|].
    rewrite omap_as_string. by apply list_filter_all.
  - destruct (Z.eqb_spec a 0) as [->|Hne]; [done|].
    transitivity (capsVersion (Some (JNum (format_int a)))); [done|by apply capsVersion_format].
Qed.

(** ** The session request *)

Definition session_ok (s : sessionReq) : Prop :=
  (∀ ps, se_Subscribe s = Some ps → first_invalid ps = None) ∧
  se_Scope s ≠ Some None ∧
  (∀ r, se_Resume s = Some r → validStreamID (rq_Stream r) = true ∧ 0 ≤ rq_After r < 2 ^ 64).

Lemma parsePatterns_marshal ps :
  first_invalid ps = None → parsePatterns (Some (JArr (JStr <$> ps))) true = Ok ps.
Proof. intros Hp. unfold parsePatterns, as_strings. rewrite mapM_as_string. cbn. by rewrite andb_false_r, Hp. Qed.

Lemma parseScope_marshal ws : parseScope (Some (scope_json (Some ws))) = Ok (Some ws).
Proof. unfold parseScope, scope_json. cbn -[as_strings]. unfold as_strings. by rewrite mapM_as_string. Qed.

(** A scope whose list is the nil slice is sent as null and refused. *)
Lemma nil_scope_refused : parseScope (Some (scope_json None)) = Err CodeInvalidScope.
Proof. reflexivity. Qed.

Lemma parse_resume_marshal r :
  validStreamID (rq_Stream r) = true → 0 ≤ rq_After r < 2 ^ 64 →
  parse_resume (Some (JObj [("stream", JStr (rq_Stream r)); ("after", JStr (formatOffset (rq_After r)))])) = Ok r.
Proof.
  intros Hs Ha. unfold parse_resume, memberString. cbn. rewrite parse_format, Hs by done. by destruct r.
Qed.

Lemma parse_session_marshal s : session_ok s → parse_session (session_members s) = Ok s.
Proof.
  intros (Hp & Hs & Hr). unfold parse_session, session_members.
  set (ms := _ ++ _ ++ _).
  assert (Hm1 : optional (member ms "subscribe") (λ raw, parsePatterns raw true) = Ok (se_Subscribe s)).
  { unfold ms, optional. destruct (se_Subscribe s) as [ps|]; destruct (se_Scope s); destruct (se_Resume s);
      cbn -[parsePatterns]; by rewrite ?parsePatterns_marshal by auto. }
  assert (Hm2 : optional (member ms "scope") parseScope = Ok (se_Scope s)).
  { unfold ms, optional. destruct (se_Scope s) as [[ws|]|]; [|done|];
      destruct (se_Subscribe s); destruct (se_Resume s); cbn -[parseScope scope_json]; by rewrite ?parseScope_marshal. }
  assert (Hm3 : optional (member ms "resume") parse_resume = Ok (se_Resume s)).
  { unfold ms, optional. destruct (se_Resume s) as [r|]; destruct (se_Subscribe s); destruct (se_Scope s);
      cbn -[parse_resume]; [destruct (Hr r eq_refl); by rewrite parse_resume_marshal..| done | done | done | done]. }
  rewrite Hm1, Hm2, Hm3. by destruct s.
Qed.

Lemma auth_frame_parses token c origin stream s :
  token ≠ "" → caps_ok c → (1 ≤ Acks c → validStreamID stream = true) →
  (∀ q, s = Some q → session_ok q) →
  parseAuthFrame (encodeAuthFrame token (Some c) origin stream s) =
  (mkAuth token (Some c) origin s (if 1 <=? Acks c then stream else ""), None).
Proof.
  intros Ht Hc Hst Hs. unfold parseAuthFrame, encodeAuthFrame. cbn -[caps_MarshalJSON parseCaps parse_session].
  unfold memberString at 1. cbn -[caps_MarshalJSON parseCaps parse_session].
  assert (Ha : (0 <? Acks c) = (1 <=? Acks c)) by (destruct (Z.ltb_spec 0 (Acks c)), (Z.leb_spec 1 (Acks c)); lia).
  rewrite Ha. destruct (Z.leb_spec 1 (Acks c)) as [H1|H1]; destruct s as [q|];
    unfold memberString; cbn -[caps_MarshalJSON parseCaps parse_session];
    rewrite (proj2 (String.eqb_neq _ _)) by done; rewrite parseCaps_marshal by done; cbn -[parse_session];
    rewrite ?(proj2 (Z.leb_le _ _) H1), ?(proj2 (Z.leb_gt _ _) H1); cbn -[parse_session];
    rewrite ?Hst by done; cbn -[parse_session]; by rewrite ?parse_session_marshal by auto.
Qed.

(** The dialer's first frame arrives as it was sent: token, capabilities,
    origin, stream id (sent only by a dialer that asks for acknowledgements)
    and the whole session request, so the acceptor decides on exactly the
    subscription, scope and resume position the dialer holds. *)
Theorem auth_frame_roundtrip token c origin stream s :
  token ≠ "" → caps_ok c → (1 ≤ Acks c → validStreamID stream = true) →
  (∀ q, s = Some q → session_ok q) →
  parseAuthFrame (encodeAuthFrame token (Some c) origin stream s) =
  (mkAuth token (Some c) origin s (if 1 <=? Acks c then stream else ""), None).
Proof. apply auth_frame_parses. Qed.

Definition info_ok (si : streamInfo) : Prop :=
  validStreamID (si_ID si) = true ∧ 1 ≤ si_Oldest si ≤ si_Head si + 1 ∧ 0 ≤ si_Head si < 2 ^ 64 - 1 ∧
  minHeartbeatMs ≤ si_HeartbeatMs si ≤ maxHeartbeatMs.

Definition outcome_ok (ro : resumeOutcome) : Prop :=
  (ro_Status ro = "reset" ∧ ro_Reason ro ≠ "" ∨ ro_Status ro = "replaying") ∧
  0 ≤ ro_After ro < 2 ^ 64 ∧ 0 ≤ ro_Head ro < 2 ^ 64.

Lemma parse_info_marshal si : info_ok si →
  parse_info [("id", JStr (si_ID si)); ("oldest", JStr (formatOffset (si_Oldest si)));
              ("head", JStr (formatOffset (si_Head si))); ("heartbeat_ms", JNum (format_int (si_HeartbeatMs si)))] = Ok si.
Proof.
  unfold info_ok, minHeartbeatMs, maxHeartbeatMs. intros (Hi & Ho & Hh & Hb).
  unfold parse_info, memberString. cbn -[parse_int format_int].
  rewrite !parse_format by lia. rewrite Hi, parse_format_int by lia. cbn.
  rewrite (proj2 (Z.ltb_ge 1 _)), andb_false_r by lia. unfold minHeartbeatMs, maxHeartbeatMs.
  rewrite !(proj2 (Z.ltb_ge _ _)) by lia. by destruct si.
Qed.

Lemma parse_outcome_marshal ro : outcome_ok ro →
  parse_outcome ([("status", JStr (ro_Status ro)); ("after", JStr (formatOffset (ro_After ro)));
                  ("head", JStr (formatOffset (ro_Head ro)))] ++
                 (if String.eqb (ro_Reason ro) "" then [] else [("reason", JStr (ro_Reason ro))])) = Ok ro.
Proof.
  intros (Hst & Ha & Hh). unfold parse_outcome, memberString.
  destruct (String.eqb_spec (ro_Reason ro) "") as [Hr|Hr]; cbn; rewrite !parse_format by done; cbn.
  - destruct Hst as [[_ Hn]|Hst]; [done|]. rewrite Hst. cbn. destruct ro; cbn in *; congruence.
  - destruct Hst as [[Hst _]|Hst]; rewrite Hst, ?(proj2 (String.eqb_neq _ _) Hr); cbn; destruct ro; cbn in *; congruence.
Qed.

Lemma ack_parses c origin si ro mine :
  caps_ok c → 1 ≤ mine → 1 ≤ Streams c → info_ok si → (∀ o, ro = Some o → outcome_ok o) →
  parseAck (encodeAck true c origin (Some si) ro) mine = Ok (mkAck "auth_ok" (Some c) origin (Some si) ro None).
Proof.
  intros Hc Hm Hs Hi Ho. unfold parseAck, encodeAck, ack_streams, memberString.
  cbn -[caps_MarshalJSON parseCaps parse_info parse_outcome].
  destruct ro as [ro|]; cbn -[caps_MarshalJSON parseCaps parse_info parse_outcome];
    rewrite parseCaps_marshal by done; cbn -[parse_info parse_outcome];
    rewrite (proj2 (Z.ltb_ge _ _)) by lia; rewrite parse_info_marshal by done; [|done].
  pose proof (parse_outcome_marshal ro (Ho ro eq_refl)) as E. cbn -[parse_outcome] in E. by rewrite E.
Qed.

(** The acceptor's reply arrives as it was sent: a dialer that negotiates
    streams reads back the acceptor's capabilities, origin, stream info and
    resume outcome. *)
Theorem ack_roundtrip c origin si ro mine :
  caps_ok c → 1 ≤ mine → 1 ≤ Streams c → info_ok si → (∀ o, ro = Some o → outcome_ok o) →
  parseAck (encodeAck true c origin (Some si) ro) mine = Ok (mkAck "auth_ok" (Some c) origin (Some si) ro None).
Proof. apply ack_parses. Qed.

(** Both ends of a handshake agree: whatever they are configured with,
    they compute the same stream version from each other's advertised
    capabilities, and each sends only the kit format or a format the other
    one advertised. *)
Theorem negotiation_agrees dialer acceptor confD confA :
  (negotiate dialer (Some acceptor) true confD).1 = (negotiate acceptor (Some dialer) true confA).1 ∧
  (let f := (negotiate dialer (Some acceptor) true confD).2 in f = FrameKit ∨ decodes acceptor f = true) ∧
  (let f := (negotiate acceptor (Some dialer) true confA).2 in f = FrameKit ∨ decodes dialer f = true).
Proof.
  unfold negotiate. cbn. split; [|split].
  - destruct (decodes acceptor confD), (decodes dialer confA); cbn; lia.
  - destruct (decodes acceptor confD) eqn:E; cbn; auto.
  - destruct (decodes dialer confA) eqn:E; cbn; auto.
Qed.

Definition sample_caps : streamCaps := mkCaps 1 ["kit"; "cloudevents"] 1.
Definition sample_session : sessionReq :=
  mkSession (Some ["crm.#"]) (Some (Some ["w1"])) (Some (mkResumeReq "stm_a" 18446744073709551615)).

Lemma sample_caps_ok : caps_ok sample_caps.
Proof. split; [cbn; lia|]. split; [cbn; lia|]. cbn. set_solver. Qed.

Lemma auth_frame_roundtrip_witness :
  parseAuthFrame (encodeAuthFrame "tok" (Some sample_caps) "o" "stm_d" (Some sample_session)) =
  (mkAuth "tok" (Some sample_caps) "o" (Some sample_session) "stm_d", None).
Proof.
  apply (auth_frame_roundtrip "tok" sample_caps "o" "stm_d" (Some sample_session)); [done|apply sample_caps_ok|done|].
  intros q [= <-]. split; [by intros ps [= <-]|]. split; [done|]. intros r [= <-]. cbn. split; [done|lia].
Defined.

Lemma ack_roundtrip_witness :
  parseAck (encodeAck true sample_caps "hub" (Some (mkInfo "stm_h" 3 9 15000)) (Some (mkOutcome "reset" "evicted" 1 9))) 1 =
  Ok (mkAck "auth_ok" (Some sample_caps) "hub" (Some (mkInfo "stm_h" 3 9 15000)) (Some (mkOutcome "reset" "evicted" 1 9)) None).
Proof.
  apply (ack_roundtrip sample_caps "hub" (mkInfo "stm_h" 3 9 15000) (Some (mkOutcome "reset" "evicted" 1 9)) 1);
    [apply sample_caps_ok|lia|cbn; lia| |].
  - split; [done|]. unfold minHeartbeatMs, maxHeartbeatMs. cbn. lia.
  - intros o [= <-]. split; [by left|cbn; lia].
Defined.

(** ** Whatever is accepted is well formed *)

Lemma capsVersion_range raw : 0 ≤ capsVersion raw < 2 ^ 63.
Proof.
  unfold capsVersion, parse_int. case_match; [|lia]. repeat case_match; simplify_eq; try lia.
  all: apply andb_true_iff in H1 as [? ?%Z.ltb_lt]; by split; [apply Z.leb_le|].
Qed.

Lemma parseCaps_ok raw c : parseCaps raw = Some c → caps_ok c.
Proof.
  unfold parseCaps. repeat case_match; try done. intros [= <-]. split; [apply capsVersion_range|].
  split; [apply capsVersion_range|]. cbn. intros n [Hn _]%list_elem_of_filter. done.
Qed.

Lemma optional_ok {A} raw (parse : option json → res string A) a (P : A → Prop) :
  (∀ x, parse raw = Ok x → P x) → optional raw parse = Ok a → ∀ x, a = Some x → P x.
Proof. unfold optional. intros HP. repeat case_match; intros [= <-] x [= <-]; auto. Qed.

Lemma parse_session_ok m s : parse_session m = Ok s → session_ok s.
Proof.
  unfold parse_session. destruct (optional (member m "subscribe") _) as [sub|] eqn:H1; [|done].
  destruct (optional (member m "scope") _) as [sc|] eqn:H2; [|done].
  destruct (optional (member m "resume") _) as [r|] eqn:H3; [|done]. intros [= <-]. cbn. split; [|split]; cbn.
  - eapply optional_ok; [|exact H1]. unfold parsePatterns. intros ps. repeat case_match; naive_solver.
  - intros ->. eapply (optional_ok _ _ _ (λ s, s ≠ None)) in H2; [by apply H2| |done].
    unfold parseScope. intros x. repeat case_match; naive_solver.
  - eapply optional_ok; [|exact H3]. unfold parse_resume, parseOffsetToken. intros x.
    repeat case_match; try done. intros [= <-]. split; [done|]. by eapply format_parse.
Qed.

(** What the acceptor may rely on in an accepted auth frame. *)
Definition auth_ok (a : authFrame) : Prop :=
  au_Token a ≠ "" ∧
  (∀ c, au_Caps a = Some c → caps_ok c) ∧
  (let acks := match au_Caps a with Some c => 1 <=? Acks c | None => false end in
   if acks then validStreamID (au_Stream a) = true else au_Stream a = "") ∧
  (∀ s, au_Session a = Some s → session_ok s).

Lemma parse_auth_ok data a : parseAuthFrame data = (a, None) → auth_ok a.
Proof.
  unfold parseAuthFrame. destruct (as_object (Some data)) as [[m|]|]; [|done..].
  destruct (memberString m "auth") as [tok|]; [|done]. destruct (String.eqb_spec tok "") as [|Htok]; [done|].
  cbn [au_Caps]. pose proof (parseCaps_ok (member m "caps")) as Hc. destruct (parseCaps (member m "caps")) as [c|].
  - specialize (Hc _ eq_refl). set (acks := 1 <=? Acks c). set (id := memberString _ "id").
    destruct (acks && negb _) eqn:Hst; [done|].
    assert (Hs : if acks then validStreamID (default "" id) = true else True).
    { destruct acks; [|done]. destruct id; [|done]. by apply negb_false_iff in Hst. }
    destruct (isNull (member m "session")); [|destruct (as_object (member m "session")) as [[s|]|]; [|done..];
      destruct (parse_session s) as [sess|] eqn:Hss; [apply parse_session_ok in Hss|done]];
      intros [= <-]; unfold auth_ok; subst acks; destruct (1 <=? Acks c) eqn:Ha; cbn; rewrite ?Ha; naive_solver.
  - cbn. destruct (isNull (member m "session")); [|destruct (as_object (member m "session")) as [[s|]|]; [|done..];
      destruct (parse_session s) as [sess|] eqn:Hss; [apply parse_session_ok in Hss|done]];
      intros [= <-]; unfold auth_ok; cbn; naive_solver.
Qed.


Definition sample_auth : json :=
  JObj [("auth", JStr "tok"); ("caps", JObj [("streams", JNum "1"); ("frames", JArr [JStr "kit"; JStr "x"; JNull])]);
        ("session", JObj [("resume", JObj [("stream", JStr "stm_a"); ("after", JStr "7")])])].

