(* ===== verification/StreamCursor.v ===== *)
(** * Resuming a stream (go/runtime/bus/stream_cursor.go)

    The acceptor's resume decision, the dialer's position for one address with
    the frames that move it, and the bounded inbound queue that ports without
    backpressure must match. *)

From S2P Require Import Prelude Topics StreamWire StreamHandshake.

Local Open Scope Z_scope.

Definition ReasonStream := "stream".
Definition ReasonAhead := "ahead".
Definition ReasonEvicted := "evicted".
Definition ReasonLagged := "lagged".
Definition ReasonUpstream := "upstream".
Definition ReasonUnsupported := "unsupported".

Definition ResumeNone := "none".
Definition ResumeReplaying := "replaying".
Definition ResumeReset := "reset".
Definition ResumeUnsupported := "unsupported".

(** The outcome for the ack and the link's first cursor. *)
Definition decideResume (id : string) (oldest head : Z) (r : option resumeReq) : option resumeOutcome * Z :=
  match r with
  | None => (None, head)
  | Some r =>
      let reset reason := (Some (mkOutcome ResumeReset reason (rq_After r) head), head) in
      if negb (String.eqb (rq_Stream r) id) then reset ReasonStream
      else if head <? rq_After r then reset ReasonAhead
      else if rq_After r <? uint64 (oldest - 1) then reset ReasonEvicted
      else (Some (mkOutcome ResumeReplaying "" (rq_After r) head), rq_After r)
  end.

(** ** Invalidations *)

Record gapInfo := mkGap { g_Reason : string; g_Stream : string; g_After : Z; g_Head : Z }.

Definition unsupported_gap : gapInfo := mkGap ReasonUnsupported "" 0 0.

(** The members of the [kit.runtime.stream.invalidated] payload. *)
Definition payload (g : gapInfo) (peer : string) : gmap string string :=
  let p : gmap string string :=
    <["peer" := peer]> (<["reason" := g_Reason g]> (<["stream" := ""]> (<["after" := ""]> (<["head" := ""]> ∅)))) in
  if String.eqb (g_Reason g) ReasonUnsupported then p
  else <["stream" := g_Stream g]> (<["after" := formatOffset (g_After g)]> (<["head" := formatOffset (g_Head g)]> p)).

(** ** The dialer's position *)

Record dialerCursor := mkDialer { Stream : string; d_Offset : Z; Held : bool }.

Definition request (c : dialerCursor) : option resumeReq :=
  if negb (Held c) then None else Some (mkResumeReq (Stream c) (d_Offset c)).

Definition checkAck (a : option ackFrame) (req : option resumeReq) : option protocol_kind :=
  match a with
  | Some (mkAck _ _ _ (Some s) (Some ro) _) =>
      let head := si_Head s in
      match req with
      | None => Some pkUnrequested
      | Some req =>
          if String.eqb (ro_Status ro) ResumeReplaying && (negb (ro_After ro =? rq_After req) || (head <? ro_After ro))
          then Some pkReplayAfter
          else if String.eqb (ro_Status ro) ResumeReset && (head <? ro_Head ro) then Some pkResetHead
          else None
      end
  | _ => None
  end.

(** The status for link.connected, the invalidation to publish first, and the
    cursor. *)
Definition dialer_linkUp (a : option ackFrame) (sent : option resumeReq) (reconnect : bool) (c : dialerCursor)
    : res protocol_kind (string * option gapInfo) * dialerCursor :=
  match checkAck a sent with
  | Some k => (Err k, c)
  | None =>
      let wanted := Held c || reconnect in
      match a with
      | Some (mkAck _ _ _ (Some s) resume _) =>
          match resume with
          | None =>
              (Ok (ResumeNone, if wanted then Some unsupported_gap else None), mkDialer (si_ID s) (si_Head s) true)
          | Some ro =>
              if String.eqb (ro_Status ro) ResumeReset then
                (Ok (ResumeReset, Some (mkGap (ro_Reason ro) (si_ID s) (ro_After ro) (ro_Head ro))),
                 mkDialer (si_ID s) (ro_Head ro) true)
              else match sent with
                   | Some q =>
                       if negb (String.eqb (rq_Stream q) (si_ID s)) then
                         (Ok (ResumeReset, Some (mkGap ReasonStream (si_ID s) (rq_After q) (si_Head s))),
                          mkDialer (si_ID s) (si_Head s) true)
                       else (Ok (ResumeReplaying, None), mkDialer (si_ID s) (ro_After ro) true)
                   | None => (Ok (ResumeReplaying, None), mkDialer (si_ID s) (ro_After ro) true)
                   end
          end
      | _ =>
          (Ok (ResumeUnsupported, if wanted then Some unsupported_gap else None), mkDialer (Stream c) (d_Offset c) false)
      end
  end.

Definition advance (off : Z) (c : dialerCursor) : bool * dialerCursor :=
  if off <=? d_Offset c then (false, c) else (true, mkDialer (Stream c) off (Held c)).

Definition onEventOffset (raw : option json) (c : dialerCursor) : res protocol_kind bool * dialerCursor :=
  match parseOffsetToken raw with
  | None => (Err pkOffset, c)
  | Some off => let '(d, c') := advance off c in (Ok d, c')
  end.

Definition onReset (r : resetInfo) (c : dialerCursor) : res protocol_kind gapInfo * dialerCursor :=
  if negb (String.eqb (rs_Stream r) (Stream c)) then (Err pkForeignStream, c)
  else if rs_Head r <? rs_After r then (Err pkResetAfter, c)
  else if rs_Head r <? d_Offset c then (Err pkResetHead, c)
  else (Ok (mkGap (rs_Reason r) (rs_Stream r) (rs_After r) (rs_Head r)), mkDialer (Stream c) (rs_Head r) (Held c)).

Definition onPosition (p : positionInfo) (c : dialerCursor) : res protocol_kind unit * dialerCursor :=
  if negb (String.eqb (po_Stream p) (Stream c)) then (Err pkForeignStream, c)
  else (Ok tt, if d_Offset c <? po_Offset p then mkDialer (Stream c) (po_Offset p) (Held c) else c).

(** ** The inbound queue of a port *)

Record inboundQueue := mkQueue { capacity : Z; q : list Z; delivered : Z; overflowed : bool }.

Definition newInboundQueue (capacity after : Z) : inboundQueue := mkQueue capacity [] after false.

Definition recv (off : Z) (b : inboundQueue) : inboundQueue :=
  if overflowed b then b
  else if capacity b <=? Z.of_nat (length (q b)) then mkQueue (capacity b) [] (delivered b) true
  else mkQueue (capacity b) (q b ++ [off]) (delivered b) false.

(** [b.q[:n]] panics for a negative [n]; callers pass a count. *)
Definition deliver (n : nat) (b : inboundQueue) : list Z * inboundQueue :=
  if overflowed b then ([], b)
  else
    let out := take n (q b) in
    (out, mkQueue (capacity b) (drop n (q b)) (match last out with Some o => o | None => delivered b end) false).

Definition resumeAfter (b : inboundQueue) : Z := delivered b.

(** ** A handshake that resumes *)

(** The acceptor answers a dialer's request from its log's bounds; the dialer
    applies the ack. *)
Definition resume_handshake (id : string) (oldest head heartbeat : Z) (caps : streamCaps) (origin : string)
    (reconnect : bool) (c : dialerCursor) : res protocol_kind (string * option gapInfo) * dialerCursor * Z :=
  let sent := request c in
  let '(outcome, cursor) := decideResume id oldest head sent in
  let ack := mkAck "auth_ok" (Some caps) origin (Some (mkInfo id oldest head heartbeat)) outcome None in
  (dialer_linkUp (Some ack) sent reconnect c, cursor).

Lemma decideResume_replaying id oldest head r : 1 ≤ oldest ≤ 2 ^ 64 →
  (decideResume id oldest head (Some r)).1 = Some (mkOutcome ResumeReplaying "" (rq_After r) head) ↔
  rq_Stream r = id ∧ oldest - 1 ≤ rq_After r ≤ head.
Proof.
  intros Ho. unfold decideResume. rewrite (uint64_small (oldest - 1)) by lia.
  destruct (String.eqb_spec (rq_Stream r) id); cbn; [|by split; [|intros [? _]]].
  destruct (Z.ltb_spec head (rq_After r)); cbn; [split; [done|intros [_ ?]; lia]|].
  destruct (Z.ltb_spec (rq_After r) (oldest - 1)); cbn; [split; [done|intros [_ ?]; lia]|]. split; [by split; [|lia]|done].
Qed.

Lemma resume_handshake_cases id oldest head hb caps origin reconnect c :
  1 ≤ oldest ≤ head + 1 → 0 ≤ head < 2 ^ 64 - 1 → Held c = true →
  ∃ status gap c', resume_handshake id oldest head hb caps origin reconnect c = (Ok (status, gap), c', d_Offset c') ∧
    Stream c' = id ∧ Held c' = true ∧
    (Stream c = id ∧ oldest - 1 ≤ d_Offset c ≤ head →
       status = ResumeReplaying ∧ gap = None ∧ d_Offset c' = d_Offset c) ∧
    (¬ (Stream c = id ∧ oldest - 1 ≤ d_Offset c ≤ head) →
       status = ResumeReset ∧ d_Offset c' = head ∧
       ∃ reason, reason ≠ "" ∧ gap = Some (mkGap reason id (d_Offset c) head)).
Proof.
  intros Ho Hh Hc. unfold resume_handshake, request. rewrite Hc. cbn [negb].
  unfold decideResume, dialer_linkUp, checkAck. rewrite (uint64_small (oldest - 1)) by lia. cbn [rq_Stream rq_After].
  destruct (String.eqb_spec (Stream c) id) as [He|He]; cbn.
  2:{ rewrite Z.ltb_irrefl. cbn. eexists _, _, (mkDialer _ _ _). split; [reflexivity|]. cbn. split_and!; [done..|by intros [? _]|]. intros _. split_and!; [done..|by exists ReasonStream]. }
  destruct (Z.ltb_spec head (d_Offset c)) as [H1|H1]; cbn.
  { rewrite Z.ltb_irrefl. cbn. eexists _, _, (mkDialer _ _ _). split; [reflexivity|]. cbn. split_and!; [done..|lia|]. intros _. split_and!; [done..|by exists ReasonAhead]. }
  destruct (Z.ltb_spec (d_Offset c) (oldest - 1)) as [H2|H2]; cbn.
  { rewrite Z.ltb_irrefl. cbn. eexists _, _, (mkDialer _ _ _). split; [reflexivity|]. cbn. split_and!; [done..|lia|]. intros _. split_and!; [done..|by exists ReasonEvicted]. }
  rewrite Z.eqb_refl, (proj2 (Z.ltb_ge _ _) H1). cbn. rewrite He, String.eqb_refl. cbn.
  eexists _, _, (mkDialer _ _ _). split; [reflexivity|]. cbn. split_and!; [done..|]. intros Hn. destruct Hn. split; [done|lia].
Qed.

(** A reconnecting dialer resumes exactly when nothing was lost: if the
    acceptor's log still holds every entry after the dialer's position, the
    replay starts right there and nothing is invalidated; otherwise (another
    stream, a position ahead of the log, entries evicted) the position moves to
    the head and the gap that is published spans from the dialer's position to
    that head.  Either way both ends stand at the same offset and the ack is
    never a protocol error. *)
Theorem resume_handshake_spec id oldest head hb caps origin reconnect c :
  1 ≤ oldest ≤ head + 1 → 0 ≤ head < 2 ^ 64 - 1 → Held c = true →
  ∃ status gap c', resume_handshake id oldest head hb caps origin reconnect c = (Ok (status, gap), c', d_Offset c') ∧
    Stream c' = id ∧ Held c' = true ∧
    (Stream c = id ∧ oldest - 1 ≤ d_Offset c ≤ head →
       status = ResumeReplaying ∧ gap = None ∧ d_Offset c' = d_Offset c) ∧
    (¬ (Stream c = id ∧ oldest - 1 ≤ d_Offset c ≤ head) →
       status = ResumeReset ∧ d_Offset c' = head ∧
       ∃ reason, reason ≠ "" ∧ gap = Some (mkGap reason id (d_Offset c) head)).
Proof. apply resume_handshake_cases. Qed.

Lemma resume_handshake_spec_witness :
  resume_handshake "stm_h" 3 9 15000 sample_caps "hub" true (mkDialer "stm_h" 5 true) =
    (Ok ("replaying", None), mkDialer "stm_h" 5 true, 5) ∧
  resume_handshake "stm_h" 3 9 15000 sample_caps "hub" true (mkDialer "stm_h" 1 true) =
    (Ok ("reset", Some (mkGap "evicted" "stm_h" 1 9)), mkDialer "stm_h" 9 true, 9).
Proof.
  split; [|reflexivity].
  destruct (resume_handshake_spec "stm_h" 3 9 15000 sample_caps "hub" true (mkDialer "stm_h" 5 true)
    ltac:(lia) ltac:(lia) eq_refl) as (st & g & c' & E & Hs & Hd & Hr & _).
  destruct c' as [s' o' h']. cbn in *. destruct Hr as (-> & -> & ->); [split; [done|lia]|]. subst. exact E.
Defined.

(** ** The queue delivers what it received *)

Inductive queue_op := QRecv (off : Z) | QDeliver (n : nat).

(** The queue after the operations, with everything delivered so far. *)
Fixpoint queue_run (ops : list queue_op) (b : inboundQueue) : list Z * inboundQueue :=
  match ops with
  | [] => ([], b)
  | QRecv off :: ops' => queue_run ops' (recv off b)
  | QDeliver n :: ops' =>
      let '(out, b') := deliver n b in
      let '(out', b'') := queue_run ops' b' in (out ++ out', b'')
  end.

Definition received (ops : list queue_op) : list Z :=
  omap (λ o, match o with QRecv off => Some off | QDeliver _ => None end) ops.

Lemma queue_run_spec ops : ∀ b out b',
  queue_run ops b = (out, b') →
  (overflowed b = true → q b = []) →
  Z.of_nat (length (q b)) ≤ Z.max 0 (capacity b) →
  Z.of_nat (length (q b')) ≤ Z.max 0 (capacity b') ∧
  delivered b' = default (delivered b) (last out) ∧
  (overflowed b' = false → overflowed b = false ∧ out ++ q b' = q b ++ received ops) ∧
  (overflowed b = true → out = []) ∧ out `prefix_of` q b ++ received ops.
Proof.
  induction ops as [|[off|n] ops IH]; intros b out b' E Ho Hl; cbn in E.
  - injection E as <- <-. cbn. split_and!; [done|done|by intros; rewrite app_nil_r|done|apply prefix_nil].
  - unfold received. cbn. fold (received ops). unfold recv in E.
    destruct (overflowed b) eqn:Eo.
    { destruct (IH _ _ _ E) as (H1 & H2 & H3 & H4 & H5); [by auto|done|]. rewrite (H4 Eo).
      split_and!; [done|by rewrite H2, (H4 Eo)| |done|apply prefix_nil]. intros [? _]%H3. congruence. }
    destruct (Z.leb_spec (capacity b) (Z.of_nat (length (q b)))).
    + destruct (IH _ _ _ E) as (H1 & H2 & H3 & H4 & H5); [done|cbn; lia|]. rewrite (H4 eq_refl) in *.
      split_and!; [done|done| |done|apply prefix_nil]. by intros [? _]%H3.
    + destruct (IH _ _ _ E) as (H1 & H2 & H3 & H4 & H5); [done|cbn; rewrite length_app; simpl; lia|]. cbn in *.
      rewrite <-app_assoc in H3, H5. split_and!; done.
  - unfold received. cbn. fold (received ops). unfold deliver in E. destruct (overflowed b) eqn:Eo.
    { destruct (queue_run ops b) as [out' b''] eqn:E2. injection E as <- <-. cbn.
      destruct (IH _ _ _ E2) as (H1 & H2 & H3 & H4 & H5); [by auto|done|].
      split_and!; [done|done| |by auto|done]. intros [? _]%H3. congruence. }
    destruct (queue_run ops _) as [out' b''] eqn:E2. injection E as <- <-.
    destruct (IH _ _ _ E2) as (H1 & H2 & H3 & H4 & H5); [done|cbn; rewrite length_drop; lia|]. cbn in *.
    rewrite last_app, H2. split_and!; [done|by destruct (last out'), (last (take n (q b)))| |done|].
    + intros [_ H]%H3. by rewrite <-app_assoc, H, app_assoc, take_drop.
    + rewrite <-(take_drop n (q b)) at 2. rewrite <-app_assoc. by apply prefix_app.
Qed.

(** A port's bounded queue neither loses nor repeats events: whatever
    the order of receives and deliveries, what it has delivered is a prefix of
    what it has received, its resume position is the last delivered offset (so
    a reconnect asks for exactly the rest), and until it overflows every
    received offset has been delivered or is queued, at most [capacity] of
    them. *)
Theorem inbound_queue_prefix cap after ops out b :
  queue_run ops (newInboundQueue cap after) = (out, b) →
  out `prefix_of` received ops ∧ resumeAfter b = default after (last out) ∧
  Z.of_nat (length (q b)) ≤ Z.max 0 (capacity b) ∧
  (overflowed b = false → out ++ q b = received ops).
Proof.
  intros E. destruct (queue_run_spec _ _ _ _ E) as (H1 & H2 & H3 & _ & H5); [done|cbn; lia|].
  split_and!; try done. intros [_ ?]%H3. done.
Qed.

Lemma inbound_queue_prefix_witness :
  let '(out, b) := queue_run [QRecv 4; QRecv 6; QDeliver 1; QRecv 7; QRecv 9] (newInboundQueue 2 3) in
  out `prefix_of` [4; 6; 7; 9] ∧ resumeAfter b = 4 ∧ overflowed b = true.
Proof.
  destruct (inbound_queue_prefix 2 3 [QRecv 4; QRecv 6; QDeliver 1; QRecv 7; QRecv 9] _ _ eq_refl) as (Hp & Hr & _).
  split; [exact Hp|]. split; [exact Hr|reflexivity].
Defined.
