(* ===== verification/NetworkFrame.v ===== *)
(** * Event frames (go/runtime/bus/network_frame.go, network_events.go)

    The kit frame of an event with its wire origin and stream offset, encoded
    and decoded as a JSON value.  CloudEvents frames are written and read by
    functions the codec is given, and the event fields only they carry are left out.  [time.Time] is abstract with its JSON text; a
    payload [None] is a Go value [encoding/json] cannot encode. *)

From S2P Require Import Prelude Topics StreamWire StreamHandshake.

Local Open Scope Z_scope.

(** [time.Time] and its JSON text (RFC 3339); a year outside 0..9999 has none. *)
Class TimeText (Time : Type) := {
  time_text : Time → option string;
  time_parse : string → option Time;
  time_zero : Time;
  time_roundtrip t s : time_text t = Some s → time_parse s = Some t;
}.

Section Frame.
Context {Time : Type} `{TimeText Time}.

Record Event := mkEv {
  ev_ID : string;
  ev_Topic : string;
  ev_Source : string;
  ev_Timestamp : Time;
  ev_Payload : option json;
  ev_WorkspaceID : string;
}.

#[export] Instance Event_inhabited : Inhabited Event :=
  populate (mkEv "" "" "" time_zero (Some JNull) "").

(** A string member with [omitempty]. *)
Definition omitempty (key s : string) : list (string * json) :=
  if String.eqb s "" then [] else [(key, JStr s)].

(** [encodeFrameOffset] for the kit format: [networkMsg] marshalled. *)
Definition encodeKitFrame (e : Event) (origin : string) (offset : option Z) : option (list (string * json)) :=
  match time_text (ev_Timestamp e), ev_Payload e with
  | Some t, Some p =>
      Some ([("topic", JStr (ev_Topic e)); ("source", JStr (ev_Source e)); ("timestamp", JStr t);
             ("payload", p); ("origin", JStr origin)] ++
            omitempty "workspace_id" (ev_WorkspaceID e) ++ omitempty "id" (ev_ID e) ++
            (match offset with Some off => omitempty "offset" (formatOffset off) | None => [] end))
  | _, _ => None
  end.

(** [encodeCloudEvent] is the CloudEvents branch. *)
Definition encodeFrameOffset (encodeCloudEvent : Event → string → option Z → option (list (string * json)))
    (f : FrameFormat) (e : Event) (origin : string) (offset : option Z) : option (list (string * json)) :=
  match f with
  | FrameKit => encodeKitFrame e origin offset
  | FrameCloudEvents => encodeCloudEvent e origin offset
  end.

(** [json.Unmarshal] into a string field, if the member is there. *)
Definition string_field (members : list (string * json)) (key : string) : option string :=
  match member members key with
  | None => Some ""
  | Some v => as_string v
  end.

Definition time_field (members : list (string * json)) (key : string) : option Time :=
  match member members key with
  | None | Some JNull => Some time_zero
  | Some (JStr s) => time_parse s
  | Some _ => None
  end.

Definition decodeKitFrame (members : list (string * json)) : option (Event * string) :=
  topic ← string_field members "topic";
  source ← string_field members "source";
  timestamp ← time_field members "timestamp";
  origin ← string_field members "origin";
  workspace ← string_field members "workspace_id";
  id ← string_field members "id";
  Some (mkEv id topic source timestamp (Some (default JNull (member members "payload"))) workspace, origin).

(** A decoded event frame: the event, its origin and, on a stream link, its
    offset; [Ok None] is a frame that is dropped.  [decodeCloudEventFrame]
    reads the frames of the other format and may be anything. *)
Definition decodeEventFrame (decodeCloudEventFrame : json → option (Event * string * option json))
    (data : json) (streamLink : bool) : res protocol_kind (option (Event * string * Z)) :=
  let decoded :=
    match classifyFrame data false with
    | (FrameKitEvent, members) =>
        match decodeKitFrame members with
        | Some (e, origin) => Some (e, origin, member members "offset")
        | None => None
        end
    | (FrameCloudEvent, _) => decodeCloudEventFrame data
    | _ => None
    end in
  match decoded with
  | None => Ok None
  | Some (e, origin, rawOff) =>
      if negb streamLink then Ok (Some (e, origin, 0))
      else match parseOffsetToken rawOff with
           | None => Err pkOffset
           | Some off => Ok (Some (e, origin, off))
           end
  end.

Definition isReservedTopic (t : string) : bool :=
  String.prefix "kit.runtime.stream." t || String.prefix "kit.runtime.link." t.

(** ** A frame arrives as it was sent *)

Lemma formatOffset_nonempty v : 0 ≤ v < 2 ^ 64 → formatOffset v ≠ "".
Proof. intros Hv. destruct (formatOffset_digits v Hv) as (c & s & -> & _). done. Qed.

Lemma kit_frame_members e origin off ms :
  encodeKitFrame e origin (Some off) = Some ms → 0 ≤ off < 2 ^ 64 →
  member ms "specversion" = None ∧ member ms "type" = None ∧
  member ms "offset" = Some (JStr (formatOffset off)) ∧ decodeKitFrame ms = Some (e, origin).
Proof.
  unfold encodeKitFrame. destruct (time_text _) as [t|] eqn:Et; [|done].
  destruct (ev_Payload e) as [p|] eqn:Ep; [|done]. intros [= <-] Ho.
  pose proof (time_roundtrip _ _ Et) as Hp.
  unfold omitempty. rewrite (proj2 (String.eqb_neq (formatOffset off) _)) by by apply formatOffset_nonempty.
  destruct e as [id topic source ts pl ws]. cbn [ev_ID ev_Topic ev_Source ev_Timestamp ev_Payload ev_WorkspaceID] in *. subst pl.
  destruct (String.eqb_spec ws "") as [->|]; destruct (String.eqb_spec id "") as [->|]; cbn;
    (split; [done|]; split; [done|]; split; [done|]);
    unfold decodeKitFrame, string_field, time_field; cbn; by rewrite Hp.
Qed.


End Frame.

Arguments Event : clear implicits.

(** Instants as their text. *)
#[export] Program Instance text_time : TimeText string := {
  time_text := Some; time_parse := Some; time_zero := "0001-01-01T00:00:00Z";
}.
Next Obligation. intros t s [= ->]. done. Qed.

