(* ===== verification/StreamLink.v ===== *)
(** * A stream link (go/runtime/bus/network_link.go, network_session.go,
    network_stream.go, stream_wire.go)

    The acceptor's side of a link: the session it grants ([Handler]), and the
    writer that sends the log's entries after its cursor together with every
    control frame ([drain], [send], [heartbeatTick], [handleCtl]).  The
    dialer's side: the handshake ([dialHandshake], [connect]) and the reader
    that moves its position ([readLoop], [onControl], [onEvent]).  A write that
    fails is the link going down; reported errors, hooks and skip counters have
    no effect on the link and are left out. *)

From S2P Require Import Prelude Topics StreamLog StreamWire StreamHandshake StreamCursor NetworkFrame.

Local Open Scope Z_scope.

Section Link.
Context {Time : Type} `{TimeText Time}.
(** The two directions of the CloudEvents format. *)
Context (encodeCloudEvent : Event Time → string → option Z → option (list (string * json))).
Context (decodeCloudEventFrame : json → option (Event Time * string * option json)).
Context {L : Type} `{LO : !StreamLogOps (Ev := Event Time) L}.

Abbreviation Entry := (LogEntry (Event Time)).

Record Peer := mkPeer { p_Addr : string; p_Origin : string; p_Token : string }.

(** ** The acceptor's adapter and its links *)

Record acceptor := mkAcceptor {
  a_originID : string;
  a_auth : option (string → bool);              (* verifies a token *)
  a_ordered : bool;                              (* the bus has a publish hook *)
  a_refuseAcks : bool;
  a_frames : FrameFormat;
  a_maxSubs : Z;
  a_authorize : option (Peer → Subscription → bool);
  a_linkFilter : option (Peer → Event Time → bool);
  a_heartbeat : Z;                               (* ms *)
}.

Definition AcksVersion : Z := 1.

(** [NetworkAdapter.caps] of an adapter that does not ask for acks itself. *)
Definition acceptor_caps (n : acceptor) : streamCaps :=
  mkCaps (if a_ordered n then StreamsVersion else 0) knownFrames 0.

Record link := mkLink {
  l_id : Z;
  l_stream : bool;
  l_acks : bool;
  l_format : FrameFormat;
  l_peer : Peer;
  l_learned : string;                            (* learnedOrigin *)
  l_cursor : sendCursor;
  l_subs : subState;
  l_lastSent : Z;
  l_wroteSince : bool;
}.

Definition set_cursor (at_ : Z) (l : link) : link :=
  mkLink (l_id l) (l_stream l) (l_acks l) (l_format l) (l_peer l) (l_learned l)
         (mkCursor at_ (outbox (l_cursor l))) (l_subs l) (l_lastSent l) (l_wroteSince l).
Definition set_subs (s : subState) (l : link) : link :=
  mkLink (l_id l) (l_stream l) (l_acks l) (l_format l) (l_peer l) (l_learned l)
         (l_cursor l) s (l_lastSent l) (l_wroteSince l).
(** A frame for offset [off] was written. *)
Definition sent_at (off : Z) (l : link) : link :=
  mkLink (l_id l) (l_stream l) (l_acks l) (l_format l) (l_peer l) (l_learned l)
         (l_cursor l) (l_subs l) off true.
Definition set_wrote (b : bool) (l : link) : link :=
  mkLink (l_id l) (l_stream l) (l_acks l) (l_format l) (l_peer l) (l_learned l)
         (l_cursor l) (l_subs l) (l_lastSent l) b.

Definition peerOrigin (l : link) : string :=
  if String.eqb (p_Origin (l_peer l)) "" then l_learned l else p_Origin (l_peer l).

Definition entryDelivers (s : subState) (origin : string) (e : Entry) : bool :=
  if Marker e then true
  else if negb (String.eqb origin "") && String.eqb (Origin e) origin then false
  else subs_matches s (ev_Topic (le_Event e)) && scope_allows (sScope s) (ev_WorkspaceID (le_Event e)).

(** ** The session *)

Definition negotiateAcks (mine : Z) (peer : option streamCaps) (streamLink : bool) : bool :=
  streamLink && (AcksVersion <=? mine) && (match peer with Some p => AcksVersion <=? Acks p | None => false end).

(** [Handler]: the connection is closed (with a session_error frame first when
    there is one), or a link starts and the ack, if there was a handshake, is
    its first frame. *)
Inductive accepted :=
| AClosed (reply : option json)
| ALink (l : link) (ack : option json).

Definition refuseSession (code : string) : accepted := AClosed (Some (encodeSessionError code "")).
Definition refuseOrClose (dialerCaps : bool) (code : string) : accepted :=
  if dialerCaps then refuseSession code else AClosed None.

Definition has_caps (a : authFrame) : bool := match au_Caps a with Some _ => true | None => false end.

(** From the parsed auth frame on. *)
Definition grant (n : acceptor) (log : L) (id : Z) (peer : Peer) (af : authFrame) (handshake : bool) : accepted :=
  let '(v, format) := negotiate (acceptor_caps n) (au_Caps af) handshake (a_frames n) in
  let stream := 1 <=? v in
  let acks := negotiateAcks (if a_refuseAcks n then 0 else AcksVersion) (au_Caps af) stream in
  let myCaps := mkCaps (Streams (acceptor_caps n)) (Frames (acceptor_caps n)) (if acks then AcksVersion else 0) in
  let sess := match au_Session af with
              | Some s => if stream then s else mkSession None None None
              | None => mkSession None None None
              end in
  let subs := match se_Subscribe sess with Some ps => withPatterns ps newSubState | None => newSubState end in
  if (match se_Subscribe sess with Some _ => a_maxSubs n <? Z.of_nat (size (Patterns subs)) | None => false end)
  then refuseOrClose (has_caps af) CodeLimit
  else
    let subs := mkSubState (Implicit_ subs) (Patterns subs) (se_Scope sess) in
    if (match a_authorize n with Some ok => negb (ok peer (effective subs)) | None => false end)
    then refuseOrClose (has_caps af) CodeForbidden
    else
      let '(si, outcome, cursor) :=
        if stream then
          let '(outcome, cursor) := decideResume (ID log) (Oldest log) (Head log) (se_Resume sess) in
          (Some (mkInfo (ID log) (Oldest log) (Head log) (a_heartbeat n)), outcome, cursor)
        else (None, None, Head log) in
      ALink (mkLink id stream acks format peer "" (mkCursor cursor false) subs 0 false)
            (if handshake then Some (encodeAck (has_caps af) myCaps (a_originID n) si outcome) else None).

Definition Handler (n : acceptor) (log : L) (id : Z) (addr : string) (msg : json) : accepted :=
  match a_auth n with
  | None => grant n log id (mkPeer addr "" "") zero_auth false
  | Some verify =>
      let '(af, perr) := parseAuthFrame msg in
      if bool_decide (perr = Some codeInvalidAuth) then AClosed None
      else if negb (verify (au_Token af)) then AClosed None
      else match perr with
           | Some code => refuseSession code
           | None => grant n log id (mkPeer addr (au_Origin af) (au_Token af)) af true
           end
  end.

(** ** The writer *)

Definition reset_of (log : L) (reason : string) (after head : Z) : json :=
  JObj (reset_frame (mkReset (ID log) reason after head)).

(** [send]: the frame written, if any, and the link. *)
Definition send (n : acceptor) (log : L) (e : Entry) (l : link) : option json * link :=
  if negb (via e =? 0) && (via e =? l_id l) then (None, l)
  else if negb (entryDelivers (l_subs l) (peerOrigin l) e) then (None, l)
  else if Marker e then
    if negb (l_stream l) then (None, l)
    else (Some (reset_of log ReasonUpstream (uint64 (Offset e - 1)) (Offset e)), sent_at (Offset e) l)
  else if (match a_linkFilter n with Some f => negb (f (l_peer l) (le_Event e)) | None => false end) then (None, l)
  else match encodeFrameOffset encodeCloudEvent (l_format l) (le_Event e) (Origin e) (if l_stream l then Some (Offset e) else None) with
       | None => (None, l)
       | Some ms => (Some (JObj ms), sent_at (Offset e) l)
       end.

Fixpoint send_all (n : acceptor) (log : L) (es : list Entry) (l : link) : list json * link :=
  match es with
  | [] => ([], l)
  | e :: es' =>
      let '(f, l1) := send n log e l in
      let '(fs, l2) := send_all n log es' l1 in
      (option_list f ++ fs, l2)
  end.

Definition writerBatch : Z := 256.

(** One turn of [drain]'s loop; the entries it passed without a frame come
    last, for the record.  [None] is the turn that finds nothing to send. *)
Definition drain_turn (n : acceptor) (log : L) (l : link) : option (list json * link * list Entry) :=
  let before := at_ (l_cursor l) in
  let '(entries, gap, cursor) := next log writerBatch (l_cursor l) in
  match entries with
  | [] => None
  | _ =>
      let l := set_cursor (at_ cursor) l in
      if (0 <? gap) && l_stream l then
        let l := set_cursor (Head log) l in
        Some ([reset_of log ReasonLagged before (Head log)], sent_at (Head log) l, [])
      else
        let '(fs, l') := send_all n log entries l in
        Some (fs, l', filter (λ e, (send n log e l).1 = None) entries)
  end.

(** [drain]: turns until one finds nothing.  [None] is out of fuel. *)
Fixpoint drain (fuel : nat) (n : acceptor) (log : L) (l : link) : option (list json * link) :=
  match fuel with
  | O => None
  | S fuel' =>
      match drain_turn n log l with
      | None => Some ([], l)
      | Some (fs, l', _) =>
          match drain fuel' n log l' with
          | Some (fs', l'') => Some (fs ++ fs', l'')
          | None => None
          end
      end
  end.

Definition heartbeatTick (log : L) (l : link) : list json * link :=
  if negb (l_wroteSince l) || (l_lastSent l <? at_ (l_cursor l)) then
    ([JObj (position_frame (mkPosition (ID log) (at_ (l_cursor l))))], set_wrote false (sent_at (at_ (l_cursor l)) l))
  else ([], set_wrote false l).

(** A subscribe or unsubscribe request, or an error reply to send. *)
Definition handleCtl (n : acceptor) (m : ctlRequest + ctlError) (l : link) : json * link :=
  match m with
  | inr e => (JObj (errorFrame e ""), set_wrote true l)
  | inl r =>
      match subs_apply r (a_maxSubs n) (l_subs l) with
      | Err code => (JObj (errorFrame (mkCtlError (ctl_ID r) code) ""), set_wrote true l)
      | Ok next =>
          if String.eqb (ctl_Type r) "subscribe" &&
             (match a_authorize n with Some ok => negb (ok (l_peer l) (effective next)) | None => false end)
          then (JObj (errorFrame (mkCtlError (ctl_ID r) CodeForbidden) ""), set_wrote true l)
          else (JObj (ack_reply (ctl_ID r) (at_ (l_cursor l))), set_wrote true (set_subs next l))
      end
  end.

(** ** The dialer *)

Record dialer := mkDialerCfg {
  d_originID : string;
  d_token : string;
  d_streamID : string;                           (* the id of its own log *)
  d_caps : streamCaps;
  d_frames : FrameFormat;
}.

(** What survives reconnects, of [peerState]. *)
Record peerState := mkPeerState { ps_cursor : dialerCursor; ps_subs : subState; ps_connected : bool }.

Definition set_ps_cursor (c : dialerCursor) (ps : peerState) : peerState := mkPeerState c (ps_subs ps) (ps_connected ps).

(** [dialHandshake]: the frame it sends and the resume request in it. *)
Definition dial_session (ps : peerState) : sessionReq :=
  mkSession (if Implicit_ (ps_subs ps) then None else Some (sortedPatterns (ps_subs ps)))
            (sScope (ps_subs ps)) (request (ps_cursor ps)).

Definition dial_frame (d : dialer) (ps : peerState) : json :=
  encodeAuthFrame (d_token d) (Some (d_caps d)) (d_originID d) (d_streamID d) (Some (dial_session ps)).

Inductive connect_error := ConnAuth | ConnProtocol (k : protocol_kind) | ConnRefused (code : string).

(** [connect] after the ack arrived: whether the link is a stream link, the
    resume status, the invalidation to publish, and the state. *)
Definition connect (d : dialer) (ack : json) (ps : peerState)
    : res connect_error (bool * string * option gapInfo) * peerState :=
  let sent := se_Resume (dial_session ps) in
  match parseAck ack (Streams (d_caps d)) with
  | Err (AckProtocol k) => (Err (ConnProtocol k), ps)
  | Err AckRejected => (Err ConnAuth, ps)
  | Ok a =>
      if String.eqb (ak_Kind a) "session_error" then (Err (ConnRefused (default "" (ak_Err a))), ps)
      else match checkAck (Some a) sent with
           | Some k => (Err (ConnProtocol k), ps)
           | None =>
               let '(v, format) := negotiate (d_caps d) (ak_Caps a) true (d_frames d) in
               let stream := (1 <=? v) && (match ak_Stream a with Some _ => true | None => false end) in
               match dialer_linkUp (if stream then Some a else None) sent (ps_connected ps) (ps_cursor ps) with
               | (Err k, _) => (Err (ConnProtocol k), ps)
               | (Ok (status, gap), c) => (Ok (stream, status, gap), mkPeerState c (ps_subs ps) true)
               end
           end
  end.

(** What the reader does with one frame. *)
Inductive received_frame :=
| RSkip
| RDeliver (off : Z) (origin : string) (e : Event Time)
| RInvalidate (g : gapInfo)
| RReply (c : dialerCtl)
| RPuback
| RProtocol (k : protocol_kind).

Definition onControl (acks : bool) (members : list (string * json)) (ps : peerState) : received_frame * peerState :=
  if acks && String.eqb (default "" (memberString members "type")) "puback" then (RPuback, ps)
  else match dialerControl members with
       | Err k => (RProtocol k, ps)
       | Ok (DReset r) =>
           match onReset r (ps_cursor ps) with
           | (Err k, _) => (RProtocol k, ps)
           | (Ok g, c) => (RInvalidate g, set_ps_cursor c ps)
           end
       | Ok (DPosition p) =>
           match onPosition p (ps_cursor ps) with
           | (Err k, _) => (RProtocol k, ps)
           | (Ok _, c) => (RSkip, set_ps_cursor c ps)
           end
       | Ok DIgnore => (RSkip, ps)
       | Ok c => (RReply c, ps)
       end.

(** [peer] is the link's peer origin: it stamps an event without one. *)
Definition onEvent (d : dialer) (peer : string)
    (data : json) (ps : peerState) : received_frame * peerState :=
  match decodeEventFrame decodeCloudEventFrame data true with
  | Err k => (RProtocol k, ps)
  | Ok None => (RSkip, ps)
  | Ok (Some (e, origin, off)) =>
      if String.eqb origin (d_originID d) || isReservedTopic (ev_Topic e) then (RSkip, ps)
      else
        let origin := if String.eqb origin "" then (if String.eqb peer "" then d_originID d else peer) else origin in
        let '(deliver, c) := advance off (ps_cursor ps) in
        if deliver then (RDeliver off origin e, set_ps_cursor c ps) else (RSkip, ps)
  end.

Definition read_frame (d : dialer) (acks : bool) (peer : string)
    (data : json) (ps : peerState) : received_frame * peerState :=
  match classifyFrame data true with
  | (FrameDrop, _) => (RSkip, ps)
  | (FrameControl, members) => onControl acks members ps
  | _ => onEvent d peer data ps
  end.

End Link.
