(* ===== verification/StreamDelivery.v ===== *)
(** * Delivery over a stream link

    An acceptor and a dialer as one system: events are appended to the
    acceptor's log, its writer drains them and sends heartbeats and replies in
    order, the dialer's reader takes the frames one by one, links go down with
    whatever was in flight and come up again through the handshake.  Every
    entry past the dialer's first position is accounted for: delivered once
    and in order, covered by a published invalidation, or refused by a filter
    of one of the two ends. *)

From S2P Require Import Prelude Topics StreamLog StreamWire StreamHandshake StreamCursor NetworkFrame StreamLink.

Local Open Scope Z_scope.

Section Delivery.
Context {Time : Type} `{TimeText Time}.
Context (encodeCE : Event Time → string → option Z → option (list (string * json))).
Context (decodeCE : json → option (Event Time * string * option json)).
Context {L : Type} `{SL : StreamLog (Ev := Event Time) L}.
Context (n : acceptor (Time := Time)) (d : dialer).

(** ** The system *)

(** [s_hist] is every append so far, [s_out] what the dialer published on its
    bus, [s_gaps] the invalidations it published, and [s_skipped] the entries
    the writer passed without a frame, with the link it was. *)
Record net := mkNet {
  s_log : L;
  s_link : option link;
  s_wire : list json;
  s_peer : peerState;
  s_hist : list (LogEntry (Event Time));
  s_out : list (Z * Event Time);
  s_gaps : list gapInfo;
  s_skipped : list (Z * link);
}.

Inductive action :=
| AAppend (e : LogEntry (Event Time))
| ATurn
| ATick
| ACtl (m : ctlRequest + ctlError)
| ARead
| ADown
| AConnect (id : Z) (addr : string).

Definition net_append (e : LogEntry (Event Time)) (s : net) : net :=
  let '(off, log) := Append e (s_log s) in
  mkNet log (s_link s) (s_wire s) (s_peer s) (s_hist s ++ [with_offset off e]) (s_out s) (s_gaps s) (s_skipped s).

(** The writer wrote [fs] and left the link as [l]. *)
Definition net_wrote (fs : list json) (l : link) (skipped : list (Z * link)) (s : net) : net :=
  mkNet (s_log s) (Some l) (s_wire s ++ fs) (s_peer s) (s_hist s) (s_out s) (s_gaps s) (s_skipped s ++ skipped).

Definition net_down (s : net) : net :=
  mkNet (s_log s) None [] (s_peer s) (s_hist s) (s_out s) (s_gaps s) (s_skipped s).

Definition net_read (fs : list json) (r : received_frame (Time := Time)) (ps : peerState) (s : net) : net :=
  match r with
  | RProtocol _ => net_down s
  | RDeliver off _ e =>
      mkNet (s_log s) (s_link s) fs ps (s_hist s) (s_out s ++ [(off, e)]) (s_gaps s) (s_skipped s)
  | RInvalidate g =>
      mkNet (s_log s) (s_link s) fs ps (s_hist s) (s_out s) (s_gaps s ++ [g]) (s_skipped s)
  | _ => mkNet (s_log s) (s_link s) fs ps (s_hist s) (s_out s) (s_gaps s) (s_skipped s)
  end.

Definition net_connect (id : Z) (addr : string) (s : net) : net :=
  match Handler n (s_log s) id addr (dial_frame d (s_peer s)) with
  | ALink l (Some ack) =>
      match connect d ack (s_peer s) with
      | (Ok (stream, _, gap), ps) =>
          mkNet (s_log s) (if stream then Some l else None) [] ps (s_hist s) (s_out s)
                (s_gaps s ++ option_list gap) (s_skipped s)
      | (Err _, _) => s
      end
  | _ => s
  end.

Definition net_do (a : action) (s : net) : net :=
  match a, s_link s with
  | AAppend e, _ => net_append e s
  | ATurn, Some l =>
      match drain_turn encodeCE n (s_log s) l with
      | Some (fs, l', skipped) => net_wrote fs l' ((λ e, (Offset e, l)) <$> skipped) s
      | None => s
      end
  | ATick, Some l => let '(fs, l') := heartbeatTick (s_log s) l in net_wrote fs l' [] s
  | ACtl m, Some l => let '(f, l') := handleCtl n m l in net_wrote [f] l' [] s
  | ARead, Some l =>
      match s_wire s with
      | f :: fs => let '(r, ps) := read_frame decodeCE d (l_acks l) (a_originID n) f (s_peer s) in net_read fs r ps s
      | [] => s
      end
  | ADown, _ => net_down s
  | AConnect id addr, None => net_connect id addr s
  | _, _ => s
  end.

Definition net_run (acts : list action) (s : net) : net := foldl (λ s a, net_do a s) s acts.

(** A dialer that holds a position of this stream, before it connects. *)
Definition net_start (log : L) (hist : list (LogEntry (Event Time))) (ps : peerState) : net :=
  mkNet log None [] ps hist [] [] [].

(** ** What an entry's offset can expect *)

Definition entry_at (h : list (LogEntry (Event Time))) (o : Z) : option (LogEntry (Event Time)) :=
  if 1 <=? o then h !! Z.to_nat (o - 1) else None.

(** The dialer ignores its own events and the adapter's own topics. *)
Definition drops (e : LogEntry (Event Time)) : bool :=
  String.eqb (Origin e) (d_originID d) || isReservedTopic (ev_Topic (le_Event e)).

(** A link whose filters refuse the entry. *)
Definition unsent (e : LogEntry (Event Time)) (l : link) : Prop :=
  ∀ log : L, (send encodeCE n log e l).1 = None.

Definition excused (h : list (LogEntry (Event Time))) (sk : list (Z * link)) (o : Z) : Prop :=
  ∃ e, entry_at h o = Some e ∧ ((∃ l, (o, l) ∈ sk ∧ unsent e l) ∨ drops e = true).

Definition covered (gaps : list gapInfo) (o : Z) : Prop := ∃ g, g ∈ gaps ∧ g_After g < o ≤ g_Head g.

Definition accounted (s : net) (o : Z) : Prop :=
  ∃ e, entry_at (s_hist s) o = Some e ∧
    ((o, le_Event e) ∈ s_out s ∨ covered (s_gaps s) o ∨ (∃ l, (o, l) ∈ s_skipped s ∧ unsent e l) ∨ drops e = true).

(** ** Frames in flight *)

Section Flight.
Context (id : string) (h : list (LogEntry (Event Time))) (sk : list (Z * link)) (old : Z).

(** [carries p f q]: the frame takes a dialer at [p] to [q], and what it passes
    over is excused. *)
Inductive carries (p : Z) : json → Z → Prop :=
| carries_event e off ms :
    entry_at h off = Some e → encodeKitFrame (le_Event e) (Origin e) (Some off) = Some ms →
    p < off ≤ Z.of_nat (length h) → (∀ o, p < o < off → excused h sk o) → drops e = false →
    carries p (JObj ms) off
| carries_dropped e off ms :
    encodeKitFrame (le_Event e) (Origin e) (Some off) = Some ms → 0 ≤ off ≤ Z.of_nat (length h) →
    drops e = true → carries p (JObj ms) p
| carries_reset r :
    rs_Stream r = id → rs_Reason r ≠ "" → p ≤ rs_After r ≤ rs_Head r → rs_Head r ≤ Z.of_nat (length h) →
    (∀ o, p < o ≤ rs_After r → excused h sk o) →
    (rs_Reason r = ReasonUpstream ∧ rs_Head r = rs_After r + 1 ∨ rs_After r + 1 < old) →
    carries p (JObj (reset_frame r)) (rs_Head r)
| carries_position q :
    p ≤ q ≤ Z.of_nat (length h) → (∀ o, p < o ≤ q → excused h sk o) →
    carries p (JObj (position_frame (mkPosition id q))) q
| carries_ack i at_ : 0 ≤ at_ < 2 ^ 64 → carries p (JObj (ack_reply i at_)) p
| carries_error e : carries p (JObj (errorFrame e "")) p.

Inductive flight : Z → list json → Z → Prop :=
| flight_nil p a : p ≤ a → (∀ o, p < o ≤ a → excused h sk o) → flight p [] a
| flight_cons p f q fs a : carries p f q → flight q fs a → flight p (f :: fs) a.

Lemma carries_le p f q : carries p f q → p ≤ q.
Proof. destruct 1; lia. Qed.

Lemma flight_le p fs a : flight p fs a → p ≤ a.
Proof. induction 1 as [|p f q fs a Hc _ IH]; [lia|]. apply carries_le in Hc. lia. Qed.

Lemma flight_pass p fs a a' :
  flight p fs a → a ≤ a' → (∀ o, a < o ≤ a' → excused h sk o) → flight p fs a'.
Proof.
  induction 1 as [p a Hle He|p f q fs a Hc _ IH]; intros Ha Hp; [|econstructor; [done|by apply IH]].
  constructor; [lia|]. intros o Ho. destruct (decide (o ≤ a)); [apply He; lia|apply Hp; lia].
Qed.

Lemma flight_snoc p fs f a a' :
  flight p fs a →
  (∀ q, q ≤ a → (∀ o, q < o ≤ a → excused h sk o) → ∃ q', carries q f q' ∧ flight q' [] a') →
  flight p (fs ++ [f]) a'.
Proof.
  induction 1 as [p a Hle He|p g q fs a Hc _ IH]; intros Hf; cbn.
  - destruct (Hf p Hle He) as (q' & Hq & Hn). by econstructor.
  - econstructor; [done|by apply IH].
Qed.

End Flight.

Lemma entry_at_prefix h h' o e : h `prefix_of` h' → entry_at h o = Some e → entry_at h' o = Some e.
Proof. unfold entry_at. destruct (1 <=? o); [|done]. intros Hp He. by eapply prefix_lookup_Some. Qed.

Lemma entry_at_exists h o : 1 ≤ o ≤ Z.of_nat (length h) → ∃ e, entry_at h o = Some e.
Proof.
  intros Ho. unfold entry_at. rewrite (proj2 (Z.leb_le _ _)) by lia.
  destruct (lookup_lt_is_Some_2 h (Z.to_nat (o - 1))) as [e He]; [lia|eauto].
Qed.

Lemma excused_mono h h' sk sk' o : h `prefix_of` h' → sk ⊆ sk' → excused h sk o → excused h' sk' o.
Proof.
  intros Hp Hs (e & He & Hx). exists e. split; [by eapply entry_at_prefix|]. destruct Hx as [(l & Hl & Hu)|]; [|by right].
  left. exists l. split; [by apply Hs|done].
Qed.

Lemma carries_mono id h h' sk sk' old old' p f q :
  h `prefix_of` h' → sk ⊆ sk' → old ≤ old' → carries id h sk old p f q → carries id h' sk' old' p f q.
Proof.
  intros Hp Hs Ho Hc. pose proof (prefix_length _ _ Hp) as Hl.
  assert (Hm : ∀ o, excused h sk o → excused h' sk' o) by (intros; by eapply excused_mono).
  destruct Hc.
  - eapply carries_event; eauto using entry_at_prefix; lia.
  - eapply carries_dropped; eauto; lia.
  - apply carries_reset; auto; try lia. naive_solver lia.
  - apply carries_position; auto; lia.
  - by apply carries_ack.
  - by apply carries_error.
Qed.

Lemma flight_mono id h h' sk sk' old old' p fs a :
  h `prefix_of` h' → sk ⊆ sk' → old ≤ old' → flight id h sk old p fs a → flight id h' sk' old' p fs a.
Proof.
  intros Hp Hs Ho. induction 1 as [p a Hle He|p f q fs a Hc _ IH].
  - constructor; [done|]. intros o Ho'. eapply excused_mono; eauto.
  - econstructor; [by eapply carries_mono|done].
Qed.

(** ** The reader on a frame in flight *)

(** What a frame does to a dialer at [p] that moves to [q]. *)
Definition read_effect (id : string) h sk (old p q : Z) (r : received_frame (Time := Time)) : Prop :=
  match r with
  | RProtocol _ => False
  | RDeliver off _ ev =>
      off = q ∧ p < q ∧ (∃ e, entry_at h off = Some e ∧ le_Event e = ev) ∧ ∀ o, p < o < q → excused h sk o
  | RInvalidate g =>
      g_Stream g = id ∧ g_Head g = q ∧ p ≤ g_After g ≤ q ∧ (∀ o, p < o ≤ g_After g → excused h sk o) ∧
      (g_Reason g = ReasonUpstream ∧ g_Head g = g_After g + 1 ∨ g_After g + 1 < old)
  | _ => ∀ o, p < o ≤ q → excused h sk o
  end.

Lemma read_event_frame acks peer e off ms ps :
  encodeKitFrame (le_Event e) (Origin e) (Some off) = Some ms → 0 ≤ off < 2 ^ 64 →
  read_frame decodeCE d acks peer (JObj ms) ps =
  if drops e then (RSkip, ps)
  else let '(deliver, c) := advance off (ps_cursor ps) in
       if deliver then (RDeliver off (if String.eqb (Origin e) "" then (if String.eqb peer "" then d_originID d else peer)
                                      else Origin e) (le_Event e), set_ps_cursor c ps)
       else (RSkip, ps).
Proof.
  intros E Ho. destruct (kit_frame_members _ _ _ _ E Ho) as (H1 & H2 & H3 & H4).
  unfold read_frame, onEvent, decodeEventFrame, classifyFrame. rewrite H1, H2, H4, H3. cbn [negb parseOffsetToken].
  rewrite parse_format by done. done.
Qed.

Lemma read_reset_frame acks peer r ps :
  validStreamID (rs_Stream r) = true → rs_Reason r ≠ "" → 0 ≤ rs_After r ≤ rs_Head r → rs_Head r < 2 ^ 64 →
  Stream (ps_cursor ps) = rs_Stream r → d_Offset (ps_cursor ps) ≤ rs_Head r →
  read_frame decodeCE d acks peer (JObj (reset_frame r)) ps =
  (RInvalidate (mkGap (rs_Reason r) (rs_Stream r) (rs_After r) (rs_Head r)),
   set_ps_cursor (mkDialer (rs_Stream r) (rs_Head r) (Held (ps_cursor ps))) ps).
Proof.
  intros Hv Hr Ha Hh Hs Hp. unfold read_frame.
  change (classifyFrame (JObj (reset_frame r)) true) with (FrameControl, reset_frame r). unfold onControl.
  rewrite dialer_reads_reset by (done || lia). cbn. rewrite andb_false_r. unfold onReset.
  rewrite Hs, String.eqb_refl. cbn. by rewrite !(proj2 (Z.ltb_ge _ _)) by lia.
Qed.

Lemma read_position_frame acks peer id q ps :
  validStreamID id = true → Stream (ps_cursor ps) = id → d_Offset (ps_cursor ps) ≤ q → 0 ≤ q < 2 ^ 64 →
  ∃ c, read_frame decodeCE d acks peer (JObj (position_frame (mkPosition id q))) ps = (RSkip, set_ps_cursor c ps) ∧
       Stream c = id ∧ d_Offset c = q ∧ Held c = Held (ps_cursor ps).
Proof.
  intros Hv Hs Hp Hq. unfold read_frame.
  change (classifyFrame (JObj (position_frame (mkPosition id q))) true) with (FrameControl, position_frame (mkPosition id q)). unfold onControl.
  rewrite dialer_reads_position by done. cbn. rewrite andb_false_r. unfold onPosition. cbn.
  rewrite Hs, String.eqb_refl. cbn. destruct (Z.ltb_spec (d_Offset (ps_cursor ps)) q); eexists; (split; [done|]); cbn; [done|].
  split_and!; [done|lia|done].
Qed.

Lemma read_ack_frame acks peer i a ps :
  0 ≤ a < 2 ^ 64 → read_frame decodeCE d acks peer (JObj (ack_reply i a)) ps = (RReply (DAck i a), ps).
Proof.
  intros Ha. unfold read_frame. change (classifyFrame (JObj (ack_reply i a)) true) with (FrameControl, ack_reply i a).
  unfold onControl. rewrite dialer_reads_ack by done. cbn. by rewrite andb_false_r.
Qed.

Lemma read_error_frame acks peer e ps :
  ∃ r, read_frame decodeCE d acks peer (JObj (errorFrame e "")) ps = (r, ps) ∧ (r = RSkip ∨ ∃ c, r = RReply c).
Proof.
  assert (Hc : classifyFrame (JObj (errorFrame e "")) true = (FrameControl, errorFrame e "")).
  { unfold errorFrame. by destruct (String.eqb _ _). }
  assert (Ht : default "" (memberString (errorFrame e "") "type") = "error").
  { unfold errorFrame, memberString. by destruct (String.eqb _ _). }
  unfold read_frame. rewrite Hc. unfold onControl. rewrite Ht, andb_false_r.
  destruct (decide (ce_Code e = "")) as [He|He]; [|rewrite dialer_reads_error by done; eauto].
  assert (Hd : dialerControl (errorFrame e "") = Ok DIgnore).
  { unfold dialerControl. rewrite Ht. cbn. unfold errorFrame, memberString. rewrite He. by destruct (String.eqb _ _). }
  rewrite Hd. eauto.
Qed.

Lemma read_carries id h sk old p f q acks peer ps :
  validStreamID id = true → Z.of_nat (length h) < 2 ^ 64 → 0 ≤ p →
  carries id h sk old p f q → Stream (ps_cursor ps) = id → d_Offset (ps_cursor ps) = p →
  ∃ r c, read_frame decodeCE d acks peer f ps = (r, set_ps_cursor c ps) ∧
    Stream c = id ∧ d_Offset c = q ∧ Held c = Held (ps_cursor ps) ∧ read_effect id h sk old p q r.
Proof.
  intros Hv Hl Hp Hc Hs Hd.
  assert (Hid : ps = set_ps_cursor (ps_cursor ps) ps) by by destruct ps.
  destruct Hc as [e off ms He Hf Hoff Hex Hdr|e off ms Hf Hoff Hdr|r Hst Hr Ha Hh Hex Hg|q Hq Hex|i a Ha|e].
  - rewrite (read_event_frame _ _ e off ms) by (done || lia). rewrite Hdr. unfold advance.
    rewrite (proj2 (Z.leb_gt _ _)) by lia. eexists _, _. split; [done|]. cbn. split_and!; [done|done|done|done|lia|by eauto|done].
  - rewrite (read_event_frame _ _ e off ms) by (done || lia). rewrite Hdr.
    eexists _, (ps_cursor ps). rewrite <-Hid. split; [done|]. split_and!; [done..|]. intros o Ho. lia.
  - rewrite read_reset_frame by (done || lia || congruence). rewrite Hst. eexists _, _. split; [done|]. cbn. split_and!; try done; lia.
  - destruct (read_position_frame acks peer id q ps) as (c & -> & ? & ? & ?); [done|done|lia|lia|]. eauto 10.
  - rewrite read_ack_frame by done. eexists _, (ps_cursor ps). rewrite <-Hid. split; [done|].
    split_and!; [done..|]. intros o Ho. lia.
  - destruct (read_error_frame acks peer e ps) as (r & -> & Hr). exists r, (ps_cursor ps). rewrite <-Hid. split; [done|].
    split_and!; [done..|]. destruct Hr as [->|[c ->]]; intros o Ho; lia.
Qed.

(** ** The writer keeps the flight *)

(** A link the writer has moved on since [l0]. *)
Definition moved (l0 l : link) : Prop :=
  ∃ c k b, l = mkLink (l_id l0) (l_stream l0) (l_acks l0) (l_format l0) (l_peer l0) (l_learned l0) c (l_subs l0) k b.

Lemma moved_refl l : moved l l.
Proof. destruct l. by eexists _, _, _. Qed.

Lemma moved_sent k l0 l : moved l0 l → moved l0 (sent_at k l).
Proof. intros (c & k' & b & ->). by eexists _, _, _. Qed.

Lemma moved_cursor k l0 l : moved l0 l → moved l0 (set_cursor k l).
Proof. intros (c & k' & b & ->). by eexists _, _, _. Qed.

Lemma moved_wrote b l0 l : moved l0 l → moved l0 (set_wrote b l).
Proof. intros (c & k' & b' & ->). by eexists _, _, _. Qed.

Lemma send_moved log e l0 l : moved l0 l → (send encodeCE n log e l).1 = (send encodeCE n log e l0).1.
Proof.
  intros (c & k & b & ->). unfold send. cbn. unfold peerOrigin. cbn.
  repeat (case_match; try done).
Qed.

Lemma unsent_moved e l0 l : moved l0 l → unsent e l ↔ unsent e l0.
Proof. intros Hm. unfold unsent. by setoid_rewrite (λ lg, send_moved lg e l0 l Hm). Qed.

Lemma send_none log e l : (send encodeCE n log e l).1 = None → unsent e l ∧ (send encodeCE n log e l).2 = l.
Proof.
  unfold unsent, send. repeat case_match; cbn; done.
Qed.

Lemma send_some log e l f :
  l_stream l = true → l_format l = FrameKit → (send encodeCE n log e l).1 = Some f →
  (send encodeCE n log e l).2 = sent_at (Offset e) l ∧
  (f = reset_of log ReasonUpstream (uint64 (Offset e - 1)) (Offset e) ∨
   ∃ ms, encodeKitFrame (le_Event e) (Origin e) (Some (Offset e)) = Some ms ∧ f = JObj ms).
Proof.
  intros Hs Hf. unfold send. rewrite Hs, Hf. cbn [negb encodeFrameOffset].
  repeat case_match; cbn; try done; intros [= <-]; eauto.
Qed.

Lemma send_all_cursor log es : ∀ l fs l', send_all encodeCE n log es l = (fs, l') → l_cursor l' = l_cursor l.
Proof.
  induction es as [|e es IH]; intros l fs l' E; cbn in E; [by injection E as <- <-|].
  destruct (send encodeCE n log e l) as [f l1] eqn:E1. destruct (send_all encodeCE n log es l1) as [fs2 l2] eqn:E2.
  injection E as <- <-. rewrite (IH _ _ _ E2). apply (f_equal snd) in E1. cbn in E1. subst l1.
  unfold send. repeat case_match; done.
Qed.

Section Writer.
Context (log : L) (h : list (LogEntry (Event Time))) (sk : list (Z * link)) (old : Z).
Context (Hbound : Z.of_nat (length h) < 2 ^ 64).

(** One entry: its frame, or the record that it was skipped. *)
Lemma send_flight e l0 l p fs a :
  moved l0 l → l_stream l0 = true → l_format l0 = FrameKit →
  Offset e = a + 1 → entry_at h (a + 1) = Some e → 0 ≤ a → a + 1 ≤ Z.of_nat (length h) →
  (unsent e l0 → (a + 1, l0) ∈ sk) →
  flight (ID log) h sk old p fs a →
  flight (ID log) h sk old p (fs ++ option_list (send encodeCE n log e l).1) (a + 1) ∧
  moved l0 (send encodeCE n log e l).2.
Proof.
  intros Hm Hs Hf Hoff He Ha Hlen Hsk Hfl.
  assert (l_stream l = true ∧ l_format l = FrameKit) as [Hls Hlf] by (destruct Hm as (? & ? & ? & ->); done).
  destruct (send encodeCE n log e l).1 as [f|] eqn:E.
  - destruct (send_some log e l f Hls Hlf E) as [-> Hfr]. split.
    2:{ by apply moved_sent. }
    apply (flight_snoc _ _ _ _ _ _ _ a); [done|]. intros q Hq Hex.
    destruct Hfr as [->|(ms & Hms & ->)].
    + exists (a + 1). rewrite Hoff, uint64_small by lia. split; [|constructor; [lia|intros; lia]].
      refine (carries_reset _ _ _ _ q (mkReset (ID log) ReasonUpstream (a + 1 - 1) (a + 1)) _ _ _ _ _ _);
        cbn; [done|done|lia|lia| |left; split; [done|lia]]. intros o Ho. apply Hex. lia.
    + rewrite Hoff in Hms. destruct (drops e) eqn:Ed.
      * exists q. split; [eapply carries_dropped; [exact Hms|lia|done]|]. constructor; [lia|]. intros o Ho.
        destruct (decide (o = a + 1)) as [->|]; [|apply Hex; lia]. exists e. split; [done|by right].
      * exists (a + 1). split; [|constructor; [lia|intros; lia]]. eapply carries_event; [exact He|exact Hms|lia| |done].
        intros o Ho. apply Hex. lia.
  - destruct (send_none _ _ _ E) as [Hu ->]. cbn. rewrite app_nil_r. split; [|done].
    apply (flight_pass _ _ _ _ _ _ a); [done|lia|]. intros o Ho. replace o with (a + 1) by lia.
    exists e. split; [done|]. left. exists l0. assert (unsent e l0) by by apply (unsent_moved e l0 l). auto.
Qed.

Lemma send_all_flight es : ∀ l0 l p fs a fs' l',
  moved l0 l → l_stream l0 = true → l_format l0 = FrameKit →
  dense (a + 1) es → (∀ i e, es !! i = Some e → entry_at h (a + 1 + Z.of_nat i) = Some e) →
  0 ≤ a → a + Z.of_nat (length es) ≤ Z.of_nat (length h) →
  (∀ e, e ∈ es → unsent e l0 → (Offset e, l0) ∈ sk) →
  flight (ID log) h sk old p fs a → send_all encodeCE n log es l = (fs', l') →
  flight (ID log) h sk old p (fs ++ fs') (a + Z.of_nat (length es)) ∧ moved l0 l'.
Proof.
  induction es as [|e es IH]; intros l0 l p fs a fs' l' Hm Hs Hf Hd He Ha Hlen Hsk Hfl E.
  - injection E as <- <-. rewrite app_nil_r. replace (a + Z.of_nat (length (@nil (LogEntry (Event Time))))) with a by (simpl; lia). done.
  - cbn in E. apply dense_cons in Hd as [Hoff Hd]. simpl in Hlen.
    pose proof (He 0%nat e eq_refl) as He0. rewrite Z.add_0_r in He0.
    destruct (send_flight e l0 l p fs a) as [Hfl1 Hm1]; try done; try lia.
    { intros Hu. rewrite <-Hoff. apply Hsk; [by left|done]. }
    destruct (send encodeCE n log e l) as [f l1] eqn:E1. destruct (send_all encodeCE n log es l1) as [fs2 l2] eqn:E2.
    injection E as <- <-. cbn [fst snd] in *.
    destruct (IH l0 l1 p (fs ++ option_list f) (a + 1) fs2 l2) as [Hfl2 Hm2]; try done; try lia.
    { intros i x Hx. rewrite <-(He (S i) x Hx). f_equal. lia. }
    { intros x Hx. apply Hsk. by right. }
    rewrite app_assoc. split; [|done]. by replace (a + Z.of_nat (length (e :: es))) with (a + 1 + Z.of_nat (length es)) by (simpl; lia).
Qed.

End Writer.

(** ** Connecting *)

(** Two adapters that can make a stream link: the acceptor's bus has a publish
    hook and sends kit frames with a heartbeat in range; the dialer has a
    token, advertises streams and a session its peer can read. *)
Record conforming (id : string) (subs0 : subState) : Prop := {
  cf_ordered : a_ordered n = true;
  cf_format : a_frames n = FrameKit;
  cf_heartbeat : minHeartbeatMs ≤ a_heartbeat n ≤ maxHeartbeatMs;
  cf_token : d_token d ≠ "";
  cf_caps : caps_ok (d_caps d);
  cf_streams : 1 ≤ Streams (d_caps d);
  cf_stream : 1 ≤ Acks (d_caps d) → validStreamID (d_streamID d) = true;
  cf_id : validStreamID id = true;
  cf_patterns : first_invalid (sortedPatterns subs0) = None;
  cf_scope : sScope subs0 ≠ Some None;
}.

Lemma session_conforms id subs0 ps :
  conforming id subs0 → ps_subs ps = subs0 → Stream (ps_cursor ps) = id → 0 ≤ d_Offset (ps_cursor ps) < 2 ^ 64 →
  session_ok (dial_session ps).
Proof.
  intros Hc Hs Hst Hp. unfold dial_session. rewrite Hs. split; [|split].
  - cbn. intros pats. destruct (Implicit_ subs0); [done|]. intros [= <-]. apply Hc.
  - apply Hc.
  - cbn. unfold request. intros r. destruct (Held (ps_cursor ps)); [|done]. intros [= <-]. cbn. rewrite Hst. split; [apply Hc|done].
Qed.

(** The capabilities in the ack. *)
Definition ack_caps (acks : bool) : streamCaps := mkCaps StreamsVersion knownFrames (if acks then AcksVersion else 0).

Lemma ack_caps_ok acks : caps_ok (ack_caps acks).
Proof. unfold ack_caps, StreamsVersion, AcksVersion. split_and!; cbn; destruct acks; lia || done. Qed.

(** A link the acceptor grants to a conforming dialer. *)
Lemma Handler_link id subs0 log lid addr ps l ack :
  conforming id subs0 → log_ok log → ID log = id → ps_subs ps = subs0 → Stream (ps_cursor ps) = id →
  0 ≤ d_Offset (ps_cursor ps) < 2 ^ 64 →
  Handler n log lid addr (dial_frame d ps) = ALink l (Some ack) →
  let '(outcome, cursor) := decideResume id (Oldest log) (Head log) (request (ps_cursor ps)) in
  l_stream l = true ∧ l_format l = FrameKit ∧ at_ (l_cursor l) = cursor ∧
  ∃ acks, ack = encodeAck true (ack_caps acks) (a_originID n) (Some (mkInfo id (Oldest log) (Head log) (a_heartbeat n))) outcome.
Proof.
  intros Hc Hok Hid Hs Hst Hp. unfold Handler. destruct (a_auth n) as [verify|].
  2:{ unfold grant. repeat case_match; done. }
  unfold dial_frame. rewrite auth_frame_parses; [|apply Hc..|].
  2:{ intros q [= <-]. by eapply session_conforms. }
  rewrite bool_decide_eq_false_2 by done. cbn [au_Token]. destruct (verify (d_token d)); [|done]. cbn [negb].
  unfold grant. cbn [au_Caps au_Session has_caps]. unfold negotiate. cbn [Streams acceptor_caps].
  rewrite (cf_ordered _ _ Hc), (cf_format _ _ Hc). unfold StreamsVersion.
  pose proof (cf_streams _ _ Hc). replace (Z.min 1 (Streams (d_caps d))) with 1 by lia. cbn [negb orb].
  replace (if decodes (d_caps d) FrameKit then (1, FrameKit) else (1, FrameKit)) with (1, FrameKit) by by destruct (decodes _ _).
  cbn [Z.leb Z.compare Pos.compare Pos.compare_cont se_Subscribe dial_session se_Resume].
  rewrite Hid. destruct (decideResume id (Oldest log) (Head log) (request (ps_cursor ps))) as [outcome cursor].
  set (acks := negotiateAcks _ _ _). set (subs := match _ with Some ps => withPatterns ps newSubState | None => _ end).
  assert (Hr : ∀ code, refuseOrClose true code ≠ ALink l (Some ack)) by done.
  match goal with |- (if ?c then _ else _) = _ → _ => destruct c end; [by intros ?%Hr|].
  match goal with |- (if ?c then _ else _) = _ → _ => destruct c end; [by intros ?%Hr|].
  intros [= <- <-]. split_and!; [done..|]. by exists acks.
Qed.

Lemma decideResume_ok id oldest head r outcome cursor :
  1 ≤ oldest ≤ head + 1 → 0 ≤ head < 2 ^ 64 - 1 → (∀ q, r = Some q → 0 ≤ rq_After q < 2 ^ 64) →
  decideResume id oldest head r = (outcome, cursor) → ∀ o, outcome = Some o → outcome_ok o.
Proof.
  intros Ho Hh Hr. unfold decideResume. destruct r as [q|]; [|by intros [= <- <-]].
  specialize (Hr q eq_refl). intros E o ->. unfold outcome_ok.
  repeat case_match; injection E as <- <-; cbn; (split; [|lia]); by (left + right).
Qed.

Lemma checkAck_linkUp a sent reconnect c r c' : dialer_linkUp a sent reconnect c = (Ok r, c') → checkAck a sent = None.
Proof. unfold dialer_linkUp. by destruct (checkAck a sent). Qed.

Lemma connect_conforms id subs0 log ps acks outcome cursor :
  conforming id subs0 → log_ok log → ps_subs ps = subs0 →
  Stream (ps_cursor ps) = id → Held (ps_cursor ps) = true → 0 ≤ d_Offset (ps_cursor ps) ≤ Head log →
  decideResume id (Oldest log) (Head log) (request (ps_cursor ps)) = (outcome, cursor) →
  ∃ status gap c,
    connect d (encodeAck true (ack_caps acks) (a_originID n) (Some (mkInfo id (Oldest log) (Head log) (a_heartbeat n))) outcome) ps =
      (Ok (true, status, gap), mkPeerState c subs0 true) ∧
    Stream c = id ∧ Held c = true ∧ cursor = d_Offset c ∧
    (gap = None ∧ d_Offset c = d_Offset (ps_cursor ps) ∨
     (∃ reason, gap = Some (mkGap reason id (d_Offset (ps_cursor ps)) (Head log))) ∧ d_Offset c = Head log ∧
       d_Offset (ps_cursor ps) + 1 < Oldest log).
Proof.
  intros Hc Hok Hs Hst Hh Hp Hd. pose proof (log_bounds log Hok) as Hb.
  destruct (resume_handshake_cases id (Oldest log) (Head log) (a_heartbeat n) (ack_caps acks) (a_originID n)
    (ps_connected ps) (ps_cursor ps)) as (status & gap & c & E & Hcs & Hch & Hin & Hout); [lia|lia|done|].
  unfold resume_handshake in E. rewrite Hd in E. injection E as E Hcur.
  exists status, gap, c. split.
  - unfold connect. rewrite ack_parses; [|apply ack_caps_ok|apply Hc|done| |].
    + cbn [dial_session se_Resume ak_Kind ak_Caps ak_Stream]. rewrite (checkAck_linkUp _ _ _ _ _ _ E).
      unfold negotiate. cbn [Streams ack_caps]. pose proof (cf_streams _ _ Hc).
      unfold StreamsVersion. replace (Z.min (Streams (d_caps d)) 1) with 1 by lia.
      destruct (_ || _); cbn -[dialer_linkUp]; by rewrite E, Hs.
    + split_and!; cbn; [apply Hc|lia..|apply Hc|apply Hc].
    + eapply decideResume_ok; [| | |exact Hd]; [lia|lia|]. unfold request. rewrite Hh. intros q [= <-]. cbn. lia.
  - split_and!; [done..|]. destruct (decide (Oldest log - 1 ≤ d_Offset (ps_cursor ps))).
    + left. destruct Hin as (_ & ? & ?); [split; [done|lia]|done].
    + right. destruct Hout as (_ & ? & reason & _ & Hg); [lia|]. split_and!; [by exists reason|done|lia].
Qed.

(** ** The invariant *)

Record net_inv (id : string) (subs0 : subState) (base : Z) (s : net) : Prop := {
  ni_log : holds (s_log s) (s_hist s);
  ni_id : ID (s_log s) = id;
  ni_stream : Stream (ps_cursor (s_peer s)) = id;
  ni_held : Held (ps_cursor (s_peer s)) = true;
  ni_subs : ps_subs (s_peer s) = subs0;
  ni_pos : 0 ≤ base ≤ d_Offset (ps_cursor (s_peer s));
  ni_wire : match s_link s with
            | Some l => l_stream l = true ∧ l_format l = FrameKit ∧ at_ (l_cursor l) ≤ Head (s_log s) ∧
                        flight id (s_hist s) (s_skipped s) (Oldest (s_log s))
                               (d_Offset (ps_cursor (s_peer s))) (s_wire s) (at_ (l_cursor l))
            | None => s_wire s = [] ∧ d_Offset (ps_cursor (s_peer s)) ≤ Head (s_log s)
            end;
  ni_sorted : StronglySorted Z.lt (s_out s).*1;
  ni_out : ∀ o ev, (o, ev) ∈ s_out s → base < o ≤ d_Offset (ps_cursor (s_peer s)) ∧
             ∃ e, entry_at (s_hist s) o = Some e ∧ le_Event e = ev;
  ni_gaps : ∀ g, g ∈ s_gaps s → g_Stream g = id ∧
             (g_Reason g = ReasonUpstream ∧ g_Head g = g_After g + 1 ∨ g_After g + 1 < Oldest (s_log s));
  ni_acc : ∀ o, base < o ≤ d_Offset (ps_cursor (s_peer s)) → accounted s o;
}.

Lemma ni_pos_head id subs0 base s : net_inv id subs0 base s → d_Offset (ps_cursor (s_peer s)) ≤ Head (s_log s).
Proof.
  intros I. pose proof (ni_wire _ _ _ _ I) as Hw. destruct (s_link s); [|tauto].
  destruct Hw as (_ & _ & ? & Hf). apply flight_le in Hf. lia.
Qed.

Lemma ni_hist_bound id subs0 base s : net_inv id subs0 base s → Z.of_nat (length (s_hist s)) < 2 ^ 64 - 1.
Proof. intros I. destruct (ni_log _ _ _ _ I) as (Hok & <- & _). by apply log_bounds. Qed.

Lemma StronglySorted_snoc l x : StronglySorted Z.lt l → Forall (λ y, y < x) l → StronglySorted Z.lt (l ++ [x]).
Proof.
  induction 1 as [|y l Hs IH Hy]; intros Hf; cbn; [by repeat constructor|].
  apply Forall_cons in Hf as [Hyx Hf]. constructor; [by apply IH|]. apply Forall_app. split; [done|]. by constructor.
Qed.

(** ** Every action keeps it *)

Section Preserve.
Context (id : string) (subs0 : subState) (base : Z).

Abbreviation inv := (net_inv id subs0 base).

Lemma accounted_mono s s' o :
  s_hist s `prefix_of` s_hist s' → s_out s ⊆ s_out s' → s_gaps s ⊆ s_gaps s' → s_skipped s ⊆ s_skipped s' →
  accounted s o → accounted s' o.
Proof.
  intros Hh Ho Hg Hs (e & He & Hx). exists e. split; [by eapply entry_at_prefix|].
  destruct Hx as [?|[(g & ? & ?)|[(l & ? & ?)|?]]]; [auto|right; left; exists g; auto|right; right; left; exists l; auto|auto].
Qed.

Lemma excused_accounted s o : excused (s_hist s) (s_skipped s) o → accounted s o.
Proof. intros (e & He & Hx). exists e. split; [done|]. right; right. done. Qed.

Lemma inv_append e s : inv s → Head (s_log s) < 2 ^ 64 - 2 → inv (net_append e s).
Proof.
  intros I Hb. destruct (holds_append _ _ e (ni_log _ _ _ _ I) Hb) as (Hoff & Hl & Hid & Hold).
  assert (Hhd : Head (s_log s) ≤ Head (Append e (s_log s)).2).
  { destruct Hl as (_ & -> & _). destruct (ni_log _ _ _ _ I) as (_ & -> & _). rewrite length_app. lia. }
  unfold net_append. destruct (Append e (s_log s)) as [off log]. cbn [fst snd] in *. subst off.
  assert (Hp : s_hist s `prefix_of` s_hist s ++ [with_offset (Head (s_log s) + 1) e]) by by eexists.
  destruct I as [? ? ? ? ? ? Hw ? Hout Hgaps Hacc]. split; cbn; try done.
  - congruence.
  - destruct (s_link s); [|intuition lia]. destruct Hw as (? & ? & ? & ?).
    split_and!; [done..|lia|]. by eapply flight_mono.
  - intros o ev (? & x & ? & ?)%Hout. split; [done|]. exists x. split; [by eapply entry_at_prefix|done].
  - intros g [? Hg]%Hgaps. split; [done|]. destruct Hg; [by left|right; lia].
  - intros o Ho. eapply accounted_mono; [..|by apply Hacc]; done.
Qed.

Lemma inv_down s : inv s → inv (net_down s).
Proof.
  intros I. pose proof (ni_pos_head _ _ _ _ I). destruct I as [? ? ? ? ? ? Hw ? ? ? Hacc]. by split.
Qed.

Lemma inv_wrote fs l sk s :
  inv s → l_stream l = true → l_format l = FrameKit → at_ (l_cursor l) ≤ Head (s_log s) →
  flight id (s_hist s) (s_skipped s ++ sk) (Oldest (s_log s)) (d_Offset (ps_cursor (s_peer s))) (s_wire s ++ fs) (at_ (l_cursor l)) →
  inv (net_wrote fs l sk s).
Proof.
  intros I ? ? ? ?. destruct I as [? ? ? ? ? ? Hw ? ? ? Hacc]. split; cbn; try done.
  intros o Ho. eapply accounted_mono; [..|by apply Hacc]; try done. cbn. set_solver.
Qed.

(** The dialer moved to [q]; what it published is in [out] and [gaps]. *)
Lemma inv_advance s l fs ps q out gaps :
  inv s → s_link s = Some l →
  Stream (ps_cursor ps) = id → Held (ps_cursor ps) = true → d_Offset (ps_cursor ps) = q → ps_subs ps = subs0 →
  d_Offset (ps_cursor (s_peer s)) ≤ q →
  flight id (s_hist s) (s_skipped s) (Oldest (s_log s)) q fs (at_ (l_cursor l)) →
  StronglySorted Z.lt out.*1 → s_out s ⊆ out → s_gaps s ⊆ gaps →
  (∀ o ev, (o, ev) ∈ out → (o, ev) ∈ s_out s ∨ (base < o ≤ q ∧ ∃ e, entry_at (s_hist s) o = Some e ∧ le_Event e = ev)) →
  (∀ g, g ∈ gaps → g ∈ s_gaps s ∨ g_Stream g = id ∧
     (g_Reason g = ReasonUpstream ∧ g_Head g = g_After g + 1 ∨ g_After g + 1 < Oldest (s_log s))) →
  (∀ o, d_Offset (ps_cursor (s_peer s)) < o ≤ q →
     accounted (mkNet (s_log s) (s_link s) fs ps (s_hist s) out gaps (s_skipped s)) o) →
  inv (mkNet (s_log s) (s_link s) fs ps (s_hist s) out gaps (s_skipped s)).
Proof.
  intros I El Hst Hh Hq Hsu Hle Hfl Hso Hs1 Hs2 Ho Hg Ha. destruct I as [? ? ? ? ? Hpos Hw ? Hout Hgaps Hacc].
  rewrite El in Hw. destruct Hw as (? & ? & ? & _). split; cbn; rewrite ?Hq; try done.
  - lia.
  - by rewrite El.
  - intros o ev [Hin|?]%Ho; [|done]. destruct (Hout o ev Hin). split; [lia|done].
  - intros g [Hin|?]%Hg; [by apply Hgaps|done].
  - intros o Hoq. destruct (decide (o ≤ d_Offset (ps_cursor (s_peer s)))); [|apply Ha; lia].
    eapply accounted_mono; [..|apply Hacc; lia]; done.
Qed.

Lemma inv_read s l f fs acks peer r ps :
  inv s → validStreamID id = true → s_link s = Some l → s_wire s = f :: fs →
  read_frame decodeCE d acks peer f (s_peer s) = (r, ps) →
  inv (net_read fs r ps s) ∧ ∀ k, r ≠ RProtocol k.
Proof.
  intros I Hv El Ew E. pose proof (ni_hist_bound _ _ _ _ I) as Hb. pose proof (ni_wire _ _ _ _ I) as Hw.
  pose proof (ni_pos _ _ _ _ I) as Hpos. rewrite El, Ew in Hw. destruct Hw as (Hls & Hlf & Hat & Hfl).
  inversion Hfl as [|p f' q fs' a Hc Hfl']; subst p f' fs' a.
  destruct (read_carries id (s_hist s) (s_skipped s) (Oldest (s_log s)) _ f q acks peer (s_peer s)
              Hv ltac:(lia) (Z.le_trans _ _ _ (proj1 Hpos) (proj2 Hpos)) Hc (ni_stream _ _ _ _ I) eq_refl)
    as (r' & c & E' & Hcs & Hcq & Hch & Heff).
  rewrite E in E'. injection E' as <- ->. pose proof (carries_le _ _ _ _ _ _ _ Hc) as Hle.
  rewrite (ni_held _ _ _ _ I) in Hch. pose proof (ni_subs _ _ _ _ I) as Hsu.
  destruct r as [|off origin ev|g|ctl| |k]; cbn [read_effect] in Heff; (split; [|done]); try done; cbn [net_read].
  1,4,5: eapply inv_advance; eauto using ni_sorted; intros o Ho; by apply excused_accounted, Heff.
  - destruct Heff as (-> & Hlt & (e & He & <-) & Hex).
    eapply inv_advance; eauto; [|set_solver| |].
    + rewrite fmap_app. apply StronglySorted_snoc; [apply I|]. apply Forall_fmap, Forall_forall.
      intros [o ev] Ho. cbn. apply (ni_out _ _ _ _ I) in Ho as [? _]. lia.
    + intros o ev [?|[= -> ->]%list_elem_of_singleton]%elem_of_app; [by left|]. right. split; [lia|eauto].
    + intros o Ho. destruct (decide (o = q)) as [->|]; [|apply excused_accounted, Hex; lia].
      exists e. split; [done|]. left. cbn. set_solver.
  - destruct Heff as (Hgs & Hgh & Hga & Hex & Hgr).
    eapply inv_advance; eauto using ni_sorted; [set_solver| |].
    + intros g' [?|Hg%list_elem_of_singleton]%elem_of_app; [by left|subst g'; by right].
    + intros o Ho. destruct (decide (o ≤ g_After g)); [apply excused_accounted, Hex; lia|].
      destruct (ni_log _ _ _ _ I) as (_ & Hhd & _). pose proof (flight_le _ _ _ _ _ _ _ Hfl').
      destruct (entry_at_exists (s_hist s) o) as [e He]; [lia|].
      exists e. split; [done|]. right. left. exists g. split; [cbn; set_solver|lia].
Qed.

Lemma entry_at_drop h a k i e :
  0 ≤ a → take k (drop (Z.to_nat a) h) !! i = Some e → entry_at h (a + 1 + Z.of_nat i) = Some e.
Proof.
  intros Ha [He _]%lookup_take_Some. rewrite lookup_drop in He. unfold entry_at.
  rewrite (proj2 (Z.leb_le _ _)) by lia. by replace (Z.to_nat (a + 1 + Z.of_nat i - 1)) with (Z.to_nat a + i)%nat by lia.
Qed.

(** The writer fell behind the log and skips to its head. *)
Lemma inv_lagged s l l' :
  inv s → s_link s = Some l → at_ (l_cursor l) + 1 < Oldest (s_log s) →
  l_stream l' = true → l_format l' = FrameKit → at_ (l_cursor l') = Head (s_log s) →
  inv (net_wrote [reset_of (s_log s) ReasonLagged (at_ (l_cursor l)) (Head (s_log s))] l' [] s).
Proof.
  intros I El Hg Hs Hf Hc. pose proof (ni_wire _ _ _ _ I) as Hw. rewrite El in Hw.
  destruct Hw as (Hls & Hlf & Hat & Hfl). pose proof (ni_log _ _ _ _ I) as (Hok & Hhd & _).
  pose proof (log_bounds _ Hok). apply inv_wrote; [done..|lia|]. rewrite Hc, app_nil_r.
  apply (flight_snoc _ _ _ _ _ _ _ (at_ (l_cursor l))); [done|]. intros q Hq Hex.
  exists (Head (s_log s)). split; [|constructor; [lia|intros; lia]]. rewrite <-(ni_id _ _ _ _ I).
  refine (carries_reset _ _ _ _ q (mkReset (ID (s_log s)) ReasonLagged (at_ (l_cursor l)) (Head (s_log s))) _ _ _ _ _ _);
    cbn; [done|done|lia|lia|done|right; lia].
Qed.

(** The writer sends the batch after its cursor. *)
Lemma inv_sent s l es k fs l' :
  inv s → s_link s = Some l → dense (at_ (l_cursor l) + 1) es →
  es = take k (drop (Z.to_nat (at_ (l_cursor l))) (s_hist s)) →
  at_ (l_cursor l) + Z.of_nat (length es) ≤ Head (s_log s) →
  let l1 := set_cursor (at_ (l_cursor l) + Z.of_nat (length es)) l in
  send_all encodeCE n (s_log s) es l1 = (fs, l') →
  inv (net_wrote fs l' ((λ e, (Offset e, l)) <$> filter (λ e, (send encodeCE n (s_log s) e l1).1 = None) es) s).
Proof.
  intros I El Hden Hes Hmax l1 Es. pose proof (ni_hist_bound _ _ _ _ I) as Hb. pose proof (ni_log _ _ _ _ I) as (_ & Hhd & _).
  pose proof (ni_pos _ _ _ _ I) as Hpos. pose proof (ni_wire _ _ _ _ I) as Hw. rewrite El in Hw.
  destruct Hw as (Hls & Hlf & Hat & Hfl). pose proof (flight_le _ _ _ _ _ _ _ Hfl) as Hle.
  assert (Hm1 : moved l l1) by apply moved_cursor, moved_refl. set (sk := filter _ es).
  destruct (send_all_flight (s_log s) (s_hist s) (s_skipped s ++ ((λ e, (Offset e, l)) <$> sk)) (Oldest (s_log s))
    ltac:(lia) es l l1 (d_Offset (ps_cursor (s_peer s))) (s_wire s) (at_ (l_cursor l)) fs l') as [Hfl' Hm]; try done; try lia.
  - intros i x Hx. rewrite Hes in Hx. by eapply entry_at_drop; [|exact Hx]; lia.
  - intros x Hx Hu. apply elem_of_app. right. apply list_elem_of_fmap. exists x. split; [done|].
    apply list_elem_of_filter. split; [|done]. by apply (unsent_moved x l l1).
  - rewrite (ni_id _ _ _ _ I). eapply flight_mono; [..|exact Hfl]; [done|set_solver|lia].
  - pose proof (send_all_cursor _ _ _ _ _ Es) as Hc. destruct Hm as (c & k' & b & ->). cbn in Hc. subst c.
    apply inv_wrote; [done..|cbn; lia|]. cbn. rewrite <-(ni_id _ _ _ _ I). exact Hfl'.
Qed.

Lemma inv_turn s l fs l' sk :
  inv s → s_link s = Some l → drain_turn encodeCE n (s_log s) l = Some (fs, l', sk) →
  inv (net_wrote fs l' ((λ e, (Offset e, l)) <$> sk) s).
Proof.
  intros I El E. pose proof (ni_log _ _ _ _ I) as Hlog. pose proof (ni_pos _ _ _ _ I) as Hpos.
  pose proof (ni_wire _ _ _ _ I) as Hw. rewrite El in Hw. destruct Hw as (Hls & Hlf & Hat & Hfl%flight_le).
  unfold drain_turn in E. destruct (next (s_log s) writerBatch (l_cursor l)) as [[es gap] c'] eqn:En.
  apply (next_accounts (s_log s) (s_hist s)) in En; [|done|lia|unfold writerBatch; lia].
  destruct es as [|e es]; [done|]. destruct En as (Hgap & Hc' & Hes & Hden & Hmax & Hbox).
  cbn [l_stream set_cursor] in E. rewrite Hls, andb_true_r in E. destruct (Z.ltb_spec 0 gap) as [Hg|Hg].
  - injection E as <- <- <-. apply inv_lagged; [done|done|lia|done..].
  - assert (gap = 0) as -> by lia. rewrite Z.add_0_r in *. rewrite Hc' in E.
    destruct (send_all encodeCE n (s_log s) (e :: es) _) as [fs0 l0] eqn:Es. injection E as <- <- <-.
    refine (inv_sent s l (e :: es) _ fs0 l0 I El Hden Hes _ Es). lia.
Qed.

Lemma inv_tick s l : inv s → s_link s = Some l →
  inv (net_wrote (heartbeatTick (s_log s) l).1 (heartbeatTick (s_log s) l).2 [] s).
Proof.
  intros I El. pose proof (ni_wire _ _ _ _ I) as Hw. rewrite El in Hw. destruct Hw as (Hls & Hlf & Hat & Hfl).
  pose proof (ni_log _ _ _ _ I) as (_ & Hhd & _).
  unfold heartbeatTick. destruct (_ || _); cbn [fst snd]; (apply inv_wrote; [done..|]); rewrite app_nil_r; cbn; [|by rewrite app_nil_r].
  apply (flight_snoc _ _ _ _ _ _ _ (at_ (l_cursor l))); [done|]. intros q Hq Hex.
  exists (at_ (l_cursor l)). rewrite (ni_id _ _ _ _ I). split; [|constructor; [lia|intros; lia]].
  apply carries_position; [lia|done].
Qed.

Lemma inv_ctl s l m : inv s → s_link s = Some l →
  inv (net_wrote [(handleCtl n m l).1] (handleCtl n m l).2 [] s).
Proof.
  intros I El. pose proof (ni_wire _ _ _ _ I) as Hw. rewrite El in Hw. destruct Hw as (Hls & Hlf & Hat & Hfl).
  pose proof (ni_log _ _ _ _ I) as (_ & Hhd & _). pose proof (ni_hist_bound _ _ _ _ I). pose proof (ni_pos _ _ _ _ I).
  pose proof (flight_le _ _ _ _ _ _ _ Hfl).
  assert (Hm : (∃ e, (handleCtl n m l).1 = JObj (errorFrame e "")) ∨ (∃ i, (handleCtl n m l).1 = JObj (ack_reply i (at_ (l_cursor l))))).
  { unfold handleCtl. repeat case_match; cbn [fst]; eauto. }
  assert (l_stream (handleCtl n m l).2 = true ∧ l_format (handleCtl n m l).2 = FrameKit ∧ l_cursor (handleCtl n m l).2 = l_cursor l)
    as (? & ? & Hc) by (unfold handleCtl; repeat case_match; done).
  apply inv_wrote; [done..|by rewrite Hc|]. rewrite Hc, app_nil_r.
  apply (flight_snoc _ _ _ _ _ _ _ (at_ (l_cursor l))); [done|]. intros q Hq Hex. exists q.
  split; [|by constructor]. destruct Hm as [[e ->]|[i ->]]; [apply carries_error|apply carries_ack; lia].
Qed.

Lemma inv_connect lid addr s :
  conforming id subs0 → inv s → s_link s = None → inv (net_connect lid addr s).
Proof.
  intros Hc I El. pose proof (ni_log _ _ _ _ I) as (Hok & Hhd & _). pose proof (log_bounds _ Hok) as Hb.
  pose proof (ni_pos_head _ _ _ _ I) as Hph. pose proof (ni_pos _ _ _ _ I) as Hpos.
  unfold net_connect. destruct (Handler n (s_log s) lid addr (dial_frame d (s_peer s))) as [|l [ack|]] eqn:E; [done| |done].
  apply (Handler_link id subs0) in E; [|done|done|apply I..|lia].
  destruct (decideResume id _ _ _) as [outcome cursor] eqn:Ed. destruct E as (Hs & Hf & Hcur & acks & ->).
  destruct (connect_conforms id subs0 (s_log s) (s_peer s) acks outcome cursor) as (status & gap & c & -> & Hst & Hh & -> & Hg);
    [done|done|apply I..|lia|done|].
  assert (Hne : ∀ o, d_Offset (ps_cursor (s_peer s)) < o ≤ Head (s_log s) → ∃ e, entry_at (s_hist s) o = Some e)
    by (intros; apply entry_at_exists; lia).
  destruct I as [? ? ? ? ? ? ? ? Hout Hgaps Hacc]. split; cbn; try done.
  - destruct Hg as [[_ ?]|(_ & ? & _)]; lia.
  - rewrite Hcur. split_and!; [done..|destruct Hg as [[_ ?]|(_ & ? & _)]; lia|]. constructor; [lia|intros; lia].
  - intros o ev Ho. destruct (Hout o ev Ho). split; [|done]. destruct Hg as [[_ ?]|(_ & ? & _)]; lia.
  - intros g [?|Hin]%elem_of_app; [by apply Hgaps|].
    destruct Hg as [[-> _]|([reason ->] & _ & ?)]; [by apply elem_of_nil in Hin|].
    apply list_elem_of_singleton in Hin as ->. cbn. split; [done|by right].
  - intros o Ho. destruct (decide (o ≤ d_Offset (ps_cursor (s_peer s)))).
    { eapply accounted_mono; [..|apply Hacc; lia]; try done. cbn. set_solver. }
    destruct Hg as [[_ ?]|([reason ->] & ? & _)]; [lia|]. destruct (Hne o) as [e He]; [lia|].
    exists e. split; [done|]. right. left. eexists. split; [cbn; apply elem_of_app; right; by left|]. cbn. lia.
Qed.

Lemma inv_do a s : conforming id subs0 → inv s → Head (s_log s) < 2 ^ 64 - 2 → inv (net_do a s).
Proof.
  intros Hc I Hb. unfold net_do. destruct a as [e| | |m| | |lid addr].
  - by apply inv_append.
  - destruct (s_link s) as [l|] eqn:El; [|done].
    destruct (drain_turn encodeCE n (s_log s) l) as [[[fs l'] sk]|] eqn:E; [|done]. by apply inv_turn.
  - destruct (s_link s) as [l|] eqn:El; [|done]. pose proof (inv_tick s l I El). by destruct (heartbeatTick (s_log s) l).
  - destruct (s_link s) as [l|] eqn:El; [|done]. pose proof (inv_ctl s l m I El). by destruct (handleCtl n m l).
  - destruct (s_link s) as [l|] eqn:El; [|done]. destruct (s_wire s) as [|f fs] eqn:Ew; [done|].
    destruct (read_frame _ _ _ _ _ _) as [r ps] eqn:E. eapply inv_read; eauto. apply Hc.
  - by apply inv_down.
  - destruct (s_link s) eqn:El; [done|]. by apply inv_connect.
Qed.

Lemma net_do_head a s : inv s → Head (s_log s) < 2 ^ 64 - 2 → Head (s_log (net_do a s)) ≤ Head (s_log s) + 1.
Proof.
  intros I Hb. assert (Hsame : ∀ s', s_log s' = s_log s → Head (s_log s') ≤ Head (s_log s) + 1) by (intros s' ->; lia).
  unfold net_do. destruct a as [e| | |m| | |lid addr]; [|apply Hsame; unfold net_read, net_connect; by repeat case_match..].
  destruct (holds_append _ _ e (ni_log _ _ _ _ I) Hb) as (_ & (_ & Hhd & _) & _).
  destruct (ni_log _ _ _ _ I) as (_ & Hhd0 & _). unfold net_append. destruct (Append e (s_log s)) as [off log].
  cbn [s_log fst snd] in *. rewrite Hhd, length_app. simpl. lia.
Qed.

Lemma inv_run acts : ∀ s,
  conforming id subs0 → inv s → Head (s_log s) + Z.of_nat (length acts) < 2 ^ 64 - 2 →
  inv (net_run acts s) ∧ Head (s_log (net_run acts s)) ≤ Head (s_log s) + Z.of_nat (length acts).
Proof.
  induction acts as [|a acts IH]; intros s Hc I Hb; [cbn; split; [done|lia]|]. simpl in Hb.
  change (net_run (a :: acts) s) with (net_run acts (net_do a s)).
  pose proof (net_do_head a s I ltac:(lia)). destruct (IH (net_do a s)) as [? ?]; [done|apply inv_do; [done..|lia]|lia|].
  split; [done|]. simpl. lia.
Qed.

End Preserve.

(** A dialer that holds position [base] of the log's stream. *)
Definition starts (id : string) (subs0 : subState) (base : Z) (log : L) (hist : list (LogEntry (Event Time)))
    (ps : peerState) : Prop :=
  holds log hist ∧ ID log = id ∧ ps_cursor ps = mkDialer id base true ∧ ps_subs ps = subs0 ∧ 0 ≤ base ≤ Head log.

Lemma starts_inv id subs0 base log hist ps :
  starts id subs0 base log hist ps → net_inv id subs0 base (net_start log hist ps).
Proof.
  intros (Hl & Hid & Hc & Hs & Hb). split; cbn; rewrite ?Hc; cbn; try done; try lia.
  - split; [done|lia].
  - by constructor.
  - by intros o ev ?%elem_of_nil.
  - by intros g ?%elem_of_nil.
Qed.


(** C30. Conforming peers never break the protocol: no frame the acceptor
    wrote, however much of the stream was lost before it, makes the dialer
    close the link with a protocol error. *)
Theorem conforming_link_no_protocol_error id subs0 base log hist ps acts l f fs :
  conforming id subs0 → starts id subs0 base log hist ps →
  Head log + Z.of_nat (length acts) < 2 ^ 64 - 2 →
  let s := net_run acts (net_start log hist ps) in
  s_link s = Some l → s_wire s = f :: fs →
  ∀ k, (read_frame decodeCE d (l_acks l) (a_originID n) f (s_peer s)).1 ≠ RProtocol k.
Proof.
  intros Hc Hst Hb s El Ew. destruct (inv_run id subs0 base acts _ Hc (starts_inv _ _ _ _ _ _ Hst) Hb) as [I _]. fold s in I.
  destruct (read_frame _ _ _ _ _ _) as [r ps'] eqn:E.
  exact (proj2 (inv_read id subs0 base s l f fs _ _ r ps' I (cf_id _ _ Hc) El Ew E)).
Qed.

End Delivery.
