(* ===== verification/StreamProgress.v ===== *)
(** * Progress over a stream link

    The writer's drain loop reaches the head of a log that is not written
    meanwhile, and the writer, two heartbeats and the reader bring a connected
    dialer to the head of its acceptor's log. *)

From S2P Require Import Prelude Topics StreamLog StreamWire StreamHandshake StreamCursor NetworkFrame StreamLink StreamDelivery.

Local Open Scope Z_scope.

Section Progress.
Context {Time : Type} `{TimeText Time}.
Context (encodeCE : Event Time → string → option Z → option (list (string * json))).
Context (decodeCE : json → option (Event Time * string * option json)).
Context {L : Type} `{SL : StreamLog (Ev := Event Time) L}.
Context (n : acceptor (Time := Time)) (d : dialer).

(** A log with entries holds at least its last one, as the ring does. *)
Definition keeps_last (log : L) : Prop := 0 < Head log → Oldest log ≤ Head log.

Lemma drain_turn_advances log h l :
  holds log h → keeps_last log → 0 ≤ at_ (l_cursor l) ≤ Head log →
  match drain_turn encodeCE n log l with
  | None => at_ (l_cursor l) = Head log
  | Some (_, l', _) => at_ (l_cursor l) < at_ (l_cursor l') ≤ Head log
  end.
Proof.
  intros Hl Hk Hat. unfold drain_turn. destruct (next log writerBatch (l_cursor l)) as [[es gap] c'] eqn:En.
  apply (next_accounts log h) in En; [|done|lia|unfold writerBatch; lia].
  destruct es as [|e es]; [unfold keeps_last in Hk; lia|]. destruct En as (Hgap & Hc' & _ & _ & Hmax & _).
  cbn [l_stream set_cursor]. destruct (Z.ltb_spec 0 gap), (l_stream l); cbn [andb]; simpl length in *; [cbn; lia| | |];
    destruct (send_all encodeCE n log (e :: es) _) as [fs l'] eqn:Es; rewrite (send_all_cursor _ _ _ _ _ _ _ Es); cbn; lia.
Qed.

(** The writer's drain loop ends: on a log that nobody appends to
    meanwhile it needs at most one turn per entry after the cursor, plus the
    one that finds nothing, and it leaves the cursor at the head, whatever the
    link's filters let through and however much was evicted. *)
Theorem drain_terminates log h fuel l :
  holds log h → keeps_last log → 0 ≤ at_ (l_cursor l) ≤ Head log →
  (Z.to_nat (Head log - at_ (l_cursor l)) < fuel)%nat →
  ∃ fs l', drain encodeCE fuel n log l = Some (fs, l') ∧ at_ (l_cursor l') = Head log.
Proof.
  intros Hl Hk. revert l. induction fuel as [|fuel IH]; intros l Hat Hf; [lia|]. cbn [drain].
  pose proof (drain_turn_advances log h l Hl Hk Hat) as Ht.
  destruct (drain_turn encodeCE n log l) as [[[fs l'] sk]|]; [|eauto].
  destruct (IH l') as (fs' & l'' & -> & ?); [lia|lia|]. eauto.
Qed.

(** ** Catching up *)

Abbreviation do_ := (net_do encodeCE decodeCE n d).
Abbreviation run_ := (net_run encodeCE decodeCE n d).

Section Catch.
Context (id : string) (subs0 : subState) (base : Z).
Context (Hc : conforming n d id subs0).

Abbreviation inv := (net_inv encodeCE n d id subs0 base).

Lemma run_app acts acts' s : run_ (acts ++ acts') s = run_ acts' (run_ acts s).
Proof. unfold net_run. by rewrite foldl_app. Qed.

(** Turns alone bring the writer's cursor to the head. *)
Lemma turns_reach_head s l :
  inv s → Head (s_log s) < 2 ^ 64 - 2 → keeps_last (s_log s) → s_link s = Some l →
  ∃ k l', let s' := run_ (replicate k ATurn) s in
    inv s' ∧ s_log s' = s_log s ∧ s_link s' = Some l' ∧ at_ (l_cursor l') = Head (s_log s).
Proof.
  intros I Hb Hk. remember (Z.to_nat (Head (s_log s) - at_ (l_cursor l))) as m eqn:Em. revert s l I Hb Hk Em.
  induction m as [m IH] using lt_wf_ind. intros s l I Hb Hk Em El.
  pose proof (ni_wire _ _ _ _ _ _ _ I) as Hw. rewrite El in Hw. destruct Hw as (_ & _ & Hat & Hfl%flight_le).
  pose proof (ni_pos _ _ _ _ _ _ _ I). pose proof (drain_turn_advances (s_log s) _ l (ni_log _ _ _ _ _ _ _ I) Hk ltac:(lia)) as Ht.
  pose proof (inv_do encodeCE decodeCE n d id subs0 base ATurn s Hc I Hb) as I'. unfold net_do in I'. rewrite El in I'.
  destruct (drain_turn encodeCE n (s_log s) l) as [[[fs l'] sk]|] eqn:E; [|by exists O, l].
  set (s' := net_wrote _ _ _ s) in I'. destruct (IH (Z.to_nat (Head (s_log s) - at_ (l_cursor l'))) ltac:(lia) s' l')
    as (k & l'' & HI & Hlog & Hl & Ha); [done..|].
  exists (S k), l''. cbn [replicate]. change (run_ (ATurn :: ?a) s) with (run_ a (do_ ATurn s)).
  assert (Hdo : do_ ATurn s = s') by (unfold net_do; by rewrite El, E). rewrite Hdo. done.
Qed.

(** Two heartbeats put the writer's position on the wire. *)
Lemma ticks_send_position s l :
  inv s → Head (s_log s) < 2 ^ 64 - 2 → s_link s = Some l →
  ∃ ws l', let s' := run_ [ATick; ATick] s in
    inv s' ∧ s_log s' = s_log s ∧ s_link s' = Some l' ∧
    s_wire s' = ws ++ [JObj (position_frame (mkPosition id (at_ (l_cursor l))))].
Proof.
  intros I Hb El. pose proof (ni_id _ _ _ _ _ _ _ I) as Hid.
  change (run_ [ATick; ATick] s) with (do_ ATick (do_ ATick s)).
  assert (E1 : do_ ATick s = net_wrote (heartbeatTick (s_log s) l).1 (heartbeatTick (s_log s) l).2 [] s).
  { unfold net_do. rewrite El. by destruct (heartbeatTick (s_log s) l). }
  assert (I2 : inv (do_ ATick (do_ ATick s))).
  { pose proof (inv_do encodeCE decodeCE n d id subs0 base ATick s Hc I Hb) as I1.
    apply inv_do; [done..|]. rewrite E1. exact Hb. }
  assert (E2 : ∀ l', l_wroteSince l' = false → heartbeatTick (s_log s) l' =
    ([JObj (position_frame (mkPosition id (at_ (l_cursor l'))))], set_wrote false (sent_at (at_ (l_cursor l')) l'))).
  { intros l' Hw. unfold heartbeatTick. by rewrite Hw, Hid. }
  assert (Hw : l_wroteSince (heartbeatTick (s_log s) l).2 = false) by (unfold heartbeatTick; by destruct (_ || _)).
  assert (Hat : at_ (l_cursor (heartbeatTick (s_log s) l).2) = at_ (l_cursor l)) by (unfold heartbeatTick; by destruct (_ || _)).
  rewrite E1 in *. unfold net_do in *. cbn [s_link net_wrote s_log] in *. rewrite (E2 _ Hw) in *.
  eexists _, _. split; [exact I2|]. split; [done|]. split; [done|]. cbn. by rewrite Hat.
Qed.

Lemma read_keeps s l f fs :
  inv s → s_link s = Some l → s_wire s = f :: fs →
  s_link (do_ ARead s) = Some l ∧ s_wire (do_ ARead s) = fs ∧ s_log (do_ ARead s) = s_log s.
Proof.
  intros I El Ew. unfold net_do. rewrite El, Ew. destruct (read_frame _ _ _ _ _ _) as [r ps] eqn:E.
  destruct (inv_read _ decodeCE n d id subs0 base s l f fs _ _ r ps I (cf_id _ _ _ _ Hc) El Ew E) as [_ Hr].
  destruct r; cbn; [done..|]. by destruct (Hr k).
Qed.

(** Reading up to a position frame leaves the dialer there. *)
Lemma reads_reach_position ws : ∀ s l q,
  inv s → Head (s_log s) < 2 ^ 64 - 2 → s_link s = Some l →
  s_wire s = ws ++ [JObj (position_frame (mkPosition id q))] → at_ (l_cursor l) = q →
  let s' := run_ (replicate (S (length ws)) ARead) s in
  inv s' ∧ s_log s' = s_log s ∧ s_link s' = Some l ∧ d_Offset (ps_cursor (s_peer s')) = q.
Proof.
  induction ws as [|f ws IH]; intros s l q I Hb El Ew Hq.
  - cbn in Ew |- *. pose proof (inv_do encodeCE decodeCE n d id subs0 base ARead s Hc I Hb) as I'.
    destruct (read_keeps s l _ _ I El Ew) as (Hl & _ & Hlog). split_and!; [done..|].
    pose proof (ni_wire _ _ _ _ _ _ _ I) as Hw. rewrite El in Hw. destruct Hw as (_ & _ & Hat & Hfl%flight_le).
    pose proof (ni_pos _ _ _ _ _ _ _ I). destruct (read_position_frame decodeCE d (l_acks l) (a_originID n) id q (s_peer s))
      as (c & E & _ & Ho & _); [apply Hc|apply I|lia|lia|]. unfold net_do. by rewrite El, Ew, E.
  - pose proof (inv_do encodeCE decodeCE n d id subs0 base ARead s Hc I Hb) as I'.
    destruct (read_keeps s l _ _ I El Ew) as (Hl & Hw & Hlog).
    destruct (IH (do_ ARead s) l q) as (? & Hlog' & ? & ?); [done|by rewrite Hlog|done..|].
    cbn [length]. change (run_ (replicate (S (S (length ws))) ARead) s) with (run_ (replicate (S (length ws)) ARead) (do_ ARead s)).
    split_and!; [done| |done|done]. by rewrite Hlog'.
Qed.

End Catch.

(** C19. A connected dialer catches up: from every state of a run in which the
    link is up, the writer's turns, two heartbeats and the reader alone (no new
    event, no reconnect) bring the dialer's position to the head of the
    acceptor's log, even when the link's filters let nothing through. *)
Theorem connected_dialer_catches_up id subs0 base log hist ps acts l :
  conforming n d id subs0 → starts id subs0 base log hist ps →
  Head log + Z.of_nat (length acts) < 2 ^ 64 - 2 →
  let s := run_ acts (net_start log hist ps) in
  keeps_last (s_log s) → s_link s = Some l →
  ∃ turns reads, let s' := run_ (replicate turns ATurn ++ [ATick; ATick] ++ replicate reads ARead) s in
    s_log s' = s_log s ∧ d_Offset (ps_cursor (s_peer s')) = Head (s_log s).
Proof.
  intros Hc Hst Hb s Hk El.
  destruct (inv_run encodeCE decodeCE n d id subs0 base acts _ Hc (starts_inv encodeCE n d _ _ _ _ _ _ Hst) Hb) as [I Hh].
  cbn [net_start s_log] in Hh. fold s in I, Hh.
  destruct (turns_reach_head id subs0 base Hc s l I ltac:(lia) Hk El) as (k & l1 & I1 & Hlog1 & El1 & Hat1).
  destruct (ticks_send_position id subs0 base Hc _ l1 I1 ltac:(by rewrite Hlog1; lia) El1) as (ws & l2 & I2 & Hlog2 & El2 & Ew2).
  assert (Hat2 : at_ (l_cursor l2) = at_ (l_cursor l1)).
  { revert El2. change (run_ [ATick; ATick] ?x) with (do_ ATick (do_ ATick x)). unfold net_do. rewrite El1.
    destruct (heartbeatTick _ l1) as [f1 l3] eqn:E1. cbn. destruct (heartbeatTick _ l3) as [f2 l4] eqn:E2. cbn. intros [= <-].
    revert E1 E2. unfold heartbeatTick. repeat case_match; naive_solver. }
  destruct (reads_reach_position id subs0 base Hc ws _ l2 _ I2 ltac:(by rewrite Hlog2, Hlog1; lia) El2 Ew2 Hat2) as (_ & Hlog3 & _ & Ho).
  exists k, (S (length ws)). rewrite !run_app. split; [by rewrite Hlog3, Hlog2|]. by rewrite Ho.
Qed.

End Progress.

(** ** A run

    A log of three entries, a dialer at its start: five publishes evict two
    entries before the writer turns, so the dialer is told of the gap; a sixth
    event arrives, a seventh is published while the link is down and is
    replayed after the reconnect. *)

Definition run_event (t : string) : LogEntry (Event string) :=
  mkEntry 0 (mkEv "" t "src" "2024-01-02T03:04:05Z" (Some JNull) "") "hub" false 0 None.

Definition run_acceptor : acceptor (Time := string) :=
  mkAcceptor "hub" (Some (λ t, String.eqb t "tok")) true false FrameKit 1000 None None 15000.

Definition run_dialer : dialer := mkDialerCfg "edge" "tok" "stm_edge" sample_caps FrameKit.

Definition run_log : ringLog (Event string) := NewRingLog "" "stm_hub" 3.
Definition run_peer : peerState := mkPeerState (mkDialer "stm_hub" 0 true) newSubState false.

Abbreviation run_sample acts :=
  (net_run (L := ringLog (Event string)) (λ _ _ _, None) (λ _, None) run_acceptor run_dialer acts (net_start run_log [] run_peer)).

Definition run_acts : list (action (Time := string)) :=
  [AConnect 1 "peer"] ++ (AAppend ∘ run_event <$> ["a.1"; "a.2"; "a.3"; "a.4"; "a.5"]) ++
  [ATurn; AAppend (run_event "a.6"); ATurn; ARead; ARead; ADown; AAppend (run_event "a.7"); AConnect 2 "peer"; ATurn; ARead].

Lemma run_conforming : conforming run_acceptor run_dialer "stm_hub" newSubState.
Proof.
  split; done || apply sample_caps_ok.
Qed.

Lemma run_starts : starts "stm_hub" newSubState 0 run_log [] run_peer.
Proof.
  split; [apply NewRingLog_ok; lia|]. split_and!; [done..|]. change (Head run_log) with 0. lia.
Qed.


Lemma conforming_link_no_protocol_error_witness :
  match s_link (run_sample (take 7 run_acts)), s_wire (run_sample (take 7 run_acts)) with
  | Some l, f :: fs => ∀ k, (read_frame (λ _, None) run_dialer (l_acks l) "hub" f (s_peer (run_sample (take 7 run_acts)))).1 ≠ RProtocol k
  | _, _ => False
  end.
Proof.
  destruct (s_link (run_sample (take 7 run_acts))) as [l|] eqn:El; [|vm_compute in El; discriminate].
  destruct (s_wire (run_sample (take 7 run_acts))) as [|f fs] eqn:Ew; [vm_compute in Ew; discriminate|].
  exact (conforming_link_no_protocol_error (λ _ _ _, None) (λ _, None) run_acceptor run_dialer "stm_hub" newSubState 0
    run_log [] run_peer (take 7 run_acts) l f fs run_conforming run_starts ltac:(vm_compute; reflexivity) El Ew).
Defined.

Lemma connected_dialer_catches_up_witness :
  ∃ turns reads, d_Offset (ps_cursor (s_peer (net_run (λ _ _ _, None) (λ _, None) run_acceptor run_dialer
    (replicate turns ATurn ++ [ATick; ATick] ++ replicate reads ARead) (run_sample (take 6 run_acts))))) = 5.
Proof.
  destruct (s_link (run_sample (take 6 run_acts))) as [l|] eqn:El; [|vm_compute in El; discriminate].
  destruct (connected_dialer_catches_up (λ _ _ _, None) (λ _, None) run_acceptor run_dialer "stm_hub" newSubState 0
    run_log [] run_peer (take 6 run_acts) l run_conforming run_starts ltac:(vm_compute; reflexivity)
    ltac:(intros _; vm_compute; discriminate) El) as (turns & reads & _ & Ho).
  exists turns, reads. exact Ho.
Defined.

Lemma drain_terminates_witness :
  let l := mkLink 1 true false FrameKit (mkPeer "p" "" "") "" (mkCursor 0 false) newSubState 0 false in
  ∃ fs l', drain (λ _ _ _, None) 1 run_acceptor run_log l = Some (fs, l') ∧ at_ (l_cursor l') = 0.
Proof.
  refine (drain_terminates (λ _ _ _, None) run_acceptor run_log [] 1
    (mkLink 1 true false FrameKit (mkPeer "p" "" "") "" (mkCursor 0 false) newSubState 0 false)
    (NewRingLog_ok "" "stm_hub" 3 eq_refl) _ _ _).
  - intros Hp. vm_compute in Hp. discriminate.
  - change (Head run_log) with 0. cbn. lia.
  - vm_compute. lia.
Defined.
