(* ===== verification/StreamAck.v ===== *)
(** * Acknowledged publishing (go/runtime/bus/stream_ack.go, ack.go,
    network_ack.go)

    Puback frames, the dialer's [ackTracker] for one address, the acceptor's
    dedupe memory [ackSeen] and puback queue [ackQueue], and the [ackTicket]
    that follows one acknowledged publish.  An [ackResult] is shared by the
    memory and by the queues of several links, so results live in a heap and
    are referred to by their index.  Channels are modelled by what they
    signal: a result's [done] flag, the queue's free space. *)

From S2P Require Import Prelude Topics StreamLog StreamWire StreamHandshake StreamLink.

Local Open Scope Z_scope.

(** ** Puback frames *)

Definition pubackOK := "ok".
Definition pubackErr := "err".

Definition AckRejected := "rejected".
Definition AckInvalid := "invalid".
Definition AckTimeout := "timeout".
Definition AckEvicted := "evicted".
Definition AckUnavailable := "unavailable".
Definition AckUnknown := "unknown".
Definition AckFiltered := "filtered".
Definition AckUnsupported := "unsupported".

Inductive puback_kind := pkPubackMalformed | pkPubackAhead | pkPubackID.

(** Messages are not part of the protocol and are left out. *)
Record pubackInfo := mkPuback { pa_Offset : Z; pa_ID : string; pa_Status : string; pa_Code : string }.

#[export] Instance pubackInfo_eq_dec : EqDecision pubackInfo.
Proof. solve_decision. Defined.

Definition encodePuback (p : pubackInfo) : list (string * json) :=
  [("type", JStr "puback"); ("offset", JStr (formatOffset (pa_Offset p))); ("status", JStr (pa_Status p))] ++
  (if String.eqb (pa_ID p) "" then [] else [("id", JStr (pa_ID p))]) ++
  (if String.eqb (pa_Status p) pubackErr then [("code", JStr (pa_Code p))] else []).

Definition parsePuback (m : list (string * json)) : res puback_kind pubackInfo :=
  match parseOffsetToken (member m "offset"), memberString m "status" with
  | Some off, Some status =>
      if negb (String.eqb status pubackOK) && negb (String.eqb status pubackErr) then Err pkPubackMalformed
      else
        match (if isNull (member m "id") then Some "" else memberString m "id") with
        | None => Err pkPubackMalformed
        | Some id =>
            if String.eqb status pubackErr then
              match memberString m "code" with
              | Some code => if String.eqb code "" then Err pkPubackMalformed else Ok (mkPuback off id status code)
              | None => Err pkPubackMalformed
              end
            else Ok (mkPuback off id status "")
        end
  | _, _ => Err pkPubackMalformed
  end.

(** ** The dialer's tracker *)

Section Tracker.
(** A ticket, with the id of the event it follows. *)
Context {T : Type} (ticket_id : T → string).

Record ackTracker := mkTracker { acked : Z; tr_sent : Z; waits : gmap Z T }.

(** Offset, ticket and code; an empty code means acknowledged. *)
Definition ackResolution : Type := Z * T * string.

Definition newAckTracker (start : Z) : ackTracker := mkTracker start start ∅.

Definition tr_register (off : Z) (t : T) (a : ackTracker) : ackTracker :=
  match waits a !! off with
  | Some _ => a
  | None => mkTracker (acked a) (tr_sent a) (<[off := t]> (waits a))
  end.

(** The selected offsets in ascending order. *)
Definition tr_offsets (keep : Z → bool) (a : ackTracker) : list Z :=
  merge_sort Z.le (filter (λ off, keep off = true) (elements (dom (waits a)))).

Definition tr_drain (keep : Z → bool) (code : string) (a : ackTracker) : list ackResolution * ackTracker :=
  (omap (λ off, (λ t, (off, t, code)) <$> waits a !! off) (tr_offsets keep a),
   mkTracker (acked a) (tr_sent a) (filter (λ kv, keep kv.1 = false) (waits a))).

Definition tr_linkUp (acks : bool) (c : sendCursor) (a : ackTracker) : list ackResolution * ackTracker * sendCursor :=
  if acks then
    let at' := if acked a <? at_ c then acked a else at_ c in
    ([], mkTracker (acked a) at' (waits a), mkCursor at' (outbox c))
  else
    let '(rs, a') := tr_drain (λ _, true) AckUnsupported (mkTracker (at_ c) (at_ c) (waits a)) in (rs, a', c).

Definition tr_take (off : Z) (t : option T) (a : ackTracker) : option T * ackTracker :=
  (match waits a !! off with Some w => Some w | None => t end,
   mkTracker (acked a) (tr_sent a) (delete off (waits a))).

Definition onSend (off : Z) (t : option T) (acks : bool) (a : ackTracker) : option ackResolution * ackTracker :=
  if negb acks then
    let '(w, a') := tr_take off t (mkTracker off off (waits a)) in ((λ w, (off, w, AckUnsupported)) <$> w, a')
  else
    let a := mkTracker (acked a) (if tr_sent a <? off then off else tr_sent a) (waits a) in
    (None, match t with Some t => tr_register off t a | None => a end).

Definition onSkip (off : Z) (t : option T) (a : ackTracker) : option ackResolution * ackTracker :=
  let '(w, a') := tr_take off t a in ((λ w, (off, w, AckFiltered)) <$> w, a').

Definition onGap (before first : Z) (a : ackTracker) : list ackResolution * ackTracker :=
  tr_drain (λ off, (before <? off) && (off <? first)) AckEvicted a.

Definition onPuback (p : pubackInfo) (a : ackTracker) : res puback_kind (list ackResolution) * ackTracker :=
  if tr_sent a <? pa_Offset p then (Err pkPubackAhead, a)
  else if (match waits a !! pa_Offset p with
           | Some w => negb (String.eqb (pa_ID p) "") && negb (String.eqb (ticket_id w) "") &&
                       negb (String.eqb (pa_ID p) (ticket_id w))
           | None => false
           end) then (Err pkPubackID, a)
  else if pa_Offset p <=? acked a then (Ok [], a)
  else
    let code off := if (off =? pa_Offset p) && String.eqb (pa_Status p) pubackErr then pa_Code p else "" in
    (Ok (omap (λ off, (λ t, (off, t, code off)) <$> waits a !! off) (tr_offsets (λ off, off <=? pa_Offset p) a)),
     mkTracker (pa_Offset p) (tr_sent a) (filter (λ kv, (kv.1 <=? pa_Offset p) = false) (waits a))).

Definition failAll (code : string) (a : ackTracker) : list ackResolution * ackTracker := tr_drain (λ _, true) code a.

(** [resolvedFor addr] of a ticket is the caller's. *)
Definition prune (resolvedFor : T → bool) (a : ackTracker) : ackTracker :=
  mkTracker (acked a) (tr_sent a) (filter (λ kv, resolvedFor kv.2 = false) (waits a)).

End Tracker.

Arguments ackTracker : clear implicits.

(** ** The acceptor's results and dedupe memory *)

Record ackResult := mkResult { ar_done : bool; ar_p : pubackInfo }.

Definition newAckResult (off : Z) (id : string) : ackResult := mkResult false (mkPuback off id pubackOK "").
Definition completedAck (p : pubackInfo) : ackResult := mkResult true p.

(** The heap of results. *)
Abbreviation heap := (list ackResult).

Record seenPeer := mkSeenPeer { sp_key : string; sp_cred : string; sp_max : Z }.
Abbreviation seenKey := (string * string * string)%type.

Definition ackSeenStreamsPerPrincipal : Z := 64.

(** [dedupePeer] over [digest], which hashes a kind and a value. *)
Definition dedupePeer (digest : string → string → string) (principal token : string) : seenPeer :=
  let cred := digest "token" token in
  if String.eqb principal "" then mkSeenPeer cred cred 0
  else mkSeenPeer (digest "principal" principal) cred ackSeenStreamsPerPrincipal.

Record seenStream := mkStream {
  last_ : Z;
  floor : Z;
  used : Z;
  inflight : gmap Z nat;
  errs : gmap Z pubackInfo;
}.

Record ackSeen := mkSeen {
  streams : gmap seenKey seenStream;
  perPeer : gmap string Z;
  clock : Z;
  maxStreams : Z;
  maxErrors : Z;
}.

Definition newAckSeen (maxStreams maxErrors : Z) : ackSeen := mkSeen ∅ ∅ 0 maxStreams maxErrors.

(** The loop of [evictLocked], over the streams in map order. *)
Fixpoint lru (l : list (seenKey * seenStream)) (found : option (seenKey * Z)) : option (seenKey * Z) :=
  match l with
  | [] => found
  | (k, st) :: l' =>
      lru l' (match found with
              | Some (_, oldest) => if used st <? oldest then Some (k, used st) else found
              | None => Some (k, used st)
              end)
  end.

Definition evictLocked (match_ : seenKey → bool) (s : ackSeen) : ackSeen :=
  match lru (filter (λ kv, match_ kv.1 = true) (map_to_list (streams s))) None with
  | None => s
  | Some (victim, _) =>
      let peer := victim.1.1 in
      let n := default 0 (perPeer s !! peer) - 1 in
      mkSeen (delete victim (streams s)) (if n <=? 0 then delete peer (perPeer s) else <[peer := n]> (perPeer s))
             (clock s) (maxStreams s) (maxErrors s)
  end.

Definition newStream : seenStream := mkStream 0 0 0 ∅ ∅.

(** The stream of [k], made (after an eviction when a bound is reached) if it
    is not known. *)
Definition seen_stream (k : seenKey) (max : Z) (s : ackSeen) : ackSeen :=
  let peer := k.1.1 in
  match streams s !! k with
  | Some _ => s
  | None =>
      let s := if max <=? default 0 (perPeer s !! peer) then evictLocked (λ o, String.eqb o.1.1 peer) s
               else if maxStreams s <=? Z.of_nat (size (streams s)) then evictLocked (λ _, true) s
               else s in
      mkSeen (<[k := newStream]> (streams s)) (<[peer := default 0 (perPeer s !! peer) + 1]> (perPeer s))
             (clock s) (maxStreams s) (maxErrors s)
  end.

(** The result's index, whether the frame is a redelivery, the memory and the
    heap. *)
Definition begin (sp : seenPeer) (stream : string) (off : Z) (id : string) (s : ackSeen) (h : heap)
    : nat * bool * ackSeen * heap :=
  let s := mkSeen (streams s) (perPeer s) (uint64 (clock s + 1)) (maxStreams s) (maxErrors s) in
  let max := if sp_max sp <=? 0 then maxStreams s else sp_max sp in
  let k := (sp_key sp, sp_cred sp, stream) in
  let s := seen_stream k max s in
  let st := default newStream (streams s !! k) in
  let put st' := mkSeen (<[k := st']> (streams s)) (perPeer s) (clock s) (maxStreams s) (maxErrors s) in
  let st := mkStream (last_ st) (floor st) (clock s) (inflight st) (errs st) in
  if off <=? last_ st then
    match inflight st !! off with
    | Some r => (r, true, put st, h)
    | None =>
        let p := match errs st !! off with
                 | Some p => mkPuback (pa_Offset p) id (pa_Status p) (pa_Code p)
                 | None => if off <=? floor st then mkPuback off id pubackErr AckUnknown else mkPuback off id pubackOK ""
                 end in
        (length h, true, put st, h ++ [completedAck p])
    end
  else (length h, false, put (mkStream off (floor st) (used st) (<[off := length h]> (inflight st)) (errs st)),
        h ++ [newAckResult off id]).

(** [for len(st.errs) > s.maxErrors]: each turn prunes the lowest. *)
Fixpoint prune_errs (fuel : nat) (maxErrors off : Z) (st : seenStream) : seenStream :=
  match fuel with
  | O => st
  | S fuel' =>
      if maxErrors <? Z.of_nat (size (errs st)) then
        let lowest := foldr Z.min off (elements (dom (errs st))) in
        prune_errs fuel' maxErrors off
          (mkStream (last_ st) (Z.max (floor st) lowest) (used st) (inflight st) (delete lowest (errs st)))
      else st
  end.

Definition settle (sp : seenPeer) (stream : string) (p : pubackInfo) (s : ackSeen) : ackSeen :=
  let k := (sp_key sp, sp_cred sp, stream) in
  match streams s !! k with
  | None => s
  | Some st =>
      let st := mkStream (last_ st) (floor st) (used st) (delete (pa_Offset p) (inflight st)) (errs st) in
      let st :=
        if negb (String.eqb (pa_Status p) pubackErr) then st
        else
          let st := mkStream (last_ st) (floor st) (used st) (inflight st) (<[pa_Offset p := p]> (errs st)) in
          prune_errs (size (errs st)) (maxErrors s) (pa_Offset p) st in
      mkSeen (<[k := st]> (streams s)) (perPeer s) (clock s) (maxStreams s) (maxErrors s)
  end.

(** [complete] with [settleFn] as its callback: once, [after] before [done]. *)
Definition complete (sp : seenPeer) (stream : string) (r : nat) (code : string) (s : ackSeen) (h : heap) : ackSeen * heap :=
  match h !! r with
  | Some (mkResult false p) =>
      let p := if String.eqb code "" then p else mkPuback (pa_Offset p) (pa_ID p) pubackErr code in
      (settle sp stream p s, <[r := mkResult true p]> h)
  | _ => (s, h)
  end.

Definition settled (h : heap) (r : nat) : bool := match h !! r with Some x => ar_done x | None => false end.

(** ** The puback queue *)

Definition DefaultMaxPendingAcks : Z := 1024.

(** Index of the result, offset and id of each frame. *)
Record ackQueue := mkAckQueue { q_items : list (nat * Z * string); q_max : Z }.

Definition newAckQueue (max : Z) : ackQueue := mkAckQueue [] (if max <? 1 then DefaultMaxPendingAcks else max).

(** [None] when the queue is full. *)
Definition q_push (off : Z) (id : string) (r : nat) (q : ackQueue) : option ackQueue :=
  if q_max q <=? Z.of_nat (length (q_items q)) then None
  else Some (mkAckQueue (q_items q ++ [(r, off, id)]) (q_max q)).

(** The settled prefix, as pubacks, and the rest. *)
Fixpoint settled_prefix (h : heap) (items : list (nat * Z * string)) : list pubackInfo * list (nat * Z * string) :=
  match items with
  | [] => ([], [])
  | (r, off, id) :: items' =>
      match h !! r with
      | Some (mkResult true p) =>
          let '(out, rest) := settled_prefix h items' in
          (mkPuback off id (pa_Status p) (pa_Code p) :: out, rest)
      | _ => ([], items)
      end
  end.

Definition q_ready (h : heap) (q : ackQueue) : list pubackInfo * ackQueue :=
  let '(out, rest) := settled_prefix h (q_items q) in (out, mkAckQueue rest (q_max q)).

(** ** The ticket of one acknowledged publish *)

(** [w_res] is the recorded code, empty for acknowledged; [w_release] tells
    whether the wait holds a pending slot. *)
Record peerWait := mkWait { w_res : option string; w_release : bool; w_resolved : bool }.

(** [t_released] lists the addresses whose slot was freed, in order. *)
Record ackTicket := mkTicket {
  t_id : string;
  t_offset : Z;
  t_local : Z;
  t_peers : gmap string peerWait;
  t_open : Z;
  t_closed : bool;
  t_released : list string;
}.

Definition newAckTicket (id : string) : ackTicket := mkTicket id 0 1 ∅ 0 false [].

Definition expect (addr : string) (release : bool) (t : ackTicket) : ackTicket :=
  mkTicket (t_id t) (t_offset t) (t_local t) (<[addr := mkWait None release false]> (t_peers t)) (t_open t + 1)
           (t_closed t) (t_released t).

Definition setOffset (off : Z) (t : ackTicket) : ackTicket :=
  mkTicket (t_id t) off (t_local t) (t_peers t) (t_open t) (t_closed t) (t_released t).

Definition addLocal (t : ackTicket) : ackTicket :=
  mkTicket (t_id t) (t_offset t) (t_local t + 1) (t_peers t) (t_open t) (t_closed t) (t_released t).

Definition checkLocked (t : ackTicket) : ackTicket :=
  if negb (t_closed t) && (t_local t =? 0) && (t_open t =? 0)
  then mkTicket (t_id t) (t_offset t) (t_local t) (t_peers t) (t_open t) true (t_released t) else t.

(** Whether [onLocal] runs, and the ticket. *)
Definition localDone (t : ackTicket) : bool * ackTicket :=
  let t := mkTicket (t_id t) (t_offset t) (t_local t - 1) (t_peers t) (t_open t) (t_closed t) (t_released t) in
  (t_local t =? 0, checkLocked t).

Definition ticket_resolve (addr code : string) (t : ackTicket) : ackTicket :=
  match t_peers t !! addr with
  | None => t
  | Some w =>
      if w_resolved w then t
      else
        let t' := checkLocked (mkTicket (t_id t) (t_offset t) (t_local t)
                    (<[addr := mkWait (Some code) (w_release w) true]> (t_peers t)) (t_open t - 1)
                    (t_closed t) (t_released t)) in
        mkTicket (t_id t') (t_offset t') (t_local t') (t_peers t') (t_open t') (t_closed t')
                 (if w_release w then t_released t' ++ [addr] else t_released t')
  end.

Definition resolvedFor (addr : string) (t : ackTicket) : bool :=
  match t_peers t !! addr with None => true | Some w => w_resolved w end.

Definition unresolved (t : ackTicket) : list string :=
  (map_to_list (filter (λ kv, w_resolved kv.2 = false) (t_peers t))).*1.

(** The peers in address order with their codes, and the error: the peer
    (empty for the local handlers) and the code. *)
Fixpoint first_error (peers : list (string * string)) : option (string * string) :=
  match peers with
  | [] => None
  | (addr, code) :: peers' => if String.eqb code "" then first_error peers' else Some (addr, code)
  end.

Definition ticket_result (t : ackTicket) : list (string * string) * option (string * string) :=
  let code addr := match t_peers t !! addr with
                   | Some w => default AckTimeout (w_res w)
                   | None => AckTimeout
                   end in
  let peers := (λ addr, (addr, code addr)) <$> sort_strings (elements (dom (t_peers t))) in
  (peers, if 0 <? t_local t then Some ("", AckTimeout) else first_error peers).

(** ** Pubacks on the wire *)

(** A puback is read back as it was sent, and refused otherwise: an
    acknowledgement that cannot be read always breaks the link. *)
Theorem puback_roundtrip p :
  0 ≤ pa_Offset p < 2 ^ 64 →
  (pa_Status p = pubackOK ∧ pa_Code p = "" ∨ pa_Status p = pubackErr ∧ pa_Code p ≠ "") →
  parsePuback (encodePuback p) = Ok p.
Proof.
  intros Ho Hs. unfold parsePuback, encodePuback, memberString. destruct p as [off id st code]. cbn [pa_Offset pa_ID pa_Status pa_Code] in *.
  destruct Hs as [[-> ->]|[-> Hc]]; destruct (String.eqb_spec id "") as [->|]; cbn; rewrite parse_format by done; cbn;
    rewrite ?(proj2 (String.eqb_neq _ _)) by done; done.
Qed.

Lemma puback_roundtrip_witness :
  parsePuback (encodePuback (mkPuback 7 "evt" pubackErr AckRejected)) = Ok (mkPuback 7 "evt" pubackErr AckRejected).
Proof. apply (puback_roundtrip (mkPuback 7 "evt" pubackErr AckRejected)); [cbn; lia|by right]. Defined.

(** ** Tickets *)

Definition waiting (t : ackTicket) : gmap string peerWait := filter (λ kv, w_resolved kv.2 = false) (t_peers t).

(** [open] counts the unresolved peers, a resolved peer has its code, and the
    ticket is closed once nothing is left. *)
Record ticket_ok (t : ackTicket) : Prop := {
  tk_open : t_open t = Z.of_nat (size (waiting t));
  tk_res : ∀ addr w, t_peers t !! addr = Some w → w_resolved w = true ↔ is_Some (w_res w);
  tk_closed : t_closed t = true → t_open t = 0;
}.

Lemma first_error_None peers : first_error peers = None ↔ ∀ addr code, (addr, code) ∈ peers → code = "".
Proof.
  induction peers as [|[a c] peers IH]; cbn.
  - split; [|done]. intros _ addr code Hin. by apply elem_of_nil in Hin.
  - destruct (String.eqb_spec c "") as [->|Hc].
    + rewrite IH. split; intros HH addr code; [intros [[= -> ->]|]%elem_of_cons; [done|by eapply HH]|].
      intros Hin. apply (HH addr). by right.
    + split; [done|]. intros HH. destruct Hc. apply (HH a). by left.
Qed.

Lemma expect_ok addr release t : ticket_ok t → t_peers t !! addr = None → t_closed t = false → ticket_ok (expect addr release t).
Proof.
  intros [Ho Hr Hc] Hn Hcl. split; [| |cbn; congruence].
  - unfold waiting, expect in *. cbn [t_peers t_open]. rewrite map_filter_insert_True by done.
    rewrite map_size_insert_None; [lia|]. rewrite map_lookup_filter_None. by left.
  - cbn. intros a w [[<- <-]|[_ Hw]]%lookup_insert_Some; [cbn; split; [done|by intros [? ?]]|by eapply Hr].
Qed.

Lemma checkLocked_ok t : ticket_ok t → ticket_ok (checkLocked t).
Proof.
  intros [Ho Hr Hc]. unfold checkLocked. destruct (_ && _) eqn:E; [|by split].
  apply andb_true_iff in E as [_ E%Z.eqb_eq]. by split.
Qed.

Lemma resolve_ok addr code t : ticket_ok t → ticket_ok (ticket_resolve addr code t).
Proof.
  intros [Ho Hr Hc]. unfold ticket_resolve. destruct (t_peers t !! addr) as [w|] eqn:E; [|by split].
  destruct (w_resolved w) eqn:Ew; [by split|].
  set (t1 := mkTicket _ _ _ _ (t_open t - 1) _ _). assert (ticket_ok t1) as H1.
  { split; unfold t1; cbn [t_peers t_open t_closed].
    - unfold waiting in *. cbn [t_peers]. rewrite map_filter_insert_False by done.
      rewrite map_filter_delete. rewrite map_size_delete, Ho.
      assert (filter (λ kv : string * peerWait, w_resolved kv.2 = false) (t_peers t) !! addr = Some w) as Hl
        by (apply map_lookup_filter_Some; done).
      rewrite Hl. assert (0 < size (filter (λ kv : string * peerWait, w_resolved kv.2 = false) (t_peers t)))%nat; [|lia].
      apply Nat.neq_0_lt_0. intros H0%map_size_empty_iff. rewrite H0 in Hl. done.
    - intros a w' [[<- <-]|[_ Hw]]%lookup_insert_Some; [cbn; split; [by eexists|done]|by eapply Hr].
    - intros Hcl%Hc. assert (waiting t !! addr = Some w) as Hl by (apply map_lookup_filter_Some; done).
      assert (size (waiting t) = 0%nat) as H0%map_size_empty_iff by lia. by rewrite H0 in Hl. }
  apply checkLocked_ok in H1 as [? ? ?]. by split.
Qed.

Lemma localDone_ok t : ticket_ok t → ticket_ok (localDone t).2.
Proof. intros [Ho Hr Hc]. apply checkLocked_ok. by split. Qed.

(** An acknowledged publish is confirmed only when everything
    acknowledged: the error is nil exactly when no local handler is running and
    every awaited peer answered with an empty code; a peer that has not
    answered counts as timed out, the error names the first peer in address
    order, and a peer's first outcome is the one that stays. *)
Theorem ticket_confirms_all t addr code :
  ticket_ok t →
  ((ticket_result t).2 = None ↔
     t_local t ≤ 0 ∧ ∀ a w, t_peers t !! a = Some w → w_res w = Some "") ∧
  (ticket_result t).1.*1 = sort_strings (elements (dom (t_peers t))) ∧
  (∀ a w c, t_peers t !! a = Some w → w_res w = Some c →
     ∃ w', t_peers (ticket_resolve addr code t) !! a = Some w' ∧ w_res w' = Some c).
Proof.
  intros [Ho Hr Hc]. split_and!.
  - unfold ticket_result. cbn [fst snd]. destruct (Z.ltb_spec 0 (t_local t)); [split; [done|lia]|].
    rewrite first_error_None. split.
    + intros HH. split; [done|]. intros a w Hw. specialize (HH a (default AckTimeout (w_res w))).
      destruct (w_res w) as [c|] eqn:E.
      * f_equal. apply HH. apply list_elem_of_fmap. exists a. split; [by rewrite Hw, E|].
        apply elem_of_sort_strings, elem_of_elements, elem_of_dom. eauto.
      * cbn in HH. discriminate HH. apply list_elem_of_fmap. exists a. split; [by rewrite Hw, E|].
        apply elem_of_sort_strings, elem_of_elements, elem_of_dom. eauto.
    + intros [_ HH] a c (a' & [= -> ->] & Hin)%list_elem_of_fmap.
      apply elem_of_sort_strings, elem_of_elements, elem_of_dom in Hin as [w Hw]. by rewrite Hw, (HH _ _ Hw).
  - unfold ticket_result. cbn [fst]. rewrite <-list_fmap_compose. apply list_fmap_id.
  - intros a w c Hw Hwc. unfold ticket_resolve. destruct (t_peers t !! addr) as [w0|] eqn:E; [|eauto].
    destruct (w_resolved w0) eqn:Ew; [eauto|].
    assert (a ≠ addr).
    { intros ->. rewrite E in Hw. injection Hw as <-. rewrite (proj2 (Hr _ _ E)) in Ew by eauto. done. }
    exists w. split; [|done]. cbn. unfold checkLocked. destruct (_ && _); cbn; by rewrite lookup_insert_ne.
Qed.

Definition sample_ticket : ackTicket := ticket_resolve "b" "" (expect "b" true (expect "a" true (newAckTicket "evt"))).

Lemma newAckTicket_ok id : ticket_ok (newAckTicket id).
Proof. by split. Qed.

Lemma ticket_confirms_all_witness :
  (ticket_result sample_ticket).2 = Some ("", "timeout") ∧
  (ticket_result (localDone (ticket_resolve "a" "rejected" sample_ticket)).2).2 = Some ("a", "rejected") ∧
  (ticket_result (localDone (ticket_resolve "a" "" sample_ticket)).2).2 = None.
Proof.
  split; [reflexivity|]. split; [reflexivity|].
  assert (Hok : ticket_ok (localDone (ticket_resolve "a" "" sample_ticket)).2).
  { apply localDone_ok, resolve_ok, resolve_ok, expect_ok; [|reflexivity|reflexivity].
    apply expect_ok; [apply newAckTicket_ok|reflexivity|reflexivity]. }
  apply (proj1 (ticket_confirms_all _ "a" "" Hok)). split; [vm_compute; discriminate|].
  refine (bool_decide_unpack (map_Forall (λ _ w, w_res w = Some "") _) _). vm_compute. exact I.
Defined.

(** What happens to a ticket after its peers are registered. *)
Inductive ticket_op := TResolve (addr code : string) | TLocalDone.

Definition ticket_do (t : ackTicket) (o : ticket_op) : ackTicket :=
  match o with TResolve addr code => ticket_resolve addr code t | TLocalDone => (localDone t).2 end.

(** More open waits than waiting peers. *)
Definition overdrawn (t : ackTicket) : Prop :=
  Z.of_nat (size (waiting t)) < t_open t ∧ t_closed t = false ∧
  (length (t_released t) + size (waiting t) ≤ 1)%nat.

Lemma overdrawn_do t o : overdrawn t → overdrawn (ticket_do t o).
Proof.
  intros (Ho & Hc & Hr).
  assert (Hck : ∀ t', overdrawn t' → checkLocked t' = t').
  { intros t' (Ho' & Hc' & _). unfold checkLocked. rewrite Hc'. destruct (Z.eqb_spec (t_open t') 0); [lia|]. by rewrite andb_false_r. }
  destruct o as [addr code|]; cbn.
  - unfold ticket_resolve. destruct (t_peers t !! addr) as [w|] eqn:E; [|done].
    destruct (w_resolved w) eqn:Ew; [done|]. set (t1 := mkTicket _ _ _ _ (t_open t - 1) _ _).
    assert (Hl : waiting t !! addr = Some w) by (apply map_lookup_filter_Some; done).
    assert (Hs : S (size (waiting t1)) = size (waiting t)).
    { assert (size (waiting t) ≠ 0%nat) by (intros H0%map_size_empty_iff; by rewrite H0 in Hl).
      unfold waiting, t1 in *. cbn [t_peers]. rewrite map_filter_insert_False by done.
      rewrite map_filter_delete, map_size_delete, Hl. lia. }
    assert (H1 : overdrawn t1) by (split_and!; cbn; [cbn in Hs; lia|done|lia]). rewrite (Hck _ H1).
    unfold overdrawn. change (waiting (mkTicket _ _ _ (t_peers t1) _ _ _)) with (waiting t1). cbn [t_open t_closed t_released t1].
    split_and!; [lia|done|]. destruct (w_release w); rewrite ?length_app; simpl; lia.
  - set (t1 := mkTicket _ _ (t_local t - 1) _ _ _ _). assert (H1 : overdrawn t1) by done. by rewrite (Hck _ H1).
Qed.

(** An address given twice to [PublishAcked] is never confirmed: [expect]
    replaces the first wait but counts both, so whatever answers arrive the
    ticket stays open until its deadline, and of the two pending slots it took
    at most one is ever freed. *)
Theorem duplicate_address_never_confirmed id addr ops :
  let t := foldl ticket_do (expect addr true (expect addr true (newAckTicket id))) ops in
  t_closed t = false ∧ (length (t_released t) ≤ 1)%nat.
Proof.
  intros t. assert (H0 : overdrawn (expect addr true (expect addr true (newAckTicket id)))).
  { unfold overdrawn, waiting, expect. cbn [t_peers t_open t_closed t_released newAckTicket].
    rewrite insert_insert_eq, map_filter_insert_True, map_filter_empty, insert_empty, map_size_singleton by done. simpl. lia. }
  assert (Ht : overdrawn t).
  { unfold t. revert H0. generalize (expect addr true (expect addr true (newAckTicket id))). clear.
    induction ops as [|o ops IH]; intros t Ht; [done|]. by apply IH, overdrawn_do. }
  destruct Ht as (_ & ? & ?). split; [done|lia].
Qed.

(** ** The dedupe memory stays within its bounds *)

Definition peer_count (peer : string) (m : gmap seenKey seenStream) : nat :=
  size (filter (λ kv, kv.1.1.1 = peer) m).

Record seen_ok (s : ackSeen) : Prop := {
  so_max : 1 ≤ maxStreams s;
  so_errors : 0 ≤ maxErrors s;
  so_size : Z.of_nat (size (streams s)) ≤ maxStreams s;
  so_peer : ∀ peer, default 0 (perPeer s !! peer) = Z.of_nat (peer_count peer (streams s));
  so_errs : ∀ k st, streams s !! k = Some st → Z.of_nat (size (errs st)) ≤ maxErrors s;
}.

Lemma peer_count_insert_new peer k st m :
  m !! k = None → peer_count peer (<[k := st]> m) = (peer_count peer m + if decide (k.1.1 = peer) then 1 else 0)%nat.
Proof.
  intros Hk. unfold peer_count. case_decide as Hp.
  - rewrite map_filter_insert_True by done. rewrite map_size_insert_None; [lia|]. rewrite map_lookup_filter_None. by left.
  - rewrite map_filter_insert_False, map_filter_delete by done. rewrite map_size_delete.
    rewrite (proj2 (map_lookup_filter_None _ _ _)) by by left. by rewrite Nat.add_0_r.
Qed.

Lemma peer_count_insert_old peer k st st' m :
  m !! k = Some st' → peer_count peer (<[k := st]> m) = peer_count peer m.
Proof.
  intros Hk. unfold peer_count. destruct (decide (k.1.1 = peer)) as [Hp|Hp].
  - rewrite map_filter_insert_True by done. rewrite map_size_insert_Some; [done|].
    eexists. by apply map_lookup_filter_Some.
  - rewrite map_filter_insert_False, map_filter_delete by done. rewrite map_size_delete.
    rewrite (proj2 (map_lookup_filter_None _ _ _)); [done|]. right. naive_solver.
Qed.

Lemma peer_count_delete peer k st m :
  m !! k = Some st → (peer_count peer (delete k m) + (if decide (k.1.1 = peer) then 1 else 0) = peer_count peer m)%nat.
Proof.
  intros Hk. rewrite <-(insert_delete_id m k st Hk) at 2. rewrite peer_count_insert_new; [done|]. apply lookup_delete_eq.
Qed.

Lemma lru_spec l : ∀ found,
  match lru l found with
  | Some (k, _) => (∃ st, (k, st) ∈ l) ∨ (∃ u, found = Some (k, u))
  | None => l = [] ∧ found = None
  end.
Proof.
  induction l as [|[k st] l IH]; intros found; cbn; [destruct found as [[k u]|]; eauto|].
  set (f := match found with Some _ => _ | None => _ end). specialize (IH f).
  destruct (lru l f) as [[k' u]|].
  - destruct IH as [[st' ?]|[u' Hf]]; [left; exists st'; by right|]. unfold f in Hf; clear f.
    destruct found as [[k0 o]|]; [destruct (used st <? o) in Hf|];
      simplify_eq; eauto; left; exists st; by left.
  - destruct IH as [_ Hf]. unfold f in Hf. by repeat case_match.
Qed.

(** An eviction removes one stream the caller selected, if there is one. *)
Lemma evictLocked_spec match_ s :
  (evictLocked match_ s = s ∧ ∀ k st, streams s !! k = Some st → match_ k = false) ∨
  (∃ k st, streams s !! k = Some st ∧ match_ k = true ∧ streams (evictLocked match_ s) = delete k (streams s) ∧
     (∀ peer, default 0 (perPeer (evictLocked match_ s) !! peer) =
              if decide (k.1.1 = peer) then Z.max 0 (default 0 (perPeer s !! peer) - 1) else default 0 (perPeer s !! peer))).
Proof.
  unfold evictLocked. set (l := filter _ (map_to_list (streams s))). pose proof (lru_spec l None) as Hl.
  destruct (lru l None) as [[k u]|].
  - right. destruct Hl as [[st Hin]|[? ?]]; [|done]. unfold l in Hin.
    apply list_elem_of_filter in Hin as [Hm Hin%elem_of_map_to_list]. exists k, st. split_and!; [done..|].
    intros peer. cbn. set (n := default 0 (perPeer s !! k.1.1) - 1). case_decide as Hp; destruct (Z.leb_spec n 0); subst.
    + rewrite lookup_delete_eq. cbn. lia.
    + rewrite lookup_insert_eq. cbn. lia.
    + by rewrite lookup_delete_ne.
    + by rewrite lookup_insert_ne.
  - left. split; [done|]. destruct Hl as [Hl _]. intros k st Hk. destruct (match_ k) eqn:E; [|done].
    assert (Hin : (k, st) ∈ l) by (apply list_elem_of_filter; split; [done|by apply elem_of_map_to_list]).
    rewrite Hl in Hin. by apply elem_of_nil in Hin.
Qed.

Lemma evictLocked_fields match_ s :
  maxStreams (evictLocked match_ s) = maxStreams s ∧ maxErrors (evictLocked match_ s) = maxErrors s.
Proof. unfold evictLocked. by repeat case_match. Qed.

Lemma evictLocked_ok match_ s : seen_ok s → seen_ok (evictLocked match_ s).
Proof.
  intros I. destruct (evictLocked_fields match_ s) as [Hf1 Hf2].
  destruct (evictLocked_spec match_ s) as [[-> _]|(k & st & Hk & _ & Hs & Hp)]; [done|].
  split; rewrite ?Hf1, ?Hf2, ?Hs; try apply I.
  - rewrite map_size_delete, Hk. pose proof (so_size _ I). lia.
  - intros peer. rewrite Hp. rewrite (so_peer _ I peer), <-(peer_count_delete peer k st _ Hk).
    repeat case_decide; lia.
  - intros k' st' [_ ?]%lookup_delete_Some. by eapply so_errs.
Qed.

(** Making room: below the bound there is nothing to do; at it, one stream of
    the right kind goes. *)
Lemma evict_makes_room match_ s :
  seen_ok s → (∃ k st, streams s !! k = Some st ∧ match_ k = true) →
  (size (streams (evictLocked match_ s)) < size (streams s))%nat.
Proof.
  intros I (k & st & Hk & Hm). destruct (evictLocked_spec match_ s) as [[_ Hn]|(k' & st' & Hk' & _ & -> & _)].
  - specialize (Hn _ _ Hk). congruence.
  - rewrite map_size_delete, Hk'. assert (size (streams s) ≠ 0%nat); [|lia]. intros H0%map_size_empty_iff. by rewrite H0 in Hk'.
Qed.

Lemma peer_count_pos peer m : (0 < peer_count peer m)%nat → ∃ k st, m !! k = Some st ∧ k.1.1 = peer.
Proof.
  intros Hp. unfold peer_count in Hp. destruct (map_choose (filter (λ kv : seenKey * seenStream, kv.1.1.1 = peer) m)) as (k & st & Hk).
  - intros H0. rewrite H0, map_size_empty in Hp. lia.
  - apply map_lookup_filter_Some in Hk. eauto.
Qed.

Definition seen_room (k : seenKey) (max : Z) (s : ackSeen) : ackSeen :=
  if max <=? default 0 (perPeer s !! k.1.1) then evictLocked (λ o, String.eqb o.1.1 k.1.1) s
  else if maxStreams s <=? Z.of_nat (size (streams s)) then evictLocked (λ _, true) s else s.

Lemma seen_room_spec k max s :
  seen_ok s → 1 ≤ max → seen_ok (seen_room k max s) ∧
  Z.of_nat (size (streams (seen_room k max s))) < maxStreams s ∧ streams (seen_room k max s) ⊆ streams s ∧
  maxStreams (seen_room k max s) = maxStreams s ∧ maxErrors (seen_room k max s) = maxErrors s.
Proof.
  intros I Hmax. unfold seen_room. pose proof (so_size _ I). pose proof (so_max _ I).
  assert (Hsub : ∀ m, streams (evictLocked m s) ⊆ streams s).
  { intros m. destruct (evictLocked_spec m s) as [[-> _]|(k' & st & _ & _ & -> & _)]; [done|apply delete_subseteq]. }
  destruct (Z.leb_spec max (default 0 (perPeer s !! k.1.1))) as [Hp|Hp].
  - rewrite (so_peer _ I) in Hp. destruct (peer_count_pos k.1.1 (streams s)) as (k' & st & Hk' & Hpe); [lia|].
    pose proof (evict_makes_room (λ o, String.eqb o.1.1 k.1.1) s I) as Hr.
    destruct (evictLocked_fields (λ o, String.eqb o.1.1 k.1.1) s) as [-> ->].
    split_and!; [by apply evictLocked_ok| |done..].
    assert (size (streams (evictLocked (λ o, String.eqb o.1.1 k.1.1) s)) < size (streams s))%nat; [|lia].
    apply Hr. exists k', st. split; [done|]. by apply String.eqb_eq.
  - destruct (Z.leb_spec (maxStreams s) (Z.of_nat (size (streams s)))) as [Hs|Hs]; [|split_and!; done || lia].
    destruct (evictLocked_fields (λ _, true) s) as [-> ->]. split_and!; [by apply evictLocked_ok| |done..].
    assert (size (streams (evictLocked (λ _, true) s)) < size (streams s))%nat; [|lia].
    apply evict_makes_room; [done|]. destruct (map_choose (streams s)) as (k' & st & Hk'); [|eauto].
    intros Hz. rewrite Hz, map_size_empty in Hs. lia.
Qed.

Lemma seen_stream_new k max s :
  streams s !! k = None →
  seen_stream k max s =
    mkSeen (<[k := newStream]> (streams (seen_room k max s)))
      (<[k.1.1 := default 0 (perPeer (seen_room k max s) !! k.1.1) + 1]> (perPeer (seen_room k max s)))
      (clock (seen_room k max s)) (maxStreams (seen_room k max s)) (maxErrors (seen_room k max s)).
Proof. intros Hk. unfold seen_stream. by rewrite Hk. Qed.

Lemma seen_stream_ok k max s :
  seen_ok s → 1 ≤ max → seen_ok (seen_stream k max s) ∧ is_Some (streams (seen_stream k max s) !! k) ∧
  maxStreams (seen_stream k max s) = maxStreams s ∧ maxErrors (seen_stream k max s) = maxErrors s.
Proof.
  intros I Hmax. destruct (streams s !! k) as [st|] eqn:Hk.
  { unfold seen_stream. rewrite Hk. eauto. }
  rewrite seen_stream_new by done. destruct (seen_room_spec k max s I Hmax) as (Ir & Hlt & Hsub & Hf1 & Hf2).
  assert (Hn : streams (seen_room k max s) !! k = None).
  { destruct (streams (seen_room k max s) !! k) eqn:E; [|done]. eapply lookup_weaken in E; [|exact Hsub]. congruence. }
  cbn. rewrite lookup_insert_eq. split_and!; [|eauto|done..]. split; cbn; try apply Ir.
  - rewrite map_size_insert_None by done. lia.
  - intros peer. rewrite peer_count_insert_new by done. pose proof (so_peer _ Ir peer). case_decide as Hp.
    + rewrite Hp, lookup_insert_eq. cbn. lia.
    + rewrite lookup_insert_ne by done. lia.
  - intros k' st [[<- <-]|[_ ?]]%lookup_insert_Some; [|by eapply so_errs]. cbn. rewrite map_size_empty. apply (so_errors _ Ir).
Qed.

(** Replacing a known stream by one with few enough errors keeps the bounds. *)
Lemma seen_put_ok k st st' c s :
  seen_ok s → streams s !! k = Some st → Z.of_nat (size (errs st')) ≤ maxErrors s →
  seen_ok (mkSeen (<[k := st']> (streams s)) (perPeer s) c (maxStreams s) (maxErrors s)).
Proof.
  intros I Hk He. split; cbn; try apply I.
  - rewrite map_size_insert_Some by eauto. apply (so_size _ I).
  - intros peer. rewrite (peer_count_insert_old _ _ _ st) by done. apply (so_peer _ I).
  - intros k' st'' [[<- <-]|[_ ?]]%lookup_insert_Some; [done|by eapply so_errs].
Qed.

Lemma begin_ok sp stream off id s h : seen_ok s → seen_ok (begin sp stream off id s h).1.2.
Proof.
  intros I. unfold begin. set (s1 := mkSeen _ _ (uint64 _) _ _). assert (I1 : seen_ok s1) by (destruct I; by split).
  set (max := if _ <=? 0 then _ else _). set (k := (_, _, stream)).
  assert (Hmax : 1 ≤ max) by (unfold max; pose proof (so_max _ I1); destruct (Z.leb_spec (sp_max sp) 0); lia).
  destruct (seen_stream_ok k max s1 I1 Hmax) as (I2 & [st Hst] & _ & _). rewrite Hst. cbn [default].
  pose proof (so_errs _ I2 _ _ Hst) as He.
  assert (Hput : ∀ st', errs st' = errs st → seen_ok (mkSeen (<[k := st']> (streams (seen_stream k max s1)))
    (perPeer (seen_stream k max s1)) (clock (seen_stream k max s1)) (maxStreams (seen_stream k max s1)) (maxErrors (seen_stream k max s1)))).
  { intros st' E. eapply seen_put_ok; [done..|]. by rewrite E. }
  cbn. destruct (off <=? last_ st); [|by apply Hput]. destruct (inflight st !! off); by apply Hput.
Qed.

Lemma foldr_min_elem (l : list Z) off : foldr Z.min off l ∈ off :: l.
Proof.
  induction l as [|x l IH]; cbn; [by left|]. destruct (Z.min_spec x (foldr Z.min off l)) as [[_ ->]|[_ ->]]; set_solver.
Qed.

(** The prune loop: at most one turn, and no more than [maxErrors] are left. *)
Lemma prune_errs_size n m off st :
  off ∈ dom (errs st) → Z.of_nat (size (errs st)) ≤ m + 1 →
  Z.of_nat (size (errs (prune_errs (S n) m off st))) ≤ m.
Proof.
  intros Hoff Hs. cbn. destruct (Z.ltb_spec m (Z.of_nat (size (errs st)))) as [Hlt|Hle]; [|done].
  set (lowest := foldr _ _ _). set (st' := mkStream _ _ _ _ _).
  assert (Hin : lowest ∈ dom (errs st)).
  { pose proof (foldr_min_elem (elements (dom (errs st))) off) as Hm. fold lowest in Hm.
    apply elem_of_cons in Hm as [->|Hm]; [done|]. by apply elem_of_elements in Hm. }
  assert (Hs' : Z.of_nat (size (errs st')) ≤ m).
  { apply elem_of_dom in Hin as [p Hp]. cbn. rewrite map_size_delete, Hp.
    assert (size (errs st) ≠ 0%nat) by (intros Hz%map_size_empty_iff; by rewrite Hz in Hp). lia. }
  destruct n; cbn [prune_errs]; [done|]. by destruct (Z.ltb_spec m (Z.of_nat (size (errs st')))); [lia|].
Qed.

Lemma settle_ok sp stream p s : seen_ok s → seen_ok (settle sp stream p s).
Proof.
  intros I. unfold settle. destruct (streams s !! _) as [st|] eqn:Hk; [|done]. pose proof (so_errs _ I _ _ Hk) as He.
  cbn [last_ floor used inflight errs]. destruct (negb (String.eqb (pa_Status p) pubackErr)); eapply seen_put_ok; [done..|].
  set (st' := mkStream _ _ _ _ (<[_ := _]> _)).
  assert (Hn : size (errs st') ≠ 0%nat).
  { intros Hz%map_size_empty_iff. exact (insert_non_empty _ _ _ Hz). }
  change (<[pa_Offset p:=p]> (errs st)) with (errs st').
  destruct (size (errs st')) as [|n] eqn:Hs; [done|]. apply prune_errs_size; cbn.
  - rewrite dom_insert_L. set_solver.
  - rewrite map_size_insert. destruct (errs st !! pa_Offset p); simpl; lia.
Qed.

Lemma complete_ok sp stream r code s h : seen_ok s → seen_ok (complete sp stream r code s h).1.
Proof. intros I. unfold complete. repeat case_match; cbn; try done. all: by apply settle_ok. Qed.

(** What the acceptor does with its memory. *)
Inductive seen_op :=
| OBegin (sp : seenPeer) (stream : string) (off : Z) (id : string)
| OComplete (sp : seenPeer) (stream : string) (r : nat) (code : string).

Definition seen_do (x : ackSeen * heap) (o : seen_op) : ackSeen * heap :=
  match o with
  | OBegin sp stream off id => let '(_, _, s, h) := begin sp stream off id x.1 x.2 in (s, h)
  | OComplete sp stream r code => complete sp stream r code x.1 x.2
  end.

Lemma seen_run_ok ops x : seen_ok x.1 → seen_ok (foldl seen_do x ops).1.
Proof.
  revert x. induction ops as [|o ops IH]; intros [s h] I; [done|]. apply IH. destruct o as [sp stream off id|sp stream r code]; cbn.
  - pose proof (begin_ok sp stream off id s h I) as Hb. by destruct (begin sp stream off id s h) as [[[r d] s'] h'].
  - by apply complete_ok.
Qed.

Lemma newAckSeen_ok ms me : 1 ≤ ms → 0 ≤ me → seen_ok (newAckSeen ms me).
Proof.
  intros ? ?. split; cbn; try done.
  rewrite map_size_empty. lia.
Qed.

Lemma seen_stream_fields k max s :
  maxStreams (seen_stream k max s) = maxStreams s ∧ maxErrors (seen_stream k max s) = maxErrors s.
Proof. unfold seen_stream. repeat case_match; cbn; try done; apply evictLocked_fields. Qed.

Lemma seen_do_fields x o : maxStreams (seen_do x o).1 = maxStreams x.1 ∧ maxErrors (seen_do x o).1 = maxErrors x.1.
Proof.
  destruct x as [s h], o as [sp stream off id|sp stream r code]; cbn.
  - unfold begin. set (s1 := mkSeen _ _ (uint64 _) _ _). set (max := if _ <=? 0 then _ else _).
    pose proof (seen_stream_fields (sp_key sp, sp_cred sp, stream) max s1) as [E1 E2]. repeat case_match; simplify_eq; cbn; by rewrite ?E1, ?E2.
  - unfold complete, settle. by repeat case_match.
Qed.

Lemma seen_run_fields ops : ∀ x,
  maxStreams (foldl seen_do x ops).1 = maxStreams x.1 ∧ maxErrors (foldl seen_do x ops).1 = maxErrors x.1.
Proof.
  induction ops as [|o ops IH]; intros x; [done|]. cbn. destruct (IH (seen_do x o)) as [-> ->]. apply seen_do_fields.
Qed.

(** Whatever frames arrive and whatever handlers answer, the dedupe memory
    holds at most [maxStreams] streams with at most [maxErrors] rejections
    each, and [perPeer] counts each peer's streams exactly. *)
Theorem ack_seen_bounds ms me ops :
  1 ≤ ms → 0 ≤ me →
  let s := (foldl seen_do (newAckSeen ms me, []) ops).1 in
  Z.of_nat (size (streams s)) ≤ ms ∧
  (∀ peer, default 0 (perPeer s !! peer) = Z.of_nat (peer_count peer (streams s))) ∧
  (∀ k st, streams s !! k = Some st → Z.of_nat (size (errs st)) ≤ me).
Proof.
  intros Hms Hme s. destruct (seen_run_fields ops (newAckSeen ms me, [])) as [E1 E2]. cbn in E1, E2. fold s in E1, E2.
  destruct (seen_run_ok ops (newAckSeen ms me, [])) as [_ _ H1 H2 H3]; [by apply newAckSeen_ok|].
  fold s in H1, H2, H3. rewrite E1 in H1. rewrite E2 in H3. done.
Qed.

Definition seen_demo : list seen_op :=
  let sp := dedupePeer (λ a b, (a ++ b)%string) "p" "t" in
  [OBegin sp "a" 1 ""; OComplete sp "a" 0 AckRejected; OBegin sp "a" 2 ""; OComplete sp "a" 1 AckRejected;
   OBegin sp "b" 1 ""].

Lemma ack_seen_bounds_witness :
  1 ≤ 1 ∧ 0 ≤ 1 ∧ Z.of_nat (size (streams (foldl seen_do (newAckSeen 1 1, []) seen_demo).1)) ≤ 1.
Proof.
  split; [lia|]. split; [lia|]. exact (proj1 (ack_seen_bounds 1 1 seen_demo ltac:(lia) ltac:(lia))).
Defined.
