(* ===== verification/AckLink.v ===== *)
(** * Acknowledged links (go/runtime/bus/network_ack.go, and the outbound half
    of network_link.go)

    The dialer's writer with its tracker, the acceptor's reader, publisher and
    puback writer, and the connections between them as one system.  An old
    connection may still be read by the acceptor while the dialer is on a new
    one, and the steps of the goroutines interleave freely: the reader between
    remembering a frame and publishing it, the writer between two frames of a
    batch, handlers that finish later. *)

From S2P Require Import Prelude StreamLog StreamWire StreamAck.

Local Open Scope Z_scope.

Section AckLink.
Context {Ev : Type} `{!Inhabited Ev} {L : Type} `{!StreamLogOps (Ev := Ev) L}.
(** What the acceptor finds in a frame: the event's id, whether the event
    decodes, comes from the acceptor itself, or has a reserved topic. *)
Context (ev_id : Ev → string) (usable own reserved : LogEntry Ev → bool).
(** The peer and its stream as the acceptor's memory knows them. *)
Context (sp : seenPeer) (stream : string).

Abbreviation Entry := (LogEntry Ev).

(** ** The dialer *)

(** [d_up] is the link's number and whether it acknowledges; [d_batch] the
    entries [drain] has read and not yet looked at.  [d_hist] is every append
    and [d_res] every answer given to a ticket, in order, by the offset of its
    event.  The ticket of the entry at offset [o] is called [o]. *)
Record ackDialer := mkDialer {
  d_log : L;
  d_send : sendCursor;
  d_acks : ackTracker nat;
  d_up : option (nat * bool);
  d_batch : list Entry;
  d_hist : list Entry;
  d_res : list (Z * string);
}.

(** [applyAcks]: the answers, by offset. *)
Definition answers (rs : list (ackResolution (T := nat))) : list (Z * string) := (λ r, (r.1.1, r.2)) <$> rs.

Definition set_acks (a : ackTracker nat) (rs : list (ackResolution (T := nat))) (d : ackDialer) : ackDialer :=
  mkDialer (d_log d) (d_send d) a (d_up d) (d_batch d) (d_hist d) (d_res d ++ answers rs).

(** [observe] of a publish, acknowledged or not, and [appendMarker]. *)
Definition d_append (e : Entry) (acked : bool) (d : ackDialer) : ackDialer :=
  let t := if acked && negb (Marker e) then Some (S (length (d_hist d))) else None in
  let '(off, log) := Append (mkEntry 0 (le_Event e) (Origin e) (Marker e) (via e) t) (d_log d) in
  mkDialer log (d_send d) (match t with Some t => tr_register off t (d_acks d) | None => d_acks d end)
           (d_up d) (d_batch d) (d_hist d ++ [mkEntry off (le_Event e) (Origin e) (Marker e) (via e) t]) (d_res d).

(** The head of [drain]'s loop on an outbound link. *)
Definition d_fetch (max : Z) (d : ackDialer) : ackDialer :=
  match d_up d, d_batch d with
  | Some _, [] =>
      let '(es, gap, c) := next (d_log d) max (d_send d) in
      let '(rs, a) := match es with
                      | e :: _ => if 0 <? gap then onGap (at_ (d_send d)) (Offset e) (d_acks d) else ([], d_acks d)
                      | [] => ([], d_acks d)
                      end in
      mkDialer (d_log d) c a (d_up d) es (d_hist d) (d_res d ++ answers rs)
  | _, _ => d
  end.

(** The link ends: with an outbox the cursor goes back to the entry in hand. *)
Definition d_close (d : ackDialer) : ackDialer :=
  let c := match d_batch d with
           | e :: _ => if outbox (d_send d) then mkCursor (Offset e - 1) (outbox (d_send d)) else d_send d
           | [] => d_send d
           end in
  mkDialer (d_log d) c (d_acks d) None [] (d_hist d) (d_res d).

Definition next_entry (es : list Entry) (d : ackDialer) : ackDialer :=
  mkDialer (d_log d) (d_send d) (d_acks d) (d_up d) es (d_hist d) (d_res d).

(** [ackSkipped]. *)
Definition d_skip (e : Entry) (d : ackDialer) : ackDialer :=
  match ticket e with
  | None => d
  | Some t => let '(r, a) := onSkip (Offset e) (Some t) (d_acks d) in set_acks a (option_list r) d
  end.

(** [ackSent]. *)
Definition d_sent (acks : bool) (e : Entry) (d : ackDialer) : ackDialer :=
  let '(r, a) := onSend (Offset e) (ticket e) acks (d_acks d) in set_acks a (option_list r) d.

(** What became of a write. *)
Inductive written := Written | WriteFailed (delivered : bool).

(** [send] for the next entry of the batch; [pass] tells whether the link's
    filters let it through.  The frame is the entry. *)
Definition d_send_one (pass : bool) (w : written) (d : ackDialer) : option Entry * ackDialer :=
  match d_up d, d_batch d with
  | Some (_, acks), e :: es =>
      if negb pass then (None, next_entry es (d_skip e d))
      else if Marker e then (None, next_entry es d)
      else
        let d := d_sent acks e d in
        match w with
        | Written => (Some e, next_entry es d)
        | WriteFailed delivered => (if delivered then Some e else None, d_close d)
        end
  | _, _ => (None, d)
  end.

(** [connect]'s last part, for link [i]. *)
Definition d_connect (i : nat) (acks : bool) (d : ackDialer) : ackDialer :=
  let c := cursor_linkUp (d_log d) (d_send d) in
  let '(rs, a, c) := tr_linkUp acks c (d_acks d) in
  mkDialer (d_log d) c a (Some (i, acks)) [] (d_hist d) (d_res d ++ answers rs).

(** [link.onPuback]; a protocol error closes the link. *)
Definition ticket_id (d : ackDialer) (t : nat) : string :=
  match d_hist d !! Nat.pred t with Some e => ev_id (le_Event e) | None => "" end.

Definition d_puback (slots : Z) (p : pubackInfo) (d : ackDialer) : ackDialer :=
  let '(r, a) := onPuback (ticket_id d) p (d_acks d) in
  let a := if 2 * slots <? Z.of_nat (size (waits a))
           then prune (λ t, bool_decide (Z.of_nat t ∈ (d_res d).*1)) a else a in
  match r with
  | Ok rs => set_acks a rs d
  | Err _ => d_close (set_acks a [] d)
  end.

(** A ticket answered by its deadline, or by [PublishAcked] itself. *)
Definition d_give_up (o : Z) (code : string) (d : ackDialer) : ackDialer :=
  if String.eqb code "" then d
  else mkDialer (d_log d) (d_send d) (d_acks d) (d_up d) (d_batch d) (d_hist d) (d_res d ++ [(o, code)]).

(** [failAcks]. *)
Definition d_fail (code : string) (d : ackDialer) : ackDialer :=
  if String.eqb code "" then d else let '(rs, a) := failAll code (d_acks d) in set_acks a rs d.

(** ** The acceptor *)

(** [a_running]: results whose handlers still run.  [a_published] lists the
    offsets passed to the bus, [a_accepted] those the acceptor is done with:
    every handler returned, or the event was its own. *)
Record ackAcceptor := mkAccept {
  a_seen : ackSeen;
  a_heap : heap;
  a_running : list nat;
  a_published : list Z;
  a_accepted : list Z;
}.

(** One connection, from the acceptor's side: frames on the way, the frame the
    reader holds while it waits for room (with the id to answer, its result
    and whether it is to be published), the puback queue, pubacks on the way,
    and whether the acceptor still holds its end. *)
Record ackConn := mkConn {
  c_fwd : list Entry;
  c_hold : option (Entry * string * nat * bool);
  c_ackq : ackQueue;
  c_bwd : list pubackInfo;
  c_open : bool;
}.

Definition acc_complete (r : nat) (code : string) (a : ackAcceptor) : ackAcceptor :=
  let '(s, h) := complete sp stream r code (a_seen a) (a_heap a) in
  mkAccept s h (a_running a) (a_published a) (a_accepted a).

Definition acc_accept (o : Z) (a : ackAcceptor) : ackAcceptor :=
  mkAccept (a_seen a) (a_heap a) (a_running a) (a_published a) (a_accepted a ++ [o]).

(** [onAckedEvent] up to [queueAck]. *)
Definition acc_begin (e : Entry) (a : ackAcceptor) : (Entry * string * nat * bool) * ackAcceptor :=
  let id := if usable e then ev_id (le_Event e) else "" in
  let '(r, dup, s, h) := begin sp stream (Offset e) id (a_seen a) (a_heap a) in
  let a := mkAccept s h (a_running a) (a_published a) (a_accepted a) in
  if usable e then ((e, id, r, negb dup), a)
  else ((e, id, r, false), if dup then a else acc_complete r AckInvalid a).

(** What the bus did with a published event. *)
Inductive publish_outcome := Vetoed | HandlersDone | HandlersRun.

(** [onAckedEvent] from there on, for a frame to be published. *)
Definition acc_publish (e : Entry) (r : nat) (out : publish_outcome) (a : ackAcceptor) : ackAcceptor :=
  if own e then acc_complete r "" (acc_accept (Offset e) a)
  else if reserved e then acc_complete r AckInvalid a
  else
    let a := mkAccept (a_seen a) (a_heap a) (a_running a) (a_published a ++ [Offset e]) (a_accepted a) in
    match out with
    | Vetoed => acc_complete r AckRejected a
    | HandlersDone => acc_complete r "" (acc_accept (Offset e) a)
    | HandlersRun => mkAccept (a_seen a) (a_heap a) (r :: a_running a) (a_published a) (a_accepted a)
    end.

(** The last handler of a frame returns: [onLocal]. *)
Definition acc_done (r : nat) (a : ackAcceptor) : ackAcceptor :=
  match a_heap a !! r with
  | Some x =>
      if bool_decide (r ∈ a_running a) then acc_complete r "" (acc_accept (pa_Offset (ar_p x)) a) else a
  | None => a
  end.

Definition conn_read (c : ackConn) (a : ackAcceptor) : ackConn * ackAcceptor :=
  match c_hold c, c_fwd c with
  | None, e :: es => let '(hold, a) := acc_begin e a in (mkConn es (Some hold) (c_ackq c) (c_bwd c) (c_open c), a)
  | _, _ => (c, a)
  end.

(** [queueAck] and what follows; a full queue makes the reader wait. *)
Definition conn_queue (out : publish_outcome) (c : ackConn) (a : ackAcceptor) : ackConn * ackAcceptor :=
  match c_hold c with
  | Some (e, id, r, fresh) =>
      match q_push (Offset e) id r (c_ackq c) with
      | Some q => (mkConn (c_fwd c) None q (c_bwd c) (c_open c), if fresh then acc_publish e r out a else a)
      | None => (c, a)
      end
  | None => (c, a)
  end.

(** [flushAcks]. *)
Definition conn_flush (h : heap) (c : ackConn) : ackConn :=
  let '(ps, q) := q_ready h (c_ackq c) in mkConn (c_fwd c) (c_hold c) q (c_bwd c ++ ps) (c_open c).

(** The acceptor's end closes: frames not read and pubacks not written go.  A
    reader with a frame in hand notices only while it waits for room. *)
Definition conn_cut (c : ackConn) : ackConn :=
  match c_hold c with
  | Some (e, id, r, _) =>
      match q_push (Offset e) id r (c_ackq c) with
      | Some _ => c
      | None => mkConn [] None (mkAckQueue [] (q_max (c_ackq c))) (c_bwd c) false
      end
  | None => mkConn [] None (mkAckQueue [] (q_max (c_ackq c))) (c_bwd c) false
  end.

(** ** Both ends *)

Record acks := mkAcks { k_dialer : ackDialer; k_acceptor : ackAcceptor; k_conns : gmap nat ackConn }.

Inductive ack_action :=
| KAppend (e : Entry) (acked : bool)
| KFetch (max : Z)
| KSend (pass : bool) (w : written)
| KClose
| KConnect (i : nat) (acks : bool) (qmax : Z)
| KPuback (slots : Z)
| KGiveUp (o : Z) (code : string)
| KFail (code : string)
| KRead (i : nat)
| KQueue (i : nat) (out : publish_outcome)
| KDone (r : nat)
| KFlush (i : nat)
| KCut (i : nat).

Definition on_dialer (f : ackDialer → ackDialer) (s : acks) : acks := mkAcks (f (k_dialer s)) (k_acceptor s) (k_conns s).

Definition on_conn (i : nat) (f : ackConn → ackAcceptor → ackConn * ackAcceptor) (s : acks) : acks :=
  match k_conns s !! i with
  | Some c => let '(c, a) := f c (k_acceptor s) in mkAcks (k_dialer s) a (<[i := c]> (k_conns s))
  | None => s
  end.

Definition add_frame (e : Entry) (c : ackConn) : ackConn :=
  if c_open c then mkConn (c_fwd c ++ [e]) (c_hold c) (c_ackq c) (c_bwd c) true else c.

(** An entry sent over an acknowledging link arrives at its connection. *)
Definition acks_send (pass : bool) (w : written) (s : acks) : acks :=
  let '(f, d) := d_send_one pass w (k_dialer s) in
  mkAcks d (k_acceptor s)
    (match f, d_up (k_dialer s) with
     | Some e, Some (i, true) => alter (add_frame e) i (k_conns s)
     | _, _ => k_conns s
     end).

Definition acks_puback (slots : Z) (s : acks) : acks :=
  match d_up (k_dialer s) with
  | Some (i, true) =>
      match k_conns s !! i with
      | Some (mkConn fwd hold q (p :: ps) op) =>
          mkAcks (d_puback slots p (k_dialer s)) (k_acceptor s) (<[i := mkConn fwd hold q ps op]> (k_conns s))
      | _ => s
      end
  | _ => s
  end.

Definition acks_connect (i : nat) (acked : bool) (qmax : Z) (s : acks) : acks :=
  match d_up (k_dialer s), k_conns s !! i with
  | None, None =>
      mkAcks (d_connect i acked (k_dialer s)) (k_acceptor s)
        (if acked then <[i := mkConn [] None (newAckQueue qmax) [] true]> (k_conns s) else k_conns s)
  | _, _ => s
  end.

Definition acks_do (s : acks) (x : ack_action) : acks :=
  match x with
  | KAppend e acked => if Head (d_log (k_dialer s)) <? 2 ^ 64 - 2 then on_dialer (d_append e acked) s else s
  | KFetch max => if (0 <? max) && (max <? 2 ^ 63) then on_dialer (d_fetch max) s else s
  | KSend pass w => acks_send pass w s
  | KClose => on_dialer d_close s
  | KConnect i acked qmax => acks_connect i acked qmax s
  | KPuback slots => acks_puback slots s
  | KGiveUp o code => on_dialer (d_give_up o code) s
  | KFail code => on_dialer (d_fail code) s
  | KRead i => on_conn i conn_read s
  | KQueue i out => on_conn i (conn_queue out) s
  | KDone r => mkAcks (k_dialer s) (acc_done r (k_acceptor s)) (k_conns s)
  | KFlush i => on_conn i (λ c a, (conn_flush (a_heap a) c, a)) s
  | KCut i => on_conn i (λ c a, (conn_cut c, a)) s
  end.

Definition acks_run (xs : list ack_action) (s : acks) : acks := foldl acks_do s xs.

(** [peerFor] on a log with history [h], and a new acceptor. *)
Definition acks_start (log : L) (h : list Entry) (outbox : bool) (maxStreams maxErrors : Z) : acks :=
  let c := newSendCursor log outbox in
  mkAcks (mkDialer log c (newAckTracker (at_ c)) None [] h []) (mkAccept (newAckSeen maxStreams maxErrors) [] [] [] []) ∅.

(** The first answer a ticket got: the one it reports. *)
Definition answer (o : Z) (d : ackDialer) : option string := snd <$> filter (λ x, x.1 = o) (d_res d) !! O.

End AckLink.
