(* ===== verification/AckDelivery.v ===== *)
(** * What an acknowledgement means

    The system of AckLink with one dialer stream in the acceptor's memory: an
    event reported as acknowledged was accepted by the peer, over any run of
    sends, skips, evictions, reconnects (to peers with and without
    acknowledgements), redeliveries, vetoes, pruned results and deadlines; and
    no event is published twice.  The invariants are stated over a predicate
    [G] on offsets, "nothing can be wrongly confirmed here any more", and are
    monotone in it. *)

From S2P Require Import Prelude StreamLog StreamWire StreamAck AckLink.

Local Open Scope Z_scope.

(** ** The acceptor's memory *)

Section Memory.
Context (sp : seenPeer) (stream : string).

Let key : seenKey := (sp_key sp, sp_cred sp, stream).

Definition last_seen (s : ackSeen) : Z := default 0 (last_ <$> streams s !! key).

(** An answer that may be sent: an ok for an offset in [G], an error with a
    code. *)
Definition puback_ok (G : Z → Prop) (off : Z) (p : pubackInfo) : Prop :=
  (pa_Status p = pubackErr ∧ pa_Code p ≠ "") ∨ (pa_Status p = pubackOK ∧ G off).

Definition result_ok (G : Z → Prop) (x : ackResult) : Prop :=
  if ar_done x then puback_ok G (pa_Offset (ar_p x)) (ar_p x) else pa_Status (ar_p x) = pubackOK.

Lemma puback_ok_mono (G G' : Z → Prop) off p : (∀ o, G o → G' o) → puback_ok G off p → puback_ok G' off p.
Proof. unfold puback_ok. naive_solver. Qed.

(** Below [last], an offset is being handled, recorded as an error, pruned
    from those, or in [G]. *)
Record stream_ok (G : Z → Prop) (h : heap) (st : seenStream) : Prop := {
  sk_inflight : ∀ o r, inflight st !! o = Some r → ∃ p, h !! r = Some (mkResult false p) ∧ pa_Offset p = o;
  sk_errs : ∀ o p, errs st !! o = Some p → pa_Offset p = o ∧ pa_Status p = pubackErr ∧ pa_Code p ≠ "";
  sk_rest : ∀ o, o ≤ last_ st → inflight st !! o = None → errs st !! o = None → floor st < o → G o;
}.

Record memory_ok (G : Z → Prop) (s : ackSeen) (h : heap) : Prop := {
  mo_seen : seen_ok s;
  mo_only : ∀ k, is_Some (streams s !! k) → k = key;
  mo_stream : ∀ st, streams s !! key = Some st → stream_ok G h st;
  mo_heap : ∀ r x, h !! r = Some x → result_ok G x;
}.

Lemma memory_ok_mono (G G' : Z → Prop) s h : (∀ o, G o → G' o) → memory_ok G s h → memory_ok G' s h.
Proof.
  intros HG [H1 H2 H3 H4]. split; [done..| |].
  - intros st Hst. destruct (H3 st Hst) as [? ? Hr]. split; eauto.
  - intros r x Hx. specialize (H4 r x Hx). unfold result_ok in *. destruct (ar_done x); [by eapply puback_ok_mono|done].
Qed.

(** Results never move and keep their offset. *)
Definition heap_le (h h' : heap) : Prop :=
  ∀ r x, h !! r = Some x → ∃ x', h' !! r = Some x' ∧ pa_Offset (ar_p x') = pa_Offset (ar_p x).

#[export] Instance heap_le_refl : Reflexive heap_le.
Proof. intros h r x Hx. eauto. Qed.
#[export] Instance heap_le_trans : Transitive heap_le.
Proof. intros h1 h2 h3 H12 H23 r x (x' & Hx' & E)%H12. apply H23 in Hx' as (x'' & ? & ?). eexists. split; [done|congruence]. Qed.

Lemma heap_le_app h h' : heap_le h (h ++ h').
Proof. intros r x Hx. exists x. split; [|done]. by apply lookup_app_l_Some. Qed.

(** The first frame of the stream finds room. *)
Lemma seen_stream_first G s h :
  memory_ok G s h → streams s !! key = None →
  seen_stream key (if sp_max sp <=? 0 then maxStreams s else sp_max sp) s =
    mkSeen {[key := newStream]} (<[sp_key sp := 1]> (perPeer s)) (clock s) (maxStreams s) (maxErrors s).
Proof.
  intros M Hk. assert (He : streams s = ∅).
  { apply map_empty. intros k. destruct (streams s !! k) eqn:E; [|done].
    rewrite (mo_only _ _ _ M k) in E by eauto. congruence. }
  pose proof (so_peer _ (mo_seen _ _ _ M) (sp_key sp)) as Hp. pose proof (so_max _ (mo_seen _ _ _ M)).
  assert (Hz : peer_count (sp_key sp) (streams s) = O) by (unfold peer_count; by rewrite He, map_filter_empty, map_size_empty).
  set (max := if _ <=? 0 then _ else _).
  assert (Hmax : 1 ≤ max) by (unfold max; destruct (Z.leb_spec (sp_max sp) 0); lia).
  rewrite Hz in Hp. unfold seen_stream. rewrite Hk. cbn [fst]. change (key.1.1) with (sp_key sp).
  rewrite Hp, He, map_size_empty. rewrite !(proj2 (Z.leb_gt _ _)) by (simpl; lia). by rewrite Hp, He, insert_empty.
Qed.

Lemma newStream_ok G h : (∀ o, o ≤ 0 → G o) → stream_ok G h newStream.
Proof. intros HG. split; cbn; intros; simplify_map_eq. by apply HG. Qed.

Lemma seen_stream_memory G s h :
  (∀ o, o ≤ 0 → G o) → memory_ok G s h →
  let s' := seen_stream key (if sp_max sp <=? 0 then maxStreams s else sp_max sp) s in
  memory_ok G s' h ∧ ∃ st, streams s' !! key = Some st ∧ last_ st = last_seen s.
Proof.
  intros HG M s'. pose proof (so_max _ (mo_seen _ _ _ M)).
  assert (Hok : seen_ok s').
  { apply seen_stream_ok; [apply M|]. destruct (Z.leb_spec (sp_max sp) 0); lia. }
  destruct (streams s !! key) as [st|] eqn:Hk.
  - assert (Hs : s' = s) by (unfold s', seen_stream; by rewrite Hk). rewrite Hs in *. split; [done|].
    exists st. unfold last_seen. by rewrite Hk.
  - unfold s' in *. rewrite (seen_stream_first G s h M Hk) in *. cbn [streams]. split.
    + split; cbn [streams]; [done| | |apply M].
      * intros k [st [<- _]%lookup_singleton_Some]. done.
      * intros st [_ <-]%lookup_singleton_Some. by apply newStream_ok.
    + exists newStream. unfold last_seen. rewrite Hk, lookup_singleton_eq. done.
Qed.

(** Replacing the stream by one that is fine. *)
Lemma memory_put G s h h' c st st' :
  memory_ok G s h → streams s !! key = Some st → Z.of_nat (size (errs st')) ≤ maxErrors s →
  stream_ok G h' st' → (∀ r x, h' !! r = Some x → result_ok G x) →
  memory_ok G (mkSeen (<[key := st']> (streams s)) (perPeer s) c (maxStreams s) (maxErrors s)) h'.
Proof.
  intros M Hk He Hst Hh. split; cbn [streams]; [by eapply seen_put_ok, He; [apply M|]| | |done].
  - intros k Hsome. destruct (decide (k = key)) as [|Hne]; [done|]. rewrite lookup_insert_ne in Hsome by done. by eapply mo_only.
  - intros st'' Hl. rewrite lookup_insert_eq in Hl. by simplify_eq.
Qed.

(** [begin]: a fresh frame needs every offset between [last] and it to be in
    [G]; a redelivery gets an answer in line with what is known. *)
Lemma begin_memory G s h off id r dup s' h' :
  (∀ o, o ≤ 0 → G o) → memory_ok G s h → (∀ o, o < off → o ≤ last_seen s ∨ G o) →
  begin sp stream off id s h = (r, dup, s', h') →
  memory_ok G s' h' ∧ last_seen s' = Z.max (last_seen s) off ∧ heap_le h h' ∧
  (∃ x, h' !! r = Some x ∧ pa_Offset (ar_p x) = off) ∧ (dup = false → last_seen s < off).
Proof.
  intros HG M Hlow. unfold begin. fold key. set (s1 := mkSeen _ _ (uint64 _) _ _).
  assert (M1 : memory_ok G s1 h) by (destruct M as [[? ? ? ? ?] ? ? ?]; split; [by split|done..]).
  destruct (seen_stream_memory G s1 h HG M1) as (M2 & st & Hst & Hlast).
  change (maxStreams s) with (maxStreams s1). set (s2 := seen_stream _ _ s1) in *. rewrite Hst.
  change (default newStream (Some st)) with st. cbn [last_ inflight errs floor used].
  change (last_seen s1) with (last_seen s) in Hlast. pose proof (mo_stream _ _ _ M2 st Hst) as Hok.
  pose proof (so_errs _ (mo_seen _ _ _ M2) _ _ Hst) as He. destruct Hok as [Hi Hr Hrest].
  assert (Hls : ∀ st' c, last_seen (mkSeen (<[key := st']> (streams s2)) (perPeer s2) c (maxStreams s2) (maxErrors s2)) = last_ st').
  { intros st' c. unfold last_seen. cbn. by rewrite lookup_insert_eq. }
  assert (Hdone : ∀ x, result_ok G x → ∀ r' x', (h ++ [x]) !! r' = Some x' → result_ok G x').
  { intros x Hx r' x' Hl. apply lookup_app_Some in Hl as [Hl|[_ Hl]]; [by eapply (mo_heap _ _ _ M)|].
    by apply list_lookup_singleton_Some in Hl as [_ <-]. }
  destruct (Z.leb_spec off (last_ st)) as [Hle|Hgt].
  - destruct (inflight st !! off) as [r0|] eqn:Hin.
    + intros [= <- <- <- <-]. split_and!; [|rewrite Hls; cbn; lia|done| |done].
      * eapply memory_put; [done..| |apply M]. by split.
      * destruct (Hi _ _ Hin) as (p & Hp & E). eexists. split; [done|]. done.
    + set (p := match errs st !! off with Some _ => _ | None => _ end). intros [= <- <- <- <-].
      assert (Hp : pa_Offset p = off ∧ puback_ok G off p).
      { unfold p, puback_ok. destruct (errs st !! off) as [p0|] eqn:Hep; [destruct (Hr _ _ Hep) as (? & ? & ?); auto|].
        destruct (Z.leb_spec off (floor st)); cbn; auto. }
      destruct Hp as [Hp1 Hp2]. split_and!; [|rewrite Hls; cbn; lia|apply heap_le_app| |done].
      * eapply memory_put; [done..| |apply Hdone; unfold result_ok; cbn; by rewrite Hp1].
        split; cbn; [|done..]. intros o r0 (p0 & ? & ?)%Hi. exists p0. split; [|done]. by apply lookup_app_l_Some.
      * exists (completedAck p). split; [by apply list_lookup_middle|done].
  - intros [= <- <- <- <-]. split_and!; [|rewrite Hls; cbn; lia|apply heap_le_app| |lia].
    + eapply memory_put; [done..| |].
      * split; cbn; [|done|].
        -- intros o r0 [[<- <-]|[_ (p0 & ? & ?)%Hi]]%lookup_insert_Some.
           ++ eexists. split; [by apply list_lookup_middle|done].
           ++ exists p0. split; [|done]. by apply lookup_app_l_Some.
        -- intros o Ho Hn Hne Hf. destruct (decide (o = off)) as [->|]; [by rewrite lookup_insert_eq in Hn|].
           rewrite lookup_insert_ne in Hn by done. destruct (Hlow o ltac:(lia)) as [Hl|]; [|done]. apply Hrest; auto. lia.
      * by apply Hdone.
    + eexists. split; [by apply list_lookup_middle|done].
Qed.

(** What pruning forgets is at or below the floor. *)
Lemma prune_errs_floor fuel m off : ∀ st,
  let st' := prune_errs fuel m off st in
  last_ st' = last_ st ∧ inflight st' = inflight st ∧ floor st ≤ floor st' ∧ errs st' ⊆ errs st ∧
  ∀ o, is_Some (errs st !! o) → is_Some (errs st' !! o) ∨ o ≤ floor st'.
Proof.
  induction fuel as [|fuel IH]; intros st; cbn; [split_and!; try done; auto|].
  destruct (m <? _); [|split_and!; try done; auto].
  set (lowest := foldr _ _ _). set (st1 := mkStream _ _ _ _ _). destruct (IH st1) as (-> & -> & Hf & He & Hs).
  split_and!; [done..|cbn in Hf; lia|etransitivity; [exact He|apply delete_subseteq]|].
  intros o Ho. destruct (decide (o = lowest)) as [->|Hne]; [right; cbn in Hf; lia|].
  apply Hs. cbn. by rewrite lookup_delete_ne.
Qed.

Lemma stream_ok_heap G h h' st :
  (∀ o r, inflight st !! o = Some r → h' !! r = h !! r) → stream_ok G h st → stream_ok G h' st.
Proof. intros Hh [Hi ? ?]. split; [|done..]. intros o r Ho. rewrite (Hh o r Ho). auto. Qed.

(** The result at [r] of offset [o] becomes the answer [p']: what the stream
    must then record. *)
Lemma settle_memory G s h r p p' st st2 :
  memory_ok G s h → streams s !! key = Some st → h !! r = Some (mkResult false p) → pa_Offset p' = pa_Offset p →
  puback_ok G (pa_Offset p) p' →
  last_ st2 = last_ st → inflight st2 = delete (pa_Offset p) (inflight st) →
  Z.of_nat (size (errs st2)) ≤ maxErrors s → floor st ≤ floor st2 →
  (∀ o q, errs st2 !! o = Some q → errs st !! o = Some q ∨ o = pa_Offset p ∧ q = p' ∧ pa_Status p' = pubackErr) →
  (∀ o, is_Some (errs st !! o) → is_Some (errs st2 !! o) ∨ o ≤ floor st2) →
  (is_Some (errs st2 !! pa_Offset p) ∨ pa_Offset p ≤ floor st2 ∨ G (pa_Offset p)) →
  let s2 := mkSeen (<[key := st2]> (streams s)) (perPeer s) (clock s) (maxStreams s) (maxErrors s) in
  memory_ok G s2 (<[r := mkResult true p']> h) ∧ last_seen s2 = last_seen s.
Proof.
  intros M Hst Hr Hoff HG E1 E2 E3 E4 E5 E6 E7 s2. split; [|unfold last_seen; cbn; by rewrite lookup_insert_eq, Hst; cbn; rewrite E1].
  destruct (mo_stream _ _ _ M st Hst) as [Hi Hq Hrest].
  eapply memory_put; [done..| |].
  - split.
    + intros o r0. rewrite E2. intros [Hne Ho]%lookup_delete_Some. destruct (Hi _ _ Ho) as (p0 & Hp0 & <-). exists p0. split; [|done].
      rewrite list_lookup_insert_ne; [done|]. intros ->. congruence.
    + intros o q [Ho|(-> & -> & Hs)]%E5; [auto|]. split_and!; [done..|].
      destruct HG as [[_ ?]|[Hs' _]]; [done|]. rewrite Hs in Hs'. done.
    + intros o. rewrite E1, E2. intros Ho Hn Hne Hf. destruct (decide (o = pa_Offset p)) as [->|Hd].
      * destruct E7 as [[? ?]|[?|?]]; [congruence|lia|done].
      * rewrite lookup_delete_ne in Hn by done. apply Hrest; [done..| |lia].
        destruct (errs st !! o) eqn:E; [|done]. destruct (E6 o) as [[? ?]|?]; [eauto|congruence|lia].
  - intros r0 x0 Hl. destruct (decide (r0 = r)) as [->|].
    + rewrite list_lookup_insert_eq in Hl by (by eapply lookup_lt_Some). simplify_eq. unfold result_ok. cbn. by rewrite Hoff.
    + rewrite list_lookup_insert_ne in Hl by done. by eapply (mo_heap _ _ _ M).
Qed.

(** [complete]: an ok needs its offset in [G]. *)
Lemma complete_memory G s h r code s' h' :
  memory_ok G s h → complete sp stream r code s h = (s', h') →
  (∀ x, h !! r = Some x → code = "" → G (pa_Offset (ar_p x))) →
  memory_ok G s' h' ∧ last_seen s' = last_seen s ∧ heap_le h h'.
Proof.
  intros M Hc HG. unfold complete in Hc. destruct (h !! r) as [[[] p]|] eqn:Hr; [by simplify_eq| |by simplify_eq].
  specialize (HG _ eq_refl). cbn in HG. injection Hc as <- <-.
  set (p' := if String.eqb code "" then p else _).
  assert (Hoff : pa_Offset p' = pa_Offset p) by (unfold p'; by destruct (String.eqb code "")).
  assert (HG' : puback_ok G (pa_Offset p) p').
  { unfold p', puback_ok. destruct (String.eqb_spec code ""); [|by left]. right. split; [|auto]. by apply (mo_heap _ _ _ M _ _ Hr). }
  assert (Hle : heap_le h (<[r := mkResult true p']> h)).
  { intros r0 x Hx. destruct (decide (r0 = r)) as [->|]; [|exists x; by rewrite list_lookup_insert_ne].
    exists (mkResult true p'). rewrite list_lookup_insert_eq by (by eapply lookup_lt_Some). simplify_eq. done. }
  apply and_assoc. split; [|done]. unfold settle. fold key. destruct (streams s !! key) as [st|] eqn:Hst.
  2: { split; [|done]. pose proof M as [M1 M2 M3 M4]. split; [done..|congruence|].
       intros r0 x0 Hl. destruct (decide (r0 = r)) as [->|]; [|rewrite list_lookup_insert_ne in Hl by done; by eapply M4].
       rewrite list_lookup_insert_eq in Hl by (by eapply lookup_lt_Some). simplify_eq. unfold result_ok. cbn. by rewrite Hoff. }
  pose proof (so_errs _ (mo_seen _ _ _ M) _ _ Hst) as He. rewrite Hoff. cbn [last_ inflight errs floor used].
  destruct (String.eqb_spec (pa_Status p') pubackErr) as [Herr|Herr]; cbn [negb].
  2: { eapply settle_memory; cbn; eauto; try done. destruct HG' as [[? _]|[_ ?]]; [done|auto]. }
  set (st2 := mkStream _ _ _ _ (<[pa_Offset p := p']> _)).
  destruct (prune_errs_floor (size (errs st2)) (maxErrors s) (pa_Offset p) st2) as (P1 & P2 & P3 & P4 & P5).
  assert (Hsz : Z.of_nat (size (errs (prune_errs (size (errs st2)) (maxErrors s) (pa_Offset p) st2))) ≤ maxErrors s).
  { destruct (size (errs st2)) as [|n] eqn:Hs.
    { apply map_size_empty_iff in Hs. by destruct (insert_non_empty _ _ _ Hs). }
    apply prune_errs_size; cbn; [rewrite dom_insert_L; set_solver|]. rewrite map_size_insert. destruct (errs st !! _); simpl; lia. }
  eapply settle_memory; eauto; rewrite ?P1, ?P2; try done.
  - intros o q Hq. eapply lookup_weaken in Hq; [|exact P4]. cbn in Hq. apply lookup_insert_Some in Hq as [[<- <-]|[_ ?]]; auto.
  - intros o Ho. apply P5. cbn. rewrite lookup_insert_is_Some. destruct (decide (pa_Offset p = o)); auto.
  - destruct (P5 (pa_Offset p)) as [?|?]; [|by left|auto]. cbn. rewrite lookup_insert_eq. eauto.
Qed.

End Memory.

(** ** The tracker's answers *)

Section Answers.
Implicit Types a : ackTracker nat.

(** Waits an operation leaves, and those it answers. *)
Definition keeps_waits (a a' : ackTracker nat) (xs : list (Z * string)) : Prop :=
  waits a' ⊆ waits a ∧ ∀ o, is_Some (waits a !! o) → is_Some (waits a' !! o) ∨ o ∈ xs.*1.

Lemma keeps_waits_refl a xs : keeps_waits a a xs.
Proof. split; auto. Qed.

Lemma keeps_waits_app a a' xs ys : keeps_waits a a' xs → keeps_waits a a' (ys ++ xs).
Proof. intros [H1 H2]. split; [done|]. intros o Ho. rewrite fmap_app, elem_of_app. destruct (H2 o Ho); auto. Qed.

Lemma elem_of_tr_offsets keep a o : o ∈ tr_offsets keep a ↔ keep o = true ∧ is_Some (waits a !! o).
Proof. unfold tr_offsets. rewrite merge_sort_Permutation, list_elem_of_filter, elem_of_elements, elem_of_dom. done. Qed.

Lemma elem_of_answers_omap (code : Z → string) offs a o c :
  (o, c) ∈ answers (omap (λ off, (λ t, (off, t, code off)) <$> waits a !! off) offs) ↔
  o ∈ offs ∧ is_Some (waits a !! o) ∧ c = code o.
Proof.
  unfold answers. rewrite list_elem_of_fmap. split.
  - intros ([[o' t] c'] & [= -> ->] & Hin). apply list_elem_of_omap in Hin as (off & Hoff & Hw).
    destruct (waits a !! off) as [t'|] eqn:E; [|done]. cbn in Hw. simplify_eq. eauto.
  - intros (Ho & [t Ht] & ->). exists (o, t, code o). split; [done|]. apply list_elem_of_omap. exists o. by rewrite Ht.
Qed.

Lemma answered_omap (code : Z → string) offs a o :
  o ∈ offs → is_Some (waits a !! o) →
  o ∈ (answers (omap (λ off, (λ t, (off, t, code off)) <$> waits a !! off) offs)).*1.
Proof. intros Ho Hw. apply list_elem_of_fmap. exists (o, code o). split; [done|]. by apply elem_of_answers_omap. Qed.

Lemma drain_waits keep code a rs a' :
  tr_drain keep code a = (rs, a') →
  acked a' = acked a ∧ tr_sent a' = tr_sent a ∧ keeps_waits a a' (answers rs) ∧
  (∀ x, x ∈ answers rs → x.2 = code) ∧ (∀ o, keep o = true → is_Some (waits a !! o) → o ∈ (answers rs).*1).
Proof.
  unfold tr_drain. intros [= <- <-]. split_and!; [done..| | |].
  - split; [apply map_filter_subseteq|]. cbn. intros o [t Ht]. destruct (keep o) eqn:Hk.
    + right. apply answered_omap; [|eauto]. apply elem_of_tr_offsets. eauto.
    + left. exists t. by apply map_lookup_filter_Some.
  - intros [o c] (_ & _ & ->)%(elem_of_answers_omap (λ _, code)). done.
  - intros o Hk Hw. apply answered_omap; [|done]. by apply elem_of_tr_offsets.
Qed.

Lemma onPuback_waits tid p a r a' :
  onPuback tid p a = (r, a') →
  match r with
  | Err _ => a' = a
  | Ok rs =>
      if pa_Offset p <=? acked a then rs = [] ∧ a' = a
      else acked a' = pa_Offset p ∧ keeps_waits a a' (answers rs) ∧
           (∀ o, o ≤ pa_Offset p → is_Some (waits a !! o) → o ∈ (answers rs).*1) ∧
           (∀ o c, (o, c) ∈ answers rs → o ≤ pa_Offset p ∧ is_Some (waits a !! o) ∧
              c = if (o =? pa_Offset p) && String.eqb (pa_Status p) pubackErr then pa_Code p else "")
  end.
Proof.
  unfold onPuback. destruct (tr_sent a <? pa_Offset p); [by intros [= <- <-]|].
  destruct (match waits a !! pa_Offset p with Some _ => _ | None => _ end); [by intros [= <- <-]|].
  destruct (pa_Offset p <=? acked a); [by intros [= <- <-]|]. intros [= <- <-].
  set (code := λ off : Z, if (off =? pa_Offset p) && String.eqb (pa_Status p) pubackErr then pa_Code p else "").
  split_and!; [done| | |].
  - split; [apply map_filter_subseteq|]. cbn. intros o [t Ht]. destruct (o <=? pa_Offset p) eqn:Hk.
    + right. apply (answered_omap code); [|eauto]. apply elem_of_tr_offsets. eauto.
    + left. exists t. by apply map_lookup_filter_Some.
  - intros o Ho Hw. apply (answered_omap code); [|done]. apply elem_of_tr_offsets. split; [by apply Z.leb_le|done].
  - intros o c ([Ho%Z.leb_le _]%elem_of_tr_offsets & Hw & ->)%(elem_of_answers_omap code). done.
Qed.

Lemma take_waits off t a w a' :
  tr_take off (Some t) a = (w, a') →
  keeps_waits a a' [(off, "")] ∧ acked a' = acked a ∧ ∃ t', w = Some t'.
Proof.
  unfold tr_take. intros [= <- <-]. split_and!; [|done|destruct (waits a !! off); eauto].
  split; [apply delete_subseteq|]. cbn. intros o Ho. destruct (decide (o = off)) as [->|]; [right; set_solver|].
  left. by rewrite lookup_delete_ne.
Qed.

End Answers.

(** ** The invariant *)

Section Sound.
Context {Ev : Type} `{!Inhabited Ev} {L : Type} `{SL : StreamLog (Ev := Ev) L}.
Context (ev_id : Ev → string) (usable own reserved : LogEntry Ev → bool) (sp : seenPeer) (stream : string).

Abbreviation Entry := (LogEntry Ev).
Abbreviation dialer := (ackDialer (Ev := Ev) (L := L)).

(** Nothing is left to confirm at [o]: it was accepted, its ticket has an
    answer, or it has no ticket. *)
Definition good (hist : list Entry) (res : list (Z * string)) (accepted : list Z) (o : Z) : Prop :=
  o ≤ 0 ∨ o ∈ accepted ∨ o ∈ res.*1 ∨ ∃ e, e ∈ hist ∧ Offset e = o ∧ ticket e = None.

Lemma good_mono hist res acc hist' res' acc' o :
  hist ⊆ hist' → res ⊆ res' → acc ⊆ acc' → good hist res acc o → good hist' res' acc' o.
Proof.
  intros Hh Hr Ha [?|[?|[Ho|(e & ? & ? & ?)]]]; [by left|right; left; by apply Ha| |right; right; right; exists e; eauto].
  right; right; left. apply list_elem_of_fmap in Ho as (x & -> & Hx). apply list_elem_of_fmap. eauto.
Qed.

Record dialer_ok (G : Z → Prop) (d : dialer) : Prop := {
  do_log : holds (d_log d) (d_hist d);
  do_ticket : ∀ e t, e ∈ d_hist d → ticket e = Some t → Z.of_nat t = Offset e ∧ Marker e = false;
  do_waits : ∀ o t, waits (d_acks d) !! o = Some t → ∃ e, e ∈ d_hist d ∧ Offset e = o ∧ ticket e = Some t;
  do_all : ∀ e, e ∈ d_hist d → ticket e ≠ None → is_Some (waits (d_acks d) !! Offset e) ∨ Offset e ∈ (d_res d).*1;
  do_acked : 0 ≤ acked (d_acks d) ∧ ∀ o, o ≤ acked (d_acks d) → G o;
  do_at : 0 ≤ at_ (d_send d) ≤ Head (d_log d);
  do_batch : (∀ e, e ∈ d_batch d → e ∈ d_hist d) ∧ (d_up d = None → d_batch d = []);
}.

(** Where the offsets of a connection are: answered and on the way back, in
    the queue, in the reader's hand, on the way. *)
Definition items (c : ackConn (Ev := Ev)) : list Z :=
  (pa_Offset <$> c_bwd c) ++ ((λ x : nat * Z * string, x.1.2) <$> q_items (c_ackq c)) ++
  (match c_hold c with Some (e, _, _, _) => [Offset e] | None => [] end) ++ (Offset <$> c_fwd c).

Record conn_ok (G : Z → Prop) (last : Z) (h : heap) (hist : list Entry) (c : ackConn (Ev := Ev)) : Prop := {
  co_sorted : StronglySorted Z.lt (Offset <$> c_fwd c);
  co_fwd : ∀ f o, f ∈ c_fwd c → o < Offset f → o ∈ (Offset <$> c_fwd c) ∨ o ≤ last ∨ G o;
  co_queue : ∀ r off id, (r, off, id) ∈ q_items (c_ackq c) → ∃ x, h !! r = Some x ∧ pa_Offset (ar_p x) = off;
  co_hold : ∀ e id r fresh, c_hold c = Some (e, id, r, fresh) → e ∈ hist ∧ ∃ x, h !! r = Some x ∧ pa_Offset (ar_p x) = Offset e;
  co_hist : ∀ e, e ∈ c_fwd c → e ∈ hist;
}.

(** The connection the dialer is on. *)
Record current_ok (G : Z → Prop) (acked at_ last : Z) (batch : list Entry) (c : ackConn (Ev := Ev)) : Prop := {
  cu_sorted : StronglySorted Z.lt (items c ++ (Offset <$> batch));
  cu_bound : ∀ o, o ∈ items c ++ (Offset <$> batch) → o ≤ at_;
  cu_below : ∀ x o, x ∈ items c → acked < o < x → o ∈ items c ∨ G o;
  cu_bwd : ∀ p, p ∈ c_bwd c → puback_ok G (pa_Offset p) p;
  cu_sent : c_open c = true → ∀ o, acked < o ≤ at_ → o ∈ items c ++ (Offset <$> batch) ∨ G o;
  cu_unread : c_open c = true → ∀ o, o ≤ at_ → o ∈ (Offset <$> c_fwd c) ∨ o ∈ (Offset <$> batch) ∨ o ≤ last ∨ G o;
}.

Definition link_ok (G : Z → Prop) (last : Z) (conns : gmap nat (ackConn (Ev := Ev))) (d : dialer) : Prop :=
  match d_up d with
  | None => True
  | Some (i, true) => ∃ c, conns !! i = Some c ∧ current_ok G (acked (d_acks d)) (at_ (d_send d)) last (d_batch d) c
  | Some (i, false) =>
      StronglySorted Z.lt (Offset <$> d_batch d) ∧ (∀ o, o ∈ (Offset <$> d_batch d) → o ≤ at_ (d_send d)) ∧
      (∀ o, o ≤ at_ (d_send d) → o ∈ (Offset <$> d_batch d) ∨ G o)
  end.

(** Each offset is published at most once. *)
Definition fresh_hold (c : ackConn (Ev := Ev)) (o : Z) : Prop := ∃ e id r, c_hold c = Some (e, id, r, true) ∧ Offset e = o.

Record publish_ok (last : Z) (conns : gmap nat (ackConn (Ev := Ev))) (hist : list Entry) (a : ackAcceptor) : Prop := {
  po_nodup : NoDup (a_published a);
  po_last : ∀ o, o ∈ a_published a → o ≤ last;
  po_hold : ∀ i c o, conns !! i = Some c → fresh_hold c o → (o ∉ a_published a) ∧ o ≤ last;
  po_apart : ∀ i j c c' o, conns !! i = Some c → conns !! j = Some c' → fresh_hold c o → fresh_hold c' o → i = j;
  po_running : ∀ r, r ∈ a_running a → ∃ x, a_heap a !! r = Some x ∧ pa_Offset (ar_p x) ∈ a_published a;
  po_accepted : ∀ o, o ∈ a_accepted a → o ∈ a_published a ∨ ∃ e, e ∈ hist ∧ Offset e = o ∧ own e = true;
}.

Abbreviation last_of s := (last_seen sp stream (a_seen (k_acceptor s))).
Abbreviation good_of s := (good (d_hist (k_dialer s)) (d_res (k_dialer s)) (a_accepted (k_acceptor s))).
Abbreviation sys := (acks (Ev := Ev) (L := L)).

Record acks_ok (s : sys) : Prop := {
  ok_dialer : dialer_ok (good_of s) (k_dialer s);
  ok_answer : ∀ o, answer o (k_dialer s) = Some "" → o ∈ a_accepted (k_acceptor s);
  ok_memory : memory_ok sp stream (good_of s) (a_seen (k_acceptor s)) (a_heap (k_acceptor s));
  ok_conns : ∀ i c, k_conns s !! i = Some c →
    conn_ok (good_of s) (last_of s) (a_heap (k_acceptor s)) (d_hist (k_dialer s)) c;
  ok_link : link_ok (good_of s) (last_of s) (k_conns s) (k_dialer s);
  ok_publish : publish_ok (last_of s) (k_conns s) (d_hist (k_dialer s)) (k_acceptor s);
}.

(** *** Monotonicity *)

Lemma conn_ok_mono (G G' : Z → Prop) last last' h h' hist hist' c :
  (∀ o, G o → G' o) → last ≤ last' → heap_le h h' → hist ⊆ hist' → conn_ok G last h hist c → conn_ok G' last' h' hist' c.
Proof.
  intros HG Hl Hh Hhi [H1 H2 H3 H4 H5]. split; [done| | | |naive_solver].
  - intros f o Hf Ho. destruct (H2 f o Hf Ho) as [?|[?|?]]; [auto|right; left; lia|auto].
  - intros r off id (x & Hx & E)%H3. apply Hh in Hx as (x' & ? & ?). eexists. split; [done|congruence].
  - intros e id r fr (He & x & Hx & E)%H4. split; [auto|]. apply Hh in Hx as (x' & ? & ?). eexists. split; [done|congruence].
Qed.

Lemma current_ok_mono (G G' : Z → Prop) acked at_ last last' batch c :
  (∀ o, G o → G' o) → last ≤ last' → current_ok G acked at_ last batch c → current_ok G' acked at_ last' batch c.
Proof.
  intros HG Hl [H1 H2 H3 H4 H5 H6]. split; try done.
  - intros x o Hx Ho. destruct (H3 x o Hx Ho); auto.
  - intros p Hp. eapply puback_ok_mono; eauto.
  - intros Hop o Ho. destruct (H5 Hop o Ho); auto.
  - intros Hop o Ho. destruct (H6 Hop o Ho) as [?|[?|[?|?]]]; auto. right; right; left. lia.
Qed.

Lemma link_ok_mono (G G' : Z → Prop) last last' conns d :
  (∀ o, G o → G' o) → last ≤ last' → link_ok G last conns d → link_ok G' last' conns d.
Proof.
  unfold link_ok. intros HG Hl. destruct (d_up d) as [[i []]|]; [| |done].
  - intros (c & Hc & Hok). exists c. split; [done|]. by eapply current_ok_mono.
  - intros (Hs & Hb & Ha). split_and!; [done..|]. intros o Ho. destruct (Ha o Ho); auto.
Qed.

Lemma dialer_ok_mono (G G' : Z → Prop) d : (∀ o, G o → G' o) → dialer_ok G d → dialer_ok G' d.
Proof. intros HG [? ? ? ? [? ?] ? ?]. split; auto. Qed.

(** *** The dialer's log *)

Lemma hist_offset G d e : dialer_ok G d → e ∈ d_hist d → 1 ≤ Offset e ≤ Head (d_log d).
Proof.
  intros D He. destruct (do_log _ _ D) as (_ & Hh & Hd & _). apply list_elem_of_lookup in He as [i Hi].
  rewrite (dense_lookup _ _ _ _ Hd Hi), Hh. apply lookup_lt_Some in Hi. lia.
Qed.

Lemma hist_entry G d o : dialer_ok G d → 0 < o ≤ Head (d_log d) → ∃ e, e ∈ d_hist d ∧ Offset e = o.
Proof.
  intros D Ho. destruct (do_log _ _ D) as (_ & Hh & Hd & _).
  destruct (lookup_lt_is_Some_2 (d_hist d) (Z.to_nat (o - 1))) as [e He]; [lia|].
  exists e. split; [by eapply list_elem_of_lookup_2|]. rewrite (dense_lookup _ _ _ _ Hd He). lia.
Qed.

Lemma hist_unique G d e e' : dialer_ok G d → e ∈ d_hist d → e' ∈ d_hist d → Offset e = Offset e' → e = e'.
Proof.
  intros D [i Hi]%list_elem_of_lookup [j Hj]%list_elem_of_lookup E. destruct (do_log _ _ D) as (_ & _ & Hd & _).
  rewrite (dense_lookup _ _ _ _ Hd Hi), (dense_lookup _ _ _ _ Hd Hj) in E. replace j with i in Hj by lia. congruence.
Qed.

(** Every offset of the log is settled or waited for. *)
Lemma settled_or_waited G d acc o :
  dialer_ok G d → o ≤ Head (d_log d) → good (d_hist d) (d_res d) acc o ∨ is_Some (waits (d_acks d) !! o).
Proof.
  intros D Ho. destruct (decide (o ≤ 0)) as [|Hp]; [by left; left|]. destruct (hist_entry _ _ o D ltac:(lia)) as (e & He & <-).
  destruct (ticket e) as [t|] eqn:Ht; [|left; right; right; right; eauto].
  destruct (do_all _ _ D e He) as [?|?]; [congruence|auto|]. left. right. right. by left.
Qed.

(** A waited-for offset that is settled was accepted or has its answer. *)
Lemma waited_good G d acc o :
  dialer_ok G d → is_Some (waits (d_acks d) !! o) → good (d_hist d) (d_res d) acc o → o ∈ acc ∨ o ∈ (d_res d).*1.
Proof.
  intros D [t (e & He & <- & Ht)%(do_waits _ _ D)]. pose proof (hist_offset _ _ _ D He).
  intros [?|[?|[?|(e' & He' & E & Hn)]]]; [lia|auto..|]. rewrite (hist_unique _ _ _ _ D He' He E) in Hn. congruence.
Qed.

(** *** Answers *)

(** New answers are fine when each ok among them is for an accepted offset or
    one that was answered before. *)
Lemma answers_ok (res xs : list (Z * string)) (acc : list Z) o :
  (snd <$> filter (λ x : Z * string, x.1 = o) res !! O = Some "" → o ∈ acc) →
  (∀ x, x ∈ xs → x.2 = "" → x.1 ∈ acc ∨ x.1 ∈ res.*1) →
  snd <$> filter (λ x : Z * string, x.1 = o) (res ++ xs) !! O = Some "" → o ∈ acc.
Proof.
  intros Hres Hxs. rewrite filter_app. destruct (filter (λ x : Z * string, x.1 = o) res) as [|x l] eqn:E; [|done].
  cbn [app]. destruct (filter (λ x : Z * string, x.1 = o) xs) as [|x l] eqn:Ex; [done|]. cbn. intros [= Hx].
  assert (Hin : x ∈ filter (λ x : Z * string, x.1 = o) xs) by (rewrite Ex; by left).
  apply list_elem_of_filter in Hin as [<- Hin]. destruct (Hxs x Hin Hx) as [?|Hr]; [done|].
  apply list_elem_of_fmap in Hr as (y & Hy & Hin'). assert (Hf : y ∈ filter (λ z : Z * string, z.1 = x.1) res) by (by apply list_elem_of_filter).
  rewrite E in Hf. by apply elem_of_nil in Hf.
Qed.

(** *** Steps of the dialer *)

(** A step of the dialer alone: what it must keep. *)
Lemma dialer_step (s : sys) (d' : dialer) :
  acks_ok s → d_hist (k_dialer s) ⊆ d_hist d' → d_res (k_dialer s) ⊆ d_res d' →
  let G := good (d_hist d') (d_res d') (a_accepted (k_acceptor s)) in
  dialer_ok G d' → (∀ o, answer o d' = Some "" → o ∈ a_accepted (k_acceptor s)) →
  link_ok G (last_of s) (k_conns s) d' → acks_ok (mkAcks d' (k_acceptor s) (k_conns s)).
Proof.
  intros I Hh Hr G D HA HL. assert (HG : ∀ o, good_of s o → G o) by (intros o; by apply good_mono).
  split; cbn [k_dialer k_acceptor k_conns]; [done..| | |done|].
  - eapply memory_ok_mono, I. done.
  - intros i c Hc. eapply conn_ok_mono; [exact HG|done|done|exact Hh|by eapply ok_conns].
  - destruct (ok_publish _ I). split; try done. intros o Ho. destruct (po_accepted0 o Ho) as [?|(e & ? & ?)]; eauto.
Qed.

(** Only the tracker and the answers change. *)
Lemma tracker_ok (G G' : Z → Prop) (d : dialer) a' xs :
  (∀ o, G o → G' o) → dialer_ok G d → keeps_waits (d_acks d) a' (d_res d ++ xs) →
  (0 ≤ acked a' ∧ ∀ o, o ≤ acked a' → G' o) →
  dialer_ok G' (mkDialer (d_log d) (d_send d) a' (d_up d) (d_batch d) (d_hist d) (d_res d ++ xs)).
Proof.
  intros HG D [Hsub Hkeep] Ha. split; cbn [d_log d_send d_acks d_up d_batch d_hist d_res]; try apply D; [| |done].
  - intros o t Ht. eapply do_waits; [exact D|]. by eapply lookup_weaken.
  - intros e He Ht. destruct (do_all _ _ D e He Ht) as [Hw|?]; [by apply Hkeep|]. right. rewrite fmap_app, elem_of_app. auto.
Qed.

(** Answers that are all errors. *)
Lemma error_answers_ok (s : sys) (d' : dialer) xs :
  acks_ok s → d_res d' = d_res (k_dialer s) ++ xs → (∀ x, x ∈ xs → x.2 ≠ "") →
  ∀ o, answer o d' = Some "" → o ∈ a_accepted (k_acceptor s).
Proof.
  intros I E Hx o. unfold answer. rewrite E. apply answers_ok; [apply (ok_answer _ I)|]. intros x Hin Hn. by destruct (Hx x Hin).
Qed.

Lemma append_step (s : sys) e acked :
  acks_ok s → Head (d_log (k_dialer s)) < 2 ^ 64 - 2 → acks_ok (on_dialer (d_append e acked) s).
Proof.
  intros I Hb. pose proof (ok_dialer _ I) as D. unfold on_dialer, d_append. set (d := k_dialer s) in *.
  set (t := if acked && _ then _ else None). set (e' := mkEntry 0 _ _ _ _ t).
  destruct (holds_append (d_log d) (d_hist d) e' (do_log _ _ D) Hb) as (Hoff & Hl & _).
  pose proof (do_log _ _ D) as (_ & Hh & _). pose proof Hl as (_ & Hh' & _). rewrite length_app in Hh'. simpl in Hh'.
  destruct (Append e' (d_log d)) as [off log] eqn:Ea. cbn [fst snd] in *. subst off.
  set (e1 := mkEntry (Head (d_log d) + 1) _ _ _ _ t). change (with_offset (Head (d_log d) + 1) e') with e1 in Hl.
  assert (Hsub : d_hist d ⊆ d_hist d ++ [e1]) by set_solver.
  apply dialer_step; cbn [d_hist d_res]; [done|done|done| |apply (ok_answer _ I)|].
  - assert (Ht : ∀ t', t = Some t' → Z.of_nat t' = Head (d_log d) + 1 ∧ Marker e1 = false).
    { unfold t, e1. cbn. destruct acked, (Marker e); cbn; intros t' [= <-]. split; [lia|done]. }
    assert (Hnew : waits (d_acks d) !! (Head (d_log d) + 1) = None).
    { destruct (waits (d_acks d) !! _) eqn:E; [|done]. apply (do_waits _ _ D) in E as (x & Hx & Eo & _).
      pose proof (hist_offset _ _ _ D Hx). lia. }
    split; cbn [d_log d_send d_acks d_up d_batch d_hist d_res]; [done| | | | | |].
    + intros x t' [Hx|Hx%list_elem_of_singleton]%elem_of_app; [by eapply do_ticket|]. subst x. cbn. apply Ht.
    + intros o t'. assert (Hold : waits (d_acks d) !! o = Some t' → ∃ x, x ∈ d_hist d ++ [e1] ∧ Offset x = o ∧ ticket x = Some t').
      { intros (x & ? & ?)%(do_waits _ _ D). exists x. split; [set_solver|done]. }
      destruct t as [t0|] eqn:Et; [|done]. unfold tr_register. rewrite Hnew. cbn. intros [[<- <-]|[_ ?]]%lookup_insert_Some; [|auto].
      exists e1. split; [set_solver|]. done.
    + intros x [Hx|Hx%list_elem_of_singleton]%elem_of_app Htx.
      * destruct (do_all _ _ D x Hx Htx) as [Hw|?]; [left|auto]. destruct t; [|done]. unfold tr_register. rewrite Hnew. cbn.
        rewrite lookup_insert_is_Some. destruct (decide (Head (d_log d) + 1 = Offset x)); auto.
      * subst x. cbn in Htx |- *. left. destruct t; [|done]. unfold tr_register. rewrite Hnew. cbn. rewrite lookup_insert_eq. eauto.
    + destruct (do_acked _ _ D) as [Ha1 Ha2].
      replace (StreamAck.acked _) with (StreamAck.acked (d_acks d)) by (destruct t; [unfold tr_register; by rewrite Hnew|done]).
      split; [done|]. intros o Ho. by eapply good_mono, Ha2.
    + pose proof (do_at _ _ D). lia.
    + destruct (do_batch _ _ D) as [H1 H2]. split; [|done]. intros x Hx. apply Hsub. auto.
  - apply (link_ok_mono (good_of s) _ (last_of s)); [intros o; by apply good_mono|done|].
    pose proof (ok_link _ I) as HL. fold d in HL. unfold link_ok in *. cbn [d_up d_acks d_send d_batch].
    replace (StreamAck.acked _) with (StreamAck.acked (d_acks d)); [done|].
    destruct t; [|done]. unfold tr_register. by destruct (waits (d_acks d) !! _).
Qed.

Lemma sorted_offsets (es : list Entry) a : dense a es → StronglySorted Z.lt (Offset <$> es).
Proof.
  revert a. induction es as [|e es IH]; intros a Hd; [constructor|]. apply dense_cons in Hd as [He Hd].
  rewrite fmap_cons. constructor; [by eapply IH|]. apply Forall_forall. intros o (x & -> & Hx)%list_elem_of_fmap.
  apply list_elem_of_lookup in Hx as [j Hj]. rewrite (dense_lookup _ _ _ _ Hd Hj). lia.
Qed.

(** The batch [drain] reads, and the answers to what was evicted before it:
    every offset up to the new cursor is in the batch or settled. *)
Lemma fetch_batch G (d : dialer) acc max es gap c :
  dialer_ok G d → 0 < max < 2 ^ 63 → next (d_log d) max (d_send d) = (es, gap, c) →
  ∃ rs a', (match es with
            | e :: _ => if 0 <? gap then onGap (at_ (d_send d)) (Offset e) (d_acks d) else ([], d_acks d)
            | [] => ([], d_acks d) end) = (rs, a') ∧ keeps_waits (d_acks d) a' (answers rs) ∧ acked a' = acked (d_acks d) ∧
    (∀ x, x ∈ answers rs → x.2 ≠ "") ∧ at_ (d_send d) ≤ at_ c ≤ Head (d_log d) ∧
    (∀ o, at_ (d_send d) < o ≤ at_ c → o ∈ (Offset <$> es) ∨ good (d_hist d) (d_res d ++ answers rs) acc o) ∧
    (∀ e, e ∈ es → e ∈ d_hist d) ∧ StronglySorted Z.lt (Offset <$> es) ∧
    (∀ o, o ∈ (Offset <$> es) → at_ (d_send d) < o ≤ at_ c).
Proof.
  intros D Hm En. pose proof (next_accounts _ _ _ _ _ _ _ (do_log _ _ D) (do_at _ _ D) Hm En) as Hn. pose proof (do_at _ _ D) as Hat.
  destruct es as [|e es'].
  { destruct Hn as (_ & -> & _). exists [], (d_acks d).
    split_and!; [done|apply keeps_waits_refl|done|by intros ? ?%elem_of_nil|lia|lia|lia|by intros ? ?%elem_of_nil|constructor|by intros ? ?%elem_of_nil]. }
  destruct Hn as (Eg & Ec & Ees & Hd & Hle & _). pose proof Hd as [He _]%dense_cons. simpl in Ec.
  assert (Hgap : ∃ rs a', (if 0 <? gap then onGap (at_ (d_send d)) (Offset e) (d_acks d) else ([], d_acks d)) = (rs, a') ∧
            keeps_waits (d_acks d) a' (answers rs) ∧ acked a' = acked (d_acks d) ∧ (∀ x, x ∈ answers rs → x.2 ≠ "") ∧
            (∀ o, at_ (d_send d) < o < Offset e → is_Some (waits (d_acks d) !! o) → o ∈ (answers rs).*1)).
  { destruct (Z.ltb_spec 0 gap) as [Hg|Hg].
    - destruct (onGap (at_ (d_send d)) (Offset e) (d_acks d)) as [rs a'] eqn:Eo. unfold onGap in Eo.
      destruct (drain_waits _ _ _ _ _ Eo) as (H1 & _ & H2 & H3 & H4). exists rs, a'. split_and!; [done..| |].
      + intros x Hx. by rewrite (H3 x Hx).
      + intros o Ho Hw. apply H4; [|done]. apply andb_true_iff. rewrite !Z.ltb_lt. lia.
    - exists [], (d_acks d). split_and!; [done|apply keeps_waits_refl|done|by intros ? ?%elem_of_nil|lia]. }
  destruct Hgap as (rs & a' & Hrs & Hk & Hack & Herr & Hcov). exists rs, a'. pose proof Hd as Hd'. unfold dense in Hd'.
  split_and!; [done..|lia|lia| | |by eapply sorted_offsets|].
  - intros o Ho. destruct (decide (Offset e ≤ o)) as [Hge|Hlt]; [left; rewrite Hd'; apply elem_of_seqZ; simpl; lia|]. right.
    destruct (settled_or_waited _ d acc o D ltac:(lia)) as [Hg|Hw]; [by eapply good_mono, Hg; set_solver|]. right. right. left.
    rewrite fmap_app, elem_of_app. right. apply Hcov; [lia|done].
  - intros x Hx. rewrite Ees in Hx. by eapply subseteq_drop, subseteq_take.
  - intros o Ho. rewrite Hd' in Ho. apply elem_of_seqZ in Ho. simpl in Ho. lia.
Qed.

Lemma fetch_step (s : sys) max : acks_ok s → 0 < max < 2 ^ 63 → acks_ok (on_dialer (d_fetch max) s).
Proof.
  intros I Hm. pose proof (ok_dialer _ I) as D. pose proof (ok_link _ I) as HL.
  destruct s as [d a cs]. unfold on_dialer. cbn [k_dialer k_acceptor k_conns] in *.
  unfold d_fetch. destruct (d_up d) as [[i ak]|] eqn:Hup; [|done]. destruct (d_batch d) as [|b bs] eqn:Hba; [|done].
  destruct (next (d_log d) max (d_send d)) as [[es gap] c] eqn:En.
  destruct (fetch_batch _ d (a_accepted a) _ _ _ _ D Hm En) as (rs & a' & -> & Hk & Hack & Herr & Hat & Hnew & Hin & Hso & Hra).
  set (G' := good (d_hist d) (d_res d ++ answers rs) (a_accepted a)) in *.
  assert (HG : ∀ o, good (d_hist d) (d_res d) (a_accepted a) o → G' o) by (intros o; apply good_mono; set_solver).
  apply (dialer_step (mkAcks d a cs)); cbn [k_dialer k_acceptor k_conns d_hist d_res]; [done|done|set_solver| | |].
  - destruct (tracker_ok _ G' d a' (answers rs) HG D (keeps_waits_app _ _ _ _ Hk)) as [T1 T2 T3 T4 T5 T6 [T7 T8]].
    { rewrite Hack. destruct (do_acked _ _ D). auto. }
    split; try done. cbn [d_send d_log]. pose proof (do_at _ _ D). lia.
  - by apply (error_answers_ok (mkAcks d a cs) _ (answers rs)).
  - unfold link_ok in *. rewrite Hup in *. cbn [d_up d_acks d_send d_batch]. rewrite Hack. rewrite Hba in HL. destruct ak.
    + destruct HL as (c0 & Hc0 & Hcu). exists c0. split; [done|]. apply (current_ok_mono _ G' _ _ _ (last_seen sp stream (a_seen a))) in Hcu; [|done..].
      destruct Hcu as [C1 C2 C3 C4 C5 C6]. rewrite app_nil_r in *. split; [| |done|done| |].
      * apply StronglySorted_app_2; [|done..]. intros x y Hx Hy. specialize (C2 x Hx). specialize (Hra y Hy). lia.
      * intros o [Ho|Ho]%elem_of_app; [specialize (C2 o Ho); lia|]. specialize (Hra o Ho). lia.
      * intros Hop o Ho. rewrite elem_of_app. destruct (decide (o ≤ at_ (d_send d))).
        -- destruct (C5 Hop o ltac:(lia)); auto.
        -- destruct (Hnew o ltac:(lia)); auto.
      * intros Hop o Ho. destruct (decide (o ≤ at_ (d_send d))).
        -- destruct (C6 Hop o ltac:(lia)) as [?|[?%elem_of_nil|?]]; auto; done.
        -- destruct (Hnew o ltac:(lia)); auto.
    + destruct HL as (_ & _ & HL). split_and!; [done|intros o Ho; specialize (Hra o Ho); lia|]. fold G'. intros o Ho. destruct (decide (o ≤ at_ (d_send d))).
      * destruct (HL o ltac:(lia)) as [?%elem_of_nil|?]; [done|auto].
      * destruct (Hnew o ltac:(lia)); auto.
Qed.

Lemma close_dialer G d : dialer_ok G d → dialer_ok G (d_close d).
Proof.
  intros D. pose proof (do_at _ _ D). unfold d_close. split; cbn [d_log d_send d_acks d_up d_batch d_hist d_res]; try apply D.
  - destruct (d_batch d) as [|e es] eqn:E; [done|]. destruct (outbox (d_send d)); [|done]. cbn.
    pose proof (hist_offset _ _ e D) as Ho. destruct (do_batch _ _ D) as [Hb _]. rewrite E in Hb.
    specialize (Ho (Hb e ltac:(by left))). lia.
  - split; [|done]. by intros e ?%elem_of_nil.
Qed.

Lemma close_step (s : sys) : acks_ok s → acks_ok (on_dialer d_close s).
Proof. intros I. apply dialer_step; [done..| |apply (ok_answer _ I)|done]. apply close_dialer, I. Qed.

Lemma give_up_step (s : sys) o code : acks_ok s → acks_ok (on_dialer (d_give_up o code) s).
Proof.
  intros I. pose proof (ok_dialer _ I) as D. destruct s as [d a cs]. unfold on_dialer, d_give_up. cbn [k_dialer k_acceptor k_conns] in *.
  destruct (String.eqb_spec code "") as [|Hc]; [done|].
  assert (HG : ∀ x, good (d_hist d) (d_res d) (a_accepted a) x → good (d_hist d) (d_res d ++ [(o, code)]) (a_accepted a) x)
    by (intros x; apply good_mono; set_solver).
  apply (dialer_step (mkAcks d a cs)); cbn [k_dialer k_acceptor k_conns d_hist d_res]; [done|done|set_solver| | |].
  - apply (tracker_ok _ _ d (d_acks d) [(o, code)] HG D); [apply keeps_waits_refl|]. destruct (do_acked _ _ D). auto.
  - apply (error_answers_ok (mkAcks d a cs) _ [(o, code)]); [done..|]. by intros x ->%list_elem_of_singleton.
  - eapply link_ok_mono in HG; [|done|apply (ok_link _ I)]. done.
Qed.

Lemma fail_step (s : sys) code : acks_ok s → acks_ok (on_dialer (d_fail code) s).
Proof.
  intros I. pose proof (ok_dialer _ I) as D. destruct s as [d a cs]. unfold on_dialer, d_fail. cbn [k_dialer k_acceptor k_conns] in *.
  destruct (String.eqb_spec code "") as [|Hc]; [done|]. destruct (failAll code (d_acks d)) as [rs a'] eqn:Ef.
  destruct (drain_waits _ _ _ _ _ Ef) as (H1 & _ & H2 & H3 & _). unfold set_acks.
  assert (HG : ∀ x, good (d_hist d) (d_res d) (a_accepted a) x → good (d_hist d) (d_res d ++ answers rs) (a_accepted a) x)
    by (intros x; apply good_mono; set_solver).
  apply (dialer_step (mkAcks d a cs)); cbn [k_dialer k_acceptor k_conns d_hist d_res]; [done|done|set_solver| | |].
  - apply (tracker_ok _ _ d a' (answers rs) HG D (keeps_waits_app _ _ _ _ H2)). rewrite H1. destruct (do_acked _ _ D). auto.
  - apply (error_answers_ok (mkAcks d a cs) _ (answers rs)); [done..|]. intros x Hx. by rewrite (H3 x Hx).
  - eapply link_ok_mono in HG; [|done|apply (ok_link _ I)]. unfold link_ok in *. cbn [d_up d_acks d_send d_batch] in *. by rewrite H1.
Qed.

(** A new connection replaces nothing. *)
Lemma new_conn_step (s : sys) i qmax :
  acks_ok s → k_conns s !! i = None → (∀ ak, d_up (k_dialer s) ≠ Some (i, ak)) →
  acks_ok (mkAcks (k_dialer s) (k_acceptor s) (<[i := mkConn [] None (newAckQueue qmax) [] true]> (k_conns s))).
Proof.
  intros I Hi Hup. split; cbn [k_dialer k_acceptor k_conns]; try apply I.
  - intros j c [[<- <-]|[_ ?]]%lookup_insert_Some; [|by eapply ok_conns]. 
    split; cbn; [constructor|by intros ? ? ?%elem_of_nil|by intros ? ? ? ?%elem_of_nil|done|by intros ? ?%elem_of_nil].
  - pose proof (ok_link _ I) as HL. unfold link_ok in *. destruct (d_up (k_dialer s)) as [[j []]|] eqn:E; [|done..].
    destruct HL as (c & Hc & Hcu). exists c. split; [|done]. rewrite lookup_insert_ne; [done|]. intros ->. by destruct (Hup true).
  - assert (Hn : ∀ o, ¬ fresh_hold (mkConn [] None (newAckQueue qmax) [] true) o) by (by intros o (e & id & r & ? & _)).
    destruct (ok_publish _ I) as [P1 P2 P3 P4 P5 P6]. split; try done.
    + intros j c o [[<- <-]|[_ ?]]%lookup_insert_Some Hf; [by destruct (Hn o)|by eapply P3].
    + intros j k c c' o [[<- <-]|[_ ?]]%lookup_insert_Some [[<- <-]|[_ ?]]%lookup_insert_Some Hf Hf'; [done|by destruct (Hn o)..|by eapply P4].
Qed.

Lemma connect_step (s : sys) i ak qmax : acks_ok s → acks_ok (acks_connect i ak qmax s).
Proof.
  intros I. unfold acks_connect. destruct (d_up (k_dialer s)) as [|] eqn:Hup; [done|]. destruct (k_conns s !! i) eqn:Hi; [done|].
  assert (I' : acks_ok (mkAcks (k_dialer s) (k_acceptor s) (if ak then <[i := mkConn [] None (newAckQueue qmax) [] true]> (k_conns s) else k_conns s))).
  { destruct ak; [|by destruct s]. apply new_conn_step; [done..|]. by rewrite Hup. }
  clear I. set (cs := if ak then _ else _) in *. destruct s as [d a cs0]. cbn [k_dialer k_acceptor k_conns] in *.
  pose proof (ok_dialer _ I') as D. cbn in D. pose proof (do_log _ _ D) as (_ & Hh & _). pose proof (do_at _ _ D) as Hat0.
  unfold d_connect. set (c := cursor_linkUp _ _). assert (Hat : 0 ≤ at_ c ≤ Head (d_log d)) by (unfold c, cursor_linkUp; destruct (outbox _); cbn; lia).
  destruct (tr_linkUp ak c (d_acks d)) as [[rs a'] c'] eqn:Et. unfold tr_linkUp in Et.
  destruct (do_acked _ _ D) as [Ha0 Ha]. destruct ak.
  - injection Et as <- <- <-. cbn [answers]. change (answers []) with (@nil (Z * string)). rewrite app_nil_r.
    apply (dialer_step (mkAcks d a cs)); cbn [k_dialer k_acceptor k_conns d_hist d_res]; [done..| | |].
    + destruct D as [D1 D2 D3 D4 D5 D6 D7]. split; cbn [d_log d_send d_acks d_up d_batch d_hist d_res at_ waits acked]; try done.
      * destruct (Z.ltb_spec (acked (d_acks d)) (at_ c)); lia.
      * split; [by intros ? ?%elem_of_nil|done].
    + apply (ok_answer _ I').
    + unfold link_ok. cbn [d_up d_acks d_send d_batch acked at_]. eexists. split; [unfold cs; by rewrite lookup_insert_eq|].
      assert (Hle : (if acked (d_acks d) <? at_ c then acked (d_acks d) else at_ c) ≤ acked (d_acks d)) by (destruct (Z.ltb_spec (acked (d_acks d)) (at_ c)); lia).
      split; cbn; try done; [constructor|by intros ? ?%elem_of_nil|by intros ? ? ?%elem_of_nil|by intros ? ?%elem_of_nil|lia|].
      intros _ o Ho. right; right; right. apply Ha. lia.
  - destruct (tr_drain (λ _, true) AckUnsupported (mkTracker (at_ c) (at_ c) (waits (d_acks d)))) as [rs0 a0] eqn:Ed.
    injection Et as <- <- <-. destruct (drain_waits _ _ _ _ _ Ed) as (H1 & _ & H2 & H3 & H4). cbn in H1.
    set (G' := good (d_hist d) (d_res d ++ answers rs0) (a_accepted a)).
    assert (Hall : ∀ o, o ≤ Head (d_log d) → G' o).
    { intros o Ho. destruct (settled_or_waited _ d (a_accepted a) o D Ho) as [Hg|Hw]; [by eapply good_mono, Hg; set_solver|].
      right. right. left. rewrite fmap_app, elem_of_app. right. by apply H4. }
    apply (dialer_step (mkAcks d a cs)); cbn [k_dialer k_acceptor k_conns d_hist d_res]; [done|done|set_solver| | |].
    + assert (HG : ∀ o, good (d_hist d) (d_res d) (a_accepted a) o → G' o) by (intros o; apply good_mono; set_solver).
      destruct (tracker_ok _ G' d a0 (answers rs0) HG D (keeps_waits_app _ _ _ _ H2)) as [T1 T2 T3 T4 T5 T6 T7].
      { rewrite H1. split; [lia|]. intros o Ho. apply Hall. lia. }
      split; try done. split; [by intros ? ?%elem_of_nil|done].
    + apply (error_answers_ok (mkAcks d a cs) _ (answers rs0)); [done..|]. intros x Hx. by rewrite (H3 x Hx).
    + unfold link_ok. cbn [d_up d_send d_batch]. split_and!; [constructor|by intros ? ?%elem_of_nil|]. intros o Ho. right. apply Hall. lia.
Qed.

(** A step of the dialer and of the connection it is on. *)
Lemma replace_step (s : sys) (d' : dialer) i c c' :
  acks_ok s → d_hist (k_dialer s) ⊆ d_hist d' → d_res (k_dialer s) ⊆ d_res d' →
  let G := good (d_hist d') (d_res d') (a_accepted (k_acceptor s)) in
  dialer_ok G d' → (∀ o, answer o d' = Some "" → o ∈ a_accepted (k_acceptor s)) →
  k_conns s !! i = Some c → conn_ok G (last_of s) (a_heap (k_acceptor s)) (d_hist d') c' → c_hold c' = c_hold c →
  link_ok G (last_of s) (<[i := c']> (k_conns s)) d' → acks_ok (mkAcks d' (k_acceptor s) (<[i := c']> (k_conns s))).
Proof.
  intros I Hh Hr G D HA Hc Hok Hhold HL. assert (HG : ∀ o, good_of s o → G o) by (intros o; by apply good_mono).
  split; cbn [k_dialer k_acceptor k_conns]; [done..| | |done|].
  - eapply memory_ok_mono, I. done.
  - intros j c0 [[<- <-]|[_ ?]]%lookup_insert_Some; [done|]. eapply conn_ok_mono; [exact HG|done|done|exact Hh|by eapply ok_conns].
  - assert (Hf : ∀ j c0 o, <[i := c']> (k_conns s) !! j = Some c0 → fresh_hold c0 o → ∃ c1, k_conns s !! j = Some c1 ∧ fresh_hold c1 o).
    { intros j c0 o [[<- <-]|[_ ?]]%lookup_insert_Some Hf; [|eauto]. exists c. unfold fresh_hold in *. by rewrite <-Hhold. }
    destruct (ok_publish _ I) as [P1 P2 P3 P4 P5 P6]. split; try done.
    + intros j c0 o Hj (c1 & ? & ?)%(Hf j c0 o Hj). by eapply P3.
    + intros j k c0 c0' o Hj Hk (c1 & ? & ?)%(Hf j c0 o Hj) (c2 & ? & ?)%(Hf k c0' o Hk). by eapply P4.
    + intros o Ho. destruct (P6 o Ho) as [?|(e & ? & ?)]; eauto.
Qed.

Lemma conn_ok_fwd G last h hist (c c' : ackConn (Ev := Ev)) :
  c_fwd c' = c_fwd c → c_hold c' = c_hold c → q_items (c_ackq c') = q_items (c_ackq c) →
  conn_ok G last h hist c → conn_ok G last h hist c'.
Proof. intros E1 E2 E3 [? ? ? ? ?]. split; by rewrite ?E1, ?E2, ?E3. Qed.

(** What a puback may confirm: everything below it is settled, and so is its
    own offset when it says ok. *)
Lemma puback_below G acked at_ last batch fwd hold q p ps op o :
  current_ok G acked at_ last batch (mkConn fwd hold q (p :: ps) op) → (∀ x, x ≤ acked → G x) → o < pa_Offset p → G o.
Proof.
  intros [C1 C2 C3 C4 _ _] Ha Ho. destruct (decide (o ≤ acked)) as [|Hgt]; [auto|].
  destruct (C3 (pa_Offset p) o) as [Hin|?]; [by left|lia| |done]. exfalso.
  apply StronglySorted_app in C1 as (_ & C1 & _). cbn in C1, Hin. apply StronglySorted_cons in C1 as [C1 _].
  apply elem_of_cons in Hin as [->|Hin]; [lia|]. rewrite Forall_forall in C1. specialize (C1 o Hin). lia.
Qed.

Lemma puback_tail (G : Z → Prop) acked acked' at_ last batch fwd hold q p ps op :
  current_ok G acked at_ last batch (mkConn fwd hold q (p :: ps) op) →
  acked ≤ acked' → pa_Offset p ≤ acked' → current_ok G acked' at_ last batch (mkConn fwd hold q ps op).
Proof.
  intros [C1 C2 C3 C4 C5 C6] Ha Hp. cbn in C1, C2, C3, C4, C5, C6.
  assert (Hdrop : ∀ o, acked' < o → o ∈ items (mkConn fwd hold q (p :: ps) op) → o ∈ items (mkConn fwd hold q ps op)).
  { intros o Ho [->|?]%elem_of_cons; [lia|done]. }
  split.
  - by apply StronglySorted_cons in C1 as [_ C1].
  - intros o Ho. apply C2. by right.
  - intros x o Hx Ho. destruct (C3 x o) as [?|?]; [by right|lia|left; apply Hdrop; [lia|done]|auto].
  - intros x Hx. apply C4. by right.
  - intros Hop o Ho. destruct (C5 Hop o ltac:(lia)) as [Hin|?]; [|auto]. left. apply elem_of_cons in Hin as [->|?]; [lia|done].
  - done.
Qed.

(** Pruned waits have their answer. *)
Lemma prune_waits G (d : dialer) a' (b : bool) :
  dialer_ok G d → waits a' ⊆ waits (d_acks d) →
  let a'' := if b then prune (λ t, bool_decide (Z.of_nat t ∈ (d_res d).*1)) a' else a' in
  acked a'' = acked a' ∧ ∀ xs, keeps_waits (d_acks d) a' xs → keeps_waits (d_acks d) a'' (d_res d ++ xs).
Proof.
  intros D Hsub a''. unfold a''. destruct b; [|split; [done|intros xs; apply keeps_waits_app]]. split; [done|]. intros xs [K1 K2].
  split; [etransitivity; [apply map_filter_subseteq|done]|]. intros o Ho. rewrite fmap_app, elem_of_app.
  destruct (K2 o Ho) as [[t Ht]|?]; [|auto]. destruct (decide (Z.of_nat t ∈ (d_res d).*1)) as [Hin|Hin].
  - eapply lookup_weaken in Ht; [|exact Hsub]. apply (do_waits _ _ D) in Ht as (e & He & <- & Hte).
    destruct (do_ticket _ _ D e t He Hte) as [E _]. rewrite E in Hin. auto.
  - left. exists t. cbn. apply map_lookup_filter_Some. split; [done|]. by apply bool_decide_eq_false_2.
Qed.

(** What [onPuback] does to the answers and to what is settled. *)
Lemma puback_answers (s : sys) i fwd hold q p ps op rs a' :
  acks_ok s → d_up (k_dialer s) = Some (i, true) → k_conns s !! i = Some (mkConn fwd hold q (p :: ps) op) →
  onPuback (ticket_id ev_id (k_dialer s)) p (d_acks (k_dialer s)) = (Ok rs, a') →
  let d := k_dialer s in let acc := a_accepted (k_acceptor s) in
  keeps_waits (d_acks d) a' (answers rs) ∧ acked (d_acks d) ≤ acked a' ∧ pa_Offset p ≤ acked a' ∧
  (∀ o, o ≤ acked a' → good (d_hist d) (d_res d ++ answers rs) acc o) ∧
  (∀ x, x ∈ answers rs → x.2 = "" → x.1 ∈ acc ∨ x.1 ∈ (d_res d).*1).
Proof.
  intros I Hup Hc Ep d acc. pose proof (ok_dialer _ I) as D. pose proof (ok_link _ I) as HL. fold d in D, HL, Hup, Ep.
  unfold link_ok in HL. rewrite Hup, Hc in HL. destruct HL as (c0 & [= <-] & Hcu).
  destruct (do_acked _ _ D) as [Ha0 Ha]. pose proof (do_at _ _ D) as Hat. pose proof (onPuback_waits _ _ _ _ _ Ep) as Hw. cbn in Hw.
  assert (Hgrow : ∀ o, good (d_hist d) (d_res d) acc o → good (d_hist d) (d_res d ++ answers rs) acc o)
    by (intros o; apply good_mono; set_solver).
  destruct (Z.leb_spec (pa_Offset p) (acked (d_acks d))) as [Hle|Hgt].
  { destruct Hw as [-> ->]. split_and!; [apply keeps_waits_refl|lia|done|auto|]. by intros x ?%elem_of_nil. }
  destruct Hw as (Hack & Hk & Hans & Hcode). rewrite Hack.
  pose proof (λ o, puback_below _ _ _ _ _ _ _ _ _ _ _ o Hcu Ha) as Hbelow.
  assert (Hhead : pa_Offset p ≤ Head (d_log d)) by (pose proof (cu_bound _ _ _ _ _ _ Hcu (pa_Offset p) ltac:(by left)); lia).
  split_and!; [done|lia|done| |].
  - intros o Ho. destruct (decide (o = pa_Offset p)) as [->|]; [|apply Hgrow, Hbelow; lia].
    destruct (settled_or_waited _ d acc (pa_Offset p) D Hhead) as [?|Hwait]; [auto|].
    right. right. left. rewrite fmap_app, elem_of_app. right. by apply Hans.
  - intros [o c] (Ho & Hwait & Hcd)%Hcode Hemp. cbn in *. eapply waited_good; [done..|].
    destruct (Z.eqb_spec o (pa_Offset p)) as [->|]; [|apply Hbelow; lia].
    destruct (cu_bwd _ _ _ _ _ _ Hcu p ltac:(by left)) as [[Hs Hne]|[Hs Hg]]; [|done].
    rewrite Hs in Hcd. cbn in Hcd. congruence.
Qed.

Lemma puback_step (s : sys) slots : acks_ok s → acks_ok (acks_puback ev_id slots s).
Proof.
  intros I. unfold acks_puback. destruct (d_up (k_dialer s)) as [[i []]|] eqn:Hup; [|done..].
  destruct (k_conns s !! i) as [[fwd hold q [|p ps] op]|] eqn:Hc; [done| |done].
  pose proof (ok_dialer _ I) as D. pose proof (ok_link _ I) as HL. pose proof (ok_conns _ I i _ Hc) as Hco.
  pose proof (λ rs a', puback_answers s i fwd hold q p ps op rs a' I Hup Hc) as Hans.
  unfold link_ok in HL. rewrite Hup, Hc in HL. destruct HL as (c0 & [= <-] & Hcu).
  destruct s as [d a cs]. cbn [k_dialer k_acceptor k_conns] in *. set (c' := mkConn fwd hold q ps op).
  destruct (do_acked _ _ D) as [Ha0 Ha]. unfold d_puback.
  destruct (onPuback (ticket_id ev_id d) p (d_acks d)) as [r a'] eqn:Ep. pose proof (onPuback_waits _ _ _ _ _ Ep) as Hw.
  set (b := 2 * slots <? _).
  assert (Hgrow : ∀ xs o, good (d_hist d) (d_res d) (a_accepted a) o → good (d_hist d) (d_res d ++ xs) (a_accepted a) o)
    by (intros xs o; apply good_mono; set_solver).
  assert (Hco' : ∀ xs, conn_ok (good (d_hist d) (d_res d ++ xs) (a_accepted a)) (last_seen sp stream (a_seen a)) (a_heap a) (d_hist d) c').
  { intros xs. eapply conn_ok_fwd, conn_ok_mono, Hco; [done..|apply Hgrow|done|done|done]. }
  destruct r as [rs|k].
  - destruct (Hans rs a' eq_refl) as (Hk & Hle & Hp & Hgood & Hcode).
    destruct (prune_waits _ d a' b D (proj1 Hk)) as [Hpa Hpk]. set (a'' := if b then _ else a') in *.
    apply (replace_step (mkAcks d a cs) _ i (mkConn fwd hold q (p :: ps) op)); cbn [k_dialer k_acceptor k_conns d_hist d_res set_acks]; try done.
    + set_solver.
    + apply (tracker_ok _ _ d a'' (answers rs) (Hgrow _) D); [by apply Hpk|]. rewrite Hpa. split; [lia|done].
    + intros o. unfold answer. cbn [d_res]. apply answers_ok; [apply (ok_answer _ I)|done].
    + unfold link_ok, set_acks. cbn [d_up d_acks d_send d_batch]. rewrite Hup. exists c'. split; [by rewrite lookup_insert_eq|]. rewrite Hpa.
      eapply puback_tail; [|exact Hle|exact Hp]. eapply current_ok_mono; [apply Hgrow|done|exact Hcu].
  - subst a'. destruct (prune_waits _ d (d_acks d) b D ltac:(done)) as [Hpa Hpk]. set (a'' := if b then _ else _) in *.
    apply (replace_step (mkAcks d a cs) _ i (mkConn fwd hold q (p :: ps) op)); cbn [k_dialer k_acceptor k_conns]; try done.
    + unfold set_acks, d_close. cbn. set_solver.
    + apply close_dialer, (tracker_ok _ _ d a'' [] (Hgrow []) D); [apply Hpk, keeps_waits_refl|]. rewrite Hpa. auto.
    + unfold set_acks, d_close, answer. cbn [d_res]. change (answers []) with (@nil (Z * string)). rewrite app_nil_r. apply (ok_answer _ I).
    + apply (Hco' []).
Qed.

(** *** Sending one entry *)

(** The entry in hand is settled without a frame. *)
Lemma drop_entry (G : Z → Prop) last conns (d : dialer) e es :
  d_batch d = e :: es → G (Offset e) → link_ok G last conns d → link_ok G last conns (next_entry es d).
Proof.
  unfold link_ok, next_entry. intros Hb Hg. cbn [d_up d_acks d_send d_batch]. rewrite Hb, fmap_cons.
  destruct (d_up d) as [[i []]|]; [| |done].
  - intros (c & Hc & [C1 C2 C3 C4 C5 C6]). exists c. split; [done|]. split; [| |done|done| |].
    + apply StronglySorted_app in C1 as (S1 & S2 & S3). apply StronglySorted_cons in S3 as [_ S3].
      apply StronglySorted_app_2; [|done..]. intros x y Hx Hy. apply S1; [done|by right].
    + intros o Ho. apply C2. set_solver.
    + intros Hop o Ho. destruct (C5 Hop o Ho) as [[Hin|[->|Hin]%elem_of_cons]%elem_of_app|?]; rewrite ?elem_of_app; auto.
    + intros Hop o Ho. destruct (C6 Hop o Ho) as [?|[[->|?]%elem_of_cons|[?|?]]]; auto.
  - intros ([_ S1]%StronglySorted_cons & Hbd & Ha). split_and!; [done|set_solver|].
    intros o Ho. destruct (Ha o Ho) as [[->|?]%elem_of_cons|?]; auto.
Qed.

Lemma next_entry_ok G (d : dialer) e es :
  d_batch d = e :: es → d_up d ≠ None → dialer_ok G d → dialer_ok G (next_entry es d).
Proof.
  intros Hb Hup [? ? ? ? ? ? [D1 D2]]. split; try done. cbn. split; [|done]. intros x Hx. apply D1. rewrite Hb. by right.
Qed.

Lemma skip_step (s : sys) i ak e es :
  acks_ok s → d_up (k_dialer s) = Some (i, ak) → d_batch (k_dialer s) = e :: es →
  acks_ok (mkAcks (next_entry es (d_skip e (k_dialer s))) (k_acceptor s) (k_conns s)).
Proof.
  intros I Hup Hb. pose proof (ok_dialer _ I) as D. pose proof (ok_link _ I) as HL. destruct s as [d a cs]. cbn [k_dialer k_acceptor k_conns] in *.
  assert (He : e ∈ d_hist d) by (apply (do_batch _ _ D); rewrite Hb; by left). unfold d_skip. destruct (ticket e) as [t|] eqn:Ht.
  - unfold onSkip. destruct (tr_take (Offset e) (Some t) (d_acks d)) as [w a'] eqn:Etk.
    destruct (take_waits _ _ _ _ _ Etk) as (Hk & Hack & t' & ->). cbn [fmap option_fmap option_map option_list].
    set (xs := [(Offset e, AckFiltered)]). change (answers _) with xs. unfold set_acks. change (answers _) with xs.
    set (d1 := mkDialer _ _ _ _ _ _ _).
    assert (HG : ∀ o, good (d_hist d) (d_res d) (a_accepted a) o → good (d_hist d) (d_res d ++ xs) (a_accepted a) o)
      by (intros o; apply good_mono; set_solver).
    assert (D1 : dialer_ok (good (d_hist d) (d_res d ++ xs) (a_accepted a)) d1).
    { apply (tracker_ok _ _ d a' xs HG D); [by apply keeps_waits_app|]. rewrite Hack. destruct (do_acked _ _ D). auto. }
    apply (dialer_step (mkAcks d a cs)); cbn [k_dialer k_acceptor k_conns d_hist d_res next_entry d1]; [done|done|set_solver| | |].
    + apply (next_entry_ok _ d1 e es); [done|cbn; congruence|done].
    + apply (error_answers_ok (mkAcks d a cs) _ xs); [done..|]. by intros x ->%list_elem_of_singleton.
    + apply (drop_entry _ _ _ d1 e es); [done|right; right; left; rewrite fmap_app, elem_of_app; right; by left|].
      eapply link_ok_mono in HL; [|exact HG|done]. unfold link_ok, d1 in *. cbn [d_up d_acks d_send d_batch]. by rewrite Hack.
  - apply (dialer_step (mkAcks d a cs)); cbn [k_dialer k_acceptor k_conns d_hist d_res next_entry]; [done..| |apply (ok_answer _ I)|].
    + apply (next_entry_ok _ d e es); [done|congruence|done].
    + apply (drop_entry _ _ _ d e es); [done| |done]. right; right; right. eauto.
Qed.

(** Recording a frame on an acknowledging link. *)
Lemma sent_dialer G (d : dialer) e :
  dialer_ok G d → e ∈ d_hist d →
  dialer_ok G (d_sent true e d) ∧ acked (d_acks (d_sent true e d)) = acked (d_acks d) ∧
  d_sent true e d = mkDialer (d_log d) (d_send d) (d_acks (d_sent true e d)) (d_up d) (d_batch d) (d_hist d) (d_res d).
Proof.
  intros D He. unfold d_sent, onSend, set_acks. cbn [negb]. change (answers (option_list None)) with (@nil (Z * string)).
  rewrite app_nil_r. cbn [d_acks]. set (a1 := mkTracker _ _ _).
  set (a2 := match ticket e with Some t => _ | None => _ end).
  assert (Ha : acked a2 = acked (d_acks d) ∧ waits (d_acks d) ⊆ waits a2 ∧
    ∀ o t, waits a2 !! o = Some t → waits (d_acks d) !! o = Some t ∨ o = Offset e ∧ ticket e = Some t).
  { unfold a2. destruct (ticket e) as [t|] eqn:Ht; [|split_and!; auto]. unfold tr_register.
    destruct (waits a1 !! Offset e) eqn:E; cbn in *; [split_and!; auto|]. split_and!; [done|by apply insert_subseteq|].
    intros o t' [[<- <-]|[_ ?]]%lookup_insert_Some; auto. }
  destruct Ha as (Ha1 & Ha2 & Ha3). split_and!; [|done..]. destruct D as [D1 D2 D3 D4 D5 D6 D7].
  split; cbn [d_log d_send d_acks d_up d_batch d_hist d_res]; try done; [| |by rewrite Ha1].
  - intros o t [?|[-> ?]]%Ha3; eauto.
  - intros x Hx Ht. destruct (D4 x Hx Ht) as [[t' ?]|?]; [left|auto]. exists t'. by eapply lookup_weaken.
Qed.

(** The frame joins the connection it was written to. *)
Lemma add_frame_ok (G : Z → Prop) last h hist acked at_ e es c :
  conn_ok G last h hist c → current_ok G acked at_ last (e :: es) c → e ∈ hist →
  conn_ok G last h hist (add_frame e c) ∧ current_ok G acked at_ last es (add_frame e c).
Proof.
  intros [O1 O2 O3 O4 O5] [C1 C2 C3 C4 C5 C6] He. rewrite fmap_cons in *.
  pose proof C1 as (S1 & S2 & [S3 S4]%StronglySorted_cons)%StronglySorted_app. rewrite Forall_forall in S3.
  assert (Hbelow : ∀ o, o < Offset e → o ∉ Offset e :: (Offset <$> es)).
  { intros o Ho [->|Hin]%elem_of_cons; [lia|]. specialize (S3 o Hin). lia. }
  assert (Hsub : ∀ o, o ∈ (Offset <$> c_fwd c) → o ∈ items c) by (intros o Ho; unfold items; rewrite !elem_of_app; auto).
  unfold add_frame. destruct (c_open c) eqn:Hop.
  - specialize (C5 eq_refl). specialize (C6 eq_refl). set (c' := mkConn _ _ _ _ _).
    assert (Hit : items c' = items c ++ [Offset e]) by (unfold items, c'; cbn; rewrite fmap_app, !app_assoc; done).
    assert (Hat : Offset e ≤ at_) by (apply C2; set_solver). split; split; cbn [c' c_fwd c_hold c_ackq c_bwd c_open]; try done.
    + rewrite fmap_app. apply StronglySorted_app_2; [|done|repeat constructor].
      intros x y Hx ->%list_elem_of_singleton. apply S1; [auto|by left].
    + intros f o Hf Ho. rewrite fmap_app, elem_of_app. apply elem_of_app in Hf as [Hf| ->%list_elem_of_singleton].
      * destruct (O2 f o Hf Ho) as [?|?]; auto.
      * destruct (C6 o ltac:(lia)) as [?|[Hin|?]]; [auto|by destruct (Hbelow o Ho)|auto].
    + intros x [Hx| ->%list_elem_of_singleton]%elem_of_app; auto.
    + rewrite Hit, <-app_assoc. done.
    + intros o. rewrite Hit, <-app_assoc. apply C2.
    + intros x o Hx Ho. rewrite Hit in *. rewrite elem_of_app. apply elem_of_app in Hx as [Hx| ->%list_elem_of_singleton].
      * destruct (C3 x o Hx Ho); auto.
      * destruct (C5 o ltac:(lia)) as [[?|Hin]%elem_of_app|?]; [auto|by destruct (Hbelow o ltac:(lia))|auto].
    + intros _ o. rewrite Hit, <-app_assoc. apply C5.
    + intros _ o Ho. rewrite fmap_app, elem_of_app. destruct (C6 o Ho) as [?|[[->|?]%elem_of_cons|?]]; auto. left. right. by left.
  - split; [by split|]. split; try done; [| |congruence..].
    + apply StronglySorted_app_2; [|done..]. intros x y Hx Hy. apply S1; [done|by right].
    + intros o Ho. apply C2. set_solver.
Qed.

Lemma alter_known {A} (f : A → A) i (m : gmap nat A) x : m !! i = Some x → alter f i m = <[i := f x]> m.
Proof. intros Hx. rewrite <-(insert_id m i x Hx) at 1. by rewrite alter_insert_eq. Qed.

Lemma frame_step (s : sys) i e es w :
  acks_ok s → d_up (k_dialer s) = Some (i, true) → d_batch (k_dialer s) = e :: es →
  let d := d_sent true e (k_dialer s) in
  let d' := match w with Written => next_entry es d | WriteFailed _ => d_close d end in
  acks_ok (mkAcks d' (k_acceptor s)
    (match w with WriteFailed false => k_conns s | _ => alter (add_frame e) i (k_conns s) end)).
Proof.
  intros I Hup Hb d d'. pose proof (ok_dialer _ I) as D. pose proof (ok_link _ I) as HL.
  assert (He : e ∈ d_hist (k_dialer s)) by (apply (do_batch _ _ D); rewrite Hb; by left).
  destruct (sent_dialer _ _ e D He) as (D1 & Hack & Hd). fold d in D1, Hack, Hd.
  unfold link_ok in HL. rewrite Hup, Hb in HL. destruct HL as (c & Hc & Hcu).
  destruct (add_frame_ok _ _ _ _ _ _ _ _ _ (ok_conns _ I i c Hc) Hcu He) as [Hco' Hcu'].
  assert (Hhr : d_hist d' = d_hist (k_dialer s) ∧ d_res d' = d_res (k_dialer s)) by (unfold d'; rewrite Hd; by destruct w).
  destruct Hhr as [Hh Hr].
  assert (D' : dialer_ok (good_of s) d').
  { unfold d'. destruct w; [|by apply close_dialer]. apply (next_entry_ok _ d e es); [by rewrite Hd|rewrite Hd; cbn; congruence|done]. }
  assert (Hans : ∀ o, answer o d' = Some "" → o ∈ a_accepted (k_acceptor s)) by (intros o; unfold answer; rewrite Hr; apply (ok_answer _ I)).
  assert (HL' : w ≠ WriteFailed false → link_ok (good_of s) (last_of s) (<[i := add_frame e c]> (k_conns s)) d').
  { unfold link_ok, d'. rewrite Hd. destruct w; [|done]. intros _. cbn [next_entry d_up d_acks d_send d_batch]. rewrite Hup.
    exists (add_frame e c). rewrite lookup_insert_eq, Hack. done. }
  assert (Hadd : w ≠ WriteFailed false → acks_ok (mkAcks d' (k_acceptor s) (alter (add_frame e) i (k_conns s)))).
  { intros Hw. rewrite (alter_known _ _ _ c Hc). apply (replace_step s d' i c); rewrite ?Hh, ?Hr; auto; try done.
    unfold add_frame. by destruct (c_open c). }
  destruct w as [|[]]; [by apply Hadd..|]. apply dialer_step; rewrite ?Hh, ?Hr; done.
Qed.

(** A link without acknowledgements: what it sends counts as answered. *)
Lemma plain_step (s : sys) i e es w :
  acks_ok s → d_up (k_dialer s) = Some (i, false) → d_batch (k_dialer s) = e :: es →
  let d := d_sent false e (k_dialer s) in
  acks_ok (mkAcks (match w with Written => next_entry es d | WriteFailed _ => d_close d end) (k_acceptor s) (k_conns s)).
Proof.
  intros I Hup Hb d0. pose proof (ok_dialer _ I) as D. pose proof (ok_link _ I) as HL. destruct s as [d a cs]. cbn [k_dialer k_acceptor k_conns] in *.
  assert (He : e ∈ d_hist d) by (apply (do_batch _ _ D); rewrite Hb; by left). pose proof (hist_offset _ _ _ D He) as Hoff.
  unfold d0, d_sent, onSend. cbn [negb]. unfold tr_take. cbn [waits acked tr_sent fst snd fmap option_fmap option_map option_list]. set (w0 := match waits (d_acks d) !! Offset e with Some _ => _ | None => _ end).
  set (a' := mkTracker _ _ _). set (xs := match w0 with Some _ => [(Offset e, AckUnsupported)] | None => [] end).
  replace (set_acks a' _ d) with (mkDialer (d_log d) (d_send d) a' (d_up d) (d_batch d) (d_hist d) (d_res d ++ xs))
    by (unfold set_acks, xs; by destruct w0). clear d0. set (d1 := mkDialer _ _ a' _ _ _ _).
  set (G' := good (d_hist d) (d_res d ++ xs) (a_accepted a)).
  assert (HG : ∀ o, good (d_hist d) (d_res d) (a_accepted a) o → G' o) by (intros o; apply good_mono; set_solver).
  assert (Hoe : G' (Offset e)).
  { unfold G', xs, w0. destruct (ticket e) as [t|] eqn:Ht; [|right; right; right; eauto]. right; right; left.
    rewrite fmap_app, elem_of_app. right. destruct (waits (d_acks d) !! Offset e); by left. }
  unfold link_ok in HL. rewrite Hup, Hb, fmap_cons in HL. destruct HL as (HS & Hbd & Hat).
  apply StronglySorted_cons in HS as [HS HS']. rewrite Forall_forall in HS.
  assert (Hall : ∀ o, o ≤ Offset e → G' o).
  { intros o Ho. destruct (decide (o = Offset e)) as [->|]; [done|]. specialize (Hbd (Offset e) ltac:(by left)).
    destruct (Hat o ltac:(lia)) as [[->|Hin]%elem_of_cons|?]; [done| |auto]. specialize (HS o Hin). lia. }
  assert (D1 : dialer_ok G' d1).
  { apply (tracker_ok _ G' d a' xs HG D); [|split; [cbn; lia|exact Hall]]. apply keeps_waits_app. split; [apply delete_subseteq|]. cbn.
    intros o Ho. destruct (decide (o = Offset e)) as [->|]; [|left; by rewrite lookup_delete_ne]. right. unfold xs, w0.
    destruct Ho as [t Ht]. rewrite Ht. by left. }
  assert (Herr : ∀ x, x ∈ xs → x.2 ≠ "") by (unfold xs; destruct w0; [by intros x ->%list_elem_of_singleton|by intros x ?%elem_of_nil]).
  set (d2 := match w with Written => _ | WriteFailed _ => _ end).
  assert (Hhr : d_hist d2 = d_hist d ∧ d_res d2 = d_res d ++ xs) by (unfold d2; by destruct w). destruct Hhr as [Hh Hr].
  apply (dialer_step (mkAcks d a cs)); cbn [k_dialer k_acceptor k_conns]; rewrite ?Hh, ?Hr; [done|done|set_solver| | |].
  - fold G'. unfold d2. destruct w; [|by apply close_dialer]. apply (next_entry_ok _ d1 e es); [done|cbn; congruence|done].
  - by apply (error_answers_ok (mkAcks d a cs) _ xs).
  - fold G'. unfold link_ok, d2. destruct w; [|done]. cbn [next_entry d1 d_up d_batch d_send]. rewrite Hup. split_and!; [done|set_solver|].
    intros o Ho. destruct (Hat o Ho) as [[->|?]%elem_of_cons|?]; auto.
Qed.

Lemma send_step (s : sys) pass w : acks_ok s → acks_ok (acks_send pass w s).
Proof.
  intros I. unfold acks_send, d_send_one. destruct (d_up (k_dialer s)) as [[i ak]|] eqn:Hup; [|by destruct s].
  destruct (d_batch (k_dialer s)) as [|e es] eqn:Hb; [by destruct s|]. destruct pass; cbn [negb].
  - destruct (Marker e) eqn:Hm.
    + pose proof (skip_step s i ak e es I Hup Hb) as Hs. unfold d_skip in Hs. destruct (ticket e) as [t|] eqn:Ht; [|done].
      pose proof (ok_dialer _ I) as D. destruct (do_ticket _ _ D e t) as [_ ?]; [|done|congruence].
      apply (do_batch _ _ D). rewrite Hb. by left.
    + destruct ak.
      * pose proof (frame_step s i e es w I Hup Hb) as Hs. cbn in Hs. by destruct w as [|[]].
      * pose proof (plain_step s i e es w I Hup Hb) as Hs. cbn in Hs. by destruct w as [|[]].
  - by eapply skip_step.
Qed.

(** *** Steps of the acceptor *)

(** A step on connection [i]: what it must keep. *)
Lemma conn_step (s : sys) a' i c c' :
  acks_ok s → k_conns s !! i = Some c → a_accepted (k_acceptor s) ⊆ a_accepted a' →
  let d := k_dialer s in let G := good (d_hist d) (d_res d) (a_accepted a') in
  let last' := last_seen sp stream (a_seen a') in
  memory_ok sp stream G (a_seen a') (a_heap a') → last_of s ≤ last' → heap_le (a_heap (k_acceptor s)) (a_heap a') →
  conn_ok G last' (a_heap a') (d_hist d) c' →
  (∀ acked at_ batch, current_ok G acked at_ last' batch c → current_ok G acked at_ last' batch c') →
  publish_ok last' (<[i := c']> (k_conns s)) (d_hist d) a' →
  acks_ok (mkAcks d a' (<[i := c']> (k_conns s))).
Proof.
  intros I Hc Hacc d G last' M Hl Hh Hco Hcu Hp. assert (HG : ∀ o, good_of s o → G o) by (intros o; by apply good_mono).
  split; cbn [k_dialer k_acceptor k_conns]; [| |done| | |done].
  - eapply dialer_ok_mono, I. done.
  - intros o Ho. apply Hacc, (ok_answer _ I), Ho.
  - intros j c0 [[<- <-]|[_ Hj]]%lookup_insert_Some; [done|]. eapply conn_ok_mono; [exact HG|done..|]. by eapply ok_conns.
  - pose proof (link_ok_mono _ G _ last' _ _ HG Hl (ok_link _ I)) as HL. fold d in HL. unfold link_ok in *.
    destruct (d_up d) as [[j []]|]; [|done..]. destruct HL as (c0 & Hj & Hcu0). destruct (decide (i = j)) as [->|].
    + exists c'. rewrite lookup_insert_eq. split; [done|]. apply Hcu. by simplify_eq.
    + exists c0. by rewrite lookup_insert_ne.
Qed.

(** The holds after a step that may add one at [i]. *)
Lemma publish_ok_hold last last' conns hist (a : ackAcceptor) i c' h' seen' :
  publish_ok last conns hist a → last ≤ last' → heap_le (a_heap a) h' →
  (∀ o, fresh_hold c' o → last < o ≤ last' ∨ ∃ c, conns !! i = Some c ∧ fresh_hold c o) →
  publish_ok last' (<[i := c']> conns) hist (mkAccept seen' h' (a_running a) (a_published a) (a_accepted a)).
Proof.
  intros [P1 P2 P3 P4 P5 P6] Hl Hh Hf. split; cbn [a_published a_running a_heap a_accepted]; try done.
  - intros o Ho. specialize (P2 o Ho). lia.
  - intros j c o [[<- <-]|[_ Hj]]%lookup_insert_Some Hfo.
    + destruct (Hf o Hfo) as [?|(c & Hc & ?)]; [|destruct (P3 i c o) as [? ?]; [done..|split; [done|lia]]].
      split; [|lia]. intros Hin. specialize (P2 o Hin). lia.
    + destruct (P3 j c o) as [? ?]; [done..|split; [done|lia]].
  - assert (Hx : ∀ k c2 o, i ≠ k → conns !! k = Some c2 → fresh_hold c' o → fresh_hold c2 o → False).
    { intros k c2 o Hne Hk Hf1 Hf2. destruct (Hf o Hf1) as [?|(c & Hc & Hfc)].
      - destruct (P3 k c2 o) as [_ ?]; [done..|lia].
      - apply Hne. by eapply P4. }
    intros j k c1 c2 o [[<- <-]|[Hj Hc1]]%lookup_insert_Some [[<- <-]|[Hk Hc2]]%lookup_insert_Some Hf1 Hf2;
      [done|by destruct (Hx k c2 o)|by destruct (Hx j c1 o)|by eapply P4].
  - intros r (x & Hx & Hin)%P5. apply Hh in Hx as (x' & ? & E). exists x'. by rewrite E.
Qed.

Lemma acc_begin_spec G (a : ackAcceptor) e hold a' :
  (∀ o, o ≤ 0 → G o) → memory_ok sp stream G (a_seen a) (a_heap a) →
  (∀ o, o < Offset e → o ≤ last_seen sp stream (a_seen a) ∨ G o) →
  acc_begin ev_id usable sp stream e a = (hold, a') →
  ∃ id r fresh, hold = (e, id, r, fresh) ∧
  a' = mkAccept (a_seen a') (a_heap a') (a_running a) (a_published a) (a_accepted a) ∧
  memory_ok sp stream G (a_seen a') (a_heap a') ∧ heap_le (a_heap a) (a_heap a') ∧
  last_seen sp stream (a_seen a') = Z.max (last_seen sp stream (a_seen a)) (Offset e) ∧
  (∃ x, a_heap a' !! r = Some x ∧ pa_Offset (ar_p x) = Offset e) ∧
  (fresh = true → last_seen sp stream (a_seen a) < Offset e).
Proof.
  intros HG M Hlow. unfold acc_begin. set (id := if usable e then _ else "").
  destruct (begin sp stream (Offset e) id (a_seen a) (a_heap a)) as [[[r dup] s1] h1] eqn:Eb.
  destruct (begin_memory _ _ _ _ _ _ _ _ _ _ _ HG M Hlow Eb) as (M1 & Hl & Hh & Hx & Hd).
  destruct (usable e).
  { intros [= <- <-]. exists id, r, (negb dup). split_and!; try done. intros. apply Hd. by destruct dup. }
  intros [= <- <-]. exists id, r, false. destruct dup; [by split_and!|].
  unfold acc_complete. cbn [a_seen a_heap a_running a_published a_accepted].
  destruct (complete sp stream r AckInvalid s1 h1) as [s2 h2] eqn:Ec.
  destruct (complete_memory _ _ _ _ _ _ _ _ _ M1 Ec ltac:(done)) as (M2 & Hl2 & Hh2). cbn [a_seen a_heap a_running a_published a_accepted].
  split_and!; try done; [by etransitivity|congruence|]. destruct Hx as (x & Hx & E). apply Hh2 in Hx as (x' & ? & ?).
  exists x'. split; [done|congruence].
Qed.

Lemma read_step (s : sys) i : acks_ok s → acks_ok (on_conn i (conn_read ev_id usable sp stream) s).
Proof.
  intros I. unfold on_conn. destruct (k_conns s !! i) as [c|] eqn:Hc; [|done].
  pose proof (ok_conns _ I i c Hc) as [O1 O2 O3 O4 O5]. unfold conn_read.
  assert (Hid : acks_ok (mkAcks (k_dialer s) (k_acceptor s) (<[i := c]> (k_conns s)))) by (rewrite insert_id by done; by destruct s).
  destruct (c_hold c) eqn:Hho; [done|]. destruct (c_fwd c) as [|e es] eqn:Hf; [done|]. rewrite fmap_cons in O1, O2.
  apply StronglySorted_cons in O1 as [S1 S2]. rewrite Forall_forall in S1.
  destruct (acc_begin ev_id usable sp stream e (k_acceptor s)) as [hold a'] eqn:Eb.
  apply (acc_begin_spec (good_of s)) in Eb as (id & r & fresh & -> & Ea & M & Hh & Hl & Hx & Hfr); [|by left|apply I|].
  2: { intros o Ho. destruct (O2 e o ltac:(by left) Ho) as [[->|Hin]%elem_of_cons|?]; [lia| |done]. specialize (S1 o Hin). lia. }
  assert (Eacc : a_accepted a' = a_accepted (k_acceptor s)) by (by rewrite Ea).
  apply (conn_step s a' i c); rewrite ?Eacc; try done; [lia| | |].
  - split; cbn [c_fwd c_hold c_ackq]; [done| | | |].
    + intros f o Hfin Ho. destruct (O2 f o ltac:(by right) Ho) as [[->|?]%elem_of_cons|[?|?]]; [right; left; lia|auto|right; left; lia|auto].
    + intros r0 off id0 (x & Hx0 & E)%O3. apply Hh in Hx0 as (x' & ? & ?). eexists. split; [done|congruence].
    + intros e0 id0 r0 fr [= <- <- <- <-]. split; [apply O5; by left|done].
    + intros x Hx0. apply O5. by right.
  - intros acked at_ batch [C1 C2 C3 C4 C5 C6].
    assert (Hit : items (mkConn es (Some (e, id, r, fresh)) (c_ackq c) (c_bwd c) (c_open c)) = items c).
    { unfold items. cbn [c_fwd c_hold c_ackq c_bwd]. rewrite Hho, Hf, fmap_cons. done. }
    split; rewrite ?Hit; cbn [c_bwd c_open c_fwd]; try done. intros Hop o Ho. rewrite Hf, fmap_cons in C6.
    destruct (C6 Hop o Ho) as [[->|?]%elem_of_cons|?]; auto. right; right; left. lia.
  - rewrite Ea. cbn [a_seen]. apply (publish_ok_hold (last_of s)); [apply I|rewrite Hl; lia|done|].
    intros o (e0 & id0 & r0 & [= <- _ _ ->] & <-). left. rewrite Hl. specialize (Hfr eq_refl). lia.
Qed.

Lemma acc_complete_spec G (a : ackAcceptor) r code :
  memory_ok sp stream G (a_seen a) (a_heap a) →
  (∀ x, a_heap a !! r = Some x → code = "" → G (pa_Offset (ar_p x))) →
  let a' := acc_complete sp stream r code a in
  a' = mkAccept (a_seen a') (a_heap a') (a_running a) (a_published a) (a_accepted a) ∧
  memory_ok sp stream G (a_seen a') (a_heap a') ∧
  last_seen sp stream (a_seen a') = last_seen sp stream (a_seen a) ∧ heap_le (a_heap a) (a_heap a').
Proof.
  intros M HG. unfold acc_complete. destruct (complete sp stream r code (a_seen a) (a_heap a)) as [s1 h1] eqn:Ec.
  destruct (complete_memory _ _ _ _ _ _ _ _ _ M Ec HG) as (? & ? & ?). done.
Qed.

(** The publisher's ghosts: a new offset, its running result, its acceptance. *)
Lemma publish_ok_new last conns hist (a : ackAcceptor) o (pub : bool) run' acc' seen' h' :
  publish_ok last conns hist a → heap_le (a_heap a) h' → (o ∉ a_published a) → o ≤ last →
  (∀ i c, conns !! i = Some c → ¬ fresh_hold c o) →
  let pub' := if pub then a_published a ++ [o] else a_published a in
  (∀ r, r ∈ run' → r ∈ a_running a ∨ ∃ x, h' !! r = Some x ∧ pa_Offset (ar_p x) ∈ pub') →
  (∀ x, x ∈ acc' → x ∈ a_accepted a ∨ x ∈ pub' ∨ ∃ e, e ∈ hist ∧ Offset e = x ∧ own e = true) →
  publish_ok last conns hist (mkAccept seen' h' run' pub' acc').
Proof.
  intros [P1 P2 P3 P4 P5 P6] Hh Hno Ho Hf pub' Hrun Hacc.
  assert (Hsub : ∀ x, x ∈ a_published a → x ∈ pub') by (intros x; unfold pub'; destruct pub; set_solver).
  split; cbn [a_published a_running a_heap a_accepted]; [| | |done| |].
  - unfold pub'. destruct pub; [|done]. apply NoDup_app. split_and!; [done|set_solver|apply NoDup_singleton].
  - intros x. unfold pub'. destruct pub; [|auto]. intros [?| ->%list_elem_of_singleton]%elem_of_app; auto.
  - intros i c x Hc Hfx. destruct (P3 i c x Hc Hfx) as [? ?]. split; [|done]. unfold pub'. destruct pub; [|done].
    intros [?| ->%list_elem_of_singleton]%elem_of_app; [done|]. by destruct (Hf i c Hc).
  - intros r Hr. destruct (Hrun r Hr) as [Hin|?]; [|done]. destruct (P5 r Hin) as (x & Hx & Hp). apply Hh in Hx as (x' & ? & E).
    exists x'. rewrite E. auto.
  - intros x Hx. destruct (Hacc x Hx) as [Hin|?]; [|done]. destruct (P6 x Hin); auto.
Qed.

Lemma acc_publish_spec hist res (a : ackAcceptor) e r out x :
  memory_ok sp stream (good hist res (a_accepted a)) (a_seen a) (a_heap a) →
  a_heap a !! r = Some x → pa_Offset (ar_p x) = Offset e → e ∈ hist →
  let a' := acc_publish own reserved sp stream e r out a in
  a_accepted a ⊆ a_accepted a' ∧ memory_ok sp stream (good hist res (a_accepted a')) (a_seen a') (a_heap a') ∧
  last_seen sp stream (a_seen a') = last_seen sp stream (a_seen a) ∧ heap_le (a_heap a) (a_heap a') ∧
  (∀ last conns, publish_ok last conns hist a → (Offset e ∉ a_published a) → Offset e ≤ last →
     (∀ i c, conns !! i = Some c → ¬ fresh_hold c (Offset e)) → publish_ok last conns hist a').
Proof.
  intros M Hx Hoff He. unfold acc_publish.
  set (a1 := mkAccept (a_seen a) (a_heap a) (a_running a) (a_published a ++ [Offset e]) (a_accepted a)).
  assert (Hok : ∀ b, a_seen b = a_seen a → a_heap b = a_heap a → a_accepted b = a_accepted a →
    memory_ok sp stream (good hist res (a_accepted b ++ [Offset e])) (a_seen b) (a_heap b)).
  { intros b -> -> ->. eapply memory_ok_mono, M. intros o. apply good_mono; set_solver. }
  destruct (own e) eqn:Hown; [|destruct (reserved e); [|destruct out]].
  - destruct (acc_complete_spec _ (acc_accept (Offset e) a) r "" (Hok a eq_refl eq_refl eq_refl)) as (E & M' & Hl & Hh).
    { cbn [acc_accept a_heap a_accepted]. intros y Hy _. rewrite Hx in Hy. simplify_eq. rewrite Hoff. right. left. set_solver. }
    rewrite E. cbn in *. split_and!; [set_solver|done..|]. intros last conns P H1 H2 H3.
    apply (publish_ok_new _ _ _ a (Offset e) false); auto. intros y [?| ->%list_elem_of_singleton]%elem_of_app; [auto|]. right; right. by exists e.
  - destruct (acc_complete_spec _ a r AckInvalid M ltac:(done)) as (E & M' & Hl & Hh).
    rewrite E. cbn in *. split_and!; [done..|]. intros last conns P H1 H2 H3. by apply (publish_ok_new _ _ _ a (Offset e) false); auto.
  - destruct (acc_complete_spec _ a1 r AckRejected M ltac:(done)) as (E & M' & Hl & Hh).
    rewrite E. cbn in *. split_and!; [done..|]. intros last conns P H1 H2 H3. by apply (publish_ok_new _ _ _ a (Offset e) true); auto.
  - destruct (acc_complete_spec _ (acc_accept (Offset e) a1) r "" (Hok a1 eq_refl eq_refl eq_refl)) as (E & M' & Hl & Hh).
    { cbn [acc_accept a_heap a_accepted a1]. intros y Hy _. rewrite Hx in Hy. simplify_eq. rewrite Hoff. right. left. set_solver. }
    rewrite E. cbn in *. split_and!; [set_solver|done..|]. intros last conns P H1 H2 H3.
    apply (publish_ok_new _ _ _ a (Offset e) true); auto. intros y [?| ->%list_elem_of_singleton]%elem_of_app; [auto|]. set_solver.
  - cbn. split_and!; [done..|]. intros last conns P H1 H2 H3. apply (publish_ok_new _ _ _ a (Offset e) true); auto; [done|].
    intros r0 [->|?]%elem_of_cons; [|auto]. right. exists x. rewrite Hoff. set_solver.
Qed.

Lemma conn_id (s : sys) i c : acks_ok s → k_conns s !! i = Some c → acks_ok (mkAcks (k_dialer s) (k_acceptor s) (<[i := c]> (k_conns s))).
Proof. intros I Hc. rewrite insert_id by done. by destruct s. Qed.

(** Only the connection changes, and it holds no other frame than before. *)
Lemma conn_only_step (s : sys) i c c' :
  acks_ok s → k_conns s !! i = Some c →
  conn_ok (good_of s) (last_of s) (a_heap (k_acceptor s)) (d_hist (k_dialer s)) c' →
  (∀ acked at_ batch, current_ok (good_of s) acked at_ (last_of s) batch c → current_ok (good_of s) acked at_ (last_of s) batch c') →
  (∀ o, fresh_hold c' o → fresh_hold c o) →
  acks_ok (mkAcks (k_dialer s) (k_acceptor s) (<[i := c']> (k_conns s))).
Proof.
  intros I Hc Hco Hcu Hf. apply (conn_step s _ i c); try done; [apply I|].
  destruct (k_acceptor s) as [seen h run pub acc] eqn:E. change (mkAccept seen h run pub acc) with
    (mkAccept seen h (a_running (mkAccept seen h run pub acc)) (a_published (mkAccept seen h run pub acc)) (a_accepted (mkAccept seen h run pub acc))).
  rewrite <-E. apply (publish_ok_hold (last_of s)); [apply I|by rewrite E|by rewrite E|]. intros o Ho. right. exists c. auto.
Qed.

Lemma queue_step (s : sys) i out : acks_ok s → acks_ok (on_conn i (conn_queue own reserved sp stream out) s).
Proof.
  intros I. unfold on_conn. destruct (k_conns s !! i) as [c|] eqn:Hc; [|done].
  pose proof (ok_conns _ I i c Hc) as Hco. pose proof Hco as [O1 O2 O3 O4 O5]. unfold conn_queue.
  destruct (c_hold c) as [[[[e id] r] fresh]|] eqn:Hho; [|by apply conn_id].
  destruct (q_push (Offset e) id r (c_ackq c)) as [q|] eqn:Hq; [|by apply conn_id].
  unfold q_push in Hq. destruct (q_max _ <=? _); [done|]. injection Hq as <-. set (q := mkAckQueue _ _). set (c' := mkConn _ _ q _ _).
  destruct (O4 e id r fresh eq_refl) as (He & x & Hx & Hoff).
  assert (Hit : items c' = items c) by (unfold items, c', q; cbn; rewrite Hho, fmap_app, <-!app_assoc; done).
  assert (Hcu : ∀ G last acked at_ batch, current_ok G acked at_ last batch c → current_ok G acked at_ last batch c').
  { intros G last acked at_ batch [C1 C2 C3 C4 C5 C6]. split; rewrite ?Hit; done. }
  assert (Hco' : conn_ok (good_of s) (last_of s) (a_heap (k_acceptor s)) (d_hist (k_dialer s)) c').
  { split; cbn [c' c_fwd c_hold c_ackq q q_items]; try done.
    intros r0 off id0 [Hin|[= -> -> ->]%list_elem_of_singleton]%elem_of_app; [by eapply O3|eauto]. }
  destruct fresh.
  2: { apply (conn_only_step s i c); [done..|apply Hcu|]. by intros o (? & ? & ? & ? & _). }
  destruct (acc_publish_spec (d_hist (k_dialer s)) (d_res (k_dialer s)) (k_acceptor s) e r out x (ok_memory _ I) Hx Hoff He) as (Hacc & M & Hl & Hh & Hp).
  set (a' := acc_publish own reserved sp stream e r out (k_acceptor s)) in *.
  apply (conn_step s a' i c); try done; [lia| |intros acked at_ batch; apply Hcu|].
  - rewrite Hl. eapply conn_ok_mono with (hist := d_hist (k_dialer s)) (last := last_of s); [|done|exact Hh|done|exact Hco']. intros o. apply good_mono; [done..|exact Hacc].
  - rewrite Hl. assert (Hf : fresh_hold c (Offset e)) by (by exists e, id, r). destruct (po_hold _ _ _ _ (ok_publish _ I) i c _ Hc Hf) as [Hno Hle].
    apply Hp; [|done|done|].
    + pose proof (conn_only_step s i c c' I Hc Hco') as Hs. apply Hs; [apply Hcu|]. by intros o (? & ? & ? & ? & _).
    + intros j c0 [[<- <-]|[Hne Hj]]%lookup_insert_Some Hf0; [by destruct Hf0 as (? & ? & ? & ? & _)|].
      apply Hne. by eapply (po_apart _ _ _ _ (ok_publish _ I)).
Qed.

Lemma done_step (s : sys) r : acks_ok s → acks_ok (mkAcks (k_dialer s) (acc_done sp stream r (k_acceptor s)) (k_conns s)).
Proof.
  intros I. unfold acc_done. destruct (a_heap (k_acceptor s) !! r) as [x|] eqn:Hx; [|by destruct s].
  case_bool_decide as Hr; [|by destruct s]. set (a1 := acc_accept _ _).
  assert (HG : ∀ o, good_of s o → good (d_hist (k_dialer s)) (d_res (k_dialer s)) (a_accepted a1) o)
    by (intros o; apply good_mono; [done..|cbn; set_solver]).
  destruct (acc_complete_spec (good (d_hist (k_dialer s)) (d_res (k_dialer s)) (a_accepted a1)) a1 r "") as (E & M & Hl & Hh).
  - eapply memory_ok_mono, I. done.
  - cbn [a1 acc_accept a_heap a_accepted]. intros y Hy _. rewrite Hx in Hy. simplify_eq. right. left. set_solver.
  - set (a' := acc_complete sp stream r "" a1) in *.
    assert (Eacc : a_accepted a' = a_accepted (k_acceptor s) ++ [pa_Offset (ar_p x)]) by (by rewrite E).
    split; cbn [k_dialer k_acceptor k_conns]; rewrite ?Eacc; [| |done| | |].
    + eapply dialer_ok_mono, I. done.
    + intros o Ho. apply elem_of_app. left. by apply (ok_answer _ I).
    + intros i c Hc. rewrite Hl.
      eapply conn_ok_mono with (hist := d_hist (k_dialer s)) (last := last_of s); [exact HG|done|exact Hh|done|by eapply ok_conns].
    + rewrite Hl. eapply link_ok_mono; [exact HG|done|apply I].
    + rewrite Hl, E. destruct (ok_publish _ I) as [P1 P2 P3 P4 P5 P6]. split; cbn [a_published a_running a_heap a_accepted a1 acc_accept]; try done.
      * intros r0 (y & Hy & Hin)%P5. apply Hh in Hy as (y' & ? & Ey). exists y'. by rewrite Ey.
      * intros o [?| ->%list_elem_of_singleton]%elem_of_app; [auto|]. left. destruct (P5 r Hr) as (y & Hy & Hin). by simplify_eq.
Qed.

(** The settled prefix becomes pubacks for the same offsets, in order. *)
Lemma settled_prefix_spec (h : heap) l ps rest :
  settled_prefix h l = (ps, rest) →
  (pa_Offset <$> ps) ++ ((λ x : nat * Z * string, x.1.2) <$> rest) = (λ x : nat * Z * string, x.1.2) <$> l ∧
  (∀ x, x ∈ rest → x ∈ l) ∧
  (∀ p, p ∈ ps → ∃ r id x, (r, pa_Offset p, id) ∈ l ∧ h !! r = Some (mkResult true x) ∧ pa_Status p = pa_Status x ∧ pa_Code p = pa_Code x).
Proof.
  revert ps rest. induction l as [|[[r off] id] l IH]; intros ps rest; cbn.
  { intros [= <- <-]. split_and!; [done..|]. by intros p ?%elem_of_nil. }
  destruct (h !! r) as [[[] x]|] eqn:Hr; [|intros [= <- <-]; split_and!; [done..|by intros p ?%elem_of_nil]..].
  destruct (settled_prefix h l) as [ps0 rest0] eqn:El. intros [= <- <-].
  destruct (IH ps0 rest0 eq_refl) as (H1 & H2 & H3). split_and!.
  - rewrite !fmap_cons. cbn. by rewrite H1.
  - intros y Hy. right. auto.
  - intros p [->|Hp]%elem_of_cons.
    + exists r, id, x. split_and!; [by left|done..].
    + destruct (H3 p Hp) as (r' & id' & x' & ? & ?). exists r', id', x'. split; [by right|done].
Qed.

Lemma flush_step (s : sys) i : acks_ok s → acks_ok (on_conn i (λ c a, (conn_flush (a_heap a) c, a)) s).
Proof.
  intros I. unfold on_conn. destruct (k_conns s !! i) as [c|] eqn:Hc; [|done].
  pose proof (ok_conns _ I i c Hc) as [O1 O2 O3 O4 O5]. unfold conn_flush, q_ready.
  destruct (settled_prefix (a_heap (k_acceptor s)) (q_items (c_ackq c))) as [ps rest] eqn:Es.
  destruct (settled_prefix_spec _ _ _ _ Es) as (H1 & H2 & H3). set (c' := mkConn _ _ _ _ _).
  assert (Hit : items c' = items c) by (unfold items, c'; cbn; by rewrite fmap_app, <-H1, <-!app_assoc).
  apply (conn_only_step s i c); [done..| | |done].
  - split; cbn [c' c_fwd c_hold c_ackq q_items]; try done. intros r off id Hin. eapply O3. by apply H2.
  - intros acked at_ batch [C1 C2 C3 C4 C5 C6]. split; rewrite ?Hit; try done. cbn [c' c_bwd].
    intros p [?|Hp]%elem_of_app; [auto|]. destruct (H3 p Hp) as (r & id & x & Hin & Hr & Hs & Hcd).
    destruct (O3 _ _ _ Hin) as (y & Hy & E). rewrite Hr in Hy. injection Hy as <-. cbn in E.
    pose proof (mo_heap _ _ _ _ _ (ok_memory _ I) r _ Hr) as Hok. unfold result_ok, puback_ok in *. cbn in Hok. by rewrite Hs, Hcd, <-E.
Qed.

Lemma conn_cut_cases (c : ackConn (Ev := Ev)) :
  conn_cut c = c ∨ conn_cut c = mkConn [] None (mkAckQueue [] (q_max (c_ackq c))) (c_bwd c) false.
Proof. unfold conn_cut. repeat case_match; auto. Qed.

Lemma cut_step (s : sys) i : acks_ok s → acks_ok (on_conn i (λ c a, (conn_cut c, a)) s).
Proof.
  intros I. unfold on_conn. destruct (k_conns s !! i) as [c|] eqn:Hc; [|done].
  destruct (conn_cut_cases c) as [-> | ->]; [by apply conn_id|].
  apply (conn_only_step s i c); [done..| | |by intros o (? & ? & ? & ? & _)].
  - split; cbn; [constructor|by intros ? ? ?%elem_of_nil|by intros ? ? ? ?%elem_of_nil|done|by intros ? ?%elem_of_nil].
  - intros acked at_ batch [C1 C2 C3 C4 _ _].
    assert (Hit : ∃ tl, items c = items (mkConn [] None (mkAckQueue [] (q_max (c_ackq c))) (c_bwd c) false) ++ tl).
    { unfold items. cbn. rewrite !app_nil_r. eauto. }
    destruct Hit as [tl Hit]. set (its := items (mkConn _ _ _ _ _)) in *. rewrite Hit in C1, C2, C3.
    rewrite <-app_assoc in C1, C2. pose proof C1 as (S1 & S2 & S3)%StronglySorted_app.
    split; fold its; cbn [c_bwd c_open]; [| | |done|done|done].
    + apply StronglySorted_app in S3 as (_ & _ & S3). apply StronglySorted_app_2; [|done..].
      intros x y Hx Hy. apply S1; [done|set_solver].
    + intros o Ho. apply C2. set_solver.
    + intros x o Hx Ho. destruct (C3 x o) as [[?|Hin]%elem_of_app|?]; [set_solver|done|auto| |auto].
      specialize (S1 x o Hx ltac:(set_solver)). lia.
Qed.

Abbreviation do_ := (acks_do ev_id usable own reserved sp stream).
Abbreviation run_ := (acks_run ev_id usable own reserved sp stream).

Lemma acks_do_ok s x : acks_ok s → acks_ok (do_ s x).
Proof.
  intros I. destruct x; cbn [acks_do].
  - destruct (Z.ltb_spec (Head (d_log (k_dialer s))) (2 ^ 64 - 2)); [by apply append_step|done].
  - destruct (Z.ltb_spec 0 max), (Z.ltb_spec max (2 ^ 63)); cbn; try done. by apply fetch_step.
  - by apply send_step.
  - by apply close_step.
  - by apply connect_step.
  - by apply puback_step.
  - by apply give_up_step.
  - by apply fail_step.
  - by apply read_step.
  - by apply queue_step.
  - by apply done_step.
  - by apply flush_step.
  - by apply cut_step.
Qed.

Lemma acks_start_ok log h ob ms me :
  holds log h → (∀ e, e ∈ h → ticket e = None) → 1 ≤ ms → 0 ≤ me → acks_ok (acks_start log h ob ms me).
Proof.
  intros Hl Ht Hms Hme. pose proof Hl as (Hok & Hh & Hd & _). pose proof (log_bounds log Hok).
  unfold acks_start. split; cbn [k_dialer k_acceptor k_conns]; [|done| |done|done|].
  - split; cbn; try done; [| | |lia|].
    + intros e t He E. rewrite (Ht e He) in E. done.
    + intros e He E. by rewrite (Ht e He) in E.
    + split; [lia|]. intros o Ho. destruct (decide (o ≤ 0)) as [|Hp]; [by left|]. right; right; right.
      destruct (lookup_lt_is_Some_2 h (Z.to_nat (o - 1))) as [e He]; [lia|]. exists e.
      pose proof (list_elem_of_lookup_2 _ _ _ He). rewrite (dense_lookup _ _ _ _ Hd He). split_and!; [done|lia|auto].
    + split; [by intros ? ?%elem_of_nil|done].
  - split; cbn; [by apply newAckSeen_ok|by intros k [? ?]|done|done].
  - split; cbn; try done; [constructor|by intros ? ?%elem_of_nil..].
Qed.

Lemma acks_run_ok xs s : acks_ok s → acks_ok (run_ xs s).
Proof. revert s. induction xs as [|x xs IH]; intros s I; [done|]. by apply IH, acks_do_ok. Qed.


(** ** A frame dropped while its reader waits for room *)

(** Remembered, not published, and in no reader's hand. *)
Definition lost (o : Z) (s : sys) : Prop :=
  o ≤ last_of s ∧ (o ∉ a_published (k_acceptor s)) ∧ ∀ i c, k_conns s !! i = Some c → ¬ fresh_hold c o.

Lemma lost_conn o (s : sys) a' i c c' :
  lost o s → k_conns s !! i = Some c → last_of s ≤ last_seen sp stream (a_seen a') →
  (o ∉ a_published a') → (fresh_hold c' o → fresh_hold c o) → lost o (mkAcks (k_dialer s) a' (<[i := c']> (k_conns s))).
Proof.
  intros (H1 & H2 & H3) Hc Hl Hp Hf. split_and!; cbn [k_acceptor k_conns]; [lia|done|].
  intros j c0 [[<- <-]|[_ Hj]]%lookup_insert_Some; [|by eapply H3]. intros Hf0%Hf. by eapply H3.
Qed.

Lemma lost_send o (s : sys) pass w : lost o s → lost o (acks_send pass w s).
Proof.
  unfold acks_send. destruct (d_send_one pass w (k_dialer s)) as [f d]. intros (H1 & H2 & H3). split_and!; [done..|].
  cbn [k_conns]. assert (Hadd : ∀ (e : Entry) i j c, alter (add_frame e) i (k_conns s) !! j = Some c → ¬ fresh_hold c o).
  { intros e i j c. destruct (decide (i = j)) as [->|]; [|rewrite lookup_alter_ne by done; apply H3].
    rewrite lookup_alter_eq. intros (c0 & Hc0 & ->)%fmap_Some. intros Hf. apply (H3 j c0 Hc0).
    revert Hf. unfold add_frame, fresh_hold. by destruct (c_open c0). }
  destruct f as [e|]; [|done]. destruct (d_up (k_dialer s)) as [[i []]|]; [by apply Hadd|done..].
Qed.

Lemma acc_publish_published (a : ackAcceptor) e r out o :
  o ∈ a_published (acc_publish own reserved sp stream e r out a) → o ∈ a_published a ∨ o = Offset e.
Proof.
  unfold acc_publish, acc_complete, acc_accept. repeat case_match; cbn; rewrite ?elem_of_app, ?list_elem_of_singleton; auto.
Qed.

Lemma lost_queue o (s : sys) i out : acks_ok s → lost o s → lost o (on_conn i (conn_queue own reserved sp stream out) s).
Proof.
  intros I HL. pose proof HL as (H1 & H2 & H3). unfold on_conn. destruct (k_conns s !! i) as [c|] eqn:Hc; [|done]. unfold conn_queue.
  destruct (c_hold c) as [[[[e id] r] fresh]|] eqn:Hh; [|by apply (lost_conn _ _ _ _ c)].
  destruct (q_push _ _ _ _) as [q|]; [|by apply (lost_conn _ _ _ _ c)].
  apply (lost_conn _ _ _ _ c); try done; [| |by intros (? & ? & ? & ? & _)]; destruct fresh; try done.
  - destruct (co_hold _ _ _ _ _ (ok_conns _ I i c Hc) _ _ _ _ Hh) as (He & x & Hx & Hoff).
    destruct (acc_publish_spec (d_hist (k_dialer s)) (d_res (k_dialer s)) (k_acceptor s) e r out x (ok_memory _ I) Hx Hoff He) as (_ & _ & -> & _). done.
  - intros [?| ->]%acc_publish_published; [done|]. apply (H3 i c Hc). by exists e, id, r.
Qed.

Lemma lost_read o (s : sys) i : acks_ok s → lost o s → lost o (on_conn i (conn_read ev_id usable sp stream) s).
Proof.
  intros I HL. pose proof HL as (H1 & H2 & H3). unfold on_conn. destruct (k_conns s !! i) as [c|] eqn:Hc; [|done]. unfold conn_read.
  destruct (c_hold c) eqn:Hh; [by apply (lost_conn _ _ _ _ c)|]. destruct (c_fwd c) as [|e es] eqn:Hf; [by apply (lost_conn _ _ _ _ c)|].
  destruct (acc_begin ev_id usable sp stream e (k_acceptor s)) as [hold a'] eqn:Eb. pose proof (ok_conns _ I i c Hc) as [O1 O2 _ _ _].
  rewrite Hf, fmap_cons in O1, O2. apply StronglySorted_cons in O1 as [S1 _]. rewrite Forall_forall in S1.
  apply (acc_begin_spec (good_of s)) in Eb as (id & r & fresh & -> & Ea & M & Hh' & Hl & Hx & Hfr); [|by left|apply I|].
  2: { intros x Hx. destruct (O2 e x ltac:(by left) Hx) as [[->|Hin]%elem_of_cons|?]; [lia| |done]. specialize (S1 x Hin). lia. }
  apply (lost_conn _ _ _ _ c); [done..|lia|by rewrite Ea|]. intros (e0 & id0 & r0 & [= <- _ _ ->] & <-). specialize (Hfr eq_refl). lia.
Qed.

Lemma lost_do o s x : acks_ok s → lost o s → lost o (do_ s x).
Proof.
  intros I HL. pose proof HL as (H1 & H2 & H3). destruct x as [e acked|max|pass w| |i acked qmax|slots|o' code|code|i|i out|r|i|i]; cbn [acks_do].
  - by destruct (_ <? _).
  - by destruct (_ && _).
  - by apply lost_send.
  - done.
  - unfold acks_connect. destruct (d_up _); [done|]. destruct (k_conns s !! i) eqn:Hi; [done|]. split_and!; [done..|]. cbn [k_conns].
    destruct acked; [|done]. intros j c [[<- <-]|[_ ?]]%lookup_insert_Some; [by intros (? & ? & ? & ? & _)|by eapply H3].
  - unfold acks_puback. destruct (d_up _) as [[i []]|]; [|done..]. destruct (k_conns s !! i) as [[fwd hold q [|p ps] op]|] eqn:Hc; [done| |done].
    split_and!; [done..|]. cbn [k_conns]. intros j c [[<- <-]|[_ ?]]%lookup_insert_Some; [|by eapply H3]. by apply (H3 i _ Hc).
  - done.
  - done.
  - by apply lost_read.
  - by apply lost_queue.
  - split_and!; cbn [k_acceptor k_conns]; [| |done]; unfold acc_done; destruct (a_heap (k_acceptor s) !! r) as [x|] eqn:Hx; try done;
      case_bool_decide; try done; unfold acc_complete; [|by destruct (complete _ _ _ _ _ _)].
    destruct (complete sp stream r "" _ _) as [s1 h1] eqn:Ec. cbn [a_seen].
    destruct (complete_memory _ _ (λ _, True) _ _ _ _ _ _ (memory_ok_mono _ _ _ _ _ _ (λ _ _, Logic.I) (ok_memory _ I)) Ec ltac:(done)) as (_ & -> & _). done.
  - unfold on_conn. destruct (k_conns s !! i) as [c|] eqn:Hc; [|done]. apply (lost_conn _ _ _ _ c); try done.
    unfold conn_flush. by destruct (q_ready _ _).
  - unfold on_conn. destruct (k_conns s !! i) as [c|] eqn:Hc; [|done]. apply (lost_conn _ _ _ _ c); try done.
    destruct (conn_cut_cases c) as [-> | ->]; [done|]. by intros (? & ? & ? & ? & _).
Qed.

Lemma lost_run o xs s : acks_ok s → lost o s → lost o (run_ xs s).
Proof. revert s. induction xs as [|x xs IH]; intros s I HL; [done|]. apply IH; [by apply acks_do_ok|by apply lost_do]. Qed.

Lemma hist_do s x : d_hist (k_dialer s) ⊆ d_hist (k_dialer (do_ s x)).
Proof.
  destruct x as [e acked|max|pass w| |i acked qmax|slots|o' code|code|i|i out|r|i|i]; cbn [acks_do]; try done.
  - destruct (_ <? _); [|done]. cbn. unfold d_append. destruct (Append _ _). cbn. set_solver.
  - destruct (_ && _); [|done]. cbn. unfold d_fetch. by repeat case_match.
  - unfold acks_send, d_send_one, d_skip, d_sent, set_acks, next_entry, d_close. by repeat case_match; simplify_eq.
  - unfold acks_connect, d_connect. by repeat case_match.
  - unfold acks_puback, d_puback, set_acks, d_close. by repeat case_match.
  - unfold on_dialer, d_give_up. cbn. by destruct (String.eqb code "").
  - unfold on_dialer, d_fail, set_acks. cbn. by repeat case_match.
  - unfold on_conn. destruct (k_conns s !! i); [|done]. by case_match.
  - unfold on_conn. destruct (k_conns s !! i); [|done]. by case_match.
  - unfold on_conn. by destruct (k_conns s !! i).
  - unfold on_conn. by destruct (k_conns s !! i).
Qed.

Lemma hist_run xs s : d_hist (k_dialer s) ⊆ d_hist (k_dialer (run_ xs s)).
Proof. revert s. induction xs as [|x xs IH]; intros s; [done|]. etransitivity; [apply hist_do|apply IH]. Qed.

(** An event whose frame waits for room in the puback queue when its link
    ends is lost for good: the memory counts the frame as received, so
    whatever happens later, and however often it is sent again, the acceptor
    never publishes it and its ticket is never confirmed. *)
Theorem full_queue_loses_event log h ob ms me xs i c e id r ys :
  holds log h → (∀ e, e ∈ h → ticket e = None) → 1 ≤ ms → 0 ≤ me →
  let s := run_ xs (acks_start log h ob ms me) in
  k_conns s !! i = Some c → c_hold c = Some (e, id, r, true) → own e = false →
  q_push (Offset e) id r (c_ackq c) = None →
  let s' := run_ ys (do_ s (KCut i)) in
  (Offset e ∉ a_published (k_acceptor s')) ∧ answer (Offset e) (k_dialer s') ≠ Some "".
Proof.
  intros Hl Ht Hms Hme s Hc Hh Hown Hq s'. assert (I : acks_ok s) by (by apply acks_run_ok, acks_start_ok).
  assert (Hf : fresh_hold c (Offset e)) by (by exists e, id, r).
  destruct (po_hold _ _ _ _ (ok_publish _ I) i c _ Hc Hf) as [Hno Hle].
  assert (HL : lost (Offset e) (do_ s (KCut i))).
  { cbn [acks_do]. unfold on_conn. rewrite Hc. split_and!; [done..|]. cbn [k_conns].
    intros j c0 [[<- <-]|[Hne Hj]]%lookup_insert_Some Hf0.
    - unfold conn_cut in Hf0. rewrite Hh, Hq in Hf0. by destruct Hf0 as (? & ? & ? & ? & _).
    - apply Hne. by eapply (po_apart _ _ _ _ (ok_publish _ I)). }
  assert (I' : acks_ok s') by (by apply acks_run_ok, acks_do_ok).
  assert (HL' : lost (Offset e) s') by (by apply lost_run; [apply acks_do_ok|]). destruct HL' as (_ & Hnp & _).
  split; [done|]. intros Ha%(ok_answer _ I').
  destruct (po_accepted _ _ _ _ (ok_publish _ I') _ Ha) as [?|(e' & He' & Eo & Hown')]; [done|].
  assert (He : e ∈ d_hist (k_dialer s')).
  { apply hist_run, hist_do. by eapply (co_hold _ _ _ _ _ (ok_conns _ I i c Hc)). }
  rewrite (hist_unique _ _ e' e (ok_dialer _ I') He' He Eo) in Hown'. congruence.
Qed.

End Sound.

(** ** Runs of acknowledged links

    Concrete runs of the system of AckLink: the theorems of AckDelivery at
    work, and what happens when the acceptor's memory evicts a stream. *)

(** Events are their ids; the hub's own events carry its origin. *)
Definition x_own (e : LogEntry string) : bool := String.eqb (Origin e) "hub".
Definition x_peer : seenPeer := dedupePeer (λ kind v, (kind ++ ":" ++ v)%string) "crm" "secret".

Abbreviation x_do := (acks_do (λ id : string, id) (λ _, true) x_own (λ _, false) x_peer "stm_d").
Abbreviation x_run := (acks_run (λ id : string, id) (λ _, true) x_own (λ _, false) x_peer "stm_d").

Definition x_log : ringLog string := NewRingLog "stm_d" "" 8.
Definition x_start : acks := acks_start x_log [] false 1024 1024.
Definition x_event (id : string) : LogEntry string := mkEntry 0 id "crm" false 0 None.

Lemma x_log_holds : holds x_log [].
Proof. by apply NewRingLog_ok. Qed.

Lemma x_no_ticket (e : LogEntry string) : e ∈ [] → ticket e = None.
Proof. by intros ?%elem_of_nil. Qed.

(** The first link ends before the answer is read; the frame is sent again,
    answered from memory and confirmed. *)
Definition resent : list (ack_action (Ev := string)) :=
  [KAppend (x_event "a") true; KConnect 0 true 8; KFetch 256; KSend true Written; KRead 0; KQueue 0 HandlersDone; KFlush 0;
   KClose; KConnect 1 true 8; KFetch 256; KSend true Written; KRead 1; KQueue 1 HandlersDone; KFlush 1; KPuback 8].


(** A queue of one: the first frame's handler still runs when the second frame
    is read. *)
Definition crowded : list (ack_action (Ev := string)) :=
  [KAppend (x_event "a") true; KAppend (x_event "b") true; KConnect 0 true 1; KFetch 256; KSend true Written; KSend true Written;
   KRead 0; KQueue 0 HandlersRun; KRead 0].

(** The first handler returns, the link comes back, the frame is sent again. *)
Definition recovered : list (ack_action (Ev := string)) :=
  [KDone 0; KClose; KConnect 1 true 8; KFetch 256; KSend true Written; KSend true Written; KRead 1; KQueue 1 HandlersDone;
   KRead 1; KQueue 1 HandlersDone; KFlush 1; KPuback 8; KFlush 1; KPuback 8].

Definition held_conn : ackConn (Ev := string) :=
  Eval vm_compute in default (mkConn [] None (newAckQueue 1) [] true) (k_conns (x_run crowded x_start) !! 0%nat).
Definition held_entry : LogEntry string := mkEntry 2 "b" "crm" false 0 (Some 2%nat).

Lemma full_queue_loses_event_witness :
  let s := x_run recovered (x_do (x_run crowded x_start) (KCut 0)) in
  answer 1 (k_dialer s) = Some "" ∧ Offset held_entry = 2 ∧ (Offset held_entry ∉ a_published (k_acceptor s)) ∧
  answer (Offset held_entry) (k_dialer s) ≠ Some "".
Proof.
  split; [vm_compute; reflexivity|]. split; [reflexivity|].
  apply (full_queue_loses_event (λ id : string, id) (λ _, true) x_own (λ _, false) x_peer "stm_d"
           x_log [] false 1024 1024 crowded 0 held_conn held_entry "b" 1 recovered x_log_holds x_no_ticket);
    [lia|lia|vm_compute; reflexivity..].
Defined.

(** ** An evicted stream *)

(** A frame of another stream of the same peer. *)
Definition acc_other (stream : string) (a : ackAcceptor) : ackAcceptor :=
  let '(_, _, s, h) := begin x_peer stream 1 "" (a_seen a) (a_heap a) in
  mkAccept s h (a_running a) (a_published a) (a_accepted a).

(** The peer opens as many other streams as one principal may have. *)
Definition other_streams : list string := formatOffset <$> seqZ 1 ackSeenStreamsPerPrincipal.

Definition evicting (s : acks (Ev := string) (L := ringLog string)) : acks :=
  mkAcks (k_dialer s) (foldr acc_other (k_acceptor s) other_streams) (k_conns s).

(** Two frames; the first is vetoed, and its answer is lost with the link. *)
Definition vetoed : list (ack_action (Ev := string)) :=
  [KAppend (x_event "a") true; KAppend (x_event "b") true; KConnect 0 true 8; KFetch 256; KSend true Written; KSend true Written;
   KRead 0; KQueue 0 Vetoed].

Definition redelivered : list (ack_action (Ev := string)) :=
  [KRead 0; KQueue 0 HandlersDone; KClose; KConnect 1 true 8; KFetch 256; KSend true Written; KRead 1; KQueue 1 HandlersDone;
   KFlush 1; KPuback 8].

(** With the real bounds, a stream evicted between two frames of one link
    makes a false acknowledgement: the memory starts over at the second frame
    with an empty floor, so the first, vetoed frame is answered ok when it is
    sent again, and the publish is confirmed although no handler accepted the
    event.  Without the eviction the ticket gets the rejection. *)
Theorem evicted_stream_false_ok :
  let s := x_run redelivered (evicting (x_run vetoed x_start)) in
  let s' := x_run redelivered (x_run vetoed x_start) in
  answer 1 (k_dialer s) = Some "" ∧ a_accepted (k_acceptor s) = [2] ∧
  answer 1 (k_dialer s') = Some AckRejected ∧ a_accepted (k_acceptor s') = [2].
Proof. vm_compute. auto. Qed.
