(* ===== verification/Domain.v ===== *)
(** * Domain entities, services and state machines (go/runtime/domain)

    [Repository] and [EventPublisher] are the Go interfaces, as records of
    methods on one world [W]: a subscriber, a repository and an audit log may
    share state, as they do when the publisher is a bus.  [Service] wraps a
    repository with validation, veto-able pre-events, auditing and post-events;
    [StateMachine] checks transitions against its rules.  A context is reduced
    to the two values this package stores in it. *)

From S2P Require Import Prelude Topics.

Local Open Scope Z_scope.

(** The sentinel errors and the shapes errors take on the way up. *)
Inductive error :=
| ErrNotFound
| ErrConflict
| ErrValidation (msg : string)
| TransitionError (from to : string) (allowed : option (list string))
| SubscriberError (msg : string)
| Wrapped (what : string) (e : error).

(** [errors.Is(err, ErrInvalidTransition)], through [TransitionError.Is]. *)
Fixpoint is_invalid_transition (e : error) : bool :=
  match e with
  | TransitionError _ _ _ => true
  | Wrapped _ e => is_invalid_transition e
  | _ => false
  end.

(** ** Contexts *)

Record Ctx := mkCtx { ctx_op : option string; ctx_subop : option string }.
Definition Background : Ctx := mkCtx None None.

Definition WithOp (ctx : Ctx) (op : string) : Ctx := mkCtx (Some op) (ctx_subop ctx).
Definition OpFromCtx (ctx : Ctx) : string := default "" (ctx_op ctx).
Definition WithSubOp (ctx : Ctx) (name : string) : Ctx := mkCtx (ctx_op ctx) (Some name).
Definition SubOpFromCtx (ctx : Ctx) : string := default "" (ctx_subop ctx).

Definition OpCreate : string := "create".
Definition OpUpdate : string := "update".
Definition OpDelete : string := "delete".

(** ** The interfaces *)

Record Query := mkQuery { Limit : Z; Offset : Z; Sort : string; Search : string }.

Record Repository (W T : Type) := {
  repo_Create : T → st W error T;
  repo_Get : string → st W error T;
  repo_List : Query → st W error (list T);
  repo_Update : T → st W error T;
  repo_Delete : string → st W error unit;
}.
Arguments repo_Create {_ _}. Arguments repo_Get {_ _}. Arguments repo_List {_ _}.
Arguments repo_Update {_ _}. Arguments repo_Delete {_ _}.

(** The values published as [payload any]. *)
Inductive payload (T : Type) :=
| PreEntityPayload (Op Phase EntityID : string) (Entity : option T)
| IDPayload (id : string)
| TransitionPayload (From To : string) (Force : bool)
| OtherPayload.
Arguments PreEntityPayload {_}. Arguments IDPayload {_}.
Arguments TransitionPayload {_}. Arguments OtherPayload {_}.

(** [Publish(ctx, topic, source, payload)]. *)
Definition EventPublisher (W T : Type) : Type :=
  Ctx → string → string → payload T → st W error unit.

Record AuditEntry := mkAudit { aEntityID : string; aTimestamp : Z; aBy : string; aAction : string; aNote : string }.

Record Topics := mkTopics {
  PreValidated : string; PrePersisted : string; Created : string; Updated : string; Deleted : string;
}.

Definition DefaultTopics : Topics :=
  mkTopics "kit.runtime.entity.pre_validated" "kit.runtime.entity.pre_persisted"
    "kit.runtime.entity.created" "kit.runtime.entity.updated" "kit.runtime.entity.deleted".

Definition crudActions : list string :=
  ["pre_validated"; "pre_persisted"; "created"; "updated"; "deleted"].

(** The topics of [WithTopicPrefix]; [None] is the panic at construction. *)
Definition WithTopicPrefix (prefix : string) : option Topics :=
  match PrefixTopics prefix crudActions with
  | (_, Some _) => None
  | (tm, None) =>
      let at_ a := default "" (tm !! a) in
      Some (mkTopics (at_ "pre_validated") (at_ "pre_persisted") (at_ "created") (at_ "updated") (at_ "deleted"))
  end.

Definition or_default (t d : string) : string := if String.eqb t "" then d else t.

Definition WithTopics (t : Topics) : Topics :=
  mkTopics (or_default (PreValidated t) (PreValidated DefaultTopics))
    (or_default (PrePersisted t) (PrePersisted DefaultTopics))
    (or_default (Created t) (Created DefaultTopics))
    (or_default (Updated t) (Updated DefaultTopics))
    (or_default (Deleted t) (Deleted DefaultTopics)).

(** ** Service *)

Record Service (W T : Type) := mkService {
  repo : Repository W T;
  audit : option (AuditEntry → st W error unit);
  pub : option (EventPublisher W T);
  validator : option (Ctx → T → st W error unit);
  topics : Topics;
}.
Arguments mkService {_ _}. Arguments repo {_ _}. Arguments audit {_ _}.
Arguments pub {_ _}. Arguments validator {_ _}. Arguments topics {_ _}.

Section Service.
Context {W T : Type} (GetID : T → string) (s : Service W T).

(** A call whose error the code discards. *)
Definition ignore_err {A} (m : st W error A) : st W error unit := λ w,
  let '(_, w') := m w in (Ok tt, w').

Definition publishPre (phase what : string) (topic : string) (ctx : Ctx) (op id : string)
    (entity : option T) : st W error unit :=
  match pub s with
  | None => mret tt
  | Some publish =>
      wrap_err (Wrapped what)
        (publish ctx topic "domain.service" (PreEntityPayload op phase id entity))
  end.

Definition publishPreValidated :=
  publishPre "pre_validated" "pre-validated veto" (PreValidated (topics s)).
Definition publishPrePersisted :=
  publishPre "pre_persisted" "pre-persisted veto" (PrePersisted (topics s)).

Definition auditAction (now : Z) (entityID action : string) : st W error unit :=
  match audit s with
  | None => mret tt
  | Some addEntry => ignore_err (addEntry (mkAudit entityID now "" action ""))
  end.

Definition publishEvent (ctx : Ctx) (topic entityID : string) : st W error unit :=
  match pub s with
  | None => mret tt
  | Some publish => ignore_err (publish ctx topic "domain.service" (IDPayload entityID))
  end.

Definition validate (ctx : Ctx) (entity : T) : st W error unit :=
  match validator s with
  | None => mret tt
  | Some v => v ctx entity
  end.

(** [repo.Create] and [repo.Update] receive the caller's pointer and may fill in
    the entity; they return it as they left it. *)
Definition Create (now : Z) (ctx : Ctx) (entity : T) : st W error T :=
  let ctx := WithOp ctx OpCreate in
  let id := GetID entity in
  publishPreValidated ctx OpCreate id (Some entity);;
  validate ctx entity;;
  publishPrePersisted ctx OpCreate id (Some entity);;
  entity ← repo_Create (repo s) entity;
  let id := GetID entity in
  auditAction now id "created";;
  publishEvent ctx (Created (topics s)) id;;
  mret entity.

Definition Get (id : string) : st W error T := repo_Get (repo s) id.
Definition List (q : Query) : st W error (list T) := repo_List (repo s) q.

Definition Update (now : Z) (ctx : Ctx) (entity : T) : st W error T :=
  let ctx := WithOp ctx OpUpdate in
  let id := GetID entity in
  publishPreValidated ctx OpUpdate id (Some entity);;
  validate ctx entity;;
  publishPrePersisted ctx OpUpdate id (Some entity);;
  entity ← repo_Update (repo s) entity;
  let id := GetID entity in
  auditAction now id "updated";;
  publishEvent ctx (Updated (topics s)) id;;
  mret entity.

Definition Delete (now : Z) (ctx : Ctx) (id : string) : st W error unit :=
  let ctx := WithOp ctx OpDelete in
  publishPreValidated ctx OpDelete id None;;
  publishPrePersisted ctx OpDelete id None;;
  repo_Delete (repo s) id;;
  auditAction now id "deleted";;
  publishEvent ctx (Deleted (topics s)) id.

End Service.

(** ** State machines *)

Record StateMachineTopics := mkSMTopics { PreTransitioned : string; PostTransitioned : string }.

Definition DefaultStateMachineTopics : StateMachineTopics :=
  mkSMTopics "kit.runtime.state.pre_transitioned" "kit.runtime.state.post_transitioned".

Definition stateMachineActions : list string := ["pre_transitioned"; "post_transitioned"].

Definition WithSMTopicPrefix (prefix : string) : option StateMachineTopics :=
  match PrefixTopics prefix stateMachineActions with
  | (_, Some _) => None
  | (tm, None) =>
      Some (mkSMTopics (default "" (tm !! "pre_transitioned")) (default "" (tm !! "post_transitioned")))
  end.

Definition WithSMTopics (t : StateMachineTopics) : StateMachineTopics :=
  mkSMTopics (or_default (PreTransitioned t) (PreTransitioned DefaultStateMachineTopics))
    (or_default (PostTransitioned t) (PostTransitioned DefaultStateMachineTopics)).

Record StateMachine (W T : Type) := mkSM {
  rules : gmap string (list string);
  sm_pub : option (EventPublisher W T);
  sm_topics : StateMachineTopics;
}.
Arguments mkSM {_ _}. Arguments rules {_ _}. Arguments sm_pub {_ _}. Arguments sm_topics {_ _}.

Section StateMachine.
Context {W T : Type} (sm : StateMachine W T).

Definition AllowedFrom (state : string) : option (list string) := rules sm !! state.

(** The post-transition publish runs in a goroutine of its own: [Transition]
    returns it instead of running it. *)
Definition Transition (ctx : Ctx) (from to : string) (force : bool)
  : st W error (option (W → W)) :=
  (if force then mret tt
   else match rules sm !! from with
        | None => throw (TransitionError from to None)
        | Some allowed =>
            if existsb (String.eqb to) allowed then mret tt
            else throw (TransitionError from to (Some allowed))
        end);;
  let p := TransitionPayload from to force in
  match sm_pub sm with
  | None => mret None
  | Some publish =>
      wrap_err (Wrapped "pre-transition veto")
        (publish ctx (PreTransitioned (sm_topics sm)) "domain.statemachine" p);;
      mret (Some (λ w, (publish ctx (PostTransitioned (sm_topics sm)) "domain.statemachine" p w).2))
  end.

End StateMachine.

(** ** The protocol of a service call

    The world is observed through the contents of the repository ([view]) and
    the calls the service makes on its collaborators ([trace]).  [ServiceLaws]
    is what the interfaces document: the repository's errors leave it as it was,
    and the other collaborators do not write to it. *)

Inductive call (T : Type) :=
| CallPublish (topic : string) (p : payload T)
| CallValidate (entity : T)
| CallCreate (entity : T)
| CallUpdate (entity : T)
| CallDelete (id : string)
| CallAudit (id action : string).
Arguments CallPublish {_}. Arguments CallValidate {_}. Arguments CallCreate {_}.
Arguments CallUpdate {_}. Arguments CallDelete {_}. Arguments CallAudit {_}.

Section Protocol.
Context {W T : Type} (GetID : T → string).
Context (view : W → gmap string T) (trace : W → list (call T)).

(** A collaborator that makes one call and leaves the repository alone. *)
Definition leaves_repo {A} (c : call T) (m : st W error A) : Prop :=
  ∀ w, view (m w).2 = view w ∧ trace (m w).2 = trace w ++ [c].

Record ServiceLaws (s : Service W T) : Prop := {
  law_pub publish ctx topic src p : pub s = Some publish → leaves_repo (CallPublish topic p) (publish ctx topic src p);
  law_validate v ctx e : validator s = Some v → leaves_repo (CallValidate e) (v ctx e);
  law_audit a en : audit s = Some a → leaves_repo (CallAudit (aEntityID en) (aAction en)) (a en);
  law_create e w : let '(r, w') := repo_Create (repo s) e w in
    trace w' = trace w ++ [CallCreate e] ∧
    match r with
    | Ok e' => view w !! GetID e' = None ∧ view w' = <[GetID e' := e']> (view w)
    | Err _ => view w' = view w
    end;
  law_update e w : let '(r, w') := repo_Update (repo s) e w in
    trace w' = trace w ++ [CallUpdate e] ∧
    match r with
    | Ok e' => is_Some (view w !! GetID e') ∧ view w' = <[GetID e' := e']> (view w)
    | Err _ => view w' = view w
    end;
  law_delete id w : let '(r, w') := repo_Delete (repo s) id w in
    trace w' = trace w ++ [CallDelete id] ∧
    match r with
    | Ok _ => is_Some (view w !! id) ∧ view w' = delete id (view w)
    | Err _ => view w' = view w
    end;
}.

(** What the optional collaborators contribute to the protocol. *)
Definition if_some {A} (o : option A) (c : call T) : list (call T) :=
  match o with Some _ => [c] | None => [] end.

Section laws.
Context (s : Service W T) (L : ServiceLaws s).

Definition pre_calls (op id : string) (entity : option T) : list (call T) :=
  if_some (pub s) (CallPublish (PreValidated (topics s)) (PreEntityPayload op "pre_validated" id entity)) ++
  match entity with Some e => if_some (validator s) (CallValidate e) | None => [] end ++
  if_some (pub s) (CallPublish (PrePersisted (topics s)) (PreEntityPayload op "pre_persisted" id entity)).

Definition post_calls (topic id action : string) : list (call T) :=
  if_some (audit s) (CallAudit id action) ++ if_some (pub s) (CallPublish topic (IDPayload id)).

(** A gate makes the calls [cs] when it passes; when it refuses, it has made
    some of them and at least one. *)
Definition gate (cs : list (call T)) (m : st W error unit) : Prop :=
  ∀ w, let '(r, w') := m w in
    view w' = view w ∧
    match r with
    | Ok _ => trace w' = trace w ++ cs
    | Err _ => ∃ g c, g ++ [c] `prefix_of` cs ∧ trace w' = trace w ++ g ++ [c]
    end.

Lemma gate_ret : gate [] (mret tt).
Proof. intros w. simpl. by rewrite app_nil_r. Qed.

Lemma gate_bind cs1 cs2 m1 m2 : gate cs1 m1 → gate cs2 m2 → gate (cs1 ++ cs2) (m1;; m2).
Proof.
  intros H1 H2 w. unfold mbind, st_bind. specialize (H1 w). destruct (m1 w) as [[[]|e] w1].
  - destruct H1 as [Hv1 Ht1]. specialize (H2 w1). destruct (m2 w1) as [[[]|e] w2]; destruct H2 as [Hv2 Ht2].
    + split; [congruence|]. rewrite Ht2, Ht1. by rewrite (assoc_L (++)).
    + split; [congruence|]. destruct Ht2 as (g&c&Hp&Ht2). exists (cs1 ++ g), c. split.
      * rewrite <- (assoc_L (++)). auto with kit.
      * rewrite Ht2, Ht1. by rewrite !(assoc_L (++)).
  - destruct H1 as [Hv (g&c&Hp&Ht)]. split; [done|]. exists g, c. split; [|done]. auto with kit.
Qed.

Lemma gate_one (c : call T) m : leaves_repo c m → gate [c] m.
Proof.
  intros H w. specialize (H w). destruct (m w) as [[[]|e] w']; simpl in H; destruct H as [Hv Ht]; (split; [done|]).
  - done.
  - by exists [], c.
Qed.

Lemma gate_wrap cs f (m : st W error unit) : gate cs m → gate cs (wrap_err f m).
Proof. intros H w. specialize (H w). unfold wrap_err. by destruct (m w) as [[[]|e] w']. Qed.

Lemma publishPre_gate phase what topic ctx op id e :
  gate (if_some (pub s) (CallPublish topic (PreEntityPayload op phase id e))) (publishPre s phase what topic ctx op id e).
Proof.
  unfold publishPre. destruct (pub s) as [publish|] eqn:E; [|apply gate_ret].
  apply gate_wrap, gate_one. intros w. by apply (law_pub s L).
Qed.

Lemma validate_gate ctx e : gate (if_some (validator s) (CallValidate e)) (validate s ctx e).
Proof.
  unfold validate. destruct (validator s) as [v|] eqn:E; [|apply gate_ret].
  apply gate_one. by apply (law_validate s L).
Qed.

(** The notifications after a write cannot fail. *)
Lemma post_ok now ctx topic id action w :
  ∃ w', (auditAction s now id action;; publishEvent s ctx topic id) w = (Ok tt, w') ∧
        view w' = view w ∧ trace w' = trace w ++ post_calls topic id action.
Proof.
  unfold auditAction, publishEvent, post_calls, ignore_err, mbind, st_bind.
  destruct (audit s) as [a|] eqn:Ea; simpl.
  - destruct (law_audit s L a (mkAudit id now "" action "") Ea w) as [Hv1 Ht1].
    destruct (a _ w) as [r1 w1]; simpl in *. destruct (pub s) as [publish|] eqn:Ep; simpl.
    + destruct (law_pub s L publish ctx topic "domain.service" (IDPayload id) Ep w1) as [Hv2 Ht2].
      destruct (publish _ _ _ _ w1) as [r2 w2]; simpl in *. exists w2. repeat split; [congruence|].
      by rewrite Ht2, Ht1, <- (assoc_L (++)).
    + by exists w1.
  - destruct (pub s) as [publish|] eqn:Ep; simpl.
    + destruct (law_pub s L publish ctx topic "domain.service" (IDPayload id) Ep w) as [Hv2 Ht2].
      destruct (publish _ _ _ _ w) as [r2 w2]; simpl in *. by exists w2.
    + exists w. by rewrite app_nil_r.
Qed.

(** The outcome of a call with gate and write calls [cs]: on success the
    repository moved as [Q] says and the notifications [P] followed; on failure
    the repository is as it was and the calls stopped inside [cs]. *)
Definition proto {A} (cs : list (call T)) (Q : A → gmap string T → gmap string T → Prop)
    (P : A → list (call T)) (m : st W error A) : Prop :=
  ∀ w, let '(r, w') := m w in
    match r with
    | Ok a => Q a (view w) (view w') ∧ trace w' = trace w ++ cs ++ P a
    | Err _ => view w' = view w ∧ ∃ g c, g ++ [c] `prefix_of` cs ∧ trace w' = trace w ++ g ++ [c]
    end.

Lemma proto_gate {A} cs1 cs2 Q (P : A → list (call T)) g m :
  gate cs1 g → proto cs2 Q P m → proto (cs1 ++ cs2) Q P (g;; m).
Proof.
  intros Hg Hm w. unfold mbind, st_bind. specialize (Hg w). destruct (g w) as [[[]|e] w1].
  - destruct Hg as [Hv Ht]. specialize (Hm w1). destruct (m w1) as [[a|e] w2].
    + rewrite <- Hv. destruct Hm as [HQ Ht2]. split; [done|]. rewrite Ht2, Ht. by rewrite !(assoc_L (++)).
    + destruct Hm as [Hv2 (g'&c&Hp&Ht2)]. split; [congruence|]. exists (cs1 ++ g'), c. split.
      * rewrite <- (assoc_L (++)). auto with kit.
      * rewrite Ht2, Ht. by rewrite !(assoc_L (++)).
  - destruct Hg as [Hv (g'&c&Hp&Ht)]. split; [done|]. exists g', c. split; [auto with kit|done].
Qed.

(** The write and the notifications after it. *)
Lemma proto_write {A B} c (f : A → B) Q (P : B → list (call T)) (m : st W error A) (k : A → st W error B) :
  (∀ w, let '(r, w') := m w in trace w' = trace w ++ [c] ∧
        match r with Ok a => Q (f a) (view w) (view w') | Err _ => view w' = view w end) →
  (∀ a w, ∃ w', k a w = (Ok (f a), w') ∧ view w' = view w ∧ trace w' = trace w ++ P (f a)) →
  proto [c] Q P (m ≫= k).
Proof.
  intros Hm Hk w. unfold mbind, st_bind. specialize (Hm w). destruct (m w) as [[a|e] w1]; destruct Hm as [Ht Hv].
  - destruct (Hk a w1) as (w2&E&Hv2&Ht2). rewrite E, Hv2. split; [done|].
    by rewrite Ht2, Ht, <- (assoc_L (++)).
  - split; [done|]. by exists [], c.
Qed.

Lemma post_ret now ctx topic id action (e : T) w :
  ∃ w', (auditAction s now id action;; publishEvent s ctx topic id;; mret e) w = (Ok e, w') ∧
        view w' = view w ∧ trace w' = trace w ++ post_calls topic id action.
Proof.
  destruct (post_ok now ctx topic id action w) as (w'&E&Hv&Ht). exists w'. split; [|done].
  unfold mbind, st_bind in *. destruct (auditAction s now id action w) as [[[]|?] w1]; [|done].
  by rewrite E.
Qed.

(** ** Requests *)

Inductive request := RCreate (e : T) | RUpdate (e : T) | RDelete (id : string).

Definition serve (now : Z) (ctx : Ctx) (req : request) : st W error (option T) :=
  match req with
  | RCreate e => e' ← Create GetID s now ctx e; mret (Some e')
  | RUpdate e => e' ← Update GetID s now ctx e; mret (Some e')
  | RDelete id => Delete s now ctx id;; mret None
  end.

Definition gates (req : request) : list (call T) :=
  match req with
  | RCreate e => pre_calls OpCreate (GetID e) (Some e) ++ [CallCreate e]
  | RUpdate e => pre_calls OpUpdate (GetID e) (Some e) ++ [CallUpdate e]
  | RDelete id => pre_calls OpDelete id None ++ [CallDelete id]
  end.

Definition notifications (req : request) (e' : option T) : list (call T) :=
  match req, e' with
  | RCreate _, Some e' => post_calls (Created (topics s)) (GetID e') "created"
  | RUpdate _, Some e' => post_calls (Updated (topics s)) (GetID e') "updated"
  | RDelete id, None => post_calls (Deleted (topics s)) id "deleted"
  | _, _ => []
  end.

(** How a successful request moves the repository from [m] to [m']. *)
Definition committed (req : request) (e' : option T) (m m' : gmap string T) : Prop :=
  match req, e' with
  | RCreate _, Some e' => m !! GetID e' = None ∧ m' = <[GetID e' := e']> m
  | RUpdate _, Some e' => is_Some (m !! GetID e') ∧ m' = <[GetID e' := e']> m
  | RDelete id, None => is_Some (m !! id) ∧ m' = delete id m
  | _, _ => False
  end.

Lemma proto_map {A B} cs (f : A → B) Q (P : B → list (call T)) (m : st W error A) :
  proto cs (λ a, Q (f a)) (λ a, P (f a)) m → proto cs Q P (a ← m; mret (f a)).
Proof. intros H w. specialize (H w). unfold mbind, st_bind. by destruct (m w) as [[a|e] w']. Qed.

Lemma pre_proto {A} op id e ctx cs Q (P : A → list (call T)) m :
  proto cs Q P m →
  proto (pre_calls op id (Some e) ++ cs) Q P
    (publishPreValidated s ctx op id (Some e);; validate s ctx e;; publishPrePersisted s ctx op id (Some e);; m).
Proof.
  intros Hm. unfold pre_calls. rewrite <- !(assoc_L (++)).
  do 3 (apply proto_gate; [apply publishPre_gate || apply validate_gate|]). done.
Qed.

Lemma serve_proto now ctx req : proto (gates req) (committed req) (notifications req) (serve now ctx req).
Proof.
  destruct req as [e|e|id]; simpl.
  - apply (proto_map _ Some), pre_proto. apply (proto_write _ id); [|intros; apply post_ret].
    intros w. apply (law_create s L).
  - apply (proto_map _ Some), pre_proto. apply (proto_write _ id); [|intros; apply post_ret].
    intros w. apply (law_update s L).
  - apply (proto_map _ (λ _ : unit, None)). unfold pre_calls. simpl. rewrite <- (assoc_L (++)).
    do 2 (apply proto_gate; [apply publishPre_gate|]).
    apply (proto_write _ (λ _ : unit, tt)); [intros w; apply (law_delete s L)|].
    intros [] w. apply post_ok.
Qed.

(** C28. The order and the veto of a service call: the pre-validation event, the
    validator, the pre-persist event and the write are made in this order, each
    only after the ones before it succeeded; a refusal anywhere leaves the
    repository as it was and nothing after it happens, no notification included;
    a successful write is committed exactly and followed by the audit entry and
    the post-event, whose own errors change nothing. *)
Theorem service_protocol now ctx req w :
  let '(r, w') := serve now ctx req w in
  match r with
  | Ok e' => committed req e' (view w) (view w') ∧
             trace w' = trace w ++ gates req ++ notifications req e'
  | Err _ => view w' = view w ∧
             ∃ g c, g ++ [c] `prefix_of` gates req ∧ trace w' = trace w ++ g ++ [c]
  end.
Proof. apply serve_proto. Qed.

End laws.
End Protocol.

Lemma existsb_eqb_elem x l : existsb (String.eqb x) l = true ↔ x ∈ l.
Proof.
  rewrite existsb_exists, list_elem_of_In. split.
  - by intros (y&Hy&->%String.eqb_eq).
  - intros Hx. exists x. by rewrite String.eqb_refl.
Qed.

(** A state machine refuses a transition outside its rules with the rules of
    the state and without publishing anything; otherwise it publishes the
    pre-transition event once, fails when a subscriber vetoes, and leaves the
    post-transition event to be published after it. *)
Theorem transition_spec {W T} (sm : StateMachine W T) ctx from to force w :
  let '(r, w') := Transition sm ctx from to force w in
  (force = false ∧ (¬ ∃ l, rules sm !! from = Some l ∧ to ∈ l) ∧
     r = Err (TransitionError from to (AllowedFrom sm from)) ∧ w' = w) ∨
  ((force = true ∨ ∃ l, rules sm !! from = Some l ∧ to ∈ l) ∧
     match sm_pub sm with
     | None => r = Ok None ∧ w' = w
     | Some publish =>
         let p := TransitionPayload from to force in
         let '(rp, wp) := publish ctx (PreTransitioned (sm_topics sm)) "domain.statemachine" p w in
         w' = wp ∧
         match rp with
         | Err e => r = Err (Wrapped "pre-transition veto" e)
         | Ok _ => ∃ post, r = Ok (Some post) ∧
             ∀ w2, post w2 = (publish ctx (PostTransitioned (sm_topics sm)) "domain.statemachine" p w2).2
         end
     end).
Proof.
  assert (Hgo : (force = true ∨ ∃ l, rules sm !! from = Some l ∧ to ∈ l) ∨
                force = false ∧ ¬ ∃ l, rules sm !! from = Some l ∧ to ∈ l).
  { destruct force; [by left; left|]. destruct (rules sm !! from) as [l|]; [|right; naive_solver].
    destruct (decide (to ∈ l)); [left; right; eauto|right; naive_solver]. }
  unfold Transition, AllowedFrom, mbind, st_bind, throw. destruct Hgo as [Hgo|[-> Hno]].
  - replace (_ w) with (Ok tt : res error unit, w).
    + destruct (sm_pub sm) as [publish|]; [|by right]. unfold wrap_err.
      destruct (publish _ _ _ _ w) as [[[]|e] wp]; simpl; right; eauto 6.
    + destruct Hgo as [->|(l&Hl&Hin)]; [done|]. destruct force; [done|]. rewrite Hl.
      by rewrite (proj2 (existsb_eqb_elem to l) Hin).
  - destruct (rules sm !! from) as [l|] eqn:El; [|by left].
    destruct (existsb (String.eqb to) l) eqn:Ex; [|by left].
    destruct Hno. exists l. split; [done|by apply existsb_eqb_elem].
Qed.

(** ** A repository on a map

    The documented behaviour of [Repository], on entities held in a map. *)
Definition map_repository {T} (GetID : T → string) : Repository (gmap string T) T := {|
  repo_Create e := λ m, match m !! GetID e with
                        | Some _ => (Err ErrConflict, m)
                        | None => (Ok e, <[GetID e := e]> m)
                        end;
  repo_Get id := λ m, (match m !! id with Some e => Ok e | None => Err ErrNotFound end, m);
  repo_List _ := λ m, (Ok (map_to_list m).*2, m);
  repo_Update e := λ m, match m !! GetID e with
                        | None => (Err ErrNotFound, m)
                        | Some _ => (Ok e, <[GetID e := e]> m)
                        end;
  repo_Delete id := λ m, match m !! id with
                         | None => (Err ErrNotFound, m)
                         | Some _ => (Ok tt, delete id m)
                         end;
|}.

(** ** A concrete world

    Entities are pairs of id and value, the repository is a map, and every
    collaborator records its call; the publisher refuses what [veto] says. *)

Module ExampleWorld.

Abbreviation T := (string * string)%type.
Abbreviation W := (gmap string T * list (call T))%type.

Definition log (c : call T) (w : W) : W := (w.1, w.2 ++ [c]).

Definition map_repo : Repository W T := {|
  repo_Create e := λ w, match w.1 !! e.1 with
                        | Some _ => (Err ErrConflict, log (CallCreate e) w)
                        | None => (Ok e, log (CallCreate e) (<[e.1 := e]> w.1, w.2))
                        end;
  repo_Get id := λ w, (match w.1 !! id with Some e => Ok e | None => Err ErrNotFound end, w);
  repo_List _ := λ w, (Ok (map_to_list w.1).*2, w);
  repo_Update e := λ w, match w.1 !! e.1 with
                        | None => (Err ErrNotFound, log (CallUpdate e) w)
                        | Some _ => (Ok e, log (CallUpdate e) (<[e.1 := e]> w.1, w.2))
                        end;
  repo_Delete id := λ w, match w.1 !! id with
                         | None => (Err ErrNotFound, log (CallDelete id) w)
                         | Some _ => (Ok tt, log (CallDelete id) (delete id w.1, w.2))
                         end;
|}.

Definition service (veto : string → bool) : Service W T := mkService map_repo
  (Some (λ en w, (Err (SubscriberError "audit down"), log (CallAudit (aEntityID en) (aAction en)) w)))
  (Some (λ _ topic _ p w,
     (if veto topic then Err (SubscriberError "no") else Ok tt, log (CallPublish topic p) w)))
  (Some (λ _ e w, (if String.eqb e.2 "" then Err (ErrValidation "empty") else Ok tt, log (CallValidate e) w)))
  DefaultTopics.

Lemma service_laws veto : ServiceLaws fst fst snd (service veto).
Proof.
  split; simpl.
  - intros publish ctx topic src p [= <-] w. done.
  - intros v ctx e [= <-] w. done.
  - intros a en [= <-] w. done.
  - intros e [m l]; simpl. destruct (m !! e.1) eqn:E; simpl; eauto.
  - intros e [m l]; simpl. destruct (m !! e.1) eqn:E; simpl; eauto.
  - intros id [m l]; simpl. destruct (m !! id) eqn:E; simpl; eauto.
Qed.

End ExampleWorld.

Lemma service_protocol_witness :
  (serve fst (ExampleWorld.service (λ _, false)) 0 Background (RCreate ("e1", "v")) (∅, [])).2.1 = {["e1" := ("e1", "v")]} ∧
  (serve fst (ExampleWorld.service (String.eqb "kit.runtime.entity.pre_persisted")) 0 Background
     (RCreate ("e1", "v")) (∅, [])).2.1 = ∅.
Proof.
  split.
  - pose proof (service_protocol fst fst snd _ (ExampleWorld.service_laws (λ _, false)) 0 Background
                  (RCreate ("e1", "v")) (∅, [])) as H. vm_compute in H |- *. apply H.
  - pose proof (service_protocol fst fst snd _
                  (ExampleWorld.service_laws (String.eqb "kit.runtime.entity.pre_persisted")) 0 Background
                  (RCreate ("e1", "v")) (∅, [])) as H. apply H.
Defined.
