(* ===== verification/HLC.v ===== *)
(** * The hybrid logical clock (go/runtime/sync/clock.go)

    [Timestamp] and [Clock] with [Logical] kept at its 32 bits; the wall clock
    ([WallClock], wallclock.go) is the reading a call is given.  Below the
    methods, nodes that stamp local events and merge the stamps they receive
    are an executable system, and the clock condition relates the stamps to
    Lamport's happened-before. *)

From S2P Require Import Prelude.

Local Open Scope Z_scope.

Record Timestamp := mkTS { Physical : Z; Logical : Z; NodeID : string }.

#[export] Instance Timestamp_eq_dec : EqDecision Timestamp.
Proof. solve_decision. Defined.

(** The zero value of the struct. *)
Definition zeroTS : Timestamp := mkTS 0 0 "".

Definition Before (a b : Timestamp) : bool :=
  if negb (Physical a =? Physical b) then Physical a <? Physical b
  else if negb (Logical a =? Logical b) then Logical a <? Logical b
  else String.ltb (NodeID a) (NodeID b).

Definition Equal (a b : Timestamp) : bool :=
  (Physical a =? Physical b) && (Logical a =? Logical b) && String.eqb (NodeID a) (NodeID b).

(** Arithmetic on [uint32] wraps. *)
Definition uint32 (x : Z) : Z := x mod 2 ^ 32.

(** The clock without its mutex; its [wall] is read by the caller of [Now] and
    [Update] here. *)
Record Clock := mkClock { nodeID : string; last : Timestamp }.

Definition NewClock (n : string) : Clock := mkClock n zeroTS.

Definition Now (wall : Z) (c : Clock) : Timestamp * Clock :=
  let t := if Physical (last c) <? wall then mkTS wall 0 (nodeID c)
           else mkTS (Physical (last c)) (uint32 (Logical (last c) + 1)) (nodeID c) in
  (t, mkClock (nodeID c) t).

Definition Update (wall : Z) (remote : Timestamp) (c : Clock) : Timestamp * Clock :=
  let maxPhys := wall in
  let maxPhys := if maxPhys <? Physical (last c) then Physical (last c) else maxPhys in
  let maxPhys := if maxPhys <? Physical remote then Physical remote else maxPhys in
  let logical :=
    if (maxPhys =? Physical (last c)) && (maxPhys =? Physical remote) then
      let logical := Logical (last c) in
      let logical := if logical <? Logical remote then Logical remote else logical in
      uint32 (logical + 1)
    else if maxPhys =? Physical (last c) then uint32 (Logical (last c) + 1)
    else if maxPhys =? Physical remote then uint32 (Logical remote + 1)
    else 0 in
  let t := mkTS maxPhys logical (nodeID c) in
  (t, mkClock (nodeID c) t).

(** ** The order of timestamps *)

Definition ts_lt (a b : Timestamp) : Prop := Before a b = true.

Lemma ts_lt_iff a b :
  ts_lt a b ↔ Physical a < Physical b ∨ Physical a = Physical b ∧
    (Logical a < Logical b ∨ Logical a = Logical b ∧ str_lt (NodeID a) (NodeID b)).
Proof.
  unfold ts_lt, Before, str_lt.
  destruct (Z.eqb_spec (Physical a) (Physical b)), (Z.eqb_spec (Logical a) (Logical b)); simpl;
    rewrite ?Z.ltb_lt; intuition lia.
Qed.

#[export] Instance ts_lt_strict : StrictOrder ts_lt.
Proof.
  split.
  - intros a. unfold complement. rewrite ts_lt_iff. intros [?|[_ [?|[_ H]]]]; [lia|lia|].
    by apply (irreflexivity str_lt) in H.
  - intros a b c. rewrite !ts_lt_iff.
    intros [?|[? [?|[? H1]]]] [?|[? [?|[? H2]]]]; try (left; lia); right; (split; [lia|]);
      try (left; lia); right. split; [lia|]. by transitivity (NodeID b).
Qed.

Lemma ts_lt_total a b : ts_lt a b ∨ a = b ∨ ts_lt b a.
Proof.
  rewrite !ts_lt_iff. destruct (Z.lt_trichotomy (Physical a) (Physical b)) as [?|[?|?]]; [auto| |auto].
  destruct (Z.lt_trichotomy (Logical a) (Logical b)) as [?|[?|?]]; [tauto| |intuition lia].
  destruct (str_lt_total (NodeID a) (NodeID b)) as [?|[?|?]]; [tauto| |intuition lia].
  right; left. destruct a, b; simpl in *; congruence.
Qed.

Lemma Equal_iff a b : Equal a b = true ↔ a = b.
Proof.
  unfold Equal. rewrite !andb_true_iff, !Z.eqb_eq, String.eqb_eq.
  destruct a, b; simpl. naive_solver.
Qed.

(** ** One call *)

(** [t] is later than [b] by the physical or the logical part alone. *)
Definition after (b t : Timestamp) : Prop :=
  Physical b < Physical t ∨ Physical b = Physical t ∧ Logical b < Logical t.

Lemma after_lt b t : after b t → ts_lt b t.
Proof. rewrite ts_lt_iff. unfold after. tauto. Qed.

Lemma uint32_small x : 0 ≤ x < 2 ^ 32 → uint32 x = x.
Proof. apply Z.mod_small. Qed.

Lemma clock_now_spec wall c k :
  0 ≤ Logical (last c) ≤ k → k + 1 < 2 ^ 32 →
  let '(t, c') := Now wall c in
  last c' = t ∧ nodeID c' = nodeID c ∧ NodeID t = nodeID c ∧
  0 ≤ Logical t ≤ k + 1 ∧ after (last c) t.
Proof.
  intros Hl Hk. unfold Now, after. destruct (Z.ltb_spec (Physical (last c)) wall); simpl.
  - repeat split; lia.
  - rewrite uint32_small by lia. repeat split; lia.
Qed.

Lemma clock_update_spec wall r c k :
  0 ≤ Logical (last c) ≤ k → 0 ≤ Logical r ≤ k → k + 1 < 2 ^ 32 →
  let '(t, c') := Update wall r c in
  last c' = t ∧ nodeID c' = nodeID c ∧ NodeID t = nodeID c ∧
  0 ≤ Logical t ≤ k + 1 ∧ after (last c) t ∧ after r t.
Proof.
  intros Hl Hr Hk. unfold Update, after. simpl.
  set (m1 := if wall <? Physical (last c) then Physical (last c) else wall).
  assert (wall ≤ m1 ∧ Physical (last c) ≤ m1) as [H1 H2]
    by (unfold m1; destruct (Z.ltb_spec wall (Physical (last c))); lia).
  set (m := if m1 <? Physical r then Physical r else m1).
  assert (m1 ≤ m ∧ Physical r ≤ m) as [H3 H4]
    by (unfold m; destruct (Z.ltb_spec m1 (Physical r)); lia).
  clearbody m1 m.
  destruct (Z.eqb_spec m (Physical (last c))), (Z.eqb_spec m (Physical r)); simpl;
    try destruct (Z.ltb_spec (Logical (last c)) (Logical r));
    rewrite ?uint32_small by lia; repeat split; lia.
Qed.

(** ** Nodes exchanging timestamps

    A trace is a list of events; a receive names the earlier event whose stamp
    it merges.  [exec] runs the clocks and collects the stamp of every event. *)

Inductive event :=
| Local (node : string) (wall : Z)
| Recv (node : string) (wall : Z) (src : nat).

Definition node_of (e : event) : string :=
  match e with Local n _ | Recv n _ _ => n end.

Record sys := mkSys { clocks : gmap string Clock; stamps : list Timestamp }.

Definition clock_of (σ : sys) (n : string) : Clock := default (NewClock n) (clocks σ !! n).

Definition record_stamp (σ : sys) (n : string) (tc : Timestamp * Clock) : sys :=
  mkSys (<[n := tc.2]> (clocks σ)) (stamps σ ++ [tc.1]).

Definition exec1 (σ : option sys) (e : event) : option sys :=
  σ ← σ;
  match e with
  | Local n w => Some (record_stamp σ n (Now w (clock_of σ n)))
  | Recv n w i => r ← stamps σ !! i; Some (record_stamp σ n (Update w r (clock_of σ n)))
  end.

Definition exec (es : list event) : option sys := foldl exec1 (Some (mkSys ∅ [])) es.

(** Lamport's happened-before on event positions. *)
Inductive hb (es : list event) : nat → nat → Prop :=
| hb_local i j ei ej :
    (i < j)%nat → es !! i = Some ei → es !! j = Some ej → node_of ei = node_of ej → hb es i j
| hb_msg i j n w : es !! j = Some (Recv n w i) → hb es i j
| hb_trans i j k : hb es i j → hb es j k → hb es i k.

Lemma exec_snoc es e : exec (es ++ [e]) = exec1 (exec es) e.
Proof. unfold exec. by rewrite foldl_app. Qed.

(** What holds of the stamps and clocks after [es]: every stamp carries its
    node and a counter no larger than the number of events, the clock of a node
    is at least every stamp the node issued, and direct dependencies are
    ordered. *)
Record hlc_inv (es : list event) (σ : sys) : Prop := {
  inv_len : length (stamps σ) = length es;
  inv_node i e t : es !! i = Some e → stamps σ !! i = Some t → NodeID t = node_of e;
  inv_log i t : stamps σ !! i = Some t → 0 ≤ Logical t ≤ Z.of_nat (length es);
  inv_id n : nodeID (clock_of σ n) = n;
  inv_last n : 0 ≤ Logical (last (clock_of σ n)) ≤ Z.of_nat (length es);
  inv_ge i e t : es !! i = Some e → stamps σ !! i = Some t →
    t = last (clock_of σ (node_of e)) ∨ after t (last (clock_of σ (node_of e)));
  inv_local i j ei ej ti tj : (i < j)%nat → es !! i = Some ei → es !! j = Some ej →
    node_of ei = node_of ej → stamps σ !! i = Some ti → stamps σ !! j = Some tj → after ti tj;
  inv_msg i j n w ti tj : es !! j = Some (Recv n w i) →
    stamps σ !! i = Some ti → stamps σ !! j = Some tj → (i < j)%nat ∧ after ti tj;
  inv_src i j n w : es !! j = Some (Recv n w i) → is_Some (stamps σ !! i);
}.

Lemma after_trans a b c : after a b → after b c → after a c.
Proof. unfold after. lia. Qed.

Lemma clock_of_record σ n tc m :
  clock_of (record_stamp σ n tc) m = if decide (n = m) then tc.2 else clock_of σ m.
Proof.
  unfold clock_of, record_stamp; simpl. case_decide; subst.
  - by rewrite lookup_insert_eq.
  - by rewrite lookup_insert_ne.
Qed.

(** Appending an event whose call behaved as [clock_now_spec] and [clock_update_spec] say. *)
Lemma hlc_inv_step es σ e tc :
  hlc_inv es σ →
  last tc.2 = tc.1 → nodeID tc.2 = node_of e → NodeID tc.1 = node_of e →
  0 ≤ Logical tc.1 ≤ Z.of_nat (length es) + 1 → after (last (clock_of σ (node_of e))) tc.1 →
  (∀ n w i, e = Recv n w i → ∃ r, stamps σ !! i = Some r ∧ after r tc.1) →
  hlc_inv (es ++ [e]) (record_stamp σ (node_of e) tc).
Proof.
  intros [Hlen Hnode Hlog Hid Hlast Hge Hloc Hmsg Hsrc] Hl Hn HN HL Haft Hrecv.
  assert (Hst : ∀ i t, stamps (record_stamp σ (node_of e) tc) !! i = Some t →
            stamps σ !! i = Some t ∨ i = length es ∧ t = tc.1)
    by (rewrite <- Hlen; intros i t; apply lookup_snoc_cases).
  pose proof (lookup_snoc_cases es e) as Hes.
  assert (Hlt : ∀ i x, es !! i = Some x → (i < length es)%nat) by (intros ??; apply lookup_lt_Some).
  assert (Hlt' : ∀ i x, stamps σ !! i = Some x → (i < length es)%nat)
    by (intros ?? ?%lookup_lt_Some; lia).
  split.
  - simpl. rewrite !length_app, Hlen. done.
  - intros i x t [Hx|[-> ->]]%Hes [Ht|[? ->]]%Hst; [by eapply Hnode| | |done];
      [apply Hlt in Hx|apply Hlt' in Ht]; lia.
  - rewrite length_app. intros i t [Ht|[-> ->]]%Hst; [apply Hlog in Ht|]; simpl; lia.
  - intros n. rewrite clock_of_record. case_decide; [congruence|done].
  - intros n. rewrite clock_of_record, length_app. case_decide; [rewrite Hl|specialize (Hlast n)]; simpl; lia.
  - intros i x t [Hx|[-> ->]]%Hes [Ht|[? ->]]%Hst; rewrite clock_of_record.
    + case_decide as E; [|by eapply Hge]. rewrite Hl. right.
      destruct (Hge i x t Hx Ht) as [->| H]; [by rewrite <- E|]. eapply after_trans; [exact H|by rewrite <- E].
    + apply Hlt in Hx; lia.
    + apply Hlt' in Ht; lia.
    + rewrite decide_True by done. auto.
  - intros i j ei ej ti tj Hij [Hei|[Hi ->]]%Hes [Hej|[Hj ->]]%Hes Hnn [Hti|[Hi' ->]]%Hst [Htj|[Hj' ->]]%Hst;
      repeat match goal with
      | H : es !! _ = Some _ |- _ => pose proof (Hlt _ _ H); revert H
      | H : stamps σ !! _ = Some _ |- _ => pose proof (Hlt' _ _ H); revert H
      end; try lia; intros.
    + eapply (Hloc i j ei ej); eauto.
    + destruct (Hge i ei ti) as [->| Hx]; [done|done|by rewrite Hnn|].
      eapply after_trans; [exact Hx|by rewrite Hnn].
  - intros i j n w ti tj [Hej|[Hj He]]%Hes [Hti|[Hi' ->]]%Hst [Htj|[Hj' ->]]%Hst.
    + by eapply Hmsg.
    + apply Hlt in Hej; lia.
    + destruct (Hsrc _ _ _ _ Hej) as [x Hx%Hlt']. lia.
    + apply Hlt in Hej; lia.
    + apply Hlt' in Htj; lia.
    + destruct (Hrecv n w i (eq_sym He)) as (r&Hr&?). apply Hlt' in Hti as ?. split; [lia|].
      by simplify_eq.
    + apply Hlt' in Htj; lia.
    + destruct (Hrecv n w i (eq_sym He)) as (r&Hr%Hlt'&_). lia.
  - intros i j n w [Hej|[Hj He]]%Hes.
    + destruct (Hsrc _ _ _ _ Hej) as [x Hx]. exists x. by apply lookup_app_l_Some.
    + destruct (Hrecv n w i (eq_sym He)) as (r&Hr&_). exists r. by apply lookup_app_l_Some.
Qed.

Lemma exec_inv es σ :
  exec es = Some σ → Z.of_nat (length es) < 2 ^ 32 → hlc_inv es σ.
Proof.
  revert σ. induction es as [|e es IH] using rev_ind; intros σ.
  { intros [= <-] _. split; simpl; try done; intros; try (by rewrite lookup_nil in *); simpl; lia. }
  rewrite exec_snoc, length_app. simpl. destruct (exec es) as [σ0|] eqn:E0; [|done]. intros Hx Hlen.
  specialize (IH σ0 eq_refl ltac:(lia)). pose proof (inv_last _ _ IH (node_of e)) as Hl.
  pose proof (inv_id _ _ IH (node_of e)) as Hid.
  destruct e as [n w|n w i]; simpl in *.
  - pose proof (clock_now_spec w (clock_of σ0 n) _ Hl ltac:(lia)) as Hs.
    destruct (Now w (clock_of σ0 n)) as [t c'] eqn:En. destruct Hs as (?&?&?&?&?). simplify_eq.
    by apply (hlc_inv_step es σ0 (Local n w) (last c', c')); try done; simpl; congruence.
  - destruct (stamps σ0 !! i) as [r|] eqn:Er; [|done]. simpl in Hx.
    pose proof (clock_update_spec w r (clock_of σ0 n) _ Hl (inv_log _ _ IH _ _ Er) ltac:(lia)) as Hs.
    destruct (Update w r (clock_of σ0 n)) as [t c'] eqn:En. destruct Hs as (?&?&?&?&?&?). simplify_eq.
    apply (hlc_inv_step es σ0 (Recv n w i) (last c', c')); try done; simpl; try congruence.
    intros ??? [= <- <- <-]. eauto.
Qed.

(** C27. The clock condition: a cause carries an earlier stamp than its effect. *)
Theorem hlc_clock_condition es σ i j ti tj :
  exec es = Some σ → Z.of_nat (length es) < 2 ^ 32 → hb es i j →
  stamps σ !! i = Some ti → stamps σ !! j = Some tj → Before ti tj = true.
Proof.
  intros He Hlen Hhb Hi Hj. pose proof (exec_inv _ _ He Hlen) as Hinv.
  apply after_lt. clear He Hlen. revert ti tj Hi Hj.
  induction Hhb as [i j ei ej Hij Hei Hej Hn|i j n w Hj|i j k H1 IH1 H2 IH2]; intros ti tk Hi Hk.
  - by eapply (inv_local _ _ Hinv).
  - by eapply (inv_msg _ _ Hinv).
  - assert (∃ e, es !! j = Some e) as [e Hj].
    { clear -H2 Hinv. induction H2 as [?????|i j n w H|]; eauto.
      destruct (inv_src _ _ Hinv _ _ _ _ H) as [t Ht%lookup_lt_Some].
      rewrite (inv_len _ _ Hinv) in Ht. by apply lookup_lt_is_Some. }
    apply lookup_lt_Some in Hj. rewrite <- (inv_len _ _ Hinv) in Hj.
    apply lookup_lt_is_Some in Hj as [tj Hj]. eapply after_trans; eauto.
Qed.

(** Stamps are unique. *)
Theorem hlc_stamps_unique es σ i j ti tj :
  exec es = Some σ → Z.of_nat (length es) < 2 ^ 32 → i ≠ j →
  stamps σ !! i = Some ti → stamps σ !! j = Some tj → Equal ti tj = false.
Proof.
  intros He Hlen. pose proof (exec_inv _ _ He Hlen) as Hinv. clear He Hlen.
  assert (Hw : ∀ i j ti tj, (i < j)%nat → stamps σ !! i = Some ti → stamps σ !! j = Some tj → ti ≠ tj).
  { clear i j ti tj. intros i j ti tj Hij Hi Hj Hij'. subst tj.
    assert (∃ e, es !! i = Some e) as [ei Hei].
    { apply lookup_lt_is_Some. rewrite <- (inv_len _ _ Hinv). by eapply lookup_lt_Some. }
    assert (∃ e, es !! j = Some e) as [ej Hej].
    { apply lookup_lt_is_Some. rewrite <- (inv_len _ _ Hinv). by eapply lookup_lt_Some. }
    assert (after ti ti) as Ha.
    { eapply (inv_local _ _ Hinv); [exact Hij|exact Hei|exact Hej| |done|done].
      rewrite <- (inv_node _ _ Hinv _ _ _ Hei Hi). by eapply (inv_node _ _ Hinv). }
    unfold after in Ha. lia. }
  intros Hij Hi Hj. apply not_true_iff_false. rewrite Equal_iff.
  destruct (decide (i < j)%nat); [by eapply Hw|]. intros ->. eapply (Hw j i); [lia|done..].
Qed.

(** The bound on the events is needed: a counter at its maximum wraps to zero
    and the clock steps back. *)
Example hlc_logical_wraps :
  let c := mkClock "n" (mkTS 5 (2 ^ 32 - 1) "n") in
  Before (Now 5 c).1 (last c) = true.
Proof. vm_compute. reflexivity. Qed.

Definition example_trace : list event :=
  [Local "a" 10; Recv "b" 3 0; Local "b" 4; Recv "a" 9 2; Local "a" 20].

Lemma hlc_clock_condition_witness :
  ∃ σ, exec example_trace = Some σ ∧
    Before (default zeroTS (stamps σ !! 0%nat)) (default zeroTS (stamps σ !! 4%nat)) = true.
Proof.
  eexists. split; [vm_compute; reflexivity|].
  eapply (hlc_clock_condition example_trace _ 0 4); [vm_compute; reflexivity|vm_compute; reflexivity| |reflexivity..].
  eapply (hb_trans _ 0 2); [|eapply (hb_trans _ 2 3)].
  - eapply (hb_trans _ 0 1); [by eapply hb_msg|]. by eapply (hb_local _ 1 2); [lia|..].
  - by eapply hb_msg.
  - by eapply (hb_local _ 3 4); [lia|..].
Defined.

Lemma hlc_stamps_unique_witness :
  ∃ σ, exec example_trace = Some σ ∧
    Equal (default zeroTS (stamps σ !! 1%nat)) (default zeroTS (stamps σ !! 3%nat)) = false.
Proof.
  eexists. split; [vm_compute; reflexivity|].
  eapply (hlc_stamps_unique example_trace _ 1 3); [vm_compute; reflexivity|vm_compute; reflexivity|lia|reflexivity..].
Defined.
