(* ===== verification/Merge.v ===== *)
(** * Diffs and conflict resolution (go/runtime/sync/diff.go, merge.go)

    A [Diff] carries JSON snapshots; a nil [[]byte] is [None].  [LastWriteWins]
    picks the diff with the larger (timestamp, node) key; on diffs with distinct
    keys it is a commutative, associative maximum, so replicas that fold the
    same set of diffs in any order agree.  [encoding/json] on an entity type is
    the parameter [EntityJSON]. *)

From S2P Require Import Prelude HLC.

Local Open Scope Z_scope.

Inductive Operation := OpCreate | OpUpdate | OpDelete.

#[export] Instance Operation_eq_dec : EqDecision Operation.
Proof. solve_decision. Defined.

Record Diff := mkDiff {
  EntityID : string;
  EntityType : string;
  Op : Operation;
  BeforeSnap : option string;
  After : option string;
  Stamp : Timestamp;
  DiffNode : string;
}.

#[export] Instance Diff_eq_dec : EqDecision Diff.
Proof. solve_decision. Defined.

Definition set_After (d : Diff) (a : option string) : Diff :=
  mkDiff (EntityID d) (EntityType d) (Op d) (BeforeSnap d) a (Stamp d) (DiffNode d).

Inductive sync_error :=
| ErrBothNil
| ErrMarshal
| ErrUnmarshal
| ErrMerge (msg : string).

(** [json.Marshal] and [json.Unmarshal] at the entity type, and its zero value. *)
Class EntityJSON (T : Type) := {
  Marshal : T → option string;
  Unmarshal : string → option T;
  zeroT : T;
}.

Section Merge.
Context {T : Type} `{EJ : EntityJSON T}.

Definition marshal_snapshot (x : option T) : res sync_error (option string) :=
  match x with
  | None => Ok None
  | Some x => match Marshal x with Some b => Ok (Some b) | None => Err ErrMarshal end
  end.

Definition ComputeDiff (entityID entityType : string) (before after : option T) (ts : Timestamp)
  : res sync_error Diff :=
  match before, after with
  | None, None => Err ErrBothNil
  | _, _ =>
      let op := match before, after with
                | None, _ => OpCreate
                | _, None => OpDelete
                | _, _ => OpUpdate
                end in
      match marshal_snapshot before with
      | Err e => Err e
      | Ok b =>
          match marshal_snapshot after with
          | Err e => Err e
          | Ok a => Ok (mkDiff entityID entityType op b a ts (NodeID ts))
          end
      end
  end.

Definition LastWriteWins (local remote : Diff) : Diff :=
  if Before (Stamp remote) (Stamp local) then local
  else if Before (Stamp local) (Stamp remote) then remote
  else if String.leb (DiffNode remote) (DiffNode local) then local
  else remote.

Definition unmarshal_after (d : Diff) : res sync_error T :=
  match After d with
  | None => Ok zeroT
  | Some b => match Unmarshal b with Some v => Ok v | None => Err ErrUnmarshal end
  end.

Definition ResolveDiff (local remote : Diff) (fn : T → T → res sync_error T) : res sync_error Diff :=
  match unmarshal_after local with
  | Err e => Err e
  | Ok localVal =>
      match unmarshal_after remote with
      | Err e => Err e
      | Ok remoteVal =>
          match fn localVal remoteVal with
          | Err e => Err e
          | Ok merged =>
              match Marshal merged with
              | None => Err ErrMarshal
              | Some after => Ok (set_After (LastWriteWins local remote) (Some after))
              end
          end
      end
  end.

End Merge.

(** ** [LastWriteWins] as a maximum *)

(** The order [LastWriteWins] resolves by. *)
Definition lww_lt (a b : Diff) : Prop :=
  ts_lt (Stamp a) (Stamp b) ∨ Stamp a = Stamp b ∧ str_lt (DiffNode a) (DiffNode b).

#[export] Instance lww_lt_strict : StrictOrder lww_lt.
Proof.
  split.
  - intros a [H|[_ H]]; by apply irreflexivity in H; try apply _.
  - intros a b c [H1|[E1 H1]] [H2|[E2 H2]].
    + left. by etransitivity.
    + left. by rewrite <- E2.
    + left. by rewrite E1.
    + right. split; [congruence|by etransitivity].
Qed.

Definition same_key (a b : Diff) : Prop := Stamp a = Stamp b ∧ DiffNode a = DiffNode b.

Lemma lww_total a b : lww_lt a b ∨ same_key a b ∨ lww_lt b a.
Proof.
  unfold lww_lt, same_key. destruct (ts_lt_total (Stamp a) (Stamp b)) as [?|[?|?]]; [auto| |auto].
  destruct (str_lt_total (DiffNode a) (DiffNode b)) as [?|[?|?]]; auto.
Qed.

Lemma lww_cases a b :
  LastWriteWins a b = a ∧ ¬ lww_lt a b ∨ LastWriteWins a b = b ∧ lww_lt a b.
Proof.
  unfold LastWriteWins, lww_lt. destruct (Before (Stamp b) (Stamp a)) eqn:E1.
  { left. split; [done|]. intros [H|[H _]].
    - eapply (irreflexivity ts_lt (Stamp a)). by transitivity (Stamp b).
    - rewrite H in E1. by apply (irreflexivity ts_lt) in E1. }
  destruct (Before (Stamp a) (Stamp b)) eqn:E2; [by right; auto|].
  destruct (ts_lt_total (Stamp a) (Stamp b)) as [H|[H|H]]; unfold ts_lt in *; [congruence| |congruence].
  destruct (String.leb (DiffNode b) (DiffNode a)) eqn:E3.
  - left. split; [done|]. intros [?|[_ Hlt]]; [congruence|]. apply str_le_lt in E3 as [E3|E3].
    + rewrite E3 in Hlt. by apply (irreflexivity str_lt) in Hlt.
    + eapply (irreflexivity str_lt (DiffNode a)). by transitivity (DiffNode b).
  - right. split; [done|]. right. split; [done|].
    destruct (str_lt_total (DiffNode a) (DiffNode b)) as [?|[E|Hlt]]; [done| |];
      exfalso; eapply eq_true_false_abs; [|exact E3| |exact E3]; apply str_le_lt; auto.
Qed.

(** The winner of a fold is one of the diffs and no diff beats it. *)
Lemma lww_fold d l :
  foldl LastWriteWins d l ∈ d :: l ∧ (∀ x, x ∈ d :: l → ¬ lww_lt (foldl LastWriteWins d l) x).
Proof.
  revert d. induction l as [|y l IH]; intros d; simpl.
  { split; [set_solver|]. intros x ->%list_elem_of_singleton. apply irreflexivity, _. }
  destruct (IH (LastWriteWins d y)) as [Hin Hmax].
  destruct (lww_cases d y) as [[E Hlt]|[E Hlt]]; rewrite E in *; (split; [set_solver|]);
    intros x [->|[->|Hx]%elem_of_cons]%elem_of_cons; try (apply Hmax; set_solver).
  - intros Hd. destruct (lww_total d y) as [?|[[Hs1 Hs2]|Hyd]]; [done| |].
    + apply (Hmax d); [set_solver|]. unfold lww_lt in *. by rewrite Hs1, Hs2.
    + apply (Hmax d); [set_solver|]. by transitivity y.
  - intros Hd. apply (Hmax y); [set_solver|]. by transitivity d.
Qed.

(** C29. Convergence: two replicas that fold the same diffs in different orders
    end with the same one, namely the diff with the largest key, provided no two
    different diffs share timestamp and node. *)
Theorem lww_converges d l d' l' :
  d :: l ≡ₚ d' :: l' →
  (∀ x y, x ∈ d :: l → y ∈ d :: l → same_key x y → x = y) →
  foldl LastWriteWins d l = foldl LastWriteWins d' l' ∧
  foldl LastWriteWins d l ∈ d :: l ∧
  ∀ x, x ∈ d :: l → x = foldl LastWriteWins d l ∨ lww_lt x (foldl LastWriteWins d l).
Proof.
  intros Hp Huniq. destruct (lww_fold d l) as [Hin Hmax]. destruct (lww_fold d' l') as [Hin' Hmax'].
  assert (∀ x, x ∈ d :: l → x = foldl LastWriteWins d l ∨ lww_lt x (foldl LastWriteWins d l)) as Htop.
  { intros x Hx. destruct (lww_total x (foldl LastWriteWins d l)) as [?|[?|?]]; [by right|left; auto|].
    by exfalso; eapply Hmax. }
  split; [|done]. rewrite <- Hp in Hin'. destruct (Htop _ Hin') as [->|Hlt]; [done|].
  exfalso. eapply Hmax'; [|exact Hlt]. by rewrite <- Hp.
Qed.

(** Distinct diffs with one key make the winner depend on the side. *)
Example lww_needs_distinct_keys :
  let t := mkTS 1 0 "n" in
  let a := mkDiff "e" "" OpUpdate None (Some "1") t "n" in
  let b := mkDiff "e" "" OpUpdate None (Some "2") t "n" in
  LastWriteWins a b = a ∧ LastWriteWins b a = b ∧ a ≠ b.
Proof. repeat split; by vm_compute. Qed.

Lemma lww_converges_witness :
  let a := mkDiff "e" "" OpUpdate None (Some "1") (mkTS 1 0 "n") "n" in
  let b := mkDiff "e" "" OpUpdate None (Some "2") (mkTS 1 1 "m") "m" in
  foldl LastWriteWins a [b] = foldl LastWriteWins b [a].
Proof.
  intros a b. apply (lww_converges a [b] b [a]); [apply Permutation_swap|].
  intros x y Hx Hy [H _]. apply elem_of_cons in Hx as [->|Hx%list_elem_of_singleton];
    apply elem_of_cons in Hy as [->|Hy%list_elem_of_singleton]; subst; done.
Defined.
