(* ===== verification/Replicator.v ===== *)
(** * The replicator (go/runtime/sync: remote.go, transport.go,
      transport_memory.go, status.go, replicator.go)

    [World] is one replicator with what it reaches: its repository, the
    transports its remotes point to and the events it published.  Each method is
    a definition on [World]; a method the Go scheduler can interrupt between two
    critical sections ([push]) is composed of one definition per section.  A
    slice expression out of bounds is the error [Panic].  Of the Go struct,
    [interval], [done], [wg], [ctx] and [logger] only decide when a loop runs or
    what is logged, and [merge] is never read; they have no counterpart but
    [started]. *)

From S2P Require Import Prelude Topics Domain HLC Merge.

Local Open Scope Z_scope.

(** ** Transports *)

(** [Transport], with transport errors as text. *)
Class Transport (Tr : Type) := {
  Push : list Diff → st Tr string unit;
  Pull : Timestamp → st Tr string (list Diff);
  Ping : st Tr string unit;
}.

Record MemoryTransport := mkMem { mem_diffs : list Diff; alive : bool }.

Definition NewMemoryTransport : MemoryTransport := mkMem [] true.

Definition mem_Push (diffs : list Diff) : st MemoryTransport string unit :=
  modify (λ m, mkMem (mem_diffs m ++ diffs) (alive m)).

Definition mem_Pull (since : Timestamp) : st MemoryTransport string (list Diff) :=
  gets (λ m, filter (λ d, Before since (Stamp d) = true) (mem_diffs m)).

Definition mem_Ping : st MemoryTransport string unit := λ m,
  if alive m then (Ok tt, m) else (Err "transport: not reachable", m).

Definition SetAlive (b : bool) (m : MemoryTransport) : MemoryTransport := mkMem (mem_diffs m) b.

#[export] Instance memory_transport : Transport MemoryTransport := {
  Push := mem_Push; Pull := mem_Pull; Ping := mem_Ping;
}.

(** ** Remotes *)

Inductive SyncMode := Bidirectional | PushOnly | PullOnly.

#[export] Instance SyncMode_eq_dec : EqDecision SyncMode.
Proof. solve_decision. Defined.

(** [Transport] is an interface value, here the name of a transport. *)
Record Remote := mkRemote {
  Name : string;
  TransportRef : string;
  RMode : SyncMode;
  Filter : option (Diff → bool);
}.

Inductive sync_err :=
| ErrRemoteExists (name : string)
| ErrRemoteNotFound (name : string)
| ErrNotStarted
| Panic.

Definition RemoteSet : Type := gmap string Remote.

Definition rs_Add (r : Remote) : st RemoteSet sync_err unit := λ rs,
  match rs !! Name r with
  | Some _ => (Err (ErrRemoteExists (Name r)), rs)
  | None => (Ok tt, <[Name r := r]> rs)
  end.

Definition rs_Remove (name : string) : st RemoteSet sync_err unit := λ rs,
  match rs !! name with
  | None => (Err (ErrRemoteNotFound name), rs)
  | Some _ => (Ok tt, delete name rs)
  end.

Definition rs_Get (name : string) (rs : RemoteSet) : option Remote := rs !! name.
Definition rs_List (rs : RemoteSet) : list Remote := (map_to_list rs).*2.
Definition rs_Len (rs : RemoteSet) : nat := size rs.

(** ** The replicator *)

Record remoteState := mkState { connected : bool; lastSync : option Z; lastErr : option string }.

Record World (R Tr : Type) := mkWorld {
  remotes : RemoteSet;
  clock : Clock;
  subPrefix : string;
  has_bus : bool;
  queue : list Diff;
  cursors : gmap string Z;
  statuses : gmap string remoteState;
  pulls : gmap string Timestamp;
  started : bool;
  entities : R;
  net : gmap string Tr;
  published : list (string * string);
}.
Arguments mkWorld {_ _}. Arguments remotes {_ _}. Arguments clock {_ _}. Arguments subPrefix {_ _}.
Arguments has_bus {_ _}. Arguments queue {_ _}. Arguments cursors {_ _}. Arguments statuses {_ _}.
Arguments pulls {_ _}. Arguments started {_ _}. Arguments entities {_ _}. Arguments net {_ _}.
Arguments published {_ _}.

Definition maxQueueSize : Z := 10000.

Definition DefaultSubscriptionPrefix : string := "kit.runtime.entity".

Section Replicator.
Context {R Tr T : Type} `{TR : Transport Tr} `{EJ : EntityJSON T} (repo : Repository R T).

Abbreviation World := (World R Tr).
Abbreviation M := (st World sync_err).

Definition set_remotes x (w : World) : World :=
  mkWorld x (clock w) (subPrefix w) (has_bus w) (queue w) (cursors w) (statuses w) (pulls w) (started w) (entities w) (net w) (published w).
Definition set_clock x (w : World) : World :=
  mkWorld (remotes w) x (subPrefix w) (has_bus w) (queue w) (cursors w) (statuses w) (pulls w) (started w) (entities w) (net w) (published w).
Definition set_queue x (w : World) : World :=
  mkWorld (remotes w) (clock w) (subPrefix w) (has_bus w) x (cursors w) (statuses w) (pulls w) (started w) (entities w) (net w) (published w).
Definition set_cursors x (w : World) : World :=
  mkWorld (remotes w) (clock w) (subPrefix w) (has_bus w) (queue w) x (statuses w) (pulls w) (started w) (entities w) (net w) (published w).
Definition set_statuses x (w : World) : World :=
  mkWorld (remotes w) (clock w) (subPrefix w) (has_bus w) (queue w) (cursors w) x (pulls w) (started w) (entities w) (net w) (published w).
Definition set_pulls x (w : World) : World :=
  mkWorld (remotes w) (clock w) (subPrefix w) (has_bus w) (queue w) (cursors w) (statuses w) x (started w) (entities w) (net w) (published w).
Definition set_started x (w : World) : World :=
  mkWorld (remotes w) (clock w) (subPrefix w) (has_bus w) (queue w) (cursors w) (statuses w) (pulls w) x (entities w) (net w) (published w).
Definition set_entities x (w : World) : World :=
  mkWorld (remotes w) (clock w) (subPrefix w) (has_bus w) (queue w) (cursors w) (statuses w) (pulls w) (started w) x (net w) (published w).
Definition set_net x (w : World) : World :=
  mkWorld (remotes w) (clock w) (subPrefix w) (has_bus w) (queue w) (cursors w) (statuses w) (pulls w) (started w) (entities w) x (published w).
Definition set_published x (w : World) : World :=
  mkWorld (remotes w) (clock w) (subPrefix w) (has_bus w) (queue w) (cursors w) (statuses w) (pulls w) (started w) (entities w) (net w) x.

(** [NewReplicator] before its options: no remotes, the clock "local". *)
Definition NewReplicator (r : R) (n : gmap string Tr) : World :=
  mkWorld ∅ (NewClock "local") DefaultSubscriptionPrefix false [] ∅ ∅ ∅ false r n [].

(** Calls on the collaborators. *)
Definition on_repo {A} (m : st R Domain.error A) : st World sync_err (res Domain.error A) := λ w,
  let '(r, x) := m (entities w) in (Ok r, set_entities x w).

Definition on_transport {A} (ref : string) (m : st Tr string A) : M (res string A) := λ w,
  match net w !! ref with
  | None => (Err Panic, w)
  | Some t => let '(r, t') := m t in (Ok r, set_net (<[ref := t']> (net w)) w)
  end.

Definition on_remotes {A} (m : st RemoteSet sync_err A) : M A := λ w,
  let '(r, x) := m (remotes w) in (r, set_remotes x w).

Definition publishEvent (topic remoteName : string) : M unit :=
  modify (λ w, if has_bus w then set_published (published w ++ [(topic, remoteName)]) w else w).

Definition setStatus (name : string) (conn : bool) (err : option string) : M unit :=
  modify (λ w,
    let st := default (mkState false None None) (statuses w !! name) in
    set_statuses (<[name := mkState conn (lastSync st) err]> (statuses w)) w).

(** [st.lastSync = time.Now()], for a remote that has a status. *)
Definition setSynced (name : string) (now : Z) : M unit :=
  modify (λ w, match statuses w !! name with
               | Some st => set_statuses (<[name := mkState (connected st) (Some now) (lastErr st)]> (statuses w)) w
               | None => w
               end).

Definition resetStatus (name : string) : M unit :=
  modify (λ w, set_statuses (<[name := mkState false None None]> (statuses w)) w).

Definition WithRemote (r : Remote) (w : World) : World := (on_remotes (rs_Add r) w).2.

Definition WithBus (w : World) : World :=
  mkWorld (remotes w) (clock w) (subPrefix w) true (queue w) (cursors w) (statuses w) (pulls w) (started w) (entities w) (net w) (published w).
Definition WithClock (c : Clock) (w : World) : World := set_clock c w.

Definition Enqueue (d : Diff) : M unit :=
  modify (λ w,
    let q := queue w in
    let q := if maxQueueSize <=? Z.of_nat (length q) then drop 1 q else q in
    set_queue (q ++ [d]) w).

(** ** Pushing *)

Definition cursor_of (w : World) (name : string) : Z := default 0 (cursors w !! name).

(** The first critical section: [pending := r.queue[cursor:]]. *)
Definition push_begin (rem : Remote) : M (Z * list Diff) := λ w,
  let cursor := cursor_of w (Name rem) in
  if (0 <=? cursor) && (cursor <=? Z.of_nat (length (queue w)))
  then (Ok (cursor, drop (Z.to_nat cursor) (queue w)), w)
  else (Err Panic, w).

Definition passes (rem : Remote) (d : Diff) : bool :=
  match Filter rem with None => true | Some f => f d end.

(** Filtering and sending, outside the lock; [false] is the early return. *)
Definition push_send (rem : Remote) (pending : list Diff) : M bool :=
  let filtered := List.filter (passes rem) pending in
  match filtered with
  | [] => mret true
  | _ =>
      r ← on_transport (TransportRef rem) (Push filtered);
      match r with
      | Err err => setStatus (Name rem) true (Some err);; mret false
      | Ok _ => mret true
      end
  end.

(** The second critical section. *)
Definition push_commit (rem : Remote) (cursor : Z) (pending : list Diff) : M unit :=
  modify (λ w, set_cursors (<[Name rem := cursor + Z.of_nat (length pending)]> (cursors w)) w).

Definition push (rem : Remote) : M unit :=
  cp ← push_begin rem;
  match cp.2 with
  | [] => mret tt
  | _ => ok ← push_send rem cp.2; if (ok : bool) then push_commit rem cp.1 cp.2 else mret tt
  end.

Definition trimQueue : M unit :=
  modify (λ w,
    let minCursor := foldr (λ rem m, Z.min (cursor_of w (Name rem)) m)
                       (Z.of_nat (length (queue w))) (rs_List (remotes w)) in
    if 0 <? minCursor
    then set_cursors ((λ c, c - minCursor) <$> cursors w)
           (set_queue (drop (Z.to_nat minCursor) (queue w)) w)
    else w).

(** ** Pulling *)

Definition applyDiff (d : Diff) : M unit :=
  match After d with
  | None =>
      r ← on_repo (repo_Delete repo (EntityID d));
      match r with
      | Err _ => publishEvent "sync.apply.error" (EntityID d)
      | Ok _ => mret tt
      end
  | Some b =>
      match Unmarshal b with
      | None => publishEvent "sync.apply.error" (EntityID d)
      | Some entity =>
          r ← on_repo (repo_Update repo entity);
          match r with
          | Ok _ => mret tt
          | Err _ =>
              r ← on_repo (repo_Create repo entity);
              match r with
              | Err _ => publishEvent "sync.apply.error" (EntityID d)
              | Ok _ => mret tt
              end
          end
      end
  end.

(** The loop over the pulled diffs; [wall] is read once per diff. *)
Fixpoint pull_loop (wall : nat → Z) (diffs : list Diff) (maxTS : Timestamp) : M Timestamp :=
  match diffs with
  | [] => mret maxTS
  | d :: diffs =>
      modify (λ w, set_clock (HLC.Update (wall O) (Stamp d) (clock w)).2 w);;
      applyDiff d;;
      pull_loop (λ k, wall (S k)) diffs (if Before maxTS (Stamp d) then Stamp d else maxTS)
  end.

Definition pull (wall : nat → Z) (rem : Remote) : M unit :=
  since ← gets (λ w, default zeroTS (pulls w !! Name rem));
  r ← on_transport (TransportRef rem) (Pull since);
  match r with
  | Err err => setStatus (Name rem) true (Some err)
  | Ok diffs =>
      maxTS ← pull_loop wall diffs zeroTS;
      match diffs with
      | [] => mret tt
      | _ => modify (λ w, set_pulls (<[Name rem := maxTS]> (pulls w)) w)
      end
  end.

(** ** The sync loop's body *)

Definition syncOnce (now : Z) (wall : nat → Z) (rem : Remote) : M unit :=
  r ← on_transport (TransportRef rem) Ping;
  match r with
  | Err err =>
      setStatus (Name rem) false (Some err);;
      publishEvent "sync.remote.error" (Name rem)
  | Ok _ =>
      setStatus (Name rem) true None;;
      publishEvent "sync.remote.connected" (Name rem);;
      (if bool_decide (RMode rem = PullOnly) then mret tt else push rem);;
      (if bool_decide (RMode rem = PushOnly) then mret tt else pull wall rem);;
      trimQueue;;
      setSynced (Name rem) now;;
      publishEvent "sync.remote.synced" (Name rem)
  end.

(** ** Lifecycle: the goroutine [syncLoop] repeats [syncOnce] until stopped. *)

Definition Start : M unit :=
  modify (set_started true);;
  rs ← gets (λ w, rs_List (remotes w));
  for_each rs (λ rem, resetStatus (Name rem)).

Definition AddRemote (rem : Remote) : M unit :=
  s ← gets started;
  if (s : bool) then on_remotes (rs_Add rem);; resetStatus (Name rem)
  else throw ErrNotStarted.

Definition RemoveRemote (name : string) : M unit := on_remotes (rs_Remove name).

(** ** Local changes *)

Definition op_of_action (action : string) : option Operation :=
  if String.eqb action "created" then Some Merge.OpCreate
  else if String.eqb action "updated" then Some Merge.OpUpdate
  else if String.eqb action "deleted" then Some Merge.OpDelete
  else None.

(** The payload's [map[string]string] has the key "id" or not. *)
Definition payload_id (p : payload T) : string :=
  match p with IDPayload id => id | _ => "" end.

Definition handleEvent (wall : Z) (topic : string) (p : payload T) : M unit :=
  let entityID := payload_id p in
  if String.eqb entityID "" then mret tt
  else
    ts ← gets (λ w, (HLC.Now wall (clock w)).1);
    modify (λ w, set_clock (HLC.Now wall (clock w)).2 w);;
    match LastIndexDot topic with
    | None => mret tt
    | Some idx =>
        match op_of_action (str_drop (S idx) topic) with
        | None => mret tt
        | Some op =>
            after ← (if bool_decide (op = Merge.OpDelete) then mret None
                     else r ← on_repo (repo_Get repo entityID);
                          mret (match r with Ok entity => Marshal entity | Err _ => None end));
            Enqueue (mkDiff entityID "" op None after ts (NodeID ts))
        end
    end.

(** ** Status *)

Record RemoteStatus := mkRemoteStatus {
  rs_Name : string; rs_Connected : bool; rs_LastSync : option Z;
  rs_PendingDiffs : Z; rs_LastError : option string; rs_Lag : Z;
}.

Definition Status (now : Z) (w : World) : list RemoteStatus :=
  omap (λ rem,
    st ← statuses w !! Name rem;
    let pending := Z.of_nat (length (queue w)) - cursor_of w (Name rem) in
    let pending := if pending <? 0 then 0 else pending in
    let lag := match lastSync st with Some t => now - t | None => 0 end in
    Some (mkRemoteStatus (Name rem) (connected st) (lastSync st) pending (lastErr st) lag))
    (rs_List (remotes w)).

End Replicator.

(** [WithSubscriptionPrefix] panics ([None]) on a prefix that fails the check. *)
Definition validateSubPrefix (prefix : string) : option topic_error :=
  if String.eqb prefix "" then Some EmptyPrefix
  else if HasSuffix prefix "." then Some TrailingDot
  else
    let parts := Split prefix in
    if negb (Nat.eqb (length parts) 3) then Some (SegmentCount (length parts))
    else match list_find (λ seg, seg = "") parts with
         | Some (i, _) => Some (EmptySegment i)
         | None => None
         end.

Definition WithSubscriptionPrefix {R Tr} (prefix : string) : option (World R Tr → World R Tr) :=
  match validateSubPrefix prefix with
  | Some _ => None
  | None => Some (λ w, mkWorld (remotes w) (clock w) prefix (has_bus w) (queue w) (cursors w) (statuses w)
                         (pulls w) (started w) (entities w) (net w) (published w))
  end.
