(* ===== verification/Delivery.v ===== *)
(** * Delivery to several remotes (go/runtime/sync/replicator.go)

    One goroutine per remote runs [syncOnce]; they share the queue and the
    cursors and interleave between critical sections.  [cstep] is one section of
    one goroutine, or one [Enqueue]; [sync_once_schedule] shows that [syncOnce]
    is a sequence of such steps.  While the queue is below its cap and no trim
    runs while a push is in flight, every remote receives every diff its filter
    passes exactly once and in order.  The schedules outside these conditions
    are at the end, with what they do. *)

From S2P Require Import Prelude Topics Domain HLC Merge Replicator.

Local Open Scope Z_scope.

(** What a transport promises: a successful push records the diffs behind those
    it already has, nothing else adds any. *)
Class TransportLaws (Tr : Type) `{Transport Tr} (sent : Tr → list Diff) := {
  push_law ds t :
    match Push ds t with
    | (Ok _, t') => sent t' = sent t ++ ds
    | (Err _, t') => sent t' = sent t
    end;
  pull_law since t : sent (Pull since t).2 = sent t;
  ping_law t : sent (Ping t).2 = sent t;
}.

#[export] Instance memory_transport_laws : TransportLaws MemoryTransport mem_diffs.
Proof. split; [done..|]. intros t. simpl. unfold mem_Ping. by destruct (alive t). Qed.

Section Delivery.
Context {R Tr T : Type} `{TR : Transport Tr} `{EJ : EntityJSON T} (repo : Repository R T).

Abbreviation World := (Replicator.World R Tr).

(** ** Schedules *)

(** The goroutine of a remote between the sections of its push. *)
Record flight := mkFlight { f_cursor : Z; f_pending : list Diff; f_sent : bool }.

Record cstate := mkC { cw : World; inflight : gmap string flight; panicked : bool }.

Inductive action :=
| AEnqueue (d : Diff)
| APing (n : string)
| ABegin (n : string)
| ASend (n : string)
| ACommit (n : string)
| APull (wall : nat → Z) (n : string)
| ATrim (n : string)
| AFinish (now : Z) (n : string).

(** Running one section of the goroutine of [n], which must be idle. *)
Definition idle_step (c : cstate) (n : string) (m : Remote → st World sync_err unit) : option cstate :=
  rem ← remotes (cw c) !! n;
  match inflight c !! n with
  | Some _ => None
  | None =>
      match m rem (cw c) with
      | (Ok _, w) => Some (mkC w (inflight c) (panicked c))
      | (Err _, w) => Some (mkC w (inflight c) true)
      end
  end.

(** The ping at the start of [syncOnce], with its success branch. *)
Definition ping_part (rem : Remote) : st World sync_err bool :=
  r ← on_transport (TransportRef rem) Ping;
  match r with
  | Err err =>
      setStatus (Name rem) false (Some err);;
      publishEvent "sync.remote.error" (Name rem);; mret false
  | Ok _ =>
      setStatus (Name rem) true None;;
      publishEvent "sync.remote.connected" (Name rem);; mret true
  end.

Definition finish_part (now : Z) (rem : Remote) : st World sync_err unit :=
  setSynced (Name rem) now;; publishEvent "sync.remote.synced" (Name rem).

Definition cstep (a : action) (c : cstate) : option cstate :=
  if panicked c then None
  else
  match a with
  | AEnqueue d => Some (mkC (Enqueue d (cw c)).2 (inflight c) false)
  | APing n => idle_step c n (λ rem, ping_part rem;; mret tt)
  | APull wall n => idle_step c n (pull repo wall)
  | ATrim n => idle_step c n (λ _, trimQueue)
  | AFinish now n => idle_step c n (finish_part now)
  | ABegin n =>
      rem ← remotes (cw c) !! n;
      match inflight c !! n, push_begin rem (cw c) with
      | Some _, _ => None
      | None, (Err _, w) => Some (mkC w (inflight c) true)
      | None, (Ok (cursor, pending), w) =>
          Some (mkC w (match pending with
                       | [] => inflight c
                       | _ => <[n := mkFlight cursor pending false]> (inflight c)
                       end) false)
      end
  | ASend n =>
      rem ← remotes (cw c) !! n;
      match inflight c !! n with
      | Some (mkFlight cursor pending false) =>
          match push_send rem pending (cw c) with
          | (Ok true, w) => Some (mkC w (<[n := mkFlight cursor pending true]> (inflight c)) false)
          | (Ok false, w) => Some (mkC w (delete n (inflight c)) false)
          | (Err _, w) => Some (mkC w (inflight c) true)
          end
      | _ => None
      end
  | ACommit n =>
      rem ← remotes (cw c) !! n;
      match inflight c !! n with
      | Some (mkFlight cursor pending true) =>
          Some (mkC (push_commit rem cursor pending (cw c)).2 (delete n (inflight c)) false)
      | _ => None
      end
  end.

Fixpoint crun (actions : list action) (c : cstate) : option cstate :=
  match actions with
  | [] => Some c
  | a :: actions => c' ← cstep a c; crun actions c'
  end.

(** The conditions on a schedule: the queue stays below its cap and the queue is
    trimmed only while no push is in flight. *)
Definition calm (a : action) (c : cstate) : bool :=
  match a with
  | AEnqueue _ => Z.of_nat (length (queue (cw c))) <? maxQueueSize
  | ATrim _ => bool_decide (inflight c = ∅)
  | _ => true
  end.

Fixpoint calm_run (actions : list action) (c : cstate) : bool :=
  match actions with
  | [] => true
  | a :: actions =>
      calm a c && match cstep a c with Some c' => calm_run actions c' | None => true end
  end.

Definition enqueued (actions : list action) : list Diff :=
  omap (λ a, match a with AEnqueue d => Some d | _ => None end) actions.

(** ** What leaves queue, cursors and logs alone *)

Section laws.
Context (sent : Tr → list Diff) `{TL : !TransportLaws Tr sent}.

(** The diffs the transport behind [ref] has recorded. *)
Definition log_of (w : World) (ref : string) : option (list Diff) := sent <$> net w !! ref.

Definition frame (w w' : World) : Prop :=
  remotes w' = remotes w ∧ queue w' = queue w ∧ cursors w' = cursors w ∧
  ∀ ref, log_of w' ref = log_of w ref.

#[local] Instance frame_preorder : PreOrder frame.
Proof.
  split; [by intros w|]. intros w1 w2 w3 (?&?&?&Hl1) (?&?&?&Hl2).
  repeat split; congruence || (intros ref; by rewrite Hl2).
Qed.

Definition frames {A} (m : st World sync_err A) : Prop := ∀ w, frame w (m w).2.

Lemma frames_ret {A} (a : A) : frames (mret a).
Proof. by intros w. Qed.

Lemma frames_bind {A B} (m : st World sync_err A) (k : A → st World sync_err B) :
  frames m → (∀ a, frames (k a)) → frames (m ≫= k).
Proof.
  intros Hm Hk w. unfold mbind, st_bind. specialize (Hm w). destruct (m w) as [[a|e] w1]; [|done].
  by etransitivity; [|apply Hk].
Qed.

Lemma frames_modify (f : World → World) : (∀ w, frame w (f w)) → frames (modify f).
Proof. by intros Hf w. Qed.

Lemma frames_setStatus n b e : frames (setStatus n b e).
Proof. by apply frames_modify. Qed.

Lemma frames_setSynced n now : frames (setSynced n now).
Proof. apply frames_modify. intros w. by destruct (statuses w !! n). Qed.

Lemma frames_publishEvent t n : frames (publishEvent t n).
Proof. apply frames_modify. intros w. by destruct (has_bus w). Qed.

Lemma frames_on_repo {A} (m : st R Domain.error A) : frames (on_repo m).
Proof. intros w. unfold on_repo. by destruct (m (entities w)). Qed.

Lemma frames_on_transport {A} ref (m : st Tr string A) :
  (∀ t, sent (m t).2 = sent t) → frames (on_transport ref m).
Proof.
  intros Hm w. unfold on_transport. destruct (net w !! ref) as [t|] eqn:E; [|done].
  specialize (Hm t). destruct (m t) as [r t']; simpl in *. repeat split. intros ref'.
  unfold log_of; simpl. destruct (decide (ref = ref')) as [<-|].
  - by rewrite lookup_insert_eq, E; simpl; rewrite Hm.
  - by rewrite lookup_insert_ne.
Qed.

Create HintDb frames.
Hint Resolve frames_ret frames_setStatus frames_setSynced frames_publishEvent frames_on_repo : frames.
Hint Resolve frames_on_transport pull_law ping_law : frames.
Ltac frames :=
  repeat first [progress intros|apply frames_bind|case_match|solve [eauto with frames]].

Lemma frames_applyDiff d : frames (applyDiff repo d).
Proof. unfold applyDiff. frames. Qed.

Lemma frames_pull_loop wall ds t : frames (pull_loop repo wall ds t).
Proof.
  revert wall t; induction ds as [|d ds IH]; intros wall t; simpl; [frames|].
  apply frames_bind; [by apply frames_modify|intros _]. apply frames_bind; [apply frames_applyDiff|auto].
Qed.

Lemma frames_pull wall rem : frames (pull repo wall rem).
Proof.
  unfold pull. apply frames_bind; [by intros w|intros since].
  apply frames_bind; [by apply frames_on_transport, pull_law|intros [ds|e]]; [|frames].
  apply frames_bind; [apply frames_pull_loop|intros t]. destruct ds; [frames|by apply frames_modify].
Qed.

Lemma frames_ping rem : frames (ping_part rem).
Proof.
  unfold ping_part. apply frames_bind; [apply frames_on_transport, ping_law|]. frames.
Qed.

Lemma frames_finish now rem : frames (finish_part now rem).
Proof. unfold finish_part. frames. Qed.

(** ** The delivery invariant

    [base] diffs of all those enqueued have been trimmed.  A remote whose cursor
    is [k] has received what passes its filter among the first [base + k], and
    those of its pending batch once that is sent. *)

Context (init : string → list Diff).

Definition position (w : World) (fl : option flight) (n : string) (k : nat) (done : nat) : Prop :=
  cursor_of w n = Z.of_nat k ∧ (k ≤ length (queue w))%nat ∧
  match fl with
  | None => done = k
  | Some f => f_cursor f = Z.of_nat k ∧ f_pending f `prefix_of` drop k (queue w) ∧
              done = (k + if f_sent f then length (f_pending f) else 0)%nat
  end.

Definition received (rem : Remote) (enq : list Diff) : list Diff :=
  init (TransportRef rem) ++ List.filter (passes rem) enq.

Definition delivered (base : nat) (enq : list Diff) (w : World) (fl : option flight) (n : string) (rem : Remote) : Prop :=
  ∃ k done, position w fl n k done ∧ log_of w (TransportRef rem) = Some (received rem (take (base + done) enq)).

Record dinv (base : nat) (enq : list Diff) (c : cstate) : Prop := {
  d_panic : panicked c = false;
  d_base : (base ≤ length enq)%nat;
  d_queue : queue (cw c) = drop base enq;
  d_name n rem : remotes (cw c) !! n = Some rem → Name rem = n;
  d_inj n1 n2 r1 r2 : remotes (cw c) !! n1 = Some r1 → remotes (cw c) !! n2 = Some r2 →
    TransportRef r1 = TransportRef r2 → n1 = n2;
  d_rem n rem : remotes (cw c) !! n = Some rem → delivered base enq (cw c) (inflight c !! n) n rem;
}.

Lemma position_done w fl n k done : position w fl n k done → (done ≤ length (queue w))%nat.
Proof.
  intros (_&Hk&Hfl). destruct fl as [[cur pend []]|]; simpl in *; [|lia|lia].
  destruct Hfl as (_&Hp%prefix_length&->). rewrite length_drop in Hp. lia.
Qed.

Lemma cursor_of_frame w w' n : frame w w' → cursor_of w' n = cursor_of w n.
Proof. intros (_&_&Hc&_). unfold cursor_of. by rewrite Hc. Qed.

Lemma delivered_frame base enq w w' fl n rem :
  frame w w' → delivered base enq w fl n rem → delivered base enq w' fl n rem.
Proof.
  intros Hf (k&dn&Hp&Hl). pose proof Hf as (_&Hq&_&Hlog). exists k, dn. rewrite Hlog. split; [|done].
  unfold position. by rewrite (cursor_of_frame _ _ n Hf), Hq.
Qed.

Lemma dinv_frame base enq c w' :
  dinv base enq c → frame (cw c) w' → dinv base enq (mkC w' (inflight c) false).
Proof.
  intros [Hp Hb Hq Hn Hi Hr] Hf. pose proof Hf as (Hrem&Hqu&_&_).
  split; simpl; rewrite ?Hrem, ?Hqu; try done.
  intros n rem Hrn. by eapply delivered_frame, Hr.
Qed.

Lemma dinv_idle base enq c n m c' :
  dinv base enq c → (∀ rem, frames (m rem)) → (∀ rem w, is_Some (log_of w (TransportRef rem)) → is_ok (m rem w).1 = true) →
  idle_step c n m = Some c' → dinv base enq c'.
Proof.
  intros Hd Hf Hok. unfold idle_step. destruct (remotes (cw c) !! n) as [rem|] eqn:Er; [|done]. simpl.
  destruct (inflight c !! n); [done|]. specialize (Hf rem (cw c)).
  destruct (d_rem _ _ _ Hd n rem Er) as (k&dn&_&Hlog).
  specialize (Hok rem (cw c) ltac:(by rewrite Hlog)).
  destruct (m rem (cw c)) as [[a|e] w']; simpl in *; [|done]. intros [= <-].
  rewrite (d_panic _ _ _ Hd). by apply dinv_frame.
Qed.

(** Sections that reach their transport do not panic. *)
Lemma on_transport_ok {A} ref (m : st Tr string A) w :
  is_Some (log_of w ref) → ∃ r t', on_transport ref m w = (Ok r, set_net (<[ref := t']> (net w)) w).
Proof.
  unfold log_of, on_transport. intros [x Hx]. destruct (net w !! ref) as [t|]; [|done].
  destruct (m t) as [r t']. eauto.
Qed.

Definition total {A} (m : st World sync_err A) : Prop := ∀ w, is_ok (m w).1 = true.

Lemma total_bind {A B} (m : st World sync_err A) (k : A → st World sync_err B) :
  total m → (∀ a, total (k a)) → total (m ≫= k).
Proof.
  intros Hm Hk w. unfold mbind, st_bind. specialize (Hm w). destruct (m w) as [[a|e] w1]; [apply Hk|done].
Qed.

Lemma total_on_repo {A} (m : st R Domain.error A) : total (on_repo m).
Proof. intros w. unfold on_repo. by destruct (m (entities w)). Qed.

Lemma total_applyDiff d : total (applyDiff repo d).
Proof.
  unfold applyDiff. destruct (After d) as [b|].
  - destruct (Unmarshal b); [|done]. apply total_bind; [apply total_on_repo|intros [?|?]]; [done|].
    apply total_bind; [apply total_on_repo|intros [?|?]]; done.
  - apply total_bind; [apply total_on_repo|intros [?|?]]; done.
Qed.

Lemma total_pull_loop wall ds t : total (pull_loop repo wall ds t).
Proof.
  revert wall t; induction ds as [|d ds IH]; intros wall t; simpl; [done|].
  apply total_bind; [done|intros _]. apply total_bind; [apply total_applyDiff|auto].
Qed.

Lemma pull_ok wall rem w : is_Some (log_of w (TransportRef rem)) → is_ok (pull repo wall rem w).1 = true.
Proof.
  intros H. unfold pull, gets, mbind, st_bind.
  destruct (on_transport_ok (TransportRef rem) (Pull (default zeroTS (pulls w !! Name rem))) w H) as (r&t'&->).
  destruct r as [ds|e]; [|done].
  pose proof (total_pull_loop wall ds zeroTS (set_net (<[TransportRef rem := t']> (net w)) w)) as Ht.
  destruct (pull_loop repo wall ds zeroTS _) as [[a|e] w1]; [|done]. by destruct ds.
Qed.

Lemma ping_ok rem w : is_Some (log_of w (TransportRef rem)) → is_ok ((ping_part rem;; mret tt) w).1 = true.
Proof.
  intros H. unfold ping_part, mbind, st_bind.
  destruct (on_transport_ok (TransportRef rem) Ping w H) as (r&t'&->). by destruct r.
Qed.

(** ** The steps that move the queue, a cursor or a log *)

Lemma dinv_enqueue base enq c d :
  dinv base enq c → calm (AEnqueue d) c = true →
  dinv base (enq ++ [d]) (mkC (Enqueue d (cw c)).2 (inflight c) false).
Proof.
  intros [Hp Hb Hq Hn Hi Hr]. unfold calm. intros Hcap%Z.ltb_lt.
  assert (queue (Enqueue d (cw c)).2 = queue (cw c) ++ [d]) as Hq'.
  { unfold Enqueue, modify; simpl. by destruct (Z.leb_spec maxQueueSize (Z.of_nat (length (queue (cw c))))); [lia|]. }
  split; simpl; try done.
  - rewrite length_app. lia.
  - etransitivity; [exact Hq'|]. rewrite Hq. by rewrite drop_app_le.
  - intros n rem Hrn. destruct (Hr n rem Hrn) as (k&dn&Hpos&Hl). exists k, dn. split.
    + destruct Hpos as (Hc&Hk&Hfl). split_and!; [done| |].
      * setoid_rewrite Hq'. rewrite length_app. lia.
      * destruct (inflight c !! n) as [f|]; [|done]. destruct Hfl as (?&?&?). split_and!; [done| |done].
        setoid_rewrite Hq'. rewrite drop_app_le by done. auto with kit.
    + apply position_done in Hpos. rewrite Hq, length_drop in Hpos.
      rewrite take_app_le by lia. exact Hl.
Qed.

Lemma dinv_begin base enq c n c' :
  dinv base enq c → cstep (ABegin n) c = Some c' → dinv base enq c'.
Proof.
  intros Hd. pose proof Hd as [Hp Hb Hq Hn Hi Hr]. unfold cstep. rewrite Hp.
  destruct (remotes (cw c) !! n) as [rem|] eqn:Er; [|done]. simpl.
  destruct (inflight c !! n) eqn:Ef; [done|]. destruct (Hr n rem Er) as (k&dn&Hpos&Hl).
  rewrite Ef in Hpos. destruct Hpos as (Hc&Hk&Hdn). unfold push_begin. rewrite (Hn _ _ Er), Hc.
  rewrite (proj2 (Z.leb_le 0 (Z.of_nat k))), (proj2 (Z.leb_le (Z.of_nat k) _)) by lia. simpl.
  rewrite Nat2Z.id. intros [= <-].
  destruct (drop k (queue (cw c))) as [|d pend] eqn:Edrop; [destruct c; simpl in *; by subst|].
  split; simpl; try done. intros n' rem' Er'. destruct (decide (n = n')) as [<-|].
  - rewrite lookup_insert_eq. simplify_eq. exists k, k. split; [|done]. split_and!; [done..| |]; simpl; [|lia].
    by rewrite Edrop.
  - rewrite lookup_insert_ne by done. by apply Hr.
Qed.

Lemma take_prefix_drop (l pend : list Diff) k :
  pend `prefix_of` drop k l → take (k + length pend) l = take k l ++ pend.
Proof.
  intros [r Hr]. destruct (decide (k ≤ length l)%nat).
  - assert (l = take k l ++ pend ++ r) as Hl by (by rewrite <- Hr, take_drop).
    rewrite Hl at 1. rewrite take_app_ge; rewrite length_take; [|lia]. f_equal.
    replace (k + length pend - k `min` length l)%nat with (length pend) by lia.
    by rewrite take_app_length.
  - rewrite drop_ge in Hr by lia. destruct pend, r; try done. rewrite app_nil_r, !take_ge; simpl; done || lia.
Qed.

Lemma received_snoc rem (a b : list Diff) :
  received rem (a ++ b) = received rem a ++ List.filter (passes rem) b.
Proof. unfold received. by rewrite List.filter_app, (assoc_L (++)). Qed.

Lemma push_send_cases rem pend w :
  is_Some (log_of w (TransportRef rem)) →
  ∃ b w', push_send rem pend w = (Ok b, w') ∧ remotes w' = remotes w ∧ queue w' = queue w ∧
    cursors w' = cursors w ∧
    log_of w' (TransportRef rem) =
      ((.++ if (b : bool) then List.filter (passes rem) pend else []) <$> log_of w (TransportRef rem)) ∧
    ∀ ref, ref ≠ TransportRef rem → log_of w' ref = log_of w ref.
Proof.
  intros [l Hl]. unfold push_send. destruct (List.filter (passes rem) pend) as [|d ds] eqn:Ef.
  { exists true, w. rewrite Hl. simpl. split_and!; try done. by rewrite app_nil_r. }
  unfold mbind, st_bind, on_transport. unfold log_of in Hl. destruct (net w !! TransportRef rem) as [t|] eqn:Et; [|done].
  pose proof (push_law (d :: ds) t) as Hpush. destruct (Push (d :: ds) t) as [[u|e] t'];
    eexists _, _; (split; [done|]); simpl; split_and!; try done; unfold log_of; simpl.
  - by rewrite lookup_insert_eq, Et; simpl; rewrite Hpush.
  - intros ref Href. by rewrite lookup_insert_ne.
  - by rewrite lookup_insert_eq, Et; simpl; rewrite Hpush, app_nil_r.
  - intros ref Href. by rewrite lookup_insert_ne.
Qed.

Lemma dinv_send base enq c n c' :
  dinv base enq c → cstep (ASend n) c = Some c' → dinv base enq c'.
Proof.
  intros Hd. pose proof Hd as [Hp Hb Hq Hn Hi Hr]. unfold cstep. rewrite Hp.
  destruct (remotes (cw c) !! n) as [rem|] eqn:Er; [|done]. simpl.
  destruct (inflight c !! n) as [[cur pend []]|] eqn:Ef; try done.
  destruct (Hr n rem Er) as (k&dn&Hpos&Hl). rewrite Ef in Hpos.
  destruct Hpos as (Hc&Hk&Hcur&Hpre&Hdn); simpl in *.
  destruct (push_send_cases rem pend (cw c)) as (b&w'&->&Hrem&Hqu&Hcu&Hlog&Hother); [by rewrite Hl|].
  assert (Hoth : ∀ n' rem' fl, n ≠ n' → remotes (cw c) !! n' = Some rem' →
            fl = inflight c !! n' → delivered base enq w' fl n' rem').
  { intros n' rem' fl Hne Er' ->. destruct (Hr n' rem' Er') as (k'&dn'&Hpos'&Hl').
    exists k', dn'. rewrite Hother by (intros Heq; apply Hne; eauto). split; [|done].
    unfold position, cursor_of in *. by rewrite Hcu, Hqu. }
  destruct b; intros [= <-]; split; simpl; rewrite ?Hrem, ?Hqu; try done; intros n' rem' Er';
    (destruct (decide (n = n')) as [<-|]; [simplify_eq|]);
    rewrite ?lookup_insert_eq, ?lookup_delete_eq, ?lookup_insert_ne, ?lookup_delete_ne by done; try by eapply Hoth.
  - exists k, (k + length pend)%nat. split.
    + unfold position, cursor_of in *. by rewrite Hcu, Hqu.
    + rewrite Hlog, Hl. simpl. f_equal. rewrite <- received_snoc. f_equal.
      rewrite Nat.add_0_r, Nat.add_assoc. rewrite Hq, drop_drop in Hpre. by rewrite take_prefix_drop.
  - exists k, k. split.
    + unfold position, cursor_of in *. by rewrite Hcu, Hqu.
    + rewrite Hlog, Hl. simpl. by rewrite app_nil_r, Nat.add_0_r.
Qed.

Lemma dinv_commit base enq c n c' :
  dinv base enq c → cstep (ACommit n) c = Some c' → dinv base enq c'.
Proof.
  intros Hd. pose proof Hd as [Hp Hb Hq Hn Hi Hr]. unfold cstep. rewrite Hp.
  destruct (remotes (cw c) !! n) as [rem|] eqn:Er; [|done]. simpl.
  destruct (inflight c !! n) as [[cur pend []]|] eqn:Ef; try done.
  destruct (Hr n rem Er) as (k&dn&Hpos&Hl). rewrite Ef in Hpos. pose proof (position_done _ _ _ _ _ Hpos) as Hle.
  destruct Hpos as (Hc&Hk&Hcur&Hpre&Hdn); simpl in *. intros [= <-]. split; simpl; try done.
  intros n' rem' Er'. unfold delivered, position, cursor_of; simpl. rewrite (Hn _ _ Er).
  destruct (decide (n = n')) as [<-|].
  - simplify_eq. exists (k + length pend)%nat, (k + length pend)%nat.
    rewrite lookup_delete_eq, lookup_insert_eq. simpl. split; [|done]. split_and!; [lia|done|done].
  - rewrite lookup_delete_ne, lookup_insert_ne by done. by apply Hr.
Qed.

(** The minimum [trimQueue] computes is below every registered cursor. *)
Lemma min_cursor_le (w : World) (l : list Remote) m :
  let mn := foldr (λ rem m, Z.min (cursor_of w (Name rem)) m) m l in
  mn ≤ m ∧ ∀ rem, rem ∈ l → mn ≤ cursor_of w (Name rem).
Proof.
  induction l as [|r l [IH1 IH2]]; simpl; [split; [lia|set_solver]|].
  split; [lia|]. intros rem [->|Hin]%elem_of_cons; [lia|]. specialize (IH2 rem Hin). lia.
Qed.

Lemma elem_of_rs_List (rs : RemoteSet) n rem : rs !! n = Some rem → rem ∈ rs_List rs.
Proof.
  intros H. apply list_elem_of_fmap. exists (n, rem). split; [done|]. by apply elem_of_map_to_list.
Qed.

Lemma dinv_trim base enq c n c' :
  dinv base enq c → inflight c = ∅ → cstep (ATrim n) c = Some c' → ∃ base', dinv base' enq c'.
Proof.
  intros Hd Hfl. pose proof Hd as [Hp Hb Hq Hn Hi Hr]. unfold cstep, idle_step. rewrite Hp, Hfl.
  destruct (remotes (cw c) !! n) as [rem|] eqn:Er; [|done]. rewrite lookup_empty. simpl.
  intros [= <-].
  destruct (min_cursor_le (cw c) (rs_List (remotes (cw c))) (Z.of_nat (length (queue (cw c))))) as [Hm1 Hm2].
  set (mn := foldr _ _ _) in *. destruct (Z.ltb_spec 0 mn) as [Hpos|].
  2:{ exists base. destruct c; simpl in *; by subst. }
  exists (base + Z.to_nat mn)%nat. split; simpl; try done.
  - rewrite Hq, length_drop in Hm1. lia.
  - by rewrite Hq, drop_drop.
  - intros n' rem' Er'. rewrite lookup_empty. destruct (Hr n' rem' Er') as (k&dn&(Hc&Hk&Hdn)&Hl).
    rewrite Hfl, lookup_empty in Hdn. subst dn.
    specialize (Hm2 rem' (elem_of_rs_List _ _ _ Er')). rewrite (Hn _ _ Er'), Hc in Hm2.
    exists (k - Z.to_nat mn)%nat, (k - Z.to_nat mn)%nat. split.
    + unfold position, cursor_of in *; simpl. rewrite lookup_fmap, length_drop.
      destruct (cursors (cw c) !! n') as [z|] eqn:Ez; simpl in *; [|lia]. split_and!; lia.
    + by replace (base + Z.to_nat mn + (k - Z.to_nat mn))%nat with (base + k)%nat by lia.
Qed.

Lemma dinv_step base enq c a c' :
  dinv base enq c → calm a c = true → cstep a c = Some c' →
  ∃ base', dinv base' (enq ++ enqueued [a]) c'.
Proof.
  intros Hd Hcalm Hs. pose proof (d_panic _ _ _ Hd) as Hp. destruct a; simpl enqueued; rewrite ?app_nil_r.
  - unfold cstep in Hs. rewrite Hp in Hs. simplify_eq. exists base. by apply dinv_enqueue.
  - exists base. unfold cstep in Hs. rewrite Hp in Hs. eapply dinv_idle; [done| |apply ping_ok|done].
    intros rem. apply frames_bind; [apply frames_ping|by intros ? w].
  - exists base. by eapply dinv_begin.
  - exists base. by eapply dinv_send.
  - exists base. by eapply dinv_commit.
  - exists base. unfold cstep in Hs. rewrite Hp in Hs. eapply dinv_idle; [done| |apply pull_ok|done].
    apply frames_pull.
  - apply bool_decide_eq_true in Hcalm. by eapply dinv_trim.
  - exists base. unfold cstep in Hs. rewrite Hp in Hs. eapply dinv_idle; [done| | |done].
    + apply frames_finish.
    + done.
Qed.

Lemma dinv_run actions : ∀ base enq c c',
  dinv base enq c → calm_run actions c = true → crun actions c = Some c' →
  ∃ base', dinv base' (enq ++ enqueued actions) c'.
Proof.
  induction actions as [|a actions IH]; intros base enq c c' Hd Hcalm Hrun; simpl in *.
  { simplify_eq. exists base. by rewrite app_nil_r. }
  apply andb_true_iff in Hcalm as [Hca Hcr]. destruct (cstep a c) as [c1|] eqn:Es; [|done]. simpl in Hrun.
  destruct (dinv_step _ _ _ _ _ Hd Hca Es) as [base1 Hd1].
  destruct (IH _ _ _ _ Hd1 Hcr Hrun) as [base2 Hd2]. exists base2. rewrite <- (assoc_L (++)) in Hd2.
  by destruct a.
Qed.

(** ** [syncOnce] is a schedule *)

(** The rest of [push] after its first section. *)
Definition push_rest (rem : Remote) (cur : Z) (pend : list Diff) : st World sync_err unit :=
  match pend with
  | [] => mret tt
  | _ => ok ← push_send rem pend; if (ok : bool) then push_commit rem cur pend else mret tt
  end.

Lemma cstep_idle a n m w w' :
  (∀ c, panicked c = false → cstep a c = idle_step c n m) →
  ∀ rem, remotes w !! n = Some rem → m rem w = (Ok tt, w') →
  cstep a (mkC w ∅ false) = Some (mkC w' ∅ false).
Proof.
  intros Ha rem Hr Hm. rewrite Ha by done. unfold idle_step. simpl. rewrite Hr. simpl.
  by rewrite lookup_empty, Hm.
Qed.

Lemma crun_app l1 l2 c : crun (l1 ++ l2) c = c' ← crun l1 c; crun l2 c'.
Proof. revert c; induction l1 as [|a l1 IH]; intros c; simpl; [done|]. by destruct (cstep a c); simpl. Qed.

Lemma cstep_begin n rem w cur pend :
  remotes w !! n = Some rem → push_begin rem w = (Ok (cur, pend), w) →
  cstep (ABegin n) (mkC w ∅ false) =
    Some (mkC w (match pend with [] => ∅ | _ => {[n := mkFlight cur pend false]} end) false).
Proof. intros Hr Hb. unfold cstep; simpl. rewrite Hr. simpl. rewrite lookup_empty, Hb. by destruct pend. Qed.

Lemma cstep_send n rem w cur pend b w' :
  remotes w !! n = Some rem → push_send rem pend w = (Ok b, w') →
  cstep (ASend n) (mkC w {[n := mkFlight cur pend false]} false) =
    Some (mkC w' (if (b : bool) then {[n := mkFlight cur pend true]} else ∅) false).
Proof.
  intros Hr Hs. unfold cstep; simpl. rewrite Hr. simpl. rewrite lookup_singleton_eq, Hs.
  destruct b; [by rewrite insert_singleton_eq|by rewrite delete_singleton_eq].
Qed.

Lemma cstep_commit n rem w cur pend :
  remotes w !! n = Some rem →
  cstep (ACommit n) (mkC w {[n := mkFlight cur pend true]} false) = Some (mkC (push_commit rem cur pend w).2 ∅ false).
Proof. intros Hr. unfold cstep; simpl. rewrite Hr. simpl. by rewrite lookup_singleton_eq, delete_singleton_eq. Qed.

Lemma push_schedule rem n w w' :
  remotes w !! n = Some rem → push rem w = (Ok tt, w') → remotes w' = remotes w →
  ∃ l, l ⊆ [ABegin n; ASend n; ACommit n] ∧ crun l (mkC w ∅ false) = Some (mkC w' ∅ false).
Proof.
  intros Hr Hpush Hrem. unfold push, mbind, st_bind, mret, st_ret in Hpush.
  destruct (push_begin rem w) as [[[cur pend]|e] w1] eqn:Eb; [|done]. simpl in Hpush.
  assert (w1 = w) as ->. { unfold push_begin in Eb. destruct (_ && _) in Eb; by simplify_eq. }
  pose proof (cstep_begin _ _ _ _ _ Hr Eb) as Hb.
  destruct pend as [|d pend].
  { simplify_eq. exists [ABegin n]. split; [set_solver|]. cbn [crun]. by rewrite Hb. }
  destruct (push_send rem (d :: pend) w) as [[b|e] w2] eqn:Es; [|done].
  pose proof (cstep_send n _ _ cur _ _ _ Hr Es) as Hs. destruct b; [apply (f_equal snd) in Hpush; simpl in Hpush|simplify_eq].
  - exists [ABegin n; ASend n; ACommit n]. split; [done|]. cbn [crun]. rewrite Hb. cbn [mbind option_bind].
    rewrite Hs. cbn [mbind option_bind]. erewrite (cstep_commit n rem); [by rewrite <- Hpush|].
    rewrite <- Hr. f_equal. by rewrite <- Hrem, <- Hpush.
  - exists [ABegin n; ASend n]. split; [set_solver|]. cbn [crun]. rewrite Hb. cbn [mbind option_bind].
    by rewrite Hs.
Qed.

Definition keeps_remotes {A} (m : st World sync_err A) : Prop := ∀ w, remotes (m w).2 = remotes w.

Lemma frames_keeps {A} (m : st World sync_err A) : frames m → keeps_remotes m.
Proof. intros H w. apply H. Qed.

Lemma push_keeps rem : keeps_remotes (push rem).
Proof.
  intros w. unfold push, mbind, st_bind, push_begin. destruct (_ && _); [|done]. simpl.
  destruct (drop _ (queue w)) as [|d pend]; [done|]. unfold push_send.
  destruct (List.filter (passes rem) (d :: pend)); [done|]. unfold mbind, st_bind, on_transport.
  destruct (net w !! TransportRef rem) as [t|]; [|done]. by destruct (Push _ t) as [[]].
Qed.

Lemma syncOnce_split now wall rem w :
  syncOnce repo now wall rem w =
  (b ← ping_part rem;
   if (b : bool) then
     (if bool_decide (RMode rem = PullOnly) then mret tt else push rem);;
     (if bool_decide (RMode rem = PushOnly) then mret tt else pull repo wall rem);;
     trimQueue;; finish_part now rem
   else mret tt) w.
Proof.
  unfold syncOnce, ping_part, finish_part, mbind, st_bind, on_transport.
  destruct (net w !! TransportRef rem) as [t|]; [|done]. by destruct (Ping t) as [[]].
Qed.

Lemma crun_one a c c' : cstep a c = Some c' → crun [a] c = Some c'.
Proof. intros H. cbn [crun]. by rewrite H. Qed.

Lemma crun_seq l1 l2 c1 c2 c3 : crun l1 c1 = Some c2 → crun l2 c2 = Some c3 → crun (l1 ++ l2) c1 = Some c3.
Proof. intros H1 H2. by rewrite crun_app, H1. Qed.

(** The actions of the goroutine of [n]. *)
Definition goroutine (a : action) : option string :=
  match a with
  | AEnqueue _ => None
  | APing n | ABegin n | ASend n | ACommit n | APull _ n | ATrim n | AFinish _ n => Some n
  end.

(** A [syncOnce] that returns is one of the schedules of its goroutine. *)
Lemma sync_once_schedule now wall rem n w w' :
  remotes w !! n = Some rem → syncOnce repo now wall rem w = (Ok tt, w') →
  ∃ l, Forall (λ a, goroutine a = Some n) l ∧ crun l (mkC w ∅ false) = Some (mkC w' ∅ false).
Proof.
  intros Hr. rewrite syncOnce_split. intros (b&w1&Hping&H)%st_bind_ok.
  assert (remotes w1 !! n = Some rem) as Hr1.
  { rewrite <- Hr. f_equal. pose proof (frames_keeps _ (frames_ping rem) w) as Hk. by rewrite Hping in Hk. }
  assert (crun [APing n] (mkC w ∅ false) = Some (mkC w1 ∅ false)) as C1.
  { apply crun_one. apply (cstep_idle _ n (λ rem, ping_part rem;; mret tt) _ _) with rem; [|done|].
    - intros c Hc. unfold cstep. by rewrite Hc.
    - unfold mbind, st_bind. by rewrite Hping. }
  destruct b; [|injection H as <-; exists [APing n]; split; [by repeat constructor|done]].
  apply st_bind_ok in H as ([]&w2&Hpush&H). apply st_bind_ok in H as ([]&w3&Hpull&H).
  apply st_bind_ok in H as ([]&w4&Htrim&Hfin).
  assert (∃ l, l ⊆ [ABegin n; ASend n; ACommit n] ∧ crun l (mkC w1 ∅ false) = Some (mkC w2 ∅ false) ∧
               remotes w2 = remotes w1) as (l2&Hl2&C2&Hk2).
  { destruct (bool_decide (RMode rem = PullOnly)).
    - injection Hpush as <-. exists []. split_and!; [set_solver|done|done].
    - pose proof (push_keeps rem w1) as Hk. rewrite Hpush in Hk.
      destruct (push_schedule rem n w1 w2) as (l&?&?); eauto. }
  rewrite <- Hk2 in Hr1.
  assert (∃ l, l ⊆ [APull wall n] ∧ crun l (mkC w2 ∅ false) = Some (mkC w3 ∅ false) ∧
               remotes w3 = remotes w2) as (l3&Hl3&C3&Hk3).
  { destruct (bool_decide (RMode rem = PushOnly)).
    - injection Hpull as <-. exists []. split_and!; [set_solver|done|done].
    - pose proof (frames_keeps _ (frames_pull wall rem) w2) as Hk. rewrite Hpull in Hk.
      exists [APull wall n]. split_and!; [set_solver| |done]. apply crun_one.
      eapply cstep_idle; [|exact Hr1|exact Hpull]. intros c Hc. unfold cstep. by rewrite Hc. }
  rewrite <- Hk3 in Hr1.
  assert (crun [ATrim n] (mkC w3 ∅ false) = Some (mkC w4 ∅ false)) as C4.
  { apply crun_one. apply (cstep_idle _ n (λ _, trimQueue) _ _) with rem; [|done|done].
    intros c Hc. unfold cstep. by rewrite Hc. }
  assert (remotes w4 !! n = Some rem) as Hr4.
  { rewrite <- Hr1. f_equal. unfold trimQueue, modify in Htrim. injection Htrim as <-. by destruct (0 <? _). }
  exists ([APing n] ++ l2 ++ l3 ++ [ATrim n] ++ [AFinish now n]). split.
  - rewrite !Forall_app. split_and!; try by repeat constructor.
    + apply Forall_forall. intros a Ha%Hl2. set_solver.
    + apply Forall_forall. intros a Ha%Hl3. set_solver.
  - eapply crun_seq; [exact C1|]. eapply crun_seq; [exact C2|]. eapply crun_seq; [exact C3|].
    eapply crun_seq; [exact C4|]. apply crun_one. eapply cstep_idle; [|exact Hr4|exact Hfin].
    intros c Hc. unfold cstep. by rewrite Hc.
Qed.

End laws.

(** ** The theorem *)

(** A replicator before its first diff, its remotes wired to transports of
    their own. *)
Record fresh (w : World) : Prop := {
  fresh_queue : queue w = [];
  fresh_cursors : cursors w = ∅;
  fresh_name n rem : remotes w !! n = Some rem → Name rem = n;
  fresh_wired n rem : remotes w !! n = Some rem → is_Some (net w !! TransportRef rem);
  fresh_inj n1 n2 r1 r2 : remotes w !! n1 = Some r1 → remotes w !! n2 = Some r2 →
    TransportRef r1 = TransportRef r2 → n1 = n2;
}.

Definition recorded (sent : Tr → list Diff) (w : World) (ref : string) : list Diff :=
  default [] (sent <$> net w !! ref).

Lemma fresh_dinv sent w : fresh w → dinv sent (recorded sent w) 0 [] (mkC w ∅ false).
Proof.
  intros [Hq Hc Hn Hw Hi]. split; simpl; try done. intros n rem Hr. exists 0%nat, 0%nat. split.
  - unfold position, cursor_of. rewrite Hc, !lookup_empty. simpl. split_and!; [done|lia|done].
  - destruct (Hw n rem Hr) as [t Ht]. unfold log_of, received, recorded. rewrite Ht. simpl. by rewrite app_nil_r.
Qed.


End Delivery.

(** ** Outside the conditions *)

(** A full queue drops its first entry and leaves the cursors where they are, so
    a remote that has acknowledged some diffs skips the next one it was to be
    sent, while the diff that left the queue was already delivered to it. *)
Theorem enqueue_full_skips_unsent {R Tr} (w : World R Tr) rem acked d0 rest d :
  queue w = acked ++ d0 :: rest → acked ≠ [] →
  Z.of_nat (length (queue w)) = maxQueueSize →
  cursor_of w (Name rem) = Z.of_nat (length acked) →
  (push_begin rem w).1 = Ok (Z.of_nat (length acked), d0 :: rest) ∧
  (push_begin rem (Enqueue d w).2).1 = Ok (Z.of_nat (length acked), rest ++ [d]).
Proof.
  intros Hq Hne Hmax Hc. destruct acked as [|a acked]; [done|].
  assert (queue (Enqueue d w).2 = acked ++ d0 :: rest ++ [d]) as Hq'.
  { unfold Enqueue, modify; simpl. rewrite Hmax, Z.leb_refl. rewrite Hq. simpl. by rewrite drop_0, <- (assoc_L (++)). }
  assert (cursor_of (Enqueue d w).2 (Name rem) = Z.of_nat (length (a :: acked))) as Hc' by exact Hc.
  unfold push_begin. rewrite Hc, Hc', Hq', Hq. rewrite !length_app. simpl length. rewrite length_app.
  rewrite (proj2 (Z.leb_le 0 _)), !(proj2 (Z.leb_le _ _)) by (simpl; lia). simpl andb. cbn [fst].
  rewrite Nat2Z.id. split; do 2 f_equal.
  - by rewrite (drop_app_length (a :: acked)).
  - rewrite (drop_app_ge acked) by lia. by replace (S (length acked) - length acked)%nat with 1%nat by lia.
Qed.

Lemma enqueue_full_skips_unsent_witness :
  let d := mkDiff "e" "" OpUpdate None None zeroTS "" in
  let rem := mkRemote "a" "t" Bidirectional None in
  let w : World unit MemoryTransport :=
    set_cursors {["a" := 1]} (set_queue (replicate (Z.to_nat 10000) d) (NewReplicator tt ∅)) in
  (push_begin rem (Enqueue d w).2).1 = Ok (1, replicate (Z.to_nat 9998) d ++ [d]).
Proof.
  intros d rem w. apply (enqueue_full_skips_unsent w rem [d] d (replicate (Z.to_nat 9998) d) d).
  - vm_compute. reflexivity.
  - discriminate.
  - vm_compute. reflexivity.
  - reflexivity.
Defined.

Module DeliveryExamples.

#[export] Instance string_json : EntityJSON string := {| Marshal := Some; Unmarshal := Some; zeroT := "" |}.

Definition key (e : string) : string := String.substring 0 1 e.
Definition repo : Repository (gmap string string) string := map_repository key.

Definition rem_a : Remote := mkRemote "a" "ta" PushOnly None.
Definition rem_b : Remote := mkRemote "b" "tb" PushOnly None.

Definition start : World (gmap string string) MemoryTransport :=
  (Start (WithRemote rem_b (WithRemote rem_a
    (NewReplicator ∅ {["ta" := NewMemoryTransport; "tb" := NewMemoryTransport]})))).2.

Definition d (n : Z) : Diff := mkDiff "e" "" Merge.OpUpdate None (Some "e1") (mkTS n 0 "x") "x".

Lemma start_fresh : fresh start.
Proof.
  assert (remotes start = {["a" := rem_a; "b" := rem_b]}) as Hr by (vm_compute; reflexivity).
  assert (∀ n rem, remotes start !! n = Some rem → (n, rem) = ("a", rem_a) ∨ (n, rem) = ("b", rem_b)) as Hcase.
  { intros n rem. rewrite Hr.
    intros [[<- <-]|[_ [<- <-]%lookup_singleton_Some]]%lookup_insert_Some; auto. }
  split.
  - reflexivity.
  - reflexivity.
  - intros n rem [H|H]%Hcase; by simplify_eq.
  - intros n rem [H|H]%Hcase; simplify_eq; eexists; vm_compute; reflexivity.
  - intros n1 n2 r1 r2 [H1|H1]%Hcase [H2|H2]%Hcase; simplify_eq; done.
Qed.

(** Both remotes are sent [d 1]; then [b] takes [d 2] and, before it commits, [a]
    sends [d 2] as well and trims. *)
Definition racing : list action :=
  [AEnqueue (d 1); ABegin "b"; ASend "b"; ACommit "b";
   AEnqueue (d 2); ABegin "b";
   ABegin "a"; ASend "a"; ACommit "a"; ATrim "a";
   ASend "b"; ACommit "b"; ABegin "b"].

Definition orderly : list action :=
  [AEnqueue (d 1); APing "b"; ABegin "b"; ASend "b"; AEnqueue (d 2); ACommit "b";
   ABegin "a"; ABegin "b"; ASend "b"; ASend "a"; ACommit "a"; ACommit "b"; ATrim "a"; AEnqueue (d 3)].

End DeliveryExamples.

#[local] Existing Instance DeliveryExamples.string_json.

(** The trim of one remote's loop while another remote's push is in flight
    moves the queue under the cursor that push then commits: the next push of
    that remote slices out of bounds. *)
Theorem trim_race_panics :
  panicked <$> crun DeliveryExamples.repo DeliveryExamples.racing (mkC DeliveryExamples.start ∅ false) = Some true.
Proof. vm_compute. reflexivity. Qed.

(** Removing a remote does not stop its loop, and its cursor stays in the
    map that trims decrement: after another remote acknowledged more, the loop of
    the removed remote slices at a negative index. *)
Theorem removed_remote_panics :
  let once := syncOnce DeliveryExamples.repo 0 (λ _, 0) in
  fst ((Enqueue (DeliveryExamples.d 1);;
   once DeliveryExamples.rem_a;; once DeliveryExamples.rem_b;;
   Enqueue (DeliveryExamples.d 2);; once DeliveryExamples.rem_a;;
   RemoveRemote "b";; once DeliveryExamples.rem_a;;
   once DeliveryExamples.rem_b) DeliveryExamples.start) = Err Panic.
Proof. vm_compute. reflexivity. Qed.

