(* ===== verification/Convergence.v ===== *)
(** * From a service call to a replica (go/runtime/domain, go/runtime/sync)

    A primary node changes entities through its [Service]; the post-events reach
    its replicator over the bus, are queued as diffs and pushed to a transport
    from which a follower pulls and applies them.  The components are the ones
    of Bus.v, Domain.v, Topics.v, HLC.v, Merge.v and Replicator.v, wired together; the
    theorem is about the whole chain. *)

From S2P Require Import Prelude Topics Bus Domain HLC Merge Replicator.

Local Open Scope Z_scope.

(** [encoding/json] reads back the entities it wrote. *)
Class JSONRoundTrip (T : Type) `{EntityJSON T} :=
  json_roundtrip (e : T) : ∃ b, Marshal e = Some b ∧ Unmarshal b = Some e.

Section Convergence.
Context {T : Type} (GetID : T → string) `{EJ : EntityJSON T} `{RT : !JSONRoundTrip T}.

Abbreviation World := (Replicator.World (gmap string T) MemoryTransport).

Definition repo : Repository (gmap string T) T := map_repository GetID.

(** ** The primary's wiring *)

(** The repository of the node, seen from its world. *)
Definition at_entities {A} (m : st (gmap string T) Domain.error A) : st World Domain.error A := λ w,
  let '(r, x) := m (entities w) in (r, set_entities x w).

Definition node_repo : Repository World T := {|
  repo_Create e := at_entities (repo_Create repo e);
  repo_Get id := at_entities (repo_Get repo id);
  repo_List q := at_entities (repo_List repo q);
  repo_Update e := at_entities (repo_Update repo e);
  repo_Delete id := at_entities (repo_Delete repo id);
|}.

(** The handler [Start] subscribes; it returns nil. *)
Definition capture (wall : Z) : Handler (W:=World) (P:=payload T) (E:=Domain.error) := λ ev w,
  (Ok tt, (handleEvent repo wall (EvTopic ev) (EvPayload ev) w).2).

(** The bus between service and replicator, with the replicator's subscription
    to [<prefix>.*] and the default enforcement mode. *)
Definition node_bus (prefix : string) (wall : Z) : memBus :=
  (Subscribe (prefix ++ ".*")%string (capture wall) (New ModeWarn (λ _ w, w))).2.

(** Publishing through the bus, which has no asynchronous subscriber. *)
Definition bus_publish (wall : Z) : EventPublisher World T := λ _ topic src p w,
  match Publish (node_bus (subPrefix w) wall) (mkEvent topic src p) w with
  | (Ok _, w') => (Ok tt, w')
  | (Err (HandlerError e), w') => (Err e, w')
  | (Err _, w') => (Err (SubscriberError "bus"), w')
  end.

Lemma bus_publish_run wall ctx topic src p (w : World) :
  bus_publish wall ctx topic src p w =
    (Ok tt, if Match topic (subPrefix w ++ ".*")%string then (handleEvent repo wall topic p w).2 else w).
Proof.
  unfold bus_publish, Publish, node_bus, Subscribe, add_sub, New, checkTopic, matching. simpl.
  destruct (Validate topic); simpl; by destruct (Match topic _).
Qed.

Definition node_service (wall : Z) (tp : Topics) : Service World T :=
  mkService node_repo None (Some (bus_publish wall)) None tp.

(** ** Two nodes and a transport *)

Record pair := mkPair { primary : World; follower : World; wire : MemoryTransport }.

Definition ref : string := "wire".
Definition to_wire : Remote := mkRemote "out" ref PushOnly None.
Definition from_wire : Remote := mkRemote "in" ref PullOnly None.

Inductive step :=
| Request (now wall : Z) (ctx : Ctx) (req : request (T:=T))
| PushTick (now : Z)
| PullTick (now : Z) (wall : nat → Z)
| Link (up : bool).

Definition with_wire (m : MemoryTransport) (w : World) : World := set_net {[ref := m]} w.
Definition wire_of (w : World) (m : MemoryTransport) : MemoryTransport := default m (net w !! ref).

Definition pstep (tp : Topics) (s : step) (p : pair) : pair :=
  match s with
  | Request now wall ctx req =>
      mkPair (serve GetID (node_service wall tp) now ctx req (primary p)).2 (follower p) (wire p)
  | PushTick now =>
      let w := (syncOnce repo now (λ _, 0) to_wire (with_wire (wire p) (primary p))).2 in
      mkPair w (follower p) (wire_of w (wire p))
  | PullTick now wall =>
      let w := (syncOnce repo now wall from_wire (with_wire (wire p) (follower p))).2 in
      mkPair (primary p) w (wire_of w (wire p))
  | Link up => mkPair (primary p) (follower p) (SetAlive up (wire p))
  end.

Definition prun (tp : Topics) (steps : list step) (p : pair) : pair := foldl (flip (pstep tp)) p steps.

(** The queue of the primary has room at every request. *)
Fixpoint roomy (tp : Topics) (steps : list step) (p : pair) : bool :=
  match steps with
  | [] => true
  | s :: steps =>
      match s with
      | Request _ _ _ _ => Z.of_nat (length (queue (primary p))) <? maxQueueSize
      | _ => true
      end && roomy tp steps (pstep tp s p)
  end.

(** Requests name their entity. *)
Definition req_id (req : request (T:=T)) : string :=
  match req with RCreate e | RUpdate e => GetID e | RDelete id => id end.

Definition named (s : step) : Prop :=
  match s with Request _ _ _ req => req_id req ≠ "" | _ => True end.

Definition start (prefix : string) : pair :=
  mkPair
    (set_started true (WithRemote to_wire
       (mkWorld ∅ (NewClock "primary") prefix true [] ∅ ∅ ∅ false ∅ ∅ [])))
    (set_started true (WithRemote from_wire (NewReplicator ∅ ∅)))
    NewMemoryTransport.

(** ** What a diff does to a map of entities *)

Definition replay1 (m : gmap string T) (d : Diff) : gmap string T :=
  match After d with
  | None => delete (EntityID d) m
  | Some b => match Unmarshal b with Some e => <[GetID e := e]> m | None => m end
  end.

Definition replay (ds : list Diff) : gmap string T := foldl replay1 ∅ ds.

Lemma applyDiff_entities d (w : World) :
  ∃ pb, applyDiff repo d w = (Ok tt, set_published pb (set_entities (replay1 (entities w) d) w)).
Proof.
  unfold applyDiff, replay1, publishEvent, modify, on_repo, mbind, st_bind. destruct w; simpl.
  destruct (After d) as [b|]; simpl.
  - destruct (Unmarshal b) as [e|]; simpl; [|destruct has_bus; simpl; eexists; reflexivity].
    destruct (entities !! GetID e) as [e0|] eqn:E; simpl; [eexists; reflexivity|].
    rewrite E. simpl. eexists; reflexivity.
  - destruct (entities !! EntityID d) as [e0|] eqn:E; simpl; [eexists; reflexivity|].
    rewrite delete_id by done. destruct has_bus; simpl; eexists; reflexivity.
Qed.
(** ** The follower's tick *)

Definition later (t : Timestamp) (d : Diff) : Timestamp := if Before t (Stamp d) then Stamp d else t.

Lemma pull_loop_entities ds : ∀ wall t (w : World),
  ∃ w', pull_loop repo wall ds t w = (Ok (foldl later t ds), w') ∧
    entities w' = foldl replay1 (entities w) ds ∧
    remotes w' = remotes w ∧ pulls w' = pulls w ∧ net w' = net w.
Proof.
  induction ds as [|d ds IH]; intros wall t w; cbn [pull_loop foldl]; [by exists w|].
  rewrite (st_run _ _ _ tt (set_clock (HLC.Update (wall O) (Stamp d) (clock w)).2 w)) by done.
  destruct (applyDiff_entities d (set_clock (HLC.Update (wall O) (Stamp d) (clock w)).2 w)) as [pb E].
  run E.
  destruct (IH (λ k, wall (S k)) (later t d) (set_published pb (set_entities (replay1 (entities w) d)
              (set_clock (HLC.Update (wall O) (Stamp d) (clock w)).2 w)))) as (w'&E'&?&?&?&?).
  by exists w'.
Qed.

Definition watermark (w : World) : Timestamp := default zeroTS (pulls w !! "in").
Definition news (w : World) (m : MemoryTransport) : list Diff :=
  filter (λ d, Before (watermark w) (Stamp d) = true) (mem_diffs m).

Lemma pull_run wall m (w : World) :
  net w !! ref = Some m →
  ∃ w', pull repo wall from_wire w = (Ok tt, w') ∧ net w' !! ref = Some m ∧ remotes w' = remotes w ∧
    entities w' = foldl replay1 (entities w) (news w m) ∧
    watermark w' = match news w m with [] => watermark w | ds => foldl later zeroTS ds end.
Proof.
  intros Hm. unfold pull. rewrite (st_run _ _ _ (watermark w) w) by done.
  rewrite (st_run _ _ _ (Ok (news w m)) (set_net (<[ref := m]> (net w)) w)).
  2:{ unfold on_transport. simpl. by rewrite Hm. }
  destruct (pull_loop_entities (news w m) wall zeroTS (set_net (<[ref := m]> (net w)) w)) as (w'&E&He&Hr&Hp&Hn).
  run E. assert (net w' !! ref = Some m) as Hn' by (by rewrite Hn; apply lookup_insert_eq).
  destruct (news w m) as [|d ds]; eexists; (split; [reflexivity|]); split_and!; try done.
  - unfold watermark. by rewrite Hp.
  - unfold watermark. simpl. by rewrite lookup_insert_eq.
Qed.

(** The sections before and after keep what matters here. *)
Definition kept (w w' : World) : Prop :=
  entities w' = entities w ∧ pulls w' = pulls w ∧ net w' = net w ∧ remotes w' = remotes w ∧
  queue w' = queue w ∧ cursors w' = cursors w ∧ clock w' = clock w ∧ subPrefix w' = subPrefix w.

#[local] Instance kept_preorder : PreOrder kept.
Proof. split; [by intros w|]. unfold kept. intros w1 w2 w3 H1 H2. naive_solver congruence. Qed.

Lemma status_kept n b e (w : World) : ∃ w', setStatus n b e w = (Ok tt, w') ∧ kept w w'.
Proof. eexists. split; [reflexivity|]. done. Qed.

Lemma publish_kept t n (w : World) : ∃ w', publishEvent t n w = (Ok tt, w') ∧ kept w w'.
Proof. eexists. split; [reflexivity|]. by destruct (has_bus w). Qed.

Lemma synced_kept n now (w : World) : ∃ w', setSynced n now w = (Ok tt, w') ∧ kept w w'.
Proof. eexists. split; [reflexivity|]. by destruct (statuses w !! n). Qed.

Lemma ping_kept m (w : World) rem :
  TransportRef rem = ref → net w !! ref = Some m →
  ∃ w', on_transport (TransportRef rem) Ping w =
          (Ok (if alive m then Ok tt else Err "transport: not reachable"), w') ∧ kept w w'.
Proof.
  intros -> Hm. unfold on_transport. rewrite Hm. simpl. unfold mem_Ping.
  destruct (alive m); (eexists; split; [reflexivity|]);
    unfold kept; simpl; split_and!; try done; by rewrite insert_id.
Qed.

Lemma sync_dead m (w : World) now wall rem :
  TransportRef rem = ref → net w !! ref = Some m → alive m = false →
  ∃ w', syncOnce repo now wall rem w = (Ok tt, w') ∧ kept w w'.
Proof.
  intros Hr Hm Ha. unfold syncOnce. destruct (ping_kept m w rem Hr Hm) as (w1&E1&K1). rewrite Ha in E1.
  run E1. destruct (status_kept (Name rem) false (Some "transport: not reachable") w1) as (w2&E2&K2).
  run E2. destruct (publish_kept "sync.remote.error" (Name rem) w2) as (w3&E3&K3).
  exists w3. split; [done|]. by rewrite K1, K2.
Qed.

(** A tick over a live link is its middle part between steps that keep all. *)
Lemma sync_alive m (w : World) now wall rem :
  TransportRef rem = ref → net w !! ref = Some m → alive m = true →
  ∃ w1, kept w w1 ∧
    ∀ w2 w3, ((if bool_decide (RMode rem = PullOnly) then mret tt else push rem);;
              (if bool_decide (RMode rem = PushOnly) then mret tt else pull repo wall rem)) w1 = (Ok tt, w2) →
      trimQueue w2 = (Ok tt, w3) → ∃ w4, syncOnce repo now wall rem w = (Ok tt, w4) ∧ kept w3 w4.
Proof.
  intros Hr Hm Ha. unfold syncOnce. destruct (ping_kept m w rem Hr Hm) as (wa&E1&K1). rewrite Ha in E1.
  run E1. destruct (status_kept (Name rem) true None wa) as (wb&E2&K2).
  run E2. destruct (publish_kept "sync.remote.connected" (Name rem) wb) as (wc&E3&K3).
  run E3. exists wc. split; [by rewrite K1, K2|].
  intros w2 w3 Hmid Htrim. apply st_bind_ok in Hmid as ([]&wd&Ed&Ee).
  rewrite (st_run _ _ _ _ _ Ed), (st_run _ _ _ _ _ Ee), (st_run _ _ _ _ _ Htrim).
  destruct (synced_kept (Name rem) now w3) as (we&E5&K5). run E5.
  destruct (publish_kept "sync.remote.synced" (Name rem) we) as (wf&E6&K6).
  exists wf. split; [done|]. by rewrite K5.
Qed.

Lemma kept_watermark (w w' : World) : kept w w' → watermark w' = watermark w.
Proof. intros (_&Hp&_). unfold watermark. by rewrite Hp. Qed.

(** ** The follower's tick *)
Lemma pull_tick now wall m (w : World) :
  ∃ w', (syncOnce repo now wall from_wire (with_wire m w)).2 = w' ∧ net w' !! ref = Some m ∧
    if alive m then
      entities w' = foldl replay1 (entities w) (news w m) ∧
      watermark w' = match news w m with [] => watermark w | ds => foldl later zeroTS ds end
    else entities w' = entities w ∧ watermark w' = watermark w.
Proof.
  assert (net (with_wire m w) !! ref = Some m) as Hm by apply lookup_singleton_eq.
  destruct (alive m) eqn:Ha.
  - destruct (sync_alive m (with_wire m w) now wall from_wire eq_refl Hm Ha) as (w1&K1&Hrest).
    destruct (pull_run wall m w1) as (w2&E2&Hn2&_&He2&Hw2).
    { destruct K1 as (_&_&->&_). done. }
    destruct (Hrest w2 (trimQueue w2).2 E2 eq_refl) as (w4&E4&K4). exists w4. rewrite E4.
    assert (entities (trimQueue w2).2 = entities w2 ∧ pulls (trimQueue w2).2 = pulls w2 ∧
            net (trimQueue w2).2 = net w2) as (T1&T2&T3).
    { unfold trimQueue, modify; simpl. by destruct (0 <? _). }
    assert (news w1 m = news w m) as Hnews.
    { unfold news. by rewrite (kept_watermark _ _ K1). }
    assert (watermark w1 = watermark w) as Hwm by apply (kept_watermark _ _ K1).
    assert (entities w1 = entities w) as Hent by apply K1.
    split; [done|]. destruct K4 as (K41&K42&K43&_). rewrite K41, K43, T1, T3, He2, Hent, Hnews. split_and!; [done..|].
    unfold watermark at 1. rewrite K42, T2. fold (watermark w2). by rewrite Hw2, Hnews, Hwm.
  - destruct (sync_dead m (with_wire m w) now wall from_wire eq_refl Hm Ha) as (w1&E1&K1).
    exists w1. rewrite E1. split; [done|]. rewrite (kept_watermark _ _ K1).
    destruct K1 as (->&_&->&_). done.
Qed.

(** ** The primary's tick *)

Record pushable (w : World) : Prop := {
  push_remotes : remotes w = {["out" := to_wire]};
  push_cursor : cursor_of w "out" = 0;
}.

Lemma out_only : rs_List {["out" := to_wire]} = [to_wire].
Proof. vm_compute. reflexivity. Qed.

Lemma trim_out (w : World) :
  remotes w = {["out" := to_wire]} → cursor_of w "out" ≤ Z.of_nat (length (queue w)) →
  (trimQueue w).2 =
    if 0 <? cursor_of w "out"
    then set_cursors ((λ c, c - cursor_of w "out") <$> cursors w)
           (set_queue (drop (Z.to_nat (cursor_of w "out")) (queue w)) w)
    else w.
Proof.
  intros Hr Hle. unfold trimQueue, modify. rewrite Hr, out_only. cbn [snd foldr Name to_wire].
  by rewrite Z.min_l.
Qed.

Lemma push_trim m (w : World) :
  pushable w → net w !! ref = Some m →
  ∃ w2, push to_wire w = (Ok tt, w2) ∧
    let w3 := (trimQueue w2).2 in
    pushable w3 ∧ queue w3 = [] ∧ net w3 !! ref = Some (mkMem (mem_diffs m ++ queue w) (alive m)) ∧
    entities w3 = entities w ∧ clock w3 = clock w ∧ subPrefix w3 = subPrefix w.
Proof.
  intros [Hr Hc] Hm. unfold push.
  rewrite (st_run _ _ _ (0, queue w) w).
  2:{ unfold push_begin. simpl. rewrite Hc. simpl. by rewrite (proj2 (Z.leb_le 0 _)) by lia. }
  cbn [snd fst]. destruct (queue w) as [|d q] eqn:Eq.
  - exists w. split; [done|]. cbv zeta. rewrite trim_out by (done || (rewrite Hc; lia)). rewrite Hc. simpl.
    rewrite app_nil_r, Hm. destruct m. by repeat split.
  - set (w1 := set_net (<[ref := mkMem (mem_diffs m ++ d :: q) (alive m)]> (net w)) w).
    rewrite (st_run _ _ _ true w1).
    2:{ unfold push_send.
        replace (List.filter (passes to_wire) (d :: q)) with (d :: q)
          by (symmetry; apply List.forallb_filter_id, List.forallb_forall; done).
        rewrite (st_run _ _ _ (Ok tt) w1); [done|]. unfold on_transport. cbn [TransportRef to_wire].
        by rewrite Hm. }
    set (w2 := set_cursors (<["out" := 0 + Z.of_nat (length (d :: q))]> (cursors w)) w1).
    exists w2. split; [done|]. cbv zeta.
    assert (cursor_of w2 "out" = Z.of_nat (length (queue w))) as Hc2.
    { unfold cursor_of. simpl. rewrite lookup_insert_eq, Eq. done. }
    rewrite trim_out by (done || (rewrite Hc2; done)). rewrite Hc2, Eq, (proj2 (Z.ltb_lt 0 _)) by (simpl; lia).
    split_and!; try done.
    + split; [done|]. unfold cursor_of. simpl. rewrite lookup_fmap, lookup_insert_eq. simpl. lia.
    + cbn [queue set_cursors set_queue]. rewrite Nat2Z.id. apply drop_ge. change (queue w2) with (queue w). by rewrite Eq.
    + simpl. by rewrite lookup_insert_eq.
Qed.

Lemma push_tick now m (w : World) :
  pushable w →
  ∃ w', (syncOnce repo now (λ _, 0) to_wire (with_wire m w)).2 = w' ∧ pushable w' ∧
    entities w' = entities w ∧ clock w' = clock w ∧ subPrefix w' = subPrefix w ∧
    if alive m then queue w' = [] ∧ net w' !! ref = Some (mkMem (mem_diffs m ++ queue w) true)
    else queue w' = queue w ∧ net w' !! ref = Some m.
Proof.
  intros [Hr Hc]. assert (net (with_wire m w) !! ref = Some m) as Hm by apply lookup_singleton_eq.
  destruct (alive m) eqn:Ha.
  - destruct (sync_alive m (with_wire m w) now (λ _, 0) to_wire eq_refl Hm Ha) as (w1&K1&Hrest).
    pose proof K1 as (Ke&_&Kn&Kr&Kq&Kc&Kl&Ks).
    destruct (push_trim m w1) as (w2&E2&Hp3&Hq3&Hn3&He3&Hl3&Hs3).
    { split; [by rewrite Kr|]. unfold cursor_of. by rewrite Kc. }
    { by rewrite Kn. }
    destruct (Hrest w2 (trimQueue w2).2) as (w4&E4&K4); [|done|].
    { run E2. done. }
    exists w4. rewrite E4. split; [done|]. destruct K4 as (Je&_&Jn&Jr&Jq&Jc&Jl&Js).
    rewrite Je, Jn, Jq, Jl, Js, He3, Hl3, Hs3, Hq3, Hn3, Ke, Kl, Ks, Kq, Ha. split_and!; try done.
    destruct Hp3 as [? ?]. split; [by rewrite Jr|]. unfold cursor_of. by rewrite Jc.
  - destruct (sync_dead m (with_wire m w) now (λ _, 0) to_wire eq_refl Hm Ha) as (w1&E1&K1).
    exists w1. rewrite E1. destruct K1 as (->&_&->&Kr&->&Kc&->&->). split_and!; try done.
    split; [by rewrite Kr|]. unfold cursor_of. by rewrite Kc.
Qed.

(** ** A request at the primary *)

Lemma crud_topics prefix tp :
  WithTopicPrefix prefix = Some tp →
  ∀ t a, (t, a) ∈ [(Created tp, "created"); (Updated tp, "updated"); (Deleted tp, "deleted")] →
  Match t (prefix ++ ".*")%string = true ∧ action_of t = Some a.
Proof.
  unfold WithTopicPrefix. destruct (PrefixTopics prefix crudActions) as [tm [e|]] eqn:E; [done|].
  apply prefix_topics_ok in E as [_ E]. intros [= <-] t a H. simpl in H.
  assert (a ∈ crudActions ∧ t = default "" (tm !! a)) as [Ha ->].
  { rewrite !elem_of_cons, elem_of_nil in H. unfold crudActions. rewrite !elem_of_cons. naive_solver. }
  destruct (E a Ha) as (->&_&?&?). done.
Qed.

Lemma pre_event wall ctx topic src op ph id e (w : World) :
  bus_publish wall ctx topic src (PreEntityPayload op ph id e) w = (Ok tt, w).
Proof. rewrite bus_publish_run. by destruct (Match _ _). Qed.

(** The diff the handler queues for the present state of an entity. *)
Definition captured (wall : Z) (op : Operation) (id : string) (w : World) : Diff :=
  let ts := (HLC.Now wall (clock w)).1 in
  let after := match op with
               | Merge.OpDelete => None
               | _ => entities w !! id ≫= Marshal
               end in
  mkDiff id "" op None after ts (NodeID ts).

Lemma set_entities_id (w : World) : set_entities (entities w) w = w.
Proof. by destruct w. Qed.

Lemma handle_event wall topic op action id (w : World) :
  id ≠ "" → action_of topic = Some action → op_of_action action = Some op →
  Z.of_nat (length (queue w)) < maxQueueSize →
  handleEvent repo wall topic (IDPayload id) w =
    (Ok tt, set_queue (queue w ++ [captured wall op id w]) (set_clock (HLC.Now wall (clock w)).2 w)).
Proof.
  intros Hid Ha Hop Hroom. unfold handleEvent. cbn [payload_id].
  destruct (String.eqb_spec id "") as [->|_]; [done|].
  rewrite (st_run _ _ _ (HLC.Now wall (clock w)).1 w) by done.
  set (w1 := set_clock (HLC.Now wall (clock w)).2 w).
  rewrite (st_run _ _ _ tt w1) by done.
  unfold action_of in Ha. destruct (LastIndexDot topic) as [idx|]; [|done].
  change (Some (str_drop (S idx) topic) = Some action) in Ha. apply (inj Some) in Ha. rewrite Ha, Hop.
  erewrite (st_run _ _ _ _ w1).
  - unfold Enqueue, modify. by destruct (Z.leb_spec maxQueueSize (Z.of_nat (length (queue w1)))); [simpl in *; lia|].
  - destruct (bool_decide_reflect (op = Merge.OpDelete)) as [->|Hn]; [reflexivity|].
    assert (on_repo (repo_Get repo id) w1 =
              (Ok (match entities w !! id with Some e => Ok e | None => Err ErrNotFound end), w1)) as E
      by (unfold w1; by destruct w).
    run E. by destruct (entities w !! id), op.
Qed.

(** What a request that succeeded leaves behind. *)
Record wrote (wall : Z) (w w' : World) (d : Diff) : Prop := {
  wrote_entities : entities w' = replay1 (entities w) d;
  wrote_queue : queue w' = queue w ++ [d];
  wrote_stamp : Stamp d = (HLC.Now wall (clock w)).1;
  wrote_clock : clock w' = (HLC.Now wall (clock w)).2;
  wrote_remotes : remotes w' = remotes w;
  wrote_cursors : cursors w' = cursors w;
  wrote_prefix : subPrefix w' = subPrefix w;
}.

Lemma notify wall tp ctx topic action op id (w : World) m :
  Match topic (subPrefix w ++ ".*")%string = true → action_of topic = Some action →
  op_of_action action = Some op → id ≠ "" → Z.of_nat (length (queue w)) < maxQueueSize →
  replay1 (entities w) (captured wall op id (set_entities m w)) = m →
  ∃ w', Domain.publishEvent (node_service wall tp) ctx topic id (set_entities m w) = (Ok tt, w') ∧
        wrote wall w w' (captured wall op id (set_entities m w)).
Proof.
  intros Hm Ha Ho Hid Hroom Hrep. eexists. split.
  - unfold Domain.publishEvent, ignore_err. cbn [pub node_service]. rewrite bus_publish_run.
    cbn [subPrefix set_entities]. rewrite Hm. erewrite handle_event by done. reflexivity.
  - split; try done.
Qed.

Lemma at_entities_ok {A} (m : st (gmap string T) Domain.error A) a x (w : World) :
  m (entities w) = (Ok a, x) → at_entities m w = (Ok a, set_entities x w).
Proof. intros H. unfold at_entities. by rewrite H. Qed.

Lemma at_entities_err {A} (m : st (gmap string T) Domain.error A) e (w : World) :
  m (entities w) = (Err e, entities w) → at_entities m w = (Err e, w).
Proof. intros H. unfold at_entities. by rewrite H, set_entities_id. Qed.

Lemma captured_replay wall op (e : T) m (w : World) :
  op ≠ Merge.OpDelete → m !! GetID e = Some e →
  replay1 (entities w) (captured wall op (GetID e) (set_entities m w)) = <[GetID e := e]> (entities w).
Proof.
  intros Hop He. unfold replay1, captured. cbn [After entities set_entities].
  destruct (json_roundtrip e) as (b&Hb&Hu).
  replace (match op with Merge.OpDelete => None | _ => m !! GetID e ≫= Marshal end) with (Some b).
  - by rewrite Hu.
  - rewrite He. simpl. rewrite Hb. by destruct op.
Qed.

Lemma put_run prefix tp wall now ctx (op : Operation) topic action (e : T) (w : World)
    (write : T → st World Domain.error T) :
  subPrefix w = prefix → Match topic (prefix ++ ".*")%string = true → action_of topic = Some action →
  op_of_action action = Some op → op ≠ Merge.OpDelete → GetID e ≠ "" →
  Z.of_nat (length (queue w)) < maxQueueSize →
  write e w = (Ok e, set_entities (<[GetID e := e]> (entities w)) w) ∨ (∃ er, write e w = (Err er, w)) →
  let w' := ((e' ← write e;
              auditAction (node_service wall tp) now (GetID e') action;;
              Domain.publishEvent (node_service wall tp) ctx topic (GetID e');; mret e') w).2 in
  w' = w ∨ ∃ d, wrote wall w w' d.
Proof.
  intros Hp Hm Ha Ho Hnd Hid Hroom [E|[er E]].
  - cbv zeta. run E. rewrite (st_run _ _ _ tt (set_entities (<[GetID e:=e]> (entities w)) w)) by done.
    destruct (notify wall tp ctx topic action op (GetID e) w (<[GetID e:=e]> (entities w))) as (w'&E'&Hw).
    all: try done. { by rewrite Hp. } { apply captured_replay; [done|apply lookup_insert_eq]. }
    run E'. right. eauto.
  - cbv zeta. stop E. by left.
Qed.

Lemma request_run prefix tp now wall ctx req (w : World) :
  WithTopicPrefix prefix = Some tp → subPrefix w = prefix → req_id req ≠ "" →
  Z.of_nat (length (queue w)) < maxQueueSize →
  let w' := (serve GetID (node_service wall tp) now ctx req w).2 in
  w' = w ∨ ∃ d, wrote wall w w' d.
Proof.
  intros Htp Hp Hid Hroom. pose proof (crud_topics _ _ Htp) as Ht.
  assert (Hfst : ∀ A B (f : A → B) (m : st World Domain.error A) w, ((a ← m; mret (f a)) w).2 = (m w).2).
  { intros A B f m w0. unfold mbind, st_bind. by destruct (m w0) as [[]]. }
  destruct req as [e|e|id]; cbv zeta; unfold serve.
  - rewrite (Hfst T _ Some). unfold Domain.Create, publishPreValidated, publishPrePersisted, publishPre, validate.
    cbn [pub validator node_service].
    rewrite (st_run _ _ _ tt w) by (unfold wrap_err; by rewrite pre_event).
    rewrite (st_run _ _ _ tt w) by done.
    rewrite (st_run _ _ _ tt w) by (unfold wrap_err; by rewrite pre_event).
    destruct (Ht (Created tp) "created" ltac:(set_solver)) as [Hm Ha].
    apply (put_run prefix tp wall now _ Merge.OpCreate _ "created"); try done.
    cbn [Domain.repo node_service node_repo repo_Create].
    destruct (entities w !! GetID e) as [x|] eqn:Ex.
    + right. eexists. apply at_entities_err. simpl. by rewrite Ex.
    + left. apply at_entities_ok. simpl. by rewrite Ex.
  - rewrite (Hfst T _ Some). unfold Domain.Update, publishPreValidated, publishPrePersisted, publishPre, validate.
    cbn [pub validator node_service].
    rewrite (st_run _ _ _ tt w) by (unfold wrap_err; by rewrite pre_event).
    rewrite (st_run _ _ _ tt w) by done.
    rewrite (st_run _ _ _ tt w) by (unfold wrap_err; by rewrite pre_event).
    destruct (Ht (Updated tp) "updated" ltac:(set_solver)) as [Hm Ha].
    apply (put_run prefix tp wall now _ Merge.OpUpdate _ "updated"); try done.
    cbn [Domain.repo node_service node_repo repo_Update].
    destruct (entities w !! GetID e) as [x|] eqn:Ex.
    + left. apply at_entities_ok. simpl. by rewrite Ex.
    + right. eexists. apply at_entities_err. simpl. by rewrite Ex.
  - unfold Domain.Delete, publishPreValidated, publishPrePersisted, publishPre. cbn [pub node_service].
    rewrite (Hfst unit _ (λ _, None)).
    rewrite (st_run _ _ _ tt w) by (unfold wrap_err; by rewrite pre_event).
    rewrite (st_run _ _ _ tt w) by (unfold wrap_err; by rewrite pre_event).
    cbn [Domain.repo node_service node_repo repo_Delete]. destruct (Ht (Deleted tp) "deleted" ltac:(set_solver)) as [Hm Ha].
    destruct (entities w !! id) as [x|] eqn:Ex.
    + rewrite (st_run _ _ _ tt (set_entities (delete id (entities w)) w)) by (apply at_entities_ok; simpl; by rewrite Ex).
      rewrite (st_run _ _ _ tt (set_entities (delete id (entities w)) w)) by done.
      destruct (notify wall tp (WithOp ctx Domain.OpDelete) (Deleted tp) "deleted" Merge.OpDelete id w (delete id (entities w)))
        as (w'&E'&Hw); [by rewrite Hp|done|done|exact Hid|done|done|].
      change (Deleted (topics (node_service wall tp))) with (Deleted tp). rewrite E'. right. by exists (captured wall Merge.OpDelete id (set_entities (delete id (entities w)) w)).
    + erewrite st_stop; [by left|]. apply at_entities_err. simpl. by rewrite Ex.
Qed.

(** ** Watermarks *)

Definition ts_le (a b : Timestamp) : Prop := a = b ∨ ts_lt a b.

Lemma ts_lt_le_trans a b c : ts_lt a b → ts_le b c → ts_lt a c.
Proof. intros H [<-|H2]; [done|by transitivity b]. Qed.

Lemma ts_le_trans a b c : ts_le a b → ts_le b c → ts_le a c.
Proof. intros [->|H1] H2; [done|]. right. by eapply ts_lt_le_trans. Qed.

Lemma later_max t (ds : list Diff) :
  ts_le t (foldl later t ds) ∧ (∀ d, d ∈ ds → ts_le (Stamp d) (foldl later t ds)) ∧
  (foldl later t ds = t ∨ ∃ d, d ∈ ds ∧ foldl later t ds = Stamp d).
Proof.
  revert t; induction ds as [|d ds IH]; intros t; simpl; [split; [by left|split; [set_solver|by left]]|].
  destruct (IH (later t d)) as (H1&H2&H3).
  assert (ts_le t (later t d) ∧ ts_le (Stamp d) (later t d)) as [Ht Hd].
  { unfold later. destruct (Before t (Stamp d)) eqn:E; [split; [by right|by left]|split; [by left|]].
    destruct (ts_lt_total t (Stamp d)) as [H|[H|H]]; [unfold ts_lt in H; congruence|by left|by right]. }
  split_and!.
  - by eapply ts_le_trans.
  - intros d' [->|Hd']%elem_of_cons; [by eapply ts_le_trans|by apply H2].
  - destruct H3 as [->|(d'&?&->)]; [|right; exists d'; set_solver].
    unfold later. destruct (Before t (Stamp d)); [right; exists d; set_solver|by left].
Qed.

(** Stamps that grow along the list and are later than zero. *)
Definition growing (ds : list Diff) : Prop :=
  StronglySorted ts_lt (zeroTS :: (Stamp <$> ds)).

Lemma growing_split ds1 ds2 :
  growing (ds1 ++ ds2) →
  growing ds1 ∧ ∀ d, d ∈ ds2 → ts_lt zeroTS (Stamp d) ∧ ∀ d', d' ∈ ds1 → ts_lt (Stamp d') (Stamp d).
Proof.
  unfold growing. rewrite fmap_app. intros [Hs Hf]%StronglySorted_inv.
  apply StronglySorted_app in Hs as (Hc&H1&H2). rewrite Forall_forall in Hf. split.
  - constructor; [done|]. apply Forall_forall. intros x Hx. apply Hf. set_solver.
  - intros d Hd. split; [apply Hf; set_solver|]. intros d' Hd'. apply Hc; set_solver.
Qed.

Lemma growing_snoc ds d :
  growing ds → ts_lt zeroTS (Stamp d) → (∀ d', d' ∈ ds → ts_lt (Stamp d') (Stamp d)) → growing (ds ++ [d]).
Proof.
  intros [Hs Hf]%StronglySorted_inv Hz Hd. unfold growing. rewrite fmap_app. constructor.
  - apply StronglySorted_app_2; [|done|by repeat constructor].
    intros x1 x2 (d'&->&Hd')%list_elem_of_fmap Hx. simpl in Hx. apply list_elem_of_singleton in Hx as ->. auto.
  - apply Forall_app. split; [done|]. by repeat constructor.
Qed.

Lemma watermark_before ds1 ds2 d :
  growing (ds1 ++ ds2) → d ∈ ds2 → ts_lt (foldl later zeroTS ds1) (Stamp d).
Proof.
  intros [_ H]%growing_split Hd. destruct (H d Hd) as [Hz Hlt].
  destruct (later_max zeroTS ds1) as (_&_&[->|(d'&Hd'&->)]); auto.
Qed.

(** The diffs past the watermark are the ones not pulled yet. *)
Lemma news_past ds1 ds2 :
  growing (ds1 ++ ds2) →
  filter (λ d, Before (foldl later zeroTS ds1) (Stamp d) = true) (ds1 ++ ds2) = ds2.
Proof.
  intros Hg. rewrite filter_app, list_filter_none, list_filter_all; [done| |].
  - intros d Hd. by apply (watermark_before ds1 ds2).
  - intros d Hd Hb. destruct (later_max zeroTS ds1) as (_&Hle&_).
    eapply (irreflexivity ts_lt (foldl later zeroTS ds1)). by eapply ts_lt_le_trans, Hle.
Qed.

Lemma watermark_moves ds1 ds2 :
  growing (ds1 ++ ds2) → ds2 ≠ [] → foldl later zeroTS ds2 = foldl later zeroTS (ds1 ++ ds2).
Proof.
  intros Hg Hne. destruct ds2 as [|d ds2]; [done|]. rewrite foldl_app. simpl. f_equal.
  pose proof (watermark_before _ _ d Hg ltac:(set_solver)) as H1.
  apply growing_split in Hg as [_ Hg]. destruct (Hg d ltac:(set_solver)) as [H2 _].
  assert (∀ t, ts_lt t (Stamp d) → later t d = Stamp d) as Hl by (intros t H; unfold later; by rewrite H).
  by rewrite !Hl.
Qed.

(** ** The invariant *)

Record conv_inv (tp : Topics) (prefix : string) (steps : list step) (p : pair) (all : list Diff) (k : nat) : Prop := {
  c_run : p = prun tp steps (start prefix);
  c_push : pushable (primary p);
  c_prefix : subPrefix (primary p) = prefix;
  c_all : all = mem_diffs (wire p) ++ queue (primary p);
  c_entities : entities (primary p) = replay all;
  c_growing : growing all;
  c_logical : 0 ≤ Logical (last (clock (primary p))) ≤ Z.of_nat (length steps);
  c_clock : ts_le zeroTS (last (clock (primary p))) ∧ ∀ d, d ∈ all → ts_le (Stamp d) (last (clock (primary p)));
  c_k : (k ≤ length (mem_diffs (wire p)))%nat;
  c_follower : entities (follower p) = replay (take k all);
  c_watermark : watermark (follower p) = foldl later zeroTS (take k all);
  c_history j : (j ≤ length all)%nat →
    ∃ pre, pre `prefix_of` steps ∧ entities (primary (prun tp pre (start prefix))) = replay (take j all);
}.

Lemma prun_snoc tp steps s p : prun tp (steps ++ [s]) p = pstep tp s (prun tp steps p).
Proof. unfold prun. by rewrite foldl_app. Qed.

Lemma history_mono tp prefix steps s (all : list Diff) :
  (∀ j, (j ≤ length all)%nat → ∃ pre, pre `prefix_of` steps ∧
     entities (primary (prun tp pre (start prefix))) = replay (take j all)) →
  ∀ j, (j ≤ length all)%nat → ∃ pre, pre `prefix_of` (steps ++ [s]) ∧
     entities (primary (prun tp pre (start prefix))) = replay (take j all).
Proof. intros H j Hj. destruct (H j Hj) as (pre&?&?). exists pre. split; [auto with kit|done]. Qed.

Lemma start_inv tp prefix : conv_inv tp prefix [] (start prefix) [] 0.
Proof.
  split; try done.
  - by repeat constructor.
  - split; [by left|set_solver].
  - intros j Hj. exists []. split; [done|]. by rewrite take_nil.
Qed.

Lemma request_inv tp prefix steps p all k now wall ctx req :
  WithTopicPrefix prefix = Some tp → conv_inv tp prefix steps p all k → req_id req ≠ "" →
  Z.of_nat (length (queue (primary p))) < maxQueueSize → Z.of_nat (length steps) + 1 < 2 ^ 32 →
  ∃ all', conv_inv tp prefix (steps ++ [Request now wall ctx req]) (pstep tp (Request now wall ctx req) p) all' k.
Proof.
  intros Htp Hinv Hid Hroom Hlen.
  pose proof Hinv as [Hrun [Hpr Hpc] Hpre Hall Hent Hgr Hlog [Hz Hcl] Hk Hfol Hwm Hh].
  pose proof (request_run prefix tp now wall ctx req (primary p) Htp Hpre Hid Hroom) as Hreq. cbv zeta in Hreq.
  set (s := Request now wall ctx req). destruct Hreq as [Heq|(d&[We Wq Ws Wc Wr Wcu Wp])].
  - exists all. split; simpl; rewrite ?Heq; try done.
    + rewrite prun_snoc, <- Hrun. simpl. by rewrite Heq.
    + rewrite length_app. simpl. lia.
    + by apply history_mono.
  - pose proof (clock_now_spec wall (clock (primary p)) _ Hlog ltac:(lia)) as Hn.
    destruct (HLC.Now wall (clock (primary p))) as [t c'] eqn:En. destruct Hn as (Hl&_&_&HL&Haft%after_lt).
    simpl in Ws, Wc. assert (ts_lt zeroTS (Stamp d)) as Hzd.
    { rewrite Ws. destruct Hz as [Hz|Hz]; [by rewrite Hz|by etransitivity]. }
    assert (∀ d', d' ∈ all → ts_lt (Stamp d') (Stamp d)) as Hdd.
    { intros d' Hd'. rewrite Ws. destruct (Hcl d' Hd') as [->|?]; [done|by etransitivity]. }
    exists (all ++ [d]). split; simpl.
    + by rewrite prun_snoc, <- Hrun.
    + split; [by rewrite Wr|]. unfold cursor_of. by rewrite Wcu.
    + by rewrite Wp.
    + by rewrite Wq, Hall, (assoc_L (++)).
    + rewrite We, Hent. unfold replay. by rewrite foldl_app.
    + by apply growing_snoc.
    + rewrite Wc, Hl, length_app. simpl. lia.
    + rewrite Wc, Hl, <- Ws. split; [by right|]. intros d' [Hd'|Hd'%list_elem_of_singleton]%elem_of_app; [right; auto|left; by rewrite Hd'].
    + done.
    + rewrite Hfol. rewrite take_app_le; [done|]. rewrite Hall, length_app. lia.
    + rewrite Hwm. rewrite take_app_le; [done|]. rewrite Hall, length_app. lia.
    + intros j Hj. destruct (decide (j ≤ length all)%nat) as [Hle|Hgt].
      * rewrite take_app_le by done. by apply history_mono.
      * exists (steps ++ [s]). split; [done|]. rewrite take_ge by (rewrite length_app in *; simpl in *; lia).
        rewrite prun_snoc, <- Hrun. simpl. rewrite We, Hent. unfold replay. by rewrite foldl_app.
Qed.

Lemma push_inv tp prefix steps p all k now :
  conv_inv tp prefix steps p all k →
  conv_inv tp prefix (steps ++ [PushTick now]) (pstep tp (PushTick now) p) all k ∧
  (alive (wire p) = true → queue (primary (pstep tp (PushTick now) p)) = []).
Proof.
  intros [Hrun Hp Hpre Hall Hent Hgr Hlog Hcl Hk Hfol Hwm Hh].
  destruct (push_tick now (wire p) (primary p) Hp) as (w'&E&Hp'&He'&Hc'&Hs'&Hq').
  assert (alive (wire p) = true ∧ queue w' = [] ∧ wire_of w' (wire p) = mkMem all true ∨
          alive (wire p) = false ∧ queue w' = queue (primary p) ∧ wire_of w' (wire p) = wire p) as Hcase.
  { unfold wire_of. destruct (alive (wire p)); destruct Hq' as [-> ->]; [left|right]; simpl; by rewrite <- ?Hall. }
  split.
  - split; simpl; rewrite ?E; try done.
    + rewrite prun_snoc, <- Hrun. simpl. by rewrite E.
    + by rewrite Hs'.
    + destruct Hcase as [(_&->&->)|(_&->&->)]; simpl; [by rewrite app_nil_r|done].
    + by rewrite He'.
    + rewrite Hc', length_app. simpl. lia.
    + by rewrite Hc'.
    + destruct Hcase as [(_&_&->)|(_&_&->)]; simpl; [rewrite Hall, length_app; lia|done].
    + by apply history_mono.
  - intros Ha. simpl. rewrite E. destruct Hcase as [(_&->&_)|(Ha'&_)]; [done|congruence].
Qed.

Lemma pull_inv tp prefix steps p all k now wall :
  conv_inv tp prefix steps p all k →
  ∃ k', conv_inv tp prefix (steps ++ [PullTick now wall]) (pstep tp (PullTick now wall) p) all k' ∧
    (alive (wire p) = true → k' = length (mem_diffs (wire p))).
Proof.
  intros [Hrun Hp Hpre Hall Hent Hgr Hlog Hcl Hk Hfol Hwm Hh].
  destruct (pull_tick now wall (wire p) (follower p)) as (w'&E&Hn'&Hcase).
  assert (wire_of w' (wire p) = wire p) as Hwire by (unfold wire_of; by rewrite Hn').
  assert (∀ k', (k' ≤ length (mem_diffs (wire p)))%nat → entities w' = replay (take k' all) →
            watermark w' = foldl later zeroTS (take k' all) →
            conv_inv tp prefix (steps ++ [PullTick now wall]) (pstep tp (PullTick now wall) p) all k') as Hmk.
  { intros k' Hk' He' Hw'. split; simpl; rewrite ?E, ?Hwire; try done.
    - rewrite prun_snoc, <- Hrun. simpl. by rewrite E, Hwire.
    - rewrite length_app. simpl. lia.
    - by apply history_mono. }
  destruct (alive (wire p)) eqn:Ea; destruct Hcase as [He Hw].
  - exists (length (mem_diffs (wire p))). split; [|done].
    set (log := mem_diffs (wire p)) in *.
    assert (take k all = take k log) as Htk by (by rewrite Hall, take_app_le).
    assert (take (length log) all = log) as Htl by (by rewrite Hall, take_app_length).
    assert (growing (take k log ++ drop k log)) as Hg.
    { rewrite take_drop. rewrite Hall in Hgr. by destruct (growing_split _ _ Hgr). }
    assert (news (follower p) (wire p) = drop k log) as Hnews.
    { unfold news. fold log. rewrite Hwm, Htk. pose proof (news_past _ _ Hg) as Hx. by rewrite take_drop in Hx. }
    apply Hmk; [done| |].
    + rewrite He, Hnews, Hfol, Htl, Htk. unfold replay. by rewrite <- foldl_app, take_drop.
    + rewrite Hw, Hnews, Htl. destruct (drop k log) as [|d ds] eqn:Ed.
      * rewrite Hwm, Htk. f_equal. apply take_ge. apply (f_equal length) in Ed. rewrite length_drop in Ed. simpl in Ed. lia.
      * rewrite (watermark_moves (take k log)) by done. f_equal. by rewrite <- Ed, take_drop.
  - exists k. split; [|done]. apply Hmk; [done|by rewrite He|by rewrite Hw].
Qed.

Lemma link_inv tp prefix steps p all k up :
  conv_inv tp prefix steps p all k →
  conv_inv tp prefix (steps ++ [Link up]) (pstep tp (Link up) p) all k.
Proof.
  intros [Hrun Hp Hpre Hall Hent Hgr Hlog Hcl Hk Hfol Hwm Hh]. split; simpl; try done.
  - by rewrite prun_snoc, <- Hrun.
  - rewrite length_app. simpl. lia.
  - by apply history_mono.
Qed.

Lemma run_inv tp prefix : WithTopicPrefix prefix = Some tp → ∀ rest steps p all k,
  conv_inv tp prefix steps p all k → roomy tp rest p = true → Forall named rest →
  Z.of_nat (length steps + length rest) < 2 ^ 32 →
  ∃ all' k', conv_inv tp prefix (steps ++ rest) (prun tp rest p) all' k'.
Proof.
  intros Htp. induction rest as [|s rest IH]; intros steps p all k Hinv Hroom Hnamed Hlen.
  { exists all, k. by rewrite app_nil_r. }
  cbn [roomy] in Hroom. apply andb_true_iff in Hroom as [Hr1 Hr2]. apply Forall_cons in Hnamed as [Hn1 Hn2].
  cbn [length] in Hlen.
  assert (∃ all' k', conv_inv tp prefix (steps ++ [s]) (pstep tp s p) all' k') as (all1&k1&H1).
  { destruct s.
    - apply Z.ltb_lt in Hr1. destruct (request_inv tp prefix steps p all k now wall ctx req) as [all' ?]; eauto. lia.
    - exists all, k. by apply push_inv.
    - destruct (pull_inv tp prefix steps p all k now wall Hinv) as (k'&?&_). eauto.
    - exists all, k. by apply link_inv. }
  change (prun tp (s :: rest) p) with (prun tp rest (pstep tp s p)).
  replace (steps ++ s :: rest) with ((steps ++ [s]) ++ rest) by (by rewrite <- (assoc_L (++))).
  eapply IH; [exact H1|done|done|]. rewrite length_app. simpl. lia.
Qed.


End Convergence.

(** ** Runs *)

Module ConvergenceExamples.

#[export] Instance string_json : EntityJSON string := {| Marshal := Some; Unmarshal := Some; zeroT := "" |}.
#[export] Instance string_roundtrip : JSONRoundTrip string.
Proof. intros e. by exists e. Qed.

Definition key (e : string) : string := String.substring 0 1 e.
Definition prefix : string := "kit.runtime.entity".

(** The link is down for the second push and comes back. *)
Definition steps : list (step (T:=string)) :=
  [Request 0 7 Background (RCreate "a1"); PushTick 1; Request 2 5 Background (RCreate "b1");
   Link false; PushTick 3; PullTick 4 (λ _, 0); Request 5 5 Background (RDelete "a"); Link true;
   PullTick 6 (λ _, 0); Request 7 5 Background (RUpdate "b2"); Request 8 9 Background (RCreate "b3")].

Definition node : World (gmap string string) MemoryTransport :=
  set_net {["wire" := NewMemoryTransport]} (WithRemote from_wire (NewReplicator ∅ ∅)).

Definition put (e : string) (t : Z) (n : string) : Diff :=
  mkDiff (key e) "" Merge.OpUpdate None (Some e) (mkTS t 0 n) n.

(** A repository whose reads fail. *)
Definition unreadable : Repository (gmap string string) string := {|
  repo_Create := repo_Create (map_repository key);
  repo_Get id := λ m, (Err (SubscriberError "database is locked"), m);
  repo_List := repo_List (map_repository key);
  repo_Update := repo_Update (map_repository key);
  repo_Delete := repo_Delete (map_repository key);
|}.

End ConvergenceExamples.

#[local] Existing Instances ConvergenceExamples.string_json ConvergenceExamples.string_roundtrip.


(** ** What the chain does not do *)

(** Pulled diffs are applied without comparing timestamps: a diff that
    [LastWriteWins] would reject replaces the newer state, and the replicator's
    merge function plays no part. *)
Theorem stale_diff_overwrites :
  let newer := ConvergenceExamples.put "e2" 20 "x" in
  let older := ConvergenceExamples.put "e1" 10 "y" in
  LastWriteWins newer older = newer ∧
  entities ((applyDiff (map_repository ConvergenceExamples.key) newer;;
             applyDiff (map_repository ConvergenceExamples.key) older) ConvergenceExamples.node).2 = {["e" := "e1"]}.
Proof. vm_compute. auto. Qed.

(** A diff that reaches the transport after a pull, with a stamp not later
    than the largest one pulled, is never pulled. *)
Theorem pull_misses_late_diff :
  let rep := map_repository ConvergenceExamples.key in
  let late := ConvergenceExamples.put "l1" 10 "y" in
  let push_late := modify (λ w, set_net {["wire" := mkMem [ConvergenceExamples.put "e1" 20 "x"; late] true]} w) in
  let w := (modify (set_net {["wire" := mkMem [ConvergenceExamples.put "e1" 20 "x"] true]});;
            pull rep (λ _, 0) from_wire;; push_late;; pull rep (λ _, 0) from_wire) ConvergenceExamples.node in
  w.1 = Ok tt ∧ entities w.2 = {["e" := "e1"]}.
Proof. vm_compute. auto. Qed.

(** When the snapshot of a changed entity cannot be read, the update is
    queued without one, and a replica that applies it deletes the entity. *)
Theorem unread_snapshot_deletes :
  let w := (handleEvent ConvergenceExamples.unreadable 5 "kit.runtime.entity.updated" (IDPayload "e") ConvergenceExamples.node).2 in
  (Op <$> queue w = [Merge.OpUpdate]) ∧
  foldl (replay1 ConvergenceExamples.key) {["e" := "e1"]} (queue w) = ∅.
Proof. vm_compute. auto. Qed.
