(* ===== verification/VersionedRepo.v ===== *)
(** * The versioned repository (go/runtime/domain/version/repository.go)

    A decorator that records a node of the version DAG per mutation of an inner
    repository.  The inner repository is reached through its documented
    contract, [RepositoryLaws]; a fresh UUID and the clock are arguments. *)

From S2P Require Import Prelude VersionDag Fingerprint Topics Domain HLC Merge.

Local Open Scope Z_scope.

(** What repository.go documents, observed through the stored entities. *)
Record RepositoryLaws {R T} (GetID : T → string) (view : R → gmap string T) (inner : Repository R T) : Prop := {
  inner_create e s : let '(r, s') := repo_Create inner e s in
    match r with
    | Ok e' => view s !! GetID e' = None ∧ view s' = <[GetID e' := e']> (view s)
    | Err _ => view s' = view s
    end;
  inner_get id s : let '(r, s') := repo_Get inner id s in
    view s' = view s ∧ match r with Ok e => view s !! id = Some e | Err _ => True end;
  inner_update e s : let '(r, s') := repo_Update inner e s in
    match r with
    | Ok e' => is_Some (view s !! GetID e') ∧ view s' = <[GetID e' := e']> (view s)
    | Err _ => view s' = view s
    end;
  inner_delete id s : let '(r, s') := repo_Delete inner id s in
    match r with
    | Ok _ => is_Some (view s !! id) ∧ view s' = delete id (view s)
    | Err _ => view s' = view s
    end;
}.

Lemma map_repository_laws {T} (GetID : T → string) : RepositoryLaws GetID id (map_repository GetID).
Proof.
  split; simpl; intros x s.
  - destruct (s !! GetID x) eqn:E; simpl; auto.
  - destruct (s !! x) eqn:E; simpl; auto.
  - destruct (s !! GetID x) eqn:E; simpl; eauto.
  - destruct (s !! x) eqn:E; simpl; eauto.
Qed.

Record VersionedRepository (R : Type) := mkVR {
  inner_state : R;
  dag : version.DAG;
  version_ids : gmap string (list string);
}.
Arguments mkVR {_}. Arguments inner_state {_}. Arguments dag {_}. Arguments version_ids {_}.

Inductive vr_error :=
| InnerError (e : Domain.error)
| HashError (id : string)
| AppendError (e : version.error)
| NoVersions (id : string)
| VersionNotFound (id : string).

Section VersionedRepo.
Context {R T : Type} (GetID : T → string) `{EJ : EntityJSON T} `{HS : Hasher}.
Context (inner : Repository R T).

Definition NewVersionedRepository (s : R) : VersionedRepository R := mkVR s version.NewDAG ∅.

Definition on_inner {A} (m : st R Domain.error A) : st (VersionedRepository R) vr_error A := λ vr,
  let '(r, s) := m (inner_state vr) in
  (res_map_err InnerError r, mkVR s (dag vr) (version_ids vr)).

Definition hashEntity (entity : T) : option string :=
  data ← Marshal entity; Some (hash_short data 16).

Definition appendVersion (uuid : string) (now : Z) (entityID : string) (entity : T) (parents : list string)
  : st (VersionedRepository R) vr_error unit := λ vr,
  match hashEntity entity with
  | None => (Err (HashError entityID), vr)
  | Some hash =>
      let vid := (entityID ++ "-" ++ uuid)%string in
      match version.Append (version.mkVersion vid parents now hash) (dag vr) with
      | (Err e, d) => (Err (AppendError e), mkVR (inner_state vr) d (version_ids vr))
      | (Ok _, d) =>
          (Ok tt, mkVR (inner_state vr) d
             (<[entityID := default [] (version_ids vr !! entityID) ++ [vid]]> (version_ids vr)))
      end
  end.

Definition vr_Create (uuid : string) (now : Z) (entity : T) : st (VersionedRepository R) vr_error unit :=
  entity ← on_inner (repo_Create inner entity);
  appendVersion uuid now (GetID entity) entity [].

(** [versions[len(versions)-1]], as a list of at most one parent. *)
Definition newest (ids : list string) : list string :=
  match list.last ids with Some v => [v] | None => [] end.

Definition vr_Update (uuid : string) (now : Z) (entity : T) : st (VersionedRepository R) vr_error unit :=
  entity ← on_inner (repo_Update inner entity);
  parents ← gets (λ vr, newest (default [] (version_ids vr !! GetID entity)));
  appendVersion uuid now (GetID entity) entity parents.

Definition vr_Get (id : string) : st (VersionedRepository R) vr_error T := on_inner (repo_Get inner id).

Definition vr_ListVersions (entityID : string) (vr : VersionedRepository R) : list version.Version :=
  omap (version.Get (dag vr)) (default [] (version_ids vr !! entityID)).

Definition vr_Revert (uuid : string) (now : Z) (entityID versionID : string)
  : st (VersionedRepository R) vr_error unit :=
  ids ← gets (λ vr, default [] (version_ids vr !! entityID));
  match list.last ids with
  | None => throw (NoVersions entityID)
  | Some currentHead =>
      if negb (existsb (String.eqb versionID) ids) then throw (VersionNotFound versionID)
      else
        let parents := if String.eqb versionID currentHead then [currentHead] else [currentHead; versionID] in
        entity ← on_inner (repo_Get inner entityID);
        appendVersion uuid now entityID entity parents
  end.

Definition vr_List (q : Query) : st (VersionedRepository R) vr_error (list T) := on_inner (repo_List inner q).

Definition vr_Delete (id : string) : st (VersionedRepository R) vr_error unit :=
  on_inner (repo_Delete inner id);;
  modify (λ vr, mkVR (inner_state vr) (dag vr) (delete id (version_ids vr))).

(** ** The invariant *)

Section laws.
Context (view : R → gmap string T) (L : RepositoryLaws GetID view inner).

Definition entity_view (vr : VersionedRepository R) : gmap string T := view (inner_state vr).

(** Every recorded id resolves in a well-formed DAG, each recorded version has
    the one before it among its parents, and only stored entities have
    versions. *)
Record vr_inv (vr : VersionedRepository R) : Prop := {
  vr_dag : version.dag_wf (dag vr);
  vr_stored id : is_Some (version_ids vr !! id) → is_Some (entity_view vr !! id);
  vr_known id ids v : version_ids vr !! id = Some ids → v ∈ ids → is_Some (version.Get (dag vr) v);
  vr_chain id ids i a b : version_ids vr !! id = Some ids → ids !! i = Some a → ids !! S i = Some b →
    a ∈ version.parents_of (dag vr) b;
}.

(** A UUID is fresh when no version carries it. *)
Definition fresh_uuid (uuid : string) (vr : VersionedRepository R) : Prop :=
  ∀ id, version.versions (dag vr) !! (id ++ "-" ++ uuid)%string = None.

Lemma last_known id (vr : VersionedRepository R) v :
  vr_inv vr → list.last (default [] (version_ids vr !! id)) = Some v → is_Some (version.Get (dag vr) v).
Proof.
  intros Hinv Hl. destruct (version_ids vr !! id) as [ids|] eqn:E; [|done].
  eapply (vr_known _ Hinv); [exact E|]. by apply last_Some_elem_of.
Qed.

(** Recording a version whose parents include the newest one. *)
Lemma appendVersion_inv uuid now id e parents vr r vr' :
  vr_inv vr → fresh_uuid uuid vr → is_Some (entity_view vr !! id) →
  (∀ p, p ∈ parents → is_Some (version.Get (dag vr) p)) →
  (∀ v, list.last (default [] (version_ids vr !! id)) = Some v → v ∈ parents) →
  appendVersion uuid now id e parents vr = (r, vr') →
  vr_inv vr' ∧ inner_state vr' = inner_state vr ∧
  match r with
  | Err _ => vr' = vr ∧ Marshal e = None
  | Ok _ => ∃ data, Marshal e = Some data ∧
      vr_ListVersions id vr' = vr_ListVersions id vr ++
        [version.mkVersion (id ++ "-" ++ uuid)%string parents now (hash_short data 16)] ∧
      ∀ id', id' ≠ id → vr_ListVersions id' vr' = vr_ListVersions id' vr
  end.
Proof.
  intros Hinv Hf Hst Hpar Hnew. pose proof Hinv as [Hwf Hs Hk Hc]. unfold appendVersion, hashEntity.
  destruct (Marshal e) as [data|] eqn:Em; simpl; [|intros [= <- <-]; by split_and!].
  set (v := version.mkVersion _ parents now _).
  assert (version.versions (dag vr) !! version.ID v = None) as Hfresh by apply Hf.
  rewrite (version.Append_ok v (dag vr) Hfresh Hpar). intros [= <- <-].
  assert (∀ x, is_Some (version.Get (dag vr) x) → version.Get (version.appended v (dag vr)) x = version.Get (dag vr) x) as Hold.
  { intros x [y Hy]. unfold version.Get, version.appended. simpl. apply lookup_insert_ne.
    intros <-. unfold version.Get in Hy. congruence. }
  assert (version.Get (version.appended v (dag vr)) (version.ID v) = Some v) as Hv by apply lookup_insert_eq.
  assert (∀ id' ids x, version_ids vr !! id' = Some ids → x ∈ ids → x ≠ version.ID v) as Hneq.
  { intros id' ids x Hi Hx ->. destruct (Hk _ _ _ Hi Hx) as [y Hy]. unfold version.Get in Hy. congruence. }
  split_and!; [|done|].
  - split; simpl.
    + by apply version.appended_wf.
    + intros id'. rewrite lookup_insert. case_decide; subst; [done|apply Hs].
    + intros id' ids x. rewrite lookup_insert. case_decide as Hid.
      * intros [= <-] [Hx|Hx%list_elem_of_singleton]%elem_of_app.
        -- subst. destruct (version_ids vr !! id') as [ids|] eqn:Ei; [|set_solver].
           rewrite Hold; eauto.
        -- subst x. by exists v.
      * intros Hi Hx. rewrite Hold; eauto.
    + intros id' ids i a b. rewrite lookup_insert. intros Hi Ha Hb. rewrite version.parents_of_appended.
      case_decide as Hid; [|rewrite decide_False; [by eapply Hc|]].
      * subst id'. simplify_eq. apply lookup_app_Some in Hb as [Hb|[Hge Hb]].
        -- apply lookup_lt_Some in Hb as Hlt. rewrite lookup_app_l in Ha by lia.
           destruct (version_ids vr !! id) as [ids|] eqn:Ei; [|done]. simpl in *.
           rewrite decide_False; [by eapply Hc|]. intros Heq.
           by apply (Hneq _ _ b Ei); [eapply list_elem_of_lookup_2|].
        -- apply list_lookup_singleton_Some in Hb as [Hl <-]. rewrite decide_True by done. apply Hnew.
           rewrite last_lookup. rewrite lookup_app_l in Ha by lia.
           by replace (Init.Nat.pred (length (default [] (version_ids vr !! id)))) with i by lia.
      * intros Heq. by apply (Hneq _ _ b Hi); [eapply list_elem_of_lookup_2|].
  - exists data. split; [done|]. unfold vr_ListVersions. simpl.
    assert (∀ id', omap (version.Get (version.appended v (dag vr))) (default [] (version_ids vr !! id')) =
                   omap (version.Get (dag vr)) (default [] (version_ids vr !! id'))) as Hsame.
    { intros id'. apply list_omap_ext_in. intros x Hx. apply Hold.
      destruct (version_ids vr !! id') as [ids|] eqn:Ei; [eauto|set_solver]. }
    split.
    + rewrite lookup_insert_eq. simpl. rewrite omap_app, Hsame. f_equal. simpl.
      change (id +:+ "-" +:+ uuid) with (version.ID v). by rewrite Hv.
    + intros id' Hne. rewrite lookup_insert_ne by done. apply Hsame.
Qed.

Lemma new_inv s : vr_inv (NewVersionedRepository s).
Proof. split; simpl; [apply version.NewDAG_wf|..]; intros ?; rewrite lookup_empty; by try intros [??]. Qed.

Lemma on_inner_run {A} (m : st R Domain.error A) vr r s :
  m (inner_state vr) = (r, s) → on_inner m vr = (res_map_err InnerError r, mkVR s (dag vr) (version_ids vr)).
Proof. intros H. unfold on_inner. by rewrite H. Qed.

(** Changing what is stored, as long as versioned entities stay stored. *)
Lemma inner_step_inv vr s :
  vr_inv vr → (∀ id, is_Some (version_ids vr !! id) → is_Some (view s !! id)) →
  vr_inv (mkVR s (dag vr) (version_ids vr)).
Proof. intros [Hwf Hs Hk Hc] Hv. by split. Qed.

(** ** One call *)

Inductive vr_call := VCreate (e : T) | VUpdate (e : T) | VRevert (id vid : string) | VDelete (id : string).

Definition vr_run (uuid : string) (now : Z) (c : vr_call) : st (VersionedRepository R) vr_error unit :=
  match c with
  | VCreate e => vr_Create uuid now e
  | VUpdate e => vr_Update uuid now e
  | VRevert id vid => vr_Revert uuid now id vid
  | VDelete id => vr_Delete id
  end.

(** [vr'] has one more version of [id], recording the entity [e] under it. *)
Definition recorded (uuid : string) (now : Z) (id : string) (e : T) (parents : list string)
    (vr vr' : VersionedRepository R) : Prop :=
  ∃ data, Marshal e = Some data ∧
    vr_ListVersions id vr' = vr_ListVersions id vr ++
      [version.mkVersion (id ++ "-" ++ uuid)%string parents now (hash_short data 16)] ∧
    ∀ id', id' ≠ id → vr_ListVersions id' vr' = vr_ListVersions id' vr.

Definition vr_outcome (uuid : string) (now : Z) (c : vr_call) (vr vr' : VersionedRepository R) : Prop :=
  match c with
  | VCreate _ => ∃ e, entity_view vr' = <[GetID e := e]> (entity_view vr) ∧
      vr_ListVersions (GetID e) vr = [] ∧ recorded uuid now (GetID e) e [] vr vr'
  | VUpdate _ => ∃ e, entity_view vr' = <[GetID e := e]> (entity_view vr) ∧
      recorded uuid now (GetID e) e (newest (default [] (version_ids vr !! GetID e))) vr vr'
  | VRevert id vid => entity_view vr' = entity_view vr ∧ ∃ e parents, entity_view vr !! id = Some e ∧
      vid ∈ parents ∧ recorded uuid now id e parents vr vr'
  | VDelete id => entity_view vr' = delete id (entity_view vr) ∧ dag vr' = dag vr ∧ vr_ListVersions id vr' = []
  end.

Definition vr_post (uuid : string) (now : Z) (c : vr_call) (vr : VersionedRepository R) : Prop :=
  let '(r, vr') := vr_run uuid now c vr in
  vr_inv vr' ∧
  match r with
  | Ok _ => vr_outcome uuid now c vr vr'
  | Err _ => ∀ id, vr_ListVersions id vr' = vr_ListVersions id vr
  end.

Lemma newest_in ids p : p ∈ newest ids ↔ list.last ids = Some p.
Proof. unfold newest. destruct (list.last ids); set_solver. Qed.

Lemma create_post uuid now e vr : vr_inv vr → fresh_uuid uuid vr → vr_post uuid now (VCreate e) vr.
Proof.
  intros Hinv Hf. unfold vr_post, vr_run, vr_Create. pose proof (inner_create _ _ _ L e (inner_state vr)) as HL.
  destruct (repo_Create inner e (inner_state vr)) as [[e'|er] s] eqn:E.
  - destruct HL as [Hnone Hview]. run (on_inner_run _ _ _ _ E).
    assert (version_ids vr !! GetID e' = None) as Hids.
    { apply eq_None_not_Some. intros H%(vr_stored _ Hinv). unfold entity_view in H. rewrite Hnone in H. by destruct H. }
    set (vr1 := mkVR s (dag vr) (version_ids vr)).
    assert (vr_inv vr1) as Hinv1.
    { apply inner_step_inv; [done|]. intros id H%(vr_stored _ Hinv). rewrite Hview, lookup_insert. by case_decide. }
    destruct (appendVersion uuid now (GetID e') e' [] vr1) as [r vr'] eqn:Ea.
    destruct (appendVersion_inv uuid now (GetID e') e' [] vr1 r vr') as (Hi'&Hs'&Hr); try done.
    { unfold entity_view. simpl. rewrite Hview, lookup_insert_eq. by eexists. }
    { set_solver. } { simpl. by rewrite Hids. }
    split; [done|]. destruct r as [[]|er]; [|by destruct Hr as [-> _]].
    exists e'. unfold entity_view. rewrite Hs'. split_and!; [done| |exact Hr]. unfold vr_ListVersions. by rewrite Hids.
  - stop (on_inner_run _ _ _ _ E). split; [|done].
    apply inner_step_inv; [done|]. intros id H%(vr_stored _ Hinv). by rewrite HL.
Qed.

Lemma update_post uuid now e vr : vr_inv vr → fresh_uuid uuid vr → vr_post uuid now (VUpdate e) vr.
Proof.
  intros Hinv Hf. unfold vr_post, vr_run, vr_Update. pose proof (inner_update _ _ _ L e (inner_state vr)) as HL.
  destruct (repo_Update inner e (inner_state vr)) as [[e'|er] s] eqn:E.
  - destruct HL as [Hsome Hview]. run (on_inner_run _ _ _ _ E).
    set (vr1 := mkVR s (dag vr) (version_ids vr)).
    assert (vr_inv vr1) as Hinv1.
    { apply inner_step_inv; [done|]. intros id H%(vr_stored _ Hinv). rewrite Hview, lookup_insert. by case_decide. }
    rewrite (st_run _ _ _ (newest (default [] (version_ids vr !! GetID e'))) vr1) by done.
    set (ps := newest _).
    destruct (appendVersion uuid now (GetID e') e' ps vr1) as [r vr'] eqn:Ea.
    destruct (appendVersion_inv uuid now (GetID e') e' ps vr1 r vr') as (Hi'&Hs'&Hr); try done.
    { unfold entity_view. simpl. rewrite Hview, lookup_insert_eq. by eexists. }
    { intros p Hp%newest_in. by eapply (last_known (GetID e') vr1). }
    { intros v Hv. by apply newest_in. }
    split; [done|]. destruct r as [[]|er]; [|by destruct Hr as [-> _]].
    exists e'. unfold entity_view. rewrite Hs'. split; [done|exact Hr].
  - stop (on_inner_run _ _ _ _ E). split; [|done].
    apply inner_step_inv; [done|]. intros id H%(vr_stored _ Hinv). by rewrite HL.
Qed.

Lemma revert_post uuid now id vid vr : vr_inv vr → fresh_uuid uuid vr → vr_post uuid now (VRevert id vid) vr.
Proof.
  intros Hinv Hf. unfold vr_post, vr_run, vr_Revert.
  rewrite (st_run _ _ _ (default [] (version_ids vr !! id)) vr) by done.
  destruct (list.last (default [] (version_ids vr !! id))) as [hd|] eqn:El; [|done].
  destruct (existsb (String.eqb vid) (default [] (version_ids vr !! id))) eqn:Ex; [|done]. cbn [negb].
  apply existsb_eqb_elem in Ex. pose proof (inner_get _ _ _ L id (inner_state vr)) as HL.
  destruct (repo_Get inner id (inner_state vr)) as [[e|er] s] eqn:E; destruct HL as [Hview He].
  - run (on_inner_run _ _ _ _ E). set (vr1 := mkVR s (dag vr) (version_ids vr)).
    set (ps := if String.eqb vid hd then [hd] else [hd; vid]).
    assert (hd ∈ ps ∧ vid ∈ ps ∧ ∀ p, p ∈ ps → p = hd ∨ p = vid) as (Hhd&Hvid&Hps).
    { unfold ps. destruct (String.eqb_spec vid hd); subst; set_solver. }
    assert (vr_inv vr1) as Hinv1.
    { apply inner_step_inv; [done|]. intros i H%(vr_stored _ Hinv). by rewrite Hview. }
    destruct (appendVersion uuid now id e ps vr1) as [r vr'] eqn:Ea.
    destruct (appendVersion_inv uuid now id e ps vr1 r vr') as (Hi'&Hs'&Hr); try done.
    { unfold entity_view. simpl. rewrite Hview, He. by eexists. }
    { intros p [->| ->]%Hps; [by eapply (last_known id vr1)|].
      destruct (version_ids vr !! id) as [ids|] eqn:Ei; [|set_solver]. by eapply (vr_known _ Hinv1). }
    { intros v Hv. simpl in Hv. rewrite El in Hv. by simplify_eq. }
    split; [done|]. destruct r as [[]|er]; [|by destruct Hr as [-> _]].
    unfold vr_outcome, entity_view. rewrite Hs'. split; [done|]. by exists e, ps.
  - stop (on_inner_run _ _ _ _ E). split; [|done].
    apply inner_step_inv; [done|]. intros i H%(vr_stored _ Hinv). by rewrite Hview.
Qed.

Lemma delete_post uuid now id vr : vr_inv vr → vr_post uuid now (VDelete id) vr.
Proof.
  intros Hinv. unfold vr_post, vr_run, vr_Delete. pose proof (inner_delete _ _ _ L id (inner_state vr)) as HL.
  destruct (repo_Delete inner id (inner_state vr)) as [[[]|er] s] eqn:E.
  - destruct HL as [Hsome Hview]. run (on_inner_run _ _ _ _ E). simpl.
    pose proof Hinv as [Hwf Hs Hk Hc]. split; [split; simpl; [done|..]|].
    + intros i. rewrite lookup_delete. case_decide; [by intros [? ?]|]. intros Hx%Hs.
      unfold entity_view. simpl. by rewrite Hview, lookup_delete_ne.
    + intros i ids v. rewrite lookup_delete. case_decide; [done|]. apply Hk.
    + intros i ids j a b. rewrite lookup_delete. case_decide; [done|]. apply Hc.
    + split_and!; [done..|]. unfold vr_ListVersions. simpl. by rewrite lookup_delete_eq.
  - stop (on_inner_run _ _ _ _ E). split; [|done].
    apply inner_step_inv; [done|]. intros i H%(vr_stored _ Hinv). by rewrite HL.
Qed.

(** The versioned repository over any repository that keeps its contract:
    every call leaves a well-formed DAG in which each recorded version resolves
    and has its predecessor among its parents; a create records a first version, an
    update one on top of the newest, both with the fingerprint of the stored
    entity; a revert stores nothing, whatever version it names, and records the
    entity as it is; a delete removes the entity and its list of versions and
    records no version; a failed call records nothing. *)
Theorem versioned_repo_spec uuid now c vr :
  vr_inv vr → fresh_uuid uuid vr → vr_post uuid now c vr.
Proof.
  intros Hinv Hf. destruct c; [by apply create_post|by apply update_post|by apply revert_post|by apply delete_post].
Qed.

End laws.
End VersionedRepo.

#[local] Instance json_string : EntityJSON string := {| Marshal := Some; Unmarshal := Some; zeroT := "" |}.

Lemma versioned_repo_spec_witness :
  let key := String.substring 0 1 in
  let vr := (vr_run (HS:=λ s _, s) key (map_repository key) "u1" 1 (VCreate "e1")
               (NewVersionedRepository (∅ : gmap string string))).2 in
  version.ParentIDs <$> vr_ListVersions "e"
    (vr_run (HS:=λ s _, s) key (map_repository key) "u2" 2 (VUpdate "e2") vr).2 = [[]; ["e-u1"]].
Proof.
  intros key vr.
  assert (vr_inv id vr ∧ vr_ListVersions "e" vr = [version.mkVersion "e-u1" [] 1 "e1"]) as [Hinv Hl].
  { pose proof (versioned_repo_spec (HS:=λ s _, s) key (map_repository key) id (map_repository_laws key) "u1" 1 (VCreate "e1")
                  (NewVersionedRepository (∅ : gmap string string)) (new_inv _ _)) as H.
    split; [apply H|vm_compute; reflexivity]. by intros i. }
  pose proof (versioned_repo_spec (HS:=λ s _, s) key (map_repository key) id (map_repository_laws key) "u2" 2 (VUpdate "e2")
                vr Hinv) as H.
  destruct H as [_ (e&_&data&_&Hlist&_)].
  - intros i. apply lookup_singleton_ne. destruct i as [|a [|b [|c [|d i]]]]; intros Heq; try discriminate Heq; destruct i; discriminate Heq.
  - vm_compute. reflexivity.
Defined.
