(* ===== verification/Breaker.v ===== *)
(** * The circuit breaker (go/core/breaker)

    The [circuit] state machine, the [Breaker] around it with its byte and
    operation budgets, actions and statistics, and the wrap helpers.  Clock
    readings are arguments: a method of the circuit that may read the clock twice
    takes both, a method of the breaker takes one, as under a clock that stands
    still within a call.  failsafe-go's timeout, bulkhead and rate limiter are
    parameters: what they answer to the no-op [Allow] runs through them is an
    argument.  Logging is left out (the log line of a call let through under
    [Warn] calls [State], which finds the cooldown already expired by [Allow]);
    published transitions are recorded in order. *)

From S2P Require Import Prelude.

Local Open Scope Z_scope.

(** ** The circuit *)

Inductive State := Closed | Open | HalfOpen.

#[export] Instance State_eq_dec : EqDecision State.
Proof. solve_decision. Defined.

Record transition := mkTransition { t_from : State; t_to : State; t_manual : bool }.

Record circuit := mkCircuit {
  failureThreshold : Z;
  successThreshold : Z;
  delay : Z;
  state : State;
  openedAt : Z;
  failures : Z;
  successes : Z;
  permits : Z;
}.

Definition newCircuit (failureThreshold successThreshold delay : Z) : circuit :=
  mkCircuit failureThreshold successThreshold delay Closed 0 0 0 0.

Definition moveTo (next : State) (manual : bool) (now : Z) (c : circuit) : transition * circuit :=
  (mkTransition (state c) next manual,
   match next with
   | Closed => mkCircuit (failureThreshold c) (successThreshold c) (delay c) Closed (openedAt c) 0 (successes c) (permits c)
   | Open => mkCircuit (failureThreshold c) (successThreshold c) (delay c) Open now (failures c) (successes c) (permits c)
   | HalfOpen => mkCircuit (failureThreshold c) (successThreshold c) (delay c) HalfOpen (openedAt c) (failures c) 0 (successThreshold c)
   end).

Definition set_failures (n : Z) (c : circuit) : circuit :=
  mkCircuit (failureThreshold c) (successThreshold c) (delay c) (state c) (openedAt c) n (successes c) (permits c).
Definition set_successes (n : Z) (c : circuit) : circuit :=
  mkCircuit (failureThreshold c) (successThreshold c) (delay c) (state c) (openedAt c) (failures c) n (permits c).
Definition set_permits (n : Z) (c : circuit) : circuit :=
  mkCircuit (failureThreshold c) (successThreshold c) (delay c) (state c) (openedAt c) (failures c) (successes c) n.

Definition expire (now : Z) (c : circuit) : list transition * circuit :=
  if bool_decide (state c = Open) && (delay c <=? time_sub now (openedAt c)) then
    let '(t, c) := moveTo HalfOpen false now c in ([t], c)
  else ([], c).

Definition current (now : Z) (c : circuit) : State * list transition * circuit :=
  let '(out, c) := expire now c in (state c, out, c).

Definition release (c : circuit) : circuit :=
  if bool_decide (state c = HalfOpen) && (permits c <? successThreshold c) then set_permits (permits c + 1) c else c.

Definition tryAcquire (now : Z) (c : circuit) : bool * list transition * circuit :=
  let '(out, c) := expire now c in
  match state c with
  | Open => (false, out, c)
  | HalfOpen => if permits c =? 0 then (false, out, c) else (true, out, set_permits (permits c - 1) c)
  | Closed => (true, out, c)
  end.

(** [now'] is the reading of [moveTo]. *)
Definition record (now now' : Z) (success : bool) (c : circuit) : list transition * circuit :=
  let '(out, c) := expire now c in
  match state c with
  | Closed =>
      if success then (out, set_failures 0 c)
      else
        let c := set_failures (uint64 (failures c + 1)) c in
        if failureThreshold c <=? failures c then let '(t, c) := moveTo Open false now' c in (out ++ [t], c) else (out, c)
  | HalfOpen =>
      let c := if success then set_successes (uint64 (successes c + 1)) c else c in
      if negb success then let '(t, c) := moveTo Open false now' c in (out ++ [t], c)
      else if successThreshold c <=? successes c then let '(t, c) := moveTo Closed false now' c in (out ++ [t], c)
      else if permits c <? successThreshold c then (out, set_permits (permits c + 1) c)
      else (out, c)
  | Open => (out, c)
  end.

Definition open (now now' : Z) (manual : bool) (c : circuit) : list transition * circuit :=
  let '(out, c) := expire now c in
  match state c with
  | Open => (out, c)
  | _ => let '(t, c) := moveTo Open manual now' c in (out ++ [t], c)
  end.

Definition reset (now now' : Z) (c : circuit) : list transition * circuit :=
  let '(out, c) := expire now c in
  match state c with
  | Closed => (out, set_failures 0 c)
  | _ => let '(t, c) := moveTo Closed true now' c in (out ++ [t], c)
  end.

(** ** The breaker *)

Inductive Action := Halt | Degrade | Warn.

Record config := mkConfig {
  cfg_action : Action;
  circFailureThreshold : Z;
  circSuccessThreshold : Z;
  circDelay : Z;
  rateLimit : option (Z * Z);
  maxConcurrent : option Z;
  timeoutDuration : option Z;
  maxBytes : option Z;
  maxOps : option Z;
  fallback : option bool;                        (* whether the fallback succeeds *)
}.

Definition Minute : Z := 60 * 10 ^ 9.

(** [Option]s are functions on the configuration. *)
Definition OnTrip (a : Action) (c : config) : config :=
  mkConfig a (circFailureThreshold c) (circSuccessThreshold c) (circDelay c) (rateLimit c) (maxConcurrent c) (timeoutDuration c) (maxBytes c) (maxOps c) (fallback c).
Definition MaxPerInterval (n d : Z) (c : config) : config :=
  mkConfig (cfg_action c) (circFailureThreshold c) (circSuccessThreshold c) (circDelay c) (Some (uint64 n, d)) (maxConcurrent c) (timeoutDuration c) (maxBytes c) (maxOps c) (fallback c).
Definition MaxPerMinute (n : Z) : config → config := MaxPerInterval n Minute.
Definition MaxConcurrent (n : Z) (c : config) : config :=
  mkConfig (cfg_action c) (circFailureThreshold c) (circSuccessThreshold c) (circDelay c) (rateLimit c) (Some (uint64 n)) (timeoutDuration c) (maxBytes c) (maxOps c) (fallback c).
Definition Timeout_ (d : Z) (c : config) : config :=
  mkConfig (cfg_action c) (circFailureThreshold c) (circSuccessThreshold c) (circDelay c) (rateLimit c) (maxConcurrent c) (Some d) (maxBytes c) (maxOps c) (fallback c).
Definition MaxBytes (n : Z) (c : config) : config :=
  mkConfig (cfg_action c) (circFailureThreshold c) (circSuccessThreshold c) (circDelay c) (rateLimit c) (maxConcurrent c) (timeoutDuration c) (Some n) (maxOps c) (fallback c).
Definition MaxOps (n : Z) (c : config) : config :=
  mkConfig (cfg_action c) (circFailureThreshold c) (circSuccessThreshold c) (circDelay c) (rateLimit c) (maxConcurrent c) (timeoutDuration c) (maxBytes c) (Some n) (fallback c).
Definition ResetAfter (d : Z) (c : config) : config :=
  mkConfig (cfg_action c) (circFailureThreshold c) (circSuccessThreshold c) d (rateLimit c) (maxConcurrent c) (timeoutDuration c) (maxBytes c) (maxOps c) (fallback c).
Definition Fallback (fn : bool) (c : config) : config :=
  mkConfig (cfg_action c) (circFailureThreshold c) (circSuccessThreshold c) (circDelay c) (rateLimit c) (maxConcurrent c) (timeoutDuration c) (maxBytes c) (maxOps c) (Some fn).

Record CircuitOpts := mkCircuitOpts { FailureThreshold : Z; SuccessThreshold : Z; Delay : Z }.

Definition WithCircuit (o : CircuitOpts) (c : config) : config :=
  mkConfig (cfg_action c)
    (if 0 <? FailureThreshold o then FailureThreshold o else circFailureThreshold c)
    (if 0 <? SuccessThreshold o then SuccessThreshold o else circSuccessThreshold c)
    (if 0 <? Delay o then Delay o else circDelay c)
    (rateLimit c) (maxConcurrent c) (timeoutDuration c) (maxBytes c) (maxOps c) (fallback c).

Definition newConfig (opts : list (config → config)) : config :=
  foldl (λ c o, o c) (mkConfig Halt 5 1 (30 * 10 ^ 9) None None None None None None) opts.

Record Stats := mkStats { Trips : Z; LastTripAt : Z; LastTripReason : string }.

(** [b_bytes] and [b_ops] are the two counters, [b_events] what was published. *)
Record breakerImpl := mkBreaker {
  cfg : config;
  circ : circuit;
  b_bytes : Z;
  b_ops : Z;
  b_stats : Stats;
  b_events : list transition;
}.

Definition New (cf : config) : breakerImpl :=
  mkBreaker cf (newCircuit (circFailureThreshold cf) (circSuccessThreshold cf) (circDelay cf)) 0 0 (mkStats 0 0 "") [].

Definition autoTripReason := "circuit".

Definition countTrip (reason : string) (now : Z) (b : breakerImpl) : breakerImpl :=
  mkBreaker (cfg b) (circ b) (b_bytes b) (b_ops b) (mkStats (uint64 (Trips (b_stats b) + 1)) now reason) (b_events b).

Definition set_circ (c : circuit) (b : breakerImpl) : breakerImpl :=
  mkBreaker (cfg b) c (b_bytes b) (b_ops b) (b_stats b) (b_events b).

Definition emitTransitions (ts : list transition) (now : Z) (b : breakerImpl) : breakerImpl :=
  foldl (λ b t,
    let b := if bool_decide (t_to t = Open) && negb (t_manual t) then countTrip autoTripReason now b else b in
    mkBreaker (cfg b) (circ b) (b_bytes b) (b_ops b) (b_stats b) (b_events b ++ [t])) b ts.

Definition acquire (now : Z) (b : breakerImpl) : bool * breakerImpl :=
  let '(ok, ts, c) := tryAcquire now (circ b) in (ok, emitTransitions ts now (set_circ c b)).

Definition recordCircuit (success : bool) (now : Z) (b : breakerImpl) : breakerImpl :=
  let '(ts, c) := record now now success (circ b) in emitTransitions ts now (set_circ c b).

Inductive policy := policyCircuit | policyBulkhead | policyRate | policyBytes | policyOps.

(** What failsafe-go's bulkhead and rate limiter would answer now. *)
Record library := mkLib { lib_bulkhead : bool; lib_rate : bool }.
Definition pass : library := mkLib true true.

(** [threshold.PreExecute] of Volume and Count. *)
Definition exceeded (max : option Z) (current : Z) : bool :=
  match max with Some m => m <=? current | None => false end.

(** The pre-flight policies, outermost first, named as [rejectingPolicy] does.
    The timeout never fires on a no-op. *)
Definition preflight (lib : library) (b : breakerImpl) : option policy :=
  if bool_decide (is_Some (maxConcurrent (cfg b))) && negb (lib_bulkhead lib) then Some policyBulkhead
  else if bool_decide (is_Some (rateLimit (cfg b))) && negb (lib_rate lib) then Some policyRate
  else if exceeded (maxBytes (cfg b)) (b_bytes b) then Some policyBytes
  else if exceeded (maxOps (cfg b)) (b_ops b) then Some policyOps
  else None.

(** Whether the refused call is answered with nil after all. *)
Definition reject (b : breakerImpl) : bool :=
  match cfg_action (cfg b) with
  | Warn => true
  | Degrade => default false (fallback (cfg b))
  | Halt => false
  end.

(** [Allow]: nil or [ErrBrokenCircuit], and the policy that refused, if any. *)
Definition Allow (lib : library) (now : Z) (b : breakerImpl) : bool * option policy * breakerImpl :=
  let '(ok, b) := acquire now b in
  if negb ok then (reject b, Some policyCircuit, b)
  else match preflight lib b with
       | Some p => let b := set_circ (release (circ b)) b in (reject b, Some p, b)
       | None => (true, None, b)
       end.

Definition Record_ (success : bool) (n now : Z) (b : breakerImpl) : breakerImpl :=
  recordCircuit success now
    (mkBreaker (cfg b) (circ b) (int64 (b_bytes b + n)) (int64 (b_ops b + 1)) (b_stats b) (b_events b)).

Definition State_ (now : Z) (b : breakerImpl) : State * breakerImpl :=
  let '(s, ts, c) := current now (circ b) in (s, emitTransitions ts now (set_circ c b)).

Definition Reset (now : Z) (b : breakerImpl) : breakerImpl :=
  let '(ts, c) := reset now now (circ b) in
  emitTransitions ts now (mkBreaker (cfg b) c 0 0 (b_stats b) (b_events b)).

Definition Trip (reason : string) (now : Z) (b : breakerImpl) : breakerImpl :=
  let '(_, b) := State_ now b in
  let b := countTrip reason now b in
  let '(ts, c) := open now now true (circ b) in emitTransitions ts now (set_circ c b).

(** What a wrapped function did: [None] when it panicked, else its success and
    the bytes it is recorded with. *)
Definition gated (lib : library) (out : option (bool * Z)) (now now' : Z) (b : breakerImpl) : bool * breakerImpl :=
  let '(allowed, _, b) := Allow lib now b in
  if negb allowed then (false, b)
  else match out with
       | Some (ok, n) => (true, Record_ ok n now' b)
       | None => (true, b)
       end.

(** The results of the wrapped calls; [Some true] is success. *)
Definition WrapErr (lib : library) (err : option bool) : Z → Z → breakerImpl → bool * breakerImpl :=
  gated lib ((λ ok, (ok, 0)) <$> err).

Definition WrapBytes (lib : library) (out : option (bool * Z)) : Z → Z → breakerImpl → bool * breakerImpl :=
  gated lib ((λ x, if (x.1 : bool) then (true, x.2) else (false, 0)) <$> out).

Definition Write (lib : library) (out : option (bool * Z)) : Z → Z → breakerImpl → bool * breakerImpl := gated lib out.

Inductive read_err := RNil | REOF | RError.

Definition Read (lib : library) (out : option (read_err * Z)) : Z → Z → breakerImpl → bool * breakerImpl :=
  gated lib ((λ x, (match x.1 with RError => false | _ => true end, x.2)) <$> out).

Definition RoundTrip (lib : library) (out : option (bool * Z)) : Z → Z → breakerImpl → bool * breakerImpl :=
  gated lib ((λ x, if (x.1 : bool) then (true, if x.2 <? 0 then 0 else x.2) else (false, 0)) <$> out).

(** ** The state stays within its bounds *)

Record circuit_ok (c : circuit) : Prop := {
  ci_failure : 1 ≤ failureThreshold c < 2 ^ 64;
  ci_success : 1 ≤ successThreshold c < 2 ^ 64;
  ci_closed : state c = Closed → 0 ≤ failures c < failureThreshold c;
  ci_half : state c = HalfOpen → 0 ≤ successes c < successThreshold c ∧ 0 ≤ permits c ≤ successThreshold c;
}.

Lemma newCircuit_ok ft st d : 1 ≤ ft < 2 ^ 64 → 1 ≤ st < 2 ^ 64 → circuit_ok (newCircuit ft st d).
Proof. intros. by split; cbn; try lia. Qed.

Lemma moveTo_ok next manual now c : circuit_ok c → circuit_ok (moveTo next manual now c).2.
Proof. intros [H1 H2 H3 H4]. destruct next; split; cbn; try done; lia. Qed.

(** The transitions an operation reports lead from the state before to the
    state after. *)
Fixpoint chain (s : State) (ts : list transition) (s' : State) : Prop :=
  match ts with
  | [] => s = s'
  | t :: ts' => t_from t = s ∧ chain (t_to t) ts' s'
  end.

Lemma chain_app s ts s1 us s2 : chain s ts s1 → chain s1 us s2 → chain s (ts ++ us) s2.
Proof. revert s. induction ts as [|t ts IH]; intros s; cbn; [by intros ->|]. intros [? ?] ?. auto. Qed.

Definition step_ok (c : circuit) (ts : list transition) (c' : circuit) : Prop :=
  circuit_ok c' ∧ chain (state c) ts (state c') ∧
  failureThreshold c' = failureThreshold c ∧ successThreshold c' = successThreshold c ∧ delay c' = delay c.

Lemma expire_step now c : circuit_ok c → let '(ts, c') := expire now c in step_ok c ts c'.
Proof.
  intros I. unfold expire. destruct (bool_decide (state c = Open) && _); [|done].
  cbn. split_and!; try done. by apply (moveTo_ok HalfOpen false now).
Qed.

Lemma step_then_move c ts c1 c2 next manual now :
  step_ok c ts c1 → circuit_ok c2 → state c2 = state c1 →
  failureThreshold c2 = failureThreshold c1 → successThreshold c2 = successThreshold c1 → delay c2 = delay c1 →
  let '(t, c3) := moveTo next manual now c2 in step_ok c (ts ++ [t]) c3.
Proof.
  intros (H1 & H2 & H3 & H4 & H5) I2 Es E1 E2 E3. pose proof (moveTo_ok next manual now c2 I2) as Hm. unfold moveTo in *. cbn in Hm.
  split; [done|]. split; [|by destruct next; cbn; rewrite ?E1, ?E2, ?E3]. eapply chain_app; [exact H2|]. cbn. split; [done|]. by destruct next.
Qed.

Lemma step_then_same c ts c1 c2 :
  step_ok c ts c1 → circuit_ok c2 → state c2 = state c1 →
  failureThreshold c2 = failureThreshold c1 → successThreshold c2 = successThreshold c1 → delay c2 = delay c1 → step_ok c ts c2.
Proof. intros (H1 & H2 & H3 & H4 & H5) I2 Es E1 E2 E3. split; [done|]. by rewrite Es, E1, E2, E3. Qed.

Lemma tryAcquire_step now c : circuit_ok c → let '(_, ts, c') := tryAcquire now c in step_ok c ts c'.
Proof.
  intros I. unfold tryAcquire. pose proof (expire_step now c I) as He. destruct (expire now c) as [out c1].
  pose proof He as (I1 & _). destruct (state c1) eqn:Es; try done. destruct (Z.eqb_spec (permits c1) 0) as [|Hne]; [done|].
  eapply step_then_same; try done. destruct I1 as [H1 H2 H3 H4]. specialize (H4 Es). split; cbn; try done; try congruence; lia.
Qed.

Lemma record_step now now' success c : circuit_ok c → let '(ts, c') := record now now' success c in step_ok c ts c'.
Proof.
  intros I. unfold record. pose proof (expire_step now c I) as He. destruct (expire now c) as [out c1].
  pose proof He as (I1 & _). pose proof I1 as [H1 H2 H3 H4]. destruct (state c1) eqn:Es; [|done|].
  - specialize (H3 eq_refl). destruct success.
    + eapply step_then_same; try done. split; cbn; try done; try congruence; lia.
    + rewrite uint64_small by lia. cbn [failureThreshold failures set_failures].
      destruct (Z.leb_spec (failureThreshold c1) (failures c1 + 1)) as [|Hlt].
      * pose proof (moveTo_ok Open false now' c1 I1) as Hm. destruct He as (_ & Hch & E1 & E2 & E3). unfold moveTo in *. cbn in *.
        split; [|split; [|done]]. { split; cbn; done. } rewrite Es in *. eapply chain_app; [exact Hch|]. done.
      * eapply step_then_same; try done. split; cbn; try done; try congruence; lia.
  - specialize (H4 eq_refl). destruct success; cbn [negb].
    + rewrite uint64_small by lia. cbn [successThreshold successes set_successes permits].
      destruct (Z.leb_spec (successThreshold c1) (successes c1 + 1)) as [|Hlt].
      * destruct He as (_ & Hch & E1 & E2 & E3). unfold moveTo. cbn.
        split; [split; cbn; try done; lia|]. split; [|done]. rewrite Es in *. eapply chain_app; [exact Hch|]. done.
      * destruct (Z.ltb_spec (permits c1) (successThreshold c1)); eapply step_then_same; try done; split; cbn; try done; try congruence; lia.
    + by apply (step_then_move c out c1 c1).
Qed.

Lemma open_step now now' manual c : circuit_ok c → let '(ts, c') := open now now' manual c in step_ok c ts c'.
Proof.
  intros I. unfold open. pose proof (expire_step now c I) as He. destruct (expire now c) as [out c1]. pose proof He as (I1 & _).
  destruct (state c1) eqn:Es; try done; by apply (step_then_move c out c1 c1).
Qed.

Lemma reset_step now now' c : circuit_ok c → let '(ts, c') := reset now now' c in step_ok c ts c'.
Proof.
  intros I. unfold reset. pose proof (expire_step now c I) as He. destruct (expire now c) as [out c1]. pose proof He as (I1 & _).
  destruct (state c1) eqn:Es; [|by apply (step_then_move c out c1 c1)..].
  eapply step_then_same; try done. destruct I1 as [H1 H2 H3 H4]. split; cbn; try done; try congruence; lia.
Qed.

Lemma release_ok c : circuit_ok c → circuit_ok (release c) ∧ state (release c) = state c.
Proof.
  intros I. unfold release. destruct (bool_decide (state c = HalfOpen)) eqn:Eb; [|done]. apply bool_decide_eq_true in Eb.
  cbn. destruct (Z.ltb_spec (permits c) (successThreshold c)); [|done]. destruct I as [H1 H2 H3 H4]. specialize (H4 Eb).
  split; [|done]. split; cbn; try done; try congruence; lia.
Qed.

(** ** Calls of the breaker *)

Inductive call :=
| CallAllow (lib : library) (now : Z)
| CallRecord (success : bool) (n now : Z)
| CallState (now : Z)
| CallReset (now : Z)
| CallTrip (reason : string) (now : Z).

Definition call_do (b : breakerImpl) (x : call) : breakerImpl :=
  match x with
  | CallAllow lib now => (Allow lib now b).2
  | CallRecord success n now => Record_ success n now b
  | CallState now => (State_ now b).2
  | CallReset now => Reset now b
  | CallTrip reason now => Trip reason now b
  end.

Definition is_auto_open (t : transition) : bool := bool_decide (t_to t = Open) && negb (t_manual t).
Definition is_trip (x : call) : bool := match x with CallTrip _ _ => true | _ => false end.
Definition count {A} (p : A → bool) (l : list A) : Z := Z.of_nat (length (filter (λ x, p x = true) l)).

Lemma count_app {A} (p : A → bool) l k : count p (l ++ k) = count p l + count p k.
Proof. unfold count. rewrite filter_app, length_app. lia. Qed.

Lemma count_cons {A} (p : A → bool) x l : count p (x :: l) = (if p x then 1 else 0) + count p l.
Proof. unfold count. rewrite filter_cons. destruct (p x) eqn:E; case_decide; simpl; congruence || lia. Qed.

Lemma emit_spec ts now : ∀ b,
  circ (emitTransitions ts now b) = circ b ∧ cfg (emitTransitions ts now b) = cfg b ∧
  b_events (emitTransitions ts now b) = b_events b ++ ts ∧
  b_bytes (emitTransitions ts now b) = b_bytes b ∧ b_ops (emitTransitions ts now b) = b_ops b ∧
  uint64 (Trips (b_stats (emitTransitions ts now b))) = uint64 (Trips (b_stats b) + count is_auto_open ts).
Proof.
  induction ts as [|t ts IH]; intros b; [split_and!; try done; cbn; by rewrite app_nil_r || by rewrite Z.add_0_r|].
  cbn [emitTransitions foldl]. set (b1 := mkBreaker _ _ _ _ _ _). destruct (IH b1) as (H1 & H2 & H3 & H4 & H5 & H6).
  unfold emitTransitions in *. rewrite H1, H2, H3, H4, H5, H6. unfold b1. rewrite count_cons. unfold is_auto_open.
  destruct (bool_decide (t_to t = Open) && negb (t_manual t)); cbn; split_and!; try done; try (by rewrite <-app_assoc).
  unfold uint64. rewrite Zplus_mod_idemp_l. f_equal. lia.
Qed.

(** What a history of calls leaves: a circuit within its bounds, published
    transitions that lead from Closed to the present state, and every automatic
    open and every manual trip counted. *)
Record breaker_ok (trips : Z) (b : breakerImpl) : Prop := {
  bo_circ : circuit_ok (circ b);
  bo_chain : chain Closed (b_events b) (state (circ b));
  bo_trips : uint64 (Trips (b_stats b)) = uint64 (trips + count is_auto_open (b_events b));
}.

Lemma emit_ok trips b ts c now bytes ops :
  breaker_ok trips b → step_ok (circ b) ts c →
  breaker_ok trips (emitTransitions ts now (mkBreaker (cfg b) c bytes ops (b_stats b) (b_events b))).
Proof.
  intros [H1 H2 H3] (Hc & Hch & _). set (b1 := mkBreaker _ _ _ _ _ _).
  destruct (emit_spec ts now b1) as (E1 & _ & E3 & _ & _ & E6). split; rewrite ?E1, ?E3, ?E6; cbn; [done|by eapply chain_app|].
  rewrite count_app. unfold uint64 in *. rewrite <-Zplus_mod_idemp_l, H3, Zplus_mod_idemp_l. f_equal. lia.
Qed.

Lemma State_ok trips now b : breaker_ok trips b → breaker_ok trips (State_ now b).2.
Proof.
  intros I. unfold State_, current. pose proof (expire_step now (circ b) (bo_circ _ _ I)) as He.
  destruct (expire now (circ b)) as [ts c]. by apply (emit_ok trips b ts c now (b_bytes b) (b_ops b)).
Qed.

Lemma call_ok trips b x : breaker_ok trips b → breaker_ok (trips + if is_trip x then 1 else 0) (call_do b x).
Proof.
  intros I. destruct x as [lib now|success n now|now|now|reason now]; cbn [call_do is_trip]; rewrite ?Z.add_0_r.
  - unfold Allow, acquire. pose proof (tryAcquire_step now (circ b) (bo_circ _ _ I)) as Hs.
    destruct (tryAcquire now (circ b)) as [[ok ts] c]. pose proof (emit_ok trips b ts c now (b_bytes b) (b_ops b) I Hs) as I1.
    change (mkBreaker _ _ _ _ _ _) with (set_circ c b) in I1. destruct ok; [|done]. cbn [negb]. destruct (preflight lib _); [|done].
    destruct I1 as [J1 J2 J3]. destruct (release_ok _ J1) as [K1 K2]. split; cbn; [done|by rewrite K2|done].
  - unfold Record_, recordCircuit. cbn [circ]. pose proof (record_step now now success (circ b) (bo_circ _ _ I)) as Hs.
    destruct (record now now success (circ b)) as [ts c]. by apply (emit_ok trips b).
  - by apply State_ok.
  - unfold Reset. pose proof (reset_step now now (circ b) (bo_circ _ _ I)) as Hs. destruct (reset now now (circ b)) as [ts c].
    by apply (emit_ok trips b).
  - unfold Trip. pose proof (State_ok trips now b I) as I1. destruct (State_ now b) as [s b1]. cbn in I1.
    assert (I2 : breaker_ok (trips + 1) (countTrip reason now b1)).
    { destruct I1 as [J1 J2 J3]. split; cbn; try done. unfold uint64 in *. rewrite Zmod_mod, <-Zplus_mod_idemp_l, J3, Zplus_mod_idemp_l. f_equal. lia. }
    pose proof (open_step now now true (circ (countTrip reason now b1)) (bo_circ _ _ I2)) as Hs.
    destruct (open now now true _) as [ts c]. by apply (emit_ok (trips + 1) (countTrip reason now b1)).
Qed.

Lemma calls_ok xs : ∀ trips b, breaker_ok trips b → breaker_ok (trips + count is_trip xs) (foldl call_do b xs).
Proof.
  induction xs as [|x xs IH]; intros trips b I; [by rewrite Z.add_0_r|]. rewrite count_cons. cbn.
  replace (trips + _) with (trips + (if is_trip x then 1 else 0) + count is_trip xs) by lia. by apply IH, call_ok.
Qed.

(** The options of the package; thresholds have 64 bits. *)
Inductive is_option : (config → config) → Prop :=
| is_OnTrip a : is_option (OnTrip a)
| is_MaxPerInterval n d : is_option (MaxPerInterval n d)
| is_MaxConcurrent n : is_option (MaxConcurrent n)
| is_Timeout d : is_option (Timeout_ d)
| is_MaxBytes n : is_option (MaxBytes n)
| is_MaxOps n : is_option (MaxOps n)
| is_ResetAfter d : is_option (ResetAfter d)
| is_Fallback fn : is_option (Fallback fn)
| is_WithCircuit o : 0 ≤ FailureThreshold o < 2 ^ 64 → 0 ≤ SuccessThreshold o < 2 ^ 64 → is_option (WithCircuit o).

Lemma options_thresholds opts : Forall is_option opts → ∀ c,
  1 ≤ circFailureThreshold c < 2 ^ 64 ∧ 1 ≤ circSuccessThreshold c < 2 ^ 64 →
  let c' := foldl (λ c o, o c) c opts in 1 ≤ circFailureThreshold c' < 2 ^ 64 ∧ 1 ≤ circSuccessThreshold c' < 2 ^ 64.
Proof.
  induction 1 as [|o opts Ho _ IH]; intros c Hc; [done|]. cbn. apply IH.
  destruct Ho; cbn; try exact Hc. destruct (Z.ltb_spec 0 (FailureThreshold o)), (Z.ltb_spec 0 (SuccessThreshold o)); lia.
Qed.

Lemma newConfig_thresholds opts : Forall is_option opts →
  1 ≤ circFailureThreshold (newConfig opts) < 2 ^ 64 ∧ 1 ≤ circSuccessThreshold (newConfig opts) < 2 ^ 64.
Proof. intros H. by apply options_thresholds. Qed.

(** Whatever options a breaker is built with and whatever calls are made, at
    whatever times, the circuit's counters stay within their thresholds (so none
    of them can overflow), the published transitions lead step by step from
    Closed to the present state, and the trip count is the automatic opens plus
    the manual trips. *)
Theorem breaker_trace opts xs :
  Forall is_option opts →
  let b := foldl call_do (New (newConfig opts)) xs in
  circuit_ok (circ b) ∧ chain Closed (b_events b) (state (circ b)) ∧
  uint64 (Trips (b_stats b)) = uint64 (count is_trip xs + count is_auto_open (b_events b)).
Proof.
  intros Ho b. destruct (newConfig_thresholds opts Ho) as [Hf Hs].
  destruct (calls_ok xs 0 (New (newConfig opts))) as [H1 H2 H3]; [|done].
  split; cbn; [by apply newCircuit_ok|done..].
Qed.

Lemma breaker_trace_witness :
  let b := foldl call_do (New (newConfig [WithCircuit (mkCircuitOpts 2 0 10)]))
             [CallRecord false 0 1; CallRecord false 0 2; CallAllow pass 20; CallRecord true 0 21; CallTrip "ops" 22] in
  length (b_events b) = 4%nat ∧ circuit_ok (circ b).
Proof.
  split; [vm_compute; reflexivity|].
  exact (proj1 (breaker_trace [WithCircuit (mkCircuitOpts 2 0 10)] _
    ltac:(constructor; [apply is_WithCircuit; cbn; lia|constructor]))).
Defined.

(** [optionsFromMap] ranges over a map: the options of one configuration file
    can come in either order, and two of them set the cooldown. *)
Example option_order_matters :
  let cooldown opts := circDelay (newConfig opts) in
  cooldown [ResetAfter 5; WithCircuit (mkCircuitOpts 0 0 7)] = 7 ∧ cooldown [WithCircuit (mkCircuitOpts 0 0 7); ResetAfter 5] = 5.
Proof. vm_compute. auto. Qed.

(** ** When the circuit opens *)

(** [n] consecutive failures somewhere in the outcomes. *)
Definition has_run (n : nat) (l : list bool) : Prop := ∃ l1 l2, l = l1 ++ replicate n false ++ l2.

Fixpoint records (outcomes : list (Z * Z * bool)) (c : circuit) : list transition * circuit :=
  match outcomes with
  | [] => ([], c)
  | (now, now', ok) :: rest => let '(ts, c) := record now now' ok c in let '(us, c) := records rest c in (ts ++ us, c)
  end.

Lemma has_run_cons_true n l : has_run (S n) (true :: l) ↔ has_run (S n) l.
Proof.
  split.
  - intros ([|x l1] & l2 & E); [done|]. injection E as _ E. by exists l1, l2.
  - intros (l1 & l2 & ->). by exists (true :: l1), l2.
Qed.

(** A list that starts with [k] failures, fewer than [n], and then a success. *)
Lemma has_run_prefix k n l :
  (k < S n)%nat → has_run (S n) (replicate k false ++ true :: l) ↔ has_run (S n) l.
Proof.
  intros Hk. split.
  - intros (l1 & l2 & E). assert (Hl : (k < length l1)%nat).
    { destruct (decide (k < length l1)%nat) as [|Hge]; [done|exfalso].
      assert (Hlk : (replicate k false ++ true :: l) !! k = Some true).
      { rewrite lookup_app_r by (rewrite length_replicate; done). by rewrite length_replicate, Nat.sub_diag. }
      rewrite E, lookup_app_r, lookup_app_l in Hlk by (rewrite ?length_replicate; lia).
      apply lookup_replicate in Hlk as [? _]. done. }
    exists (drop (S k) l1), l2. apply (f_equal (drop (S k))) in E.
    rewrite drop_app_ge in E by (rewrite length_replicate; lia). rewrite length_replicate in E.
    replace (S k - k)%nat with 1%nat in E by lia. cbn [drop] in E. rewrite drop_0 in E.
    rewrite E, drop_app_le by lia. done.
  - intros (l1 & l2 & ->). exists (replicate k false ++ true :: l1), l2. by rewrite <-!app_assoc.
Qed.

Lemma has_run_short k n : (k < n)%nat → ¬ has_run n (replicate k false).
Proof. intros Hk (l1 & l2 & E). apply (f_equal length) in E. rewrite !length_app, !length_replicate in E. lia. Qed.

Lemma record_closed now now' ok c :
  circuit_ok c → state c = Closed →
  record now now' ok c =
    if ok then ([], set_failures 0 c)
    else if failureThreshold c <=? failures c + 1 then
      ([mkTransition Closed Open false], (moveTo Open false now' (set_failures (failures c + 1) c)).2)
    else ([], set_failures (failures c + 1) c).
Proof.
  intros I Es. pose proof (ci_closed _ I Es). pose proof (ci_failure _ I). unfold record, expire. rewrite Es. cbn [bool_decide].
  rewrite bool_decide_eq_false_2 by done. cbn [andb]. rewrite Es. destruct ok; [done|]. rewrite uint64_small by lia. cbn.
  destruct (_ <=? _); [by rewrite Es|done].
Qed.

Lemma records_closed outcomes : ∀ c,
  circuit_ok c → state c = Closed →
  (records outcomes c).1 = [] ↔
  ¬ has_run (Z.to_nat (failureThreshold c)) (replicate (Z.to_nat (failures c)) false ++ outcomes.*2).
Proof.
  induction outcomes as [|[[now now'] ok] rest IH]; intros c I Es; pose proof (ci_closed _ I Es); pose proof (ci_failure _ I).
  - rewrite app_nil_r. split; [intros _|done]. apply has_run_short. lia.
  - cbn [records]. rewrite (record_closed now now' ok c I Es). rewrite fmap_cons. cbn [snd].
    destruct (Z.to_nat (failureThreshold c)) as [|n] eqn:En; [lia|]. destruct ok.
    + specialize (IH (set_failures 0 c)). destruct (records rest (set_failures 0 c)) as [us c']. cbn [fst app] in *.
      rewrite has_run_prefix by lia. cbn in IH. rewrite En in IH. apply IH; [|done]. destruct I as [? ? ? ?]. split; cbn; try done; lia.
    + destruct (Z.leb_spec (failureThreshold c) (failures c + 1)) as [Hge|Hlt].
      * destruct (records rest _) as [us c']. cbn [fst app]. split; [done|]. intros Hn. exfalso. apply Hn.
        exists [], (rest.*2). cbn [app]. replace (S n) with (Z.to_nat (failures c) + 1)%nat by lia.
        by rewrite replicate_add, <-app_assoc.
      * specialize (IH (set_failures (failures c + 1) c)). destruct (records rest (set_failures (failures c + 1) c)) as [us c']. cbn [fst app] in *.
        cbn in IH. rewrite En in IH. replace (Z.to_nat (failures c + 1)) with (Z.to_nat (failures c) + 1)%nat in IH by lia.
        rewrite replicate_add, <-app_assoc in IH. apply IH; [|done]. destruct I as [? ? ? ?]. split; cbn; try done; try congruence; lia.
Qed.

(** The failure counter is the specification "as many consecutive failures
    as the threshold": a closed circuit leaves Closed over a sequence of
    outcomes exactly when the sequence contains such a run, whatever lies
    around it and whenever the outcomes arrive. *)
Theorem trips_on_consecutive_failures ft st d outcomes :
  1 ≤ ft < 2 ^ 64 → 1 ≤ st < 2 ^ 64 →
  (records outcomes (newCircuit ft st d)).1 = [] ↔ ¬ has_run (Z.to_nat ft) (outcomes.*2).
Proof. intros Hf Hs. by apply (records_closed outcomes (newCircuit ft st d)); [apply newCircuit_ok|]. Qed.

Lemma trips_on_consecutive_failures_witness :
  (records [(0, 0, false); (1, 1, true); (2, 2, false)] (newCircuit 2 1 10)).1 = [] ∧ ¬ has_run 2 [false; true; false].
Proof.
  assert (H : (records [(0, 0, false); (1, 1, true); (2, 2, false)] (newCircuit 2 1 10)).1 = []) by (vm_compute; reflexivity).
  split; [exact H|]. exact (proj1 (trips_on_consecutive_failures 2 1 10 [(0, 0, false); (1, 1, true); (2, 2, false)] ltac:(lia) ltac:(lia)) H).
Defined.

(** ** The cooldown *)

Inductive circuit_op :=
| QAcquire (now : Z)
| QRecord (now now' : Z) (ok : bool)
| QRelease
| QCurrent (now : Z)
| QOpen (now now' : Z) (manual : bool).

Definition op_do (c : circuit) (x : circuit_op) : circuit :=
  match x with
  | QAcquire now => (tryAcquire now c).2
  | QRecord now now' ok => (record now now' ok c).2
  | QRelease => release c
  | QCurrent now => (current now c).2
  | QOpen now now' manual => (open now now' manual c).2
  end.

(** The operation reads the clock before [t + delay]. *)
Definition within (c : circuit) (x : circuit_op) : Prop :=
  match x with
  | QAcquire now | QRecord now _ _ | QCurrent now | QOpen now _ _ => time_sub now (openedAt c) < delay c
  | QRelease => True
  end.

Lemma expire_within now c : time_sub now (openedAt c) < delay c → expire now c = ([], c).
Proof. intros Ht. unfold expire. by rewrite (proj2 (Z.leb_gt _ _)), andb_false_r. Qed.

Lemma open_op c x : state c = Open → within c x → op_do c x = c.
Proof.
  intros Es Hw. destruct x; cbn in *; unfold tryAcquire, record, current, open, release; rewrite ?expire_within by done; rewrite ?Es; try done.
Qed.

(** An open circuit admits nothing and nothing moves it before its cooldown
    is over: executions are refused, outcomes, late releases and further trips
    leave it exactly as it is.  The first request at or after the end of the
    cooldown is admitted as a probe. *)
Theorem open_cooldown c xs now :
  circuit_ok c → state c = Open → Forall (within c) xs →
  foldl op_do c xs = c ∧
  (time_sub now (openedAt c) < delay c → (tryAcquire now c).1 = (false, [])) ∧
  (delay c ≤ time_sub now (openedAt c) →
     (tryAcquire now c).1 = (true, [mkTransition Open HalfOpen false]) ∧ state (tryAcquire now c).2 = HalfOpen).
Proof.
  intros I Es Hxs. split_and!.
  - induction Hxs as [|x xs Hx _ IH]; [done|]. cbn. by rewrite open_op.
  - intros Ht. unfold tryAcquire. rewrite expire_within by done. by rewrite Es.
  - intros Ht. unfold tryAcquire, expire. rewrite bool_decide_eq_true_2, (proj2 (Z.leb_le _ _)) by done. cbn.
    pose proof (ci_success _ I). destruct (Z.eqb_spec (successThreshold c) 0); [lia|]. cbn. by rewrite Es.
Qed.

Lemma open_cooldown_witness :
  let c := (record 100 100 false (newCircuit 1 2 10)).2 in
  foldl op_do c [QAcquire 105; QRecord 109 109 true; QRelease; QOpen 101 102 true] = c ∧ (tryAcquire 110 c).1.1 = true.
Proof.
  destruct (open_cooldown (record 100 100 false (newCircuit 1 2 10)).2 [QAcquire 105; QRecord 109 109 true; QRelease; QOpen 101 102 true] 110)
    as (H1 & _ & H2).
  - pose proof (record_step 100 100 false (newCircuit 1 2 10) (newCircuit_ok 1 2 10 ltac:(lia) ltac:(lia))) as (H & _). exact H.
  - vm_compute. reflexivity.
  - repeat constructor.
  - split; [exact H1|]. destruct H2 as [H2 _]; [vm_compute; discriminate|]. by rewrite H2.
Defined.

(** ** Probes *)

(** A half-open circuit and the probes it admitted that are still running. *)
Inductive probe_op := PAcquire (now : Z) | PSuccess (now now' : Z) | PFailure (now now' : Z) | PRelease.

Definition probe_do (x : circuit * Z) (o : probe_op) : circuit * Z :=
  let '(c, n) := x in
  match o with
  | PAcquire now => let '(ok, _, c') := tryAcquire now c in (c', if ok then n + 1 else n)
  | PSuccess now now' => if 0 <? n then ((record now now' true c).2, n - 1) else x
  | PFailure now now' => if 0 <? n then ((record now now' false c).2, n - 1) else x
  | PRelease => if 0 <? n then (release c, n - 1) else x
  end.

Fixpoint probes (os : list probe_op) (x : circuit * Z) : circuit * Z :=
  match os with
  | [] => x
  | o :: os' => if bool_decide (state x.1 = HalfOpen) then probes os' (probe_do x o) else x
  end.

Lemma expire_half now c : state c = HalfOpen → expire now c = ([], c).
Proof. intros Es. unfold expire. by rewrite bool_decide_eq_false_2 by congruence. Qed.

Lemma probe_step c n o :
  circuit_ok c → state c = HalfOpen → 0 ≤ n → n + permits c = successThreshold c →
  let '(c', n') := probe_do (c, n) o in
  circuit_ok c' ∧ successThreshold c' = successThreshold c ∧ (state c' = HalfOpen → 0 ≤ n' ∧ n' + permits c' = successThreshold c').
Proof.
  intros I Es Hn Hsum. pose proof (ci_half _ I Es) as [Hs Hp]. pose proof (ci_success _ I) as Ht.
  destruct o as [now|now now'|now now'|]; cbn [probe_do].
  - pose proof (tryAcquire_step now c I) as Hstep. unfold tryAcquire in *. rewrite expire_half, Es in * by done.
    destruct (Z.eqb_spec (permits c) 0); destruct Hstep as (? & _ & _ & ? & _); cbn in *; split_and!; try done; lia.
  - destruct (Z.ltb_spec 0 n) as [Hpos|]; [|split_and!; auto].
    pose proof (record_step now now' true c I) as Hstep. unfold record in *. rewrite expire_half, Es in * by done. cbn [negb] in *.
    rewrite uint64_small in * by lia. cbn [successThreshold successes set_successes permits] in *.
    destruct (Z.leb_spec (successThreshold c) (successes c + 1)); cbn in *.
    + destruct Hstep as (? & _ & _ & ? & _). split_and!; done.
    + destruct (Z.ltb_spec (permits c) (successThreshold c)); destruct Hstep as (? & _ & _ & ? & _); cbn in *; split_and!; try done; lia.
  - destruct (Z.ltb_spec 0 n) as [Hpos|]; [|split_and!; auto].
    pose proof (record_step now now' false c I) as Hstep. unfold record in *. rewrite expire_half, Es in * by done. cbn in *.
    destruct Hstep as (? & _ & _ & ? & _). split_and!; done.
  - destruct (Z.ltb_spec 0 n) as [Hpos|]; [|split_and!; auto]. destruct (release_ok c I) as [Hr _]. unfold release in *.
    rewrite bool_decide_eq_true_2 in * by done. rewrite (proj2 (Z.ltb_lt _ _)) in * by lia. cbn in *. split_and!; try done; lia.
Qed.

Lemma probes_inv os : ∀ c n,
  circuit_ok c → (state c = HalfOpen → 0 ≤ n ∧ n + permits c = successThreshold c) →
  let '(c', n') := probes os (c, n) in
  circuit_ok c' ∧ successThreshold c' = successThreshold c ∧ (state c' = HalfOpen → 0 ≤ n' ∧ n' + permits c' = successThreshold c').
Proof.
  induction os as [|o os IH]; intros c n I Hh; [done|]. cbn [probes]. case_bool_decide as Es; [|done]. destruct (Hh Es) as [Hn Hsum].
  pose proof (probe_step c n o I Es Hn Hsum) as Hp. destruct (probe_do (c, n) o) as [c1 n1]. destruct Hp as (I1 & E1 & H1).
  specialize (IH c1 n1 I1 H1). destruct (probes os (c1, n1)) as [c2 n2]. by rewrite <-E1.
Qed.

(** While a circuit stays half-open and each outcome belongs to a probe, at
    most [successThreshold] probes run at a time, and one more is admitted
    exactly when fewer than that are running: no permit is lost or invented. *)
Theorem half_open_probes c os now :
  circuit_ok c → state c = HalfOpen → permits c = successThreshold c →
  let '(c', n) := probes os (c, 0) in
  state c' = HalfOpen → 0 ≤ n ≤ successThreshold c ∧ ((tryAcquire now c').1.1 = true ↔ n < successThreshold c).
Proof.
  intros I Es Hp. pose proof (probes_inv os c 0 I ltac:(intros; lia)) as Hinv. destruct (probes os (c, 0)) as [c' n].
  destruct Hinv as (I' & E & H). intros Es'. destruct (H Es') as [Hn Hsum]. pose proof (ci_half _ I' Es') as [_ Hpp].
  split; [lia|]. unfold tryAcquire. rewrite expire_half, Es' by done. destruct (Z.eqb_spec (permits c') 0); cbn; split; try done; lia.
Qed.

Definition probing : circuit := (current 10 (record 0 0 false (newCircuit 1 3 10)).2).2.

Lemma half_open_probes_witness :
  let os := [PAcquire 11; PAcquire 12; PSuccess 13 13; PAcquire 14; PRelease; PAcquire 15] in
  (probes os (probing, 0)).2 = 2 ∧ (tryAcquire 16 (probes os (probing, 0)).1).1.1 = true.
Proof.
  split; [vm_compute; reflexivity|].
  assert (I : circuit_ok probing) by (split; vm_compute; intuition discriminate).
  exact (proj2 (proj2 (half_open_probes probing [PAcquire 11; PAcquire 12; PSuccess 13 13; PAcquire 14; PRelease; PAcquire 15] 16
    I eq_refl eq_refl eq_refl)) eq_refl).
Defined.

(** A probe whose function panics is never recorded: with one permit the
    circuit is left half-open without permits, and every later call is refused
    at every time, since only Open expires. *)
Theorem panicking_probe_wedges b now nows lib now' :
  cfg_action (cfg b) = Halt → state (circ b) = HalfOpen → permits (circ b) = 1 → preflight pass b = None →
  let '(ran, b') := WrapErr pass None now now b in
  let b'' := foldl (λ b t, (Allow pass t b).2) b' nows in
  ran = true ∧ state (circ b'') = HalfOpen ∧ (Allow lib now' b'').1.1 = false.
Proof.
  intros Ha Es Hp Hpre.
  assert (Hacq : acquire now b = (true, set_circ (set_permits 0 (circ b)) b)).
  { unfold acquire, tryAcquire. rewrite expire_half, Es, Hp by done. done. }
  assert (Hw : WrapErr pass None now now b = (true, set_circ (set_permits 0 (circ b)) b)).
  { unfold WrapErr, gated, Allow. rewrite Hacq. cbn [negb]. unfold preflight in *. cbn [cfg set_circ b_bytes b_ops] in *. by rewrite Hpre. }
  rewrite Hw. set (b0 := set_circ _ b).
  assert (Hst : ∀ t l, Allow l t b0 = (false, Some policyCircuit, b0)).
  { intros t l. unfold Allow, acquire, tryAcquire. rewrite expire_half by done. cbn. rewrite Es. cbn. unfold reject. cbn. by rewrite Ha. }
  assert (Hf : foldl (λ b t, (Allow pass t b).2) b0 nows = b0) by (induction nows as [|t nows IH]; [done|]; cbn; by rewrite Hst).
  cbn. rewrite Hf, Hst. done.
Qed.

Lemma panicking_probe_wedges_witness :
  let b := (State_ 10 (Record_ false 0 0 (New (newConfig [WithCircuit (mkCircuitOpts 1 1 10)])))).2 in
  state (circ (foldl (λ b t, (Allow pass t b).2) (WrapErr pass None 11 11 b).2 [20; 1000])) = HalfOpen ∧
  (Allow pass 1000000 (foldl (λ b t, (Allow pass t b).2) (WrapErr pass None 11 11 b).2 [20; 1000])).1.1 = false.
Proof.
  exact (proj2 (panicking_probe_wedges (State_ 10 (Record_ false 0 0 (New (newConfig [WithCircuit (mkCircuitOpts 1 1 10)])))).2
    11 [20; 1000] pass 1000000 eq_refl eq_refl eq_refl eq_refl)).
Defined.

(** The outcome of a call admitted before the circuit opened counts as a
    probe's: it closes the circuit although no probe ran. *)
Example stale_success_closes :
  let c := (record 1 1 false (tryAcquire 0 (newCircuit 1 1 10)).2).2 in
  state c = Open ∧ permits (current 11 c).2 = 1 ∧ record 11 11 true c = ([mkTransition Open HalfOpen false; mkTransition HalfOpen Closed false],
    mkCircuit 1 1 10 Closed 1 0 1 1).
Proof. vm_compute. auto. Qed.

(** ** Budgets *)

(** A refused pre-flight check costs the circuit nothing: the permit is
    returned, so apart from an expired cooldown the circuit is as before. *)
Theorem refused_preflight_is_free lib now b :
  circuit_ok (circ b) → preflight lib b ≠ None →
  circ (Allow lib now b).2 = (expire now (circ b)).2 ∧ (cfg_action (cfg b) = Halt → (Allow lib now b).1.1 = false).
Proof.
  intros I Hpre. pose proof (expire_step now (circ b) I) as He. unfold Allow, acquire, tryAcquire.
  destruct (expire now (circ b)) as [out c1]. destruct He as (I1 & _). cbn [snd].
  assert (Hemit : ∀ c, circ (emitTransitions out now (set_circ c b)) = c ∧ preflight lib (emitTransitions out now (set_circ c b)) = preflight lib b
    ∧ reject (emitTransitions out now (set_circ c b)) = reject b).
  { intros c. destruct (emit_spec out now (set_circ c b)) as (E1 & E2 & _ & E4 & E5 & _). unfold preflight, reject. by rewrite E1, E2, E4, E5. }
  destruct (state c1) eqn:Es.
  - destruct (Hemit c1) as (E1 & E2 & E3). cbn [negb]. rewrite E2. destruct (preflight lib b); [|done]. cbn.
    unfold release. rewrite E1, bool_decide_eq_false_2 by congruence. split; [done|]. intros Ha. change (reject _) with (reject (emitTransitions out now (set_circ c1 b))).
    rewrite E3. unfold reject. by rewrite Ha.
  - destruct (Hemit c1) as (E1 & E2 & E3). cbn. rewrite E1, E3. split; [done|]. unfold reject. by intros ->.
  - pose proof (ci_half _ I1 Es) as [_ Hp]. destruct (Z.eqb_spec (permits c1) 0) as [Hz|Hz].
    + destruct (Hemit c1) as (E1 & E2 & E3). cbn. rewrite E1, E3. split; [done|]. unfold reject. by intros ->.
    + destruct (Hemit (set_permits (permits c1 - 1) c1)) as (E1 & E2 & E3). cbn [negb]. rewrite E2. destruct (preflight lib b); [|done]. cbn.
      unfold release. rewrite E1. cbn [state set_permits permits successThreshold]. rewrite bool_decide_eq_true_2, (proj2 (Z.ltb_lt _ _)) by (done || lia). cbn.
      split; [destruct c1; unfold set_permits; cbn; f_equal; lia|]. intros Ha.
      change (reject _) with (reject (emitTransitions out now (set_circ (set_permits (permits c1 - 1) c1) b))). rewrite E3. unfold reject. by rewrite Ha.
Qed.

Lemma acquire_keeps now b ok b1 :
  acquire now b = (ok, b1) → cfg b1 = cfg b ∧ b_bytes b1 = b_bytes b ∧ b_ops b1 = b_ops b.
Proof.
  unfold acquire. destruct (tryAcquire now (circ b)) as [[ok' ts] c]. intros [= <- <-].
  destruct (emit_spec ts now (set_circ c b)) as (_ & E2 & _ & E4 & E5 & _). by rewrite E2, E4, E5.
Qed.

Lemma Allow_keeps lib now b ok p b1 :
  cfg_action (cfg b) = Halt → Allow lib now b = (ok, p, b1) →
  cfg b1 = cfg b ∧ b_bytes b1 = b_bytes b ∧ b_ops b1 = b_ops b ∧ (ok = true → preflight lib b = None).
Proof.
  intros Ha. unfold Allow. destruct (acquire now b) as [got b0] eqn:Eq. apply acquire_keeps in Eq as (E1 & E2 & E3).
  assert (Hp : preflight lib b0 = preflight lib b) by (unfold preflight; by rewrite E1, E2, E3).
  rewrite Hp. destruct got; cbn [negb].
  - destruct (preflight lib b); intros [= <- <- <-]; [|done].
    split_and!; try done. unfold reject. cbn. by rewrite E1, Ha.
  - intros [= <- <- <-]. split_and!; try done. unfold reject. by rewrite E1, Ha.
Qed.

Lemma Record_counters ok n now b :
  cfg (Record_ ok n now b) = cfg b ∧ b_bytes (Record_ ok n now b) = int64 (b_bytes b + n) ∧ b_ops (Record_ ok n now b) = int64 (b_ops b + 1).
Proof.
  unfold Record_, recordCircuit. cbn [circ]. destruct (record now now ok (circ b)) as [ts c].
  destruct (emit_spec ts now (set_circ c (mkBreaker (cfg b) (circ b) (int64 (b_bytes b + n)) (int64 (b_ops b + 1)) (b_stats b) (b_events b))))
    as (_ & E2 & _ & E4 & E5 & _). by rewrite E2, E4, E5.
Qed.

(** Wrapped calls one after another, and how many of them ran. *)
Fixpoint session (cs : list (library * (bool * Z) * (Z * Z))) (b : breakerImpl) : Z * breakerImpl :=
  match cs with
  | [] => (0, b)
  | (lib, out, (now, now')) :: cs' =>
      let '(ran, b) := gated lib (Some out) now now' b in
      let '(n, b) := session cs' b in ((if ran then 1 else 0) + n, b)
  end.

Lemma session_bounds m mb k cs : ∀ b,
  cfg_action (cfg b) = Halt → maxOps (cfg b) = Some m → maxBytes (cfg b) = Some mb → 0 ≤ m < 2 ^ 63 → 0 ≤ mb → 0 ≤ k → mb + k < 2 ^ 63 →
  Forall (λ x, 0 ≤ x.1.2.2 ≤ k) cs → 0 ≤ b_ops b ≤ m → 0 ≤ b_bytes b ≤ mb + k →
  let '(runs, b') := session cs b in
  b_ops b' = b_ops b + runs ∧ 0 ≤ runs ∧ b_ops b' ≤ m ∧ b_bytes b ≤ b_bytes b' ≤ mb + k.
Proof.
  induction cs as [|[[lib [ok n]] [now now']] cs IH]; intros b Ha Ho Hb Hm Hmb Hk Hs Hcs I1 I2; cbn [session].
  { lia. }
  apply Forall_cons in Hcs as [Hn Hcs]. cbn in Hn. unfold gated.
  destruct (Allow lib now b) as [[allowed p] b1] eqn:EA. apply Allow_keeps in EA as (E1 & E2 & E3 & E4); [|done].
  destruct allowed; cbn [negb].
  - specialize (E4 eq_refl). unfold preflight, exceeded in E4. rewrite Ho, Hb in E4.
    destruct (_ && _); [done|]. destruct (_ && _); [done|].
    destruct (Z.leb_spec mb (b_bytes b)); [done|]. destruct (Z.leb_spec m (b_ops b)); [done|].
    destruct (Record_counters ok n now' b1) as (F1 & F2 & F3). rewrite E2, int64_small in F2 by lia. rewrite E3, int64_small in F3 by lia.
    specialize (IH (Record_ ok n now' b1)). rewrite F1, E1 in IH.
    destruct (session cs (Record_ ok n now' b1)) as [r b2]. specialize (IH Ha Ho Hb Hm Hmb Hk Hs Hcs ltac:(lia) ltac:(lia)). lia.
  - specialize (IH b1). rewrite E1 in IH. destruct (session cs b1) as [r b2].
    specialize (IH Ha Ho Hb Hm Hmb Hk Hs Hcs ltac:(lia) ltac:(lia)). lia.
Qed.

(** The budgets bound what wrapped calls do one after another: however the
    circuit, the library's policies and the outcomes go, at most [MaxOps] of
    them run, and the bytes they move stay below [MaxBytes] but for one call. *)
Theorem budgets_bound cf m mb k cs :
  cfg_action cf = Halt → maxOps cf = Some m → maxBytes cf = Some mb → 0 ≤ m < 2 ^ 63 → 0 ≤ mb → 0 ≤ k → mb + k < 2 ^ 63 →
  Forall (λ x, 0 ≤ x.1.2.2 ≤ k) cs →
  let '(runs, b) := session cs (New cf) in runs ≤ m ∧ b_ops b = runs ∧ 0 ≤ b_bytes b ≤ mb + k.
Proof.
  intros Ha Ho Hb Hm Hmb Hk Hs Hcs. pose proof (session_bounds m mb k cs (New cf) Ha Ho Hb Hm Hmb Hk Hs Hcs ltac:(cbn; lia) ltac:(cbn; lia)) as H.
  destruct (session cs (New cf)) as [r b]. cbn in H. lia.
Qed.

Lemma budgets_bound_witness :
  let cs := [(pass, (true, 5), (0, 1)); (mkLib true false, (true, 6), (1, 1)); (pass, (false, 0), (2, 3)); (pass, (true, 7), (4, 5)); (pass, (true, 1), (6, 7))] in
  let x := session cs (New (newConfig [MaxBytes 10; MaxOps 100; MaxPerMinute 60])) in x.1 = 3 ∧ x.1 ≤ 100 ∧ b_bytes x.2 = 12.
Proof.
  split; [vm_compute; reflexivity|]. split; [|vm_compute; reflexivity].
  pose proof (budgets_bound (newConfig [MaxBytes 10; MaxOps 100; MaxPerMinute 60]) 100 10 7
    [(pass, (true, 5), (0, 1)); (mkLib true false, (true, 6), (1, 1)); (pass, (false, 0), (2, 3)); (pass, (true, 7), (4, 5)); (pass, (true, 1), (6, 7))]
    eq_refl eq_refl eq_refl ltac:(lia) ltac:(lia) ltac:(lia) ltac:(lia) ltac:(repeat constructor; cbn; lia)) as H.
  destruct (session _ _) as [r b]. exact (proj1 H).
Defined.
