(* ===== verification/KvStore.v ===== *)
(** * The key-value interface (go/storage/kv/kv.go)

    [Store], [TTLStore] and [TTLInserter] as a class of operations, what their
    comments promise as a class of laws, and what follows for any history of
    calls.  A driver may drop entries to make room: [kv_fits] says when a write
    costs no live entry.  Times are in nanoseconds; an operation reads the clock
    once.  [ctx] tells whether the context is already done. *)

From S2P Require Import Prelude.

Local Open Scope Z_scope.

Inductive kv_err := ErrValueTooLarge | ErrClosed | ErrContext.

#[export] Instance kv_err_eq_dec : EqDecision kv_err.
Proof. solve_decision. Defined.

Class Kv (S : Type) := {
  kv_Put : bool → Z → string → string → S → option kv_err * S;
  kv_PutWithTTL : bool → Z → string → string → Z → S → option kv_err * S;
  kv_PutIfAbsentWithTTL : bool → Z → string → string → Z → S → bool * option kv_err * S;
  kv_Get : bool → Z → string → S → res kv_err (option string) * S;
  kv_Delete : bool → Z → string → S → option kv_err * S;
  kv_List : bool → Z → string → S → res kv_err (list string) * S;
  kv_Close : S → S;
}.

(** Stored entries: a value and when it expires. *)
Abbreviation entries := (gmap string (string * option Z)).

Definition entry_live (t : Z) (x : string * option Z) : bool :=
  match x.2 with None => true | Some e => t <? e end.

Definition live (t : Z) (m : entries) : entries := filter (λ kv, entry_live t kv.2 = true) m.

Class KvLaws (S : Type) `{K : Kv S} := {
  kv_inv : S → Prop;
  kv_view : S → entries;
  kv_open : S → bool;
  kv_expires : Z → Z → option Z;
  kv_fits : Z → string → string → S → Prop;

  kv_expires_bound now ttl : 0 < ttl → ∃ e, kv_expires now ttl = Some e ∧ now + ttl - 10 ^ 6 < e ≤ now + ttl;

  (** A write: the entry is stored, no live entry but the overwritten one is
      changed, and none is lost when the write fits. *)
  kv_wrote t k x s s' :=
    (entry_live t x = true → kv_view s' !! k = Some x) ∧ live t (kv_view s') ⊆ live t (<[k:=x]> (kv_view s)) ∧
    (kv_fits t k x.1 s → live t (kv_view s') = live t (<[k:=x]> (kv_view s)));
  kv_same t s s' := live t (kv_view s') = live t (kv_view s);

  kv_put_law ctx t k v s err s' :
    kv_inv s → kv_Put ctx t k v s = (err, s') →
    kv_inv s' ∧ kv_open s' = kv_open s ∧ if err is None then kv_wrote t k (v, None) s s' else kv_same t s s';
  kv_ttl_law ctx t k v ttl s err s' :
    kv_inv s → kv_PutWithTTL ctx t k v ttl s = (err, s') →
    kv_inv s' ∧ kv_open s' = kv_open s ∧ if err is None then kv_wrote t k (v, kv_expires t ttl) s s' else kv_same t s s';
  kv_absent_law ctx t k v ttl s b err s' :
    kv_inv s → kv_PutIfAbsentWithTTL ctx t k v ttl s = (b, err, s') →
    kv_inv s' ∧ kv_open s' = kv_open s ∧
    match err with
    | Some _ => kv_same t s s'
    | None => if b then live t (kv_view s) !! k = None ∧ kv_wrote t k (v, kv_expires t ttl) s s'
              else is_Some (live t (kv_view s) !! k) ∧ kv_same t s s'
    end;
  kv_get_law ctx t k s r s' :
    kv_inv s → kv_Get ctx t k s = (r, s') →
    kv_inv s' ∧ kv_open s' = kv_open s ∧ kv_same t s s' ∧
    match r with Ok o => o = fst <$> live t (kv_view s) !! k | Err _ => ctx = true ∨ kv_open s = false end;
  kv_delete_law ctx t k s err s' :
    kv_inv s → kv_Delete ctx t k s = (err, s') →
    kv_inv s' ∧ kv_open s' = kv_open s ∧
    match err with
    | None => live t (kv_view s') = delete k (live t (kv_view s))
    | Some _ => kv_same t s s' ∧ (ctx = true ∨ kv_open s = false)
    end;
  (** A context that is already done stops a deletion. *)
  kv_delete_ctx t k s : kv_Delete true t k s = (Some ErrContext, s);
  kv_list_law ctx t p s r s' :
    kv_inv s → kv_List ctx t p s = (r, s') →
    kv_inv s' ∧ kv_open s' = kv_open s ∧ kv_same t s s' ∧
    match r with
    | Ok l => NoDup l ∧ ∀ k, k ∈ l ↔ String.prefix p k = true ∧ is_Some (live t (kv_view s) !! k)
    | Err _ => ctx = true ∨ kv_open s = false
    end;
}.

(** ** Live entries *)

Lemma live_lookup t (m : entries) k x : live t m !! k = Some x ↔ m !! k = Some x ∧ entry_live t x = true.
Proof. unfold live. by rewrite map_lookup_filter_Some. Qed.

Lemma live_None t (m : entries) k : live t m !! k = None ↔ ∀ x, m !! k = Some x → entry_live t x = false.
Proof.
  rewrite eq_None_not_Some. split.
  - intros Hn x Hx. destruct (entry_live t x) eqn:E; [|done]. destruct Hn. exists x. by apply live_lookup.
  - intros H [x [Hx Hl]%live_lookup]. rewrite (H x) in Hl; done.
Qed.

Lemma entry_live_mono t t' x : t ≤ t' → entry_live t' x = true → entry_live t x = true.
Proof. unfold entry_live. destruct x as [v [e|]]; cbn; rewrite ?Z.ltb_lt; lia. Qed.

Lemma live_live t t' (m : entries) : t ≤ t' → live t' (live t m) = live t' m.
Proof.
  intros Ht. apply map_eq. intros k. apply option_eq. intros x. rewrite !live_lookup.
  split; [tauto|]. intros [? ?]. eauto using entry_live_mono.
Qed.

Lemma live_later t t' (m m' : entries) : t ≤ t' → live t m = live t m' → live t' m = live t' m'.
Proof. intros Ht Heq. by rewrite <-(live_live t t' m), <-(live_live t t' m'), Heq. Qed.

Lemma live_subseteq t (m m' : entries) : m ⊆ m' → live t m ⊆ live t m'.
Proof. intros H. apply map_subseteq_spec. intros k x [Hx Hl]%live_lookup. apply live_lookup. split; [by eapply lookup_weaken|done]. Qed.

Lemma live_sub_later t t' (m m' : entries) : t ≤ t' → live t m ⊆ live t m' → live t' m ⊆ live t' m'.
Proof. intros Ht H. rewrite <-(live_live t t' m), <-(live_live t t' m') by done. by apply live_subseteq. Qed.

Lemma live_insert t k x (m m' : entries) : live t m ⊆ live t m' → live t (<[k:=x]> m) ⊆ live t (<[k:=x]> m').
Proof.
  intros H. apply map_subseteq_spec. intros j y [Hy Hl]%live_lookup. apply live_lookup.
  destruct (decide (j = k)) as [->|Hne]; [by simplify_map_eq|]. rewrite lookup_insert_ne in * by done.
  assert (live t m' !! j = Some y) as [??]%live_lookup; [|done]. eapply lookup_weaken; [by apply live_lookup|done].
Qed.

Lemma live_insert_eq t k x (m m' : entries) : live t m = live t m' → live t (<[k:=x]> m) = live t (<[k:=x]> m').
Proof. intros H. apply (anti_symm (⊆)); apply live_insert; by rewrite H. Qed.

Lemma live_delete t k (m : entries) : live t (delete k m) = delete k (live t m).
Proof. apply map_eq. intros j. apply option_eq. intros x. rewrite live_lookup, !lookup_delete_Some, live_lookup. tauto. Qed.

(** ** Histories

    Calls with the times they are made at, against the plain map a caller has in
    mind: every write that was reported replaces the entry of its key. *)

Inductive kv_call :=
| KPut (k v : string)
| KPutTTL (k v : string) (ttl : Z)
| KPutIfAbsent (k v : string) (ttl : Z)
| KGet (k : string)
| KDelete (k : string)
| KList (p : string).

Inductive kv_answer :=
| ADone (err : option kv_err)
| AClaim (inserted : bool) (err : option kv_err)
| AValue (r : res kv_err (option string))
| AKeys (r : res kv_err (list string)).

Section histories.
Context {S : Type} `{KL : KvLaws S}.

Definition kv_do (ctx : bool) (t : Z) (c : kv_call) (s : S) : kv_answer * S :=
  match c with
  | KPut k v => let '(err, s) := kv_Put ctx t k v s in (ADone err, s)
  | KPutTTL k v ttl => let '(err, s) := kv_PutWithTTL ctx t k v ttl s in (ADone err, s)
  | KPutIfAbsent k v ttl => let '(b, err, s) := kv_PutIfAbsentWithTTL ctx t k v ttl s in (AClaim b err, s)
  | KGet k => let '(r, s) := kv_Get ctx t k s in (AValue r, s)
  | KDelete k => let '(err, s) := kv_Delete ctx t k s in (ADone err, s)
  | KList p => let '(r, s) := kv_List ctx t p s in (AKeys r, s)
  end.

(** What the caller takes to be stored after a call was answered. *)
Definition believe (t : Z) (c : kv_call) (a : kv_answer) (m : entries) : entries :=
  match c, a with
  | KPut k v, ADone None => <[k:=(v, None)]> m
  | KPutTTL k v ttl, ADone None => <[k:=(v, kv_expires t ttl)]> m
  | KPutIfAbsent k v ttl, AClaim true None => <[k:=(v, kv_expires t ttl)]> m
  | KDelete k, ADone None => delete k m
  | _, _ => m
  end.

(** The answer when nothing is ever lost. *)
Definition exact (t : Z) (c : kv_call) (a : kv_answer) (m : entries) : Prop :=
  match c, a with
  | KPutIfAbsent k _ _, AClaim b None => b = bool_decide (live t m !! k = None)
  | KGet k, AValue (Ok o) => o = fst <$> live t m !! k
  | KList p, AKeys (Ok l) => NoDup l ∧ ∀ k, k ∈ l ↔ String.prefix p k = true ∧ is_Some (live t m !! k)
  | _, _ => True
  end.

(** What a store that loses entries may still not do: answer with a value or a
    key that is not there, or refuse a claim on a free key. *)
Definition never_stale (t : Z) (c : kv_call) (a : kv_answer) (m : entries) : Prop :=
  match c, a with
  | KPutIfAbsent k _ _, AClaim false None => is_Some (live t m !! k)
  | KGet k, AValue (Ok (Some v)) => fst <$> live t m !! k = Some v
  | KList p, AKeys (Ok l) => NoDup l ∧ ∀ k, k ∈ l → String.prefix p k = true ∧ is_Some (live t m !! k)
  | _, _ => True
  end.

Definition call_fits (t : Z) (c : kv_call) (s : S) : Prop :=
  match c with
  | KPut k v | KPutTTL k v _ | KPutIfAbsent k v _ => kv_fits t k v s
  | _ => True
  end.

(** Each call with its context and its time; times never go back. *)
Inductive history : Z → list (bool * Z * kv_call * kv_answer) → S → entries → bool → Prop :=
| history_new t s : kv_inv s → kv_view s = ∅ → history t [] s ∅ true
| history_step t t' ctx h s m c a s' fits :
    history t h s m fits → t ≤ t' → kv_do ctx t' c s = (a, s') →
    ∀ fits' : bool, (fits' = true → fits = true ∧ call_fits t' c s) →
    history t' (h ++ [(ctx, t', c, a)]) s' (believe t' c a m) fits'.

Lemma wrote_sub t k x s s' (m : entries) :
  live t (kv_view s) ⊆ live t m → kv_wrote t k x s s' → live t (kv_view s') ⊆ live t (<[k:=x]> m).
Proof. intros H (_ & H1 & _). etrans; [exact H1|]. by apply live_insert. Qed.

Lemma wrote_eq t k x s s' (m : entries) :
  live t (kv_view s) = live t m → kv_fits t k x.1 s → kv_wrote t k x s s' → live t (kv_view s') = live t (<[k:=x]> m).
Proof. intros H Hf (_ & _ & H1). rewrite (H1 Hf). by apply live_insert_eq. Qed.

Lemma step_sub ctx t c s a s' m :
  kv_inv s → kv_do ctx t c s = (a, s') → live t (kv_view s) ⊆ live t m →
  kv_inv s' ∧ live t (kv_view s') ⊆ live t (believe t c a m) ∧ never_stale t c a m.
Proof.
  intros I E H. destruct c as [k v|k v ttl|k v ttl|k|k|p]; cbn [kv_do] in E.
  - destruct (kv_Put ctx t k v s) as [err s1] eqn:F. simplify_eq. destruct (kv_put_law _ _ _ _ _ _ _ I F) as (I' & _ & W).
    destruct err; cbn; [by rewrite W|]. eauto using wrote_sub.
  - destruct (kv_PutWithTTL ctx t k v ttl s) as [err s1] eqn:F. simplify_eq. destruct (kv_ttl_law _ _ _ _ _ _ _ _ I F) as (I' & _ & W).
    destruct err; cbn; [by rewrite W|]. eauto using wrote_sub.
  - destruct (kv_PutIfAbsentWithTTL ctx t k v ttl s) as [[b err] s1] eqn:F. simplify_eq.
    destruct (kv_absent_law _ _ _ _ _ _ _ _ _ I F) as (I' & _ & W). destruct err; [destruct b; cbn; by rewrite W|].
    destruct b; cbn; destruct W as [W1 W2]; [eauto using wrote_sub|]. rewrite W2. split_and!; try done.
    destruct W1 as [x Hx]. exists x. by eapply lookup_weaken.
  - destruct (kv_Get ctx t k s) as [r s1] eqn:F. simplify_eq. destruct (kv_get_law _ _ _ _ _ _ I F) as (I' & _ & W & R).
    cbn. rewrite W. split_and!; try done. destruct r as [[v|]|]; cbn; try done. destruct (live t (kv_view s) !! k) as [x|] eqn:El; [|done].
    rewrite (lookup_weaken _ _ _ _ El H). by rewrite R.
  - destruct (kv_Delete ctx t k s) as [err s1] eqn:F. simplify_eq. destruct (kv_delete_law _ _ _ _ _ _ I F) as (I' & _ & W).
    destruct err; cbn; [by destruct W as [-> _]|]. rewrite W, live_delete. split_and!; try done. by apply delete_mono.
  - destruct (kv_List ctx t p s) as [r s1] eqn:F. simplify_eq. destruct (kv_list_law _ _ _ _ _ _ I F) as (I' & _ & W & R).
    cbn. rewrite W. split_and!; try done. destruct r as [l|]; cbn; [|done]. destruct R as [R1 R2]. split; [done|]. intros j [Hp [x Hx]]%R2.
    split; [done|]. exists x. by eapply lookup_weaken.
Qed.

Lemma step_eq ctx t c s a s' m :
  kv_inv s → kv_do ctx t c s = (a, s') → live t (kv_view s) = live t m → call_fits t c s →
  live t (kv_view s') = live t (believe t c a m) ∧ exact t c a m.
Proof.
  intros I E H Hf. destruct c as [k v|k v ttl|k v ttl|k|k|p]; cbn [kv_do call_fits] in E, Hf.
  - destruct (kv_Put ctx t k v s) as [err s1] eqn:F. simplify_eq. destruct (kv_put_law _ _ _ _ _ _ _ I F) as (I' & _ & W).
    destruct err; cbn; [by rewrite W|]. eauto using wrote_eq.
  - destruct (kv_PutWithTTL ctx t k v ttl s) as [err s1] eqn:F. simplify_eq. destruct (kv_ttl_law _ _ _ _ _ _ _ _ I F) as (I' & _ & W).
    destruct err; cbn; [by rewrite W|]. eauto using wrote_eq.
  - destruct (kv_PutIfAbsentWithTTL ctx t k v ttl s) as [[b err] s1] eqn:F. simplify_eq.
    destruct (kv_absent_law _ _ _ _ _ _ _ _ _ I F) as (I' & _ & W). destruct err; [destruct b; cbn; by rewrite W|].
    rewrite H in W. destruct b; cbn; destruct W as [W1 W2].
    + split; [eauto using wrote_eq|]. by rewrite bool_decide_eq_true_2.
    + rewrite W2. split; [done|]. destruct W1 as [x ->]. done.
  - destruct (kv_Get ctx t k s) as [r s1] eqn:F. simplify_eq. destruct (kv_get_law _ _ _ _ _ _ I F) as (I' & _ & W & R).
    cbn. rewrite W. split; [done|]. rewrite H in R. by destruct r.
  - destruct (kv_Delete ctx t k s) as [err s1] eqn:F. simplify_eq. destruct (kv_delete_law _ _ _ _ _ _ I F) as (I' & _ & W).
    destruct err; cbn; [by destruct W as [-> _]|]. by rewrite W, live_delete, H.
  - destruct (kv_List ctx t p s) as [r s1] eqn:F. simplify_eq. destruct (kv_list_law _ _ _ _ _ _ I F) as (I' & _ & W & R).
    cbn. rewrite W. split; [done|]. rewrite H in R. by destruct r.
Qed.

Lemma history_state t h s m fits :
  history t h s m fits → kv_inv s ∧ live t (kv_view s) ⊆ live t m ∧ (fits = true → live t (kv_view s) = live t m).
Proof.
  induction 1 as [t s I V|t t' ctx h s m c a s' fits _ (I & Hs & He) Ht E fits' Hf]; [by rewrite V|].
  destruct (step_sub ctx t' c s a s' m I E) as (I' & Hs' & _); [by eapply live_sub_later|].
  split_and!; [done..|]. intros [-> Hc]%Hf. apply (step_eq ctx t' c s a s' m I E); [|done]. apply (live_later t); auto.
Qed.


End histories.
