(* ===== verification/KvMemory.v ===== *)
(** * The in-process key-value driver (go/storage/kv/memory/memory.go)

    The map of elements and the recency list of [container/list], with the
    identity of the elements; entries never change once they are in an element. *)

From S2P Require Import Prelude KvStore.

Local Open Scope Z_scope.

Definition DefaultMaxBytes : Z := Z.shiftl 64 20.

Record entry := mkEntry { e_key : string; e_value : string; e_expires : option Z }.

#[export] Instance entry_eq_dec : EqDecision entry.
Proof. solve_decision. Defined.

(** The lengths of a string and a slice in memory add up below 2^63. *)
Definition cost (e : entry) : Z := Z.of_nat (String.length (e_key e) + String.length (e_value e)).

(** A [*list.Element]: its address and its value. *)
Record element := mkElement { el_id : nat; Value : entry }.

#[export] Instance element_eq_dec : EqDecision element.
Proof. solve_decision. Defined.

Record Store := mkStore {
  maxBytes : Z;
  used : Z;
  items : gmap string element;
  lru : list element;                            (* front = most recently used *)
  fresh_id : nat;
  closed : bool;
}.

Definition WithMaxBytes (n : Z) (s : Store) : Store :=
  if 0 <? n then mkStore n (used s) (items s) (lru s) (fresh_id s) (closed s) else s.

Definition New (opts : list (Store → Store)) : Store :=
  foldl (λ s o, o s) (mkStore DefaultMaxBytes 0 ∅ [] 0 false) opts.

Definition expired (now : Z) (e : entry) : bool :=
  match e_expires e with None => false | Some x => negb (now <? x) end.

Definition remove (el : element) (s : Store) : Store :=
  mkStore (maxBytes s) (int64 (used s - cost (Value el))) (delete (e_key (Value el)) (items s))
    (filter (λ x, el_id x ≠ el_id el) (lru s)) (fresh_id s) (closed s).

(** The first loop, from the back to the front. *)
Definition drop_expired (now : Z) (s : Store) : Store :=
  foldl (λ s el, if expired now (Value el) then remove el s else s) s (reverse (lru s)).

(** The second loop; it removes an element a turn, so [fuel] is their number. *)
Fixpoint evict (fuel : nat) (need : Z) (s : Store) : Store :=
  if maxBytes s <? int64 (used s + need) then
    match last (lru s), fuel with
    | Some back, S fuel => evict fuel need (remove back s)
    | _, _ => s
    end
  else s.

Definition makeRoom (now need : Z) (s : Store) : Store :=
  if int64 (used s + need) <=? maxBytes s then s
  else let s := drop_expired now s in evict (length (lru s)) need s.

Definition PushFront (e : entry) (s : Store) : Store :=
  let el := mkElement (fresh_id s) e in
  mkStore (maxBytes s) (int64 (used s + cost e)) (<[e_key e := el]> (items s)) (el :: lru s) (S (fresh_id s)) (closed s).

Definition putLocked (now : Z) (key value : string) (ttl : Z) (s : Store) : option kv_err * Store :=
  let e := mkEntry key value None in
  if maxBytes s <? cost e then (Some ErrValueTooLarge, s)
  else
    let e := mkEntry key value (if 0 <? ttl then Some (now + ttl) else None) in
    let s := match items s !! key with Some el => remove el s | None => s end in
    (None, PushFront e (makeRoom now (cost e) s)).

Definition put (ctx : bool) (now : Z) (key value : string) (ttl : Z) (s : Store) : option kv_err * Store :=
  if ctx then (Some ErrContext, s)
  else if closed s then (Some ErrClosed, s)
  else putLocked now key value ttl s.

Definition Put (ctx : bool) (now : Z) (key value : string) : Store → option kv_err * Store := put ctx now key value 0.
Definition PutWithTTL (ctx : bool) (now : Z) (key value : string) (ttl : Z) : Store → option kv_err * Store := put ctx now key value ttl.

Definition PutIfAbsentWithTTL (ctx : bool) (now : Z) (key value : string) (ttl : Z) (s : Store) : bool * option kv_err * Store :=
  if ctx then (false, Some ErrContext, s)
  else if closed s then (false, Some ErrClosed, s)
  else match items s !! key with
       | Some el =>
           if negb (expired now (Value el)) then (false, None, s)
           else let '(err, s) := putLocked now key value ttl (remove el s) in (true, err, s)
       | None => let '(err, s) := putLocked now key value ttl s in (true, err, s)
       end.

Definition MoveToFront (el : element) (s : Store) : Store :=
  mkStore (maxBytes s) (used s) (items s) (el :: filter (λ x, el_id x ≠ el_id el) (lru s)) (fresh_id s) (closed s).

Definition Get (ctx : bool) (now : Z) (key : string) (s : Store) : res kv_err (option string) * Store :=
  if ctx then (Err ErrContext, s)
  else if closed s then (Err ErrClosed, s)
  else match items s !! key with
       | None => (Ok None, s)
       | Some el =>
           if expired now (Value el) then (Ok None, remove el s)
           else (Ok (Some (e_value (Value el))), MoveToFront el s)
       end.

Definition Delete (ctx : bool) (now : Z) (key : string) (s : Store) : option kv_err * Store :=
  if ctx then (Some ErrContext, s)
  else if closed s then (Some ErrClosed, s)
  else (None, match items s !! key with Some el => remove el s | None => s end).

Definition List (ctx : bool) (now : Z) (prefix : string) (s : Store) : res kv_err (list string) * Store :=
  if ctx then (Err ErrContext, s)
  else if closed s then (Err ErrClosed, s)
  else (Ok (sort_strings (map_to_list (filter (λ x, (String.prefix prefix x.1 && negb (expired now (Value x.2))) = true) (items s))).*1), s).

Definition Close (s : Store) : Store := mkStore (maxBytes s) 0 ∅ [] (fresh_id s) true.

#[export] Instance memory_kv : Kv Store := {|
  kv_Put := Put;
  kv_PutWithTTL := PutWithTTL;
  kv_PutIfAbsentWithTTL := PutIfAbsentWithTTL;
  kv_Get := Get;
  kv_Delete := Delete;
  kv_List := List;
  kv_Close := Close;
|}.

(** ** The invariant *)

Definition total (l : list element) : Z := foldr (λ el n, cost (Value el) + n) 0 l.
Definition el_key (el : element) : string := e_key (Value el).

Lemma total_cons x l : total (x :: l) = cost (Value x) + total l.
Proof. done. Qed.

Lemma total_app l k : total (l ++ k) = total l + total k.
Proof. induction l as [|x l IH]; [done|]. rewrite <-app_comm_cons, !total_cons. lia. Qed.

Lemma total_nonneg l : 0 ≤ total l.
Proof. induction l as [|x l IH]; [done|]. rewrite total_cons. unfold cost. lia. Qed.

Lemma total_filter (P : element → Prop) `{∀ x, Decision (P x)} l : total (filter P l) ≤ total l.
Proof. induction l as [|x l IH]; [done|]. rewrite filter_cons. case_decide; rewrite !total_cons; unfold cost in *; lia. Qed.

(** The element map is the index of the recency list, the byte count is the cost
    of its entries and stays within the budget. *)
Record mem_ok (s : Store) : Prop := {
  mo_max : 0 < maxBytes s < 2 ^ 62;
  mo_ids : NoDup (el_id <$> lru s);
  mo_fresh : Forall (λ el, (el_id el < fresh_id s)%nat) (lru s);
  mo_keys : NoDup (el_key <$> lru s);
  mo_items : ∀ k el, items s !! k = Some el ↔ el ∈ lru s ∧ el_key el = k;
  mo_used : used s = total (lru s);
  mo_bound : used s ≤ maxBytes s;
}.

Definition same_frame (s s' : Store) : Prop := maxBytes s' = maxBytes s ∧ closed s' = closed s ∧ fresh_id s' = fresh_id s.

Lemma id_eq s x y : mem_ok s → x ∈ lru s → y ∈ lru s → el_id x = el_id y → x = y.
Proof.
  intros I Hx Hy E. apply list_elem_of_lookup in Hx as [i Hi], Hy as [j Hj].
  assert (i = j) as ->; [|congruence]. apply (NoDup_lookup (el_id <$> lru s) i j (el_id x)); [apply I|..]; rewrite list_lookup_fmap, ?Hi, ?Hj; cbn; congruence.
Qed.

Lemma key_eq s x y : mem_ok s → x ∈ lru s → y ∈ lru s → el_key x = el_key y → x = y.
Proof.
  intros I Hx Hy E. assert (items s !! el_key x = Some x) by (by apply (mo_items _ I)).
  assert (items s !! el_key y = Some y) by (by apply (mo_items _ I)). congruence.
Qed.

Lemma remove_lru s el : mem_ok s → el ∈ lru s → lru (remove el s) = filter (λ x, x ≠ el) (lru s).
Proof.
  intros I Hel. cbn. apply list_filter_iff'. intros x Hx. split; [congruence|]. intros Hne E. by apply Hne, (id_eq s).
Qed.

Lemma total_remove l el : NoDup l → el ∈ l → total l = cost (Value el) + total (filter (λ x, x ≠ el) l).
Proof.
  induction l as [|x l IH]; [by intros _ ?%not_elem_of_nil|]. intros [Hx Hl]%NoDup_cons Hel. rewrite filter_cons, total_cons.
  apply elem_of_cons in Hel as [->|Hel].
  - rewrite decide_False by congruence. rewrite list_filter_all; [done|]. intros y Hy ->. done.
  - rewrite decide_True by congruence. rewrite total_cons, (IH Hl Hel). lia.
Qed.

Lemma lru_NoDup s : mem_ok s → NoDup (lru s).
Proof. intros I. eapply NoDup_fmap_1, (mo_ids _ I). Qed.

Lemma remove_ok s el : mem_ok s → el ∈ lru s → mem_ok (remove el s) ∧ same_frame s (remove el s).
Proof.
  intros I Hel. split; [|done]. pose proof (remove_lru s el I Hel) as El. pose proof (total_remove _ _ (lru_NoDup s I) Hel) as Et.
  pose proof (mo_used _ I). pose proof (mo_max _ I). pose proof (mo_bound _ I). pose proof (total_nonneg (filter (λ x, x ≠ el) (lru s))).
  assert (Hu : used (remove el s) = total (lru (remove el s))).
  { rewrite El. cbn. rewrite int64_small; [lia|]. unfold cost in *. lia. }
  split; try done.
  - rewrite El. apply NoDup_fmap_filter, I.
  - rewrite El. apply Forall_forall. intros x [_ Hx]%list_elem_of_filter. by apply (proj1 (Forall_forall _ _) (mo_fresh _ I)).
  - rewrite El. apply NoDup_fmap_filter, I.
  - intros k x. rewrite El, list_elem_of_filter. cbn. rewrite lookup_delete_Some, (mo_items _ I). split.
    + intros (Hk & Hx & <-). split_and!; try done. by intros ->.
    + intros ((Hne & Hx) & <-). split_and!; try done. intros E. by apply Hne, (key_eq s).
  - rewrite Hu, El. unfold cost in *. cbn. lia.
Qed.

(** ** Making room *)

Definition fresh_entry (now : Z) (el : element) : Prop := expired now (Value el) = false.
#[export] Instance fresh_entry_dec now el : Decision (fresh_entry now el).
Proof. unfold fresh_entry. apply _. Defined.

Lemma remove_loop now ls : ∀ s,
  mem_ok s → NoDup ls → (∀ x, x ∈ ls → x ∈ lru s) →
  let s' := foldl (λ s el, if expired now (Value el) then remove el s else s) s ls in
  mem_ok s' ∧ same_frame s s' ∧ lru s' = filter (λ x, ¬ (x ∈ ls ∧ expired now (Value x) = true)) (lru s).
Proof.
  induction ls as [|el ls IH]; intros s I Hnd Hin; cbn [foldl].
  { split_and!; try done. rewrite list_filter_all; [done|]. intros x _ [Hx _]. by apply not_elem_of_nil in Hx. }
  apply NoDup_cons in Hnd as [Hel Hnd]. destruct (expired now (Value el)) eqn:Ex.
  - destruct (remove_ok s el I (Hin el ltac:(left))) as [I1 F1]. pose proof (remove_lru s el I (Hin el ltac:(left))) as El.
    destruct (IH (remove el s)) as (I2 & F2 & E2); [done..| |].
    { intros x Hx. rewrite El, list_elem_of_filter. split; [by intros ->|]. apply Hin. by right. }
    split_and!; [done| |].
    { destruct F1 as (?&?&?), F2 as (?&?&?). split_and!; congruence. }
    rewrite E2, El, list_filter_filter. apply list_filter_iff'. intros x _. rewrite elem_of_cons.
    destruct (decide (x = el)) as [->|]; [rewrite Ex|]; tauto.
  - destruct (IH s I Hnd) as (I2 & F2 & E2); [intros x Hx; apply Hin; by right|]. split_and!; try done.
    rewrite E2. apply list_filter_iff'. intros x _. rewrite elem_of_cons. destruct (decide (x = el)) as [->|]; [rewrite Ex; intuition discriminate|tauto].
Qed.

Lemma drop_expired_ok now s :
  mem_ok s → let s' := drop_expired now s in mem_ok s' ∧ same_frame s s' ∧ lru s' = filter (fresh_entry now) (lru s).
Proof.
  intros I. destruct (remove_loop now (reverse (lru s)) s I) as (I' & F & E).
  - rewrite reverse_Permutation. by apply lru_NoDup.
  - intros x. by rewrite elem_of_reverse.
  - split_and!; try done. etrans; [exact E|]. apply list_filter_iff'. intros x Hx. rewrite elem_of_reverse. unfold fresh_entry.
    destruct (expired now (Value x)); intuition congruence.
Qed.

(** The longest prefix of [l] that leaves room for [need]. *)
Definition longest_fit (max need : Z) (l : list element) (n : nat) : Prop :=
  (n ≤ length l)%nat ∧ total (take n l) + need ≤ max ∧ ((n < length l)%nat → max < total (take (S n) l) + need).

Lemma evict_ok need fuel : ∀ s,
  mem_ok s → (length (lru s) ≤ fuel)%nat → 0 ≤ need ≤ maxBytes s →
  let s' := evict fuel need s in
  mem_ok s' ∧ same_frame s s' ∧ ∃ n, lru s' = take n (lru s) ∧ longest_fit (maxBytes s) need (lru s) n.
Proof.
  induction fuel as [|fuel IH]; intros s I Hlen Hneed; cbn [evict];
    pose proof (mo_max _ I); pose proof (mo_bound _ I); pose proof (mo_used _ I) as Hu; pose proof (total_nonneg (lru s));
    rewrite int64_small by lia; destruct (Z.ltb_spec (maxBytes s) (used s + need)) as [Hover|Hfits].
  2, 4: split_and!; try done; exists (length (lru s)); unfold longest_fit; rewrite firstn_all; split_and!; try done; lia.
  { destruct (lru s) eqn:El; [|cbn in Hlen; lia]. rewrite Hu in Hover. cbn in Hover. lia. }
  destruct (exists_last (l := lru s)) as (l & back & El).
  { intros El. rewrite El in Hu. cbn in Hu. lia. }
  rewrite El, last_snoc.
  assert (Hb : back ∈ lru s) by (rewrite El; set_solver).
  destruct (remove_ok s back I Hb) as [I1 (F1 & F2 & F3)].
  assert (E1 : lru (remove back s) = l).
  { rewrite (remove_lru s back I Hb), El, filter_app, filter_cons, decide_False, filter_nil, app_nil_r by tauto.
    apply list_filter_all. intros x Hx ->. pose proof (lru_NoDup s I) as Hnd. rewrite El in Hnd. apply NoDup_app in Hnd as (_ & Hnd & _).
    apply (Hnd back Hx). set_solver. }
  destruct (IH (remove back s) I1) as (I2 & (G1 & G2 & G3) & n & E2 & (L1 & L2 & L3)).
  - rewrite E1. rewrite El, length_app in Hlen. cbn in Hlen. lia.
  - by rewrite F1.
  - rewrite E1, F1 in *. split; [done|]. split; [split_and!; congruence|]. exists n. rewrite take_app_le by done. split; [done|].
    unfold longest_fit. rewrite length_app. cbn [length]. rewrite take_app_le by done. split_and!; [lia|done|]. intros Hn.
    destruct (decide (n = length l)) as [->|].
    + rewrite <-El, take_ge, <-Hu; [lia|]. rewrite El, length_app. cbn. lia.
    + rewrite take_app_le by lia. apply L3. lia.
Qed.

Lemma makeRoom_ok now need s :
  mem_ok s → 0 ≤ need ≤ maxBytes s →
  let s' := makeRoom now need s in
  mem_ok s' ∧ same_frame s s' ∧ used s' + need ≤ maxBytes s ∧
  (if used s + need <=? maxBytes s then lru s' = lru s
   else ∃ n, lru s' = take n (filter (fresh_entry now) (lru s)) ∧ longest_fit (maxBytes s) need (filter (fresh_entry now) (lru s)) n).
Proof.
  intros I Hneed s'. subst s'. unfold makeRoom. pose proof (mo_max _ I). pose proof (mo_bound _ I). pose proof (mo_used _ I). pose proof (total_nonneg (lru s)).
  rewrite int64_small by lia. destruct (Z.leb_spec (used s + need) (maxBytes s)); [done|].
  destruct (drop_expired_ok now s I) as (I1 & (F1 & F2 & F3) & E1).
  remember (length (lru (drop_expired now s))) as f eqn:Ef.
  destruct (evict_ok need f (drop_expired now s) I1) as (I2 & (G1 & G2 & G3) & n & E2 & L); [lia|by rewrite F1|].
  rewrite E1 in E2, L. rewrite F1 in *. split; [done|]. split; [split_and!; congruence|]. split; [|eauto].
  rewrite (mo_used _ I2), E2. apply L.
Qed.

Lemma take_sub {A} n (l : list A) x : x ∈ take n l → x ∈ l.
Proof. intros H. rewrite <-(take_drop n l). by apply elem_of_app; left. Qed.

(** What room costs: elements that have expired, and elements at the back of the
    list when even without those the entry does not fit. *)
Lemma makeRoom_sub now need s el : mem_ok s → 0 ≤ need ≤ maxBytes s → el ∈ lru (makeRoom now need s) → el ∈ lru s.
Proof.
  intros I Hn. destruct (makeRoom_ok now need s I Hn) as (_ & _ & _ & H). destruct (_ <=? _); [by rewrite H|].
  destruct H as (n & -> & _). intros [_ Hel]%take_sub%list_elem_of_filter. done.
Qed.

Lemma makeRoom_keeps now need s el :
  mem_ok s → 0 ≤ need ≤ maxBytes s → total (filter (fresh_entry now) (lru s)) + need ≤ maxBytes s →
  el ∈ lru s → fresh_entry now el → el ∈ lru (makeRoom now need s).
Proof.
  intros I Hn Hfit Hel Hf. destruct (makeRoom_ok now need s I Hn) as (_ & _ & _ & H). destruct (_ <=? _); [by rewrite H|].
  destruct H as (n & -> & L1 & _ & L3). destruct (decide (n < length (filter (fresh_entry now) (lru s)))%nat) as [Hlt|Hge].
  - specialize (L3 Hlt). pose proof (total_nonneg (drop (S n) (filter (fresh_entry now) (lru s)))) as Hd.
    rewrite <-(take_drop (S n) (filter _ (lru s))), total_app in Hfit. lia.
  - rewrite take_ge by lia. by apply list_elem_of_filter.
Qed.

Lemma PushFront_ok e s :
  mem_ok s → items s !! e_key e = None → used s + cost e ≤ maxBytes s → mem_ok (PushFront e s).
Proof.
  intros I Hk Hfit. pose proof (mo_max _ I). pose proof (mo_used _ I). pose proof (total_nonneg (lru s)).
  assert (Hnew : ∀ x, x ∈ lru s → el_id x ≠ fresh_id s ∧ el_key x ≠ e_key e).
  { intros x Hx. split.
    - pose proof (proj1 (Forall_forall _ _) (mo_fresh _ I) x Hx) as Hf. cbn in Hf. lia.
    - intros E. rewrite (proj2 (mo_items _ I (e_key e) x)) in Hk; done. }
  assert (Hu : used (PushFront e s) = used s + cost e) by (cbn; apply int64_small; unfold cost in *; lia).
  split; try done.
  - cbn. apply NoDup_cons. split; [|apply I]. intros (x & E & Hx)%list_elem_of_fmap. by destruct (Hnew x Hx).
  - cbn. constructor; [cbn; lia|]. eapply Forall_impl; [apply (mo_fresh _ I)|]. cbn. lia.
  - cbn. apply NoDup_cons. split; [|apply I]. intros (x & E & Hx)%list_elem_of_fmap. by destruct (Hnew x Hx).
  - intros k el. cbn. rewrite elem_of_cons. destruct (decide (k = e_key e)) as [->|Hne].
    + rewrite lookup_insert_eq. split; [intros [= <-]; auto|]. intros [[->|Hx] E]; [done|]. by destruct (Hnew el Hx).
    + rewrite lookup_insert_ne by done. rewrite (mo_items _ I). split; [tauto|]. intros [[->|Hx] E]; [|done]. by destruct Hne.
  - rewrite Hu. cbn [lru PushFront]. rewrite total_cons. cbn. lia.
  - rewrite Hu. done.
Qed.

(** ** The interface *)

Definition el_entry (el : element) : string * option Z := (e_value (Value el), e_expires (Value el)).
Definition view (s : Store) : entries := el_entry <$> items s.

Definition fits (t : Z) (k v : string) (s : Store) : Prop :=
  total (filter (λ el, fresh_entry t el ∧ el_key el ≠ k) (lru s)) + cost (mkEntry k v None) ≤ maxBytes s.

Definition expires (now ttl : Z) : option Z := if 0 <? ttl then Some (now + ttl) else None.

Lemma live_expired t el : entry_live t (el_entry el) = negb (expired t (Value el)).
Proof. unfold entry_live, expired, el_entry. cbn. destruct (e_expires (Value el)); cbn; [by rewrite negb_involutive|done]. Qed.

Lemma fresh_live t el : fresh_entry t el ↔ entry_live t (el_entry el) = true.
Proof. rewrite live_expired. unfold fresh_entry. by rewrite negb_true_iff. Qed.

Lemma view_lookup s k x : mem_ok s → view s !! k = Some x ↔ ∃ el, el ∈ lru s ∧ el_key el = k ∧ x = el_entry el.
Proof.
  intros I. unfold view. rewrite lookup_fmap, fmap_Some. split.
  - intros (el & H & ->). apply (mo_items _ I) in H as [? ?]. eauto.
  - intros (el & H1 & H2 & ->). exists el. split; [|done]. by apply (mo_items _ I).
Qed.

(** Stores compare by their lists. *)
Lemma view_sub s s' : mem_ok s → mem_ok s' → (∀ el, el ∈ lru s' → el ∈ lru s) → view s' ⊆ view s.
Proof.
  intros I I' H. apply map_subseteq_spec. intros k x. rewrite !view_lookup by done. intros (el & ? & ? & ?). eauto.
Qed.

Lemma view_live t s s' :
  mem_ok s → mem_ok s' → (∀ el, fresh_entry t el → el ∈ lru s' ↔ el ∈ lru s) → live t (view s') = live t (view s).
Proof.
  intros I I' H. apply map_eq. intros k. apply option_eq. intros x. rewrite !live_lookup, !view_lookup by done.
  split; intros ((el & H1 & H2 & ->) & Hl); (split; [|done]); exists el; (split_and!; [|done..]); by apply (H el), H1 || apply (H el); try apply fresh_live.
Qed.

Lemma view_remove s el : view (remove el s) = delete (el_key el) (view s).
Proof. unfold view. cbn. by rewrite fmap_delete. Qed.

Definition drop_key (key : string) (s : Store) : Store :=
  match items s !! key with Some el => remove el s | None => s end.

Lemma drop_key_ok key s :
  mem_ok s → mem_ok (drop_key key s) ∧ same_frame s (drop_key key s) ∧
  lru (drop_key key s) = filter (λ el, el_key el ≠ key) (lru s) ∧ view (drop_key key s) = delete key (view s).
Proof.
  intros I. unfold drop_key. destruct (items s !! key) as [el|] eqn:E.
  - pose proof (proj1 (mo_items _ I key el) E) as [Hel Hk]. destruct (remove_ok s el I Hel) as [I' F]. split_and!; [done|apply F..| |].
    + rewrite (remove_lru s el I Hel). apply list_filter_iff'. intros x Hx. split; [|by intros ? ->].
      intros Hne E'. apply Hne, (key_eq s); try done. congruence.
    + rewrite view_remove. by rewrite Hk.
  - split_and!; try done.
    + symmetry. apply list_filter_all. intros x Hx Hk. rewrite (proj2 (mo_items _ I key x)) in E; done.
    + symmetry. apply delete_id. unfold view. by rewrite lookup_fmap, E.
Qed.

(** A write: what it stores, what it may lose, what it keeps when it fits. *)
Definition wrote (t : Z) (k : string) (x : string * option Z) (s s' : Store) : Prop :=
  (entry_live t x = true → view s' !! k = Some x) ∧ live t (view s') ⊆ live t (<[k:=x]> (view s)) ∧
  (fits t k x.1 s → live t (view s') = live t (<[k:=x]> (view s))).

Lemma live_put t k x (m m' : entries) :
  live t m = live t (delete k m') → live t (<[k:=x]> m) = live t (<[k:=x]> m').
Proof. intros H. rewrite <-(insert_delete_eq m' k x). by apply live_insert_eq. Qed.

Lemma putLocked_ok now k v ttl s err s' :
  mem_ok s → putLocked now k v ttl s = (err, s') →
  match err with
  | Some e => s' = s ∧ e = ErrValueTooLarge ∧ maxBytes s < cost (mkEntry k v None)
  | None => mem_ok s' ∧ maxBytes s' = maxBytes s ∧ closed s' = closed s ∧ wrote now k (v, expires now ttl) s s'
  end.
Proof.
  intros I. unfold putLocked. destruct (Z.ltb_spec (maxBytes s) (cost (mkEntry k v None))) as [Hbig|Hfit]; [by intros [= <- <-]|].
  fold (drop_key k s). fold (expires now ttl). set (e := mkEntry k v (expires now ttl)). change (cost (mkEntry k v None)) with (cost e) in Hfit.
  intros [= <- <-]. destruct (drop_key_ok k s I) as (I1 & (F1 & F2 & F3) & El & Ev).
  assert (Hc : 0 ≤ cost e ≤ maxBytes (drop_key k s)) by (rewrite F1; unfold cost in *; lia).
  destruct (makeRoom_ok now (cost e) _ I1 Hc) as (I2 & (G1 & G2 & G3) & Hroom & _). rewrite <-G1 in Hroom.
  set (s2 := makeRoom now (cost e) (drop_key k s)) in *.
  assert (Hsub : view s2 ⊆ view (drop_key k s)) by (apply view_sub; try done; intros el; by apply makeRoom_sub).
  assert (Hk : items s2 !! k = None).
  { assert (view s2 !! k = None) as Hn by (eapply lookup_weaken_None; [|exact Hsub]; rewrite Ev; by apply lookup_delete_eq).
    unfold view in Hn. rewrite lookup_fmap in Hn. by destruct (items s2 !! k). }
  assert (Hv : view (PushFront e s2) = <[k:=(v, expires now ttl)]> (view s2)) by (unfold view; cbn; by rewrite fmap_insert).
  split_and!; [by apply PushFront_ok| cbn; congruence | cbn; congruence |]. unfold wrote. rewrite Hv. split_and!.
  - by rewrite lookup_insert_eq.
  - apply live_insert, live_subseteq. rewrite Hsub, Ev. apply delete_subseteq.
  - intros Hfits. apply live_put. rewrite <-Ev. apply view_live; try done. intros el Hf. split; [by apply makeRoom_sub|].
    intros Hel. apply makeRoom_keeps; try done. rewrite El, F1, list_filter_filter. exact Hfits.
Qed.

Lemma put_ok ctx now k v ttl s err s' :
  mem_ok s → put ctx now k v ttl s = (err, s') →
  mem_ok s' ∧ closed s' = closed s ∧ maxBytes s' = maxBytes s ∧
  if err is None then wrote now k (v, expires now ttl) s s' else live now (view s') = live now (view s).
Proof.
  intros I. unfold put. destruct ctx; [by intros [= <- <-]|]. destruct (closed s) eqn:Ec; [intros [= <- <-]; done|].
  intros E. apply putLocked_ok in E; [|done]. destruct err; [destruct E as (-> & _); done|]. destruct E as (? & ? & ? & ?). split_and!; try done. congruence.
Qed.

Lemma absent_ok ctx now k v ttl s b err s' :
  mem_ok s → PutIfAbsentWithTTL ctx now k v ttl s = (b, err, s') →
  mem_ok s' ∧ closed s' = closed s ∧ maxBytes s' = maxBytes s ∧
  match err with
  | Some _ => live now (view s') = live now (view s)
  | None => if b then live now (view s) !! k = None ∧ wrote now k (v, expires now ttl) s s'
            else is_Some (live now (view s) !! k) ∧ live now (view s') = live now (view s)
  end.
Proof.
  intros I. unfold PutIfAbsentWithTTL. destruct ctx; [by intros [= <- <- <-]|]. destruct (closed s) eqn:Ec; [by intros [= <- <- <-]|].
  destruct (items s !! k) as [el|] eqn:Ek.
  - pose proof (proj1 (mo_items _ I k el) Ek) as [Hel Hkey].
    assert (Hview : view s !! k = Some (el_entry el)) by (unfold view; by rewrite lookup_fmap, Ek).
    destruct (expired now (Value el)) eqn:Ex; cbn [negb].
    + destruct (remove_ok s el I Hel) as [I1 (F1 & F2 & F3)].
      assert (Hlive : live now (view (remove el s)) = live now (view s)).
      { apply view_live; try done. intros x Hx. rewrite (remove_lru s el I Hel), list_elem_of_filter. split; [tauto|].
        intros ?. split; [|done]. intros ->. unfold fresh_entry in Hx. congruence. }
      assert (Hnone : live now (view s) !! k = None).
      { apply live_None. intros x. rewrite Hview. intros [= <-]. by rewrite live_expired, Ex. }
      destruct (putLocked now k v ttl (remove el s)) as [err1 s1] eqn:E. intros [= <- <- <-]. apply putLocked_ok in E; [|done].
      destruct err1; [by destruct E as (-> & _); split_and!|]. destruct E as (I2 & G1 & G2 & W1 & W2 & W3).
      split_and!; try done; [congruence|]. split_and!; [done| |].
      * rewrite W2, view_remove, Hkey. apply live_insert, live_subseteq, delete_subseteq.
      * intros Hf. rewrite W3.
        -- apply live_insert_eq. done.
        -- revert Hf. unfold fits. rewrite F1, (remove_lru s el I Hel), list_filter_filter. intros Hf. etrans; [|exact Hf].
           apply Zplus_le_compat_r, Z.eq_le_incl. f_equal. apply list_filter_iff'. intros x Hx. split; [tauto|].
           intros [? ?]. split_and!; try done. by intros ->.
    + intros [= <- <- <-]. split_and!; try done. exists (el_entry el). apply live_lookup. split; [done|]. by rewrite live_expired, Ex.
  - destruct (putLocked now k v ttl s) as [err1 s1] eqn:E. intros [= <- <- <-]. apply putLocked_ok in E; [|done].
    destruct err1; [by destruct E as (-> & _)|]. destruct E as (I2 & G1 & G2 & W). split_and!; try done; [congruence|].
    apply live_None. intros x. unfold view. rewrite lookup_fmap, Ek. done.
Qed.

Lemma MoveToFront_ok el s :
  mem_ok s → el ∈ lru s → mem_ok (MoveToFront el s) ∧ view (MoveToFront el s) = view s.
Proof.
  intros I Hel. split; [|done].
  assert (El : lru (MoveToFront el s) = el :: filter (λ x, x ≠ el) (lru s)) by (cbn; f_equal; by apply (remove_lru s el I)).
  assert (Hp : lru (MoveToFront el s) ≡ₚ lru s).
  { rewrite El. apply NoDup_Permutation; [|by apply lru_NoDup|].
    - apply NoDup_cons. split; [rewrite list_elem_of_filter; tauto|]. by apply NoDup_filter, lru_NoDup.
    - intros x. rewrite elem_of_cons, list_elem_of_filter. destruct (decide (x = el)) as [->|]; tauto. }
  split; try apply I.
  - rewrite Hp. apply I.
  - rewrite Hp. apply I.
  - rewrite Hp. apply I.
  - intros k x. rewrite Hp. apply I.
  - rewrite El, total_cons, <-total_remove; [apply I|by apply lru_NoDup|done].
Qed.

Lemma get_ok ctx now k s r s' :
  mem_ok s → Get ctx now k s = (r, s') →
  mem_ok s' ∧ closed s' = closed s ∧ maxBytes s' = maxBytes s ∧ live now (view s') = live now (view s) ∧
  match r with Ok o => o = fst <$> live now (view s) !! k | Err _ => ctx = true ∨ negb (closed s) = false end.
Proof.
  intros I. unfold Get. destruct ctx; [intros [= <- <-]; split_and!; auto|]. destruct (closed s) eqn:Ec; [intros [= <- <-]; split_and!; auto|].
  destruct (items s !! k) as [el|] eqn:Ek.
  - pose proof (proj1 (mo_items _ I k el) Ek) as [Hel Hkey].
    assert (Hview : view s !! k = Some (el_entry el)) by (unfold view; by rewrite lookup_fmap, Ek).
    destruct (expired now (Value el)) eqn:Ex; intros [= <- <-].
    + destruct (remove_ok s el I Hel) as [I1 (F1 & F2 & F3)]. split_and!; [done|congruence|done| |].
      * apply view_live; try done. intros x Hx. rewrite (remove_lru s el I Hel), list_elem_of_filter. split; [tauto|].
        intros ?. split; [|done]. intros ->. unfold fresh_entry in Hx. congruence.
      * rewrite (proj2 (live_None now (view s) k)); [done|]. intros x. rewrite Hview. intros [= <-]. by rewrite live_expired, Ex.
    + destruct (MoveToFront_ok el s I Hel) as [I1 Ev]. split_and!; [done|done|done|by rewrite Ev|].
      rewrite (proj2 (live_lookup now (view s) k (el_entry el))); [done|]. split; [done|]. by rewrite live_expired, Ex.
  - intros [= <- <-]. split_and!; try done. rewrite (proj2 (live_None now (view s) k)); [done|]. intros x. unfold view. by rewrite lookup_fmap, Ek.
Qed.

Lemma delete_ok ctx now k s err s' :
  mem_ok s → Delete ctx now k s = (err, s') →
  mem_ok s' ∧ closed s' = closed s ∧ maxBytes s' = maxBytes s ∧
  match err with
  | None => live now (view s') = delete k (live now (view s))
  | Some _ => live now (view s') = live now (view s) ∧ (ctx = true ∨ negb (closed s) = false)
  end.
Proof.
  intros I. unfold Delete. destruct ctx; [intros [= <- <-]; split_and!; auto|]. destruct (closed s) eqn:Ec; [intros [= <- <-]; split_and!; auto|].
  fold (drop_key k s). intros [= <- <-]. destruct (drop_key_ok k s I) as (I1 & (F1 & F2 & F3) & _ & Ev). split_and!; try done; [congruence|].
  by rewrite Ev, live_delete.
Qed.

Lemma list_ok ctx now p s r s' :
  mem_ok s → List ctx now p s = (r, s') →
  s' = s ∧
  match r with
  | Ok l => Sorted str_le l ∧ NoDup l ∧ ∀ k, k ∈ l ↔ String.prefix p k = true ∧ is_Some (live now (view s) !! k)
  | Err _ => ctx = true ∨ negb (closed s) = false
  end.
Proof.
  intros I. unfold List. destruct ctx; [intros [= <- <-]; auto|]. destruct (closed s) eqn:Ec; [intros [= <- <-]; auto|].
  intros [= <- <-]. split; [done|]. split_and!; [apply sort_strings_sorted|unfold sort_strings; rewrite merge_sort_Permutation; apply NoDup_fst_map_to_list|].
  intros k. rewrite elem_of_sort_strings, list_elem_of_fmap. split.
  - intros ([j el] & -> & Hx%elem_of_map_to_list). apply map_lookup_filter_Some in Hx as [Hx [Hp Hf]%andb_prop]. cbn. split; [done|].
    exists (el_entry el). apply live_lookup. unfold view. rewrite lookup_fmap. cbn in Hx. rewrite Hx. split; [done|]. by rewrite live_expired.
  - intros [Hp [x [Hx Hl]%live_lookup]]. unfold view in Hx. rewrite lookup_fmap in Hx. apply fmap_Some in Hx as (el & Hel & ->).
    exists (k, el). split; [done|]. apply elem_of_map_to_list, map_lookup_filter_Some. split; [done|]. cbn. rewrite live_expired in Hl. by rewrite Hp, Hl.
Qed.

#[export] Program Instance memory_laws : KvLaws Store := {|
  kv_inv := mem_ok;
  kv_view := view;
  kv_open s := negb (closed s);
  kv_expires := expires;
  kv_fits := fits;
|}.
Next Obligation. intros now ttl Ht. unfold expires. rewrite (proj2 (Z.ltb_lt _ _)) by done. exists (now + ttl). split; [done|lia]. Qed.
Next Obligation. intros ctx t k v s err s' I E. destruct (put_ok _ _ _ _ _ _ _ _ I E) as (? & -> & _ & ?). done. Qed.
Next Obligation. intros ctx t k v ttl s err s' I E. destruct (put_ok _ _ _ _ _ _ _ _ I E) as (? & -> & _ & ?). done. Qed.
Next Obligation. intros ctx t k v ttl s b err s' I E. destruct (absent_ok _ _ _ _ _ _ _ _ _ I E) as (? & -> & _ & ?). done. Qed.
Next Obligation. intros ctx t k s r s' I E. destruct (get_ok _ _ _ _ _ _ I E) as (? & -> & _ & ? & ?). done. Qed.
Next Obligation. intros ctx t k s err s' I E. destruct (delete_ok _ _ _ _ _ _ I E) as (? & -> & _ & ?). done. Qed.
Next Obligation. done. Qed.
Next Obligation.
  intros ctx t p s r s' I E. destruct (list_ok _ _ _ _ _ _ I E) as (-> & R). split_and!; try done. destruct r; [by destruct R|done].
Qed.

(** ** Properties *)

Inductive mem_call := MCall (ctx : bool) (t : Z) (c : kv_call) | MClose.

Definition mem_do (s : Store) (x : mem_call) : Store :=
  match x with MCall ctx t c => (kv_do ctx t c s).2 | MClose => Close s end.

Lemma empty_ok max f c : 0 < max < 2 ^ 62 → mem_ok (mkStore max 0 ∅ [] f c).
Proof.
  intros Hm. split; cbn; try constructor; try lia; try done.
  intros [Hx _]. by apply not_elem_of_nil in Hx.
Qed.

Lemma New_ok n : n < 2 ^ 62 → mem_ok (New [WithMaxBytes n]).
Proof. intros Hn. unfold New, WithMaxBytes. cbn [foldl]. destruct (Z.ltb_spec 0 n); by apply empty_ok. Qed.

Lemma mem_do_ok s x : mem_ok s → mem_ok (mem_do s x) ∧ maxBytes (mem_do s x) = maxBytes s.
Proof.
  intros I. destruct x as [ctx t c|]; cbn [mem_do].
  - destruct c as [k v|k v ttl|k v ttl|k|k|p]; cbn [kv_do].
    + destruct (kv_Put ctx t k v s) as [err s'] eqn:E. by destruct (put_ok _ _ _ _ _ _ _ _ I E) as (? & _ & ? & _).
    + destruct (kv_PutWithTTL ctx t k v ttl s) as [err s'] eqn:E. by destruct (put_ok _ _ _ _ _ _ _ _ I E) as (? & _ & ? & _).
    + destruct (kv_PutIfAbsentWithTTL ctx t k v ttl s) as [[b err] s'] eqn:E. by destruct (absent_ok _ _ _ _ _ _ _ _ _ I E) as (? & _ & ? & _).
    + destruct (kv_Get ctx t k s) as [r s'] eqn:E. by destruct (get_ok _ _ _ _ _ _ I E) as (? & _ & ? & _).
    + destruct (kv_Delete ctx t k s) as [err s'] eqn:E. by destruct (delete_ok _ _ _ _ _ _ I E) as (? & _ & ? & _).
    + destruct (kv_List ctx t p s) as [r s'] eqn:E. by destruct (list_ok _ _ _ _ _ _ I E) as (-> & _).
  - split; [|done]. apply empty_ok, I.
Qed.

(** Whatever calls are made the store holds at most its budget: the byte
    count is the sizes of the keys and values on the recency list, the map
    indexes exactly that list, and the count never passes the bound. *)
Theorem memory_bounded n xs :
  n < 2 ^ 62 →
  let s := foldl mem_do (New [WithMaxBytes n]) xs in
  mem_ok s ∧ used s ≤ (if 0 <? n then n else DefaultMaxBytes).
Proof.
  intros Hn. assert (H : ∀ s, mem_ok s → mem_ok (foldl mem_do s xs) ∧ maxBytes (foldl mem_do s xs) = maxBytes s).
  { induction xs as [|x xs IH]; intros s I; [done|]. destruct (mem_do_ok s x I) as [I1 E1]. destruct (IH _ I1) as [I2 E2].
    split; [done|]. cbn. by rewrite E2. }
  destruct (H _ (New_ok n Hn)) as [I E]. split; [done|]. 
  assert (Em : maxBytes (New [WithMaxBytes n]) = if 0 <? n then n else DefaultMaxBytes)
    by (unfold New, WithMaxBytes; cbn [foldl]; by destruct (0 <? n)).
  rewrite <-Em, <-E. apply (mo_bound _ I).
Qed.

Lemma memory_bounded_witness :
  let s := foldl mem_do (New [WithMaxBytes 8])
    [MCall false 0 (KPut "a" "123"); MCall false 1 (KPut "b" "12"); MCall false 2 (KGet "a"); MCall false 3 (KPut "c" "1")] in
  (el_key <$> lru s) = ["c"; "a"] ∧ used s ≤ 8.
Proof.
  split; [vm_compute; reflexivity|]. exact (proj2 (memory_bounded 8 _ ltac:(lia))).
Defined.

(** A write puts its entry at the front of the recency list; if it fits
    beside the others they stay as they are, otherwise the expired ones go and
    of the rest the longest most recent part that leaves room stays. *)
Theorem memory_eviction now k v ttl s :
  mem_ok s → closed s = false → cost (mkEntry k v None) ≤ maxBytes s →
  let others := filter (λ el, el_key el ≠ k) (lru s) in
  let need := cost (mkEntry k v None) in
  let '(err, s') := PutWithTTL false now k v ttl s in
  err = None ∧ ∃ kept,
    Value <$> lru s' = mkEntry k v (expires now ttl) :: (Value <$> kept) ∧
    (if total others + need <=? maxBytes s then kept = others
     else ∃ n, kept = take n (filter (fresh_entry now) others) ∧ longest_fit (maxBytes s) need (filter (fresh_entry now) others) n).
Proof.
  intros I Hc Hfit. unfold PutWithTTL, put. rewrite Hc. unfold putLocked. rewrite (proj2 (Z.ltb_ge _ _)) by done.
  fold (drop_key k s). destruct (drop_key_ok k s I) as (I1 & (F1 & F2 & F3) & El & _). fold (expires now ttl).
  change (cost (mkEntry k v (expires now ttl))) with (cost (mkEntry k v None)).
  destruct (makeRoom_ok now (cost (mkEntry k v None)) (drop_key k s) I1) as (_ & _ & _ & H); [rewrite F1; unfold cost in *; lia|].
  split; [done|]. eexists. split; [reflexivity|]. rewrite (mo_used _ I1), El, F1 in H. done.
Qed.

Lemma memory_eviction_witness :
  let s := foldl mem_do (New [WithMaxBytes 12]) [MCall false 0 (KPut "a" "1"); MCall false 1 (KPutTTL "b" "2222" 5); MCall false 2 (KPut "c" "33"); MCall false 2 (KPut "d" "4")] in
  (el_key <$> lru (PutWithTTL false 10 "e" "55" 0 s).2) = ["e"; "d"; "c"; "a"] ∧
  ∃ kept, Value <$> lru (PutWithTTL false 10 "e" "55" 0 s).2 = mkEntry "e" "55" None :: (Value <$> kept).
Proof.
  split; [vm_compute; reflexivity|].
  set (s := foldl mem_do (New [WithMaxBytes 12]) [MCall false 0 (KPut "a" "1"); MCall false 1 (KPutTTL "b" "2222" 5); MCall false 2 (KPut "c" "33"); MCall false 2 (KPut "d" "4")]).
  assert (I : mem_ok s) by (repeat (apply mem_do_ok); apply New_ok; lia).
  pose proof (memory_eviction 10 "e" "55" 0 s I eq_refl ltac:(vm_compute; discriminate)) as H.
  destruct (PutWithTTL false 10 "e" "55" 0 s) as [err s'] eqn:E. destruct H as (_ & kept & H & _). cbn. exists kept. exact H.
Defined.

(** An entry over the whole budget is reported as inserted next to the error;
    nothing is stored. *)
Example oversized_claim_reported :
  let s := New [WithMaxBytes 2] in
  PutIfAbsentWithTTL false 0 "key" "value" 10 s = (true, Some ErrValueTooLarge, s) ∧ (Get false 1 "key" s).1 = Ok None.
Proof. vm_compute. auto. Qed.
