(* ===== verification/KvSqlite.v ===== *)
(** * The SQLite key-value driver (go/storage/kv/sqlite/sqlite.go)

    The table [kv] as a map from its primary key, with the statements of every
    method.  Text compares byte by byte (the default collation).  The order of
    the rows of a query without ORDER BY is left to [MapOrder]. *)

From Stdlib Require Import Ascii.
From S2P Require Import Prelude KvStore.

Local Open Scope Z_scope.

Record Store := mkStore {
  rows : gmap string (string * option Z);        (* value, expires_at in milliseconds *)
  writes : Z;
  db_closed : bool;
}.

Definition NewContext : Store := mkStore ∅ 0 false.

Definition UnixMilli (t : Z) : Z := t / 10 ^ 6.

(** [WHERE expires_at IS NULL OR expires_at > ?]. *)
Definition row_live (ms : Z) (x : string * option Z) : bool :=
  match x.2 with None => true | Some e => ms <? e end.

Definition set_rows (r : gmap string (string * option Z)) (s : Store) : Store := mkStore r (writes s) (db_closed s).

Definition maybeSweep (now : Z) (s : Store) : Store :=
  let n := int64 (writes s + 1) in
  let s := mkStore (rows s) n (db_closed s) in
  if Z.rem n 100 =? 0 then set_rows (filter (λ x, row_live (UnixMilli now) x.2 = true) (rows s)) s else s.

(** A statement fails on a context that is done and on a closed database. *)
Definition exec_err (ctx : bool) (s : Store) : option kv_err :=
  if ctx then Some ErrContext else if db_closed s then Some ErrClosed else None.

Definition Put (ctx : bool) (now : Z) (key value : string) (s : Store) : option kv_err * Store :=
  match exec_err ctx s with
  | Some e => (Some e, s)
  | None => (None, maybeSweep now (set_rows (<[key:=(value, None)]> (rows s)) s))
  end.

Definition PutWithTTL (ctx : bool) (now : Z) (key value : string) (ttl : Z) (s : Store) : option kv_err * Store :=
  let exp := UnixMilli (now + ttl) in
  match exec_err ctx s with
  | Some e => (Some e, s)
  | None => (None, maybeSweep now (set_rows (<[key:=(value, Some exp)]> (rows s)) s))
  end.

(** The upsert changes one row, or none when the WHERE of its update fails. *)
Definition upsert (key value : string) (exp now : Z) (r : gmap string (string * option Z)) : Z * gmap string (string * option Z) :=
  match r !! key with
  | None => (1, <[key:=(value, Some exp)]> r)
  | Some (_, None) => (0, r)
  | Some (_, Some e) => if e <=? now then (1, <[key:=(value, Some exp)]> r) else (0, r)
  end.

Definition PutIfAbsentWithTTL (ctx : bool) (now : Z) (key value : string) (ttl : Z) (s : Store) : bool * option kv_err * Store :=
  match exec_err ctx s with
  | Some e => (false, Some e, s)
  | None =>
      let '(n, r) := upsert key value (UnixMilli (now + ttl)) (UnixMilli now) (rows s) in
      let s := set_rows r s in
      let s := if 0 <? n then maybeSweep now s else s in
      (0 <? n, None, s)
  end.

Definition Get (ctx : bool) (now : Z) (key : string) (s : Store) : res kv_err (option string) * Store :=
  match exec_err ctx s with
  | Some e => (Err e, s)
  | None =>
      (Ok match rows s !! key with
          | Some x => if row_live (UnixMilli now) x then Some x.1 else None
          | None => None
          end, s)
  end.

Definition Delete (ctx : bool) (now : Z) (key : string) (s : Store) : option kv_err * Store :=
  match exec_err ctx s with
  | Some e => (Some e, s)
  | None => (None, set_rows (delete key (rows s)) s)
  end.

(** The loop of [prefixEnd] over the bytes before [i]. *)
Fixpoint prefixEnd_loop (i : nat) (b : list ascii) : list ascii :=
  match i with
  | O => []
  | S j =>
      let c := default Ascii.zero (b !! j) in
      if (N_of_ascii c <? 255)%N then take (S j) (<[j:=ascii_of_N (N_of_ascii c + 1)]> b)
      else prefixEnd_loop j b
  end.

Definition prefixEnd (p : string) : string :=
  let b := String.list_ascii_of_string p in
  String.string_of_list_ascii (prefixEnd_loop (length b) b).

(** The WHERE clause on the key. *)
Definition key_range (prefix key : string) : bool :=
  if bool_decide (prefix = "") then true
  else let end_ := prefixEnd prefix in
       if bool_decide (end_ = "") then String.leb prefix key
       else String.leb prefix key && String.ltb key end_.

Definition Close (s : Store) : Store := mkStore (rows s) (writes s) true.

Section List.
Context `{MO : MapOrder}.

Definition List (ctx : bool) (now : Z) (prefix : string) (s : Store) : res kv_err (list string) * Store :=
  match exec_err ctx s with
  | Some e => (Err e, s)
  | None => (Ok (range_order 0 (dom (filter (λ x, (key_range prefix x.1 && row_live (UnixMilli now) x.2) = true) (rows s)))), s)
  end.

#[export] Instance sqlite_kv : Kv Store := {|
  kv_Put := Put;
  kv_PutWithTTL := PutWithTTL;
  kv_PutIfAbsentWithTTL := PutIfAbsentWithTTL;
  kv_Get := Get;
  kv_Delete := Delete;
  kv_List := List;
  kv_Close := Close;
|}.

End List.

(** ** Prefix ranges *)

(** The smallest string above every string with the prefix, front first. *)
Fixpoint above (l : list ascii) : option (list ascii) :=
  match l with
  | [] => None
  | c :: l => match above l with
              | Some e => Some (c :: e)
              | None => if (N_of_ascii c <? 255)%N then Some [ascii_of_N (N_of_ascii c + 1)] else None
              end
  end.

Lemma above_snoc l c :
  above (l ++ [c]) = if (N_of_ascii c <? 255)%N then Some (l ++ [ascii_of_N (N_of_ascii c + 1)]) else above l.
Proof.
  induction l as [|x l IH]; cbn; [done|]. rewrite IH. by destruct (N_of_ascii c <? 255)%N.
Qed.

Lemma prefixEnd_above i b : (i ≤ length b)%nat → prefixEnd_loop i b = default [] (above (take i b)).
Proof.
  induction i as [|j IH]; intros Hi; [done|]. cbn [prefixEnd_loop].
  destruct (lookup_lt_is_Some_2 b j ltac:(lia)) as [c Hc]. rewrite Hc. change (default Ascii.zero (Some c)) with c. cbv zeta.
  rewrite (take_S_r _ _ _ Hc), above_snoc. destruct (N_of_ascii c <? 255)%N; [|apply IH; lia].
  rewrite (take_S_r _ j (ascii_of_N (N_of_ascii c + 1))) by (apply list_lookup_insert_eq; lia). cbn. by rewrite take_insert_ge.
Qed.

Lemma str_le_cons c d a b :
  str_le (String c a) (String d b) ↔ (N_of_ascii c < N_of_ascii d)%N ∨ c = d ∧ str_le a b.
Proof.
  rewrite !str_le_compare. cbn. unfold Ascii.compare. destruct (N.compare_spec (N_of_ascii c) (N_of_ascii d)) as [E|E|E].
  - apply (f_equal ascii_of_N) in E. rewrite !ascii_N_embedding in E. subst. split; [auto|]. intros [H|[_ H]]; [lia|done].
  - naive_solver.
  - split; [done|]. intros [H|[-> _]]; lia.
Qed.

Lemma str_lt_cons c d a b :
  str_lt (String c a) (String d b) ↔ (N_of_ascii c < N_of_ascii d)%N ∨ c = d ∧ str_lt a b.
Proof.
  rewrite !str_lt_compare. cbn. unfold Ascii.compare. destruct (N.compare_spec (N_of_ascii c) (N_of_ascii d)) as [E|E|E].
  - apply (f_equal ascii_of_N) in E. rewrite !ascii_N_embedding in E. subst. split; [auto|]. intros [H|[_ H]]; [lia|done].
  - naive_solver.
  - split; [done|]. intros [H|[-> _]]; lia.
Qed.

Lemma prefix_cons c d a b : String.prefix (String c a) (String d b) = true ↔ c = d ∧ String.prefix a b = true.
Proof. cbn. destruct (ascii_dec c d); naive_solver. Qed.

Lemma N_of_ascii_lt c : (N_of_ascii c < 256)%N.
Proof. apply N_ascii_bounded. Qed.

Lemma above_range p : ∀ k,
  (str_le p k ∧ match above (String.list_ascii_of_string p) with
                | Some e => str_lt k (String.string_of_list_ascii e) | None => True end) ↔ String.prefix p k = true.
Proof.
  induction p as [|c p IH]; intros k.
  { cbn. split; [by destruct k|]. intros _. split; [|done]. by rewrite str_le_compare; destruct k. }
  destruct k as [|d k]; [split; [by intros [? _]|done]|]. rewrite prefix_cons, <-IH, str_le_cons. cbn [String.list_ascii_of_string above].
  destruct (above (String.list_ascii_of_string p)) as [e|].
  - cbn [String.string_of_list_ascii]. rewrite str_lt_cons. split.
    + intros [[H|[-> H]] [H'|[? H']]]; subst; try lia; auto.
    + intros (-> & H & H'). auto.
  - destruct (N.ltb_spec (N_of_ascii c) 255).
    + cbn [String.string_of_list_ascii]. rewrite str_lt_cons, N_ascii_embedding by lia. split.
      * intros [[H1|[-> H1]] H2]; [|auto]. exfalso. destruct H2 as [H2|[-> H2]]; [lia|]. rewrite str_lt_compare in H2. by destruct k.
      * intros (-> & H1 & _). split; [auto|]. left. lia.
    + pose proof (N_of_ascii_lt d). split; [intros [[H1|H1] _]; [lia|tauto]|]. intros (-> & H1 & _). auto.
Qed.

(** The range of a listing is the prefix: between a prefix and its computed
    end, or from a prefix of 0xff bytes on, lie exactly the keys that start with
    the prefix. *)
Lemma prefix_range_exact prefix key : key_range prefix key = String.prefix prefix key.
Proof.
  apply eq_true_iff_eq. unfold key_range, prefixEnd.
  case_bool_decide as Ep; [subst; by destruct key|]. rewrite prefixEnd_above, firstn_all by done.
  rewrite <-above_range. destruct (above (String.list_ascii_of_string prefix)) as [e|] eqn:Ea; cbn [default].
  - rewrite bool_decide_eq_false_2; [|destruct e; [|done]].
    + rewrite andb_true_iff. done.
    + exfalso. clear -Ea. destruct (String.list_ascii_of_string prefix) as [|c l]; [done|]. cbn in Ea.
      destruct (above l), (N_of_ascii c <? 255)%N; naive_solver.
  - cbn. unfold str_le. tauto.
Qed.

(** ** The interface *)

Definition nanos (x : string * option Z) : string * option Z := (x.1, (λ ms, ms * 10 ^ 6) <$> x.2).
Definition view (s : Store) : entries := nanos <$> rows s.
Definition expires (now ttl : Z) : option Z := Some (UnixMilli (now + ttl) * 10 ^ 6).

(** Comparing whole milliseconds is comparing with the start of the
    millisecond. *)
Lemma nanos_live t x : entry_live t (nanos x) = row_live (UnixMilli t) x.
Proof.
  unfold entry_live, row_live, nanos, UnixMilli. destruct x as [v [e|]]; cbn; [|done]. apply eq_true_iff_eq. rewrite !Z.ltb_lt.
  pose proof (Z.div_mod t (10 ^ 6)). pose proof (Z.mod_pos_bound t (10 ^ 6)). lia.
Qed.

Lemma live_view t s k x : live t (view s) !! k = Some x ↔ ∃ y, rows s !! k = Some y ∧ x = nanos y ∧ row_live (UnixMilli t) y = true.
Proof.
  rewrite live_lookup. unfold view. rewrite lookup_fmap, fmap_Some. split.
  - intros [(y & Hy & ->) Hl]. rewrite nanos_live in Hl. eauto.
  - intros (y & Hy & -> & Hl). rewrite nanos_live. eauto.
Qed.

Lemma live_view_None t s k :
  live t (view s) !! k = None ↔ ∀ y, rows s !! k = Some y → row_live (UnixMilli t) y = false.
Proof.
  rewrite live_None. unfold view. rewrite lookup_fmap. split.
  - intros H y Hy. rewrite <-nanos_live. apply H. by rewrite Hy.
  - intros H x. destruct (rows s !! k) as [y|]; cbn; [|done]. intros [= <-]. rewrite nanos_live. auto.
Qed.

Lemma sweep_live t s : live t (view (maybeSweep t s)) = live t (view s) ∧ db_closed (maybeSweep t s) = db_closed s.
Proof.
  unfold maybeSweep. destruct (_ =? 0); [|done]. split; [|done]. apply map_eq. intros k. apply option_eq. intros x. rewrite !live_view. cbn.
  split; intros (y & Hy & -> & Hl); exists y; (split_and!; [|done..]).
  - by apply map_lookup_filter_Some in Hy as [? _].
  - by apply map_lookup_filter_Some.
Qed.

Lemma view_insert k x s : view (set_rows (<[k:=x]> (rows s)) s) = <[k:=nanos x]> (view s).
Proof. unfold view. cbn. by rewrite fmap_insert. Qed.

Lemma wrote_swept t k x s :
  let s' := maybeSweep t (set_rows (<[k:=x]> (rows s)) s) in
  (entry_live t (nanos x) = true → view s' !! k = Some (nanos x)) ∧ live t (view s') = live t (<[k:=nanos x]> (view s)) ∧ db_closed s' = db_closed s.
Proof.
  intros s'. subst s'. destruct (sweep_live t (set_rows (<[k:=x]> (rows s)) s)) as [E1 E2]. rewrite view_insert in E1. split_and!; [|done..].
  intros Hl. eapply proj1, (live_lookup t). rewrite E1. apply live_lookup. by rewrite lookup_insert_eq.
Qed.

Lemma exec_err_Some ctx s e : exec_err ctx s = Some e → ctx = true ∨ negb (db_closed s) = false.
Proof. unfold exec_err. destruct ctx, (db_closed s); cbn; auto. by intros. Qed.

Section laws.
Context `{MO : MapOrder}.

#[export] Program Instance sqlite_laws : KvLaws Store := {|
  kv_inv _ := True;
  kv_view := view;
  kv_open s := negb (db_closed s);
  kv_expires := expires;
  kv_fits _ _ _ _ := True;
|}.
Next Obligation.
  intros now ttl Ht. exists (UnixMilli (now + ttl) * 10 ^ 6). split; [done|]. unfold UnixMilli.
  pose proof (Z.div_mod (now + ttl) (10 ^ 6)). pose proof (Z.mod_pos_bound (now + ttl) (10 ^ 6)). lia.
Qed.
Next Obligation.
  intros ctx t k v s err s' _. cbn. unfold Put. destruct (exec_err ctx s); intros [= <- <-]; [done|].
  destruct (wrote_swept t k (v, None) s) as (H1 & H2 & ->). split_and!; try done. by rewrite H2.
Qed.
Next Obligation.
  intros ctx t k v ttl s err s' _. cbn. unfold PutWithTTL. destruct (exec_err ctx s); intros [= <- <-]; [done|].
  destruct (wrote_swept t k (v, Some (UnixMilli (t + ttl))) s) as (H1 & H2 & ->). split_and!; try done. by rewrite H2.
Qed.
Next Obligation.
  intros ctx t k v ttl s b err s' _. cbn. unfold PutIfAbsentWithTTL. destruct (exec_err ctx s); [by intros [= <- <- <-]|].
  destruct (wrote_swept t k (v, Some (UnixMilli (t + ttl))) s) as (H1 & H2 & H3).
  unfold upsert. destruct (rows s !! k) as [[v0 [e|]]|] eqn:Er; [destruct (Z.leb_spec e (UnixMilli t))|..]; cbn -[maybeSweep];
    intros [= <- <- <-]; rewrite ?H3; (split; [done|]); (split; [done|]).
  - split; [|by rewrite H2]. apply live_view_None. intros y. rewrite Er. intros [= <-]. cbn. apply Z.ltb_ge. done.
  - split; [|done]. exists (nanos (v0, Some e)). apply live_view. exists (v0, Some e). split_and!; try done. by apply Z.ltb_lt.
  - split; [|done]. exists (nanos (v0, None)). apply live_view. by exists (v0, None).
  - split; [|by rewrite H2]. apply live_view_None. intros y. by rewrite Er.
Qed.
Next Obligation.
  intros ctx t k s r s' _. cbn. unfold Get. destruct (exec_err ctx s) eqn:Ee; intros [= <- <-]; [eauto using exec_err_Some|].
  split_and!; try done. destruct (live t (view s) !! k) as [x|] eqn:El.
  - pose proof El as (y & -> & -> & ->)%live_view. done.
  - pose proof (proj1 (live_view_None t s k) El) as Hn.
    destruct (rows s !! k) as [y|]; [|done]. by rewrite Hn.
Qed.
Next Obligation.
  intros ctx t k s err s' _. cbn. unfold Delete. destruct (exec_err ctx s) eqn:Ee; intros [= <- <-]; [eauto using exec_err_Some|].
  split_and!; try done. rewrite <-live_delete. f_equal. unfold view. cbn. by rewrite fmap_delete.
Qed.
Next Obligation. done. Qed.
Next Obligation.
  intros ctx t p s r s' _. cbn. unfold List. destruct (exec_err ctx s) eqn:Ee; intros [= <- <-]; [eauto using exec_err_Some|].
  split_and!; try done; [apply range_order_NoDup|]. intros k. rewrite range_order_elem, elem_of_dom. split.
  - intros [x [Hx [Hp Hl]%andb_prop]%map_lookup_filter_Some]. cbn in *. rewrite prefix_range_exact in Hp. split; [done|].
    exists (nanos x). apply live_view. eauto.
  - intros [Hp [x (y & Hy & _ & Hl)%live_view]]. exists y. apply map_lookup_filter_Some. split; [done|]. cbn. by rewrite prefix_range_exact, Hp, Hl.
Qed.

End laws.
