(* ===== verification/Digests.v ===== *)
(** * Digests and encodings of the Go standard library

    crypto/sha1, crypto/sha512, crypto/hmac and encoding/base64 as the webhook
    verifiers use them, written out on machine words so that they compute; the
    examples at the end are the published test vectors.  SHA-256 and hex are in
    Fingerprint. *)

From Stdlib Require Import Ascii.
From S2P Require Import Prelude Fingerprint.

Local Open Scope Z_scope.

(** ** SHA-1 *)

Module sha1.

Import sha256.

Definition rotl (x n : Z) : Z := Z.lor (w32 (Z.shiftl x n)) (Z.shiftr x (32 - n)).

Record hstate := mkH { ha : Z; hb : Z; hc : Z; hd : Z; he : Z }.

Definition H0 : hstate := mkH 0x67452301 0xEFCDAB89 0x98BADCFE 0x10325476 0xC3D2E1F0.

(** Newest word first. *)
Fixpoint schedule (n : nat) (r : list Z) : list Z :=
  match n with
  | O => r
  | S n => schedule n (rotl (Z.lxor (Z.lxor (nth 2 r 0) (nth 7 r 0)) (Z.lxor (nth 13 r 0) (nth 15 r 0))) 1 :: r)
  end.

Definition f (t : Z) (x y z : Z) : Z :=
  if t <? 20 then Ch x y z else if (40 <=? t) && (t <? 60) then Maj x y z else Z.lxor (Z.lxor x y) z.

Definition K (t : Z) : Z :=
  if t <? 20 then 0x5A827999 else if t <? 40 then 0x6ED9EBA1 else if t <? 60 then 0x8F1BBCDC else 0xCA62C1D6.

Definition round (s : hstate) (tw : Z * Z) : hstate :=
  let T := w32 (rotl (ha s) 5 + f tw.1 (hb s) (hc s) (hd s) + he s + K tw.1 + tw.2) in
  mkH T (ha s) (rotl (hb s) 30) (hc s) (hd s).

Definition block (s : hstate) (words : list Z) : hstate :=
  let w := rev (schedule 64 (rev words)) in
  let t := foldl round s (combine (Z.of_nat <$> seq 0 80) w) in
  mkH (w32 (ha s + ha t)) (w32 (hb s + hb t)) (w32 (hc s + hc t)) (w32 (hd s + hd t)) (w32 (he s + he t)).

Fixpoint blocks (n : nat) (ws : list Z) (s : hstate) : hstate :=
  match n with
  | O => s
  | S n => blocks n (drop 16 ws) (block s (take 16 ws))
  end.

Definition Sum (msg : list Z) : list Z :=
  let ws := words (pad msg) in
  let s := blocks (length ws / 16) ws H0 in
  concat (be_bytes 4 <$> [ha s; hb s; hc s; hd s; he s]).

End sha1.

(** ** SHA-512 *)

Module sha512.

Import sha256.

Definition w64 (x : Z) : Z := Z.land x 0xFFFFFFFFFFFFFFFF.
Definition rotr64 (x n : Z) : Z := Z.lor (Z.shiftr x n) (w64 (Z.shiftl x (64 - n))).

Definition Ch64 (x y z : Z) : Z := Z.lxor (Z.land x y) (Z.land (Z.lxor x 0xFFFFFFFFFFFFFFFF) z).
Definition Sigma0 (x : Z) : Z := Z.lxor (Z.lxor (rotr64 x 28) (rotr64 x 34)) (rotr64 x 39).
Definition Sigma1 (x : Z) : Z := Z.lxor (Z.lxor (rotr64 x 14) (rotr64 x 18)) (rotr64 x 41).
Definition sigma0 (x : Z) : Z := Z.lxor (Z.lxor (rotr64 x 1) (rotr64 x 8)) (Z.shiftr x 7).
Definition sigma1 (x : Z) : Z := Z.lxor (Z.lxor (rotr64 x 19) (rotr64 x 61)) (Z.shiftr x 6).

(** The first 64 bits of the fractional parts of the cube and square roots. *)
Definition primes80 : list Z := Eval vm_compute in Z.of_nat <$> List.filter is_prime (seq 2 408).

Definition K : list Z :=
  Eval vm_compute in (λ p, w64 (cbrt_from 68 0 (p * 2 ^ 192))) <$> primes80.

Definition H0 : hstate :=
  Eval vm_compute in
  let r i := w64 (Z.sqrt (nth i primes80 0 * 2 ^ 128)) in
  mkH (r 0%nat) (r 1%nat) (r 2%nat) (r 3%nat) (r 4%nat) (r 5%nat) (r 6%nat) (r 7%nat).

Fixpoint schedule (n : nat) (r : list Z) : list Z :=
  match n with
  | O => r
  | S n => schedule n (w64 (sigma1 (nth 1 r 0) + nth 6 r 0 + sigma0 (nth 14 r 0) + nth 15 r 0) :: r)
  end.

Definition round (s : hstate) (kw : Z * Z) : hstate :=
  let T1 := w64 (hh s + Sigma1 (he s) + Ch64 (he s) (hf s) (hg s) + kw.1 + kw.2) in
  let T2 := w64 (Sigma0 (ha s) + Maj (ha s) (hb s) (hc s)) in
  mkH (w64 (T1 + T2)) (ha s) (hb s) (hc s) (w64 (hd s + T1)) (he s) (hf s) (hg s).

Definition block (s : hstate) (words : list Z) : hstate :=
  let w := rev (schedule 64 (rev words)) in
  let t := foldl round s (combine K w) in
  mkH (w64 (ha s + ha t)) (w64 (hb s + hb t)) (w64 (hc s + hc t)) (w64 (hd s + hd t))
      (w64 (he s + he t)) (w64 (hf s + hf t)) (w64 (hg s + hg t)) (w64 (hh s + hh t)).

Definition pad (msg : list Z) : list Z :=
  let len := Z.of_nat (length msg) in
  let zeros := Z.to_nat ((111 - len) mod 128) in
  msg ++ [0x80] ++ replicate zeros 0 ++ be_bytes 16 (8 * len).

Fixpoint pairs (ws : list Z) : list Z :=
  match ws with
  | hi :: lo :: ws => Z.shiftl hi 32 + lo :: pairs ws
  | _ => []
  end.

Fixpoint blocks (n : nat) (ws : list Z) (s : hstate) : hstate :=
  match n with
  | O => s
  | S n => blocks n (drop 16 ws) (block s (take 16 ws))
  end.

Definition Sum (msg : list Z) : list Z :=
  let ws := pairs (words (pad msg)) in
  let s := blocks (length ws / 16) ws H0 in
  concat (be_bytes 8 <$> [ha s; hb s; hc s; hd s; he s; hf s; hg s; hh s]).

End sha512.

(** ** HMAC *)

(** A [hash.Hash] by its sum and its block size. *)
Record Hash := mkHash { hash_sum : list Z → list Z; BlockSize : nat }.

Definition SHA256 : Hash := mkHash sha256.Sum256 64.
Definition SHA1 : Hash := mkHash sha1.Sum 64.
Definition SHA512 : Hash := mkHash sha512.Sum 128.

Definition hmac (h : Hash) (key msg : list Z) : list Z :=
  let key := if (BlockSize h <? length key)%nat then hash_sum h key else key in
  let key := key ++ replicate (BlockSize h - length key) 0 in
  hash_sum h ((Z.lxor 0x5c <$> key) ++ hash_sum h ((Z.lxor 0x36 <$> key) ++ msg)).

(** ** Base64, standard alphabet with padding *)

Definition base64_digit (n : Z) : ascii :=
  ascii_of_N (Z.to_N (if n <? 26 then 65 + n else if n <? 52 then 71 + n else if n <? 62 then n - 4 else if n =? 62 then 43 else 47)).

Fixpoint base64 (bs : list Z) : string :=
  match bs with
  | [] => ""
  | [a] => String (base64_digit (Z.shiftr a 2)) (String (base64_digit (Z.shiftl (Z.land a 3) 4)) "==")
  | [a; b] =>
      String (base64_digit (Z.shiftr a 2)) (String (base64_digit (Z.lor (Z.shiftl (Z.land a 3) 4) (Z.shiftr b 4)))
        (String (base64_digit (Z.shiftl (Z.land b 15) 2)) "="))
  | a :: b :: c :: bs =>
      String (base64_digit (Z.shiftr a 2)) (String (base64_digit (Z.lor (Z.shiftl (Z.land a 3) 4) (Z.shiftr b 4)))
        (String (base64_digit (Z.lor (Z.shiftl (Z.land b 15) 2) (Z.shiftr c 6))) (String (base64_digit (Z.land c 63)) (base64 bs))))
  end.

Example sha1_abc : EncodeToString (sha1.Sum (string_bytes "abc")) = "a9993e364706816aba3e25717850c26c9cd0d89d".
Proof. vm_compute. reflexivity. Qed.

Example sha512_abc :
  EncodeToString (sha512.Sum (string_bytes "abc")) =
  "ddaf35a193617abacc417349ae20413112e6fa4e89a97ea20a9eeee64b55d39a2192992a274fc1a836ba3c23a3feebbd454d4423643ce80e2a9ac94fa54ca49f".
Proof. vm_compute. reflexivity. Qed.

Example hmac_sha256_rfc4231_2 :
  EncodeToString (hmac SHA256 (string_bytes "Jefe") (string_bytes "what do ya want for nothing?")) =
  "5bdcc146bf60754e6a042426089575c75a003f089d2739839dec58b964ec3843".
Proof. vm_compute. reflexivity. Qed.

Example base64_vectors : base64 <$> [string_bytes "f"; string_bytes "fo"; string_bytes "foobar"] = ["Zg=="; "Zm8="; "Zm9vYmFy"].
Proof. vm_compute. reflexivity. Qed.
