(* ===== verification/GoStrings.v ===== *)
(** * Go's strconv, strings, net and net/url on strings

    The functions of the standard library the key formats are built from, and
    when a text made of several parts determines the parts. *)

From Stdlib Require Import Ascii.
From S2P Require Import Prelude Fingerprint Topics StreamWire.

Local Open Scope Z_scope.

(** ** strconv and strings *)

(** [strconv.ParseInt(s, 10, 64)]. *)
Definition parse_digits (s : string) : option Z :=
  if String.eqb s "" || negb (all_chars is_digit s) then None else Some (digits_value s 0).

Definition ParseInt (s : string) : option Z :=
  let '(neg, ds) := match s with
                    | String "-"%char s' => (true, s')
                    | String "+"%char s' => (false, s')
                    | _ => (false, s)
                    end in
  n ← parse_digits ds;
  if (neg : bool) then if n <=? 2 ^ 63 then Some (- n) else None
  else if n <? 2 ^ 63 then Some n else None.

(** [strconv.FormatInt(n, 10)]. *)
Definition FormatInt (n : Z) : string := if n <? 0 then String "-"%char (formatOffset (- n)) else formatOffset n.

Fixpoint byte_string (bs : list N) : string :=
  match bs with [] => "" | b :: bs => String (ascii_of_N b) (byte_string bs) end.

(** The encodings of the runes [unicode.IsSpace] accepts. *)
Definition space_runes : list string :=
  byte_string <$> ([[9]; [10]; [11]; [12]; [13]; [32]; [194; 133]; [194; 160]; [225; 154; 128]; [226; 128; 168]; [226; 128; 169];
    [226; 128; 175]; [226; 129; 159]; [227; 128; 128]] ++ ((λ b, [226; 128; b]) <$> [128; 129; 130; 131; 132; 133; 134; 135; 136; 137; 138]))%N.

Fixpoint str_rev (s acc : string) : string :=
  match s with EmptyString => acc | String c s => str_rev s (String c acc) end.

Fixpoint trim_left (fuel : nat) (spaces : list string) (s : string) : string :=
  match fuel with
  | O => s
  | S fuel =>
      match List.find (λ p, String.prefix p s) spaces with
      | Some p => trim_left fuel spaces (String.substring (String.length p) (String.length s) s)
      | None => s
      end
  end.

(** [strings.TrimSpace]; every turn drops a rune, so the length bounds them. *)
Definition TrimSpace (s : string) : string :=
  let s := trim_left (String.length s) space_runes s in
  str_rev (trim_left (String.length s) ((λ p, str_rev p "") <$> space_runes) (str_rev s "")) "".

(** [strings.Fields]; every turn drops a rune or a byte. *)
Fixpoint fields_loop (fuel : nat) (s cur : string) : list string :=
  let close := if String.eqb cur "" then [] else [str_rev cur ""] in
  match fuel, s with
  | O, _ | _, EmptyString => close
  | S fuel, String c s' =>
      match List.find (λ p, String.prefix p s) space_runes with
      | Some p => (close ++ fields_loop fuel (String.substring (String.length p) (String.length s) s) "")%list
      | None => fields_loop fuel s' (String c cur)
      end
  end.

Definition Fields (s : string) : list string := fields_loop (String.length s) s "".

(** [strings.Split] with a separator of one byte. *)
Fixpoint SplitOn (sep : ascii) (s : string) : list string :=
  match s with
  | EmptyString => [""]
  | String c s =>
      if Ascii.eqb c sep then "" :: SplitOn sep s
      else match SplitOn sep s with p :: ps => String c p :: ps | [] => [String c ""] end
  end.

(** [strings.Join]. *)
Fixpoint Join (sep : string) (l : list string) : string :=
  match l with
  | [] => ""
  | [x] => x
  | x :: l => x +:+ sep +:+ Join sep l
  end.

Definition NUL : ascii := ascii_of_N 0.
Definition NULs : string := String NUL "".

(** The index of the first and of the last occurrence of a byte. *)
Fixpoint IndexByte (c : ascii) (s : string) : option nat :=
  match s with
  | EmptyString => None
  | String d s => if Ascii.eqb d c then Some O else S <$> IndexByte c s
  end.

Fixpoint LastIndexByte (c : ascii) (s : string) : option nat :=
  match s with
  | EmptyString => None
  | String d s => match LastIndexByte c s with Some i => Some (S i) | None => if Ascii.eqb d c then Some O else None end
  end.

Definition has_byte (c : ascii) (s : string) : bool := if IndexByte c s is Some _ then true else false.

(** [net.SplitHostPort]: the host, or nothing for its errors. *)
Definition SplitHost (hostport : string) : option string :=
  match LastIndexByte ":" hostport with
  | None => None
  | Some i =>
      match hostport with
      | String "["%char _ =>
          match IndexByte "]" hostport with
          | None => None
          | Some e =>
              if (S e =? i)%nat then
                if has_byte "[" (str_drop 1 hostport) || has_byte "]" (str_drop (S e) hostport) then None
                else Some (str_take (e - 1) (str_drop 1 hostport))
              else None
          end
      | _ =>
          let host := str_take i hostport in
          if has_byte ":" host || has_byte "[" hostport || has_byte "]" hostport then None else Some host
      end
  end.

(** ** Escaping *)

Definition upper_hex (n : N) : ascii := ascii_of_N (if (n <? 10)%N then 48 + n else 55 + n).

Definition is_alnum (c : ascii) : bool :=
  let n := N_of_ascii c in
  ((48 <=? n) && (n <=? 57) || (65 <=? n) && (n <=? 90) || (97 <=? n) && (n <=? 122))%N.

Definition percent (c : ascii) (s : string) : string :=
  let n := N_of_ascii c in
  String "%"%char (String (upper_hex (n / 16)) (String (upper_hex (n mod 16)) s)).

(** [url.PathEscape] and [url.QueryEscape]. *)
Fixpoint escape (keep : ascii → bool) (plus : bool) (s : string) : string :=
  match s with
  | EmptyString => ""
  | String c s =>
      if plus && Ascii.eqb c " " then String "+"%char (escape keep plus s)
      else if keep c then String c (escape keep plus s)
      else percent c (escape keep plus s)
  end.

Definition query_keep (c : ascii) : bool := is_alnum c || bool_decide (c ∈ ["-"; "_"; "."; "~"]%char).
Definition path_keep (c : ascii) : bool := query_keep c || bool_decide (c ∈ ["$"; "&"; "+"; "="; ":"; "@"]%char).

Definition QueryEscape : string → string := escape query_keep true.
Definition PathEscape : string → string := escape path_keep false.

(** ** Lemmas *)

Lemma digits_value_nonneg s : ∀ a, all_chars is_digit s = true → 0 ≤ a → 0 ≤ digits_value s a.
Proof.
  induction s as [|c s IH]; intros a; cbn [all_chars digits_value]; [done|].
  intros [Hc%is_digit_code Hs]%andb_true_iff Ha. apply IH; [done|lia].
Qed.

Lemma parse_digits_nonneg s n : parse_digits s = Some n → 0 ≤ n.
Proof.
  unfold parse_digits. destruct (all_chars is_digit s) eqn:E; [|by rewrite orb_true_r].
  destruct (String.eqb s ""); [done|]. intros [= <-]. by apply digits_value_nonneg.
Qed.

Lemma formatOffset_all_digits n : 0 ≤ n → all_chars is_digit (formatOffset n) = true.
Proof. intros Hn. unfold formatOffset. by rewrite format_digits_digits. Qed.

(** A separator outside the alphabet of the first part. *)
Lemma separator_inj P c a : ∀ b x y,
  all_chars P a = true → all_chars P b = true → P c = false → a +:+ String c x = b +:+ String c y → a = b ∧ x = y.
Proof.
  induction a as [|d a IH]; intros [|d' b] x y Ha Hb Hc E.
  - split; [done|]. cbn in E. by injection E.
  - cbn in E. injection E as <- _. cbn in Hb. by rewrite Hc in Hb.
  - cbn in E. injection E as -> _. cbn in Ha. by rewrite Hc in Ha.
  - change (String d (a +:+ String c x) = String d' (b +:+ String c y)) in E. injection E as -> E.
    cbn in Ha, Hb. apply andb_prop in Ha as [_ Ha], Hb as [_ Hb]. destruct (IH b x y Ha Hb Hc E) as [-> ->]. done.
Qed.


Lemma SplitOn_not_nil sep s : SplitOn sep s ≠ [].
Proof. destruct s as [|c s]; cbn; [done|]. destruct (Ascii.eqb c sep); [done|]. by destruct (SplitOn sep s). Qed.

Definition free (sep : ascii) (s : string) : bool := all_chars (λ c, negb (Ascii.eqb c sep)) s.

Lemma SplitOn_free sep s : free sep s = true → SplitOn sep s = [s].
Proof.
  induction s as [|c s IH]; [done|]. unfold free. cbn. intros [Hc%negb_true_iff Hs]%andb_true_iff. rewrite Hc.
  by rewrite IH.
Qed.

Lemma SplitOn_sep sep a b : free sep a = true → SplitOn sep (a +:+ String sep b) = a :: SplitOn sep b.
Proof.
  induction a as [|c a IH]; intros H; [change (SplitOn sep (String sep b) = "" :: SplitOn sep b); cbn [SplitOn]; by rewrite Ascii.eqb_refl|].
  unfold free in H. cbn [all_chars] in H. apply andb_true_iff in H as [Hc%negb_true_iff Ha].
  change (String c a +:+ String sep b) with (String c (a +:+ String sep b)). cbn [SplitOn]. by rewrite Hc, IH.
Qed.

(** Parts without the separator are read back from their join. *)
Lemma SplitOn_Join sep l :
  l ≠ [] → Forall (λ x, free sep x = true) l → SplitOn sep (Join (String sep "") l) = l.
Proof.
  induction l as [|x [|y l] IH]; intros Hne Hf; [done| |]; apply Forall_cons in Hf as [Hx Hf].
  - by apply SplitOn_free.
  - change (Join (String sep "") (x :: y :: l)) with (x +:+ String sep (Join (String sep "") (y :: l))).
    rewrite SplitOn_sep by done. by rewrite IH.
Qed.

Lemma Join_inj sep l l' :
  l ≠ [] → l' ≠ [] → Forall (λ x, free sep x = true) l → Forall (λ x, free sep x = true) l' →
  Join (String sep "") l = Join (String sep "") l' → l = l'.
Proof. intros ? ? ? ? E. apply (f_equal (SplitOn sep)) in E. by rewrite !SplitOn_Join in E. Qed.

(** What an escape can be made of, and that it can be undone. *)
Lemma upper_hex_inj n m : (n < 16)%N → (m < 16)%N → upper_hex n = upper_hex m → n = m.
Proof.
  intros Hn Hm E. unfold upper_hex in E. apply (f_equal N_of_ascii) in E.
  destruct (N.ltb_spec n 10), (N.ltb_spec m 10); rewrite !N_ascii_embedding in E; lia.
Qed.

Lemma percent_inj c d s t : percent c s = percent d t → c = d ∧ s = t.
Proof.
  unfold percent. intros [= E1 E2 ->]. split; [|done]. pose proof (N_ascii_bounded c). pose proof (N_ascii_bounded d).
  apply upper_hex_inj in E1; [|apply N.Div0.div_lt_upper_bound; lia..].
  apply upper_hex_inj in E2; [|apply N.mod_lt; lia..].
  rewrite <-(ascii_N_embedding c), <-(ascii_N_embedding d). f_equal.
  rewrite (N.div_mod' (N_of_ascii c) 16), (N.div_mod' (N_of_ascii d) 16). congruence.
Qed.

Lemma escape_inj keep plus s t :
  keep "%"%char = false → (plus = true → keep "+"%char = false) → escape keep plus s = escape keep plus t → s = t.
Proof.
  intros Hp Hplus. revert t. induction s as [|c s IH]; intros [|d t] E; [done|..].
  - exfalso. cbn in E. destruct (plus && _); [done|]. by destruct (keep d).
  - exfalso. cbn in E. destruct (plus && _); [done|]. by destruct (keep c).
  - cbn in E. destruct (plus && Ascii.eqb c " ") eqn:E1, (plus && Ascii.eqb d " ") eqn:E2.
    + apply andb_true_iff in E1 as [_ ->%Ascii.eqb_eq], E2 as [_ ->%Ascii.eqb_eq]. injection E as E. f_equal. by apply IH.
    + apply andb_true_iff in E1 as [-> _]. destruct (keep d) eqn:Kd; [injection E as <- _; by rewrite Hplus in Kd|done].
    + apply andb_true_iff in E2 as [-> _]. destruct (keep c) eqn:Kc; [injection E as -> _; by rewrite Hplus in Kc|done].
    + destruct (keep c) eqn:Kc, (keep d) eqn:Kd.
      * injection E as -> E. f_equal. by apply IH.
      * injection E as -> _. congruence.
      * injection E as <- _. congruence.
      * apply percent_inj in E as [-> E]. f_equal. by apply IH.
Qed.

Lemma upper_hex_alnum n : (n < 16)%N → is_alnum (upper_hex n) = true.
Proof.
  intros Hn. unfold is_alnum, upper_hex. rewrite N_ascii_embedding by (destruct (N.ltb_spec n 10); lia).
  destruct (N.ltb_spec n 10); [replace ((48 <=? 48 + n) && (48 + n <=? 57))%N with true; [done|]|replace ((65 <=? 55 + n) && (55 + n <=? 90))%N with true; [by rewrite orb_true_r|]];
    symmetry; apply andb_true_iff; rewrite !N.leb_le; lia.
Qed.

Lemma escape_chars keep plus (P : ascii → bool) s :
  (∀ c, keep c = true → P c = true) → (∀ c, is_alnum c = true → P c = true) → P "%"%char = true → (plus = true → P "+"%char = true) →
  all_chars P (escape keep plus s) = true.
Proof.
  intros Hk Ha Hp Hplus. induction s as [|c s IH]; [done|]. cbn.
  destruct plus; cbn [andb]; [destruct (Ascii.eqb c " "); [cbn; by rewrite IH, Hplus|]|]; (destruct (keep c) eqn:E; [cbn; by rewrite IH, Hk|]);
    unfold percent; cbn [all_chars]; pose proof (N_ascii_bounded c);
    by rewrite Hp, !Ha, IH by (apply upper_hex_alnum; first [apply N.Div0.div_lt_upper_bound; lia|apply N.mod_lt; lia]).
Qed.

Lemma PathEscape_inj s t : PathEscape s = PathEscape t → s = t.
Proof. by apply escape_inj. Qed.

Lemma QueryEscape_inj s t : QueryEscape s = QueryEscape t → s = t.
Proof. by apply escape_inj. Qed.

Lemma keep_no_slash (keep : ascii → bool) : keep "/"%char = false → ∀ c, keep c = true → negb (Ascii.eqb c "/") = true.
Proof. intros H c Hc. apply negb_true_iff, Ascii.eqb_neq. intros ->. congruence. Qed.

Lemma PathEscape_free s : free "/" (PathEscape s) = true.
Proof. apply escape_chars; try done; apply keep_no_slash; vm_compute; reflexivity. Qed.

Lemma QueryEscape_free s : free "/" (QueryEscape s) = true.
Proof. apply escape_chars; try done; apply keep_no_slash; vm_compute; reflexivity. Qed.

(** ** Numbers in keys *)

Lemma formatOffset_value n : 0 ≤ n < 10 ^ 20 → digits_value (formatOffset n) 0 = n.
Proof. intros Hn. unfold formatOffset. rewrite format_digits_value; [done|exact Hn|lia]. Qed.

Lemma FormatInt_inj n m : - 10 ^ 20 < n < 10 ^ 20 → - 10 ^ 20 < m < 10 ^ 20 → FormatInt n = FormatInt m → n = m.
Proof.
  assert (Hd : ∀ k s, 0 ≤ k < 10 ^ 20 → formatOffset k ≠ String "-"%char s).
  { intros k s Hk E. pose proof (formatOffset_all_digits k ltac:(lia)) as H. by rewrite E in H. }
  intros Hn Hm. unfold FormatInt. destruct (Z.ltb_spec n 0), (Z.ltb_spec m 0); intros E.
  - assert (E' : formatOffset (- n) = formatOffset (- m)) by (by injection E). apply (f_equal (λ s, digits_value s 0)) in E'.
    rewrite !formatOffset_value in E' by lia. lia.
  - symmetry in E. apply Hd in E; [done|lia].
  - apply Hd in E; [done|lia].
  - apply (f_equal (λ s, digits_value s 0)) in E. by rewrite !formatOffset_value in E by lia.
Qed.

Lemma all_chars_mono (P Q : ascii → bool) s : (∀ c, P c = true → Q c = true) → all_chars P s = true → all_chars Q s = true.
Proof. intros H. induction s as [|c s IH]; cbn; [done|]. intros [? ?]%andb_true_iff. apply andb_true_iff. auto. Qed.

Lemma FormatInt_free n : free "/" (FormatInt n) = true.
Proof.
  assert (Hd : ∀ k, 0 ≤ k → free "/" (formatOffset k) = true).
  { intros k Hk. eapply all_chars_mono; [|by apply formatOffset_all_digits]. intros c Hc. apply negb_true_iff, Ascii.eqb_neq. by intros ->. }
  unfold FormatInt. destruct (Z.ltb_spec n 0); [|by apply Hd]. unfold free. cbn [all_chars]. by apply Hd; lia.
Qed.
