(* ===== verification/WebhookVerify.v ===== *)
(** * Verifying webhook deliveries (go/transport/webhook/verify.go)

    The HMAC and basic-auth verifiers, timestamps and keys.  Digests are
    computed (Digests, Fingerprint); [json.Unmarshal] of a body is an argument. *)

From Stdlib Require Import Ascii.
From S2P Require Import Prelude Fingerprint Topics StreamWire Digests GoStrings.

Local Open Scope Z_scope.

(** What the receiver reads of an [http.Request]; [Get] of an absent header or
    parameter is the empty string. *)
Record Request := mkRequest {
  Method : string;
  QueryGet : string → string;
  HeaderGet : string → string;
  BasicAuthOf : option (string * string);
  Body : string;
}.

(** ** HMAC *)

Record HMACConfig := mkHMACConfig {
  Header : string;
  Secret : string;
  Hash_ : string;
  Prefix : string;
  Encoding : string;
  TimestampHeader : string;
}.

Record hmacVerifier := mkHmacVerifier { cfg : HMACConfig; newH : Hash }.

Inductive webhook_err := ErrConfig | ErrUnverified.

Definition HMAC (cf : HMACConfig) : res webhook_err hmacVerifier :=
  if String.eqb (Header cf) "" || String.eqb (Secret cf) "" then Err ErrConfig
  else
    let h := if String.eqb (Hash_ cf) "" || String.eqb (Hash_ cf) "sha256" then Some SHA256
             else if String.eqb (Hash_ cf) "sha1" then Some SHA1
             else if String.eqb (Hash_ cf) "sha512" then Some SHA512
             else None in
    match h with
    | None => Err ErrConfig
    | Some h =>
        if String.eqb (Encoding cf) "" || String.eqb (Encoding cf) "hex" || String.eqb (Encoding cf) "base64"
        then Ok (mkHmacVerifier cf h) else Err ErrConfig
    end.

(** What is signed. *)
Definition signed_payload (v : hmacVerifier) (ts body : string) : string :=
  if String.eqb (TimestampHeader (cfg v)) "" then body else ts +:+ "." +:+ body.

Definition sign (v : hmacVerifier) (ts body : string) : string :=
  let sum := hmac (newH v) (string_bytes (Secret (cfg v))) (string_bytes (signed_payload v ts body)) in
  Prefix (cfg v) +:+ (if String.eqb (Encoding (cfg v)) "base64" then base64 sum else EncodeToString sum).

Definition SignHMAC (cf : HMACConfig) (ts body : string) : res webhook_err string :=
  match HMAC cf with Err e => Err e | Ok v => Ok (sign v ts body) end.

Definition plainUnixSeconds (ts : string) : bool :=
  if (String.length ts =? 0)%nat || (19 <? String.length ts)%nat then false
  else match ParseInt ts with
       | Some n => (0 <=? n) && String.eqb (FormatInt n) ts
       | None => false
       end.

(** [subtle.ConstantTimeCompare] of the SHA-256 sums. *)
Definition same_digest (a b : string) : bool :=
  bool_decide (sha256.Sum256 (string_bytes a) = sha256.Sum256 (string_bytes b)).

Definition Verify (v : hmacVerifier) (r : Request) : bool :=
  let got := HeaderGet r (Header (cfg v)) in
  if String.eqb got "" then false
  else
    let ts := if String.eqb (TimestampHeader (cfg v)) "" then "" else HeaderGet r (TimestampHeader (cfg v)) in
    if negb (String.eqb (TimestampHeader (cfg v)) "") && (String.eqb ts "" || negb (plainUnixSeconds ts)) then false
    else same_digest got (sign v ts (Body r)).

Definition BasicAuth (user password : string) (r : Request) : bool :=
  match BasicAuthOf r with
  | None => false
  | Some (u, p) => same_digest u user && same_digest p password
  end.

(** ** Timestamps and keys *)

Definition Second : Z := 10 ^ 9.

Definition HeaderUnixTimestamp (header : string) (r : Request) : option Z :=
  (λ n, n * Second) <$> ParseInt (TrimSpace (HeaderGet r header)).

Definition HeaderKey (header : string) (r : Request) : string := TrimSpace (HeaderGet r header).

Definition BodyHashKey (r : Request) : string := EncodeToString (sha256.Sum256 (string_bytes (Body r))).

(** ** Timestamps in signed payloads *)

Lemma plain_canonical ts : plainUnixSeconds ts = true → ∃ n, 0 ≤ n < 2 ^ 63 ∧ ts = formatOffset n.
Proof.
  unfold plainUnixSeconds. destruct (_ || _); [done|]. destruct (ParseInt ts) as [n|] eqn:E; [|done].
  intros [Hn%Z.leb_le Hf%String.eqb_eq]%andb_prop. exists n. split.
  - split; [done|]. revert E. unfold ParseInt. destruct (match ts with EmptyString => _ | _ => _ end) as [neg ds].
    destruct (parse_digits ds) as [d|] eqn:Ed; cbn; [|done]. apply parse_digits_nonneg in Ed. destruct neg; [destruct (Z.leb_spec d (2 ^ 63)); [intros [= <-]; lia|done]|].
    destruct (Z.ltb_spec d (2 ^ 63)); [intros [= <-]; done|done].
  - unfold FormatInt in Hf. rewrite (proj2 (Z.ltb_ge _ _)) in Hf by done. done.
Qed.

(** The timestamps that are let through to the MAC separate themselves from the
    body. *)
Lemma payload_unambiguous v ts ts' body body' :
  TimestampHeader (cfg v) ≠ "" → plainUnixSeconds ts = true → plainUnixSeconds ts' = true →
  signed_payload v ts body = signed_payload v ts' body' → ts = ts' ∧ body = body'.
Proof.
  intros Ht (n & Hn & ->)%plain_canonical (m & Hm & ->)%plain_canonical. unfold signed_payload.
  rewrite (proj2 (String.eqb_neq _ _)) by done. by apply (separator_inj is_digit); try (apply formatOffset_all_digits; lia).
Qed.

(** ** Signatures *)

Lemma be_concat_nonempty n x l : concat (sha256.be_bytes (S n) <$> (x :: l)) ≠ [].
Proof. intros H. apply (f_equal length) in H. cbn [fmap list_fmap concat] in H. rewrite length_app, length_be_bytes in H. done. Qed.

Lemma sum_nonempty h msg : h = SHA256 ∨ h = SHA1 ∨ h = SHA512 → hash_sum h msg ≠ [].
Proof. intros [->|[->| ->]]; apply be_concat_nonempty. Qed.

Lemma HMAC_hash cf v : HMAC cf = Ok v → cfg v = cf ∧ (newH v = SHA256 ∨ newH v = SHA1 ∨ newH v = SHA512).
Proof.
  unfold HMAC. destruct (_ || _); [done|]. destruct (_ || _ : bool) eqn:E.
  1: destruct (_ || _ || _); [|done]; intros [= <-]; auto.
  destruct (String.eqb (Hash_ cf) "sha1"); [|destruct (String.eqb (Hash_ cf) "sha512"); [|done]];
    destruct (_ || _ || _); try done; intros [= <-]; auto.
Qed.

Lemma hmac_nonempty h key msg : h = SHA256 ∨ h = SHA1 ∨ h = SHA512 → hmac h key msg ≠ [].
Proof. intros Hh. by apply sum_nonempty. Qed.

Lemma encoded_nonempty sum : sum ≠ [] → base64 sum ≠ "" ∧ EncodeToString sum ≠ "".
Proof. destruct sum as [|a [|b [|c sum]]]; done. Qed.

Lemma sign_nonempty cf v ts body : HMAC cf = Ok v → sign v ts body ≠ "".
Proof.
  intros [_ Hh]%HMAC_hash. unfold sign.
  pose proof (encoded_nonempty _ (hmac_nonempty (newH v) (string_bytes (Secret (cfg v))) (string_bytes (signed_payload v ts body)) Hh)) as [H1 H2].
  revert H1 H2. generalize (hmac (newH v) (string_bytes (Secret (cfg v))) (string_bytes (signed_payload v ts body))) as sum. intros sum H1 H2.
  destruct (Prefix (cfg v)); [|done]. cbn. by destruct (String.eqb (Encoding (cfg v)) "base64").
Qed.

Lemma same_digest_refl a : same_digest a a = true.
Proof. unfold same_digest. by rewrite bool_decide_eq_true_2. Qed.

(** A delivery is accepted exactly when its header is the signature of its
    body (and of its timestamp, which must be plain Unix seconds), provided the
    two compared digests do not collide; what [SignHMAC] signs is accepted
    outright, and an accepted signature covers one timestamp and one body. *)
Theorem hmac_verify_spec cf v r ts body' ts' :
  HMAC cf = Ok v →
  ts = (if String.eqb (TimestampHeader cf) "" then "" else HeaderGet r (TimestampHeader cf)) →
  (same_digest (HeaderGet r (Header cf)) (sign v ts (Body r)) = true → HeaderGet r (Header cf) = sign v ts (Body r)) →
  (Verify v r = true ↔ HeaderGet r (Header cf) = sign v ts (Body r) ∧ (TimestampHeader cf ≠ "" → plainUnixSeconds ts = true)) ∧
  (SignHMAC cf ts (Body r) = Ok (HeaderGet r (Header cf)) → (TimestampHeader cf ≠ "" → plainUnixSeconds ts = true) → Verify v r = true) ∧
  (Verify v r = true → TimestampHeader cf ≠ "" → plainUnixSeconds ts' = true →
     signed_payload v ts' body' = signed_payload v ts (Body r) → ts' = ts ∧ body' = Body r).
Proof.
  intros Hv -> Hcol. destruct (HMAC_hash cf v Hv) as [Hc _].
  set (ts := if String.eqb (TimestampHeader cf) "" then "" else HeaderGet r (TimestampHeader cf)) in *.
  assert (Hiff : Verify v r = true ↔ HeaderGet r (Header cf) = sign v ts (Body r) ∧ (TimestampHeader cf ≠ "" → plainUnixSeconds ts = true)).
  { unfold Verify. rewrite Hc. fold ts. split.
    - destruct (String.eqb (HeaderGet r (Header cf)) ""); [done|].
      destruct (String.eqb_spec (TimestampHeader cf) "") as [Ht|Ht]; cbn [negb andb].
      + intros Hs. split; [by apply Hcol|done].
      + destruct (plainUnixSeconds ts); [|by rewrite orb_true_r]. destruct (String.eqb ts ""); [done|]. intros Hs. split; [by apply Hcol|done].
    - intros [-> Hp]. pose proof (sign_nonempty cf v ts (Body r) Hv) as Hne. rewrite (proj2 (String.eqb_neq _ _) Hne).
      destruct (String.eqb_spec (TimestampHeader cf) "") as [Ht|Ht]; cbn [negb andb]; [apply same_digest_refl|].
      specialize (Hp Ht). rewrite Hp. destruct (String.eqb_spec ts "") as [Ets|_]; [by rewrite Ets in Hp|]. apply same_digest_refl. }
  split_and!; [done| |].
  - unfold SignHMAC. rewrite Hv. intros [= E] Hp. by apply Hiff.
  - intros [_ Hp]%Hiff Ht Hp'. apply payload_unambiguous; [by rewrite Hc|done|auto].
Qed.

Definition example_hmac : HMACConfig := mkHMACConfig "X-Sig" "s3cret" "" "sha256=" "" "X-Time".
Definition example_verifier : hmacVerifier := mkHmacVerifier example_hmac SHA256.
Definition example_request : Request :=
  mkRequest "POST" (λ _, "") (λ h, if String.eqb h "X-Time" then "1700000000" else sign example_verifier "1700000000" "hi") None "hi".

Lemma hmac_verify_spec_witness : HMAC example_hmac = Ok example_verifier ∧ Verify example_verifier example_request = true.
Proof.
  split; [reflexivity|].
  apply (proj2 (proj1 (hmac_verify_spec example_hmac example_verifier example_request "1700000000" "hi" "1700000000"
    eq_refl eq_refl ltac:(intros _; reflexivity)))). split; [reflexivity|]. intros _. vm_compute. reflexivity.
Defined.

(** A window that a leading zero or a sign would open is closed. *)
Example plain_rejects : plainUnixSeconds <$> ["1700000000"; "0"; "01700000000"; "+1700000000"; "-1"; " 1"; ""; "9223372036854775808"] =
  [true; true; false; false; false; false; false; false].
Proof. vm_compute. reflexivity. Qed.
