(* ===== verification/Webhook.v ===== *)
(** * The webhook receiver (go/transport/webhook/receiver.go, handshake.go)

    A receiver for one endpoint: handshakes, verifiers, replay window, claim of
    the idempotency key in a key-value store, and the goroutine that publishes
    the delivery and releases the claim when that fails.  The store is any
    implementation of the interface of KvStore.  Verifiers, handshakes, key and
    timestamp sources and the classifier are fields of the receiver, as in the
    code.  Every step takes the time it happens at, read by the receiver and the
    store alike. *)

From Stdlib Require Import Ascii.
From S2P Require Import Prelude Fingerprint Topics StreamWire GoStrings WebhookVerify KvStore.

Local Open Scope Z_scope.

Definition DefaultMaxBody : Z := Z.shiftl 1 20.
Definition DefaultDedupeTTL : Z := 24 * 3600 * Second.
Definition KindNotification := "notification".
Definition KindLifecycle := "lifecycle".
Definition DefaultTopics : gmap string string :=
  {[KindNotification := "kit.webhook.notification.received"; KindLifecycle := "kit.webhook.lifecycle.received"]}.

Inductive response :=
| RMethodNotAllowed
| RBodyTooLarge (limit : Z)
| RUnreadable
| RHandshake (status : Z) (body : string)
| RUnverified
| RStale
| RUnavailable
| RDuplicate
| RAccepted
| RPanic.

(** [dedupe] and [pub] tell whether a store and a publisher are configured. *)
Record Receiver := mkReceiver {
  name : string;
  verifiers : list (Request → bool);
  handshakes : list (Request → option (Z * string)); (* the status and text answered with *)
  window : Z;
  timestamp : option (Request → option Z);
  key : Request → string;
  keyInBody : bool;
  sigTS : option (Request → option Z);
  dedupe : bool;
  dedupeTTL : Z;
  pub : bool;
  topics : gmap string string;
  classify : string → string;
  maxBody : Z;
}.

(** ** Configuration *)

Inductive option_err := ErrName | ErrTopic | ErrPublisher | ErrVerifier | ErrTimestamp.

Definition WithVerifier (v : list (Request → bool)) (r : Receiver) : res option_err Receiver :=
  Ok (mkReceiver (name r) (verifiers r ++ v) (handshakes r) (window r) (timestamp r) (key r) (keyInBody r) (sigTS r) (dedupe r) (dedupeTTL r) (pub r) (topics r) (classify r) (maxBody r)).
Definition WithHandshake (h : list (Request → option (Z * string))) (r : Receiver) : res option_err Receiver :=
  Ok (mkReceiver (name r) (verifiers r) (handshakes r ++ h) (window r) (timestamp r) (key r) (keyInBody r) (sigTS r) (dedupe r) (dedupeTTL r) (pub r) (topics r) (classify r) (maxBody r)).
Definition WithReplayWindow (w : Z) (ts : option (Request → option Z)) (r : Receiver) : res option_err Receiver :=
  Ok (mkReceiver (name r) (verifiers r) (handshakes r) w ts (key r) (keyInBody r) (sigTS r) (dedupe r) (dedupeTTL r) (pub r) (topics r) (classify r) (maxBody r)).
Definition WithIdempotency (ttl : Z) (k : option (Request → string)) (r : Receiver) : res option_err Receiver :=
  Ok (mkReceiver (name r) (verifiers r) (handshakes r) (window r) (timestamp r) (default (key r) k) (keyInBody r) (sigTS r) true
        (if 0 <? ttl then ttl else dedupeTTL r) (pub r) (topics r) (classify r) (maxBody r)).
Definition WithPublisher (r : Receiver) : res option_err Receiver :=
  Ok (mkReceiver (name r) (verifiers r) (handshakes r) (window r) (timestamp r) (key r) (keyInBody r) (sigTS r) (dedupe r) (dedupeTTL r) true (topics r) (classify r) (maxBody r)).
Definition set_topics (ts : gmap string string) (r : Receiver) : Receiver :=
  mkReceiver (name r) (verifiers r) (handshakes r) (window r) (timestamp r) (key r) (keyInBody r) (sigTS r) (dedupe r) (dedupeTTL r) (pub r) ts (classify r) (maxBody r).
Definition WithTopic (kind t : string) (r : Receiver) : res option_err Receiver :=
  match ValidateTopic t with
  | Some _ => Err ErrTopic
  | None => Ok (set_topics (<[kind:=t]> (topics r)) r)
  end.
Definition WithClassifier (fn : string → string) (r : Receiver) : res option_err Receiver :=
  Ok (mkReceiver (name r) (verifiers r) (handshakes r) (window r) (timestamp r) (key r) (keyInBody r) (sigTS r) (dedupe r) (dedupeTTL r) (pub r) (topics r) fn (maxBody r)).
Definition WithMaxBody (n : Z) (r : Receiver) : res option_err Receiver :=
  Ok (if 0 <? n then mkReceiver (name r) (verifiers r) (handshakes r) (window r) (timestamp r) (key r) (keyInBody r) (sigTS r) (dedupe r) (dedupeTTL r) (pub r) (topics r) (classify r) n
      else r).

(** One turn of the loop of [WithTopicPrefix], which ranges over a map. *)
Definition prefix_topic (kind p : string) (r : Receiver) : res option_err Receiver :=
  if String.eqb p "" then Ok r
  else match PrefixTopics p ["received"] with
       | (_, Some _) => Err ErrTopic
       | (tm, None) => Ok (set_topics (<[kind:=default "" (tm !! "received")]> (topics r)) r)
       end.

Fixpoint apply_options (opts : list (Receiver → res option_err Receiver)) (r : Receiver) : res option_err Receiver :=
  match opts with
  | [] => Ok r
  | o :: opts => match o r with Err e => Err e | Ok r => apply_options opts r end
  end.

Definition WithTopicPrefix (prefix lifecyclePrefix : string) : Receiver → res option_err Receiver :=
  apply_options [prefix_topic KindNotification prefix; prefix_topic KindLifecycle lifecyclePrefix].

(** [^[a-z0-9_-]+$] *)
Definition name_char (c : ascii) : bool :=
  let n := N_of_ascii c in
  ((97 <=? n) && (n <=? 122) || (48 <=? n) && (n <=? 57) || (n =? 95) || (n =? 45))%N.
Definition nameRE (s : string) : bool := negb (String.eqb s "") && all_chars name_char s.

Definition New (nm : string) (opts : list (Receiver → res option_err Receiver)) : res option_err Receiver :=
  let r := mkReceiver nm [] [] 0 None BodyHashKey false None false DefaultDedupeTTL false DefaultTopics (λ _, KindNotification) DefaultMaxBody in
  if negb (nameRE nm) then Err ErrName
  else match apply_options opts r with
       | Err e => Err e
       | Ok r =>
           if negb (pub r) then Err ErrPublisher
           else match verifiers r with
                | [] => Err ErrVerifier
                | _ :: _ => if (0 <? window r) && bool_decide (timestamp r = None :> option _) then Err ErrTimestamp else Ok r
                end
       end.

(** ** A delivery *)

Definition maxValidationToken : Z := 2048.

Definition GraphValidationToken (r : Request) : option (Z * string) :=
  let token := QueryGet r "validationToken" in
  if String.eqb token "" then None
  else if maxValidationToken <? Z.of_nat (String.length token) then Some (400, "")
  else Some (200, token).

Definition claimKey (rc : Receiver) (r : Request) (k : string) : string :=
  let material :=
    if keyInBody rc then k
    else
      let h := BodyHashKey r in
      match sigTS rc with
      | Some ts => match ts r with
                   | Some t => h +:+ String (ascii_of_N 0) (FormatInt (t / Second))
                   | None => h
                   end
      | None => h
      end in
  "webhook/" +:+ name rc +:+ "/" +:+ EncodeToString (sha256.Sum256 (string_bytes material)).

Fixpoint first_handshake (hs : list (Request → option (Z * string))) (r : Request) : option (Z * string) :=
  match hs with
  | [] => None
  | h :: hs => match h r with Some resp => Some resp | None => first_handshake hs r end
  end.

Definition outside (rc : Receiver) (now : Z) (ts : option Z) : bool :=
  match ts with
  | None => true
  | Some ts => let d := time_sub now ts in (window rc <? d) || (window rc <? int64 (- d))
  end.

(** What the publishing goroutine works on. *)
Record task := mkTask { claimed : option string; topic : string; t_kind : string; t_key : string; t_body : string }.

(** The checks before the claim; [rd] tells whether the body could be read. *)
Definition admit_delivery (rc : Receiver) (rd : bool) (now : Z) (r : Request) : option response :=
  if negb (String.eqb (Method r) "POST") && String.eqb (QueryGet r "validationToken") "" then Some RMethodNotAllowed
  else if maxBody rc <? Z.of_nat (String.length (Body r)) then Some (RBodyTooLarge (maxBody rc))
  else if negb rd then Some RUnreadable
  else match first_handshake (handshakes rc) r with
       | Some (status, text) => Some (RHandshake status text)
       | None =>
           if negb (forallb (λ v, v r) (verifiers rc)) then Some RUnverified
           else if 0 <? window rc then
             match timestamp rc with
             | None => Some RPanic
             | Some ts => if outside rc now (ts r) then Some RStale else None
             end
           else None
       end.

Definition delivery_key (rc : Receiver) (r : Request) : string :=
  let k := key rc r in if String.eqb k "" then BodyHashKey r else k.

Definition delivery_task (rc : Receiver) (r : Request) (c : option string) : task :=
  let kind := classify rc (Body r) in
  let topic := default (default "" (topics rc !! KindNotification)) (topics rc !! kind) in
  mkTask c topic kind (delivery_key rc r) (Body r).

Section receiver.
Context {S : Type} `{KL : KvLaws S} (rc : Receiver).

(** [ServeHTTP] up to the start of the goroutine: an answer, or the task.
    [ctx] tells whether the request's context is done. *)
Definition ServeHTTP (rd ctx : bool) (now : Z) (r : Request) (s : S) : (response + task) * S :=
  match admit_delivery rc rd now r with
  | Some resp => (inl resp, s)
  | None =>
      if dedupe rc then
        let c := claimKey rc r (delivery_key rc r) in
        match kv_PutIfAbsentWithTTL ctx now c "1" (dedupeTTL rc) s with
        | (_, Some _, s) => (inl RUnavailable, s)
        | (false, None, s) => (inl RDuplicate, s)
        | (true, None, s) => (inr (delivery_task rc r (Some c)), s)
        end
      else (inr (delivery_task rc r None), s)
  end.

(** The goroutine after [Publish] returned: a failure releases the claim, under
    the context the publish had ([done] when its minute is over). *)
Definition published (ok done : bool) (now : Z) (x : task) (s : S) : S :=
  if ok then s
  else match claimed x with
       | Some c => (kv_Delete done now c s).2
       | None => s
       end.

(** What the sender is told: the outcome when it is known within the ack
    budget, and acceptance otherwise. *)
Definition answer (outcome : option bool) : response :=
  match outcome with Some false => RUnavailable | _ => RAccepted end.

(** ** Deliveries over time *)

Inductive status := InFlight | Published | Failed.

Record record := mkRecord { rec_task : task; rec_at : Z; rec_status : status }.

Record world := mkWorld { store : S; records : list record }.

Inductive wstep (t : Z) : world → world → Prop :=
| wstep_answer rd ctx r s s' rs resp :
    ServeHTTP rd ctx t r s = (inl resp, s') → wstep t (mkWorld s rs) (mkWorld s' rs)
| wstep_task rd ctx r s s' rs x :
    ServeHTTP rd ctx t r s = (inr x, s') →
    (∀ c, claimed x = Some c → kv_fits t c "1" s) →
    wstep t (mkWorld s rs) (mkWorld s' (rs ++ [mkRecord x t InFlight]))
| wstep_published ok done s rs i x at_ :
    rs !! i = Some (mkRecord x at_ InFlight) →
    (ok = false → ∀ e, kv_expires at_ (dedupeTTL rc) = Some e → t < e) →
    wstep t (mkWorld s rs) (mkWorld (published ok done t x s) (<[i := mkRecord x at_ (if ok then Published else Failed)]> rs)).

Inductive wrun : Z → world → Prop :=
| wrun_new t s : kv_inv s → kv_view s = ∅ → wrun t (mkWorld s [])
| wrun_step t t' w w' : wrun t w → t ≤ t' → wstep t' w w' → wrun t' w'.

(** A record that claims [c] until [e]. *)
Definition claims (x : record) (c : string) (e : Z) : Prop :=
  claimed (rec_task x) = Some c ∧ rec_status x ≠ Failed ∧ kv_expires (rec_at x) (dedupeTTL rc) = Some e.

Record winv (t : Z) (w : world) : Prop := {
  wi_store : kv_inv (store w);
  wi_past : ∀ i x, records w !! i = Some x → rec_at x ≤ t;
  wi_live : ∀ i x c e, records w !! i = Some x → claims x c e → t < e → live t (kv_view (store w)) !! c = Some ("1", Some e);
  wi_apart : ∀ i j x y c e e', (i < j)%nat → records w !! i = Some x → records w !! j = Some y → claims x c e → claims y c e' → e ≤ rec_at y;
}.

(** A step of the store that keeps the live entries. *)
Lemma winv_same t t' s s' rs :
  winv t (mkWorld s rs) → t ≤ t' → kv_inv s' → kv_same t' s s' → winv t' (mkWorld s' rs).
Proof.
  intros [I P L A] Ht I' Hsame. split; cbn in *; try done.
  - intros i x Hx. specialize (P i x Hx). lia.
  - intros i x c e Hx Hc He. rewrite Hsame. rewrite <-(live_live t t') by done. apply live_lookup. split; [eapply L; eauto; lia|].
    by apply Z.ltb_lt.
Qed.

Lemma claims_InFlight x t c e : claims (mkRecord x t InFlight) c e ↔ claimed x = Some c ∧ kv_expires t (dedupeTTL rc) = Some e.
Proof. unfold claims. cbn. naive_solver. Qed.

Lemma ServeHTTP_answer rd ctx t r s resp s' :
  kv_inv s → ServeHTTP rd ctx t r s = (inl resp, s') → kv_inv s' ∧ kv_same t s s'.
Proof.
  intros I. unfold ServeHTTP. destruct (admit_delivery rc rd t r); [by intros [= _ <-]|]. destruct (dedupe rc); [|done].
  destruct (kv_PutIfAbsentWithTTL _ _ _ _ _ _) as [[b err] s1] eqn:E. destruct (kv_absent_law _ _ _ _ _ _ _ _ _ I E) as (I' & _ & H).
  destruct err; [by destruct b; intros [= _ <-]|]. destruct b; intros [= _ <-]. by destruct H.
Qed.

Lemma ServeHTTP_task rd ctx t r s x s' :
  kv_inv s → ServeHTTP rd ctx t r s = (inr x, s') →
  admit_delivery rc rd t r = None ∧ x = delivery_task rc r (claimed x) ∧ kv_inv s' ∧
  match claimed x with
  | Some c => dedupe rc = true ∧ c = claimKey rc r (delivery_key rc r) ∧ live t (kv_view s) !! c = None ∧
              kv_wrote t c ("1", kv_expires t (dedupeTTL rc)) s s'
  | None => dedupe rc = false ∧ s' = s
  end.
Proof.
  intros I. unfold ServeHTTP. destruct (admit_delivery rc rd t r); [done|]. destruct (dedupe rc); [|by intros [= <- <-]].
  destruct (kv_PutIfAbsentWithTTL _ _ _ _ _ _) as [[b err] s1] eqn:E. destruct (kv_absent_law _ _ _ _ _ _ _ _ _ I E) as (I' & _ & H).
  destruct b, err; intros [=]; subst. cbn. by destruct H.
Qed.

Lemma winv_answer t t' s s' rs rd ctx r resp :
  winv t (mkWorld s rs) → t ≤ t' → ServeHTTP rd ctx t' r s = (inl resp, s') → winv t' (mkWorld s' rs).
Proof. intros W Ht (I' & H)%ServeHTTP_answer; [|apply (wi_store _ _ W)]. by eapply winv_same. Qed.

Lemma winv_task t t' s s' rs rd ctx r x :
  winv t (mkWorld s rs) → t ≤ t' → ServeHTTP rd ctx t' r s = (inr x, s') → (∀ c, claimed x = Some c → kv_fits t' c "1" s) →
  winv t' (mkWorld s' (rs ++ [mkRecord x t' InFlight])).
Proof.
  intros W Ht E Hfits. apply ServeHTTP_task in E as (_ & _ & I' & H); [|apply (wi_store _ _ W)].
  assert (W' : winv t' (mkWorld s rs)) by (eapply winv_same; [exact W|done|apply (wi_store _ _ W)|done]).
  destruct W' as [I P L A]. cbn in *. split; cbn; try done.
  - intros i y Hy. apply lookup_snoc_cases in Hy as [Hy|[_ ->]]; [eauto|done].
  - intros i y c e Hy Hc He. destruct (claimed x) as [c0|] eqn:Ex.
    + destruct H as (_ & _ & Hfree & Hw1 & _ & Hw3). specialize (Hfits c0 eq_refl). specialize (Hw3 Hfits).
      apply lookup_snoc_cases in Hy as [Hy|[_ ->]].
      * specialize (L i y c e Hy Hc He). rewrite Hw3. assert (c ≠ c0) by congruence.
        apply live_lookup. rewrite lookup_insert_ne by done. by apply live_lookup.
      * apply claims_InFlight in Hc as [? Hc]. assert (c = c0) as -> by congruence. rewrite Hc in Hw1.
        apply live_lookup. split; [apply Hw1|]; by apply Z.ltb_lt.
    + destruct H as [_ ->]. apply lookup_snoc_cases in Hy as [Hy|[_ ->]]; [by eapply L|].
      apply claims_InFlight in Hc as [? _]. congruence.
  - intros i j y z c e e' Hij Hy Hz Hc Hc'.
    apply lookup_snoc_cases in Hz as [Hz|[Hj ->]].
    + apply lookup_snoc_cases in Hy as [Hy|[Hi ->]]; [by eapply A|]. apply lookup_lt_Some in Hz. lia.
    + apply lookup_snoc_cases in Hy as [Hy|[Hi ->]]; [|lia]. cbn. apply claims_InFlight in Hc' as [Hx _]. rewrite Hx in H.
      destruct H as (_ & _ & Hfree & _). destruct (Z.lt_ge_cases t' e) as [Hlt|]; [|done].
      rewrite (L i y c e Hy Hc Hlt) in Hfree. done.
Qed.

Lemma winv_published t t' ok done s rs i x at_ :
  winv t (mkWorld s rs) → t ≤ t' → rs !! i = Some (mkRecord x at_ InFlight) →
  (ok = false → ∀ e, kv_expires at_ (dedupeTTL rc) = Some e → t' < e) → 0 < dedupeTTL rc →
  winv t' (mkWorld (published ok done t' x s) (<[i := mkRecord x at_ (if ok then Published else Failed)]> rs)).
Proof.
  intros W Ht Hi Hearly Httl. assert (W' : winv t' (mkWorld s rs)) by (eapply winv_same; [exact W|done|apply (wi_store _ _ W)|done]).
  clear W Ht t. destruct W' as [I P L A]. cbn in *. pose proof (lookup_lt_Some _ _ _ Hi) as Hlen.
  destruct (kv_expires_bound at_ _ Httl) as (e0 & He0 & _).
  assert (Hold : ∀ j y c e, <[i := mkRecord x at_ (if ok then Published else Failed)]> rs !! j = Some y → claims y c e →
    ∃ y', rs !! j = Some y' ∧ claims y' c e ∧ rec_at y' = rec_at y ∧ (ok = false → j ≠ i)).
  { intros j y c e Hy Hc. destruct (decide (j = i)) as [->|Hne].
    - rewrite list_lookup_insert_eq in Hy by done. injection Hy as <-. destruct Hc as (H1 & H2 & H3). destruct ok; [|done].
      exists (mkRecord x at_ InFlight). split_and!; try done.
    - rewrite list_lookup_insert_ne in Hy by done. eauto. }
  split; cbn.
  - unfold published. destruct ok; [done|]. destruct (claimed x) as [c|]; [|done].
    destruct (kv_Delete done t' c s) as [err s1] eqn:E. by destruct (kv_delete_law _ _ _ _ _ _ I E).
  - intros j y Hy. destruct (decide (j = i)) as [->|Hne].
    + rewrite list_lookup_insert_eq in Hy by done. injection Hy as <-. exact (P i _ Hi).
    + rewrite list_lookup_insert_ne in Hy by done. eauto.
  - intros j y c e Hy Hc He. destruct (Hold j y c e Hy Hc) as (y' & Hy' & Hc' & Hat & Hne). specialize (L j y' c e Hy' Hc' He).
    unfold published. destruct ok; [done|]. destruct (claimed x) as [c0|] eqn:Ex; [|done].
    destruct (kv_Delete done t' c0 s) as [err s1] eqn:E. cbn. destruct (kv_delete_law _ _ _ _ _ _ I E) as (_ & _ & H).
    destruct err; [by destruct H as [-> _]|]. rewrite H. rewrite lookup_delete_ne; [done|]. intros ->.
    specialize (Hearly eq_refl e0 He0). specialize (Hne eq_refl).
    assert (Hci : claims (mkRecord x at_ InFlight) c e0) by (by apply claims_InFlight).
    destruct (Nat.lt_trichotomy i j) as [Hlt|[->|Hlt]]; [|done|].
    + pose proof (A i j _ y' c e0 e Hlt Hi Hy' Hci Hc'). specialize (P j y' Hy'). lia.
    + pose proof (A j i y' _ c e e0 Hlt Hy' Hi Hc' Hci) as Ha. specialize (P i _ Hi). cbn in *. lia.
  - intros j k y z c e e' Hjk Hy Hz Hc Hc'. destruct (Hold j y c e Hy Hc) as (y' & Hy' & Hcy & _ & _).
    destruct (Hold k z c e' Hz Hc') as (z' & Hz' & Hcz & <- & _). by eapply A.
Qed.

Lemma wrun_inv t w : 0 < dedupeTTL rc → wrun t w → winv t w.
Proof.
  intros Httl. induction 1 as [t s I V|t t' w w' _ IH Ht Hs].
  - split; cbn; try done.
  - destruct Hs as [rd ctx r s s' rs resp E|rd ctx r s s' rs x E Hf|ok d s rs i x at_ Hi He].
    + by eapply winv_answer.
    + by eapply winv_task.
    + by eapply winv_published.
Qed.

(** C9. At most one publish per claim and time to live: under every interleaving
    of deliveries and publishing goroutines, when claims are not evicted and
    failing publishes end before their claim expires, two deliveries with the
    same claim whose publishes did not fail are at least the time to live (less
    a millisecond of the store's clock) apart. *)
Theorem webhook_at_most_once t w i j x y c :
  0 < dedupeTTL rc → wrun t w → (i < j)%nat →
  records w !! i = Some x → records w !! j = Some y →
  claimed (rec_task x) = Some c → claimed (rec_task y) = Some c → rec_status x ≠ Failed → rec_status y ≠ Failed →
  rec_at x + dedupeTTL rc - 10 ^ 6 < rec_at y.
Proof.
  intros Httl H%wrun_inv Hij Hx Hy Cx Cy Sx Sy; [|done].
  destruct (kv_expires_bound (rec_at x) _ Httl) as (e & He & Hb). destruct (kv_expires_bound (rec_at y) _ Httl) as (e' & He' & _).
  pose proof (wi_apart _ _ H i j x y c e e' Hij Hx Hy ltac:(done) ltac:(done)). lia.
Qed.

(** ** Retries *)

(** The claim of a delivery is held from its admission on. *)
Lemma claim_held rd ctx t r s x c s' :
  kv_inv s → 0 < dedupeTTL rc → ServeHTTP rd ctx t r s = (inr x, s') → claimed x = Some c →
  ∃ e, kv_expires t (dedupeTTL rc) = Some e ∧ (t < e → live t (kv_view s') !! c = Some ("1", Some e)).
Proof.
  intros I Httl (_ & _ & _ & H)%ServeHTTP_task Hc; [|done]. rewrite Hc in H. destruct H as (_ & _ & _ & H & _).
  destruct (kv_expires_bound t _ Httl) as (e & He & _). exists e. split; [done|]. intros Hlt. rewrite He in H.
  apply live_lookup. split; [apply H|]; by apply Z.ltb_lt.
Qed.

(** A failed publish frees the delivery for its retry only within the
    publish's minute.  When the publish fails in time the claim is gone, and the
    next copy of the delivery is not taken for a repeat; when it fails because
    its context ran out, the deletion runs under the same context, the claim
    stays, and no copy is published before the claim expires. *)
Theorem webhook_retry rd ctx t r s x c s1 t1 t2 rd2 ctx2 :
  kv_inv s → kv_open s = true → 0 < dedupeTTL rc → ServeHTTP rd ctx t r s = (inr x, s1) → claimed x = Some c → t ≤ t1 ≤ t2 →
  (ServeHTTP rd2 ctx2 t2 r (published false false t1 x s1)).1 ≠ inl RDuplicate ∧
  (t2 + 10 ^ 6 ≤ t + dedupeTTL rc → ∀ y, (ServeHTTP rd2 ctx2 t2 r (published false true t1 x s1)).1 ≠ inr y).
Proof.
  intros I Ho Httl E Hc Ht. destruct (ServeHTTP_task _ _ _ _ _ _ _ I E) as (_ & _ & I1 & H). rewrite Hc in H.
  destruct H as (Hd & Hck & Hfree & Hw). unfold published. rewrite Hc. split.
  - destruct (kv_Delete false t1 c s1) as [err s2] eqn:Ed. destruct (kv_delete_law _ _ _ _ _ _ I1 Ed) as (I2 & Ho2 & H2). cbn [snd].
    assert (Ho1 : kv_open s1 = true).
    { revert E. unfold ServeHTTP. destruct (admit_delivery rc rd t r); [done|]. rewrite Hd.
      destruct (kv_PutIfAbsentWithTTL _ _ _ _ _ _) as [[b er] s3] eqn:Ep. destruct (kv_absent_law _ _ _ _ _ _ _ _ _ I Ep) as (_ & E3 & _).
      destruct b, er; intros [=]; subst; congruence. }
    destruct err; [destruct H2 as [_ [?|?]]; congruence|]. unfold ServeHTTP. destruct (admit_delivery rc rd2 t2 r) as [resp|] eqn:Ea.
    + cbn. intros [= ->]. revert Ea. unfold admit_delivery. by repeat (case_match; try done).
    + rewrite Hd, <-Hck. destruct (kv_PutIfAbsentWithTTL _ _ _ _ _ _) as [[b er] s3] eqn:Ep.
      destruct (kv_absent_law _ _ _ _ _ _ _ _ _ I2 Ep) as (_ & _ & H3). destruct b, er; cbn; try done.
      destruct H3 as [[z Hz] _]. rewrite <-(live_live t1 t2), H2 in Hz by lia. rewrite live_delete, lookup_delete_eq in Hz. done.
  - intros Hlt y. rewrite kv_delete_ctx. cbn [snd]. destruct (ServeHTTP rd2 ctx2 t2 r s1) as [[resp|z] s2] eqn:E2; [done|]. intros _.
    destruct (ServeHTTP_task _ _ _ _ _ _ _ I1 E2) as (_ & _ & _ & H2). destruct (claimed z) as [c2|]; [|destruct H2; congruence].
    destruct H2 as (_ & -> & Hfree2 & _). rewrite <-Hck in Hfree2. destruct (claim_held _ _ _ _ _ _ _ _ I Httl E Hc) as (e & He & Hl).
    destruct (kv_expires_bound t _ Httl) as (e' & He' & Hb). assert (e' = e) as -> by congruence.
    rewrite <-(live_live t t2) in Hfree2 by lia. revert Hfree2. rewrite live_None. intros Hn. specialize (Hn _ (Hl ltac:(lia))).
    unfold entry_live in Hn. cbn in Hn. apply Z.ltb_ge in Hn. lia.
Qed.

End receiver.

(** ** The gates before the claim *)

(** The replay window: a timestamp within 292 years is refused exactly when
    it is more than the window away, in either direction; one further in the
    future saturates the difference at the least [Duration], whose negation
    wraps to itself, and is let through. *)
Theorem replay_window_spec rc now ts :
  0 ≤ window rc < 2 ^ 63 - 1 →
  (Z.abs (now - ts) < 2 ^ 63 → outside rc now (Some ts) = true ↔ window rc < Z.abs (now - ts)) ∧
  (2 ^ 63 ≤ ts - now → outside rc now (Some ts) = false) ∧
  outside rc now None = true.
Proof.
  intros Hw. unfold outside, time_sub. split_and!; [| |done].
  - intros Hd. rewrite Z.min_r, Z.max_r, int64_small by lia. rewrite orb_true_iff, !Z.ltb_lt. lia.
  - intros Hf. rewrite Z.min_r, Z.max_l by lia. change (int64 (- - 2 ^ 63)) with (- 2 ^ 63).
    rewrite !(proj2 (Z.ltb_ge _ _)) by lia. done.
Qed.

Lemma namespace_inj (n n' d d' : string) :
  nameRE n = true → nameRE n' = true → "webhook/" +:+ n +:+ "/" +:+ d = "webhook/" +:+ n' +:+ "/" +:+ d' → n = n'.
Proof.
  intros [_ Hn]%andb_prop [_ Hn']%andb_prop E%(inj (String.append "webhook/")).
  by apply (separator_inj name_char "/"%char) in E as [-> _].
Qed.

(** Receivers that share a store never share a claim. *)
Lemma claimKey_separates rc rc' r r' k k' :
  nameRE (name rc) = true → nameRE (name rc') = true → claimKey rc r k = claimKey rc' r' k' → name rc = name rc'.
Proof. apply namespace_inj. Qed.

(** The options of the package. *)
Inductive is_option : (Receiver → res option_err Receiver) → Prop :=
| is_WithVerifier v : is_option (WithVerifier v)
| is_WithHandshake h : is_option (WithHandshake h)
| is_WithReplayWindow w ts : is_option (WithReplayWindow w ts)
| is_WithIdempotency ttl k : is_option (WithIdempotency ttl k)
| is_WithPublisher : is_option WithPublisher
| is_WithTopic kind t : is_option (WithTopic kind t)
| is_WithTopicPrefix p lp : is_option (WithTopicPrefix p lp)
| is_WithClassifier fn : is_option (WithClassifier fn)
| is_WithMaxBody n : is_option (WithMaxBody n).

Lemma prefix_topic_ttl kind p r r' : prefix_topic kind p r = Ok r' → dedupeTTL r' = dedupeTTL r.
Proof. unfold prefix_topic. repeat case_match; try done; by intros [= <-]. Qed.

Lemma option_ttl o r r' : is_option o → 0 < dedupeTTL r → o r = Ok r' → 0 < dedupeTTL r'.
Proof.
  intros Ho Hr. destruct Ho; cbn; try (by intros [= <-]).
  - intros [= <-]. cbn. destruct (Z.ltb_spec 0 ttl); done.
  - unfold WithTopic. case_match; [done|]. by intros [= <-].
  - unfold WithTopicPrefix. cbn. destruct (prefix_topic _ p r) as [r1|] eqn:E1; [|done].
    destruct (prefix_topic _ lp r1) as [r2|] eqn:E2; [|done]. intros [= <-].
    by rewrite (prefix_topic_ttl _ _ _ _ E2), (prefix_topic_ttl _ _ _ _ E1).
  - unfold WithMaxBody. case_match; by intros [= <-].
Qed.

Lemma apply_options_ttl opts : ∀ r r', Forall is_option opts → 0 < dedupeTTL r → apply_options opts r = Ok r' → 0 < dedupeTTL r'.
Proof.
  induction opts as [|o opts IH]; intros r r' Ho Hr; cbn; [by intros [= <-]|]. apply Forall_cons in Ho as [Ho Hos].
  destruct (o r) as [r1|] eqn:E; [|done]. eauto using option_ttl.
Qed.

Lemma forallb_elem {A} (f : A → bool) l x : forallb f l = true → x ∈ l → f x = true.
Proof. intros H Hx. apply (proj1 (forallb_forall f l) H). by apply list_elem_of_In. Qed.

(** A receiver that [New] returns is closed and safe: claims have a positive
    time to live, no delivery makes it panic, and none gets past its gates
    without at least one verifier, all of which accepted it. *)
Theorem new_receiver_closed nm opts rc rd now r :
  Forall is_option opts → New nm opts = Ok rc →
  0 < dedupeTTL rc ∧ admit_delivery rc rd now r ≠ Some RPanic ∧
  (admit_delivery rc rd now r = None → verifiers rc ≠ [] ∧ ∀ v, v ∈ verifiers rc → v r = true).
Proof.
  intros Ho. unfold New. destruct (nameRE nm); [|done]. cbn [negb]. destruct (apply_options opts _) as [rc0|] eqn:Ea; [|done].
  apply apply_options_ttl in Ea; [|done..]. destruct (pub rc0); [|done]. cbn [negb].
  destruct (verifiers rc0) as [|v0 vs] eqn:Ev; [done|].
  destruct ((0 <? window rc0) && bool_decide (timestamp rc0 = None)) eqn:Ew; [done|]. intros [= <-]. split; [done|].
  assert (Hv : forallb (λ v, v r) (v0 :: vs) = true → v0 :: vs ≠ [] ∧ ∀ v, v ∈ v0 :: vs → v r = true).
  { intros Hf. split; [done|]. intros v. by apply (forallb_elem (λ v, v r)). }
  unfold admit_delivery. rewrite Ev.
  destruct (negb _ && _); [done|]. destruct (maxBody rc0 <? _); [done|]. destruct (negb rd); [done|].
  destruct (first_handshake _ r) as [[st tx]|]; [done|]. destruct (forallb (λ v, v r) (v0 :: vs)); cbn [negb]; [|done].
  destruct (0 <? window rc0); [|auto]. destruct (timestamp rc0) as [ts|]; [|done]. destruct (outside rc0 now (ts r)); auto.
Qed.
