(* ===== verification/WebhookExamples.v ===== *)
(** * Runs of the key-value drivers and the webhook receiver

    Concrete histories against the two drivers: the witnesses of the theorems of
    KvStore and Webhook, and runs that leave their hypotheses. *)

From S2P Require Import Prelude KvStore KvMemory KvSqlite GoStrings WebhookVerify Webhook.

Local Open Scope Z_scope.

#[local] Existing Instance elements_order.

(** ** Histories of a driver *)


(** A time to live of zero never expires in memory and has expired already in
    the database. *)
Example zero_ttl_disagrees :
  (KvMemory.Get false 1 "k" (KvMemory.PutWithTTL false 0 "k" "v" 0 (KvMemory.New [])).2).1 = Ok (Some "v") ∧
  (KvSqlite.Get false 1 "k" (KvSqlite.PutWithTTL false 0 "k" "v" 0 NewContext).2).1 = Ok None.
Proof. vm_compute. auto. Qed.

(** ** A receiver *)

Definition open_receiver : Receiver :=
  mkReceiver "crm" [λ _, true] [] 0 None BodyHashKey false None true (10 * Second) true DefaultTopics (λ _, KindNotification) DefaultMaxBody.

Definition delivery (body : string) : Request := mkRequest "POST" (λ _, "") (λ _, "") None body.

Definition crm_claim : string := Eval vm_compute in claimKey open_receiver (delivery "x") "".

Definition one_task : task := mkTask (Some crm_claim) "kit.webhook.notification.received" KindNotification
  (BodyHashKey (delivery "x")) "x".

Definition serve {S} `{Kv S} (t : Z) : S → (response + task) * S := ServeHTTP open_receiver true false t (delivery "x").

Lemma webhook_at_most_once_witness :
  let s1 := (serve (S := KvSqlite.Store) 0 NewContext).2 in
  let s2 := (serve (S := KvSqlite.Store) (10 * Second) s1).2 in
  (serve Second s1).1 = inl RDuplicate ∧ 0 + dedupeTTL open_receiver - 10 ^ 6 < 10 * Second.
Proof.
  split; [vm_compute; reflexivity|].
  set (s1 := (serve (S := KvSqlite.Store) 0 NewContext).2). set (s2 := (serve (S := KvSqlite.Store) (10 * Second) s1).2).
  assert (E1 : serve 0 NewContext = (inr one_task, s1)) by (vm_compute; reflexivity).
  assert (E2 : serve (10 * Second) s1 = (inr one_task, s2)) by (vm_compute; reflexivity).
  assert (R0 : wrun (S := KvSqlite.Store) open_receiver 0 (mkWorld NewContext [])) by (apply wrun_new; done).
  assert (R1 : wrun (S := KvSqlite.Store) open_receiver 0 (mkWorld s1 [mkRecord one_task 0 InFlight])).
  { eapply (wrun_step _ 0 0); [exact R0|lia|]. eapply (wstep_task open_receiver 0 true false (delivery "x") NewContext s1 []); [exact E1|done]. }
  assert (R2 : wrun (S := KvSqlite.Store) open_receiver (10 * Second) (mkWorld s2 [mkRecord one_task 0 InFlight; mkRecord one_task (10 * Second) InFlight])).
  { eapply (wrun_step _ 0 (10 * Second)); [exact R1|unfold Second; lia|].
    eapply (wstep_task open_receiver (10 * Second) true false (delivery "x") s1 s2 [_]); [exact E2|done]. }
  exact (webhook_at_most_once (S := KvSqlite.Store) open_receiver (10 * Second) _ 0 1 _ _ crm_claim ltac:(reflexivity) R2 ltac:(lia)
    eq_refl eq_refl eq_refl eq_refl ltac:(discriminate) ltac:(discriminate)).
Defined.

Lemma webhook_retry_witness :
  let s1 := (serve (S := KvSqlite.Store) 0 NewContext).2 in
  (serve (2 * Second) (published false false Second one_task s1)).1 = inr one_task ∧
  (serve (2 * Second) (published false true Second one_task s1)).1 = inl RDuplicate ∧
  (serve (2 * Second) (published false true Second one_task s1)).1 ≠ inr one_task.
Proof.
  split; [vm_compute; reflexivity|]. split; [vm_compute; reflexivity|].
  set (s1 := (serve (S := KvSqlite.Store) 0 NewContext).2).
  assert (E1 : serve 0 NewContext = (inr one_task, s1)) by (vm_compute; reflexivity).
  exact (proj2 (webhook_retry (S := KvSqlite.Store) open_receiver true false 0 (delivery "x") NewContext one_task crm_claim s1 Second (2 * Second) true false
    I eq_refl ltac:(reflexivity) E1 eq_refl ltac:(unfold Second; lia)) ltac:(vm_compute; discriminate) one_task).
Defined.

Lemma replay_window_spec_witness :
  let rc := mkReceiver "crm" [] [] (300 * Second) None BodyHashKey false None false 1 true ∅ (λ _, "") 1 in
  outside rc (1700000000 * Second) (Some (1700000301 * Second)) = true ∧ outside rc (1700000000 * Second) (Some (20000000000 * Second)) = false.
Proof.
  set (rc := mkReceiver "crm" [] [] (300 * Second) None BodyHashKey false None false 1 true ∅ (λ _, "") 1).
  assert (Hw : 0 ≤ window rc < 2 ^ 63 - 1) by (cbn; unfold Second; lia). split.
  - exact (proj2 (proj1 (replay_window_spec rc (1700000000 * Second) (1700000301 * Second) Hw) ltac:(unfold Second; lia)) ltac:(cbn; unfold Second; lia)).
  - exact (proj1 (proj2 (replay_window_spec rc (1700000000 * Second) (20000000000 * Second) Hw)) ltac:(unfold Second; lia)).
Defined.

Lemma new_receiver_closed_witness :
  ∃ rc, Webhook.New "crm" [WithVerifier [BasicAuth "u" "p"]; WithPublisher; WithIdempotency 0 None] = Ok rc ∧
    0 < dedupeTTL rc ∧ admit_delivery rc true 0 (delivery "x") = Some RUnverified.
Proof.
  eexists. split; [reflexivity|]. split; [|vm_compute; reflexivity].
  exact (proj1 (new_receiver_closed "crm" [WithVerifier [BasicAuth "u" "p"]; WithPublisher; WithIdempotency 0 None] _ true 0 (delivery "x")
    ltac:(repeat constructor) eq_refl)).
Defined.

(** ** Outside the hypotheses *)

(** A publish that fails after its claim has expired releases the claim of the
    delivery that came after it: a third copy is published although the second
    one was, well within the time to live. *)
Example late_failure_frees_next_claim :
  let s1 := (serve (S := KvSqlite.Store) 0 NewContext).2 in
  let s2 := (serve (11 * Second) s1).2 in
  let s3 := published false false (12 * Second) one_task s2 in
  (serve (11 * Second) s1).1 = inr one_task ∧ (serve (13 * Second) s2).1 = inl RDuplicate ∧ (serve (13 * Second) s3).1 = inr one_task.
Proof. vm_compute. auto. Qed.

(** A claim that the in-memory driver evicts is granted again. *)
Example evicted_claim_published_twice :
  let s0 := KvMemory.New [WithMaxBytes 100] in
  let s1 := (serve (S := KvMemory.Store) 0 s0).2 in
  let s2 := (ServeHTTP open_receiver true false 1 (delivery "y") s1).2 in
  (serve 0 s0).1 = inr one_task ∧ (serve 2 s1).1 = inl RDuplicate ∧ (serve 2 s2).1 = inr one_task.
Proof. vm_compute. auto. Qed.
