(* ===== verification/Jobs.v ===== *)
(** * Jobs (go/runtime/job, go/runtime/job/mock)

    The job lifecycle and the in-memory engine that implements [job.Service].
    An engine method runs on the engine and on the world its publisher acts on;
    the status changes go through [Domain.Transition].  Every method holds the
    engine's mutex throughout, so it is one step, and a publisher cannot call
    back into the engine.  The reading of the clock, the delay [Backoff.Compute]
    returns (floating point and random) and what [json.Marshal] makes of a
    payload are arguments; the order in which the engine ranges over its jobs is
    [MapOrder]'s, so sorting is stable in the model without loss. *)

From S2P Require Import Prelude StreamWire Domain.

Local Open Scope Z_scope.

Inductive Status := StatusPending | StatusActive | StatusSucceeded | StatusFailed | StatusTimeout | StatusCancelled.

#[export] Instance Status_eq_dec : EqDecision Status.
Proof. solve_decision. Defined.

Definition status_string (s : Status) : string :=
  match s with
  | StatusPending => "pending" | StatusActive => "active" | StatusSucceeded => "succeeded"
  | StatusFailed => "failed" | StatusTimeout => "timeout" | StatusCancelled => "canceled"
  end.

Definition transitionRules : gmap string (list string) :=
  {[ "pending" := ["active"; "canceled"];
     "active" := ["succeeded"; "failed"; "timeout"; "pending"; "canceled"];
     "failed" := ["pending"];
     "timeout" := ["pending"] ]}.

(** [Metadata] is never read and left out; [Backoff] only matters to the delay. *)
Record Job := mkJob {
  ID : string;
  Queue : string;
  Type_ : string;
  jstatus : Status;
  Payload : option string;
  Result : option string;
  Error : string;
  ClaimedBy : string;
  Priority : Z;
  Attempts : Z;
  MaxAttempts : Z;
  CreatedAt : Z;
  UpdatedAt : Z;
  ClaimedAt : option Z;
  StartedAt : option Z;
  CompletedAt : option Z;
  ExpiresAt : option Z;
  ScheduledAt : option Z;
  NextRunAt : option Z;
}.

(** What [json.Marshal] makes of a payload: nothing to marshal, a failure, or
    bytes. *)
Definition marshalled : Type := option (option string).

Record EnqueueOpts := mkEnqueueOpts {
  o_Queue : string; o_Type : string; o_Payload : marshalled; o_Priority : Z; o_MaxAttempts : Z; o_ClaimTTL : Z; o_ScheduledAt : option Z;
}.

Record FailOpts := mkFailOpts { f_Error : string; f_Retry : bool }.
Record JobQuery := mkJobQuery { q_Queue : string; q_Status : string; q_Type : string; q_Limit : Z }.

Record JobEvent := mkJobEvent { je_topic : string; je_job : Job; je_error : string }.

Definition TopicCreated := "job.created".
Definition TopicClaimed := "job.claimed".
Definition TopicSucceeded := "job.succeeded".
Definition TopicFailed := "job.failed".
Definition TopicTimeout := "job.timeout".
Definition TopicRetried := "job.retried".
Definition TopicCancelled := "job.cancelled".
Definition TopicStaleReleased := "job.stale_released".
Definition TopicDeadLetter := "job.dead_letter".
Definition TopicHeartbeat := "job.heartbeat".

Record Engine := mkEngine {
  jobs : gmap string Job;
  claimTTL : Z;
  ttls : gmap string Z;
  seq : Z;
}.

Definition New : Engine := mkEngine ∅ (5 * 60 * 10 ^ 9) ∅ 0.

Definition set_jobs (m : gmap string Job) (e : Engine) : Engine := mkEngine m (claimTTL e) (ttls e) (seq e).

Definition ttlFor (id : string) (e : Engine) : Z := default (claimTTL e) (ttls e !! id).

(** ** Status changes of a job *)

Definition claimed_job (worker : string) (now exp : Z) (j : Job) : Job :=
  mkJob (ID j) (Queue j) (Type_ j) StatusActive (Payload j) (Result j) (Error j) worker (Priority j) (int64 (Attempts j + 1)) (MaxAttempts j)
    (CreatedAt j) now (Some now) (Some now) (CompletedAt j) (Some exp) (ScheduledAt j) (NextRunAt j).

(** The claim is taken off; [err] and [next] replace error and next run. *)
Definition released_job (err : string) (now : Z) (next : option Z) (j : Job) : Job :=
  mkJob (ID j) (Queue j) (Type_ j) StatusPending (Payload j) (Result j) err "" (Priority j) (Attempts j) (MaxAttempts j)
    (CreatedAt j) now None None (CompletedAt j) None (ScheduledAt j) next.

Definition ended_job (s : Status) (err : string) (result : option string) (now : Z) (j : Job) : Job :=
  mkJob (ID j) (Queue j) (Type_ j) s (Payload j) result err (ClaimedBy j) (Priority j) (Attempts j) (MaxAttempts j)
    (CreatedAt j) now (ClaimedAt j) (StartedAt j) (Some now) (ExpiresAt j) (ScheduledAt j) (NextRunAt j).

Definition beating_job (now exp : Z) (j : Job) : Job :=
  mkJob (ID j) (Queue j) (Type_ j) (jstatus j) (Payload j) (Result j) (Error j) (ClaimedBy j) (Priority j) (Attempts j) (MaxAttempts j)
    (CreatedAt j) now (ClaimedAt j) (StartedAt j) (CompletedAt j) (Some exp) (ScheduledAt j) (NextRunAt j).

(** ** The engine *)

(** The publisher, by the two kinds of payload it is given; errors of job
    events are dropped by [PublishEvent]. *)
Record JobPublisher (W : Type) := mkJobPublisher {
  pub_transition : EventPublisher W unit;
  pub_event : JobEvent → W → W;
}.
Arguments mkJobPublisher {_}. Arguments pub_transition {_}. Arguments pub_event {_}.

Section engine.
Context {W : Type} `{MO : MapOrder} (pub : option (JobPublisher W)).

Definition NewStateMachine : StateMachine W unit :=
  mkSM transitionRules (pub_transition <$> pub) DefaultStateMachineTopics.

Definition method (A : Type) : Type := st (Engine * W) error A.

Definition PublishEvent (topic : string) (j : Job) (err : string) : method unit := λ s,
  (Ok tt, match pub with None => s | Some p => (s.1, pub_event p (mkJobEvent topic j err) s.2) end).

(** [e.sm.Transition(ctx, ..., false)]; its goroutine acts on the world only. *)
Definition transition (ctx : Ctx) (from to : Status) : method unit := λ s,
  let '(r, w) := Transition NewStateMachine ctx (status_string from) (status_string to) false s.2 in
  (match r with Ok _ => Ok tt | Err e => Err e end, (s.1, w)).

Definition put_job (id : string) (j : Job) : method unit := modify (λ s, (set_jobs (<[id:=j]> (jobs s.1)) s.1, s.2)).

Definition find_job (id : string) : method Job := λ s,
  (match jobs s.1 !! id with Some j => Ok j | None => Err ErrNotFound end, s).

Definition engine_state : method Engine := λ s, (Ok s.1, s).

Definition Enqueue (opts : EnqueueOpts) (now : Z) : method string :=
  if String.eqb (o_Queue opts) "" then throw (ErrValidation "queue is required")
  else if String.eqb (o_Type opts) "" then throw (ErrValidation "type is required")
  else
    modify (λ s, (mkEngine (jobs s.1) (claimTTL s.1) (ttls s.1) (int64 (seq s.1 + 1)), s.2));;
    e ← engine_state;
    let id := "job_" +:+ formatOffset (seq e) in
    payload ← match o_Payload opts with
              | None => mret None
              | Some None => throw (ErrValidation "marshal payload")
              | Some (Some b) => mret (Some b)
              end;
    let maxAttempts := if o_MaxAttempts opts <=? 0 then 3 else o_MaxAttempts opts in
    let j := mkJob id (o_Queue opts) (o_Type opts) StatusPending payload None "" "" (o_Priority opts) 0 maxAttempts now now
               None None None None (o_ScheduledAt opts) None in
    put_job id j;;
    modify (λ s, (mkEngine (jobs s.1) (claimTTL s.1) (if 0 <? o_ClaimTTL opts then <[id:=o_ClaimTTL opts]> (ttls s.1) else ttls s.1) (seq s.1), s.2));;
    PublishEvent TopicCreated j "";;
    mret id.

(** Not due yet. *)
Definition after (at_ : option Z) (now : Z) : bool := match at_ with Some t => now <? t | None => false end.

Definition eligible (queue : string) (now : Z) (j : Job) : bool :=
  String.eqb (Queue j) queue && bool_decide (jstatus j = StatusPending) && negb (after (ScheduledAt j) now) && negb (after (NextRunAt j) now).

Definition job_le (j k : Job) : Prop :=
  Priority j < Priority k ∨ Priority j = Priority k ∧ CreatedAt j ≤ CreatedAt k.

#[export] Instance job_le_dec : RelDecision job_le.
Proof. intros j k. unfold job_le. apply _. Defined.

(** The engine's jobs in the order a range visits them. *)
Definition all_jobs (e : Engine) : list Job := omap (λ id, jobs e !! id) (range_order 0 (dom (jobs e))).

Definition candidates (queue : string) (now : Z) (e : Engine) : list Job :=
  merge_sort job_le (filter (λ j, eligible queue now j = true) (all_jobs e)).

Definition Claim (ctx : Ctx) (queue worker : string) (now : Z) : method (option Job) :=
  e ← engine_state;
  match candidates queue now e with
  | [] => mret None
  | j :: _ =>
      transition ctx (jstatus j) StatusActive;;
      let j' := claimed_job worker now (now + ttlFor (ID j) e) j in
      put_job (ID j) j';;
      PublishEvent TopicClaimed j' "";;
      mret (Some j')
  end.

(** The status is set before the result is marshalled. *)
Definition Complete (ctx : Ctx) (id : string) (result : marshalled) (now : Z) : method unit :=
  j ← find_job id;
  transition ctx (jstatus j) StatusSucceeded;;
  put_job id (ended_job StatusSucceeded (Error j) (Result j) now j);;
  match result with
  | Some None => throw (ErrValidation "marshal result")
  | _ =>
      let j' := ended_job StatusSucceeded (Error j) (match result with Some (Some b) => Some b | _ => Result j end) now j in
      put_job id j';;
      PublishEvent TopicSucceeded j' ""
  end.

Definition Fail_ (ctx : Ctx) (id : string) (opts : FailOpts) (now delay : Z) : method unit :=
  j ← find_job id;
  if f_Retry opts && (Attempts j <? MaxAttempts j) then
    transition ctx (jstatus j) StatusPending;;
    let j' := released_job (f_Error opts) now (Some (now + delay)) j in
    put_job id j';;
    PublishEvent TopicRetried j' (f_Error opts)
  else
    transition ctx (jstatus j) StatusFailed;;
    let j' := ended_job StatusFailed (f_Error opts) (Result j) now j in
    put_job id j';;
    PublishEvent TopicFailed j' (f_Error opts);;
    (if f_Retry opts then PublishEvent TopicDeadLetter j' (f_Error opts) else mret tt).

Definition Timeout_ (ctx : Ctx) (id : string) (now : Z) : method unit :=
  j ← find_job id;
  transition ctx (jstatus j) StatusTimeout;;
  let j' := ended_job StatusTimeout (Error j) (Result j) now j in
  put_job id j';;
  PublishEvent TopicTimeout j' "".

Definition Cancel (ctx : Ctx) (id : string) (now : Z) : method unit :=
  j ← find_job id;
  transition ctx (jstatus j) StatusCancelled;;
  let j' := ended_job StatusCancelled (Error j) (Result j) now j in
  put_job id j';;
  PublishEvent TopicCancelled j' "".

Definition Heartbeat (ctx : Ctx) (id : string) (now : Z) : method unit :=
  j ← find_job id;
  if bool_decide (jstatus j = StatusActive) then
    e ← engine_state;
    let j' := beating_job now (now + ttlFor id e) j in
    put_job id j';;
    PublishEvent TopicHeartbeat j' ""
  else throw (ErrValidation "heartbeat requires active status").

Definition Get (id : string) : method Job := find_job id.

Definition created_le (j k : Job) : Prop := CreatedAt j ≤ CreatedAt k.

#[export] Instance created_le_dec : RelDecision created_le.
Proof. intros j k. unfold created_le. apply _. Defined.

Definition matches_query (q : JobQuery) (j : Job) : bool :=
  (String.eqb (q_Queue q) "" || String.eqb (Queue j) (q_Queue q)) &&
  (String.eqb (q_Status q) "" || String.eqb (status_string (jstatus j)) (q_Status q)) &&
  (String.eqb (q_Type q) "" || String.eqb (Type_ j) (q_Type q)).

Definition List (q : JobQuery) : method (list Job) :=
  e ← engine_state;
  let result := merge_sort created_le (filter (λ j, matches_query q j = true) (all_jobs e)) in
  mret (if (0 <? q_Limit q) && (q_Limit q <? Z.of_nat (length result)) then take (Z.to_nat (q_Limit q)) result else result).

(** One turn of the loop; a vetoed release is skipped. *)
Definition release_stale (ctx : Ctx) (now : Z) (id : string) (n : Z) : method Z := λ s,
  match jobs s.1 !! id with
  | None => (Ok n, s)
  | Some j =>
      if bool_decide (jstatus j = StatusActive) && match ExpiresAt j with Some x => x <? now | None => false end then
        match transition ctx (jstatus j) StatusPending s with
        | (Err _, s) => (Ok n, s)
        | (Ok _, s) =>
            let j' := released_job (Error j) now (NextRunAt j) j in
            (put_job id j';; PublishEvent TopicStaleReleased j' "";; mret (n + 1)) s
        end
      else (Ok n, s)
  end.

Fixpoint release_loop (ctx : Ctx) (now : Z) (ids : list string) (n : Z) : method Z :=
  match ids with
  | [] => mret n
  | id :: ids => n ← release_stale ctx now id n; release_loop ctx now ids n
  end.

Definition ReleaseStaleClaims (ctx : Ctx) (now : Z) : method Z :=
  e ← engine_state; release_loop ctx now (range_order 0 (dom (jobs e))) 0.

End engine.
