(* ===== verification/JobProps.v ===== *)
(** * What the job engine guarantees

    How each method changes a job, the invariant of the engine, leases and the
    order of claims. *)

From S2P Require Import Prelude StreamWire Domain Jobs.

Local Open Scope Z_scope.

Arguments PublishEvent : simpl never.

(** ** Transitions *)

(** The lifecycle of doc.go. *)
Definition can_move (from to : Status) : bool :=
  match from, to with
  | StatusPending, (StatusActive | StatusCancelled) => true
  | StatusActive, (StatusSucceeded | StatusFailed | StatusTimeout | StatusPending | StatusCancelled) => true
  | (StatusFailed | StatusTimeout), StatusPending => true
  | _, _ => false
  end.

Lemma rules_can_move from to :
  (∃ l, transitionRules !! status_string from = Some l ∧ status_string to ∈ l) ↔ can_move from to = true.
Proof.
  split.
  - intros (l & Hl & Hin). destruct from; vm_compute in Hl; simplify_eq;
      repeat (apply elem_of_cons in Hin as [Hin|Hin]; [destruct to; try done; discriminate Hin|]); by apply not_elem_of_nil in Hin.
  - destruct from, to; try done; intros _; eexists; (split; [vm_compute; reflexivity|]); cbn; set_solver.
Qed.

Section engine.
Context {W : Type} `{MO : MapOrder} (pub : option (JobPublisher W)).

Lemma transition_ok ctx from to s r s' :
  transition pub ctx from to s = (r, s') → s'.1 = s.1 ∧ (is_ok r = true → can_move from to = true) ∧ (pub = None → is_ok r = can_move from to).
Proof.
  unfold transition. pose proof (transition_spec (NewStateMachine pub) ctx (status_string from) (status_string to) false s.2) as H.
  destruct (Transition _ _ _ _ _ _) as [r0 w]. intros [= <- <-]. split; [done|].
  destruct H as [(_ & Hno & -> & _)|([?|Hyes] & H)]; [|done|].
  - rewrite rules_can_move in Hno. split; [done|]. intros _. by destruct (can_move from to).
  - apply rules_can_move in Hyes. split; [done|]. intros ->. cbn in H. destruct H as [-> _]. done.
Qed.

(** ** Methods *)

Inductive job_op :=
| OpEnqueue (opts : EnqueueOpts)
| OpClaim (queue worker : string)
| OpComplete (id : string) (result : marshalled)
| OpFail (id : string) (opts : FailOpts) (delay : Z)
| OpTimeout (id : string)
| OpCancel (id : string)
| OpHeartbeat (id : string)
| OpReleaseStale.

Definition job_do (ctx : Ctx) (now : Z) (o : job_op) (s : Engine * W) : Engine * W :=
  match o with
  | OpEnqueue opts => (Enqueue pub opts now s).2
  | OpClaim queue worker => (Claim pub ctx queue worker now s).2
  | OpComplete id result => (Complete pub ctx id result now s).2
  | OpFail id opts delay => (Fail_ pub ctx id opts now delay s).2
  | OpTimeout id => (Timeout_ pub ctx id now s).2
  | OpCancel id => (Cancel pub ctx id now s).2
  | OpHeartbeat id => (Heartbeat pub ctx id now s).2
  | OpReleaseStale => (ReleaseStaleClaims pub ctx now s).2
  end.

(** What an operation may do to a job. *)
Inductive change (ttl now : Z) (o : job_op) : Job → Job → Prop :=
| ch_same j : change ttl now o j j
| ch_claim queue worker j :
    o = OpClaim queue worker → eligible queue now j = true → change ttl now o j (claimed_job worker now (now + ttl) j)
| ch_retry opts delay j :
    o = OpFail (ID j) opts delay → can_move (jstatus j) StatusPending = true → Attempts j < MaxAttempts j →
    change ttl now o j (released_job (f_Error opts) now (Some (now + delay)) j)
| ch_stale j x :
    o = OpReleaseStale → jstatus j = StatusActive → ExpiresAt j = Some x → x < now →
    change ttl now o j (released_job (Error j) now (NextRunAt j) j)
| ch_end s err res j :
    (o = OpTimeout (ID j) ∧ s = StatusTimeout) ∨ (o = OpCancel (ID j) ∧ s = StatusCancelled) ∨
      (∃ result, o = OpComplete (ID j) result ∧ s = StatusSucceeded) ∨
      (∃ opts delay, o = OpFail (ID j) opts delay ∧ s = StatusFailed ∧ (f_Retry opts = true → MaxAttempts j ≤ Attempts j)) →
    can_move (jstatus j) s = true → change ttl now o j (ended_job s err res now j)
| ch_beat j :
    o = OpHeartbeat (ID j) → jstatus j = StatusActive → change ttl now o j (beating_job now (now + ttl) j).

(** The engine after a method that changed one job at most. *)
Definition one_job (now : Z) (o : job_op) (e e' : Engine) : Prop :=
  e' = e ∨ ∃ id j j', jobs e !! id = Some j ∧ e' = set_jobs (<[id:=j']> (jobs e)) e ∧ (ID j = id → change (ttlFor id e) now o j j').

Lemma find_job_ok id s r s' : find_job (W:=W) id s = (r, s') → s' = s ∧ match r with Ok j => jobs s.1 !! id = Some j | Err _ => True end.
Proof. unfold find_job. intros [= <- <-]. by destruct (jobs s.1 !! id). Qed.

Lemma publish_keeps topic j err s : PublishEvent (W:=W) pub topic j err s = (Ok tt, (s.1, (PublishEvent pub topic j err s).2.2)).
Proof. unfold PublishEvent. destruct pub; [done|]. by destruct s. Qed.

(** A transition, then one write, then events. *)
Lemma move_then ctx from to id j (rest : method (W:=W) unit) s :
  (∀ s0, (rest s0).2.1 = s0.1) →
  let '(r, s') := (transition pub ctx from to;; put_job id j;; rest) s in
  s'.1 = s.1 ∨ (can_move from to = true ∧ s'.1 = set_jobs (<[id:=j]> (jobs s.1)) s.1).
Proof.
  intros Hrest. unfold mbind, st_bind. destruct (transition pub ctx from to s) as [r1 s1] eqn:E. apply transition_ok in E as (E1 & E2 & _).
  destruct r1 as [[]|e]; [|by left]. cbn. specialize (Hrest (set_jobs (<[id:=j]> (jobs s1.1)) s1.1, s1.2)).
  destruct (rest _) as [r2 s2]. right. split; [by apply E2|]. cbn in Hrest. by rewrite Hrest, E1.
Qed.

Lemma publish_frame topic j err s : (PublishEvent (W:=W) pub topic j err s).2.1 = s.1.
Proof. by rewrite publish_keeps. Qed.

Lemma end_one ctx id now o s_ err res ev s j (rest : method (W:=W) unit) :
  jobs s.1 !! id = Some j → (∀ s0, (rest s0).2.1 = s0.1) →
  (ID j = id → (can_move (jstatus j) s_ = true → change (ttlFor id s.1) now o j (ended_job s_ err res now j))) →
  ev = ended_job s_ err res now j →
  one_job now o s.1 ((transition pub ctx (jstatus j) s_;; put_job id ev;; rest) s).2.1.
Proof.
  intros Hj Hrest Hch ->. pose proof (move_then ctx (jstatus j) s_ id (ended_job s_ err res now j) rest s Hrest) as H.
  destruct ((transition pub ctx (jstatus j) s_;; _) s) as [r s']. cbn. destruct H as [->|[Hm ->]]; [by left|]. right. eauto 10.
Qed.

Definition ids_ok (e : Engine) : Prop := ∀ id j, jobs e !! id = Some j → ID j = id.

Lemma elem_all_jobs e j : ids_ok e → j ∈ all_jobs e ↔ jobs e !! ID j = Some j.
Proof.
  intros Hid. unfold all_jobs. rewrite list_elem_of_omap. split.
  - intros (id & _ & Hj). by rewrite (Hid id j Hj).
  - intros Hj. exists (ID j). split; [|done]. apply range_order_elem, elem_of_dom. eauto.
Qed.

Lemma elem_candidates queue now e j :
  ids_ok e → j ∈ candidates queue now e ↔ jobs e !! ID j = Some j ∧ eligible queue now j = true.
Proof.
  intros Hid. unfold candidates. rewrite merge_sort_Permutation, list_elem_of_filter, elem_all_jobs by done. tauto.
Qed.

Lemma eligible_pending queue now j : eligible queue now j = true → jstatus j = StatusPending.
Proof. unfold eligible. intros [[[_ H]%andb_prop _]%andb_prop _]%andb_prop. by apply bool_decide_eq_true in H. Qed.

Lemma claim_one ctx queue worker now s :
  ids_ok s.1 → one_job now (OpClaim queue worker) s.1 (job_do ctx now (OpClaim queue worker) s).1.
Proof.
  intros Hid. cbn [job_do]. unfold Claim. rewrite (st_run engine_state _ s s.1 s) by done.
  destruct (candidates queue now s.1) as [|j rest] eqn:Ec; [by left|].
  assert (Hj : j ∈ candidates queue now s.1) by (rewrite Ec; left). apply elem_candidates in Hj as [Hj He]; [|done].
  pose proof (eligible_pending _ _ _ He) as Hp. unfold mbind, st_bind.
  destruct (transition pub ctx (jstatus j) StatusActive s) as [r1 s1] eqn:E. apply transition_ok in E as (E1 & _).
  destruct r1 as [[]|e]; cbn; [|by left]. rewrite publish_keeps. cbn. right. exists (ID j), j, (claimed_job worker now (now + ttlFor (ID j) s.1) j).
  rewrite E1. split_and!; try done. intros _. by eapply ch_claim.
Qed.

Lemma complete_one ctx id result now s :
  one_job now (OpComplete id result) s.1 (job_do ctx now (OpComplete id result) s).1.
Proof.
  cbn [job_do]. unfold Complete. unfold mbind at 1, st_bind at 1. destruct (find_job id s) as [r0 s0] eqn:E. apply find_job_ok in E as [-> Hj].
  destruct r0 as [j|e]; [|by left]. unfold mbind, st_bind.
  destruct (transition pub ctx (jstatus j) StatusSucceeded s) as [r1 s1] eqn:E. apply transition_ok in E as (E1 & E2 & _).
  destruct r1 as [[]|e]; cbn; [|by left]. right. specialize (E2 eq_refl).
  assert (Hch : ∀ res, ID j = id → change (ttlFor id s.1) now (OpComplete id result) j (ended_job StatusSucceeded (Error j) res now j)).
  { intros res <-. apply ch_end; [|done]. right. right. left. eauto. }
  destruct result as [[b|]|]; cbn; rewrite ?publish_frame; cbn; rewrite ?E1; unfold set_jobs; cbn; rewrite ?insert_insert_eq;
    eexists id, j, _; split_and!; eauto; reflexivity.
Qed.

Lemma fail_one ctx id opts delay now s :
  one_job now (OpFail id opts delay) s.1 (job_do ctx now (OpFail id opts delay) s).1.
Proof.
  cbn [job_do]. unfold Fail_. unfold mbind at 1, st_bind at 1. destruct (find_job id s) as [r0 s0] eqn:E. apply find_job_ok in E as [-> Hj].
  destruct r0 as [j|e]; [|by left]. destruct (f_Retry opts && (Attempts j <? MaxAttempts j)) eqn:Er.
  - apply andb_prop in Er as [_ Hlt%Z.ltb_lt].
    pose proof (move_then ctx (jstatus j) StatusPending id (released_job (f_Error opts) now (Some (now + delay)) j)
      (PublishEvent pub TopicRetried (released_job (f_Error opts) now (Some (now + delay)) j) (f_Error opts)) s (publish_frame _ _ _)) as H.
    destruct ((transition pub ctx (jstatus j) StatusPending;; _) s) as [r s']. cbn. destruct H as [->|[Hm ->]]; [by left|].
    right. exists id, j, (released_job (f_Error opts) now (Some (now + delay)) j).
    split_and!; try done. intros <-. by apply ch_retry.
  - eapply end_one; [done| |intros <- Hm; apply ch_end; [|exact Hm]|reflexivity].
    + intros s0. unfold mbind, st_bind. rewrite publish_keeps. destruct (f_Retry opts); [by rewrite publish_frame|done].
    + right. right. right. exists opts, delay. split_and!; try done. intros Ht. rewrite Ht in Er. by apply Z.ltb_ge in Er.
Qed.

Lemma timeout_one ctx id now s : one_job now (OpTimeout id) s.1 (job_do ctx now (OpTimeout id) s).1.
Proof.
  cbn [job_do]. unfold Timeout_. unfold mbind at 1, st_bind at 1. destruct (find_job id s) as [r0 s0] eqn:E. apply find_job_ok in E as [-> Hj].
  destruct r0 as [j|e]; [|by left]. eapply end_one; [done|apply publish_frame|intros <- Hm; apply ch_end; [auto|exact Hm]|reflexivity].
Qed.

Lemma cancel_one ctx id now s : one_job now (OpCancel id) s.1 (job_do ctx now (OpCancel id) s).1.
Proof.
  cbn [job_do]. unfold Cancel. unfold mbind at 1, st_bind at 1. destruct (find_job id s) as [r0 s0] eqn:E. apply find_job_ok in E as [-> Hj].
  destruct r0 as [j|e]; [|by left]. eapply end_one; [done|apply publish_frame|intros <- Hm; apply ch_end; [auto|exact Hm]|reflexivity].
Qed.

Lemma heartbeat_one ctx id now s : one_job now (OpHeartbeat id) s.1 (job_do ctx now (OpHeartbeat id) s).1.
Proof.
  cbn [job_do]. unfold Heartbeat. unfold mbind at 1, st_bind at 1. destruct (find_job id s) as [r0 s0] eqn:E. apply find_job_ok in E as [-> Hj].
  destruct r0 as [j|e]; [|by left]. case_bool_decide as Ha; [|by left]. unfold mbind, st_bind. cbn. rewrite publish_frame. cbn.
  right. eexists id, j, _. split_and!; [done|reflexivity|]. intros <-. by apply ch_beat.
Qed.

(** ** Every method *)

Definition job_id (n : Z) : string := "job_" +:+ formatOffset n.

Lemma job_id_inj n m : 0 ≤ n < 2 ^ 63 → 0 ≤ m < 2 ^ 63 → job_id n = job_id m → n = m.
Proof.
  intros Hn Hm E. apply (inj (String.append "job_")) in E. apply (f_equal parseOffset) in E.
  rewrite !parse_format in E by lia. congruence.
Qed.

(** Ids are issued in order and never again. *)
Record ids_issued (e : Engine) : Prop := {
  ii_ids : ids_ok e;
  ii_seq : 0 ≤ seq e;
  ii_jobs : ∀ id j, jobs e !! id = Some j → ∃ n, 1 ≤ n ≤ seq e ∧ id = job_id n;
  ii_ttls : ∀ id d, ttls e !! id = Some d → 0 < d ∧ ∃ n, 1 ≤ n ≤ seq e ∧ id = job_id n;
  ii_ttl : 0 < claimTTL e;
}.

(** A job as [Enqueue] makes it. *)
Definition new_job (now : Z) (opts : EnqueueOpts) (id : string) (j : Job) : Prop :=
  ID j = id ∧ Queue j = o_Queue opts ∧ Type_ j = o_Type opts ∧ jstatus j = StatusPending ∧ Attempts j = 0 ∧ 1 ≤ MaxAttempts j ∧
  ClaimedBy j = "" ∧ ExpiresAt j = None ∧ ClaimedAt j = None ∧ CreatedAt j = now ∧ UpdatedAt j = now ∧ NextRunAt j = None.

(** How an operation changes the engine: old jobs by [change], at most one new
    job and only by [Enqueue]; times to live of old jobs stay. *)
Record changed (now : Z) (o : job_op) (e e' : Engine) : Prop := {
  cg_old : ∀ id j, jobs e !! id = Some j → ∃ j', jobs e' !! id = Some j' ∧ change (ttlFor id e) now o j j';
  cg_new : ∀ id j', jobs e !! id = None → jobs e' !! id = Some j' →
             ∃ opts, o = OpEnqueue opts ∧ new_job now opts id j' ∧ id = job_id (seq e + 1);
  cg_ttl : ∀ id j, jobs e !! id = Some j → ttlFor id e' = ttlFor id e;
  cg_ids : ids_issued e';
  cg_seq : seq e ≤ seq e' ≤ seq e + 1;
}.

Lemma change_ID ttl now o j j' : change ttl now o j j' → ID j' = ID j.
Proof. by destruct 1. Qed.

Lemma issued_insert e id j j' :
  ids_issued e → jobs e !! id = Some j → ID j' = ID j → ids_issued (set_jobs (<[id:=j']> (jobs e)) e).
Proof.
  intros [H1 H2 H3 H4 H5] Hj E. split; try done.
  - intros id0 j0. cbn. rewrite lookup_insert_Some. intros [[<- <-]|[_ Hj0]]; [|by apply H1]. rewrite E. by apply H1.
  - intros id0 j0. cbn. rewrite lookup_insert_Some. intros [[<- <-]|[_ Hj0]]; eauto.
Qed.

Lemma one_changed now o e e' : ids_issued e → one_job now o e e' → changed now o e e'.
Proof.
  intros I [->|(id & j & j' & Hj & -> & Hch)].
  - split; try done; [|intros; simplify_eq|lia]. intros id j Hj. exists j. split; [done|constructor].
  - specialize (Hch (ii_ids _ I id j Hj)). split; try done.
    + intros id0 j0 H0. cbn. destruct (decide (id0 = id)) as [->|Hne].
      * simplify_eq. exists j'. by rewrite lookup_insert_eq.
      * rewrite lookup_insert_ne by done. exists j0. split; [done|constructor].
    + intros id0 j0 H0. cbn. rewrite lookup_insert_ne by (intros <-; congruence). congruence.
    + eapply issued_insert; [done..|]. by eapply change_ID.
    + cbn. lia.
Qed.

Definition enqueued (opts : EnqueueOpts) (now : Z) (payload : option string) (id : string) : Job :=
  mkJob id (o_Queue opts) (o_Type opts) StatusPending payload None "" "" (o_Priority opts) 0
    (if o_MaxAttempts opts <=? 0 then 3 else o_MaxAttempts opts) now now None None None None (o_ScheduledAt opts) None.

Lemma Enqueue_cases opts now s :
  let e := s.1 in let id := "job_" +:+ formatOffset (int64 (seq e + 1)) in
  let e' := (Enqueue pub opts now s).2.1 in
  e' = e ∨ e' = mkEngine (jobs e) (claimTTL e) (ttls e) (int64 (seq e + 1)) ∨
  ∃ payload, e' = mkEngine (<[id := enqueued opts now payload id]> (jobs e)) (claimTTL e)
                    (if 0 <? o_ClaimTTL opts then <[id := o_ClaimTTL opts]> (ttls e) else ttls e) (int64 (seq e + 1)).
Proof.
  intros e id e'. subst e'. unfold Enqueue. destruct (String.eqb (o_Queue opts) ""); [by left|]. destruct (String.eqb (o_Type opts) ""); [by left|].
  right. destruct s as [e0 w]. unfold mbind, st_bind, modify, engine_state, put_job, modify, mret, st_ret, throw.
  cbn [fst snd jobs claimTTL ttls seq set_jobs] in *. subst e. fold id. generalize id as i. intros i.
  destruct (o_Payload opts) as [[b|]|]; [right; exists (Some b)|by left|right; exists None];
    rewrite publish_keeps; reflexivity.
Qed.

Lemma enqueue_changed opts now s :
  ids_issued s.1 → seq s.1 + 1 < 2 ^ 63 → changed now (OpEnqueue opts) s.1 (Enqueue pub opts now s).2.1.
Proof.
  intros I Hseq. pose proof (ii_seq _ I) as H0.
  assert (Hfree : jobs s.1 !! job_id (seq s.1 + 1) = None ∧ ttls s.1 !! job_id (seq s.1 + 1) = None).
  { split; apply eq_None_not_Some; intros [x Hx].
    - destruct (ii_jobs _ I _ _ Hx) as (n & Hn & E). apply job_id_inj in E; lia.
    - destruct (ii_ttls _ I _ _ Hx) as (_ & n & Hn & E). apply job_id_inj in E; lia. }
  pose proof (Enqueue_cases opts now s) as H. cbn zeta in H. rewrite int64_small in H by lia. fold (job_id (seq s.1 + 1)) in H.
  destruct H as [->|[->|(payload & ->)]].
  - apply one_changed; [done|by left].
  - destruct I as [I1 I2 I3 I4 I5]. split; cbn [jobs claimTTL ttls seq]; try done; [|intros; congruence| |lia].
    + intros id j Hj. exists j. split; [done|constructor].
    + split; cbn [jobs claimTTL ttls seq]; try done; [lia|..].
      * intros id j Hj. destruct (I3 id j Hj) as (n & Hn & ->). exists n. split; [lia|done].
      * intros id d Hd. destruct (I4 id d Hd) as (Hp & n & Hn & ->). split; [done|]. exists n. split; [lia|done].
  - assert (∃ i, i = job_id (seq s.1 + 1)) as [i Ei] by eauto. rewrite <-Ei in Hfree |- *. destruct Hfree as [Hj0 Ht0].
    assert (Hi : ∃ n, 1 ≤ n ≤ seq s.1 + 1 ∧ i = job_id n) by (exists (seq s.1 + 1); split; [lia|done]).
    destruct I as [I1 I2 I3 I4 I5]. split; cbn [jobs claimTTL ttls seq].
    + intros id j Hj. rewrite lookup_insert_ne by congruence. exists j. split; [done|constructor].
    + intros id j' Hnone Hj'. apply lookup_insert_Some in Hj' as [[<- <-]|[_ ?]]; [|congruence]. exists opts. split_and!; try done.
      unfold new_job, enqueued. cbn. split_and!; try done. destruct (Z.leb_spec (o_MaxAttempts opts) 0); lia.
    + intros id j Hj. unfold ttlFor. cbn [ttls claimTTL]. destruct (0 <? o_ClaimTTL opts); [|done]. by rewrite lookup_insert_ne by congruence.
    + split; cbn [jobs claimTTL ttls seq]; try done; [|lia|..].
      * intros id j Hj. cbn in Hj. apply lookup_insert_Some in Hj as [[<- <-]|[_ ?]]; [done|auto].
      * intros id j. rewrite lookup_insert_Some. intros [[<- <-]|[_ Hj]]; [done|].
        destruct (I3 id j Hj) as (n & Hn & ->). exists n. split; [lia|done].
      * intros id d. destruct (Z.ltb_spec 0 (o_ClaimTTL opts)); [rewrite lookup_insert_Some; intros [[<- <-]|[_ Hd]]; [done|]|intros Hd];
          destruct (I4 id d Hd) as (Hp & n & Hn & ->); (split; [done|]); exists n; (split; [lia|done]).
    + lia.
Qed.

(** ** Stale claims *)

Lemma release_stale_one ctx now id n s :
  let '(r, s') := release_stale pub ctx now id n s in
  (∃ m, r = Ok m) ∧ (s'.1 = s.1 ∨ ∃ j, jobs s.1 !! id = Some j ∧ s'.1 = set_jobs (<[id := released_job (Error j) now (NextRunAt j) j]> (jobs s.1)) s.1 ∧
     jstatus j = StatusActive ∧ ∃ x, ExpiresAt j = Some x ∧ x < now).
Proof.
  unfold release_stale. destruct (jobs s.1 !! id) as [j|] eqn:Hj; [|split; [eauto|by left]].
  destruct (bool_decide (jstatus j = StatusActive) && _) eqn:Eb; [|split; [eauto|by left]].
  apply andb_prop in Eb as [Ha%bool_decide_eq_true Hx]. destruct (ExpiresAt j) as [x|] eqn:Ex; [|done]. apply Z.ltb_lt in Hx.
  destruct (transition pub ctx (jstatus j) StatusPending s) as [r1 s1] eqn:E. apply transition_ok in E as (E1 & _).
  destruct r1 as [[]|e]; [|split; [eauto|by left]]. unfold mbind, st_bind, put_job, modify, mret, st_ret. rewrite publish_keeps. cbn [fst snd].
  split; [eauto|]. right. exists j. rewrite E1. eauto 10.
Qed.

Lemma release_loop_changed ctx now ids : ∀ n s,
  ids_issued s.1 → NoDup ids →
  let '(r, s') := release_loop pub ctx now ids n s in
  ids_issued s'.1 ∧ seq s'.1 = seq s.1 ∧ (∀ id, ttlFor id s'.1 = ttlFor id s.1) ∧
  (∀ id, jobs s.1 !! id = None → jobs s'.1 !! id = None) ∧
  (∀ id, id ∉ ids → jobs s'.1 !! id = jobs s.1 !! id) ∧
  (∀ id j, jobs s.1 !! id = Some j → ∃ j', jobs s'.1 !! id = Some j' ∧ change (ttlFor id s.1) now OpReleaseStale j j').
Proof.
  induction ids as [|id ids IH]; intros n s I Hnd; cbn [release_loop].
  { split_and!; try done. intros id j Hj. exists j. split; [done|constructor]. }
  apply NoDup_cons in Hnd as [Hid Hnd]. unfold mbind, st_bind. pose proof (release_stale_one ctx now id n s) as H1.
  destruct (release_stale pub ctx now id n s) as [r1 s1]. destruct H1 as [[m ->] H1].
  assert (I1 : ids_issued s1.1).
  { destruct H1 as [->|(j & Hj & -> & _)]; [done|]. by eapply issued_insert. }
  specialize (IH m s1 I1 Hnd). destruct (release_loop pub ctx now ids m s1) as [r2 s2]. destruct IH as (I2 & S2 & T2 & N2 & O2 & C2).
  destruct H1 as [E1|(j & Hj & E1 & Ha & x & Hx & Hlt)]; rewrite E1 in *.
  - split_and!; try done. intros id0 Hn. apply O2. set_solver.
  - cbn [seq set_jobs jobs] in *. split_and!; try done.
    + intros id0 Hn. apply N2. rewrite lookup_insert_ne by congruence. done.
    + intros id0 Hn. rewrite O2 by set_solver. rewrite lookup_insert_ne by set_solver. done.
    + intros id0 j0 H0. destruct (decide (id0 = id)) as [->|Hne].
      * simplify_eq. eexists. rewrite O2, lookup_insert_eq by done. split; [done|]. by eapply ch_stale.
      * apply C2. by rewrite lookup_insert_ne.
Qed.

Lemma job_changed ctx now o s :
  ids_issued s.1 → seq s.1 + 1 < 2 ^ 63 → changed now o s.1 (job_do ctx now o s).1.
Proof.
  intros I Hs. destruct o as [opts|queue worker|id result|id opts delay|id|id|id|].
  - by apply enqueue_changed.
  - apply one_changed; [done|apply claim_one, I].
  - apply one_changed; [done|apply complete_one].
  - apply one_changed; [done|apply fail_one].
  - apply one_changed; [done|apply timeout_one].
  - apply one_changed; [done|apply cancel_one].
  - apply one_changed; [done|apply heartbeat_one].
  - cbn [job_do]. unfold ReleaseStaleClaims. rewrite (st_run engine_state _ s s.1 s) by done.
    pose proof (release_loop_changed ctx now (range_order 0 (dom (jobs s.1))) 0 s I (range_order_NoDup _ _)) as H.
    destruct (release_loop _ _ _ _ _ _) as [r s']. destruct H as (I' & S' & T' & N' & _ & C'). cbn. split; try done.
    + intros id j' Hn Hj. rewrite N' in Hj; done.
    + rewrite S'. lia.
Qed.

(** ** Runs *)

(** The engine after operations at times that never go back; [n] counts them. *)
Inductive jrun : Z → Z → Engine * W → Prop :=
| jrun_new t w : jrun 0 t (New, w)
| jrun_step n t t' ctx o s : jrun n t s → t ≤ t' → jrun (n + 1) t' (job_do ctx t' o s).

(** What each status says about a job. *)
Record job_ok (n t ttl : Z) (j : Job) : Prop := {
  jo_attempts : 0 ≤ Attempts j ≤ n;
  jo_max : 1 ≤ MaxAttempts j;
  jo_pending : jstatus j = StatusPending → ClaimedBy j = "" ∧ ClaimedAt j = None ∧ ExpiresAt j = None;
  jo_active : jstatus j = StatusActive → ∃ at_, ClaimedAt j = Some at_ ∧ at_ ≤ UpdatedAt j ∧ ExpiresAt j = Some (UpdatedAt j + ttl);
  jo_ran : jstatus j ≠ StatusPending → jstatus j ≠ StatusCancelled → 1 ≤ Attempts j;
  jo_done : jstatus j ∈ [StatusSucceeded; StatusFailed; StatusTimeout; StatusCancelled] → is_Some (CompletedAt j);
  jo_times : CreatedAt j ≤ UpdatedAt j ≤ t;
}.

Lemma can_move_pending s : can_move s StatusPending = true → s ≠ StatusPending ∧ s ≠ StatusCancelled.
Proof. by destruct s. Qed.

Lemma change_ok n t t' ttl o j j' :
  job_ok n t ttl j → t ≤ t' → n + 1 < 2 ^ 63 → change ttl t' o j j' → job_ok (n + 1) t' ttl j'.
Proof.
  intros [J1 J2 J3 J4 J5 J6 J7] Ht Hn Hch. destruct Hch as [j|queue worker j _ He|opts delay j _ Hm Ha|j x _ Ha Hx Hlt|st err res j Ho Hm|j _ Ha].
  - split; try done; lia.
  - split; cbn; try done; try lia.
    + rewrite int64_small by lia. lia.
    + intros _. exists t'. split_and!; try done; lia.
    + rewrite int64_small by lia. lia.
    + intros H. repeat (apply elem_of_cons in H as [H|H]; [done|]). by apply not_elem_of_nil in H.
  - split; cbn; try done; try lia.
    + intros H. repeat (apply elem_of_cons in H as [H|H]; [done|]). by apply not_elem_of_nil in H.
  - split; cbn; try done; try lia.
    + intros H. repeat (apply elem_of_cons in H as [H|H]; [done|]). by apply not_elem_of_nil in H.
  - assert (Hst : st ≠ StatusPending ∧ st ≠ StatusActive ∧ (jstatus j = StatusPending → st = StatusCancelled)).
    { destruct Ho as [[_ ->]|[[_ ->]|[(result & _ & ->)|(opts & delay & _ & -> & _)]]]; (split; [done|]); (split; [done|]);
        intros E; rewrite E in Hm; done. }
    destruct Hst as (Hs1 & Hs2 & Hs3). split; cbn; try tauto; try lia; [|eauto].
    intros _ Hc. apply J5; [tauto|]. intros E. rewrite E in Hm. by destruct st.
  - split; cbn; try done; try lia; rewrite ?Ha; try done.
    + destruct (J4 Ha) as (at_ & H1 & H2 & H3). intros _. exists at_. split_and!; try done; lia.
Qed.

Lemma new_job_ok n now ttl opts id j : 0 ≤ n → new_job now opts id j → job_ok n now ttl j.
Proof.
  intros Hn (H1 & H2 & H3 & H4 & H5 & H6 & H7 & H8 & H9 & H10 & Hu & H11). split; rewrite ?H4, ?H5, ?H10, ?Hu; try done; try lia.
  intros H. repeat (apply elem_of_cons in H as [H|H]; [done|]). by apply not_elem_of_nil in H.
Qed.

Lemma jrun_ok n t s :
  jrun n t s → n < 2 ^ 63 → 0 ≤ n ∧ ids_issued s.1 ∧ seq s.1 ≤ n ∧ ∀ id j, jobs s.1 !! id = Some j → job_ok n t (ttlFor id s.1) j.
Proof.
  induction 1 as [t w|n t t' ctx o s _ IH Ht]; intros Hn.
  { split_and!; try done; split; cbn; try done. }
  destruct IH as (Hn0 & I & Hseq & J); [lia|]. destruct (job_changed ctx t' o s I) as [C1 C2 C3 C4 C5]; [lia|].
  split_and!; [lia|done|lia|]. intros id j' Hj'. destruct (jobs s.1 !! id) as [j|] eqn:Hj.
  - destruct (C1 id j Hj) as (j0 & Hj0 & Hch). simplify_eq. rewrite (C3 id j Hj). eapply change_ok; [by eapply J|done|lia|done].
  - destruct (C2 id j' Hj Hj') as (opts & _ & Hnew & _). eapply new_job_ok; [lia|done].
Qed.

Lemma jrun_changed n t t' ctx o s :
  jrun n t s → t ≤ t' → n + 1 < 2 ^ 63 → changed t' o s.1 (job_do ctx t' o s).1.
Proof. intros H Ht Hn. destruct (jrun_ok n t s H) as (_ & I & Hs & _); [lia|]. apply job_changed; [done|lia]. Qed.


(** A job no operation changes any more. *)
Definition final (j : Job) : Prop := jstatus j = StatusSucceeded ∨ jstatus j = StatusCancelled.

Lemma change_status ttl now o j j' :
  change ttl now o j j' → jstatus j' = jstatus j ∨ can_move (jstatus j) (jstatus j') = true.
Proof.
  intros [x|queue worker x _ He|opts delay x _ Hm Ha|x y _ Ha Hx Hlt|st err res x Ho Hm|x _ Ha]; cbn; auto.
  - right. by rewrite (eligible_pending _ _ _ He).
  - right. by rewrite Ha.
Qed.

Lemma change_final ttl now o j j' : final j → change ttl now o j j' → j' = j.
Proof.
  intros Hf Hch. destruct Hch as [x|queue worker x _ He|opts delay x _ Hm Ha|x y _ Ha Hx Hlt|st err res x Ho Hm|x _ Ha]; [done|..].
  - apply eligible_pending in He. destruct Hf; congruence.
  - destruct Hf as [E|E]; by rewrite E in Hm.
  - destruct Hf; congruence.
  - destruct Hf as [E|E]; rewrite E in Hm; by destruct st.
  - destruct Hf; congruence.
Qed.

(** C21. The engine follows the documented lifecycle: an operation loses no job,
    moves a job's status only along the arrows of doc.go, adds jobs as pending
    and unclaimed, and never touches a job that succeeded or was canceled. *)
Theorem job_lifecycle n t t' ctx o s :
  jrun n t s → t ≤ t' → n + 1 < 2 ^ 63 →
  let e' := (job_do ctx t' o s).1 in
  (∀ id j, jobs s.1 !! id = Some j → ∃ j', jobs e' !! id = Some j' ∧
     (jstatus j' = jstatus j ∨ can_move (jstatus j) (jstatus j') = true) ∧ (final j → j' = j)) ∧
  (∀ id j', jobs s.1 !! id = None → jobs e' !! id = Some j' → ∃ opts, o = OpEnqueue opts ∧ new_job t' opts id j').
Proof.
  intros H Ht Hn e'. destruct (jrun_changed n t t' ctx o s H Ht Hn) as [C1 C2 _ _ _]. split.
  - intros id j Hj. destruct (C1 id j Hj) as (j' & Hj' & Hch). exists j'. eauto using change_status, change_final.
  - intros id j' Hj Hj'. destruct (C2 id j' Hj Hj') as (opts & Ho & Hnew & _). eauto.
Qed.

(** ** Leases *)

(** Operations that report on the job itself. *)
Definition reports (o : job_op) (id : string) : Prop :=
  match o with
  | OpComplete i _ | OpFail i _ _ | OpTimeout i | OpCancel i => i = id
  | _ => False
  end.

(** Held by [worker] at least until [x]. *)
Definition leased (e : Engine) (id worker : string) (x : Z) : Prop :=
  ∃ j y, jobs e !! id = Some j ∧ jstatus j = StatusActive ∧ ClaimedBy j = worker ∧ ExpiresAt j = Some y ∧ x ≤ y.

Lemma lease_step n t t' ctx o s id worker x :
  jrun n t s → t ≤ t' → n + 1 < 2 ^ 63 → leased s.1 id worker x → t' ≤ x → ¬ reports o id →
  leased (job_do ctx t' o s).1 id worker x.
Proof.
  intros H Ht Hn (j & y & Hj & Ha & Hw & Hy & Hxy) Hx Hr. destruct (jrun_changed n t t' ctx o s H Ht Hn) as [C1 _ _ _ _].
  destruct (jrun_ok n t s H) as (_ & I & _ & J); [lia|]. pose proof (ii_ids _ I id j Hj) as Hid. specialize (J id j Hj).
  destruct (jo_active _ _ _ _ J Ha) as (at_ & _ & _ & Hy'). pose proof (jo_times _ _ _ _ J) as Hu.
  destruct (C1 id j Hj) as (j' & Hj' & Hch). unfold leased.
  destruct Hch as [z|queue w z _ He|opts delay z Ho Hm Hat|z y' _ Hz Hy2 Hlt|st err res z Ho Hm|z _ Hz].
  - eauto 10.
  - apply eligible_pending in He. congruence.
  - destruct Hr. rewrite Ho, Hid. done.
  - simplify_eq. lia.
  - destruct Hr. destruct Ho as [[Ho _]|[[Ho _]|[(res' & Ho & _)|(opts & delay & Ho & _)]]]; rewrite Ho, Hid; done.
  - eexists _, _. split; [done|]. cbn. split_and!; try done. simplify_eq. lia.
Qed.

(** Operations one after another, each with its context and time. *)
Inductive job_ops : Engine * W → Z → list (Ctx * Z * job_op) → Engine * W → Z → Prop :=
| ops_nil s t : job_ops s t [] s t
| ops_cons s t ctx t' o os s' t'' : t ≤ t' → job_ops (job_do ctx t' o s) t' os s' t'' → job_ops s t ((ctx, t', o) :: os) s' t''.

Lemma job_ops_time s t os s' t' : job_ops s t os s' t' → t ≤ t'.
Proof. induction 1; lia. Qed.

(** C6. A lease is exclusive: from the moment a worker claims a job until the
    claim expires, whatever other workers do, however often claims are polled
    and stale ones released, the job stays with that worker and nobody else can
    claim it, unless someone reports on the job itself. *)
Theorem lease_exclusive os : ∀ n t s s' t' id worker x,
  jrun n t s → n + Z.of_nat (length os) < 2 ^ 63 → job_ops s t os s' t' →
  leased s.1 id worker x → t' ≤ x → Forall (λ o, ¬ reports o.2 id) os →
  leased s'.1 id worker x.
Proof.
  induction os as [|[[ctx t1] o] os IH]; intros n t s s' t' id worker x H Hn Ho Hl Hx Hr; inversion Ho; subst; [done|].
  apply Forall_cons in Hr as [Hr Hrs]. cbn in Hr. cbn [length] in Hn.
  assert (t1 ≤ t').
  { by eapply job_ops_time. }
  eapply (IH (n + 1) t1); [by eapply jrun_step|lia|done| |done|done]. eapply lease_step; eauto; lia.
Qed.

(** ** Claims *)

#[export] Instance job_le_total : Total job_le.
Proof. intros j k. unfold job_le. lia. Qed.

#[export] Instance job_le_trans : Transitive job_le.
Proof. intros j k l. unfold job_le. lia. Qed.

Lemma candidates_head queue now e j rest k :
  ids_ok e → candidates queue now e = j :: rest → jobs e !! ID k = Some k → eligible queue now k = true → job_le j k.
Proof.
  intros Hid Hc Hk He. assert (Hin : k ∈ candidates queue now e) by (by apply elem_candidates).
  assert (Hs : StronglySorted job_le (candidates queue now e)) by (apply Sorted_StronglySorted, Sorted_merge_sort; apply _).
  rewrite Hc in Hin, Hs. apply StronglySorted_inv in Hs as [_ Hs]. apply elem_of_cons in Hin as [->|Hin]; [unfold job_le; lia|].
  by apply (proj1 (Forall_forall _ _) Hs).
Qed.

(** What a claim may hand out, independently of the code: a pending job of the
    queue whose scheduled time and next run are not in the future. *)
Record due (queue : string) (now : Z) (j : Job) : Prop := {
  due_queue : Queue j = queue;
  due_pending : jstatus j = StatusPending;
  due_scheduled : ∀ x, ScheduledAt j = Some x → x ≤ now;
  due_next : ∀ x, NextRunAt j = Some x → x ≤ now;
}.

Lemma after_false x now : after x now = false ↔ ∀ y, x = Some y → y ≤ now.
Proof.
  destruct x as [x|]; cbn; [|done]. rewrite Z.ltb_ge. split; [by intros ? y [= <-]|by intros H; apply H].
Qed.

Lemma eligible_due queue now j : eligible queue now j = true ↔ due queue now j.
Proof.
  unfold eligible. rewrite !andb_true_iff, !negb_true_iff, !after_false, String.eqb_eq, bool_decide_eq_true.
  split; [by intros [[[] ?] ?]|by intros []].
Qed.

(** A claim hands out the most urgent job: among the pending jobs of the
    queue that are due, none has a smaller priority value, or the same and an
    earlier creation time.  The job runs once more, belongs to the worker for
    its own time to live, and no other job changes.  The answer is nothing
    exactly when no job is due. *)
Theorem claim_spec n t t' ctx queue worker s :
  jrun n t s → t ≤ t' → n + 1 < 2 ^ 63 → pub = None →
  let '(r, s') := Claim pub ctx queue worker t' s in
  match r with
  | Err _ => False
  | Ok None => s' = s ∧ ∀ id k, jobs s.1 !! id = Some k → ¬ due queue t' k
  | Ok (Some j') => ∃ j, jobs s.1 !! ID j = Some j ∧ due queue t' j ∧
      (∀ id k, jobs s.1 !! id = Some k → due queue t' k →
         Priority j < Priority k ∨ Priority j = Priority k ∧ CreatedAt j ≤ CreatedAt k) ∧
      j' = claimed_job worker t' (t' + ttlFor (ID j) s.1) j ∧ Attempts j' = Attempts j + 1 ∧ leased s'.1 (ID j) worker (t' + ttlFor (ID j) s.1) ∧
      s'.1 = set_jobs (<[ID j := j']> (jobs s.1)) s.1
  end.
Proof.
  intros H Ht Hn Hpub. destruct (jrun_ok n t s H) as (_ & I & _ & J); [lia|]. pose proof (ii_ids _ I) as Hid.
  unfold Claim. rewrite (st_run engine_state _ s s.1 s) by done.
  destruct (candidates queue t' s.1) as [|j rest] eqn:Ec.
  - cbn. split; [done|]. intros id k Hk He%eligible_due.
    assert (k ∈ candidates queue t' s.1) as Hin by (apply elem_candidates; [done|]; by rewrite (Hid id k Hk)).
    rewrite Ec in Hin. by apply not_elem_of_nil in Hin.
  - assert (Hj : j ∈ candidates queue t' s.1) by (rewrite Ec; left). apply elem_candidates in Hj as [Hj He]; [|done].
    unfold mbind, st_bind. destruct (transition pub ctx (jstatus j) StatusActive s) as [r1 s1] eqn:E.
    apply transition_ok in E as (E1 & _ & E3). specialize (E3 Hpub). rewrite (eligible_pending _ _ _ He) in E3.
    destruct r1 as [[]|]; [|done]. unfold put_job, modify, mret, st_ret. rewrite publish_keeps. cbn [fst snd]. exists j.
    pose proof (jo_attempts _ _ _ _ (J _ _ Hj)). split_and!; try done.
    + by apply eligible_due.
    + intros id k Hk Hek%eligible_due. eapply (candidates_head queue t' s.1); [done..| |done]. by rewrite (Hid id k Hk).
    + cbn. apply int64_small. lia.
    + eexists _, _. split; [apply lookup_insert_eq|done].
    + by rewrite E1.
Qed.

(** ** Attempts *)

(** Runs in which no stale claim is released. *)
Inductive calm : Z → Z → Engine * W → Prop :=
| calm_new t w : calm 0 t (New, w)
| calm_step n t t' ctx o s : calm n t s → t ≤ t' → o ≠ OpReleaseStale → calm (n + 1) t' (job_do ctx t' o s).

Lemma calm_jrun n t s : calm n t s → jrun n t s.
Proof. induction 1; [constructor|by eapply jrun_step]. Qed.

Definition within_attempts (j : Job) : Prop :=
  Attempts j ≤ MaxAttempts j ∧ (jstatus j = StatusPending → Attempts j < MaxAttempts j).

Lemma change_attempts n t ttl ttl' t' o j j' :
  job_ok n t ttl' j → n + 1 < 2 ^ 63 → o ≠ OpReleaseStale → within_attempts j → change ttl t' o j j' → within_attempts j'.
Proof.
  intros J Hn Ho [H1 H2] Hch. pose proof (jo_attempts _ _ _ _ J).
  destruct Hch as [z|queue w z _ He|opts delay z _ Hm Hat|z y' ? Hz Hy2 Hlt|st err res z Hr Hm|z _ Hz]; unfold within_attempts; cbn; try done.
  - rewrite int64_small by lia. specialize (H2 (eligible_pending _ _ _ He)). split; [lia|done].
  - split; [done|]. intros ->. destruct Hr as [[_ ?]|[[_ ?]|[(? & _ & ?)|(? & ? & _ & ? & _)]]]; done.
Qed.

(** While no stale claim is released, a job runs at most [MaxAttempts] times,
    however its attempts are reported. *)
Theorem attempts_bounded n t s id j :
  calm n t s → n < 2 ^ 63 → jobs s.1 !! id = Some j → Attempts j ≤ MaxAttempts j.
Proof.
  intros H Hn Hj. cut (∀ id j, jobs s.1 !! id = Some j → within_attempts j); [intros Hall; by apply (Hall id)|].
  clear id j Hj. revert Hn. induction H as [t w|n t t' ctx o s H IH Ht Ho]; intros Hn id j' Hj'; [done|].
  apply calm_jrun in H. destruct (jrun_ok n t s H) as (_ & _ & _ & J); [lia|].
  destruct (jrun_changed n t t' ctx o s H Ht) as [C1 C2 _ _ _]; [lia|]. destruct (jobs s.1 !! id) as [j|] eqn:Hj.
  - destruct (C1 id j Hj) as (j0 & Hj0 & Hch). simplify_eq. eapply change_attempts; [by apply J|lia|done|apply (IH ltac:(lia) id j Hj)|done].
  - destruct (C2 id j' Hj Hj') as (opts & _ & (_ & _ & _ & _ & Ha & Hm & _) & _). unfold within_attempts. lia.
Qed.

End engine.
