(* ===== verification/Poller.v ===== *)
(** * The job poller (go/runtime/job/poller.go, opportunistic.go)

    One turn of [Poller.Run] and [RunOne], over the engine of Jobs.  A handler is
    a function to its outcome; a turn takes the time of the claim, the time of
    the report and the delay a retry would get.  Sleeping between turns and the
    cancellation of the loop only decide when turns happen. *)

From S2P Require Import Prelude StreamWire Domain Jobs JobProps.

Local Open Scope Z_scope.

Inductive outcome := HNil | HError (msg : string) | HPanic (value : string).

(** [PanicError.Error] and [runHandler]: the error of a handler, if any. *)
Definition runHandler (o : outcome) : option string :=
  match o with
  | HNil => None
  | HError msg => Some msg
  | HPanic value => Some ("panic: " +:+ value)
  end.

Record Poller := mkPoller {
  p_Queue : string;
  p_WorkerID : string;
  p_Handlers : gmap string (Job → outcome);
  p_StaleInterval : Z;
}.

Section poller.
Context {W : Type} `{MO : MapOrder} (pub : option (JobPublisher W)).

Definition staleInterval (p : Poller) : Z := if p_StaleInterval p =? 0 then 30 * 10 ^ 9 else p_StaleInterval p.

(** [time.Since] of the zero time is past every interval. *)
Definition stale_due (p : Poller) (lastStale : option Z) (now : Z) : bool :=
  match lastStale with None => true | Some t => staleInterval p <=? now - t end.

(** Routing, running and reporting on a claimed job. *)
Definition process (handlers : gmap string (Job → outcome)) (ctx : Ctx) (j : Job) (t' delay : Z) : method (W:=W) unit :=
  match handlers !! Type_ j with
  | None => Fail_ pub ctx (ID j) (mkFailOpts ("no handler for type: " +:+ Type_ j) false) t' delay
  | Some h =>
      match runHandler (h j) with
      | Some msg => Fail_ pub ctx (ID j) (mkFailOpts msg true) t' delay
      | None => Complete pub ctx (ID j) None t'
      end
  end.

(** One iteration of the loop; service errors are logged and dropped. *)
Definition Run_turn (p : Poller) (ctx : Ctx) (t t' delay : Z) (x : option Z * (Engine * W)) : option Z * (Engine * W) :=
  let '(lastStale, s) := x in
  let '(lastStale, s) := if stale_due p lastStale t then (Some t, (ReleaseStaleClaims pub ctx t s).2) else (lastStale, s) in
  match Claim pub ctx (p_Queue p) (p_WorkerID p) t s with
  | (Ok (Some j), s) => (lastStale, (process (p_Handlers p) ctx j t' delay s).2)
  | (_, s) => (lastStale, s)
  end.

Definition cooldownTTL : Z := 10 * 10 ^ 9.

(** The marker file is its modification time; the result is the error, the
    marker and the engine afterwards. *)
Definition RunOne (disabled : bool) (handlers : gmap string (Job → outcome)) (ctx : Ctx) (queue worker : string) (t t' delay : Z)
    (cooldown : option Z) (s : Engine * W) : option error * option Z * (Engine * W) :=
  if disabled then (None, cooldown, s)
  else if match cooldown with Some m => t - m <? cooldownTTL | None => false end then (None, cooldown, s)
  else match Claim pub ctx queue worker t s with
       | (Err e, s) => (Some (Wrapped "runone claim" e), cooldown, s)
       | (Ok None, s) => (None, cooldown, s)
       | (Ok (Some j), s) =>
           let '(r, s) := process handlers ctx j t' delay s in
           let err := match handlers !! Type_ j with
                      | None => None
                      | Some h => match runHandler (h j) with
                                  | Some msg => Some (SubscriberError msg)
                                  | None => match r with Ok _ => None | Err e => Some e end
                                  end
                      end in
           (err, Some t, s)
       end.

End poller.

(** ** What a turn does *)

(** The job after its handler ran (or none was found). *)
Definition processed (handlers : gmap string (Job → outcome)) (t' delay : Z) (j : Job) : Job :=
  match handlers !! Type_ j with
  | None => ended_job StatusFailed ("no handler for type: " +:+ Type_ j) (Result j) t' j
  | Some h =>
      match runHandler (h j) with
      | None => ended_job StatusSucceeded (Error j) (Result j) t' j
      | Some msg =>
          if Attempts j <? MaxAttempts j then released_job msg t' (Some (t' + delay)) j
          else ended_job StatusFailed msg (Result j) t' j
      end
  end.

Section turn.
Context {W : Type} `{MO : MapOrder}.

Abbreviation no_pub := (None : option (JobPublisher W)).

Lemma transition_none ctx from to s :
  can_move from to = true → transition no_pub ctx from to s = (Ok tt, s).
Proof.
  intros H. destruct (transition no_pub ctx from to s) as [r s'] eqn:E. pose proof E as (E1 & _ & E3)%transition_ok.
  specialize (E3 eq_refl). rewrite H in E3. destruct r as [[]|]; [|done]. f_equal. destruct s as [e w], s' as [e' w']. cbn in E1. subst e'.
  f_equal. revert E. unfold transition. cbn [fst snd].
  pose proof (transition_spec (NewStateMachine no_pub) ctx (status_string from) (status_string to) false w) as Ht.
  destruct (Transition _ _ _ _ _ w) as [r0 w0]. intros [= _ <-]. destruct Ht as [(_ & _ & _ & ->)|(_ & _ & ->)]; done.
Qed.

Lemma publish_none topic j err (s : Engine * W) : PublishEvent no_pub topic j err s = (Ok tt, s).
Proof. done. Qed.

Lemma process_spec handlers ctx j t' delay s :
  jobs s.1 !! ID j = Some j → jstatus j = StatusActive →
  process no_pub handlers ctx j t' delay s = (Ok tt, (set_jobs (<[ID j := processed handlers t' delay j]> (jobs s.1)) s.1, s.2)).
Proof.
  intros Hj Ha. assert (Hfind : find_job (W:=W) (ID j) s = (Ok j, s)) by (unfold find_job; by rewrite Hj).
  assert (Hmove : ∀ to, can_move StatusActive to = true → transition no_pub ctx (jstatus j) to s = (Ok tt, s)).
  { intros to Hto. apply transition_none. by rewrite Ha. }
  unfold process, processed. destruct (handlers !! Type_ j) as [h|].
  - destruct (runHandler (h j)) as [msg|].
    + unfold Fail_. rewrite (st_run _ _ _ _ _ Hfind). cbn [f_Retry f_Error andb]. destruct (Attempts j <? MaxAttempts j).
      * rewrite (st_run _ _ _ _ _ (Hmove StatusPending eq_refl)). done.
      * rewrite (st_run _ _ _ _ _ (Hmove StatusFailed eq_refl)). done.
    + unfold Complete. rewrite (st_run _ _ _ _ _ Hfind), (st_run _ _ _ _ _ (Hmove StatusSucceeded eq_refl)).
      unfold mbind, st_bind, put_job, modify. cbn [fst snd jobs set_jobs]. rewrite publish_none.
      unfold set_jobs. cbn [jobs claimTTL ttls seq]. rewrite insert_insert_eq. done.
  - unfold Fail_. rewrite (st_run _ _ _ _ _ Hfind). cbn [f_Retry f_Error andb].
    rewrite (st_run _ _ _ _ _ (Hmove StatusFailed eq_refl)). done.
Qed.

(** A claim without a publisher. *)
Lemma Claim_none ctx queue worker t s :
  ids_ok s.1 →
  Claim no_pub ctx queue worker t s =
  match candidates queue t s.1 with
  | [] => (Ok None, s)
  | j :: _ => let j' := claimed_job worker t (t + ttlFor (ID j) s.1) j in
              (Ok (Some j'), (set_jobs (<[ID j := j']> (jobs s.1)) s.1, s.2))
  end.
Proof.
  intros Hid. unfold Claim. rewrite (st_run engine_state _ s s.1 s) by done. destruct (candidates queue t s.1) as [|j rest] eqn:Ec; [done|].
  assert (Hj : j ∈ candidates queue t s.1) by (rewrite Ec; left). apply elem_candidates in Hj as [_ He%eligible_pending]; [|done].
  rewrite (st_run _ _ _ _ _ (transition_none ctx (jstatus j) StatusActive s ltac:(by rewrite He))). done.
Qed.

Definition no_stale (t : Z) (e : Engine) : Prop :=
  ∀ id j x, jobs e !! id = Some j → jstatus j = StatusActive → ExpiresAt j = Some x → t ≤ x.

Lemma release_none ctx t s : no_stale t s.1 → (ReleaseStaleClaims no_pub ctx t s).2 = s.
Proof.
  intros Hn. unfold ReleaseStaleClaims. rewrite (st_run engine_state _ s s.1 s) by done.
  assert (H : ∀ ids n, release_loop no_pub ctx t ids n s = (Ok n, s)); [|by rewrite H].
  induction ids as [|id ids IH]; intros n; [done|]. cbn [release_loop].
  assert (Hr : release_stale no_pub ctx t id n s = (Ok n, s)).
  { unfold release_stale. destruct (jobs s.1 !! id) as [j|] eqn:Hj; [|done]. destruct (bool_decide _ && _) eqn:Eb; [|done].
    apply andb_prop in Eb as [Ha%bool_decide_eq_true Hx]. destruct (ExpiresAt j) as [x|] eqn:Ex; [|done].
    apply Z.ltb_lt in Hx. pose proof (Hn id j x Hj Ha Ex). lia. }
  by rewrite (st_run _ _ _ _ _ Hr).
Qed.

(** A turn of the poller on an engine without stale claims: the next due job is
    claimed, run and reported on; no other job is touched. *)
Lemma turn_spec p ctx t t' delay last s :
  ids_ok s.1 → no_stale t s.1 →
  (Run_turn no_pub p ctx t t' delay (last, s)).2 =
  match candidates (p_Queue p) t s.1 with
  | [] => s
  | j :: _ => (set_jobs (<[ID j := processed (p_Handlers p) t' delay (claimed_job (p_WorkerID p) t (t + ttlFor (ID j) s.1) j)]> (jobs s.1)) s.1, s.2)
  end.
Proof.
  intros Hid Hn. unfold Run_turn.
  assert (Hs : (if stale_due p last t then (Some t, (ReleaseStaleClaims no_pub ctx t s).2) else (last, s)) =
    (if stale_due p last t then Some t else last, s)) by (rewrite release_none by done; by destruct (stale_due p last t)).
  rewrite Hs, (Claim_none ctx (p_Queue p) (p_WorkerID p) t s Hid). destruct (candidates (p_Queue p) t s.1) as [|j rest]; [done|].
  cbv beta zeta iota. rewrite process_spec; [|cbn; by rewrite lookup_insert_eq|done]. cbn [snd fst ID claimed_job].
  unfold set_jobs. cbn [jobs claimTTL ttls seq]. by rewrite insert_insert_eq.
Qed.

(** ** Jobs that always fail *)

(** Turns with the time of the claim, of the report and the delay; each claim
    comes when the retry is due. *)
Fixpoint spaced (from : Z) (turns : list (Z * Z * Z)) : Prop :=
  match turns with
  | [] => True
  | (t, t', d) :: turns => from ≤ t ∧ t ≤ t' ∧ 0 ≤ d ∧ spaced (t' + d) turns
  end.

Definition run_turns (p : Poller) (ctx : Ctx) (turns : list (Z * Z * Z)) (x : option Z * (Engine * W)) : option Z * (Engine * W) :=
  foldl (λ x '(t, t', d), Run_turn no_pub p ctx t t' d x) x turns.

Lemma single_candidate queue t e j :
  jobs e = {[ID j := j]} → eligible queue t j = true → candidates queue t e = [j].
Proof.
  intros Hj He. assert (Hall : all_jobs e = [j]).
  { unfold all_jobs. rewrite Hj, dom_singleton_L.
    assert (Ho : range_order 0 {[ID j]} = [ID j]) by (apply Permutation_singleton_r; by rewrite range_perm, elements_singleton).
    rewrite Ho. cbn. by rewrite lookup_singleton_eq. }
  unfold candidates. rewrite Hall, filter_cons, decide_True by done. done.
Qed.

Lemma turn_single p ctx t t' d last e w j :
  jobs e = {[ID j := j]} → eligible (p_Queue p) t j = true →
  (Run_turn no_pub p ctx t t' d (last, (e, w))).2 =
  (set_jobs {[ID j := processed (p_Handlers p) t' d (claimed_job (p_WorkerID p) t (t + ttlFor (ID j) e) j)]} e, w).
Proof.
  intros Hj He. rewrite turn_spec; cbn [fst snd].
  - rewrite (single_candidate _ _ _ j) by done. by rewrite Hj, insert_singleton_eq.
  - intros id k. rewrite Hj. by intros [<- <-]%lookup_singleton_Some.
  - intros id k x. rewrite Hj. intros [<- <-]%lookup_singleton_Some. by rewrite (eligible_pending _ _ _ He).
Qed.

Definition always_fails (h : Job → outcome) (msg : string) : Prop := ∀ j, runHandler (h j) = Some msg.

Lemma failing_turns p ctx h msg turns : ∀ last e w j,
  jobs e = {[ID j := j]} → p_Handlers p !! Type_ j = Some h → always_fails h msg →
  jstatus j = StatusPending → Queue j = p_Queue p → 0 ≤ Attempts j → MaxAttempts j < 2 ^ 63 →
  Attempts j + Z.of_nat (length turns) = MaxAttempts j → turns ≠ [] →
  ∀ from, spaced from turns → after (ScheduledAt j) from = false → after (NextRunAt j) from = false →
  ∃ j', (run_turns p ctx turns (last, (e, w))).2 = (set_jobs {[ID j := j']} e, w) ∧
    jstatus j' = StatusFailed ∧ Attempts j' = MaxAttempts j ∧ Error j' = msg ∧ ID j' = ID j.
Proof.
  induction turns as [|[[t t'] d] turns IH]; intros last e w j Hj Hh Hf Hp Hq Ha Hmax Hcount Hne from Hsp Hsc Hnx; [done|].
  destruct Hsp as (Ht & Ht' & Hd & Hsp). cbn [length] in Hcount.
  assert (Hlater : ∀ o, after o from = false → after o t = false).
  { intros [x|]; cbn; [|done]. rewrite !Z.ltb_ge. lia. }
  assert (He : eligible (p_Queue p) t j = true).
  { unfold eligible. by rewrite Hq, String.eqb_refl, bool_decide_eq_true_2, !Hlater by done. }
  cbn [run_turns foldl]. pose proof (turn_single p ctx t t' d last e w j Hj He) as Hturn.
  destruct (Run_turn no_pub p ctx t t' d (last, (e, w))) as [last1 s1]. cbn [snd] in Hturn. subst s1.
  set (j1 := claimed_job (p_WorkerID p) t (t + ttlFor (ID j) e) j) in *.
  assert (Ej1 : processed (p_Handlers p) t' d j1 =
    if Attempts j + 1 <? MaxAttempts j then released_job msg t' (Some (t' + d)) j1 else ended_job StatusFailed msg (Result j1) t' j1).
  { unfold processed. cbn [Type_ j1 claimed_job Attempts MaxAttempts]. rewrite Hh, Hf. rewrite int64_small by lia. done. }
  destruct (Z.ltb_spec (Attempts j + 1) (MaxAttempts j)) as [Hlt|Hge].
  - rewrite Ej1. set (j2 := released_job msg t' (Some (t' + d)) j1) in *.
    destruct (IH last1 (set_jobs {[ID j := j2]} e) w j2) with (from := t' + d) as (j' & E & Hst & Hat & Her & Hid); try done.
    + cbn. rewrite int64_small; lia.
    + cbn. rewrite int64_small by lia. lia.
    + intros ->. cbn in Hcount. lia.
    + cbn. destruct (ScheduledAt j) as [x|]; [|done]. cbn in Hsc |- *. rewrite Z.ltb_ge in *. lia.
    + cbn. apply Z.ltb_ge. lia.
    + exists j'. split; [|done]. etrans; [exact E|]. done.
  - rewrite Ej1. destruct turns as [|x turns]; [|cbn [length] in Hcount; lia]. cbn. eexists. split; [done|]. cbn. rewrite int64_small by lia.
    split_and!; done.
Qed.

Lemma idle_turn p ctx t t' d last e w id j :
  ID j = id → jstatus j = StatusFailed →
  (Run_turn no_pub p ctx t t' d (last, (set_jobs {[id := j]} e, w))).2 = (set_jobs {[id := j]} e, w).
Proof.
  intros Hid Hst. assert (Hids : ids_ok (set_jobs {[id := j]} e)) by (intros i k; cbn; by intros [<- <-]%lookup_singleton_Some).
  rewrite turn_spec; [|done|]; cbn [fst snd].
  - destruct (candidates (p_Queue p) t (set_jobs {[id := j]} e)) as [|k rest] eqn:Ec; [done|]. exfalso.
    assert (Hk : k ∈ candidates (p_Queue p) t (set_jobs {[id := j]} e)) by (rewrite Ec; left).
    apply elem_candidates in Hk as [Hk He]; [|done]. cbn in Hk. apply lookup_singleton_Some in Hk as [_ <-].
    apply eligible_pending in He. congruence.
  - intros i k x. cbn. intros [<- <-]%lookup_singleton_Some. congruence.
Qed.

(** A job whose handler always fails, by an error or a panic, is tried
    exactly [MaxAttempts] times when its retries are polled as they fall due,
    and then ends as failed with the last error; the poller's later turns leave
    it so. *)
Theorem failing_job_ends p ctx h msg turns more last e w j from :
  jobs e = {[ID j := j]} → p_Handlers p !! Type_ j = Some h → always_fails h msg →
  jstatus j = StatusPending → Queue j = p_Queue p → Attempts j = 0 → 1 ≤ MaxAttempts j < 2 ^ 63 →
  Z.of_nat (length turns) = MaxAttempts j → spaced from turns → after (ScheduledAt j) from = false → after (NextRunAt j) from = false →
  ∃ j', (run_turns p ctx (turns ++ more) (last, (e, w))).2 = (set_jobs {[ID j := j']} e, w) ∧
    jstatus j' = StatusFailed ∧ Attempts j' = MaxAttempts j ∧ Error j' = msg.
Proof.
  intros Hj Hh Hf Hp Hq Ha Hmax Hcount Hsp Hsc Hnx.
  destruct (failing_turns p ctx h msg turns last e w j Hj Hh Hf Hp Hq ltac:(lia) ltac:(lia) ltac:(lia) ltac:(by intros ->; cbn in Hcount; lia) from Hsp Hsc Hnx)
    as (j' & E & Hst & Hat & Her & Hid).
  exists j'. split; [|done]. unfold run_turns in *. rewrite foldl_app. destruct (foldl _ (last, (e, w)) turns) as [last1 s1]. cbn in E. subst s1.
  revert last1. induction more as [|[[t t'] d] more IH]; intros last1; [done|]. cbn [foldl].
  assert (Hturn : (Run_turn no_pub p ctx t t' d (last1, (set_jobs {[ID j := j']} e, w))).2 = (set_jobs {[ID j := j']} e, w)).
  { by apply idle_turn. }
  destruct (Run_turn no_pub p ctx t t' d (last1, _)) as [last2 s2]. cbn in Hturn. subst s2. apply IH.
Qed.

End turn.
