(* ===== verification/JobExamples.v ===== *)
(** * Runs of the job engine

    Witnesses of the theorems of JobProps and Poller, and runs in which a job is
    handled in ways the interface does not speak of. *)

From S2P Require Import Prelude StreamWire Domain Jobs JobProps Poller.

Local Open Scope Z_scope.

#[local] Existing Instance elements_order.

Abbreviation eng := (Engine * unit)%type.
Abbreviation nopub := (None : option (JobPublisher unit)).

Definition step (t : Z) (o : job_op) (s : eng) : eng := job_do nopub Background t o s.

Definition mail (priority max : Z) : job_op := OpEnqueue (mkEnqueueOpts "mail" "send" None priority max 100 None).

(** Two jobs, the second more urgent. *)
Definition two : eng := step 2 (mail 1 1) (step 1 (mail 5 3) (New, tt)).
Definition claimed_two : eng := step 3 (OpClaim "mail" "w1") two.

Lemma two_run : jrun nopub 2 2 two.
Proof. apply (jrun_step nopub 1 1 2); [|lia]. apply (jrun_step nopub 0 0 1); [|lia]. constructor. Qed.

Lemma claimed_two_run : jrun nopub 3 3 claimed_two.
Proof. apply (jrun_step nopub 2 2 3); [apply two_run|lia]. Qed.


Lemma job_lifecycle_witness :
  let s' := step 4 (OpCancel "job_1") claimed_two in
  ∃ j', jobs s'.1 !! "job_1" = Some j' ∧ jstatus j' = StatusCancelled ∧ can_move StatusPending StatusCancelled = true.
Proof.
  pose proof (proj1 (job_lifecycle nopub 3 3 4 Background (OpCancel "job_1") claimed_two claimed_two_run ltac:(lia) ltac:(lia)) "job_1" _ ltac:(vm_compute; reflexivity))
    as (j' & Hj' & Hm & _).
  exists j'. split; [exact Hj'|]. assert (jstatus j' = StatusCancelled) as E; [|split; [exact E|reflexivity]].
  vm_compute in Hj'. injection Hj' as <-. reflexivity.
Defined.

Lemma lease_exclusive_witness :
  let s' := step 50 OpReleaseStale (step 20 (OpClaim "mail" "w2") (step 10 (OpHeartbeat "job_2") claimed_two)) in
  leased s'.1 "job_2" "w1" 103.
Proof.
  apply (lease_exclusive nopub [(Background, 10, OpHeartbeat "job_2"); (Background, 20, OpClaim "mail" "w2"); (Background, 50, OpReleaseStale)]
    3 3 claimed_two _ 50 "job_2" "w1" 103 claimed_two_run).
  - cbn. lia.
  - repeat (apply ops_cons; [lia|]). apply ops_nil.
  - eexists _, 103. split; [vm_compute; reflexivity|]. repeat split. lia.
  - lia.
  - repeat constructor; cbn; tauto.
Defined.

Lemma claim_spec_witness :
  ∃ j j', (Claim nopub Background "mail" "w1" 3 two).1 = Ok (Some j') ∧ jobs two.1 !! ID j = Some j ∧ Priority j = 1 ∧ Attempts j' = 1.
Proof.
  pose proof (claim_spec nopub 2 2 3 Background "mail" "w1" two two_run ltac:(lia) ltac:(lia) eq_refl) as H.
  assert (Ev : (Claim nopub Background "mail" "w1" 3 two).1 = Ok (jobs claimed_two.1 !! "job_2")) by (vm_compute; reflexivity).
  destruct (Claim nopub Background "mail" "w1" 3 two) as [r s']. cbn [fst] in Ev. subst r.
  destruct (jobs claimed_two.1 !! "job_2") as [j'|] eqn:Ej; [|vm_compute in Ej; discriminate Ej].
  destruct H as (j & Hj & He & Hmin & Ej' & Ha & _ & _). exists j, j'. split; [reflexivity|]. split; [exact Hj|].
  vm_compute in Ej. injection Ej as <-. subst. rewrite Ha. assert (Hp : Priority j = 1) by (injection Ej'; congruence).
  assert (Hat : Attempts j + 1 = 1) by (rewrite <-Ha; reflexivity). split; [exact Hp|exact Hat].
Defined.

Lemma attempts_bounded_witness :
  ∃ j, jobs (step 5 (OpFail "job_2" (mkFailOpts "boom" true) 10) claimed_two).1 !! "job_2" = Some j ∧ jstatus j = StatusFailed ∧ Attempts j ≤ MaxAttempts j.
Proof.
  eexists. split; [vm_compute; reflexivity|]. split; [reflexivity|].
  assert (C : calm nopub 4 5 (step 5 (OpFail "job_2" (mkFailOpts "boom" true) 10) claimed_two)).
  { apply (calm_step nopub 3 3 5); [|lia|discriminate]. apply (calm_step nopub 2 2 3); [|lia|discriminate].
    apply (calm_step nopub 1 1 2); [|lia|discriminate]. apply (calm_step nopub 0 0 1); [|lia|discriminate]. constructor. }
  exact (attempts_bounded nopub 4 5 _ "job_2" _ C ltac:(lia) ltac:(vm_compute; reflexivity)).
Defined.

Definition failing : Poller := mkPoller "mail" "w1" {["send" := λ _, HPanic "nil map"]} 0.

Lemma failing_job_ends_witness :
  let s := step 1 (mail 5 3) (New, tt) in
  let turns := [(2, 3, 10); (13, 14, 20); (40, 41, 30)] in
  ∃ j', (run_turns failing Background (turns ++ [(100, 101, 0)]) (None, s)).2 = (set_jobs {["job_1" := j']} s.1, tt) ∧
    jstatus j' = StatusFailed ∧ Attempts j' = 3 ∧ Error j' = "panic: nil map".
Proof.
  set (s := step 1 (mail 5 3) (New, tt)).
  exact (failing_job_ends failing Background (λ _, HPanic "nil map") "panic: nil map" [(2, 3, 10); (13, 14, 20); (40, 41, 30)] [(100, 101, 0)] None s.1 tt
    (mkJob "job_1" "mail" "send" StatusPending None None "" "" 5 0 3 1 1 None None None None None None) 2
    ltac:(vm_compute; reflexivity) ltac:(vm_compute; reflexivity) (λ _, eq_refl) eq_refl eq_refl eq_refl ltac:(cbn; lia) ltac:(reflexivity)
    ltac:(cbn; lia) eq_refl eq_refl).
Defined.

(** ** A job that takes its worker down *)

Lemma release_single t e j x :
  jobs e = {[ID j := j]} → jstatus j = StatusActive → ExpiresAt j = Some x → x < t →
  step t OpReleaseStale (e, tt) = (set_jobs {[ID j := released_job (Error j) t (NextRunAt j) j]} e, tt).
Proof.
  intros Hj Ha Hx Hlt. cbn [step job_do]. unfold step, job_do, ReleaseStaleClaims. rewrite (st_run engine_state _ _ e (e, tt)) by done.
  rewrite Hj, dom_singleton_L. change (range_order 0 {[ID j]}) with (elements ({[ID j]} : gset string)). rewrite elements_singleton. cbn [release_loop].
  unfold mbind, st_bind, release_stale. cbn [fst]. rewrite Hj, lookup_singleton_eq, Ha, Hx, bool_decide_eq_true_2, (proj2 (Z.ltb_lt _ _)) by done.
  cbn [andb]. rewrite (transition_none Background StatusActive StatusPending) by done. unfold mbind, st_bind, put_job, modify, mret, st_ret. cbn [fst snd].
  rewrite publish_none. cbn [fst snd set_jobs jobs]. unfold set_jobs. cbn [jobs claimTTL ttls seq]. by rewrite Hj, insert_singleton_eq.
Qed.

Definition crash_job (k u : Z) : Job :=
  mkJob "job_1" "mail" "send" StatusPending None None "" "" 5 k 1 1 u None None None None None None.

Lemma crash_round k u e t :
  0 ≤ k < 2 ^ 62 → jobs e = {["job_1" := crash_job k u]} → 0 < ttlFor "job_1" e →
  let t' := t + ttlFor "job_1" e + 1 in
  step t' OpReleaseStale (step t (OpClaim "mail" "w") (e, tt)) = (set_jobs {["job_1" := crash_job (k + 1) t']} e, tt).
Proof.
  intros Hk Hj Httl t'. unfold step at 2. cbn [job_do].
  assert (Hids : ids_ok e) by (intros i j; rewrite Hj; by intros [<- <-]%lookup_singleton_Some).
  rewrite (Claim_none Background "mail" "w" t (e, tt)) by done.
  rewrite (single_candidate "mail" t e (crash_job k u)) by done. cbn zeta. cbn [snd fst ID crash_job].
  rewrite Hj, insert_singleton_eq. rewrite (release_single t' _ (claimed_job "w" t (t + ttlFor "job_1" e) (crash_job k u)) (t + ttlFor "job_1" e)); [|done..|unfold t'; lia].
  unfold released_job, claimed_job, crash_job, set_jobs. cbn. by rewrite int64_small by lia.
Qed.

(** The bound on attempts does not hold for a job that takes its worker down
    with it: when nobody is left to report, only the release of stale claims
    returns the job, without looking at [MaxAttempts].  A job that may run once
    runs any number of times and is pending again each time. *)
Theorem crashing_job_never_ends (k : nat) :
  Z.of_nat k < 2 ^ 61 →
  ∃ n t s j, jrun nopub n t s ∧ jobs s.1 !! "job_1" = Some j ∧ MaxAttempts j = 1 ∧ Attempts j = Z.of_nat k ∧ jstatus j = StatusPending.
Proof.
  intros Hk.
  assert (H : ∃ t u e, jrun nopub (1 + 2 * Z.of_nat k) t (e, tt) ∧ jobs e = {["job_1" := crash_job (Z.of_nat k) u]} ∧ ttlFor "job_1" e = 100).
  { induction k as [|k IH].
    - exists 1, 1, (step 1 (mail 5 1) (New, tt)).1. split_and!; [|vm_compute; reflexivity..].
      change ((step 1 (mail 5 1) (New, tt)).1, tt) with (step 1 (mail 5 1) (New, tt)). apply (jrun_step nopub 0 0 1); [constructor|lia].
    - destruct IH as (t & u & e & Hrun & Hj & Httl); [lia|]. pose proof (crash_round (Z.of_nat k) u e t ltac:(lia) Hj ltac:(lia)) as Hr. cbn zeta in Hr.
      exists (t + ttlFor "job_1" e + 1), (t + ttlFor "job_1" e + 1), (set_jobs {["job_1" := crash_job (Z.of_nat k + 1) (t + ttlFor "job_1" e + 1)]} e).
      split_and!; [|cbn; do 2 f_equal; lia|done]. rewrite <-Hr. replace (1 + 2 * Z.of_nat (S k)) with (1 + 2 * Z.of_nat k + 1 + 1) by lia.
      apply (jrun_step nopub _ t); [|lia]. by apply (jrun_step nopub _ t). }
  destruct H as (t & u & e & Hrun & Hj & _). exists (1 + 2 * Z.of_nat k), t, (e, tt), (crash_job (Z.of_nat k) u).
  cbn [fst]. rewrite Hj, lookup_singleton_eq. done.
Qed.

Lemma crashing_job_never_ends_witness :
  ∃ n t s j, jrun nopub n t s ∧ jobs s.1 !! "job_1" = Some j ∧ MaxAttempts j = 1 ∧ Attempts j = Z.of_nat 1000 ∧ jstatus j = StatusPending.
Proof. exact (crashing_job_never_ends 1000 ltac:(lia)). Defined.

(** ** Reports by workers that lost their claim *)

Definition worker_of (id : string) (s : eng) : option (Status * string) := (λ j, (jstatus j, ClaimedBy j)) <$> jobs s.1 !! id.

(** A worker whose claim expired ends the job another worker is running. *)
Example late_report_ends_foreign_claim :
  let s1 := step 200 (OpClaim "mail" "w2") (step 199 OpReleaseStale claimed_two) in
  worker_of "job_2" s1 = Some (StatusActive, "w2") ∧
  worker_of "job_2" (step 201 (OpComplete "job_2" None) s1) = Some (StatusSucceeded, "w2") ∧
  (Complete nopub Background "job_2" None 202 (step 201 (OpComplete "job_2" None) s1)).1 =
    Err (TransitionError "succeeded" "succeeded" None).
Proof. vm_compute. auto. Qed.

(** A second report brings a job that failed for good back, with its completion
    time. *)
Example late_report_revives_failed_job :
  let s1 := step 4 (OpClaim "mail" "w1") (step 3 (OpCancel "job_2") two) in
  let s2 := step 5 (OpFail "job_1" (mkFailOpts "no handler" false) 0) s1 in
  let s3 := step 6 (OpFail "job_1" (mkFailOpts "late" true) 10) s2 in
  worker_of "job_1" s2 = Some (StatusFailed, "w1") ∧ worker_of "job_1" s3 = Some (StatusPending, "") ∧
  (CompletedAt <$> jobs s3.1 !! "job_1") = Some (Some 5).
Proof. vm_compute. auto. Qed.

(** A result that cannot be marshalled: the caller gets an error, the job is
    succeeded all the same, without a result. *)
Example unmarshalable_result_succeeds :
  let '(r, s) := Complete nopub Background "job_2" (Some None) 5 claimed_two in
  r = Err (ErrValidation "marshal result") ∧ worker_of "job_2" s = Some (StatusSucceeded, "w1").
Proof. vm_compute. auto. Qed.
