(* ===== verification/Capacity.v ===== *)
(** * The capacity gate (go/transport/cmdsurface/capacity.go)

    A service's in-flight slots and its queue.  Tickets are pointers in the code
    and indices here: the heap holds every ticket ever issued, in the order of
    arrival, and the queue the indices of those that wait.  Each method runs
    under the gate's mutex and is one step; [now] is the clock it reads. *)

From S2P Require Import Prelude.
From stdpp Require Import sorting.

Local Open Scope Z_scope.

Record Concurrency := mkConcurrency { MaxInflight : Z; MaxQueue : Z }.

Definition DefaultConcurrency : Concurrency := mkConcurrency 32 64.

Definition minOverloadRetry : Z := 10 ^ 9.
Definition maxOverloadRetry : Z := 30 * 10 ^ 9.

(** [ready]: the ticket started in the queue; its channel is closed when it is
    [granted]. *)
Record capTicket := mkTicket { ready : bool; granted : bool; done : bool; since : Z }.

#[export] Instance capTicket_eq_dec : EqDecision capTicket.
Proof. solve_decision. Defined.

Record capacity := mkCapacity {
  maxInflight : Z;
  maxQueue : Z;
  inflight : Z;
  queue : list nat;
  avgHold : Z;
  heap : list capTicket;
}.

(** [parallel]: how many invocations the runner runs at once, 0 for no bound. *)
Definition newCapacity (cfg : Concurrency) (parallel : Z) : capacity :=
  let n := Z.max (MaxInflight cfg) 1 in
  let n := if 0 <? parallel then Z.min n parallel else n in
  mkCapacity n (Z.max (MaxQueue cfg) 0) 0 [] 0 [].

Definition set_queue (q : list nat) (c : capacity) : capacity :=
  mkCapacity (maxInflight c) (maxQueue c) (inflight c) q (avgHold c) (heap c).
Definition set_inflight (n : Z) (c : capacity) : capacity :=
  mkCapacity (maxInflight c) (maxQueue c) n (queue c) (avgHold c) (heap c).
Definition set_avgHold (d : Z) (c : capacity) : capacity :=
  mkCapacity (maxInflight c) (maxQueue c) (inflight c) (queue c) d (heap c).
Definition set_heap (h : list capTicket) (c : capacity) : capacity :=
  mkCapacity (maxInflight c) (maxQueue c) (inflight c) (queue c) (avgHold c) h.

(** Integer division truncates, and the product of durations wraps. *)
Definition retryAfter (c : capacity) : Z :=
  let waves := int64 (Z.quot (maxQueue c) (maxInflight c) + 1) in
  Z.min (Z.max (int64 (avgHold c * waves)) minOverloadRetry) maxOverloadRetry.

(** A ticket, or the retry hint of a refusal. *)
Definition take (now : Z) (c : capacity) : (nat + Z) * capacity :=
  let id := length (heap c) in
  if (inflight c <? maxInflight c) && bool_decide (queue c = []) then
    (inl id, set_inflight (inflight c + 1) (set_heap (heap c ++ [mkTicket false true false now]) c))
  else if Z.of_nat (length (queue c)) <? maxQueue c then
    (inl id, set_queue (queue c ++ [id]) (set_heap (heap c ++ [mkTicket true false false 0]) c))
  else (inr (retryAfter c), c).

(** How long a run held its slot, as the moving average takes it in. *)
Definition held_for (d : Z) (c : capacity) : capacity :=
  set_avgHold (if avgHold c =? 0 then d else int64 (avgHold c + Z.quot (int64 (d - avgHold c)) 8)) c.

Definition grant (now : Z) (t : nat) (h : list capTicket) : list capTicket :=
  match h !! t with Some k => <[t := mkTicket (ready k) true (done k) now]> h | None => h end.

(** A freed slot passes to the head of the queue. *)
Definition pass_slot (now : Z) (c : capacity) : capacity :=
  match queue c with
  | [] => set_inflight (inflight c - 1) c
  | next :: q => set_queue q (set_heap (grant now next (heap c)) c)
  end.

Definition drop (now : Z) (ran : bool) (t : nat) (c : capacity) : capacity :=
  match heap c !! t with
  | None => c
  | Some k =>
      if done k then c
      else
        let c := set_heap (<[t := mkTicket (ready k) (granted k) true (since k)]> (heap c)) c in
        if granted k then pass_slot now (if ran then held_for (time_sub now (since k)) c else c)
        else set_queue (filter (λ x, x ≠ t) (queue c)) c
  end.

Definition release (now : Z) (t : nat) (c : capacity) : capacity := drop now true t c.

(** What [wait] does next: it goes on with the slot, gives up, or blocks.
    [pick] is the choice of the [select] when both cases are ready. *)
Definition wait (pick ctx : bool) (now : Z) (t : nat) (c : capacity) : option (bool * capacity) :=
  match heap c !! t with
  | None => None
  | Some k =>
      if negb (ready k) then Some (true, c)
      else if granted k && (pick || negb ctx) then Some (true, c)
      else if ctx then Some (false, drop now false t c)
      else None
  end.

(** ** The gate's invariant *)

Definition holding (k : capTicket) : bool := granted k && negb (done k).
Definition waiting (k : capTicket) : bool := negb (granted k) && negb (done k).

Fixpoint holders (h : list capTicket) : Z :=
  match h with [] => 0 | k :: h => Z.b2z (holding k) + holders h end.

Lemma holders_app h h' : holders (h ++ h') = holders h + holders h'.
Proof. induction h; cbn; lia. Qed.

Lemma holders_insert h t k k' : h !! t = Some k → holders (<[t := k']> h) = holders h - Z.b2z (holding k) + Z.b2z (holding k').
Proof.
  revert t. induction h as [|x h IH]; intros [|t] H; [done|done| |].
  - injection H as ->. cbn. lia.
  - change (<[S t := k']> (x :: h)) with (x :: <[t := k']> h). cbn [holders]. rewrite (IH t H). lia.
Qed.

Lemma holders_nonneg h : 0 ≤ holders h.
Proof. induction h as [|x h IH]; cbn; [done|]. destruct (holding x); cbn; lia. Qed.

Lemma holders_pos h t k : h !! t = Some k → holding k = true → 1 ≤ holders h.
Proof.
  revert t. induction h as [|x h IH]; intros [|t] H Hk; cbn in *; simplify_eq.
  - rewrite Hk. pose proof (holders_nonneg h). cbn. lia.
  - specialize (IH t H Hk). destruct (holding x); cbn; lia.
Qed.

(** [free] slots are counted as taken although nobody holds them: between the
    end of a run and the passing of its slot. *)
Record cap_inv (free : Z) (c : capacity) : Prop := {
  co_inflight : inflight c = holders (heap c) + free;
  co_bound : inflight c ≤ maxInflight c;
  co_max : 1 ≤ maxInflight c;
  co_queue : Z.of_nat (length (queue c)) ≤ maxQueue c;
  (** no slot is free while somebody waits *)
  co_busy : queue c ≠ [] → inflight c = maxInflight c;
  (** the queue is the waiting tickets, in the order of arrival *)
  co_sorted : StronglySorted lt (queue c);
  co_waiting t : t ∈ queue c ↔ ∃ k, heap c !! t = Some k ∧ waiting k = true;
  (** and nobody who came later was let in before them *)
  co_fifo t u k : t ∈ queue c → heap c !! u = Some k → granted k = true → (u < t)%nat;
}.

Abbreviation cap_ok := (cap_inv 0).

Lemma newCapacity_ok cfg parallel : cap_ok (newCapacity cfg parallel).
Proof.
  unfold newCapacity. split; cbn; try done.
  - destruct (0 <? parallel) eqn:E; [apply Z.ltb_lt in E|]; lia.
  - destruct (0 <? parallel) eqn:E; [apply Z.ltb_lt in E|]; lia.
  - lia.
  - constructor.
  - intros t. split; [by intros ?%not_elem_of_nil|intros (k & ? & _); by rewrite lookup_nil in *].
Qed.

Lemma sorted_snoc l n : StronglySorted lt l → Forall (λ t, (t < n)%nat) l → StronglySorted lt (l ++ [n]).
Proof.
  induction 1 as [|t l Hl IH Ht]; intros Hn; cbn; [repeat constructor|]. apply Forall_cons in Hn as [Hn Hf].
  constructor; [auto|]. apply Forall_app. split; [done|by repeat constructor].
Qed.

Lemma sorted_filter (P : nat → Prop) `{!∀ x, Decision (P x)} l : StronglySorted lt l → StronglySorted lt (filter P l).
Proof.
  induction 1 as [|t l Hl IH Ht]; [constructor|]. rewrite filter_cons. case_decide; [|done]. constructor; [done|].
  apply Forall_forall. intros x [_ Hx]%list_elem_of_filter. by eapply Forall_forall in Ht.
Qed.

Lemma take_ok now c : cap_ok c → cap_ok (take now c).2.
Proof.
  intros I. unfold take. destruct ((_ <? _) && _) eqn:E1; [|destruct (_ <? maxQueue c) eqn:E2]; cbn; [| |done].
  - apply andb_true_iff in E1 as [E1%Z.ltb_lt Eq%bool_decide_eq_true]. split; cbn; try apply I.
    + rewrite holders_app, (co_inflight _ _ I). cbn. lia.
    + lia.
    + by rewrite Eq.
    + intros t. rewrite (co_waiting _ _ I). split; intros (k & Hk & Hw).
      * exists k. split; [by apply lookup_app_l_Some|done].
      * apply lookup_app_Some in Hk as [Hk|[_ Hk]]; [by exists k|]. by apply list_lookup_singleton_Some in Hk as [_ <-].
    + rewrite Eq. by intros t u k ?%not_elem_of_nil.
  - apply Z.ltb_lt in E2. assert (Hlt : Forall (λ t, (t < length (heap c))%nat) (queue c)).
    { apply Forall_forall. intros t (k & Hk & _)%(co_waiting _ _ I). by eapply lookup_lt_Some. }
    split; cbn; try apply I.
    + rewrite holders_app, (co_inflight _ _ I). cbn. lia.
    + rewrite length_app. cbn. lia.
    + intros _. destruct (decide (queue c = [])) as [Hq|Hq]; [|by apply I].
      rewrite (bool_decide_eq_true_2 _ Hq), andb_true_r in E1. apply Z.ltb_ge in E1. pose proof (co_bound _ _ I). lia.
    + by apply sorted_snoc; [apply I|].
    + intros t. rewrite elem_of_app, (co_waiting _ _ I), list_elem_of_singleton. split.
      * intros [(k & Hk & Hw)| ->]; [exists k; split; [by apply lookup_app_l_Some|done]|].
        eexists. split; [by rewrite lookup_app_r, Nat.sub_diag|done].
      * intros (k & Hk & Hw). apply lookup_app_Some in Hk as [Hk|[? Hk]]; [left; by exists k|].
        apply list_lookup_singleton_Some in Hk as [? _]. right. lia.
    + intros t u k [Ht|Ht%list_elem_of_singleton]%elem_of_app Hu Hg; apply lookup_app_Some in Hu as [Hu|[? Hu]].
      * by eapply (co_fifo _ _ I).
      * apply list_lookup_singleton_Some in Hu as [_ <-]. done.
      * subst. by eapply lookup_lt_Some.
      * apply list_lookup_singleton_Some in Hu as [_ <-]. done.
Qed.

Lemma queue_bound free c t : cap_inv free c → t ∈ queue c → ∃ k, heap c !! t = Some k ∧ waiting k = true.
Proof. intros I. by apply (co_waiting _ _ I). Qed.

Lemma held_for_ok free d c : cap_inv free c → cap_inv free (held_for d c).
Proof. intros []. by split. Qed.

(** A run is over: its slot is free. *)
Lemma end_run c t k :
  cap_ok c → heap c !! t = Some k → granted k = true → done k = false →
  cap_inv 1 (set_heap (<[t := mkTicket (ready k) (granted k) true (since k)]> (heap c)) c).
Proof.
  intros I Hk Hg Hd. assert (Hlt := lookup_lt_Some _ _ _ Hk). split; cbn; try apply I.
  - rewrite (holders_insert _ _ _ _ Hk), (co_inflight _ _ I). unfold holding. rewrite Hg, Hd. cbn. lia.
  - intros u. rewrite (co_waiting _ _ I). destruct (decide (u = t)) as [->|Hne]; [|by rewrite list_lookup_insert_ne by done].
    rewrite list_lookup_insert_eq, Hk by done. unfold waiting. split; intros (k' & [= <-] & Hw); cbn in Hw; by rewrite Hg in Hw.
  - intros u v k' Hu Hv Hg'. destruct (decide (v = t)) as [->|Hne]; [by eapply (co_fifo _ _ I)|].
    rewrite list_lookup_insert_ne in Hv by done. by eapply (co_fifo _ _ I).
Qed.

(** A place in the queue is given up. *)
Lemma withdraw_ok c t k :
  cap_ok c → heap c !! t = Some k → granted k = false → done k = false →
  cap_ok (set_queue (filter (λ x, x ≠ t) (queue c)) (set_heap (<[t := mkTicket (ready k) (granted k) true (since k)]> (heap c)) c)).
Proof.
  intros I Hk Hg Hd. assert (Hlt := lookup_lt_Some _ _ _ Hk). split; cbn; try apply I.
  - rewrite (holders_insert _ _ _ _ Hk), (co_inflight _ _ I). unfold holding. rewrite Hg. cbn. lia.
  - pose proof (co_queue _ _ I). pose proof (length_filter (λ x, x ≠ t) (queue c)). lia.
  - intros H. apply I. intros Hq. apply H. by rewrite Hq.
  - apply sorted_filter, I.
  - intros u. rewrite list_elem_of_filter, (co_waiting _ _ I). destruct (decide (u = t)) as [->|Hne].
    + rewrite list_lookup_insert_eq by done. split; [tauto|intros (k' & [= <-] & Hw)]. unfold waiting in Hw. cbn in Hw. by rewrite andb_false_r in Hw.
    + rewrite list_lookup_insert_ne by done. naive_solver.
  - intros u v k' [_ Hu]%list_elem_of_filter Hv Hg'. destruct (decide (v = t)) as [->|Hne].
    + rewrite list_lookup_insert_eq in Hv by done. injection Hv as <-. cbn in Hg'. congruence.
    + rewrite list_lookup_insert_ne in Hv by done. by eapply (co_fifo _ _ I).
Qed.

Lemma pass_slot_ok now c : cap_inv 1 c → cap_ok (pass_slot now c).
Proof.
  intros I. unfold pass_slot. destruct (queue c) as [|n q] eqn:Eq.
  - pose proof (co_inflight _ _ I). pose proof (co_bound _ _ I). split; cbn; try apply I; [lia|lia|by rewrite Eq].
  - destruct (queue_bound _ _ n I) as (k & Hk & Hw); [rewrite Eq; left|]. unfold grant. rewrite Hk.
    assert (Hlt := lookup_lt_Some _ _ _ Hk). apply andb_true_iff in Hw as [Hg%negb_true_iff Hd%negb_true_iff].
    pose proof (co_sorted _ _ I) as Hs. rewrite Eq in Hs. apply StronglySorted_inv in Hs as [Hs Hn].
    assert (Hin : n ∉ q) by (intros Hin; eapply Forall_forall in Hn; [|done]; lia).
    split; cbn; try apply I.
    + rewrite (holders_insert _ _ _ _ Hk), (co_inflight _ _ I). unfold holding. cbn. rewrite Hg, Hd. cbn. lia.
    + pose proof (co_queue _ _ I) as H. rewrite Eq in H. cbn in H. lia.
    + intros _. apply I. by rewrite Eq.
    + done.
    + intros u. destruct (decide (u = n)) as [->|Hne].
      * rewrite list_lookup_insert_eq by done. split; [done|]. by intros (k' & [= <-] & ?).
      * rewrite list_lookup_insert_ne by done. rewrite <-(co_waiting _ _ I), Eq, elem_of_cons. naive_solver.
    + intros u v k' Hu Hv Hg'. destruct (decide (v = n)) as [->|Hne].
      * by eapply Forall_forall in Hn.
      * rewrite list_lookup_insert_ne in Hv by done. eapply (co_fifo _ _ I); [rewrite Eq; by right|done..].
Qed.

Lemma drop_ok now ran t c : cap_ok c → cap_ok (drop now ran t c).
Proof.
  intros I. unfold drop. destruct (heap c !! t) as [k|] eqn:Hk; [|done]. destruct (done k) eqn:Hd; [done|].
  destruct (granted k) eqn:Hg; cbn [granted].
  - apply pass_slot_ok. pose proof (end_run c t k I Hk Hg Hd) as H. rewrite Hg in H. destruct ran; [by apply held_for_ok|done].
  - pose proof (withdraw_ok c t k I Hk Hg Hd) as H. by rewrite Hg in H.
Qed.

(** ** Any run of the gate *)

Inductive cap_op := OTake (now : Z) | ODrop (now : Z) (ran : bool) (t : nat).

Definition cap_do (c : capacity) (o : cap_op) : capacity :=
  match o with OTake now => (take now c).2 | ODrop now ran t => drop now ran t c end.

Lemma cap_run_ok os c : cap_ok c → cap_ok (foldl cap_do c os).
Proof. revert c. induction os as [|[] os IH]; intros c I; cbn; [done|apply IH; by apply take_ok|apply IH; by apply drop_ok]. Qed.

Lemma take_frame now c : maxInflight (take now c).2 = maxInflight c ∧ maxQueue (take now c).2 = maxQueue c.
Proof. unfold take. by repeat case_match; simplify_eq/=. Qed.

Lemma drop_frame now ran t c : maxInflight (drop now ran t c) = maxInflight c ∧ maxQueue (drop now ran t c) = maxQueue c.
Proof. unfold drop, pass_slot, held_for. by repeat (case_match; simplify_eq/=). Qed.

Lemma cap_run_frame os c : maxInflight (foldl cap_do c os) = maxInflight c ∧ maxQueue (foldl cap_do c os) = maxQueue c.
Proof.
  revert c. induction os as [|[] os IH]; intros c; cbn; [done| |].
  - destruct (IH (take now c).2) as [-> ->]. apply take_frame.
  - destruct (IH (drop now ran t c)) as [-> ->]. apply drop_frame.
Qed.

Lemma retryAfter_bounds c : minOverloadRetry ≤ retryAfter c ≤ maxOverloadRetry.
Proof. unfold retryAfter, minOverloadRetry, maxOverloadRetry. lia. Qed.

Lemma take_refused now c :
  cap_ok c →
  match (take now c).1 with
  | inl t => t = length (heap c) ∧ ∃ k, heap (take now c).2 !! t = Some k ∧ done k = false ∧
               (granted k = true ↔ inflight c < maxInflight c) ∧ (granted k = true ↔ ready k = false)
  | inr d => inflight c = maxInflight c ∧ Z.of_nat (length (queue c)) = maxQueue c ∧ d = retryAfter c ∧ (take now c).2 = c
  end.
Proof.
  intros I. pose proof (co_bound _ _ I). pose proof (co_queue _ _ I). pose proof (co_busy _ _ I) as Hb. unfold take.
  destruct (inflight c <? maxInflight c) eqn:E1; [apply Z.ltb_lt in E1|apply Z.ltb_ge in E1]; cbn [andb].
  - assert (Hq : queue c = []) by (destruct (queue c); [done|]; specialize (Hb ltac:(done)); lia).
    rewrite (bool_decide_eq_true_2 _ Hq). cbn. split; [done|]. eexists. split; [by rewrite lookup_app_r, Nat.sub_diag|]. naive_solver.
  - destruct (_ <? maxQueue c) eqn:E2; [apply Z.ltb_lt in E2|apply Z.ltb_ge in E2]; cbn; [|split_and!; (done || lia)].
    split; [done|]. eexists. split; [by rewrite lookup_app_r, Nat.sub_diag|]. cbn. split_and!; [done| |done]. split; [done|lia].
Qed.


(** ** Waiting ends *)

(** The operations of a run that free a slot. *)
Fixpoint frees (c : capacity) (os : list cap_op) : nat :=
  match os with
  | [] => 0
  | o :: os =>
      match o with
      | ODrop _ _ t => match heap c !! t with Some k => if holding k then 1 else 0 | None => 0 end
      | OTake _ => 0
      end + frees (cap_do c o) os
  end%nat.

Definition granted_at (c : capacity) (t : nat) : Prop := ∃ k, heap c !! t = Some k ∧ granted k = true.

Lemma granted_stays o c t : granted_at c t → granted_at (cap_do c o) t.
Proof.
  intros (k & Hk & Hg). destruct o as [now|now ran u]; cbn.
  - exists k. split; [|done]. unfold take. repeat case_match; simplify_eq/=; try done; by apply lookup_app_l_Some.
  - unfold drop. destruct (heap c !! u) as [j|] eqn:Hj; [|by exists k]. destruct (done j); [by exists k|].
    assert (H : ∃ k', <[u := mkTicket (ready j) (granted j) true (since j)]> (heap c) !! t = Some k' ∧ granted k' = true).
    { destruct (decide (u = t)) as [->|]; [|exists k; by rewrite list_lookup_insert_ne].
      rewrite Hk in Hj. injection Hj as <-. rewrite list_lookup_insert_eq by (by eapply lookup_lt_Some). by eexists. }
    destruct (granted j); [|done]. unfold pass_slot. destruct H as (k' & Hk' & Hg').
    destruct ran; cbn; (destruct (queue c) as [|n q]; cbn; [by exists k'|]); unfold granted_at; cbn; unfold grant;
      (destruct (_ !! n) as [m|] eqn:Hn; [|by exists k']);
      (destruct (decide (n = t)) as [->|]; [|exists k'; by rewrite list_lookup_insert_ne]);
      rewrite list_lookup_insert_eq by (by eapply lookup_lt_Some); by eexists.
Qed.

Lemma granted_run os c t : granted_at c t → granted_at (foldl cap_do c os) t.
Proof. revert c. induction os as [|o os IH]; intros c H; cbn; [done|]. by apply IH, granted_stays. Qed.

Lemma filter_ne_position (u t p : nat) (l : list nat) :
  u ≠ t → l !! p = Some t → ∃ p', (p' ≤ p)%nat ∧ filter (λ x, x ≠ u) l !! p' = Some t.
Proof.
  intros Hne. revert p. induction l as [|x l IH]; intros [|p] H; try done.
  - injection H as ->. exists 0%nat. rewrite filter_cons_True by done. by split.
  - cbn in H. destruct (IH p H) as (p' & Hp' & H'). destruct (decide (x = u)) as [->|Hx].
    + exists p'. rewrite filter_cons_False by naive_solver. split; [lia|done].
    + exists (S p'). rewrite filter_cons_True by done. split; [lia|done].
Qed.

(** A waiting ticket moves up one place for every slot that is freed. *)
Lemma moves_up o c t p :
  cap_ok c → queue c !! p = Some t → (∀ now ran, o ≠ ODrop now ran t) →
  let n := frees c [o] in
  granted_at (cap_do c o) t ∨ ∃ p', (p' + n ≤ p)%nat ∧ queue (cap_do c o) !! p' = Some t.
Proof.
  intros I Hp Hno. destruct o as [now|now ran u]; cbn.
  - right. exists p. split; [lia|]. unfold take. repeat case_match; simplify_eq/=; try done. by apply lookup_app_l_Some.
  - unfold drop. destruct (heap c !! u) as [k|] eqn:Hk; [|right; exists p; split; [lia|done]].
    unfold holding. destruct (done k) eqn:Hd; [right; exists p; split; [destruct (granted k); cbn; lia|done]|].
    assert (Hne : u ≠ t) by (intros ->; by eapply Hno). destruct (granted k) eqn:Hg; cbn.
    + destruct (queue_bound _ _ t I) as (j & Hj & _); [by eapply list_elem_of_lookup_2|].
      unfold pass_slot. destruct ran; cbn; destruct (queue c) as [|n q]; try done; cbn;
        (destruct p as [|p]; [|right; exists p; split; [lia|done]]); injection Hp as ->; left; unfold granted_at, grant; cbn;
        rewrite list_lookup_insert_ne, Hj by done; rewrite list_lookup_insert_eq by (rewrite length_insert; by eapply lookup_lt_Some); by eexists.
    + right. destruct (filter_ne_position u t p (queue c) Hne Hp) as (p' & ? & ?). exists p'. split; [lia|done].
Qed.

(** Nobody waits for ever: a call with [p] calls ahead of it in the queue holds a
    slot once [p + 1] slots were freed, whatever else happens, unless it gives
    its place up. *)
Theorem capacity_no_starvation cfg parallel os os' t p :
  let c := foldl cap_do (newCapacity cfg parallel) os in
  queue c !! p = Some t → Forall (λ o, ∀ now ran, o ≠ ODrop now ran t) os' → (p < frees c os')%nat →
  granted_at (foldl cap_do c os') t.
Proof.
  cbn zeta. pose proof (cap_run_ok os _ (newCapacity_ok cfg parallel)) as I. set (c := foldl _ _ os) in *. clearbody c.
  revert c p I. induction os' as [|o os' IH]; intros c p I Hp Hno Hf; cbn in Hf; [lia|].
  apply Forall_cons in Hno as [Ho Hno]. cbn [foldl].
  destruct (moves_up o c t p I Hp Ho) as [Hg|(p' & Hle & Hp')]; [by apply granted_run|].
  eapply IH; [|exact Hp'|done|]; [destruct o; cbn; [by apply take_ok|by apply drop_ok]|]. cbn in Hle. lia.
Qed.

(** Two slots, two places: the fourth call waits behind the third. *)
Lemma capacity_no_starvation_witness :
  granted_at (foldl cap_do (foldl cap_do (newCapacity (mkConcurrency 2 2) 0) [OTake 0; OTake 1; OTake 2; OTake 3])
    [ODrop 10 true 0; OTake 11; ODrop 12 true 1]) 3.
Proof.
  apply (capacity_no_starvation (mkConcurrency 2 2) 0 [OTake 0; OTake 1; OTake 2; OTake 3] _ 3 1); [reflexivity| |vm_compute; lia].
  repeat constructor; intros ? ?; discriminate.
Defined.
