(* ===== verification/Invocation.v ===== *)
(** * Invocations and callers (go/transport/cmdsurface)

    invocation.go, admitted/surface.go, idempotency_scope.go and the argv of
    runner.go: what a call is, who makes it, and under which names the
    per-caller stores file it.  Fields of [Meta] that no gate reads (request and
    trace ids, the time of the request) are left out; a flag's value is a bool or
    the text [%v] renders it as. *)

From Stdlib Require Import Ascii.
From S2P Require Import Prelude Fingerprint Topics GoStrings.

Local Open Scope Z_scope.

(** ** Surfaces *)

Definition SurfaceCLI := "cli".
Definition SurfaceREST := "rest".
Definition SurfaceWS := "ws".
Definition SurfaceSSE := "sse".
Definition SurfaceRPC := "rpc".
Definition SurfaceMCP := "mcp".
Definition SurfaceWebhook := "webhook".
Definition SurfaceBus := "bus".
Definition SurfaceCron := "cron".
Definition SurfaceLib := "lib".
Definition SurfaceOAuthCB := "oauth-cb".
Definition SurfaceSigned := "signed".
Definition SurfaceFaaS := "faas".
Definition SurfaceSocket := "socket".

Definition AllSurfaces : list string :=
  [SurfaceCLI; SurfaceREST; SurfaceWS; SurfaceSSE; SurfaceRPC; SurfaceMCP; SurfaceWebhook; SurfaceBus; SurfaceCron;
   SurfaceLib; SurfaceOAuthCB; SurfaceSigned; SurfaceFaaS; SurfaceSocket].

Definition IsValid (s : string) : bool := existsb (String.eqb s) AllSurfaces.

Definition isRemote (s : string) : bool := negb (String.eqb s SurfaceCLI) && negb (String.eqb s SurfaceLib).

(** ** Calls *)

Inductive Establishment := EstablishedNone | EstablishedVerified | EstablishedTransport.

#[export] Instance Establishment_eq_dec : EqDecision Establishment.
Proof. solve_decision. Defined.

Record Meta := mkMeta {
  Caller : string;
  Established : Establishment;
  Tenant : string;
  Surface : string;
  IdempotencyKey : string;
  Extra : gmap string string;
}.

Definition Authenticated (m : Meta) : bool :=
  match Established m with EstablishedVerified | EstablishedTransport => true | EstablishedNone => false end.

(** [m.Extra[k]] of an absent key is the empty string. *)
Definition extra (m : Meta) (k : string) : string := default "" (Extra m !! k).

Inductive flag_value := FBool (b : bool) | FText (v : string).

Record Invocation := mkInvocation {
  Path : list string;
  Args : list string;
  Flags : gmap string flag_value;
  inv_Meta : Meta;
  ownArgv : bool;
}.

(** [Data] is its JSON encoding, [Some None] when it has none. *)
Record Result := mkResult {
  ExitCode : Z;
  Stdout : string;
  Stderr : string;
  Data : option (option string);
  Truncated : bool;
  Replayed : bool;
}.

(** [sortedKeys]. *)
Definition sortedKeys {A} (m : gmap string A) : list string := sort_strings (elements (dom m)).

Definition render_flag (k : string) (v : flag_value) : list string :=
  match v with
  | FBool true => ["--" +:+ k]
  | FBool false => []
  | FText v => ["--" +:+ k +:+ "=" +:+ v]
  end.

Definition buildArgs (inv : Invocation) : list string :=
  (Path inv ++ concat ((λ k, match Flags inv !! k with Some v => render_flag k v | None => [] end) <$> sortedKeys (Flags inv)) ++
   (if negb (bool_decide (Args inv = [])) && negb (ownArgv inv) then ["--"] else []) ++ Args inv)%list.

Definition PathKey (path : list string) : string := Join " " path.

(** ** Whose call it is *)

Record callerScope := mkScope { established : Establishment; tenant : string; principal : string; surface : string }.

Definition scopeOf (m : Meta) : callerScope :=
  match Established m with
  | EstablishedVerified => if String.eqb (Caller m) "" then mkScope EstablishedNone "" "" ""
                           else mkScope EstablishedVerified (Tenant m) (Caller m) ""
  | EstablishedTransport => mkScope EstablishedTransport "" "" (Surface m)
  | EstablishedNone => mkScope EstablishedNone "" "" ""
  end.

Definition claimed_host (m : Meta) : string :=
  let host := extra m "remote_addr" in default host (SplitHost host).

(** What [IdempotencyScope] hashes. *)
Definition scope_parts (m : Meta) : list string :=
  let s := scopeOf m in
  match established s with
  | EstablishedVerified => ["verified"; tenant s; principal s]
  | EstablishedTransport => ["transport"; surface s]
  | EstablishedNone =>
      (["claimed"; Surface m; Tenant m; Caller m] ++ (if String.eqb (Caller m) "" then [claimed_host m] else []))%list
  end.

Definition sha_hex (s : string) : string := EncodeToString (sha256.Sum256 (string_bytes s)).

Definition IdempotencyScope (m : Meta) : string := sha_hex (Join NULs (scope_parts m)).

(** What [idempotencyStoreKey] hashes. *)
Definition store_key_material (m : Meta) : string :=
  "served" +:+ String NUL (IdempotencyScope m +:+ String NUL (IdempotencyKey m)).

Definition idempotencyStoreKey (m : Meta) : string := sha_hex (store_key_material m).

Definition idempotencyKeyFlag := "idempotency-key".

Definition without_key (inv : Invocation) : Invocation :=
  mkInvocation (Path inv) (Args inv) (delete idempotencyKeyFlag (Flags inv)) (inv_Meta inv) (ownArgv inv).

Definition idempotencyFingerprint (inv : Invocation) : string := sha_hex (Join NULs (buildArgs (without_key inv))).

(** [admitted.ScopeIdempotencyKey]: the caller's scope, else the environment's. *)
Definition ScopeIdempotencyKey (caller env : option string) (key : string) : string :=
  if String.eqb key "" then ""
  else match (match caller with Some s => Some s | None => match env with Some "" => None | e => e end end) with
       | Some scope => "served:" +:+ sha_hex (scope +:+ String NUL key)
       | None => key
       end.

(** ** Callers are kept apart *)

Lemma sha_hex_length s : String.length (sha_hex s) = 64%nat.
Proof. unfold sha_hex. by rewrite length_EncodeToString, length_Sum256. Qed.

Lemma str_app_inj (a b x y : string) : String.length a = String.length b → a +:+ x = b +:+ y → a = b ∧ x = y.
Proof.
  revert b. induction a as [|c a IH]; intros [|d b] Hl E; cbn in *; try lia; [by split|].
  injection E as -> E. apply IH in E as [-> ->]; [by split|lia].
Qed.

Lemma String_tail c a b : String c a = String c b → a = b.
Proof. by intros [= ->]. Qed.

(** No name the scope is made of holds a NUL byte. *)
Record no_nul (m : Meta) : Prop := {
  nn_caller : free NUL (Caller m) = true;
  nn_tenant : free NUL (Tenant m) = true;
  nn_surface : free NUL (Surface m) = true;
  nn_host : free NUL (claimed_host m) = true;
}.

Lemma scope_parts_free m : no_nul m → scope_parts m ≠ [] ∧ Forall (λ x, free NUL x = true) (scope_parts m).
Proof.
  intros [Hc Ht Hs Hh]. unfold scope_parts, scopeOf.
  destruct (Established m); cbn; [|destruct (String.eqb (Caller m) "") eqn:E; cbn|].
  - split; [done|]. destruct (String.eqb (Caller m) ""); by repeat constructor.
  - split; [done|]. by repeat constructor.
  - split; [done|]. by repeat constructor.
  - split; [done|]. by repeat constructor.
Qed.

(** The same caller, as the per-caller gates see it. *)
Definition same_caller (m m' : Meta) : Prop :=
  match established (scopeOf m), established (scopeOf m') with
  | EstablishedVerified, EstablishedVerified => Tenant m = Tenant m' ∧ Caller m = Caller m'
  | EstablishedTransport, EstablishedTransport => Surface m = Surface m'
  | EstablishedNone, EstablishedNone =>
      Surface m = Surface m' ∧ Tenant m = Tenant m' ∧ Caller m = Caller m' ∧ (Caller m = "" → claimed_host m = claimed_host m')
  | _, _ => False
  end.

Lemma scope_parts_same m m' : scope_parts m = scope_parts m' → same_caller m m'.
Proof.
  unfold scope_parts, same_caller, scopeOf.
  destruct (Established m), (Established m'); cbn; repeat (case_match; cbn); intros E; simplify_eq; try done;
    repeat match goal with H : String.eqb _ "" = true |- _ => apply String.eqb_eq in H | H : String.eqb _ "" = false |- _ => apply String.eqb_neq in H end;
    naive_solver congruence.
Qed.

(** One caller's key never answers another: two calls file their record under
    the same store key only when the same caller sent the same key, as long as
    their names hold no NUL byte and the two pairs of hashed texts do not
    collide. *)
Theorem idempotency_keys_separate m m' :
  no_nul m → no_nul m' →
  (sha_hex (store_key_material m) = sha_hex (store_key_material m') → store_key_material m = store_key_material m') →
  (sha_hex (Join NULs (scope_parts m)) = sha_hex (Join NULs (scope_parts m')) → Join NULs (scope_parts m) = Join NULs (scope_parts m')) →
  idempotencyStoreKey m = idempotencyStoreKey m' → IdempotencyKey m = IdempotencyKey m' ∧ same_caller m m'.
Proof.
  intros Hn Hn' Hk Hs E. apply Hk in E. unfold store_key_material in E. apply (inj (String.append "served")), String_tail in E.
  apply str_app_inj in E as [E1 E2%String_tail]; [|unfold IdempotencyScope; by rewrite !sha_hex_length]. split; [done|].
  apply Hs in E1. destruct (scope_parts_free m Hn) as [? ?], (scope_parts_free m' Hn') as [? ?].
  by apply scope_parts_same, (Join_inj NUL).
Qed.

Definition alice : Meta := mkMeta "alice" EstablishedVerified "acme" SurfaceREST "k1" ∅.

(** The hypotheses hold for two calls of one principal over two surfaces. *)
Lemma idempotency_keys_separate_witness :
  let m := mkMeta "alice" EstablishedVerified "acme" SurfaceMCP "k1" {["remote_addr" := "10.0.0.1:80"]} in
  idempotencyStoreKey alice = idempotencyStoreKey m ∧ IdempotencyKey alice = IdempotencyKey m ∧ same_caller alice m.
Proof.
  cbn zeta. split; [vm_compute; reflexivity|].
  apply idempotency_keys_separate; [split; vm_compute; reflexivity..| | |]; try (intros _; vm_compute; reflexivity). vm_compute. reflexivity.
Defined.

(** With a NUL byte in a name two callers share their records: a principal of
    one tenant and one of another, and an unnamed caller and one that claims to
    be called by its address. *)
Example nul_joins_tenants :
  let p := mkMeta ("b" +:+ NULs +:+ "c") EstablishedVerified "a" SurfaceREST "k" ∅ in
  let q := mkMeta "c" EstablishedVerified ("a" +:+ NULs +:+ "b") SurfaceREST "k" ∅ in
  idempotencyStoreKey p = idempotencyStoreKey q ∧ Tenant p ≠ Tenant q ∧ Caller p ≠ Caller q.
Proof. split_and!; [vm_compute; reflexivity|discriminate..]. Qed.

Example nul_claims_address :
  let p := mkMeta "" EstablishedNone "" SurfaceREST "k" {["remote_addr" := "10.0.0.1:4711"]} in
  let q := mkMeta (NULs +:+ "10.0.0.1") EstablishedNone "" SurfaceREST "k" ∅ in
  idempotencyStoreKey p = idempotencyStoreKey q.
Proof. vm_compute. reflexivity. Qed.
