(* ===== verification/IdemStore.v ===== *)
(** * Stores of recorded results (go/console/cli/idemstore)

    The interface as a class, its comments as laws, the in-process driver of
    idemstore.go and the SQLite driver of sqlite/sqlite.go.  Text forms of times
    read back exactly, so rows keep the instant; SQLite's [julianday] is a
    parameter that never reverses two instants. *)

From S2P Require Import Prelude.

Local Open Scope Z_scope.

(** [None] is the zero time. *)
Record StoredResult := mkStored { sr_Key : string; sr_ExitCode : Z; Output : string; Recorded : option Z }.

#[export] Instance StoredResult_eq_dec : EqDecision StoredResult.
Proof. solve_decision. Defined.

Definition DefaultTTL : Z := 24 * 3600 * 10 ^ 9.

(** [im_Lookup] answers [None] for an error; [im_Record] tells whether it
    succeeded.  [ctx]: the context is done. *)
Class IdemStore (S : Type) := {
  im_Lookup : bool → Z → string → S → option (option StoredResult);
  im_Record : bool → Z → string → StoredResult → S → bool * S;
  im_Close : S → S;
}.

Definition stamp (now : Z) (key : string) (r : StoredResult) : StoredResult :=
  mkStored key (sr_ExitCode r) (Output r) (Some (default now (Recorded r))).

(** Recorded more than [ttl] before [t]. *)
Definition older (ttl t : Z) (r : StoredResult) : Prop := ∃ w, Recorded r = Some w ∧ ttl < t - w.

(** A hit is what was recorded last; only records past [ttl] are ever missed. *)
Class IdemLaws (S : Type) `{I : IdemStore S} (ttl : Z) := {
  im_inv : S → Prop;
  im_view : S → gmap string StoredResult;
  im_lookup_law ctx t k s :
    im_inv s →
    match im_Lookup ctx t k s with
    | Some (Some r) => im_view s !! k = Some r
    | Some None => ∀ r, im_view s !! k = Some r → older ttl t r
    | None => True
    end;
  im_record_law ctx t k r s :
    im_inv s →
    let '(ok, s') := im_Record ctx t k r s in
    im_inv s' ∧
    if ok then
      (∀ k' y, im_view s' !! k' = Some y → <[k := stamp t k r]> (im_view s) !! k' = Some y) ∧
      (∀ k' y, <[k := stamp t k r]> (im_view s) !! k' = Some y → im_view s' !! k' = Some y ∨ older ttl t y)
    else im_view s' = im_view s;
  im_close_law s : im_inv s → im_inv (im_Close s) ∧ im_view (im_Close s) = im_view s;
}.

(** ** The in-process driver *)

Module memory.

Abbreviation memoryStore := (gmap string StoredResult).

Definition Memory : memoryStore := ∅.
Definition Lookup_ (key : string) (s : memoryStore) : option StoredResult := s !! key.
Definition Record_ (now : Z) (key : string) (r : StoredResult) (s : memoryStore) : memoryStore := <[key := stamp now key r]> s.

#[export] Instance memory_idem : IdemStore memoryStore := {|
  im_Lookup _ _ key s := Some (Lookup_ key s);
  im_Record _ now key r s := (true, Record_ now key r s);
  im_Close s := s;
|}.

#[export] Instance memory_laws ttl : IdemLaws memoryStore ttl.
Proof.
  refine {| im_inv := λ _, True; im_view := λ s : memoryStore, s |}.
  - intros ctx t k s _. cbn. unfold Lookup_. by destruct (s !! k).
  - intros ctx t k r s _. cbn. unfold Record_. split_and!; [done..|]. intros k' y H. by left.
  - done.
Defined.

End memory.

(** ** The SQLite driver *)

Module sqlite.

Record row := mkRow { exit_code : Z; output : string; recorded : Z }.

Record store := mkStore {
  rows : gmap string row;
  ttl : Z;
  purgeEvery : Z;
  purgeBatch : nat;
  (** [None]: the next record purges *)
  nextPurge : option Z;
  closed : bool;
}.

Definition maxPurgeInterval : Z := 3600 * 10 ^ 9.
Definition defaultPurgeBatch : nat := 1000.

(** The first instant of year 1, in nanoseconds from the Unix epoch. *)
Definition year_one : Z := - 62135596800 * 10 ^ 9.

Section driver.
Context `{MO : MapOrder} (julianday : Z → Z).

Definition set_rows (r : gmap string row) (s : store) : store :=
  mkStore r (ttl s) (purgeEvery s) (purgeBatch s) (nextPurge s) (closed s).
Definition set_nextPurge (n : option Z) (s : store) : store :=
  mkStore (rows s) (ttl s) (purgeEvery s) (purgeBatch s) n (closed s).

Definition expired_row (cutoff : Z) (r : row) : bool := julianday (recorded r) <? julianday cutoff.

(** The rows the subselect returns, in the order the table is scanned; [None] is
    no limit. *)
Definition expired_keys (cutoff : Z) (limit : option nat) (r : gmap string row) : list string :=
  let l := filter (λ k, (if r !! k is Some x then expired_row cutoff x else false) = true) (range_order 0 (dom r)) in
  match limit with Some n => take n l | None => l end.

(** The number of rows deleted, or an error; nothing is deleted then. *)
Definition purge (now : Z) (limit : option nat) (s : store) : option nat * store :=
  let cutoff := now - ttl s in
  if cutoff <? year_one then (Some 0%nat, s)
  else if closed s then (None, s)
  else
    let doomed := expired_keys cutoff limit (rows s) in
    (Some (length doomed), set_rows (foldr delete (rows s) doomed) s).

Definition maybePurge (now : Z) (s : store) : store :=
  if match nextPurge s with Some n => now <? n | None => false end then s
  else
    let s := set_nextPurge (Some (now + purgeEvery s)) s in
    match purge now (Some (purgeBatch s)) s with
    | (Some n, s) => if (purgeBatch s <=? n)%nat then set_nextPurge None s else s
    | (None, s) => s
    end.

(** Opening a database with the rows [r]. *)
Definition Open (now : Z) (t : Z) (r : gmap string row) : store :=
  let t := if t <=? 0 then DefaultTTL else t in
  let s := mkStore r t (Z.min t maxPurgeInterval) defaultPurgeBatch None false in
  set_nextPurge (Some (now + purgeEvery s)) (purge now None s).2.

Definition sql_Lookup (ctx : bool) (now : Z) (key : string) (s : store) : option (option StoredResult) :=
  if ctx || closed s then None
  else match rows s !! key with
       | None => Some None
       | Some r => if (0 <? ttl s) && (ttl s <? time_sub now (recorded r)) then Some None
                   else Some (Some (mkStored key (exit_code r) (output r) (Some (recorded r))))
       end.

Definition sql_Record (ctx : bool) (now : Z) (key : string) (r : StoredResult) (s : store) : bool * store :=
  if ctx || closed s then (false, s)
  else (true, maybePurge now (set_rows (<[key := mkRow (sr_ExitCode r) (Output r) (default now (Recorded r))]> (rows s)) s)).

Definition Close (s : store) : store := mkStore (rows s) (ttl s) (purgeEvery s) (purgeBatch s) (nextPurge s) true.

#[export] Instance sqlite_idem : IdemStore store := {|
  im_Lookup := sql_Lookup;
  im_Record := sql_Record;
  im_Close := Close;
|}.

(** ** It keeps the laws *)

Definition stored (k : string) (r : row) : StoredResult := mkStored k (exit_code r) (output r) (Some (recorded r)).

Lemma lookup_foldr_delete (l : list string) (r : gmap string row) k :
  foldr delete r l !! k = if bool_decide (k ∈ l) then None else r !! k.
Proof.
  induction l as [|x l IH]; [done|]. cbn [foldr]. destruct (decide (x = k)) as [->|Hne].
  - rewrite lookup_delete_eq, bool_decide_eq_true_2; [done|left].
  - rewrite lookup_delete_ne, IH by done. by rewrite (bool_decide_ext (k ∈ x :: l) (k ∈ l)) by (rewrite elem_of_cons; naive_solver).
Qed.

Hypothesis julianday_mono : ∀ x y, x ≤ y → julianday x ≤ julianday y.

Lemma expired_keys_older now limit s k r :
  k ∈ expired_keys (now - ttl s) limit (rows s) → rows s !! k = Some r → ttl s < now - recorded r.
Proof.
  intros Hk Hr. assert (H : k ∈ expired_keys (now - ttl s) None (rows s)).
  { destruct limit; [|done]. unfold expired_keys in *. by eapply subseteq_take. }
  apply list_elem_of_filter in H as [H _]. rewrite Hr in H. unfold expired_row in H. apply Z.ltb_lt in H.
  destruct (decide (now - ttl s ≤ recorded r)) as [Hle%julianday_mono|]; lia.
Qed.

Lemma purge_keeps now limit s n s' :
  purge now limit s = (n, s') →
  ttl s' = ttl s ∧ closed s' = closed s ∧
  ∀ k, rows s' !! k = rows s !! k ∨ rows s' !! k = None ∧ ∀ r, rows s !! k = Some r → ttl s < now - recorded r.
Proof.
  unfold purge. repeat case_match; intros [= <- <-]; try (split_and!; [done..|]; intros k; by left). cbn.
  split_and!; [done..|]. intros k. rewrite lookup_foldr_delete. case_bool_decide as Hk; [right|by left].
  split; [done|]. intros r. by eapply expired_keys_older.
Qed.

Lemma maybePurge_keeps now s :
  ttl (maybePurge now s) = ttl s ∧
  ∀ k, rows (maybePurge now s) !! k = rows s !! k ∨ rows (maybePurge now s) !! k = None ∧ ∀ r, rows s !! k = Some r → ttl s < now - recorded r.
Proof.
  unfold maybePurge. destruct (match nextPurge s with Some n => _ | None => _ end); [split; [done|]; intros k; by left|].
  destruct (purge _ _ _) as [n s'] eqn:E. apply purge_keeps in E as (Ht & _ & Hk). cbn in *.
  destruct n as [n|]; [destruct (_ <=? _)%nat|]; cbn; split; done.
Qed.

#[export] Instance sqlite_laws t : 0 < t < 2 ^ 63 - 1 → IdemLaws store t.
Proof.
  intros Ht. refine {| im_inv := λ s, ttl s = t; im_view := λ s, map_imap (λ k r, Some (stored k r)) (rows s) |}.
  - intros ctx now k s Hs. cbn. unfold sql_Lookup. destruct (ctx || closed s); [done|]. rewrite map_lookup_imap.
    destruct (rows s !! k) as [r|]; cbn; [|done]. destruct (_ && _) eqn:E; cbn; [|done].
    intros x [= <-]. exists (recorded r). split; [done|]. apply andb_true_iff in E as [_ E%Z.ltb_lt]. unfold time_sub in E. lia.
  - intros ctx now k r s Hs. cbn. unfold sql_Record. destruct (ctx || closed s); [done|].
    set (s1 := set_rows _ s). destruct (maybePurge_keeps now s1) as [Et Hk]. split; [by rewrite Et|].
    assert (Hv : ∀ k', map_imap (λ k r, Some (stored k r)) (rows s1) !! k' = <[k := stamp now k r]> (map_imap (λ k r, Some (stored k r)) (rows s)) !! k').
    { intros k'. rewrite map_lookup_imap. cbn. destruct (decide (k = k')) as [<-|Hne].
      - by rewrite !lookup_insert_eq.
      - by rewrite !lookup_insert_ne, map_lookup_imap by done. }
    split; intros k' y; rewrite <-Hv, !map_lookup_imap; intros H; destruct (Hk k') as [E|[E Ho]].
    + by rewrite E in H.
    + by rewrite E in H.
    + left. by rewrite E.
    + right. destruct (rows s1 !! k') as [x|] eqn:Ex; [|done]. cbn in H. injection H as <-. exists (recorded x). split; [done|].
      specialize (Ho x eq_refl). cbn in Ho. lia.
  - done.
Defined.

End driver.

End sqlite.
