(* ===== verification/Idempotency.v ===== *)
(** * Idempotency replay (go/transport/cmdsurface/idempotency.go)

    The ledger a bridge answers repeated calls from.  [admitIdempotency] reserves
    the key under the ledger's lock and reads the store outside it, [settle]
    writes the record and then releases the key: these halves are separate
    definitions, composed as the code composes them, and the calls of a process
    are any interleaving of them. *)

From Stdlib Require Import Ascii.
From S2P Require Import Prelude Fingerprint Topics GoStrings Invocation IdemStore.

Local Open Scope Z_scope.

Inductive idem_err := ErrIdempotencyConflict | ErrIdempotencyKeyReused | ErrOpen | ErrLedgerClosed | ErrLookup.

#[export] Instance idem_err_eq_dec : EqDecision idem_err.
Proof. solve_decision. Defined.

Definition CodeIdempotencyConflict := "idempotency_conflict".
Definition CodeIdempotencyKeyReused := "idempotency_key_reused".

Definition IdempotencyRefusalCode (e : idem_err) : string :=
  match e with
  | ErrIdempotencyConflict => CodeIdempotencyConflict
  | ErrIdempotencyKeyReused => CodeIdempotencyKeyReused
  | _ => ""
  end.

Record idemRecord := mkRecord {
  Fingerprint : string;
  rec_ExitCode : Z;
  rec_Stdout : string;
  rec_Stderr : string;
  rec_Data : option string;
  rec_Truncated : bool;
}.

(** encoding/json on records.  A string comes back with the bytes that are not
    UTF-8 replaced ([json_clean]). *)
Class RecordJSON := {
  json_clean : string → string;
  rec_Marshal : idemRecord → string;
  rec_Unmarshal : string → option idemRecord;
}.

Definition clean_record `{RecordJSON} (r : idemRecord) : idemRecord :=
  mkRecord (json_clean (Fingerprint r)) (rec_ExitCode r) (json_clean (rec_Stdout r)) (json_clean (rec_Stderr r)) (rec_Data r) (rec_Truncated r).

Definition is_ascii (c : ascii) : bool := (N_of_ascii c <? 128)%N.

Class RecordJSONLaws `{RJ : RecordJSON} := {
  json_ascii s : all_chars is_ascii s = true → json_clean s = s;
  rec_roundtrip r : rec_Unmarshal (rec_Marshal r) = Some (clean_record r);
}.

Section ledger.
Context `{RJ : RecordJSON}.

Definition encodeIdemRecord (fp : string) (res : Result) : option string :=
  let rec d := rec_Marshal (mkRecord fp (ExitCode res) (Stdout res) (Stderr res) d (Truncated res)) in
  match Data res with
  | None => Some (rec None)
  | Some None => None
  | Some (Some raw) => Some (rec (Some raw))
  end.

(** An absent, empty or null payload leaves [Data] unset. *)
Definition decoded_data (d : option string) : option (option string) :=
  match d with
  | None | Some "" | Some "null" => None
  | Some raw => Some (Some raw)
  end.

Definition decodeIdemRecord (raw : string) : option (Result * string) :=
  rec ← rec_Unmarshal raw;
  if String.eqb (Fingerprint rec) "" then None
  else Some (mkResult (rec_ExitCode rec) (rec_Stdout rec) (rec_Stderr rec) (decoded_data (rec_Data rec)) (rec_Truncated rec) false, Fingerprint rec).

Context {S : Type} `{IS : IdemStore S}.

(** [opens]: what [open] returns on the first keyed call. *)
Record IdempotencyLedger := mkLedger {
  opens : bool;
  opened : bool;
  openErr : option idem_err;
  has_store : bool;
  db : S;
  inflight : gmap string string;
}.

Definition OpenIdempotencyLedger (opens : bool) (s : S) : IdempotencyLedger := mkLedger opens false None false s ∅.

Definition set_inflight (m : gmap string string) (l : IdempotencyLedger) : IdempotencyLedger :=
  mkLedger (opens l) (opened l) (openErr l) (has_store l) (db l) m.
Definition set_db (s : S) (l : IdempotencyLedger) : IdempotencyLedger :=
  mkLedger (opens l) (opened l) (openErr l) (has_store l) s (inflight l).

Definition Close (l : IdempotencyLedger) : IdempotencyLedger :=
  if has_store l then mkLedger (opens l) (opened l) (Some ErrLedgerClosed) false (im_Close (db l)) (inflight l) else l.

Definition storeLocked (l : IdempotencyLedger) : option idem_err * IdempotencyLedger :=
  let l := if opened l then l
           else mkLedger (opens l) true (if opens l then None else Some ErrOpen) (opens l) (db l) (inflight l) in
  (openErr l, l).

(** [release], the first time it runs for a claim. *)
Definition release (key fp : string) (l : IdempotencyLedger) : IdempotencyLedger :=
  if bool_decide (inflight l !! key = Some fp) then set_inflight (delete key (inflight l)) l else l.

(** The first half of [admitIdempotency], under the lock. *)
Definition reserve (key fp : string) (l : IdempotencyLedger) : option idem_err * IdempotencyLedger :=
  match inflight l !! key with
  | Some running => (Some (if String.eqb running fp then ErrIdempotencyConflict else ErrIdempotencyKeyReused), l)
  | None =>
      match storeLocked l with
      | (Some e, l) => (Some e, l)
      | (None, l) => (None, set_inflight (<[key := fp]> (inflight l)) l)
      end
  end.

Inductive verdict := VRun | VReplay (r : Result) | VRefuse (e : idem_err).

Definition mark_replayed (r : Result) : Result := mkResult (ExitCode r) (Stdout r) (Stderr r) (Data r) (Truncated r) true.

(** The second half: what the store holds for the reserved key. *)
Definition look (ctx : bool) (now ttl : Z) (key fp : string) (l : IdempotencyLedger) : verdict * IdempotencyLedger :=
  match im_Lookup ctx now key (db l) with
  | None => (VRefuse ErrLookup, release key fp l)
  | Some None => (VRun, l)
  | Some (Some rec) =>
      if match Recorded rec with Some w => ttl <? time_sub now w | None => true end then (VRun, l)
      else match decodeIdemRecord (Output rec) with
           | None => (VRun, l)
           | Some (res, recFP) =>
               let l := release key fp l in
               if negb (String.eqb recFP fp) then (VRefuse ErrIdempotencyKeyReused, l) else (VReplay (mark_replayed res), l)
           end
  end.

(** Both halves for a call with a key on a remote surface; [None] is a call
    idempotency does not touch. *)
Definition admitIdempotency (on : option Z) (ctx : bool) (now : Z) (inv : Invocation) (l : IdempotencyLedger) : option verdict * IdempotencyLedger :=
  match on with
  | None => (None, l)
  | Some ttl =>
      if String.eqb (IdempotencyKey (inv_Meta inv)) "" || negb (isRemote (Surface (inv_Meta inv))) then (None, l)
      else
        let key := idempotencyStoreKey (inv_Meta inv) in
        let fp := idempotencyFingerprint inv in
        match reserve key fp l with
        | (Some e, l) => (Some (VRefuse e), l)
        | (None, l) => let '(v, l) := look ctx now ttl key fp l in (Some v, l)
        end
  end.

(** The first half of [settle]: the record of a successful run, and whether it
    was written.  A panicking run settles nothing and keeps its reservation until
    its context ends. *)
Definition settle_record (now : Z) (key fp : string) (res : Result) (err : bool) (l : IdempotencyLedger) : bool * IdempotencyLedger :=
  if err || negb (ExitCode res =? 0) then (false, l)
  else match encodeIdemRecord fp res with
       | None => (false, l)
       | Some payload =>
           if has_store l then
             let '(ok, s) := im_Record false now key (mkStored "" (ExitCode res) payload (Some now)) (db l) in (ok, set_db s l)
           else (false, l)
       end.

Definition settle (now : Z) (key fp : string) (res : Result) (err : bool) (l : IdempotencyLedger) : IdempotencyLedger :=
  release key fp (settle_record now key fp res err l).2.

Definition WithIdempotency (ttl : Z) : Z := if ttl <=? 0 then DefaultTTL else ttl.

(** ** The calls of a process *)

(** Where a keyed call is.  [Running t r]: its run is under way since its lookup
    at [t]; [r]: its context ended, so its reservation is gone.  [Settled] and
    [Over]: the run ended at [t'], leaving the record [res] if one was written. *)
Inductive phase :=
| Reserved
| Running (t : Z) (released : bool)
| Settled (t t' : Z) (res : option Result) (released : bool)
| Over (t t' : Z) (res : option Result)
| Answered (t : Z) (v : verdict)
| Abandoned.

Record call := mkCall { c_inv : Invocation; c_phase : phase }.

Definition c_key (c : call) : string := idempotencyStoreKey (inv_Meta (c_inv c)).
Definition c_fp (c : call) : string := idempotencyFingerprint (c_inv c).

Record world := mkWorld { ledger : IdempotencyLedger; calls : list call }.

Definition at_phase (i : nat) (p : phase) (l : IdempotencyLedger) (w : world) : world :=
  mkWorld l (match calls w !! i with Some c => <[i := mkCall (c_inv c) p]> (calls w) | None => calls w end).

(** [cancel] allows a request's context to end while its run goes on. *)
Inductive istep (cancel : bool) (ttl t : Z) : world → world → Prop :=
| s_refused inv e l w :
    reserve (idempotencyStoreKey (inv_Meta inv)) (idempotencyFingerprint inv) (ledger w) = (Some e, l) →
    istep cancel ttl t w (mkWorld l (calls w))
| s_reserve inv l w :
    reserve (idempotencyStoreKey (inv_Meta inv)) (idempotencyFingerprint inv) (ledger w) = (None, l) →
    istep cancel ttl t w (mkWorld l (calls w ++ [mkCall inv Reserved]))
| s_look i c ctx v l w :
    calls w !! i = Some c → c_phase c = Reserved → look ctx t ttl (c_key c) (c_fp c) (ledger w) = (v, l) →
    istep cancel ttl t w (at_phase i (match v with VRun => Running t false | _ => Answered t v end) l w)
| s_settle i c t0 r res err ok l w :
    calls w !! i = Some c → c_phase c = Running t0 r → settle_record t (c_key c) (c_fp c) res err (ledger w) = (ok, l) →
    istep cancel ttl t w (at_phase i (Settled t0 t (if ok then Some res else None) r) l w)
| s_release i c t0 t1 res r w :
    calls w !! i = Some c → c_phase c = Settled t0 t1 res r →
    istep cancel ttl t w (at_phase i (Over t0 t1 res) (if r then ledger w else release (c_key c) (c_fp c) (ledger w)) w)
| s_abandon i c t0 r w :
    calls w !! i = Some c → c_phase c = Running t0 r →
    istep cancel ttl t w (at_phase i Abandoned (if r then ledger w else release (c_key c) (c_fp c) (ledger w)) w)
| s_cancel i c t0 w :
    cancel = true → calls w !! i = Some c → c_phase c = Running t0 false →
    istep cancel ttl t w (at_phase i (Running t0 true) (release (c_key c) (c_fp c) (ledger w)) w)
| s_close w :
    istep cancel ttl t w (mkWorld (Close (ledger w)) (calls w)).

(** A process that starts with an empty store. *)
Context {sttl : Z} `{IL : !IdemLaws S sttl}.

Inductive irun (cancel : bool) (ttl : Z) : Z → world → Prop :=
| irun_start t opens s : im_inv s → im_view s = ∅ → irun cancel ttl t (mkWorld (OpenIdempotencyLedger opens s) [])
| irun_step t t' w w' : irun cancel ttl t w → t ≤ t' → istep cancel ttl t' w w' → irun cancel ttl t' w'.

(** ** Records read back *)

Definition clean_result (r : Result) : Result :=
  mkResult (ExitCode r) (json_clean (Stdout r)) (json_clean (Stderr r)) (Data r ≫= decoded_data) (Truncated r) false.

Context `{JL : !RecordJSONLaws}.

Lemma sha_hex_ascii s : all_chars is_ascii (sha_hex s) = true.
Proof.
  assert (Hd : ∀ n, 0 ≤ n < 16 → is_ascii (hex_digit n) = true).
  { intros n Hn. unfold is_ascii, hex_digit. apply N.ltb_lt.
    assert (Hb : ∀ m : nat, (m < 128)%nat → (N_of_ascii (ascii_of_nat m) < 128)%N) by (intros m Hm; unfold ascii_of_nat; rewrite N_ascii_embedding; lia).
    apply Hb. destruct (Z.ltb_spec n 10); lia. }
  assert (He : ∀ bs, Forall (λ b, 0 ≤ b < 256) bs → all_chars is_ascii (EncodeToString bs) = true).
  { induction 1 as [|b bs Hb _ IH]; [done|]. cbn [EncodeToString all_chars]. rewrite IH.
    rewrite !Hd; [done| |]; [change 15 with (Z.ones 4); rewrite Z.land_ones by done; apply Z.mod_pos_bound; lia|].
    rewrite Z.shiftr_div_pow2 by done. split; [apply Z.div_pos; lia|]. apply Z.div_lt_upper_bound; lia. }
  apply He. unfold sha256.Sum256. apply Forall_concat, Forall_fmap, Forall_forall. intros x _. cbn [compose].
  generalize 4%nat. intros n. revert x. induction n as [|n IH]; intros x; cbn [sha256.be_bytes]; [constructor|].
  apply Forall_app. split; [apply IH|]. constructor; [|constructor].
  change 0xFF with (Z.ones 8). rewrite Z.land_ones by done. apply Z.mod_pos_bound. lia.
Qed.

Lemma decode_record inv r payload :
  encodeIdemRecord (idempotencyFingerprint inv) r = Some payload →
  decodeIdemRecord payload = Some (clean_result r, idempotencyFingerprint inv).
Proof.
  intros E. assert (Hc : json_clean (idempotencyFingerprint inv) = idempotencyFingerprint inv) by apply json_ascii, sha_hex_ascii.
  assert (Hne : String.eqb (idempotencyFingerprint inv) "" = false).
  { apply String.eqb_neq. intros H. apply (f_equal String.length) in H. unfold idempotencyFingerprint in H. by rewrite sha_hex_length in H. }
  revert E Hc Hne. generalize (idempotencyFingerprint inv). intros fp E Hc Hne.
  unfold encodeIdemRecord in E. unfold decodeIdemRecord, clean_result.
  destruct (Data r) as [[raw|]|]; [|done|]; injection E as <-; rewrite rec_roundtrip; cbn; by rewrite Hc, Hne.
Qed.

(** ** The invariant *)

Definition active (p : phase) : bool :=
  match p with Reserved | Running _ false | Settled _ _ _ false => true | _ => false end.

Definition recorded (p : phase) : option (Z * Result) :=
  match p with Settled _ t (Some r) _ | Over _ t (Some r) => Some (t, r) | _ => None end.

Definition ran_from (p : phase) : option Z :=
  match p with Running t _ | Settled t _ _ _ | Over t _ _ => Some t | _ => None end.

Definition released (p : phase) : bool := match p with Running _ r | Settled _ _ _ r => r | _ => false end.

(** A call whose record could answer a later one at [t]. *)
Definition answers (ttl t : Z) (ci cj : call) (r : Result) : Prop :=
  c_key ci = c_key cj ∧ ∃ t1, recorded (c_phase ci) = Some (t1, r) ∧ t - t1 ≤ ttl.

Record iinv (ttl t : Z) (w : world) : Prop := {
  ii_db : im_inv (db (ledger w));
  ii_flags i c : calls w !! i = Some c → released (c_phase c) = false;
  ii_active i c : calls w !! i = Some c → active (c_phase c) = true → inflight (ledger w) !! c_key c = Some (c_fp c);
  ii_owner k fp : inflight (ledger w) !! k = Some fp → ∃ i c, calls w !! i = Some c ∧ active (c_phase c) = true ∧ c_key c = k;
  ii_excl i j ci cj : (i < j)%nat → calls w !! i = Some ci → calls w !! j = Some cj → c_key ci = c_key cj → active (c_phase ci) = false;
  ii_past i c t1 r : calls w !! i = Some c → recorded (c_phase c) = Some (t1, r) → t1 ≤ t;
  ii_stored i c t1 r :
    calls w !! i = Some c → recorded (c_phase c) = Some (t1, r) →
    (∃ x u, im_view (db (ledger w)) !! c_key c = Some x ∧ Recorded x = Some u ∧ t1 ≤ u) ∨ sttl < t - t1;
  ii_view k x :
    im_view (db (ledger w)) !! k = Some x →
    ∃ i c t1 r, calls w !! i = Some c ∧ c_key c = k ∧ recorded (c_phase c) = Some (t1, r) ∧ Recorded x = Some t1 ∧
      encodeIdemRecord (c_fp c) r = Some (Output x);
  ii_apart i j ci cj t1 r t0 :
    (i < j)%nat → calls w !! i = Some ci → calls w !! j = Some cj → c_key ci = c_key cj →
    recorded (c_phase ci) = Some (t1, r) → ran_from (c_phase cj) = Some t0 → Z.min ttl sttl < t0 - t1;
  ii_answered j cj t2 v :
    calls w !! j = Some cj → c_phase cj = Answered t2 v →
    match v with
    | VReplay r' => ∃ i ci r, (i < j)%nat ∧ calls w !! i = Some ci ∧ answers ttl t2 ci cj r ∧ c_fp ci = c_fp cj ∧ r' = mark_replayed (clean_result r)
    | VRefuse ErrIdempotencyKeyReused => ∃ i ci r, (i < j)%nat ∧ calls w !! i = Some ci ∧ answers ttl t2 ci cj r ∧ c_fp ci ≠ c_fp cj
    | _ => True
    end;
}.

Lemma iinv_later ttl t t' w : t ≤ t' → iinv ttl t w → iinv ttl t' w.
Proof.
  intros Ht []. split; try done.
  - intros i c t1 r Hc Hr. specialize (ii_past0 i c t1 r Hc Hr). lia.
  - intros i c t1 r Hc Hr. destruct (ii_stored0 i c t1 r Hc Hr) as [?|?]; [by left|right; lia].
Qed.

Lemma reserve_ok key fp l l' :
  reserve key fp l = (None, l') → inflight l !! key = None ∧ inflight l' = <[key := fp]> (inflight l) ∧ db l' = db l.
Proof.
  unfold reserve, storeLocked. destruct (inflight l !! key) eqn:E; [done|].
  destruct (opened l); cbn; [destruct (openErr l)|destruct (opens l)]; intros [= <-]; done.
Qed.

Lemma reserve_refused key fp l e l' : reserve key fp l = (Some e, l') → inflight l' = inflight l ∧ db l' = db l.
Proof.
  unfold reserve, storeLocked. destruct (inflight l !! key) eqn:E; [by intros [= _ <-]|].
  destruct (opened l); cbn; [destruct (openErr l)|destruct (opens l)]; intros [= _ <-] || intros [=]; done.
Qed.

Lemma release_db key fp l : db (release key fp l) = db l.
Proof. unfold release. by case_bool_decide. Qed.

Lemma release_inflight key fp l : inflight l !! key = Some fp → inflight (release key fp l) = delete key (inflight l).
Proof. intros H. unfold release. by rewrite bool_decide_eq_true_2. Qed.

(** The ledger's other fields do not matter to the invariant. *)
Lemma iinv_ledger ttl t w l :
  iinv ttl t w → inflight l = inflight (ledger w) → im_inv (db l) → im_view (db l) = im_view (db (ledger w)) → iinv ttl t (mkWorld l (calls w)).
Proof. intros [] Hi Hd Hv. split; cbn; rewrite ?Hi, ?Hv; done. Qed.

Lemma at_phase_lookup i p l w c j cj :
  calls w !! i = Some c → calls (at_phase i p l w) !! j = Some cj →
  (j = i ∧ cj = mkCall (c_inv c) p) ∨ (j ≠ i ∧ calls w !! j = Some cj).
Proof.
  intros Hc. unfold at_phase. rewrite Hc. cbn. assert (Hlt := lookup_lt_Some _ _ _ Hc).
  destruct (decide (j = i)) as [->|Hne]; [rewrite list_lookup_insert_eq by done; intros [= <-]; by left|].
  rewrite list_lookup_insert_ne by done. by right.
Qed.

Lemma at_phase_other i p l w c j cj : calls w !! i = Some c → j ≠ i → calls w !! j = Some cj → calls (at_phase i p l w) !! j = Some cj.
Proof. intros Hc Hne Hj. unfold at_phase. rewrite Hc. cbn. by rewrite list_lookup_insert_ne. Qed.

Lemma at_phase_self i p l w c : calls w !! i = Some c → calls (at_phase i p l w) !! i = Some (mkCall (c_inv c) p).
Proof. intros Hc. unfold at_phase. rewrite Hc. cbn. apply list_lookup_insert_eq. by eapply lookup_lt_Some. Qed.

(** What a lookup answers with, and from which record. *)
Definition answered_ok (ttl : Z) (w : world) (j : nat) (cj : call) (t : Z) (v : verdict) : Prop :=
  match v with
  | VReplay r' => ∃ i ci r, (i < j)%nat ∧ calls w !! i = Some ci ∧ answers ttl t ci cj r ∧ c_fp ci = c_fp cj ∧ r' = mark_replayed (clean_result r)
  | VRefuse ErrIdempotencyKeyReused => ∃ i ci r, (i < j)%nat ∧ calls w !! i = Some ci ∧ answers ttl t ci cj r ∧ c_fp ci ≠ c_fp cj
  | _ => True
  end.

(** The record of a call's run, in the store. *)
Definition record_written (t : Z) (c : call) (r : Result) (l l' : IdempotencyLedger) : Prop :=
  ∃ x, encodeIdemRecord (c_fp c) r = Some (Output x) ∧ Recorded x = Some t ∧
    (∀ k y, im_view (db l') !! k = Some y → <[c_key c := x]> (im_view (db l)) !! k = Some y) ∧
    (∀ k y, <[c_key c := x]> (im_view (db l)) !! k = Some y → im_view (db l') !! k = Some y ∨ older sttl t y).

Lemma same_inv c c' : c_inv c' = c_inv c → c_key c' = c_key c ∧ c_fp c' = c_fp c.
Proof. unfold c_key, c_fp. by intros ->. Qed.

(** While a call holds its key, the other calls with the key came before it. *)
Lemma holder_last ttl t w i c j cj :
  iinv ttl t w → calls w !! i = Some c → active (c_phase c) = true → calls w !! j = Some cj → c_key c = c_key cj → j ≠ i →
  (j < i)%nat ∧ active (c_phase cj) = false.
Proof.
  intros I Hc Ha Hj Hk Hne. destruct (decide (i < j)%nat) as [Hlt|].
  - rewrite (ii_excl _ _ _ I i j c cj Hlt Hc Hj Hk) in Ha. done.
  - assert ((j < i)%nat) as Hlt by lia. split; [done|]. by eapply (ii_excl _ _ _ I j i).
Qed.

Section phase_step.
Context (ttl t : Z) (w : world) (i : nat) (c : call) (p : phase) (l : IdempotencyLedger).
Hypothesis I : iinv ttl t w.
Hypothesis Hc : calls w !! i = Some c.
Hypothesis Ha : active (c_phase c) = true.
Hypothesis Hrel : released p = false.
Hypothesis Hdb : im_inv (db l).
Hypothesis Hin : inflight l = if active p then inflight (ledger w) else delete (c_key c) (inflight (ledger w)).
Hypothesis Hrec :
  recorded p = recorded (c_phase c) ∧ im_view (db l) = im_view (db (ledger w)) ∨
  recorded (c_phase c) = None ∧ ∃ r, recorded p = Some (t, r) ∧ record_written t c r (ledger w) l.
Hypothesis Hran :
  ran_from p = ran_from (c_phase c) ∨ ran_from p = None ∨
  ran_from p = Some t ∧ ∀ j cj t1 r, (j < i)%nat → calls w !! j = Some cj → c_key cj = c_key c → recorded (c_phase cj) = Some (t1, r) → Z.min ttl sttl < t - t1.
Hypothesis Hans : ∀ t2 v, p = Answered t2 v → answered_ok ttl w i c t2 v.

Abbreviation w' := (at_phase i p l w).

Local Ltac lookup H := destruct (at_phase_lookup _ _ _ _ _ _ _ Hc H) as [[-> ->]|[? ?]]; clear H.

(** The record a call left stays. *)
Lemma phase_recorded j cj t1 r :
  calls w !! j = Some cj → recorded (c_phase cj) = Some (t1, r) →
  ∃ cj', calls w' !! j = Some cj' ∧ c_inv cj' = c_inv cj ∧ recorded (c_phase cj') = Some (t1, r).
Proof.
  intros Hj Hr. destruct (decide (j = i)) as [->|Hne]; [|exists cj; split; [by eapply at_phase_other|done]].
  simplify_eq. eexists. split; [by eapply at_phase_self|]. split; [done|]. cbn. destruct Hrec as [[-> _]|[H _]]; congruence.
Qed.

Lemma phase_answered j cj t2 v : answered_ok ttl w j cj t2 v → answered_ok ttl w' j cj t2 v.
Proof.
  unfold answered_ok. destruct v as [|r'|[]]; try done; intros (k & ck & r & Hlt & Hk & (Hkey & t1 & Hr & Ht) & H);
    destruct (phase_recorded k ck t1 r Hk Hr) as (ck' & Hk' & [Ek Ef]%same_inv & Hr'); exists k, ck', r;
    unfold answers; rewrite Ek, Ef; (split_and!; [done|done|done|by exists t1|try done..]); apply H.
Qed.

Lemma phase_stored j cj t1 r :
  calls w' !! j = Some cj → recorded (c_phase cj) = Some (t1, r) →
  (∃ x u, im_view (db l) !! c_key cj = Some x ∧ Recorded x = Some u ∧ t1 ≤ u) ∨ sttl < t - t1.
Proof.
  intros Hj Hr. destruct Hrec as [[Hp Hv]|(Hno & r0 & Hp & x & _ & Hx & Hv1 & Hv2)].
  - rewrite Hv. lookup Hj; [cbn in Hr; rewrite Hp in Hr; change (c_key (mkCall (c_inv c) p)) with (c_key c); by eapply (ii_stored _ _ _ I)|].
    by eapply (ii_stored _ _ _ I).
  - assert (Hself : ∀ t1, t1 ≤ t → (∃ x u, im_view (db l) !! c_key c = Some x ∧ Recorded x = Some u ∧ t1 ≤ u) ∨ sttl < t - t1).
    { intros u Hu. destruct (Hv2 (c_key c) x) as [?|(y & ? & ?)]; [by rewrite lookup_insert_eq|left; eauto|right; simplify_eq; lia]. }
    lookup Hj; [cbn in Hr; change (c_key (mkCall (c_inv c) p)) with (c_key c); apply Hself; naive_solver lia|].
    destruct (decide (c_key cj = c_key c)) as [->|Hk]; [apply Hself; by eapply (ii_past _ _ _ I)|].
    destruct (ii_stored _ _ _ I j cj t1 r) as [(y & u & Hy & Hu & ?)|?]; [done..| |by right].
    destruct (Hv2 (c_key cj) y) as [?|(u' & ? & ?)]; [by rewrite lookup_insert_ne|left; eauto|right; simplify_eq; lia].
Qed.

Lemma phase_view k x :
  im_view (db l) !! k = Some x →
  ∃ j cj t1 r, calls w' !! j = Some cj ∧ c_key cj = k ∧ recorded (c_phase cj) = Some (t1, r) ∧ Recorded x = Some t1 ∧
    encodeIdemRecord (c_fp cj) r = Some (Output x).
Proof.
  assert (Hold : im_view (db (ledger w)) !! k = Some x →
    ∃ j cj t1 r, calls w' !! j = Some cj ∧ c_key cj = k ∧ recorded (c_phase cj) = Some (t1, r) ∧ Recorded x = Some t1 ∧
      encodeIdemRecord (c_fp cj) r = Some (Output x)).
  { intros Hx. destruct (ii_view _ _ _ I k x Hx) as (j & cj & t1 & r & Hj & Hk & Hr & Ht & He).
    destruct (phase_recorded j cj t1 r Hj Hr) as (cj' & Hj' & [Ek Ef]%same_inv & Hr'). exists j, cj', t1, r. by rewrite Ek, Ef. }
  intros Hx. destruct Hrec as [[Hp Hv]|(Hno & r0 & Hp & y & He & Hy & Hv1 & Hv2)]; [rewrite Hv in Hx; by apply Hold|].
  apply Hv1 in Hx. destruct (decide (c_key c = k)) as [<-|Hne]; [|rewrite lookup_insert_ne in Hx by done; by apply Hold].
  rewrite lookup_insert_eq in Hx. injection Hx as <-. exists i, (mkCall (c_inv c) p), t, r0. split; [by eapply at_phase_self|done].
Qed.

Lemma phase_step : iinv ttl t w'.
Proof.
  split.
  - unfold at_phase. done.
  - intros j cj Hj. lookup Hj; [done|]. by eapply (ii_flags _ _ _ I).
  - intros j cj Hj Hact. change (inflight (ledger w')) with (inflight l). rewrite Hin. lookup Hj.
    + cbn in Hact. rewrite Hact. exact (ii_active _ _ _ I i c Hc Ha).
    + destruct (active p); [by eapply (ii_active _ _ _ I)|].
      assert (c_key c ≠ c_key cj) by (intros Hk; destruct (holder_last _ _ _ i c j cj I) as [_ ?]; congruence).
      rewrite lookup_delete_ne by done. by eapply (ii_active _ _ _ I).
  - intros k fp. change (inflight (ledger w')) with (inflight l). rewrite Hin. intros H.
    assert (H' : inflight (ledger w) !! k = Some fp) by (destruct (active p); [done|]; by apply lookup_delete_Some in H as [_ ?]).
    destruct (ii_owner _ _ _ I k fp H') as (j & cj & Hj & Haj & Hk). destruct (decide (j = i)) as [->|Hne].
    + simplify_eq. destruct (active p) eqn:Ep; [|by rewrite lookup_delete_eq in H].
      exists i, (mkCall (c_inv c) p). split; [by eapply at_phase_self|done].
    + exists j, cj. split; [by eapply at_phase_other|done].
  - intros j j' cj cj' Hlt Hj Hj' Hk. lookup Hj; lookup Hj'; try lia.
    + destruct (holder_last _ _ _ i c j' cj' I Hc Ha ltac:(done) Hk ltac:(done)) as [? _]. lia.
    + exact (ii_excl _ _ _ I j i cj c Hlt ltac:(done) Hc Hk).
    + by eapply (ii_excl _ _ _ I j j').
  - intros j cj t1 r Hj Hr. lookup Hj; [|by eapply (ii_past _ _ _ I)]. cbn in Hr.
    destruct Hrec as [[E _]|(_ & r0 & E & _)]; rewrite E in Hr; [by eapply (ii_past _ _ _ I)|by simplify_eq].
  - apply phase_stored.
  - apply phase_view.
  - intros j j' cj cj' t1 r t0 Hlt Hj Hj' Hk Hr Hf. lookup Hj; lookup Hj'; try lia.
    + destruct (holder_last _ _ _ i c j' cj' I Hc Ha ltac:(done) Hk ltac:(done)) as [? _]. lia.
    + cbn in Hf. destruct Hran as [E|[E|[E Hap]]]; rewrite E in Hf; [|done|].
      * exact (ii_apart _ _ _ I j i cj c t1 r t0 Hlt ltac:(done) Hc Hk Hr Hf).
      * injection Hf as <-. exact (Hap j cj t1 r Hlt ltac:(done) Hk Hr).
    + by eapply (ii_apart _ _ _ I j j').
  - intros j cj t2 v Hj Hp. fold (answered_ok ttl w' j cj t2 v). apply phase_answered. lookup Hj; [cbn in Hp; apply Hans in Hp; exact Hp|].
    by apply (ii_answered _ _ _ I).
Qed.

End phase_step.

(** ** Every step keeps it *)

Lemma time_sub_gt ttl t u : 0 < ttl < 2 ^ 63 - 1 → (ttl <? time_sub t u) = true ↔ ttl < t - u.
Proof. intros H. rewrite Z.ltb_lt. unfold time_sub. lia. Qed.

Lemma look_cases ctx t ttl key fp l v l' :
  0 < ttl < 2 ^ 63 - 1 → im_inv (db l) → look ctx t ttl key fp l = (v, l') →
  match v with
  | VRun => l' = l ∧ ∀ x u, im_view (db l) !! key = Some x → Recorded x = Some u → older sttl t x ∨ ttl < t - u ∨ decodeIdemRecord (Output x) = None
  | _ => l' = release key fp l
  end ∧
  match v with
  | VReplay r' => ∃ x u res, im_view (db l) !! key = Some x ∧ Recorded x = Some u ∧ t - u ≤ ttl ∧
      decodeIdemRecord (Output x) = Some (res, fp) ∧ r' = mark_replayed res
  | VRefuse ErrIdempotencyKeyReused => ∃ x u res fp', im_view (db l) !! key = Some x ∧ Recorded x = Some u ∧ t - u ≤ ttl ∧
      decodeIdemRecord (Output x) = Some (res, fp') ∧ fp' ≠ fp
  | _ => True
  end.
Proof.
  intros Httl Hd. unfold look. pose proof (im_lookup_law ctx t key (db l) Hd) as Hlaw. destruct (im_Lookup ctx t key (db l)) as [[x|]|].
  - destruct (Recorded x) as [u|] eqn:Hu; cycle 1.
    { intros [= <- <-]. split; [|done]. split; [done|]. intros x' u' Hx' Hu'. rewrite Hlaw in Hx'. injection Hx' as <-. congruence. }
    destruct (ttl <? time_sub t u) eqn:E.
    + apply time_sub_gt in E; [|done]. intros [= <- <-]. split; [|done]. split; [done|]. intros x' u' Hx' Hu'.
      rewrite Hlaw in Hx'. injection Hx' as <-. right; left. congruence.
    + assert (Hle : t - u ≤ ttl). { destruct (decide (ttl < t - u)) as [H%(time_sub_gt ttl t u Httl)|]; [congruence|lia]. }
      destruct (decodeIdemRecord (Output x)) as [[res fp']|] eqn:Edec.
      * destruct (String.eqb fp' fp) eqn:Ef; cbn; intros [= <- <-]; (split; [done|]).
        -- apply String.eqb_eq in Ef as ->. by exists x, u, res.
        -- apply String.eqb_neq in Ef. by exists x, u, res, fp'.
      * intros [= <- <-]. split; [|done]. split; [done|]. intros x' u' Hx' Hu'. rewrite Hlaw in Hx'. injection Hx' as <-. by right; right.
  - intros [= <- <-]. split; [|done]. split; [done|]. intros x u Hx Hu. left. by apply Hlaw.
  - by intros [= <- <-].
Qed.

(** A record of the store is some earlier call's, and reads as its result. *)
Lemma record_source ttl t w i c x u :
  iinv ttl t w → calls w !! i = Some c → active (c_phase c) = true → recorded (c_phase c) = None →
  im_view (db (ledger w)) !! c_key c = Some x → Recorded x = Some u →
  ∃ j cj r, (j < i)%nat ∧ calls w !! j = Some cj ∧ c_key cj = c_key c ∧ recorded (c_phase cj) = Some (u, r) ∧
    decodeIdemRecord (Output x) = Some (clean_result r, c_fp cj).
Proof.
  intros I Hc Ha Hno Hx Hu. destruct (ii_view _ _ _ I _ x Hx) as (j & cj & t1 & r & Hj & Hk & Hr & Ht & He).
  assert (Hne : j ≠ i) by (intros ->; congruence). rewrite Hu in Ht. injection Ht as <-.
  destruct (holder_last _ _ _ i c j cj I Hc Ha Hj (eq_sym Hk) Hne) as [Hlt _]. exists j, cj, r. split_and!; [done..|].
  by apply decode_record.
Qed.

Lemma look_step ttl t w i c ctx v l :
  0 < ttl < 2 ^ 63 - 1 → iinv ttl t w → calls w !! i = Some c → c_phase c = Reserved →
  look ctx t ttl (c_key c) (c_fp c) (ledger w) = (v, l) →
  iinv ttl t (at_phase i (match v with VRun => Running t false | _ => Answered t v end) l w).
Proof.
  intros Httl I Hc Hp Hl. assert (Ha : active (c_phase c) = true) by by rewrite Hp. assert (Hno : recorded (c_phase c) = None) by by rewrite Hp.
  destruct (look_cases _ _ _ _ _ _ _ _ Httl (ii_db _ _ _ I) Hl) as [H1 H2].
  assert (Hheld := ii_active _ _ _ I i c Hc Ha).
  assert (Hfree : v ≠ VRun → l = release (c_key c) (c_fp c) (ledger w)) by (by destruct v).
  assert (Hl' : l = ledger w ∨ l = release (c_key c) (c_fp c) (ledger w)) by (destruct v; [left; apply H1|by right..]).
  apply (phase_step ttl t w i c); try done.
  - by destruct v.
  - destruct Hl' as [->| ->]; rewrite ?release_db; apply I.
  - destruct v; cbn; [by destruct H1 as [-> _]|rewrite Hfree by done; by apply release_inflight..].
  - left. rewrite Hno. split; [by destruct v|]. by destruct Hl' as [->| ->]; rewrite ?release_db.
  - destruct v; [|right; left; done..]. right; right. split; [done|]. intros j cj t1 r Hlt Hj Hk Hr. destruct H1 as [_ Hmiss].
    destruct (ii_stored _ _ _ I j cj t1 r Hj Hr) as [(x & u & Hx & Hu & Hle)|?]; [|lia]. rewrite Hk in Hx.
    destruct (Hmiss x u Hx Hu) as [(u' & Hu' & ?)|[?|Hdec]]; [rewrite Hu in Hu'; injection Hu' as <-; lia|lia|].
    destruct (record_source _ _ _ i c x u I Hc Ha Hno Hx Hu) as (j' & cj' & r' & _ & _ & _ & _ & Hd). congruence.
  - intros t2 v' Ev. destruct v as [|r'|e]; [done| |]; injection Ev as <- <-.
    + destruct H2 as (x & u & res & Hx & Hu & Hle & Hd & ->).
      destruct (record_source _ _ _ i c x u I Hc Ha Hno Hx Hu) as (j & cj & r & Hlt & Hj & Hk & Hr & Hd'). rewrite Hd in Hd'. apply (inj Some), pair_equal_spec in Hd' as [-> Hf].
      exists j, cj, r. split; [done|]. split; [done|]. split; [split; [done|by exists u]|]. by split.
    + cbn. destruct e; try done. destruct H2 as (x & u & res & fp' & Hx & Hu & Hle & Hd & Hne).
      destruct (record_source _ _ _ i c x u I Hc Ha Hno Hx Hu) as (j & cj & r & Hlt & Hj & Hk & Hr & Hd'). rewrite Hd in Hd'. apply (inj Some), pair_equal_spec in Hd' as [_ ->].
      exists j, cj, r. split; [done|]. split; [done|]. split; [split; [done|by exists u]|done].
Qed.

Lemma settle_step ttl t w i c t0 res err ok l :
  iinv ttl t w → calls w !! i = Some c → c_phase c = Running t0 false →
  settle_record t (c_key c) (c_fp c) res err (ledger w) = (ok, l) →
  iinv ttl t (at_phase i (Settled t0 t (if ok then Some res else None) false) l w).
Proof.
  intros I Hc Hp Hs. assert (Ha : active (c_phase c) = true) by by rewrite Hp. assert (Hno : recorded (c_phase c) = None) by by rewrite Hp.
  assert (H : im_inv (db l) ∧ inflight l = inflight (ledger w) ∧
    if ok then record_written t c res (ledger w) l else im_view (db l) = im_view (db (ledger w))).
  { unfold settle_record in Hs. destruct (_ || _); [injection Hs as <- <-; split_and!; (done || apply I)|].
    destruct (encodeIdemRecord (c_fp c) res) as [payload|] eqn:Ee; [|injection Hs as <- <-; split_and!; (done || apply I)].
    destruct (has_store (ledger w)); [|injection Hs as <- <-; split_and!; (done || apply I)].
    set (x := mkStored "" _ payload (Some t)) in *.
    pose proof (im_record_law false t (c_key c) x (db (ledger w)) (ii_db _ _ _ I)) as Hlaw.
    destruct (im_Record false t (c_key c) x (db (ledger w))) as [ok' s'].
    injection Hs as <- <-. destruct Hlaw as [Hinv Hlaw]. split_and!; [done..|]. destruct ok'; [|done]. by exists (stamp t (c_key c) x). }
  destruct H as (Hdb & Hin & Hrec). apply (phase_step ttl t w i c); try done.
  - destruct ok; [right; split; [done|]; by exists res|left; by rewrite Hno].
  - left. by rewrite Hp.
Qed.

Lemma drop_step ttl t w i c p :
  iinv ttl t w → calls w !! i = Some c → active (c_phase c) = true → active p = false → released p = false → recorded p = recorded (c_phase c) →
  (ran_from p = ran_from (c_phase c) ∨ ran_from p = None) → (∀ t2 v, p ≠ Answered t2 v) →
  iinv ttl t (at_phase i p (release (c_key c) (c_fp c) (ledger w)) w).
Proof.
  intros I Hc Ha Hp Hrel Hrec Hran Hans. apply (phase_step ttl t w i c); try done.
  - rewrite release_db. apply I.
  - rewrite Hp. apply release_inflight. exact (ii_active _ _ _ I i c Hc Ha).
  - left. by rewrite release_db.
  - naive_solver.
  - intros t2 v E. by destruct (Hans t2 v).
Qed.

Lemma reserve_step ttl t w inv l :
  iinv ttl t w → reserve (idempotencyStoreKey (inv_Meta inv)) (idempotencyFingerprint inv) (ledger w) = (None, l) →
  iinv ttl t (mkWorld l (calls w ++ [mkCall inv Reserved])).
Proof.
  intros I (Hfree & Hin & Hd)%reserve_ok. set (n := mkCall inv Reserved). change (idempotencyStoreKey (inv_Meta inv)) with (c_key n) in *.
  change (idempotencyFingerprint inv) with (c_fp n) in *.
  assert (Hidle : ∀ j cj, calls w !! j = Some cj → c_key cj = c_key n → active (c_phase cj) = false).
  { intros j cj Hj Hk. destruct (active (c_phase cj)) eqn:Ej; [|done]. pose proof (ii_active _ _ _ I j cj Hj Ej). congruence. }
  assert (Hlk : ∀ j cj, (calls w ++ [n]) !! j = Some cj → calls w !! j = Some cj ∨ j = length (calls w) ∧ cj = n).
  { intros j cj [Hj|[? Hj]]%lookup_app_Some; [by left|]. apply list_lookup_singleton_Some in Hj as [? <-]. right. split; [lia|done]. }
  assert (Hold : ∀ j cj, calls w !! j = Some cj → (calls w ++ [n]) !! j = Some cj) by (intros; by apply lookup_app_l_Some).
  split; cbn; rewrite ?Hd.
  - apply I.
  - intros j cj [Hj|[_ ->]]%Hlk; [by eapply (ii_flags _ _ _ I)|done].
  - intros j cj [Hj|[_ ->]]%Hlk Haj; rewrite Hin; [|by rewrite lookup_insert_eq].
    rewrite lookup_insert_ne; [by eapply (ii_active _ _ _ I)|]. intros E. rewrite (Hidle j cj Hj (eq_sym E)) in Haj. done.
  - intros k fp. rewrite Hin. intros [[<- <-]|[Hk H]]%lookup_insert_Some.
    + exists (length (calls w)), n. split; [by rewrite lookup_app_r, Nat.sub_diag|done].
    + destruct (ii_owner _ _ _ I k fp H) as (j & cj & Hj & ?). exists j, cj. split; [by apply Hold|done].
  - intros j j' cj cj' Hlt [Hj|[-> ->]]%Hlk [Hj'|[-> ->]]%Hlk Hk; try lia.
    + by eapply (ii_excl _ _ _ I).
    + by eapply Hidle.
    + apply lookup_lt_Some in Hj'. lia.
  - intros j cj t1 r [Hj|[_ ->]]%Hlk Hr; [by eapply (ii_past _ _ _ I)|done].
  - intros j cj t1 r [Hj|[_ ->]]%Hlk Hr; [by eapply (ii_stored _ _ _ I)|done].
  - intros k x Hx. destruct (ii_view _ _ _ I k x Hx) as (j & cj & t1 & r & Hj & ?). exists j, cj, t1, r. split; [by apply Hold|done].
  - intros j j' cj cj' t1 r t0 Hlt [Hj|[-> ->]]%Hlk [Hj'|[-> ->]]%Hlk Hk Hr Hf; try done. by eapply (ii_apart _ _ _ I).
  - intros j cj t2 v [Hj|[_ ->]]%Hlk Hp; [|done]. pose proof (ii_answered _ _ _ I j cj t2 v Hj Hp) as H.
    destruct v as [|r'|[]]; try done; destruct H as (k & ck & r & Hlt & Hck & H'); exists k, ck, r; (split_and!; [done|by apply Hold|apply H'..]).
Qed.

Lemma istep_ok ttl t w w' : 0 < ttl < 2 ^ 63 - 1 → istep false ttl t w w' → iinv ttl t w → iinv ttl t w'.
Proof.
  intros Httl H I. destruct H as [inv e l w Hr|inv l w Hr|i c ctx v l w Hc Hp Hl|i c t0 r res err ok l w Hc Hp Hs|i c t0 t1 res r w Hc Hp|i c t0 r w Hc Hp| |w]; try done.
  - apply reserve_refused in Hr as [Hi Hd]. apply iinv_ledger; [done|done|by rewrite Hd; apply I|by rewrite Hd].
  - by apply reserve_step.
  - by eapply look_step.
  - pose proof (ii_flags _ _ _ I i c Hc) as Hf. rewrite Hp in Hf. cbn in Hf. subst r. by eapply settle_step.
  - pose proof (ii_flags _ _ _ I i c Hc) as Hf. rewrite Hp in Hf. cbn in Hf. subst r. apply drop_step; rewrite ?Hp; try done. by left.
  - pose proof (ii_flags _ _ _ I i c Hc) as Hf. rewrite Hp in Hf. cbn in Hf. subst r. apply drop_step; rewrite ?Hp; try done. by right.
  - unfold Close. destruct (has_store (ledger w)); [|by apply iinv_ledger; try done; apply I].
    destruct (im_close_law (db (ledger w)) (ii_db _ _ _ I)). by apply iinv_ledger.
Qed.

Lemma irun_ok ttl t w : 0 < ttl < 2 ^ 63 - 1 → irun false ttl t w → iinv ttl t w.
Proof.
  intros Httl. induction 1 as [t opens s Hs Hv|t t' w w' _ IH Ht Hstep]; [|eapply istep_ok; [done|done|by eapply iinv_later]].
  split; cbn; try (intros; by rewrite lookup_nil in *); try done. rewrite Hv. by intros k x ?%lookup_empty_Some.
Qed.

(** A call that no longer holds its key. *)
Definition ended (p : phase) : Prop := match p with Over _ _ _ | Answered _ _ | Abandoned => True | _ => False end.


End ledger.
