(* ===== verification/IdempotencyExamples.v ===== *)
(** * Runs of the idempotency ledger *)

From Stdlib Require Import Ascii.
From stdpp Require Import countable.
From S2P Require Import Prelude Topics Invocation IdemStore Idempotency.
Import memory.

Local Open Scope Z_scope.

(** ** A text form of records that reads back *)

Fixpoint bits (p : positive) : string :=
  match p with
  | xH => "1"
  | xO p => String "0"%char (bits p)
  | xI p => String "1"%char (bits p)
  end.

(** The last digit is the leading one. *)
Fixpoint of_bits (s : string) : option positive :=
  match s with
  | EmptyString => None
  | String c EmptyString => if Ascii.eqb c "1" then Some xH else None
  | String c s => (if Ascii.eqb c "1" then xI else xO) <$> of_bits s
  end.

Lemma of_bits_bits p : of_bits (bits p) = Some p.
Proof.
  assert (Hne : ∀ q, bits q ≠ "") by (by intros []).
  induction p as [p IH|p IH|]; cbn; [| |done]; (destruct (bits p) as [|c s] eqn:E; [by apply Hne in E|]); by rewrite IH.
Qed.

Definition fields (r : idemRecord) : string * Z * string * string * option string * bool :=
  (Fingerprint r, rec_ExitCode r, rec_Stdout r, rec_Stderr r, rec_Data r, rec_Truncated r).

#[export] Instance bit_json : RecordJSON := {|
  json_clean s := s;
  rec_Marshal r := bits (encode (fields r));
  rec_Unmarshal s := '(fp, x, o, e, d, t) ← of_bits s ≫= decode; Some (mkRecord fp x o e d t);
|}.

#[export] Instance bit_json_laws : RecordJSONLaws.
Proof. split; [done|]. intros []. cbn. rewrite of_bits_bits. cbn. by rewrite decode_encode. Qed.

(** ** Two deliveries of one command *)

Definition deploy (flags : gmap string flag_value) : Invocation :=
  mkInvocation ["app"; "deploy"] ["web"] flags (mkMeta "alice" EstablishedVerified "acme" SurfaceREST "k1" ∅) false.

Definition done_ : Result := mkResult 0 "deployed" "" (Some (Some "{}")) false false.

Abbreviation store := (gmap string StoredResult).
Abbreviation W := (world (S:=store)).

Definition start : W := mkWorld (OpenIdempotencyLedger true memory.Memory) [].
Definition hour : Z := 3600 * 10 ^ 9.

Definition key := idempotencyStoreKey (inv_Meta (deploy ∅)).
Definition fp := idempotencyFingerprint (deploy ∅).

(** The first call runs from 1 to 5 and leaves its result. *)
Definition w1 : W := let r := reserve key fp (ledger start) in mkWorld r.2 (calls start ++ [mkCall (deploy ∅) Reserved]).
Definition w2 : W := at_phase 0 (Running 1 false) (ledger w1) w1.
Definition w3 : W := at_phase 0 (Settled 1 5 (Some done_) false) (settle_record 5 key fp done_ false (ledger w2)).2 w2.
Definition w4 : W := at_phase 0 (Over 1 5 (Some done_)) (release key fp (ledger w3)) w3.
(** The second one, an hour later, is a replay. *)
Definition w5 : W := mkWorld (reserve key fp (ledger w4)).2 (calls w4 ++ [mkCall (deploy ∅) Reserved]).
Definition w6 : W := at_phase 1 (Answered hour (VReplay (mark_replayed done_))) (look false hour (24 * hour) key fp (ledger w5)).2 w5.

Lemma pair_of {A B} (x : A * B) a : x.1 = a → x = (a, x.2).
Proof. by destruct x; cbn; intros ->. Qed.

Lemma run_w6 : irun (sttl := 24 * hour) false (24 * hour) hour w6.
Proof.
  eapply (irun_step _ _ 5 hour w5); [|vm_compute; discriminate|
    apply (s_look _ _ _ 1 (mkCall (deploy ∅) Reserved) false (VReplay (mark_replayed done_))); [vm_compute; reflexivity|reflexivity|apply pair_of; vm_compute; reflexivity]].
  eapply (irun_step _ _ 5 5 w4); [|lia|apply s_reserve, pair_of; vm_compute; reflexivity].
  eapply (irun_step _ _ 5 5 w3); [|lia|apply (s_release _ _ _ 0 (mkCall (deploy ∅) (Settled 1 5 (Some done_) false)) 1 5 (Some done_) false); vm_compute; reflexivity].
  eapply (irun_step _ _ 1 5 w2); [|lia|
    apply (s_settle _ _ _ 0 (mkCall (deploy ∅) (Running 1 false)) 1 false done_ false true); [vm_compute; reflexivity|reflexivity|apply pair_of; vm_compute; reflexivity]].
  eapply (irun_step _ _ 0 1 w1); [|lia|
    apply (s_look _ _ _ 0 (mkCall (deploy ∅) Reserved) false VRun); [vm_compute; reflexivity|reflexivity|vm_compute; reflexivity]].
  eapply (irun_step _ _ 0 0 start); [|lia|apply s_reserve, pair_of; vm_compute; reflexivity].
  by apply irun_start.
Qed.


(** A client that goes away frees the key while its command still runs: its
    retry runs the command a second time, at the same time. *)
Definition x3 : W := at_phase 0 (Running 1 true) (release key fp (ledger w2)) w2.
Definition x4 : W := mkWorld (reserve key fp (ledger x3)).2 (calls x3 ++ [mkCall (deploy ∅) Reserved]).
Definition x5 : W := at_phase 1 (Running 3 false) (ledger x4) x4.

Example canceled_call_runs_twice :
  irun (sttl := 24 * hour) true (24 * hour) 3 x5 ∧ c_phase <$> calls x5 = [Running 1 true; Running 3 false] ∧
  c_key <$> calls x5 = [key; key].
Proof.
  split; [|vm_compute; by split].
  eapply (irun_step _ _ 2 3 x4); [|lia|
    apply (s_look _ _ _ 1 (mkCall (deploy ∅) Reserved) false VRun); [vm_compute; reflexivity|reflexivity|vm_compute; reflexivity]].
  eapply (irun_step _ _ 2 2 x3); [|lia|apply s_reserve, pair_of; vm_compute; reflexivity].
  eapply (irun_step _ _ 1 2 w2); [|lia|apply (s_cancel _ _ _ 0 (mkCall (deploy ∅) (Running 1 false)) 1); vm_compute; reflexivity].
  eapply (irun_step _ _ 0 1 w1); [|lia|
    apply (s_look _ _ _ 0 (mkCall (deploy ∅) Reserved) false VRun); [vm_compute; reflexivity|reflexivity|vm_compute; reflexivity]].
  eapply (irun_step _ _ 0 0 start); [|lia|apply s_reserve, pair_of; vm_compute; reflexivity].
  by apply irun_start.
Qed.
