(* ===== verification/Usage.v ===== *)
(** * The usage ledger (go/transport/cmdsurface/ledger.go)

    Calls and bytes per key over fixed windows, on a key-value store.  Proved
    against the store's interface: on a store with expiry the counts are exactly
    those of a plain table.  An operation reads the clock twice, for the window
    and for the expiry; JSON of the two counters is a parameter that reads back. *)

From Stdlib Require Import Ascii.
From S2P Require Import Prelude Fingerprint Topics StreamWire GoStrings KvStore.

Local Open Scope Z_scope.

Definition second : Z := 10 ^ 9.

(** From the zero time, the first instant of year 1, to the Unix epoch. *)
Definition zero_offset : Z := 62135596800 * 10 ^ 9.

Class UsageJSON := {
  usage_Marshal : Z → Z → string;
  usage_Unmarshal : string → option (Z * Z);
}.

Class UsageJSONLaws `{UJ : UsageJSON} :=
  usage_roundtrip o b : - 2 ^ 63 ≤ o < 2 ^ 63 → - 2 ^ 63 ≤ b < 2 ^ 63 → usage_Unmarshal (usage_Marshal o b) = Some (o, b).

Definition ledgerPrefix := "kit/usage/".

Record Usage := mkUsage { Ops : Z; Bytes : Z; Start : Z; Reset : Z }.

Inductive usage_err := ErrWindow | ErrKv (e : kv_err).

(** [now.Truncate(w)] counts from the zero time. *)
Definition window (now w : Z) : Z * Z := let start := now - (now + zero_offset) mod w in (start, start + w).

Definition entryPrefix (key : string) : string := ledgerPrefix +:+ QueryEscape key +:+ "/".

Definition entryKey (key : string) (w start : Z) : string :=
  entryPrefix key +:+ FormatInt (Z.quot w second) +:+ "/" +:+ FormatInt (start / second).

Definition checkWindow (w : Z) : bool := second <=? w.

Section ledger.
Context {S : Type} `{KL : KvLaws S} `{UJ : UsageJSON}.

(** Does the store implement [kv.TTLStore]? *)
Variable ttlStore : bool.

(** The current window, whether nothing was stored for it, and the error. *)
Definition load (ctx : bool) (now : Z) (key : string) (w : Z) (s : S) : Usage * bool * option kv_err * S :=
  let '(start, reset) := window now w in
  match kv_Get ctx now (entryKey key w start) s with
  | (Err e, s) => (mkUsage 0 0 start reset, false, Some e, s)
  | (Ok None, s) => (mkUsage 0 0 start reset, true, None, s)
  | (Ok (Some raw), s) =>
      let '(o, b) := default (0, 0) (usage_Unmarshal raw) in (mkUsage o b start reset, false, None, s)
  end.

Fixpoint delete_all (ctx : bool) (now : Z) (keep : string) (ks : list string) (s : S) : option kv_err * S :=
  match ks with
  | [] => (None, s)
  | k :: ks =>
      if String.eqb k keep then delete_all ctx now keep ks s
      else match kv_Delete ctx now k s with
           | (Some e, s) => (Some e, s)
           | (None, s) => delete_all ctx now keep ks s
           end
  end.

Definition deleteWindows (ctx : bool) (now : Z) (key keep : string) (s : S) : option kv_err * S :=
  match kv_List ctx now (entryPrefix key) s with
  | (Err e, s) => (Some e, s)
  | (Ok stored, s) => delete_all ctx now keep stored s
  end.

(** The entry is kept a whole window past its end. *)
Definition save (ctx : bool) (now : Z) (key : string) (w : Z) (u : Usage) (fresh : bool) (s : S) : option kv_err * S :=
  let raw := usage_Marshal (Ops u) (Bytes u) in
  let k := entryKey key w (Start u) in
  if ttlStore then kv_PutWithTTL ctx now k raw (int64 (time_sub (Reset u) now + w)) s
  else
    let '(err, s) := if fresh then deleteWindows ctx now key k s else (None, s) in
    match err with
    | Some e => (Some e, s)
    | None => kv_Put ctx now k raw s
    end.

Definition Usage_ (ctx : bool) (now : Z) (key : string) (w : Z) (s : S) : Usage * option usage_err * S :=
  if negb (checkWindow w) then (mkUsage 0 0 0 0, Some ErrWindow, s)
  else let '(u, _, err, s) := load ctx now key w s in (u, ErrKv <$> err, s).

Definition bump (u : Usage) (ops bytes : Z) : Usage := mkUsage (int64 (Ops u + ops)) (int64 (Bytes u + bytes)) (Start u) (Reset u).

Definition Take (ctx : bool) (now now' : Z) (key : string) (w maxOps : Z) (s : S) : Usage * bool * option usage_err * S :=
  if negb (checkWindow w) then (mkUsage 0 0 0 0, false, Some ErrWindow, s)
  else match load ctx now key w s with
       | (u, _, Some e, s) => (u, false, Some (ErrKv e), s)
       | (u, fresh, None, s) =>
           if maxOps <=? Ops u then (u, false, None, s)
           else let u := bump u 1 0 in
                let '(err, s) := save ctx now' key w u fresh s in (u, true, ErrKv <$> err, s)
       end.

Definition Add (ctx : bool) (now now' : Z) (key : string) (w ops bytes : Z) (s : S) : Usage * option usage_err * S :=
  if negb (checkWindow w) then (mkUsage 0 0 0 0, Some ErrWindow, s)
  else match load ctx now key w s with
       | (u, _, Some e, s) => (u, Some (ErrKv e), s)
       | (u, fresh, None, s) =>
           let u := bump u ops bytes in
           let '(err, s) := save ctx now' key w u fresh s in (u, ErrKv <$> err, s)
       end.

Definition Reset_ (ctx : bool) (now : Z) (key : string) (s : S) : option usage_err * S :=
  let '(err, s) := deleteWindows ctx now key "" s in (ErrKv <$> err, s).

End ledger.

(** ** The keys of entries *)

(** Whole seconds, as configurations give them, up to 136 years. *)
Definition whole (w : Z) : Prop := ∃ n, 1 ≤ n < 2 ^ 32 ∧ w = n * second.

(** A window of length [w] that starts at [start], in the years 1678 to 2262. *)
Definition aligned (w start : Z) : Prop := (start + zero_offset) mod w = 0 ∧ - 2 ^ 63 ≤ start < 2 ^ 63.

Lemma whole_pos w : whole w → second ≤ w < 2 ^ 62.
Proof. intros (n & Hn & ->). unfold second. lia. Qed.

Lemma whole_checks w : whole w → checkWindow w = true.
Proof. intros H%whole_pos. apply Z.leb_le, H. Qed.

Lemma aligned_seconds w start : whole w → aligned w start → start = start / second * second.
Proof.
  intros (n & Hn & ->) [Ha _]. unfold second in *. assert (Hz : (start + zero_offset) mod (10 ^ 9) = 0).
  { apply Z.mod_divide; [lia|]. apply Z.mod_divide in Ha; [|lia]. eapply Z.divide_trans; [|exact Ha]. by exists n. }
  unfold zero_offset in Hz. rewrite Z.mod_add in Hz by lia. pose proof (Z.div_mod start (10 ^ 9)). lia.
Qed.

Lemma str_app_free_inj (a b x y : string) :
  free "/" a = true → free "/" b = true → a +:+ "/" +:+ x = b +:+ "/" +:+ y → a = b ∧ x = y.
Proof. intros Ha Hb E. by eapply (separator_inj _ "/"%char); [exact Ha|exact Hb| |exact E]. Qed.

Lemma entryPrefix_inj key key' x y : entryPrefix key +:+ x = entryPrefix key' +:+ y → key = key' ∧ x = y.
Proof.
  unfold entryPrefix. rewrite !str_app_assoc. intros E%(inj (String.append ledgerPrefix)).
  apply str_app_free_inj in E as [E ->]; [|apply QueryEscape_free..]. by apply QueryEscape_inj in E as ->.
Qed.

Lemma entryKey_inj key key' w w' start start' :
  whole w → whole w' → aligned w start → aligned w' start' → entryKey key w start = entryKey key' w' start' →
  key = key' ∧ w = w' ∧ start = start'.
Proof.
  intros Hw Hw' Ha Ha' E. unfold entryKey in E. apply entryPrefix_inj in E as [-> E]. split; [done|].
  apply str_app_free_inj in E as [Ew Es]; [|apply FormatInt_free..].
  destruct Hw as (n & Hn & ->) eqn:Hw1. destruct Hw' as (n' & Hn' & ->) eqn:Hw2. clear Hw1 Hw2.
  assert (En : n = n').
  { rewrite !Z.quot_mul in Ew by (unfold second; lia). by apply FormatInt_inj in Ew; [|lia..]. }
  subst n'. split; [done|]. assert (Hb : ∀ x, - 2 ^ 63 ≤ x < 2 ^ 63 → - 10 ^ 20 < x / second < 10 ^ 20).
  { intros x Hx. unfold second. split; [apply Z.lt_le_trans with (- 2 ^ 63); [lia|apply Z.div_le_lower_bound; lia]|apply Z.div_lt_upper_bound; lia]. }
  apply FormatInt_inj in Es; [|apply Hb, Ha|apply Hb, Ha'].
  rewrite (aligned_seconds (n * second) start), (aligned_seconds (n * second) start'), Es; try done; by exists n.
Qed.

Lemma window_aligned now w : whole w → 0 ≤ now < 2 ^ 63 → aligned w (window now w).1 ∧ (window now w).1 ≤ now < (window now w).2.
Proof.
  intros Hw%whole_pos Hnow. cbn. assert (Hm := Z.mod_pos_bound (now + zero_offset) w ltac:(unfold second in *; lia)).
  split; [split; [|unfold second in *; lia]|lia].
  replace (now - (now + zero_offset) mod w + zero_offset) with (now + zero_offset - (now + zero_offset) mod w) by lia.
  rewrite Zminus_mod_idemp_r, Z.sub_diag. done.
Qed.

Lemma prefix_split p k : String.prefix p k = true → ∃ y, k = p +:+ y.
Proof.
  revert k. induction p as [|c p IH]; intros k; [by exists k|]. destruct k as [|d k]; [done|]. cbn.
  destruct (Ascii.ascii_dec c d) as [->|]; [|done]. intros [y ->]%IH. by exists y.
Qed.

Lemma prefix_append p y : String.prefix p (p +:+ y) = true.
Proof.
  induction p as [|c p IH]; [by destruct y|]. change (String c p +:+ y) with (String c (p +:+ y)). cbn.
  destruct (Ascii.ascii_dec c c); [apply IH|done].
Qed.

(** ** The table the ledger keeps *)

(** Calls and bytes by key, window length and start. *)
Abbreviation table := (gmap (string * Z * Z) (Z * Z)).

Inductive lop :=
| LUsage (key : string) (w : Z)
| LTake (key : string) (w maxOps : Z)
| LAdd (key : string) (w ops bytes : Z)
| LReset (key : string).

Definition count (m : table) (now : Z) (key : string) (w : Z) : Usage :=
  let '(start, reset) := window now w in
  let '(o, b) := default (0, 0) (m !! (key, w, start)) in mkUsage o b start reset.

Definition set_count (m : table) (key : string) (w : Z) (u : Usage) : table := <[(key, w, Start u) := (Ops u, Bytes u)]> m.

(** What an operation answers and leaves, on the table. *)
Definition spec_do (now : Z) (o : lop) (m : table) : Usage * bool * table :=
  match o with
  | LUsage key w => (count m now key w, true, m)
  | LTake key w maxOps =>
      let u := count m now key w in
      if maxOps <=? Ops u then (u, false, m) else (bump u 1 0, true, set_count m key w (bump u 1 0))
  | LAdd key w ops bytes => let u := bump (count m now key w) ops bytes in (u, true, set_count m key w u)
  | LReset key => (mkUsage 0 0 0 0, true, filter (λ x, x.1.1.1 ≠ key) m)
  end.

Section refinement.
Context {S : Type} `{KL : KvLaws S} `{UJ : UsageJSON} `{UL : !UsageJSONLaws}.

(** On a store with expiry. *)
Definition ledger_do (now now' : Z) (o : lop) (s : S) : Usage * bool * option usage_err * S :=
  match o with
  | LUsage key w => let '(u, err, s) := Usage_ false now key w s in (u, true, err, s)
  | LTake key w maxOps => Take true false now now' key w maxOps s
  | LAdd key w ops bytes => let '(u, err, s) := Add true false now now' key w ops bytes s in (u, true, err, s)
  | LReset key => let '(err, s) := Reset_ false now key s in (mkUsage 0 0 0 0, true, err, s)
  end.

(** The entries of the windows that are not over at [t] are the table's, and
    last until then. *)
Record agrees (t : Z) (s : S) (m : table) : Prop := {
  ag_inv : kv_inv s;
  ag_open : kv_open s = true;
  ag_count key w start :
    whole w → aligned w start → t < start + w →
    (live t (kv_view s) !! entryKey key w start ≫= λ x, usage_Unmarshal x.1) = m !! (key, w, start);
  ag_expiry key w start v e :
    whole w → aligned w start → live t (kv_view s) !! entryKey key w start = Some (v, Some e) → start + w ≤ e;
}.

Lemma agrees_later t t' s m : t ≤ t' → agrees t s m → agrees t' s m.
Proof.
  intros Ht I. split; [apply I|apply I| |].
  - intros key w start Hw Ha Hlt. rewrite <-(ag_count _ _ _ I) by (done || lia). rewrite <-(live_live t t') by done.
    destruct (live t (kv_view s) !! entryKey key w start) as [[v e]|] eqn:E.
    + assert (Hl : live t' (live t (kv_view s)) !! entryKey key w start = Some (v, e)); [|by rewrite Hl].
      apply live_lookup. split; [done|]. unfold entry_live. cbn. destruct e as [e|]; [|done].
      pose proof (ag_expiry _ _ _ I key w start v e Hw Ha E). apply Z.ltb_lt. lia.
    + assert (Hl : live t' (live t (kv_view s)) !! entryKey key w start = None); [|by rewrite Hl].
      apply live_None. intros x Hx. by rewrite E in Hx.
  - intros key w start v e Hw Ha E. eapply (ag_expiry _ _ _ I); [done..|]. rewrite <-(live_live t t') in E by done.
    by apply live_lookup in E as [E _].
Qed.

Lemma agrees_same t s s' m : agrees t s m → kv_inv s' → kv_open s' = kv_open s → live t (kv_view s') = live t (kv_view s) → agrees t s' m.
Proof. intros [] Hi Ho Hl. split; [done|by rewrite Ho|by rewrite Hl..]. Qed.

Lemma load_ok now key w s m u fresh err s' :
  whole w → 0 ≤ now < 2 ^ 63 → agrees now s m → load false now key w s = (u, fresh, err, s') →
  err = None ∧ agrees now s' m ∧ u = count m now key w.
Proof.
  intros Hw Hn I. destruct (window_aligned now w Hw Hn) as [Ha Hb]. unfold load, count. cbn [fst snd] in *.
  destruct (window now w) as [start reset] eqn:Ew. cbn [fst snd] in *. injection Ew as Es Er.
  destruct (kv_Get false now (entryKey key w start) s) as [r s1] eqn:Eg.
  destruct (kv_get_law _ _ _ _ _ _ (ag_inv _ _ _ I) Eg) as (Hi & Ho & Hl & Hr).
  assert (I' : agrees now s1 m) by by eapply agrees_same. pose proof (ag_open _ _ _ I) as Hopen.
  assert (Hc := ag_count _ _ _ I key w start Hw Ha ltac:(lia)).
  destruct r as [[raw|]|e]; [| |destruct Hr; congruence].
  - destruct (live now (kv_view s) !! entryKey key w start) as [[v e]|] eqn:El; [|done]. cbn in Hr. injection Hr as ->.
    cbn in Hc. rewrite <-Hc. destruct (default (0, 0) (usage_Unmarshal v)) as [o b]. intros [= <- <- <- <-]. done.
  - destruct (live now (kv_view s) !! entryKey key w start) as [[v e]|] eqn:El; [done|]. cbn in Hc. rewrite <-Hc.
    intros [= <- <- <- <-]. done.
Qed.

(** An entry of another window is another entry. *)
Lemma save_ok now key w u fresh s m err s' :
  whole w → aligned w (Start u) → Reset u = Start u + w → Start u ≤ now → now + 10 ^ 6 ≤ Reset u + w → 0 ≤ now < 2 ^ 63 →
  - 2 ^ 63 ≤ Ops u < 2 ^ 63 → - 2 ^ 63 ≤ Bytes u < 2 ^ 63 → agrees now s m →
  kv_fits now (entryKey key w (Start u)) (usage_Marshal (Ops u) (Bytes u)) s →
  save true false now key w u fresh s = (err, s') →
  agrees now s' (if err is None then set_count m key w u else m).
Proof.
  intros Hw Ha Hr Hnow Hlate Hn Ho Hb I Hf Hs. pose proof (whole_pos w Hw) as Hp. unfold second in Hp.
  unfold save in Hs. set (ttl := int64 _) in Hs.
  assert (Ettl : ttl = Start u + 2 * w - now). { unfold ttl, time_sub. rewrite int64_small; lia. }
  destruct (kv_ttl_law _ _ _ _ _ _ _ _ (ag_inv _ _ _ I) Hs) as (Hi & Hop & Hw').
  destruct err as [e|]; [by eapply agrees_same|]. destruct Hw' as (_ & _ & Hlive). specialize (Hlive Hf).
  destruct (kv_expires_bound now ttl ltac:(lia)) as (e & Ee & Hexp). rewrite Ee in Hlive.
  set (x := (usage_Marshal (Ops u) (Bytes u), Some e)) in Hlive.
  assert (Hx : entry_live now x = true) by (apply Z.ltb_lt; lia).
  assert (Hlk : ∀ k, live now (kv_view s') !! k = if bool_decide (k = entryKey key w (Start u)) then Some x else live now (kv_view s) !! k).
  { intros k. rewrite Hlive. case_bool_decide as Ek; [subst; apply live_lookup; by rewrite lookup_insert_eq|].
    apply option_eq. intros y. rewrite !live_lookup, lookup_insert_ne by done. done. }
  split; [done|rewrite Hop; apply I| |].
  - intros key' w' start' Hw' Ha' Hlt. rewrite Hlk. unfold set_count. case_bool_decide as Ek.
    + apply entryKey_inj in Ek as (-> & -> & ->); [|done..]. rewrite lookup_insert_eq. cbn. by apply usage_roundtrip.
    + rewrite lookup_insert_ne by congruence. by apply (ag_count _ _ _ I).
  - intros key' w' start' v e' Hw' Ha'. rewrite Hlk. case_bool_decide as Ek; [|by apply (ag_expiry _ _ _ I)].
    apply entryKey_inj in Ek as (-> & -> & ->); [|done..]. intros [= _ <-]. lia.
Qed.

Lemma delete_all_ok now keep ks : ∀ s err s',
  kv_inv s → kv_open s = true → delete_all false now keep ks s = (err, s') →
  err = None ∧ kv_inv s' ∧ kv_open s' = true ∧
  ∀ k, live now (kv_view s') !! k = if bool_decide (k ∈ ks ∧ k ≠ keep) then None else live now (kv_view s) !! k.
Proof.
  induction ks as [|k ks IH]; intros s err s' Hi Ho; cbn [delete_all].
  { intros [= <- <-]. split_and!; try done. }
  destruct (String.eqb_spec k keep) as [->|Hk].
  - intros (-> & Hi' & Ho' & Hv)%IH; [|done..]. split_and!; try done. intros j. rewrite Hv.
    erewrite bool_decide_ext; [done|]. rewrite elem_of_cons. intuition congruence.
  - destruct (kv_Delete false now k s) as [e s1] eqn:Ed. destruct (kv_delete_law _ _ _ _ _ _ Hi Ed) as (Hi1 & Ho1 & Hd).
    destruct e as [e|]; [by destruct Hd as [_ [?|?]]; congruence|].
    intros (-> & Hi' & Ho' & Hv)%IH; [|done|by rewrite Ho1]. split_and!; try done. intros j. rewrite Hv, Hd.
    destruct (decide (j = k)) as [->|Hj].
    + rewrite lookup_delete_eq, (bool_decide_eq_true_2 (k ∈ k :: ks ∧ _)); [by case_bool_decide|]. split; [left|done].
    + rewrite lookup_delete_ne by done. erewrite bool_decide_ext; [done|]. rewrite elem_of_cons. naive_solver.
Qed.

Lemma reset_ok now key s m err s' :
  agrees now s m → Reset_ false now key s = (err, s') → err = None ∧ agrees now s' (filter (λ x, x.1.1.1 ≠ key) m).
Proof.
  intros I. pose proof (ag_open _ _ _ I) as Hopen. unfold Reset_, deleteWindows.
  destruct (kv_List false now (entryPrefix key) s) as [r s1] eqn:El.
  destruct (kv_list_law _ _ _ _ _ _ (ag_inv _ _ _ I) El) as (Hi & Ho & Hsame & Hr).
  destruct r as [ks|e]; [|destruct Hr; congruence]. destruct Hr as [_ Hks].
  destruct (delete_all false now "" ks s1) as [e s2] eqn:Ed. intros [= <- <-].
  destruct (delete_all_ok now "" ks s1 e s2 Hi ltac:(congruence) Ed) as (-> & Hi2 & Ho2 & Hv). split; [done|].
  assert (Hin : ∀ key' w start, entryKey key' w start ∈ ks ↔ key' = key ∧ is_Some (live now (kv_view s) !! entryKey key' w start)).
  { intros key' w start. rewrite Hks. unfold entryKey. split; intros [Hp Hs]; (split; [|done]).
    - apply prefix_split in Hp as [y Ey]. by apply entryPrefix_inj in Ey as [-> _].
    - subst. apply prefix_append. }
  assert (Hne : ∀ key' w start, entryKey key' w start ≠ "") by done.
  split; [done..| |].
  - intros key' w start Hw Ha Hlt. rewrite Hv, Hsame. case_bool_decide as Hd.
    + destruct Hd as [[-> _]%Hin _]. symmetry. apply map_lookup_filter_None. right. cbn. naive_solver.
    + rewrite (ag_count _ _ _ I) by done. destruct (decide (key' = key)) as [->|Hk].
      * assert (E : live now (kv_view s) !! entryKey key w start = None).
        { apply eq_None_not_Some. intros Hs. apply Hd. split; [by apply Hin|done]. }
        rewrite <-(ag_count _ _ _ I), E by done. symmetry. apply map_lookup_filter_None. right. cbn. naive_solver.
      * symmetry. destruct (m !! (key', w, start)) eqn:Em.
        -- by apply map_lookup_filter_Some.
        -- apply map_lookup_filter_None. by left.
  - intros key' w start v e' Hw Ha. rewrite Hv, Hsame. case_bool_decide; [done|]. by apply (ag_expiry _ _ _ I).
Qed.

Lemma int64_range x : - 2 ^ 63 ≤ int64 x < 2 ^ 63.
Proof. unfold int64. pose proof (Z.mod_pos_bound (x + 2 ^ 63) (2 ^ 64)). lia. Qed.

(** The window an operation writes, if any. *)
Definition writes_window (o : lop) : option (string * Z) :=
  match o with LTake key w _ | LAdd key w _ _ => Some (key, w) | _ => None end.

(** Windows are whole seconds; the second reading of the clock is not before the
    first, nor a whole window after the window's end (but for a millisecond);
    the store has room for the entry. *)
Definition allowed (now now' : Z) (o : lop) (s : S) : Prop :=
  0 ≤ now ≤ now' ∧ now' < 2 ^ 63 ∧ (match o with LUsage _ w => whole w | _ => True end) ∧
  match writes_window o with
  | None => True
  | Some (key, w) =>
      whole w ∧ now' + 10 ^ 6 ≤ (window now w).2 + w ∧
      ∀ raw, kv_fits now' (entryKey key w (window now w).1) raw (load false now key w s).2
  end.

(** Operations from an empty store on, with the table beside; a failed write
    counts for nothing. *)
Inductive lrun : Z → S → table → Prop :=
| lrun_new t s : kv_inv s → kv_open s = true → kv_view s = ∅ → lrun t s ∅
| lrun_step t s m now now' o u b err s' :
    lrun t s m → t ≤ now → allowed now now' o s → ledger_do now now' o s = (u, b, err, s') →
    lrun now' s' (if err is None then (spec_do now o m).2 else m).

Lemma count_window m now key w : Start (count m now key w) = (window now w).1 ∧ Reset (count m now key w) = (window now w).2.
Proof. unfold count. destruct (window now w), (default _ _). done. Qed.

(** Reading the window and writing it back with more counted. *)
Lemma write_ok now now' key w ops bytes s m u fresh err s1 err' s' :
  whole w → 0 ≤ now ≤ now' → now' < 2 ^ 63 → now' + 10 ^ 6 ≤ (window now w).2 + w →
  (∀ raw, kv_fits now' (entryKey key w (window now w).1) raw s1) → agrees now s m →
  load false now key w s = (u, fresh, err, s1) → save true false now' key w (bump u ops bytes) fresh s1 = (err', s') →
  agrees now' s' (if err' is None then set_count m key w (bump (count m now key w) ops bytes) else m).
Proof.
  intros Hw Hn Hn' Hlate Hf I Hl Hs. assert (Hn0 : 0 ≤ now < 2 ^ 63) by lia. destruct (window_aligned now w Hw Hn0) as [Ha Hb].
  destruct (load_ok _ _ _ _ _ _ _ _ _ Hw Hn0 I Hl) as (_ & I1 & ->). destruct (count_window m now key w) as [Est Ere].
  apply (agrees_later _ now') in I1; [|lia]. apply (save_ok _ _ _ _ _ _ m _ _ Hw) in Hs; [done|..]; cbn [bump Start Reset Ops Bytes];
    rewrite ?Est, ?Ere; try done; try apply int64_range; lia.
Qed.

Lemma ledger_step now now' o s m u b err s' :
  agrees now s m → allowed now now' o s → ledger_do now now' o s = (u, b, err, s') →
  (u, b) = (spec_do now o m).1 ∧ agrees now' s' (if err is None then (spec_do now o m).2 else m).
Proof.
  intros I (Hn & Hn' & Hu & Ha). assert (Hn0 : 0 ≤ now < 2 ^ 63) by lia. destruct o as [key w|key w maxOps|key w ops bytes|key]; cbn [ledger_do spec_do writes_window] in *.
  - unfold Usage_. rewrite whole_checks by done. cbn [negb].
    destruct (load false now key w s) as [[[u0 f] e] s1] eqn:El. intros [= <- <- <- <-].
    destruct (load_ok _ _ _ _ _ _ _ _ _ Hu Hn0 I El) as (-> & I1 & ->). cbn. split; [done|]. apply (agrees_later now); [lia|done].
  - destruct Ha as (Hw & Hlate & Hf). unfold Take. rewrite whole_checks by done. cbn [negb].
    destruct (load false now key w s) as [[[u0 f] e] s1] eqn:El. cbn [snd] in Hf.
    destruct (load_ok _ _ _ _ _ _ _ _ _ Hw Hn0 I El) as (-> & I1 & ->). case_match.
    + intros [= <- <- <- <-]. cbn. split; [done|]. apply (agrees_later now); [lia|done].
    + destruct (save _ _ _ _ _ _ _ _) as [e s2] eqn:Es. intros [= <- <- <- <-]. cbn [fst snd]. split; [done|].
      replace (if ErrKv <$> e is None then _ else _) with (if e is None then set_count m key w (bump (count m now key w) 1 0) else m) by by destruct e.
      by apply (write_ok now now' key w 1 0 s m (count m now key w) f None s1 e s2).
  - destruct Ha as (Hw & Hlate & Hf). unfold Add. rewrite whole_checks by done. cbn [negb].
    destruct (load false now key w s) as [[[u0 f] e] s1] eqn:El. cbn [snd] in Hf.
    destruct (load_ok _ _ _ _ _ _ _ _ _ Hw Hn0 I El) as (-> & I1 & ->).
    destruct (save _ _ _ _ _ _ _ _) as [e s2] eqn:Es. intros [= <- <- <- <-]. cbn [fst snd]. split; [done|].
    replace (if ErrKv <$> e is None then _ else _) with (if e is None then set_count m key w (bump (count m now key w) ops bytes) else m) by by destruct e.
    by apply (write_ok now now' key w ops bytes s m (count m now key w) f None s1 e s2).
  - destruct (Reset_ false now key s) as [e s1] eqn:Er. intros [= <- <- <- <-].
    destruct (reset_ok _ _ _ _ _ _ I Er) as [-> I1]. split; [done|]. apply (agrees_later now); [lia|done].
Qed.

Lemma lrun_agrees t s m : lrun t s m → agrees t s m.
Proof.
  induction 1 as [t s Hi Ho Hv|t s m now now' o u b err s' _ IH Ht Ha Hd].
  - assert (Hn : ∀ k, live t (kv_view s) !! k = None) by (intros k; apply live_None; intros x; by rewrite Hv, lookup_empty).
    split; [done..| |]; intros; [by rewrite Hn|congruence].
  - eapply ledger_step; [by eapply agrees_later|done..].
Qed.


End refinement.
