(* ===== verification/UsageExamples.v ===== *)
(** * Runs of the usage ledger

    A text form of the counters that reads back, the ledger over the SQLite
    driver, and what a store without expiry does to windows of two lengths. *)

From Stdlib Require Import Ascii.
From S2P Require Import Prelude Fingerprint Topics StreamWire GoStrings KvStore KvSqlite Usage.

Local Open Scope Z_scope.

Definition read_int (s : string) : Z :=
  match s with
  | String "-"%char s => - digits_value s 0
  | s => digits_value s 0
  end.

Lemma read_int_format n : - 10 ^ 20 < n < 10 ^ 20 → read_int (FormatInt n) = n.
Proof.
  intros Hn. unfold FormatInt. destruct (Z.ltb_spec n 0); cbn [read_int]; [rewrite formatOffset_value; lia|].
  pose proof (formatOffset_all_digits n ltac:(lia)) as Hd. pose proof (formatOffset_value n ltac:(lia)) as Hv.
  destruct (formatOffset n) as [|c s]; [done|]. destruct (ascii_dec c "-") as [->|Hc]; [done|].
  rewrite <-Hv. unfold read_int. destruct c as [[] [] [] [] [] [] [] []]; done.
Qed.

#[export] Instance slash_json : UsageJSON := {|
  usage_Marshal o b := FormatInt o +:+ "/" +:+ FormatInt b;
  usage_Unmarshal s := match SplitOn "/" s with [o; b] => Some (read_int o, read_int b) | _ => None end;
|}.

#[export] Instance slash_json_laws : UsageJSONLaws.
Proof.
  intros o b Ho Hb. cbn -[SplitOn String.append]. change (FormatInt o +:+ "/" +:+ FormatInt b) with (FormatInt o +:+ String "/" (FormatInt b)).
  rewrite SplitOn_sep, SplitOn_free by apply FormatInt_free. by rewrite !read_int_format by lia.
Qed.

#[export] Instance order : MapOrder := elements_order.

Definition hour : Z := 3600 * second.
Definition noon : Z := 1700000000 * second.

Definition take_one (now : Z) (s : Store) : Store := (ledger_do now (now + 1000) (LTake "alice" hour 2) s).2.

Lemma hour_whole : whole hour.
Proof. by exists 3600. Qed.

Lemma take_allowed now s : 0 ≤ now < 2 ^ 62 → allowed now (now + 1000) (LTake "alice" hour 2) s.
Proof.
  intros Hn. destruct (window_aligned now hour hour_whole ltac:(lia)) as [_ Hb].
  unfold allowed. cbn [writes_window]. split_and!; try done; try apply hour_whole; unfold hour, second in *; lia.
Qed.

Definition counted_one (now : Z) (m : table) : table := (spec_do now (LTake "alice" hour 2) m).2.

Lemma took t s m now :
  lrun t s m → t ≤ now → 0 ≤ now < 2 ^ 62 → (ledger_do now (now + 1000) (LTake "alice" hour 2) s).1.2 = None →
  lrun (now + 1000) (take_one now s) (counted_one now m).
Proof.
  intros Hr Ht Hn He. unfold take_one, counted_one. destruct (ledger_do now (now + 1000) (LTake "alice" hour 2) s) as [[[u b] err] s'] eqn:E.
  cbn in He. subst err. eapply (lrun_step t s m now (now + 1000) _ u b None s'); [done..|by apply take_allowed|done].
Qed.


(** On a store without expiry, the first call of a new hour deletes the day's
    count, which is not over. *)
Example short_window_forgets_long :
  let day := 24 * hour in
  let s1 := (Add false false noon noon "alice" day 5 0 NewContext).2 in
  let s2 := (Add false false (noon + hour) (noon + hour) "alice" hour 1 0 s1).2 in
  Ops (Usage_ false noon "alice" day s1).1.1 = 5 ∧ Ops (Usage_ false (noon + hour) "alice" day s2).1.1 = 0 ∧
  (window noon day) = (window (noon + hour) day).
Proof. vm_compute. done. Qed.

(** A week does not start at a multiple of seven days of the Unix epoch: the
    first window that holds the epoch began three days before it. *)
Example week_not_epoch_aligned :
  let week := 7 * 24 * hour in (window 0 week).1 = - (3 * 24 * hour) ∧ (window 0 week).1 mod week ≠ 0.
Proof. vm_compute. done. Qed.
