(* ===== verification/Reflect.v ===== *)
(** * Reflection of a command tree (go/ai/cmdreflect, go/console/cli/cmdmeta)

    A cobra tree as data: names, annotations and subcommands, as the library
    reports them.  Every command gets a descriptor with its risk profile and
    the verdict whether a transport may offer it.  Flags, examples and next
    steps, which no verdict depends on, are left out. *)

From Stdlib Require Import Ascii.
From S2P Require Import Prelude Fingerprint Topics StreamWire GoStrings.

Local Open Scope Z_scope.

(** ** Commands *)

#[warnings="-register-all"]
Inductive Command := mkCommand {
  Name : string;
  Use : string;
  Annotations : gmap string string;
  Deprecated : string;
  Hidden : bool;
  Runnable : bool;
  DisableFlagParsing : bool;
  flag_names : list string;                      (* the flags [Flags().Lookup] finds *)
  Commands : list Command;
}.

(** ** Annotations (cmdmeta) *)

Definition read (c : Command) (key : string) : string := default "" (Annotations c !! key).

Definition ReadBool (c : Command) (key : string) : bool := String.eqb (read c key) "true".

Definition KeySideEffect := "kit/side-effect".
Definition KeyDryRun := "kit/dry-run".
Definition KeySelfHosting := "kit/self-hosting".
Definition KeyReserved := "kit/reserved".
Definition KeyRetryable := "kit/retryable".
Definition KeyOutputSchema := "kit/output-schema".
Definition KeyOutputSchemaVersion := "kit/output-schema-version".

Definition destructiveNames : list string := ["delete"; "remove"; "rm"; "destroy"; "purge"; "drop"].

Definition IsDestructiveName (name : string) : bool := existsb (String.eqb name) destructiveNames.

Definition InferredDestructive (c : Command) : bool :=
  if negb (String.eqb (read c KeySideEffect) "") then false else IsDestructiveName (Name c).

(** The command and its ancestors, the root last. *)
Definition InReservedTree (chain : list Command) : bool := existsb (λ c, ReadBool c KeyReserved) chain.

Definition IsDryRunSupported (c : Command) : bool :=
  if String.eqb (read c KeyDryRun) "opted-out" then false
  else if String.eqb (read c KeyDryRun) "supported" then true
  else if InferredDestructive c then true
  else existsb (String.eqb (read c KeySideEffect))
         ["write"; "write-local"; "write-shared"; "destructive"; "destructive-local"; "destructive-shared"].

Record ArgSpec := mkArg { arg_Name : string; Optional : bool; Variadic : bool }.

(** [strings.CutSuffix]. *)
Definition CutSuffix (s suffix : string) : string * bool :=
  let n := (String.length s - String.length suffix)%nat in
  if (String.length suffix <=? String.length s)%nat && String.eqb (str_drop n s) suffix then (str_take n s, true) else (s, false).

Definition ParseArgs (raw : string) : list ArgSpec :=
  omap (λ entry, let entry := TrimSpace entry in
                 if String.eqb entry "" then None
                 else let '(entry, opt) := CutSuffix entry "?" in
                      let '(entry, var) := CutSuffix entry "..." in Some (mkArg entry opt var)) (SplitOn "," raw).

(** [splitCSV]. *)
Definition splitCSV (s : string) : list string :=
  filter (λ p, p ≠ "") (TrimSpace <$> SplitOn "," s).

(** ** Tiers *)

Inductive Tier :=
| TierRead | TierWriteLocal | TierWriteShared | TierDestructiveLocal | TierDestructiveShared | TierInteractive
| TierUnannotated | TierUnknown.

#[export] Instance Tier_eq_dec : EqDecision Tier.
Proof. solve_decision. Defined.

Definition resolveTier (raw : string) : Tier :=
  if String.eqb raw "read" then TierRead
  else if String.eqb raw "write" then TierWriteShared
  else if String.eqb raw "write-local" then TierWriteLocal
  else if String.eqb raw "write-shared" then TierWriteShared
  else if String.eqb raw "destructive" then TierDestructiveShared
  else if String.eqb raw "destructive-local" then TierDestructiveLocal
  else if String.eqb raw "destructive-shared" then TierDestructiveShared
  else if String.eqb raw "interactive" then TierInteractive
  else TierUnknown.

Definition fsPermission (t : Tier) : string :=
  match t with
  | TierWriteLocal | TierUnannotated => "kit:fs:write:local"
  | TierWriteShared => "kit:fs:write:shared"
  | TierDestructiveLocal => "kit:fs:destructive:local"
  | TierDestructiveShared => "kit:fs:destructive:shared"
  | _ => "kit:fs:read"
  end.

Definition safetyLevel (t : Tier) : string :=
  match t with
  | TierWriteLocal | TierWriteShared | TierInteractive | TierUnannotated => "caution"
  | TierDestructiveLocal | TierDestructiveShared => "dangerous"
  | _ => "safe"
  end.

Definition PermNetworkNone := "kit:network:none".
Definition PermNetworkEgressPrivate := "kit:network:egress:private".
Definition PermNetworkIngress := "kit:network:ingress".

Definition resolveNetwork (raw : string) : string :=
  if String.eqb raw "egress:public" then "kit:network:egress:public"
  else if String.eqb raw "egress:private" then PermNetworkEgressPrivate
  else if String.eqb raw "ingress" then PermNetworkIngress
  else PermNetworkNone.

(** ** Descriptors *)

Record Safety := mkSafety {
  sTier : Tier;
  DeclaredSideEffect : string;
  TierInferred : bool;
  Level : string;
  Network : string;
  Permissions : list string;
  RequiresConfirmation : bool;
  ConfirmationDeclared : bool;
  DestructiveTokenRequired : bool;
  AuthRequired : bool;
  Idempotent : string;
  Retryable : bool;
  DryRunSupported : bool;
  DryRunRationale : string;
  ExitCodes : list string;
}.

Definition tier_destructive (t : Tier) : bool :=
  match t with TierDestructiveLocal | TierDestructiveShared => true | _ => false end.

Definition Destructive (s : Safety) : bool := tier_destructive (sTier s).

(** [isDeprecated] and the rest of [SurfaceMeta] the verdict reads. *)
Record SurfaceMeta := mkSurface {
  sHidden : bool;
  sRunnable : bool;
  HasSubCommands : bool;
  Builtin : bool;
  sDeprecated : bool;
  SpecCommand : bool;
  Reserved : bool;
  SelfHosting : bool;
}.

Inductive NonInvocableReason :=
| ReasonNotRunnable | ReasonBuiltin | ReasonMalformedSchema | ReasonHiddenInternal | ReasonSelfHosting | ReasonManagementOnly
| ReasonDeprecated | ReasonInteractive | ReasonUnauthorizedDestructive.

#[export] Instance NonInvocableReason_eq_dec : EqDecision NonInvocableReason.
Proof. solve_decision. Defined.

Definition reasonPrecedence : list NonInvocableReason :=
  [ReasonNotRunnable; ReasonBuiltin; ReasonMalformedSchema; ReasonHiddenInternal; ReasonSelfHosting; ReasonManagementOnly;
   ReasonDeprecated; ReasonInteractive; ReasonUnauthorizedDestructive].

(** [None] is [ReasonNone]. *)
Definition pickReason (candidates : list NonInvocableReason) : option NonInvocableReason :=
  List.find (λ r, bool_decide (r ∈ candidates)) reasonPrecedence.

Record Descriptor := mkDescriptor {
  dPath : list string;
  dArgs : list ArgSpec;
  dSafety : Safety;
  dSurface : SurfaceMeta;
  Schema : option (string * string);
  SchemaMalformed : bool;
  Reason : option NonInvocableReason;
  Cmd : Command;
}.

Definition Invocable (d : Descriptor) : bool := bool_decide (Reason d = None).

Definition IsRoot (d : Descriptor) : bool := (length (dPath d) <=? 1)%nat.
Definition dPathKey (d : Descriptor) : string := Join " " (tail (dPath d)).

(** ** Options *)

Record config := mkConfig {
  reserved : option (string → bool);
  allowDeprecated : bool;
  allowHidden : bool;
  allowInteractive : bool;
  allowReserved : bool;
  destructiveDenied : bool;
  destructiveDenyFunc : option (Descriptor → bool);
}.

Definition no_options : config := mkConfig None false false false false false None.

(** ** The walk *)

Section reflect.
Variable json_Valid : string → bool.

Definition isBuiltin (chain : list Command) : bool :=
  match chain with
  | [] => false
  | c :: anc =>
      existsb (String.eqb (Name c)) ["help"; "completion"; "man"; "__complete"; "__completeNoDesc"] ||
      match anc with p :: _ => String.eqb (Name p) "completion" | [] => false end
  end.

(** The name below the root; empty for the root. *)
Definition depthOneName (chain : list Command) : string :=
  match reverse chain with _ :: c :: _ => Name c | _ => "" end.

Definition serveVerb := "serve".

(** The command and its ancestors below the root. *)
Definition underServe (chain : list Command) : bool := existsb (λ c, String.eqb (Name c) serveVerb) (removelast chain).

Definition reflectSafety (c : Command) : Safety :=
  let raw := read c KeySideEffect in
  let inferred := bool_decide (resolveTier raw = TierUnknown) && String.eqb raw "" && IsDestructiveName (Name c) in
  let tier := if bool_decide (resolveTier raw = TierUnknown) && String.eqb raw "" then
                if IsDestructiveName (Name c) then TierDestructiveShared else TierUnannotated
              else resolveTier raw in
  let network := resolveNetwork (read c "kit/network") in
  let declared := ReadBool c "kit/requires-confirmation" in
  mkSafety tier raw inferred (safetyLevel tier) network
    ([fsPermission tier; network] ++ (if String.eqb (read c "kit/exec") "" then [] else ["kit:exec:subprocess"]) ++
     (if String.eqb (read c "kit/bus-publish") "" then [] else ["kit:bus:publish"]))%list
    (tier_destructive tier || String.eqb network PermNetworkEgressPrivate || String.eqb network PermNetworkIngress || inferred || declared)
    declared
    (existsb (String.eqb (read c "kit/destructive-token")) ["required"; "true"])
    (ReadBool c "kit/auth-required") (read c "kit/idempotent") (ReadBool c KeyRetryable) (IsDryRunSupported c)
    (read c "kit/dry-run-rationale") (splitCSV (read c "kit/exit-codes")).

Definition isSelfHosting (chain : list Command) (c : Command) (s : Safety) : bool :=
  ReadBool c KeySelfHosting || String.eqb (Network s) PermNetworkIngress || underServe chain.

Definition reflectSurface (cfg : config) (chain : list Command) (c : Command) (s : Safety) : SurfaceMeta :=
  mkSurface (Hidden c) (Runnable c) (negb (bool_decide (length (Commands c) = 0%nat))) (isBuiltin chain)
    (negb (String.eqb (Deprecated c) "") || negb (String.eqb (read c "kit/deprecated-since") "") || negb (String.eqb (read c "kit/removal-target") ""))
    (ReadBool c "kit/spec-command")
    (match reserved cfg with Some f => f (depthOneName chain) | None => false end || InReservedTree chain)
    (isSelfHosting chain c s).

(** Every rule that fires. *)
Definition fired (cfg : config) (d : Descriptor) : list NonInvocableReason :=
  let rule (b : bool) (r : NonInvocableReason) := if b then [r] else [] in
  (rule (negb (sRunnable (dSurface d))) ReasonNotRunnable ++
   rule (Builtin (dSurface d)) ReasonBuiltin ++
   rule (bool_decide (sTier (dSafety d) = TierUnknown) || SchemaMalformed d) ReasonMalformedSchema ++
   rule (sHidden (dSurface d) && negb (allowHidden cfg)) ReasonHiddenInternal ++
   rule (sDeprecated (dSurface d) && negb (allowDeprecated cfg)) ReasonDeprecated ++
   rule (bool_decide (sTier (dSafety d) = TierInteractive) && negb (allowInteractive cfg)) ReasonInteractive ++
   rule ((Reserved (dSurface d) || SpecCommand (dSurface d)) && negb (allowReserved cfg)) ReasonManagementOnly ++
   rule (SelfHosting (dSurface d)) ReasonSelfHosting ++
   rule (Destructive (dSafety d) && match destructiveDenyFunc cfg with Some f => f d | None => destructiveDenied cfg end)
     ReasonUnauthorizedDestructive)%list.

Definition decide_reason (cfg : config) (d : Descriptor) : Descriptor :=
  mkDescriptor (dPath d) (dArgs d) (dSafety d) (dSurface d) (Schema d) (SchemaMalformed d) (pickReason (fired cfg d)) (Cmd d).

Definition GetOutputSchemaJSON (c : Command) : option (string * string) :=
  if String.eqb (read c KeyOutputSchema) "" then None else Some (read c KeyOutputSchema, read c KeyOutputSchemaVersion).

(** [describe]; the command is the first of its chain. *)
Definition describe (cfg : config) (chain : list Command) (c : Command) (path : list string) : Descriptor :=
  let schema := GetOutputSchemaJSON c in
  let s := reflectSafety c in
  decide_reason cfg
    (mkDescriptor path (ParseArgs (read c "kit/args")) s (reflectSurface cfg chain c s) schema
       match schema with Some (raw, _) => negb (json_Valid raw) | None => false end None c).

Fixpoint walk (cfg : config) (anc : list Command) (path : list string) (c : Command) : list Descriptor :=
  describe cfg (c :: anc) c path ::
  (fix children (l : list Command) : list Descriptor :=
     match l with
     | [] => []
     | k :: l => ((if String.eqb (Name k) "" then [] else walk cfg (c :: anc) (path ++ [Name k]) k) ++ children l)%list
     end) (Commands c).

Definition Reflect (cfg : config) (root : Command) : list Descriptor := walk cfg [] [Name root] root.

Definition byPath (ds : list Descriptor) : gmap string Descriptor :=
  foldl (λ m d, if String.eqb (dPathKey d) "" then m else <[dPathKey d := d]> m) ∅ ds.

Definition Lookup (ds : list Descriptor) (pathKey : string) : option Descriptor := byPath ds !! pathKey.

Definition invocable (ds : list Descriptor) : list Descriptor := filter (λ d, Invocable d = true) ds.
Definition nonInvocable (ds : list Descriptor) : list Descriptor := filter (λ d, Invocable d = false) ds.

(** ** The tree and its descriptors *)

Lemma Command_tree_ind (P : Command → Prop) : (∀ c, (∀ k, k ∈ Commands c → P k) → P c) → ∀ c, P c.
Proof.
  intros H. fix IH 1. intros c. apply H. apply Forall_forall. destruct c as [? ? ? ? ? ? ? ? l]. cbn [Commands]. clear -IH.
  induction l as [|k l IHl]; constructor; [apply IH|exact IHl].
Qed.

(** The commands of the tree below [c], with their ancestors and their path. *)
Inductive under (anc : list Command) (path : list string) (c : Command) : list Command → Command → list string → Prop :=
| under_here : under anc path c anc c path
| under_child k chain p j :
    under anc path c chain k p → j ∈ Commands k → Name j ≠ "" → under anc path c (k :: chain) j (p ++ [Name j]).

Definition in_tree (root : Command) := under [] [Name root] root.

Lemma under_step anc path c k chain x p :
  k ∈ Commands c → Name k ≠ "" → under (c :: anc) (path ++ [Name k]) k chain x p → under anc path c chain x p.
Proof. intros Hk Hn. induction 1; [apply under_child; [apply under_here|done..]|by apply under_child]. Qed.

Lemma under_inv anc path c chain x p :
  under anc path c chain x p →
  (chain = anc ∧ x = c ∧ p = path) ∨
  ∃ k, k ∈ Commands c ∧ Name k ≠ "" ∧ under (c :: anc) (path ++ [Name k]) k chain x p.
Proof.
  induction 1 as [|k chain p j _ IH Hj Hn]; [by left|right]. destruct IH as [(-> & -> & ->)|(k' & Hk' & Hn' & Hu)].
  - exists j. split_and!; [done..|]. apply under_here.
  - exists k'. split_and!; [done..|]. by apply under_child.
Qed.

(** Exactly the commands of the tree are described. *)
Lemma in_walk cfg c : ∀ anc path d,
  d ∈ walk cfg anc path c ↔ ∃ chain x p, under anc path c chain x p ∧ d = describe cfg (x :: chain) x p.
Proof.
  induction c as [c IH] using Command_tree_ind. intros anc path d.
  assert (Hc : ∀ l, (∀ k, k ∈ l → k ∈ Commands c) →
    d ∈ (fix children (l : list Command) : list Descriptor :=
           match l with [] => [] | k :: l => ((if String.eqb (Name k) "" then [] else walk cfg (c :: anc) (path ++ [Name k]) k) ++ children l)%list end) l ↔
    ∃ k, k ∈ l ∧ Name k ≠ "" ∧ d ∈ walk cfg (c :: anc) (path ++ [Name k]) k).
  { induction l as [|k l IHl]; intros Hl; [split; [by intros ?%not_elem_of_nil|by intros (k & ?%not_elem_of_nil & _)]|].
    rewrite elem_of_app, IHl by (intros; apply Hl; by right). destruct (String.eqb_spec (Name k) "") as [E|E].
    - split; [intros [?%not_elem_of_nil|(j & ? & ?)]; [done|exists j; split; [by right|done]]|].
      intros (j & [->|Hj]%elem_of_cons & Hn & Hd); [done|right; eauto].
    - split; [intros [Hd|(j & ? & ?)]; [exists k; split; [left|done]|exists j; split; [by right|done]]|].
      intros (j & [->|Hj]%elem_of_cons & Hn & Hd); [by left|right; eauto]. }
  specialize (Hc (Commands c) (λ k H, H)). destruct c as [n u a dp h r df fl l] eqn:Ec. rewrite <-Ec in *.
  assert (Ew : walk cfg anc path c = describe cfg (c :: anc) c path ::
    (fix children (l : list Command) : list Descriptor :=
           match l with [] => [] | k :: l => ((if String.eqb (Name k) "" then [] else walk cfg (c :: anc) (path ++ [Name k]) k) ++ children l)%list end) (Commands c))
    by by rewrite Ec.
  rewrite Ew, elem_of_cons, Hc. clear Hc Ew. split.
  - intros [->|(k & Hk & Hn & Hd)]; [exists anc, c, path; split; [apply under_here|done]|].
    apply IH in Hd as (chain & x & p & Hu & ->); [|done]. exists chain, x, p. split; [by eapply under_step|done].
  - intros (chain & x & p & Hu & ->). apply under_inv in Hu as [(-> & -> & ->)|(k & Hk & Hn & Hu)]; [by left|right].
    exists k. split_and!; [done..|]. apply IH; [done|]. by exists chain, x, p.
Qed.

(** Names as cobra makes them: without blanks, and no two siblings alike. *)
Definition well_named (root : Command) : Prop :=
  free " " (Name root) = true ∧
  ∀ chain x p, in_tree root chain x p →
    (∀ j, j ∈ Commands x → free " " (Name j) = true) ∧
    (∀ j k, j ∈ Commands x → k ∈ Commands x → Name j = Name k → Name j ≠ "" → j = k).

Lemma under_path root chain x p : in_tree root chain x p → p ≠ [] ∧ head p = Some (Name root).
Proof.
  induction 1 as [|k chain p j _ [Hp IH] _ _]; [done|]. split; [by destruct p|]. by destruct p.
Qed.

Lemma under_free root chain x p : well_named root → in_tree root chain x p → Forall (λ n, free " " n = true ∧ n ≠ "") (tail p).
Proof.
  intros [_ Hw]. induction 1 as [|k chain p j Hu IH Hj Hn]; [constructor|].
  destruct (under_path _ _ _ _ Hu) as [Hp _]. destruct p as [|n p]; [done|]. cbn in *.
  apply Forall_app. split; [done|]. constructor; [|constructor]. split; [|done]. by apply (Hw _ _ _ Hu).
Qed.

Lemma in_tree_inv root chain x p :
  in_tree root chain x p →
  (length p = 1%nat ∧ chain = [] ∧ x = root) ∨
  ∃ k chain0 p0, chain = k :: chain0 ∧ p = (p0 ++ [Name x])%list ∧ p0 ≠ [] ∧ in_tree root chain0 k p0 ∧ x ∈ Commands k ∧ Name x ≠ "".
Proof.
  intros Hu. destruct Hu as [|k chain p j Hu Hj Hn]; [by left|right]. exists k, chain, p. split_and!; try done.
  by apply under_path in Hu as [? _].
Qed.

Lemma same_path_same_command root chain x p chain' x' :
  well_named root → in_tree root chain x p → in_tree root chain' x' p → chain = chain' ∧ x = x'.
Proof.
  intros [_ Hw] Hu. revert chain' x'. induction Hu as [|k chain p j Hu IH Hj Hn]; intros chain' x' Hu'.
  - apply in_tree_inv in Hu' as [(_ & -> & ->)|(k & chain0 & p0 & _ & E & Hp & _)]; [done|].
    apply (f_equal length) in E. rewrite length_app in E. destruct p0; [done|]. cbn in E. lia.
  - apply under_path in Hu as Hp. apply in_tree_inv in Hu' as [(E & _ & _)|(k' & chain0 & p0 & -> & E & Hp0 & Hu0 & Hj' & Hn')].
    + rewrite length_app in E. destruct p; [by destruct Hp|]. cbn in E. lia.
    + apply app_inj_tail in E as [-> En]. destruct (IH _ _ Hu0) as [-> ->]. split; [done|]. by apply (Hw _ _ _ Hu0).
Qed.

Lemma byPath_snoc ds d : byPath (ds ++ [d]) = if String.eqb (dPathKey d) "" then byPath ds else <[dPathKey d := d]> (byPath ds).
Proof. unfold byPath. by rewrite foldl_app. Qed.

Lemma byPath_lookup ds d :
  d ∈ ds → dPathKey d ≠ "" → (∀ d', d' ∈ ds → dPathKey d' = dPathKey d → d' = d) → byPath ds !! dPathKey d = Some d.
Proof.
  intros Hd Hk Hu. induction ds as [|d' ds IH] using rev_ind; [by apply not_elem_of_nil in Hd|].
  rewrite byPath_snoc. destruct (decide (dPathKey d' = dPathKey d)) as [E|E].
  - assert (d' = d) as -> by (apply Hu; [apply elem_of_app; right; by left|done]).
    destruct (String.eqb_spec (dPathKey d) ""); [done|]. apply lookup_insert_eq.
  - assert (Hl : byPath ds !! dPathKey d = Some d).
    { apply IH; [|intros; apply Hu; [apply elem_of_app; by left|done]].
      apply elem_of_app in Hd as [?|[->|?%not_elem_of_nil]%elem_of_cons]; done. }
    destruct (String.eqb (dPathKey d') ""); [done|]. by rewrite lookup_insert_ne.
Qed.

Lemma byPath_in ds key d : byPath ds !! key = Some d → d ∈ ds ∧ dPathKey d = key ∧ key ≠ "".
Proof.
  induction ds as [|d' ds IH] using rev_ind; [unfold byPath; cbn; by rewrite lookup_empty|]. rewrite byPath_snoc.
  destruct (String.eqb_spec (dPathKey d') "") as [E|E]; [intros (? & ? & ?)%IH; split_and!; try done; apply elem_of_app; by left|].
  destruct (decide (dPathKey d' = key)) as [<-|Hne].
  - rewrite lookup_insert_eq. intros [= <-]. split_and!; try done. apply elem_of_app. right. by left.
  - rewrite lookup_insert_ne by done. intros (? & ? & ?)%IH. split_and!; try done. apply elem_of_app. by left.
Qed.

Lemma join_nonempty l : l ≠ [] → Forall (λ n, free " " n = true ∧ n ≠ "") l → Join " " l ≠ "".
Proof. intros Hl Hf. destruct Hf as [|x l [_ Hx] _]; [done|]. destruct l; [done|]. by destruct x. Qed.

(** Every command of the tree is described exactly once: looking up a path below
    the root gives the descriptor of the command there, and a lookup finds
    nothing else. *)
Theorem reflect_lookup cfg root key d :
  well_named root →
  Lookup (Reflect cfg root) key = Some d ↔
  ∃ chain x p, in_tree root chain x p ∧ tail p ≠ [] ∧ key = Join " " (tail p) ∧ d = describe cfg (x :: chain) x p.
Proof.
  intros Hw. assert (Hds : ∀ d, d ∈ Reflect cfg root ↔ ∃ chain x p, in_tree root chain x p ∧ d = describe cfg (x :: chain) x p) by apply in_walk.
  unfold Lookup. split.
  - intros ((chain & x & p & Hu & ->)%Hds & <- & Hne)%byPath_in. exists chain, x, p. split_and!; try done.
    intros E. apply Hne. change (dPathKey _) with (Join " " (tail p)). by rewrite E.
  - intros (chain & x & p & Hu & Hp & -> & ->). change (Join " " (tail p)) with (dPathKey (describe cfg (x :: chain) x p)).
    apply byPath_lookup; [apply Hds; by exists chain, x, p|by eapply join_nonempty, under_free|].
    intros d' (chain' & x' & p' & Hu' & ->)%Hds E. change (Join " " (tail p') = Join " " (tail p)) in E.
    assert (p' = p) as ->.
    { pose proof (under_free _ _ _ _ Hw Hu) as Hf. pose proof (under_free _ _ _ _ Hw Hu') as Hf'.
      destruct (under_path _ _ _ _ Hu) as [? Hh], (under_path _ _ _ _ Hu') as [? Hh'].
      destruct p as [|n p]; [done|]. destruct p' as [|n' p']; [done|]. cbn in *. injection Hh as ->. injection Hh' as ->. f_equal.
      destruct p' as [|m p']; [by apply join_nonempty in Hp|].
      apply (Join_inj " "%char); try done; eapply Forall_impl; try done; by intros ? []. }
    by destruct (same_path_same_command _ _ _ _ _ _ Hw Hu Hu') as [-> ->].
Qed.

(** ** The verdict *)

Lemma pickReason_None l : pickReason l = None ↔ l = [].
Proof.
  unfold pickReason. split.
  - intros H. destruct l as [|r l]; [done|]. exfalso. assert (Hr : r ∈ reasonPrecedence) by (destruct r; repeat (left || right)).
    apply list_elem_of_In, (find_none _ _ H), bool_decide_eq_false in Hr. apply Hr. left.
  - by intros ->.
Qed.

Lemma rule_nil (b : bool) (r : NonInvocableReason) : (if b then [r] else []) = [] ↔ b = false.
Proof. by destruct b. Qed.

End reflect.

(** ** A check of names *)

Fixpoint names_ok (c : Command) : bool :=
  forallb (λ j, free " " (Name j)) (Commands c) && bool_decide (NoDup (Name <$> Commands c)) && forallb names_ok (Commands c).

Lemma names_ok_inv c :
  names_ok c = true →
  (∀ j, j ∈ Commands c → free " " (Name j) = true ∧ names_ok j = true) ∧ (∀ j k, j ∈ Commands c → k ∈ Commands c → Name j = Name k → j = k).
Proof.
  destruct c as [n u a dp h r df fl l]. cbn [Commands names_ok]. rewrite !andb_true_iff, !forallb_forall, bool_decide_eq_true.
  intros [[Hf Hn] Ho]. split.
  - intros j Hj%list_elem_of_In. split; [by apply Hf|by apply Ho].
  - intros j k [i Hi]%list_elem_of_lookup [i' Hi']%list_elem_of_lookup E.
    assert (i = i') as ->; [|congruence]. apply (NoDup_lookup _ _ _ (Name j) Hn); rewrite list_lookup_fmap, ?Hi, ?Hi'; cbn; by rewrite ?E.
Qed.

Lemma names_ok_well_named root : free " " (Name root) = true → names_ok root = true → well_named root.
Proof.
  intros Hr Ho. split; [done|]. assert (Hall : ∀ chain x p, in_tree root chain x p → names_ok x = true).
  { induction 1 as [|k chain p j _ IH Hj _]; [done|]. by apply (proj1 (names_ok_inv _ IH)). }
  intros chain x p Hu%Hall. destruct (names_ok_inv _ Hu) as [H1 H2]. split; [intros j Hj; by apply H1|]. eauto.
Qed.

Definition plain (name : string) (ann : gmap string string) (subs : list Command) : Command :=
  mkCommand name name ann "" false (bool_decide (length subs = 0%nat)) false [] subs.

(** A tool with a group of two commands and a server. *)
Definition tool : Command :=
  plain "tool" ∅
    [plain "widget" ∅ [plain "list" {["kit/side-effect" := "read"]} [];
                       plain "rm" {["kit/permissions" := "widgets:write"; "kit/withhold-from" := "mcp"]} []];
     plain "serve" ∅ [plain "api" {["kit/side-effect" := "read"]} []]].

Lemma tool_well_named : well_named tool.
Proof. apply names_ok_well_named; vm_compute; reflexivity. Qed.

Lemma reflect_lookup_witness :
  ∃ d, Lookup (Reflect (λ _, true) no_options tool) "widget rm" = Some d ∧
       (∃ chain x p, in_tree tool chain x p ∧ tail p ≠ [] ∧ "widget rm" = Join " " (tail p) ∧ d = describe (λ _, true) no_options (x :: chain) x p) ∧
       sTier (dSafety d) = TierDestructiveShared ∧ TierInferred (dSafety d) = true.
Proof.
  destruct (Lookup (Reflect (λ _, true) no_options tool) "widget rm") as [d|] eqn:E; [|by vm_compute in E].
  exists d. split; [done|]. split; [by apply (reflect_lookup (λ _, true) no_options tool "widget rm" d tool_well_named)|].
  vm_compute in E. injection E as <-. split; reflexivity.
Defined.
