(* ===== verification/Bridge.v ===== *)
(** * The command bridge: leaves and gates (go/transport/cmdsurface)

    bridge.go, safety.go, scope.go and withhold.go: which commands of a tree the
    bridge offers on which surface, and the gates a call passes before anything
    is charged or run.  The tool's own permission function is a parameter. *)

From Stdlib Require Import Ascii.
From S2P Require Import Prelude Fingerprint Topics StreamWire GoStrings Reflect Invocation.

Local Open Scope Z_scope.

(** ** Classes and policy (safety.go) *)

Record SafetyClass := mkClass {
  cDestructive : bool;
  cAuthRequired : bool;
  cRequiresConfirmation : bool;
  cPermissions : list string;
  cExitCodes : list string;
}.

Definition classFromDescriptor (d : Descriptor) : SafetyClass :=
  mkClass (Destructive (dSafety d)) (Reflect.AuthRequired (dSafety d)) (ConfirmationDeclared (dSafety d))
    (splitCSV (read (Cmd d) "kit/permissions")) (Reflect.ExitCodes (dSafety d)).

Record Policy := mkPolicy { AllowDestructiveOn : list string; DefaultEnabled : list string }.

Definition DefaultPolicy : Policy := mkPolicy [] [SurfaceCLI; SurfaceLib; SurfaceMCP].

Definition Allowed (p : Policy) (cls : SafetyClass) (s : string) : bool :=
  if String.eqb s SurfaceCLI || String.eqb s SurfaceLib then true
  else if negb (cDestructive cls) then true
  else existsb (λ a, String.eqb a s) (AllowDestructiveOn p).

Definition resolvedDefaults (p : Policy) : list string :=
  match DefaultEnabled p with [] => [SurfaceCLI; SurfaceLib; SurfaceMCP] | l => l end.

(** ** Withheld surfaces (withhold.go) *)

(** [None] is an unknown surface. *)
Fixpoint parse_surfaces (parts : list string) (out : list string) : option (list string) :=
  match parts with
  | [] => Some out
  | part :: parts =>
      let s := TrimSpace part in
      if String.eqb s "" || existsb (String.eqb s) out then parse_surfaces parts out
      else if negb (IsValid s) then None
      else parse_surfaces parts (out ++ [s])%list
  end.

Definition ParseWithholdFrom (v : string) : option (list string) := parse_surfaces (SplitOn "," v) [].

Definition withheldOf (c : Command) : gset string :=
  let raw := read c "kit/withhold-from" in
  if String.eqb raw "" then ∅
  else match ParseWithholdFrom raw with
       | None => list_to_set (filter (λ s, isRemote s = true) AllSurfaces)
       | Some surfaces => list_to_set surfaces
       end.

(** ** Leaves *)

Record Leaf := mkLeaf {
  l_Path : list string;
  l_Cmd : Command;
  Class : SafetyClass;
  Enabled : gmap string bool;
  l_Descriptor : Descriptor;
  withheld : gset string;
}.

Definition l_PathKey (l : Leaf) : string := PathKey (l_Path l).

(** [leaf.Enabled[s]]. *)
Definition enabled (l : Leaf) (s : string) : bool := default false (Enabled l !! s).

(** The leaves in the order of discovery, and the index of [byPath]: both point
    to the same leaves. *)
Record Bridge := mkBridge { b_policy : Policy; leaves : list Leaf; by_path : gmap string nat }.

Section discovery.
Variable json_Valid : string → bool.

Definition bridge_options : config := mkConfig None false false true true false None.

Definition new_leaf (p : Policy) (d : Descriptor) : Leaf :=
  let w := withheldOf (Cmd d) in
  mkLeaf (tail (dPath d)) (Cmd d) (classFromDescriptor d)
    (list_to_map ((λ s, (s, true)) <$> filter (λ s, s ∉ w) (resolvedDefaults p))) d w.

Definition discover_leaves (p : Policy) (root : Command) : list Leaf :=
  new_leaf p <$> filter (λ d, (IsRoot d || HasSubCommands (dSurface d)) = false)
                   (invocable (Reflect json_Valid bridge_options root)).

Definition index_leaves (ls : list Leaf) : gmap string nat :=
  foldl (λ m x, <[l_PathKey x.2 := x.1]> m) ∅ (zip (seq 0 (length ls)) ls).

Definition discover (p : Policy) (root : Command) : Bridge :=
  let ls := discover_leaves p root in mkBridge p ls (index_leaves ls).

End discovery.

Definition is_prefix (prefix path : list string) : bool := bool_decide (take (length prefix) path = prefix).

Definition matchPattern (pattern : string) (path : list string) : bool :=
  let pattern := TrimSpace pattern in
  if String.eqb pattern "" then false
  else if String.eqb pattern "*" then true
  else
    let pat := Fields pattern in
    match last pat with
    | None => false
    | Some "*" => let prefix := removelast pat in if (length path <? length prefix)%nat then false else is_prefix prefix path
    | Some _ => bool_decide (pat = path)
    end.

Definition set_surface (value : bool) (l : Leaf) (s : string) : Leaf :=
  if value && bool_decide (s ∈ withheld l) then l
  else mkLeaf (l_Path l) (l_Cmd l) (Class l) (<[s := value]> (Enabled l)) (l_Descriptor l) (withheld l).

Definition setSurfaces (pattern : string) (surfaces : list string) (value : bool) (b : Bridge) : Bridge :=
  match surfaces with
  | [] => b
  | _ =>
      mkBridge (b_policy b)
        ((λ l, if matchPattern pattern (l_Path l) then foldl (set_surface value) l surfaces else l) <$> leaves b) (by_path b)
  end.

Definition Expose (pattern : string) (surfaces : list string) : Bridge → Bridge := setSurfaces pattern surfaces true.
Definition Hide (pattern : string) (surfaces : list string) : Bridge → Bridge := setSurfaces pattern surfaces false.

Definition resolveLeaf (b : Bridge) (path : list string) : option Leaf :=
  i ← by_path b !! Join " " path; leaves b !! (i : nat).

(** ** The gates *)

Inductive refusal :=
| ErrUnknownCommand
| ErrSurfaceNotEnabled (withholds : bool)
| ErrNotInvocable (r : NonInvocableReason)
| ErrAuthRefused
| ErrDestructiveBlocked
| ErrInsufficientScope (required missing : list string)
| ErrPermissionDenied (reason : string).

Definition notInvocableReason (l : Leaf) : option NonInvocableReason :=
  if SelfHosting (dSurface (l_Descriptor l)) then Some ReasonSelfHosting
  else if bool_decide (sTier (dSafety (l_Descriptor l)) = TierInteractive) then Some ReasonInteractive
  else None.

Definition callerIndependentGates (b : Bridge) (m : Meta) (l : Leaf) : option refusal :=
  if negb (enabled l (Surface m)) then Some (ErrSurfaceNotEnabled (bool_decide (Surface m ∈ withheld l)))
  else match notInvocableReason l with
       | Some r => Some (ErrNotInvocable r)
       | None =>
           if cAuthRequired (Class l) && isRemote (Surface m) && negb (Authenticated m) then Some ErrAuthRefused
           else if negb (Allowed (b_policy b) (Class l) (Surface m)) then Some ErrDestructiveBlocked
           else None
       end.

Definition VerifiedScopes (m : Meta) : list string :=
  match Established m with EstablishedVerified => splitCSV (extra m "scopes") | _ => [] end.

Definition scopeCheck (m : Meta) (l : Leaf) : option refusal :=
  let need := cPermissions (Class l) in
  if bool_decide (need = []) || negb (isRemote (Surface m)) || bool_decide (Established m = EstablishedTransport) then None
  else match filter (λ s, s ∉ VerifiedScopes m) need with
       | [] => None
       | missing => Some (ErrInsufficientScope need missing)
       end.

(** A call without a surface comes from the library. *)
Definition default_surface (inv : Invocation) : Invocation :=
  let m := inv_Meta inv in
  if String.eqb (Surface m) "" then
    mkInvocation (Path inv) (Args inv) (Flags inv)
      (mkMeta (Caller m) (Established m) (Tenant m) SurfaceLib (IdempotencyKey m) (Extra m)) (ownArgv inv)
  else inv.

(** Slots 1 to 6 of [Admit]; [permission] answers with the reason of a denial. *)
Definition gates (permission : Invocation → Leaf → option string) (b : Bridge) (inv : Invocation) : res refusal Leaf :=
  match resolveLeaf b (Path inv) with
  | None => Err ErrUnknownCommand
  | Some l =>
      match callerIndependentGates b (inv_Meta inv) l with
      | Some e => Err e
      | None =>
          match scopeCheck (inv_Meta inv) l with
          | Some e => Err e
          | None => match permission inv l with Some reason => Err (ErrPermissionDenied reason) | None => Ok l end
          end
      end
  end.

(** What [ScopeRefusal] reports ahead of [Admit]. *)
Definition ScopeRefusal (b : Bridge) (inv : Invocation) : option refusal :=
  let inv := default_surface inv in
  match resolveLeaf b (Path inv) with
  | None => None
  | Some l => match callerIndependentGates b (inv_Meta inv) l with Some _ => None | None => scopeCheck (inv_Meta inv) l end
  end.

(** ** Exposing and hiding *)

Record rule := mkRule { r_pattern : string; r_surfaces : list string; r_value : bool }.

Definition apply_rules (rs : list rule) (b : Bridge) : Bridge :=
  foldl (λ b r, setSurfaces (r_pattern r) (r_surfaces r) (r_value r) b) b rs.

(** What the last rule that names the surface for the path says. *)
Definition last_rule (rs : list rule) (path : list string) (s : string) : option bool :=
  last (omap (λ r, if matchPattern (r_pattern r) path && bool_decide (s ∈ r_surfaces r) then Some (r_value r) else None) rs).

Definition never_withheld (l : Leaf) : Prop := ∀ s, s ∈ withheld l → enabled l s = false.

(** Only [Enabled] changes. *)
Definition same_leaf (l l' : Leaf) : Prop :=
  l_Path l' = l_Path l ∧ l_Cmd l' = l_Cmd l ∧ Class l' = Class l ∧ l_Descriptor l' = l_Descriptor l ∧ withheld l' = withheld l.

Lemma same_leaf_trans l l' l'' : same_leaf l l' → same_leaf l' l'' → same_leaf l l''.
Proof. intros (? & ? & ? & ? & ?) (? & ? & ? & ? & ?). unfold same_leaf. split_and!; congruence. Qed.

Lemma set_surfaces_leaf value ss : ∀ l,
  never_withheld l →
  let l' := foldl (set_surface value) l ss in
  same_leaf l l' ∧ never_withheld l' ∧
  ∀ s, enabled l' s = if bool_decide (s ∈ ss) then value && bool_decide (s ∉ withheld l) else enabled l s.
Proof.
  induction ss as [|x ss IH] using rev_ind; intros l Hw; cbn zeta; [split_and!; try done; intros s; by rewrite bool_decide_eq_false_2 by apply not_elem_of_nil|].
  rewrite foldl_app. cbn [foldl]. destruct (IH l Hw) as ((Hp & Hc & Hcl & Hd & Hwi) & Hw' & He). set (l1 := foldl (set_surface value) l ss) in *.
  assert (Hset : ∀ s, enabled (set_surface value l1 x) s = if bool_decide (s = x) then value && bool_decide (s ∉ withheld l) else enabled l1 s).
  { intros s. unfold set_surface. rewrite Hwi. destruct (decide (x ∈ withheld l)) as [Hx|Hx].
    - rewrite (bool_decide_eq_true_2 (x ∈ withheld l)) by done. destruct value; cbn [andb].
      + case_bool_decide as Es; [subst s|done]. rewrite bool_decide_eq_false_2 by tauto. apply Hw'. by rewrite Hwi.
      + unfold enabled. cbn. case_bool_decide as Es; [subst s; by rewrite lookup_insert_eq|by rewrite lookup_insert_ne by congruence].
    - rewrite (bool_decide_eq_false_2 (x ∈ withheld l)), andb_false_r by done. unfold enabled. cbn.
      case_bool_decide as Es; [subst s; rewrite lookup_insert_eq; cbn; rewrite bool_decide_eq_true_2 by done; by rewrite andb_true_r|].
      by rewrite lookup_insert_ne by congruence. }
  assert (Hsame : same_leaf l (set_surface value l1 x)) by (unfold same_leaf, set_surface; case_match; done).
  split_and!; [done| |].
  - intros s Hs. rewrite Hset. destruct Hsame as (_ & _ & _ & _ & E). rewrite E in Hs. case_bool_decide as Es; [|by apply Hw'; rewrite Hwi].
    rewrite bool_decide_eq_false_2 by tauto. apply andb_false_r.
  - intros s. rewrite Hset, He. rewrite (bool_decide_ext (s ∈ ss ++ [x]) (s ∈ ss ∨ s = x)) by by rewrite elem_of_app, list_elem_of_singleton.
    repeat case_bool_decide; naive_solver.
Qed.

Definition rule_ok (defaults : list string) (rs : list rule) (l : Leaf) : Prop :=
  never_withheld l ∧
  ∀ s, enabled l s = bool_decide (s ∉ withheld l) && default (bool_decide (s ∈ defaults)) (last_rule rs (l_Path l) s).

Lemma new_leaf_ok p d : rule_ok (resolvedDefaults p) [] (new_leaf p d).
Proof.
  assert (He : ∀ s, enabled (new_leaf p d) s = bool_decide (s ∉ withheldOf (Cmd d)) && bool_decide (s ∈ resolvedDefaults p)).
  { intros s. unfold enabled, new_leaf. cbn. set (l := filter _ _).
    assert (Hl : ∀ ls : list string, (list_to_map ((λ s, (s, true)) <$> ls) : gmap string bool) !! s = if bool_decide (s ∈ ls) then Some true else None).
    { induction ls as [|x ls IH]; [done|]. cbn. destruct (decide (s = x)) as [->|Hne].
      - rewrite lookup_insert_eq, bool_decide_eq_true_2 by left. done.
      - rewrite lookup_insert_ne, IH by done. erewrite bool_decide_ext; [done|]. rewrite elem_of_cons. naive_solver. }
    rewrite Hl. rewrite <-bool_decide_and. rewrite (bool_decide_ext (s ∈ l) ((s ∉ withheldOf (Cmd d)) ∧ s ∈ resolvedDefaults p)) by (unfold l; by rewrite list_elem_of_filter).
    by case_bool_decide. }
  split; [|exact He]. intros s Hs. rewrite He. cbn in Hs. by rewrite bool_decide_eq_false_2 by tauto.
Qed.

Lemma apply_rules_snoc rs r b : apply_rules (rs ++ [r]) b = setSurfaces (r_pattern r) (r_surfaces r) (r_value r) (apply_rules rs b).
Proof. unfold apply_rules. by rewrite foldl_app. Qed.

Lemma last_rule_snoc rs r path s :
  last_rule (rs ++ [r]) path s = if matchPattern (r_pattern r) path && bool_decide (s ∈ r_surfaces r) then Some (r_value r) else last_rule rs path s.
Proof.
  unfold last_rule. rewrite omap_app. cbn. destruct (matchPattern _ _ && _); cbn; [by rewrite last_snoc|by rewrite app_nil_r].
Qed.

(** The leaves after a rule are the leaves before it, each with what the rule
    says. *)
Lemma rules_leaves json_Valid p root rs :
  let b := apply_rules rs (discover json_Valid p root) in
  b_policy b = p ∧ by_path b = index_leaves (discover_leaves json_Valid p root) ∧
  Forall2 (λ l0 l, same_leaf l0 l ∧ rule_ok (resolvedDefaults p) rs l) (discover_leaves json_Valid p root) (leaves b).
Proof.
  cbn zeta. induction rs as [|r rs (Hp & Hb & Hl)] using rev_ind.
  - split_and!; [done..|]. cbn. unfold discover_leaves. induction (filter _ _) as [|d ds IH]; cbn; constructor; [|done].
    split; [done|apply new_leaf_ok].
  - rewrite apply_rules_snoc. unfold setSurfaces. destruct (r_surfaces r) as [|x ss] eqn:Er.
    + split_and!; [done..|]. eapply Forall2_impl; [done|]. intros l0 l [Hs [Hw He]]. split; [done|]. split; [done|]. intros s.
      rewrite last_rule_snoc, Er, (bool_decide_eq_false_2 (s ∈ [])), andb_false_r by apply not_elem_of_nil. apply He.
    + cbn [b_policy by_path leaves]. split_and!; [done..|]. rewrite <-Er. apply Forall2_fmap_r. eapply Forall2_impl; [done|]. intros l0 l [Hs [Hw He]]. unfold compose.
      destruct (matchPattern (r_pattern r) (l_Path l)) eqn:Em.
      * destruct (set_surfaces_leaf (r_value r) (r_surfaces r) l Hw) as (Hs' & Hw' & He').
        pose proof Hs' as (E1 & _ & _ & _ & E5). split; [exact (same_leaf_trans _ _ _ Hs Hs')|]. split; [done|]. intros s.
        rewrite He', E5, E1, last_rule_snoc, Em. cbn [andb]. case_bool_decide; [apply andb_comm|apply He].
      * split; [done|]. split; [done|]. intros s. rewrite last_rule_snoc, Em. apply He.
Qed.

Lemma same_leaf_back json_Valid p root rs l :
  l ∈ leaves (apply_rules rs (discover json_Valid p root)) →
  ∃ d, d ∈ invocable (Reflect json_Valid bridge_options root) ∧ IsRoot d = false ∧ HasSubCommands (dSurface d) = false ∧
       same_leaf (new_leaf p d) l ∧ rule_ok (resolvedDefaults p) rs l.
Proof.
  intros Hl. destruct (rules_leaves json_Valid p root rs) as (_ & _ & H2). apply list_elem_of_lookup in Hl as [i Hi].
  destruct (Forall2_lookup_r _ _ _ _ _ H2 Hi) as (l0 & Hl0 & Hs & Hr). apply list_elem_of_lookup_2 in Hl0. unfold discover_leaves in Hl0.
  apply list_elem_of_fmap in Hl0 as (d & -> & [Hd Hin]%list_elem_of_filter). apply orb_false_iff in Hd as [? ?]. by exists d.
Qed.

Lemma surface_enabled json_Valid p root rs l s :
  l ∈ leaves (apply_rules rs (discover json_Valid p root)) →
  enabled l s = bool_decide (s ∉ withheldOf (l_Cmd l)) && default (bool_decide (s ∈ resolvedDefaults p)) (last_rule rs (l_Path l) s).
Proof.
  intros (d & _ & _ & _ & (_ & Hc & _ & _ & Hw) & _ & He)%same_leaf_back. rewrite He, Hw, Hc. done.
Qed.

(** A leaf is offered on a surface exactly when its command does not withhold
    itself from it and the last rule that names the surface for the leaf exposes
    it, or, without such a rule, the policy enables it by default. *)
Theorem surface_rules json_Valid p root rs l s :
  l ∈ leaves (apply_rules rs (discover json_Valid p root)) →
  enabled l s = bool_decide (s ∉ withheldOf (l_Cmd l)) && default (bool_decide (s ∈ resolvedDefaults p)) (last_rule rs (l_Path l) s).
Proof. apply surface_enabled. Qed.

(** ** What an admitted call runs *)

Lemma index_leaves_lookup ls key i : index_leaves ls !! key = Some i → ∃ l, ls !! i = Some l ∧ l_PathKey l = key.
Proof.
  unfold index_leaves. induction ls as [|l ls IH] using rev_ind; [cbn; by rewrite lookup_empty|].
  rewrite length_app. cbn. rewrite Nat.add_1_r, seq_S, zip_with_app by by rewrite length_seq. rewrite foldl_app. cbn.
  destruct (decide (l_PathKey l = key)) as [<-|Hne].
  - rewrite lookup_insert_eq. intros [= <-]. exists l. split; [|done]. by apply list_lookup_middle.
  - rewrite lookup_insert_ne by done. intros (l' & Hl' & Hk)%IH. exists l'. split; [|done]. by apply lookup_app_l_Some.
Qed.

Lemma resolve_leaf json_Valid p root rs path l :
  resolveLeaf (apply_rules rs (discover json_Valid p root)) path = Some l →
  l ∈ leaves (apply_rules rs (discover json_Valid p root)) ∧ l_PathKey l = PathKey path.
Proof.
  unfold resolveLeaf. destruct (rules_leaves json_Valid p root rs) as (_ & Hb & H2). rewrite Hb.
  destruct (index_leaves _ !! Join " " path) as [i|] eqn:Ei; [|done]. cbn. intros Hl. split; [by eapply list_elem_of_lookup_2|].
  apply index_leaves_lookup in Ei as (l0 & Hl0 & Hk). destruct (Forall2_lookup_lr _ _ _ _ _ _ H2 Hl0 Hl) as [(Hp & _) _].
  unfold l_PathKey in *. by rewrite Hp.
Qed.

(** The command destroys by its annotation or, without one, by its name. *)
Definition dangerous (c : Command) : Prop :=
  read c KeySideEffect ∈ ["destructive"; "destructive-local"; "destructive-shared"] ∨
  read c KeySideEffect = "" ∧ IsDestructiveName (Name c) = true.

Definition known_effects : list string :=
  [""; "read"; "write"; "write-local"; "write-shared"; "destructive"; "destructive-local"; "destructive-shared"].

Lemma tier_cases c :
  sTier (reflectSafety c) ≠ TierUnknown → sTier (reflectSafety c) ≠ TierInteractive →
  read c KeySideEffect ∈ known_effects ∧ (dangerous c → Destructive (reflectSafety c) = true).
Proof.
  unfold reflectSafety, dangerous, known_effects, Destructive. cbn [sTier]. generalize (read c KeySideEffect). intros raw.
  unfold resolveTier. repeat (case_match; simplify_eq/=; try match goal with H : String.eqb _ _ = true |- _ => apply String.eqb_eq in H; subst end);
    try done; intros _ _; (split; [repeat (left || right)|]); try (intros [Hd|[Hd Hn]]; [by repeat (apply elem_of_cons in Hd as [Hd|Hd]; [done|]); apply not_elem_of_nil in Hd|]); congruence.
Qed.

(** What the reflector lets through to the bridge. *)
Lemma invocable_facts json_Valid root d :
  d ∈ invocable (Reflect json_Valid bridge_options root) →
  ∃ chain c p, in_tree root chain c p ∧ d = describe json_Valid bridge_options (c :: chain) c p ∧ Runnable c = true ∧ Hidden c = false ∧
    Deprecated c = "" ∧ sTier (reflectSafety c) ≠ TierUnknown ∧ SelfHosting (dSurface d) = false.
Proof.
  intros [Hi (chain & c & p & Hu & ->)%in_walk]%list_elem_of_filter. exists chain, c, p. split_and!; try done.
  all: unfold Invocable in Hi; apply bool_decide_eq_true in Hi; unfold describe, decide_reason in Hi; cbn [Reason] in Hi;
    apply pickReason_None in Hi; unfold fired in Hi; rewrite !app_nil, !rule_nil in Hi;
    cbn [dSurface dSafety SchemaMalformed reflectSurface sRunnable sHidden sDeprecated SelfHosting allowHidden allowDeprecated bridge_options] in Hi;
    destruct Hi as (H1 & H2 & H3 & H4 & H5 & H6 & H7 & H8 & H9).
  - by apply negb_false_iff.
  - by rewrite andb_true_r in H4.
  - rewrite andb_true_r in H5. apply orb_false_iff in H5 as [[H5 _]%orb_false_iff _]. by apply negb_false_iff, String.eqb_eq in H5.
  - apply orb_false_iff in H3 as [H3 _]. by apply bool_decide_eq_false in H3.
  - done.
Qed.

Lemma self_hosting_facts cfg chain c :
  SelfHosting (reflectSurface cfg (c :: chain) c (reflectSafety c)) = false →
  (∀ x, x ∈ removelast (c :: chain) → Name x ≠ serveVerb) ∧ read c "kit/network" ≠ "ingress" ∧ read c KeySelfHosting ≠ "true".
Proof.
  cbn [SelfHosting reflectSurface]. unfold isSelfHosting. rewrite !orb_false_iff. intros [[H1 H2] H3]. split_and!.
  - intros x Hx E. unfold underServe in H3. assert (Ht : existsb (λ c, String.eqb (Name c) serveVerb) (removelast (c :: chain)) = true); [|congruence].
    apply existsb_exists. exists x. split; [by apply list_elem_of_In|by apply String.eqb_eq].
  - intros E. cbn [Network reflectSafety] in H2. by rewrite E in H2.
  - intros E. unfold ReadBool in H1. by rewrite E in H1.
Qed.

Lemma gates_pass permission b inv l :
  gates permission b inv = Ok l →
  resolveLeaf b (Path inv) = Some l ∧ enabled l (Surface (inv_Meta inv)) = true ∧ notInvocableReason l = None ∧
  (isRemote (Surface (inv_Meta inv)) = true →
    (cAuthRequired (Class l) = true → Authenticated (inv_Meta inv) = true) ∧
    (cDestructive (Class l) = true → Surface (inv_Meta inv) ∈ AllowDestructiveOn (b_policy b)) ∧
    (Established (inv_Meta inv) ≠ EstablishedTransport → ∀ x, x ∈ cPermissions (Class l) → x ∈ VerifiedScopes (inv_Meta inv))) ∧
  permission inv l = None.
Proof.
  unfold gates, callerIndependentGates. destruct (resolveLeaf b (Path inv)) as [l0|]; [|done]. set (m := inv_Meta inv).
  destruct (enabled l0 (Surface m)) eqn:He; [|done]. cbn [negb]. destruct (notInvocableReason l0) eqn:Hn; [done|].
  destruct (cAuthRequired (Class l0) && isRemote (Surface m) && negb (Authenticated m)) eqn:Ha; [done|].
  destruct (Allowed (b_policy b) (Class l0) (Surface m)) eqn:Hal; [|done]. cbn [negb].
  destruct (scopeCheck m l0) eqn:Hs; [done|]. destruct (permission inv l0) eqn:Hp; [done|]. intros [= <-]. split_and!; try done.
  intros Hr. split_and!.
  - intros Hc. rewrite Hc, Hr in Ha. by apply negb_false_iff.
  - intros Hd. unfold Allowed in Hal. rewrite Hd in Hal. unfold isRemote in Hr. apply andb_true_iff in Hr as [H1%negb_true_iff H2%negb_true_iff].
    rewrite H1, H2 in Hal. cbn in Hal. apply existsb_exists in Hal as (a & Hin%list_elem_of_In & ->%String.eqb_eq). done.
  - intros Ht x Hx. unfold scopeCheck in Hs. rewrite Hr, (bool_decide_eq_false_2 (Established m = _)) in Hs by done.
    rewrite bool_decide_eq_false_2 in Hs by (intros E; rewrite E in Hx; by apply not_elem_of_nil in Hx). cbn [orb negb] in Hs.
    destruct (filter _ _) as [|y ys] eqn:Ef; [|done]. destruct (decide (x ∈ VerifiedScopes m)) as [|Hn']; [done|].
    assert (x ∈ filter (λ s, s ∉ VerifiedScopes m) (cPermissions (Class l0))) as Hin by by apply list_elem_of_filter.
    rewrite Ef in Hin. by apply not_elem_of_nil in Hin.
Qed.

(** C10. From annotations to admission, whatever the policy, the rules, the caller and
    the tool's own permission function: a call that passes the gates runs a
    command that is in the tree under that path, runnable, visible, neither
    deprecated nor interactive nor part of a server; that does not withhold
    itself from the surface and is exposed there; and on a remote surface the
    caller is authenticated when the command asks for it, a destructive command
    is allowed there by the policy, and the scopes the command names are in the
    credential a verifier accepted, or the transport vouches for the owner. *)
Theorem admitted_call_is_safe json_Valid p root rs permission inv l :
  gates permission (apply_rules rs (discover json_Valid p root)) inv = Ok l →
  ∃ chain c path, in_tree root chain c path ∧ PathKey (Path inv) = Join " " (tail path) ∧ l_Cmd l = c ∧
    Commands c = [] ∧ Runnable c = true ∧ Hidden c = false ∧ Deprecated c = "" ∧
    (∀ x, x ∈ removelast (c :: chain) → Name x ≠ "serve") ∧ read c "kit/network" ≠ "ingress" ∧ read c KeySelfHosting ≠ "true" ∧
    read c KeySideEffect ∈ known_effects ∧
    (Surface (inv_Meta inv) ∉ withheldOf c) ∧
    default (bool_decide (Surface (inv_Meta inv) ∈ resolvedDefaults p)) (last_rule rs (tail path) (Surface (inv_Meta inv))) = true ∧
    (isRemote (Surface (inv_Meta inv)) = true →
      (read c "kit/auth-required" = "true" → Established (inv_Meta inv) ≠ EstablishedNone) ∧
      (dangerous c → Surface (inv_Meta inv) ∈ AllowDestructiveOn p) ∧
      (Established (inv_Meta inv) ≠ EstablishedTransport → ∀ x, x ∈ splitCSV (read c "kit/permissions") →
         Established (inv_Meta inv) = EstablishedVerified ∧ x ∈ splitCSV (extra (inv_Meta inv) "scopes"))) ∧
    permission inv l = None.
Proof.
  intros (Hl & He & Hn & Hr & Hp)%gates_pass. apply resolve_leaf in Hl as [Hin Hk]. rewrite (surface_enabled _ _ _ _ _ _ Hin) in He.
  destruct (same_leaf_back _ _ _ _ _ Hin) as (d & Hd & _ & Hsub & (Hpath & Hcmd & Hcl & Hdesc & _) & _).
  destruct (invocable_facts _ _ _ Hd) as (chain & c & path & Hu & -> & Hrun & Hhid & Hdep & Htier & Hsh).
  cbn [new_leaf l_Path l_Cmd Class l_Descriptor Cmd dPath describe decide_reason] in *.
  destruct (self_hosting_facts bridge_options chain c Hsh) as (Hserve & Hnet & Hself).
  assert (Hti : sTier (reflectSafety c) ≠ TierInteractive).
  { intros E. unfold notInvocableReason in Hn. rewrite Hdesc, Hsh, bool_decide_eq_true_2 in Hn; done. }
  destruct (tier_cases c Htier Hti) as [Hknown Hdanger]. apply andb_true_iff in He as [Hw%bool_decide_eq_true Hlast].
  rewrite Hcmd in Hw. rewrite Hpath in Hlast. exists chain, c, path. unfold l_PathKey in Hk. rewrite Hpath in Hk.
  split_and!; try done.
  - cbn [HasSubCommands reflectSurface dSurface] in Hsub. by apply negb_false_iff, bool_decide_eq_true, nil_length_inv in Hsub.
  - intros Hrem. destruct (Hr Hrem) as (Hauth & Hdes & Hsc). rewrite Hcl in Hauth, Hdes, Hsc. cbn in Hauth, Hsc. split_and!.
    + intros E H0. unfold Authenticated in Hauth. rewrite H0 in Hauth. unfold ReadBool in Hauth. rewrite E in Hauth. by specialize (Hauth eq_refl).
    + intros Hdg. destruct (rules_leaves json_Valid p root rs) as (Hpol & _). rewrite <-Hpol. apply Hdes. by apply Hdanger.
    + intros Hnt x Hx. specialize (Hsc Hnt x Hx). unfold VerifiedScopes in Hsc.
      destruct (Established (inv_Meta inv)); [by apply not_elem_of_nil in Hsc|done|done].
Qed.
