(* ===== verification/BridgeExamples.v ===== *)
(** * Calls to a small tool *)

From S2P Require Import Prelude Topics GoStrings Reflect Invocation Bridge.

Local Open Scope Z_scope.

Definition valid_json (s : string) : bool := true.
Definition permit_all (_ : Invocation) (_ : Leaf) : option string := None.

Definition rest_policy : Policy := mkPolicy [SurfaceREST] [SurfaceCLI; SurfaceLib; SurfaceMCP].
Definition widgets : list rule := [mkRule "*" [SurfaceREST; SurfaceMCP] true; mkRule "widget list" [SurfaceREST] false].

Definition remove_widget (scopes : string) : Invocation :=
  mkInvocation ["widget"; "rm"] ["7"] ∅ (mkMeta "alice" EstablishedVerified "acme" SurfaceREST "" {["scopes" := scopes]}) false.

Definition served : Bridge := apply_rules widgets (discover valid_json rest_policy tool).

(** The rules expose everything over REST, then hide the listing again; the
    removal withholds itself from MCP. *)
Lemma surface_rules_witness :
  ∃ l, l ∈ leaves served ∧ l_Path l = ["widget"; "rm"] ∧ enabled l SurfaceREST = true ∧ enabled l SurfaceMCP = false ∧
       enabled l SurfaceMCP = bool_decide (SurfaceMCP ∉ withheldOf (l_Cmd l)) && default (bool_decide (SurfaceMCP ∈ resolvedDefaults rest_policy)) (last_rule widgets (l_Path l) SurfaceMCP).
Proof.
  destruct (leaves served !! 1%nat) as [l|] eqn:E; [|by vm_compute in E]. exists l.
  assert (Hin : l ∈ leaves served) by (apply list_elem_of_lookup; by exists 1%nat).
  split; [exact Hin|]. pose proof (surface_rules valid_json rest_policy tool widgets l SurfaceMCP Hin) as Hr.
  vm_compute in E. injection E as <-. split; [reflexivity|]. split; [reflexivity|]. split; [reflexivity|]. exact Hr.
Defined.

(** A removal with the scope is admitted, one without is refused. *)
Lemma admitted_call_is_safe_witness :
  ∃ l, gates permit_all served (remove_widget "widgets:read, widgets:write") = Ok l ∧
       gates permit_all served (remove_widget "widgets:read") = Err (ErrInsufficientScope ["widgets:write"] ["widgets:write"]) ∧
       ∃ chain c path, in_tree tool chain c path ∧ l_Cmd l = c ∧ Join " " (tail path) = "widget rm" ∧ read c "kit/network" ≠ "ingress".
Proof.
  destruct (gates permit_all served (remove_widget "widgets:read, widgets:write")) as [l|] eqn:E; [|by vm_compute in E].
  exists l. split; [reflexivity|]. split; [vm_compute; reflexivity|].
  destruct (admitted_call_is_safe valid_json rest_policy tool widgets permit_all _ l E) as (chain & c & path & Hu & Hp & Hc & _ & _ & _ & _ & _ & Hn & _).
  exists chain, c, path. split; [exact Hu|]. split; [exact Hc|]. split; [symmetry; exact Hp|exact Hn].
Defined.

(** The server is not a leaf, whatever exposes it. *)
Example server_not_reachable :
  gates permit_all served (mkInvocation ["serve"; "api"] [] ∅ (mkMeta "" EstablishedTransport "" SurfaceSocket "" ∅) false) = Err ErrUnknownCommand.
Proof. vm_compute. reflexivity. Qed.
