(* ===== verification/NetIP.v ===== *)
(** * Addresses of Go's net package

    [net.ParseIP], [To4], [Mask] with a prefix of 64 bits and [String]: an address
    is its sixteen bytes. *)

From Stdlib Require Import Ascii.
From S2P Require Import Prelude Fingerprint Topics StreamWire GoStrings.

Local Open Scope Z_scope.

(** A field of a dotted address: up to 255, without leading zeros. *)
Definition ipv4_field (s : string) : option Z :=
  n ← parse_digits s;
  match s with
  | String "0"%char (String _ _) => None
  | _ => if n <=? 255 then Some n else None
  end.

Definition parseIPv4 (s : string) : option (list Z) :=
  match SplitOn "." s with
  | [a; b; c; d] => a ← ipv4_field a; b ← ipv4_field b; c ← ipv4_field c; d ← ipv4_field d; Some [a; b; c; d]
  | _ => None
  end.

Definition hex_value (c : ascii) : option Z :=
  let n := Z.of_N (N_of_ascii c) in
  if (48 <=? n) && (n <=? 57) then Some (n - 48)
  else if (97 <=? n) && (n <=? 102) then Some (n - 87)
  else if (65 <=? n) && (n <=? 70) then Some (n - 55)
  else None.

(** The hex digits in front: how many, their value and the rest. *)
Fixpoint hex_run (s : string) (off : nat) (acc : Z) : nat * Z * string :=
  match s with
  | EmptyString => (off, acc, s)
  | String c s' => match hex_value c with Some d => hex_run s' (S off) (acc * 16 + d) | None => (off, acc, s) end
  end.

(** The fields in turn: [ip] is what was read, [ell] where the gap is.  A field
    has two bytes, so eight turns are enough. *)
Fixpoint ipv6_fields (fuel : nat) (s : string) (ip : list Z) (ell : option nat) : option (list Z * option nat) :=
  match fuel with
  | O => if String.eqb s "" then Some (ip, ell) else None
  | S fuel =>
      if (16 <=? length ip)%nat then if String.eqb s "" then Some (ip, ell) else None
      else
        let '(off, acc, rest) := hex_run s 0 0 in
        if (off =? 0)%nat || (4 <? off)%nat then None
        else match rest with
             | String "."%char _ =>
                 if match ell with None => negb (length ip =? 12)%nat | Some _ => false end || (16 <? length ip + 4)%nat then None
                 else v4 ← parseIPv4 s; Some ((ip ++ v4)%list, ell)
             | _ =>
                 let ip := (ip ++ [acc / 256; acc mod 256])%list in
                 match rest with
                 | EmptyString => Some (ip, ell)
                 | String ":"%char EmptyString => None
                 | String ":"%char (String ":"%char rest) =>
                     match ell with
                     | Some _ => None
                     | None => if String.eqb rest "" then Some (ip, Some (length ip)) else ipv6_fields fuel rest ip (Some (length ip))
                     end
                 | String ":"%char rest => ipv6_fields fuel rest ip ell
                 | _ => None
                 end
             end
  end.

Definition parseIPv6 (s : string) : option (list Z) :=
  if has_byte "%" s then None
  else
    '(ip, ell) ← match s with
                 | String ":"%char (String ":"%char rest) =>
                     if String.eqb rest "" then Some ([], Some 0%nat) else ipv6_fields 8 rest [] (Some 0%nat)
                 | _ => ipv6_fields 8 s [] None
                 end;
    match ell with
    | None => if (length ip =? 16)%nat then Some ip else None
    | Some e =>
        if (length ip <? 16)%nat then Some (take e ip ++ replicate (16 - length ip) 0 ++ drop e ip)%list else None
    end.

(** The first of a dot, a colon or a zone decides. *)
Fixpoint ip_kind (s : string) : option bool :=
  match s with
  | EmptyString => None
  | String c s => if Ascii.eqb c "." then Some true else if Ascii.eqb c ":" then Some false else if Ascii.eqb c "%" then None else ip_kind s
  end.

Definition v4InV6Prefix : list Z := [0; 0; 0; 0; 0; 0; 0; 0; 0; 0; 255; 255].

Definition ParseIP (s : string) : option (list Z) :=
  match ip_kind s with
  | None => None
  | Some true => (λ v4, (v4InV6Prefix ++ v4)%list) <$> parseIPv4 s
  | Some false => parseIPv6 s
  end.

Definition To4 (ip : list Z) : option (list Z) :=
  if bool_decide (take 12 ip = v4InV6Prefix) then Some (drop 12 ip) else None.

Definition dotted (v4 : list Z) : string := Join "." (FormatInt <$> v4).

(** ** The text of a long address *)

Definition low_hex (n : Z) : ascii := ascii_of_N (Z.to_N (if n <? 10 then 48 + n else 87 + n)).

Definition hex16 (n : Z) : string :=
  let ds := [n / 4096; n / 256 mod 16; n / 16 mod 16; n mod 16] in
  foldr (λ d s, String (low_hex d) s) "" (match ds with
    | [0; 0; 0; d] => [d]
    | [0; 0; c; d] => [c; d]
    | [0; b; c; d] => [b; c; d]
    | _ => ds
    end).

Fixpoint groups (ip : list Z) : list Z :=
  match ip with a :: b :: ip => a * 256 + b :: groups ip | _ => [] end.

Fixpoint zero_run (gs : list Z) : nat :=
  match gs with 0 :: gs => S (zero_run gs) | _ => O end.

(** The longest run of at least two zero groups, the first of equals. *)
Fixpoint longest_run (gs : list Z) (i : nat) (best : nat * nat) : nat * nat :=
  let l := zero_run gs in
  let best := if (2 <=? l)%nat && (best.2 <? l)%nat then (i, l) else best in
  match gs with [] => best | _ :: gs => longest_run gs (S i) best end.

Definition string6 (ip : list Z) : string :=
  let gs := groups ip in
  let '(start, len) := longest_run gs 0 (0%nat, 0%nat) in
  if (len =? 0)%nat then Join ":" (hex16 <$> gs)
  else Join ":" (hex16 <$> take start gs) +:+ "::" +:+ Join ":" (hex16 <$> drop (start + len) gs).

(** [ip.Mask(net.CIDRMask(64, 128))]. *)
Definition mask64 (ip : list Z) : list Z := (take 8 ip ++ replicate 8 0)%list.

(** Texts of the standard library's own tests. *)
Example parse_ip_texts :
  ParseIP "127.0.0.1" = Some (v4InV6Prefix ++ [127; 0; 0; 1])%list ∧ ParseIP "127.001.002.003" = None ∧
  ParseIP "::ffff:127.1.2.3" = Some (v4InV6Prefix ++ [127; 1; 2; 3])%list ∧ ParseIP "2001:4860:0:2001::68%eth0" = None ∧
  ParseIP "fe80::1%lo0" = None ∧ ParseIP "a1:a2:a3:a4::b1:b2:b3:b4" = None ∧ ParseIP "" = None ∧ ParseIP "127.0.0.256" = None ∧
  string6 <$> ParseIP "2001:4860:0:2001::68" = Some "2001:4860:0:2001::68" ∧ string6 <$> ParseIP "1:0:0:2:0:0:0:3" = Some "1:0:0:2::3" ∧
  string6 ∘ mask64 <$> ParseIP "2001:db8:1:2:3:4:5:6" = Some "2001:db8:1:2::".
Proof. vm_compute. done. Qed.
