(* ===== verification/RateLimit.v ===== *)
(** * Per-caller limits (go/transport/cmdsurface/ratelimit.go, quota.go)

    The rate limiter's buckets and the quota gate, and the keys both count a
    caller under.  The token bucket is the library's: a parameter. *)

From Stdlib Require Import Ascii.
From S2P Require Import Prelude Fingerprint Topics StreamWire GoStrings KvStore Reflect Invocation Bridge NetIP Usage.

Local Open Scope Z_scope.

(** ** Tiers and rules *)

Inductive RateTier := RateTierRead | RateTierWrite | RateTierDestructive.

#[export] Instance RateTier_eq_dec : EqDecision RateTier.
Proof. solve_decision. Defined.

Definition tier_string (t : RateTier) : string :=
  match t with RateTierRead => "read" | RateTierWrite => "write" | RateTierDestructive => "destructive" end.

Record RateRule := mkRateRule { PerMinute : Z; Burst : Z }.
Record RateLimit := mkRateLimit { rl_Read : RateRule; rl_Write : RateRule; rl_Destructive : RateRule }.

Definition DefaultRateLimit : RateLimit := mkRateLimit (mkRateRule 600 60) (mkRateRule 120 20) (mkRateRule 12 3).

Definition Rule (c : RateLimit) (t : RateTier) : RateRule :=
  let '(r, d) := match t with
                 | RateTierRead => (rl_Read c, rl_Read DefaultRateLimit)
                 | RateTierDestructive => (rl_Destructive c, rl_Destructive DefaultRateLimit)
                 | RateTierWrite => (rl_Write c, rl_Write DefaultRateLimit)
                 end in
  mkRateRule (if PerMinute r <=? 0 then PerMinute d else PerMinute r) (if Burst r <=? 0 then Burst d else Burst r).

Definition rateTierOf (l : Leaf) : RateTier :=
  match sTier (dSafety (l_Descriptor l)) with
  | TierRead => RateTierRead
  | TierDestructiveLocal | TierDestructiveShared => RateTierDestructive
  | _ => RateTierWrite
  end.

(** ** Who is counted *)

Definition clientHost (m : Meta) : string :=
  let addr := extra m "remote_addr" in
  if String.eqb addr "" then ""
  else
    let host := default addr (SplitHost addr) in
    match ParseIP host with
    | None => host
    | Some ip => match To4 ip with Some v4 => dotted v4 | None => string6 (mask64 ip) +:+ "/64" end
    end.

(** What [rateKey] joins. *)
Definition rate_parts (m : Meta) (t : RateTier) : list string :=
  let s := scopeOf m in
  match established s with
  | EstablishedVerified => ["p"; principal s; tenant s; tier_string t]
  | EstablishedTransport => ["t"; surface s; tier_string t]
  | EstablishedNone => if negb (String.eqb (clientHost m) "") then ["a"; clientHost m; tier_string t] else ["s"; Surface m; tier_string t]
  end.

Definition rateKey (m : Meta) (t : RateTier) : string := Join NULs (rate_parts m t).

Inductive QuotaPer := QuotaPerPrincipal | QuotaPerTenant.

#[export] Instance QuotaPer_eq_dec : EqDecision QuotaPer.
Proof. solve_decision. Defined.

Record Quota := mkQuota { q_Scope : string; Per : QuotaPer; q_Window : Z; q_Ops : Z; q_Bytes : Z }.

Definition quota_parts (q : Quota) (m : Meta) : list string :=
  let s := scopeOf m in
  if bool_decide (Established m = EstablishedVerified) && bool_decide (Per q = QuotaPerTenant) && negb (String.eqb (Tenant m) "") then
    ["tenant"; PathEscape (Tenant m)]
  else match established s with
       | EstablishedVerified => ["principal"; PathEscape (principal s); PathEscape (tenant s)]
       | EstablishedTransport => ["transport"; PathEscape (surface s)]
       | EstablishedNone =>
           if negb (String.eqb (clientHost m) "") then ["address"; PathEscape (clientHost m)] else ["surface"; PathEscape (Surface m)]
       end.

Definition QuotaKey (q : Quota) (m : Meta) : string := Join "/" ("quota" :: PathEscape (q_Scope q) :: quota_parts q m).

(** ** The rate limiter *)

Class Limiter (L : Type) := {
  NewLimiter : Z → Z → L;                        (* time per token, burst *)
  ReserveN : Z → L → bool * Z * L;               (* possible at all, the delay *)
  CancelAt : Z → L → L;
}.

Section limiter.
Context {L : Type} `{LI : Limiter L}.

Record rateBucket := mkBucket { lim : L; idle : Z; last_used : Z }.
Record rateLimiter := mkLimiter { rl_cfg : RateLimit; buckets : gmap string rateBucket; sweepAt : Z }.

Definition minSweep : Z := 1024.

Definition newRateLimiter (cfg : RateLimit) : rateLimiter := mkLimiter cfg ∅ minSweep.

Definition sweep (now : Z) (r : rateLimiter) : rateLimiter :=
  if Z.of_nat (size (buckets r)) <? sweepAt r then r
  else
    let kept := filter (λ kb, (idle kb.2 <=? time_sub now (last_used kb.2)) = false) (buckets r) in
    mkLimiter (rl_cfg r) kept (Z.max minSweep (2 * Z.of_nat (size kept))).

Definition new_bucket (now : Z) (cfg : RateLimit) (t : RateTier) : rateBucket :=
  let rule := Rule cfg t in
  let every := Z.quot (60 * 10 ^ 9) (PerMinute rule) in
  mkBucket (NewLimiter every (Burst rule)) (int64 (every * Burst rule)) now.

Definition set_bucket (k : string) (b : rateBucket) (r : rateLimiter) : rateLimiter :=
  mkLimiter (rl_cfg r) (<[k := b]> (buckets r)) (sweepAt r).

(** The wait of a refusal, or nothing. *)
Definition take (now : Z) (key : string) (t : RateTier) (r : rateLimiter) : option Z * rateLimiter :=
  let '(b, r) := match buckets r !! key with Some b => (b, r) | None => (new_bucket now (rl_cfg r) t, sweep now r) end in
  let '(ok, d, l) := ReserveN now (lim b) in
  let keep l := set_bucket key (mkBucket l (idle b) now) r in
  if negb ok then (Some (60 * 10 ^ 9), keep l)
  else if 0 <? d then (Some d, keep (CancelAt now l))
  else (None, keep l).

(** ** Buckets of other callers *)

Lemma sweep_lookup now r k b :
  buckets (sweep now r) !! k = Some b ↔ buckets r !! k = Some b ∧ (sweepAt r ≤ Z.of_nat (size (buckets r)) → time_sub now (last_used b) < idle b).
Proof.
  unfold sweep. destruct (Z.ltb_spec (Z.of_nat (size (buckets r))) (sweepAt r)); [split; [intros; split; [done|lia]|tauto]|]. cbn.
  rewrite map_lookup_filter_Some. cbn. rewrite Z.leb_gt. naive_solver.
Qed.

(** A call touches its own bucket; another one is dropped only after it had
    the time to fill up, and is otherwise left as it is. *)
Lemma take_other now key t r w r' k b :
  take now key t r = (w, r') → k ≠ key → buckets r !! k = Some b →
  buckets r' !! k = Some b ∨ buckets r' !! k = None ∧ idle b ≤ time_sub now (last_used b).
Proof.
  unfold take. intros Ht Hne Hb.
  assert (Hs : ∀ r0, buckets r0 !! k = Some b ∨ buckets r0 !! k = None ∧ idle b ≤ time_sub now (last_used b) →
    ∀ x, buckets (set_bucket key x r0) !! k = Some b ∨ buckets (set_bucket key x r0) !! k = None ∧ idle b ≤ time_sub now (last_used b)).
  { intros r0 H x. cbn. by rewrite lookup_insert_ne. }
  destruct (match buckets r !! key with Some b => (b, r) | None => (new_bucket now (rl_cfg r) t, sweep now r) end) as [b0 r0] eqn:E0.
  assert (H0 : buckets r0 !! k = Some b ∨ buckets r0 !! k = None ∧ idle b ≤ time_sub now (last_used b)).
  { destruct (buckets r !! key); injection E0 as <- <-; [by left|].
    destruct (buckets (sweep now r) !! k) as [b'|] eqn:Ek; [apply sweep_lookup in Ek as [? _]; left; congruence|right].
    split; [done|]. destruct (Z.leb_spec (idle b) (time_sub now (last_used b))) as [|Hlt]; [done|].
    assert (buckets (sweep now r) !! k = Some b); [|congruence]. by apply sweep_lookup. }
  destruct (ReserveN now (lim b0)) as [[ok d] l]. destruct (negb ok); [|destruct (0 <? d)]; injection Ht as <- <-; by apply Hs.
Qed.

End limiter.

(** ** Keys *)

(** Whom a count belongs to. *)
Inductive owner :=
| OPrincipal (tenant principal : string)
| OTransport (surface : string)
| OAddress (host : string)
| OSurface (surface : string)
| OTenant (tenant : string).

Definition owner_of (m : Meta) : owner :=
  match established (scopeOf m) with
  | EstablishedVerified => OPrincipal (tenant (scopeOf m)) (principal (scopeOf m))
  | EstablishedTransport => OTransport (surface (scopeOf m))
  | EstablishedNone => if String.eqb (clientHost m) "" then OSurface (Surface m) else OAddress (clientHost m)
  end.

Definition quota_owner (q : Quota) (m : Meta) : owner :=
  if bool_decide (Established m = EstablishedVerified) && bool_decide (Per q = QuotaPerTenant) && negb (String.eqb (Tenant m) "") then
    OTenant (Tenant m)
  else owner_of m.

Lemma tier_string_inj t t' : tier_string t = tier_string t' → t = t'.
Proof. by destruct t, t'. Qed.

Lemma tier_free t : free NUL (tier_string t) = true.
Proof. by destruct t. Qed.

Lemma rate_parts_inj m m' t t' : rate_parts m t = rate_parts m' t' → owner_of m = owner_of m' ∧ t = t'.
Proof.
  unfold rate_parts, owner_of. destruct (established (scopeOf m)), (established (scopeOf m')); repeat case_match; intros E; simplify_eq/=;
    try (split; [congruence|by apply tier_string_inj]).
Qed.

Lemma quota_parts_inj q m m' : quota_parts q m = quota_parts q m' → quota_owner q m = quota_owner q m'.
Proof.
  unfold quota_parts, quota_owner, owner_of. do 2 (case_match; [|destruct (established (scopeOf _))]); repeat case_match; intros E; simplify_eq/=;
    repeat match goal with H : PathEscape _ = PathEscape _ |- _ => apply PathEscape_inj in H end; try done; congruence.
Qed.

Lemma rate_parts_free m t :
  no_nul m → free NUL (clientHost m) = true → rate_parts m t ≠ [] ∧ Forall (λ x, free NUL x = true) (rate_parts m t).
Proof.
  intros [Hc Ht Hs _] Hh. unfold rate_parts, scopeOf. pose proof (tier_free t).
  destruct (Established m); cbn; repeat case_match; cbn; (split; [done|]); by repeat constructor.
Qed.

Lemma quota_parts_free q m : Forall (λ x, free "/" x = true) (quota_parts q m).
Proof.
  unfold quota_parts. repeat case_match; repeat constructor; apply PathEscape_free.
Qed.

(** One caller never spends another's tokens or quota: two calls draw from one
    bucket only when they have the same tier and the same verified principal and
    tenant, or the same vouching transport, or for unestablished callers the same
    address, whatever they claim to be; and they share a quota only when they
    belong to the same tenant or caller.  Rate keys assume names without NUL
    bytes, quota keys nothing. *)
Theorem limits_separate_callers m m' t t' q :
  no_nul m → no_nul m' → free NUL (clientHost m) = true → free NUL (clientHost m') = true →
  (rateKey m t = rateKey m' t' → owner_of m = owner_of m' ∧ t = t') ∧ (QuotaKey q m = QuotaKey q m' → quota_owner q m = quota_owner q m').
Proof.
  intros Hn Hn' Hh Hh'. destruct (rate_parts_free m t Hn Hh) as [? ?], (rate_parts_free m' t' Hn' Hh') as [? ?]. split.
  - intros E. by apply rate_parts_inj, (Join_inj NUL).
  - intros E. apply (Join_inj "/"%char) in E; [by injection E as E%quota_parts_inj|done|done| |];
      repeat constructor; try apply PathEscape_free; apply quota_parts_free.
Qed.
