(* ===== verification/Admission.v ===== *)
(** * Admission (go/transport/cmdsurface/bridge.go, quota.go, cache.go)

    [Admit]: every gate of a call in order, over the bridge's leaves, the rate
    limiter, the idempotency ledger, the result cache and the usage ledger, and
    the audit record of a refusal.  The key of the result cache is JSON of the
    call; encoding, decoding and [time.ParseDuration] are parameters. *)

From Stdlib Require Import Ascii.
From S2P Require Import Prelude Fingerprint Topics StreamWire GoStrings KvStore Reflect Invocation Bridge NetIP Usage IdemStore Idempotency RateLimit.

Local Open Scope Z_scope.

(** ** The result cache, up to the lookup (cache.go) *)

Record cacheKeyDoc := mkDoc {
  Tool : string; doc_Path : list string; doc_Args : list string; doc_Flags : gmap string flag_value; doc_Caller : string; doc_Scopes : list string;
}.

Record cacheEntry := mkEntry { e_Result : Result; ETag : string; Expires : Z }.

Class CacheCodec := {
  doc_Marshal : cacheKeyDoc → option string;
  entry_Unmarshal : string → option cacheEntry;
  ParseDuration : string → option Z;
}.

Section cache.
Context `{CC : CacheCodec}.

Definition ParseCacheTTL (v : string) : option Z := d ← ParseDuration (TrimSpace v); if d <=? 0 then None else Some d.

Definition cacheTTLOf (d : Descriptor) : Z :=
  if negb (bool_decide (sTier (dSafety d) = TierRead)) || TierInferred (dSafety d) then 0
  else let raw := read (Cmd d) "kit/cache-ttl" in
       if String.eqb raw "" then 0 else default 0 (ParseCacheTTL raw).

Definition cacheSurfaces : list string := [SurfaceREST].

Definition callerScopes (m : Meta) : list string := sort_strings (splitCSV (extra m "scopes")).

Definition callerScoped (m : Meta) : bool :=
  match Established m with
  | EstablishedTransport => true
  | EstablishedVerified => negb (String.eqb (Caller m) "") || negb (String.eqb (Tenant m) "") || negb (bool_decide (callerScopes m = []))
  | EstablishedNone => false
  end.

Definition cacheKeyPrefix := "kit/cache/v1/".

Definition cacheKey (tool : string) (inv : Invocation) : option string :=
  let m := inv_Meta inv in
  raw ← doc_Marshal (mkDoc tool (Path inv) (Args inv) (Flags inv) (if Authenticated m then IdempotencyScope m else "")
                       (if bool_decide (Established m = EstablishedVerified) then callerScopes m else []));
  Some (cacheKeyPrefix +:+ sha_hex raw).

Record cacheCall := mkCacheCall { cc_key : string; cc_ttl : Z; private : bool; hit : option cacheEntry }.

Context {C : Type} `{KC : Kv C}.

Definition lookup_entry (ctx : bool) (now : Z) (key : string) (s : C) : option cacheEntry * C :=
  match kv_Get ctx now key s with
  | (Ok (Some raw), s) =>
      (match entry_Unmarshal raw with Some e => if now <? Expires e then Some e else None | None => None end, s)
  | (_, s) => (None, s)
  end.

Definition cacheLookup (tool : string) (ctx : bool) (now : Z) (inv : Invocation) (l : Leaf) (s : option C) : option cacheCall * option C :=
  match s with
  | None => (None, None)
  | Some s =>
      let ttl := cacheTTLOf (l_Descriptor l) in
      if (ttl <=? 0) || negb (bool_decide (Surface (inv_Meta inv) ∈ cacheSurfaces)) then (None, Some s)
      else match cacheKey tool inv with
           | None => (None, Some s)
           | Some key =>
               let '(hit, s) := lookup_entry ctx now key s in (Some (mkCacheCall key ttl (callerScoped (inv_Meta inv)) hit), Some s)
           end
  end.

End cache.

(** ** Slot 9: the quota (quota.go) *)

Inductive quota_limit := LimitOps | LimitBytes.

Inductive admit_err :=
| EGate (e : refusal)
| ERate (tier : RateTier) (wait : Z)
| EIdem (e : idem_err)
| EQuota (limit : quota_limit) (max used reset : Z)
| EUsage (e : usage_err).

(** [WithQuota] installs nothing without a limit or with a short window. *)
Definition WithQuota (q : Quota) : option Quota :=
  if (q_Window q <? second) || ((q_Ops q <=? 0) && (q_Bytes q <=? 0)) then None else Some q.

Section quota.
Context {U : Type} `{KU : Kv U} `{UJ : UsageJSON}.

(** The key to count the run under, or the refusal. *)
Definition quotaCheck (gate : option Quota) (ctx : bool) (now : Z) (m : Meta) (s : U) : res admit_err string * U :=
  match gate with
  | None => (Ok "", s)
  | Some q =>
      if negb (isRemote (Surface m)) then (Ok "", s)
      else
        let key := QuotaKey q m in
        match Usage_ ctx now key (q_Window q) s with
        | (_, Some e, s) => (Err (EUsage e), s)
        | (u, None, s) =>
            if (0 <? q_Ops q) && (q_Ops q <=? Ops u) then (Err (EQuota LimitOps (q_Ops q) (Ops u) (Reset u)), s)
            else if (0 <? q_Bytes q) && (q_Bytes q <=? Bytes u) then (Err (EQuota LimitBytes (q_Bytes q) (Bytes u) (Reset u)), s)
            else (Ok key, s)
        end
  end.

(** [ttlStore]: does the ledger's store expire entries? *)
Definition recordQuota (ttlStore : bool) (gate : option Quota) (now now' : Z) (key : string) (n : Z) (s : U) : U :=
  match gate with
  | None => s
  | Some q => if String.eqb key "" then s else (Add ttlStore false now now' key (q_Window q) 1 n s).2
  end.

End quota.

Definition resultBytes (r : Result) : Z :=
  Z.of_nat (String.length (Stdout r) + String.length (Stderr r)) +
  match Data r with Some (Some raw) => Z.of_nat (String.length raw) | _ => 0 end.

(** ** Admit *)

Definition with_extra (k v : string) (inv : Invocation) : Invocation :=
  let m := inv_Meta inv in
  mkInvocation (Path inv) (Args inv) (Flags inv)
    (mkMeta (Caller m) (Established m) (Tenant m) (Surface m) (IdempotencyKey m) (<[k := v]> (Extra m))) (ownArgv inv).

Definition markReplayed : Invocation → Invocation := with_extra "idempotent_replayed" "true".

Definition forwardIdempotencyKey (inv : Invocation) (l : Leaf) : Invocation :=
  if String.eqb (IdempotencyKey (inv_Meta inv)) "" then inv
  else if negb (bool_decide (idempotencyKeyFlag ∈ flag_names (l_Cmd l))) then inv
  else match Flags inv !! idempotencyKeyFlag with
       | Some _ => inv
       | None => mkInvocation (Path inv) (Args inv) (<[idempotencyKeyFlag := FText (IdempotencyKey (inv_Meta inv))]> (Flags inv)) (inv_Meta inv) (ownArgv inv)
       end.

Definition set_ownArgv (b : bool) (inv : Invocation) : Invocation := mkInvocation (Path inv) (Args inv) (Flags inv) (inv_Meta inv) b.

(** [idem]: the reserved key to run under, a replay, or nothing. *)
Record Admission := mkAdmission {
  a_inv : Invocation;
  a_leaf : Leaf;
  a_idem : option verdict;
  a_cache : option cacheCall;
  a_quotaKey : string;
}.

Section plane.
Context `{CC : CacheCodec} `{RJ : RecordJSON} `{UJ : UsageJSON}.
Context {L : Type} `{LI : Limiter L} {I : Type} `{IS : IdemStore I} {C : Type} `{KC : Kv C} {U : Type} `{KU : Kv U}.

(** What the bridge is configured with. *)
Record setup := mkSetup {
  bridge : Bridge;
  tool_name : string;
  permission : Invocation → Leaf → option string;
  idem_ttl : option Z;
  quota : option Quota;
}.

(** The state the gates share; [audit] is what the sinks received. *)
Record plane := mkPlane {
  rates : option (@rateLimiter L);
  idem : @IdempotencyLedger I;
  cache : option C;
  usage : U;
  audit : list (Invocation * admit_err);
}.

(** The readings of the clock. *)
Record ticks := mkTicks { t_rate : Z; t_idem : Z; t_cache : Z; t_quota : Z }.

Definition refuse (inv : Invocation) (e : admit_err) (st : plane) : res admit_err Admission * plane :=
  (Err e, if isRemote (Surface (inv_Meta inv)) then mkPlane (rates st) (idem st) (cache st) (usage st) (audit st ++ [(inv, e)])%list else st).

(** Slot 7. *)
Definition rateLimit (now : Z) (inv : Invocation) (l : Leaf) (r : option (@rateLimiter L)) : option admit_err * option (@rateLimiter L) :=
  match r with
  | None => (None, None)
  | Some r =>
      if negb (isRemote (Surface (inv_Meta inv))) then (None, Some r)
      else let t := rateTierOf l in
           let '(w, r) := RateLimit.take now (rateKey (inv_Meta inv) t) t r in (ERate t <$> w, Some r)
  end.

(** The call's idempotency key, given up. *)
Definition abandon (v : option verdict) (inv : Invocation) (l : @IdempotencyLedger I) : @IdempotencyLedger I :=
  match v with
  | Some VRun => release (idempotencyStoreKey (inv_Meta inv)) (idempotencyFingerprint inv) l
  | _ => l
  end.

Definition Admit (su : setup) (ctx : bool) (tk : ticks) (inv : Invocation) (st : plane) : res admit_err Admission * plane :=
  let inv := default_surface inv in
  match gates (permission su) (bridge su) inv with
  | Err e => refuse inv (EGate e) st
  | Ok l =>
      let '(e, r) := rateLimit (t_rate tk) inv l (rates st) in
      let st := mkPlane r (idem st) (cache st) (usage st) (audit st) in
      match e with
      | Some e => refuse inv e st
      | None =>
          let inv := set_ownArgv (DisableFlagParsing (l_Cmd l)) inv in
          let '(v, il) := admitIdempotency (idem_ttl su) ctx (t_idem tk) inv (idem st) in
          let st := mkPlane (rates st) il (cache st) (usage st) (audit st) in
          match v with
          | Some (VRefuse e) => refuse inv (EIdem e) st
          | Some (VReplay r) => (Ok (mkAdmission (forwardIdempotencyKey (markReplayed inv) l) l (Some (VReplay r)) None ""), st)
          | v =>
              let '(cc, cs) := cacheLookup (tool_name su) ctx (t_cache tk) inv l (cache st) in
              let st := mkPlane (rates st) (idem st) cs (usage st) (audit st) in
              let adm := mkAdmission (forwardIdempotencyKey inv l) l v cc in
              if match cc with Some c => bool_decide (is_Some (hit c)) | None => false end then (Ok (adm ""), st)
              else match quotaCheck (quota su) ctx (t_quota tk) (inv_Meta inv) (usage st) with
                   | (Err e, u) => refuse inv e (mkPlane (rates st) (abandon v inv (idem st)) (cache st) u (audit st))
                   | (Ok key, u) => (Ok (adm key), mkPlane (rates st) (idem st) (cache st) u (audit st))
                   end
          end
      end
  end.

(** ** What admission costs *)

Context {KLU : KvLaws U}.

(** The call as it reaches the idempotency gate. *)
Definition keyed (l : Leaf) (inv : Invocation) : Invocation := set_ownArgv (DisableFlagParsing (l_Cmd l)) (default_surface inv).

Definition store_key (l : Leaf) (inv : Invocation) : string := idempotencyStoreKey (inv_Meta (keyed l inv)).
Definition fingerprint (l : Leaf) (inv : Invocation) : string := idempotencyFingerprint (keyed l inv).

Lemma admit_idem_effects on ctx now inv il v il' :
  admitIdempotency on ctx now inv il = (v, il') →
  db il' = db il ∧ (v = Some VRun → inflight il !! idempotencyStoreKey (inv_Meta inv) = None) ∧
  inflight il' = if v is Some VRun then <[idempotencyStoreKey (inv_Meta inv) := idempotencyFingerprint inv]> (inflight il) else inflight il.
Proof.
  unfold admitIdempotency. destruct on as [ttl|]; [|by intros [= <- <-]]. case_match; [by intros [= <- <-]|].
  set (key := idempotencyStoreKey _). set (fp := idempotencyFingerprint _).
  destruct (reserve key fp il) as [[e|] il1] eqn:Er.
  - intros [= <- <-]. by destruct (reserve_refused _ _ _ _ _ Er).
  - destruct (reserve_ok _ _ _ _ Er) as (Hn & Hi & Hd). destruct (look ctx now ttl key fp il1) as [v1 il2] eqn:El. intros [= <- <-].
    assert (Hrel : inflight (release key fp il1) = inflight il).
    { rewrite release_inflight by (rewrite Hi; apply lookup_insert_eq). by rewrite Hi, delete_insert_id. }
    unfold look in El. repeat (case_match; simplify_eq/=); rewrite ?release_db, ?Hd; split_and!; try done; by rewrite Hi.
Qed.

Lemma quota_same gate ctx now m s r s' :
  kv_inv s → quotaCheck gate ctx now m s = (r, s') → kv_inv s' ∧ live now (kv_view s') = live now (kv_view s).
Proof.
  intros Hi. unfold quotaCheck. destruct gate as [q|]; [|by intros [= _ <-]]. case_match; [by intros [= _ <-]|].
  unfold Usage_, load. destruct (negb (checkWindow _)); [by intros [= _ <-]|]. cbn [window].
  destruct (kv_Get ctx now _ s) as [g s1] eqn:Eg. destruct (kv_get_law _ _ _ _ _ _ Hi Eg) as (Hi1 & _ & Hs1 & _).
  destruct g as [[raw|]|]; cbn; [destruct (default _ _)|..]; cbn; repeat case_match; intros [= _ <-]; by split.
Qed.

(** C12. What a refused and an admitted call leave behind.  A refusal is audited once
    when the surface is remote, reserves no key, records and counts nothing, and
    costs a token only when every gate before the rate limit passed.  An admitted
    call was let through by those gates, is not audited yet, and holds its
    idempotency key exactly when it is to run under one; one that is answered
    by a replay or the cache does not ask for quota. *)
Theorem admit_effects su ctx tk inv st r st' :
  kv_inv (usage st) → Admit su ctx tk inv st = (r, st') →
  db (idem st') = db (idem st) ∧ live (t_quota tk) (kv_view (usage st')) = live (t_quota tk) (kv_view (usage st)) ∧
  match r with
  | Err e =>
      inflight (idem st') = inflight (idem st) ∧
      (∃ inv', Path inv' = Path inv ∧ inv_Meta inv' = inv_Meta (default_surface inv) ∧
         audit st' = (audit st ++ (if isRemote (Surface (inv_Meta inv')) then [(inv', e)] else []))%list) ∧
      (∀ g, gates (permission su) (bridge su) (default_surface inv) = Err g → e = EGate g ∧ rates st' = rates st)
  | Ok a =>
      gates (permission su) (bridge su) (default_surface inv) = Ok (a_leaf a) ∧ audit st' = audit st ∧
      inflight (idem st') = (if a_idem a is Some VRun then <[store_key (a_leaf a) inv := fingerprint (a_leaf a) inv]> (inflight (idem st)) else inflight (idem st)) ∧
      (∀ e, a_idem a ≠ Some (VRefuse e)) ∧
      ((∃ v, a_idem a = Some (VReplay v)) ∨ (∃ c, a_cache a = Some c ∧ is_Some (hit c)) → a_quotaKey a = "" ∧ usage st' = usage st)
  end.
Proof.
  intros Hu HA. unfold Admit in HA. set (inv0 := default_surface inv) in *.
  assert (Hp0 : Path inv0 = Path inv) by (unfold inv0, default_surface; by destruct (String.eqb _ _)).
  assert (Href : ∀ e inv' st1 r1 st2, Path inv' = Path inv → inv_Meta inv' = inv_Meta inv0 → audit st1 = audit st → refuse inv' e st1 = (r1, st2) →
    r1 = Err e ∧ rates st2 = rates st1 ∧ idem st2 = idem st1 ∧ usage st2 = usage st1 ∧
    ∃ inv', Path inv' = Path inv ∧ inv_Meta inv' = inv_Meta inv0 ∧ audit st2 = (audit st ++ (if isRemote (Surface (inv_Meta inv')) then [(inv', e)] else []))%list).
  { intros e inv' st1 r1 st2 Hp Hm Ha E. unfold refuse in E. injection E as <- <-. split; [done|]. rewrite <-Ha.
    destruct (isRemote (Surface (inv_Meta inv'))) eqn:Er; split_and!; try done; exists inv'; rewrite Er; by rewrite ?app_nil_r. }
  destruct (gates (permission su) (bridge su) inv0) as [l|g] eqn:Eg.
  2: { destruct (Href _ _ _ _ _ Hp0 eq_refl eq_refl HA) as (-> & Hr & Hi & Hus & Hau). rewrite Hi, Hus. split_and!; try done. by intros g' [= <-]. }
  destruct (rateLimit (t_rate tk) inv0 l (rates st)) as [re rr] eqn:Er. destruct re as [e|].
  { destruct (Href e inv0 (mkPlane rr (idem st) (cache st) (usage st) (audit st)) _ _ Hp0 eq_refl eq_refl HA) as (-> & Hr & Hi & Hus & Hau).
    rewrite Hi, Hus. split_and!; try done. }
  cbn [rates idem cache usage audit] in HA. change (set_ownArgv (DisableFlagParsing (l_Cmd l)) inv0) with (keyed l inv) in HA.
  destruct (admitIdempotency (idem_ttl su) ctx (t_idem tk) (keyed l inv) (idem st)) as [v il] eqn:Ei.
  destruct (admit_idem_effects _ _ _ _ _ _ _ Ei) as (Hdb & Hfree & Hin).
  destruct v as [[|res|e]|].
  3: { destruct (Href (EIdem e) (keyed l inv) (mkPlane rr il (cache st) (usage st) (audit st)) _ _ Hp0 eq_refl eq_refl HA) as (-> & Hr & Hi & Hus & Hau).
       rewrite Hi, Hus. split_and!; try done. }
  2: { injection HA as <- <-. split_and!; try done. }
  all: destruct (cacheLookup (tool_name su) ctx (t_cache tk) (keyed l inv) l (cache st)) as [cc cs] eqn:Ec.
  all: destruct (match cc with Some c => bool_decide (is_Some (hit c)) | None => false end) eqn:Eh;
    [injection HA as <- <-; cbn; split_and!; done|].
  all: destruct (quotaCheck (quota su) ctx (t_quota tk) (inv_Meta (keyed l inv)) (usage st)) as [[key|e] u] eqn:Eq;
    destruct (quota_same _ _ _ _ _ _ _ Hu Eq) as [_ Hlive].
  all: assert (Hnohit : ¬ ∃ c, cc = Some c ∧ is_Some (hit c)) by (intros (c & -> & Hc); by rewrite bool_decide_eq_true_2 in Eh).
  1, 3: injection HA as <- <-; cbn; split_and!; try done; intros [[? ?]|?]; done.
  all: apply (Href e (keyed l inv)) in HA as (-> & Hr & Hi & Hus & Hau); [|done..]; rewrite Hi, Hus; cbn [idem usage abandon].
  - specialize (Hfree eq_refl). rewrite release_db, release_inflight by (rewrite Hin; apply lookup_insert_eq).
    rewrite Hin, delete_insert_id by done. split_and!; try done.
  - split_and!; try done.
Qed.

End plane.
