(* ===== verification/AdmissionExamples.v ===== *)
(** * Admissions of a small tool *)

From Stdlib Require Import Ascii.
From S2P Require Import Prelude Fingerprint Topics GoStrings KvStore KvSqlite Reflect Invocation Bridge BridgeExamples NetIP Usage UsageExamples IdemStore Idempotency IdempotencyExamples RateLimit Admission.

Import memory.

Local Open Scope Z_scope.

(** A bucket that only counts down. *)
#[export] Instance counting : Limiter Z := {|
  NewLimiter _ burst := burst;
  ReserveN _ l := (true, if 0 <? l then 0 else 10 ^ 9, l - 1);
  CancelAt _ l := l + 1;
|}.

#[export] Instance no_cache : CacheCodec := {| doc_Marshal _ := None; entry_Unmarshal _ := None; ParseDuration _ := None |}.

Definition daily : Quota := mkQuota "tool" QuotaPerTenant (24 * hour) 1 0.

Definition removal : Invocation :=
  mkInvocation ["widget"; "rm"] ["7"] ∅ (mkMeta "alice" EstablishedVerified "acme" SurfaceREST "k1" {["scopes" := "widgets:write"]}) false.

Definition tool_setup : setup := mkSetup served "tool" permit_all (Some hour) (Some daily).

Abbreviation tool_plane := (@plane Z (gmap string StoredResult) KvSqlite.Store KvSqlite.Store).

Definition idle_plane : tool_plane :=
  mkPlane (Some (newRateLimiter DefaultRateLimit)) (OpenIdempotencyLedger true memory.Memory) None NewContext [].

(** A colleague of the same tenant has used the day's one call. *)
Definition spent_plane : tool_plane :=
  mkPlane (rates idle_plane) (idem idle_plane) None
    (recordQuota true (WithQuota daily) noon noon (QuotaKey daily (mkMeta "bob" EstablishedVerified "acme" SurfaceMCP "" ∅)) 10 NewContext) [].

Definition at_noon : ticks := mkTicks noon noon noon noon.

(** The removal spends a token, is refused for the quota and keeps no key. *)
Lemma admit_effects_witness :
  ∃ st', Admit tool_setup false at_noon removal spent_plane = (Err (EQuota LimitOps 1 1 (Reset (count ∅ noon "" (24 * hour)))), st') ∧
         inflight (idem st') = ∅ ∧ length (audit st') = 1%nat ∧ rates st' ≠ rates spent_plane.
Proof.
  destruct (Admit tool_setup false at_noon removal spent_plane) as [r st'] eqn:E. exists st'.
  pose proof (admit_effects tool_setup false at_noon removal spent_plane r st' I E) as H.
  vm_compute in E. injection E as <- <-. destruct H as (_ & _ & Hin & _). split; [vm_compute; reflexivity|]. split; [exact Hin|].
  split; [vm_compute; reflexivity|]. intros E. apply (f_equal (λ r, match r with Some r => size (buckets r) | None => 0%nat end)) in E. vm_compute in E. discriminate E.
Defined.

(** With quota left it is admitted under its key. *)
Example removal_admitted :
  match Admit tool_setup false at_noon removal idle_plane with
  | (Ok a, st') => a_idem a = Some VRun ∧ size (inflight (idem st')) = 1%nat ∧ a_quotaKey a = "quota/tool/tenant/acme"
  | _ => False
  end.
Proof. vm_compute. done. Qed.

(** Two connections of one client from one subnet are one caller, whatever name
    the second claims. *)
Lemma limits_separate_callers_witness :
  let m := mkMeta "" EstablishedNone "" SurfaceREST "" {["remote_addr" := "[2001:db8:0:1::7]:4000"]} in
  let m' := mkMeta "root" EstablishedNone "acme" SurfaceSSE "" {["remote_addr" := "[2001:db8:0:1::8]:4001"]} in
  owner_of m = owner_of m' ∧ RateTierRead = RateTierRead ∧ owner_of m = OAddress "2001:db8:0:1::/64".
Proof.
  cbn zeta. split; [|split; [reflexivity|vm_compute; reflexivity]].
  apply (limits_separate_callers
           (mkMeta "" EstablishedNone "" SurfaceREST "" {["remote_addr" := "[2001:db8:0:1::7]:4000"]})
           (mkMeta "root" EstablishedNone "acme" SurfaceSSE "" {["remote_addr" := "[2001:db8:0:1::8]:4001"]}) RateTierRead RateTierRead daily);
    [split; vm_compute; reflexivity..| | |]; vm_compute; reflexivity.
Defined.
