(* ===== verification/Regexp.v ===== *)
(** * Regular expressions: UTF-8, syntax trees and what they match

    What the redaction engine relies on of Go's [unicode/utf8] and
    [regexp/syntax]: decoding and encoding of runes, the syntax tree
    [syntax.Parse] gives (its [Op]s as constructors), and the texts a tree
    matches.  A text is the list of its bytes.  The parser and the matcher are
    the library's own and stay parameters of the development; a tree's matches
    are the relation [Matches] below, which says where a tree can match and not
    which of its matches the engine prefers. *)

From S2P Require Import Prelude.

Local Open Scope Z_scope.

Notation text := (list Z).

(** The bytes of an ASCII string. *)
Fixpoint txt (s : string) : text :=
  match s with EmptyString => [] | String c s => Z.of_N (Ascii.N_of_ascii c) :: txt s end.

Definition is_byte (b : Z) : Prop := 0 ≤ b < 256.

(** ** unicode/utf8 *)

Definition RuneSelf : Z := 0x80.
Definition RuneError : Z := 0xFFFD.
Definition MaxRune : Z := 0x10FFFF.

Definition within (lo b hi : Z) : bool := (lo <=? b) && (b <=? hi).

(** Go's [string(r)]: what is not a rune is written as the replacement character. *)
Definition valid_rune (r : Z) : bool := within 0 r 0xD7FF || within 0xE000 r MaxRune.

Definition encode_valid (r : Z) : text :=
  if r <=? 0x7F then [r]
  else if r <=? 0x7FF then [0xC0 + r / 64; 0x80 + r mod 64]
  else if r <=? 0xFFFF then [0xE0 + r / 4096; 0x80 + r / 64 mod 64; 0x80 + r mod 64]
  else [0xF0 + r / 262144; 0x80 + r / 4096 mod 64; 0x80 + r / 64 mod 64; 0x80 + r mod 64].

Definition encode_rune (r : Z) : text := encode_valid (if valid_rune r then r else RuneError).

(** [utf8.RuneLen]. *)
Definition RuneLen (r : Z) : Z := if valid_rune r then Z.of_nat (length (encode_valid r)) else -1.

(** [utf8.DecodeRune]: the rune and its width, the replacement character with
    width 1 for a byte that does not start an encoding, nothing at the end. *)
Definition cont (b : Z) : bool := within 0x80 b 0xBF.

Definition decode_rune (s : text) : option (Z * nat) :=
  match s with
  | [] => None
  | b0 :: s =>
      let bad := Some (RuneError, 1%nat) in
      if within 0 b0 0x7F then Some (b0, 1%nat)
      else if within 0xC2 b0 0xDF then
        match s with
        | b1 :: _ => if cont b1 then Some ((b0 - 0xC0) * 64 + (b1 - 0x80), 2%nat) else bad
        | _ => bad
        end
      else if within 0xE0 b0 0xEF then
        match s with
        | b1 :: b2 :: _ =>
            if within (if b0 =? 0xE0 then 0xA0 else 0x80) b1 (if b0 =? 0xED then 0x9F else 0xBF) && cont b2
            then Some ((b0 - 0xE0) * 4096 + (b1 - 0x80) * 64 + (b2 - 0x80), 3%nat) else bad
        | _ => bad
        end
      else if within 0xF0 b0 0xF4 then
        match s with
        | b1 :: b2 :: b3 :: _ =>
            if within (if b0 =? 0xF0 then 0x90 else 0x80) b1 (if b0 =? 0xF4 then 0x8F else 0xBF) && cont b2 && cont b3
            then Some ((b0 - 0xF0) * 262144 + (b1 - 0x80) * 4096 + (b2 - 0x80) * 64 + (b3 - 0x80), 4%nat) else bad
        | _ => bad
        end
      else bad
  end.

(** [[]rune(s)]; every turn consumes a byte, so the length bounds them. *)
Fixpoint runes_loop (fuel : nat) (s : text) : list Z :=
  match fuel with
  | O => []
  | S fuel => match decode_rune s with Some (r, w) => r :: runes_loop fuel (drop w s) | None => [] end
  end.

Definition runes_of (s : text) : list Z := runes_loop (length s) s.

(** ** Lemmas on runes *)

Lemma within_spec lo b hi : within lo b hi = true ↔ lo ≤ b ≤ hi.
Proof. unfold within. lia. Qed.

(** The cases of a decoding: a byte below [RuneSelf], a valid encoding of two
    to four bytes, or the replacement character for one byte. *)
Ltac split_within :=
  repeat match goal with
         | H : (_ && _) = true |- _ => apply andb_true_iff in H as [? ?]
         | H : within _ _ _ = true |- _ => apply within_spec in H
         | H : cont _ = true |- _ => apply within_spec in H
         | H : context [if ?b =? ?k then _ else _] |- _ => destruct (Z.eqb_spec b k)
         end.

Definition rune_case (s : text) (r : Z) (w : nat) : Prop :=
  (valid_rune r = true ∧ take w s = encode_valid r) ∨ (r = RuneError ∧ w = 1%nat ∧ s ≠ []).

Lemma decode_two b0 b1 s : 0xC2 ≤ b0 ≤ 0xDF → 0x80 ≤ b1 ≤ 0xBF → rune_case (b0 :: b1 :: s) ((b0 - 0xC0) * 64 + (b1 - 0x80)) 2.
Proof.
  intros H0 H1. left. set (r := _ + _). assert (Hr : 0x80 ≤ r ≤ 0x7FF) by lia. split.
  - unfold valid_rune, within, MaxRune. lia.
  - unfold encode_valid. destruct (Z.leb_spec r 0x7F); [lia|]. destruct (Z.leb_spec r 0x7FF); [|lia]. cbn.
    assert (r / 64 = b0 - 0xC0) by (symmetry; apply Z.div_unique with (b1 - 0x80); lia).
    assert (r mod 64 = b1 - 0x80) by (symmetry; apply Z.mod_unique with (b0 - 0xC0); lia). repeat f_equal; lia.
Qed.

Lemma decode_three b0 b1 b2 s :
  0xE0 ≤ b0 ≤ 0xEF → 0x80 ≤ b1 ≤ 0xBF → (b0 = 0xE0 → 0xA0 ≤ b1) → (b0 = 0xED → b1 ≤ 0x9F) → 0x80 ≤ b2 ≤ 0xBF →
  rune_case (b0 :: b1 :: b2 :: s) ((b0 - 0xE0) * 4096 + (b1 - 0x80) * 64 + (b2 - 0x80)) 3.
Proof.
  intros H0 H1 Hlo Hsur H2. left. set (r := _ + _). assert (Hr : 0x800 ≤ r ≤ 0xFFFF) by lia. split.
  - unfold valid_rune, within, MaxRune. lia.
  - unfold encode_valid. destruct (Z.leb_spec r 0x7F); [lia|]. destruct (Z.leb_spec r 0x7FF); [lia|]. destruct (Z.leb_spec r 0xFFFF); [|lia]. cbn.
    assert (r / 4096 = b0 - 0xE0) by (symmetry; apply Z.div_unique with ((b1 - 0x80) * 64 + (b2 - 0x80)); lia).
    assert (E : r / 64 = (b0 - 0xE0) * 64 + (b1 - 0x80)) by (symmetry; apply Z.div_unique with (b2 - 0x80); lia).
    assert (r / 64 mod 64 = b1 - 0x80) by (rewrite E; symmetry; apply Z.mod_unique with (b0 - 0xE0); lia).
    assert (r mod 64 = b2 - 0x80) by (symmetry; apply Z.mod_unique with ((b0 - 0xE0) * 64 + (b1 - 0x80)); lia). repeat f_equal; lia.
Qed.

Lemma decode_four b0 b1 b2 b3 s :
  0xF0 ≤ b0 ≤ 0xF4 → 0x80 ≤ b1 ≤ 0xBF → (b0 = 0xF0 → 0x90 ≤ b1) → (b0 = 0xF4 → b1 ≤ 0x8F) → 0x80 ≤ b2 ≤ 0xBF → 0x80 ≤ b3 ≤ 0xBF →
  rune_case (b0 :: b1 :: b2 :: b3 :: s) ((b0 - 0xF0) * 262144 + (b1 - 0x80) * 4096 + (b2 - 0x80) * 64 + (b3 - 0x80)) 4.
Proof.
  intros H0 H1 Hlo Hhi H2 H3. left. set (r := _ + _). assert (Hr : 0x10000 ≤ r ≤ 0x10FFFF) by lia. split.
  - unfold valid_rune, within, MaxRune. lia.
  - unfold encode_valid. destruct (Z.leb_spec r 0x7F); [lia|]. destruct (Z.leb_spec r 0x7FF); [lia|]. destruct (Z.leb_spec r 0xFFFF); [lia|]. cbn.
    assert (r / 262144 = b0 - 0xF0) by (symmetry; apply Z.div_unique with ((b1 - 0x80) * 4096 + (b2 - 0x80) * 64 + (b3 - 0x80)); lia).
    assert (E : r / 4096 = (b0 - 0xF0) * 64 + (b1 - 0x80)) by (symmetry; apply Z.div_unique with ((b2 - 0x80) * 64 + (b3 - 0x80)); lia).
    assert (r / 4096 mod 64 = b1 - 0x80) by (rewrite E; symmetry; apply Z.mod_unique with (b0 - 0xF0); lia).
    assert (E' : r / 64 = ((b0 - 0xF0) * 64 + (b1 - 0x80)) * 64 + (b2 - 0x80)) by (symmetry; apply Z.div_unique with (b3 - 0x80); lia).
    assert (r / 64 mod 64 = b2 - 0x80) by (rewrite E'; symmetry; apply Z.mod_unique with ((b0 - 0xF0) * 64 + (b1 - 0x80)); lia).
    assert (r mod 64 = b3 - 0x80) by (symmetry; apply Z.mod_unique with (((b0 - 0xF0) * 64 + (b1 - 0x80)) * 64 + (b2 - 0x80)); lia).
    repeat f_equal; lia.
Qed.

Lemma decode_cases s r w : decode_rune s = Some (r, w) → rune_case s r w.
Proof.
  assert (Hbad : ∀ b s, Some (RuneError, 1%nat) = Some (r, w) → rune_case (b :: s) r w) by (intros b s' [= <- <-]; by right).
  destruct s as [|b0 s]; [done|]. cbn [decode_rune].
  destruct (within 0 b0 0x7F) eqn:E1.
  { intros [= <- <-]. left. split_within. split; [unfold valid_rune, within; lia|]. unfold encode_valid. destruct (Z.leb_spec b0 0x7F); [done|lia]. }
  destruct (within 0xC2 b0 0xDF) eqn:E2.
  { destruct s as [|b1 s]; [apply Hbad|]. destruct (cont b1) eqn:C1; [|apply Hbad]. intros [= <- <-]. split_within. by apply decode_two. }
  destruct (within 0xE0 b0 0xEF) eqn:E3.
  { destruct s as [|b1 [|b2 s]]; [apply Hbad..|]. destruct (_ && cont b2) eqn:C; [|apply Hbad]. intros [= <- <-].
    split_within; apply decode_three; lia. }
  destruct (within 0xF0 b0 0xF4) eqn:E4; [|apply Hbad].
  destruct s as [|b1 [|b2 [|b3 s]]]; [apply Hbad..|]. destruct (_ && cont b3) eqn:C; [|apply Hbad]. intros [= <- <-].
  split_within; apply decode_four; lia.
Qed.

(** A decoding stays inside the text and consumes something. *)
Lemma decode_width s r w : decode_rune s = Some (r, w) → (0 < w ≤ length s)%nat.
Proof.
  destruct s as [|b0 s]; [done|]. cbn [decode_rune]. intros H.
  repeat (case_match; simplify_eq/=; try lia).
Qed.

(** ** regexp/syntax *)

(** A parsed tree: [re.Op] with the fields the operation uses. [OpLiteral] and
    the classes hold runes, a class as inclusive pairs; [OpRepeat] may have no
    upper bound ([-1] in Go). *)
Inductive regexp : Type :=
| OpNoMatch
| OpEmptyMatch
| OpLiteral (foldCase : bool) (runes : list Z)
| OpCharClass (ranges : list Z)
| OpAnyCharNotNL
| OpAnyChar
| OpBeginLine
| OpEndLine
| OpBeginText
| OpEndText
| OpWordBoundary
| OpNoWordBoundary
| OpCapture (sub : regexp)
| OpStar (sub : regexp)
| OpPlus (sub : regexp)
| OpQuest (sub : regexp)
| OpRepeat (min : nat) (max : option nat) (sub : regexp)
| OpConcat (subs : list regexp)
| OpAlternate (subs : list regexp).

(** Induction that reaches the operands of concatenations and alternations. *)
Section RegexpInd.
Variable P : regexp → Prop.
Hypothesis Hleaf : ∀ r, (match r with OpCapture _ | OpStar _ | OpPlus _ | OpQuest _ | OpRepeat _ _ _ | OpConcat _ | OpAlternate _ => False | _ => True end) → P r.
Hypothesis Hcapture : ∀ r, P r → P (OpCapture r).
Hypothesis Hstar : ∀ r, P r → P (OpStar r).
Hypothesis Hplus : ∀ r, P r → P (OpPlus r).
Hypothesis Hquest : ∀ r, P r → P (OpQuest r).
Hypothesis Hrepeat : ∀ n k r, P r → P (OpRepeat n k r).
Hypothesis Hconcat : ∀ l, Forall P l → P (OpConcat l).
Hypothesis Halternate : ∀ l, Forall P l → P (OpAlternate l).

Fixpoint regexp_tree_ind (r : regexp) : P r :=
  let all := fix all (l : list regexp) : Forall P l :=
    match l with [] => Forall_nil_2 P | r :: l => Forall_cons_2 P r l (regexp_tree_ind r) (all l) end in
  match r with
  | OpCapture r => Hcapture r (regexp_tree_ind r)
  | OpStar r => Hstar r (regexp_tree_ind r)
  | OpPlus r => Hplus r (regexp_tree_ind r)
  | OpQuest r => Hquest r (regexp_tree_ind r)
  | OpRepeat n k r => Hrepeat n k r (regexp_tree_ind r)
  | OpConcat l => Hconcat l (all l)
  | OpAlternate l => Halternate l (all l)
  | r => Hleaf r I
  end.

End RegexpInd.

(** The runes of a class: inclusive pairs, an odd last one ignored. *)
Fixpoint class_has (ranges : list Z) (c : Z) : bool :=
  match ranges with lo :: hi :: rest => within lo c hi || class_has rest c | _ => false end.

(** A word character is ASCII, so the byte beside a position decides. *)
Definition is_word_byte (b : Z) : bool := within 48 b 57 || within 65 b 90 || within 97 b 122 || (b =? 95).
Definition word_at (o : option Z) : bool := if o is Some b then is_word_byte b else false.
Definition at_word_boundary (before after : text) : bool := xorb (word_at (last before)) (word_at (head after)).

Section Matches.
(** [unicode.SimpleFold]: the next rune of the orbit of case-equivalent runes. *)
Variable SimpleFold : Z → Z.

(** [for f := SimpleFold(r); f != r; f = SimpleFold(f)]. An orbit of Unicode
    holds at most four runes, so eight turns reach its end. *)
Fixpoint orbit_loop (fuel : nat) (r f : Z) : list Z :=
  match fuel with
  | O => []
  | S fuel => if f =? r then [] else f :: orbit_loop fuel r (SimpleFold f)
  end.

Definition orbit (r : Z) : list Z := orbit_loop 8 r (SimpleFold r).

(** The runes an occurrence of [r] in a literal stands for. *)
Definition literal_runes (fold : bool) (r : Z) : list Z := if fold then r :: orbit r else [r].

(** [m] is one rune that [ok] accepts, in front of [after]. *)
Definition one_rune (ok : Z → Prop) (m after : text) : Prop :=
  ∃ c, decode_rune (m ++ after) = Some (c, length m) ∧ ok c.

Fixpoint match_literal (fold : bool) (runes : list Z) (m after : text) : Prop :=
  match runes with
  | [] => m = []
  | r :: runes => ∃ m1 m2, m = m1 ++ m2 ∧ one_rune (λ c, c ∈ literal_runes fold r) m1 (m2 ++ after) ∧ match_literal fold runes m2 after
  end.

(** [n] matches in a row. *)
Fixpoint match_times (P : text → text → text → Prop) (n : nat) (before m after : text) : Prop :=
  match n with
  | O => m = []
  | S n => ∃ m1 m2, m = m1 ++ m2 ∧ P before m1 (m2 ++ after) ∧ match_times P n (before ++ m1) m2 after
  end.

Definition match_seq (M : regexp → text → text → text → Prop) : list regexp → text → text → text → Prop :=
  fix go l before m after :=
    match l with
    | [] => m = []
    | r :: l => ∃ m1 m2, m = m1 ++ m2 ∧ M r before m1 (m2 ++ after) ∧ go l (before ++ m1) m2 after
    end.

(** [Matches re before m after]: in the input [before ++ m ++ after], [re] can
    match [m]. *)
Fixpoint Matches (re : regexp) (before m after : text) : Prop :=
  match re with
  | OpNoMatch => False
  | OpEmptyMatch => m = []
  | OpLiteral fold runes => match_literal fold runes m after
  | OpCharClass ranges => one_rune (λ c, class_has ranges c = true) m after
  | OpAnyCharNotNL => one_rune (λ c, c ≠ 10) m after
  | OpAnyChar => one_rune (λ _, True) m after
  | OpBeginLine => m = [] ∧ (before = [] ∨ last before = Some 10)
  | OpEndLine => m = [] ∧ (after = [] ∨ head after = Some 10)
  | OpBeginText => m = [] ∧ before = []
  | OpEndText => m = [] ∧ after = []
  | OpWordBoundary => m = [] ∧ at_word_boundary before after = true
  | OpNoWordBoundary => m = [] ∧ at_word_boundary before after = false
  | OpCapture sub => Matches sub before m after
  | OpStar sub => ∃ n, match_times (Matches sub) n before m after
  | OpPlus sub => ∃ n, match_times (Matches sub) (S n) before m after
  | OpQuest sub => m = [] ∨ Matches sub before m after
  | OpRepeat min max sub => ∃ n, (min ≤ n)%nat ∧ (if max is Some k then (n ≤ k)%nat else True) ∧ match_times (Matches sub) n before m after
  | OpConcat subs => match_seq Matches subs before m after
  | OpAlternate subs =>
      (fix any l := match l with [] => False | r :: l => Matches r before m after ∨ any l end) subs
  end.

Lemma Match_alternate subs before m after :
  Matches (OpAlternate subs) before m after ↔ ∃ r, r ∈ subs ∧ Matches r before m after.
Proof.
  cbn [Matches]. induction subs as [|r l IH]; [set_solver|]. rewrite IH. set_solver.
Qed.

Lemma one_rune_case ok m after : one_rune ok m after →
  ∃ c, ok c ∧ (valid_rune c = true ∧ m = encode_valid c ∨ c = RuneError ∧ length m = 1%nat).
Proof.
  intros (c & Hd & Hok). exists c. split; [done|]. destruct (decode_cases _ _ _ Hd) as [[Hv Ht]|(-> & Hw & _)]; [left|by right].
  split; [done|]. by rewrite take_app_length in Ht.
Qed.

End Matches.
