(* ===== verification/Prefilter.v ===== *)
(** * The literal screens of redaction rules (redact/prefilter.go, distinctive.go)

    Before a rule's pattern runs, [screenFor] derives from its syntax tree what
    every match must contain: sets of literals, one of which occurs in every
    match, and the fewest bytes a match spans.  [analyze] computes the sets
    bottom-up in [pfInfo], [minMatchLen] the length; [literalPrefix] is the
    walk that decides whether a rule is distinctive.  The theorems say that a
    screen never rejects a text the tree matches. *)

From S2P Require Import Prelude Regexp.

Local Open Scope Z_scope.

Definition pfMaxExact : nat := 64.
Definition pfMaxClass : Z := 12.
Definition pfMaxClauses : nat := 4.

Record pfInfo := PfInfo { exact : bool; set : list text; clauses : list (list text) }.

Definition pfNone : pfInfo := PfInfo false [] [].

(** [dedup]: the first occurrence of each member. *)
Fixpoint dedup_loop (seen l : list text) : list text :=
  match l with
  | [] => []
  | s :: l => if bool_decide (s ∈ seen) then dedup_loop seen l else s :: dedup_loop (s :: seen) l
  end.

Definition dedup (l : list text) : list text := if (length l <? 2)%nat then l else dedup_loop [] l.

Definition pfExact (l : list text) : pfInfo := PfInfo true (dedup l) [].

Definition asReq (i : pfInfo) : pfInfo :=
  if exact i then
    if (length (set i) =? 0)%nat then pfNone
    else if existsb (λ s, bool_decide (s = [])) (set i) then pfNone
    else PfInfo false [] [set i]
  else i.

Fixpoint minLen_loop (m : Z) (l : list text) : Z :=
  match l with
  | [] => m
  | s :: l => minLen_loop (if (m <? 0) || (Z.of_nat (length s) <? m) then Z.of_nat (length s) else m) l
  end.

Definition minLen : list text → Z := minLen_loop (-1).

Definition betterClause (a b : list text) : bool :=
  if minLen a =? minLen b then (length a <? length b)%nat else minLen b <? minLen a.

Definition sameSet (a b : list text) : bool :=
  if (length a =? length b)%nat then forallb (λ s, bool_decide (s ∈ a)) b else false.

Fixpoint distinct_clauses (out cs : list (list text)) : list (list text) :=
  match cs with
  | [] => out
  | c :: cs => distinct_clauses (if existsb (sameSet c) out then out else out ++ [c]) cs
  end.

(** The insertion sort keeps the sorted part reversed: [c] moves towards its
    front past every clause it betters. *)
Fixpoint insert_back (c : list text) (sorted : list (list text)) : list (list text) :=
  match sorted with
  | [] => [c]
  | x :: rest => if betterClause c x then x :: insert_back c rest else c :: sorted
  end.

Definition bestClauses (cs : list (list text)) : list (list text) :=
  let out := reverse (foldl (λ acc c, insert_back c acc) [] (distinct_clauses [] cs)) in
  take pfMaxClauses out.

(** ** The tree walk *)

Definition foldRune (r : Z) : Z := if within 65 r 90 then r + 32 else r.

Fixpoint foldedRunes_loop (runes : list Z) : option (list text) :=
  match runes with
  | [] => Some []
  | r :: runes =>
      if (r =? RuneError) || (r <? 0) || (MaxRune <? r) then None
      else l ← foldedRunes_loop runes; Some (encode_rune (foldRune r) :: l)
  end.

Definition foldedRunes (runes : list Z) : option (list text) := dedup <$> foldedRunes_loop runes.

Definition product (run ext : list text) : list text := flat_map (λ a, map (λ b, a ++ b) ext) run.

(** The loop of [concatInfos]; [flush] adds what the run implies. *)
Definition flush (run : list text) (cs : list (list text)) : list (list text) := cs ++ clauses (asReq (PfInfo true run [])).

Fixpoint concat_loop (parts : list pfInfo) (cs : list (list text)) (run : list text) (allExt : bool) : pfInfo :=
  match parts with
  | [] => if allExt then pfExact run else PfInfo false [] (bestClauses (flush run cs))
  | p :: parts =>
      if negb (exact p) then concat_loop parts (flush run cs ++ clauses p) [[]] false
      else if (pfMaxExact <? length run * length (set p))%nat then concat_loop parts (flush run cs) (set p) false
      else concat_loop parts cs (dedup (product run (set p))) allExt
  end.

Definition concatInfos (parts : list pfInfo) : pfInfo := concat_loop parts [] [[]] true.

(** The pairs of a class, enumerated while it is small. *)
Definition range_runes (lo hi : Z) : list Z := map (λ k, lo + Z.of_nat k) (seq 0 (Z.to_nat (hi - lo + 1))).

Fixpoint class_runes (ranges : list Z) (runes : list Z) : option (list Z) :=
  match ranges with
  | lo :: hi :: rest =>
      if pfMaxClass <? (hi - lo) + 1 + Z.of_nat (length runes) then None
      else class_runes rest (runes ++ range_runes lo hi)
  | _ => Some runes
  end.

Definition analyzeClass (ranges : list Z) : pfInfo :=
  match class_runes ranges [] ≫= foldedRunes with
  | Some (s :: set) => pfExact (s :: set)
  | _ => pfNone
  end.

(** [for _, c := range cs[1:]]: the best clause of a branch. *)
Definition bestOf (c : list text) (cs : list (list text)) : list text :=
  foldl (λ best c, if betterClause c best then c else best) c cs.

Fixpoint union_loop (infos : list pfInfo) (union : list text) : pfInfo :=
  match infos with
  | [] => PfInfo false [] [dedup union]
  | info :: infos =>
      match clauses (asReq info) with
      | [] => pfNone
      | c :: cs => union_loop infos (union ++ bestOf c cs)
      end
  end.

Definition alternateInfos (infos : list pfInfo) : pfInfo :=
  if forallb exact infos && (sum_list (map (λ i, length (set i)) infos) <=? pfMaxExact)%nat
  then pfExact (flat_map set infos)
  else union_loop infos [].

Section Analysis.
Variable SimpleFold : Z → Z.

Definition analyzeLiteral (fold : bool) (runes : list Z) : pfInfo :=
  concatInfos (map (λ r, match foldedRunes (literal_runes SimpleFold fold r) with
                         | Some set => pfExact set
                         | None => pfNone
                         end) runes).

Fixpoint analyze (re : regexp) : pfInfo :=
  match re with
  | OpEmptyMatch | OpBeginLine | OpEndLine | OpBeginText | OpEndText | OpWordBoundary | OpNoWordBoundary => pfExact [[]]
  | OpLiteral fold runes => analyzeLiteral fold runes
  | OpCharClass ranges => analyzeClass ranges
  | OpCapture sub => analyze sub
  | OpQuest sub =>
      let i := analyze sub in
      if exact i && (length (set i) <? pfMaxExact)%nat then pfExact (set i ++ [[]]) else pfNone
  | OpPlus sub => asReq (analyze sub)
  | OpRepeat min _ sub => if (1 <=? min)%nat then asReq (analyze sub) else pfNone
  | OpConcat subs => concatInfos (map analyze subs)
  | OpAlternate subs => alternateInfos (map analyze subs)
  | OpStar _ | OpAnyChar | OpAnyCharNotNL | OpNoMatch => pfNone
  end.

(** ** Lengths *)

Definition runeWidth (r : Z) : Z := if r =? RuneError then 1 else if 0 <? RuneLen r then RuneLen r else 1.

Definition ceiling : Z := 2 ^ 20.
Definition clamp (n : Z) : Z := Z.min n ceiling.

Definition literal_width (fold : bool) (r : Z) : Z :=
  if fold then foldl (λ w f, Z.min w (runeWidth f)) (runeWidth r) (orbit SimpleFold r) else runeWidth r.

Fixpoint class_width (w : Z) (ranges : list Z) : Z :=
  match ranges with
  | lo :: hi :: rest => if within lo RuneError hi then 1 else class_width (Z.min w (runeWidth lo)) rest
  | _ => w
  end.

Fixpoint minMatchLen (re : regexp) : Z :=
  match re with
  | OpLiteral fold runes => clamp (foldl (λ n r, n + literal_width fold r) 0 runes)
  | OpCharClass ranges => if (length ranges =? 0)%nat then 0 else class_width 4 ranges
  | OpAnyChar | OpAnyCharNotNL => 1
  | OpCapture sub | OpPlus sub => minMatchLen sub
  | OpRepeat min _ sub => clamp (Z.of_nat min * minMatchLen sub)
  | OpConcat subs => foldl (λ n k, clamp (n + k)) 0 (map minMatchLen subs)
  | OpAlternate subs => foldl Z.min ceiling (map minMatchLen subs)
  | _ => 0
  end.

(** ** Screens *)

Record ruleScreen := RuleScreen { sc_clauses : list (list text); sc_minLen : Z }.

(** [screenFor] on the parsed and simplified tree, if the pattern parses. *)
Definition screenFor (parsed : option regexp) : ruleScreen :=
  match parsed with
  | None => RuleScreen [] 0
  | Some re => RuleScreen (clauses (asReq (analyze re))) (minMatchLen re)
  end.

End Analysis.

Definition keywordScreen (keywords : list text) : ruleScreen :=
  RuleScreen (if (length keywords =? 0)%nat then [] else [dedup keywords]) 0.

Definition withKeywords (sc : ruleScreen) (keywords : list text) : ruleScreen :=
  RuleScreen (sc_clauses sc ++ sc_clauses (keywordScreen keywords)) (sc_minLen sc).

(** ** Distinctive patterns *)

Definition minDistinctive : Z := 3.
Definition maxClassRunes : Z := 4.

Fixpoint smallClass_loop (n : Z) (ranges : list Z) : bool :=
  match ranges with
  | lo :: hi :: rest => let n := n + (hi - lo) + 1 in if maxClassRunes <? n then false else smallClass_loop n rest
  | _ => 0 <? n
  end.

Definition smallClass : list Z → bool := smallClass_loop 0.

Fixpoint concat_prefix (total : Z) (l : list (Z * bool)) : Z * bool :=
  match l with
  | [] => (total, true)
  | (n, whole) :: l => if whole then concat_prefix (total + n) l else (total + n, false)
  end.

Definition alternate_prefix (l : list (Z * bool)) : Z * bool :=
  let '(least, whole) := foldl (λ '(least, whole) '(n, w), (if (least <? 0) || (n <? least) then n else least, whole && w)) (-1, true) l in
  (Z.max least 0, whole).

Fixpoint literalPrefix (re : regexp) : Z * bool :=
  match re with
  | OpEmptyMatch | OpBeginLine | OpEndLine | OpBeginText | OpEndText | OpWordBoundary | OpNoWordBoundary => (0, true)
  | OpLiteral _ runes => (Z.of_nat (length runes), true)
  | OpCharClass ranges => if smallClass ranges then (1, true) else (0, false)
  | OpCapture sub => literalPrefix sub
  | OpConcat subs => concat_prefix 0 (map literalPrefix subs)
  | OpAlternate subs => alternate_prefix (map literalPrefix subs)
  | OpPlus sub => (fst (literalPrefix sub), false)
  | OpRepeat min _ sub => if (1 <=? min)%nat then (fst (literalPrefix sub), false) else (0, false)
  | _ => (0, false)
  end.

(** [isDistinctive] on the parsed, unsimplified tree, if the pattern parses. *)
Definition isDistinctive (parsed : option regexp) : bool :=
  match parsed with None => false | Some re => minDistinctive <=? fst (literalPrefix re) end.

(** [foldByte], and the folded text the literals are compared with. *)
Definition foldByte (b : Z) : Z := if within 65 b 90 then b + 32 else b.
Definition fold_text : text → text := map foldByte.

(** ** Soundness of the analysis *)

Definition occurs (l t : text) : Prop := ∃ a b, t = a ++ l ++ b.

(** What [pfInfo] says of one matched text. *)
Definition sat (i : pfInfo) (m : text) : Prop :=
  if exact i then fold_text m ∈ set i else Forall (Exists (λ l, occurs l (fold_text m))) (clauses i).

Lemma occurs_app_l l t u : occurs l t → occurs l (t ++ u).
Proof. intros (a & b & ->). exists a, (b ++ u). by rewrite <-!app_assoc. Qed.

Lemma occurs_app_r l t u : occurs l u → occurs l (t ++ u).
Proof. intros (a & b & ->). exists (t ++ a), b. by rewrite <-!app_assoc. Qed.

Lemma occurs_refl l : occurs l l.
Proof. exists [], []. by rewrite app_nil_r. Qed.

#[local] Hint Resolve occurs_app_l occurs_app_r occurs_refl : core.

Lemma fold_text_app a b : fold_text (a ++ b) = fold_text a ++ fold_text b.
Proof. apply map_app. Qed.

(** A set of clauses every one of which a text meets. *)
Definition meets (cs : list (list text)) (t : text) : Prop := Forall (Exists (λ l, occurs l t)) cs.

Lemma meets_app_l cs t u : meets cs t → meets cs (t ++ u).
Proof. intros H. eapply Forall_impl; [exact H|]. intros c Hc. eapply Exists_impl; [exact Hc|]. auto. Qed.

Lemma meets_app_r cs t u : meets cs u → meets cs (t ++ u).
Proof. intros H. eapply Forall_impl; [exact H|]. intros c Hc. eapply Exists_impl; [exact Hc|]. auto. Qed.

Lemma meets_app cs ds t : meets cs t → meets ds t → meets (cs ++ ds) t.
Proof. apply Forall_app_2. Qed.

Lemma dedup_loop_elem seen l s : s ∈ dedup_loop seen l ↔ s ∈ l ∧ s ∉ seen.
Proof.
  revert seen. induction l as [|x l IH]; intros seen; cbn; [set_solver|].
  case_bool_decide as Hx; [|rewrite elem_of_cons]; rewrite IH; [set_solver|].
  destruct (decide (s = x)) as [->|]; set_solver.
Qed.

Lemma elem_of_dedup l s : s ∈ dedup l ↔ s ∈ l.
Proof. unfold dedup. case_match; [done|]. rewrite dedup_loop_elem. set_solver. Qed.

Lemma sat_exact l m : sat (pfExact l) m ↔ fold_text m ∈ l.
Proof. apply elem_of_dedup. Qed.

Lemma sat_none m : sat pfNone m.
Proof. constructor. Qed.

Lemma asReq_not_exact i : exact (asReq i) = false.
Proof. unfold asReq. repeat case_match; done. Qed.

Lemma sat_req i m : sat i m → meets (clauses (asReq i)) (fold_text m).
Proof.
  unfold sat, asReq. destruct (exact i); [|done]. intros Hm. repeat case_match; try constructor; [|constructor].
  apply Exists_exists. eauto.
Qed.

Lemma sat_asReq i m : sat i m → sat (asReq i) m.
Proof. intros H%sat_req. unfold sat. by rewrite asReq_not_exact. Qed.

Lemma sat_asReq_app i m m' : sat i m → sat (asReq i) (m ++ m').
Proof. intros H%sat_req. unfold sat. rewrite asReq_not_exact, fold_text_app. by apply meets_app_l. Qed.

(** Keeping the best clauses only drops some. *)
Lemma distinct_clauses_sub out cs c : c ∈ distinct_clauses out cs → c ∈ out ∨ c ∈ cs.
Proof.
  revert out. induction cs as [|d cs IH]; intros out; cbn; [auto|]. intros [H|H]%IH; [|set_solver].
  destruct (existsb _ out); set_solver.
Qed.

Lemma insert_back_elem c l d : d ∈ insert_back c l ↔ d = c ∨ d ∈ l.
Proof. induction l as [|x l IH]; cbn; [set_solver|]. destruct (betterClause c x); set_solver. Qed.

Lemma sorted_clauses_sub cs acc d : d ∈ foldl (λ acc c, insert_back c acc) acc cs → d ∈ acc ∨ d ∈ cs.
Proof.
  revert acc. induction cs as [|c cs IH]; intros acc; cbn; [auto|]. intros [H|H]%IH; [|set_solver].
  apply insert_back_elem in H. set_solver.
Qed.

Lemma bestClauses_sub cs c : c ∈ bestClauses cs → c ∈ cs.
Proof.
  unfold bestClauses. intros H%elem_of_take. destruct H as (i & H%list_elem_of_lookup_2 & _). rewrite elem_of_reverse in H.
  apply sorted_clauses_sub in H as [H|H]; [set_solver|]. apply distinct_clauses_sub in H. set_solver.
Qed.

Lemma meets_best cs t : meets cs t → meets (bestClauses cs) t.
Proof. unfold meets. rewrite !Forall_forall. intros H c Hc%bestClauses_sub. auto. Qed.

Lemma elem_of_product run ext a b : a ∈ run → b ∈ ext → a ++ b ∈ product run ext.
Proof. intros Ha Hb. apply list_elem_of_In, in_flat_map. exists a. split; [by apply list_elem_of_In|]. by apply in_map, list_elem_of_In. Qed.

Lemma meets_flush run cs a b : meets cs a → b ∈ run → meets (flush run cs) (a ++ b).
Proof.
  intros Ha Hb. unfold flush. apply meets_app; [by apply meets_app_l|]. apply meets_app_r.
  unfold asReq. cbn. repeat case_match; try constructor; [|constructor]. apply Exists_exists. eauto.
Qed.

(** The pieces of a concatenation: what came before the current run meets the
    clauses, the run holds the text since. *)
Lemma concat_loop_sat parts : ∀ ms cs run allExt a b,
  Forall2 sat parts ms → meets cs a → b ∈ run → (allExt = true → a = []) →
  let i := concat_loop parts cs run allExt in
  if exact i then a ++ b ++ fold_text (concat ms) ∈ set i else meets (clauses i) (a ++ b ++ fold_text (concat ms)).
Proof.
  induction parts as [|p parts IH]; intros ms cs run allExt a b Hm Ha Hb Hext; inversion Hm as [|? m ? ms' Hp Hms]; subst; cbn [concat_loop concat].
  - change (fold_text []) with (@nil Z). rewrite app_nil_r. destruct allExt; cbn -[bestClauses]; [rewrite Hext by done; by apply elem_of_dedup|].
    by apply meets_best, meets_flush.
  - rewrite fold_text_app. unfold sat in Hp. destruct (exact p); cbn [negb].
    + destruct (_ <? _)%nat.
      * specialize (IH ms' (flush run cs) (set p) false (a ++ b) (fold_text m) Hms). rewrite <-app_assoc in IH.
        by apply IH; [apply meets_flush|..].
      * specialize (IH ms' cs (dedup (product run (set p))) allExt a (b ++ fold_text m) Hms). rewrite <-app_assoc in IH.
        by apply IH; [|apply elem_of_dedup, elem_of_product|].
    + specialize (IH ms' (flush run cs ++ clauses p) [[]] false (a ++ b ++ fold_text m) [] Hms). rewrite <-!app_assoc in IH.
      apply IH; [|set_solver|done]. rewrite app_assoc. apply meets_app; [by apply meets_app_l, meets_flush|by apply meets_app_r].
Qed.

Lemma concatInfos_sat parts ms : Forall2 sat parts ms → sat (concatInfos parts) (concat ms).
Proof. intros H. apply (concat_loop_sat parts ms [] [[]] true [] []); [done|constructor|set_solver|done]. Qed.

(** Folding the encoding of a rune is encoding the folded rune. *)
Lemma foldByte_high b : 0x80 ≤ b → foldByte b = b.
Proof. intros H. unfold foldByte, within. destruct (Z.leb_spec b 90); [lia|]. by rewrite andb_false_r. Qed.

Lemma valid_rune_range r : valid_rune r = true → 0 ≤ r ≤ MaxRune.
Proof. unfold valid_rune, within, MaxRune. lia. Qed.

Lemma encode_high r : valid_rune r = true → 0x80 ≤ r → Forall (λ b, 0x80 ≤ b < 256) (encode_valid r).
Proof.
  intros Hv%valid_rune_range Hr. unfold MaxRune in Hv. unfold encode_valid.
  destruct (Z.leb_spec r 0x7F); [lia|].
  assert (Hm : ∀ k, 0x80 ≤ 0x80 + k mod 64 < 256) by (intros k; pose proof (Z.mod_pos_bound k 64); lia).
  assert (Hd : ∀ base d n, 0 < d → r < d * n → 0x80 ≤ base → base + n ≤ 256 → 0x80 ≤ base + r / d < 256).
  { intros base d n ? ? ? ?. pose proof (Z.div_pos r d). pose proof (Z.div_lt_upper_bound r d n). lia. }
  destruct (Z.leb_spec r 0x7FF); [|destruct (Z.leb_spec r 0xFFFF)]; repeat apply Forall_cons_2; try apply Forall_nil_2; try apply Hm.
  - apply (Hd _ _ 32); lia.
  - apply (Hd _ _ 16); lia.
  - apply (Hd _ _ 5); lia.
Qed.

Lemma encode_low r : 0 ≤ r < 0x80 → encode_valid r = [r].
Proof. intros H. unfold encode_valid. destruct (Z.leb_spec r 0x7F); [done|lia]. Qed.

Lemma fold_encode r : valid_rune r = true → fold_text (encode_valid r) = encode_rune (foldRune r).
Proof.
  intros Hv. pose proof (valid_rune_range r Hv). unfold MaxRune in *. destruct (Z.lt_ge_cases r 0x80).
  - rewrite encode_low by lia. cbn. unfold foldRune, foldByte. destruct (within 65 r 90) eqn:E.
    + apply within_spec in E. unfold encode_rune. replace (valid_rune (r + 32)) with true by (unfold valid_rune, within; lia).
      by rewrite encode_low by lia.
    + unfold encode_rune. by rewrite Hv, encode_low by lia.
  - replace (foldRune r) with r by (unfold foldRune, within; destruct (Z.leb_spec r 90); [lia|by rewrite andb_false_r]).
    unfold encode_rune. rewrite Hv. induction (encode_high r Hv ltac:(lia)) as [|b l Hb _ IH]; cbn; [done|].
    rewrite foldByte_high by lia. by f_equal.
Qed.

Lemma foldedRunes_loop_spec runes l c :
  foldedRunes_loop runes = Some l → c ∈ runes → c ≠ RuneError ∧ encode_rune (foldRune c) ∈ l.
Proof.
  revert l. induction runes as [|r runes IH]; intros l Hl Hc; [by apply not_elem_of_nil in Hc|]. cbn in Hl.
  destruct (_ || _) eqn:E; [done|]. apply bind_Some in Hl as (l' & Hl' & [= <-]). apply orb_false_iff in E as [[E%Z.eqb_neq _]%orb_false_iff _].
  apply elem_of_cons in Hc as [->|Hc]; [set_solver|]. specialize (IH l' Hl' Hc). set_solver.
Qed.

(** A rune of an enumerated set is matched as one of its literals. *)
Lemma foldedRunes_sat runes set m after (ok : Z → Prop) :
  foldedRunes runes = Some set → (∀ c, ok c → c ∈ runes) → one_rune ok m after → sat (pfExact set) m.
Proof.
  intros Hs Hok (c & Hc & Hm)%one_rune_case. apply fmap_Some in Hs as (l & Hl & ->).
  destruct (foldedRunes_loop_spec runes l c Hl (Hok c Hc)) as [Hne Hin]. apply sat_exact, elem_of_dedup.
  destruct Hm as [[Hv ->]|[-> _]]; [|done]. by rewrite fold_encode.
Qed.

Lemma class_runes_acc ranges : ∀ acc runes c, class_runes ranges acc = Some runes → c ∈ acc → c ∈ runes.
Proof.
  induction ranges as [ranges IH] using (induction_ltof1 _ (@length Z)); unfold ltof in IH. intros acc runes c.
  destruct ranges as [|lo [|hi rest]]; cbn [class_runes]; [by intros [= ->]..|]. destruct (_ <? _); [done|].
  intros H Hc. eapply (IH rest); [cbn; lia|exact H|set_solver].
Qed.

Lemma elem_of_range_runes lo hi c : lo ≤ c ≤ hi → c ∈ range_runes lo hi.
Proof.
  intros H. unfold range_runes. apply list_elem_of_In, in_map_iff. exists (Z.to_nat (c - lo)). split; [lia|]. apply in_seq. lia.
Qed.

Lemma class_runes_spec ranges : ∀ acc runes c, class_runes ranges acc = Some runes → class_has ranges c = true → c ∈ runes.
Proof.
  induction ranges as [ranges IH] using (induction_ltof1 _ (@length Z)); unfold ltof in IH. intros acc runes c.
  destruct ranges as [|lo [|hi rest]]; cbn [class_runes class_has]; [done..|]. destruct (_ <? _); [done|]. intros H [Hc%within_spec|Hc]%orb_true_iff.
  - eapply class_runes_acc; [exact H|]. apply elem_of_app. right. by apply elem_of_range_runes.
  - eapply (IH rest); [cbn; lia|exact H|done].
Qed.

Lemma analyzeClass_sat ranges m after : one_rune (λ c, class_has ranges c = true) m after → sat (analyzeClass ranges) m.
Proof.
  intros Hm. unfold analyzeClass. destruct (class_runes ranges [] ≫= foldedRunes) as [[|s set]|] eqn:E; [apply sat_none| |apply sat_none].
  apply bind_Some in E as (runes & Hr & Hf). eapply foldedRunes_sat; [exact Hf| |exact Hm].
  intros c Hc. by eapply class_runes_spec.
Qed.

(** The union of the branches. *)
Lemma bestOf_elem c cs : bestOf c cs = c ∨ bestOf c cs ∈ cs.
Proof.
  unfold bestOf. revert c. induction cs as [|d cs IH]; intros c; cbn; [by left|].
  destruct (IH (if betterClause d c then d else c)) as [->|]; [destruct (betterClause d c)|]; set_solver.
Qed.

Lemma union_loop_sat infos : ∀ union i m,
  (Exists (λ l, occurs l (fold_text m)) union) ∨ (i ∈ infos ∧ sat i m) → sat (union_loop infos union) m.
Proof.
  induction infos as [|j infos IH]; intros union i m; cbn [union_loop].
  - intros [H|[H _]]; [|by apply not_elem_of_nil in H]. apply Forall_singleton. apply Exists_exists in H as (l & Hl & Ho).
    apply Exists_exists. exists l. by rewrite elem_of_dedup.
  - intros H. destruct (clauses (asReq j)) as [|c cs] eqn:E; [apply sat_none|]. apply (IH _ i).
    destruct H as [H|[[->|H]%elem_of_cons Hi]]; [left; apply Exists_app; by left| |by right].
    left. apply Exists_app. right. apply sat_req in Hi. rewrite E in Hi. unfold meets in Hi. rewrite Forall_forall in Hi. apply Hi.
    destruct (bestOf_elem c cs) as [->|]; set_solver.
Qed.

Lemma alternateInfos_sat infos i m : i ∈ infos → sat i m → sat (alternateInfos infos) m.
Proof.
  intros Hi Hm. unfold alternateInfos. destruct (_ && _) eqn:E; [|by apply (union_loop_sat _ _ i); right].
  apply andb_true_iff in E as [E _]. apply sat_exact, list_elem_of_In, in_flat_map. exists i. split; [by apply list_elem_of_In|].
  apply list_elem_of_In. unfold sat in Hm. rewrite forallb_forall in E. by rewrite (E i) in Hm by (by apply list_elem_of_In).
Qed.

Section Soundness.
Variable SimpleFold : Z → Z.

Notation analyze := (analyze SimpleFold).
Notation Matches := (Matches SimpleFold).
Notation minMatchLen := (minMatchLen SimpleFold).

Lemma match_literal_pieces fold runes : ∀ m after, match_literal SimpleFold fold runes m after →
  ∃ ms, m = concat ms ∧ Forall2 (λ r m', ∃ a, one_rune (λ c, c ∈ literal_runes SimpleFold fold r) m' a) runes ms.
Proof.
  induction runes as [|r runes IH]; intros m after; cbn [match_literal].
  - intros ->. exists []. auto.
  - intros (m1 & m2 & -> & H1 & (ms & -> & Hms)%IH). exists (m1 :: ms). eauto.
Qed.

Lemma analyzeLiteral_sat fold runes m after : match_literal SimpleFold fold runes m after → sat (analyzeLiteral SimpleFold fold runes) m.
Proof.
  intros (ms & -> & H)%match_literal_pieces. apply concatInfos_sat. induction H as [|r m' runes ms (a & Hr) _ IH]; cbn; [constructor|].
  constructor; [|exact IH]. destruct (foldedRunes _) as [set|] eqn:E; [|apply sat_none]. eapply foldedRunes_sat; [exact E| |exact Hr]; done.
Qed.

(** A property of every operand's match holds along a sequence. *)
Lemma match_seq_pieces (Q : regexp → text → Prop) subs :
  Forall (λ r, ∀ b m a, Matches r b m a → Q r m) subs → ∀ b m a, match_seq Matches subs b m a →
  ∃ ms, m = concat ms ∧ Forall2 Q subs ms.
Proof.
  induction 1 as [|r subs Hr _ IH]; intros b m a; cbn.
  - intros ->. exists []. auto.
  - intros (m1 & m2 & -> & H1 & (ms & -> & Hms)%IH). exists (m1 :: ms). eauto.
Qed.

(** The text a tree matches is what its [pfInfo] says. *)
Lemma analyze_sat re : ∀ before m after, Matches re before m after → sat (analyze re) m.
Proof.
  induction re as [re Hleaf|re IH|re IH|re IH|re IH|n k re IH|l IH|l IH] using regexp_tree_ind; intros before m after.
  - destruct re; try done; cbn [analyze Matches]; try (by intros _; apply sat_none); try (by apply analyzeLiteral_sat); try (by apply analyzeClass_sat).
    1: intros ->. 2-7: intros [-> _]. all: by apply sat_exact, list_elem_of_singleton.
  - apply IH.
  - intros _. apply sat_none.
  - intros (n & m1 & m2 & -> & Hm & _). by eapply sat_asReq_app, IH.
  - cbn [analyze Matches]. intros Hm. destruct (_ && _) eqn:E; [|apply sat_none]. apply andb_true_iff in E as [E _]. apply sat_exact.
    destruct Hm as [->|Hm%IH]; [set_solver|]. unfold sat in Hm. rewrite E in Hm. set_solver.
  - cbn [analyze Matches]. intros (j & Hmin & _ & Hm). destruct (Nat.leb_spec 1 n); [|apply sat_none].
    destruct j as [|j]; [lia|]. destruct Hm as (m1 & m2 & -> & Hm & _). by eapply sat_asReq_app, IH.
  - cbn [analyze Matches]. intros (ms & -> & H)%(match_seq_pieces (λ r m, sat (analyze r) m)); [|exact IH].
    apply concatInfos_sat. by apply Forall2_fmap_l.
  - rewrite Match_alternate. intros (r & Hr & Hm). cbn [analyze]. rewrite Forall_forall in IH. specialize (IH r Hr _ _ _ Hm).
    eapply alternateInfos_sat; [|exact IH]. by apply list_elem_of_fmap_2.
Qed.

(** ** Lengths *)

Lemma RuneLen_valid r : valid_rune r = true → RuneLen r = Z.of_nat (length (encode_valid r)).
Proof. unfold RuneLen. by intros ->. Qed.

Lemma RuneLen_mono lo c : valid_rune lo = true → valid_rune c = true → lo ≤ c → RuneLen lo ≤ RuneLen c.
Proof.
  intros Hl Hc H. rewrite !RuneLen_valid by done. unfold encode_valid.
  repeat match goal with |- context [?a <=? ?b] => destruct (Z.leb_spec a b) end; cbn; lia.
Qed.

Lemma encode_nonempty r : 1 ≤ Z.of_nat (length (encode_valid r)).
Proof. unfold encode_valid. repeat case_match; cbn; lia. Qed.

Lemma runeWidth_le lo c : valid_rune c = true → lo ≤ c → runeWidth lo ≤ Z.of_nat (length (encode_valid c)).
Proof.
  intros Hc H. pose proof (encode_nonempty c). unfold runeWidth. destruct (lo =? RuneError); [done|].
  destruct (Z.ltb_spec 0 (RuneLen lo)) as [Hp|]; [|done]. destruct (valid_rune lo) eqn:Hl; [|unfold RuneLen in Hp; by rewrite Hl in Hp].
  rewrite <-(RuneLen_valid c) by done. by apply RuneLen_mono.
Qed.

Lemma runeWidth_pos r : 1 ≤ runeWidth r.
Proof. unfold runeWidth. repeat case_match; lia. Qed.

Lemma runeWidth_error : runeWidth RuneError = 1.
Proof. done. Qed.

(** A matched rune is at least as wide as any bound that every accepted rune meets. *)
Lemma one_rune_width ok m after w :
  one_rune ok m after → (∀ c, ok c → w ≤ if c =? RuneError then 1 else runeWidth c) → w ≤ Z.of_nat (length m).
Proof.
  intros (c & Hc & Hm)%one_rune_case Hw. specialize (Hw c Hc). destruct Hm as [[Hv ->]|[-> Hl]].
  - destruct (c =? RuneError); [pose proof (encode_nonempty c); lia|]. pose proof (runeWidth_le c c Hv). lia.
  - rewrite Z.eqb_refl in Hw. lia.
Qed.

Lemma literal_width_le fold r c : c ∈ literal_runes SimpleFold fold r → literal_width SimpleFold fold r ≤ if c =? RuneError then 1 else runeWidth c.
Proof.
  intros Hc. assert (H : literal_width SimpleFold fold r ≤ runeWidth c).
  { unfold literal_runes, literal_width in *. destruct fold; [|by apply list_elem_of_singleton in Hc as ->].
    assert (Hmin : ∀ l w, foldl (λ w f, Z.min w (runeWidth f)) w l ≤ w ∧ ∀ f, f ∈ l → foldl (λ w f, Z.min w (runeWidth f)) w l ≤ runeWidth f).
    { induction l as [|f l IH]; intros w; cbn; [split; [done|set_solver]|]. destruct (IH (Z.min w (runeWidth f))) as [H1 H2].
      split; [lia|]. intros g [->|Hg]%elem_of_cons; [lia|auto]. }
    destruct (Hmin (orbit SimpleFold r) (runeWidth r)) as [H1 H2]. apply elem_of_cons in Hc as [->|Hc]; auto. }
  destruct (Z.eqb_spec c RuneError) as [->|]; [|done]. by rewrite runeWidth_error in H.
Qed.

Lemma foldl_add_shift {A} (f : A → Z) l : ∀ n, foldl (λ n r, n + f r) n l = n + foldl (λ n r, n + f r) 0 l.
Proof. induction l as [|x l IH]; intros n; cbn; [lia|]. rewrite (IH (n + f x)), (IH (0 + f x)). lia. Qed.

Lemma match_literal_width fold runes m after :
  match_literal SimpleFold fold runes m after → foldl (λ n r, n + literal_width SimpleFold fold r) 0 runes ≤ Z.of_nat (length m).
Proof.
  intros (ms & -> & H)%match_literal_pieces. induction H as [|r m' runes ms (a & Hr) _ IH]; cbn; [lia|].
  rewrite foldl_add_shift, length_app. pose proof (one_rune_width _ _ _ (literal_width SimpleFold fold r) Hr (literal_width_le fold r)). lia.
Qed.

Lemma class_width_le ranges : ∀ w, 1 ≤ w → class_width w ranges ≤ w.
Proof.
  induction ranges as [ranges IH] using (induction_ltof1 _ (@length Z)); unfold ltof in IH. intros w Hw.
  destruct ranges as [|lo [|hi rest]]; cbn [class_width]; [lia..|]. destruct (within _ _ _); [done|].
  pose proof (runeWidth_pos lo). specialize (IH rest ltac:(cbn; lia) (Z.min w (runeWidth lo))). lia.
Qed.

Lemma class_width_spec ranges c : ∀ w, 1 ≤ w → class_has ranges c = true → valid_rune c = true ∨ c = RuneError →
  class_width w ranges ≤ if c =? RuneError then 1 else Z.of_nat (length (encode_valid c)).
Proof.
  induction ranges as [ranges IH] using (induction_ltof1 _ (@length Z)); unfold ltof in IH. intros w Hw.
  destruct ranges as [|lo [|hi rest]]; cbn [class_width class_has]; [done..|]. intros Hc Hv.
  assert (Hone : 1 ≤ if c =? RuneError then 1 else Z.of_nat (length (encode_valid c))) by (destruct (_ =? _); [done|apply encode_nonempty]).
  destruct (within lo RuneError hi) eqn:E; [done|]. pose proof (runeWidth_pos lo).
  apply orb_true_iff in Hc as [Hc|Hc]; [|apply IH; [cbn; lia|lia|done..]].
  destruct (Z.eqb_spec c RuneError) as [->|Hne]; [congruence|]. destruct Hv as [Hv|]; [|done]. apply within_spec in Hc.
  pose proof (class_width_le rest (Z.min w (runeWidth lo)) ltac:(lia)). pose proof (runeWidth_le lo c Hv). lia.
Qed.

Lemma one_rune_pos ok m after : one_rune ok m after → 1 ≤ Z.of_nat (length m).
Proof. intros (c & Hd & _). apply decode_width in Hd. lia. Qed.

Lemma class_match_width ranges m after : one_rune (λ c, class_has ranges c = true) m after → class_width 4 ranges ≤ Z.of_nat (length m).
Proof.
  intros Hm. pose proof (one_rune_pos _ _ _ Hm). apply one_rune_case in Hm as (c & Hc & Hm).
  pose proof (class_width_spec ranges c 4 ltac:(lia) Hc) as Hw.
  destruct Hm as [[Hv ->]|[-> Hl]]; [specialize (Hw ltac:(auto)); destruct (c =? RuneError); lia|specialize (Hw ltac:(auto))]. cbn in Hw. lia.
Qed.

Lemma match_times_width re w n : (∀ b m a, Matches re b m a → w ≤ Z.of_nat (length m)) →
  ∀ b m a, match_times (Matches re) n b m a → Z.of_nat n * w ≤ Z.of_nat (length m).
Proof.
  intros Hw. induction n as [|n IH]; intros b m a; cbn; [intros ->; cbn; lia|].
  intros (m1 & m2 & -> & H1%Hw & H2%IH). rewrite length_app. lia.
Qed.

Lemma foldl_clamp_le subs (ms : list text) : ∀ n k, n ≤ k → Forall2 (λ r m, minMatchLen r ≤ Z.of_nat (length m)) subs ms →
  foldl (λ n k, clamp (n + k)) n (map minMatchLen subs) ≤ k + Z.of_nat (length (concat ms)).
Proof.
  intros n k Hn H. revert n k Hn. induction H as [|r m subs ms Hr _ IH]; intros n k Hn; cbn; [lia|].
  rewrite length_app. etrans; [apply (IH _ (k + Z.of_nat (length m))); unfold clamp; lia|]. lia.
Qed.

Lemma foldl_nonneg {A} (f : Z → A → Z) l : (∀ n x, 0 ≤ n → x ∈ l → 0 ≤ f n x) → ∀ n, 0 ≤ n → 0 ≤ foldl f n l.
Proof. induction l as [|x l IH]; intros Hf n Hn; cbn; [done|]. apply IH; [set_solver|]. apply Hf; set_solver. Qed.

Lemma literal_width_nonneg fold r : 0 ≤ literal_width SimpleFold fold r.
Proof.
  unfold literal_width. pose proof (runeWidth_pos r). destruct fold; [|lia]. apply foldl_nonneg; [|lia].
  intros n x ? _. pose proof (runeWidth_pos x). lia.
Qed.

Lemma class_width_nonneg ranges : ∀ w, 0 ≤ w → 0 ≤ class_width w ranges.
Proof.
  induction ranges as [l IH] using (induction_ltof1 _ (@length Z)); unfold ltof in IH. intros w Hw.
  destruct l as [|lo [|hi rest]]; cbn [class_width]; [done..|]. destruct (within _ _ _); [done|]. apply IH; [cbn; lia|].
  pose proof (runeWidth_pos lo). lia.
Qed.

Lemma minMatchLen_nonneg re : 0 ≤ minMatchLen re.
Proof.
  induction re as [re Hleaf|re IH|re IH|re IH|re IH|n k re IH|l IH|l IH] using regexp_tree_ind; cbn; try done.
  - destruct re; try done; cbn.
    + unfold clamp, ceiling. apply Z.min_glb; [|done]. apply foldl_nonneg; [|done]. intros n r ? _. pose proof (literal_width_nonneg foldCase r). lia.
    + destruct (_ =? _)%nat; [done|]. by apply class_width_nonneg.
  - unfold clamp, ceiling. lia.
  - apply foldl_nonneg; [|done]. intros n x Hn (r & -> & Hr)%list_elem_of_fmap_1. rewrite Forall_forall in IH. specialize (IH r Hr).
    unfold clamp, ceiling. lia.
  - apply foldl_nonneg; [|done]. intros n x Hn (r & -> & Hr)%list_elem_of_fmap_1. rewrite Forall_forall in IH. specialize (IH r Hr). lia.
Qed.

Lemma foldl_min_le l x n : n ∈ l → foldl Z.min x l ≤ n.
Proof.
  assert (Hx : ∀ l x, foldl Z.min x l ≤ x) by (induction l0 as [|y l0 IH]; intros z; cbn; [lia|]; specialize (IH (Z.min z y)); lia).
  revert x. induction l as [|y l IH]; intros x; [set_solver|]. intros [->|Hn]%elem_of_cons; cbn; [|by apply IH]. specialize (Hx l (Z.min x y)). lia.
Qed.

(** A match spans at least [minMatchLen] bytes. *)
Lemma minMatchLen_sound re : ∀ before m after, Matches re before m after → minMatchLen re ≤ Z.of_nat (length m).
Proof.
  induction re as [re Hleaf|re IH|re IH|re IH|re IH|n k re IH|l IH|l IH] using regexp_tree_ind; intros before m after.
  - destruct re; try done; cbn [minMatchLen Matches]; try (intros; lia).
    + intros H%match_literal_width. unfold clamp. lia.
    + intros H. destruct (_ =? _)%nat; [lia|]. by eapply class_match_width.
    + apply one_rune_pos.
    + apply one_rune_pos.
  - apply IH.
  - cbn. lia.
  - intros (n & m1 & m2 & -> & H%IH & _). cbn. rewrite length_app. lia.
  - cbn. lia.
  - cbn [minMatchLen Matches]. intros (j & Hmin & _ & Hm%(match_times_width re (minMatchLen re) j IH)). pose proof (minMatchLen_nonneg re). unfold clamp. nia.
  - cbn [minMatchLen Matches]. intros (ms & -> & H)%(match_seq_pieces (λ r m, minMatchLen r ≤ Z.of_nat (length m))); [|exact IH].
    by apply (foldl_clamp_le l ms 0 0).
  - rewrite Match_alternate. intros (r & Hr & Hm). cbn [minMatchLen]. rewrite Forall_forall in IH. etrans; [|by eapply IH].
    apply foldl_min_le. by apply list_elem_of_fmap_2.
Qed.

End Soundness.

(** ** What a screen decides *)

Fixpoint prefixb (l t : text) : bool :=
  match l, t with
  | [], _ => true
  | x :: l, y :: t => (x =? y) && prefixb l t
  | _, [] => false
  end.

Fixpoint occursb (l t : text) : bool :=
  prefixb l t || match t with [] => false | _ :: t => occursb l t end.

(** The decision a screen stands for: the input is long enough and every clause
    has a literal occurring in its folded form. *)
Definition admits (sc : ruleScreen) (s : text) : bool :=
  (sc_minLen sc <=? Z.of_nat (length s)) && forallb (existsb (λ l, occursb l (fold_text s))) (sc_clauses sc).

Lemma prefixb_spec l t : prefixb l t = true ↔ ∃ b, t = l ++ b.
Proof.
  revert t. induction l as [|x l IH]; intros t; cbn; [split; [by exists t|done]|]. destruct t as [|y t]; [split; [done|by intros [b ?]]|].
  rewrite andb_true_iff, Z.eqb_eq, IH. split; [intros [-> [b ->]]; by exists b|]. intros [b [= -> ->]]. eauto.
Qed.

Lemma occursb_spec l t : occursb l t = true ↔ occurs l t.
Proof.
  induction t as [|y t IH]; cbn [occursb]; rewrite orb_true_iff, prefixb_spec.
  - split; [|intros (a & b & E)]; [intros [[b ->]|]; [by exists [], b|done]|]. left.
    symmetry in E. apply app_eq_nil in E as [_ E]. by exists b.
  - rewrite IH. split.
    + intros [[b ->]|(a & b & ->)]; [by exists [], b|by exists (y :: a), b].
    + intros ([|z a] & b & E); [left; by exists b|]. injection E as -> ->. right. by exists a, b.
Qed.

Lemma admits_spec sc s : admits sc s = true ↔ sc_minLen sc ≤ Z.of_nat (length s) ∧ meets (sc_clauses sc) (fold_text s).
Proof.
  unfold admits, meets. rewrite andb_true_iff, Z.leb_le, forallb_forall, Forall_forall. apply and_iff_compat_l.
  apply forall_proper. intros c. rewrite <-list_elem_of_In, existsb_exists, Exists_exists.
  split; intros H Hc; specialize (H Hc) as (l & Hl & Ho); exists l; revert Hl Ho; rewrite <-list_elem_of_In, occursb_spec; auto.
Qed.

Lemma admits_keywords sc kws s : admits (withKeywords sc kws) s = admits sc s && admits (keywordScreen kws) s.
Proof.
  unfold admits, withKeywords. cbn [sc_minLen sc_clauses keywordScreen]. rewrite forallb_app.
  replace (0 <=? Z.of_nat (length s)) with true by (symmetry; apply Z.leb_le; lia). by rewrite andb_assoc.
Qed.

(** A pattern's screen admits every input the pattern matches in. *)
Lemma screen_admits SimpleFold re before m after :
  Matches SimpleFold re before m after → admits (screenFor SimpleFold (Some re)) (before ++ m ++ after) = true.
Proof.
  intros Hm. apply admits_spec. cbn [screenFor sc_minLen sc_clauses]. split.
  - pose proof (minMatchLen_sound _ _ _ _ _ Hm). rewrite !length_app. lia.
  - rewrite !fold_text_app. by eapply meets_app_r, meets_app_l, sat_req, analyze_sat.
Qed.

(** ** The literals of a screen can be indexed *)

(** A literal the index accepts: bytes, at least one. *)
Definition indexable (l : text) : Prop := l ≠ [] ∧ Forall is_byte l.

Definition bytes_info (i : pfInfo) : Prop := Forall (Forall is_byte) (set i) ∧ Forall (Forall indexable) (clauses i).

Lemma bytes_none : bytes_info pfNone.
Proof. split; constructor. Qed.

Lemma Forall_dedup (P : text → Prop) l : Forall P l → Forall P (dedup l).
Proof. rewrite !Forall_forall. intros H x Hx. by apply H, elem_of_dedup. Qed.

Lemma bytes_exact l : Forall (Forall is_byte) l → bytes_info (pfExact l).
Proof. intros H. split; [by apply Forall_dedup|constructor]. Qed.

Lemma bytes_asReq i : bytes_info i → bytes_info (asReq i).
Proof.
  unfold asReq. intros [Hs Hc]. destruct (exact i); [|done]. destruct (_ =? _)%nat; [apply bytes_none|].
  destruct (existsb _ _) eqn:E; [apply bytes_none|]. split; cbn; [constructor|]. apply Forall_singleton.
  rewrite !Forall_forall in *. intros l Hl. split; [|auto]. intros ->.
  assert (existsb (λ s : text, bool_decide (s = [])) (set i) = true) as ?; [|congruence].
  apply existsb_exists. exists []. split; [by apply list_elem_of_In|by apply bool_decide_eq_true].
Qed.

Lemma bytes_flush run cs : Forall (Forall is_byte) run → Forall (Forall indexable) cs → Forall (Forall indexable) (flush run cs).
Proof. intros Hr Hc. unfold flush. apply Forall_app_2; [done|]. apply (bytes_asReq (PfInfo true run [])). by split. Qed.

Lemma bytes_concat_loop parts : ∀ cs run allExt, Forall bytes_info parts → Forall (Forall indexable) cs → Forall (Forall is_byte) run →
  bytes_info (concat_loop parts cs run allExt).
Proof.
  induction parts as [|p parts IH]; intros cs run allExt Hp Hc Hr; cbn [concat_loop].
  - destruct allExt; [by apply bytes_exact|]. split; [constructor|]. cbn [clauses]. apply (bytes_flush run cs Hr) in Hc.
    rewrite Forall_forall in *. intros c H%bestClauses_sub. auto.
  - apply Forall_cons in Hp as [[Hs Hcl] Hp]. destruct (negb _); [|destruct (_ <? _)%nat]; (apply IH; [done|..]); auto using bytes_flush, Forall_app_2.
    apply Forall_dedup. rewrite Forall_forall in *. intros x (a & Ha & (b & <- & Hb)%in_map_iff)%list_elem_of_In%in_flat_map.
      apply Forall_app_2; [apply Hr|apply Hs]; by apply list_elem_of_In.
Qed.

Lemma bytes_concat parts : Forall bytes_info parts → bytes_info (concatInfos parts).
Proof. intros H. apply bytes_concat_loop; repeat constructor. done. Qed.

Lemma encode_rune_bytes r : Forall is_byte (encode_rune r).
Proof.
  unfold encode_rune. assert (Hv : valid_rune (if valid_rune r then r else RuneError) = true) by (by destruct (valid_rune r) eqn:E; [|done]).
  revert Hv. generalize (if valid_rune r then r else RuneError). intros c Hv. pose proof (valid_rune_range c Hv). destruct (Z.lt_ge_cases c 0x80).
  - rewrite encode_low by lia. apply Forall_singleton. unfold is_byte. lia.
  - eapply Forall_impl; [by apply encode_high|]. unfold is_byte. cbn. lia.
Qed.

Lemma bytes_foldedRunes runes l : foldedRunes runes = Some l → Forall (Forall is_byte) l.
Proof.
  intros (l' & Hl & ->)%fmap_Some. apply Forall_dedup. revert l' Hl. induction runes as [|r runes IH]; intros l'; cbn; [by intros [= <-]|].
  destruct (_ || _); [done|]. intros (l'' & Hl & [= <-])%bind_Some. constructor; [apply encode_rune_bytes|auto].
Qed.

Lemma bytes_union_loop infos : ∀ union, Forall bytes_info infos → Forall indexable union → bytes_info (union_loop infos union).
Proof.
  induction infos as [|i infos IH]; intros union Hi Hu; cbn [union_loop].
  - split; [constructor|]. apply Forall_singleton. by apply Forall_dedup.
  - apply Forall_cons in Hi as [[_ Hcl]%bytes_asReq Hi]. destruct (clauses (asReq i)) as [|c cs]; [apply bytes_none|].
    apply IH; [done|]. apply Forall_app_2; [done|]. rewrite Forall_forall in Hcl. apply Hcl. destruct (bestOf_elem c cs) as [->|]; set_solver.
Qed.

Lemma bytes_alternate infos : Forall bytes_info infos → bytes_info (alternateInfos infos).
Proof.
  intros H. unfold alternateInfos. destruct (_ && _); [|by apply bytes_union_loop]. apply bytes_exact.
  rewrite Forall_forall in H. apply Forall_forall. intros x (i & Hi & Hx)%list_elem_of_In%in_flat_map. destruct (H i) as [Hs _]; [by apply list_elem_of_In|].
  rewrite Forall_forall in Hs. by apply Hs, list_elem_of_In.
Qed.

Lemma bytes_analyze SimpleFold re : bytes_info (analyze SimpleFold re).
Proof.
  assert (He : bytes_info (pfExact [[]])) by (apply bytes_exact; repeat constructor).
  induction re as [re Hleaf|re IH|re IH|re IH|re IH|n k re IH|l IH|l IH] using regexp_tree_ind; try (by apply bytes_none); try done.
  - destruct re; try done; cbn [analyze]; try done.
    + apply bytes_concat, Forall_fmap, Forall_true. intros r. cbn. destruct (foldedRunes _) eqn:E; [|apply bytes_none].
      by apply bytes_exact, (bytes_foldedRunes _ _ E).
    + unfold analyzeClass. destruct (_ ≫= _) as [[|s l]|] eqn:E; [apply bytes_none| |apply bytes_none].
      apply bind_Some in E as (runes & _ & E). by apply bytes_exact, (bytes_foldedRunes _ _ E).
  - by apply bytes_asReq.
  - cbn [analyze]. destruct (_ && _); [|apply bytes_none]. apply bytes_exact. destruct IH as [Hs _]. apply Forall_app_2; [done|]. repeat constructor.
  - cbn [analyze]. destruct (_ <=? _)%nat; [by apply bytes_asReq|apply bytes_none].
  - apply bytes_concat. by apply Forall_fmap.
  - apply bytes_alternate. by apply Forall_fmap.
Qed.

Definition indexable_screen (sc : ruleScreen) : Prop := Forall (Forall indexable) (sc_clauses sc).

Lemma screenFor_indexable SimpleFold parsed : indexable_screen (screenFor SimpleFold parsed).
Proof. destruct parsed as [re|]; [|constructor]. apply (bytes_asReq (analyze SimpleFold re)), bytes_analyze. Qed.

Lemma keywordScreen_indexable kws : Forall indexable kws → indexable_screen (keywordScreen kws).
Proof. intros H. unfold indexable_screen. cbn. destruct (_ =? _)%nat; [constructor|]. apply Forall_singleton. by apply Forall_dedup. Qed.

Lemma withKeywords_indexable sc kws : indexable_screen sc → Forall indexable kws → indexable_screen (withKeywords sc kws).
Proof. intros Hs Hk. apply Forall_app_2; [done|by apply keywordScreen_indexable]. Qed.
