(* ===== verification/PrefilterScan.v ===== *)
(** * The literal index and its scanner (redact/prefilter.go)

    [addScreen] indexes the literals of every rule's screen by their first two
    bytes; [candidates] decides all screens in one pass over an input.  The
    theorems show that the pass computes exactly what the screens say
    ([admits]), whatever literals the rules share, and that indexing never
    panics on the screens [screenFor] derives.

    Bit sets are slices of 64-bit words as in the code.  A read or write
    outside a slice panics in Go; here it reads 0 and writes nothing, and the
    specification below holds only because every bit is inside. *)

From S2P Require Import Prelude Regexp Prefilter.

Local Open Scope Z_scope.

(** ** Bit sets *)

Definition has (set : list Z) (i : nat) : bool := Z.testbit (nth (i / 64) set 0) (Z.of_nat (i mod 64)).
Definition set_bit (set : list Z) (i : nat) : list Z := alter (λ w, Z.lor w (Z.shiftl 1 (Z.of_nat (i mod 64)))) (i / 64)%nat set.
Definition no_bits (n : nat) : list Z := replicate n 0.

(** ** The index *)

Record prefilter := Prefilter {
  clauseLo : list nat;
  clauseHi : list nat;
  pf_minLen : list Z;
  nclauses : nat;
  lits : list text;
  litIdx : gmap text nat;
  litClauses : list (list nat);
  one : list (list nat);
  two : gmap Z (list nat);
  twoBits : list Z
}.

Definition empty_prefilter : prefilter := Prefilter [] [] [] 0 [] ∅ [] (replicate 256 []) ∅ (no_bits 1024).

(** [uint16(b0)<<8 | uint16(b1)]. *)
Definition pair_key (b0 b1 : Z) : Z := Z.lor (Z.shiftl b0 8) b1.

(** [literal]; an empty literal has no first byte and panics. *)
Definition literal (p : prefilter) (l : text) : option (prefilter * nat) :=
  match litIdx p !! l with
  | Some id => Some (p, id)
  | None =>
      let id := length (lits p) in
      let add one two twoBits :=
        Some (Prefilter (clauseLo p) (clauseHi p) (pf_minLen p) (nclauses p) (lits p ++ [l]) (<[l := id]> (litIdx p))
                (litClauses p ++ [[]]) one two twoBits, id) in
      match l with
      | [] => None
      | [b0] => add (alter (λ ids, ids ++ [id]) (Z.to_nat b0) (one p)) (two p) (twoBits p)
      | b0 :: b1 :: _ =>
          let k := pair_key b0 b1 in
          add (one p) (<[k := default [] (two p !! k) ++ [id]]> (two p)) (set_bit (twoBits p) (Z.to_nat k))
      end
  end.

Definition with_litClauses (f : list (list nat) → list (list nat)) (p : prefilter) : prefilter :=
  Prefilter (clauseLo p) (clauseHi p) (pf_minLen p) (nclauses p) (lits p) (litIdx p) (f (litClauses p)) (one p) (two p) (twoBits p).

Definition add_literal (cid : nat) (op : option prefilter) (l : text) : option prefilter :=
  p ← op; '(p, id) ← literal p l; Some (with_litClauses (alter (λ cs, cs ++ [cid]) id) p).

Definition next_clause (p : prefilter) : prefilter :=
  Prefilter (clauseLo p) (clauseHi p) (pf_minLen p) (S (nclauses p)) (lits p) (litIdx p) (litClauses p) (one p) (two p) (twoBits p).

Definition add_clause (op : option prefilter) (clause : list text) : option prefilter :=
  p ← op; foldl (add_literal (nclauses p)) (Some (next_clause p)) clause.

Definition addScreen (p : prefilter) (sc : ruleScreen) : option prefilter :=
  let lo := nclauses p in
  p ← foldl add_clause (Some p) (sc_clauses sc);
  Some (Prefilter (clauseLo p ++ [lo]) (clauseHi p ++ [nclauses p]) (pf_minLen p ++ [sc_minLen sc])
          (nclauses p) (lits p) (litIdx p) (litClauses p) (one p) (two p) (twoBits p)).

(** ** The scanner *)

(** The bits of literals seen and of clauses satisfied. *)
Definition scan_state : Type := list Z * list Z.

Definition mark (p : prefilter) (id : nat) (st : scan_state) : scan_state :=
  (set_bit (fst st) id, foldl set_bit (snd st) (nth id (litClauses p) [])).

(** The literals of a bucket that were not seen before and pass the test. *)
Definition visit (p : prefilter) (test : nat → bool) (ids : list nat) (st : scan_state) : scan_state :=
  foldl (λ st id, if has (fst st) id then st else if test id then mark p id st else st) st ids.

(** [for ; j < len(l); j++ { if foldByte(s[i+j]) != l[j] { break } }]. *)
Fixpoint tail_eq (l s : text) : bool :=
  match l, s with
  | [], _ => true
  | x :: l, y :: s => if foldByte y =? x then tail_eq l s else false
  | _, [] => false
  end.

Definition long_matches (p : prefilter) (s : text) (id : nat) : bool :=
  let l := nth id (lits p) [] in
  if (length s <? length l)%nat then false else tail_eq (drop 2 l) (drop 2 s).

(** [for i := 0; i < n; i++] with [s] the bytes from [i] on. *)
Fixpoint scan (p : prefilter) (s : text) (st : scan_state) : scan_state :=
  match s with
  | [] => st
  | b :: rest =>
      let b0 := foldByte b in
      let st := visit p (λ _, true) (nth (Z.to_nat b0) (one p) []) st in
      match rest with
      | [] => st
      | b1 :: _ =>
          let k := pair_key b0 (foldByte b1) in
          scan p rest (if has (twoBits p) (Z.to_nat k) then visit p (long_matches p s) (default [] (two p !! k)) st else st)
      end
  end.

(** The rules whose length and clauses hold, into a bit set of [n] words. *)
Definition candidates (p : prefilter) (s : text) (n : nat) : list Z :=
  let words k least := if (least <? (k + 63) / 64)%nat then ((k + 63) / 64)%nat else least in
  let st := scan p s (no_bits (words (length (lits p)) 16%nat), no_bits (words (nclauses p) 32%nat)) in
  foldl (λ dst ri,
           if Z.of_nat (length s) <? nth ri (pf_minLen p) 0 then dst
           else if forallb (has (snd st)) (seq (nth ri (clauseLo p) O) (nth ri (clauseHi p) O - nth ri (clauseLo p) O)) then set_bit dst ri else dst)
    (no_bits n) (seq 0 (length (pf_minLen p))).

(** ** Lemmas on bit sets *)

Lemma has_no_bits n i : has (no_bits n) i = false.
Proof.
  unfold has, no_bits. assert (H : ∀ n k, nth k (replicate n 0) 0 = 0) by (induction n0; intros [|k]; cbn; auto).
  by rewrite H, Z.bits_0.
Qed.

Lemma set_bit_length ws i : length (set_bit ws i) = length ws.
Proof. apply length_alter. Qed.

Lemma nth_alter_eq {A} (f : A → A) i l d : (i < length l)%nat → nth i (alter f i l) d = f (nth i l d).
Proof. revert i. induction l as [|x l IH]; intros [|i] H; cbn in *; [lia..|done|]. apply IH. lia. Qed.

Lemma nth_alter_ne {A} (f : A → A) i j l d : i ≠ j → nth j (alter f i l) d = nth j l d.
Proof. revert i j. induction l as [|x l IH]; intros [|i] [|j] H; cbn; try done. apply IH. lia. Qed.

Lemma has_set_bit ws i j : (i / 64 < length ws)%nat → has (set_bit ws i) j = bool_decide (i = j) || has ws j.
Proof.
  intros Hi. unfold has, set_bit. destruct (decide (i / 64 = j / 64)%nat) as [E|E].
  - rewrite <-E, nth_alter_eq, Z.lor_spec by done. rewrite orb_comm. f_equal. rewrite Z.shiftl_spec by lia.
    case_bool_decide as Hij; [subst; by rewrite Z.sub_diag|]. replace 1 with (2 ^ 0) by done. rewrite Z.pow2_bits_false; [done|].
    intros E'. apply Hij. rewrite (Nat.div_mod_eq i 64), (Nat.div_mod_eq j 64). lia.
  - rewrite nth_alter_ne by done. rewrite bool_decide_eq_false_2; [done|]. by intros ->.
Qed.

Lemma set_bits_length ids : ∀ ws, length (foldl set_bit ws ids) = length ws.
Proof. induction ids as [|i ids IH]; intros ws; cbn [foldl]; [done|]. by rewrite IH, set_bit_length. Qed.

Lemma has_set_bits ids j : ∀ ws, (∀ i, i ∈ ids → (i / 64 < length ws)%nat) → has (foldl set_bit ws ids) j = bool_decide (j ∈ ids) || has ws j.
Proof.
  induction ids as [|i ids IH]; intros ws H; cbn [foldl]; [done|]. rewrite IH by (intros k Hk; rewrite set_bit_length; set_solver).
  rewrite has_set_bit by set_solver. rewrite orb_assoc. f_equal. apply eq_true_iff_eq.
  rewrite orb_true_iff, !bool_decide_eq_true. set_solver.
Qed.

(** Enough words for [n] bits. *)
Lemma words_enough n i : (i < n → i / 64 < (n + 63) / 64)%nat.
Proof. intros H. apply Nat.Div0.div_lt_upper_bound. pose proof (Nat.div_mod_eq (n + 63) 64). pose proof (Nat.mod_upper_bound (n + 63) 64). lia. Qed.

(** ** The index holds the literals of the clauses *)

Lemma pair_key_add b0 b1 : is_byte b0 → is_byte b1 → pair_key b0 b1 = b0 * 256 + b1.
Proof.
  intros H0 H1. unfold pair_key. assert (E : Z.land (Z.shiftl b0 8) b1 = 0).
  { apply Z.bits_inj'. intros n Hn. rewrite Z.land_spec, Z.bits_0. destruct (Z.lt_ge_cases n 8).
    - by rewrite Z.shiftl_spec_low by done.
    - rewrite (Z.bits_above_log2 b1), andb_false_r; [done|unfold is_byte in *; lia|].
      destruct (decide (b1 = 0)) as [->|]; [cbn; lia|]. apply Z.lt_le_trans with 8; [|done]. apply Z.log2_lt_pow2; unfold is_byte in *; lia. }
  pose proof (Z.add_lor_land (Z.shiftl b0 8) b1) as Ha. rewrite E in Ha. rewrite Z.add_0_r in Ha. rewrite Ha, Z.shiftl_mul_pow2 by done. lia.
Qed.

Lemma pair_key_inj b0 b1 c0 c1 : is_byte b0 → is_byte b1 → is_byte c0 → is_byte c1 → pair_key b0 b1 = pair_key c0 c1 → b0 = c0 ∧ b1 = c1.
Proof. intros ? ? ? ?. rewrite !pair_key_add by done. unfold is_byte in *. lia. Qed.

Lemma pair_key_range b0 b1 : is_byte b0 → is_byte b1 → 0 ≤ pair_key b0 b1 < 65536.
Proof. intros ? ?. rewrite pair_key_add by done. unfold is_byte in *. lia. Qed.

(** [p] indexes the clauses [C]. *)
Record indexed (p : prefilter) (C : list (list text)) : Prop := {
  ix_idx : ∀ l id, litIdx p !! l = Some id ↔ lits p !! id = Some l;
  ix_len : length (litClauses p) = length (lits p);
  ix_cl : ∀ id l c, lits p !! id = Some l → c ∈ nth id (litClauses p) [] ↔ ∃ cl, C !! c = Some cl ∧ l ∈ cl;
  ix_all : ∀ c cl l, C !! c = Some cl → l ∈ cl → ∃ id, lits p !! id = Some l;
  ix_ok : Forall indexable (lits p);
  ix_one_len : length (one p) = 256%nat;
  ix_two_len : length (twoBits p) = 1024%nat;
  ix_one : ∀ b id, is_byte b → id ∈ nth (Z.to_nat b) (one p) [] ↔ lits p !! id = Some [b];
  ix_two : ∀ k id, id ∈ default [] (two p !! k) ↔ ∃ b0 b1 l, lits p !! id = Some (b0 :: b1 :: l) ∧ pair_key b0 b1 = k;
  ix_bits : ∀ k ids, 0 ≤ k < 65536 → two p !! k = Some ids → has (twoBits p) (Z.to_nat k) = true
}.

(** What indexing a literal leaves alone. *)
Definition rules_part (p : prefilter) : list nat * list nat * list Z * nat := (clauseLo p, clauseHi p, pf_minLen p, nclauses p).

Lemma lookup_snoc {A} (l : list A) x i y : (l ++ [x]) !! i = Some y ↔ l !! i = Some y ∨ i = length l ∧ y = x.
Proof.
  split.
  - intros [H|[H1 H2]]%lookup_app_Some; [by left|]. right. apply list_lookup_singleton_Some in H2 as [H2 ->]. split; [lia|done].
  - intros [H|[-> ->]]; [by apply lookup_app_l_Some|]. by apply list_lookup_middle.
Qed.

Lemma nth_snoc_in {A} (l : list (list A)) i x : x ∈ nth i (l ++ [[]]) [] ↔ x ∈ nth i l [].
Proof.
  destruct (Nat.lt_ge_cases i (length l)); [by rewrite app_nth1|]. rewrite app_nth2 by done. rewrite (nth_overflow l) by done.
  by destruct (i - length l)%nat as [|[|]].
Qed.

Section NewLiteral.
Context (p : prefilter) (C : list (list text)) (Hp : indexed p C) (l : text) (Hl : indexable l) (Hnew : litIdx p !! l = None).

Lemma new_id : ∀ id, lits p !! id = Some l → False.
Proof. intros id H. apply (ix_idx _ _ Hp) in H. congruence. Qed.

(** The parts of the invariant that do not depend on the bucket. *)
Lemma new_literal_indexed one' two' twoBits' :
  length one' = 256%nat → length twoBits' = 1024%nat →
  (∀ b id, is_byte b → id ∈ nth (Z.to_nat b) one' [] ↔ id ∈ nth (Z.to_nat b) (one p) [] ∨ id = length (lits p) ∧ l = [b]) →
  (∀ k id, id ∈ default [] (two' !! k) ↔ id ∈ default [] (two p !! k) ∨ id = length (lits p) ∧ ∃ b0 b1 l', l = b0 :: b1 :: l' ∧ pair_key b0 b1 = k) →
  (∀ k ids, 0 ≤ k < 65536 → two' !! k = Some ids → has twoBits' (Z.to_nat k) = true) →
  indexed (Prefilter (clauseLo p) (clauseHi p) (pf_minLen p) (nclauses p) (lits p ++ [l]) (<[l := length (lits p)]> (litIdx p))
             (litClauses p ++ [[]]) one' two' twoBits') C.
Proof.
  intros Hol Htl Ho Ht Hb. split; cbn -[has]; try done.
  - intros l' id. rewrite lookup_insert_Some, lookup_snoc, (ix_idx _ _ Hp). split; [naive_solver|].
    intros [H|[-> ->]]; [|by left]. right. split; [|done]. intros <-. by eapply new_id.
  - rewrite !length_app. cbn. by rewrite (ix_len _ _ Hp).
  - intros id l' c. rewrite lookup_snoc, nth_snoc_in. intros [H|[-> ->]]; [by apply (ix_cl _ _ Hp)|].
    rewrite nth_overflow by (by rewrite (ix_len _ _ Hp)). split; [set_solver|].
    intros (cl & Hc & Hin). destruct (ix_all _ _ Hp _ _ _ Hc Hin) as [id H]. by apply new_id in H.
  - intros c cl l' Hc Hin. destruct (ix_all _ _ Hp _ _ _ Hc Hin) as [id H]. exists id. rewrite lookup_snoc. by left.
  - apply Forall_app_2; [apply (ix_ok _ _ Hp)|by apply Forall_singleton].
  - intros b id Hby. rewrite Ho, lookup_snoc, (ix_one _ _ Hp) by done. naive_solver.
  - intros k id. rewrite Ht, (ix_two _ _ Hp). setoid_rewrite lookup_snoc. naive_solver.
Qed.

End NewLiteral.

Lemma default_insert_elem (m : gmap Z (list nat)) k k' id j :
  j ∈ default [] (<[k := default [] (m !! k) ++ [id]]> m !! k') ↔ j ∈ default [] (m !! k') ∨ j = id ∧ k = k'.
Proof.
  destruct (decide (k = k')) as [->|]; [rewrite lookup_insert_eq|rewrite lookup_insert_ne by done]; cbn; [|naive_solver].
  rewrite elem_of_app, list_elem_of_singleton. naive_solver.
Qed.

(** Indexing a literal succeeds, gives its id and keeps the clauses. *)
Lemma literal_indexed p C l : indexed p C → indexable l →
  ∃ p' id, literal p l = Some (p', id) ∧ indexed p' C ∧ lits p' !! id = Some l ∧ rules_part p' = rules_part p.
Proof.
  intros Hp Hl. unfold literal. destruct (litIdx p !! l) as [id|] eqn:E.
  { eexists _, _. split; [done|]. split; [done|]. split; [by apply (ix_idx _ _ Hp)|done]. }
  destruct Hl as [Hne Hb]. destruct l as [|b0 [|b1 l]]; [done|..]; (eexists _, _; split; [done|]; split; [|split; [cbn; apply lookup_snoc; by right|done]]);
    apply Forall_cons in Hb as [Hb0 Hb]; unfold is_byte in Hb0.
  - apply new_literal_indexed; try done; rewrite ?length_alter; try apply (ix_one_len _ _ Hp); try apply (ix_two_len _ _ Hp).
    + split; [done|]. by apply Forall_singleton.
    + intros b id Hby. unfold is_byte in Hby. destruct (decide (Z.to_nat b0 = Z.to_nat b)) as [Eb|Eb].
      * assert (b0 = b) as -> by lia. rewrite nth_alter_eq by (rewrite (ix_one_len _ _ Hp); lia). rewrite elem_of_app, list_elem_of_singleton. naive_solver.
      * rewrite nth_alter_ne by done. split; [naive_solver|]. intros [?|[_ [= ->]]]; [done|lia].
    + intros k id. split; [naive_solver|]. by intros [?|(_ & ? & ? & ? & ? & _)].
    + apply (ix_bits _ _ Hp).
  - apply Forall_cons in Hb as [Hb1 Hb]. pose proof (pair_key_range b0 b1 Hb0 Hb1) as Hk.
    assert (Hin : (Z.to_nat (pair_key b0 b1) / 64 < length (twoBits p))%nat).
    { rewrite (ix_two_len _ _ Hp). apply Nat.Div0.div_lt_upper_bound. lia. }
    apply new_literal_indexed; try done; rewrite ?set_bit_length; try apply (ix_one_len _ _ Hp); try apply (ix_two_len _ _ Hp).
    + split; [done|]. repeat (apply Forall_cons_2; [done|]). done.
    + intros b id _. split; [naive_solver|]. by intros [?|[_ ?]].
    + intros k id. rewrite default_insert_elem. naive_solver.
    + intros k ids Hkr Hi. rewrite has_set_bit by done. apply lookup_insert_Some in Hi as [[<- _]|[Hne' Hi]].
      * by rewrite bool_decide_eq_true_2.
      * rewrite (ix_bits _ _ Hp k ids) by done. by rewrite orb_true_r.
Qed.

Lemma add_literal_indexed p C done l : indexed p (C ++ [done]) → indexable l →
  ∃ p', add_literal (length C) (Some p) l = Some p' ∧ indexed p' (C ++ [done ++ [l]]) ∧ rules_part p' = rules_part p.
Proof.
  intros Hp Hl. destruct (literal_indexed p _ l Hp Hl) as (q & id & E & Hq & Hid & Hr). unfold add_literal. cbn [mbind option_bind]. rewrite E.
  cbn [mbind option_bind]. eexists. split; [reflexivity|]. split; [|done]. clear p Hp E Hr.
  assert (Hlt : (id < length (litClauses q))%nat) by (rewrite (ix_len _ _ Hq); by eapply lookup_lt_Some).
  assert (Hset : ∀ c l', (∃ cl, (C ++ [done ++ [l]]) !! c = Some cl ∧ l' ∈ cl) ↔ (∃ cl, (C ++ [done]) !! c = Some cl ∧ l' ∈ cl) ∨ c = length C ∧ l' = l).
  { intros c l'. setoid_rewrite lookup_snoc. split.
    - intros (cl & [H|[-> ->]] & Hin); [naive_solver|]. apply elem_of_app in Hin as [Hin|Hin%list_elem_of_singleton]; naive_solver.
    - intros [(cl & [H|[-> ->]] & Hin)|[-> ->]]; [naive_solver|exists (done ++ [l]); set_solver|exists (done ++ [l]); set_solver]. }
  split; cbn -[has]; try apply Hq.
  - rewrite length_alter. apply Hq.
  - intros id' l' c Hl'. rewrite Hset. destruct (decide (id = id')) as [<-|Hne].
    + rewrite nth_alter_eq, elem_of_app, list_elem_of_singleton, (ix_cl _ _ Hq id l' c) by done. simplify_eq. naive_solver.
    + rewrite nth_alter_ne, (ix_cl _ _ Hq id' l' c) by done. split; [by left|]. intros [H|[-> ->]]; [done|].
      apply (ix_idx _ _ Hq) in Hid, Hl'. congruence.
  - intros c cl l' Hc Hin. destruct (Hset c l') as [H _]. destruct H as [(cl' & Hc' & Hin')|[-> ->]]; eauto. by eapply (ix_all _ _ Hq).
Qed.

Lemma indexed_open p C : indexed p C → indexed p (C ++ [[]]).
Proof.
  intros Hp. assert (Hset : ∀ c l, (∃ cl, (C ++ [[]]) !! c = Some cl ∧ l ∈ cl) ↔ ∃ cl, C !! c = Some cl ∧ l ∈ cl).
  { intros c l. setoid_rewrite lookup_snoc. split; [|naive_solver]. intros (cl & [H|[_ ->]] & Hin); [eauto|by apply not_elem_of_nil in Hin]. }
  split; try apply Hp.
  - intros id l c H. rewrite Hset. by apply (ix_cl _ _ Hp).
  - intros c cl l Hc Hin. destruct (Hset c l) as [(cl' & Hc' & Hin') _]; eauto. by eapply (ix_all _ _ Hp).
Qed.

Lemma add_literals_indexed C ls : ∀ p done, indexed p (C ++ [done]) → Forall indexable ls →
  ∃ p', foldl (add_literal (length C)) (Some p) ls = Some p' ∧ indexed p' (C ++ [done ++ ls]) ∧ rules_part p' = rules_part p.
Proof.
  induction ls as [|l ls IH]; intros p dn Hp Hl; cbn [foldl]; [exists p; by rewrite app_nil_r|]. apply Forall_cons in Hl as [Hl Hls].
  destruct (add_literal_indexed p C dn l Hp Hl) as (q & -> & Hq & Hr). destruct (IH q _ Hq Hls) as (p' & -> & Hp' & Hr').
  exists p'. rewrite <-app_assoc in Hp'. by rewrite Hr'.
Qed.

Lemma add_clause_indexed p C clause : indexed p C → nclauses p = length C → Forall indexable clause →
  ∃ p', add_clause (Some p) clause = Some p' ∧ indexed p' (C ++ [clause]) ∧ rules_part p' = (clauseLo p, clauseHi p, pf_minLen p, S (nclauses p)).
Proof.
  intros Hp Hn Hc. unfold add_clause. cbn [mbind option_bind].
  replace (add_literal (nclauses p)) with (add_literal (length C)) by (by rewrite Hn).
  apply (add_literals_indexed C clause (next_clause p) []); [|done]. apply indexed_open in Hp. destruct Hp. by split.
Qed.

Lemma add_clauses_indexed cs : ∀ p C, indexed p C → nclauses p = length C → Forall (Forall indexable) cs →
  ∃ p', foldl add_clause (Some p) cs = Some p' ∧ indexed p' (C ++ cs) ∧ rules_part p' = (clauseLo p, clauseHi p, pf_minLen p, nclauses p + length cs)%nat.
Proof.
  induction cs as [|c cs IH]; intros p C Hp Hn Hc; cbn [foldl].
  - exists p. rewrite app_nil_r. split; [done|]. split; [done|]. unfold rules_part. cbn. by rewrite Nat.add_0_r.
  - apply Forall_cons in Hc as [Hc Hcs]. destruct (add_clause_indexed p C c Hp Hn Hc) as (q & -> & Hq & Hr). unfold rules_part in Hr. injection Hr as E1 E2 E3 E4.
    destruct (IH q (C ++ [c])) as (p' & -> & Hp' & Hr'); [done|rewrite length_app; cbn; lia|done|]. exists p'. rewrite <-app_assoc in Hp'.
    split; [done|]. split; [done|]. rewrite Hr', E1, E2, E3, E4. cbn. by rewrite Nat.add_succ_r.
Qed.

(** [p] holds the screens of the rules, in order. *)
Definition all_clauses (scs : list ruleScreen) : list (list text) := flat_map sc_clauses scs.

Record holds (p : prefilter) (scs : list ruleScreen) : Prop := {
  h_indexed : indexed p (all_clauses scs);
  h_nclauses : nclauses p = length (all_clauses scs);
  h_minLen : pf_minLen p = map sc_minLen scs;
  h_lens : length (clauseLo p) = length scs ∧ length (clauseHi p) = length scs;
  h_slice : ∀ i sc, scs !! i = Some sc →
    nth i (clauseHi p) O = (nth i (clauseLo p) O + length (sc_clauses sc))%nat ∧
    ∀ j c, sc_clauses sc !! j = Some c → all_clauses scs !! (nth i (clauseLo p) O + j)%nat = Some c
}.

Lemma empty_holds : holds empty_prefilter [].
Proof.
  split; try done. split; try done.
  - intros b id _. split; [|done]. cbn -[replicate]. assert (H : ∀ n k, nth k (replicate n (@nil nat)) [] = []) by (induction n; intros [|k]; cbn; auto).
    rewrite H. set_solver.
  - intros k id. split; [set_solver|]. naive_solver.
Qed.

Lemma addScreen_holds p scs sc : holds p scs → indexable_screen sc → ∃ p', addScreen p sc = Some p' ∧ holds p' (scs ++ [sc]).
Proof.
  intros [Hi Hn Hm [Hlo Hhi] Hs] Hsc. destruct (add_clauses_indexed (sc_clauses sc) p _ Hi Hn Hsc) as (q & E & Hq & Hr).
  unfold rules_part in Hr. injection Hr as E1 E2 E3 E4. unfold addScreen. rewrite E. cbn [mbind option_bind]. eexists. split; [reflexivity|].
  assert (Ea : all_clauses (scs ++ [sc]) = all_clauses scs ++ sc_clauses sc) by (unfold all_clauses; rewrite flat_map_app; cbn; by rewrite app_nil_r).
  split; cbn; rewrite ?Ea, ?E1, ?E2, ?E3, ?E4.
  - destruct Hq. by split.
  - rewrite length_app. lia.
  - by rewrite Hm, map_app.
  - rewrite !length_app. cbn. lia.
  - intros i sc' [H|[-> ->]]%lookup_snoc.
    + pose proof (lookup_lt_Some _ _ _ H). rewrite !app_nth1 by lia. destruct (Hs i sc' H) as [Hh Hj]. split; [done|].
      intros j c Hc. apply lookup_app_l_Some. auto.
    + rewrite !app_nth2 by lia. rewrite Hlo, Hhi, Nat.sub_diag. cbn. split; [done|]. intros j c Hc. rewrite Hn.
      rewrite lookup_app_r by lia. by replace (length (all_clauses scs) + j - length (all_clauses scs))%nat with j by lia.
Qed.

(** ** The scanner finds exactly the literals that occur *)

Section Scan.
Context (p : prefilter) (C : list (list text)) (Hp : indexed p C).

(** The bits after the literals of [F] were found. *)
Record scanned (F : text → Prop) (st : scan_state) : Prop := {
  s_hit_len : ∀ id, (id < length (lits p))%nat → (id / 64 < length (fst st))%nat;
  s_sat_len : ∀ c, (c < length C)%nat → (c / 64 < length (snd st))%nat;
  s_hit : ∀ id l, lits p !! id = Some l → has (fst st) id = true ↔ F l;
  s_sat : ∀ c cl, C !! c = Some cl → has (snd st) c = true ↔ ∃ l, l ∈ cl ∧ F l
}.

Lemma scanned_iff F G st : (∀ id l, lits p !! id = Some l → F l ↔ G l) → scanned F st → scanned G st.
Proof.
  intros E [H1 H2 H3 H4]. split; [done..| |].
  - intros id l Hl. rewrite (H3 id l Hl). by eapply E.
  - intros c cl Hc. rewrite (H4 c cl Hc). split; intros (l & Hl & Hf); exists l; (split; [done|]);
      destruct (ix_all _ _ Hp _ _ _ Hc Hl) as [id Hid]; by apply (E id l Hid).
Qed.

Lemma lits_inj i j l : lits p !! i = Some l → lits p !! j = Some l → i = j.
Proof. intros Hi Hj. apply (ix_idx _ _ Hp) in Hi, Hj. congruence. Qed.

Lemma mark_scanned F st id l0 : scanned F st → lits p !! id = Some l0 → scanned (λ l, l = l0 ∨ F l) (mark p id st).
Proof.
  intros [H1 H2 H3 H4] Hid. pose proof (lookup_lt_Some _ _ _ Hid) as Hlt.
  assert (Hcl : ∀ c, c ∈ nth id (litClauses p) [] → (c / 64 < length (snd st))%nat).
  { intros c Hc. apply H2. apply (ix_cl _ _ Hp id l0 c Hid) in Hc as (cl & Hc & _). by eapply lookup_lt_Some. }
  split; unfold mark; cbn [fst snd].
  - intros i Hi. rewrite set_bit_length. auto.
  - intros c Hc. rewrite set_bits_length. auto.
  - intros i l Hl. rewrite has_set_bit, orb_true_iff, bool_decide_eq_true, (H3 i l Hl) by auto.
    assert (id = i ↔ l = l0); [|tauto]. split; [intros ->; congruence|intros ->; by eapply lits_inj].
  - intros c cl Hc. rewrite has_set_bits, orb_true_iff, bool_decide_eq_true, (H4 c cl Hc), (ix_cl _ _ Hp id l0 c Hid) by done.
    split; [|naive_solver]. intros [(cl' & Hc' & Hin)|(l & Hl & Hf)]; [simplify_eq|]; eauto.
Qed.

Lemma visit_scanned test ids : ∀ F st, scanned F st → (∀ id, id ∈ ids → ∃ l, lits p !! id = Some l) →
  scanned (λ l, F l ∨ ∃ id, id ∈ ids ∧ lits p !! id = Some l ∧ test id = true) (visit p test ids st).
Proof.
  induction ids as [|id ids IH]; intros F st HF Hids; cbn [visit foldl].
  - eapply scanned_iff; [|exact HF]. set_solver.
  - destruct (Hids id ltac:(set_solver)) as [l0 Hl0]. specialize (IH (λ l, F l ∨ l = l0 ∧ test id = true)).
    eapply scanned_iff; [|apply IH; [|set_solver]].
    + intros i l Hl. cbn. setoid_rewrite elem_of_cons. split; [|naive_solver].
      intros [[?|[-> ?]]|(j & ? & ? & ?)]; [by left|right; eauto|right; eauto].
    + destruct (has (fst st) id) eqn:E; [|destruct (test id)].
      * eapply scanned_iff; [|exact HF]. intros i l _. cbn. split; [auto|]. intros [?|[-> _]]; [done|]. by apply (s_hit _ _ HF id l0 Hl0).
      * eapply scanned_iff; [|by eapply mark_scanned]. intros i l _. cbn. naive_solver.
      * eapply scanned_iff; [|exact HF]. intros i l _. cbn. naive_solver.
Qed.

Lemma tail_eq_spec l s : tail_eq l s = prefixb l (fold_text s).
Proof.
  revert s. induction l as [|x l IH]; intros [|y s]; cbn; try done. rewrite IH, (Z.eqb_sym x). by destruct (foldByte y =? x).
Qed.

Lemma prefixb_length l t : prefixb l t = true → (length l ≤ length t)%nat.
Proof. intros (b & ->)%prefixb_spec. rewrite length_app. lia. Qed.

(** A bucketed literal of two bytes or more whose rest agrees is a prefix. *)
Lemma long_matches_spec id b0 b1 c0 c1 l s :
  lits p !! id = Some (c0 :: c1 :: l) → foldByte b0 = c0 → foldByte b1 = c1 →
  long_matches p (b0 :: b1 :: s) id = prefixb (c0 :: c1 :: l) (fold_text (b0 :: b1 :: s)).
Proof.
  intros Hl <- <-. unfold long_matches. rewrite (nth_lookup_Some _ _ _ _ Hl), tail_eq_spec. cbn [drop fold_text map prefixb]. rewrite !Z.eqb_refl. cbn [andb].
  destruct (Nat.ltb_spec (length (b0 :: b1 :: s)) (length (foldByte b0 :: foldByte b1 :: l))) as [H|]; [|done].
  symmetry. apply not_true_is_false. intros Hx%prefixb_length. unfold fold_text in Hx. rewrite length_map in Hx. cbn in H. lia.
Qed.

Lemma foldByte_byte b : is_byte b → is_byte (foldByte b).
Proof. unfold is_byte, foldByte. destruct (within 65 b 90) eqn:E; [|done]. apply within_spec in E. lia. Qed.

(** One position: the literals that are a prefix of the folded rest. *)
Lemma one_bucket b s id l : is_byte b → lits p !! id = Some l →
  (∃ i, i ∈ nth (Z.to_nat (foldByte b)) (one p) [] ∧ lits p !! i = Some l ∧ true = true) ↔ length l = 1%nat ∧ prefixb l (fold_text (b :: s)) = true.
Proof.
  intros Hb Hl. setoid_rewrite (ix_one _ _ Hp (foldByte b)); [|by apply foldByte_byte]. split.
  - intros (i & Hi & Hl' & _). assert (l = [foldByte b]) as -> by congruence. split; [done|]. cbn. by rewrite Z.eqb_refl.
  - intros [Hlen Hpre]. destruct l as [|x [|y l]]; try done. cbn in Hpre. rewrite andb_true_r in Hpre. apply Z.eqb_eq in Hpre as ->. eauto.
Qed.

Lemma two_bucket b0 b1 s id l : is_byte b0 → is_byte b1 → lits p !! id = Some l →
  (∃ i, i ∈ default [] (two p !! pair_key (foldByte b0) (foldByte b1)) ∧ lits p !! i = Some l ∧ long_matches p (b0 :: b1 :: s) i = true)
  ↔ (2 ≤ length l)%nat ∧ prefixb l (fold_text (b0 :: b1 :: s)) = true.
Proof.
  intros H0 H1 Hl. apply foldByte_byte in H0 as H0', H1 as H1'. setoid_rewrite (ix_two _ _ Hp). split.
  - intros (i & (c0 & c1 & l' & Hi & Hk) & Hl' & Hm). assert (l = c0 :: c1 :: l') as -> by congruence. split; [cbn; lia|].
    pose proof (ix_ok _ _ Hp) as Hok. rewrite Forall_forall in Hok. destruct (Hok _ (list_elem_of_lookup_2 _ _ _ Hi)) as [_ Hb].
    apply Forall_cons in Hb as [Hc0 [Hc1 _]%Forall_cons]. apply pair_key_inj in Hk as [-> ->]; try done.
    by erewrite <-long_matches_spec.
  - intros [Hlen Hpre]. destruct l as [|c0 [|c1 l]]; cbn in Hlen; [lia..|]. exists id.
    pose proof Hpre as Hpre'. cbn in Hpre'. apply andb_true_iff in Hpre' as [->%Z.eqb_eq [->%Z.eqb_eq _]%andb_true_iff].
    split; [by eauto 6|]. split; [done|]. by erewrite long_matches_spec.
Qed.

Lemma scan_scanned s : ∀ F st, Forall is_byte s → scanned F st → scanned (λ l, F l ∨ occurs l (fold_text s)) (scan p s st).
Proof.
  assert (Hlen : ∀ id l, lits p !! id = Some l → l ≠ []).
  { intros id l Hl. pose proof (ix_ok _ _ Hp) as Hok. rewrite Forall_forall in Hok. by apply (Hok _ (list_elem_of_lookup_2 _ _ _ Hl)). }
  induction s as [|b rest IH]; intros F st Hs HF.
  { cbn. eapply scanned_iff; [|exact HF]. intros id l Hl. split; [auto|]. intros [?|(a & c & E)]; [done|]. symmetry in E.
    apply app_eq_nil in E as [_ [E _]%app_eq_nil]. by apply Hlen in Hl. }
  apply Forall_cons in Hs as [Hb Hrest]. cbn [scan].
  pose proof (visit_scanned (λ _, true) (nth (Z.to_nat (foldByte b)) (one p) []) F st HF) as H1.
  specialize (H1 ltac:(intros id Hid%(ix_one _ _ Hp); [eauto|by apply foldByte_byte])).
  destruct rest as [|b1 rest'].
  - eapply scanned_iff; [|exact H1]. intros id l Hl. cbn beta. rewrite (one_bucket b [] id l Hb Hl), <-occursb_spec. cbn [fold_text map occursb].
    specialize (Hlen id l Hl). destruct l as [|x [|y l]]; [done| |]; cbn; destruct (x =? foldByte b); cbn; intuition congruence.
  - apply Forall_cons in Hrest as Hr. destruct Hr as [Hb1 _].
    assert (H2 : scanned (λ l, (F l ∨ ∃ i, i ∈ nth (Z.to_nat (foldByte b)) (one p) [] ∧ lits p !! i = Some l ∧ true = true) ∨
                               ∃ i, i ∈ default [] (two p !! pair_key (foldByte b) (foldByte b1)) ∧ lits p !! i = Some l ∧ long_matches p (b :: b1 :: rest') i = true)
                   (let k := pair_key (foldByte b) (foldByte b1) in
                    let st := visit p (λ _, true) (nth (Z.to_nat (foldByte b)) (one p) []) st in
                    if has (twoBits p) (Z.to_nat k) then visit p (long_matches p (b :: b1 :: rest')) (default [] (two p !! k)) st else st)).
    { cbn zeta. destruct (has (twoBits p) _) eqn:E.
      - apply visit_scanned; [done|]. intros id (c0 & c1 & l & Hid & _)%(ix_two _ _ Hp). eauto.
      - eapply scanned_iff; [|exact H1]. intros id l _. split; [auto|]. intros [?|(i & Hi & _)]; [done|].
        destruct (two p !! _) as [ids|] eqn:Et; [|set_solver]. pose proof (pair_key_range _ _ (foldByte_byte b Hb) (foldByte_byte b1 Hb1)).
        by rewrite (ix_bits _ _ Hp _ ids) in E. }
    eapply scanned_iff; [|apply (IH _ _ Hrest H2)]. intros id l Hl. cbn beta.
    rewrite (one_bucket b (b1 :: rest') id l Hb Hl), (two_bucket b b1 rest' id l Hb Hb1 Hl), <-!occursb_spec.
    change (fold_text (b :: b1 :: rest')) with (foldByte b :: fold_text (b1 :: rest')). cbn [occursb].
    rewrite !orb_true_iff. specialize (Hlen id l Hl). assert (length l = 1%nat ∨ (2 ≤ length l)%nat) by (destruct l as [|? [|? ?]]; cbn; [done|lia..]).
    tauto.
Qed.

End Scan.

Lemma has_filtered (f : nat → bool) l i : ∀ ws, (∀ j, j ∈ l → (j / 64 < length ws)%nat) →
  has (foldl (λ ws j, if f j then set_bit ws j else ws) ws l) i = bool_decide (i ∈ l) && f i || has ws i.
Proof.
  induction l as [|j l IH]; intros ws H; cbn [foldl]; [done|]. rewrite IH.
  - destruct (decide (i = j)) as [->|Hne].
    + rewrite (bool_decide_eq_true_2 (j ∈ j :: l)) by set_solver. destruct (f j); rewrite ?andb_false_r; cbn [orb andb]; [|done].
      rewrite has_set_bit, (bool_decide_eq_true_2 (j = j)) by set_solver. cbn [orb]. by rewrite orb_true_r.
    + rewrite (bool_decide_ext (i ∈ j :: l) (i ∈ l)) by set_solver. f_equal. destruct (f j); [|done].
      by rewrite has_set_bit, bool_decide_eq_false_2 by set_solver.
  - intros k Hk. destruct (f j); [rewrite set_bit_length|]; set_solver.
Qed.

Lemma words_bound k least i : (i < k → i / 64 < length (no_bits (if least <? (k + 63) / 64 then (k + 63) / 64 else least)))%nat.
Proof.
  intros Hi%words_enough. unfold no_bits. rewrite length_replicate. destruct (Nat.ltb_spec least ((k + 63) / 64)); lia.
Qed.

(** The clauses of rule [i] in the satisfied bits. *)
Lemma slice_sat p scs i sc (f : nat → bool) (F : list text → bool) :
  holds p scs → scs !! i = Some sc → (∀ c cl, all_clauses scs !! c = Some cl → f c = F cl) →
  forallb f (seq (nth i (clauseLo p) O) (nth i (clauseHi p) O - nth i (clauseLo p) O)) = forallb F (sc_clauses sc).
Proof.
  intros Hp Hi Hf. destruct (h_slice _ _ Hp i sc Hi) as [-> Hs]. replace (_ + _ - _)%nat with (length (sc_clauses sc)) by lia.
  generalize dependent (nth i (clauseLo p) O). induction (sc_clauses sc) as [|c cs IH]; intros lo Hs; [done|]. cbn [length seq forallb].
  rewrite (Hf lo c) by (rewrite <-(Nat.add_0_r lo); by apply Hs). f_equal. apply IH. intros j d Hd.
  rewrite Nat.add_succ_l, <-Nat.add_succ_r. by apply Hs.
Qed.

(** The one pass decides every screen. *)
Lemma candidates_admits p scs s n i : holds p scs → Forall is_byte s → ((length scs + 63) / 64 ≤ n)%nat →
  has (candidates p s n) i = match scs !! i with Some sc => admits sc s | None => false end.
Proof.
  intros Hp Hs Hn. unfold candidates. set (st := scan _ _ _).
  assert (Hst : scanned p (all_clauses scs) (λ l, occurs l (fold_text s)) st).
  { pose proof (scan_scanned p _ (h_indexed _ _ Hp) s (λ _, False)) as H. eapply scanned_iff; [apply Hp| |apply H; [done|]].
    - intros. tauto.
    - split; cbn [fst snd]; [intros; by apply words_bound|rewrite (h_nclauses _ _ Hp); intros; by apply words_bound|..];
        intros; rewrite has_no_bits; naive_solver. }
  pose (f ri := negb (Z.of_nat (length s) <? nth ri (pf_minLen p) 0) &&
                forallb (has (snd st)) (seq (nth ri (clauseLo p) O) (nth ri (clauseHi p) O - nth ri (clauseLo p) O))).
  assert (E : ∀ l ws, foldl (λ dst ri, if Z.of_nat (length s) <? nth ri (pf_minLen p) 0 then dst
                              else if forallb (has (snd st)) (seq (nth ri (clauseLo p) O) (nth ri (clauseHi p) O - nth ri (clauseLo p) O))
                                   then set_bit dst ri else dst) ws l = foldl (λ ws j, if f j then set_bit ws j else ws) ws l).
  { induction l as [|j l IH]; intros ws; cbn [foldl]; [done|]. rewrite IH. f_equal. unfold f. by destruct (_ <? _). }
  rewrite E, has_filtered, has_no_bits, orb_false_r.
  2:{ intros j Hj%elem_of_seq. rewrite (h_minLen _ _ Hp), length_map in Hj. unfold no_bits. rewrite length_replicate.
      pose proof (words_enough (length scs) j). lia. }
  rewrite (h_minLen _ _ Hp), length_map. destruct (scs !! i) as [sc|] eqn:Hi.
  - rewrite bool_decide_eq_true_2 by (apply elem_of_seq; apply lookup_lt_Some in Hi; lia). cbn [andb]. unfold f, admits.
    rewrite (h_minLen _ _ Hp), (nth_lookup_Some _ _ _ (sc_minLen sc)) by (by rewrite list_lookup_fmap, Hi). f_equal; [lia|].
    apply (slice_sat p scs); [done..|]. intros c cl Hc. apply eq_true_iff_eq. rewrite (s_sat _ _ _ _ Hst c cl Hc), existsb_exists.
    apply exist_proper. intros l. by rewrite list_elem_of_In, occursb_spec.
  - rewrite bool_decide_eq_false_2; [done|]. intros H%elem_of_seq. apply lookup_ge_None in Hi. lia.
Qed.
