(* ===== verification/Redact.v ===== *)
(** * Redaction: rules, allowlists and the redactor (core/redact)

    A [Redactor] holds compiled rules, allowlists and a replacement strategy.
    [Apply] collects every rule's hits on the original text ([collect]), merges
    them into regions ([merge]) and replaces the regions in one pass
    ([render]); [Scan] and [Spans] report what was found and what [Apply] would
    replace.  Strings are lists of bytes.

    Parameters ([Engine]): the regular-expression library (parser, compiler and
    matcher), Unicode case mapping, SHA-256 and the floating-point operations of
    the entropy floor.  What is relied on of them is [EngineLaws]. *)

From S2P Require Import Prelude Regexp Prefilter PrefilterScan.

Local Open Scope Z_scope.

Class Engine := {
  SimpleFold : Z → Z;
  (** [syntax.Parse(p, syntax.Perl)] and [Regexp.Simplify]. *)
  Parse : text → option regexp;
  Simplify : regexp → regexp;
  (** [regexp.Compile], by the number of groups of the compiled pattern. *)
  Compile : text → option nat;
  FindAllSubmatchIndex : text → text → list (list Z);
  FindStringIndex : text → text → option (Z * Z);
  MatchString : text → text → bool;
  ToLower : text → text;
  ToUpper : text → text;
  Sum256 : text → list Z;
  F : Type;
  f_ofZ : Z → F;
  f_div : F → F → F;
  f_mul : F → F → F;
  f_sub : F → F → F;
  Log2 : F → F;
  f_eqb : F → F → bool;
  f_leb : F → F → bool;
  IsNaN : F → bool
}.

Section Redact.
Context `{Engine}.

Definition f0 : F := f_ofZ 0.
Definition f_ltb (a b : F) : bool := f_leb a b && negb (f_eqb a b).

(** ** Rules (rule.go) *)

Record AllowlistSpec := MkAllowlistSpec {
  al_Description : text;
  Condition : text;
  RegexTarget : text;
  Regexes : list text;
  StopWords : list text;
  Paths : list text;
  Commits : list text
}.

Record RuleSpec := MkRuleSpec {
  ID : text;
  Description : text;
  Regex : text;
  Replacement : text;
  SecretGroup : Z;
  Entropy : F;
  Keywords : list text;
  Tags : list text;
  Path : text;
  Allowlists : list AllowlistSpec;
  AllowlistExact : list text;
  Distinctive : bool
}.

Record allowlist := MkAllowlist {
  al_and : bool;
  target : text;
  regexes : list text;
  full : list text;
  stopwords : list text;
  contextual : bool
}.

(** A compiled rule; the compiled pattern is known by its source. *)
Record Rule := MkRule { spec : RuleSpec; rule_re : text; rule_allowlists : list allowlist }.

Inductive rule_error :=
| ErrID
| ErrRegex
| ErrSecretGroup
| ErrEntropy
| ErrKeyword
| ErrCondition
| ErrTarget
| ErrEmptyAllowlist
| ErrAllowlistRegex
| ErrVersion
(** [regexp.MustCompile] panics. *)
| Panicked.

(** The anchored form [\A(?:p)\z]. *)
Definition anchored (p : text) : text := txt "\A(?:" ++ p ++ txt ")\z".

Fixpoint compile_regexes (ps : list text) (a : allowlist) : res rule_error allowlist :=
  match ps with
  | [] => Ok a
  | p :: ps =>
      match Compile p with
      | None => Err ErrAllowlistRegex
      | Some _ =>
          match Compile (anchored p) with
          | None => Err Panicked
          | Some _ => compile_regexes ps (MkAllowlist (al_and a) (target a) (regexes a ++ [p]) (full a ++ [anchored p]) (stopwords a) (contextual a))
          end
      end
  end.

Definition teq (a : text) (s : string) : bool := bool_decide (a = txt s).

Definition compileAllowlist (s : AllowlistSpec) : res rule_error allowlist :=
  let cond := ToUpper (Condition s) in
  if negb (teq cond "" || teq cond "OR" || teq cond "||" || teq cond "AND" || teq cond "&&") then Err ErrCondition else
  let a := MkAllowlist (teq cond "AND" || teq cond "&&") [] [] [] [] false in
  if negb (teq (RegexTarget s) "" || teq (RegexTarget s) "secret" || teq (RegexTarget s) "match" || teq (RegexTarget s) "line") then Err ErrTarget else
  let tgt := if teq (RegexTarget s) "match" || teq (RegexTarget s) "line" then RegexTarget s else [] in
  if (length (Regexes s) =? 0)%nat && (length (StopWords s) =? 0)%nat && (length (Paths s) =? 0)%nat && (length (Commits s) =? 0)%nat
  then Err ErrEmptyAllowlist else
  match compile_regexes (Regexes s) (MkAllowlist (al_and a) tgt [] [] [] false) with
  | Err e => Err e
  | Ok a => Ok (MkAllowlist (al_and a) (target a) (regexes a) (full a) (map ToLower (StopWords s)) ((0 <? length (Paths s))%nat || (0 <? length (Commits s))%nat))
  end.

Fixpoint compileAllowlists (specs : list AllowlistSpec) : res rule_error (list allowlist) :=
  match specs with
  | [] => Ok []
  | s :: specs =>
      match compileAllowlist s with
      | Err e => Err e
      | Ok a => match compileAllowlists specs with Err e => Err e | Ok l => Ok (a :: l) end
      end
  end.

Definition CompileRule (s : RuleSpec) : res rule_error Rule :=
  if bool_decide (ID s = []) then Err ErrID else
  match Compile (Regex s) with
  | None => Err ErrRegex
  | Some n =>
      if (SecretGroup s <? 0) || (Z.of_nat n <? SecretGroup s) then Err ErrSecretGroup else
      if f_ltb (Entropy s) f0 || IsNaN (Entropy s) then Err ErrEntropy else
      if existsb (λ k, bool_decide (k = [])) (Keywords s) then Err ErrKeyword else
      let s := MkRuleSpec (ID s) (Description s) (Regex s) (Replacement s) (SecretGroup s) (Entropy s) (map ToLower (Keywords s)) (Tags s)
                 (Path s) (Allowlists s) (AllowlistExact s) (isDistinctive (Parse (Regex s))) in
      match compileAllowlists (Allowlists s) with
      | Err e => Err e
      | Ok als => Ok (MkRule s (Regex s) als)
      end
  end.

Definition NewRule (id pattern replacement : text) : res rule_error Rule :=
  CompileRule (MkRuleSpec id [] pattern replacement 0 f0 [] [] [] [] [] false).

Record finding := MkFinding { secret : text; fmatch : text; fline : text }.

(** [strings.Contains]. *)
Definition Contains (s sub : text) : bool := occursb sub s.

Definition allows (a : allowlist) (f : finding) (detect : bool) : bool :=
  let tgt := if teq (target a) "match" then fmatch f else if teq (target a) "line" then fline f else secret f in
  let regexHit := if bool_decide (tgt = []) then false else
    if detect then existsb (λ p, match FindStringIndex p tgt with Some (a, b) => a <? b | None => false end) (regexes a)
    else existsb (λ p, MatchString p tgt) (full a) in
  let stopHit := detect && negb (bool_decide (secret f = [])) && existsb (Contains (ToLower (secret f))) (stopwords a) in
  if negb (al_and a) then regexHit || stopHit
  else if contextual a then false
  else if (0 <? length (regexes a))%nat && negb regexHit then false
  else if (0 <? length (stopwords a))%nat && negb stopHit then false
  else true.

(** The lengths of the runs of equal runes of a sorted list. *)
Fixpoint run_lengths (cur : Z) (n : Z) (l : list Z) : list Z :=
  match l with
  | [] => [n]
  | r :: l => if r =? cur then run_lengths cur (n + 1) l else n :: run_lengths r 1 l
  end.

Definition shannonEntropy (data : text) : F :=
  if bool_decide (data = []) then f0 else
  let runes := merge_sort Z.le (runes_of data) in
  let inv := f_div (f_ofZ 1) (f_ofZ (Z.of_nat (length data))) in
  match runes with
  | [] => f0
  | r :: rest => foldl (λ e n, let f := f_mul (f_ofZ n) inv in f_sub e (f_mul f (Log2 f))) f0 (run_lengths r 1 rest)
  end.

(** ** The redactor (redact.go) *)

Inductive ReplacementKind := Mask | Tag | Hash | Custom.

Record RMatch := MkMatch { RuleID : text; Original : text; MReplacement : text; Start : Z; End : Z }.

Record Span := MkSpan { SpStart : Z; SpEnd : Z; SpRuleID : text }.

(** What [Apply] records, and the observer calls it makes: the observer's place
    in its chain and the match it got. *)
Inductive notice := OnMatchCalled (obs : nat) (m : RMatch) | OnAllowedCalled (obs : nat) (m : RMatch) | CustomPanicked (m : RMatch).

Record activity := MkActivity {
  matches : Z;
  allowedCount : Z;
  byRule : gmap text Z;
  lastAt : option Z;
  notices : list notice
}.

Record Redactor := MkRedactor {
  rules : list Rule;
  strategy : ReplacementKind;
  (** [None] for a nil formatter; a formatter returns nothing when it panics. *)
  custom : option (RMatch → option text);
  exactAllowlist : list text;
  allowlists : list allowlist;
  allowlistSpecs : list AllowlistSpec;
  needLine : bool;
  pf : prefilter;
  kw : prefilter;
  both : prefilter;
  bothRedact : prefilter;
  distinct : list Z;
  noPrefilter : bool;
  observers : list nat;
  allowedObs : list nat
}.

Definition New : Redactor :=
  MkRedactor [] Mask None [] [] [] false empty_prefilter empty_prefilter empty_prefilter empty_prefilter [] false [] [].

Definition no_activity : activity := MkActivity 0 0 ∅ None [].

(** [for len(r.distinct) <= i/64 { append 0 }]. *)
Definition grow (distinct : list Z) (i : nat) : list Z := distinct ++ no_bits (S (i / 64) - length distinct).

Definition has_line (als : list allowlist) : bool := existsb (λ a, teq (target a) "line") als.

Definition pattern_screen (p : text) : ruleScreen := screenFor SimpleFold (Simplify <$> Parse p).

Definition with_rules (r : Redactor) rules needLine pf kw both bothRedact distinct : Redactor :=
  MkRedactor rules (strategy r) (custom r) (exactAllowlist r) (allowlists r) (allowlistSpecs r) needLine pf kw both bothRedact distinct
    (noPrefilter r) (observers r) (allowedObs r).

(** One rule of [AddRules]; indexing an empty literal panics. *)
Definition add_rule (r : Redactor) (rule : Rule) : option Redactor :=
  let sc := pattern_screen (rule_re rule) in
  let kws := Keywords (spec rule) in
  pf ← addScreen (pf r) sc;
  kw ← addScreen (kw r) (keywordScreen kws);
  both ← addScreen (both r) (withKeywords sc kws);
  bothRedact ← addScreen (bothRedact r) (if Distinctive (spec rule) then sc else withKeywords sc kws);
  let i := length (rules r) in
  let d := grow (distinct r) i in
  let d := if Distinctive (spec rule) then set_bit d i else d in
  Some (with_rules r (rules r ++ [rule]) (needLine r || has_line (rule_allowlists rule)) pf kw both bothRedact d).

Definition AddRules (r : Redactor) (rs : list Rule) : option Redactor :=
  foldl (λ o rule, r ← o; add_rule r rule) (Some r) rs.

Definition AddAllowlists (r : Redactor) (specs : list AllowlistSpec) : res rule_error Redactor :=
  match compileAllowlists specs with
  | Err e => Err e
  | Ok als => Ok (MkRedactor (rules r) (strategy r) (custom r) (exactAllowlist r) (allowlists r ++ als) (allowlistSpecs r ++ specs)
                    (needLine r || has_line als) (pf r) (kw r) (both r) (bothRedact r) (distinct r) (noPrefilter r) (observers r) (allowedObs r))
  end.

Definition AddRule (r : Redactor) (id pattern replacement : text) : res rule_error Redactor :=
  match NewRule id pattern replacement with
  | Err e => Err e
  | Ok rule => match AddRules r [rule] with Some r => Ok r | None => Err Panicked end
  end.

Definition AllowExact (r : Redactor) (vals : list text) : Redactor :=
  MkRedactor (rules r) (strategy r) (custom r) (exactAllowlist r ++ vals) (allowlists r) (allowlistSpecs r) (needLine r) (pf r) (kw r) (both r)
    (bothRedact r) (distinct r) (noPrefilter r) (observers r) (allowedObs r).

(** [SetReplacement]: [Custom] needs a formatter; an error leaves the redactor. *)
Definition SetReplacement (r : Redactor) (st : ReplacementKind) (fn : option (RMatch → option text)) : option Redactor :=
  let set c := Some (MkRedactor (rules r) st c (exactAllowlist r) (allowlists r) (allowlistSpecs r) (needLine r) (pf r) (kw r) (both r)
                       (bothRedact r) (distinct r) (noPrefilter r) (observers r) (allowedObs r)) in
  match st, fn with
  | Custom, None => None
  | Custom, Some f => set (Some f)
  | _, _ => set None
  end.

(** [OnMatch] and [OnAllowed]: nil clears the chain. *)
Definition OnMatch (r : Redactor) (fn : option nat) : Redactor :=
  MkRedactor (rules r) (strategy r) (custom r) (exactAllowlist r) (allowlists r) (allowlistSpecs r) (needLine r) (pf r) (kw r) (both r)
    (bothRedact r) (distinct r) (noPrefilter r) (if fn is Some f then observers r ++ [f] else []) (allowedObs r).

Definition OnAllowed (r : Redactor) (fn : option nat) : Redactor :=
  MkRedactor (rules r) (strategy r) (custom r) (exactAllowlist r) (allowlists r) (allowlistSpecs r) (needLine r) (pf r) (kw r) (both r)
    (bothRedact r) (distinct r) (noPrefilter r) (observers r) (if fn is Some f then allowedObs r ++ [f] else []).

(** ** Replacements (replacement.go) *)

Definition mask : text := txt "***REDACTED***".

Definition tag (rule : Rule) : text :=
  if bool_decide (Replacement (spec rule) = []) then txt "<" ++ ID (spec rule) ++ txt ">" else Replacement (spec rule).

Definition hex_digit (n : Z) : Z := if n <? 10 then 48 + n else 87 + n.
Definition hex_encode (bs : text) : text := flat_map (λ b, [hex_digit (b / 16); hex_digit (b mod 16)]) bs.

Definition hash (m : RMatch) : text := txt "sha256:" ++ hex_encode (take 4 (Sum256 (Original m))).

Definition add_notices (ns : list notice) (a : activity) : activity :=
  MkActivity (matches a) (allowedCount a) (byRule a) (lastAt a) (notices a ++ ns).

(** A formatter that panics is logged and its match masked. *)
Definition safeCustom (fn : RMatch → option text) (m : RMatch) (a : activity) : text * activity :=
  match fn m with Some out => (out, a) | None => (mask, add_notices [CustomPanicked m] a) end.

Definition format (r : Redactor) (rule : Rule) (m : RMatch) (a : activity) : text * activity :=
  match strategy r with
  | Tag => (tag rule, a)
  | Hash => (hash m, a)
  | Custom => match custom r with None => (mask, a) | Some fn => safeCustom fn m a end
  | Mask => (mask, a)
  end.

(** ** Hits and regions (spans.go) *)

Record hit := MkHit { start : Z; end_ : Z; rule : nat }.

Inductive collectMode := redactRecord | redactQuiet | detect.

(** [s[a:b]] *)
Definition sub (s : text) (a b : Z) : text := take (Z.to_nat (b - a)) (drop (Z.to_nat a) s).

(** The order of [merge]: by start, then longest first, then by rule. *)
Definition hit_leb (a b : hit) : bool :=
  if negb (start a =? start b) then start a <? start b
  else if negb (end_ a =? end_ b) then end_ b <? end_ a
  else (rule a <=? rule b)%nat.

Definition hit_le (a b : hit) : Prop := hit_leb a b = true.

#[global] Instance hit_le_dec : RelDecision hit_le.
Proof. intros a b. unfold hit_le. apply _. Defined.

(** The fold over the sorted hits; the region being extended is [last]. *)
Fixpoint merge_loop (last : hit) (hits : list hit) : list hit :=
  match hits with
  | [] => [last]
  | h :: hits =>
      if start h <=? end_ last then merge_loop (MkHit (start last) (Z.max (end_ last) (end_ h)) (rule last)) hits
      else last :: merge_loop h hits
  end.

Definition merge (hits : list hit) : list hit :=
  match merge_sort hit_le hits with [] => [] | h :: hits => merge_loop h hits end.

(** [for ms < me && s[ms] == '\n' { ms++ }] and its mirror; the distance
    between the two bounds the turns. *)
Fixpoint trim_front (fuel : nat) (s : text) (ms me : Z) : Z :=
  match fuel with
  | O => ms
  | S fuel => if (ms <? me) && (nth (Z.to_nat ms) s 0 =? 10) then trim_front fuel s (ms + 1) me else ms
  end.

Fixpoint trim_back (fuel : nat) (s : text) (ms me : Z) : Z :=
  match fuel with
  | O => me
  | S fuel => if (ms <? me) && (nth (Z.to_nat (me - 1)) s 0 =? 10) then trim_back fuel s ms (me - 1) else me
  end.

(** The secret of a match: the clamped group when it holds something. *)
Definition secret_span (g : Z) (loc : list Z) (ms me : Z) : Z * Z :=
  let at_ i := nth (Z.to_nat i) loc 0 in
  if 0 <? g then
    let gs := Z.max (at_ (2 * g)) ms in
    let ge := Z.min (at_ (2 * g + 1)) me in
    if (0 <=? at_ (2 * g)) && (gs <? ge) then (gs, ge) else (ms, me)
  else (ms, me).

Fixpoint last_newline (s : text) : option nat :=
  match s with
  | [] => None
  | c :: s => match last_newline s with Some i => Some (S i) | None => if c =? 10 then Some O else None end
  end.

Fixpoint first_newline (s : text) : option nat :=
  match s with [] => None | c :: s => if c =? 10 then Some O else S <$> first_newline s end.

Definition lineAround (s : text) (a b : Z) : text :=
  let ls := match last_newline (sub s 0 a) with Some i => Z.of_nat i + 1 | None => 0 end in
  match first_newline (drop (Z.to_nat b) s) with
  | None => drop (Z.to_nat ls) s
  | Some le => sub s ls (b + Z.of_nat le)
  end.

Definition exempt (r : Redactor) (ru : Rule) (s sec : text) (ms me : Z) (detect : bool) : bool :=
  let m := sub s ms me in
  if existsb (λ e, negb (bool_decide (e = [])) && (bool_decide (e = sec) || bool_decide (e = m))) (exactAllowlist r ++ AllowlistExact (spec ru)) then true
  else if (length (allowlists r) =? 0)%nat && (length (rule_allowlists ru) =? 0)%nat then false
  else
    let f := MkFinding sec m (if needLine r then lineAround s ms me else []) in
    existsb (λ a, allows a f detect) (allowlists r ++ rule_allowlists ru).

Definition recordAllowed (r : Redactor) (ru : Rule) (sec : text) (a b : Z) (act : activity) : activity :=
  let m := MkMatch (ID (spec ru)) sec [] a b in
  MkActivity (matches act) (uint64 (allowedCount act + 1)) (byRule act) (lastAt act) (notices act ++ map (λ o, OnAllowedCalled o m) (allowedObs r)).

(** One match of a rule: trim, pick the secret, then the entropy floor and the
    allowlists. *)
Inductive verdict := Dropped | Exempted (a b : Z) | Hit (a b : Z).

Definition judge_one (r : Redactor) (ru : Rule) (s : text) (mode : collectMode) (loc : list Z) : verdict :=
  let ms := nth 0 loc 0 in
  let me := nth 1 loc 0 in
  let ms := trim_front (Z.to_nat (me - ms)) s ms me in
  let me := trim_back (Z.to_nat (me - ms)) s ms me in
  let '(ss, se) := secret_span (SecretGroup (spec ru)) loc ms me in
  if se <=? ss then Dropped else
  let sec := sub s ss se in
  let is_detect := if mode is detect then true else false in
  let trusted := negb is_detect && Distinctive (spec ru) in
  if negb trusted && negb (f_eqb (Entropy (spec ru)) f0) && f_leb (shannonEntropy sec) (Entropy (spec ru)) then Dropped
  else if exempt r ru s sec ms me is_detect then Exempted ss se
  else Hit ss se.

Fixpoint judge (r : Redactor) (ru : Rule) (i : nat) (s : text) (mode : collectMode) (locs : list (list Z)) (hits : list hit) (act : activity) : list hit * activity :=
  match locs with
  | [] => (hits, act)
  | loc :: locs =>
      match judge_one r ru s mode loc with
      | Dropped => judge r ru i s mode locs hits act
      | Exempted a b => judge r ru i s mode locs hits (if mode is redactRecord then recordAllowed r ru (sub s a b) a b act else act)
      | Hit a b => judge r ru i s mode locs (hits ++ [MkHit a b i]) act
      end
  end.

Definition ruleHits (r : Redactor) (s : text) (i : nat) (mode : collectMode) (st : list hit * activity) : list hit * activity :=
  match rules r !! i with
  | None => st
  | Some ru => judge r ru i s mode (FindAllSubmatchIndex (rule_re ru) s) (fst st) (snd st)
  end.

(** ** Screening *)

Definition keywordText (s : text) : text * bool :=
  if existsb (λ b, RuneSelf <=? b) s then (ToLower s, false) else (s, true).

Definition keywordGate (keywords : list text) (lower : text) : bool :=
  if (length keywords =? 0)%nat then true else existsb (Contains (ToLower lower)) keywords.

(** [dst[i] &= kw[i] | distinct[i]] word by word. *)
Fixpoint and_words (redacting : bool) (dst kw distinct : list Z) : list Z :=
  match dst, kw, distinct with
  | d :: dst, k :: kw, x :: distinct => Z.land d (if redacting then Z.lor k x else k) :: and_words redacting dst kw distinct
  | _, _, _ => []
  end.

Definition screen (r : Redactor) (s : text) (n : nat) (redacting : bool) : list Z :=
  let '(lower, ascii) := keywordText s in
  if noPrefilter r then
    foldl (λ dst i, match rules r !! i with
                    | Some ru => if redacting && Distinctive (spec ru) || keywordGate (Keywords (spec ru)) lower then set_bit dst i else dst
                    | None => dst
                    end) (no_bits n) (seq 0 (length (rules r)))
  else if ascii then candidates (if redacting then bothRedact r else both r) s n
  else and_words redacting (candidates (pf r) s n) (candidates (kw r) lower n) (distinct r).

Definition rule_candidates (r : Redactor) (s : text) (mode : collectMode) : list Z :=
  screen r s ((length (rules r) + 63) / 64) (if mode is detect then false else true).

Definition collect (r : Redactor) (s : text) (mode : collectMode) (act : activity) : list hit * activity :=
  let cand := rule_candidates r s mode in
  foldl (λ st i, if has cand i then ruleHits r s i mode st else st) ([], act) (seq 0 (length (rules r))).

Definition regionsOf (r : Redactor) (s : text) (record : bool) (act : activity) : list hit * activity :=
  let '(hits, act) := collect r s (if record then redactRecord else redactQuiet) act in
  (merge hits, act).

(** ** Apply, Scan and Spans *)

Section Apply.
(** [time.Now] when the [k]-th match is recorded. *)
Variable clock : Z → Z.

Definition recordMatch (id : text) (a : activity) : activity :=
  MkActivity (uint64 (matches a + 1)) (allowedCount a) (<[id := uint64 (default 0 (byRule a !! id) + 1)]> (byRule a)) (Some (clock (matches a))) (notices a).

Definition fireObservers (r : Redactor) (m : RMatch) (a : activity) : activity := add_notices (map (λ o, OnMatchCalled o m) (observers r)) a.

Definition zero_rule : Rule := MkRule (MkRuleSpec [] [] [] [] 0 f0 [] [] [] [] [] false) [] [].

Fixpoint render (r : Redactor) (s : text) (last : Z) (regions : list hit) (act : activity) : text * activity :=
  match regions with
  | [] => (drop (Z.to_nat last) s, act)
  | g :: regions =>
      let ru := nth (rule g) (rules r) zero_rule in
      let m := MkMatch (ID (spec ru)) (sub s (start g) (end_ g)) [] (start g) (end_ g) in
      let '(rep, act) := format r ru m act in
      let m := MkMatch (RuleID m) (Original m) rep (Start m) (End m) in
      let act := recordMatch (ID (spec ru)) (fireObservers r m act) in
      let '(out, act) := render r s (end_ g) regions act in
      (sub s last (start g) ++ rep ++ out, act)
  end.

Definition Apply (r : Redactor) (s : text) (act : activity) : text * activity :=
  if (length (rules r) =? 0)%nat || bool_decide (s = []) then (s, act) else
  let '(regions, act) := regionsOf r s true act in
  if (length regions =? 0)%nat then (s, act) else render r s 0 regions act.

End Apply.

Definition Scan (r : Redactor) (s : text) : list RMatch :=
  if (length (rules r) =? 0)%nat || bool_decide (s = []) then [] else
  map (λ h, MkMatch (ID (spec (nth (rule h) (rules r) zero_rule))) (sub s (start h) (end_ h)) [] (start h) (end_ h)) (fst (collect r s detect no_activity)).

Definition Spans (r : Redactor) (s : text) : list Span :=
  if (length (rules r) =? 0)%nat || bool_decide (s = []) then [] else
  map (λ g, MkSpan (start g) (end_ g) (ID (spec (nth (rule g) (rules r) zero_rule)))) (fst (regionsOf r s false no_activity)).

(** [Stats]. *)
Definition Stats (r : Redactor) (a : activity) : nat * Z * Z * gmap text Z * option Z := (length (rules r), matches a, allowedCount a, byRule a, lastAt a).

End Redact.
