(* ===== verification/RedactLaws.v ===== *)
(** * What redaction replaces (redact/spans.go, redact.go)

    Merging keeps the positions of the hits and separates the regions; rendering
    replaces the regions and keeps every other byte in order; [Spans] are the
    regions [Apply] replaces, and the statistics count them. *)

From S2P Require Import Prelude Regexp Prefilter PrefilterScan Redact.

Local Open Scope Z_scope.

(** What is relied on of the parameters: a match found lies in the input and is
    a match of the simplified tree, and lower-casing folds ASCII, keeps bytes
    and changes nothing the second time. *)
Class EngineLaws (E : Engine) : Prop := {
  law_range : ∀ p s loc, loc ∈ FindAllSubmatchIndex p s → 0 ≤ nth 0 loc 0 ≤ nth 1 loc 0 ∧ nth 1 loc 0 ≤ Z.of_nat (length s);
  law_match : ∀ p re s loc, Parse p = Some re → loc ∈ FindAllSubmatchIndex p s →
    Matches SimpleFold (Simplify re) (sub s 0 (nth 0 loc 0)) (sub s (nth 0 loc 0) (nth 1 loc 0)) (drop (Z.to_nat (nth 1 loc 0)) s);
  law_lower_ascii : ∀ s, Forall (λ b, 0 ≤ b < 128) s → ToLower s = fold_text s;
  law_lower_fold : ∀ s, fold_text (ToLower s) = ToLower s;
  law_lower_idem : ∀ s, ToLower (ToLower s) = ToLower s;
  law_lower_bytes : ∀ s, Forall is_byte s → Forall is_byte (ToLower s);
  law_lower_nonempty : ∀ s, s ≠ [] → ToLower s ≠ []
}.

(** ** Merging *)

Definition covers (h : hit) (p : Z) : Prop := start h ≤ p < end_ h.

Definition coversb (hits : list hit) (p : Z) : bool := existsb (λ h, (start h <=? p) && (p <? end_ h)) hits.

Lemma coversb_spec hits p : coversb hits p = true ↔ ∃ h, h ∈ hits ∧ covers h p.
Proof.
  unfold coversb, covers. rewrite existsb_exists. apply exist_proper. intros h. rewrite <-list_elem_of_In. apply and_iff_compat_l. lia.
Qed.

#[global] Instance hit_eq_dec : EqDecision hit.
Proof. solve_decision. Defined.

Definition nonempty (h : hit) : Prop := start h < end_ h.
Definition starts_le (a b : hit) : Prop := start a ≤ start b.
Definition apart (a b : hit) : Prop := end_ a < start b.

#[global] Instance hit_le_total : Total hit_le.
Proof.
  intros [a b c] [d e f]. unfold hit_le, hit_leb. cbn [start end_ rule].
  destruct (Z.eqb_spec a d), (Z.eqb_spec d a), (Z.eqb_spec b e), (Z.eqb_spec e b); cbn [negb]; rewrite ?Z.ltb_lt, ?Nat.leb_le; lia.
Qed.

#[global] Instance hit_le_trans : Transitive hit_le.
Proof.
  intros [a b c] [d e f] [g i j]. unfold hit_le, hit_leb. cbn [start end_ rule].
  destruct (Z.eqb_spec a d), (Z.eqb_spec d g), (Z.eqb_spec a g), (Z.eqb_spec b e), (Z.eqb_spec e i), (Z.eqb_spec b i); cbn [negb];
    rewrite ?Z.ltb_lt, ?Nat.leb_le; lia.
Qed.

Lemma hit_le_starts a b : hit_le a b → starts_le a b.
Proof. unfold hit_le, hit_leb, starts_le. destruct (Z.eqb_spec (start a) (start b)); cbn [negb]; rewrite ?Z.ltb_lt; lia. Qed.

Lemma sorted_starts l : StronglySorted hit_le l → StronglySorted starts_le l.
Proof. induction 1 as [|a l _ IH Hl]; constructor; [done|]. eapply Forall_impl; [exact Hl|]. apply hit_le_starts. Qed.

Lemma merge_loop_covers last hits p : nonempty last → Forall nonempty hits → StronglySorted starts_le (last :: hits) →
  (∃ g, g ∈ merge_loop last hits ∧ covers g p) ↔ ∃ h, h ∈ last :: hits ∧ covers h p.
Proof.
  revert last. induction hits as [|h hits IH]; intros last Hl Hh Hs; [done|]. cbn [merge_loop].
  apply Forall_cons in Hh as [Hn Hh]. apply StronglySorted_inv in Hs as [Hs Ha]. apply Forall_cons in Ha as [Ha Har]. apply StronglySorted_inv in Hs as [Hs Hhr].
  unfold nonempty, starts_le in *. destruct (Z.leb_spec (start h) (end_ last)).
  - rewrite IH; cbn; [|unfold nonempty; cbn; lia|done|constructor; [done|by apply Har]]. split.
    + intros (g & [->|Hg]%elem_of_cons & Hc); unfold covers in *; cbn in Hc; [|exists g; set_solver].
      destruct (Z.lt_ge_cases p (end_ last)); [exists last|exists h]; (split; [set_solver|lia]).
    + intros (g & Hg & Hc). unfold covers in *. destruct (decide (g = last)) as [->|]; [|destruct (decide (g = h)) as [->|]].
      * eexists. split; [by left|cbn; lia].
      * eexists. split; [by left|cbn; lia].
      * exists g. set_solver.
  - specialize (IH h Hn Hh ltac:(by constructor)). setoid_rewrite (elem_of_cons (merge_loop h hits)). setoid_rewrite (elem_of_cons (h :: hits)). naive_solver.
Qed.

Lemma merge_loop_apart last hits : nonempty last → Forall nonempty hits → StronglySorted starts_le (last :: hits) →
  StronglySorted apart (merge_loop last hits) ∧ Forall (λ g, nonempty g ∧ start last ≤ start g) (merge_loop last hits).
Proof.
  revert last. induction hits as [|h hits IH]; intros last Hl Hh Hs; cbn [merge_loop].
  { split; [repeat constructor|]. apply Forall_singleton. split; [done|lia]. }
  apply Forall_cons in Hh as [Hn Hh]. apply StronglySorted_inv in Hs as [Hs Ha]. apply Forall_cons in Ha as [Ha Har]. apply StronglySorted_inv in Hs as [Hs Hhr].
  unfold nonempty, starts_le, apart in *. destruct (Z.leb_spec (start h) (end_ last)).
  - apply (IH (MkHit (start last) (Z.max (end_ last) (end_ h)) (rule last))); cbn; [lia|done|by constructor].
  - destruct (IH h Hn Hh) as [H1 H2]; [by constructor|]. split.
    + constructor; [done|]. eapply Forall_impl; [exact H2|]. cbn. lia.
    + constructor; [lia|]. eapply Forall_impl; [exact H2|]. cbn. lia.
Qed.

(** A region keeps the rule of its first hit. *)
Lemma merge_loop_first last hits g : g ∈ merge_loop last hits →
  (start g = start last ∧ rule g = rule last) ∨ ∃ h, h ∈ hits ∧ start g = start h ∧ rule g = rule h.
Proof.
  revert last. induction hits as [|h hits IH]; intros last; cbn [merge_loop]; [intros ->%list_elem_of_singleton; auto|].
  destruct (_ <=? _).
  - intros [[? ?]|(k & Hk & ?)]%IH; cbn in *; [auto|]. right. exists k. set_solver.
  - intros [->|[[? ?]|(k & Hk & ?)]%IH]%elem_of_cons; [auto|right; exists h; set_solver|right; exists k; set_solver].
Qed.

Lemma merge_sorted hits : StronglySorted hit_le (merge_sort hit_le hits).
Proof. apply Sorted_StronglySorted; [apply _|]. apply Sorted_merge_sort, _. Qed.

Lemma elem_of_merge_sort hits h : h ∈ merge_sort hit_le hits ↔ h ∈ hits.
Proof. by rewrite (merge_sort_Permutation hit_le hits). Qed.

Lemma merge_regions hits : Forall nonempty hits →
  StronglySorted apart (merge hits) ∧ Forall nonempty (merge hits) ∧
  (∀ p, (∃ g, g ∈ merge hits ∧ covers g p) ↔ ∃ h, h ∈ hits ∧ covers h p) ∧
  (∀ g, g ∈ merge hits → ∃ h, h ∈ hits ∧ start g = start h ∧ rule g = rule h).
Proof.
  intros Hn. pose proof (merge_sorted hits) as Hs%sorted_starts. unfold merge.
  assert (He : ∀ h, h ∈ merge_sort hit_le hits ↔ h ∈ hits) by (intros; apply elem_of_merge_sort).
  destruct (merge_sort hit_le hits) as [|h l].
  - split; [constructor|]. split; [constructor|]. split; [|set_solver]. intros p. split; [set_solver|]. intros (k & Hk%He & _). set_solver.
  - assert (Hall : Forall nonempty (h :: l)) by (rewrite Forall_forall in *; intros k Hk%He; auto). apply Forall_cons in Hall as [H0 Hl].
    destruct (merge_loop_apart h l H0 Hl Hs) as [H1 H2]. split; [done|]. split; [eapply Forall_impl; [exact H2|by intros ? [? _]]|]. split.
    + intros p. rewrite merge_loop_covers by done. by setoid_rewrite He.
    + intros g [[? ?]|(k & Hk & ? & ?)]%merge_loop_first; [exists h|exists k]; (split; [apply He; set_solver|done]).
Qed.

(** The rule of a region is that of the first hit in the order of [merge]
    among those that start it. *)
Lemma merge_loop_starts l : ∀ last g, nonempty last → Forall nonempty l → StronglySorted starts_le (last :: l) → g ∈ merge_loop last l →
  start g = start last ∨ end_ last < start g.
Proof.
  induction l as [|h l IH]; intros last g Hn Hl Hs; cbn [merge_loop]; [intros ->%list_elem_of_singleton; auto|].
  apply Forall_cons in Hl as [Hh Hl]. apply StronglySorted_inv in Hs as [Hs Ha]. apply Forall_cons in Ha as [Ha Har]. pose proof Hs as Hsh.
  apply StronglySorted_inv in Hs as [Hs Hhr]. unfold nonempty, starts_le in *. destruct (Z.leb_spec (start h) (end_ last)).
  - intros Hg. apply IH in Hg; cbn in *; [lia|lia|done|by constructor].
  - intros [->|Hg]%elem_of_cons; [auto|]. apply IH in Hg; [lia|done..].
Qed.

Lemma merge_loop_best l : ∀ last h0 g, start last = start h0 → rule last = rule h0 → nonempty last → Forall nonempty l →
  Forall (hit_le h0) l → StronglySorted hit_le l → g ∈ merge_loop last l →
  ∃ k, k ∈ h0 :: l ∧ start k = start g ∧ rule k = rule g ∧ ∀ k', k' ∈ h0 :: l → start k' = start g → hit_le k k'.
Proof.
  assert (Hrefl : ∀ h, hit_le h h) by (intros h; by destruct (hit_le_total h h)).
  induction l as [|h l IH]; intros last h0 g E1 E2 Hn Hl H0 Hs; cbn [merge_loop].
  { intros ->%list_elem_of_singleton. exists h0. set_solver. }
  apply Forall_cons in Hl as [Hh Hl]. apply Forall_cons in H0 as [Hh0 H0]. pose proof (StronglySorted_inv Hs) as [Hs' Hhl].
  pose proof (hit_le_starts _ _ Hh0) as Hst. assert (Hall : StronglySorted starts_le l) by (by apply sorted_starts).
  assert (Hfst : Forall (starts_le h0) l) by (eapply Forall_impl; [exact H0|apply hit_le_starts]).
  unfold nonempty, starts_le in *. destruct (Z.leb_spec (start h) (end_ last)) as [Hle|Hgt].
  - intros Hg. pose proof Hg as Hg'. apply merge_loop_starts in Hg'; cbn in *; [|unfold nonempty; cbn; lia|done|constructor; [done|]; unfold starts_le; cbn; by rewrite E1].
    destruct (IH (MkHit (start last) (Z.max (end_ last) (end_ h)) (rule last)) h0 g E1 E2 ltac:(cbn; lia) Hl H0 Hs' Hg) as (k & Hk & Hks & Hkr & Hbest). exists k. split; [set_solver|]. split; [done|]. split; [done|].
    intros k' Hk' Est. destruct (decide (k' = h)) as [->|Hne]; [|apply Hbest; set_solver].
    assert (start h0 = start g) by lia. transitivity h0; [|done]. apply Hbest; set_solver.
  - intros [->|Hg]%elem_of_cons.
    + exists h0. split; [set_solver|]. split; [done|]. split; [done|]. intros k' [->|[->|Hk']%elem_of_cons]%elem_of_cons _; [done..|].
      rewrite Forall_forall in H0. auto.
    + pose proof (merge_loop_starts l h g Hh Hl ltac:(constructor; [done|]; eapply Forall_impl; [exact Hhl|apply hit_le_starts]) Hg) as Hgs.
      destruct (IH h h g eq_refl eq_refl Hh Hl Hhl Hs' Hg) as (k & Hk & Hks & Hkr & Hbest). exists k. split; [set_solver|]. split; [done|]. split; [done|].
      intros k' [->|Hk']%elem_of_cons Est; [lia|by apply Hbest].
Qed.

Lemma merge_first hits g : Forall nonempty hits → g ∈ merge hits →
  ∃ h, h ∈ hits ∧ start h = start g ∧ rule h = rule g ∧ ∀ k, k ∈ hits → start k = start g → hit_le h k.
Proof.
  intros Hn Hg. pose proof (merge_sorted hits) as Hs. unfold merge in Hg.
  assert (He : ∀ h, h ∈ merge_sort hit_le hits ↔ h ∈ hits) by (intros; apply elem_of_merge_sort).
  destruct (merge_sort hit_le hits) as [|h l]; [set_solver|]. setoid_rewrite <-He.
  assert (Hall : Forall nonempty (h :: l)) by (rewrite Forall_forall in *; intros k Hk%He; auto).
  apply Forall_cons in Hall as [H0 Hl]. apply StronglySorted_inv in Hs as [Hs Hh]. by apply (merge_loop_best l h h g).
Qed.

(** ** Hits lie in the text *)

Definition in_text (s : text) (h : hit) : Prop := 0 ≤ start h ∧ start h < end_ h ≤ Z.of_nat (length s).

Lemma trim_front_range fuel s ms me : ms ≤ me → ms ≤ trim_front fuel s ms me ≤ me.
Proof.
  revert ms. induction fuel as [|fuel IH]; intros ms Hm; cbn [trim_front]; [lia|].
  destruct (_ && _) eqn:E; [|lia]. apply andb_true_iff in E as [E%Z.ltb_lt _]. specialize (IH (ms + 1)). lia.
Qed.

Lemma trim_back_range fuel s ms me : ms ≤ me → ms ≤ trim_back fuel s ms me ≤ me.
Proof.
  revert me. induction fuel as [|fuel IH]; intros me Hm; cbn [trim_back]; [lia|].
  destruct (_ && _) eqn:E; [|lia]. apply andb_true_iff in E as [E%Z.ltb_lt _]. specialize (IH (me - 1)). lia.
Qed.

Lemma secret_span_range g loc ms me a b : secret_span g loc ms me = (a, b) → ms ≤ me → ms ≤ a ∧ b ≤ me.
Proof.
  unfold secret_span. intros E Hm. destruct (0 <? g); [destruct (_ && _) eqn:E'|]; injection E as <- <-; lia.
Qed.

Section Hits.
Context {E : Engine} {L : EngineLaws E}.

Lemma judge_one_range r ru s mode loc a b :
  0 ≤ nth 0 loc 0 ≤ nth 1 loc 0 ∧ nth 1 loc 0 ≤ Z.of_nat (length s) → judge_one r ru s mode loc = Hit a b ∨ judge_one r ru s mode loc = Exempted a b →
  0 ≤ a ∧ a < b ≤ Z.of_nat (length s).
Proof.
  intros [H1 H2]. unfold judge_one. set (ms := trim_front _ _ _ _). set (me := trim_back _ _ _ _).
  pose proof (trim_front_range (Z.to_nat (nth 1 loc 0 - nth 0 loc 0)) s _ _ (proj2 H1)) as Hf. fold ms in Hf.
  pose proof (trim_back_range (Z.to_nat (nth 1 loc 0 - ms)) s ms _ (proj2 Hf)) as Hb. fold me in Hb.
  destruct (secret_span _ loc ms me) as [ss se] eqn:Es. apply secret_span_range in Es; [|lia].
  destruct (Z.leb_spec se ss); [naive_solver|]. destruct (_ && _); [naive_solver|]. destruct (exempt _ _ _ _ _ _ _); intros [[= <- <-]|[= <- <-]] || intros [?|?]; try done; simplify_eq; lia.
Qed.

(** What [judge] does to hits and activity, as a filter over the matches. *)
Definition hit_of (i : nat) (v : verdict) : option hit := if v is Hit a b then Some (MkHit a b i) else None.

Lemma judge_hits r ru i s mode locs : ∀ hits act,
  fst (judge r ru i s mode locs hits act) = hits ++ omap (λ loc, hit_of i (judge_one r ru s mode loc)) locs.
Proof.
  induction locs as [|loc locs IH]; intros hits act; cbn [judge omap list_omap]; [by rewrite app_nil_r|].
  destruct (judge_one r ru s mode loc); cbn [hit_of]; rewrite IH; [done..|]. by rewrite <-app_assoc.
Qed.

(** The hits of rule [i]. *)
Definition rule_hits (r : Redactor) (s : text) (mode : collectMode) (i : nat) : list hit :=
  match rules r !! i with
  | Some ru => omap (λ loc, hit_of i (judge_one r ru s mode loc)) (FindAllSubmatchIndex (rule_re ru) s)
  | None => []
  end.

Lemma ruleHits_fst r s i mode st : fst (ruleHits r s i mode st) = fst st ++ rule_hits r s mode i.
Proof. unfold ruleHits, rule_hits. destruct (rules r !! i); [apply judge_hits|by rewrite app_nil_r]. Qed.

Lemma collect_fst r s mode act :
  fst (collect r s mode act) = flat_map (λ i, if has (rule_candidates r s mode) i then rule_hits r s mode i else []) (seq 0 (length (rules r))).
Proof.
  unfold collect. generalize (seq 0 (length (rules r))) as l. assert (Gen : ∀ l st,
    fst (foldl (λ st i, if has (rule_candidates r s mode) i then ruleHits r s i mode st else st) st l)
    = fst st ++ flat_map (λ i, if has (rule_candidates r s mode) i then rule_hits r s mode i else []) l); [|intros l; by rewrite Gen].
  induction l as [|i l IH]; intros st; cbn [foldl flat_map]; [by rewrite app_nil_r|]. rewrite IH.
  destruct (has _ i); [by rewrite ruleHits_fst, app_assoc|done].
Qed.

Lemma rule_hits_range r s mode i h : h ∈ rule_hits r s mode i → in_text s h ∧ rule h = i ∧ (i < length (rules r))%nat.
Proof.
  unfold rule_hits. destruct (rules r !! i) as [ru|] eqn:Hi; [|set_solver]. intros (loc & Hloc & Hh)%list_elem_of_omap.
  destruct (judge_one r ru s mode loc) as [| |a b] eqn:Ej; try done. cbn in Hh. injection Hh as <-.
  split; [|split; [done|by eapply lookup_lt_Some]]. unfold in_text. cbn. eapply judge_one_range; [|by left]. by eapply law_range.
Qed.

Lemma collect_range r s mode act h : h ∈ fst (collect r s mode act) → in_text s h ∧ (rule h < length (rules r))%nat.
Proof.
  rewrite collect_fst. intros (i & _ & Hh)%list_elem_of_In%in_flat_map. rewrite <-list_elem_of_In in Hh.
  destruct (has _ i); [|set_solver]. apply rule_hits_range in Hh as (? & -> & ?). done.
Qed.

(** Recording does not change the hits. *)
Lemma collect_record r s act act' : fst (collect r s redactRecord act) = fst (collect r s redactQuiet act').
Proof.
  rewrite !collect_fst. assert (Hc : rule_candidates r s redactRecord = rule_candidates r s redactQuiet) by done.
  assert (Hh : ∀ i, rule_hits r s redactRecord i = rule_hits r s redactQuiet i) by done. by rewrite Hc.
Qed.

End Hits.

(** ** Rendering *)

(** Kept pieces with other pieces between them. *)
Fixpoint weave (k : text) (l : list (text * text)) : text :=
  match l with [] => k | (x, k') :: l => k ++ x ++ weave k' l end.

(** The bytes from position [p] on that [f] does not cover. *)
Fixpoint keep (f : Z → bool) (p : Z) (s : text) : text :=
  match s with [] => [] | b :: s => if f p then keep f (p + 1) s else b :: keep f (p + 1) s end.

Lemma keep_app f s t : ∀ p, keep f p (s ++ t) = keep f p s ++ keep f (p + Z.of_nat (length s)) t.
Proof.
  induction s as [|b s IH]; intros p; cbn [keep app length]; [by rewrite Z.add_0_r|]. rewrite IH, Nat2Z.inj_succ.
  replace (p + Z.succ (Z.of_nat (length s))) with (p + 1 + Z.of_nat (length s)) by lia. by destruct (f p).
Qed.

Lemma keep_none f s : ∀ p, (∀ q, p ≤ q < p + Z.of_nat (length s) → f q = false) → keep f p s = s.
Proof.
  induction s as [|b s IH]; intros p H; cbn [keep]; [done|]. cbn [length] in H. rewrite (H p) by lia. f_equal. apply IH. intros q Hq. apply H. lia.
Qed.

Lemma keep_all f s : ∀ p, (∀ q, p ≤ q < p + Z.of_nat (length s) → f q = true) → keep f p s = [].
Proof.
  induction s as [|b s IH]; intros p H; cbn [keep]; [done|]. cbn [length] in H. rewrite (H p) by lia. apply IH. intros q Hq. apply H. lia.
Qed.

Lemma keep_ext f g s : ∀ p, (∀ q, p ≤ q → f q = g q) → keep f p s = keep g p s.
Proof. induction s as [|b s IH]; intros p H; cbn; [done|]. rewrite H by lia. rewrite (IH (p + 1)); [done|]. intros q Hq. apply H. lia. Qed.

Lemma sub_length s a b : 0 ≤ a ≤ b → b ≤ Z.of_nat (length s) → Z.of_nat (length (sub s a b)) = b - a.
Proof. intros H1 H2. unfold sub. rewrite length_take, length_drop. lia. Qed.

Lemma drop_sub s a b : 0 ≤ a ≤ b → drop (Z.to_nat a) s = sub s a b ++ drop (Z.to_nat b) s.
Proof. intros H. unfold sub. rewrite <-(take_drop (Z.to_nat (b - a)) (drop (Z.to_nat a) s)) at 1. f_equal. rewrite drop_drop. f_equal. lia. Qed.

Section Render.
Context {E : Engine} {L : EngineLaws E} (clock : Z → Z).

(** The text a region is replaced with. *)
Definition region_match (r : Redactor) (s : text) (g : hit) : RMatch :=
  MkMatch (ID (spec (nth (rule g) (rules r) zero_rule))) (sub s (start g) (end_ g)) [] (start g) (end_ g).

Definition replacement_of (r : Redactor) (s : text) (g : hit) : text :=
  fst (format r (nth (rule g) (rules r) zero_rule) (region_match r s g) no_activity).

Definition original_of (s : text) (g : hit) : text := sub s (start g) (end_ g).

Lemma format_fst r ru m act : fst (format r ru m act) = fst (format r ru m no_activity).
Proof. unfold format, safeCustom. by destruct (strategy r); try done; destruct (custom r) as [fn|]; [destruct (fn m)|]. Qed.

Lemma render_weave r s : ∀ gs last act,
  StronglySorted apart gs → Forall (in_text s) gs → Forall (λ g, last ≤ start g) gs → 0 ≤ last ≤ Z.of_nat (length s) →
  ∃ k ks, length ks = length gs ∧
    fst (render clock r s last gs act) = weave k (zip (map (replacement_of r s) gs) ks) ∧
    drop (Z.to_nat last) s = weave k (zip (map (original_of s) gs) ks) ∧
    k ++ concat ks = keep (coversb gs) last (drop (Z.to_nat last) s).
Proof.
  induction gs as [|g gs IH]; intros last act Hs Hr Hl Hb; cbn [render].
  - exists (drop (Z.to_nat last) s), []. cbn [concat map zip zip_with weave length fst]. rewrite app_nil_r. split; [done|]. split; [done|]. split; [done|].
    symmetry. by apply keep_none.
  - apply StronglySorted_inv in Hs as [Hs Ha]. apply Forall_cons in Hr as [[Hg0 Hg1] Hr]. apply Forall_cons in Hl as [Hlg Hl].
    fold (region_match r s g). destruct (format r _ (region_match r s g) act) as [rep act1] eqn:Ef.
    pose proof (format_fst r (nth (rule g) (rules r) zero_rule) (region_match r s g) act) as Hrep. rewrite Ef in Hrep. cbn [fst] in Hrep.
    destruct (render clock r s (end_ g) gs _) as [out act2] eqn:Er.
    assert (Hle : Forall (λ g', end_ g ≤ start g') gs) by (eapply Forall_impl; [exact Ha|]; unfold apart; cbn; lia).
    destruct (IH (end_ g) (recordMatch clock (ID (spec (nth (rule g) (rules r) zero_rule)))
                  (fireObservers r (MkMatch (RuleID (region_match r s g)) (Original (region_match r s g)) rep (Start (region_match r s g)) (End (region_match r s g))) act1)) Hs Hr Hle ltac:(lia))
      as (k & ks & Hlen & Hout & Hdrop & Hkeep). rewrite Er in Hout. cbn [fst] in Hout.
    exists (sub s last (start g)), (k :: ks). cbn [fst length map zip zip_with weave concat]. split; [by rewrite Hlen|]. split; [|split].
    + fold (replacement_of r s g) in Hrep. by rewrite Hrep, Hout.
    + rewrite (drop_sub s last (start g)), (drop_sub s (start g) (end_ g)) by lia. by rewrite Hdrop.
    + rewrite Hkeep, (drop_sub s last (start g)), (drop_sub s (start g) (end_ g)), !keep_app by lia.
      rewrite !sub_length by lia. replace (last + (start g - last)) with (start g) by lia. replace (start g + (end_ g - start g)) with (end_ g) by lia.
      assert (Hc : ∀ q, coversb (g :: gs) q = ((start g <=? q) && (q <? end_ g)) || coversb gs q) by done.
      assert (Hlater : ∀ q, q ≤ end_ g → coversb gs q = false).
      { intros q Hq. apply not_true_is_false. intros (h & Hh & Hc')%coversb_spec. unfold covers in Hc'. rewrite Forall_forall in Ha. specialize (Ha h Hh). unfold apart in Ha. lia. }
      rewrite (keep_none _ (sub s last (start g))), (keep_all _ (sub s (start g) (end_ g))); [cbn [app]; f_equal| |].
      * apply keep_ext. intros q Hq. rewrite Hc. replace (q <? end_ g) with false by lia. by rewrite andb_false_r.
      * intros q Hq. rewrite sub_length in Hq by lia. rewrite Hc. lia.
      * intros q Hq. rewrite sub_length in Hq by lia. rewrite Hc, Hlater by lia. lia.
Qed.

Lemma merge_in_text s hits : Forall (in_text s) hits → Forall (in_text s) (merge hits).
Proof.
  intros H. destruct (merge_regions hits) as (_ & Hn & Hc & Hf); [eapply Forall_impl; [exact H|]; unfold in_text, nonempty; cbn; lia|].
  rewrite Forall_forall in *. intros g Hg. specialize (Hn g Hg). unfold nonempty in Hn. destruct (Hf g Hg) as (h & Hh & Es & _).
  specialize (H h Hh) as Hin. unfold in_text in *. destruct (Hc (end_ g - 1)) as [Hl _]. destruct Hl as (k & Hk & Hck); [exists g; unfold covers; split; [done|lia]|].
  specialize (H k Hk). unfold covers in Hck. lia.
Qed.

(** The hits [Apply] acts on. *)
Definition redaction_hits (r : Redactor) (s : text) : list hit := fst (collect r s redactQuiet no_activity).

Lemma redaction_hits_in_text r s : Forall (in_text s) (redaction_hits r s).
Proof. apply Forall_forall. intros h Hh%collect_range. tauto. Qed.

Lemma regionsOf_fst r s record act : fst (regionsOf r s record act) = merge (redaction_hits r s).
Proof.
  unfold regionsOf, redaction_hits. destruct record; [rewrite <-(collect_record r s act)|rewrite (collect_fst r s _ no_activity), <-(collect_fst r s _ act)];
    by destruct (collect r s _ act).
Qed.

Lemma coversb_merge s hits p : Forall (in_text s) hits → coversb (merge hits) p = coversb hits p.
Proof.
  intros H. apply eq_true_iff_eq. rewrite !coversb_spec. apply merge_regions. eapply Forall_impl; [exact H|]. unfold in_text, nonempty. cbn. lia.
Qed.

Lemma no_hits r s : rules r = [] ∨ s = [] → redaction_hits r s = [].
Proof.
  intros [Hr| ->].
  - unfold redaction_hits. by rewrite collect_fst, Hr.
  - pose proof (redaction_hits_in_text r []) as H. destruct (redaction_hits r []) as [|h l]; [done|].
    apply Forall_cons in H as [H _]. unfold in_text in H. cbn in H. lia.
Qed.

(** The text [Apply] returns: the bytes no hit covers, in order, with each
    region's replacement where the region was. *)
Lemma Apply_weave r s act :
  ∃ k ks, length ks = length (merge (redaction_hits r s)) ∧
    fst (Apply clock r s act) = weave k (zip (map (replacement_of r s) (merge (redaction_hits r s))) ks) ∧
    s = weave k (zip (map (original_of s) (merge (redaction_hits r s))) ks) ∧
    k ++ concat ks = keep (coversb (redaction_hits r s)) 0 s.
Proof.
  pose proof (redaction_hits_in_text r s) as Hin. unfold Apply.
  assert (Hnone : redaction_hits r s = [] → ∃ k ks, length ks = length (merge (redaction_hits r s)) ∧
    s = weave k (zip (map (replacement_of r s) (merge (redaction_hits r s))) ks) ∧
    s = weave k (zip (map (original_of s) (merge (redaction_hits r s))) ks) ∧ k ++ concat ks = keep (coversb (redaction_hits r s)) 0 s).
  { intros ->. exists s, []. cbn. rewrite app_nil_r. split; [done|]. split; [done|]. split; [done|]. symmetry. by apply keep_none. }
  destruct (_ || _) eqn:Eg.
  { apply Hnone, no_hits. apply orb_true_iff in Eg as [Eg%Nat.eqb_eq|Eg%bool_decide_eq_true]; [left; by apply nil_length_inv|by right]. }
  pose proof (regionsOf_fst r s true act) as Hreg. destruct (regionsOf r s true act) as [gs act1]. cbn [fst] in Hreg. subst gs.
  destruct (merge_regions (redaction_hits r s)) as (Hs & Hn & Hc & _); [eapply Forall_impl; [exact Hin|]; unfold in_text, nonempty; cbn; lia|].
  pose proof (merge_in_text s _ Hin) as Hmt.
  destruct (Nat.eqb_spec (length (merge (redaction_hits r s))) 0) as [E0|_].
  { exists s, []. apply nil_length_inv in E0. rewrite E0. cbn. rewrite app_nil_r. split; [done|]. split; [done|]. split; [done|]. symmetry. apply keep_none.
    intros q _. rewrite <-(coversb_merge s) by done. by rewrite E0. }
  destruct (render_weave r s (merge (redaction_hits r s)) 0 act1) as (k & ks & H1 & H2 & H3 & H4); [done|done| |lia|].
  { eapply Forall_impl; [exact Hmt|]. unfold in_text. cbn. lia. }
  exists k, ks. split; [done|]. split; [done|]. split; [exact H3|]. rewrite H4. apply keep_ext. intros q _. by apply coversb_merge with s.
Qed.

End Render.

(** ** Screening changes nothing (redact/spans.go, prefilter.go)

    The redactor runs only the rules its indices let through.  [well_built] is
    what [AddRules] keeps of the four indices and the set of distinctive rules;
    for such a redactor collecting with the screens is collecting without them
    ([noPrefilter]), in hits, statistics and observer calls, for redaction and
    for detection. *)

Section Screen.
Context {E : Engine} {L : EngineLaws E}.

(** The reference: every rule whose keyword gate holds runs. *)
Definition unscreened (r : Redactor) : Redactor :=
  MkRedactor (rules r) (strategy r) (custom r) (exactAllowlist r) (allowlists r) (allowlistSpecs r) (needLine r) (pf r) (kw r) (both r)
    (bothRedact r) (distinct r) true (observers r) (allowedObs r).

(** What [CompileRule] makes of keywords. *)
Definition compiled (ru : Rule) : Prop := Forall indexable (Keywords (spec ru)).

Definition kws (ru : Rule) : list text := Keywords (spec ru).
Definition psc (ru : Rule) : ruleScreen := pattern_screen (rule_re ru).

Record well_built (r : Redactor) : Prop := {
  wb_rules : Forall compiled (rules r);
  wb_pf : holds (pf r) (map psc (rules r));
  wb_kw : holds (kw r) (map (λ ru, keywordScreen (kws ru)) (rules r));
  wb_both : holds (both r) (map (λ ru, withKeywords (psc ru) (kws ru)) (rules r));
  wb_bothRedact : holds (bothRedact r) (map (λ ru, if Distinctive (spec ru) then psc ru else withKeywords (psc ru) (kws ru)) (rules r));
  wb_distinct_len : length (distinct r) = ((length (rules r) + 63) / 64)%nat;
  wb_distinct : ∀ i, has (distinct r) i = match rules r !! i with Some ru => Distinctive (spec ru) | None => false end
}.

Lemma New_well_built : well_built New.
Proof.
  split; try apply empty_holds; try done. intros i. cbn -[has]. unfold has. by destruct (i / 64)%nat; cbn; rewrite Z.bits_0.
Qed.

(** ** [AddRules] keeps it *)

Lemma has_app_zeros ws n i : has (ws ++ no_bits n) i = has ws i.
Proof.
  unfold has. destruct (Nat.lt_ge_cases (i / 64) (length ws)); [by rewrite app_nth1|]. rewrite app_nth2, (nth_overflow ws) by done.
  assert (H0 : ∀ n k, nth k (no_bits n) 0 = 0) by (induction n0; intros [|k]; cbn; auto). by rewrite H0.
Qed.

Lemma has_beyond ws i : (length ws ≤ i / 64)%nat → has ws i = false.
Proof. intros H. unfold has. by rewrite nth_overflow, Z.bits_0. Qed.

Lemma word_count n : ((S n + 63) / 64 = S (n / 64))%nat.
Proof. replace (S n + 63)%nat with (n + 1 * 64)%nat by lia. rewrite Nat.div_add by done. lia. Qed.

Lemma word_count_le n : ((n + 63) / 64 ≤ S (n / 64))%nat.
Proof. rewrite <-word_count. apply Nat.Div0.div_le_mono. lia. Qed.

Lemma add_rule_well_built r ru : well_built r → compiled ru → ∃ r', add_rule r ru = Some r' ∧ well_built r' ∧ rules r' = rules r ++ [ru].
Proof.
  intros [H1 H2 H3 H4 H5 H6 H7] Hc. unfold add_rule. fold (psc ru). fold (kws ru).
  pose proof (screenFor_indexable SimpleFold (Simplify <$> Parse (rule_re ru)) : indexable_screen (psc ru)) as Hp.
  pose proof (keywordScreen_indexable (kws ru) Hc) as Hk. pose proof (withKeywords_indexable _ (kws ru) Hp Hc) as Hb.
  destruct (addScreen_holds _ _ _ H2 Hp) as (p2 & -> & G2). destruct (addScreen_holds _ _ _ H3 Hk) as (p3 & -> & G3).
  destruct (addScreen_holds _ _ _ H4 Hb) as (p4 & -> & G4).
  destruct (addScreen_holds _ _ (if Distinctive (spec ru) then psc ru else withKeywords (psc ru) (kws ru)) H5) as (p5 & -> & G5); [by destruct (Distinctive _)|].
  cbn [mbind option_bind]. eexists. split; [reflexivity|]. split; [|done]. unfold grow. pose proof (word_count_le (length (rules r))) as Hw.
  set (d := distinct r ++ no_bits _). assert (Hd : length d = S (length (rules r) / 64)).
  { unfold d, no_bits. rewrite length_app, length_replicate. lia. }
  split; cbn [rules pf kw both bothRedact distinct with_rules]; rewrite ?map_app; try done.
  - apply Forall_app_2; [done|by apply Forall_singleton].
  - rewrite length_app, Nat.add_1_r, word_count. destruct (Distinctive (spec ru)); [by rewrite set_bit_length|done].
  - intros i. assert (Hold : has d i = match rules r !! i with Some ru => Distinctive (spec ru) | None => false end) by (unfold d; rewrite has_app_zeros; apply H7).
    assert (Hi : has (if Distinctive (spec ru) then set_bit d (length (rules r)) else d) i
      = bool_decide (length (rules r) = i) && Distinctive (spec ru) || has d i).
    { destruct (Distinctive (spec ru)); [rewrite has_set_bit by lia; by rewrite andb_true_r|by rewrite andb_false_r]. }
    rewrite Hi, Hold. case_bool_decide as Ei.
    + subst i. rewrite lookup_app_r, Nat.sub_diag, lookup_ge_None_2 by done. cbn. by rewrite orb_false_r.
    + cbn [andb orb]. destruct (rules r !! i) as [x|] eqn:Ex; [by rewrite (lookup_app_l_Some _ _ _ _ Ex)|].
      rewrite lookup_app_r by (by apply lookup_ge_None). apply lookup_ge_None in Ex. by destruct (i - length (rules r))%nat as [|n] eqn:En; [lia|].
Qed.

Lemma AddRules_well_built rs : ∀ r, well_built r → Forall compiled rs → ∃ r', AddRules r rs = Some r' ∧ well_built r' ∧ rules r' = rules r ++ rs.
Proof.
  unfold AddRules. induction rs as [|ru rs IH]; intros r Hr Hc; cbn [foldl]; [exists r; by rewrite app_nil_r|]. apply Forall_cons in Hc as [Hc Hcs].
  destruct (add_rule_well_built r ru Hr Hc) as (r1 & E1 & H1 & Hr1). cbn [mbind option_bind]. rewrite E1. destruct (IH r1 H1 Hcs) as (r2 & -> & H2 & Hr2).
  exists r2. split; [done|]. split; [done|]. by rewrite Hr2, Hr1, <-app_assoc.
Qed.

Lemma CompileRule_compiled s ru : CompileRule s = Ok ru → Forall (Forall is_byte) (Keywords s) → compiled ru.
Proof.
  unfold CompileRule. intros H Hb. destruct (bool_decide _); [done|]. destruct (Compile _); [|done]. destruct (_ || _); [done|]. destruct (_ || _); [done|].
  destruct (existsb _ _) eqn:Ek; [done|]. destruct (compileAllowlists _); [|done]. injection H as <-. unfold compiled. cbn.
  rewrite Forall_fmap. rewrite Forall_forall in *. intros k Hk. split; [|by apply law_lower_bytes, Hb]. apply law_lower_nonempty. intros ->.
  assert (existsb (λ k : text, bool_decide (k = [])) (Keywords s) = true) as ?; [|congruence].
  apply existsb_exists. exists []. split; [by apply list_elem_of_In|by apply bool_decide_eq_true].
Qed.

(** ** The gates agree *)

Lemma existsb_dedup (f : text → bool) l : existsb f (dedup l) = existsb f l.
Proof.
  apply eq_true_iff_eq. rewrite !existsb_exists. apply exist_proper. intros x. by rewrite <-!list_elem_of_In, elem_of_dedup.
Qed.

Lemma admits_gate ks s t : fold_text s = ToLower t → admits (keywordScreen ks) s = keywordGate ks t.
Proof.
  intros Ht. unfold admits, keywordScreen, keywordGate. cbn [sc_minLen sc_clauses].
  replace (0 <=? Z.of_nat (length s)) with true by (symmetry; apply Z.leb_le; lia). cbn [andb].
  destruct (_ =? _)%nat; [done|]. cbn [forallb]. rewrite andb_true_r, existsb_dedup, Ht. done.
Qed.

Lemma keywordText_ascii s : Forall is_byte s → snd (keywordText s) = true → fst (keywordText s) = s ∧ fold_text s = ToLower s.
Proof.
  intros Hs. unfold keywordText. destruct (existsb _ s) eqn:Ex; [done|]. intros _. split; [done|]. symmetry. apply law_lower_ascii.
  rewrite Forall_forall in *. intros b Hb. specialize (Hs b Hb). unfold is_byte in Hs. split; [lia|]. apply Z.nle_gt. intros Hge.
  assert (existsb (λ b, RuneSelf <=? b) s = true) as ?; [|congruence]. apply existsb_exists. exists b. split; [by apply list_elem_of_In|by apply Z.leb_le].
Qed.

Lemma keywordText_other s : snd (keywordText s) = false → fst (keywordText s) = ToLower s.
Proof. unfold keywordText. by destruct (existsb _ s). Qed.

Lemma nth_and_words red : ∀ d k x j, length d = length k → length d = length x →
  nth j (and_words red d k x) 0 = Z.land (nth j d 0) (if red then Z.lor (nth j k 0) (nth j x 0) else nth j k 0).
Proof.
  induction d as [|a d IH]; intros [|b k] [|c x] [|j] H1 H2; cbn in *; try done; try lia. apply IH; lia.
Qed.

Lemma has_and_words red d k x i : length d = length k → length d = length x →
  has (and_words red d k x) i = has d i && (has k i || red && has x i).
Proof.
  intros H1 H2. unfold has. rewrite nth_and_words by done. rewrite Z.land_spec. f_equal. destruct red; [by rewrite Z.lor_spec|]. cbn. by rewrite orb_false_r.
Qed.

Lemma candidates_length p s n : length (candidates p s n) = n.
Proof.
  unfold candidates. assert (Hl : ∀ (f : nat → bool) (g : nat → bool) l ws, length (foldl (λ dst ri, if f ri then dst else if g ri then set_bit dst ri else dst) ws l) = length ws).
  { intros f g l. induction l as [|j l IH]; intros ws; cbn [foldl]; [done|]. rewrite IH. destruct (f j); [done|]. destruct (g j); [apply set_bit_length|done]. }
  rewrite Hl. apply length_replicate.
Qed.

(** Which rules pass: the gate, or trust, and the pattern's screen. *)
Definition gate (r : Redactor) (s : text) (red : bool) (ru : Rule) : bool :=
  red && Distinctive (spec ru) || keywordGate (kws ru) (fst (keywordText s)).

Lemma screen_has r s red i : well_built r → noPrefilter r = false → Forall is_byte s →
  has (screen r s ((length (rules r) + 63) / 64) red) i
  = match rules r !! i with Some ru => gate r s red ru && admits (psc ru) s | None => false end.
Proof.
  intros Hr Hno Hs. unfold screen, gate. destruct (keywordText s) as [lower ascii] eqn:Ekt. rewrite Hno. cbn [fst].
  assert (Hlook : ∀ (f : Rule → ruleScreen) t, match map f (rules r) !! i with Some sc => admits sc t | None => false end
    = match rules r !! i with Some ru => admits (f ru) t | None => false end) by (intros f t; rewrite list_lookup_fmap; by destruct (rules r !! i)).
  destruct ascii.
  - destruct (keywordText_ascii s Hs) as [El Ef]; [by rewrite Ekt|]. rewrite Ekt in El. cbn in El. subst lower.
    destruct red; (erewrite candidates_admits; [|apply Hr|done|by rewrite length_map]); rewrite Hlook; (destruct (rules r !! i) as [ru|]; [|done]).
    + destruct (Distinctive (spec ru)); cbn [orb andb]; [done|]. rewrite admits_keywords, (admits_gate _ s s Ef). by rewrite andb_comm.
    + rewrite admits_keywords, (admits_gate _ s s Ef). by rewrite andb_comm.
  - pose proof (keywordText_other s) as Ho. rewrite Ekt in Ho. specialize (Ho eq_refl). cbn in Ho. subst lower.
    rewrite has_and_words by (by rewrite ?candidates_length, ?(wb_distinct_len _ Hr)).
    erewrite !candidates_admits; [|apply Hr|by apply law_lower_bytes|by rewrite length_map|apply Hr|done|by rewrite length_map].
    rewrite !Hlook, (wb_distinct _ Hr). destruct (rules r !! i) as [ru|]; [|done].
    rewrite (admits_gate (kws ru) (ToLower s) (ToLower s)) by (by rewrite law_lower_fold, law_lower_idem).
    rewrite andb_comm. f_equal. by rewrite orb_comm.
Qed.

Lemma unscreened_has r s red i :
  has (screen (unscreened r) s ((length (rules r) + 63) / 64) red) i = match rules r !! i with Some ru => gate r s red ru | None => false end.
Proof.
  unfold screen, gate. destruct (keywordText s) as [lower ascii] eqn:Ekt. cbn [noPrefilter unscreened fst rules].
  pose (f j := match rules r !! j with Some ru => red && Distinctive (spec ru) || keywordGate (kws ru) lower | None => false end).
  assert (Ef : ∀ l ws, foldl (λ dst i, match rules r !! i with
                | Some ru => if red && Distinctive (spec ru) || keywordGate (Keywords (spec ru)) lower then set_bit dst i else dst
                | None => dst end) ws l = foldl (λ ws j, if f j then set_bit ws j else ws) ws l).
  { induction l as [|j l IH]; intros ws; cbn [foldl]; [done|]. rewrite IH. f_equal. unfold f. by destruct (rules r !! j). }
  rewrite Ef, has_filtered, has_no_bits, orb_false_r.
  2:{ intros j Hj%elem_of_seq. unfold no_bits. rewrite length_replicate. apply words_enough. lia. }
  unfold f. destruct (rules r !! i) as [ru|] eqn:Ei; [|by rewrite andb_false_r].
  rewrite bool_decide_eq_true_2; [done|]. apply elem_of_seq. apply lookup_lt_Some in Ei. lia.
Qed.

(** A rule whose screen rejects the text finds nothing in it. *)
Lemma rejected_finds_nothing ru s : admits (psc ru) s = false → FindAllSubmatchIndex (rule_re ru) s = [].
Proof.
  intros Ha. destruct (FindAllSubmatchIndex (rule_re ru) s) as [|loc locs] eqn:Ef; [done|]. exfalso.
  assert (Hin : loc ∈ FindAllSubmatchIndex (rule_re ru) s) by (rewrite Ef; set_solver).
  unfold psc, pattern_screen in Ha. destruct (Parse (rule_re ru)) as [re|] eqn:Ep; cbn [fmap option_fmap option_map] in Ha.
  - pose proof (law_match _ re s loc Ep Hin) as Hm. pose proof (law_range _ s loc Hin) as [Hr1 Hr2]. apply screen_admits in Hm.
    rewrite <-drop_sub in Hm by lia. unfold sub in Hm. rewrite Z.sub_0_r, drop_0, take_drop in Hm. congruence.
  - unfold admits in Ha. cbn [screenFor sc_minLen sc_clauses forallb] in Ha. rewrite andb_true_r in Ha. apply Z.leb_gt in Ha. lia.
Qed.

Lemma judge_unscreened r ru i s mode locs : ∀ hits act, judge (unscreened r) ru i s mode locs hits act = judge r ru i s mode locs hits act.
Proof.
  induction locs as [|loc locs IH]; intros hits act; cbn [judge]; [done|].
  change (judge_one (unscreened r) ru s mode loc) with (judge_one r ru s mode loc). by destruct (judge_one r ru s mode loc); rewrite IH.
Qed.

Lemma collect_unscreened r s mode act : well_built r → Forall is_byte s → collect r s mode act = collect (unscreened r) s mode act.
Proof.
  intros Hr Hs. destruct (noPrefilter r) eqn:Hno; [by destruct r; cbn in Hno; subst|]. unfold collect. cbn [rules unscreened].
  generalize ([] : list hit, act) as st. generalize (seq 0 (length (rules r))) as l. induction l as [|i l IH]; intros st; cbn [foldl]; [done|].
  assert (Estep : (if has (rule_candidates r s mode) i then ruleHits r s i mode st else st)
    = (if has (rule_candidates (unscreened r) s mode) i then ruleHits (unscreened r) s i mode st else st)); [|rewrite Estep; apply IH].
  unfold rule_candidates. rewrite screen_has by done. cbn [rules unscreened]. rewrite unscreened_has. unfold ruleHits. cbn [rules unscreened].
  destruct (rules r !! i) as [ru|]; [|done]. destruct (gate r s _ ru); [|done]. cbn [andb].
  destruct (admits (psc ru) s) eqn:Ea; [by rewrite judge_unscreened|].
  rewrite (rejected_finds_nothing ru s Ea). by destruct st.
Qed.

End Screen.

(** ** What redaction records and lets through (core/redact)

    Every finding an allowlist exempts is counted and reported to each
    [OnAllowed] observer, every replaced region is counted under its rule
    ([Apply_activity]); and redaction fails closed against detection: what
    [Scan] reports lies in a region [Apply] replaces ([scan_covered]), as long
    as no allowlist regex prefers an empty match. *)

Section Audit.
Context {E : Engine} {L : EngineLaws E} (clock : Z → Z).

(** ** Exempted findings *)

Definition note_allowed (r : Redactor) (act : activity) (m : RMatch) : activity :=
  MkActivity (matches act) (uint64 (allowedCount act + 1)) (byRule act) (lastAt act) (notices act ++ map (λ o, OnAllowedCalled o m) (allowedObs r)).

Definition exempted_of (ru : Rule) (s : text) (v : verdict) : option RMatch :=
  if v is Exempted a b then Some (MkMatch (ID (spec ru)) (sub s a b) [] a b) else None.

Definition rule_exempted (r : Redactor) (s : text) (i : nat) : list RMatch :=
  match rules r !! i with
  | Some ru => omap (λ loc, exempted_of ru s (judge_one r ru s redactRecord loc)) (FindAllSubmatchIndex (rule_re ru) s)
  | None => []
  end.

(** The findings of an input that were exempted, in rule order, then by position. *)
Definition exempted (r : Redactor) (s : text) : list RMatch :=
  flat_map (λ i, if has (rule_candidates r s redactRecord) i then rule_exempted r s i else []) (seq 0 (length (rules r))).

Lemma judge_snd r ru i s locs : ∀ hits act,
  snd (judge r ru i s redactRecord locs hits act)
  = foldl (note_allowed r) act (omap (λ loc, exempted_of ru s (judge_one r ru s redactRecord loc)) locs).
Proof.
  induction locs as [|loc locs IH]; intros hits act; cbn [judge omap list_omap]; [done|].
  destruct (judge_one r ru s redactRecord loc); cbn [exempted_of foldl]; by rewrite IH.
Qed.

Lemma collect_snd r s act : snd (collect r s redactRecord act) = foldl (note_allowed r) act (exempted r s).
Proof.
  unfold collect, exempted. generalize (seq 0 (length (rules r))) as l.
  assert (Gen : ∀ l st, snd (foldl (λ st i, if has (rule_candidates r s redactRecord) i then ruleHits r s i redactRecord st else st) st l)
    = foldl (note_allowed r) (snd st) (flat_map (λ i, if has (rule_candidates r s redactRecord) i then rule_exempted r s i else []) l)); [|intros l; by rewrite Gen].
  induction l as [|i l IH]; intros st; cbn [foldl flat_map]; [done|]. rewrite IH, foldl_app. f_equal. destruct (has _ i); [|done].
  unfold ruleHits, rule_exempted. destruct (rules r !! i); [apply judge_snd|done].
Qed.

Definition in_range (act : activity) : Prop :=
  0 ≤ matches act < 2 ^ 64 ∧ 0 ≤ allowedCount act < 2 ^ 64 ∧ ∀ id n, byRule act !! id = Some n → 0 ≤ n < 2 ^ 64.

Lemma uint64_add_1 x n : uint64 (uint64 (x + 1) + n) = uint64 (x + (1 + n)).
Proof. unfold uint64. rewrite Zplus_mod_idemp_l. f_equal. lia. Qed.

Lemma uint64_add_0 x : 0 ≤ x < 2 ^ 64 → uint64 (x + 0) = x.
Proof. intros. rewrite Z.add_0_r. by apply uint64_small. Qed.

Lemma note_allowed_fold r ms : ∀ act, in_range act →
  let act' := foldl (note_allowed r) act ms in
  matches act' = matches act ∧ byRule act' = byRule act ∧ lastAt act' = lastAt act ∧ in_range act' ∧
  allowedCount act' = uint64 (allowedCount act + Z.of_nat (length ms)) ∧
  notices act' = notices act ++ flat_map (λ m, map (λ o, OnAllowedCalled o m) (allowedObs r)) ms.
Proof.
  induction ms as [|m ms IH]; intros act Ha; cbn zeta in *; cbn [foldl length flat_map].
  - rewrite uint64_add_0, app_nil_r by apply Ha. done.
  - assert (Hr : in_range (note_allowed r act m)) by (destruct Ha as (? & ? & ?); split; [done|]; split; [apply uint64_range|done]).
    destruct (IH _ Hr) as (H1 & H2 & H3 & H4 & H5 & H6). rewrite H1, H2, H3, H5, H6. cbn. rewrite uint64_add_1, <-app_assoc.
    split; [done|]. split; [done|]. split; [done|]. split; [done|]. split; [f_equal; lia|done].
Qed.

(** ** Recorded matches *)

Definition rule_id (r : Redactor) (g : hit) : text := ID (spec (nth (rule g) (rules r) zero_rule)).

Definition count_id (r : Redactor) (id : text) (gs : list hit) : Z := Z.of_nat (length (filter (λ g, rule_id r g = id) gs)).

Lemma count_id_cons r id g gs : count_id r id (g :: gs) = (if decide (rule_id r g = id) then 1 else 0) + count_id r id gs.
Proof. unfold count_id. rewrite filter_cons. destruct (decide _); cbn [length]; lia. Qed.

Lemma format_counts r ru m act : let act' := snd (format r ru m act) in
  matches act' = matches act ∧ byRule act' = byRule act ∧ allowedCount act' = allowedCount act.
Proof. unfold format, safeCustom. by destruct (strategy r); try done; destruct (custom r) as [fn|]; [destruct (fn m)|]. Qed.

Lemma render_counts r s gs : ∀ last act, in_range act →
  let act' := snd (render clock r s last gs act) in
  matches act' = uint64 (matches act + Z.of_nat (length gs)) ∧ allowedCount act' = allowedCount act ∧
  ∀ id, default 0 (byRule act' !! id) = uint64 (default 0 (byRule act !! id) + count_id r id gs).
Proof.
  induction gs as [|g gs IH]; intros last act Ha; cbn zeta in *; cbn [render length].
  - rewrite uint64_add_0 by apply Ha. split; [done|]. split; [done|]. intros id. unfold count_id. cbn. rewrite uint64_add_0; [done|].
    destruct (byRule act !! id) eqn:Eb; cbn; [by eapply Ha|lia].
  - fold (region_match r s g). fold (rule_id r g). destruct (format r _ (region_match r s g) act) as [rep act1] eqn:Ef.
    destruct (format_counts r (nth (rule g) (rules r) zero_rule) (region_match r s g) act) as (F1 & F2 & F3). rewrite Ef in F1, F2, F3. cbn in F1, F2, F3.
    set (m := MkMatch _ _ rep _ _). set (act2 := recordMatch clock (rule_id r g) (fireObservers r m act1)).
    assert (E1 : matches act2 = uint64 (matches act + 1)) by (cbn; by rewrite F1).
    assert (E2 : allowedCount act2 = allowedCount act) by (cbn; by rewrite F3).
    assert (E3 : byRule act2 = <[rule_id r g := uint64 (default 0 (byRule act !! rule_id r g) + 1)]> (byRule act)) by (cbn; by rewrite F2).
    assert (Hr : in_range act2).
    { destruct Ha as (A1 & A2 & A3). split; [rewrite E1; apply uint64_range|]. split; [by rewrite E2|]. intros id n. rewrite E3.
      intros [[_ <-]|[_ ?]]%lookup_insert_Some; [apply uint64_range|by eapply A3]. }
    destruct (IH (end_ g) act2 Hr) as (R1 & R2 & R3). destruct (render clock r s (end_ g) gs act2) as [out act3]. cbn [snd] in *.
    rewrite R1, R2, E1, E2, uint64_add_1. split; [f_equal; lia|]. split; [done|]. intros id. rewrite R3, E3, count_id_cons.
    destruct (decide (rule_id r g = id)) as [<-|Hne].
    + rewrite lookup_insert_eq. apply uint64_add_1.
    + by rewrite lookup_insert_ne.
Qed.

Lemma exempted_nil r s : rules r = [] ∨ s = [] → exempted r s = [].
Proof.
  unfold exempted. intros [-> | ->]; [done|]. induction (seq 0 (length (rules r))) as [|i l IH]; cbn [flat_map]; [done|]. rewrite IH, app_nil_r.
  destruct (has _ i); [|done]. unfold rule_exempted. destruct (rules r !! i) as [ru|]; [|done].
  destruct (omap _ _) as [|m ms] eqn:Eo; [done|]. exfalso. assert (Hm : m ∈ m :: ms) by set_solver. rewrite <-Eo in Hm.
  apply list_elem_of_omap in Hm as (loc & Hloc & Hv). destruct (judge_one r ru [] redactRecord loc) as [|a b|] eqn:Ej; try done.
  pose proof (judge_one_range r ru [] redactRecord loc a b (law_range _ _ _ Hloc) (or_intror Ej)) as H. cbn in H. lia.
Qed.

(** The regions and exemptions of one [Apply], in the statistics and to the
    observers. *)
Lemma apply_counts r s act : in_range act →
  let act' := snd (Apply clock r s act) in
  let gs := merge (redaction_hits r s) in
  matches act' = uint64 (matches act + Z.of_nat (length gs)) ∧
  allowedCount act' = uint64 (allowedCount act + Z.of_nat (length (exempted r s))) ∧
  ∀ id, default 0 (byRule act' !! id) = uint64 (default 0 (byRule act !! id) + count_id r id gs).
Proof.
  intros Ha. cbn zeta. unfold Apply. assert (Hd : ∀ id, uint64 (default 0 (byRule act !! id) + count_id r id []) = default 0 (byRule act !! id)).
  { intros id. unfold count_id. cbn. rewrite uint64_add_0; [done|]. destruct (byRule act !! id) eqn:Eb; cbn; [by eapply Ha|lia]. }
  destruct (_ || _) eqn:Eg.
  { assert (Hc : rules r = [] ∨ s = []) by (apply orb_true_iff in Eg as [Eg%Nat.eqb_eq|Eg%bool_decide_eq_true]; [left; by apply nil_length_inv|by right]).
    rewrite no_hits, exempted_nil by done. cbn -[uint64 Z.add]. rewrite !uint64_add_0 by apply Ha. done. }
  pose proof (regionsOf_fst r s true act) as H1. unfold regionsOf in *. destruct (collect r s redactRecord act) as [hits act1] eqn:Ec. cbn [fst] in H1.
  pose proof (collect_snd r s act) as H2. rewrite Ec in H2. cbn [snd] in H2. subst act1. rewrite H1.
  destruct (note_allowed_fold r (exempted r s) act Ha) as (N1 & N2 & N3 & N4 & N5 & N6).
  destruct (Nat.eqb_spec (length (merge (redaction_hits r s))) 0) as [E0|_].
  - cbn [snd]. apply nil_length_inv in E0. rewrite E0, N1, N2, N5. split; [by rewrite uint64_add_0 by apply Ha|]. done.
  - destruct (render_counts r s (merge (redaction_hits r s)) 0 _ N4) as (R1 & R2 & R3). rewrite R1, R2, N1, N5. split; [done|]. split; [done|].
    intros id. by rewrite R3, N2.
Qed.

(** The calls of [OnAllowed] observers among the notices. *)
Definition allowed_call (n : notice) : bool := if n is OnAllowedCalled _ _ then true else false.
Definition allowed_calls (act : activity) : list notice := List.filter allowed_call (notices act).

Lemma filter_none {A} (f : A → bool) l : (∀ x, In x l → f x = false) → List.filter f l = [].
Proof. induction l as [|x l IH]; intros H; cbn; [done|]. rewrite (H x) by (by left). apply IH. intros y Hy. apply H. by right. Qed.

Lemma filter_all {A} (f : A → bool) l : (∀ x, In x l → f x = true) → List.filter f l = l.
Proof. induction l as [|x l IH]; intros H; cbn; [done|]. rewrite (H x) by (by left). f_equal. apply IH. intros y Hy. apply H. by right. Qed.

Lemma render_allowed_calls r s gs : ∀ last act, allowed_calls (snd (render clock r s last gs act)) = allowed_calls act.
Proof.
  induction gs as [|g gs IH]; intros last act; cbn [render]; [done|]. destruct (format r _ _ act) as [rep act1] eqn:Ef.
  assert (H1 : allowed_calls act1 = allowed_calls act).
  { unfold format, safeCustom in Ef. repeat case_match; simplify_eq; try done. unfold allowed_calls. cbn. rewrite List.filter_app. cbn. apply app_nil_r. }
  set (act2 := recordMatch _ _ _). specialize (IH (end_ g) act2). destruct (render clock r s (end_ g) gs act2) as [out act3]. cbn [snd] in *.
  rewrite IH, <-H1. unfold act2, allowed_calls. cbn. rewrite List.filter_app, (filter_none _ (map _ _)); [apply app_nil_r|].
  intros x (o & <- & _)%in_map_iff. done.
Qed.

Lemma apply_allowed_calls r s act : in_range act →
  allowed_calls (snd (Apply clock r s act)) = allowed_calls act ++ flat_map (λ m, map (λ o, OnAllowedCalled o m) (allowedObs r)) (exempted r s).
Proof.
  intros Ha. unfold Apply. destruct (_ || _) eqn:Eg.
  { rewrite exempted_nil; [by rewrite app_nil_r|]. apply orb_true_iff in Eg as [Eg%Nat.eqb_eq|Eg%bool_decide_eq_true]; [left; by apply nil_length_inv|by right]. }
  unfold regionsOf. destruct (collect r s redactRecord act) as [hits act1] eqn:Ec. pose proof (collect_snd r s act) as H2. rewrite Ec in H2. cbn [snd] in H2. subst act1.
  destruct (note_allowed_fold r (exempted r s) act Ha) as (_ & _ & _ & _ & _ & N6).
  assert (H3 : allowed_calls (foldl (note_allowed r) act (exempted r s)) = allowed_calls act ++ flat_map (λ m, map (λ o, OnAllowedCalled o m) (allowedObs r)) (exempted r s)).
  { unfold allowed_calls. rewrite N6, List.filter_app. f_equal. apply filter_all. intros x (m & _ & (o & <- & _)%in_map_iff)%in_flat_map. done. }
  destruct (length (merge hits) =? 0)%nat; [exact H3|]. by rewrite render_allowed_calls.
Qed.

(** ** Redaction fails closed *)

(** No allowlist regex finds an empty match first in a text it matches whole. *)
Definition prefers_nonempty (a : allowlist) : Prop :=
  ∀ t, t ≠ [] → existsb (λ p, MatchString p t) (full a) = true →
       existsb (λ p, match FindStringIndex p t with Some (a, b) => a <? b | None => false end) (regexes a) = true.

Lemma allows_detects a f : prefers_nonempty a → allows a f false = true → allows a f true = true.
Proof.
  intros Hp. unfold allows. set (tgt := if teq _ "match" then _ else _). cbn [andb].
  assert (Hhit : (if bool_decide (tgt = []) then false else existsb (λ p, MatchString p tgt) (full a)) = true →
    (if bool_decide (tgt = []) then false else existsb (λ p, match FindStringIndex p tgt with Some (a, b) => a <? b | None => false end) (regexes a)) = true).
  { case_bool_decide; [done|]. by apply Hp. }
  destruct (if bool_decide (tgt = []) then false else existsb (λ p, MatchString p tgt) (full a)) eqn:Ef.
  - rewrite Hhit by done. cbn [orb negb]. destruct (al_and a); cbn [negb]; [|done]. destruct (contextual a); [done|]. by destruct (0 <? length (regexes a))%nat, (0 <? length (stopwords a))%nat.
  - cbn [orb negb]. destruct (al_and a); cbn [negb]; [|done]. destruct (contextual a); [done|]. by destruct (0 <? length (regexes a))%nat, (0 <? length (stopwords a))%nat.
Qed.

Definition strict_allowlists (r : Redactor) : Prop :=
  Forall prefers_nonempty (allowlists r) ∧ Forall (λ ru, Forall prefers_nonempty (rule_allowlists ru)) (rules r).

Lemma exempt_detects r ru s sec ms me : strict_allowlists r → ru ∈ rules r → exempt r ru s sec ms me false = true → exempt r ru s sec ms me true = true.
Proof.
  intros [H1 H2] Hru. rewrite Forall_forall in H2. specialize (H2 ru Hru). unfold exempt. destruct (existsb _ (exactAllowlist r ++ _)); [done|].
  destruct (_ && _); [done|]. rewrite !existsb_exists. intros (a & Ha & Hal). exists a. split; [done|]. apply allows_detects; [|done].
  assert (Hall : Forall prefers_nonempty (allowlists r ++ rule_allowlists ru)) by (by apply Forall_app_2). rewrite Forall_forall in Hall. by apply Hall, list_elem_of_In.
Qed.

Lemma judge_one_detects r ru s loc a b : strict_allowlists r → ru ∈ rules r → judge_one r ru s detect loc = Hit a b → judge_one r ru s redactQuiet loc = Hit a b.
Proof.
  intros Hs Hru. unfold judge_one. destruct (secret_span _ _ _ _) as [ss se]. destruct (se <=? ss); [done|]. cbn [negb andb].
  destruct (negb _ && f_leb _ _) eqn:Ee; [done|].
  destruct (exempt r ru s (sub s ss se) _ _ true) eqn:Ex; [done|]. intros [= <- <-].
  rewrite <-andb_assoc, Ee, andb_false_r. destruct (exempt r ru s (sub s ss se) _ _ false) eqn:Ex'; [|done].
  by rewrite exempt_detects in Ex.
Qed.

Lemma candidates_detect r s i : well_built r → Forall is_byte s →
  has (rule_candidates r s detect) i = true → has (rule_candidates r s redactQuiet) i = true.
Proof.
  intros Hr Hs. unfold rule_candidates. destruct (noPrefilter r) eqn:Hno.
  - assert (r = unscreened r) as -> by (destruct r; cbn in *; by subst). cbn [rules unscreened]. rewrite !unscreened_has.
    destruct (rules r !! i); [|done]. unfold gate. cbn [andb orb]. intros ->. by rewrite orb_true_r.
  - rewrite !screen_has by done. destruct (rules r !! i); [|done]. unfold gate. cbn [andb orb]. intros [-> ->]%andb_true_iff. by rewrite orb_true_r.
Qed.

Lemma detect_hits r s h : well_built r → strict_allowlists r → Forall is_byte s → h ∈ fst (collect r s detect no_activity) → h ∈ redaction_hits r s.
Proof.
  intros Hr Hs Hb. unfold redaction_hits. rewrite !collect_fst. intros (i & Hi & Hh)%list_elem_of_In%in_flat_map. rewrite <-list_elem_of_In in Hh.
  apply list_elem_of_In, in_flat_map. exists i. split; [done|]. rewrite <-list_elem_of_In. destruct (has (rule_candidates r s detect) i) eqn:Ec; [|set_solver].
  rewrite candidates_detect by done. unfold rule_hits in *. destruct (rules r !! i) as [ru|] eqn:Eru; [|done].
  apply list_elem_of_omap in Hh as (loc & Hloc & Hv). apply list_elem_of_omap. exists loc. split; [done|].
  destruct (judge_one r ru s detect loc) as [| |a b] eqn:Ej; try done. rewrite (judge_one_detects r ru s loc a b); [done|done| |done]. by eapply list_elem_of_lookup_2.
Qed.

End Audit.

(** Each hit lies in one region. *)
Lemma merge_loop_contains l : ∀ last h, Forall nonempty (last :: l) → StronglySorted starts_le (last :: l) → h ∈ last :: l →
  ∃ g, g ∈ merge_loop last l ∧ start g ≤ start h ∧ end_ h ≤ end_ g.
Proof.
  assert (Hfirst : ∀ l last, ∃ g, g ∈ merge_loop last l ∧ start g = start last ∧ end_ last ≤ end_ g).
  { induction l0 as [|k l0 IH]; intros last; cbn [merge_loop]; [exists last; split; [set_solver|lia]|]. destruct (_ <=? _).
    - destruct (IH (MkHit (start last) (Z.max (end_ last) (end_ k)) (rule last))) as (g & Hg & H1 & H2). exists g. cbn in *. split; [done|]. lia.
    - exists last. split; [set_solver|lia]. }
  induction l as [|k l IH]; intros last h Hn Hs Hh; cbn [merge_loop].
  { apply list_elem_of_singleton in Hh as ->. exists last. split; [set_solver|lia]. }
  apply Forall_cons in Hn as [Hn Hl]. apply Forall_cons in Hl as Hkl. destruct Hkl as [Hk Hll]. apply StronglySorted_inv in Hs as [Hs Ha]. apply Forall_cons in Ha as [Ha Har].
  pose proof (StronglySorted_inv Hs) as [Hsl Hkr]. unfold nonempty, starts_le in *. destruct (Z.leb_spec (start k) (end_ last)).
  - set (last' := MkHit _ _ _). destruct (decide (h = last ∨ h = k)) as [Hor|Hno].
    + destruct (Hfirst l last') as (g & Hg & H1 & H2). exists g. cbn in *. split; [done|]. destruct Hor as [-> | ->]; lia.
    + apply (IH last' h); [constructor; [cbn; lia|done]|constructor; [done|by apply Har]|]. apply elem_of_cons in Hh as [->|[->|Hh]%elem_of_cons]; [tauto|tauto|]. set_solver.
  - apply elem_of_cons in Hh as [->|Hh]; [exists last; split; [set_solver|lia]|]. destruct (IH k h Hl Hs Hh) as (g & Hg & ?). exists g. split; [set_solver|done].
Qed.

Lemma merge_contains hits h : Forall nonempty hits → h ∈ hits → ∃ g, g ∈ merge hits ∧ start g ≤ start h ∧ end_ h ≤ end_ g.
Proof.
  intros Hn Hh. pose proof (merge_sorted hits) as Hs%sorted_starts. unfold merge. apply elem_of_merge_sort in Hh.
  assert (Hall : Forall nonempty (merge_sort hit_le hits)) by (rewrite Forall_forall in Hn; apply Forall_forall; intros k Hk; apply Hn; by rewrite <-elem_of_merge_sort).
  destruct (merge_sort hit_le hits) as [|k l]; [set_solver|]. by apply merge_loop_contains.
Qed.
