(* ===== verification/RedactPolicy.v ===== *)
(** * Policies and rule corpora (redact/policy.go, loader.go)

    A [Policy] is a redactor's configuration as data; [NewFromPolicy] builds a
    redactor from one and [PolicyOf] reads it back.  The loaders turn a decoded
    gitleaks or Presidio file into rule specifications; decoding TOML and
    reading files are parameters.  [configured] are the redactors the
    operations of the package produce. *)

From S2P Require Import Prelude Regexp Prefilter PrefilterScan Redact RedactLaws.

Local Open Scope Z_scope.

Section Policy.
Context {E : Engine} {L : EngineLaws E}.

(** ** policy.go *)

Record Policy := MkPolicy { Version : text; PAllowlists : list AllowlistSpec; PAllowlistExact : list text; PRules : list RuleSpec }.

Definition PolicyVersion : text := txt "v1".

(** [compileSpecs]; [lenient] skips what does not compile, a panic still ends it. *)
Fixpoint compileSpecs (specs : list RuleSpec) (lenient : bool) : res rule_error (list Rule) :=
  match specs with
  | [] => Ok []
  | s :: specs =>
      match CompileRule s with
      | Err Panicked => Err Panicked
      | Err e => if lenient then compileSpecs specs lenient else Err e
      | Ok ru => match compileSpecs specs lenient with Err e => Err e | Ok l => Ok (ru :: l) end
      end
  end.

Definition NewFromPolicy (p : Policy) : res rule_error Redactor :=
  if negb (bool_decide (Version p = [])) && negb (bool_decide (Version p = PolicyVersion)) then Err ErrVersion else
  match compileSpecs (PRules p) false with
  | Err e => Err e
  | Ok rs =>
      match AddAllowlists New (PAllowlists p) with
      | Err e => Err e
      | Ok r => match AddRules (AllowExact r (PAllowlistExact p)) rs with Some r => Ok r | None => Err Panicked end
      end
  end.

Definition PolicyOf (r : Redactor) : Policy := MkPolicy PolicyVersion (allowlistSpecs r) (exactAllowlist r) (map spec (rules r)).

(** ** loader.go *)

Record gitleaksAllowlist := MkGitleaksAllowlist { ga_spec : AllowlistSpec; TargetRules : list text }.

Record gitleaksRule := MkGitleaksRule {
  g_ID : text;
  g_Description : text;
  g_Regex : text;
  g_SecretGroup : Z;
  g_Entropy : F;
  g_Keywords : list text;
  g_Tags : list text;
  g_Path : text;
  g_Allowlist : option gitleaksAllowlist;
  g_Allowlists : list gitleaksAllowlist
}.

Record gitleaksFile := MkGitleaksFile { f_Allowlist : option gitleaksAllowlist; f_Allowlists : list gitleaksAllowlist; f_Rules : list gitleaksRule }.

Record presidioRule := MkPresidioRule { p_ID : text; p_Description : text; p_Pattern : text; p_Replacement : text; p_AllowlistExact : list text }.

(** Where an allowlist's regexes live: several rules a global allowlist targets
    share its slice, and patches write through it. *)
Inductive place := Global (k : nat) | Own (rule k : nat).

#[global] Instance place_eq_dec : EqDecision place.
Proof. solve_decision. Defined.

Notation placed := (place * AllowlistSpec)%type.

Definition number {A} (l : list A) : list (nat * A) := zip (seq 0 (length l)) l.

(** The allowlists without targets, and those a rule is the target of (once for
    each time it is named). *)
Definition untargeted (gs : list (nat * gitleaksAllowlist)) : list placed :=
  flat_map (λ '(k, a), if (length (TargetRules a) =? 0)%nat then [(Global k, ga_spec a)] else []) gs.

Definition targeted (gs : list (nat * gitleaksAllowlist)) (id : text) : list placed :=
  flat_map (λ '(k, a), flat_map (λ t, if bool_decide (t = id) then [(Global k, ga_spec a)] else []) (TargetRules a)) gs.

Definition opt_list {A} (o : option A) : list A := match o with Some x => [x] | None => [] end.

(** A rule of the file with its placed allowlists. *)
Definition gitleaks_spec (globals : list (nat * gitleaksAllowlist)) (igr : nat * gitleaksRule) : list (RuleSpec * list placed) :=
  let '(i, gr) := igr in
  if bool_decide (g_ID gr = []) || bool_decide (g_Regex gr = []) then [] else
  match Compile (g_Regex gr) with
  | None => []
  | Some n =>
      let group := if (g_SecretGroup gr =? 0) && (n =? 1)%nat then 1 else g_SecretGroup gr in
      [(MkRuleSpec (g_ID gr) (g_Description gr) (g_Regex gr) [] group (g_Entropy gr) (g_Keywords gr) (g_Tags gr) (g_Path gr) [] []
          (isDistinctive (Parse (g_Regex gr))),
        map (λ '(k, a), (Own i k, ga_spec a)) (number (opt_list (g_Allowlist gr) ++ g_Allowlists gr)) ++ targeted globals (g_ID gr))]
  end.

(** [parseGitleaks] on the decoded file. *)
Definition parseGitleaks (f : gitleaksFile) : list placed * list (RuleSpec * list placed) :=
  let globals := number (opt_list (f_Allowlist f) ++ f_Allowlists f) in
  (untargeted globals, flat_map (gitleaks_spec globals) (number (f_Rules f))).

Record corpusPatch := MkPatch { cp_rule : text; cp_old : text; cp_new : text }.

(** [strings.Replace(s, old, new, 1)]. *)
Fixpoint replace_first (s old new : text) : text :=
  if prefixb old s then new ++ drop (length old) s
  else match s with [] => [] | c :: s => c :: replace_first s old new end.

Definition patch_list (p : corpusPatch) (a : AllowlistSpec) : AllowlistSpec :=
  MkAllowlistSpec (al_Description a) (Condition a) (RegexTarget a)
    (map (λ re, if Contains re (cp_old p) then replace_first re (cp_old p) (cp_new p) else re) (Regexes a)) (StopWords a) (Paths a) (Commits a).

(** Writing through one place reaches every list that shares it. *)
Definition patch_at (p : corpusPatch) (pl : place) (als : list placed) : list placed :=
  map (λ '(q, a), if bool_decide (q = pl) then (q, patch_list p a) else (q, a)) als.

Definition patch_hits (p : corpusPatch) (pl : place) (als : list placed) : bool :=
  existsb (λ '(q, a), bool_decide (q = pl) && existsb (λ re, Contains re (cp_old p)) (Regexes a)) als.

(** The lists a patch names: the global ones, or those of the last rule with its id. *)
Definition patch_targets (global : list placed) (rs : list (RuleSpec * list placed)) (p : corpusPatch) : list place :=
  if bool_decide (cp_rule p = []) then map fst global
  else match last (List.filter (λ r, bool_decide (ID (fst r) = cp_rule p)) rs) with Some r => map fst (snd r) | None => [] end.

Fixpoint patch_places (p : corpusPatch) (pls : list place) (global : list placed) (rs : list (RuleSpec * list placed)) (hit : bool) :
    list placed * list (RuleSpec * list placed) * bool :=
  match pls with
  | [] => (global, rs, hit)
  | pl :: pls =>
      patch_places p pls (patch_at p pl global) (map (λ '(s, als), (s, patch_at p pl als)) rs)
        (hit || patch_hits p pl global || existsb (λ r, patch_hits p pl (snd r)) rs)
  end.

Fixpoint applyPatches (global : list placed) (rs : list (RuleSpec * list placed)) (patches : list corpusPatch) (applied : Z) :
    list placed * list (RuleSpec * list placed) * Z :=
  match patches with
  | [] => (global, rs, applied)
  | p :: patches =>
      let '(global, rs, hit) := patch_places p (patch_targets global rs p) global rs false in
      applyPatches global rs patches (if (hit : bool) then applied + 1 else applied)
  end.

Definition gitleaksPatches : list corpusPatch :=
  [MkPatch [] (txt "(?i)^true|false|null$") (txt "(?i)^(?:true|false|null)$");
   MkPatch (txt "generic-api-key") (txt "|author|X-MS-Exchange-Organization-Auth|") (txt "|X-MS-Exchange-Organization-Auth|");
   MkPatch (txt "generic-api-key") (txt "|natural|primary|pub(?:lic)?|") (txt "|natural|pub(?:lic)?|")].

Definition with_allowlists (s : RuleSpec) (als : list AllowlistSpec) : RuleSpec :=
  MkRuleSpec (ID s) (Description s) (Regex s) (Replacement s) (SecretGroup s) (Entropy s) (Keywords s) (Tags s) (Path s) als (AllowlistExact s) (Distinctive s).

(** [LoadGitleaksPolicy] on the decoded file. *)
Definition LoadGitleaksPolicy (f : gitleaksFile) : Policy :=
  let '(global, rs) := parseGitleaks f in
  let '(global, rs, _) := applyPatches global rs gitleaksPatches 0 in
  MkPolicy PolicyVersion (map snd global) [] (map (λ '(s, als), with_allowlists s (map snd als)) rs).

Definition loadPresidioSpecs (prs : list presidioRule) : list RuleSpec :=
  flat_map (λ pr, if bool_decide (p_ID pr = []) || bool_decide (p_Pattern pr = []) then [] else
    [MkRuleSpec (p_ID pr) (p_Description pr) (p_Pattern pr) (p_Replacement pr) 0 f0 [] [] [] [] (p_AllowlistExact pr) (isDistinctive (Parse (p_Pattern pr)))]) prs.

(** The loop of [buildPolicy] over the Presidio rules. *)
Fixpoint add_pii (seen : list text) (pii : list RuleSpec) : list RuleSpec :=
  match pii with
  | [] => []
  | s :: pii =>
      match Compile (Regex s) with
      | None => add_pii seen pii
      | Some _ =>
          let s := if bool_decide (ID s ∈ seen) then
                     MkRuleSpec (ID s ++ txt "-pii") (Description s) (Regex s) (if bool_decide (Replacement s = txt "<" ++ ID s ++ txt ">") then [] else Replacement s)
                       (SecretGroup s) (Entropy s) (Keywords s) (Tags s) (Path s) (Allowlists s) (AllowlistExact s) (Distinctive s)
                   else s in
          s :: add_pii (ID s :: seen) pii
      end
  end.

Definition buildPolicy (f : gitleaksFile) (prs : list presidioRule) : Policy :=
  let p := LoadGitleaksPolicy f in
  MkPolicy (Version p) (PAllowlists p) (PAllowlistExact p) (PRules p ++ add_pii (map ID (PRules p)) (loadPresidioSpecs prs)).

(** ** Configurations *)

Inductive configured : Redactor → Prop :=
| conf_new : configured New
| conf_rules r specs rs r' : configured r → Forall (λ s, Forall (Forall is_byte) (Keywords s)) specs → Forall2 (λ s ru, CompileRule s = Ok ru) specs rs →
    AddRules r rs = Some r' → configured r'
| conf_allowlists r specs r' : configured r → AddAllowlists r specs = Ok r' → configured r'
| conf_exact r vals : configured r → configured (AllowExact r vals)
| conf_replacement r k fn r' : configured r → SetReplacement r k fn = Some r' → configured r'
| conf_match r fn : configured r → configured (OnMatch r fn)
| conf_allowed r fn : configured r → configured (OnAllowed r fn).

(** What a configuration is made of: indices in step with the rules, rules that
    are what their specifications compile to, and the allowlists likewise. *)
Definition line_needed (r : Redactor) : bool := has_line (allowlists r) || existsb (λ ru, has_line (rule_allowlists ru)) (rules r).

Record consistent (r : Redactor) : Prop := {
  co_built : well_built r;
  co_rules : Forall (λ ru, CompileRule (spec ru) = Ok ru) (rules r);
  co_allow : compileAllowlists (allowlistSpecs r) = Ok (allowlists r);
  co_line : needLine r = line_needed r;
  co_screen : noPrefilter r = false
}.

(** A compiled rule compiles to itself: lower-casing and the distinctive bit
    are settled. *)
Lemma CompileRule_fixed s ru : CompileRule s = Ok ru → CompileRule (spec ru) = Ok ru.
Proof.
  unfold CompileRule at 1. intros H. destruct (bool_decide (ID s = [])) eqn:E1; [done|]. destruct (Compile (Regex s)) as [n|] eqn:E2; [|done].
  destruct (_ || _) eqn:E3; [done|]. destruct (f_ltb _ _ || _) eqn:E4; [done|]. destruct (existsb _ _) eqn:E5; [done|].
  destruct (compileAllowlists _) as [als|] eqn:E6; [|done]. injection H as <-. unfold CompileRule. cbn [spec ID Regex SecretGroup Entropy Keywords Allowlists] in *.
  rewrite E1, E2, E3, E4. assert (Ek : existsb (λ k, bool_decide (k = [])) (map ToLower (Keywords s)) = false).
  { apply not_true_is_false. intros (k & Hk & Hn)%existsb_exists. apply bool_decide_eq_true in Hn as ->. apply in_map_iff in Hk as (k & Hk & Hin).
    assert (k = []) as -> by (destruct (decide (k = [])); [done|by apply law_lower_nonempty in Hk]). assert (existsb (λ k : text, bool_decide (k = [])) (Keywords s) = true) as ?; [|congruence].
    apply existsb_exists. exists []. split; [done|by apply bool_decide_eq_true]. }
  rewrite Ek, E6. f_equal. f_equal. f_equal. rewrite map_map. apply map_ext. apply law_lower_idem.
Qed.

Lemma compileAllowlists_app l1 l2 a1 a2 : compileAllowlists l1 = Ok a1 → compileAllowlists l2 = Ok a2 → compileAllowlists (l1 ++ l2) = Ok (a1 ++ a2).
Proof.
  revert a1. induction l1 as [|s l1 IH]; intros a1; cbn; [by intros [= <-]|]. destruct (compileAllowlist s); [|done].
  destruct (compileAllowlists l1) as [l|]; [|done]. intros [= <-] H2. by rewrite (IH l).
Qed.

Lemma has_line_app a b : has_line (a ++ b) = has_line a || has_line b.
Proof. apply existsb_app. Qed.

Lemma add_rule_frame r ru r' : add_rule r ru = Some r' →
  allowlists r' = allowlists r ∧ allowlistSpecs r' = allowlistSpecs r ∧ exactAllowlist r' = exactAllowlist r ∧ noPrefilter r' = noPrefilter r ∧
  needLine r' = needLine r || has_line (rule_allowlists ru) ∧ rules r' = rules r ++ [ru].
Proof.
  unfold add_rule. intros H. apply bind_Some in H as (? & _ & H). apply bind_Some in H as (? & _ & H). apply bind_Some in H as (? & _ & H).
  apply bind_Some in H as (? & _ & H). by injection H as <-.
Qed.

Lemma AddRules_frame rs : ∀ r r', AddRules r rs = Some r' →
  allowlists r' = allowlists r ∧ allowlistSpecs r' = allowlistSpecs r ∧ exactAllowlist r' = exactAllowlist r ∧ noPrefilter r' = noPrefilter r ∧
  needLine r' = needLine r || existsb (λ ru, has_line (rule_allowlists ru)) rs ∧ rules r' = rules r ++ rs.
Proof.
  unfold AddRules. induction rs as [|ru rs IH]; intros r r'; cbn [foldl existsb]; [intros [= <-]; by rewrite orb_false_r, app_nil_r|].
  cbn [mbind option_bind]. destruct (add_rule r ru) as [r1|] eqn:E1.
  - intros (H1 & H2 & H3 & H4 & H5 & H6)%IH. apply add_rule_frame in E1 as (G1 & G2 & G3 & G4 & G5 & G6).
    rewrite H1, H2, H3, H4, H5, H6, G1, G2, G3, G4, G5, G6, <-app_assoc, orb_assoc. done.
  - assert (Hn : ∀ l, foldl (λ o ru, r ← o; add_rule r ru) None l = None) by (induction l; cbn; done). by rewrite Hn.
Qed.

Lemma line_needed_rules r rs : existsb (λ ru, has_line (rule_allowlists ru)) (rules r ++ rs)
  = existsb (λ ru, has_line (rule_allowlists ru)) (rules r) || existsb (λ ru, has_line (rule_allowlists ru)) rs.
Proof. apply existsb_app. Qed.

Lemma compiled_rules specs rs : Forall (λ s, Forall (Forall is_byte) (Keywords s)) specs → Forall2 (λ s ru, CompileRule s = Ok ru) specs rs → Forall compiled rs.
Proof.
  intros Hb H. induction H as [|s ru specs rs Hc _ IH]; [constructor|]. apply Forall_cons in Hb as [Hb Hbs]. constructor; [by eapply CompileRule_compiled|auto].
Qed.

Lemma AddRules_consistent r specs rs r' : consistent r → Forall (λ s, Forall (Forall is_byte) (Keywords s)) specs →
  Forall2 (λ s ru, CompileRule s = Ok ru) specs rs → AddRules r rs = Some r' → consistent r'.
Proof.
  intros [H1 H2 H3 H4 H5] Hb Hc Ha. destruct (AddRules_well_built rs r H1 (compiled_rules specs rs Hb Hc)) as (r1 & E1 & W & _).
  rewrite Ha in E1. injection E1 as <-. destruct (AddRules_frame rs r r' Ha) as (F1 & F2 & F3 & F4 & F5 & F6). split; [done|..].
  - rewrite F6. apply Forall_app_2; [done|]. clear -Hc L. induction Hc as [|s ru specs rs Hs _ IH]; constructor; [by eapply CompileRule_fixed|done].
  - by rewrite F1, F2.
  - unfold line_needed. rewrite F5, F1, F6, line_needed_rules, H4, orb_assoc. done.
  - by rewrite F4.
Qed.

Lemma AddAllowlists_consistent r specs r' : consistent r → AddAllowlists r specs = Ok r' → consistent r'.
Proof.
  intros [H1 H2 H3 H4 H5]. unfold AddAllowlists. destruct (compileAllowlists specs) as [als|] eqn:Ec; [|done]. intros [= <-].
  split; try done; [by destruct H1; split|by apply compileAllowlists_app|].
  cbn [needLine]. unfold line_needed. cbn [allowlists rules]. rewrite has_line_app, H4. unfold line_needed.
  by destruct (has_line (allowlists r)), (has_line als), (existsb _ _).
Qed.

Lemma configured_consistent r : configured r → consistent r.
Proof.
  induction 1 as [|r specs rs r' _ IH Hb Hc Ha|r specs r' _ IH Ha|r vals _ IH|r k fn r' _ IH Hk|r fn _ IH|r fn _ IH].
  - split; try done. apply New_well_built.
  - by eapply AddRules_consistent.
  - by eapply AddAllowlists_consistent.
  - destruct IH as [H1 H2 H3 H4 H5]. split; try done. by destruct H1; split.
  - assert (Hx : ∃ st c, r' = MkRedactor (rules r) st c (exactAllowlist r) (allowlists r) (allowlistSpecs r) (needLine r) (pf r) (kw r) (both r)
      (bothRedact r) (distinct r) (noPrefilter r) (observers r) (allowedObs r)) by (unfold SetReplacement in Hk; destruct k, fn; simplify_eq; eauto).
    destruct Hx as (st & c & ->). destruct IH as [H1 H2 H3 H4 H5]. split; try done. by destruct H1; split.
  - destruct IH as [H1 H2 H3 H4 H5]. split; try done. by destruct H1; split.
  - destruct IH as [H1 H2 H3 H4 H5]. split; try done. by destruct H1; split.
Qed.

End Policy.
