(* ===== verification/RedactSpec.v ===== *)
(** * Redaction: the guarantees

    The properties of the redactors the package's operations produce
    ([configured]), and a concrete engine for which its laws hold: patterns
    that are ASCII literals, case mapping on ASCII. *)

From S2P Require Import Prelude Regexp Prefilter PrefilterScan Redact RedactLaws RedactPolicy.

Local Open Scope Z_scope.

Section Guarantees.
Context {E : Engine} {L : EngineLaws E} (clock : Z → Z).

Lemma render_unscreened r s gs : ∀ last act, render clock (unscreened r) s last gs act = render clock r s last gs act.
Proof.
  induction gs as [|g gs IH]; intros last act; cbn [render rules unscreened]; [done|].
  change (format (unscreened r)) with (format r). destruct (format r _ _ act) as [rep act1]. by rewrite IH.
Qed.

Lemma redaction_hits_unscreened r s : well_built r → Forall is_byte s → redaction_hits (unscreened r) s = redaction_hits r s.
Proof. intros Hr Hs. unfold redaction_hits. by rewrite <-collect_unscreened. Qed.

(** C4. The literal prefilter changes nothing: for every redactor the package can
    build and every input, redacting, scanning and listing spans with the
    screens give the text, the statistics and observer calls, the findings and
    the spans of running every rule behind its keyword gate. *)
Theorem screening_changes_nothing r s act : configured r → Forall is_byte s →
  Apply clock r s act = Apply clock (unscreened r) s act ∧ Scan r s = Scan (unscreened r) s ∧ Spans r s = Spans (unscreened r) s.
Proof.
  intros Hr%configured_consistent%co_built Hs. split; [|split].
  - unfold Apply, regionsOf. cbn [rules unscreened]. rewrite <-collect_unscreened by done. destruct (_ || _); [done|].
    destruct (collect r s redactRecord act) as [hits act']. destruct (length (merge hits) =? 0)%nat; [done|]. by rewrite render_unscreened.
  - unfold Scan. cbn [rules unscreened]. by rewrite <-collect_unscreened.
  - unfold Spans, regionsOf. cbn [rules unscreened]. by rewrite <-collect_unscreened.
Qed.

(** C5. What redaction leaves of a text: the output is the input with each
    region, and nothing else, replaced in place; the kept bytes are exactly
    those no hit covers, in order; and the regions are disjoint with a gap
    between them, cover exactly the hits and carry the rule of the first hit
    that starts them. *)
Theorem apply_replaces_exactly_the_hits r s act :
  let hits := redaction_hits r s in
  let regions := merge hits in
  (∃ k ks, length ks = length regions ∧
     fst (Apply clock r s act) = weave k (zip (map (replacement_of r s) regions) ks) ∧
     s = weave k (zip (map (original_of s) regions) ks) ∧
     k ++ concat ks = keep (coversb hits) 0 s) ∧
  StronglySorted apart regions ∧ Forall (in_text s) regions ∧
  (∀ p, coversb regions p = coversb hits p) ∧
  (∀ g, g ∈ regions → ∃ h, h ∈ hits ∧ start h = start g ∧ rule h = rule g ∧ ∀ k, k ∈ hits → start k = start g → hit_le h k).
Proof.
  cbn zeta. pose proof (redaction_hits_in_text r s) as Hin.
  assert (Hn : Forall nonempty (redaction_hits r s)) by (eapply Forall_impl; [exact Hin|]; unfold in_text, nonempty; cbn; lia).
  split; [apply Apply_weave|]. split; [by apply merge_regions|]. split; [by apply merge_in_text|]. split; [intros p; by apply coversb_merge with s|].
  intros g Hg. by apply merge_first.
Qed.

(** C16. Redaction fails closed: every finding detection reports lies inside one
    region that redaction replaces, when no allowlist regex prefers an empty
    match. *)
Theorem scan_findings_are_redacted r s m : configured r → strict_allowlists r → Forall is_byte s → m ∈ Scan r s →
  ∃ sp, sp ∈ Spans r s ∧ SpStart sp ≤ Start m ∧ End m ≤ SpEnd sp.
Proof.
  intros Hc Hst Hs. pose proof (co_built _ (configured_consistent _ Hc)) as Hb. unfold Scan, Spans. destruct (_ || _); [set_solver|].
  intros (h & -> & Hh)%list_elem_of_fmap. cbn [Start End]. apply detect_hits in Hh; [|done..].
  destruct (merge_contains (redaction_hits r s) h) as (g & Hg & H1 & H2); [|done|].
  { eapply Forall_impl; [apply redaction_hits_in_text|]. unfold in_text, nonempty. cbn. lia. }
  rewrite regionsOf_fst. eexists. split; [by apply list_elem_of_fmap_2|]. cbn. done.
Qed.

(** C33. Nothing passes silently: a redaction counts each replaced region once,
    under its rule, and each exempted finding once, and calls every
    [OnAllowed] observer for every exempted finding, in order. *)
Theorem apply_records_every_decision r s act : in_range act →
  let act' := snd (Apply clock r s act) in
  let regions := merge (redaction_hits r s) in
  matches act' = uint64 (matches act + Z.of_nat (length regions)) ∧
  allowedCount act' = uint64 (allowedCount act + Z.of_nat (length (exempted r s))) ∧
  (∀ id, default 0 (byRule act' !! id) = uint64 (default 0 (byRule act !! id) + count_id r id regions)) ∧
  allowed_calls act' = allowed_calls act ++ flat_map (λ m, map (λ o, OnAllowedCalled o m) (allowedObs r)) (exempted r s).
Proof.
  intros Ha. cbn zeta. destruct (apply_counts clock r s act Ha) as (H1 & H2 & H3). split; [done|]. split; [done|]. split; [done|].
  by apply apply_allowed_calls.
Qed.

(** A redactor is determined, in what it collects, by its configuration. *)
Lemma judge_same r r' ru i s locs mode : exactAllowlist r' = exactAllowlist r → allowlists r' = allowlists r → needLine r' = needLine r →
  ∀ hits act act', mode ≠ redactRecord → fst (judge r' ru i s mode locs hits act') = fst (judge r ru i s mode locs hits act).
Proof.
  intros H1 H2 H3 hits act act' _. rewrite !judge_hits. f_equal.
  assert (Hx : ∀ sec ms me d, exempt r' ru s sec ms me d = exempt r ru s sec ms me d) by (intros; unfold exempt; by rewrite H1, H2, H3).
  assert (Hj : ∀ loc, judge_one r' ru s mode loc = judge_one r ru s mode loc) by (intros loc; unfold judge_one; destruct (secret_span _ _ _ _) as [ss se]; by rewrite Hx).
  induction locs as [|loc locs IH]; cbn; [done|]. by rewrite Hj, IH.
Qed.

Lemma collect_same r r' s mode : consistent r → consistent r' → Forall is_byte s → mode ≠ redactRecord →
  rules r' = rules r → exactAllowlist r' = exactAllowlist r → allowlists r' = allowlists r →
  fst (collect r' s mode no_activity) = fst (collect r s mode no_activity).
Proof.
  intros [W _ _ Hl Hn] [W' _ _ Hl' Hn'] Hs Hm Hr H1 H2. rewrite !collect_fst, Hr. apply flat_map_ext. intros i.
  unfold rule_candidates. rewrite !screen_has by done. rewrite Hr. unfold gate, rule_hits. rewrite Hr. destruct (rules r !! i) as [ru|]; [|done].
  destruct (_ && _); [|done]. assert (H3 : needLine r' = needLine r) by (rewrite Hl, Hl'; unfold line_needed; by rewrite H2, Hr).
  pose proof (judge_same r r' ru i s (FindAllSubmatchIndex (rule_re ru) s) mode H1 H2 H3 [] no_activity no_activity Hm) as Hj.
  by rewrite !judge_hits in Hj.
Qed.

Lemma compileSpecs_all rs : Forall (λ ru, CompileRule (spec ru) = Ok ru) rs → compileSpecs (map spec rs) false = Ok rs.
Proof. induction 1 as [|ru rs Hru _ IH]; cbn [compileSpecs map]; [done|]. by rewrite Hru, IH. Qed.

(** A configuration survives as data: the policy read from a redactor builds a
    redactor with the same rules and allowlists, that reads back as the same
    policy and finds and replaces the same spans in every input. *)
Theorem policy_roundtrip r : configured r → ∃ r', NewFromPolicy (PolicyOf r) = Ok r' ∧ PolicyOf r' = PolicyOf r ∧ rules r' = rules r ∧
  ∀ s, Forall is_byte s → Scan r' s = Scan r s ∧ Spans r' s = Spans r s.
Proof.
  intros Hc%configured_consistent. pose proof Hc as [W Hru Hal Hl Hn]. unfold NewFromPolicy, PolicyOf. cbn [Version PRules PAllowlists PAllowlistExact].
  rewrite (bool_decide_eq_true_2 (PolicyVersion = PolicyVersion)) by done. rewrite andb_false_r, (compileSpecs_all _ Hru).
  destruct (AddAllowlists New (allowlistSpecs r)) as [r1|e] eqn:E1; [|unfold AddAllowlists in E1; by rewrite Hal in E1].
  assert (C1 : consistent r1). { eapply AddAllowlists_consistent; [|exact E1]. apply configured_consistent, conf_new. }
  unfold AddAllowlists in E1. rewrite Hal in E1. injection E1 as <-.
  set (r2 := AllowExact _ _). assert (C2 : consistent r2) by (destruct C1 as [[] ? ? ? ?]; by split; [split|..]).
  assert (Hcomp : Forall compiled (rules r)) by apply W.
  destruct (AddRules_well_built (rules r) r2 (co_built _ C2) Hcomp) as (r3 & E3 & W3 & Hr3). rewrite E3.
  destruct (AddRules_frame _ _ _ E3) as (F1 & F2 & F3 & F4 & F5 & F6). cbn [rules New AllowExact r2] in F1, F2, F3, F4, F5, F6. cbn in F1, F2, F3, F6.
  assert (C3 : consistent r3).
  { split; [done|by rewrite F6|by rewrite F1, F2| |by rewrite F4]. rewrite F5. unfold line_needed. rewrite F1, F6. cbn [needLine r2 AllowExact orb New]. done. }
  exists r3. split; [done|]. split; [by rewrite F2, F3, F6|]. split; [done|]. intros s Hs.
  unfold Scan, Spans, regionsOf. rewrite !F6. pose proof (collect_same r r3 s detect Hc C3 Hs ltac:(done) F6 F3 F1) as Hd. pose proof (collect_same r r3 s redactQuiet Hc C3 Hs ltac:(done) F6 F3 F1) as Hq.
  rewrite Hd. destruct (collect r3 s redactQuiet no_activity) as [h1 a1], (collect r s redactQuiet no_activity) as [h2 a2]. cbn [fst] in Hq. subst h1. done.
Qed.

End Guarantees.
