(* ===== verification/RedactExamples.v ===== *)
(** * Redaction at concrete inputs

    An engine whose patterns are ASCII literals satisfies the laws, so the
    guarantees of redaction hold of something; and what a small redactor does
    to a text. *)

From S2P Require Import Prelude Regexp Prefilter PrefilterScan Redact RedactLaws RedactPolicy RedactSpec.

Local Open Scope Z_scope.

Definition ascii_text (p : text) : bool := forallb (λ b, within 0 b 127) p.

(** The non-overlapping occurrences of [p], from the left; [skip] bytes of the
    last one are still to pass. *)
Fixpoint occurrences (p : text) (skip : nat) (pos : Z) (s : text) : list (list Z) :=
  match s with
  | [] => []
  | _ :: s' =>
      match skip with
      | S skip => occurrences p skip (pos + 1) s'
      | O => if prefixb p s then [pos; pos + Z.of_nat (length p)] :: occurrences p (length p - 1) (pos + 1) s' else occurrences p O (pos + 1) s'
      end
  end.

Definition literal_find (p s : text) : list (list Z) := if ascii_text p && negb (bool_decide (p = [])) then occurrences p 0 0 s else [].

Definition upper_text : text → text := map (λ b, if within 97 b 122 then b - 32 else b).

#[export] Instance literal_engine : Engine := {|
  SimpleFold := λ r, r;
  Parse := λ p, if ascii_text p then Some (OpLiteral false p) else None;
  Simplify := λ re, re;
  Compile := λ p, if ascii_text p then Some O else None;
  FindAllSubmatchIndex := literal_find;
  FindStringIndex := λ p s, match literal_find p s with (a :: b :: _) :: _ => Some (a, b) | _ => None end;
  MatchString := λ p s, bool_decide (p = anchored s);
  ToLower := fold_text;
  ToUpper := upper_text;
  Sum256 := λ s, s;
  F := Z;
  f_ofZ := λ n, n;
  f_div := Z.div;
  f_mul := Z.mul;
  f_sub := Z.sub;
  Log2 := Z.log2;
  f_eqb := Z.eqb;
  f_leb := Z.leb;
  IsNaN := λ _, false
|}.

Lemma occurrences_spec p S : p ≠ [] → ∀ s skip pos loc, 0 ≤ pos → s = drop (Z.to_nat pos) S → loc ∈ occurrences p skip pos s →
  ∃ a, loc = [a; a + Z.of_nat (length p)] ∧ 0 ≤ a ∧ prefixb p (drop (Z.to_nat a) S) = true.
Proof.
  intros Hp. induction s as [|c s IH]; intros skip pos loc Hpos Hs Hin; cbn [occurrences] in Hin; [set_solver|].
  assert (Hs' : s = drop (Z.to_nat (pos + 1)) S).
  { replace (Z.to_nat (pos + 1)) with (Z.to_nat pos + 1)%nat by lia. rewrite <-drop_drop, <-Hs. done. }
  destruct skip as [|skip]; [|by eapply IH; [| |exact Hin]; [lia|]]. destruct (prefixb p (c :: s)) eqn:Ep; [|by eapply IH; [| |exact Hin]; [lia|]].
  apply elem_of_cons in Hin as [->|Hin]; [|by eapply IH; [| |exact Hin]; [lia|]]. exists pos. split; [done|]. split; [done|]. by rewrite <-Hs.
Qed.

Lemma literal_match p after : ascii_text p = true → match_literal (λ r, r) false p p after.
Proof.
  induction p as [|c p IH]; cbn [match_literal]; [done|]. unfold ascii_text. cbn [forallb]. intros [Hc Hp]%andb_true_iff.
  exists [c], p. split; [done|]. split; [|by apply IH]. exists c. split; [|cbn; set_solver]. cbn. by rewrite Hc.
Qed.

Lemma fold_text_idem s : fold_text (fold_text s) = fold_text s.
Proof.
  unfold fold_text. rewrite map_map. apply map_ext. intros b. unfold foldByte. destruct (within 65 b 90) eqn:Eb; [|by rewrite Eb].
  apply within_spec in Eb. destruct (within 65 (b + 32) 90) eqn:Eb'; [|done]. apply within_spec in Eb'. lia.
Qed.

#[export] Instance literal_laws : EngineLaws literal_engine.
Proof.
  assert (Hfind : ∀ p s loc, loc ∈ literal_find p s → (ascii_text p = true ∧ p ≠ []) ∧ ∃ a, loc = [a; a + Z.of_nat (length p)] ∧ 0 ≤ a ∧ prefixb p (drop (Z.to_nat a) s) = true).
  { intros p s loc. unfold literal_find. destruct (_ && _) eqn:Eg; [|set_solver]. apply andb_true_iff in Eg as [Ea En%negb_true_iff%bool_decide_eq_false].
    intros Hin. split; [done|]. by apply (occurrences_spec p s En s 0 0). }
  split.
  - intros p s loc ((_ & Hne) & a & -> & Ha & (t & Ht)%prefixb_spec)%Hfind. cbn. apply (f_equal length) in Ht. rewrite length_drop, length_app in Ht.
    assert (length p ≠ O) by (by destruct p). lia.
  - intros p re s loc Hp ((Hasc & _) & a & -> & Ha & (t & Ht)%prefixb_spec)%Hfind. cbn in Hp. rewrite Hasc in Hp. injection Hp as <-.
    cbn [nth SimpleFold Simplify literal_engine Matches]. unfold sub. rewrite Ht. replace (Z.to_nat (a + Z.of_nat (length p) - a)) with (length p) by lia.
    rewrite take_app_length. by apply literal_match.
  - done.
  - apply fold_text_idem.
  - apply fold_text_idem.
  - intros s Hs. apply Forall_fmap. eapply Forall_impl; [exact Hs|]. intros b. apply foldByte_byte.
  - by intros [|b s].
Qed.

(** ** A redactor *)

Definition api_spec : RuleSpec := MkRuleSpec (txt "api-key") [] (txt "sk-live") [] 0 f0 [] [] [] [] [] false.

Definition host_spec : RuleSpec := MkRuleSpec (txt "host") [] (txt "live.example") (txt "<host>") 0 f0 [txt "LIVE"] [] [] [] [] false.

Definition rule_of (s : RuleSpec) : Rule := match CompileRule s with Ok ru => ru | Err _ => zero_rule end.

Definition sample : Redactor := default New (AddRules New [rule_of api_spec; rule_of host_spec]).

Definition sample_text : text := txt "key=SK-sk-live.example ok".

Lemma sample_configured : configured sample.
Proof.
  eapply (conf_rules New [api_spec; host_spec]); [apply conf_new| | |].
  - repeat constructor; unfold is_byte; cbn; lia.
  - repeat constructor.
  - vm_compute. reflexivity.
Qed.

Lemma sample_bytes : Forall is_byte sample_text.
Proof. unfold sample_text. cbn. repeat constructor; unfold is_byte; lia. Qed.

Example sample_apply : fst (Apply (λ k, k) sample sample_text no_activity) = txt "key=SK-***REDACTED*** ok".
Proof. vm_compute. reflexivity. Qed.

Example sample_spans : map (λ sp, (SpStart sp, SpEnd sp, SpRuleID sp)) (Spans sample sample_text) = [(7, 22, txt "api-key")].
Proof. vm_compute. reflexivity. Qed.

Example sample_scan : map (λ m, (Start m, End m)) (Scan sample sample_text) = [(7, 14); (10, 22)].
Proof. vm_compute. reflexivity. Qed.

Example sample_screen_skips : has (rule_candidates sample (txt "nothing here, nothing") redactQuiet) 0 = false.
Proof. vm_compute. reflexivity. Qed.

(** ** The guarantees at the sample *)

Lemma screening_changes_nothing_witness : Apply (λ k, k) sample sample_text no_activity = Apply (λ k, k) (unscreened sample) sample_text no_activity.
Proof. apply (screening_changes_nothing (λ k, k) sample sample_text no_activity sample_configured sample_bytes). Defined.

Lemma scan_findings_are_redacted_witness : ∃ sp, sp ∈ Spans sample sample_text ∧ SpStart sp ≤ 10 ∧ 22 ≤ SpEnd sp.
Proof.
  apply (scan_findings_are_redacted sample sample_text (MkMatch (txt "host") (txt "live.example") [] 10 22) sample_configured).
  - split; vm_compute; repeat constructor.
  - apply sample_bytes.
  - vm_compute. right. left.
Defined.

Lemma apply_records_witness : matches (snd (Apply (λ k, k) sample sample_text no_activity)) = 1.
Proof.
  destruct (apply_records_every_decision (λ k, k) sample sample_text no_activity) as (H & _).
  - split; [done|]. split; [done|]. intros id n H. change ((∅ : gmap text Z) !! id = Some n) in H. by rewrite lookup_empty in H.
  - rewrite H. vm_compute. reflexivity.
Defined.

Lemma policy_roundtrip_witness : ∃ r', NewFromPolicy (PolicyOf sample) = Ok r' ∧ rules r' = rules sample.
Proof. destruct (policy_roundtrip sample sample_configured) as (r' & H1 & _ & H2 & _). exists r'. split; [exact H1|exact H2]. Defined.

Lemma apply_replaces_witness :
  ∃ k ks, txt "key=SK-***REDACTED*** ok" = weave k (zip (map (replacement_of sample sample_text) (merge (redaction_hits sample sample_text))) ks) ∧
    k ++ concat ks = txt "key=SK- ok".
Proof.
  destruct (apply_replaces_exactly_the_hits (λ k, k) sample sample_text no_activity) as [(k & ks & _ & Hout & _ & Hkeep) _].
  exists k, ks. split.
  - rewrite <-Hout. vm_compute. reflexivity.
  - rewrite Hkeep. vm_compute. reflexivity.
Defined.
