(* ===== verification/NetPolicy.v ===== *)
(** * The network policy (core/netpolicy)

    A context may be marked offline or carry a host allowlist; [Guard] refuses
    requests beneath an [http.Client], [GuardDial] refuses dials, and
    [CheckRedirect] refuses redirects that would carry headers to another
    origin.  Every refusal is reported to the context's audit sink: the model
    threads the log of refusals and of what reached the network.

    Parameters: the IDNA conversion, Unicode case mapping and the rendering of a
    URL as text. *)

From Stdlib Require Import Ascii.
From S2P Require Import Prelude Fingerprint Topics StreamWire GoStrings NetIP.

Local Open Scope Z_scope.

(** ** strings and net/url *)

Definition HasPrefix (s p : string) : bool := String.prefix p s.

Definition HasSuffix (s x : string) : bool :=
  (String.length x <=? String.length s)%nat && String.eqb (str_drop (String.length s - String.length x) s) x.

Definition TrimPrefix (s p : string) : string := if HasPrefix s p then str_drop (String.length p) s else s.
Definition TrimSuffix (s x : string) : string := if HasSuffix s x then str_take (String.length s - String.length x) s else s.

Definition ContainsAny (s : string) (cs : list ascii) : bool := existsb (λ c, has_byte c s) cs.

Fixpoint contains_dots (s : string) : bool :=
  match s with
  | String "."%char (String "."%char _) => true
  | String _ s => contains_dots s
  | EmptyString => false
  end.

Record url := Url { Scheme : string; User : string; Host : string; UPath : string; RawPath : string; RawQuery : string; Fragment : string }.

(** [(u *URL) Hostname] and [Port]. *)
Definition validOptionalPort (s : string) : bool :=
  match s with EmptyString => true | String c s => Ascii.eqb c ":" && all_chars is_digit s end.

Definition url_split (hp : string) : string * string :=
  let '(h, p) := match LastIndexByte ":" hp with
                 | Some i => if validOptionalPort (str_drop i hp) then (str_take i hp, str_drop (S i) hp) else (hp, "")
                 | None => (hp, "")
                 end in
  if HasPrefix h "[" && HasSuffix h "]" then (str_take (String.length h - 2) (str_drop 1 h), p) else (h, p).

Definition Hostname (u : url) : string := fst (url_split (Host u)).
Definition Port (u : url) : string := snd (url_split (Host u)).

(** ** Loopback (netpolicy.go) *)

Definition unbracketIPv6 (host : string) : string :=
  if HasPrefix host "[" then
    let inner := str_drop 1 host in
    if HasSuffix inner "]" then
      let inner := str_take (String.length inner - 1) inner in
      if negb (has_byte ":" inner) || negb (bool_decide (is_Some (ParseIP inner))) then host else inner
    else host
  else host.

(** [ip.IsLoopback]. *)
Definition IsLoopback_ip (ip : list Z) : bool :=
  match To4 ip with
  | Some v4 => match v4 with b :: _ => b =? 127 | [] => false end
  | None => bool_decide (ip = replicate 15 0 ++ [1])%list
  end.

Definition host_part (hostport : string) : string := match SplitHost hostport with Some h => h | None => unbracketIPv6 hostport end.

Definition isLoopback (host : string) : bool :=
  let h := host_part host in
  if String.eqb h "localhost" then true
  else match ParseIP h with Some ip => IsLoopback_ip ip | None => false end.

(** ** The allowlist (allow.go) *)

Record entry := Entry { e_host : string; suffix : bool }.
Record allowList := AllowList { raw : list string; entries : list entry }.

(** [netip.ParseAddr]: an address, with the zone of a long one. *)
Definition ParseAddr (h : string) : option (list Z * string) :=
  match IndexByte "%" h with
  | None => (λ ip, (ip, "")) <$> ParseIP h
  | Some i =>
      if String.eqb (str_drop (S i) h) "" then None
      else match ip_kind h with
           | Some false => (λ ip, (ip, str_drop (S i) h)) <$> parseIPv6 (str_take i h)
           | _ => None
           end
  end.

(** [addr.Unmap().String()]. *)
Definition Unmap_String (ip : list Z) : string := match To4 ip with Some v4 => dotted v4 | None => string6 ip end.

Inductive refusal_reason := ErrOffline | ErrHostNotAllowed | ErrCrossOriginHeaders.

(** What the audit sink receives: the operation and the destination. *)
Inductive op := Method (m : string) | Dial (network : string) | RedirectOp.

Section Policy.
Variable ToASCII : string → option string.
Variable ToLower : string → string.
Variable EqualFold : string → string → bool.

Definition normalizeHost (hostport : string) : string :=
  let h := TrimPrefix (TrimSuffix (host_part hostport) "]") "[" in
  if String.eqb h "" then ""
  else match ParseAddr h with
       | Some (ip, _) => if has_byte "%" h then "" else Unmap_String ip
       | None =>
           let h := ToLower (TrimSuffix h ".") in
           if String.eqb h "" || HasPrefix h "." || contains_dots h then ""
           else match ToASCII h with Some a => a | None => "" end
       end.

Definition parseEntry (p : string) : option entry :=
  let p := TrimSpace p in
  let '(p, suf) := if HasPrefix p "*." then (str_drop 2 p, true) else (p, false) in
  if ContainsAny p ["*"; "/"; " "; "009"; "%"]%char then None
  else if has_byte ":" p && negb (HasPrefix p "[") && negb (bool_decide (is_Some (ParseIP p))) then None
  else if HasPrefix p "[" && negb (HasSuffix p "]") then None
  else
    let h := normalizeHost p in
    if String.eqb h "" then None
    else if bool_decide (is_Some (ParseAddr h)) && suf then None
    else Some (Entry h suf).

Definition ValidateAllowHosts (patterns : list string) : bool := forallb (λ p, bool_decide (is_Some (parseEntry p))) patterns.

Definition compileAllow (patterns : list string) : allowList := AllowList patterns (omap parseEntry patterns).

Definition entry_matches (h : string) (isIP : bool) (e : entry) : bool :=
  if suffix e then negb isIP && HasSuffix h ("." +:+ e_host e) else String.eqb h (e_host e).

Definition matches (l : allowList) (hostport : string) : bool :=
  let h := normalizeHost hostport in
  if String.eqb h "" then false
  else existsb (entry_matches h (bool_decide (is_Some (ParseAddr h)))) (entries l).

(** ** The context *)

(** The marks a context carries; [None] is a nil context. *)
Record marks := Marks { m_offline : bool; m_allow : option allowList; m_audit : bool }.
Definition context := option marks.
Definition Background : context := Some (Marks false None false).

Definition WithOffline (c : marks) (offline : bool) : marks := if offline then Marks true (m_allow c) (m_audit c) else c.
Definition WithAllowHosts (c : marks) (patterns : list string) : marks :=
  if (length patterns =? 0)%nat then c else Marks (m_offline c) (Some (compileAllow patterns)) (m_audit c).
Definition WithAudit (c : marks) (sink : bool) : marks := if sink then Marks (m_offline c) (m_allow c) true else c.

Definition IsOffline (c : context) : bool := match c with Some m => m_offline m | None => false end.
Definition allowFrom (c : context) : option allowList := match c with Some m => m_allow m | None => None end.
Definition AllowHosts (c : context) : list string := match allowFrom c with Some l => raw l | None => [] end.

Definition HostAllowed (c : context) (host : string) : bool :=
  match allowFrom c with None => true | Some l => isLoopback host || matches l host end.

Definition refuse (c : context) (host : string) : option refusal_reason :=
  if isLoopback host then None
  else if IsOffline c then Some ErrOffline
  else match allowFrom c with Some l => if matches l host then None else Some ErrHostNotAllowed | None => None end.

(** ** Requests, dials and the log *)

Definition header := list (string * list string).

Record request := Request { rq_ctx : context; rq_method : string; rq_url : url; rq_header : header }.

Record Refusal := MkRefusal { Reason : refusal_reason; Op : op; Dest : url }.

(** [destination]: scheme, host and path only. *)
Definition destination (u : url) : url := Url (Scheme u) "" (Host u) (UPath u) (RawPath u) "" "".

(** The address of a dial as given. *)
Definition dial_dest (addr : string) : url := Url "" "" addr "" "" "" "".

Record log := Log { sent : list request; dialed : list (string * string); audited : list Refusal }.

Definition audit (c : context) (r : Refusal) (l : log) : log :=
  match c with
  | Some m => if m_audit m then Log (sent l) (dialed l) (audited l ++ [r])%list else l
  | None => l
  end.

(** Transports: some other one, or a guard around it. *)
Inductive transport := Base (id : nat) | Guarded (base : transport).

Definition Guard (dflt : transport) (base : option transport) : transport :=
  match default dflt base with Guarded b => Guarded b | b => Guarded b end.

Definition Install (dflt : transport) : transport := Guard dflt (Some dflt).

Definition ObservabilityTransport (dflt : transport) (base : option transport) : transport :=
  match base with
  | Some (Guarded b) => b
  | Some b => b
  | None => match dflt with Guarded b => b | b => b end
  end.

(** [RoundTrip]: the bottom of the chain is the network. *)
Fixpoint RoundTrip (t : transport) (req : request) (l : log) : option refusal_reason * log :=
  match t with
  | Base _ => (None, Log (sent l ++ [req])%list (dialed l) (audited l))
  | Guarded b =>
      match refuse (rq_ctx req) (Host (rq_url req)) with
      | Some e => (Some e, audit (rq_ctx req) (MkRefusal e (Method (rq_method req)) (destination (rq_url req))) l)
      | None => RoundTrip b req l
      end
  end.

(** ** Dials (dialer.go) *)

Definition isLocalNetwork (network : string) : bool := bool_decide (network ∈ ["unix"; "unixgram"; "unixpacket"]).

Definition CheckDial (c : context) (network addr : string) (l : log) : option refusal_reason * log :=
  if isLocalNetwork network then (None, l)
  else match refuse c addr with
       | None => (None, l)
       | Some e => (Some e, audit c (MkRefusal e (Dial network) (dial_dest addr)) l)
       end.

Definition GuardDial (c : context) (network addr : string) (l : log) : option refusal_reason * log :=
  match CheckDial c network addr l with
  | (Some e, l) => (Some e, l)
  | (None, l) => (None, Log (sent l) (dialed l ++ [(network, addr)])%list (audited l))
  end.

(** ** Redirects (redirect.go) *)

(** [http.CanonicalHeaderKey]: a key with a byte that is not of a token stays. *)
Definition is_token (c : ascii) : bool := is_alnum c || bool_decide (c ∈ ["!"; "#"; "$"; "%"; "&"; "'"; "*"; "+"; "-"; "."; "^"; "_"; "`"; "|"; "~"]%char).
Definition upper_ascii (c : ascii) : ascii := let n := N_of_ascii c in if ((97 <=? n) && (n <=? 122))%N then ascii_of_N (n - 32) else c.
Definition lower_ascii (c : ascii) : ascii := let n := N_of_ascii c in if ((65 <=? n) && (n <=? 90))%N then ascii_of_N (n + 32) else c.

Fixpoint canonical_loop (upper : bool) (s : string) : string :=
  match s with
  | EmptyString => ""
  | String c s => String (if upper then upper_ascii c else lower_ascii c) (canonical_loop (Ascii.eqb c "-") s)
  end.

Definition CanonicalHeaderKey (s : string) : string := if all_chars is_token s then canonical_loop true s else s.

Definition crossOriginHeaders : list string := ["Accept"; "Accept-Encoding"; "Accept-Language"; "User-Agent"; "Content-Type"].

Definition carriesUnsafeHeaders (h : header) : bool := existsb (λ kv, negb (bool_decide (CanonicalHeaderKey (fst kv) ∈ crossOriginHeaders))) h.

Definition originPort (u : url) : string :=
  if negb (String.eqb (Port u) "") then Port u
  else
    let s := ToLower (Scheme u) in
    if String.eqb s "http" || String.eqb s "ws" then "80"
    else if String.eqb s "https" || String.eqb s "wss" then "443"
    else "".

Definition sameOrigin (a b : url) : bool :=
  EqualFold (Scheme a) (Scheme b) && EqualFold (Hostname a) (Hostname b) && String.eqb (originPort a) (originPort b).

Inductive redirect_error := RedirectError (From To : url) | TooManyRedirects | NextError (code : nat).

Definition maxRedirects : nat := 10.

(** The function [CheckRedirect(next)] returns. *)
Definition CheckRedirect (next : option (request → list request → option nat)) (req : request) (via : list request) (l : log) : option redirect_error * log :=
  let rest :=
    match next with
    | Some f => match f req via with Some e => (Some (NextError e), l) | None => (None, l) end
    | None => (if (maxRedirects <=? length via)%nat then Some TooManyRedirects else None, l)
    end in
  match via with
  | [] => rest
  | first :: _ =>
      if negb (sameOrigin (rq_url first) (rq_url req)) && carriesUnsafeHeaders (rq_header first) then
        (Some (RedirectError (destination (rq_url first)) (destination (rq_url req))),
         audit (rq_ctx req) (MkRefusal ErrCrossOriginHeaders RedirectOp (destination (rq_url req))) l)
      else rest
  end.

(** ** A client *)

(** What a server answers, and how a run of the client ends. *)
Inductive reply := Final | Redirect (u : url).
Inductive outcome := Answered | Refused (e : refusal_reason) | Stopped (e : redirect_error) | OutOfFuel.

(** [http.Client.Do] of [NewClient(base)]: a redirect is followed in the context
    of the request it answers, after [CheckRedirect(nil)] saw it with all
    requests before it. Its method and headers, which net/http chooses, are
    [copy]. *)
Section Client.
Variable serve : request → reply.
Variable copy : request → url → string * header.

Fixpoint Do (fuel : nat) (t : transport) (req : request) (via : list request) (l : log) : outcome * log :=
  match fuel with
  | O => (OutOfFuel, l)
  | S fuel =>
      match RoundTrip t req l with
      | (Some e, l) => (Refused e, l)
      | (None, l) =>
          match serve req with
          | Final => (Answered, l)
          | Redirect u =>
              let via := (via ++ [req])%list in
              let next := Request (rq_ctx req) (fst (copy req u)) u (snd (copy req u)) in
              match CheckRedirect None next via l with
              | (Some e, l) => (Stopped e, l)
              | (None, l) => Do fuel t next via l
              end
          end
      end
  end.

(** Ten hops after the first request at most. *)
Definition NewClientDo (base : transport) (req : request) (l : log) : outcome * log := Do (S maxRedirects) (Guard base (Some base)) req [] l.

End Client.
End Policy.

(** ** What the network policy guarantees

    A guarded client sends nothing the policy of its context forbids, along any
    chain of redirects, and reports each refusal once; the allowlist decides by
    the normalized host alone. *)

(** ** Strings *)

Lemma str_take_drop n s : str_take n s +:+ str_drop n s = s.
Proof.
  revert n. induction s as [|c s IH]; intros [|n]; cbn; try done. change (String c (str_take n s +:+ str_drop n s) = String c s). by rewrite IH.
Qed.

Lemma str_length_app (a b : string) : String.length (a +:+ b) = (String.length a + String.length b)%nat.
Proof. induction a as [|c a IH]; [done|]. change (S (String.length (a +:+ b)) = S (String.length a + String.length b)). by rewrite IH. Qed.

Lemma HasSuffix_spec s x : HasSuffix s x = true ↔ ∃ a, s = a +:+ x.
Proof.
  unfold HasSuffix. rewrite andb_true_iff, Nat.leb_le. split.
  - intros [Hl Hd%String.eqb_eq]. exists (str_take (String.length s - String.length x) s). pose proof (str_take_drop (String.length s - String.length x) s) as Ht.
    by rewrite Hd in Ht.
  - intros [a ->]. rewrite str_length_app. split; [lia|]. replace (String.length a + String.length x - String.length x)%nat with (String.length a) by lia.
    rewrite str_drop_app. apply String.eqb_refl.
Qed.

Lemma LastIndexByte_free c s : free c s = true → LastIndexByte c s = None.
Proof.
  induction s as [|d s IH]; [done|]. unfold free. cbn [all_chars LastIndexByte]. intros [Hd%negb_true_iff Hs]%andb_true_iff. rewrite (IH Hs). by rewrite Hd.
Qed.

Lemma LastIndexByte_sep c a b : free c b = true → LastIndexByte c (a +:+ String c b) = Some (String.length a).
Proof.
  intros Hb. induction a as [|d a IH].
  - change ("" +:+ String c b) with (String c b). cbn [LastIndexByte]. rewrite (LastIndexByte_free c b Hb), Ascii.eqb_refl. done.
  - change (String d a +:+ String c b) with (String d (a +:+ String c b)). cbn [LastIndexByte]. by rewrite IH.
Qed.

Lemma IndexByte_free c s : free c s = true → IndexByte c s = None.
Proof.
  induction s as [|d s IH]; [done|]. unfold free. cbn [all_chars IndexByte]. intros [Hd%negb_true_iff Hs]%andb_true_iff. rewrite Hd, (IH Hs). done.
Qed.

Lemma has_byte_free c s : free c s = true → has_byte c s = false.
Proof. intros H. unfold has_byte. by rewrite IndexByte_free. Qed.

Lemma free_app c a b : free c (a +:+ b) = free c a && free c b.
Proof.
  induction a as [|d a IH]; [done|]. change (String d a +:+ b) with (String d (a +:+ b)). unfold free in *. cbn [all_chars]. by rewrite IH, andb_assoc.
Qed.

Lemma str_take_app a b : str_take (String.length a) (a +:+ b) = a.
Proof.
  induction a as [|c a IH]; [by destruct b|]. change (String c a +:+ b) with (String c (a +:+ b)). cbn [String.length str_take]. by rewrite IH.
Qed.

(** A name without colons and brackets. *)
Definition plain (h : string) : bool := free ":" h && free "[" h && free "]" h.

Lemma plain_not_bracket h : plain h = true → HasPrefix h "[" = false.
Proof.
  unfold plain. intros [[_ H]%andb_true_iff _]%andb_true_iff. destruct h as [|c h]; [done|]. unfold free in H. cbn [all_chars] in H.
  apply andb_true_iff in H as [Hc%negb_true_iff _]. unfold HasPrefix. cbn [String.prefix].
  destruct (ascii_dec "[" c) as [<-|]; [by rewrite Ascii.eqb_refl in Hc|done].
Qed.

(** The port is no part of the decision. *)
Lemma host_part_plain h : plain h = true → host_part h = h.
Proof.
  intros Hp. unfold host_part, SplitHost. pose proof Hp as Hp'. unfold plain in Hp'. apply andb_true_iff in Hp' as [[Hc _]%andb_true_iff _].
  rewrite LastIndexByte_free by done. unfold unbracketIPv6. by rewrite plain_not_bracket.
Qed.

Lemma host_part_port h port : plain h = true → plain port = true → host_part (h +:+ ":" +:+ port) = h.
Proof.
  intros Hh Hp. pose proof (plain_not_bracket h Hh) as Hb. unfold plain in Hh, Hp.
  apply andb_true_iff in Hh as [[Hh1 Hh2]%andb_true_iff Hh3], Hp as [[Hp1 Hp2]%andb_true_iff Hp3].
  unfold host_part, SplitHost. change (":" +:+ port) with (String ":"%char port). rewrite (LastIndexByte_sep ":" h port Hp1).
  assert (Hf : ∀ c, free c h = true → free c port = true → Ascii.eqb ":" c = false → has_byte c (h +:+ String ":"%char port) = false).
  { intros c H1 H2 H3. apply has_byte_free. rewrite free_app, H1. unfold free in *. cbn [all_chars andb]. by rewrite H3, H2. }
  rewrite str_take_app, has_byte_free, !Hf by done. cbn [orb].
  assert (Hfirst : ∀ s, h +:+ String ":"%char port ≠ String "["%char s).
  { intros s E. destruct h as [|c h]; [done|]. change (String c h +:+ String ":"%char port) with (String c (h +:+ String ":"%char port)) in E. injection E as -> _. done. }
  destruct (h +:+ String ":"%char port) as [|c s] eqn:E; [done|]. destruct c as [[] [] [] [] [] [] [] []]; try done. by destruct (Hfirst s).
Qed.

Section Spec.
Context (ToASCII : string → option string) (ToLower : string → string).

Notation normalizeHost := (normalizeHost ToASCII ToLower).
Notation parseEntry := (parseEntry ToASCII ToLower).
Notation matches := (matches ToASCII ToLower).
Notation refuse := (refuse ToASCII ToLower).
Notation WithAllowHosts := (WithAllowHosts ToASCII ToLower).

Lemma same_host_same_decision c a b : host_part a = host_part b → refuse c a = refuse c b.
Proof.
  intros E. assert (Hn : normalizeHost a = normalizeHost b) by (unfold NetPolicy.normalizeHost; by rewrite E).
  unfold NetPolicy.refuse, isLoopback, NetPolicy.matches. by rewrite E, Hn.
Qed.

Definition allows (e : entry) (h : string) : Prop :=
  (suffix e = false ∧ h = e_host e) ∨ (suffix e = true ∧ ParseAddr h = None ∧ ∃ labels, h = labels +:+ "." +:+ e_host e).

Lemma entry_matches_spec h e : entry_matches h (bool_decide (is_Some (ParseAddr h))) e = true ↔ allows e h.
Proof.
  unfold entry_matches, allows. destruct (suffix e).
  - rewrite andb_true_iff, negb_true_iff, bool_decide_eq_false, <-eq_None_not_Some, HasSuffix_spec. naive_solver.
  - rewrite String.eqb_eq. naive_solver.
Qed.


(** ** Refusals *)

Lemma refuse_offline c host : IsOffline c = true → refuse c host = None → isLoopback host = true.
Proof. unfold NetPolicy.refuse. destruct (isLoopback host); [done|]. by intros ->. Qed.

Context (EqualFold : string → string → bool).

Notation RoundTrip := (RoundTrip ToASCII ToLower).
Notation CheckRedirect := (CheckRedirect ToLower EqualFold).
Notation sameOrigin := (sameOrigin ToLower EqualFold).

Lemma RoundTrip_guarded b req l : RoundTrip (Guarded b) req l =
  match refuse (rq_ctx req) (Host (rq_url req)) with
  | Some e => (Some e, audit (rq_ctx req) (MkRefusal e (Method (rq_method req)) (destination (rq_url req))) l)
  | None => (None, Log (sent l ++ [req]) (dialed l) (audited l))
  end.
Proof.
  cbn. destruct (refuse (rq_ctx req) (Host (rq_url req))) eqn:Er; [done|]. induction b as [id|b IH]; [done|]. cbn. by rewrite Er.
Qed.

Lemma Guard_guarded dflt base : ∃ b, Guard dflt base = Guarded b.
Proof. unfold Guard. destruct (default dflt base); eauto. Qed.

(** What a run of a client adds to the log. *)
Definition refused_by (o : outcome) (r : Refusal) : Prop :=
  match o with
  | Refused e => Reason r = e
  | Stopped (RedirectError _ to) => Reason r = ErrCrossOriginHeaders ∧ Dest r = to
  | _ => False
  end.

Definition is_refusal (o : outcome) : bool := match o with Refused _ | Stopped (RedirectError _ _) => true | _ => false end.

Lemma audit_log c r l : sent (audit c r l) = sent l ∧ dialed (audit c r l) = dialed l ∧
  audited (audit c r l) = (audited l ++ (if match c with Some m => m_audit m | None => false end then [r] else []))%list.
Proof. unfold audit. destruct c as [m|]; [destruct (m_audit m)|]; cbn; rewrite ?app_nil_r; done. Qed.

Definition auditing (c : context) : bool := match c with Some m => m_audit m | None => false end.

(** A hop of a chain that started with [first]. *)
Definition hop_ok (first r : request) : Prop :=
  rq_ctx r = rq_ctx first ∧ refuse (rq_ctx first) (Host (rq_url r)) = None ∧
  (r = first ∨ sameOrigin (rq_url first) (rq_url r) = true ∨ carriesUnsafeHeaders (rq_header first) = false).

Lemma CheckRedirect_none req via first l : head via = Some first →
  match CheckRedirect None req via l with
  | (None, l') => l' = l ∧ (length via < maxRedirects)%nat ∧ (sameOrigin (rq_url first) (rq_url req) = true ∨ carriesUnsafeHeaders (rq_header first) = false)
  | (Some (RedirectError f t), l') => l' = audit (rq_ctx req) (MkRefusal ErrCrossOriginHeaders RedirectOp (destination (rq_url req))) l ∧ t = destination (rq_url req)
  | (Some _, l') => l' = l
  end.
Proof.
  destruct via as [|v via]; [done|]. intros [= ->]. unfold NetPolicy.CheckRedirect. destruct (sameOrigin (rq_url first) (rq_url req)) eqn:Es; cbn [negb andb].
  - destruct (Nat.leb_spec maxRedirects (length (first :: via))); [done|]. auto.
  - destruct (carriesUnsafeHeaders (rq_header first)); [done|]. destruct (Nat.leb_spec maxRedirects (length (first :: via))); [done|]. auto.
Qed.

Section Run.
Context (serve : request → reply) (copy : request → url → string * header) (b : transport) (first : request).

Notation Do := (Do ToASCII ToLower EqualFold serve copy).

(** One run from a hop on: what it sends, how many, and what it reports. *)
Definition run_ok (n : nat) (o : outcome) (l l' : log) : Prop :=
  ∃ new, sent l' = (sent l ++ new)%list ∧ dialed l' = dialed l ∧ (length new ≤ n)%nat ∧ Forall (hop_ok first) new ∧
  ∃ rs, audited l' = (audited l ++ rs)%list ∧ Forall (refused_by o) rs ∧ length rs = (if is_refusal o && auditing (rq_ctx first) then 1 else 0)%nat.

Lemma run_nothing n o l : is_refusal o = false → run_ok n o l l.
Proof. intros Ho. exists []. rewrite app_nil_r. repeat split; [cbn; lia|constructor|]. exists []. rewrite app_nil_r, Ho. done. Qed.

Lemma run_refused n o r l : is_refusal o = true → refused_by o r → run_ok n o l (audit (rq_ctx first) r l).
Proof.
  intros Ho Hr. destruct (audit_log (rq_ctx first) r l) as (H1 & H2 & H3). exists []. rewrite app_nil_r. split; [done|]. split; [done|]. split; [cbn; lia|].
  split; [constructor|]. eexists. split; [exact H3|]. rewrite Ho. unfold auditing. destruct (rq_ctx first) as [m|]; [destruct (m_audit m)|]; split; try done; by constructor.
Qed.

Lemma run_sends n o l req l' : hop_ok first req → run_ok n o (Log (sent l ++ [req]) (dialed l) (audited l)) l' → run_ok (S n) o l l'.
Proof.
  intros Hh (new & H1 & H2 & H3 & H4 & rs & H5 & H6). exists (req :: new). cbn in *. rewrite <-app_assoc in H1. split; [done|]. split; [done|]. split; [lia|].
  split; [by constructor|]. eauto.
Qed.

(** The request about to be sent, after [via]. *)
Definition pending (req : request) (via : list request) : Prop :=
  rq_ctx req = rq_ctx first ∧ (via = [] ∧ req = first ∨ head via = Some first ∧ (sameOrigin (rq_url first) (rq_url req) = true ∨ carriesUnsafeHeaders (rq_header first) = false)).

Lemma Do_ok fuel : ∀ req via l, pending req via → (S maxRedirects ≤ fuel + length via)%nat → (length via ≤ maxRedirects)%nat →
  let '(o, l') := Do fuel (Guarded b) req via l in o ≠ OutOfFuel ∧ run_ok fuel o l l'.
Proof.
  induction fuel as [|fuel IH]; intros req via l [Hc Hp] Hf Hv; [cbn in Hf; lia|]. cbn [NetPolicy.Do]. rewrite RoundTrip_guarded.
  destruct (refuse (rq_ctx req) (Host (rq_url req))) as [e|] eqn:Er; cbn iota.
  { split; [done|]. rewrite Hc. by apply run_refused. }
  assert (Hh : hop_ok first req).
  { split; [done|]. split; [by rewrite <-Hc|]. destruct Hp as [[_ ->]|[_ ?]]; [by left|by right]. }
  destruct (serve req) as [|u]; [split; [done|]; eapply run_sends; [done|]; by apply run_nothing|].
  set (next := Request _ _ _ _). assert (Hhead : head (via ++ [req])%list = Some first).
  { destruct Hp as [[-> ->]|[Hhd _]]; [done|]. destruct via; [done|]. by injection Hhd as ->. }
  pose proof (CheckRedirect_none next (via ++ [req])%list first (Log (sent l ++ [req]) (dialed l) (audited l)) Hhead) as Hr.
  destruct (CheckRedirect None next (via ++ [req])%list _) as [[e|] l1].
  - split; [done|]. eapply run_sends; [done|]. destruct e as [f t| |n]; [|subst l1; by apply run_nothing|subst l1; by apply run_nothing].
    destruct Hr as [-> ->]. change (rq_ctx next) with (rq_ctx req). rewrite Hc. apply run_refused; [done|]. done.
  - destruct Hr as (-> & Hlen & Hor). specialize (IH next (via ++ [req])%list (Log (sent l ++ [req]) (dialed l) (audited l))).
    destruct (Do fuel (Guarded b) next (via ++ [req])%list _) as [o l']. destruct IH as [H1 H2].
    + split; [done|]. right. done.
    + rewrite length_app. cbn. lia.
    + lia.
    + split; [done|]. by eapply run_sends.
Qed.

End Run.

(** C34. A client of the policy, whatever the servers answer: it ends after at most
    eleven requests; everything it sends is in the context of the first request
    and permitted by it, so offline only to loopback; a request to another
    origin is sent only when the first one carried no header that may not leave
    its origin; and a refusal is reported to the audit sink once, nothing else
    is. *)
Theorem client_egress serve copy base req l :
  let '(o, l') := NewClientDo ToASCII ToLower EqualFold serve copy base req l in
  o ≠ OutOfFuel ∧ ∃ new, sent l' = (sent l ++ new)%list ∧ dialed l' = dialed l ∧ (length new ≤ 11)%nat ∧
  (∀ r, r ∈ new → rq_ctx r = rq_ctx req ∧ refuse (rq_ctx req) (Host (rq_url r)) = None ∧
     (IsOffline (rq_ctx req) = true → isLoopback (Host (rq_url r)) = true) ∧
     (r = req ∨ sameOrigin (rq_url req) (rq_url r) = true ∨ carriesUnsafeHeaders (rq_header req) = false)) ∧
  ∃ rs, audited l' = (audited l ++ rs)%list ∧ Forall (refused_by o) rs ∧ length rs = (if is_refusal o && auditing (rq_ctx req) then 1 else 0)%nat.
Proof.
  unfold NewClientDo. destruct (Guard_guarded base (Some base)) as [b ->].
  pose proof (Do_ok serve copy b req (S maxRedirects) req [] l) as H. destruct (NetPolicy.Do _ _ _ _ _ _ _ _ _ _) as [o l'].
  destruct H as [Ho (new & H1 & H2 & H3 & H4 & rs & H5 & H6 & H7)]; [by split; [|left]|by rewrite Nat.add_0_r|apply Nat.le_0_l|]. split; [done|]. exists new.
  split; [done|]. split; [done|]. split; [done|]. split; [|eauto]. intros r Hr. rewrite Forall_forall in H4. destruct (H4 r Hr) as (Hc & Hn & Hor).
  split; [done|]. split; [done|]. split; [|done]. intros Hoff. by eapply refuse_offline.
Qed.

(** A guarded dial opens a socket only on a local network or to a destination
    the policy of its context permits, offline to loopback only, and otherwise
    opens none and reports the refusal once. *)
Theorem dial_egress c network addr l :
  match GuardDial ToASCII ToLower c network addr l with
  | (None, l') => l' = Log (sent l) (dialed l ++ [(network, addr)]) (audited l) ∧
      (isLocalNetwork network = true ∨ refuse c addr = None ∧ (IsOffline c = true → isLoopback addr = true))
  | (Some e, l') => isLocalNetwork network = false ∧ refuse c addr = Some e ∧ sent l' = sent l ∧ dialed l' = dialed l ∧
      audited l' = (audited l ++ (if auditing c then [MkRefusal e (Dial network) (dial_dest addr)] else []))%list
  end.
Proof.
  unfold GuardDial, CheckDial. destruct (isLocalNetwork network) eqn:En; cbn iota; [by split; [|left]|].
  destruct (refuse c addr) as [e|] eqn:Er; cbn iota.
  - destruct (audit_log c (MkRefusal e (Dial network) (dial_dest addr)) l) as (H1 & H2 & H3). done.
  - split; [done|]. right. split; [done|]. intros Hoff. by eapply refuse_offline.
Qed.

End Spec.

(** ** At concrete inputs *)

Definition ascii_lower (s : string) : string := (fix go s := match s with EmptyString => "" | String c s => String (lower_ascii c) (go s) end) s.
Definition ascii_idna (s : string) : option string := if String.eqb s "" then None else Some s.
Definition ascii_fold (a b : string) : bool := String.eqb (ascii_lower a) (ascii_lower b).

Definition listed : marks := Marks false None true.
Definition hosts : list string := ["graph.microsoft.com"; "*.example.org"; "*"; "10.0.0.1:80"].

Notation refuse' := (refuse ascii_idna ascii_lower).

Example hosts_decisions :
  let c := Some (WithAllowHosts ascii_idna ascii_lower listed hosts) in
  map (refuse' c) ["graph.microsoft.com"; "Graph.Microsoft.COM.:443"; "a.b.example.org"; "example.org"; "badexample.org"; "127.0.0.1:8080"; "[::1]"; "[127.0.0.1]"; "10.0.0.1"]
  = [None; None; None; Some ErrHostNotAllowed; Some ErrHostNotAllowed; None; None; Some ErrHostNotAllowed; Some ErrHostNotAllowed].
Proof. vm_compute. reflexivity. Qed.

