(* ===== verification/RunCache.v ===== *)
(** * Cached runs (go/transport/cmdsurface/cache.go, deadline.go)

    What [Run] does for a call the result cache handles: answer a fresh entry,
    wait on an identical call in flight, or lead the run and store its result.
    Calls interleave: each constructor of [event] is what one goroutine does
    between two points where another may run; flights are pointers in the code
    and indices here.  [runs] is a record of the successful leading runs, which
    the code does not keep and no step reads.

    The deadlines a run is bounded by are pure functions of the clock. *)

From Stdlib Require Import Ascii.
From S2P Require Import Prelude Fingerprint Topics StreamWire GoStrings KvStore Reflect Invocation Admission.

Local Open Scope Z_scope.

(** ** Deadlines (deadline.go) *)

(** [deadline]: the leaf's own timeout, else the bridge's; 0 for none. *)
Definition deadline (leafTimeout commandTimeout : Z) : Z := if 0 <? leafTimeout then leafTimeout else commandTimeout.

Definition WithCommandTimeout (d : Z) : Z := Z.max d 0.

(** The deadline of the context to run in, if any, and the bound armed here. *)
Definition armDeadline (d : Z) (ctx : option Z) (now : Z) : option Z * Z :=
  if d <=? 0 then (ctx, 0)
  else match ctx with
       | Some dl => if time_sub dl now <=? d then (ctx, 0) else (Some (now + d), d)
       | None => (Some (now + d), d)
       end.

(** [CommandTimeout]: the annotation, when it is a positive duration. *)
Definition CommandTimeout (parse : string → option Z) (annotation : option string) : res unit Z :=
  match annotation with
  | None => Ok 0
  | Some raw => match parse (TrimSpace raw) with Some d => if d <=? 0 then Err tt else Ok d | None => Err tt end
  end.

Inductive run_err :=
| ErrContextDeadline        (* context.DeadlineExceeded *)
| ErrContextCanceled
| ErrDeadlineExceeded (bound : Z)
| ErrRunner (code : nat).

(** [errors.Is(err, context.DeadlineExceeded)]: the bridge's own class is one. *)
Definition is_deadline (e : run_err) : bool := match e with ErrContextDeadline | ErrDeadlineExceeded _ => true | _ => false end.

(** [deadlineError]: [passed] is whether the context's deadline has passed. *)
Definition deadlineError (passed : bool) (e : option run_err) (bound : Z) : option run_err :=
  match e with
  | None => None
  | Some (ErrDeadlineExceeded b) => Some (ErrDeadlineExceeded b)
  | Some e => if negb (is_deadline e) || negb passed then Some e else Some (ErrDeadlineExceeded bound)
  end.

(** [queueDeadlineError]: the same for a wait for a slot (capacity.go). *)
Definition queueDeadlineError (passed : bool) (e : run_err) (bound : Z) : run_err :=
  if negb (is_deadline e) || negb passed then e else ErrDeadlineExceeded bound.

Definition passed (dl : option Z) (t : Z) : bool := match dl with Some dl => dl <=? t | None => false end.

(** [runBounded]: the capacity gate and the runner are functions of the context's
    deadline that say when they returned; also the bytes recorded against the
    caller's quota, of a successful run only. *)
Definition runBounded (d : Z) (ctx : option Z) (now : Z) (acquire : option Z → option run_err * Z)
    (runner : option Z → Z → res run_err Result * Z) : res run_err Result * option Z :=
  let '(dl, bound) := armDeadline d ctx now in
  match acquire dl with
  | (Some e, t) => (Err (queueDeadlineError (passed dl t) e bound), None)
  | (None, t) =>
      match runner dl t with
      | (Ok r, _) => (Ok r, Some (resultBytes r))
      | (Err e, t) => (Err (default e (deadlineError (passed dl t) (Some e) bound)), None)
      end
  end.

(** A call can shorten the bound and never lengthen it. *)
Lemma armDeadline_min d ctx now dl bound :
  0 < d < 2 ^ 63 - 1 → armDeadline d ctx now = (dl, bound) →
  dl = Some (match ctx with Some c => Z.min c (now + d) | None => now + d end) ∧ (bound = 0 ∨ bound = d ∧ dl = Some (now + d)).
Proof.
  intros Hd. unfold armDeadline, time_sub. destruct (Z.leb_spec d 0); [lia|]. destruct ctx as [c|]; [|intros [= <- <-]; eauto].
  case_match; intros [= <- <-]; (split; [f_equal; lia|auto]).
Qed.

(** A run cut short by its deadline says so, and is charged to nobody. *)
Lemma runBounded_deadline d ctx now acquire runner r q :
  0 < d < 2 ^ 63 - 1 → runBounded d ctx now acquire runner = (r, q) →
  (∀ dl, ∃ t, (acquire dl).2 = t ∧ ((acquire dl).1 = Some ErrContextDeadline → passed dl t = true)) →
  (∀ dl t, (runner dl t).1 = Err ErrContextDeadline → passed dl (runner dl t).2 = true) →
  r ≠ Err ErrContextDeadline ∧ (is_Some q ↔ ∃ x, r = Ok x).
Proof.
  intros Hd. unfold runBounded. destruct (armDeadline d ctx now) as [dl bound]. intros E Ha Hr.
  destruct (acquire dl) as [[e|] t] eqn:Ea.
  - injection E as <- <-. destruct (Ha dl) as (t' & <- & H). rewrite Ea in H. cbn in H. unfold queueDeadlineError.
    split; [|split; [by intros []|by intros [? ?]]]. destruct e; cbn; try case_match; try done. rewrite H in *; done.
  - specialize (Hr dl t). destruct (runner dl t) as [[x|e] t']; injection E as <- <-; [split; [done|]; split; eauto|]. cbn in Hr.
    split; [|split; [by intros []|by intros [? ?]]]. destruct e; cbn; try case_match; try done. rewrite Hr in *; done.
Qed.

(** ** The cache's part of a run (cache.go) *)

Class RunCodec `{CC : CacheCodec} := {
  res_Marshal : Result → option string;
  res_Unmarshal : string → option Result;
  entry_Marshal : cacheEntry → option string;
}.

(** What JSON promises of canonical results. *)
Class RunCodecLaws `{RC : RunCodec} : Prop := {
  entry_roundtrip r body canon tag exp raw :
    res_Marshal r = Some body → res_Unmarshal body = Some canon → entry_Marshal (mkEntry canon tag exp) = Some raw →
    entry_Unmarshal raw = Some (mkEntry canon tag exp);
  canon_exit r body canon : res_Marshal r = Some body → res_Unmarshal body = Some canon → ExitCode canon = ExitCode r;
}.

Inductive mark := CacheHit | CacheCoalesced.

Record CacheInfo := mkInfo { i_ETag : string; MaxAge : Z; Private : bool; Hit : bool }.

(** What a call returned, with the cache's mark for its audit record. *)
Record answer := mkAnswer { a_res : res run_err Result; a_mark : option mark; a_info : option CacheInfo }.

Record cacheFlight := mkFlight { f_done : bool; f_entry : option cacheEntry; waiters : Z }.

(** Where a call is in [runCached]. *)
Inductive phase :=
| Arrived (c : cacheCall)
| Waiting (c : cacheCall) (f : nat)
| Leading (c : cacheCall) (f : nat)
| Running (c : cacheCall) (lead : option nat)
| Answered (c : cacheCall) (a : answer)
| Gone (c : cacheCall).

Definition call_of (p : phase) : cacheCall :=
  match p with Arrived c | Waiting c _ | Leading c _ | Running c _ | Answered c _ | Gone c => c end.

(** A successful leading run: its key, its result and the entry it made. *)
Record run := mkRun { r_key : string; r_result : Result; r_entry : cacheEntry; r_at : Z; r_ttl : Z }.

Section RunCache.
Context `{RC : RunCodec} {C : Type} `{KC : Kv C}.

Record sys := mkSys {
  now : Z;
  store : C;
  inflight : gmap string nat;
  flights : list cacheFlight;
  calls : list phase;
  runs : list run;
}.

(** [join]: the flight for a key, and whether the caller leads it. *)
Definition join (key : string) (inflight : gmap string nat) (flights : list cacheFlight) : nat * bool * gmap string nat * list cacheFlight :=
  match inflight !! key with
  | Some f => (f, false, inflight, alter (λ x, mkFlight (f_done x) (f_entry x) (waiters x + 1)) f flights)
  | None => (length flights, true, <[key := length flights]> inflight, flights ++ [mkFlight false None 0])
  end.

(** [land]: the flight ends, handing [e] to whoever waited. *)
Definition land (key : string) (f : nat) (e : option cacheEntry) (inflight : gmap string nat) (flights : list cacheFlight) :
    gmap string nat * list cacheFlight :=
  (delete key inflight, alter (λ x, mkFlight true e (waiters x)) f flights).

(** [store]: the entry to hand on, whether or not the store took it. *)
Definition store_result (c : cacheCall) (now : Z) (r : Result) (s : C) : option cacheEntry * C :=
  match res_Marshal r with
  | None => (None, s)
  | Some body =>
      match res_Unmarshal body with
      | None => (None, s)
      | Some canon =>
          let tag := EncodeToString (take 16 (sha256.Sum256 (string_bytes (cc_key c +:+ String "010"%char body)))) in
          let e := mkEntry canon tag (now + cc_ttl c) in
          match entry_Marshal e with
          | None => (None, s)
          | Some raw => (Some e, snd (kv_PutWithTTL false now (cc_key c) raw (cc_ttl c) s))
          end
      end
  end.

Definition answerFromCache (c : cacheCall) (now : Z) (e : cacheEntry) (m : mark) : answer :=
  mkAnswer (Ok (e_Result e)) (Some m) (Some (mkInfo (ETag e) (Z.max (time_sub (Expires e) now) 0) (private c) true)).

Definition uncached (r : res run_err Result) : answer := mkAnswer r None None.

(** ** Steps *)

Inductive event :=
| Tick (d : Z)                                   (* time passes *)
| Arrive (ctx : bool) (key : string) (ttl : Z) (priv : bool)  (* a call is admitted, looking the key up *)
| Start (i : nat)                                (* runCached up to the join *)
| Lead (i : nat) (ctx : bool)                    (* the leader's second lookup *)
| Finish (i : nat) (r : res run_err Result)      (* the run ends *)
| Panic (i : nat)                                (* the run panics *)
| Wake (i : nat)                                 (* the flight is done *)
| Cancel (i : nat) (e : run_err).                (* the waiting caller goes away *)

Definition set_call (i : nat) (p : phase) (st : sys) : sys :=
  mkSys (now st) (store st) (inflight st) (flights st) (<[i := p]> (calls st)) (runs st).

Definition step (ev : event) (st : sys) : option sys :=
  match ev with
  | Tick d => if 0 <=? d then Some (mkSys (now st + d) (store st) (inflight st) (flights st) (calls st) (runs st)) else None
  | Arrive ctx key ttl priv =>
      if ttl <=? 0 then None else
      let '(e, s) := lookup_entry ctx (now st) key (store st) in
      Some (mkSys (now st) s (inflight st) (flights st) (calls st ++ [Arrived (mkCacheCall key ttl priv e)]) (runs st))
  | Start i =>
      match calls st !! i with
      | Some (Arrived c) =>
          match hit c with
          | Some e => Some (set_call i (Answered c (answerFromCache c (now st) e CacheHit)) st)
          | None =>
              let '(f, leader, inf, fl) := join (cc_key c) (inflight st) (flights st) in
              Some (mkSys (now st) (store st) inf fl (<[i := if (leader : bool) then Leading c f else Waiting c f]> (calls st)) (runs st))
          end
      | _ => None
      end
  | Lead i ctx =>
      match calls st !! i with
      | Some (Leading c f) =>
          match lookup_entry ctx (now st) (cc_key c) (store st) with
          | (Some e, s) =>
              let '(inf, fl) := land (cc_key c) f (Some e) (inflight st) (flights st) in
              Some (mkSys (now st) s inf fl (<[i := Answered c (answerFromCache c (now st) e CacheHit)]> (calls st)) (runs st))
          | (None, s) => Some (mkSys (now st) s (inflight st) (flights st) (<[i := Running c (Some f)]> (calls st)) (runs st))
          end
      | _ => None
      end
  | Finish i r =>
      match calls st !! i with
      | Some (Running c (Some f)) =>
          let '(e, s) := match r with
                         | Ok res => if ExitCode res =? 0 then store_result c (now st) res (store st) else (None, store st)
                         | Err _ => (None, store st)
                         end in
          let '(inf, fl) := land (cc_key c) f e (inflight st) (flights st) in
          let a := match e with
                   | Some e => mkAnswer (Ok (e_Result e)) None (Some (mkInfo (ETag e) (cc_ttl c) (private c) false))
                   | None => uncached r
                   end in
          Some (mkSys (now st) s inf fl (<[i := Answered c a]> (calls st))
                  (match e, r with
                   | Some e, Ok res => runs st ++ [mkRun (cc_key c) res e (now st) (cc_ttl c)]
                   | _, _ => runs st
                   end))
      | Some (Running c None) => Some (set_call i (Answered c (uncached r)) st)
      | _ => None
      end
  | Panic i =>
      match calls st !! i with
      | Some (Running c (Some f)) =>
          let '(inf, fl) := land (cc_key c) f None (inflight st) (flights st) in
          Some (mkSys (now st) (store st) inf fl (<[i := Gone c]> (calls st)) (runs st))
      | Some (Running c None) => Some (set_call i (Gone c) st)
      | _ => None
      end
  | Wake i =>
      match calls st !! i with
      | Some (Waiting c f) =>
          match flights st !! f with
          | Some (mkFlight true (Some e) _) => Some (set_call i (Answered c (answerFromCache c (now st) e CacheCoalesced)) st)
          | Some (mkFlight true None _) => Some (set_call i (Running c None) st)
          | _ => None
          end
      | _ => None
      end
  | Cancel i e =>
      match calls st !! i with
      | Some (Waiting c f) => Some (set_call i (Answered c (uncached (Err e))) st)
      | _ => None
      end
  end.

Definition run_events (evs : list event) (st : sys) : option sys := foldl (λ o ev, st ← o; step ev st) (Some st) evs.

(** ** Flights *)

Definition key_of (p : phase) : string := cc_key (call_of p).
Definition leads (p : phase) : option nat := match p with Leading _ f | Running _ (Some f) => Some f | _ => None end.
Definition waits (p : phase) : option nat := match p with Waiting _ f => Some f | _ => None end.

(** The flights and the calls agree, [P] holding of what a key's flight handed on. *)
Record flights_ok (P : string → cacheEntry → Prop) (inf : gmap string nat) (fl : list cacheFlight) (cs : list phase) : Prop := mkFlightsOk {
  fo_mine i p f : cs !! i = Some p → leads p = Some f → inf !! key_of p = Some f;
  fo_one i j p q f : cs !! i = Some p → cs !! j = Some q → leads p = Some f → leads q = Some f → i = j;
  fo_led k f : inf !! k = Some f → ∃ i p, cs !! i = Some p ∧ leads p = Some f ∧ key_of p = k;
  fo_open k f : inf !! k = Some f → ∃ x, fl !! f = Some x ∧ f_done x = false;
  fo_wait i p f : cs !! i = Some p → waits p = Some f →
    ∃ x, fl !! f = Some x ∧ if f_done x then ∀ e, f_entry x = Some e → P (key_of p) e else inf !! key_of p = Some f;
}.

Definition idle (p : phase) : Prop := leads p = None ∧ waits p = None.

Lemma flights_mono (P Q : string → cacheEntry → Prop) inf fl cs :
  (∀ k e, P k e → Q k e) → flights_ok P inf fl cs → flights_ok Q inf fl cs.
Proof.
  intros H [? ? ? ? W]. split; [done..|]. intros i p f Hi Hw. destruct (W i p f Hi Hw) as (x & Hx & Hd). exists x. split; [done|].
  destruct (f_done x); eauto.
Qed.

(** A call that leads nothing moves on to where it neither leads nor waits. *)
Lemma flights_rest P inf fl cs i p q :
  flights_ok P inf fl cs → cs !! i = Some p → leads p = None → idle q → flights_ok P inf fl (<[i := q]> cs).
Proof.
  intros [M O L U W] Hi Hl [Hq1 Hq2].
  assert (∀ j r, <[i := q]> cs !! j = Some r → r = q ∨ cs !! j = Some r) as Hcs.
  { intros j r [(-> & -> & _)|[_ ?]]%list_lookup_insert_Some; auto. }
  split.
  - intros j r f Hj Hf. destruct (Hcs j r Hj) as [->|?]; [congruence|eauto].
  - intros j k r s f Hj Hk Hf Hf'. destruct (Hcs j r Hj) as [->|?], (Hcs k s Hk) as [->|?]; try congruence. eauto.
  - intros k f Hk. destruct (L k f Hk) as (j & r & Hj & Hf & Hr). exists j, r. split; [|done].
    rewrite list_lookup_insert_ne; [done|]. intros ->. congruence.
  - done.
  - intros j r f Hj Hf. destruct (Hcs j r Hj) as [->|?]; [congruence|eauto].
Qed.

Lemma flights_arrive P inf fl cs p : flights_ok P inf fl cs → idle p → flights_ok P inf fl (cs ++ [p]).
Proof.
  intros [M O L U W] [H1 H2].
  assert (∀ j r, (cs ++ [p]) !! j = Some r → r = p ∨ cs !! j = Some r) as Hcs.
  { intros j r [?|[_ ?]]%lookup_app_Some; [auto|]. left. by apply list_lookup_singleton_Some in H as [_ ?]. }
  split.
  - intros j r f Hj Hf. destruct (Hcs j r Hj) as [->|?]; [congruence|eauto].
  - intros j k r s f Hj Hk Hf Hf'. destruct (Hcs j r Hj) as [->|?], (Hcs k s Hk) as [->|?]; try congruence. eauto.
  - intros k f Hk. destruct (L k f Hk) as (j & r & Hj & ?). exists j, r. split; [by apply lookup_app_l_Some|done].
  - done.
  - intros j r f Hj Hf. destruct (Hcs j r Hj) as [->|?]; [congruence|eauto].
Qed.

Lemma flights_join P inf fl cs i c f leader inf' fl' :
  flights_ok P inf fl cs → cs !! i = Some (Arrived c) → join (cc_key c) inf fl = (f, leader, inf', fl') →
  flights_ok P inf' fl' (<[i := if leader : bool then Leading c f else Waiting c f]> cs).
Proof.
  intros [M O L U W] Hi. unfold join. destruct (inf !! cc_key c) as [g|] eqn:Hk; intros; simplify_eq.
  - set (bump := λ x, mkFlight (f_done x) (f_entry x) (waiters x + 1)).
    assert (∀ j r, <[i := Waiting c f]> cs !! j = Some r → r = Waiting c f ∨ cs !! j = Some r) as Hcs.
    { intros j r [(-> & -> & _)|[_ ?]]%list_lookup_insert_Some; auto. }
    assert (∀ g x, fl !! g = Some x → ∃ y, alter bump f fl !! g = Some y ∧ f_done y = f_done x ∧ f_entry y = f_entry x) as Hfl.
    { intros g x Hx. destruct (decide (g = f)) as [->|]; [exists (bump x); by rewrite list_lookup_alter_eq, Hx|].
      exists x. by rewrite list_lookup_alter_ne. }
    split.
    + intros j r g Hj Hg. destruct (Hcs j r Hj) as [->|?]; [done|eauto].
    + intros j k r s g Hj Hk' Hg Hg'. destruct (Hcs j r Hj) as [->|?], (Hcs k s Hk') as [->|?]; try done. eauto.
    + intros k g Hg. destruct (L k g Hg) as (j & r & Hj & Hr). exists j, r. split; [|done].
      rewrite list_lookup_insert_ne; [done|]. intros ->. rewrite Hi in Hj. injection Hj as <-. by destruct Hr.
    + intros k g Hg. destruct (U k g Hg) as (x & Hx & Hd). destruct (Hfl g x Hx) as (y & Hy & E & _). exists y. by rewrite E.
    + intros j r g Hj Hg. destruct (Hcs j r Hj) as [->|Hj'].
      * injection Hg as <-. destruct (U _ _ Hk) as (x & Hx & Hd). destruct (Hfl f x Hx) as (y & Hy & E & _). exists y. by rewrite E, Hd.
      * destruct (W j r g Hj' Hg) as (x & Hx & Hd). destruct (Hfl g x Hx) as (y & Hy & E & E'). exists y. by rewrite E, E'.
  - assert (∀ k g, inf !! k = Some g → (g < length fl)%nat) as Hlt.
    { intros k g Hg. destruct (U k g Hg) as (x & Hx & _). by eapply lookup_lt_Some. }
    assert (∀ j r, <[i := Leading c (length fl)]> cs !! j = Some r → (j = i ∧ r = Leading c (length fl)) ∨ (j ≠ i ∧ cs !! j = Some r)) as Hcs.
    { intros j r [(-> & -> & _)|[? ?]]%list_lookup_insert_Some; auto. }
    assert (∀ j r g, cs !! j = Some r → leads r = Some g → (g < length fl)%nat ∧ key_of r ≠ cc_key c) as Hold.
    { intros j r g Hj Hg. specialize (M j r g Hj Hg). split; [eauto|congruence]. }
    split.
    + intros j r g Hj Hg. destruct (Hcs j r Hj) as [[-> ->]|[_ Hj']]; [injection Hg as <-; by simplify_map_eq|].
      rewrite lookup_insert_ne; [eauto|]. intros E. by destruct (Hold j r g Hj' Hg).
    + intros j k r s g Hj Hk' Hg Hg'. destruct (Hcs j r Hj) as [[-> ->]|[_ Hj']], (Hcs k s Hk') as [[-> ->]|[_ Hk2]]; try done.
      * injection Hg as <-. destruct (Hold k s _ Hk2 Hg'). lia.
      * injection Hg' as <-. destruct (Hold j r _ Hj' Hg). lia.
      * eauto.
    + intros k g [[<- <-]|[Hne Hg]]%lookup_insert_Some.
      * exists i, (Leading c (length fl)). split; [|done]. apply list_lookup_insert_eq. by eapply lookup_lt_Some.
      * destruct (L k g Hg) as (j & r & Hj & Hr). exists j, r. split; [|done]. rewrite list_lookup_insert_ne; [done|]. intros ->. rewrite Hi in Hj. injection Hj as <-. by destruct Hr.
    + intros k g [[<- <-]|[Hne Hg]]%lookup_insert_Some.
      * exists (mkFlight false None 0). split; [|done]. by rewrite lookup_app_r, Nat.sub_diag.
      * destruct (U k g Hg) as (x & Hx & Hd). exists x. split; [by apply lookup_app_l_Some|done].
    + intros j r g Hj Hg. destruct (Hcs j r Hj) as [[-> ->]|[_ Hj']]; [done|].
      destruct (W j r g Hj' Hg) as (x & Hx & Hd). exists x. split; [by apply lookup_app_l_Some|]. destruct (f_done x); [done|].
      rewrite lookup_insert_ne; [done|]. congruence.
Qed.

(** The leader that found nothing stored goes on to run. *)
Lemma flights_promote P inf fl cs i c f :
  flights_ok P inf fl cs → cs !! i = Some (Leading c f) → flights_ok P inf fl (<[i := Running c (Some f)]> cs).
Proof.
  intros [M O L U W] Hi.
  assert (∀ j r, <[i := Running c (Some f)]> cs !! j = Some r →
                 ∃ r', cs !! j = Some r' ∧ leads r' = leads r ∧ waits r' = waits r ∧ key_of r' = key_of r) as Hcs.
  { intros j r [(-> & <- & _)|[_ ?]]%list_lookup_insert_Some; eauto. }
  split.
  - intros j r g Hj Hg. destruct (Hcs j r Hj) as (r' & Hj' & E & _ & <-). eapply M; [done|congruence].
  - intros j k r s g Hj Hk Hg Hg'. destruct (Hcs j r Hj) as (r' & Hj' & E & _), (Hcs k s Hk) as (s' & Hk' & E' & _).
    eapply (O j k r' s' g); congruence.
  - intros k g Hg. destruct (L k g Hg) as (j & r & Hj & Hr & Hk). destruct (decide (j = i)) as [->|].
    + rewrite Hi in Hj. injection Hj as <-. exists i, (Running c (Some f)). split; [|done].
      apply list_lookup_insert_eq. by eapply lookup_lt_Some.
    + exists j, r. by rewrite list_lookup_insert_ne.
  - done.
  - intros j r g Hj Hg. destruct (Hcs j r Hj) as (r' & Hj' & _ & E & <-). eapply W; [done|congruence].
Qed.

(** The leader lands its flight and is done. *)
Lemma flights_land P inf fl cs i p f e inf' fl' q :
  flights_ok P inf fl cs → cs !! i = Some p → leads p = Some f → land (key_of p) f e inf fl = (inf', fl') →
  (∀ x, e = Some x → P (key_of p) x) → idle q → flights_ok P inf' fl' (<[i := q]> cs).
Proof.
  intros [M O L U W] Hi Hf. unfold land. intros [= <- <-] HP [Hq1 Hq2].
  assert (∀ j r, <[i := q]> cs !! j = Some r → r = q ∨ j ≠ i ∧ cs !! j = Some r) as Hcs.
  { intros j r [(-> & -> & _)|[? ?]]%list_lookup_insert_Some; auto. }
  assert (inf !! key_of p = Some f) as Hkf by eauto.
  assert (∀ k, inf !! k = Some f → k = key_of p) as Hinj.
  { intros k Hk. destruct (L k f Hk) as (j & r & Hj & Hr & <-). by rewrite (O j i r p f) in Hj; [congruence|..]. }
  set (done x := mkFlight true e (waiters x)).
  assert (∀ g, g ≠ f → alter done f fl !! g = fl !! g) as Hfl by (intros; by apply list_lookup_alter_ne).
  split.
  - intros j r g Hj Hg. destruct (Hcs j r Hj) as [->|[Hne Hj']]; [congruence|]. rewrite lookup_delete_ne; [eauto|].
    intros E. apply Hne, (O j i r p f); [done..| |done]. rewrite E in Hkf. specialize (M j r g Hj' Hg). congruence.
  - intros j k r s g Hj Hk Hg Hg'. destruct (Hcs j r Hj) as [->|[_ ?]], (Hcs k s Hk) as [->|[_ ?]]; try congruence. eauto.
  - intros k g [Hne Hg]%lookup_delete_Some. destruct (L k g Hg) as (j & r & Hj & Hr & Hk). exists j, r. split; [|done].
    rewrite list_lookup_insert_ne; [done|]. intros ->. congruence.
  - intros k g [Hne Hg]%lookup_delete_Some. rewrite Hfl; [eauto|]. intros ->. by apply Hne, eq_sym, Hinj.
  - intros j r g Hj Hg. destruct (Hcs j r Hj) as [->|[Hne Hj']]; [congruence|]. destruct (W j r g Hj' Hg) as (x & Hx & Hd).
    destruct (decide (g = f)) as [->|Hgf].
    + exists (done x). rewrite list_lookup_alter_eq, Hx. split; [done|]. cbn. intros y ->.
      destruct (U _ _ Hkf) as (x' & Hx' & Hd'). rewrite Hx in Hx'. injection Hx' as <-. rewrite Hd' in Hd.
      rewrite (Hinj _ Hd). by apply HP.
    + exists x. rewrite Hfl by done. split; [done|]. destruct (f_done x); [done|]. rewrite lookup_delete_ne; [done|].
      intros E. rewrite <-E in Hd. congruence.
Qed.

(** ** Entries and answers *)

(** The entry of an earlier successful run under the key. *)
Definition made (rs : list run) (k : string) (e : cacheEntry) : Prop := ∃ r, r ∈ rs ∧ r_key r = k ∧ r_entry r = e.

Lemma made_app rs rs' k e : made rs k e → made (rs ++ rs') k e.
Proof. intros (r & ? & ? & ?). exists r. rewrite elem_of_app. eauto. Qed.

Definition run_ok (t : Z) (r : run) : Prop :=
  ExitCode (r_result r) = 0 ∧ ExitCode (e_Result (r_entry r)) = 0 ∧ Expires (r_entry r) = r_at r + r_ttl r ∧ r_at r ≤ t.

(** A marked answer hands on an entry of the call's key, unchanged. *)
Definition answer_ok (P : string → cacheEntry → Prop) (c : cacheCall) (a : answer) : Prop :=
  a_mark a ≠ None →
  ∃ e age, P (cc_key c) e ∧ a_res a = Ok (e_Result e) ∧ a_info a = Some (mkInfo (ETag e) age (private c) true) ∧ 0 ≤ age.

Definition call_ok (P : string → cacheEntry → Prop) (p : phase) : Prop :=
  (∀ e, hit (call_of p) = Some e → P (key_of p) e) ∧ match p with Answered c a => answer_ok P c a | _ => True end.

Lemma call_mono (P Q : string → cacheEntry → Prop) p : (∀ k e, P k e → Q k e) → call_ok P p → call_ok Q p.
Proof.
  intros H [H1 H2]. split; [eauto|]. destruct p; try done. intros Hm. destruct (H2 Hm) as (e & age & ? & ?). exists e, age. eauto.
Qed.

Lemma answered_from_cache (P : string → cacheEntry → Prop) c t e m : P (cc_key c) e → answer_ok P c (answerFromCache c t e m).
Proof. intros H _. exists e, (Z.max (time_sub (Expires e) t) 0). split_and!; try done. lia. Qed.

Lemma unmarked (P : string → cacheEntry → Prop) c a : a_mark a = None → answer_ok P c a.
Proof. intros H Hm. congruence. Qed.

Section proofs.
Context {RL : @RunCodecLaws CC RC} `{KLW : !KvLaws C}.

Definition store_ok (P : string → cacheEntry → Prop) (t : Z) (s : C) : Prop :=
  kv_inv s ∧ ∀ k x, live t (kv_view s) !! k = Some x → ∃ e, P k e ∧ entry_Unmarshal x.1 = Some e.

Lemma store_mono (P Q : string → cacheEntry → Prop) t t' s :
  (∀ k e, P k e → Q k e) → t ≤ t' → store_ok P t s → store_ok Q t' s.
Proof.
  intros H Ht [I V]. split; [done|]. intros k x [Hx Hl]%live_lookup. destruct (V k x) as (e & ? & ?); [|eauto].
  apply live_lookup. eauto using entry_live_mono.
Qed.

Lemma lookup_sound P ctx t k s o s' :
  store_ok P t s → lookup_entry ctx t k s = (o, s') → store_ok P t s' ∧ ∀ e, o = Some e → P k e ∧ t < Expires e.
Proof.
  intros [I V]. unfold lookup_entry. destruct (kv_Get ctx t k s) as [r s1] eqn:E. destruct (kv_get_law _ _ _ _ _ _ I E) as (I' & _ & S & R).
  assert (store_ok P t s1) as Hs1 by (split; [done|]; by rewrite S).
  destruct r as [[raw|]|]; intros [= <- <-]; (split; [done|]); try done. intros e He.
  destruct (live t (kv_view s) !! k) as [x|] eqn:Hl; [|done]. cbn in R. injection R as ->.
  destruct (V k x Hl) as (e' & HP & Hu). rewrite Hu in He. case_match; [|done]. simplify_eq. split; [done|lia].
Qed.

(** What a successful run stores is the entry it hands on. *)
Lemma store_sound (P : string → cacheEntry → Prop) c t r s e s' :
  store_ok P t s → store_result c t r s = (e, s') → (∀ x, e = Some x → P (cc_key c) x) →
  store_ok P t s' ∧ ∀ x, e = Some x → Expires x = t + cc_ttl c ∧ ExitCode (e_Result x) = ExitCode r.
Proof.
  intros [I V]. unfold store_result.
  destruct (res_Marshal r) as [body|] eqn:E1; [|intros [= <- <-]; by split].
  destruct (res_Unmarshal body) as [canon|] eqn:E2; [|intros [= <- <-]; by split].
  set (x := mkEntry canon _ _). destruct (entry_Marshal x) as [raw|] eqn:E3; [|intros [= <- <-]; by split].
  destruct (kv_PutWithTTL false t (cc_key c) raw (cc_ttl c) s) as [err s1] eqn:F. intros [= <- <-] HP.
  destruct (kv_ttl_law _ _ _ _ _ _ _ _ I F) as (I' & _ & Wr).
  split; [split; [done|]|intros ? [= <-]; eauto using canon_exit]. destruct err; [by rewrite Wr|].
  intros k y Hy. destruct Wr as (_ & Hsub & _). pose proof (lookup_weaken _ _ _ _ Hy Hsub) as [Hy' Hl]%live_lookup.
  apply lookup_insert_Some in Hy' as [[<- <-]|[_ Hy']]; [|apply V, live_lookup; eauto].
  exists x. split; [eauto|]. cbn. eapply entry_roundtrip; eauto.
Qed.

(** ** Every reachable state *)

Record cache_ok (st : sys) : Prop := mkCacheOk {
  co_store : store_ok (made (runs st)) (now st) (store st);
  co_flights : flights_ok (made (runs st)) (inflight st) (flights st) (calls st);
  co_calls : Forall (call_ok (made (runs st))) (calls st);
  co_runs : Forall (run_ok (now st)) (runs st);
}.

(** Nothing has been called yet, and the store holds nothing that is live. *)
Definition cold (st : sys) : Prop :=
  kv_inv (store st) ∧ live (now st) (kv_view (store st)) = ∅ ∧ inflight st = ∅ ∧ calls st = [] ∧ runs st = [].

Lemma cold_ok st : cold st → cache_ok st.
Proof.
  intros (I & V & F & C0 & R). split; rewrite ?F, ?C0, ?R, ?V; try done.
  - split; [done|]. intros k x. by rewrite V.
Qed.

Lemma calls_insert P cs i p q : Forall (call_ok P) cs → cs !! i = Some p → (call_ok P p → call_ok P q) → Forall (call_ok P) (<[i := q]> cs).
Proof. intros H Hi Hq. apply Forall_insert; [done|]. apply Hq. by eapply Forall_lookup_1. Qed.

(** A call that leads nothing moves on; nothing else changes. *)
Lemma rest_ok st i p q :
  cache_ok st → calls st !! i = Some p → leads p = None → idle q →
  (call_ok (made (runs st)) p → call_ok (made (runs st)) q) → cache_ok (set_call i q st).
Proof. intros [S F A R] Hi Hl Hq Hc. split; [done| |eapply calls_insert; eauto|done]. by eapply flights_rest. Qed.

(** The leader lands its flight with what it found or made. *)
Lemma landed_ok st s' rs i p f e inf fl a :
  cache_ok st → calls st !! i = Some p → leads p = Some f → land (key_of p) f e (inflight st) (flights st) = (inf, fl) →
  (∀ x, e = Some x → made (runs st ++ rs) (key_of p) x) → store_ok (made (runs st ++ rs)) (now st) s' → Forall (run_ok (now st)) rs →
  idle a → call_of a = call_of p → (∀ c b, a = Answered c b → answer_ok (made (runs st ++ rs)) c b) →
  cache_ok (mkSys (now st) s' inf fl (<[i := a]> (calls st)) (runs st ++ rs)).
Proof.
  intros [S F A R] Hi Hl Hld He Hs Hrs Ha Hc Hb. pose proof (made_app (runs st) rs) as Hm. split; cbn; [done| | |by apply Forall_app].
  - eapply flights_land; [by eapply flights_mono|done..].
  - eapply calls_insert; [|done|]; [eapply Forall_impl; [done|]; intros; by eapply call_mono|].
    intros [H _]. unfold key_of in H. split; [by rewrite Hc; unfold key_of; rewrite Hc|]. destruct a; try done. by apply Hb.
Qed.

Lemma tick_ok st d : 0 ≤ d → cache_ok st → cache_ok (mkSys (now st + d) (store st) (inflight st) (flights st) (calls st) (runs st)).
Proof.
  intros Hd [S F A R]. split; cbn; [apply (store_mono (made (runs st)) _ (now st)); [done|lia|done]|done..|].
  eapply Forall_impl; [done|]. intros r (? & ? & ? & ?). split_and!; try done. lia.
Qed.

Lemma arrive_ok st ctx key ttl priv e s :
  cache_ok st → lookup_entry ctx (now st) key (store st) = (e, s) →
  cache_ok (mkSys (now st) s (inflight st) (flights st) (calls st ++ [Arrived (mkCacheCall key ttl priv e)]) (runs st)).
Proof.
  intros [S F A R] E. destruct (lookup_sound _ _ _ _ _ _ _ S E) as [S' He]. split; cbn; [done|by apply flights_arrive| |done].
  apply Forall_app. split; [done|]. apply Forall_singleton. split; [|done]. intros x Hx. by apply He.
Qed.

Lemma finish_ok st st' i c f r :
  cache_ok st → calls st !! i = Some (Running c (Some f)) → step (Finish i r) st = Some st' → cache_ok st'.
Proof.
  intros Hok Hi. cbn [step]. rewrite Hi.
  assert (∀ inf fl a, land (cc_key c) f None (inflight st) (flights st) = (inf, fl) → a_mark a = None →
            cache_ok (mkSys (now st) (store st) inf fl (<[i := Answered c a]> (calls st)) (runs st))) as Hnone.
  { intros inf fl a El Ha. rewrite <-(app_nil_r (runs st)).
    eapply (landed_ok st (store st) [] i (Running c (Some f)) f None); try done.
    - rewrite app_nil_r. apply Hok.
    - intros ? ? [= <- <-]. by apply unmarked. }
  destruct r as [res|err].
  2: { destruct (land _ _ _ _ _) as [inf fl] eqn:El. intros [= <-]. by apply Hnone. }
  destruct (Z.eqb_spec (ExitCode res) 0) as [Hz|].
  2: { destruct (land _ _ _ _ _) as [inf fl] eqn:El. intros [= <-]. by apply Hnone. }
  destruct (store_result c (now st) res (store st)) as [[e|] s] eqn:Es; destruct (land _ _ _ _ _) as [inf fl] eqn:El; intros [= <-].
  - set (rs := [mkRun (cc_key c) res e (now st) (cc_ttl c)]).
    assert (made (runs st ++ rs) (cc_key c) e) as Hm by (exists (mkRun (cc_key c) res e (now st) (cc_ttl c)); set_solver).
    destruct (store_sound (made (runs st ++ rs)) c (now st) res (store st) (Some e) s) as [Hs Hx]; [|done|by intros ? [= <-]|].
    { eapply store_mono; [|reflexivity|apply Hok]. intros k x. apply made_app. }
    destruct (Hx e eq_refl) as [Hexp Hex].
    eapply landed_ok; try done.
    + by intros ? [= <-].
    + apply Forall_singleton. split_and!; cbn; try done. by rewrite Hex.
    + intros ? ? [= <- <-]. by apply unmarked.
  - replace s with (store st); [by apply Hnone|]. unfold store_result in Es. by repeat case_match; simplify_eq.
Qed.

Lemma cache_step ev st st' : cache_ok st → step ev st = Some st' → cache_ok st'.
Proof.
  intros Hok. destruct ev as [d|ctx key ttl priv|i|i ctx|i r|i|i|i e]; try (destruct (calls st !! i) as [p|] eqn:Hi; cbn [step]; rewrite ?Hi; [|done]).
  - cbn. destruct (Z.leb_spec 0 d); [|done]. intros [= <-]. by apply tick_ok.
  - cbn. case_match; [done|]. destruct (lookup_entry _ _ _ _) as [o s] eqn:E. intros [= <-]. by eapply arrive_ok.
  - destruct p as [c| | | | |]; try done. destruct (hit c) as [e|] eqn:Hh.
    + intros [= <-]. eapply rest_ok; try done. intros [Hc _]. split; [done|]. by apply answered_from_cache, Hc.
    + destruct (join _ _ _) as [[[f leader] inf] fl] eqn:Ej. intros [= <-]. destruct Hok as [S F A R]. split; cbn; [done| | |done].
      * by eapply flights_join.
      * eapply calls_insert; [done..|]. intros [Hc _]. by destruct leader.
  - destruct p as [| |c f| | |]; try done. destruct (lookup_entry _ _ _ _) as [[e|] s] eqn:El.
    + destruct (land _ _ _ _ _) as [inf fl] eqn:Eland. intros [= <-].
      destruct (lookup_sound _ _ _ _ _ _ _ (co_store _ Hok) El) as [Hs He]. destruct (He e eq_refl) as [Hm _].
      rewrite <-(app_nil_r (runs st)). eapply (landed_ok st s [] i (Leading c f) f (Some e)); rewrite ?app_nil_r; try done.
      * by intros ? [= <-].
      * intros ? ? [= <- <-]. by apply answered_from_cache.
    + intros [= <-]. destruct (lookup_sound _ _ _ _ _ _ _ (co_store _ Hok) El) as [Hs _].
      destruct Hok as [S F A R]. split; cbn; [done|by apply flights_promote| |done]. by eapply calls_insert.
  - destruct p as [| | |c [f|]| |]; try done.
    + pose proof (finish_ok st st' i c f r Hok Hi) as H. cbn [step] in H. by rewrite Hi in H.
    + intros [= <-]. eapply rest_ok; try done. intros [Hc _]. split; [done|]. by apply unmarked.
  - destruct p as [| | |c [f|]| |]; try done.
    + destruct (land _ _ _ _ _) as [inf fl] eqn:El. intros [= <-]. rewrite <-(app_nil_r (runs st)).
      eapply (landed_ok st (store st) [] i (Running c (Some f)) f None); rewrite ?app_nil_r; try done. apply Hok.
    + intros [= <-]. by eapply rest_ok.
  - destruct p as [|c f| | | |]; try done. destruct (flights st !! f) as [x|] eqn:Hf; [|done].
    destruct (fo_wait _ _ _ _ (co_flights _ Hok) i _ f Hi eq_refl) as (x' & Hx & Hd). rewrite Hf in Hx. injection Hx as <-.
    destruct x as [[] [e|] w]; try done; intros [= <-].
    + eapply rest_ok; try done. intros [Hc _]. split; [done|]. by apply answered_from_cache, Hd.
    + by eapply rest_ok.
  - destruct p as [|c f| | | |]; try done. intros [= <-]. eapply rest_ok; try done. intros [Hc _]. split; [done|]. by apply unmarked.
Qed.

Lemma events_snoc evs ev st : run_events (evs ++ [ev]) st = (st' ← run_events evs st; step ev st').
Proof. unfold run_events. by rewrite foldl_app. Qed.

Lemma reachable_ok evs st st' : cold st → run_events evs st = Some st' → cache_ok st'.
Proof.
  intros H. revert st'. induction evs as [|ev evs IH] using rev_ind; intros st'.
  - intros [= <-]. by apply cold_ok.
  - rewrite events_snoc. intros (st1 & E & Hs)%bind_Some. eauto using cache_step.
Qed.

(** ** A stored result spares runs

    When the store takes and keeps every write, and leaders look up in a live
    context. *)

Definition exact_store : Prop :=
  ∀ t k v ttl s, kv_inv s → kv_open s = true → kv_fits t k v s ∧ fst (kv_PutWithTTL false t k v ttl s) = None.

Definition live_lead (ev : event) : Prop := match ev with Lead _ ctx => ctx = false | _ => True end.

(** Until when a run's result is surely served: stores round to milliseconds. *)
Definition good_until (r : run) : Z := r_at r + r_ttl r - 10 ^ 6.

Definition kept (t : Z) (s : C) (rs : list run) : Prop :=
  kv_open s = true ∧ ∀ r, r ∈ rs → t < good_until r →
    ∃ raw ex e, live t (kv_view s) !! r_key r = Some (raw, Some ex) ∧ good_until r ≤ ex ∧ entry_Unmarshal raw = Some e ∧ good_until r ≤ Expires e.

Definition spent (t : Z) (rs : list run) (p : phase) : Prop :=
  match p with Running c (Some _) => ∀ r, r ∈ rs → r_key r = cc_key c → good_until r ≤ t | _ => True end.

Definition spaced (rs : list run) : Prop :=
  ∀ i j r r', rs !! i = Some r → rs !! j = Some r' → (i < j)%nat → r_key r = r_key r' → good_until r ≤ r_at r'.

Record spares (st : sys) : Prop := mkSpares {
  sp_kept : kept (now st) (store st) (runs st);
  sp_spent : Forall (spent (now st) (runs st)) (calls st);
  sp_spaced : spaced (runs st);
}.

Lemma kept_later t t' s rs : t ≤ t' → kept t s rs → kept t' s rs.
Proof.
  intros Ht [Ho K]. split; [done|]. intros r Hr Hl. destruct (K r Hr) as (raw & ex & e & [Hv _]%live_lookup & Hex & Hu & He); [lia|].
  exists raw, ex, e. split_and!; try done. apply live_lookup. split; [done|]. cbn. apply Z.ltb_lt. lia.
Qed.

Lemma kept_same t s s' rs : kv_same t s s' → kv_open s' = kv_open s → kept t s rs → kept t s' rs.
Proof. intros E Ho [Ho' K]. split; [by rewrite Ho|]. by rewrite E. Qed.

Lemma lookup_kept ctx t k s o s' rs : kv_inv s → lookup_entry ctx t k s = (o, s') → kept t s rs → kept t s' rs.
Proof.
  intros I. unfold lookup_entry. destruct (kv_Get ctx t k s) as [r s1] eqn:E. destruct (kv_get_law _ _ _ _ _ _ I E) as (_ & Ho & S & _).
  intros El K. replace s' with s1; [by eapply kept_same|]. by destruct r as [[raw|]|]; simplify_eq.
Qed.

(** A lookup that finds nothing: every earlier result of the key is spent. *)
Lemma miss_spent t k s s' rs : kv_inv s → lookup_entry false t k s = (None, s') → kept t s rs → ∀ r, r ∈ rs → r_key r = k → good_until r ≤ t.
Proof.
  intros I El [Ho K] r Hr <-. destruct (Z.le_gt_cases (good_until r) t) as [|Hlt]; [done|]. exfalso.
  destruct (K r Hr Hlt) as (raw & ex & e & Hv & Hex & Hu & He). unfold lookup_entry in El.
  destruct (kv_Get false t (r_key r) s) as [o s1] eqn:E. destruct (kv_get_law _ _ _ _ _ _ I E) as (_ & _ & _ & R).
  destruct o as [o|]; [|destruct R; congruence]. rewrite R, Hv in El. cbn in El. rewrite Hu in El. case_match; [done|]. lia.
Qed.

Lemma store_kept c t r s e s' rs :
  exact_store → kv_inv s → store_result c t r s = (Some e, s') → kept t s rs → (∀ r, r ∈ rs → r_key r = cc_key c → good_until r ≤ t) →
  kept t s' (rs ++ [mkRun (cc_key c) r e t (cc_ttl c)]).
Proof.
  intros X I. unfold store_result.
  destruct (res_Marshal r) as [body|] eqn:E1; [|done]. destruct (res_Unmarshal body) as [canon|] eqn:E2; [|done].
  set (x := mkEntry canon _ _). destruct (entry_Marshal x) as [raw|] eqn:E3; [|done]. intros [= <- <-] [Ho K] Hsp.
  destruct (X t (cc_key c) raw (cc_ttl c) s I Ho) as [Hfit Hnone].
  destruct (kv_PutWithTTL _ _ _ _ _ _) as [err s1] eqn:F. cbn in Hnone. subst err.
  destruct (kv_ttl_law _ _ _ _ _ _ _ _ I F) as (_ & Ho' & _ & _ & Weq). split; [by cbn; rewrite Ho'|]. cbn.
  intros r' Hr' Hlt. rewrite (Weq Hfit). apply elem_of_app in Hr' as [Hr'|Hr'%list_elem_of_singleton].
  - destruct (K r' Hr' Hlt) as (raw' & ex & e & [Hv Hl]%live_lookup & Hrest). exists raw', ex, e. split; [|done].
    apply live_lookup. split; [|done]. rewrite lookup_insert_ne; [done|]. intros E. specialize (Hsp r' Hr' (eq_sym E)). lia.
  - subst r'. unfold good_until in *. cbn in *. destruct (kv_expires_bound t (cc_ttl c)) as (ex & Hex & Hb); [lia|].
    exists raw, ex, x. split_and!; try done; [|lia|by eapply entry_roundtrip|cbn; lia].
    apply live_lookup. rewrite lookup_insert_eq, Hex. split; [done|]. apply Z.ltb_lt. cbn. lia.
Qed.

Lemma spaced_snoc rs r : spaced rs → (∀ r', r' ∈ rs → r_key r' = r_key r → good_until r' ≤ r_at r) → spaced (rs ++ [r]).
Proof.
  intros H Hr i j r1 r2 Hi Hj Hlt E. apply lookup_app_Some in Hj as [Hj|[Hge Hj]].
  - apply (H i j); try done. rewrite lookup_app_l in Hi; [done|]. apply lookup_lt_Some in Hj. lia.
  - apply list_lookup_singleton_Some in Hj as [Hj ->]. rewrite lookup_app_l in Hi by lia. apply Hr; [by eapply list_elem_of_lookup_2|done].
Qed.

(** Other leaders are of other keys. *)
Lemma spent_others st i c f r rs :
  cache_ok st → Forall (spent (now st) rs) (calls st) → calls st !! i = Some (Running c (Some f)) → r_key r = cc_key c →
  ∀ q, spent (now st) (rs ++ [r]) q → Forall (spent (now st) (rs ++ [r])) (<[i := q]> (calls st)).
Proof.
  intros Hok Hs Hi Hr q Hq. apply Forall_lookup. intros j p [(<- & <- & _)|[Hne Hj]]%list_lookup_insert_Some; [done|].
  pose proof (Forall_lookup_1 _ _ _ _ Hs Hj) as Hp. destruct p as [| | |c' [g|]| |]; try done. intros r' [Hr'|Hr'%list_elem_of_singleton]%elem_of_app; [by apply Hp|].
  subst r'. intros Hk. exfalso. destruct (co_flights _ Hok) as [M O _ _ _]. pose proof (M i _ f Hi eq_refl) as H1. pose proof (M j _ g Hj eq_refl) as H2.
  unfold key_of in H1, H2. cbn in H1, H2. rewrite <-Hk, Hr, H1 in H2. injection H2 as <-. apply Hne. by eapply O.
Qed.

(** A step that runs nothing to its end: the call's new phase is no new run. *)
Lemma still_spares st s inf fl i q :
  spares st → kept (now st) s (runs st) → spent (now st) (runs st) q → spares (mkSys (now st) s inf fl (<[i := q]> (calls st)) (runs st)).
Proof. intros [K S D] Hk Hq. split; cbn; [done|by apply Forall_insert|done]. Qed.

Lemma finish_spares st st' i c f r :
  exact_store → cache_ok st → spares st → calls st !! i = Some (Running c (Some f)) → step (Finish i r) st = Some st' → spares st'.
Proof.
  intros X Hok Hsp Hi. cbn [step]. rewrite Hi. unfold land. destruct r as [res|err]; [|intros [= <-]; apply still_spares; [done|apply Hsp|done]].
  destruct (ExitCode res =? 0); [|intros [= <-]; apply still_spares; [done|apply Hsp|done]].
  destruct (store_result c (now st) res (store st)) as [[e|] s] eqn:Es; intros [= <-].
  - pose proof (Forall_lookup_1 _ _ _ _ (sp_spent _ Hsp) Hi) as Hc. destruct Hsp as [K S D]. split; cbn.
    + eapply store_kept; try done. apply Hok.
    + by eapply spent_others.
    + by apply spaced_snoc.
  - apply still_spares; [done| |done]. replace s with (store st); [apply Hsp|]. unfold store_result in Es. by repeat case_match; simplify_eq.
Qed.

Lemma step_spares ev st st' : exact_store → cache_ok st → spares st → live_lead ev → step ev st = Some st' → spares st'.
Proof.
  intros X Hok Hsp Hev. pose proof (proj1 (co_store _ Hok)) as I. pose proof (sp_kept _ Hsp) as K.
  destruct ev as [d|ctx key ttl priv|i|i ctx|i r|i|i|i e]; try (destruct (calls st !! i) as [p|] eqn:Hi; cbn [step]; rewrite ?Hi; [|done]).
  - cbn. destruct (Z.leb_spec 0 d); [|done]. intros [= <-]. destruct Hsp as [_ S D]. split; cbn; [eapply kept_later; [|done]; lia| |done].
    eapply Forall_impl; [done|]. intros p. destruct p as [| | |c [f|]| |]; try done. cbn. intros Hr r' H1 H2. specialize (Hr r' H1 H2). lia.
  - cbn. case_match; [done|]. destruct (lookup_entry _ _ _ _) as [o s] eqn:E. intros [= <-]. destruct Hsp as [_ S D].
    split; cbn; [by eapply lookup_kept| |done]. apply Forall_app. by rewrite Forall_singleton.
  - destruct p as [c| | | | |]; try done. destruct (hit c) as [e|]; [intros [= <-]; by apply still_spares|].
    destruct (join _ _ _) as [[[f leader] inf] fl]. intros [= <-]. apply still_spares; [done..|]. by destruct leader.
  - destruct p as [| |c f| | |]; try done. cbn in Hev. subst ctx. destruct (lookup_entry _ _ _ _) as [[e|] s] eqn:El.
    + unfold land. intros [= <-]. apply still_spares; [done| |done]. by eapply lookup_kept.
    + intros [= <-]. apply still_spares; [done|by eapply lookup_kept|]. intros r. by eapply miss_spent.
  - destruct p as [| | |c [f|]| |]; try done.
    + pose proof (finish_spares st st' i c f r X Hok Hsp Hi) as H. cbn [step] in H. by rewrite Hi in H.
    + intros [= <-]. by apply still_spares.
  - destruct p as [| | |c [f|]| |]; try done; unfold land; intros [= <-]; by apply still_spares.
  - destruct p as [|c f| | | |]; try done. destruct (flights st !! f) as [[[] [e|] w]|]; try done; intros [= <-]; by apply still_spares.
  - destruct p as [|c f| | | |]; try done. intros [= <-]. by apply still_spares.
Qed.

Lemma reachable_spares evs st st' :
  exact_store → cold st → kv_open (store st) = true → Forall live_lead evs → run_events evs st = Some st' → spares st'.
Proof.
  intros X H Ho. revert st'. induction evs as [|ev evs IH] using rev_ind; intros st' Hl.
  - intros [= <-]. destruct H as (I & _ & _ & HC & HR). split; rewrite ?HC, ?HR; try done. split; [done|]. intros r Hr. by apply not_elem_of_nil in Hr.
  - apply Forall_app in Hl as [Hl Hev]. rewrite Forall_singleton in Hev. rewrite events_snoc. intros (st1 & E & Hs)%bind_Some.
    eapply (step_spares ev st1); [done|by eapply reachable_ok|by apply IH|done..].
Qed.

(** ** Properties *)

(** C13. Whatever calls arrive, wait, run, fail, panic or are given up, in any
    interleaving: at most one call leads a run of a key at a time; an answer
    the cache marks, from the store or coalesced, is the unchanged result and
    entity tag of an earlier run that succeeded with exit code zero under the
    same key, so failures are never shared; and a lookup only ever finds such a
    result before the time to live of its run is over. *)
Theorem cached_answers_sound evs st st' :
  cold st → run_events evs st = Some st' →
  (∀ i j p q, calls st' !! i = Some p → calls st' !! j = Some q → is_Some (leads p) → is_Some (leads q) → key_of p = key_of q → i = j) ∧
  (∀ i c a, calls st' !! i = Some (Answered c a) → a_mark a ≠ None →
     ∃ r age, r ∈ runs st' ∧ r_key r = cc_key c ∧ ExitCode (r_result r) = 0 ∧ a_res a = Ok (e_Result (r_entry r)) ∧
              a_info a = Some (mkInfo (ETag (r_entry r)) age (private c) true)) ∧
  (∀ ctx k e s, lookup_entry ctx (now st') k (store st') = (Some e, s) →
     ∃ r, r ∈ runs st' ∧ r_key r = k ∧ r_entry r = e ∧ ExitCode (r_result r) = 0 ∧ r_at r ≤ now st' < r_at r + r_ttl r).
Proof.
  intros Hf Hr. pose proof (reachable_ok _ _ _ Hf Hr) as [S F A R].
  assert (∀ r, r ∈ runs st' → run_ok (now st') r) as HR by (by apply Forall_forall). split_and!.
  - intros i j p q Hi Hj [f Hp] [g Hq] Hk. destruct F as [M O _ _ _]. eapply O; try done.
    rewrite Hq. f_equal. pose proof (M i p f Hi Hp). pose proof (M j q g Hj Hq). congruence.
  - intros i c a Hi Hm. destruct (Forall_lookup_1 _ _ _ _ A Hi) as [_ Ha]. destruct (Ha Hm) as (e & age & (r & Hin & Hk & <-) & Ha1 & Ha2 & _).
    exists r, age. destruct (HR r Hin) as (? & _). split_and!; done.
  - intros ctx k e s El. destruct (lookup_sound _ _ _ _ _ _ _ S El) as [_ He]. destruct (He e eq_refl) as [(r & Hin & Hk & <-) Hexp].
    exists r. destruct (HR r Hin) as (? & _ & ? & ?). split_and!; try done. lia.
Qed.

(** C36. No waiter is forgotten: in every reachable state a call that waits
    either can take its flight's outcome now, or another call with the same key
    leads that flight, and whatever that leader does next, finishing with any
    result or panicking, lets the waiter go on; a leader that has yet to look
    the key up can do so and then runs or lets the waiter go on. *)
Theorem no_waiter_is_lost evs st st' i c f :
  cold st → run_events evs st = Some st' → calls st' !! i = Some (Waiting c f) →
  is_Some (step (Wake i) st') ∨
  ∃ j p, calls st' !! j = Some p ∧ leads p = Some f ∧ key_of p = cc_key c ∧
    match p with
    | Leading c' _ => ∀ ctx, ∃ st'', step (Lead j ctx) st' = Some st'' ∧ (calls st'' !! j = Some (Running c' (Some f)) ∨ is_Some (step (Wake i) st''))
    | _ => (∀ r, ∃ st'', step (Finish j r) st' = Some st'' ∧ is_Some (step (Wake i) st'')) ∧
           ∃ st'', step (Panic j) st' = Some st'' ∧ is_Some (step (Wake i) st'')
    end.
Proof.
  intros Hf Hr Hi. pose proof (reachable_ok _ _ _ Hf Hr) as [S F A R].
  destruct (fo_wait _ _ _ _ F i _ f Hi eq_refl) as (x & Hx & Hd). destruct x as [[] e w]; cbn in Hd.
  { left. cbn. rewrite Hi, Hx. destruct e; eauto. }
  right. destruct (fo_led _ _ _ _ F _ _ Hd) as (j & p & Hj & Hp & Hk). exists j, p. split_and!; try done.
  assert (i ≠ j) as Hij by (intros <-; rewrite Hi in Hj; by injection Hj as <-).
  assert (∀ s inf q rs e, is_Some (step (Wake i) (mkSys (now st') s inf (alter (λ x, mkFlight true e (waiters x)) f (flights st')) (<[j := q]> (calls st')) rs))) as Hwake.
  { intros s inf q rs e'. cbn. rewrite list_lookup_insert_ne, Hi by done. rewrite list_lookup_alter_eq, Hx. cbn. destruct e'; eauto. }
  destruct p as [| |c' g|c' [g|]| |]; try done; injection Hp as ->.
  - intros ctx. cbn [step]. rewrite Hj. destruct (lookup_entry _ _ _ _) as [[e'|] s]; unfold land; eexists; (split; [reflexivity|]); [right; apply Hwake|left].
    cbn. apply list_lookup_insert_eq. by eapply lookup_lt_Some.
  - split; [intros r|]; cbn [step]; rewrite Hj; unfold land; [|eexists; split; [reflexivity|apply Hwake]].
    destruct (match r with Ok _ => _ | Err _ => _ end) as [e' s]. eexists. split; [reflexivity|]. apply Hwake.
Qed.


End proofs.
End RunCache.

(** ** A cached read, run by one of three callers

    A text form of results that reads back, the cache over the SQLite driver,
    and a leader, a waiter and a late caller of one key. *)

From stdpp Require Import countable.
From S2P Require Import KvSqlite IdempotencyExamples.

Local Open Scope Z_scope.

Definition parts (r : Result) : Z * string * string * option (option string) * bool * bool :=
  (ExitCode r, Stdout r, Stderr r, Data r, Truncated r, Replayed r).

Definition whole_result (x : Z * string * string * option (option string) * bool * bool) : Result :=
  let '(c, o, e, d, t, p) := x in mkResult c o e d t p.

Lemma whole_parts r : whole_result (parts r) = r.
Proof. by destruct r. Qed.

#[export] Instance bit_cache : CacheCodec := {|
  doc_Marshal _ := None;
  entry_Unmarshal s := '(x, tag, exp) ← of_bits s ≫= decode; Some (mkEntry (whole_result x) tag exp);
  ParseDuration _ := None;
|}.

#[export] Instance bit_runs : RunCodec := {|
  res_Marshal r := Some (bits (encode (parts r)));
  res_Unmarshal s := whole_result <$> (of_bits s ≫= decode);
  entry_Marshal e := Some (bits (encode (parts (e_Result e), ETag e, Expires e)));
|}.

#[export] Instance bit_runs_laws : RunCodecLaws.
Proof.
  split.
  - intros r body canon tag exp raw _ _ [= <-]. cbn -[decode encode whole_result parts]. rewrite of_bits_bits. cbn -[decode encode whole_result parts].
    rewrite decode_encode. cbn -[whole_result parts]. by rewrite whole_parts.
  - intros r body canon [= <-]. cbn -[decode encode whole_result parts]. rewrite of_bits_bits. cbn -[decode encode whole_result parts]. rewrite decode_encode. cbn -[whole_result parts].
    rewrite whole_parts. by intros [= <-].
Qed.

#[export] Instance cache_order : MapOrder := elements_order.

Lemma sqlite_exact : exact_store (C := Store).
Proof. intros t k v ttl s _ Ho. split; [done|]. cbn. unfold PutWithTTL, exec_err. cbn in Ho. by destruct (db_closed s). Qed.

Abbreviation cached := (@sys Store).

Definition nine : Z := 1700000000 * 10 ^ 9.
Definition unused : cached := mkSys nine NewContext ∅ [] [] [].
Definition listing : Result := mkResult 0 "a b" "" None false false.
Definition minute : Z := 60 * 10 ^ 9.

(** Two identical calls, one waiting on the other, then one half a minute later
    and one after the minute is over. *)
Definition morning : list event :=
  [Arrive false "k" minute true; Arrive false "k" minute true; Start 0; Start 1; Lead 0 false; Tick 1000; Finish 0 (Ok listing); Wake 1;
   Tick (30 * 10 ^ 9); Arrive false "k" minute true; Start 2; Tick minute; Arrive false "k" minute true; Start 3; Lead 3 false;
   Finish 3 (Ok listing)].

Lemma unused_cold : cold unused.
Proof. split_and!; try done. Qed.

Definition marks (st : cached) : list (option mark) :=
  (λ p, match p with Answered _ a => a_mark a | _ => None end) <$> calls st.

Lemma cached_answers_sound_witness :
  ∃ st, run_events morning unused = Some st ∧ marks st = [None; Some CacheCoalesced; Some CacheHit; None] ∧ length (runs st) = 2%nat ∧
        ∃ r, r ∈ runs st ∧ r_key r = "k" ∧ ExitCode (r_result r) = 0.
Proof.
  destruct (run_events morning unused) as [st|] eqn:E; [|vm_compute in E; discriminate E]. exists st.
  pose proof (cached_answers_sound morning unused st unused_cold E) as (_ & H & _).
  vm_compute in E. injection E as <-. split; [reflexivity|]. split; [vm_compute; reflexivity|]. split; [vm_compute; reflexivity|].
  destruct (H 1%nat _ _ eq_refl) as (r & age & Hr & Hk & He & _); [discriminate|]. exists r. split_and!; [exact Hr|exact Hk|exact He].
Defined.


(** While the first call runs, the second can go on as soon as it ends. *)
Lemma no_waiter_is_lost_witness :
  ∃ st, run_events (take 5 morning) unused = Some st ∧
        (is_Some (step (Wake 1) st) ∨ ∃ j p, calls st !! j = Some p ∧ leads p = Some 0%nat ∧ key_of p = "k").
Proof.
  destruct (run_events (take 5 morning) unused) as [st|] eqn:E; [|vm_compute in E; discriminate E]. exists st. split; [reflexivity|].
  destruct (no_waiter_is_lost (take 5 morning) unused st 1 (mkCacheCall "k" minute true None) 0 unused_cold E) as [H|(j & p & H1 & H2 & H3 & _)].
  - vm_compute in E. injection E as <-. reflexivity.
  - left. exact H.
  - right. exists j, p. split_and!; [exact H1|exact H2|exact H3].
Defined.
