(* ===== verification/Consent.v ===== *)
(** * Consent: grants and the telemetry precedence chain
      (go/core/consent: grant.go, consent.go, resolve.go, donottrack.go)

    A grant is one decision about one capability for one subject.  Effects,
    durations and sources are strings in the code, so that an answer or a file
    can hold any; [Validate] says which are taken.  Times are nanoseconds, with
    Go's zero time as [zero_time]; errors keep their kind and not their text. *)

From Stdlib Require Import Ascii.
From S2P Require Import Prelude Topics StreamWire GoStrings Regexp.

Local Open Scope Z_scope.

(** January 1 of year 1, [time.Time{}]. *)
Definition zero_time : Z := - 62135596800 * 10 ^ 9.

Definition is_zero (t : Z) : bool := t =? zero_time.

(** ** The telemetry record (consent.go) *)

Definition StateUnknown : string := "unknown".
Definition StateGranted : string := "granted".
Definition StateDenied : string := "denied".

Definition SourcePrompt : string := "prompt".
Definition SourceFlag : string := "flag".
Definition SourceEnv : string := "env".
Definition SourceConfig : string := "config".

Record Decision := mkDecision { d_State : string; d_DecidedAt : Z; d_PromptVersion : Z; d_Source : string }.

Definition Granted (d : Decision) : bool := String.eqb (d_State d) StateGranted.

(** ** Grants (grant.go) *)

Definition CapTelemetry : string := "telemetry".
Definition Allow : string := "allow".
Definition Deny : string := "deny".
Definition Once : string := "once".
Definition Session : string := "session".
Definition Until : string := "until".
Definition Always : string := "always".

Definition Persisted (d : string) : bool := String.eqb d Until || String.eqb d Always.

Record Grant := mkGrant {
  g_Capability : string;
  g_Subject : string;
  g_Decision : string;
  g_Duration : string;
  g_DecidedAt : Z;
  g_ExpiresAt : Z;
  g_Source : string;
  g_PromptVersion : Z;
}.

#[export] Instance Grant_eq_dec : EqDecision Grant.
Proof. solve_decision. Defined.

(** [Grant{}]. *)
Definition no_grant : Grant := mkGrant "" "" "" "" zero_time zero_time "" 0.

Definition Expired (g : Grant) (now : Z) : bool := String.eqb (g_Duration g) Until && negb (now <? g_ExpiresAt g).

Inductive ErrorKind :=
| KindInvalidCapability
| KindInvalidSubject
| KindInvalidDecision
| KindInvalidDuration
| KindInvalidExpiry
| KindInvalidSource
| KindUnsupportedScope
| KindMalformedStore.

#[export] Instance ErrorKind_eq_dec : EqDecision ErrorKind.
Proof. solve_decision. Defined.

Definition maxCapabilityLen : nat := 128.
Definition maxSubjectLen : nat := 256.

Definition cap_segment (s : string) : bool :=
  match s with
  | EmptyString => false
  | String c s => is_lower c && all_chars (λ c, is_lower c || is_digit c || Ascii.eqb c "_") s
  end.

Definition ValidateCapability (id : string) : option ErrorKind :=
  if String.eqb id CapTelemetry then None
  else if (maxCapabilityLen <? String.length id)%nat then Some KindInvalidCapability
  else
    let segs := SplitOn "." id in
    if (length segs <? 2)%nat then Some KindInvalidCapability
    else if forallb cap_segment segs then None else Some KindInvalidCapability.

(** [utf8.ValidString]; every turn consumes a byte. *)
Fixpoint valid_utf8 (fuel : nat) (s : text) : bool :=
  match fuel with
  | O => true
  | S fuel => match decode_rune s with
              | Some (r, w) => negb ((r =? RuneError) && (w =? 1)%nat) && valid_utf8 fuel (drop w s)
              | None => true
              end
  end.

Definition IsSpace (r : Z) : bool :=
  within 9 r 13 || (r =? 32) || (r =? 0x85) || (r =? 0xA0) || (r =? 0x1680) || within 0x2000 r 0x200A || (r =? 0x2028) || (r =? 0x2029) ||
  (r =? 0x202F) || (r =? 0x205F) || (r =? 0x3000).

Definition IsControl (r : Z) : bool := within 0 r 0x1F || within 0x7F r 0x9F.

Definition ValidateSubject (s : string) : option ErrorKind :=
  if String.eqb s "" then None
  else if (maxSubjectLen <? String.length s)%nat then Some KindInvalidSubject
  else if negb (valid_utf8 (String.length s) (txt s)) then Some KindInvalidSubject
  else if existsb (λ r, IsSpace r || IsControl r) (runes_of (txt s)) then Some KindInvalidSubject
  else None.

Definition validateKey (c subject : string) : option ErrorKind :=
  match ValidateCapability c with Some e => Some e | None => ValidateSubject subject end.

Definition validSource (s : string) : bool :=
  String.eqb s SourcePrompt || String.eqb s SourceFlag || String.eqb s SourceEnv || String.eqb s SourceConfig.

Definition validate_duration (g : Grant) : option ErrorKind :=
  if String.eqb (g_Duration g) Once || String.eqb (g_Duration g) Session || String.eqb (g_Duration g) Always then
    if negb (is_zero (g_ExpiresAt g)) then Some KindInvalidExpiry else None
  else if String.eqb (g_Duration g) Until then
    if is_zero (g_ExpiresAt g) then Some KindInvalidExpiry
    else if negb (g_DecidedAt g <? g_ExpiresAt g) then Some KindInvalidExpiry else None
  else Some KindInvalidDuration.

Definition Validate (g : Grant) : option ErrorKind :=
  match validateKey (g_Capability g) (g_Subject g) with
  | Some e => Some e
  | None =>
      if negb (String.eqb (g_Decision g) Allow) && negb (String.eqb (g_Decision g) Deny) then Some KindInvalidDecision
      else match validate_duration g with
           | Some e => Some e
           | None =>
               if negb (validSource (g_Source g)) then Some KindInvalidSource
               else if g_PromptVersion g <? 0 then Some KindInvalidDecision
               else if String.eqb (g_Capability g) CapTelemetry && (negb (String.eqb (g_Subject g) "") || negb (String.eqb (g_Duration g) Always))
               then Some KindUnsupportedScope
               else if is_zero (g_DecidedAt g) then Some KindInvalidDecision
               else None
           end
  end.

Abbreviation grantKey := (string * string)%type.
Definition key (g : Grant) : grantKey := (g_Capability g, g_Subject g).

Definition checkPersistable (g : Grant) : option ErrorKind :=
  match Validate g with Some e => Some e | None => if Persisted (g_Duration g) then None else Some KindUnsupportedScope end.

Definition telemetryGrant (d : Decision) : option Grant :=
  e ← (if String.eqb (d_State d) StateGranted then Some Allow else if String.eqb (d_State d) StateDenied then Some Deny else None);
  Some (mkGrant CapTelemetry "" e Always (d_DecidedAt d) zero_time (d_Source d) (d_PromptVersion d)).

Definition telemetryDecision (g : Grant) : Decision :=
  mkDecision (if String.eqb (g_Decision g) Allow then StateGranted else StateDenied) (g_DecidedAt g) (g_PromptVersion g) (g_Source g).

(** ** The precedence chain (resolve.go, donottrack.go) *)

(** The lower case of ASCII letters, which decides whether [strings.ToLower] and
    [strings.EqualFold] make a text one of the words below: no letter outside
    ASCII lowers to a letter of "false" or folds to one of "off". *)
Fixpoint ascii_lower (s : string) : string :=
  match s with
  | EmptyString => EmptyString
  | String c s => String (if (65 <=? N_of_ascii c)%N && (N_of_ascii c <=? 90)%N then ascii_of_N (N_of_ascii c + 32) else c) (ascii_lower s)
  end.

Definition DoNotTrackEnabled (env : string → string) : bool :=
  let v := ascii_lower (TrimSpace (env "DO_NOT_TRACK")) in
  if String.eqb v "" then false else if String.eqb v "0" || String.eqb v "false" then false else true.

Record Inputs := mkInputs {
  TelemetryFlag : option bool;
  YesFlag : bool;
  Env : string → string;
  AppPrefix : string;
  in_Persisted : Decision;
}.

Record ResolveError := mkResolveError { re_Var : string; re_Value : string }.

Definition is_off (v : string) : bool := String.eqb (ascii_lower v) "off".

Definition decided (state source : string) : Decision := mkDecision state zero_time 0 source.

Section resolve.
(** [strings.ToUpper]. *)
Context (ToUpper : string → string).

Definition mode_off (i : Inputs) : bool :=
  (negb (String.eqb (AppPrefix i) "") && is_off (Env i (ToUpper (AppPrefix i) +:+ "_TELEMETRY_MODE"))) || is_off (Env i "KIT_TELEMETRY_MODE").

Definition ResolveWithDiagnostics (i : Inputs) : Decision * list ResolveError :=
  if mode_off i then (decided StateDenied SourceEnv, [])
  else if DoNotTrackEnabled (Env i) then (decided StateDenied SourceEnv, [])
  else match TelemetryFlag i with
       | Some on => (decided (if on : bool then StateGranted else StateDenied) SourceFlag, [])
       | None =>
           let raw := Env i "KIT_TELEMETRY_CONSENT" in
           if String.eqb raw StateGranted then (decided StateGranted SourceEnv, [])
           else if String.eqb raw StateDenied then (decided StateDenied SourceEnv, [])
           else
             let diags := if String.eqb raw "" then [] else [mkResolveError "KIT_TELEMETRY_CONSENT" raw] in
             if String.eqb (d_State (in_Persisted i)) StateGranted || String.eqb (d_State (in_Persisted i)) StateDenied
             then (in_Persisted i, diags)
             else (decided StateDenied SourceConfig, diags)
       end.

Definition Resolve (i : Inputs) : Decision := (ResolveWithDiagnostics i).1.

(** What it takes for telemetry to be on: no opt-out in the environment, and a
    yes from the highest of flag, environment and record that says anything. *)
Definition consents (i : Inputs) : Prop :=
  mode_off i = false ∧ DoNotTrackEnabled (Env i) = false ∧
  match TelemetryFlag i with
  | Some on => on = true
  | None => Env i "KIT_TELEMETRY_CONSENT" = StateGranted ∨
            Env i "KIT_TELEMETRY_CONSENT" ≠ StateDenied ∧ d_State (in_Persisted i) = StateGranted
  end.

Lemma Resolve_granted i : Granted (Resolve i) = true ↔ consents i.
Proof.
  unfold Granted, Resolve, ResolveWithDiagnostics, consents. destruct (mode_off i); [split; [done|by intros (? & _)]|].
  destruct (DoNotTrackEnabled (Env i)); [split; [done|by intros (_ & ? & _)]|].
  destruct (TelemetryFlag i) as [[]|]; [split; [by intros _|done]|split; [done|by intros (_ & _ & ?)]|].
  destruct (String.eqb_spec (Env i "KIT_TELEMETRY_CONSENT") StateGranted) as [E|N]; [split; [intros _; auto|done]|].
  destruct (String.eqb_spec (Env i "KIT_TELEMETRY_CONSENT") StateDenied) as [E|N']; [split; [done|]; by intros (_ & _ & [?|[? _]])|].
  destruct (String.eqb_spec (d_State (in_Persisted i)) StateGranted) as [E|N'']; [cbn; rewrite E; split; [intros _; auto|done]|].
  split; [|by intros (_ & _ & [?|[_ ?]])]. cbn.
  destruct (String.eqb_spec (d_State (in_Persisted i)) StateDenied) as [E|]; cbn; [by rewrite E|done].
Qed.

(** The answer is always a yes or a no. *)
Lemma Resolve_decides i : d_State (Resolve i) = StateGranted ∨ d_State (Resolve i) = StateDenied.
Proof.
  unfold Resolve, ResolveWithDiagnostics. repeat case_match; cbn; auto;
    repeat match goal with H : (_ || _) = true |- _ => apply orb_true_iff in H as [H|H] | H : String.eqb _ _ = true |- _ => apply String.eqb_eq in H end; auto.
Qed.

End resolve.

(** ** Lemmas on grants *)

Lemma Validate_duration g : Validate g = None → validate_duration g = None.
Proof. unfold Validate. repeat case_match; done. Qed.

Lemma Validate_decision g : Validate g = None → g_Decision g = Allow ∨ g_Decision g = Deny.
Proof.
  unfold Validate. destruct (validateKey _ _); [done|]. destruct (String.eqb_spec (g_Decision g) Allow); [auto|].
  destruct (String.eqb_spec (g_Decision g) Deny); [auto|done].
Qed.

Lemma Validate_key g : Validate g = None → validateKey (g_Capability g) (g_Subject g) = None.
Proof. unfold Validate. by destruct (validateKey _ _). Qed.

Lemma checkPersistable_None g : checkPersistable g = None ↔ Validate g = None ∧ Persisted (g_Duration g) = true.
Proof. unfold checkPersistable. destruct (Validate g); [split; [done|by intros []]|]. destruct (Persisted _); split; auto; try done. by intros []. Qed.

Lemma Persisted_spec d : Persisted d = true ↔ d = Until ∨ d = Always.
Proof. unfold Persisted. by rewrite orb_true_iff, !String.eqb_eq. Qed.

(** The record and its grant say the same. *)
Lemma telemetry_record_grant d g : telemetryGrant d = Some g → telemetryDecision g = d.
Proof.
  unfold telemetryGrant. destruct d as [s t v src]. cbn. destruct (String.eqb_spec s StateGranted) as [->|].
  - by intros [= <-].
  - destruct (String.eqb_spec s StateDenied) as [->|]; by intros [= <-].
Qed.
