(* ===== verification/Grants.v ===== *)
(** * Consent grants in a session (go/core/consent: grants.go, grant_store.go)

    [Grants] answers whether a subject may use a capability now, records
    decisions and audits them.  The stores and auditors it works over are
    classes; [Request] lets go of the lock while the prompter asks, so it is two
    steps here.  [now] arguments are the clock's successive readings. *)

From Stdlib Require Import Ascii.
From S2P Require Import Prelude Topics Consent.

Local Open Scope Z_scope.

(** ** Audit events (audit.go) *)

Definition AuditGranted : string := "granted".
Definition AuditDenied : string := "denied".
Definition AuditRevoked : string := "revoked".
Definition AuditUsed : string := "used".
Definition AuditRefused : string := "refused".

Definition CauseNoPrompter : string := "no-prompter".
Definition CausePrompterError : string := "prompter-error".
Definition CauseStoreUnreadable : string := "store-unreadable".
Definition CauseAuditFailed : string := "audit-failed".
Definition CauseStandingDeny : string := "standing-deny".
Definition CauseExpired : string := "expired".

Record AuditEvent := mkAudit {
  ae_Event : string;
  ae_At : Z;
  ae_Capability : string;
  ae_Subject : string;
  ae_Decision : string;
  ae_Duration : string;
  ae_ExpiresAt : Z;
  ae_Source : string;
  ae_PromptVersion : Z;
  ae_Cause : string;
}.

Definition auditFromGrant (kind : string) (g : Grant) (at_ : Z) : AuditEvent :=
  mkAudit kind at_ (g_Capability g) (g_Subject g) (g_Decision g) (g_Duration g) (g_ExpiresAt g) (g_Source g) (g_PromptVersion g) "".

(** [sortGrants]: by capability, then subject. *)
Definition grant_le (g h : Grant) : Prop :=
  if String.eqb (g_Capability g) (g_Capability h) then str_le (g_Subject g) (g_Subject h) else str_le (g_Capability g) (g_Capability h).

#[export] Instance grant_le_dec : RelDecision grant_le.
Proof. intros g h. unfold grant_le. case_match; apply _. Defined.

Definition sortGrants (l : list Grant) : list Grant := merge_sort grant_le l.

(** ** What Grants works over *)

Inductive store_err := ErrGrant (k : ErrorKind) | ErrStoreContext | ErrStoreIO.

(** [gs_Get] is there when the store is a [Store] too. *)
Class GrantStore (S : Type) := {
  gs_Grants : bool → S → res store_err (list Grant);
  gs_PutGrant : bool → Grant → S → option store_err * S;
  gs_DeleteGrant : bool → string → string → S → res store_err bool * S;
  gs_Get : option (bool → S → res store_err Decision);
}.

(** What a store promises of every capability but telemetry, whose record it may
    combine with others: a failed write may still have happened. *)
Class GrantStoreLaws (S : Type) `{GS : GrantStore S} := {
  gs_inv : S → Prop;
  gs_view : S → gmap grantKey Grant;
  gs_grants_law ctx s l :
    gs_inv s → gs_Grants ctx s = Ok l →
    NoDup (key <$> l) ∧ (∀ g, g ∈ l → Persisted (g_Duration g) = true) ∧
    ∀ g, g_Capability g ≠ CapTelemetry → g ∈ l ↔ gs_view s !! key g = Some g;
  gs_put_law ctx g s err s' :
    gs_inv s → gs_PutGrant ctx g s = (err, s') →
    gs_inv s' ∧ (∀ k, k ≠ key g → k.1 ≠ CapTelemetry → gs_view s' !! k = gs_view s !! k) ∧
    (err = None → Persisted (g_Duration g) = true ∧ (g_Capability g ≠ CapTelemetry → gs_view s' !! key g = Some g));
  gs_delete_law ctx c sub s r s' :
    gs_inv s → gs_DeleteGrant ctx c sub s = (r, s') →
    gs_inv s' ∧ (∀ k, k ≠ (c, sub) → k.1 ≠ CapTelemetry → gs_view s' !! k = gs_view s !! k) ∧
    ∀ b, r = Ok b → c ≠ CapTelemetry → gs_view s' !! (c, sub) = None ∧ (b = true ↔ is_Some (gs_view s !! (c, sub)));
}.

Class Auditor (A : Type) := {
  au_Record : bool → AuditEvent → A → bool * A;
  recorded : A → list AuditEvent;
}.

Class AuditorLaws (A : Type) `{AU : Auditor A} : Prop := {
  au_record_law ctx e a ok a' :
    au_Record ctx e a = (ok, a') → recorded a' = recorded a ++ [e] ∨ ok = false ∧ recorded a' = recorded a;
}.

(** ** Grants *)

Definition ReasonAllowed : string := "allowed".
Definition ReasonDenied : string := "denied".
Definition ReasonUnset : string := "unset".
Definition ReasonExpired : string := "expired".
Definition ReasonDeclined : string := "declined".

Record Verdict := mkVerdict { Allowed : bool; Reason : string; v_Grant : Grant }.

Record Config := mkConfig { cf_env : string → string; appPrefix : string; promptVersion : Z; has_relay : bool }.

(** [g.now().UTC().Truncate(time.Second)]. *)
Definition clock (now : Z) : Z := now - now mod 10 ^ 9.

Definition verdictOf (g : Grant) : Verdict :=
  if String.eqb (g_Decision g) Allow then mkVerdict true ReasonAllowed g else mkVerdict false ReasonDenied g.

Definition denyWinsVerdict (held : list Grant) : option Verdict :=
  match List.find (λ h, String.eqb (g_Decision h) Deny) held with
  | Some h => Some (verdictOf h)
  | None => match held with h :: _ => Some (verdictOf h) | [] => None end
  end.

(** The loop over the stored grants for one key: what is held, and the first
    expired grant seen. *)
Fixpoint scan_persisted (k : grantKey) (now : Z) (l : list Grant) (held : list Grant) (expired : option Grant) : list Grant * option Grant :=
  match l with
  | [] => (held, expired)
  | p :: l =>
      if negb (bool_decide (key p = k)) then scan_persisted k now l held expired
      else if Expired p now then (held, match expired with None => Some p | _ => expired end)
      else scan_persisted k now l (held ++ [p]) expired
  end.

Fixpoint check_keys (mem : gmap grantKey Grant) (now : Z) (persisted : list Grant) (keys : list grantKey) (expired : option Grant) : Verdict :=
  match keys with
  | [] => match expired with Some e => mkVerdict false ReasonExpired e | None => mkVerdict false ReasonUnset no_grant end
  | k :: keys =>
      let '(held, expired) := scan_persisted k now persisted (match mem !! k with Some m => [m] | None => [] end) expired in
      match denyWinsVerdict held with
      | Some v => v
      | None => check_keys mem now persisted keys expired
      end
  end.

Inductive consent_err :=
| EInvalid (k : ErrorKind)
| EStore (e : store_err)
| ERefused (reason : string)
| EAudit.

Record Answer := mkAnswer { an_Decision : string; an_Duration : string; an_ExpiresAt : Z }.

Section Grants.
Context (ToUpper : string → string).
Context {S : Type} `{GS : GrantStore S} {A : Type} `{AU : Auditor A}.

(** [notified] is the relay's wake-up, [unrecorded] what it was asked to publish
    because no auditor took it. *)
Record Grants := mkGrants {
  g_store : S;
  g_audit : A;
  mem : gmap grantKey Grant;
  refused : gset (string * string * string);
  notified : bool;
  unrecorded : list AuditEvent;
}.

Definition set_mem (m : gmap grantKey Grant) (st : Grants) : Grants :=
  mkGrants (g_store st) (g_audit st) m (refused st) (notified st) (unrecorded st).
Definition set_store (s : S) (st : Grants) : Grants :=
  mkGrants s (g_audit st) (mem st) (refused st) (notified st) (unrecorded st).

(** [asStoreError]. *)
Definition asStoreError (e : store_err) : store_err := match e with ErrGrant k => ErrGrant k | _ => ErrGrant KindMalformedStore end.

(** The telemetry record the store has, if any. *)
Definition telemetry_record (ctx : bool) (s : S) (persisted : list Grant) : res store_err (option Decision) :=
  match gs_Get with
  | Some get =>
      match get ctx s with
      | Err e => Err (asStoreError e)
      | Ok d => Ok (match telemetryGrant d with Some _ => Some d | None => None end)
      end
  | None => Ok (telemetryDecision <$> last (filter (λ p, g_Capability p = CapTelemetry) persisted))
  end.

Definition telemetry_inputs (cfg : Config) (r : option Decision) : Inputs :=
  mkInputs None false (cf_env cfg) (appPrefix cfg) (default (mkDecision "" zero_time 0 "") r).

Definition telemetryVerdict (cfg : Config) (ctx : bool) (s : S) (persisted : list Grant) : res consent_err Verdict :=
  match telemetry_record ctx s persisted with
  | Err e => Err (EStore e)
  | Ok r =>
      let d := Resolve ToUpper (telemetry_inputs cfg r) in
      if bool_decide (r = None) && String.eqb (d_State d) StateDenied && String.eqb (d_Source d) SourceConfig
      then Ok (mkVerdict false ReasonUnset no_grant)
      else Ok (verdictOf (default no_grant (telemetryGrant d)))
  end.

Definition checkLocked (cfg : Config) (ctx : bool) (now : Z) (c subject : string) (st : Grants) : res consent_err Verdict :=
  match gs_Grants ctx (g_store st) with
  | Err e => Err (EStore e)
  | Ok persisted =>
      if String.eqb c CapTelemetry then telemetryVerdict cfg ctx (g_store st) persisted
      else Ok (check_keys (mem st) (clock now) persisted ((c, subject) :: if String.eqb subject "" then [] else [(c, "")]) None)
  end.

Definition Check (cfg : Config) (ctx : bool) (now : Z) (c subject : string) (st : Grants) : res consent_err Verdict :=
  match validateKey c subject with Some e => Err (EInvalid e) | None => checkLocked cfg ctx now c subject st end.

(** [record]: true when the auditor took the event. *)
Definition record (cfg : Config) (ctx : bool) (e : AuditEvent) (st : Grants) : bool * Grants :=
  let '(ok, a) := au_Record ctx e (g_audit st) in
  (ok, mkGrants (g_store st) a (mem st) (refused st) (notified st || (ok && has_relay cfg)) (unrecorded st)).

Definition refuseLocked (cfg : Config) (ctx : bool) (now : Z) (c subject cause : string) (gov : Grant) (st : Grants) : Grants :=
  if bool_decide ((c, subject, cause) ∈ refused st) then st
  else
    let st := mkGrants (g_store st) (g_audit st) (mem st) ({[(c, subject, cause)]} ∪ refused st) (notified st) (unrecorded st) in
    let src := if String.eqb (g_Source gov) "" then SourceConfig else g_Source gov in
    let e := mkAudit AuditRefused (clock now) c subject "" "" zero_time src 0 cause in
    if String.eqb cause CauseAuditFailed then
      mkGrants (g_store st) (g_audit st) (mem st) (refused st) (notified st) (if has_relay cfg then unrecorded st ++ [e] else unrecorded st)
    else (record cfg ctx e st).2.

Definition causeOf (v : Verdict) : string :=
  if String.eqb (Reason v) ReasonDenied then CauseStandingDeny else if String.eqb (Reason v) ReasonExpired then CauseExpired else CauseNoPrompter.

Definition decideLocked (cfg : Config) (ctx : bool) (now : Z) (gr : Grant) (st : Grants) : option consent_err * Grants :=
  let finish st :=
    let kind := if String.eqb (g_Decision gr) Deny then AuditDenied else AuditGranted in
    let '(ok, st) := record cfg ctx (auditFromGrant kind gr (clock now)) st in
    (if ok : bool then None else Some EAudit, st) in
  if Persisted (g_Duration gr) then
    match gs_PutGrant ctx gr (g_store st) with
    | (Some e, s) => (Some (EStore e), set_store s st)
    | (None, s) => finish (set_mem (delete (key gr) (mem st)) (set_store s st))
    end
  else if String.eqb (g_Duration gr) Once && String.eqb (g_Decision gr) Deny then finish st
  else finish (set_mem (<[key gr := gr]> (mem st)) st).

Definition Decide (cfg : Config) (ctx : bool) (now now' : Z) (gr : Grant) (st : Grants) : option consent_err * Grants :=
  let gr := if is_zero (g_DecidedAt gr)
            then mkGrant (g_Capability gr) (g_Subject gr) (g_Decision gr) (g_Duration gr) (clock now) (g_ExpiresAt gr) (g_Source gr) (g_PromptVersion gr)
            else gr in
  match Validate gr with
  | Some e => (Some (EInvalid e), st)
  | None => decideLocked cfg ctx now' gr st
  end.

(** [Request] up to the prompter: the answer, or the verdict to ask about. *)
Definition Request_begin (cfg : Config) (ctx : bool) (now now' : Z) (c subject : string) (prompter : bool) (st : Grants) :
    res consent_err Verdict * bool * Grants :=
  match validateKey c subject with
  | Some e => (Err (EInvalid e), false, st)
  | None =>
      match checkLocked cfg ctx now c subject st with
      | Err e => (Err e, false, refuseLocked cfg ctx now' c subject CauseStoreUnreadable no_grant st)
      | Ok v =>
          if Allowed v then (Ok v, false, st)
          else if String.eqb (Reason v) ReasonDenied || negb prompter
          then (Err (ERefused (Reason v)), false, refuseLocked cfg ctx now' c subject (causeOf v) (v_Grant v) st)
          else (Ok v, true, st)
      end
  end.

(** [Request] once the prompter returned, [v] being the verdict it was asked
    about. *)
Definition Request_answer (cfg : Config) (ctx : bool) (now now' : Z) (c subject : string) (v : Verdict) (ans : option Answer) (st : Grants) :
    res consent_err Verdict * Grants :=
  let refuse st := (Err (ERefused (Reason v)), refuseLocked cfg ctx now' c subject CausePrompterError (v_Grant v) st) in
  match ans with
  | None => refuse st
  | Some ans =>
      let gr := mkGrant c subject (an_Decision ans) (an_Duration ans) (clock now) (an_ExpiresAt ans) SourcePrompt (promptVersion cfg) in
      match Validate gr with
      | Some _ => refuse st
      | None =>
          match Decide cfg ctx now now' gr st with
          | (Some e, st) => (Err e, st)
          | (None, st) => (if String.eqb (g_Decision gr) Deny then Err (ERefused ReasonDeclined) else Ok (verdictOf gr), st)
          end
      end
  end.

Definition Use (cfg : Config) (ctx : bool) (now now' : Z) (c subject : string) (st : Grants) : res consent_err Grant * Grants :=
  match validateKey c subject with
  | Some e => (Err (EInvalid e), st)
  | None =>
      match checkLocked cfg ctx now c subject st with
      | Err e => (Err e, refuseLocked cfg ctx now' c subject CauseStoreUnreadable no_grant st)
      | Ok v =>
          if negb (Allowed v) then (Err (ERefused (Reason v)), refuseLocked cfg ctx now' c subject (causeOf v) (v_Grant v) st)
          else
            let '(ok, st) := record cfg ctx (auditFromGrant AuditUsed (v_Grant v) (clock now')) st in
            if negb ok then (Err EAudit, refuseLocked cfg ctx now' c subject CauseAuditFailed (v_Grant v) st)
            else (Ok (v_Grant v),
                  if String.eqb (g_Duration (v_Grant v)) Once then set_mem (delete (key (v_Grant v)) (mem st)) st else st)
      end
  end.

Definition Revoke (cfg : Config) (ctx : bool) (now : Z) (c subject source : string) (st : Grants) : bool * option consent_err * Grants :=
  match validateKey c subject with
  | Some e => (false, Some (EInvalid e), st)
  | None =>
      if negb (validSource source) then (false, Some (EInvalid KindInvalidSource), st)
      else
        let inMem := bool_decide (is_Some (mem st !! (c, subject))) in
        let st := set_mem (delete (c, subject) (mem st)) st in
        match gs_DeleteGrant ctx c subject (g_store st) with
        | (Err e, s) => (inMem, Some (EStore e), set_store s st)
        | (Ok removed, s) =>
            let st := set_store s st in
            if negb removed && negb inMem then (false, None, st)
            else
              let '(ok, st) := record cfg ctx (mkAudit AuditRevoked (clock now) c subject "" "" zero_time source 0 "") st in
              (true, if ok : bool then None else Some EAudit, st)
        end
  end.

Definition EndSession (st : Grants) : Grants := mkGrants (g_store st) (g_audit st) ∅ ∅ (notified st) (unrecorded st).

Definition List_ (ctx : bool) (st : Grants) : res store_err (list Grant) :=
  match gs_Grants ctx (g_store st) with
  | Err e => Err e
  | Ok persisted => Ok (sortGrants (filter (λ p, mem st !! key p = None) persisted ++ (map_to_list (mem st)).*2))
  end.

End Grants.

(** ** The in-memory store (grant_store.go) *)

Module memory_store.

Abbreviation Store := (gmap grantKey Grant).

Definition Grants_ (ctx : bool) (s : Store) : res store_err (list Grant) :=
  if ctx then Err ErrStoreContext else Ok (sortGrants (map_to_list s).*2).

Definition PutGrant (ctx : bool) (g : Grant) (s : Store) : option store_err * Store :=
  if ctx then (Some ErrStoreContext, s)
  else match checkPersistable g with
       | Some e => (Some (ErrGrant e), s)
       | None => (None, <[key g := g]> s)
       end.

Definition DeleteGrant (ctx : bool) (c subject : string) (s : Store) : res store_err bool * Store :=
  if ctx then (Err ErrStoreContext, s) else (Ok (bool_decide (is_Some (s !! (c, subject)))), delete (c, subject) s).

#[export] Instance memory_grants : GrantStore Store := {|
  gs_Grants := Grants_;
  gs_PutGrant := PutGrant;
  gs_DeleteGrant := DeleteGrant;
  gs_Get := None;
|}.

(** Every entry is filed under its own key and may be stored. *)
Definition filed (s : Store) : Prop := ∀ k g, s !! k = Some g → key g = k ∧ Persisted (g_Duration g) = true.

Lemma filed_values s : filed s → key <$> (map_to_list s).*2 = (map_to_list s).*1.
Proof.
  intros H. rewrite <-!list_fmap_compose. apply list_fmap_ext. intros i [k g] Hi. cbn.
  apply list_elem_of_lookup_2, elem_of_map_to_list in Hi. by apply H in Hi as [? _].
Qed.

Lemma elem_of_values s g : filed s → g ∈ sortGrants (map_to_list s).*2 ↔ s !! key g = Some g.
Proof.
  intros H. unfold sortGrants. rewrite merge_sort_Permutation, list_elem_of_fmap. split.
  - intros ([k g'] & -> & Hg%elem_of_map_to_list). cbn. by destruct (H k g' Hg) as [-> _].
  - intros Hg. exists (key g, g). split; [done|]. by apply elem_of_map_to_list.
Qed.

#[export] Program Instance memory_grants_laws : GrantStoreLaws Store := {| gs_inv := filed; gs_view s := s |}.
Next Obligation.
  intros ctx s l H. cbn. unfold Grants_. destruct ctx; [done|]. intros [= <-]. split; [|split].
  - unfold sortGrants. rewrite merge_sort_Permutation, filed_values by done. apply NoDup_fst_map_to_list.
  - intros g Hg%elem_of_values; [|done]. by apply H in Hg as [_ ?].
  - intros g _. by apply elem_of_values.
Qed.
Next Obligation.
  intros ctx g s err s' H. cbn. unfold PutGrant. destruct ctx; [by intros [= <- <-]|].
  destruct (checkPersistable g) eqn:E; intros [= <- <-]; [done|]. apply checkPersistable_None in E as [_ Hp]. split; [|split].
  - intros k h [[<- <-]|[_ Hk]]%lookup_insert_Some; [done|by apply H].
  - intros k Hk _. by rewrite lookup_insert_ne.
  - intros _. split; [done|]. intros _. apply lookup_insert_eq.
Qed.
Next Obligation.
  intros ctx c sub s r s' H. cbn. unfold DeleteGrant. destruct ctx; intros [= <- <-]; [done|]. split; [|split].
  - intros k g [_ Hg]%lookup_delete_Some. by apply H.
  - intros k Hk _. by rewrite lookup_delete_ne.
  - intros b [= <-] _. split; [apply lookup_delete_eq|]. apply bool_decide_eq_true.
Qed.

End memory_store.
