(* ===== verification/GrantsProps.v ===== *)
(** * What a consent session guarantees

    Every use was consented to and audited, a standing refusal stands, and a
    grant for one use is used once, over any sequence of operations and of
    changes other processes make to the store. *)

From S2P Require Import Prelude Topics Consent Grants.

Local Open Scope Z_scope.

(** ** Verdicts *)

Lemma find_deny (held : list Grant) :
  match List.find (λ h, String.eqb (g_Decision h) Deny) held with
  | Some h => h ∈ held ∧ g_Decision h = Deny
  | None => ∀ h, h ∈ held → g_Decision h ≠ Deny
  end.
Proof.
  destruct (List.find _ held) as [h|] eqn:E.
  - apply List.find_some in E as [Hin Hd%String.eqb_eq]. split; [by apply list_elem_of_In|done].
  - intros h Hin Hd. apply list_elem_of_In, (List.find_none _ _ E h) in Hin. by rewrite Hd in Hin.
Qed.

Lemma denyWins_None held : denyWinsVerdict held = None → held = [].
Proof. unfold denyWinsVerdict. destruct (List.find _ held); [done|]. by destruct held. Qed.

Lemma denyWins_allowed held v :
  denyWinsVerdict held = Some v → Allowed v = true →
  v_Grant v ∈ held ∧ g_Decision (v_Grant v) = Allow ∧ ∀ h, h ∈ held → g_Decision h ≠ Deny.
Proof.
  unfold denyWinsVerdict. pose proof (find_deny held) as H. destruct (List.find _ held) as [h|].
  - destruct H as [_ Hd]. intros [= <-]. unfold verdictOf. by rewrite Hd.
  - destruct held as [|h held]; [done|]. intros [= <-]. unfold verdictOf.
    destruct (String.eqb_spec (g_Decision h) Allow); [|done]. intros _. split_and!; [apply list_elem_of_here|done|done].
Qed.

Lemma denyWins_denied held h :
  h ∈ held → g_Decision h = Deny → ∃ v, denyWinsVerdict held = Some v ∧ Allowed v = false ∧ Reason v = ReasonDenied.
Proof.
  intros Hin Hd. unfold denyWinsVerdict. pose proof (find_deny held) as H. destruct (List.find _ held) as [h'|]; [|by apply H in Hin].
  exists (verdictOf h'). destruct H as [_ E]. unfold verdictOf. by rewrite E.
Qed.

(** With one entry a key, the scan finds the entry unless it has expired. *)
Lemma scan_held k now l : NoDup (key <$> l) → ∀ held ex,
  (scan_persisted k now l held ex).1 = held ++ filter (λ p, key p = k ∧ Expired p now = false) l.
Proof.
  assert (∀ l, k ∉ key <$> l → filter (λ p, key p = k ∧ Expired p now = false) l = []) as Hnone.
  { intros l' Hk. apply elem_of_nil_inv. intros p [[E _] Hp]%list_elem_of_filter. apply Hk. rewrite <-E. by apply list_elem_of_fmap_2. }
  induction l as [|p l IH]; intros Hn held ex; cbn [scan_persisted]; [by rewrite app_nil_r|].
  rewrite fmap_cons in Hn. apply NoDup_cons in Hn as [Hp Hn]. rewrite filter_cons. destruct (bool_decide_reflect (key p = k)) as [E|N]; cbn [negb].
  - subst k. destruct (Expired p now) eqn:Ee.
    + rewrite decide_False by (by intros [_ ?]). cbn. by rewrite Hnone, app_nil_r.
    + rewrite decide_True by done. rewrite IH, <-app_assoc by done. done.
  - rewrite decide_False by (by intros [? _]). by apply IH.
Qed.

Definition key_held (m : gmap grantKey Grant) (now : Z) (l : list Grant) (k : grantKey) : list Grant :=
  match m !! k with Some g => [g] | None => [] end ++ filter (λ p, key p = k ∧ Expired p now = false) l.

Lemma check_keys_allowed m now l keys ex v :
  NoDup (key <$> l) → check_keys m now l keys ex = v → Allowed v = true →
  ∃ pre k post, keys = pre ++ k :: post ∧ Forall (λ k', key_held m now l k' = []) pre ∧ v_Grant v ∈ key_held m now l k ∧
                g_Decision (v_Grant v) = Allow ∧ ∀ h, h ∈ key_held m now l k → g_Decision h ≠ Deny.
Proof.
  intros Hn <-. revert ex. induction keys as [|k keys IH]; intros ex; cbn [check_keys]; [by destruct ex|].
  pose proof (scan_held k now l Hn (match m !! k with Some g => [g] | None => [] end) ex) as Hs. fold (key_held m now l k) in Hs.
  destruct (scan_persisted _ _ _ _ _) as [held ex']. cbn in Hs. subst held. destruct (denyWinsVerdict _) as [v|] eqn:E.
  - intros Ha. exists [], k, keys. destruct (denyWins_allowed _ _ E Ha) as (? & ? & ?). by split_and!.
  - intros Ha. destruct (IH ex' Ha) as (pre & k' & post & -> & Hp & Hr). exists (k :: pre), k', post. split; [done|].
    split; [|done]. constructor; [by apply denyWins_None|done].
Qed.

Lemma check_keys_denied m now l k keys ex h :
  NoDup (key <$> l) → h ∈ key_held m now l k → g_Decision h = Deny →
  Allowed (check_keys m now l (k :: keys) ex) = false ∧ Reason (check_keys m now l (k :: keys) ex) = ReasonDenied.
Proof.
  intros Hn Hh Hd. cbn [check_keys].
  pose proof (scan_held k now l Hn (match m !! k with Some g => [g] | None => [] end) ex) as Hs. fold (key_held m now l k) in Hs.
  destruct (scan_persisted _ _ _ _ _) as [held ex']. cbn in Hs. subst held.
  destruct (denyWins_denied _ _ Hh Hd) as (v & -> & ? & ?). done.
Qed.

(** ** Sessions *)

(** A step by the key it decides or revokes. *)
Inductive label := LDecide (k : grantKey) | LRevoke (k : grantKey) | LEnd | LOther | LQuiet.

#[export] Instance label_eq_dec : EqDecision label.
Proof. solve_decision. Defined.

Section props.
Context (ToUpper : string → string).
Context {S : Type} `{GSL : GrantStoreLaws S} {A : Type} `{AUL : AuditorLaws A}.
Context (cfg : Config).

Abbreviation session_state := (@Grants S A).

(** The grants that count for a key at a time. *)
Definition holds (st : session_state) (now : Z) (k : grantKey) (g : Grant) : Prop :=
  mem st !! k = Some g ∨ gs_view (g_store st) !! k = Some g ∧ Expired g (clock now) = false.

Definition session_ok (st : session_state) : Prop :=
  gs_inv (g_store st) ∧ ∀ k g, mem st !! k = Some g → key g = k ∧ Persisted (g_Duration g) = false.

Lemma key_held_holds st ctx now l k g :
  session_ok st → gs_Grants ctx (g_store st) = Ok l → k.1 ≠ CapTelemetry →
  g ∈ key_held (mem st) (clock now) l k ↔ holds st now k g ∧ key g = k.
Proof.
  intros [I M] El Hk. destruct (gs_grants_law _ _ _ I El) as (_ & _ & Hv). unfold key_held, holds. rewrite elem_of_app, list_elem_of_filter. split.
  - intros [Hm|[[Ek He] Hl]].
    + destruct (mem st !! k) as [m|] eqn:Em in Hm; [|by apply not_elem_of_nil in Hm]. apply list_elem_of_singleton in Hm. subst m.
      split; [by left|]. by apply M in Em as [? _].
    + split; [right|done]. split; [|done]. subst k. by apply Hv.
  - intros [[Hm|[Hs He]] Ek]; [left; rewrite Hm; apply list_elem_of_here|right]. split; [done|]. apply Hv; subst k; done.
Qed.

Lemma allowed_holds st ctx now c s v :
  session_ok st → c ≠ CapTelemetry → checkLocked ToUpper cfg ctx now c s st = Ok v → Allowed v = true →
  g_Decision (v_Grant v) = Allow ∧ holds st now (key (v_Grant v)) (v_Grant v) ∧
  (key (v_Grant v) = (c, s) ∨ key (v_Grant v) = (c, "") ∧ ∀ h, key h = (c, s) → ¬ holds st now (c, s) h) ∧
  (∀ h, key h = key (v_Grant v) → holds st now (key (v_Grant v)) h → g_Decision h ≠ Deny) ∧ (g_Duration (v_Grant v) = Once → mem st !! key (v_Grant v) = Some (v_Grant v)).
Proof.
  intros Hok Hc. unfold checkLocked. destruct (gs_Grants ctx (g_store st)) as [l|e] eqn:El; [|done].
  destruct (String.eqb_spec c CapTelemetry); [done|]. intros [= Ev] Ha.
  destruct (gs_grants_law _ _ _ (proj1 Hok) El) as (Hn & Hp & _).
  destruct (check_keys_allowed (mem st) (clock now) l ((c, s) :: (if String.eqb s "" then [] else [(c, "")])) None v Hn Ev Ha) as (pre & k & post & Hkeys & Hpre & Hin & Hd & Hno).
  assert (k ∈ (c, s) :: (if String.eqb s "" then [] else [(c, "")])) as Hk by (rewrite Hkeys; set_solver).
  assert (k.1 = c) as Hk1 by (destruct (String.eqb s ""); set_solver).
  assert (∀ g, g ∈ key_held (mem st) (clock now) l k ↔ holds st now k g ∧ key g = k) as Hh by (intros g; apply (key_held_holds st ctx); [done..|by rewrite Hk1]).
  pose proof (proj1 (Hh _) Hin) as [Hg Hkg]. rewrite Hkg. split_and!; try done.
  - destruct pre as [|k0 pre]; [left; by injection Hkeys|right]. injection Hkeys as <- Hkeys. apply Forall_cons in Hpre as [Hpre _].
    destruct (String.eqb s ""); [by destruct pre|]. destruct pre as [|? [|]]; [|done..]. injection Hkeys as <-. split; [done|].
    intros h Hkh Hhold. assert (h ∈ key_held (mem st) (clock now) l (c, s)) as Hb by (by apply (key_held_holds st ctx)). rewrite Hpre in Hb.
    by apply not_elem_of_nil in Hb.
  - intros h Hkh Hhold. apply Hno. by apply Hh.
  - intros Ho. destruct Hg as [?|[Hv _]]; [done|]. exfalso. rewrite <-Hkg in Hv. apply (gs_grants_law _ _ _ (proj1 Hok) El) in Hv.
    + apply Hp in Hv. by rewrite Ho in Hv.
    + by rewrite (f_equal fst Hkg : g_Capability _ = _), Hk1.
Qed.

Lemma denied_check st ctx now c s g :
  session_ok st → c ≠ CapTelemetry → holds st now (c, s) g → key g = (c, s) → g_Decision g = Deny →
  match checkLocked ToUpper cfg ctx now c s st with Ok v => Allowed v = false ∧ Reason v = ReasonDenied | Err _ => True end.
Proof.
  intros Hok Hc Hh Hk Hd. unfold checkLocked. destruct (gs_Grants ctx (g_store st)) as [l|e] eqn:El; [|done].
  destruct (String.eqb_spec c CapTelemetry); [done|]. apply (check_keys_denied _ _ _ _ _ _ g); [|by apply (key_held_holds st ctx)|done].
  by destruct (gs_grants_law _ _ _ (proj1 Hok) El).
Qed.

(** Telemetry is allowed when the precedence chain says so over the store's record. *)
Lemma telemetry_allowed (st : session_state) ctx now s v :
  checkLocked ToUpper cfg ctx now CapTelemetry s st = Ok v → Allowed v = true →
  g_Decision (v_Grant v) = Allow ∧ g_Duration (v_Grant v) = Always ∧
  ∃ l r, gs_Grants ctx (g_store st) = Ok l ∧ telemetry_record ctx (g_store st) l = Ok r ∧ consents ToUpper (telemetry_inputs cfg r).
Proof.
  unfold checkLocked. destruct (gs_Grants ctx (g_store st)) as [l|e] eqn:El; [|done]. rewrite String.eqb_refl. unfold telemetryVerdict.
  destruct (telemetry_record ctx (g_store st) l) as [r|e] eqn:Er; [|done]. set (d := Resolve ToUpper _).
  case_match; intros [= <-]; [done|]. unfold telemetryGrant. destruct (String.eqb_spec (d_State d) StateGranted) as [Hg|_].
  - intros _. cbn. split_and!; try done. exists l, r. split_and!; try done. apply Resolve_granted. fold d. unfold Granted. by rewrite Hg.
  - by destruct (String.eqb (d_State d) StateDenied).
Qed.

(** ** Steps *)

Lemma record_core ctx e st ok (st' : session_state) : record cfg ctx e st = (ok, st') → g_store st' = g_store st ∧ mem st' = mem st.
Proof. unfold record. destruct (au_Record _ _ _). by intros [= <- <-]. Qed.

Lemma refuse_core ctx now c s cause gov (st : session_state) :
  g_store (refuseLocked cfg ctx now c s cause gov st) = g_store st ∧ mem (refuseLocked cfg ctx now c s cause gov st) = mem st.
Proof.
  unfold refuseLocked. case_match; [done|]. case_match; [done|]. destruct (record _ _ _ _) as [ok st'] eqn:E. by apply record_core in E.
Qed.

Lemma core_ok (st st' : session_state) : g_store st' = g_store st → mem st' = mem st → session_ok st → session_ok st'.
Proof. unfold session_ok. by intros -> ->. Qed.

(** The grant is in force: in the store, or in the session's memory. *)
Definition stands (g : Grant) (st : session_state) : Prop :=
  if Persisted (g_Duration g) then gs_view (g_store st) !! key g = Some g else mem st !! key g = Some g.

Lemma decide_effect ctx now gr st err st' :
  session_ok st → decideLocked cfg ctx now gr st = (err, st') →
  session_ok st' ∧ (∀ k, k ≠ key gr → mem st' !! k = mem st !! k ∧ (k.1 ≠ CapTelemetry → gs_view (g_store st') !! k = gs_view (g_store st) !! k)) ∧
  (err = None ∨ err = Some EAudit → g_Capability gr ≠ CapTelemetry → g_Duration gr ≠ Once → stands gr st').
Proof.
  intros [I M]. unfold decideLocked, stands. set (e := auditFromGrant _ _ _). destruct (Persisted (g_Duration gr)) eqn:Ep.
  - destruct (gs_PutGrant ctx gr (g_store st)) as [[x|] s] eqn:Eput; destruct (gs_put_law _ _ _ _ _ I Eput) as (I' & Hother & Hput).
    + intros [= <- <-]. split; [done|]. split; [auto|]. by intros [?|?].
    + destruct (record cfg ctx e _) as [ok st1] eqn:Er. apply record_core in Er as [E1 E2]. intros [= <- <-]. cbn in E1, E2.
      rewrite E1, E2. destruct (Hput eq_refl) as [_ Hv]. split; [|split; [|auto]].
      * split; [by rewrite E1|]. rewrite E2. intros k g [_ Hg]%lookup_delete_Some. by apply M.
      * intros k Hk. rewrite lookup_delete_ne by done. auto.
  - destruct (String.eqb (g_Duration gr) Once && String.eqb (g_Decision gr) Deny) eqn:Eo.
    + destruct (record cfg ctx e _) as [ok st1] eqn:Er. apply record_core in Er as [E1 E2]. intros [= <- <-]. split; [by eapply core_ok|].
      rewrite E1, E2. split; [done|]. intros _ _ Ho. apply andb_true_iff in Eo as [Eo%String.eqb_eq _]. done.
    + destruct (record cfg ctx e _) as [ok st1] eqn:Er. apply record_core in Er as [E1 E2]. intros [= <- <-]. cbn in E1, E2. rewrite E1, E2.
      split; [|split].
      * split; [by rewrite E1|]. rewrite E2. intros k g [[<- <-]|[_ Hg]]%lookup_insert_Some; [done|by apply M].
      * intros k Hk. by rewrite lookup_insert_ne.
      * intros _ _ _. apply lookup_insert_eq.
Qed.

(** What a use changes: at most a grant for one use, which was an allow. *)
Lemma use_effect ctx now now' c s st r st' :
  session_ok st → Use ToUpper cfg ctx now now' c s st = (r, st') →
  g_store st' = g_store st ∧
  (mem st' = mem st ∧ (∀ g, r = Ok g → g_Duration g ≠ Once) ∨
   ∃ g, r = Ok g ∧ mem st !! key g = Some g ∧ g_Decision g = Allow ∧ g_Duration g = Once ∧ mem st' = delete (key g) (mem st)).
Proof.
  intros Hok. unfold Use. destruct (validateKey c s); [intros [= <- <-]; auto|].
  destruct (checkLocked _ _ _ _ _ _ _) as [v|e] eqn:Ev; [|intros [= <- <-]; destruct (refuse_core ctx now' c s CauseStoreUnreadable no_grant st); auto].
  destruct (Allowed v) eqn:Ha; cbn [negb]; [|intros [= <- <-]; destruct (refuse_core ctx now' c s (causeOf v) (v_Grant v) st); auto].
  destruct (record _ _ _ _) as [[] st1] eqn:Er; apply record_core in Er as [E1 E2]; cbn [negb].
  2: { intros [= <- <-]. destruct (refuse_core ctx now' c s CauseAuditFailed (v_Grant v) st1) as [-> ->]. auto. }
  destruct (String.eqb_spec (g_Duration (v_Grant v)) Once) as [Ho|Ho]; intros [= <- <-]; cbn; (split; [done|]).
  - right. exists (v_Grant v). destruct (decide (c = CapTelemetry)) as [->|Hc].
    + apply telemetry_allowed in Ev as (_ & H & _); [|done]. by rewrite H in Ho.
    + apply allowed_holds in Ev as (Hd & _ & _ & _ & Hm); [|done..]. rewrite E2. auto.
  - left. split; [done|]. by intros g [= <-].
Qed.


Inductive step : label → session_state → session_state → Prop :=
| step_decide ctx now now' g st : step (LDecide (key g)) st (Decide cfg ctx now now' g st).2
| step_request ctx now now' c s prompter st : step LQuiet st (Request_begin ToUpper cfg ctx now now' c s prompter st).2
| step_answer ctx now now' c s v ans st : step (LDecide (c, s)) st (Request_answer cfg ctx now now' c s v ans st).2
| step_use ctx now now' c s st : step LQuiet st (Use ToUpper cfg ctx now now' c s st).2
| step_revoke ctx now c s src st : step (LRevoke (c, s)) st (Revoke cfg ctx now c s src st).2
| step_end st : step LEnd st (EndSession st)
| step_other s st : gs_inv s → step LOther st (set_store s st).

Inductive steps : session_state → list label → session_state → Prop :=
| steps_nil st : steps st [] st
| steps_cons st l st' ls st'' : step l st st' → steps st' ls st'' → steps st (l :: ls) st''.

(** What a step leaves alone. *)
Definition spares (k : grantKey) (l : label) (st st' : session_state) : Prop :=
  (l ≠ LEnd → mem st' !! k = mem st !! k ∨
     (∃ g, mem st !! k = Some g ∧ g_Decision g = Allow ∧ g_Duration g = Once) ∧ mem st' !! k = None) ∧
  (l ≠ LOther → k.1 ≠ CapTelemetry → gs_view (g_store st') !! k = gs_view (g_store st) !! k).

Lemma same_spares k l st st' : g_store st' = g_store st → mem st' = mem st → spares k l st st'.
Proof. unfold spares. intros -> ->. auto. Qed.

Lemma Decide_effect ctx now now' g st :
  session_ok st → session_ok (Decide cfg ctx now now' g st).2 ∧ ∀ k l, k ≠ key g → spares k l st (Decide cfg ctx now now' g st).2.
Proof.
  intros Hok. unfold Decide. set (g' := if is_zero _ then _ else _). assert (key g' = key g) as Hk by (unfold g'; by case_match).
  destruct (Validate g'); [split; [done|]; intros; by apply same_spares|]. destruct (decideLocked _ _ _ _ _) as [err st'] eqn:E.
  destruct (decide_effect _ _ _ _ _ _ Hok E) as (Hok' & Ho & _). split; [done|]. intros k l Hne. rewrite <-Hk in Hne.
  destruct (Ho k Hne). split; auto.
Qed.

Lemma Revoke_effect ctx now c s src st :
  session_ok st → session_ok (Revoke cfg ctx now c s src st).2 ∧
  ∀ k, (k ≠ (c, s) → ∀ l, spares k l st (Revoke cfg ctx now c s src st).2) ∧ (mem st !! k = None → mem (Revoke cfg ctx now c s src st).2 !! k = None).
Proof.
  intros Hok. unfold Revoke. destruct (validateKey c s); [split; [done|]; intros; split; [|done]; intros; by apply same_spares|].
  destruct (negb (validSource src)); [split; [done|]; intros; split; [|done]; intros; by apply same_spares|].
  destruct (gs_DeleteGrant ctx c s _) as [r s1] eqn:Ed. destruct (gs_delete_law _ _ _ _ _ _ (proj1 Hok) Ed) as (I' & Hother & _).
  set (st1 := set_store s1 (set_mem (delete (c, s) (mem st)) st)).
  assert (∀ st2 : session_state, g_store st2 = s1 → mem st2 = delete (c, s) (mem st) →
    session_ok st2 ∧ ∀ k, (k ≠ (c, s) → ∀ l, spares k l st st2) ∧ (mem st !! k = None → mem st2 !! k = None)) as Hst2.
  { intros st2 E1 E2. split.
    - split; [by rewrite E1|]. rewrite E2. intros k g [_ Hg]%lookup_delete_Some. by apply Hok.
    - intros k. split.
      + intros Hk l. unfold spares. rewrite E1, E2, lookup_delete_ne by done. auto.
      + intros Hk. rewrite E2. by apply lookup_delete_None; right. }
  destruct r as [removed|e]; [|by apply Hst2]. case_match; [by apply Hst2|].
  destruct (record _ _ _ _) as [ok st2] eqn:Er. apply record_core in Er as [E1 E2]. by apply Hst2.
Qed.

Lemma request_core ctx now now' c s prompter (st : session_state) :
  g_store (Request_begin ToUpper cfg ctx now now' c s prompter st).2 = g_store st ∧
  mem (Request_begin ToUpper cfg ctx now now' c s prompter st).2 = mem st.
Proof.
  unfold Request_begin. destruct (validateKey c s); [done|]. destruct (checkLocked _ _ _ _ _ _ _) as [v|e]; [|apply refuse_core].
  destruct (Allowed v); [done|]. case_match; [apply refuse_core|done].
Qed.

Lemma answer_effect ctx now now' c s v ans st :
  session_ok st → session_ok (Request_answer cfg ctx now now' c s v ans st).2 ∧
  ∀ k l, k ≠ (c, s) → spares k l st (Request_answer cfg ctx now now' c s v ans st).2.
Proof.
  intros Hok. unfold Request_answer. destruct (refuse_core ctx now' c s CausePrompterError (v_Grant v) st) as [E1 E2].
  destruct ans as [a|]; [|split; [by eapply core_ok|]; intros; by apply same_spares].
  set (gr := mkGrant _ _ _ _ _ _ _ _). destruct (Validate gr); [split; [by eapply core_ok|]; intros; by apply same_spares|].
  pose proof (Decide_effect ctx now now' gr st Hok) as H. by destruct (Decide _ _ _ _ _ _) as [[e|] st1].
Qed.

Lemma step_effect l st st' :
  session_ok st → step l st st' → session_ok st' ∧ ∀ k, l ≠ LDecide k → l ≠ LRevoke k → spares k l st st'.
Proof.
  intros Hok Hs. destruct Hs as [ctx now now' g st|ctx now now' c s prompter st|ctx now now' c s v ans st|ctx now now' c s st|ctx now c s src st|st|s st I].
  - destruct (Decide_effect ctx now now' g st Hok) as [? H]. split; [done|]. intros k Hk _. apply H. congruence.
  - destruct (request_core ctx now now' c s prompter st) as [E1 E2]. split; [by eapply core_ok|]. intros. by apply same_spares.
  - destruct (answer_effect ctx now now' c s v ans st Hok) as [? H]. split; [done|]. intros k Hk _. apply H. congruence.
  - destruct (Use _ _ _ _ _ _ _ _) as [r st'] eqn:E. cbn. destruct (use_effect _ _ _ _ _ _ _ _ Hok E) as [E1 [[E2 _]|(g & _ & Hg & Hd & Ho & E2)]].
    + split; [by eapply core_ok|]. intros. by apply same_spares.
    + split; [split; [rewrite E1; apply Hok|]; rewrite E2; intros k h [_ Hh]%lookup_delete_Some; by apply Hok|].
      intros k _ _. unfold spares. rewrite E1, E2. split; [|done]. intros _. destruct (decide (k = key g)) as [->|Hk].
      * right. split; [eauto|apply lookup_delete_eq].
      * left. by apply lookup_delete_ne.
  - destruct (Revoke_effect ctx now c s src st Hok) as [? H]. split; [done|]. intros k _ Hk. apply H. congruence.
  - split; [split; [apply Hok|]; by intros|]. intros k _ _. split; [done|]. intros _ _. done.
  - split; [by split; [|apply Hok]|]. intros k _ _. split; [auto|done].
Qed.

(** The steps a decision outlives: none decides or revokes its key, nobody else
    writes the store, and a decision of the session only outlives the session's
    own steps. *)
Definition leaves (g : Grant) (l : label) : Prop :=
  match l with
  | LDecide k | LRevoke k => k ≠ key g
  | LEnd => Persisted (g_Duration g) = true
  | LOther => False
  | LQuiet => True
  end.

Lemma step_stands g l st st' :
  session_ok st → step l st st' → g_Capability g ≠ CapTelemetry → g_Decision g = Deny → leaves g l → stands g st → stands g st'.
Proof.
  intros Hok Hs Hc Hd Hl. destruct (step_effect _ _ _ Hok Hs) as [_ Hsp].
  destruct (Hsp (key g)) as [Hm Hv]; [by intros ->..|]. unfold stands. destruct (Persisted (g_Duration g)) eqn:Ep.
  - intros H. rewrite Hv; [done| |done]. by intros ->.
  - intros H. assert (l ≠ LEnd) as He by (intros ->; cbn in Hl; congruence).
    destruct (Hm He) as [E|[(h & Hh & Ha & _) _]]; [by rewrite E|]. rewrite H in Hh. injection Hh as <-. by rewrite Hd in Ha.
Qed.

Lemma steps_ok st ls st' : session_ok st → steps st ls st' → session_ok st'.
Proof. intros Hok Hs. induction Hs as [|st l st' ls st'' H _ IH]; [done|]. apply IH. by eapply step_effect. Qed.

Lemma steps_stand g st ls st' :
  session_ok st → steps st ls st' → g_Capability g ≠ CapTelemetry → g_Decision g = Deny → Forall (leaves g) ls → stands g st → stands g st'.
Proof.
  intros Hok Hs Hc Hd. induction Hs as [|st l st' ls st'' H _ IH]; [done|]. intros [Hl Hls]%Forall_cons Hst.
  apply IH; [by eapply step_effect|done|]. by eapply step_stands.
Qed.

(** A key without a grant in memory gets one by a decision only. *)
Lemma step_no_grant k l st st' : session_ok st → step l st st' → l ≠ LDecide k → mem st !! k = None → mem st' !! k = None.
Proof.
  intros Hok Hs Hl Hm. destruct (decide (l = LEnd)) as [->|He]; [by inversion Hs|].
  destruct (decide (l = LRevoke k)) as [->|Hr].
  - inversion Hs; subst. destruct (Revoke_effect ctx now c s src st Hok) as [_ H]. by apply H.
  - destruct (step_effect _ _ _ Hok Hs) as [_ Hsp]. destruct (Hsp k Hl Hr) as [H _]. destruct (H He) as [->|[_ ?]]; done.
Qed.

Lemma steps_no_grant k st ls st' : session_ok st → steps st ls st' → LDecide k ∉ ls → mem st !! k = None → mem st' !! k = None.
Proof.
  intros Hok Hs. induction Hs as [|st l st' ls st'' H _ IH]; [done|]. intros [Hl Hls]%not_elem_of_cons Hm.
  apply IH; [by eapply step_effect|done|]. eapply step_no_grant; eauto.
Qed.

(** ** Properties *)

Definition opened (st : session_state) : Prop := gs_inv (g_store st) ∧ mem st = ∅.

Lemma opened_ok st ls st' : opened st → steps st ls st' → session_ok st'.
Proof. intros [I M]. apply steps_ok. split; [done|]. by rewrite M. Qed.

(** C14. A use that goes ahead was consented to and is audited, whatever was
    decided, asked, used and revoked before and whatever other processes did to
    the store: the grant it returns is an allow that counts now, for the subject
    itself or for any subject when the subject has no grant of its own; no deny
    that counts is held beside it, in memory or in the store; telemetry needs an
    environment without opt-out and a yes from it or from the record; and the
    last record of the audit log is this use. *)
Theorem use_is_consented st0 ls st ctx now now' c s g st' :
  opened st0 → steps st0 ls st → Use ToUpper cfg ctx now now' c s st = (Ok g, st') →
  validateKey c s = None ∧ g_Decision g = Allow ∧ g_store st' = g_store st ∧
  recorded (g_audit st') = recorded (g_audit st) ++ [auditFromGrant AuditUsed g (clock now')] ∧
  if decide (c = CapTelemetry) then
    ∃ l r, gs_Grants ctx (g_store st) = Ok l ∧ telemetry_record ctx (g_store st) l = Ok r ∧ consents ToUpper (telemetry_inputs cfg r)
  else
    holds st now (key g) g ∧
    (key g = (c, s) ∨ key g = (c, "") ∧ ∀ h, key h = (c, s) → ¬ holds st now (c, s) h) ∧
    ∀ h, key h = key g → holds st now (key g) h → g_Decision h ≠ Deny.
Proof.
  intros Ho Hs. pose proof (opened_ok _ _ _ Ho Hs) as Hok. intros E. pose proof (use_effect _ _ _ _ _ _ _ _ Hok E) as [Hst _]. revert E.
  unfold Use. destruct (validateKey c s) eqn:Ek; [done|]. destruct (checkLocked _ _ _ _ _ _ _) as [v|e] eqn:Ev; [|done].
  destruct (Allowed v) eqn:Ha; cbn [negb]; [|done]. destruct (record _ _ _ _) as [[] st1] eqn:Er; cbn [negb]; [|done]. intros [= <- Est].
  assert (recorded (g_audit st') = recorded (g_audit st1)) as -> by (subst st'; by case_match).
  assert (recorded (g_audit st1) = recorded (g_audit st) ++ [auditFromGrant AuditUsed (v_Grant v) (clock now')]) as ->.
  { unfold record in Er. destruct (au_Record _ _ _) as [ok a] eqn:Ea. injection Er as -> <-. cbn.
    by destruct (au_record_law _ _ _ _ _ Ea) as [?|[? _]]. }
  case_decide as Hc.
  - subst c. destruct (telemetry_allowed _ _ _ _ _ Ev Ha) as (? & _ & ?). by split_and!.
  - destruct (allowed_holds _ _ _ _ _ _ Hok Hc Ev Ha) as (? & ? & ? & ? & _). by split_and!.
Qed.


(** A grant for one use is used once: after a use under it, no later use goes
    ahead under a grant for one use of that key unless the key was decided
    again in between, whatever else happened. *)
Theorem once_grant_used_once st0 ls0 st ctx now now' c s g st1 ls st2 ctx' now2 now2' c' s' g' st3 :
  opened st0 → steps st0 ls0 st →
  Use ToUpper cfg ctx now now' c s st = (Ok g, st1) → g_Duration g = Once →
  steps st1 ls st2 → LDecide (key g) ∉ ls →
  Use ToUpper cfg ctx' now2 now2' c' s' st2 = (Ok g', st3) → g_Duration g' = Once → key g' ≠ key g.
Proof.
  intros Ho Hs0 E1 Hd1 Hs Hl E2 Hd2 Hk. pose proof (opened_ok _ _ _ Ho Hs0) as Hok.
  assert (step LQuiet st st1) as H1 by (replace st1 with (Use ToUpper cfg ctx now now' c s st).2 by (by rewrite E1); constructor).
  assert (session_ok st1) as Hok1 by (by eapply step_effect). assert (session_ok st2) as Hok2 by (by eapply steps_ok).
  destruct (use_effect _ _ _ _ _ _ _ _ Hok E1) as [_ [[_ H]|(h & [= <-] & _ & _ & _ & Em)]]; [by apply (H g)|].
  assert (mem st2 !! key g = None) as Hnone by (eapply steps_no_grant; [exact Hok1|done..|]; rewrite Em; apply lookup_delete_eq).
  destruct (use_effect _ _ _ _ _ _ _ _ Hok2 E2) as [_ [[_ H]|(h & [= <-] & Hm & _)]]; [by apply (H g')|]. congruence.
Qed.

End props.

(** ** A consent session over the in-memory store *)

Import memory_store.


(** An auditor that keeps what it is given until its context ends. *)
#[export] Instance list_auditor : Auditor (list AuditEvent) := {|
  au_Record ctx e a := if ctx : bool then (false, a) else (true, a ++ [e]);
  recorded a := a;
|}.

#[export] Instance list_auditor_laws : AuditorLaws (list AuditEvent).
Proof. split. intros [] e a ok a'; intros [= <- <-]; auto. Qed.

Definition screen : string := "io.screen.capture".
Definition dek : string := "app:dek".

Definition tool : Config := mkConfig (λ _, "") "" 1 true.
Definition t0 : Z := 1700000000 * 10 ^ 9.

Abbreviation session := (@Grants Store (list AuditEvent)).

Definition new_session : session := mkGrants ∅ [] ∅ ∅ false [].

Definition once_allow : Grant := mkGrant screen dek Allow Once t0 zero_time SourcePrompt 1.
Definition always_deny : Grant := mkGrant screen dek Deny Always t0 zero_time SourcePrompt 1.
Definition anyone : Grant := mkGrant screen "" Allow Always t0 zero_time SourceFlag 1.

Definition upper (s : string) : string := s.

Lemma new_session_opened : opened new_session.
Proof. by split. Qed.

Definition decide_ (g : Grant) (st : session) : session := (Decide tool false t0 t0 g st).2.
Definition use_ (st : session) := Use upper tool false t0 t0 screen dek st.

Lemma decided_step g st : step upper tool (LDecide (key g)) st (decide_ g st).
Proof. constructor. Qed.

(** A grant for one use beside one for any subject: the first use takes it. *)
Definition granted : session := decide_ once_allow (decide_ anyone new_session).

Lemma granted_steps : steps upper tool new_session [LDecide (screen, ""); LDecide (screen, dek)] granted.
Proof. econstructor; [apply (decided_step anyone)|]. econstructor; [apply (decided_step once_allow)|]. constructor. Qed.

Lemma use_is_consented_witness :
  ∃ st', use_ granted = (Ok once_allow, st') ∧ length (recorded (g_audit st')) = 3%nat ∧ holds granted t0 (screen, dek) once_allow.
Proof.
  destruct (use_ granted) as [r st'] eqn:E. exists st'. assert (r = Ok once_allow) as ->.
  { change r with (r, st').1. rewrite <-E. vm_compute. reflexivity. }
  pose proof (use_is_consented upper tool _ _ _ _ _ _ _ _ _ _ new_session_opened granted_steps E) as (_ & _ & _ & Hr & Hd).
  split; [reflexivity|]. split; [rewrite Hr; vm_compute; reflexivity|].
  change (holds granted t0 (key once_allow) once_allow). destruct (decide (screen = CapTelemetry)) as [Hc|_]; [discriminate Hc|]. apply Hd.
Defined.

(** Two applications with a grant for one use each. *)
Definition ink : string := "app:ink".
Definition once_ink : Grant := mkGrant screen ink Allow Once t0 zero_time SourcePrompt 1.
Definition both : session := decide_ once_ink (decide_ once_allow new_session).

Lemma both_steps : steps upper tool new_session [LDecide (screen, dek); LDecide (screen, ink)] both.
Proof. econstructor; [apply (decided_step once_allow)|]. econstructor; [apply (decided_step once_ink)|]. constructor. Qed.

(** The use of the other one's goes ahead, a second use of the first does not. *)
Lemma once_grant_used_once_witness :
  ∃ st2, Use upper tool false t0 t0 screen ink (use_ both).2 = (Ok once_ink, st2) ∧ key once_ink ≠ key once_allow ∧
         (use_ (use_ both).2).1 = Err (ERefused ReasonUnset).
Proof.
  destruct (Use upper tool false t0 t0 screen ink (use_ both).2) as [r st2] eqn:E. assert (r = Ok once_ink) as ->.
  { change r with (r, st2).1. rewrite <-E. vm_compute. reflexivity. }
  exists st2. split; [reflexivity|]. split; [|vm_compute; reflexivity].
  apply (once_grant_used_once upper tool new_session _ both false t0 t0 screen dek once_allow (use_ both).2 [] (use_ both).2
           false t0 t0 screen ink once_ink st2 new_session_opened both_steps).
  - reflexivity.
  - reflexivity.
  - constructor.
  - apply not_elem_of_nil.
  - exact E.
  - reflexivity.
Defined.


(** A grant whose audit fails is in force all the same: the call reports an
    error, the next use goes ahead. *)
Example unaudited_grant_counts :
  let '(err, st) := Decide tool true t0 t0 once_allow new_session in
  err = Some EAudit ∧ recorded (g_audit st) = [] ∧ (use_ st).1 = Ok once_allow.
Proof. vm_compute. done. Qed.
