(* ===== verification/AuditRelay.v ===== *)
(** * The consent audit log and its relay (go/core/consent: audit_file.go, relay.go)

    [FileAuditor] appends numbered records to a log; [Relay] publishes the ones
    after its cursor, in order, and moves the cursor past what was confirmed.
    The log is the list of its lines, a line that does not parse being [None];
    what the disk and the publisher do are arguments.  [confirmed] is the
    sequence of confirmed publishes, which the code does not keep. *)

From S2P Require Import Prelude Topics Consent Grants.

Local Open Scope Z_scope.

(** ** The log (audit_file.go) *)

Record rec := mkRec { r_Log : string; r_Seq : Z; r_Event : AuditEvent }.

(** [torn]: the last line was cut off by a failed write. *)
Record file := mkFile { lines : list (option rec); torn : bool }.

(** What appending a line did: all of it, with or without the data reaching the
    disk, a part of it, or nothing. *)
Inductive write := WriteOk | WriteUnsynced | WriteTorn | WriteFailed.

Record FileAuditor := mkAuditor { loaded : bool; log : string; seq : Z }.

(** The checks of [readAll] on each line, [out] being what was read so far. *)
Definition follows (out : list rec) (e : rec) : bool :=
  match head out, last out with
  | Some first, Some prev => String.eqb (r_Log e) (r_Log first) && (r_Seq e =? uint64 (r_Seq prev + 1))
  | _, _ => negb (String.eqb (r_Log e) "") && (r_Seq e =? 1)
  end.

Fixpoint read_lines (ls : list (option rec)) (out : list rec) : option (list rec) :=
  match ls with
  | [] => Some out
  | None :: _ => None
  | Some e :: ls => if follows out e then read_lines ls (out ++ [e]) else None
  end.

Definition readAll (f : file) : option (list rec) := if torn f then None else read_lines (lines f) [].

(** [mint] is the id a new log gets. *)
Definition loadLocked (mint : string) (f : file) (a : FileAuditor) : option FileAuditor :=
  if loaded a then Some a
  else match readAll f with
       | None => None
       | Some all =>
           Some (match last all with
                 | Some e => mkAuditor true (r_Log e) (r_Seq e)
                 | None => mkAuditor true mint (seq a)
                 end)
       end.

(** A line appended after a cut-off one is joined to it. *)
Definition append (w : write) (e : rec) (f : file) : file :=
  match w with
  | WriteOk | WriteUnsynced => mkFile (lines f ++ [if torn f then None else Some e]) false
  | WriteTorn => mkFile (lines f) true
  | WriteFailed => f
  end.

Definition Record_ (ctx : bool) (mint : string) (w : write) (e : AuditEvent) (f : file) (a : FileAuditor) : bool * file * FileAuditor :=
  if ctx then (false, f, a)
  else match loadLocked mint f a with
       | None => (false, f, a)
       | Some a =>
           let r := mkRec (log a) (uint64 (seq a + 1)) e in
           let f := append w r f in
           match w with
           | WriteOk => (true, f, mkAuditor (loaded a) (log a) (r_Seq r))
           | _ => (false, f, a)
           end
       end.

Definition ReadAfter (after : Z) (f : file) : option (list rec) :=
  all ← readAll f; Some (filter (λ e, (after <? r_Seq e) = true) all).

(** ** The relay (relay.go) *)

Record relayCursor := mkCursor { cur_Log : string; cur_Seq : Z }.

(** The cursor file: absent, readable or corrupt. *)
Inductive cursor_file := NoCursor | Cursor (c : relayCursor) | CorruptCursor.

Definition readCursorFile (c : cursor_file) : option relayCursor :=
  match c with NoCursor => Some (mkCursor "" 0) | Cursor c => Some c | CorruptCursor => None end.

(** What happens to one record: the context ended before it, it was not
    confirmed, it was confirmed and the cursor could not be written, or it was
    confirmed and acknowledged. *)
Inductive outcome := Ended | Unconfirmed | Unacked | Acked.

Record FlushResult := mkFlush { Delivered : list Z; res_Cursor : Z; Pending : Z }.

Fixpoint deliver_all (logID : string) (recs : list rec) (outs : list outcome) (res : FlushResult) (cur : cursor_file) (confirmed : list rec) :
    FlushResult * bool * cursor_file * list rec :=
  match recs with
  | [] => (res, true, cur, confirmed)
  | e :: recs =>
      match default Ended (head outs) with
      | Ended | Unconfirmed => (res, false, cur, confirmed)
      | Unacked => (res, false, cur, confirmed ++ [e])
      | Acked => deliver_all logID recs (tail outs) (mkFlush (Delivered res ++ [r_Seq e]) (r_Seq e) (Pending res - 1))
                   (Cursor (mkCursor logID (r_Seq e))) (confirmed ++ [e])
      end
  end.

Record relay := mkRelay { r_file : file; r_auditor : FileAuditor; r_cursor : cursor_file; confirmed : list rec }.

(** [Flush]: the result, whether it ended without an error, and the new state. *)
Definition Flush (mint : string) (outs : list outcome) (st : relay) : FlushResult * bool * relay :=
  match loadLocked mint (r_file st) (r_auditor st) with
  | None => (mkFlush [] 0 0, false, st)
  | Some a =>
      let st := mkRelay (r_file st) a (r_cursor st) (confirmed st) in
      match readCursorFile (r_cursor st) with
      | None => (mkFlush [] 0 (Z.of_nat (length (default [] (ReadAfter 0 (r_file st))))), false, st)
      | Some cur =>
          let cur := if String.eqb (cur_Log cur) (log a) then cur else mkCursor (log a) 0 in
          match ReadAfter (cur_Seq cur) (r_file st) with
          | None => (mkFlush [] (cur_Seq cur) 0, false, st)
          | Some recs =>
              let '(res, ok, c, conf) := deliver_all (log a) recs outs (mkFlush [] (cur_Seq cur) (Z.of_nat (length recs))) (r_cursor st) (confirmed st) in
              (res, ok, mkRelay (r_file st) a c conf)
          end
      end
  end.

(** ** Runs: records, flushes and restarts of the process *)

Inductive event :=
| ERecord (ctx : bool) (mint : string) (w : write) (e : AuditEvent)
| EFlush (mint : string) (outs : list outcome)
| ERestart.

Definition step (ev : event) (st : relay) : relay :=
  match ev with
  | ERecord ctx mint w e => let '(_, f, a) := Record_ ctx mint w e (r_file st) (r_auditor st) in mkRelay f a (r_cursor st) (confirmed st)
  | EFlush mint outs => (Flush mint outs st).2
  | ERestart => mkRelay (r_file st) (mkAuditor false "" 0) (r_cursor st) (confirmed st)
  end.

Definition run (evs : list event) (st : relay) : relay := foldl (flip step) st evs.

(** Nothing recorded, nothing delivered. *)
Definition started : relay := mkRelay (mkFile [] false) (mkAuditor false "" 0) NoCursor [].

(** Writes reach the log as a whole and on the disk, or not at all, and ids are
    not empty. *)
Definition sane (ev : event) : Prop :=
  match ev with
  | ERecord _ mint w _ => mint ≠ "" ∧ (w = WriteOk ∨ w = WriteFailed)
  | EFlush mint _ => mint ≠ ""
  | ERestart => True
  end.

(** ** Numbered logs *)

Definition numbered (id : string) (rs : list rec) : Prop :=
  ∀ i r, rs !! i = Some r → r_Log r = id ∧ r_Seq r = Z.of_nat i + 1.

Lemma numbered_snoc id rs r : numbered id rs → r_Log r = id → r_Seq r = Z.of_nat (length rs) + 1 → numbered id (rs ++ [r]).
Proof.
  intros H Hl Hs i x [Hx|[Hge Hx]]%lookup_app_Some; [by apply H|]. apply list_lookup_singleton_Some in Hx as [Hi <-].
  split; [done|]. lia.
Qed.

Lemma numbered_last id rs r : numbered id rs → last rs = Some r → r_Log r = id ∧ r_Seq r = Z.of_nat (length rs).
Proof. rewrite last_lookup. intros H Hr. pose proof (lookup_lt_Some _ _ _ Hr). destruct (H _ _ Hr) as [-> ->]. split; [done|lia]. Qed.

Lemma numbered_follows id rs r rs' :
  id ≠ "" → Z.of_nat (length (rs ++ r :: rs')) < 2 ^ 64 → numbered id (rs ++ r :: rs') → follows rs r = true.
Proof.
  intros Hid Hlen H. destruct (H (length rs) r) as [Hl Hs]; [by rewrite lookup_app_r, Nat.sub_diag|]. unfold follows.
  destruct (head rs) as [first|] eqn:Eh, (last rs) as [prev|] eqn:Ep.
  - assert (rs !! 0%nat = Some first) as Hf by (by destruct rs). destruct (H 0%nat first) as [Hl' _]; [by apply lookup_app_l_Some|].
    assert (numbered id rs) as Hn by (intros i x Hx; apply H; by apply lookup_app_l_Some).
    destruct (numbered_last id rs prev Hn Ep) as [_ Hs']. rewrite Hl, Hl', String.eqb_refl, Hs, Hs'. apply Z.eqb_eq. unfold uint64.
    rewrite length_app in Hlen. cbn in Hlen. rewrite Z.mod_small; lia.
  - destruct rs as [|x rs]; [done|]. rewrite last_cons in Ep. by destruct (last rs).
  - destruct rs as [|x rs]; [done|]. done.
  - destruct rs; [|done]. cbn in Hs. rewrite Hs, Hl. destruct (String.eqb_spec id ""); done.
Qed.

Lemma read_numbered id rs2 : id ≠ "" → ∀ rs1, Z.of_nat (length (rs1 ++ rs2)) < 2 ^ 64 → numbered id (rs1 ++ rs2) →
  read_lines (Some <$> rs2) rs1 = Some (rs1 ++ rs2).
Proof.
  intros Hid. induction rs2 as [|r rs2 IH]; intros rs1 Hlen H; cbn; [by rewrite app_nil_r|].
  rewrite (numbered_follows id rs1 r rs2) by done. rewrite IH; rewrite <-?app_assoc; done.
Qed.

Lemma after_numbered id rs : numbered id rs → ∀ c, filter (λ e, (Z.of_nat c <? r_Seq e) = true) rs = drop c rs.
Proof.
  induction rs as [|r rs IH] using rev_ind; intros H c; [by rewrite drop_nil|].
  assert (numbered id rs) as Hn by (intros i x Hx; apply H; by apply lookup_app_l_Some).
  destruct (H (length rs) r) as [_ Hs]; [by rewrite lookup_app_r, Nat.sub_diag|]. rewrite filter_app, IH, drop_app by done. f_equal.
  rewrite filter_cons, filter_nil. case_decide as Hd; rewrite Z.ltb_lt, Hs in Hd.
  - by replace (c - length rs)%nat with 0%nat by lia.
  - symmetry. apply drop_ge. cbn. lia.
Qed.

(** ** The invariant *)

(** A record is confirmed after the one before it. *)
Definition in_order (conf : list rec) : Prop :=
  ∀ i r, conf !! i = Some r → r_Seq r = 1 ∨ ∃ j r', (j < i)%nat ∧ conf !! j = Some r' ∧ r_Seq r' = r_Seq r - 1.

(** The first [c] records of the log are confirmed. *)
Definition confirmed_to (rs : list rec) (conf : list rec) (c : nat) : Prop := ∀ i r, (i < c)%nat → rs !! i = Some r → r ∈ conf.

Record relay_ok (n : nat) (id : string) (rs : list rec) (st : relay) : Prop := mkRelayOk {
  ro_file : r_file st = mkFile (Some <$> rs) false;
  ro_numbered : numbered id rs;
  ro_id : id ≠ "";
  ro_auditor : if loaded (r_auditor st) then log (r_auditor st) = id ∧ seq (r_auditor st) = Z.of_nat (length rs) else seq (r_auditor st) = 0;
  ro_cursor : match r_cursor st with
              | NoCursor => True
              | Cursor c => cur_Log c = id ∧ ∃ k, cur_Seq c = Z.of_nat k ∧ (0 < k ≤ length rs)%nat ∧ confirmed_to rs (confirmed st) k
              | CorruptCursor => False
              end;
  ro_order : in_order (confirmed st);
  ro_logged : ∀ r, r ∈ confirmed st → r ∈ rs;
  ro_bound : (length rs ≤ n)%nat;
}.

Lemma started_ok id : id ≠ "" → relay_ok 0 id [] started.
Proof. intros H. by split. Qed.

Lemma ok_reads n id rs st : Z.of_nat n < 2 ^ 64 → relay_ok n id rs st → readAll (r_file st) = Some rs.
Proof. intros Hn [-> Hnum Hid _ _ _ _ Hb]. cbn. apply (read_numbered id rs Hid []); [cbn; lia|done]. Qed.

(** Loading reads the log's id and length back, or mints an id for an empty log. *)
Lemma load_reads n id rs st mint a :
  Z.of_nat n < 2 ^ 64 → mint ≠ "" → relay_ok n id rs st → loadLocked mint (r_file st) (r_auditor st) = a →
  ∃ id' a', a = Some a' ∧ loaded a' = true ∧ relay_ok n id' rs (mkRelay (r_file st) a' (r_cursor st) (confirmed st)).
Proof.
  intros Hn Hm Hok <-. pose proof (ok_reads _ _ _ _ Hn Hok) as Hr. destruct Hok as [Hf Hnum Hid Ha Hc Ho Hl Hb]. unfold loadLocked.
  destruct (loaded (r_auditor st)) eqn:El; [exists id, (r_auditor st); split_and!; try done; split; try done; cbn; by rewrite El|].
  rewrite Hr. destruct (last rs) as [e|] eqn:Ee.
  - destruct (numbered_last id rs e Hnum Ee) as [E1 E2]. exists id, (mkAuditor true (r_Log e) (r_Seq e)). by split_and!.
  - apply last_None in Ee. subst rs. exists mint, (mkAuditor true mint (seq (r_auditor st))). split_and!; try done. split; try done.
    cbn. destruct (r_cursor st) as [|c|]; try done. destruct Hc as (_ & k & _ & Hk & _). cbn in Hk. lia.
Qed.

Lemma confirmed_next rs conf k r : confirmed_to rs conf k → rs !! k = Some r → confirmed_to rs (conf ++ [r]) (S k).
Proof.
  intros H Hr i x Hi Hx. apply elem_of_app. destruct (decide (i = k)) as [->|].
  - right. rewrite Hr in Hx. injection Hx as <-. apply list_elem_of_here.
  - left. apply (H i); [lia|done].
Qed.

Lemma in_order_next id rs conf k r :
  numbered id rs → confirmed_to rs conf k → rs !! k = Some r → in_order conf → in_order (conf ++ [r]).
Proof.
  intros Hn Hc Hr Ho i x [Hx|[Hge Hx]]%lookup_app_Some.
  - destruct (Ho i x Hx) as [?|(j & r' & Hj & Hr' & Hs)]; [by left|right]. exists j, r'. split_and!; try done. by apply lookup_app_l_Some.
  - apply list_lookup_singleton_Some in Hx as [Hi ->]. destruct (Hn k x Hr) as [_ Hs]. destruct k as [|k]; [left; lia|right].
    destruct (lookup_lt_is_Some_2 rs k) as [y Hy]; [apply lookup_lt_Some in Hr; lia|].
    assert (y ∈ conf) as [j Hj]%list_elem_of_lookup by (apply (Hc k); [lia|done]). destruct (Hn k y Hy) as [_ Hsy].
    exists j, y. pose proof (lookup_lt_Some _ _ _ Hj). split_and!; [lia|by apply lookup_app_l_Some|lia].
Qed.

(** Delivering from position [k] of the log on. *)
Lemma deliver_ok id rs outs k res cur conf res' ok cur' conf' :
  numbered id rs → confirmed_to rs conf k → in_order conf → (∀ r, r ∈ conf → r ∈ rs) →
  deliver_all id (drop k rs) outs res cur conf = (res', ok, cur', conf') →
  in_order conf' ∧ (∀ r, r ∈ conf' → r ∈ rs) ∧
  (cur' = cur ∧ (∀ r, r ∈ conf → r ∈ conf') ∨
   ∃ k', cur' = Cursor (mkCursor id (Z.of_nat k')) ∧ (0 < k' ≤ length rs)%nat ∧ confirmed_to rs conf' k') ∧
  (∀ m, outs = replicate m Acked → (length rs - k ≤ m)%nat → Pending res = Z.of_nat (length rs - k) →
     ok = true ∧ Pending res' = 0 ∧ confirmed_to rs conf' (length rs)).
Proof.
  intros Hn. remember (drop k rs) as l eqn:El. revert k outs res cur conf El. induction l as [|e l IH]; intros k outs res cur conf El Hc Ho Hin.
  - cbn. intros [= <- <- <- <-]. split_and!; try done; [by left|]. intros m _ _ Hp.
    assert (length rs ≤ k)%nat as Hk by (apply (f_equal length) in El; rewrite length_drop in El; cbn in El; lia).
    split_and!; [done|lia|]. intros i r Hi Hr. apply (Hc i); [lia|done].
  - assert (rs !! k = Some e) as He by (rewrite <-(Nat.add_0_r k), <-lookup_drop, <-El; done).
    assert (l = drop (S k) rs) as El' by (rewrite <-Nat.add_1_r, <-drop_drop, <-El; done).
    pose proof (lookup_lt_Some _ _ _ He) as Hlt.
    assert (∀ r, r ∈ conf ++ [e] → r ∈ rs) as Hin' by (intros r [?|Hr%list_elem_of_singleton]%elem_of_app; [auto|]; subst r; by eapply list_elem_of_lookup_2).
    cbn [deliver_all]. destruct (default Ended (head outs)) eqn:Eo.
    1,2: intros [= <- <- <- <-]; (split_and!; try done; [by left|]); intros [|m] ->; [lia|done].
    + intros [= <- <- <- <-]. split_and!; [by eapply in_order_next|done| |].
      * left. split; [done|]. intros r Hr. apply elem_of_app. by left.
      * intros [|m] ->; [lia|done].
    + intros E. destruct (Hn k e He) as [_ Hs].
      destruct (IH (S k) _ _ _ _ El' (confirmed_next _ _ _ _ Hc He) (in_order_next _ _ _ _ _ Hn Hc He Ho) Hin' E) as (H1 & H2 & H3 & H4).
      split_and!; try done.
      * right. destruct H3 as [[-> H3]|H3]; [|done]. exists (S k). split_and!; [f_equal; f_equal; lia|lia|lia|].
        intros i r Hi Hr. apply H3. by apply (confirmed_next rs conf k e Hc He i).
      * intros [|m] -> Hm Hp; [lia|]. apply (H4 m); [done|lia|]. cbn. lia.
Qed.

Lemma relay_mono n n' id rs st : (n ≤ n')%nat → relay_ok n id rs st → relay_ok n' id rs st.
Proof. intros Hn [? ? ? ? ? ? ? ?]. split; try done. lia. Qed.

Lemma record_ok n id rs st ctx mint w e ok f a :
  Z.of_nat (S n) < 2 ^ 64 → mint ≠ "" → w = WriteOk ∨ w = WriteFailed → relay_ok n id rs st →
  Record_ ctx mint w e (r_file st) (r_auditor st) = (ok, f, a) →
  ∃ id' rs', relay_ok (S n) id' rs' (mkRelay f a (r_cursor st) (confirmed st)) ∧ (ok = true → ∃ r, rs' = rs ++ [r] ∧ r_Event r = e).
Proof.
  intros Hn Hm Hw Hok. unfold Record_. destruct ctx.
  { intros [= <- <- <-]. exists id, rs. split; [|done]. eapply (relay_mono n); [lia|]. by destruct st. }
  destruct (load_reads n id rs st mint _ ltac:(lia) Hm Hok eq_refl) as (id' & a' & -> & Hl & Hok'). destruct Hw as [-> | ->]; intros [= <- <- <-].
  2: { exists id', rs. split; [|done]. by eapply (relay_mono n); [lia|]. }
  destruct Hok' as [Hf Hnum Hid Ha Hc Ho Hlog Hb]. cbn in Hf, Ha, Hc, Ho, Hlog. rewrite Hl in Ha. destruct Ha as [Ha1 Ha2].
  set (r := mkRec _ _ e). assert (r_Seq r = Z.of_nat (length rs) + 1) as Hr by (cbn; unfold uint64; rewrite Z.mod_small; lia).
  exists id', (rs ++ [r]). split; [|intros _; by exists r]. split; cbn -[r]; try done.
  - rewrite Hf. cbn -[r]. by rewrite fmap_app.
  - apply numbered_snoc; [done|done|done].
  - rewrite Hl, length_app. cbn -[r]. split; [done|]. transitivity (r_Seq r); [done|lia].
  - destruct (r_cursor st) as [|c|]; try done. destruct Hc as (Hc1 & k & Hk & Hk' & Hc2). split; [done|]. exists k. rewrite length_app.
    split_and!; [done|lia|lia|]. intros i x Hi Hx. rewrite lookup_app_l in Hx by lia. by apply (Hc2 i).
  - intros x Hx. apply elem_of_app. left. auto.
  - rewrite length_app. cbn. lia.
Qed.

Lemma flush_ok n id rs st mint outs res ok st' :
  Z.of_nat n < 2 ^ 64 → mint ≠ "" → relay_ok n id rs st → Flush mint outs st = (res, ok, st') →
  ∃ id', relay_ok n id' rs st' ∧
    (outs = replicate (length rs) Acked → ok = true ∧ Pending res = 0 ∧ ∀ r, r ∈ rs → r ∈ confirmed st').
Proof.
  intros Hn Hm Hok. unfold Flush. destruct (load_reads n id rs st mint _ Hn Hm Hok eq_refl) as (id' & a & -> & Hl & Hok').
  pose proof (ok_reads _ _ _ _ Hn Hok') as Hr. pose proof Hok' as [Hf Hnum Hid Ha Hc Ho Hlog Hb]. cbn in Hf, Hr, Ha, Hc, Ho, Hlog |- *. rewrite Hl in Ha. destruct Ha as [Ha1 Ha2].
  assert (∃ k, readCursorFile (r_cursor st) ≠ None ∧ (k ≤ length rs)%nat ∧ confirmed_to rs (confirmed st) k ∧
    ∀ c, readCursorFile (r_cursor st) = Some c → (if String.eqb (cur_Log c) (log a) then c else mkCursor (log a) 0) = mkCursor id' (Z.of_nat k)) as (k & Hsome & Hk & Hto & Hcur).
  { destruct (r_cursor st) as [|c|]; [exists 0%nat| |done].
    - split_and!; [done|lia|intros i r; lia|]. intros c [= <-]. cbn. rewrite Ha1. by destruct id'.
    - destruct Hc as (Hc1 & k & Hk & Hk' & Hc2). exists k. split_and!; [done|lia|done|]. intros ? [= <-].
      rewrite Ha1, Hc1, String.eqb_refl. destruct c; cbn in *. by subst. }
  destruct (readCursorFile (r_cursor st)) as [c|]; [|done]. rewrite (Hcur c eq_refl). cbn [cur_Seq].
  unfold ReadAfter. rewrite Hr. cbn. rewrite (after_numbered id') by done. rewrite Ha1.
  destruct (deliver_all id' (drop k rs) outs _ _ _) as [[[res1 ok1] c1] conf1] eqn:Ed. intros [= <- <- <-].
  destruct (deliver_ok id' rs outs k _ _ _ _ _ _ _ Hnum Hto Ho Hlog Ed) as (H1 & H2 & H3 & H4). exists id'. split.
  - split; cbn; try done; [by rewrite Hl|]. destruct H3 as [[-> H3]|(k' & -> & Hk' & H3)]; [|by split; [|exists k']].
    destruct (r_cursor st) as [|c'|]; try done. destruct Hc as (Hc1 & j & Hj & Hj' & Hc2). split; [done|]. exists j. split_and!; [done|lia|lia|].
    intros i r Hi Hri. apply H3. by apply (Hc2 i).
  - intros Hout. destruct (H4 (length rs)) as (-> & -> & Hall); [done|lia|cbn; by rewrite length_drop|]. split_and!; try done.
    intros r [i Hi]%list_elem_of_lookup. apply (Hall i); [by eapply lookup_lt_Some|done].
Qed.

Lemma relay_step n id rs st ev :
  Z.of_nat (S n) < 2 ^ 64 → sane ev → relay_ok n id rs st → ∃ id' rs', relay_ok (S n) id' rs' (step ev st).
Proof.
  intros Hn Hs Hok. destruct ev as [ctx mint w e|mint outs|]; cbn [step].
  - destruct Hs as [Hm Hw]. destruct (Record_ _ _ _ _ _ _) as [[ok f] a] eqn:E.
    destruct (record_ok n id rs st ctx mint w e ok f a Hn Hm Hw Hok E) as (id' & rs' & H & _). by exists id', rs'.
  - destruct (Flush mint outs st) as [[res ok] st'] eqn:E. cbn.
    destruct (flush_ok n id rs st mint outs res ok st' ltac:(lia) Hs Hok E) as (id' & H & _). exists id', rs. by apply (relay_mono n); [lia|].
  - exists id, rs. destruct Hok as [? ? ? ? ? ? ? ?]. split; try done. cbn. lia.
Qed.

Lemma run_ok evs : Forall sane evs → Z.of_nat (length evs) < 2 ^ 64 → ∃ id rs, relay_ok (length evs) id rs (run evs started).
Proof.
  induction evs as [|ev evs IH] using rev_ind; intros Hs Hn; [exists "log", []; by apply started_ok|].
  apply Forall_app in Hs as [Hs Hev]. rewrite Forall_singleton in Hev. rewrite length_app in *. cbn in *.
  destruct IH as (id & rs & Hok); [done|lia|]. unfold run. rewrite foldl_app. cbn. rewrite Nat.add_1_r. eapply relay_step; [lia|done|done].
Qed.


(** Two records, a flush that confirms the first and cannot write its cursor, a
    restart, and a flush that goes through: the first goes out twice. *)
Definition refusal (c : string) : AuditEvent := mkAudit AuditRefused 0 c "" "" "" zero_time SourceConfig 0 CauseNoPrompter.

Definition crash : list event :=
  [ERecord false "log1" WriteOk (refusal "a.b"); ERecord false "log1" WriteOk (refusal "a.c"); EFlush "log1" [Unacked]; ERestart; EFlush "log2" [Acked; Acked]].


(** A record that was written and not synced keeps its number for the next one:
    the log cannot be read again, and a relay never delivers it. *)
Example unsynced_record_breaks_log :
  let st := run [ERecord false "log1" WriteUnsynced (refusal "a.b"); ERecord false "log1" WriteOk (refusal "a.c")] started in
  seq (r_auditor st) = 1 ∧ readAll (r_file st) = None ∧ (Flush "log1" [Acked; Acked] st).1.2 = false.
Proof. vm_compute. done. Qed.

(** After a write that was cut off the next record is reported as taken although
    it shares the broken line. *)
Example torn_line_swallows_record :
  let st := run [ERecord false "log1" WriteTorn (refusal "a.b")] started in
  (Record_ false "log1" WriteOk (refusal "a.c") (r_file st) (r_auditor st)).1.1 = true ∧
  readAll (Record_ false "log1" WriteOk (refusal "a.c") (r_file st) (r_auditor st)).1.2 = None.
Proof. vm_compute. done. Qed.
