(* ===== verification/Upgrade.v ===== *)
(** * Versioned migrations (go/core/upgrade: check.go, migration.go, migrate.go)

    The order of versions, the registry, and the migrator: back up, apply the
    pending migrations in order, verify, record the version, roll back on
    failure.  A schema's data is of any type; its migrations are functions on
    it that say whether they succeeded, also one that failed half-way.  What
    the disk and the driver's own calls do is the record [faults]. *)

From Stdlib Require Import Ascii.
From S2P Require Import Prelude Topics StreamWire GoStrings NetPolicy.

Local Open Scope Z_scope.

(** ** Versions (check.go) *)

Record semver := mkSemver { major : Z; minor : Z; patch : Z; pre : string }.

(** The text before the first [sep], and what follows it. *)
Fixpoint cut (sep : ascii) (s : string) : string * option string :=
  match s with
  | EmptyString => ("", None)
  | String c s => if Ascii.eqb c sep then ("", Some s) else let '(a, b) := cut sep s in (String c a, b)
  end.

Fixpoint leading_digits (s : string) : string :=
  match s with String c s => if is_digit c then String c (leading_digits s) else "" | EmptyString => "" end.

(** [fmt.Sscanf(s, "%d", &n)]: spaces but a newline are skipped. *)
Definition Sscanf_d (s : string) : option Z :=
  let s := trim_left (String.length s) (filter (λ p, p ≠ byte_string [10%N]) space_runes) s in
  let '(neg, s) := match s with
                   | String "-"%char s' => (true, s')
                   | String "+"%char s' => (false, s')
                   | _ => (false, s)
                   end in
  let ds := leading_digits s in
  if String.eqb ds "" then None
  else let n := digits_value ds 0 in
       if (neg : bool) then if n <=? 2 ^ 63 then Some (- n) else None else if n <? 2 ^ 63 then Some n else None.

(** [strings.SplitN(s, ".", 3)], the parts scanned as numbers, 0 for none. *)
Definition parseSemver (s : string) : semver :=
  let s := (cut "+" s).1 in
  let '(s, p) := cut "-" s in
  let '(a, r) := cut "." s in
  let '(b, c) := match r with Some r => let '(b, c) := cut "." r in (Some b, c) | None => (None, None) end in
  let num o := default 0 (o ≫= Sscanf_d) in
  mkSemver (num (Some a)) (num b) (num c) (default "" p).

Definition comparePreIdent (a b : string) : Z :=
  let num s := n ← Sscanf_d s; if String.eqb (FormatInt n) s then Some n else None in
  match num a, num b with
  | Some x, Some y => int64 (x - y)
  | Some _, None => -1
  | None, Some _ => 1
  | None, None => if String.ltb a b then -1 else if String.ltb b a then 1 else 0
  end.

Fixpoint compare_idents (a b : list string) : Z :=
  match a, b with
  | x :: a, y :: b => let d := comparePreIdent x y in if negb (d =? 0) then d else compare_idents a b
  | _, _ => Z.of_nat (length a) - Z.of_nat (length b)
  end.

Definition comparePreRelease (a b : string) : Z := compare_idents (SplitOn "." a) (SplitOn "." b).

Definition compareSemver (a b : semver) : Z :=
  let d := int64 (major a - major b) in
  if negb (d =? 0) then d else
  let d := int64 (minor a - minor b) in
  if negb (d =? 0) then d else
  let d := int64 (patch a - patch b) in
  if negb (d =? 0) then d else
  match String.eqb (pre a) "", String.eqb (pre b) "" with
  | true, true => 0
  | true, false => 1
  | false, true => -1
  | false, false => comparePreRelease (pre a) (pre b)
  end.

Definition version_of (s : string) : semver := parseSemver (TrimPrefix s "v").

Definition isNewer (current latest : string) : bool :=
  if String.eqb current "" || String.eqb latest "" then false
  else 0 <? compareSemver (version_of latest) (version_of current).

Section migrations.
Context {D : Type}.

(** ** The registry (migration.go) *)

Record Migration := mkMigration {
  m_Version : string;
  m_Schema : string;
  Up : D → bool * D;
  Down : option (D → bool * D);
  m_Verify : option (D → bool);
}.

Definition version_le (a b : Migration) : Prop := compareSemver (version_of (m_Version a)) (version_of (m_Version b)) ≤ 0.

#[export] Instance version_le_dec : RelDecision version_le.
Proof. intros a b. unfold version_le. apply _. Defined.

(** [pending].  The code leaves the order of equal versions open; here it is that
    of registration. *)
Definition pending (migrations : list Migration) (schema from to : string) : list Migration :=
  merge_sort version_le
    (filter (λ m, m_Schema m = schema ∧ 0 < compareSemver (version_of (m_Version m)) (version_of from) ∧
                  compareSemver (version_of (m_Version m)) (version_of to) ≤ 0) migrations).

(** ** The migrator (migrate.go) *)

Inductive stage := SUp | SVerify | SFinal | SCanceled.

(** What is published about one schema, with versions. *)
Inductive notice :=
| Started (from to : string)
| Applied (from to : string)
| Verified (from to : string) (final : bool)
| Failed (from to : string) (s : stage)
| Reverted (from to : string) (restored : bool).

Record stepFailure := mkFailure { f_stage : stage; f_version : string; f_from : string; undo : list Migration }.

(** A schema: its data and version, its backups and what was published, with the
    migrator's history. *)
Record schema := mkSchema {
  data : D;
  version : string;
  backups : gmap string D;
  notices : list notice;
  history : list (string * string);
}.

Inductive set_outcome := SetOk | SetNotWritten | SetNotNotified.

(** What fails around the migrations, and before which of them the context is
    found to have ended. *)
Record faults := mkFaults {
  version_unreadable : bool;
  no_backup_dir : bool;
  backup_fails : bool;
  restore_fails : bool;
  set_version : set_outcome;
  canceled : nat → bool;
}.

Record Migrator := mkMigrator {
  tool_version : string;
  autoRollback : bool;
  registry : list Migration;
  final_verify : option (string → D → bool);
}.

Inductive migrate_err :=
| EReadVersion
| EPrepareBackup
| EBackup
| EStep (s : stage) (version : string) (rollback_failed : bool)
| ESetVersion.

Definition emit (n : notice) (st : schema) : schema := mkSchema (data st) (version st) (backups st) (notices st ++ [n]) (history st).
Definition set_data (d : D) (st : schema) : schema := mkSchema d (version st) (backups st) (notices st) (history st).

(** [applyAll]: what has been applied so far, with the version reached. *)
Fixpoint apply_loop (ft : faults) (i : nat) (from : string) (applied : list Migration) (pend : list Migration) (st : schema) :
    option stepFailure * list Migration * string * schema :=
  match pend with
  | [] => (None, applied, from, st)
  | mig :: pend =>
      let to := m_Version mig in
      let failed s undo st := (Some (mkFailure s to from undo), applied, from, emit (Failed from to s) st) in
      if canceled ft i then failed SCanceled applied st
      else
        let st := emit (Started from to) st in
        let '(ok, d) := Up mig (data st) in
        let st := set_data d st in
        if negb ok then failed SUp applied st
        else
          let st := emit (Applied from to) st in
          let next st :=
            apply_loop ft (S i) to (applied ++ [mig]) pend
              (mkSchema (data st) (version st) (backups st) (notices st) (history st ++ [(m_Version mig, m_Schema mig)])) in
          match m_Verify mig with
          | None => next st
          | Some check => if check (data st) then next (emit (Verified from to false) st) else failed SVerify (applied ++ [mig]) st
          end
  end.

Definition applyAll (m : Migrator) (ft : faults) (current : string) (pend : list Migration) (st : schema) :
    option stepFailure * nat * schema :=
  let '(fail, applied, from, st) := apply_loop ft 0 current [] pend st in
  match fail with
  | Some f => (Some f, length applied, st)
  | None =>
      match final_verify m with
      | None => (None, length applied, st)
      | Some check =>
          if check from (data st) then (None, length applied, emit (Verified current from true) st)
          else (Some (mkFailure SFinal from current applied), length applied, emit (Failed current from SFinal) st)
      end
  end.

(** [rollback]: the applied migrations from the last to the first; true when the
    backup was restored instead, [None] when that failed. *)
Fixpoint rollback (ft : faults) (backup : D) (applied : list Migration) (d : D) : option bool * D :=
  match applied with
  | [] => (Some false, d)
  | mig :: applied =>
      let restore d := if restore_fails ft then (None, d) else (Some true, backup) in
      match Down mig with
      | None => restore d
      | Some down => let '(ok, d) := down d in if negb ok then restore d else rollback ft backup applied d
      end
  end.

(** [fail], with the backup the run made. *)
Definition fail_step (m : Migrator) (ft : faults) (current : string) (backup : D) (f : stepFailure) (st : schema) : migrate_err * schema :=
  if negb (autoRollback m) || (length (undo f) =? 0)%nat then (EStep (f_stage f) (f_version f) false, st)
  else match rollback ft backup (reverse (undo f)) (data st) with
       | (None, d) => (EStep (f_stage f) (f_version f) true, set_data d st)
       | (Some restored, d) => (EStep (f_stage f) (f_version f) false, emit (Reverted (f_version f) current restored) (set_data d st))
       end.

Definition setVersion (ft : faults) (v : string) (st : schema) : bool * schema :=
  let st' := mkSchema (data st) v (backups st) (notices st) (history st) in
  match set_version ft with SetOk => (true, st') | SetNotWritten => (false, st) | SetNotNotified => (false, st') end.

(** [runSchema]: how many migrations were applied, and what stopped it.  Pruning
    of old backups, which never fails a run, is left out. *)
Definition runSchema (m : Migrator) (ft : faults) (name : string) (st : schema) : nat * option migrate_err * schema :=
  if version_unreadable ft then (0%nat, Some EReadVersion, st)
  else
    let current := version st in
    match pending (registry m) name current (tool_version m) with
    | [] => (0%nat, None, st)
    | first :: rest =>
        if no_backup_dir ft then (0%nat, Some EPrepareBackup, st)
        else if backup_fails ft then (0%nat, Some EBackup, st)
        else
          let pend := first :: rest in
          let backup := data st in
          let st := mkSchema (data st) (version st) (<["pre-" +:+ m_Version first := backup]> (backups st)) (notices st) (history st) in
          let '(fail, n, st) := applyAll m ft current pend st in
          match fail with
          | Some f => let '(e, st) := fail_step m ft current backup f st in (n, Some e, st)
          | None =>
              let '(ok, st) := setVersion ft (default "" (m_Version <$> last pend)) st in
              (n, if ok : bool then None else Some ESetVersion, st)
          end
    end.

(** [Run]: the schemas one after the other, up to the first that fails. *)
Fixpoint Run (m : Migrator) (schemas : list (string * faults * schema)) (applied : nat) : res (string * migrate_err) nat * list schema :=
  match schemas with
  | [] => (Ok applied, [])
  | (name, ft, st) :: schemas =>
      let '(n, err, st) := runSchema m ft name st in
      match err with
      | Some e => (Err (name, e), st :: (snd <$> schemas))
      | None => let '(r, sts) := Run m schemas (applied + n) in (r, st :: sts)
      end
  end.

End migrations.
Arguments Migration : clear implicits.
Arguments schema : clear implicits.
Arguments Migrator : clear implicits.

(** ** Migrations are applied whole or undone *)

(** ** The order of versions *)

(** Two comparisons of one pair, either way round.  Differences wrap, so both may
    be negative. *)
Definition opposite (u v : Z) : Prop := (u = 0 ↔ v = 0) ∧ (0 < u → v < 0) ∧ (0 < v → u < 0).

Lemma opposite_int64 x y : opposite (int64 (x - y)) (int64 (y - x)).
Proof.
  unfold opposite, int64. pose proof (Z.div_mod (x - y + 2 ^ 63) (2 ^ 64)). pose proof (Z.div_mod (y - x + 2 ^ 63) (2 ^ 64)).
  pose proof (Z.mod_pos_bound (x - y + 2 ^ 63) (2 ^ 64)). pose proof (Z.mod_pos_bound (y - x + 2 ^ 63) (2 ^ 64)). lia.
Qed.

Lemma opposite_then u v u' v' : opposite u v → opposite u' v' → opposite (if negb (u =? 0) then u else u') (if negb (v =? 0) then v else v').
Proof. unfold opposite. intros H H'. destruct (Z.eqb_spec u 0), (Z.eqb_spec v 0); cbn [negb]; lia. Qed.

Lemma opposite_ident a b : opposite (comparePreIdent a b) (comparePreIdent b a).
Proof.
  unfold comparePreIdent. set (num s := n ← Sscanf_d s; if String.eqb (FormatInt n) s then Some n else None). change (opposite
    match num a, num b with Some x, Some y => int64 (x - y) | Some _, None => -1 | None, Some _ => 1 | None, None => if String.ltb a b then -1 else if String.ltb b a then 1 else 0 end
    match num b, num a with Some x, Some y => int64 (x - y) | Some _, None => -1 | None, Some _ => 1 | None, None => if String.ltb b a then -1 else if String.ltb a b then 1 else 0 end).
  destruct (num a), (num b); [apply opposite_int64|unfold opposite; lia..|].
  destruct (String.ltb a b), (String.ltb b a); unfold opposite; lia.
Qed.

Lemma opposite_idents a : ∀ b, opposite (compare_idents a b) (compare_idents b a).
Proof.
  induction a as [|x a IH]; intros [|y b]; cbn [compare_idents]; [unfold opposite; lia..|]. apply opposite_then; [apply opposite_ident|apply IH].
Qed.

Lemma opposite_semver a b : opposite (compareSemver a b) (compareSemver b a).
Proof.
  unfold compareSemver. do 3 (apply opposite_then; [apply opposite_int64|]).
  destruct (String.eqb (pre a) ""), (String.eqb (pre b) ""); [unfold opposite; lia..|]. apply opposite_idents.
Qed.

#[export] Instance version_le_total D : Total (@version_le D).
Proof. intros a b. unfold version_le. pose proof (opposite_semver (version_of (m_Version a)) (version_of (m_Version b))) as H. unfold opposite in H. lia. Qed.

Section props.
Context {D : Type}.

Abbreviation migration := (Migration D).

(** The data after a list of migrations, and that each of them succeeded and
    passed its own check. *)
Definition ups (l : list migration) (d : D) : D := foldl (λ d m, (Up m d).2) d l.

Fixpoint succeed (l : list migration) (d : D) : Prop :=
  match l with
  | [] => True
  | m :: l => (Up m d).1 = true ∧ (∀ check, m_Verify m = Some check → check (Up m d).2 = true) ∧ succeed l (Up m d).2
  end.

(** A migration that failed changed nothing, and a rollback that succeeds undoes
    the migration. *)
Definition tidy (m : migration) : Prop :=
  (∀ d, (Up m d).1 = false → (Up m d).2 = d) ∧
  ∀ down d, Down m = Some down → (Up m d).1 = true → (down (Up m d).2).1 = true → (down (Up m d).2).2 = d.

(** ** What is pending *)

Lemma elem_of_pending (ms : list migration) name from to m :
  m ∈ pending ms name from to ↔
  m ∈ ms ∧ m_Schema m = name ∧ 0 < compareSemver (version_of (m_Version m)) (version_of from) ∧
  compareSemver (version_of (m_Version m)) (version_of to) ≤ 0.
Proof. unfold pending. rewrite merge_sort_Permutation, list_elem_of_filter. tauto. Qed.

Lemma pending_sorted (ms : list migration) name from to : Sorted version_le (pending ms name from to).
Proof. apply Sorted_merge_sort, _. Qed.

(** ** Applying *)

Lemma succeed_app l l' d : succeed (l ++ l') d ↔ succeed l d ∧ succeed l' (ups l d).
Proof. revert d. induction l as [|m l IH]; intros d; cbn; [tauto|]. rewrite IH. unfold ups. tauto. Qed.

Lemma ups_app l l' d : ups (l ++ l') d = ups l' (ups l d).
Proof. unfold ups. apply foldl_app. Qed.

(** Where the loop stopped: after [done], at [mig]. *)
Definition stopped (d : D) (applied done : list migration) (mig : migration) (f : stepFailure) (d' : D) : Prop :=
  f_version f = m_Version mig ∧
  match f_stage f with
  | SCanceled => undo f = applied ++ done ∧ d' = ups done d
  | SUp => undo f = applied ++ done ∧ (Up mig (ups done d)).1 = false ∧ d' = (Up mig (ups done d)).2
  | SVerify => undo f = applied ++ done ++ [mig] ∧ (Up mig (ups done d)).1 = true ∧ d' = ups (done ++ [mig]) d
  | SFinal => False
  end.

Lemma apply_loop_spec ft pend : ∀ i from applied (st : schema D) fail applied' from' st',
  apply_loop ft i from applied pend st = (fail, applied', from', st') →
  ∃ done rest, pend = done ++ rest ∧ applied' = applied ++ done ∧ succeed done (data st) ∧ version st' = version st ∧ backups st' = backups st ∧
    match fail with
    | None => rest = [] ∧ data st' = ups done (data st) ∧ from' = default from (m_Version <$> last done)
    | Some f => ∃ mig rest', rest = mig :: rest' ∧ stopped (data st) applied done mig f (data st')
    end.
Proof.
  induction pend as [|mig pend IH]; intros i from applied st fail applied' from' st'; cbn [apply_loop].
  { intros [= <- <- <- <-]. exists [], []. by rewrite !app_nil_r. }
  destruct (canceled ft i).
  { intros [= <- <- <- <-]. exists [], (mig :: pend). rewrite app_nil_r. split_and!; try done. exists mig, pend. unfold stopped. cbn. by rewrite app_nil_r. }
  cbn [data emit set_data version backups]. destruct (Up mig (data st)) as [ok d] eqn:Eu. destruct ok; cbn [negb].
  2: { intros [= <- <- <- <-]. exists [], (mig :: pend). rewrite app_nil_r. split_and!; try done. exists mig, pend. unfold stopped. cbn. by rewrite app_nil_r, Eu. }
  assert (∀ s, data s = d → version s = version st → backups s = backups st → (∀ check, m_Verify mig = Some check → check d = true) →
    apply_loop ft (S i) (m_Version mig) (applied ++ [mig]) pend s = (fail, applied', from', st') →
    ∃ done rest, mig :: pend = done ++ rest ∧ applied' = applied ++ done ∧ succeed done (data st) ∧ version st' = version st ∧ backups st' = backups st ∧
    match fail with
    | None => rest = [] ∧ data st' = ups done (data st) ∧ from' = default from (m_Version <$> last done)
    | Some f => ∃ mig rest', rest = mig :: rest' ∧ stopped (data st) applied done mig f (data st')
    end) as Hnext.
  { intros s Hd Hv Hb Hc E. destruct (IH _ _ _ _ _ _ _ _ E) as (done & rest & -> & -> & Hp & Hv' & Hb' & Hf). rewrite Hd in Hp, Hf. exists (mig :: done), rest.
    rewrite <-app_assoc. split_and!; try done; [cbn; by rewrite Eu|congruence|congruence|]. destruct fail as [f|].
    - destruct Hf as (m' & rest' & -> & Hs). exists m', rest'. split; [done|]. unfold stopped in *. cbn [ups foldl app]. rewrite Eu. cbn [snd].
      destruct Hs as [? Hs]. split; [done|]. destruct (f_stage f); rewrite <-?app_assoc in Hs; done.
    - destruct Hf as (-> & -> & ->). split_and!; try done; [cbn; by rewrite Eu|]. rewrite last_cons. by destruct (last done). }
  destruct (m_Verify mig) as [check|] eqn:Ev; [|intros E; by eapply Hnext; [..|exact E]].
  cbn [data emit]. destruct (check d) eqn:Ec; [intros E; eapply Hnext; [..|exact E]; try done; by intros ? [= <-]|].
  intros [= <- <- <- <-]. exists [], (mig :: pend). rewrite app_nil_r. split_and!; try done. exists mig, pend. unfold stopped. cbn. by rewrite Eu.
Qed.

(** ** Rolling back *)

Lemma rollback_undoes ft (d0 : D) l : restore_fails ft = false → Forall tidy l → (∀ l1 m l2, l = l1 ++ m :: l2 → (Up m (ups l1 d0)).1 = true) →
  ∃ b, rollback ft d0 (reverse l) (ups l d0) = (Some b, d0).
Proof.
  intros Hr. induction l as [|m l IH] using rev_ind; intros Ht Hu; [by exists false|].
  rewrite reverse_app, ups_app. cbn [reverse app rollback]. change (reverse [m] ++ reverse l) with (m :: reverse l). cbn [rollback]. rewrite Hr.
  destruct (Down m) as [down|] eqn:Ed; [|by exists true]. cbn [ups foldl].
  apply Forall_app in Ht as [Ht Hm]. rewrite Forall_singleton in Hm. destruct Hm as [_ Hm].
  specialize (Hm down (ups l d0) Ed (Hu l m [] eq_refl)). destruct (down _) as [[] d]; cbn in Hm |- *; [|by exists true].
  rewrite (Hm eq_refl). apply IH; [done|]. intros l1 m' l2 ->. apply (Hu l1 m' (l2 ++ [m])). by rewrite <-app_assoc.
Qed.

Lemma succeed_ups l d : succeed l d → ∀ l1 m l2, l = l1 ++ m :: l2 → (Up m (ups l1 d)).1 = true.
Proof. intros H l1 m l2 ->. apply succeed_app in H as [_ [H _]]. done. Qed.

Lemma ups_snoc l m d :
  (∀ l1 m l2, l = l1 ++ m :: l2 → (Up m (ups l1 d)).1 = true) → (Up m (ups l d)).1 = true →
  ∀ l1 m' l2, l ++ [m] = l1 ++ m' :: l2 → (Up m' (ups l1 d)).1 = true.
Proof.
  intros H Hm l1 m' l2. destruct l2 as [|x l2 _] using rev_ind; [by intros [-> <-]%app_inj_tail|].
  rewrite app_comm_cons, app_assoc. intros [-> _]%app_inj_tail. by apply (H l1 m' l2).
Qed.

Lemma rolled_back m ft current (d0 : D) f (st : schema D) l e st' :
  autoRollback m = true → restore_fails ft = false → Forall tidy l → (∀ l1 m l2, l = l1 ++ m :: l2 → (Up m (ups l1 d0)).1 = true) →
  undo f = l → data st = ups l d0 → fail_step m ft current d0 f st = (e, st') →
  data st' = d0 ∧ version st' = version st ∧ e = EStep (f_stage f) (f_version f) false.
Proof.
  intros Ha Hr Ht Hu Hl Hd. unfold fail_step. rewrite Ha, Hl. cbn [negb orb]. destruct (length l =? 0)%nat eqn:El.
  { apply Nat.eqb_eq, nil_length_inv in El. subst l. intros [= <- <-]. by rewrite Hd, El. }
  destruct (rollback_undoes ft d0 l Hr Ht Hu) as [b Hb]. rewrite Hd, Hb. by intros [= <- <-].
Qed.

(** ** All or nothing *)

Lemma applied_or_undone m ft current pend (st st1 st2 : schema D) f n e :
  autoRollback m = true → restore_fails ft = false → Forall tidy pend → applyAll m ft current pend st = (Some f, n, st1) →
  fail_step m ft current (data st) f st1 = (e, st2) → data st2 = data st ∧ version st2 = version st ∧ ∃ s v, e = EStep s v false.
Proof.
  intros Ha Hr Ht. unfold applyAll. destruct (apply_loop ft 0 current [] pend st) as [[[fail applied] from] st3] eqn:El.
  destruct (apply_loop_spec _ _ _ _ _ _ _ _ _ _ El) as (done & rest & -> & -> & Hp & Hv & _ & Hf). cbn [app] in *.
  apply Forall_app in Ht as [Ht Ht']. pose proof (succeed_ups _ _ Hp) as Hu.
  assert (∀ l, Forall tidy l → (∀ l1 m l2, l = l1 ++ m :: l2 → (Up m (ups l1 (data st))).1 = true) → undo f = l → data st1 = ups l (data st) →
    version st1 = version st → fail_step m ft current (data st) f st1 = (e, st2) →
    data st2 = data st ∧ version st2 = version st ∧ ∃ s v, e = EStep s v false) as Hback.
  { intros l Hl Hul Hund Hd Hv1 E. destruct (rolled_back m ft current (data st) f st1 l e st2 Ha Hr Hl Hul Hund Hd E) as (? & ? & ?).
    split_and!; [done|congruence|eauto]. }
  destruct fail as [g|].
  - intros [= -> <- ->] E. destruct Hf as (mig & rest' & -> & Hver & Hs). apply Forall_cons in Ht' as [Hm _].
    destruct (f_stage f); [| |done|].
    + destruct Hs as (Hund & Hup & Hd). rewrite (proj1 Hm _ Hup) in Hd. by apply (Hback done).
    + destruct Hs as (Hund & Hup & Hd). apply (Hback (done ++ [mig])); try done; [by apply Forall_app; rewrite Forall_singleton|].
      by apply ups_snoc.
    + destruct Hs as (Hund & Hd). by apply (Hback done).
  - destruct Hf as (-> & Hd & _). destruct (final_verify m) as [check|]; [|done]. destruct (check _ _); [done|].
    intros [= <- <- <-]. by apply (Hback done).
Qed.

Lemma applied_all m ft current pend (st st1 : schema D) n :
  applyAll m ft current pend st = (None, n, st1) →
  n = length pend ∧ succeed pend (data st) ∧ data st1 = ups pend (data st) ∧ version st1 = version st ∧
  (∀ check, final_verify m = Some check → check (default current (m_Version <$> last pend)) (data st1) = true).
Proof.
  unfold applyAll. destruct (apply_loop ft 0 current [] pend st) as [[[fail applied] from] st3] eqn:El.
  destruct (apply_loop_spec _ _ _ _ _ _ _ _ _ _ El) as (done & rest & -> & -> & Hp & Hv & _ & Hf). destruct fail; [done|].
  destruct Hf as (-> & Hd & ->). rewrite app_nil_r. destruct (final_verify m) as [check|] eqn:Ef.
  - destruct (check _ _) eqn:Ec; [|done]. intros [= <- <-]. split_and!; try done. by intros ? [= <-].
  - intros [= <- <-]. by split_and!.
Qed.

(** C39. A schema's migrations are applied whole or undone: when the run reports no
    error, exactly the registered migrations of the schema above its version and
    up to the tool's were applied, in the order of their versions, each and the
    whole passed their checks, and the version recorded is the last one's; when
    it reports that a migration or a check failed, or that it was canceled or
    could not start, the data and the version are those from before; and when
    only recording the version failed, the data is fully migrated.  This is
    for migrations that leave the data alone when they fail and whose rollback
    undoes them, with automatic rollback and backups that restore. *)
Theorem migrations_all_or_nothing m ft name (st : schema D) n err st' :
  autoRollback m = true → restore_fails ft = false → Forall tidy (registry m) →
  runSchema m ft name st = (n, err, st') →
  let pend := pending (registry m) name (version st) (tool_version m) in
  match err with
  | None =>
      Sorted version_le pend ∧ n = length pend ∧ succeed pend (data st) ∧ data st' = ups pend (data st) ∧ version st' = default (version st) (m_Version <$> last pend) ∧
      (pend ≠ [] → ∀ check, final_verify m = Some check → check (version st') (data st') = true)
  | Some ESetVersion => n = length pend ∧ succeed pend (data st) ∧ data st' = ups pend (data st)
  | Some _ => data st' = data st ∧ version st' = version st
  end.
Proof.
  intros Ha Hr Ht. unfold runSchema. set (pend := pending _ _ _ _). assert (Sorted version_le pend) as Hsort by apply pending_sorted.
  assert (Forall tidy pend) as Hp by (apply Forall_forall; intros x [Hx _]%elem_of_pending; by eapply Forall_forall in Ht).
  destruct (version_unreadable ft); [by intros [= <- <- <-]|]. destruct pend as [|first rest] eqn:Ep; [by intros [= <- <- <-]|].
  destruct (no_backup_dir ft); [by intros [= <- <- <-]|]. destruct (backup_fails ft); [by intros [= <- <- <-]|]. rewrite <-Ep in *.
  set (st1 := mkSchema (data st) _ _ _ _). change (data st) with (data st1). change (version st) with (version st1).
  destruct (applyAll m ft _ pend st1) as [[[f|] k] st2] eqn:Eapp.
  - destruct (fail_step _ _ _ _ _ _) as [e st3] eqn:Ef. intros [= <- <- <-].
    destruct (applied_or_undone _ _ _ _ _ _ _ _ _ _ Ha Hr Hp Eapp Ef) as (? & ? & s & v & ->). done.
  - destruct (applied_all _ _ _ _ _ _ _ Eapp) as (-> & H1 & H2 & H3 & H4).
    assert (∃ v, m_Version <$> last pend = Some v) as [v Hv].
    { rewrite Ep, last_cons. destruct (last rest) as [x|]; by eexists. }
    rewrite Hv in H4 |- *. cbn in H4. unfold setVersion. destruct (set_version ft); intros [= <- <- <-]; cbn; done.
Qed.

End props.

(** ** Two migrations of a counter *)

Definition plus (v : string) (k : Z) (down : bool) : Migration Z :=
  mkMigration v "db" (λ d, (true, d + k)) (if down then Some (λ d, (true, d - k)) else None) None.

Definition refuse_big : Migration Z := mkMigration "v1.3.0" "db" (λ d, (d <? 10, if d <? 10 then d + 1 else d)) None None.

(** Registered out of order; the second one's rollback is missing. *)
Definition counter : Migrator Z := mkMigrator "1.4.0" true [refuse_big; plus "1.2.0" 4 false; plus "v1.1.0-rc.2" 5 true; plus "2.0.0" 9 true] None.

Definition fine : faults := mkFaults false false false false SetOk (λ _, false).

Definition at_version (d : Z) (v : string) : schema Z := mkSchema d v ∅ [] [].

Lemma counter_tidy : Forall tidy (registry counter).
Proof.
  repeat first [apply Forall_nil_2|apply Forall_cons_2]; (split; [|intros down d Hd; cbn in *; try discriminate Hd; injection Hd as <-; cbn; lia]);
    cbn; try discriminate. intros d H. destruct (d <? 10); [discriminate H|reflexivity].
Qed.

(** From 0 all three succeed; from 1 the last one fails and the backup comes back. *)
Lemma migrations_all_or_nothing_witness :
  (∃ st', runSchema counter fine "db" (at_version 0 "1.0.0") = (3%nat, None, st') ∧ data st' = 10 ∧ version st' = "v1.3.0") ∧
  ∃ st', runSchema counter fine "db" (at_version 1 "1.0.0") = (2%nat, Some (EStep SUp "v1.3.0" false), st') ∧ data st' = 1 ∧ version st' = "1.0.0".
Proof.
  split.
  - destruct (runSchema counter fine "db" (at_version 0 "1.0.0")) as [[n err] st'] eqn:E. exists st'.
    pose proof (migrations_all_or_nothing counter fine "db" (at_version 0 "1.0.0") n err st' eq_refl eq_refl counter_tidy E) as H.
    assert (n = 3%nat ∧ err = None) as [-> ->] by (apply (f_equal fst) in E; vm_compute in E; by injection E as <- <-).
    destruct H as (_ & _ & _ & Hd & Hv & _). split; [reflexivity|]. split; [rewrite Hd; vm_compute; reflexivity|rewrite Hv; vm_compute; reflexivity].
  - destruct (runSchema counter fine "db" (at_version 1 "1.0.0")) as [[n err] st'] eqn:E. exists st'.
    pose proof (migrations_all_or_nothing counter fine "db" (at_version 1 "1.0.0") n err st' eq_refl eq_refl counter_tidy E) as H.
    assert (n = 2%nat ∧ err = Some (EStep SUp "v1.3.0" false)) as [-> ->] by (apply (f_equal fst) in E; vm_compute in E; by injection E as <- <-).
    destruct H as [Hd Hv]. split; [reflexivity|]. split; [exact Hd|exact Hv].
Defined.

(** A first migration that fails half-way is not undone, although its backup is
    there; and the next run overwrites that backup. *)
Definition half : Migration Z := mkMigration "1.1.0" "db" (λ d, (false, d + 1)) (Some (λ d, (true, d - 1))) None.
Definition halfway : Migrator Z := mkMigrator "2.0.0" true [half] None.

Example half_failed_first_step_stays :
  let '(_, err, st1) := runSchema halfway fine "db" (at_version 7 "1.0.0") in
  let '(_, _, st2) := runSchema halfway fine "db" st1 in
  err = Some (EStep SUp "1.1.0" false) ∧ data st1 = 8 ∧ backups st1 !! "pre-1.1.0" = Some 7 ∧ data st2 = 9 ∧ backups st2 !! "pre-1.1.0" = Some 8.
Proof. vm_compute. done. Qed.

(** When the version cannot be written the migrations stay, and the next run
    applies them again. *)
Example unrecorded_version_migrates_twice :
  let ft := mkFaults false false false false SetNotWritten (λ _, false) in
  let '(_, err, st1) := runSchema counter ft "db" (at_version 0 "1.0.0") in
  let '(_, _, st2) := runSchema (mkMigrator "1.2.0" true (registry counter) None) fine "db" st1 in
  err = Some ESetVersion ∧ data st1 = 10 ∧ version st1 = "1.0.0" ∧ data st2 = 19.
Proof. vm_compute. done. Qed.

(** Migrations that were rolled back stay in the history. *)
Example history_keeps_undone :
  let '(_, _, st) := runSchema counter fine "db" (at_version 1 "1.0.0") in history st = [("v1.1.0-rc.2", "db"); ("1.2.0", "db")].
Proof. vm_compute. done. Qed.
