(* ===== verification/DocMigrate.v ===== *)
(** * Migrations of JSON documents (go/core/upgrade/document.go)

    A document is a decoded JSON object; objects are association lists, numbers
    keep their text.  A step's [Apply] may also put a Go [int] into it.  The
    chain follows versions up to the latest one; decoding and encoding are the
    library's and stay arguments. *)

From Stdlib Require Import Ascii.
From S2P Require Import Prelude Topics StreamWire GoStrings.

Local Open Scope Z_scope.

Inductive jval :=
| JNull
| JBool (b : bool)
| JNumber (s : string)
| JInt (n : Z)
| JString (s : string)
| JArray (l : list jval)
| JObject (m : list (string * jval)).

Abbreviation document := (list (string * jval)).

Fixpoint get_key (k : string) (m : document) : option jval :=
  match m with
  | [] => None
  | (k', v) :: m => if String.eqb k' k then Some v else get_key k m
  end.

Fixpoint set_key (k : string) (v : jval) (m : document) : document :=
  match m with
  | [] => [(k, v)]
  | (k', v') :: m => if String.eqb k' k then (k', v) :: m else (k', v') :: set_key k v m
  end.

(** A step; [Apply] fails, returns nil or returns a document. *)
Record DocStep := mkStep {
  From : Z;
  To : Z;
  Apply : document → res unit (option document);
  s_Verify : option (document → bool);
  Note : string;
}.

Record DocOptions := mkOptions { VersionField : string; Latest : Z; MissingIsZero : bool }.

Record DocApplied := mkApplied { ap_From : Z; ap_To : Z; ap_Note : string }.
Record DocReport := mkReport { rep_From : Z; rep_To : Z; rep_Applied : list DocApplied }.

Inductive doc_err := ErrDocNewer | ErrDocVersion | ErrDocGap | ErrDocStep | ErrDocInvalid | ErrVerify.

Definition versionField (o : DocOptions) : string := if String.eqb (VersionField o) "" then "version" else VersionField o.

(** The value at a path of keys. *)
Fixpoint lookup_path (segs : list string) (cur : jval) : option jval :=
  match segs with
  | [] => Some cur
  | seg :: segs => match cur with JObject m => v ← get_key seg m; lookup_path segs v | _ => None end
  end.

Definition docVersion (doc : document) (path : string) : option Z :=
  v ← lookup_path (SplitOn "." path) (JObject doc);
  match v with JNumber s => ParseInt s | JInt n => Some n | _ => None end.

Fixpoint set_path (segs : list string) (v : jval) (cur : document) : document :=
  match segs with
  | [] => cur
  | [seg] => set_key seg v cur
  | seg :: segs => set_key seg (JObject (set_path segs v (match get_key seg cur with Some (JObject m) => m | _ => [] end))) cur
  end.

Definition setDocVersion (doc : document) (path : string) (v : Z) : document := set_path (SplitOn "." path) (JNumber (FormatInt v)) doc.

Definition findDocStep (steps : list DocStep) (from : Z) : option DocStep := List.find (λ s, From s =? from) steps.

(** The check of the steps: each moves forward and not past the latest. *)
Definition step_valid (latest : Z) (s : DocStep) : bool := (From s <? To s) && (To s <=? latest).

(** The chain from version [cur] on; [None] only without fuel. *)
Fixpoint migrate_loop (fuel : nat) (steps : list DocStep) (field : string) (latest cur : Z) (doc : document) (report : DocReport) :
    option (res doc_err document * DocReport) :=
  if negb (cur <? latest) then Some (Ok doc, report)
  else match fuel with
       | O => None
       | S fuel =>
           match findDocStep steps cur with
           | None => Some (Err ErrDocGap, report)
           | Some step =>
               match Apply step doc with
               | Err _ => Some (Err ErrDocStep, report)
               | Ok None => Some (Err ErrDocStep, report)
               | Ok (Some out) =>
                   if match s_Verify step with Some check => negb (check out) | None => false end then Some (Err ErrVerify, report)
                   else migrate_loop fuel steps field latest (To step) (setDocVersion out field (To step))
                          (mkReport (rep_From report) (To step) (rep_Applied report ++ [mkApplied (From step) (To step) (Note step)]))
               end
           end
       end.

Definition latest_of (steps : list DocStep) (o : DocOptions) : Z :=
  if Latest o =? 0 then foldl (λ l s, Z.max l (To s)) (Latest o) steps else Latest o.

Definition no_report : DocReport := mkReport 0 0 [].

(** Each turn of the loop moves the version up, so the distance to the latest
    one is fuel enough. *)
Definition migrateDocument (doc : document) (steps : list DocStep) (o : DocOptions) : option (res doc_err document * DocReport) :=
  let field := versionField o in
  match (match docVersion doc field with Some v => Some v | None => if MissingIsZero o then Some 0 else None end) with
  | None => Some (Err ErrDocVersion, no_report)
  | Some cur =>
      let latest := latest_of steps o in
      let report := mkReport cur cur [] in
      if negb (forallb (step_valid latest) steps) then Some (Err ErrDocInvalid, report)
      else if latest <? cur then Some (Err ErrDocNewer, report)
      else migrate_loop (Z.to_nat (latest - cur)) steps field latest cur doc report
  end.

(** [MigrateDocument] on bytes: the bytes themselves when nothing was applied. *)
Definition MigrateDocument (decode : string → option document) (encode : document → option string) (raw : string) (steps : list DocStep) (o : DocOptions) :
    option (res doc_err string * DocReport) :=
  match decode raw with
  | None => Some (Err ErrDocInvalid, no_report)
  | Some m =>
      '(r, report) ← migrateDocument m steps o;
      Some (match r with
            | Err e => Err e
            | Ok out => if (length (rep_Applied report) =? 0)%nat then Ok raw
                        else match encode out with Some b => Ok b | None => Err ErrDocInvalid end
            end, report)
  end.

(** [MigrateDocumentMap]: the same on a copy made by encoding and decoding. *)
Definition MigrateDocumentMap (decode : string → option document) (encode : document → option string) (doc : document) (steps : list DocStep) (o : DocOptions) :
    option (res doc_err document * DocReport) :=
  match encode doc ≫= decode with
  | None => Some (Err ErrDocInvalid, no_report)
  | Some m => migrateDocument m steps o
  end.

(** ** Reading back what was set *)

Lemma get_set_key k v m : get_key k (set_key k v m) = Some v.
Proof. induction m as [|[k' v'] m IH]; cbn; [by rewrite String.eqb_refl|]. destruct (String.eqb_spec k' k); cbn; [by subst; rewrite String.eqb_refl|]. destruct (String.eqb_spec k' k); [done|apply IH]. Qed.

Lemma lookup_set_path segs v : segs ≠ [] → ∀ cur, lookup_path segs (JObject (set_path segs v cur)) = Some v.
Proof.
  induction segs as [|seg segs IH]; intros Hne cur; [done|]. destruct segs as [|seg' segs]; cbn [set_path lookup_path].
  - by rewrite get_set_key.
  - rewrite get_set_key. cbn [mbind option_bind]. by apply IH.
Qed.

Lemma ParseInt_FormatInt n : - 2 ^ 63 ≤ n < 2 ^ 63 → ParseInt (FormatInt n) = Some n.
Proof.
  intros Hn. unfold FormatInt. destruct (Z.ltb_spec n 0).
  - unfold ParseInt, parse_digits. pose proof (formatOffset_all_digits (- n) ltac:(lia)) as Hd. pose proof (formatOffset_value (- n) ltac:(lia)) as Hv.
    destruct (formatOffset (- n)) as [|c s] eqn:E; [cbn in Hv; lia|]. rewrite Hd. cbn [negb orb String.eqb]. rewrite Hv. cbn [mbind option_bind].
    destruct (Z.leb_spec (- n) (2 ^ 63)); [f_equal|]; lia.
  - pose proof (formatOffset_all_digits n ltac:(lia)) as Hd. pose proof (formatOffset_value n ltac:(lia)) as Hv.
    destruct (formatOffset n) as [|c s] eqn:E; [cbn in Hv; subst n; discriminate E|].
    assert (ParseInt (String c s) = (x ← parse_digits (String c s); if x <? 2 ^ 63 then Some x else None)) as ->.
    { unfold ParseInt. cbn [all_chars] in Hd. apply andb_true_iff in Hd as [Hc _]. destruct c as [[] [] [] [] [] [] [] []]; done. }
    unfold parse_digits. rewrite Hd. cbn [negb orb String.eqb]. rewrite Hv. cbn [mbind option_bind]. destruct (Z.ltb_spec n (2 ^ 63)); [done|lia].
Qed.

Lemma set_version_reads doc path v : - 2 ^ 63 ≤ v < 2 ^ 63 → docVersion (setDocVersion doc path v) path = Some v.
Proof.
  intros Hv. unfold docVersion, setDocVersion. rewrite lookup_set_path by apply SplitOn_not_nil. cbn. by apply ParseInt_FormatInt.
Qed.

(** ** The chain *)

(** The applied steps lead from one version to the next. *)
Fixpoint chain (from : Z) (l : list DocApplied) (to : Z) : Prop :=
  match l with
  | [] => from = to
  | a :: l => ap_From a = from ∧ from < ap_To a ∧ chain (ap_To a) l to
  end.

Lemma chain_snoc from l to a : chain from l to → ap_From a = to → to < ap_To a → chain from (l ++ [a]) (ap_To a).
Proof. revert from. induction l as [|b l IH]; intros from; cbn; [by intros -> -> ?|]. intros (? & ? & ?) ? ?. auto. Qed.

(** The document after applying these steps of [steps], each of which succeeded
    and passed its check. *)
Inductive applied_to (steps : list DocStep) (field : string) : document → list DocApplied → document → Prop :=
| applied_none doc : applied_to steps field doc [] doc
| applied_snoc doc l doc' step out :
    applied_to steps field doc l doc' → step ∈ steps → Apply step doc' = Ok (Some out) → (∀ check, s_Verify step = Some check → check out = true) →
    applied_to steps field doc (l ++ [mkApplied (From step) (To step) (Note step)]) (setDocVersion out field (To step)).

Lemma find_step steps from s : findDocStep steps from = Some s → s ∈ steps ∧ From s = from.
Proof. intros [H1 H2]%List.find_some. split; [by apply list_elem_of_In|lia]. Qed.

Definition in_int (n : Z) : Prop := - 2 ^ 63 ≤ n < 2 ^ 63.

(** What the chain ends with, [doc0] being the document it began with. *)
Definition ended (steps : list DocStep) (field : string) (latest : Z) (doc0 : document) (from : Z) (r : res doc_err document) (rep : DocReport) : Prop :=
  rep_From rep = from ∧ chain from (rep_Applied rep) (rep_To rep) ∧ rep_To rep ≤ latest ∧
  match r with
  | Ok out => rep_To rep = latest ∧ applied_to steps field doc0 (rep_Applied rep) out ∧ (rep_Applied rep ≠ [] → docVersion out field = Some latest)
  | Err e => e = ErrDocGap ∧ findDocStep steps (rep_To rep) = None ∨ e = ErrDocStep ∨ e = ErrVerify
  end.

Lemma ended_ok steps field latest doc0 from cur doc rep :
  cur = latest → rep_From rep = from → rep_To rep = cur → chain from (rep_Applied rep) cur → applied_to steps field doc0 (rep_Applied rep) doc →
  (rep_Applied rep ≠ [] → docVersion doc field = Some cur) → ended steps field latest doc0 from (Ok doc) rep.
Proof. intros <- ? <- ? ? ?. unfold ended. by split_and!. Qed.

Lemma migrate_loop_ends steps field latest doc0 from :
  forallb (step_valid latest) steps = true → in_int latest →
  ∀ fuel cur doc rep, latest - cur ≤ Z.of_nat fuel → - 2 ^ 63 ≤ cur ≤ latest →
  rep_From rep = from → rep_To rep = cur → chain from (rep_Applied rep) cur → applied_to steps field doc0 (rep_Applied rep) doc →
  (rep_Applied rep ≠ [] → docVersion doc field = Some cur) →
  ∃ r rep', migrate_loop fuel steps field latest cur doc rep = Some (r, rep') ∧ ended steps field latest doc0 from r rep'.
Proof.
  intros Hv Hl. rewrite forallb_forall in Hv. induction fuel as [|fuel IH]; intros cur doc rep Hf Hle Hfrom Hto Hch Hap Hver; cbn [migrate_loop].
  - destruct (Z.ltb_spec cur latest); [lia|]. cbn [negb]. eexists _, _. split; [reflexivity|]. apply (ended_ok _ _ _ _ _ cur); [lia|done..].
  - destruct (Z.ltb_spec cur latest) as [Hlt|]; cbn [negb].
    2: { eexists _, _. split; [reflexivity|]. apply (ended_ok _ _ _ _ _ cur); [lia|done..]. }
    assert (∀ e, e = ErrDocGap ∧ findDocStep steps cur = None ∨ e = ErrDocStep ∨ e = ErrVerify → ended steps field latest doc0 from (Err e) rep) as Herr.
    { intros e He. unfold ended. rewrite Hto. split_and!; [done|done|lia|done]. }
    destruct (findDocStep steps cur) as [s|] eqn:Es; [|eexists _, _; split; [reflexivity|apply Herr; auto]].
    destruct (find_step _ _ _ Es) as [Hin Hfs].
    destruct (Apply s doc) as [[out|]|] eqn:Ea; [|eexists _, _; split; [reflexivity|apply Herr; auto]..].
    destruct (match s_Verify s with Some check => negb (check out) | None => false end) eqn:Ev; [eexists _, _; split; [reflexivity|apply Herr; auto]|].
    pose proof (Hv s (proj1 (list_elem_of_In _ _) Hin)) as Hs. unfold step_valid in Hs.
    apply IH; cbn [rep_From rep_To rep_Applied]; [lia|lia|done|done| | |].
    + apply (chain_snoc from _ cur); [done|by cbn|cbn; lia].
    + econstructor; [exact Hap|done|exact Ea|]. intros check Hc. rewrite Hc in Ev. by apply negb_false_iff in Ev.
    + intros _. apply set_version_reads. unfold in_int in Hl. lia.
Qed.


(** ** Two steps given out of order *)

Definition rename (from to : string) (doc : document) : res unit (option document) :=
  match get_key from doc with Some v => Ok (Some (set_key to v doc)) | None => Err tt end.

Definition steps2 : list DocStep :=
  [mkStep 2 5 (rename "b" "c") (Some (λ d, match get_key "c" d with Some _ => true | None => false end)) "b becomes c"; mkStep 1 2 (rename "a" "b") None "a becomes b"].

Definition old_doc : document := [("a", JString "x"); ("meta", JObject [("version", JNumber "1")])].

